(* ===== verification/_CoqProject ===== *)
-Q . S2P
Prelude.v
GoString.v
GoRegexp.v
GoStrconv.v
GoNet.v
GoUrl.v
NetGuard.v
BrokerMatch.v
BrokerHost.v
BrokerAuth.v
BrokerConfig.v
RateLimit.v
SlidingWindow.v
TokenBucket.v
Semaphore.v
RateRegistry.v
RateSettings.v
SqlClassify.v
PgWire.v
AuditRow.v
AuditChain.v
AuditVerify.v
AuditTheorems.v
PgPool.v
PgPoolInv.v
PgPoolSteps.v
PgPoolTheorems.v
Entitlement.v
EntitlementCache.v
ImageRule.v
RunnerId.v
RunnerSession.v
Harness.v
Authorize.v
Catalog.v
CatalogMatch.v
CatalogFacts.v
CatalogGrants.v
Proposal.v
ProposalMerge.v
BrokerCore.v
BrokerInject.v
Substitute.v
ProxySession.v
PgSession.v
PgSessionFacts.v
PgSwallow.v
PgSessionTables.v
CleanupStore.v
VaultDatabase.v
LeaseMinter.v
LeaseFacts.v
LeaseFleet.v
LeaseInv.v
LeaseSteps.v
LeaseTheorems.v
LeaseTakeover.v
LeaseLiveness.v
VaultLogins.v
VaultLoginsFacts.v
VaultLoginsTheorems.v
MitmScreen.v
RequestAudit.v
MitmGit.v
MitmAdapter.v
MitmTheorems.v
MitmStrict.v
WebSocket.v
RequestLogs.v
RequestLogTheorems.v
MitmForward.v
MitmConnect.v
AccountTheorems.v
ServerAuth.v
ServerUsers.v
ServerVaults.v
ServerLogin.v
Requests.v
AccessTheorems.v
ServerDemo.v
