(* ===== verification/Prelude.v ===== *)
(** * Agent Vault: verification library

    Agent Vault lets agents use services without holding their credentials: an
    HTTP proxy matches a request to a configured service or catalog entry and
    attaches the credential, a PostgreSQL broker relays sessions to databases, a
    decision about pools and people says who may use what, rate limits protect
    the brokers, a network guard decides where connections may go, and an audit
    chain makes the trail of what happened tamper-evident.

    ** Conventions

    The definitions translate the Go code under [internal/].  A Go string is a
    [list byte]; [int] and the sized integers are [Z] with wrap-around and
    saturation written out where the code can reach them; [float64] is IEEE
    binary64 ([GoStrconv]); a map is a [gmap], or an association list where its
    iteration order matters, with the order an argument; a nil pointer or map
    is [None]; a function that returns [error] returns [result] or [option].
    What a function reads from outside (the clock, the environment, DNS, the
    database, HMAC, Ed25519, JSON and certificate decoding) is an argument, and
    a theorem that needs something of it says so.  Where goroutines share state
    behind a mutex, each locked section is one step of a state, shared objects
    live in a heap, and theorems hold of every sequence of steps.  Where a method
    reads and writes outside its lock, it is a program whose calls interleave.  Names are the
    source's; a loop body or an [if] chain split off for readability has a
    lower-case name of its own.

    ** Files

    Language and standard library: this file (bytes, results, tactics, list
    lemmas), [GoString] ([strings], UTF-8), [GoRegexp] ([regexp]), [GoStrconv]
    (with [float64]), [GoNet] ([net] addresses), [GoUrl] (URLs, header names).

    Egress: [NetGuard] is [netguard/netguard.go], the dial-time policy.
    C1: the dialer connects exactly when every resolved address
    is permitted.  Lemmas: an unreadable egress list blocks all; the IPv6
    unspecified address is not blocked.

    Broker: [BrokerMatch] (matching), [BrokerHost] (hosts, paths, ports,
    names), [BrokerAuth] (credentials, substitutions),
    [BrokerConfig] (whole configurations) are [broker/broker.go] and
    [broker/fixed_query.go].  C15: the matched service is the
    best of those that admit the request.  Lemmas: an inline host reads back as
    what was printed, a fixed-query service owns its operation.

    What a proxied request gets, [brokercore/]: [GoUrl] has [net/url]'s escaping;
    [BrokerCore] is [brokercore.go] (headers, hosts, error responses),
    [BrokerInject] is [credential.go], [Substitute] is [substitution.go], and
    [ProxySession] is [proxyauth.go], [session.go], [kinds.go],
    [proxyheader.go], [attestation.go] and [replica.go].
    C18, C40: which credentials a
    request reads and, when it fails, does not expose.
    C30: values stay in the surfaces they are declared for.
    C36: a token survives the Basic form.  Lemmas: where
    injected headers come from, the outbound headers, a resolved scope is granted,
    a PROXY header is one line.

    Proposals, [proposal/] and [server/handle_services.go]: [Proposal] has their
    validation, normalization and merge; [ProposalMerge] compares the merge with
    a reference.  Lemmas: the merge, service by service; no dangling credential
    references.

    HTTP catalog, [httpcatalog/]: [ImageRule] is [imagerule/imagerule.go];
    [Harness] (agent profiles and pools) is [harness.go] and the pools of
    [catalog.go]; [Catalog] (entries, [normalize], [Parse],
    tiers, grants) and [CatalogMatch] (routing) are [catalog.go], [browser.go],
    [browser_paths.go], [gcp.go] and [postgres_ca.go]; [CatalogFacts] and
    [CatalogGrants] prove what a parsed catalog promises.
    C22: no grant is refused by the
    entitlement decision for a reason of the catalog's own.
    Lemmas: which requests a git entry and a header entry grant; what browser sessions cannot reach; images
    stay below their prefix and belong to one profile; a pull request's head is a
    branch its session may push.

    The proxy, [mitm/]: [MitmScreen] looks for secrets in responses, [MitmGit]
    reads pushes and pull requests, [MitmAdapter] is [forwardCatalog] with its
    five handlers, each a function to the list of its effects, and
    [MitmTheorems] says what every request comes to.  C2:
    one request at most, audited, granted, with the right headers.
    C7, C19: no part of a secret comes
    back, however the body is cut.  C13: git reads no ref the
    broker did not check.  [MitmStrict] is [strict.go]
    without a catalog, C10: one bodiless read, whose secrets
    stand where the placeholders stood.  [MitmForward] is [forwardRequest] outside
    the strict profile with the upgrade it may end in, C20: what is
    sent; C37: one record for each request.  [WebSocket] is
    [websocket.go], C35: what the upstream server reads is what the
    client wrote, with the substitutions applied.  [MitmConnect] is [connect.go],
    [attestation.go] and [proxy.go], whose handlers are a step relation and which
    calls the request handlers above; C9: no request
    of a tunnel without a caller resolved anew; C33: the limit and the
    end of tunnels.

    What is kept of a request: [RequestAudit] is [requestlog/durable.go] and
    [store/proxy_audit.go], C21: the rows of the strict profile.
    [RequestLogs] is the request log of [sql_store.go], [retention.go] and
    [handle_logs.go], and of [batch_sink.go], whose worker and callers interleave; [RequestLogTheorems], C34: the pages of the log.
    Lemmas: what becomes of a record, what trimming keeps.

    Who may: [RunnerId] verifies session tokens ([runnerid/verify.go],
    [cursor.go]); [RunnerSession] pins them ([store/runner_session.go]);
    [Entitlement] is [entitlement/entitlement.go], with the directory cache's
    theorems in [EntitlementCache]; [Authorize] is [authorize/authorize.go] and
    puts them together.  C5: who is taken for a person, from where and on which Pod.
    C11: the cache under every interleaving.
    Lemmas: the decision is the declared rule, answers have a source, tokens and
    their pins, and the pools of a person.

    Rate limits, [ratelimit/] and [server/ratelimit_settings.go]: [RateLimit]
    (tiers, configuration, failure counters), [SlidingWindow], [TokenBucket],
    [Semaphore], [RateRegistry] (dispatch, middleware), [RateSettings].
    C31: the sliding window refines a limiter that never
    forgets.
    Lemmas: semaphores under every interleaving, the order of a proxy request's checks, floors of the settings, bounded tables, bursts, the keyed
    semaphores, a saturated map and a reload from off that limit nothing.

    PostgreSQL broker, [pgproxy/]: [SqlClassify] is
    [session_state.go], [PgWire] is [readonly_relay.go], [message_reader.go]
    and [brokercore/startup.go]; [PgPool] is [pool.go], its invariant
    in [PgPoolInv], preserved in [PgPoolSteps], used in [PgPoolTheorems].
    C39: what the classifiers accept.
    C27: what a read-only session can send.
    C12: connections of the shared
    pool have one user.  Lemmas: its budgets are respected, credentials are revoked once drained, two texts the
    classifiers misread, a rotation that outlives [close], a pinned share that
    is exceeded, and framing that does not depend on how the stream is cut.

    [PgSession] is the pooled session of [pgproxy/txn.go]: what it refuses, sends,
    counts and swallows, and how it is drained, checked and given its parameters.
    [PgSessionFacts] runs it against any server that answers in order.
    C4: no connection goes back with work or a transaction
    open.  [PgSwallow], C24: the client gets its own answers
    and only those, unless it closes a statement or an own message is skipped,
    which two lemmas show.  [PgSessionTables], C28: what
    reaches a server passed the filters.

    Database credentials.  [CleanupStore] is [store/database_cleanup.go], each
    transaction a function of the tables.  [VaultDatabase] is
    [hashicorp/database.go] and [database_session.go].  [LeaseMinter] is
    [pgproxy/durable_leases.go]: each method is a program, a tree of calls to the
    clock, the journal, Vault and the minter's own fields.  [LeaseFleet] runs any
    number of these programs on any number of processes against one database and
    one Vault, a call at a time; requests and answers get lost, clocks drift
    within a bound, processes crash and restart.  [LeaseFacts], [LeaseInv]
    and [LeaseSteps] prove the invariant of the fleet.
    [LeaseTheorems], C3: no credential without a record;
    C8, C14: fencing by the local clock
    protects records and sessions.  [LeaseTakeover], C26: a
    name has one live process (and a restart claims its own, a lemma).  [LeaseLiveness],
    C23: a retry pass cleans up what the dead left.
    [VaultLogins] is [hashicorp/reauth.go], the logins that database sessions
    hang on; [VaultLoginsFacts] proves its invariants.  [VaultLoginsTheorems],
    C16: no login is revoked under a session;
    C29: how many are held.  Lemmas: two comments that say
    more than the code does.

    Management API: [AccountTheorems] is the part of [sql_store.go] that keeps users,
    agents, vaults, grants, sessions, invites and codes, with an invariant every
    operation preserves.  [ServerAuth] is [server.go]'s authentication and role
    checks, over a type of handlers whose every store call may fail and may be
    interleaved with others; [ServerUsers] is [handle_users.go], [ServerVaults] is
    [handle_agents.go], [handle_vaults.go] and the two session files, [ServerLogin]
    is [handle_auth.go].  [Requests] is the routes and the interleaving of requests.
    [AccessTheorems], C6: nobody gains a role without the
    authority for it; C17: the tables stay well-formed;
    C32.  [ServerDemo] runs concrete requests; lemmas: the last
    owners can demote each other at once, a failed count opens an invite-only
    instance, and a verified account keeps its first registrant's password.

    Audit, [auditchain/]: [AuditRow] is [row.go], [AuditChain] is [chain.go] (a
    boot and its operations, with [Checkpoint] as the three parts it runs under
    the lock), [AuditVerify] is [verify.go], and [AuditTheorems] relates them.
    C38: the MAC input is injective.  C25: a signed checkpoint protects what
    precedes it even if every HMAC key is known.  Lemmas: what a boot writes
    verifies, what verifies was written, a broken trail stops sessions, and sessions need current
    checkpoints.

    ** Fuel and bounds

    Recursion that is not structural carries a natural number that the caller
    computes from the input (one unit per byte for the SQL scanner, the relay,
    the frame tracker and the PEM reader; one per taken name for
    [DisambiguateSlug], per byte of the value for the tag of [dollarQuote], and
    per heartbeat of the owner's time to live for [claimOwner]);
    [splitStatementsRaw_complete], C27,
    [restart_claims_its_name] and [AssignSlugNames_unique] state or include that it suffices, so no result
    is a consequence of running out.  Regular expressions with stars match by
    the text's length.

    ** Not modelled

    The relays' goroutines and deadlines, the HTTP handlers for
    credentials, services, databases, proposals and settings and the words of every
    handler's messages, the SQL of the tables no file above names, JSON decoding,
    X.509 and TLS, clients of external services other than Vault's database sessions,
    the database broker's upstream connections and SCRAM, the database catalog, the
    command line, the web interface and the TypeScript SDK. *)

From Stdlib Require Export ZArith Lia.
From Stdlib Require Export Strings.Byte.
From stdpp Require Export prelude strings gmap countable relations.

#[global] Open Scope Z_scope.

(** ** Bytes and byte strings

    A Go [string] is an immutable sequence of bytes, so every string of the
    model is a [list byte]. *)

Abbreviation bytes := (list Byte.byte).

Declare Scope go_scope.
Delimit Scope go_scope with go.
#[global] Open Scope go_scope.

(** [#"text"] is the Go literal ["text"]. *)
Notation "# s" := (String.list_byte_of_string s%string)
  (at level 1, s constr at level 0, format "# s") : go_scope.

#[global] Instance byte_eq_decision : EqDecision Byte.byte := Byte.byte_eq_dec.

Definition byte_of_N_total (n : N) : Byte.byte :=
  match Byte.of_N n with Some b => b | None => Byte.x00 end.

#[global] Program Instance byte_countable : Countable Byte.byte :=
  inj_countable' Byte.to_N byte_of_N_total _.
Next Obligation. intros b. unfold byte_of_N_total. by rewrite Byte.of_to_N. Qed.

(** The numeric value of a byte. *)
Definition bval (b : Byte.byte) : Z := Z.of_N (Byte.to_N b).

Lemma bval_range b : 0 <= bval b < 256.
Proof.
  unfold bval. pose proof (Byte.to_N_bounded b). lia.
Qed.

Lemma bval_inj b1 b2 : bval b1 = bval b2 → b1 = b2.
Proof.
  unfold bval. intros H. apply N2Z.inj in H.
  pose proof (Byte.of_to_N b1). pose proof (Byte.of_to_N b2). congruence.
Qed.

(** The byte holding a value, modulo 256. *)
Definition byte_of (z : Z) : Byte.byte := byte_of_N_total (Z.to_N (z mod 256)).

Lemma bval_byte_of z : bval (byte_of z) = z mod 256.
Proof.
  unfold bval, byte_of, byte_of_N_total.
  pose proof (Z.mod_pos_bound z 256 ltac:(lia)) as Hb.
  destruct (Byte.of_N (Z.to_N (z mod 256))) as [b|] eqn:E.
  - apply Byte.to_of_N in E. rewrite E. lia.
  - apply Byte.of_N_None_iff in E. lia.
Qed.

(** Character classes the source tests with [c >= 'a' && c <= 'z'] and the
    like, on code points. *)
Definition in_range (lo hi c : Z) : bool := (lo <=? c) && (c <=? hi).
Definition is_lower (c : Z) : bool := in_range 97 122 c.
Definition is_upper (c : Z) : bool := in_range 65 90 c.
Definition is_digit (c : Z) : bool := in_range 48 57 c.
Definition is_alnum (c : Z) : bool := is_lower c || is_upper c || is_digit c.

(** ** Fixed-width integers and time

    Go's [int] is 64 bits wide on every platform the program is built for.
    Instants are nanoseconds on an unbounded axis; a [time.Duration] is an
    int64, and [Time.Sub] saturates. *)

Definition max_int64 : Z := 2 ^ 63 - 1.
Definition min_int64 : Z := - 2 ^ 63.
Definition uint64_wrap (z : Z) : Z := z mod 2 ^ 64.
Definition in_int64 (z : Z) : bool := in_range min_int64 max_int64 z.

Definition time_Sub (t u : Z) : Z := Z.max min_int64 (Z.min max_int64 (t - u)).
Definition time_Add (t d : Z) : Z := t + d.

Definition Nanosecond : Z := 1.
Definition Millisecond : Z := 1000000.
Definition Second : Z := 1000 * Millisecond.
Definition Minute : Z := 60 * Second.

(** ** Results of fallible code *)

Inductive result (E A : Type) : Type :=
| Ok (a : A)
| Err (e : E).
Arguments Ok {E A} a.
Arguments Err {E A} e.

Definition is_Ok {E A} (r : result E A) : bool :=
  match r with Ok _ => true | Err _ => false end.

#[global] Instance result_ret {E} : MRet (result E) := λ A a, Ok a.
#[global] Instance result_bind {E} : MBind (result E) :=
  λ A B f r, match r with Ok a => f a | Err e => Err e end.

Lemma result_bind_Ok {E A B} (f : A → result E B) (r : result E A) b :
  r ≫= f = Ok b ↔ ∃ a, r = Ok a ∧ f a = Ok b.
Proof.
  destruct r; unfold mbind, result_bind; split;
    [eauto | intros (x & [= ->] & H) | done | intros (x & [=] & _)]; auto.
Qed.

(** A Go function that returns only [error] is modelled by [option E]: [None] is
    [nil].  [first_error f l]: the loop [for _, x := range l { if err := f(x); err != nil
    { return err } }]. *)
Fixpoint first_error {E A} (f : A → option E) (l : list A) : option E :=
  match l with
  | [] => None
  | x :: l' => match f x with Some e => Some e | None => first_error f l' end
  end.

Lemma first_error_None {E A} (f : A → option E) l :
  first_error f l = None ↔ Forall (λ x, f x = None) l.
Proof.
  induction l as [|x l IH]; simpl; [split; auto|].
  rewrite Forall_cons_iff, <- IH. destruct (f x); split; [done | by intros [? _] | by intros ? | by intros [_ ?]].
Qed.

Lemma first_error_Some {E A} (f : A → option E) l e :
  first_error f l = Some e → ∃ x, x ∈ l ∧ f x = Some e.
Proof.
  induction l as [|x l IH]; simpl; [done|].
  destruct (f x) eqn:Hf; intros H.
  - simplify_eq. exists x. split; [left|done].
  - destruct (IH H) as (y & ? & ?). exists y. split; [by right|done].
Qed.

(** ** Booleans and small tactics *)

Lemma forallb_Forall {A} (f : A → bool) l :
  forallb f l = true ↔ Forall (λ x, f x = true) l.
Proof.
  induction l as [|x l IH]; simpl; [split; auto|].
  by rewrite andb_true_iff, Forall_cons_iff, IH.
Qed.

Lemma existsb_Exists {A} (f : A → bool) l :
  existsb f l = true ↔ ∃ x, x ∈ l ∧ f x = true.
Proof.
  rewrite List.existsb_exists. by setoid_rewrite list_elem_of_In.
Qed.

Lemma existsb_false {A} (f : A → bool) l :
  existsb f l = false ↔ ∀ x, x ∈ l → f x = false.
Proof.
  split.
  - intros H x Hx. destruct (f x) eqn:E; [|done].
    assert (existsb f l = true) by (apply existsb_Exists; eauto). congruence.
  - intros H. destruct (existsb f l) eqn:E; [|done].
    apply existsb_Exists in E as (x & Hx & Hf). rewrite H in Hf; done.
Qed.

(** Turn boolean hypotheses into propositions, everywhere. *)
Ltac b2p :=
  repeat match goal with
  | H : (_ && _)%bool = true |- _ => apply andb_true_iff in H as [? ?]
  | H : (_ || _)%bool = false |- _ => apply orb_false_iff in H as [? ?]
  | H : (_ || _)%bool = true |- _ => apply orb_true_iff in H
  | H : (_ && _)%bool = false |- _ => apply andb_false_iff in H
  | H : negb _ = true |- _ => apply negb_true_iff in H
  | H : negb _ = false |- _ => apply negb_false_iff in H
  | H : bool_decide _ = true |- _ => apply bool_decide_eq_true in H
  | H : bool_decide _ = false |- _ => apply bool_decide_eq_false in H
  | H : (_ <? _) = true |- _ => apply Z.ltb_lt in H
  | H : (_ <? _) = false |- _ => apply Z.ltb_ge in H
  | H : (_ <=? _) = true |- _ => apply Z.leb_le in H
  | H : (_ <=? _) = false |- _ => apply Z.leb_gt in H
  | H : (_ =? _) = true |- _ => apply Z.eqb_eq in H
  | H : (_ =? _) = false |- _ => apply Z.eqb_neq in H
  end.

(** Split every [match] and [if] of the goal, keeping the equations. *)
Ltac cases := repeat (case_match; simplify_eq/=; try done).

Create HintDb vault discriminated.

(** ** Lists *)

Lemma elem_of_flat_map {A B} (f : A → list B) l y :
  y ∈ flat_map f l ↔ ∃ x, x ∈ l ∧ y ∈ f x.
Proof. rewrite list_elem_of_In, in_flat_map. by setoid_rewrite list_elem_of_In. Qed.

Lemma elem_of_map {A B} (f : A → B) l y :
  y ∈ map f l ↔ ∃ x, y = f x ∧ x ∈ l.
Proof. rewrite list_elem_of_In, in_map_iff. setoid_rewrite list_elem_of_In.
  split; intros (x & ? & ?); eauto. Qed.

Lemma elem_of_lfilter {A} (f : A → bool) l x :
  x ∈ List.filter f l ↔ x ∈ l ∧ f x = true.
Proof. rewrite !list_elem_of_In. apply List.filter_In. Qed.

Lemma Forall_filter_keep {A} (P : A → Prop) (f : A → bool) l :
  Forall P l → Forall P (List.filter f l).
Proof. rewrite !Forall_forall. intros H x [Hx _]%elem_of_lfilter. by apply H. Qed.

Lemma lfilter_app {A} (f : A → bool) l k :
  List.filter f (l ++ k) = List.filter f l ++ List.filter f k.
Proof. apply List.filter_app. Qed.

Lemma lfilter_all {A} (f : A → bool) l :
  Forall (λ x, f x = true) l → List.filter f l = l.
Proof. induction 1; simpl; [done|]. by case_match; f_equal. Qed.

Lemma lfilter_none {A} (f : A → bool) l :
  Forall (λ x, f x = false) l → List.filter f l = [].
Proof. induction 1; simpl; [done|]. by case_match. Qed.

Lemma lfilter_filter {A} (f g : A → bool) l :
  List.filter f (List.filter g l) = List.filter (λ x, g x && f x) l.
Proof. induction l as [|x l IH]; simpl; [done|]. destruct (g x); simpl; rewrite IH; done. Qed.

Lemma lfilter_length_le {A} (f : A → bool) l :
  (length (List.filter f l) <= length l)%nat.
Proof. induction l as [|x l IH]; simpl; [done|]. case_match; simpl; lia. Qed.

Lemma take_drop_len {A} k (s : list A) : take k s ++ drop (length (take k s)) s = s.
Proof. revert k. induction s as [|x s IH]; intros [|k]; simpl; f_equal; auto. Qed.

(** Inclusion and disjointness of concrete lists, by computation. *)
Lemma incl_check `{EqDecision A} (l k : list A) x :
  forallb (λ y, bool_decide (y ∈ k)) l = true → x ∈ l → x ∈ k.
Proof. rewrite forallb_Forall, Forall_forall. intros H Hx. by apply H, bool_decide_eq_true in Hx. Qed.

Lemma disj_check `{EqDecision A} (l k : list A) x :
  forallb (λ y, negb (bool_decide (y ∈ k))) l = true → x ∈ l → x ∉ k.
Proof.
  rewrite forallb_Forall, Forall_forall. intros H Hx. apply H, negb_true_iff in Hx.
  by apply bool_decide_eq_false in Hx.
Qed.

(** Induction two elements at a time. *)
Lemma pairs_ind (P : bytes → Prop) :
  P [] → (∀ b, P [b]) → (∀ b c s, P s → P (c :: s) → P (b :: c :: s)) → ∀ s, P s.
Proof.
  intros H0 H1 H2 s. enough (P s ∧ ∀ b, P (b :: s)) as [? _] by done.
  induction s as [|b s [IH1 IH2]]; [auto|]. split; auto.
Qed.

#[export] Hint Resolve Forall_filter_keep : vault.
