(* ===== verification/GoString.v ===== *)
(** * The parts of Go's [strings], [unicode/utf8] and [strconv] the program uses

    Functions keep their Go names.  Strings are byte lists; functions that
    range over runes decode UTF-8 the way the language specification says
    (an invalid byte yields U+FFFD and advances by one).  The four Unicode
    tables the program reaches for runes above U+007F ([unicode.ToLower],
    [unicode.ToUpper], [unicode.IsSpace] and simple case folding) are the class [UnicodeTables]: every theorem holds for
    whatever those tables say. *)

From S2P Require Import Prelude.

(** ** Searching *)

Definition HasPrefix (s p : bytes) : bool := bool_decide (p `prefix_of` s).
Definition HasSuffix (s p : bytes) : bool := bool_decide (p `suffix_of` s).
Definition TrimPrefix (s p : bytes) : bytes :=
  if HasPrefix s p then drop (length p) s else s.
Definition TrimSuffix (s p : bytes) : bytes :=
  if HasSuffix s p then take (length s - length p) s else s.

(** [strings.Index]; [None] is -1. *)
Fixpoint Index (s sub : bytes) : option nat :=
  if bool_decide (sub `prefix_of` s) then Some 0%nat
  else match s with
       | [] => None
       | _ :: s' => S <$> Index s' sub
       end.

Definition Contains (s sub : bytes) : bool :=
  match Index s sub with Some _ => true | None => false end.

Definition ContainsByte (s : bytes) (c : byte) : bool :=
  existsb (λ b, bool_decide (b = c)) s.

(** [strings.ContainsAny] for an ASCII character set. *)
Definition ContainsAny (s chars : bytes) : bool :=
  existsb (λ b, ContainsByte chars b) s.

Fixpoint IndexByte (s : bytes) (c : byte) : option nat :=
  match s with
  | [] => None
  | b :: s' => if bool_decide (b = c) then Some 0%nat else S <$> IndexByte s' c
  end.

Fixpoint LastIndexByte (s : bytes) (c : byte) : option nat :=
  match s with
  | [] => None
  | b :: s' => match LastIndexByte s' c with
               | Some i => Some (S i)
               | None => if bool_decide (b = c) then Some 0%nat else None
               end
  end.

(** [strings.Split] for a one-byte separator: always at least one field. *)
Fixpoint Split (s : bytes) (sep : byte) : list bytes :=
  match s with
  | [] => [[]]
  | b :: s' =>
      let rest := Split s' sep in
      if bool_decide (b = sep) then [] :: rest
      else match rest with
           | f :: fs => (b :: f) :: fs
           | [] => [[b]]
           end
  end.

Fixpoint Join (l : list bytes) (sep : bytes) : bytes :=
  match l with
  | [] => []
  | [x] => x
  | x :: l' => x ++ sep ++ Join l' sep
  end.

(** Strings compare bytewise. *)
Fixpoint bytes_ltb (a b : bytes) : bool :=
  match a, b with
  | _, [] => false
  | [], _ :: _ => true
  | x :: a', y :: b' => if bval x <? bval y then true else if bval y <? bval x then false else bytes_ltb a' b'
  end.

Fixpoint insert_by {A} (lt : A → A → bool) (x : A) (l : list A) : list A :=
  match l with
  | [] => [x]
  | y :: l' => if lt y x then y :: insert_by lt x l' else x :: l
  end.
(** [sort.Slice] and [sort.Strings]; equal keys keep their order. *)
Definition sort_by {A} (lt : A → A → bool) (l : list A) : list A := foldr (insert_by lt) [] l.
Definition sort_Strings : list bytes → list bytes := sort_by bytes_ltb.

(** [strings.TrimRight]/[TrimLeft]/[Trim] for a one-byte cutset. *)
Fixpoint TrimLeft (s : bytes) (c : byte) : bytes :=
  match s with
  | b :: s' => if bool_decide (b = c) then TrimLeft s' c else s
  | [] => []
  end.
Definition TrimRight (s : bytes) (c : byte) : bytes := reverse (TrimLeft (reverse s) c).
Definition Trim (s : bytes) (c : byte) : bytes := TrimRight (TrimLeft s c) c.

(** ** Runes *)

Definition RuneError : Z := 65533.

Definition cont_byte (lo hi : Z) (b : byte) : bool := in_range lo hi (bval b).

(** [utf8.DecodeRune]: the first rune and its width. *)
Definition DecodeRune (s : bytes) : Z * nat :=
  match s with
  | [] => (RuneError, 0%nat)
  | b0 :: s1 =>
      let c0 := bval b0 in
      let bad := (RuneError, 1%nat) in
      let two :=
        match s1 with
        | b1 :: _ => if cont_byte 128 191 b1
                     then ((c0 - 192) * 64 + (bval b1 - 128), 2%nat) else bad
        | _ => bad
        end in
      let three lo hi :=
        match s1 with
        | b1 :: b2 :: _ =>
            if cont_byte lo hi b1 && cont_byte 128 191 b2
            then ((c0 - 224) * 4096 + (bval b1 - 128) * 64 + (bval b2 - 128), 3%nat) else bad
        | _ => bad
        end in
      let four lo hi :=
        match s1 with
        | b1 :: b2 :: b3 :: _ =>
            if cont_byte lo hi b1 && cont_byte 128 191 b2 && cont_byte 128 191 b3
            then ((c0 - 240) * 262144 + (bval b1 - 128) * 4096 + (bval b2 - 128) * 64
                  + (bval b3 - 128), 4%nat) else bad
        | _ => bad
        end in
      if c0 <? 128 then (c0, 1%nat)
      else if c0 <? 194 then bad
      else if c0 <? 224 then two
      else if c0 =? 224 then three 160 191
      else if c0 =? 237 then three 128 159
      else if c0 <? 240 then three 128 191
      else if c0 =? 240 then four 144 191
      else if c0 <? 244 then four 128 191
      else if c0 =? 244 then four 128 143
      else bad
  end.

(** [for _, r := range s]: [skip] counts the bytes of the current rune still
    to pass over. *)
Fixpoint runes_from (skip : nat) (s : bytes) : list Z :=
  match s with
  | [] => []
  | _ :: s' =>
      match skip with
      | S k => runes_from k s'
      | O => let '(r, w) := DecodeRune s in r :: runes_from (pred w) s'
      end
  end.
Definition runes (s : bytes) : list Z := runes_from 0 s.

(** [utf8.ValidString]: no position decodes to an error of width one. *)
Fixpoint valid_from (skip : nat) (s : bytes) : bool :=
  match s with
  | [] => true
  | _ :: s' =>
      match skip with
      | S k => valid_from k s'
      | O => let '(r, w) := DecodeRune s in
             negb ((r =? RuneError) && bool_decide (w = 1%nat)) && valid_from (pred w) s'
      end
  end.
Definition ValidString (s : bytes) : bool := valid_from 0 s.

(** [utf8.AppendRune]. *)
Definition EncodeRune (r : Z) : bytes :=
  if (r <? 0) || (1114111 <? r) || in_range 55296 57343 r then
    [byte_of 239; byte_of 191; byte_of 189]
  else if r <? 128 then [byte_of r]
  else if r <? 2048 then [byte_of (192 + r / 64); byte_of (128 + r mod 64)]
  else if r <? 65536 then
    [byte_of (224 + r / 4096); byte_of (128 + r / 64 mod 64); byte_of (128 + r mod 64)]
  else [byte_of (240 + r / 262144); byte_of (128 + r / 4096 mod 64);
        byte_of (128 + r / 64 mod 64); byte_of (128 + r mod 64)].

(** What the Unicode database says of runes above U+007F. *)
Class UnicodeTables := {
  wide_ToLower : Z → Z;
  wide_ToUpper : Z → Z;
  wide_IsSpace : Z → bool;
  wide_fold : Z → Z;
}.

(** [unicode.IsControl]: category Cc, which is C0, DEL and C1. *)
Definition IsControl (r : Z) : bool := in_range 0 31 r || in_range 127 159 r.

Definition ascii_lower (c : Z) : Z := if is_upper c then c + 32 else c.
Definition ascii_upper (c : Z) : Z := if is_lower c then c - 32 else c.
Definition is_ascii (b : byte) : bool := bval b <? 128.

Section Unicode.
Context `{UnicodeTables}.

Definition rune_ToLower (r : Z) : Z := if r <? 128 then ascii_lower r else wide_ToLower r.

(** [strings.ToLower]: bytewise on ASCII text, else rune by rune. *)
Definition ToLower (s : bytes) : bytes :=
  if forallb is_ascii s then map (λ b, byte_of (ascii_lower (bval b))) s
  else concat (map (λ r, EncodeRune (rune_ToLower r)) (runes s)).

Definition rune_ToUpper (r : Z) : Z := if r <? 128 then ascii_upper r else wide_ToUpper r.

(** [strings.ToUpper]. *)
Definition ToUpper (s : bytes) : bytes :=
  if forallb is_ascii s then map (λ b, byte_of (ascii_upper (bval b))) s
  else concat (map (λ r, EncodeRune (rune_ToUpper r)) (runes s)).

(** [strings.EqualFold]: equal up to simple case folding. *)
Definition rune_fold (r : Z) : Z := if r <? 128 then ascii_lower r else wide_fold r.
Definition EqualFold (s t : bytes) : bool := bool_decide (map rune_fold (runes s) = map rune_fold (runes t)).

Definition IsSpace (r : Z) : bool :=
  if r <? 128 then in_range 9 13 r || (r =? 32) else wide_IsSpace r.

(** [strings.TrimSpace], through the positions where runes start: drop leading
    space runes, then cut after the last rune that is not space. *)
Fixpoint trim_space_left (skip : nat) (s : bytes) : bytes :=
  match s with
  | [] => []
  | _ :: s' =>
      match skip with
      | S k => trim_space_left k s'
      | O => let '(r, w) := DecodeRune s in
             if IsSpace r then trim_space_left (pred w) s' else s
      end
  end.

(** The length of [s] up to the end of its last rune that is not space. *)
Fixpoint kept_length (pos keep skip : nat) (s : bytes) : nat :=
  match s with
  | [] => keep
  | _ :: s' =>
      match skip with
      | S k => kept_length (S pos) keep k s'
      | O => let '(r, w) := DecodeRune s in
             kept_length (S pos) (if IsSpace r then keep else (pos + w)%nat) (pred w) s'
      end
  end.

Definition TrimSpace (s : bytes) : bytes :=
  let l := trim_space_left 0 s in take (kept_length 0 0 0 l) l.

(** [strings.FieldsFunc]: maximal runs of runes that are not separators. *)
Definition FieldsFunc (s : bytes) (sep : Z → bool) : list bytes :=
  let add cur out := if bool_decide (cur = []) then out else out ++ [cur] in
  let '(cur, out) :=
    foldl (λ '(cur, out) r,
             if sep r then ([], add cur out) else (cur ++ EncodeRune r, out))
          ([], []) (runes s) in
  add cur out.
End Unicode.

(** [strings.EqualFold] against an ASCII string without k or s (the letters
    with a non-ASCII simple fold). *)
Definition EqualFoldASCII (s t : bytes) : bool :=
  bool_decide (map (λ b, ascii_lower (bval b)) s = map (λ b, ascii_lower (bval b)) t).

(** A table for evaluating the definitions: Latin-1 letters and spaces. *)
Definition latin1_tables : UnicodeTables := {|
  wide_ToLower r := if in_range 192 222 r && negb (r =? 215) then r + 32
                    else if r =? 8490 then 107 else if r =? 304 then 105 else r;
  wide_ToUpper r := if in_range 224 254 r && negb (r =? 247) then r - 32
                    else if r =? 305 then 73 else if r =? 383 then 83 else r;
  wide_IsSpace r := (r =? 133) || (r =? 160);
  wide_fold r := if in_range 192 222 r && negb (r =? 215) then r + 32
                 else if r =? 8490 then 107 else if r =? 383 then 115 else r;
|}.

(** ** Facts: searching *)

Lemma HasPrefix_spec s p : HasPrefix s p = true ↔ ∃ t, s = p ++ t.
Proof. unfold HasPrefix. by rewrite bool_decide_eq_true. Qed.

Lemma HasSuffix_spec s p : HasSuffix s p = true ↔ ∃ t, s = t ++ p.
Proof. unfold HasSuffix. by rewrite bool_decide_eq_true. Qed.

Lemma TrimSuffix_app t p : TrimSuffix (t ++ p) p = t.
Proof.
  unfold TrimSuffix. rewrite (proj2 (HasSuffix_spec _ _)) by eauto.
  rewrite length_app, Nat.add_sub. apply take_app_length.
Qed.

Lemma TrimPrefix_app p t : TrimPrefix (p ++ t) p = t.
Proof.
  unfold TrimPrefix. rewrite (proj2 (HasPrefix_spec _ _)) by eauto.
  apply drop_app_length.
Qed.

Lemma Index_Some s sub i :
  Index s sub = Some i → ∃ a b, s = a ++ sub ++ b ∧ length a = i.
Proof.
  revert i. induction s as [|c s IH]; intros i; simpl; case_bool_decide as Hp.
  - intros [= <-]. destruct Hp as [t Ht]. exists [], t. done.
  - done.
  - intros [= <-]. destruct Hp as [t Ht]. exists [], t. done.
  - destruct (Index s sub) as [k|] eqn:E; [|done]. intros [= <-].
    destruct (IH k eq_refl) as (a & b & -> & <-). exists (c :: a), b. done.
Qed.

(** [Index] finds the leftmost occurrence. *)
Lemma Index_le a sub b : ∃ i, Index (a ++ sub ++ b) sub = Some i ∧ (i <= length a)%nat.
Proof.
  induction a as [|c a IH]; simpl.
  - exists 0%nat. split; [|lia]. destruct (sub ++ b) eqn:E; simpl;
      (rewrite bool_decide_true; [done|]); rewrite <- E; by exists b.
  - case_bool_decide; [exists 0%nat; split; [done|lia]|].
    destruct IH as (i & -> & ?). exists (S i). split; [done|lia].
Qed.

Lemma Index_None s sub : Index s sub = None ↔ ∀ a b, s ≠ a ++ sub ++ b.
Proof.
  split.
  - intros H a b ->. destruct (Index_le a sub b) as (i & Hi & _). congruence.
  - intros H. destruct (Index s sub) eqn:E; [|done].
    apply Index_Some in E as (x & y & E & _). by destruct (H x y).
Qed.

Lemma Contains_spec s sub : Contains s sub = true ↔ ∃ a b, s = a ++ sub ++ b.
Proof.
  unfold Contains. destruct (Index s sub) eqn:E.
  - split; [|done]. intros _. apply Index_Some in E as (a & b & E & _). eauto.
  - split; [done|]. intros (a & b & ->). by eapply Index_None in E.
Qed.

Lemma ContainsByte_spec s c : ContainsByte s c = true ↔ c ∈ s.
Proof.
  unfold ContainsByte. rewrite existsb_Exists. split.
  - intros (x & Hx & E). b2p. by subst.
  - intros H. exists c. split; [done|]. by apply bool_decide_true.
Qed.

Lemma ContainsByte_false s c : ContainsByte s c = false ↔ c ∉ s.
Proof. rewrite <- ContainsByte_spec. by destruct (ContainsByte s c). Qed.

Lemma Contains_byte s c : Contains s [c] = ContainsByte s c.
Proof.
  apply eq_true_iff_eq. rewrite Contains_spec, ContainsByte_spec. split.
  - intros (a & b & ->). set_solver.
  - intros H. apply list_elem_of_split in H as (a & b & ->). by exists a, b.
Qed.

Lemma IndexByte_Some s c i :
  IndexByte s c = Some i ↔ ∃ a b, s = a ++ c :: b ∧ c ∉ a ∧ length a = i.
Proof.
  revert i. induction s as [|x s IH]; intros i; simpl.
  - split; [done|]. intros ([|y a] & b & ? & _); done.
  - case_bool_decide as Hx; subst.
    + split; [intros [= <-]; exists [], s; split_and!; [done|set_solver|done]|].
      intros ([|y a] & b & E & Hn & <-); simplify_eq/=; [done|set_solver].
    + destruct (IndexByte s c) as [k|] eqn:E.
      * split.
        -- intros [= <-]. destruct (proj1 (IH k) eq_refl) as (a & b & -> & Hn & <-).
           exists (x :: a), b. split_and!; [done|set_solver|done].
        -- intros ([|y a] & b & Es & Hn & <-); simplify_eq/=.
           f_equal. assert (Some k = Some (length a)) as [= ->]; [|done].
           apply IH. exists a, b. split_and!; [done|set_solver|done].
      * split; [done|]. intros ([|y a] & b & Es & Hn & <-); simplify_eq/=.
        assert (None = Some (length a)) as [=]. apply IH. exists a, b.
        split_and!; [done|set_solver|done].
Qed.

Lemma IndexByte_None s c : IndexByte s c = None ↔ c ∉ s.
Proof.
  split.
  - intros H Hin. apply list_elem_of_split in Hin. induction s as [|x s IH]; simpl in *.
    + destruct Hin as ([|y a] & b & ?); done.
    + case_bool_decide; [done|]. destruct (IndexByte s c); [done|]. apply IH; [done|].
      destruct Hin as ([|y a] & b & E); simplify_eq/=. eauto.
  - intros H. destruct (IndexByte s c) as [i|] eqn:E; [|done].
    apply IndexByte_Some in E as (a & b & -> & _). set_solver.
Qed.

Lemma LastIndexByte_None s c : LastIndexByte s c = None ↔ c ∉ s.
Proof.
  induction s as [|x s IH]; simpl; [split; [set_solver|done]|].
  destruct (LastIndexByte s c); [|case_bool_decide]; set_solver.
Qed.

Lemma LastIndexByte_app a c b :
  c ∉ b → LastIndexByte (a ++ c :: b) c = Some (length a).
Proof.
  intros Hb. induction a as [|x a IH]; simpl; [|by rewrite IH].
  rewrite (proj2 (LastIndexByte_None b c)) by done. by rewrite bool_decide_true.
Qed.

(** ** Facts: splitting and joining *)

Lemma Split_nonempty s c : Split s c ≠ [].
Proof. destruct s; simpl; [done|]. by repeat case_match. Qed.

Lemma Split_fields s c : Forall (λ f, c ∉ f) (Split s c).
Proof.
  induction s as [|b s IH]; simpl; [by repeat constructor; set_solver|].
  case_bool_decide as Hb; [constructor; [set_solver|done]|].
  destruct (Split s c) as [|f fs] eqn:E; [by destruct (Split_nonempty s c)|].
  apply Forall_cons_1 in IH as [Hf Hfs]. constructor; [set_solver|done].
Qed.

Lemma Join_Split s c : Join (Split s c) [c] = s.
Proof.
  induction s as [|b s IH]; simpl; [done|].
  destruct (Split s c) as [|f fs] eqn:E; [by destruct (Split_nonempty s c)|].
  case_bool_decide as Hb; [subst b|].
  - by rewrite <- IH.
  - rewrite <- IH. by destruct fs.
Qed.

(** ** Facts: runes of ASCII text *)

Lemma DecodeRune_small b s r w :
  DecodeRune (b :: s) = (r, w) → r < 128 → r = bval b ∧ w = 1%nat ∧ is_ascii b = true.
Proof.
  unfold DecodeRune, is_ascii, RuneError. pose proof (bval_range b) as Hb.
  destruct (Z.ltb_spec (bval b) 128) as [Hlt|Hge]; [by intros [= <- <-]|].
  intros H Hr. exfalso. revert H. unfold cont_byte, in_range.
  repeat case_match; intros [= <- <-]; b2p; lia.
Qed.

Lemma runes_ascii s : Forall (λ b, is_ascii b = true) s → runes s = map bval s.
Proof.
  unfold runes. induction 1 as [|b s Hb _ IH]; [done|]. cbn [runes_from].
  unfold DecodeRune at 1. unfold is_ascii in Hb. rewrite Hb. simpl. by rewrite IH.
Qed.

(** Text whose runes are all below U+0080 is its own code points. *)
Lemma runes_small_ascii s : Forall (λ r, r < 128) (runes s) → Forall (λ b, is_ascii b = true) s.
Proof.
  unfold runes. induction s as [|b s IH]; [constructor|]. cbn [runes_from].
  destruct (DecodeRune (b :: s)) as [r w] eqn:E. intros [Hr Hs]%Forall_cons_1.
  destruct (DecodeRune_small _ _ _ _ E Hr) as (-> & -> & Hb). constructor; auto.
Qed.

Lemma runes_small s : Forall (λ r, r < 128) (runes s) → runes s = map bval s.
Proof. intros H. by apply runes_ascii, runes_small_ascii. Qed.
