(* ===== verification/GoRegexp.v ===== *)
(** * Go's [regexp]: the fragment the program's patterns use

    A pattern is an [regex] tree over code points, translated from the literal
    in the source.  [rmatch] returns the ways a prefix of the text matches, in
    the order a leftmost-first (Perl-like) matcher prefers them, with captured
    groups; its first element is what [FindStringSubmatch] reports.  [lang] is
    the language of a pattern, and [rmatch_lang] relates the two. *)

From S2P Require Import Prelude GoString.

Inductive regex :=
| REps
| RCls (f : Z → bool)
| RSeq (r1 r2 : regex)
| RAlt (r1 r2 : regex)
| RStar (r : regex)            (* greedy *)
| RCap (n : nat) (r : regex).

Abbreviation captures := (list (nat * list Z)).
Abbreviation matches := (list (captures * list Z)).

(** Greedy iteration; an iteration that consumes nothing ends the loop, so
    [fuel = length s] is enough. *)
Fixpoint star_iter (f : list Z → matches) (fuel : nat) (s : list Z) : matches :=
  match fuel with
  | O => [([], s)]
  | S n =>
      flat_map (λ '(c, rest),
        if (length rest <? length s)%nat
        then map (λ '(c', rest'), (c ++ c', rest')) (star_iter f n rest)
        else []) (f s)
      ++ [([], s)]
  end.

Fixpoint rmatch (r : regex) (s : list Z) : matches :=
  match r with
  | REps => [([], s)]
  | RCls f => match s with c :: s' => if f c then [([], s')] else [] | [] => [] end
  | RSeq r1 r2 =>
      flat_map (λ '(c, rest), map (λ '(c', rest'), (c ++ c', rest')) (rmatch r2 rest)) (rmatch r1 s)
  | RAlt r1 r2 => rmatch r1 s ++ rmatch r2 s
  | RStar r1 => star_iter (rmatch r1) (length s) s
  | RCap n r1 =>
      map (λ '(c, rest), ((n, take (length s - length rest) s) :: c, rest)) (rmatch r1 s)
  end.

(** An anchored pattern [^r$] on the whole text. *)
Definition full_match (r : regex) (s : list Z) : bool :=
  existsb (λ '(_, rest), bool_decide (rest = [])) (rmatch r s).

(** [FindStringSubmatch] for an anchored pattern. *)
Definition full_captures (r : regex) (s : list Z) : option captures :=
  fst <$> List.find (λ '(_, rest), bool_decide (rest = [])) (rmatch r s).

Definition capture (n : nat) (c : captures) : option (list Z) :=
  snd <$> List.find (λ '(k, _), bool_decide (k = n)) c.

(** ** Abbreviations for pattern syntax *)

Definition RPlus (r : regex) : regex := RSeq r (RStar r).
Definition ROpt (r : regex) : regex := RAlt r REps.
Fixpoint RTimes (n : nat) (r : regex) : regex :=
  match n with O => REps | S k => RSeq r (RTimes k r) end.
(** [r{0,n}] *)
Fixpoint RUpTo (n : nat) (r : regex) : regex :=
  match n with O => REps | S k => ROpt (RSeq r (RUpTo k r)) end.
Definition RChar (b : byte) : regex := RCls (λ c, c =? bval b).
Definition RStr (s : bytes) : regex := foldr (λ b r, RSeq (RChar b) r) REps s.

(** Text as code points: bytes for ASCII-only patterns searched in place,
    runes for [MatchString]. *)
Definition codes (s : bytes) : list Z := map bval s.
Definition MatchString (r : regex) (s : bytes) : bool := full_match r (runes s).

(** ** The language of a pattern *)

Inductive lang : regex → list Z → Prop :=
| lang_eps : lang REps []
| lang_cls f c : f c = true → lang (RCls f) [c]
| lang_seq r1 r2 w1 w2 : lang r1 w1 → lang r2 w2 → lang (RSeq r1 r2) (w1 ++ w2)
| lang_alt_l r1 r2 w : lang r1 w → lang (RAlt r1 r2) w
| lang_alt_r r1 r2 w : lang r2 w → lang (RAlt r1 r2) w
| lang_star_nil r : lang (RStar r) []
| lang_star_cons r w1 w2 : w1 ≠ [] → lang r w1 → lang (RStar r) w2 → lang (RStar r) (w1 ++ w2)
| lang_cap n r w : lang r w → lang (RCap n r) w.

#[export] Hint Constructors lang : vault.

Definition sound_for (r : regex) (f : list Z → matches) : Prop :=
  ∀ s c rest, (c, rest) ∈ f s → ∃ w, s = w ++ rest ∧ lang r w.
Definition complete_for (r : regex) (f : list Z → matches) : Prop :=
  ∀ w rest, lang r w → ∃ c, (c, rest) ∈ f (w ++ rest).

Lemma star_iter_sound r f fuel : sound_for r f → sound_for (RStar r) (star_iter f fuel).
Proof.
  intros Hf. induction fuel as [|n IH]; intros s c rest; simpl.
  { intros [= -> ->]%list_elem_of_singleton. exists []. auto with vault. }
  intros [H|[= -> ->]%list_elem_of_singleton]%elem_of_app; [|exists []; auto with vault].
  apply elem_of_flat_map in H as ([c1 r1] & H1 & H2).
  case_match eqn:Hlt; [|by apply not_elem_of_nil in H2].
  apply elem_of_map in H2 as ([c2 r2] & [= -> ->] & H2).
  destruct (Hf _ _ _ H1) as (w1 & -> & Hw1).
  destruct (IH _ _ _ H2) as (w2 & -> & Hw2).
  exists (w1 ++ w2). split; [by rewrite app_assoc|].
  apply lang_star_cons; auto.
  intros ->. apply Nat.ltb_lt in Hlt. simpl in Hlt. lia.
Qed.

Lemma star_iter_complete r f w rest fuel :
  complete_for r f → lang (RStar r) w → (length w <= fuel)%nat →
  ∃ c, (c, rest) ∈ star_iter f fuel (w ++ rest).
Proof.
  intros Hf Hw. remember (RStar r) as rs eqn:Hr. revert fuel.
  induction Hw as [| | | | |r'|r' w1 w2 Hne H1 _ H2 IH|]; try done; intros fuel Hlen.
  { exists []. destruct fuel; simpl; [by left|]. apply elem_of_app. right. by left. }
  simplify_eq. destruct fuel as [|n].
  { rewrite length_app in Hlen. destruct w1; simpl in *; [done|lia]. }
  destruct (Hf w1 (w2 ++ rest) H1) as [c1 Hc1].
  rewrite length_app in Hlen.
  assert (length w1 > 0)%nat by (destruct w1; simpl; [done|lia]).
  destruct (IH eq_refl n ltac:(lia)) as [c2 Hc2].
  exists (c1 ++ c2). simpl. apply elem_of_app. left. apply elem_of_flat_map.
  exists (c1, w2 ++ rest). rewrite <- app_assoc. split; [done|].
  rewrite (proj2 (Nat.ltb_lt _ _)) by (rewrite (length_app w1); lia).
  apply elem_of_map. by exists (c2, rest).
Qed.

Lemma rmatch_sound r : sound_for r (rmatch r).
Proof.
  induction r as [|f|r1 IH1 r2 IH2|r1 IH1 r2 IH2|r IH|n r IH]; intros s c rest; simpl.
  - intros [= -> ->]%list_elem_of_singleton. exists []. auto with vault.
  - destruct s as [|x s]; [by intros ?%not_elem_of_nil|].
    destruct (f x) eqn:Hx; [|by intros ?%not_elem_of_nil].
    intros [= -> ->]%list_elem_of_singleton. exists [x]. auto with vault.
  - intros ([c1 s1] & H1 & ([c2 s2] & [= -> ->] & H2)%elem_of_map)%elem_of_flat_map.
    destruct (IH1 _ _ _ H1) as (w1 & -> & ?). destruct (IH2 _ _ _ H2) as (w2 & -> & ?).
    exists (w1 ++ w2). rewrite app_assoc. auto with vault.
  - intros [H|H]%elem_of_app; [apply IH1 in H|apply IH2 in H];
      destruct H as (w & -> & ?); exists w; auto with vault.
  - by apply star_iter_sound.
  - intros ([c1 s1] & [= -> ->] & H1)%elem_of_map.
    destruct (IH _ _ _ H1) as (w & -> & ?). exists w. auto with vault.
Qed.

Lemma rmatch_complete r : complete_for r (rmatch r).
Proof.
  induction r as [|f|r1 IH1 r2 IH2|r1 IH1 r2 IH2|r IH|n r IH]; intros w rest Hw.
  - inversion Hw; subst. exists []. by left.
  - inversion Hw; subst. exists []. simpl. case_match; [by left|done].
  - inversion Hw as [| |? ? w1 w2 H1 H2| | | | |]; subst.
    destruct (IH1 w1 (w2 ++ rest) H1) as [c1 ?]. destruct (IH2 w2 rest H2) as [c2 ?].
    exists (c1 ++ c2). simpl. apply elem_of_flat_map.
    exists (c1, w2 ++ rest). rewrite <- app_assoc. split; [done|].
    apply elem_of_map. by exists (c2, rest).
  - inversion Hw as [| | |? ? ? H1|? ? ? H1| | |]; subst;
      [destruct (IH1 w rest H1) as [c ?]|destruct (IH2 w rest H1) as [c ?]];
      exists c; simpl; apply elem_of_app; auto.
  - apply star_iter_complete with r; auto. rewrite length_app. lia.
  - inversion Hw; subst. edestruct (IH w rest) as [c ?]; [done|].
    eexists. simpl. apply elem_of_map. by exists (c, rest).
Qed.

(** An anchored match is membership in the pattern's language. *)
Lemma full_match_lang r s : full_match r s = true ↔ lang r s.
Proof.
  unfold full_match. rewrite existsb_Exists. split.
  - intros ([c rest] & H & Hr). b2p. subst.
    destruct (rmatch_sound _ _ _ _ H) as (w & -> & ?). by rewrite app_nil_r.
  - intros H. destruct (rmatch_complete r s [] H) as [c Hc]. rewrite app_nil_r in Hc.
    exists (c, []). split; [done|]. by rewrite bool_decide_eq_true.
Qed.

(** ** Languages of the class shapes patterns are built from *)

Lemma lang_cls_inv f w : lang (RCls f) w ↔ ∃ c, w = [c] ∧ f c = true.
Proof. split; [inversion 1; eauto|intros (c & -> & ?); by constructor]. Qed.

Lemma lang_star_cls f w : lang (RStar (RCls f)) w ↔ Forall (λ c, f c = true) w.
Proof.
  split.
  - remember (RStar (RCls f)) as r eqn:Hr. intros H. induction H; try done.
    simplify_eq. apply Forall_app. split; [|auto].
    match goal with H : lang (RCls _) _ |- _ => apply lang_cls_inv in H as (c & -> & ?) end.
    by apply Forall_singleton.
  - induction 1 as [|c w Hc _ IH]; [constructor|].
    change (c :: w) with ([c] ++ w). by apply lang_star_cons; auto with vault.
Qed.

Lemma lang_seq_inv r1 r2 w : lang (RSeq r1 r2) w ↔ ∃ w1 w2, w = w1 ++ w2 ∧ lang r1 w1 ∧ lang r2 w2.
Proof. split; [inversion 1; eauto 6|intros (? & ? & -> & ? & ?); by constructor]. Qed.

Lemma lang_alt_inv r1 r2 w : lang (RAlt r1 r2) w ↔ lang r1 w ∨ lang r2 w.
Proof. split; [inversion 1; eauto|intros [?|?]; by constructor]. Qed.

Lemma lang_eps_inv w : lang REps w ↔ w = [].
Proof. split; [by inversion 1|intros ->; constructor]. Qed.

(** Every code point of a matched text is accepted by some class of the
    pattern. *)
Fixpoint cls_ok (P : Z → Prop) (r : regex) : Prop :=
  match r with
  | REps => True
  | RCls f => ∀ c, f c = true → P c
  | RSeq r1 r2 | RAlt r1 r2 => cls_ok P r1 ∧ cls_ok P r2
  | RStar r1 | RCap _ r1 => cls_ok P r1
  end.

Lemma lang_Forall P r w : cls_ok P r → lang r w → Forall P w.
Proof.
  intros Hr Hw. induction Hw; simpl in *; destruct_and?; rewrite ?Forall_app; eauto.
Qed.

Lemma RUpTo_ok P n r : cls_ok P r → cls_ok P (RUpTo n r).
Proof. intros Hr. induction n as [|n IH]; cbn; [done|]. by repeat apply conj. Qed.
