(* ===== verification/GoStrconv.v ===== *)
(** * Go's [strconv]: decimal integers, and [binary.BigEndian] for uint32 *)

From Stdlib Require Import Numbers.DecimalN Numbers.DecimalFacts.
From Stdlib Require Import Floats.SpecFloat.
From S2P Require Import Prelude GoString.

Fixpoint uint_bytes (d : Decimal.uint) : bytes :=
  match d with
  | Decimal.Nil => []
  | Decimal.D0 d => x30 :: uint_bytes d
  | Decimal.D1 d => x31 :: uint_bytes d
  | Decimal.D2 d => x32 :: uint_bytes d
  | Decimal.D3 d => x33 :: uint_bytes d
  | Decimal.D4 d => x34 :: uint_bytes d
  | Decimal.D5 d => x35 :: uint_bytes d
  | Decimal.D6 d => x36 :: uint_bytes d
  | Decimal.D7 d => x37 :: uint_bytes d
  | Decimal.D8 d => x38 :: uint_bytes d
  | Decimal.D9 d => x39 :: uint_bytes d
  end.

Definition digit_cons (b : byte) : option (Decimal.uint → Decimal.uint) :=
  match b with
  | x30 => Some Decimal.D0 | x31 => Some Decimal.D1 | x32 => Some Decimal.D2
  | x33 => Some Decimal.D3 | x34 => Some Decimal.D4 | x35 => Some Decimal.D5
  | x36 => Some Decimal.D6 | x37 => Some Decimal.D7 | x38 => Some Decimal.D8
  | x39 => Some Decimal.D9 | _ => None
  end.

Fixpoint bytes_uint (s : bytes) : option Decimal.uint :=
  match s with
  | [] => Some Decimal.Nil
  | b :: s' => f ← digit_cons b; d ← bytes_uint s'; Some (f d)
  end.

(** [strconv.FormatUint(n, 10)] *)
Definition FormatUint (z : Z) : bytes := uint_bytes (N.to_uint (Z.to_N z)).
(** [strconv.FormatInt(n, 10)], and [strconv.Itoa]. *)
Definition FormatInt (z : Z) : bytes :=
  if z <? 0 then x2d :: FormatUint (- z) else FormatUint z.
Definition Itoa (z : Z) : bytes := FormatInt z.

Definition parse_digits (s : bytes) : option Z :=
  if bool_decide (s = []) then None
  else d ← bytes_uint s; Some (Z.of_N (N.of_uint d)).

(** [strconv.Atoi]: an optional sign, at least one digit, within int64. *)
Definition Atoi (s : bytes) : option Z :=
  let checked z := if in_int64 z then Some z else None in
  match s with
  | x2d :: s' => z ← parse_digits s'; checked (- z)
  | x2b :: s' => z ← parse_digits s'; checked z
  | _ => z ← parse_digits s; checked z
  end.

(** [binary.BigEndian.PutUint32]/[AppendUint32] of [uint32(n)]. *)
Definition BigEndianUint32 (n : Z) : bytes :=
  [byte_of (n / 2 ^ 24); byte_of (n / 2 ^ 16); byte_of (n / 2 ^ 8); byte_of n].

(** [binary.BigEndian.Uint32] *)
Definition Uint32BigEndian (b3 b2 b1 b0 : byte) : Z :=
  bval b3 * 2 ^ 24 + bval b2 * 2 ^ 16 + bval b1 * 2 ^ 8 + bval b0.

(** ** Facts *)

Lemma bytes_uint_bytes d : bytes_uint (uint_bytes d) = Some d.
Proof. induction d as [|d IH|d IH|d IH|d IH|d IH|d IH|d IH|d IH|d IH|d IH]; simpl; rewrite ?IH; done. Qed.

Lemma FormatUint_inj a b : 0 <= a → 0 <= b → FormatUint a = FormatUint b → a = b.
Proof.
  unfold FormatUint. intros Ha Hb H.
  apply (f_equal bytes_uint) in H. rewrite !bytes_uint_bytes in H. injection H as H.
  apply (f_equal N.of_uint) in H. rewrite !Unsigned.of_to in H. lia.
Qed.

Definition digit_byte (b : byte) : bool := is_digit (bval b).

Lemma uint_bytes_digits d : Forall (λ b, digit_byte b = true) (uint_bytes d).
Proof. induction d; simpl; constructor; done. Qed.

Lemma FormatUint_digits z : Forall (λ b, digit_byte b = true) (FormatUint z).
Proof. apply uint_bytes_digits. Qed.

Lemma FormatUint_nonempty z : FormatUint z ≠ [].
Proof.
  unfold FormatUint. intros H.
  assert (N.to_uint (Z.to_N z) = Decimal.Nil) as E by (destruct (N.to_uint _); done).
  pose proof (DecimalN.Unsigned.of_to (Z.to_N z)) as E2. rewrite E in E2. simpl in E2.
  rewrite <- E2 in E. done.
Qed.

Lemma FormatInt_inj a b : FormatInt a = FormatInt b → a = b.
Proof.
  unfold FormatInt. intros H.
  assert (∀ z s, FormatUint z ≠ x2d :: s) as Hs.
  { intros z s E. pose proof (FormatUint_digits z) as D. rewrite E in D.
    apply Forall_cons_1 in D as [D _]. done. }
  destruct (Z.ltb_spec a 0), (Z.ltb_spec b 0).
  - injection H as H. apply FormatUint_inj in H; lia.
  - by destruct (Hs _ _ (eq_sym H)).
  - by destruct (Hs _ _ H).
  - apply FormatUint_inj in H; lia.
Qed.

Lemma parse_FormatUint z : 0 <= z → parse_digits (FormatUint z) = Some z.
Proof.
  intros Hz. unfold parse_digits. rewrite bool_decide_false by apply FormatUint_nonempty.
  unfold FormatUint. rewrite bytes_uint_bytes. simpl. rewrite Unsigned.of_to. f_equal. lia.
Qed.

(** [Atoi] inverts [Itoa] on every [int]. *)
Lemma Atoi_Itoa z : in_int64 z = true → Atoi (Itoa z) = Some z.
Proof.
  intros Hz. unfold Atoi, Itoa, FormatInt. destruct (Z.ltb_spec z 0).
  - rewrite parse_FormatUint by lia. simpl. by rewrite Z.opp_involutive, Hz.
  - pose proof (parse_FormatUint z ltac:(lia)) as Hp.
    pose proof (FormatUint_digits z) as D.
    destruct (FormatUint z) as [|b s] eqn:E; [by destruct (FormatUint_nonempty z)|].
    apply Forall_cons_1 in D as [D _].
    destruct b; try done; rewrite Hp; simpl; by rewrite Hz.
Qed.

(** ** The number of digits *)

Lemma of_uint_acc_ge d acc :
  (Zpos acc * 10 ^ Z.of_nat (length (uint_bytes d)) <= Zpos (Pos.of_uint_acc d acc)).
Proof.
  revert acc. induction d as [|d IH|d IH|d IH|d IH|d IH|d IH|d IH|d IH|d IH|d IH]; intros acc;
    cbn [uint_bytes length Pos.of_uint_acc]; [lia|..];
    rewrite Nat2Z.inj_succ, Z.pow_succ_r by lia;
    match goal with |- _ <= Zpos (Pos.of_uint_acc _ ?a) => specialize (IH a) end;
    (etransitivity; [|exact IH]);
    assert (0 < 10 ^ Z.of_nat (length (uint_bytes d))) by (apply Z.pow_pos_nonneg; lia);
    rewrite Z.mul_assoc; apply Z.mul_le_mono_nonneg_r; lia.
Qed.

Lemma of_uint_ge d : (∀ d', d ≠ Decimal.D0 d') → d ≠ Decimal.Nil →
  10 ^ (Z.of_nat (length (uint_bytes d)) - 1) <= Z.of_N (N.of_uint d).
Proof.
  intros Hz Hn. destruct d as [|d|d|d|d|d|d|d|d|d|d]; [done|by destruct (Hz d)|..];
    cbn [uint_bytes length]; rewrite Nat2Z.inj_succ;
    replace (Z.succ (Z.of_nat (length (uint_bytes d))) - 1) with (Z.of_nat (length (uint_bytes d))) by lia;
    assert (0 < 10 ^ Z.of_nat (length (uint_bytes d))) by (apply Z.pow_pos_nonneg; lia);
    (etransitivity; [|apply of_uint_acc_ge]); lia.
Qed.

Lemma FormatUint_length z k : 0 <= z < 10 ^ Z.of_nat k → (1 <= k)%nat → (length (FormatUint z) <= k)%nat.
Proof.
  intros Hz Hk. unfold FormatUint. set (d := N.to_uint (Z.to_N z)).
  assert (Decimal.unorm d = d) as Hd.
  { unfold d. rewrite <- (Unsigned.to_of (N.to_uint (Z.to_N z))). by rewrite Unsigned.of_to. }
  assert (Z.of_N (N.of_uint d) = z) as Hv by (unfold d; rewrite Unsigned.of_to; lia).
  destruct (Decimal.uint_eq_dec d (Decimal.D0 Decimal.Nil)) as [->|H0]; [simpl; lia|].
  assert (Decimal.nzhead d = d) as Hnz.
  { unfold Decimal.unorm in Hd. destruct (Decimal.nzhead d) eqn:E; congruence. }
  assert (10 ^ (Z.of_nat (length (uint_bytes d)) - 1) <= z) as Hge.
  { rewrite <- Hv. apply of_uint_ge.
    - intros d' E. apply (nzhead_nonzero d d'). congruence.
    - intros E. rewrite E in Hd. done. }
  assert (Z.of_nat (length (uint_bytes d)) - 1 < Z.of_nat k); [|lia].
  apply (Z.pow_lt_mono_r_iff 10); lia.
Qed.

Lemma length_BigEndianUint32 n : length (BigEndianUint32 n) = 4%nat.
Proof. done. Qed.

Lemma Uint32BigEndian_range b3 b2 b1 b0 : 0 <= Uint32BigEndian b3 b2 b1 b0 < 2 ^ 32.
Proof.
  unfold Uint32BigEndian. pose proof (bval_range b3). pose proof (bval_range b2).
  pose proof (bval_range b1). pose proof (bval_range b0). lia.
Qed.

Lemma BigEndianUint32_inj a b :
  0 <= a < 2 ^ 32 → 0 <= b < 2 ^ 32 → BigEndianUint32 a = BigEndianUint32 b → a = b.
Proof.
  unfold BigEndianUint32. intros Ha Hb H. injection H as H3 H2 H1 H0.
  apply (f_equal bval) in H3, H2, H1, H0. rewrite !bval_byte_of in *.
  Z.div_mod_to_equations. lia.
Qed.

(** * Go's float64

    IEEE 754 binary64 with round-to-nearest-even, on the axiom-free
    specification type of the standard library (53 bits of precision, exponents
    below 1024).  Conversions to [int] follow amd64: a value with no int64
    counterpart gives the smallest int64. *)

Abbreviation float64 := spec_float.

Definition of_int (z : Z) : float64 := binary_normalize 53 1024 z 0 false.
Definition fadd : float64 → float64 → float64 := SFadd 53 1024.
Definition fsub : float64 → float64 → float64 := SFsub 53 1024.
Definition fmul : float64 → float64 → float64 := SFmul 53 1024.
Definition fdiv : float64 → float64 → float64 := SFdiv 53 1024.

(** [a < b] and [a <= b]; false when either is NaN. *)
Definition flt : float64 → float64 → bool := SFltb.
Definition fle : float64 → float64 → bool := SFleb.
Definition feq : float64 → float64 → bool := SFeqb.

Definition fzero : float64 := S754_zero false.
Definition fone : float64 := of_int 1.

(** A decimal constant [n / d], correctly rounded for the constants used. *)
Definition fconst (n d : Z) : float64 := fdiv (of_int n) (of_int d).

(** [int(f)]: truncation toward zero. *)
Definition to_int (f : float64) : Z :=
  match f with
  | S754_zero _ => 0
  | S754_finite s m e =>
      let a := if e <? 0 then Z.pos m / 2 ^ (- e) else Z.pos m * 2 ^ e in
      let z := if s then - a else a in
      if in_int64 z then z else min_int64
  | _ => min_int64
  end.

(** [math.Min] *)
Definition math_Min (x y : float64) : float64 :=
  match x, y with
  | S754_infinity true, _ | _, S754_infinity true => S754_infinity true
  | S754_nan, _ | _, S754_nan => S754_nan
  | S754_zero sx, S754_zero _ => if sx then x else y
  | _, _ => if flt x y then x else y
  end.

(** [Duration.Seconds]: whole seconds plus the fraction, each converted. *)
Definition Seconds (d : Z) : float64 :=
  fadd (of_int (Z.quot d Second)) (fdiv (of_int (Z.rem d Second)) (of_int 1000000000)).

(** ** Integers below 2^53 are exact *)

Definition shl (k : nat) (p : positive) : positive := Nat.iter k xO p.

Lemma shl_add j k p : shl j (shl k p) = shl (j + k) p.
Proof. unfold shl. by rewrite Nat.iter_add. Qed.

Lemma shl_value k p : Z.pos (shl k p) = Z.pos p * 2 ^ Z.of_nat k.
Proof.
  induction k as [|k IH]; [simpl; lia|]. rewrite Nat2Z.inj_succ, Z.pow_succ_r by lia.
  change (shl (S k) p) with (xO (shl k p)). rewrite Pos2Z.inj_xO, IH. lia.
Qed.

Lemma digits_shl k p : Z.pos (digits2_pos (shl k p)) = Z.pos (digits2_pos p) + Z.of_nat k.
Proof.
  induction k as [|k IH]; [simpl; lia|]. change (shl (S k) p) with (xO (shl k p)).
  cbn [digits2_pos]. lia.
Qed.

Lemma digits_lower p : 2 ^ (Z.pos (digits2_pos p) - 1) <= Z.pos p.
Proof.
  induction p as [p IH|p IH|]; cbn [digits2_pos]; [| |simpl; lia];
    replace (Z.pos (Pos.succ (digits2_pos p)) - 1) with (Z.succ (Z.pos (digits2_pos p) - 1)) by lia;
    rewrite Z.pow_succ_r by lia; lia.
Qed.

Lemma digits_small p : Z.pos p < 2 ^ 53 → Z.pos (digits2_pos p) <= 53.
Proof.
  intros Hp. pose proof (digits_lower p). apply Z.nlt_ge. intros Hd.
  pose proof (Z.pow_le_mono_r 2 53 (Z.pos (digits2_pos p) - 1)). lia.
Qed.

Lemma iter_pos_nat {A} (f : A → A) (n : positive) (x : A) : SpecFloat.iter_pos f n x = Nat.iter (Pos.to_nat n) f x.
Proof.
  revert x. induction n as [n IH|n IH|]; intros x; cbn [SpecFloat.iter_pos]; [| |done]; rewrite !IH.
  - rewrite Pos2Nat.inj_xI. replace (S (2 * Pos.to_nat n)) with (Pos.to_nat n + Pos.to_nat n + 1)%nat by lia.
    by rewrite !Nat.iter_add.
  - rewrite Pos2Nat.inj_xO. replace (2 * Pos.to_nat n)%nat with (Pos.to_nat n + Pos.to_nat n)%nat by lia.
    by rewrite Nat.iter_add.
Qed.

Lemma iter_xO d p : Pos.iter xO p d = shl (Pos.to_nat d) p.
Proof. apply Pos2Nat.inj_iter. Qed.

Lemma shr_exact n p :
  Nat.iter n shr_1 (Build_shr_record (Z.pos (shl n p)) false false) = Build_shr_record (Z.pos p) false false.
Proof.
  revert p. induction n as [|n IH]; intros p; [done|].
  change (shl (S n) p) with (xO (shl n p)).
  replace (S n) with (n + 1)%nat by lia. rewrite Nat.iter_add. simpl. apply IH.
Qed.

(** The mantissa of an integer with at most 53 digits. *)
Definition pad (p : positive) : nat := Z.to_nat (53 - Z.pos (digits2_pos p)).

Lemma shr_fexp_pad p j :
  Z.pos (digits2_pos p) <= 53 → (pad p <= j <= 52)%nat →
  shr_fexp 53 1024 (Z.pos (shl j p)) (- Z.of_nat j) loc_Exact
  = (Build_shr_record (Z.pos (shl (pad p) p)) false false, - Z.of_nat (pad p)).
Proof.
  intros Hd Hj. unfold shr_fexp. cbn [shr_record_of_loc Zdigits2]. rewrite digits_shl.
  unfold SpecFloat.fexp, emin.
  replace (Z.max _ _) with (- Z.of_nat (pad p)) by (unfold pad in *; lia).
  unfold shr. destruct (- Z.of_nat (pad p) - - Z.of_nat j) as [|d|d] eqn:E; [| |lia].
  - by replace (pad p) with j by lia.
  - f_equal; [|lia]. rewrite iter_pos_nat. replace (Pos.to_nat d) with (j - pad p)%nat by lia.
    replace (shl j p) with (shl (j - pad p) (shl (pad p) p)); [apply shr_exact|].
    rewrite shl_add. f_equal. lia.
Qed.

Lemma round_shl p j :
  Z.pos (digits2_pos p) <= 53 → (j <= 52)%nat →
  binary_round 53 1024 false (shl j p) (- Z.of_nat j)
  = S754_finite false (shl (pad p) p) (- Z.of_nat (pad p)).
Proof.
  intros Hd Hj. unfold binary_round. rewrite digits_shl. unfold SpecFloat.fexp at 1, emin at 1.
  replace (Z.max _ _) with (- Z.of_nat (pad p)) by (unfold pad; lia).
  assert (Hk : (pad p <= 52)%nat) by (unfold pad; lia).
  assert (∃ i, (pad p <= i <= 52)%nat ∧ shl_align (shl j p) (- Z.of_nat j) (- Z.of_nat (pad p))
          = (shl i p, - Z.of_nat i)) as (i & Hi & ->).
  { unfold shl_align. destruct (- Z.of_nat (pad p) - - Z.of_nat j) as [|d|d] eqn:E;
      [exists j; split; [lia|done]..|]. exists (pad p). split; [lia|].
    rewrite iter_xO, shl_add. f_equal. f_equal. lia. }
  unfold binary_round_aux. rewrite shr_fexp_pad by lia. cbn [shr_m loc_of_shr_record round_nearest_even].
  rewrite shr_fexp_pad by lia. cbn [shr_m]. by rewrite (proj2 (Z.leb_le _ _)) by lia.
Qed.

Lemma of_int_pos p :
  Z.pos p < 2 ^ 53 → of_int (Z.pos p) = S754_finite false (shl (pad p) p) (- Z.of_nat (pad p)).
Proof. intros H. apply (round_shl p 0); [by apply digits_small|lia]. Qed.

Lemma pad_le p : (pad p <= 52)%nat.
Proof. unfold pad. lia. Qed.

(** Subtracting one from an integer is exact. *)
Lemma fsub_one n : 1 <= n < 2 ^ 53 → fsub (of_int n) fone = of_int (n - 1).
Proof.
  intros Hn. destruct n as [|p|p]; [lia| |lia]. rewrite of_int_pos by lia. pose proof (pad_le p) as Hk.
  change fone with (S754_finite false (shl 52 1) (- 52)). unfold fsub, SFsub.
  replace (Z.min _ _) with (- 52) by lia.
  assert (shl_align (shl (pad p) p) (- Z.of_nat (pad p)) (- 52) = (shl 52 p, - 52)) as ->.
  { unfold shl_align. destruct (-52 - - Z.of_nat (pad p)) as [|d|d] eqn:E; [|lia|].
    - by replace (pad p) with 52%nat by lia.
    - rewrite iter_xO, shl_add. f_equal. f_equal. lia. }
  change (shl_align (shl 52 1) (- 52) (- 52)) with (shl 52 1, - 52). cbn [fst cond_Zopp].
  rewrite !shl_value. replace (_ - _) with ((Z.pos p - 1) * 2 ^ Z.of_nat 52) by lia.
  destruct (Z.pos p - 1) as [|q|q] eqn:E; [done| |lia].
  rewrite <- shl_value. unfold binary_normalize. change (-52) with (- Z.of_nat 52).
  rewrite round_shl by (apply digits_small || idtac; lia). symmetry. apply of_int_pos. lia.
Qed.

Lemma fone_le n : 0 <= n < 2 ^ 53 → fle fone (of_int n) = (1 <=? n).
Proof.
  intros Hn. destruct n as [|p|p]; [done| |lia]. rewrite of_int_pos by lia. pose proof (pad_le p).
  rewrite (proj2 (Z.leb_le 1 (Z.pos p))) by lia.
  change fone with (S754_finite false (shl 52 1) (- 52)). unfold fle, SFleb, SFcompare.
  destruct (Z.compare_spec (-52) (- Z.of_nat (pad p))) as [E|E|E]; [|done|lia].
  replace (pad p) with 52%nat by lia.
  change (Pos.compare_cont Eq (shl 52 1) (shl 52 p)) with (Pos.compare (shl 52 1) (shl 52 p)).
  destruct (Pos.compare_spec (shl 52 1) (shl 52 p)) as [|?|Hlt]; [done|done|].
  apply Pos2Z.pos_lt_pos in Hlt. rewrite !shl_value in Hlt. lia.
Qed.

Lemma to_int_of_int n : 0 <= n < 2 ^ 53 → to_int (of_int n) = n.
Proof.
  intros Hn. destruct n as [|p|p]; [done| |lia]. rewrite of_int_pos by lia.
  unfold to_int. rewrite shl_value.
  assert ((if - Z.of_nat (pad p) <? 0 then Z.pos p * 2 ^ Z.of_nat (pad p) / 2 ^ (- - Z.of_nat (pad p))
           else Z.pos p * 2 ^ Z.of_nat (pad p) * 2 ^ (- Z.of_nat (pad p))) = Z.pos p) as ->.
  { rewrite Z.opp_involutive. destruct (Z.ltb_spec (- Z.of_nat (pad p)) 0).
    - apply Z.div_mul. apply Z.pow_nonzero; lia.
    - replace (pad p) with 0%nat by lia. simpl. lia. }
  unfold in_int64, in_range, min_int64, max_int64.
  by rewrite (proj2 (Z.leb_le _ _)), (proj2 (Z.leb_le _ _)) by lia.
Qed.

Lemma fle_not_flt a b : fle b a = true → flt a b = false.
Proof.
  unfold flt, fle, SFltb, SFleb, SFcompare.
  destruct a as [[]|[]| |[] m1 e1], b as [[]|[]| |[] m2 e2]; try done;
    rewrite (Z.compare_antisym e1 e2); destruct (e1 ?= e2); simpl; try done;
    change (Pos.compare_cont Eq) with Pos.compare; rewrite (Pos.compare_antisym m1 m2);
    by destruct (m1 ?= m2)%positive.
Qed.
