(* ===== verification/GoNet.v ===== *)
(** * Go's [net]: host:port strings, IP literals and CIDR networks

    Translated from the documented behaviour of the standard library.  An IP
    is its bytes, 4 or 16 of them. *)

From S2P Require Import Prelude GoString GoStrconv.

(** ** [net.SplitHostPort] and [net.JoinHostPort] *)

Definition SplitHostPort (hostport : bytes) : option (bytes * bytes) :=
  match LastIndexByte hostport x3a with
  | None => None                                             (* missing port *)
  | Some i =>
      let port := drop (S i) hostport in
      let finish host j k :=
        if ContainsByte (drop j hostport) x5b || ContainsByte (drop k hostport) x5d
        then None                                            (* unexpected bracket *)
        else Some (host, port) in
      match hostport with
      | x5b :: _ =>
          match IndexByte hostport x5d with
          | None => None
          | Some e =>
              if bool_decide (S e = i)
              then finish (take (e - 1) (drop 1 hostport)) 1%nat (S e)
              else None
          end
      | _ =>
          let host := take i hostport in
          if ContainsByte host x3a then None                 (* too many colons *)
          else finish host 0%nat 0%nat
      end
  end.

Definition JoinHostPort (host port : bytes) : bytes :=
  if ContainsByte host x3a then #"[" ++ host ++ #"]:" ++ port
  else host ++ #":" ++ port.

(** ** IP literals: [netip.ParseAddr] *)

(** One dotted-quad field: no leading zero, at most 255. *)
Definition parse_octet (f : bytes) : option byte :=
  match f with
  | [] => None
  | b :: rest =>
      if bool_decide (b = x30) && negb (bool_decide (rest = [])) then None
      else z ← parse_digits f; if z <=? 255 then Some (byte_of z) else None
  end.

Definition parseIPv4 (s : bytes) : option bytes :=
  match Split s x2e with
  | [a; b; c; d] =>
      a' ← parse_octet a; b' ← parse_octet b; c' ← parse_octet c; d' ← parse_octet d;
      Some [a'; b'; c'; d']
  | _ => None
  end.

Definition hex_digit (b : byte) : option Z :=
  let c := bval b in
  if is_digit c then Some (c - 48)
  else if in_range 97 102 c then Some (c - 87)
  else if in_range 65 70 c then Some (c - 55)
  else None.

(** The leading hex digits of [s]: their value, their count and the rest. *)
Fixpoint hex_run (acc : Z) (n : nat) (s : bytes) : Z * nat * bytes :=
  match s with
  | b :: s' => match hex_digit b with
               | Some d => hex_run (acc * 16 + d) (S n) s'
               | None => (acc, n, s)
               end
  | [] => (acc, n, s)
  end.

(** The group loop of [parseIPv6]: [ip] holds the bytes filled so far,
    [ellipsis] the position of "::". *)
Fixpoint v6_groups (fuel : nat) (ip : bytes) (ellipsis : option nat) (s : bytes)
  : option (bytes * option nat * bytes) :=
  match fuel with
  | O => Some (ip, ellipsis, s)
  | S fuel' =>
      if (16 <=? length ip)%nat then Some (ip, ellipsis, s) else
      let '(acc, off, rest) := hex_run 0 0 s in
      if (4 <? off)%nat then None
      else if bool_decide (off = 0%nat) then None
      else if HasPrefix rest #"." then
        if negb (bool_decide (is_Some ellipsis)) && negb (bool_decide (length ip = 12%nat)) then None
        else if (16 <? length ip + 4)%nat then None
        else v4 ← parseIPv4 s; Some (ip ++ v4, ellipsis, [])
      else
        let ip' := ip ++ [byte_of (acc / 256); byte_of acc] in
        match rest with
        | [] => Some (ip', ellipsis, [])
        | x3a :: [] => None
        | x3a :: x3a :: rest' =>
            if bool_decide (is_Some ellipsis) then None
            else match rest' with
                 | [] => Some (ip', Some (length ip'), [])
                 | _ => v6_groups fuel' ip' (Some (length ip')) rest'
                 end
        | x3a :: rest' => v6_groups fuel' ip' ellipsis rest'
        | _ => None
        end
  end.

(** Fuel 9: at most eight groups fit in sixteen bytes. *)
Definition parseIPv6 (s : bytes) : option bytes :=
  let start := if HasPrefix s #"::" then (Some 0%nat, drop 2 s) else (None, s) in
  if bool_decide (s = #"::") then Some (replicate 16 x00)
  else
    '(ip, ellipsis, rest) ← v6_groups 9 [] (fst start) (snd start);
    if negb (bool_decide (rest = [])) then None
    else if (length ip <? 16)%nat then
      e ← ellipsis;
      Some (take e ip ++ replicate (16 - length ip) x00 ++ drop e ip)
    else if bool_decide (is_Some ellipsis) then None else Some ip.

(** [netip.ParseAddr] without zones: the address as written, 4 or 16 bytes.
    A zone makes [net.ParseIP] and [net.ParseCIDR] fail. *)
Definition ParseAddr (s : bytes) : option bytes :=
  match List.find (λ b, bool_decide (b = x2e) || bool_decide (b = x3a) || bool_decide (b = x25)) s with
  | Some x2e => parseIPv4 s
  | Some x3a => parseIPv6 s
  | _ => None
  end.

Definition v4InV6Prefix : bytes := replicate 10 x00 ++ [xff; xff].

(** [net.ParseIP]: always the 16-byte form. *)
Definition As16 (ip : bytes) : bytes := if bool_decide (length ip = 4%nat) then v4InV6Prefix ++ ip else ip.
Definition ParseIP (s : bytes) : option bytes := As16 <$> ParseAddr s.

(** [IP.To4] *)
Definition To4 (ip : bytes) : option bytes :=
  if bool_decide (length ip = 4%nat) then Some ip
  else if bool_decide (length ip = 16%nat) && bool_decide (take 12 ip = v4InV6Prefix)
  then Some (drop 12 ip) else None.

(** ** Networks *)

Record IPNet := { net_IP : bytes; net_Mask : bytes }.

Definition byte_and (a b : byte) : byte := byte_of (Z.land (bval a) (bval b)).

(** One byte of [net.CIDRMask]: [k] leading ones, [k] capped to 8. *)
Definition mask_byte (k : nat) : byte :=
  byte_of (256 - 2 ^ (8 - Z.of_nat (min k 8))).
Fixpoint CIDRMask (ones : nat) (len : nat) : bytes :=
  match len with
  | O => []
  | S l => mask_byte ones :: CIDRMask (ones - 8) l
  end.

(** [IP.Mask] for the lengths [ParseCIDR] produces. *)
Definition ip_Mask (ip mask : bytes) : bytes :=
  let ip' := if bool_decide (length mask = 4%nat) && bool_decide (length ip = 16%nat)
                && bool_decide (take 12 ip = v4InV6Prefix) then drop 12 ip else ip in
  if bool_decide (length ip' = length mask) then zip_with byte_and ip' mask else [].

(** [net.ParseCIDR] *)
Definition ParseCIDR (s : bytes) : option IPNet :=
  match IndexByte s x2f with
  | None => None
  | Some i =>
      ip ← ParseAddr (take i s);
      let mask := drop (S i) s in
      n ← (if forallb digit_byte mask then parse_digits mask else None);
      if n <=? 8 * Z.of_nat (length ip) then
        let m := CIDRMask (Z.to_nat n) (length ip) in
        Some {| net_IP := ip_Mask (As16 ip) m; net_Mask := m |}
      else None
  end.

(** [IPNet.Mask.Size] for masks [CIDRMask] made: the number of leading ones. *)
Fixpoint mask_ones (m : bytes) : nat :=
  match m with
  | [] => 0
  | xff :: m' => 8 + mask_ones m'
  | b :: _ => length (List.filter (λ k, Z.testbit (bval b) k) (seqZ 0 8))
  end.

(** [networkNumberAndMask] *)
Definition networkNumberAndMask (n : IPNet) : bytes * bytes :=
  let ip := default (net_IP n) (To4 (net_IP n)) in
  if bool_decide (length ip = 4%nat) || bool_decide (length ip = 16%nat) then
    if bool_decide (length (net_Mask n) = 4%nat) then
      (if bool_decide (length ip = 4%nat) then (ip, net_Mask n) else ([], []))
    else if bool_decide (length (net_Mask n) = 16%nat) then
      (ip, if bool_decide (length ip = 4%nat) then drop 12 (net_Mask n) else net_Mask n)
    else ([], [])
  else ([], []).

(** [IPNet.Contains] *)
Definition net_Contains (n : IPNet) (ip : bytes) : bool :=
  let '(nn, m) := networkNumberAndMask n in
  let ip' := default ip (To4 ip) in
  bool_decide (length ip' = length nn) &&
  forallb (λ '(a, b, k), bool_decide (byte_and a k = byte_and b k)) (zip (zip nn ip') m).

(** ** Facts *)

(** The number a byte string denotes, most significant byte first. *)
Definition be_val (s : bytes) : Z := foldl (λ acc b, acc * 256 + bval b) 0 s.

Lemma foldl_be_val s acc : foldl (λ acc b, acc * 256 + bval b) acc s = acc * 256 ^ Z.of_nat (length s) + be_val s.
Proof.
  unfold be_val. revert acc. induction s as [|b s IH]; intros acc; cbn [foldl length]; [lia|].
  rewrite (IH (acc * 256 + bval b)), (IH (0 * 256 + bval b)).
  rewrite Nat2Z.inj_succ, Z.pow_succ_r by lia. lia.
Qed.

Lemma be_val_cons b s : be_val (b :: s) = bval b * 256 ^ Z.of_nat (length s) + be_val s.
Proof. unfold be_val at 1. cbn [foldl]. rewrite foldl_be_val. lia. Qed.

Lemma be_val_range s : 0 <= be_val s < 256 ^ Z.of_nat (length s).
Proof.
  induction s as [|b s IH]; [done|]. rewrite be_val_cons. simpl length.
  rewrite Nat2Z.inj_succ, Z.pow_succ_r by lia. pose proof (bval_range b). nia.
Qed.

Lemma be_val_inj s t : length s = length t → be_val s = be_val t → s = t.
Proof.
  revert t. induction s as [|a s IH]; intros [|b t] Hl H; try done.
  injection Hl as Hl. rewrite !be_val_cons, Hl in H.
  pose proof (be_val_range s) as Hs. pose proof (be_val_range t) as Ht. rewrite Hl in Hs.
  assert (bval a = bval b) as Hab by nia.
  f_equal; [by apply bval_inj|]. apply IH; [done|]. nia.
Qed.

(** Masking a byte with [k] leading ones keeps exactly its top [k] bits. *)
Lemma byte_and_mask_table :
  forallb (λ k, forallb (λ n,
    let b := byte_of_N_total (N.of_nat n) in
    bval (byte_and b (mask_byte k)) =? bval b / 2 ^ (8 - Z.of_nat k) * 2 ^ (8 - Z.of_nat k))
    (seq 0 256)) (seq 0 9) = true.
Proof. vm_compute. reflexivity. Qed.

Lemma byte_and_mask b k : (k <= 8)%nat →
  bval (byte_and b (mask_byte k)) = bval b / 2 ^ (8 - Z.of_nat k) * 2 ^ (8 - Z.of_nat k).
Proof.
  intros Hk. pose proof byte_and_mask_table as H.
  rewrite forallb_Forall, Forall_forall in H.
  specialize (H k ltac:(apply elem_of_seq; lia)).
  rewrite forallb_Forall, Forall_forall in H.
  specialize (H (Z.to_nat (bval b))). pose proof (bval_range b).
  specialize (H ltac:(apply elem_of_seq; lia)). simpl in H. apply Z.eqb_eq in H.
  replace (byte_of_N_total (N.of_nat (Z.to_nat (bval b)))) with b in H; [done|].
  unfold byte_of_N_total, bval. replace (N.of_nat _) with (to_N b) by lia.
  by rewrite Byte.of_to_N.
Qed.

Lemma mask_byte_min k : mask_byte k = mask_byte (min k 8).
Proof. unfold mask_byte. by rewrite <- Nat.min_assoc. Qed.

Lemma byte_and_mask_eq a b k : (k <= 8)%nat →
  byte_and a (mask_byte k) = byte_and b (mask_byte k) ↔ bval a / 2 ^ (8 - Z.of_nat k) = bval b / 2 ^ (8 - Z.of_nat k).
Proof.
  intros Hk. split; intros H.
  - apply (f_equal bval) in H. rewrite !byte_and_mask in H by done.
    assert (0 < 2 ^ (8 - Z.of_nat k)) by (apply Z.pow_pos_nonneg; lia). nia.
  - apply bval_inj. rewrite !byte_and_mask by done. by rewrite H.
Qed.

Definition masked_eq (nn ip m : bytes) : bool :=
  forallb (λ '(a, b, k), bool_decide (byte_and a k = byte_and b k)) (zip (zip nn ip) m).

Lemma masked_eq_zero s t : length s = length t → masked_eq s t (CIDRMask 0 (length s)) = true.
Proof.
  unfold masked_eq. revert t. induction s as [|a s IH]; intros [|b t] Hl; try done.
  injection Hl as Hl. simpl. rewrite IH by done. rewrite andb_true_r.
  apply bool_decide_true. apply byte_and_mask_eq; [lia|].
  pose proof (bval_range a). pose proof (bval_range b).
  by rewrite !Z.div_small by (simpl; lia).
Qed.

Lemma be_val_div_head a s k : (k <= 8)%nat →
  be_val (a :: s) / 2 ^ (8 * Z.of_nat (S (length s)) - Z.of_nat k) = bval a / 2 ^ (8 - Z.of_nat k).
Proof.
  intros Hk. rewrite be_val_cons.
  replace (8 * Z.of_nat (S (length s)) - Z.of_nat k)
    with (8 * Z.of_nat (length s) + (8 - Z.of_nat k)) by lia.
  rewrite Z.pow_add_r by lia. rewrite <- Z.div_div by (try apply Z.pow_nonzero; try apply Z.pow_pos_nonneg; lia).
  rewrite Z.pow_mul_r by lia. change (2 ^ 8) with 256.
  rewrite Z.div_add_l by (apply Z.pow_nonzero; lia).
  rewrite (Z.div_small (be_val s)) by apply be_val_range. by rewrite Z.add_0_r.
Qed.

Lemma be_val_div_tail a s n : (8 < n <= 8 * S (length s))%nat →
  let d := 8 * Z.of_nat (length s) - Z.of_nat (n - 8) in
  be_val (a :: s) / 2 ^ (8 * Z.of_nat (S (length s)) - Z.of_nat n)
  = bval a * 2 ^ Z.of_nat (n - 8) + be_val s / 2 ^ d
  ∧ 0 <= be_val s / 2 ^ d < 2 ^ Z.of_nat (n - 8).
Proof.
  intros Hn d. rewrite be_val_cons.
  replace (8 * Z.of_nat (S (length s)) - Z.of_nat n) with d by lia.
  assert (0 < 2 ^ d) by (apply Z.pow_pos_nonneg; lia).
  assert (256 ^ Z.of_nat (length s) = 2 ^ Z.of_nat (n - 8) * 2 ^ d) as E.
  { change 256 with (2 ^ 8). rewrite <- Z.pow_mul_r, <- Z.pow_add_r by lia. f_equal. lia. }
  pose proof (be_val_range s) as R. rewrite E in *. split.
  - rewrite Z.mul_assoc. by rewrite Z.div_add_l by lia.
  - split; [apply Z.div_pos; lia|]. apply Z.div_lt_upper_bound; lia.
Qed.

(** A CIDR mask of [n] ones compares exactly the top [n] bits. *)
Lemma masked_eq_prefix s t n : length s = length t → (n <= 8 * length s)%nat →
  masked_eq s t (CIDRMask n (length s)) = true ↔
  be_val s / 2 ^ (8 * Z.of_nat (length s) - Z.of_nat n)
  = be_val t / 2 ^ (8 * Z.of_nat (length s) - Z.of_nat n).
Proof.
  revert t n. induction s as [|a s IH]; intros [|b t] n Hl Hn; try done.
  injection Hl as Hl. change (length (a :: s)) with (S (length s)) in *.
  change (masked_eq (a :: s) (b :: t) (CIDRMask n (S (length s))))
    with (bool_decide (byte_and a (mask_byte n) = byte_and b (mask_byte n))
          && masked_eq s t (CIDRMask (n - 8) (length s))).
  rewrite andb_true_iff, bool_decide_eq_true, (mask_byte_min n).
  destruct (decide (n <= 8)%nat) as [Hk|Hk].
  - replace (n - 8)%nat with 0%nat by lia. rewrite masked_eq_zero by done.
    rewrite byte_and_mask_eq by lia. replace (min n 8) with n by lia.
    rewrite be_val_div_head by done. rewrite Hl. rewrite be_val_div_head by done.
    split; [by intros [? _]|done].
  - replace (min n 8) with 8%nat by lia. rewrite byte_and_mask_eq by lia.
    change (8 - Z.of_nat 8) with 0. change (2 ^ 0) with 1. rewrite !Z.div_1_r.
    destruct (be_val_div_tail a s n ltac:(lia)) as [-> R1].
    destruct (be_val_div_tail b t n ltac:(lia)) as [E2 R2]. rewrite <- Hl in E2, R2.
    rewrite E2, IH by lia. split; [intros [-> ->]; done|intros E].
    assert (bval a = bval b) as Hab by (clear -R1 R2 E; nia). split; [done|]. lia.
Qed.
