(* ===== verification/GoUrl.v ===== *)
(** * Escaping in [net/url], and [strings.ReplaceAll]

    [escape] and [unescape] in the three modes the program uses, the encoded
    path of a URL, and the replacement of a text by another; with the facts that
    escaped text keeps the structure of what it is put into. *)

From S2P Require Import Prelude GoString GoNet.

(** ** [strings.ReplaceAll] *)

(** Left to right, without overlap; [skip] bytes belong to the last match. *)
Fixpoint replace_from (old new : bytes) (skip : nat) (s : bytes) : bytes :=
  match s with
  | [] => []
  | b :: s' =>
      match skip with
      | S k => replace_from old new k s'
      | O => if HasPrefix s old then new ++ replace_from old new (length old - 1) s' else b :: replace_from old new 0 s'
      end
  end.

(** An empty [old] matches before every rune and at the end. *)
Fixpoint intersperse (new : bytes) (skip : nat) (s : bytes) : bytes :=
  match s with
  | [] => match skip with O => new | S _ => new end
  | b :: s' => match skip with O => new ++ b :: intersperse new (snd (DecodeRune s) - 1) s' | S k => b :: intersperse new k s' end
  end.

Definition ReplaceAll (s old new : bytes) : bytes :=
  if bool_decide (old = []) then intersperse new 0 s else replace_from old new 0 s.

(** ** Escaping *)

Inductive encoding := encodePath | encodePathSegment | encodeQueryComponent.

Definition unreserved (c : Z) : bool := is_alnum c || bool_decide (c ∈ [45; 95; 46; 126]).

Definition shouldEscape (c : Z) (mode : encoding) : bool :=
  if unreserved c then false
  else if bool_decide (c ∈ [36; 38; 43; 44; 47; 58; 59; 61; 63; 64]) then
    match mode with
    | encodePath => c =? 63
    | encodePathSegment => bool_decide (c ∈ [47; 59; 44; 63])
    | encodeQueryComponent => true
    end
  else true.

Definition upper_hex (z : Z) : byte := byte_of (if z <? 10 then 48 + z else 55 + z).
Definition is_query (mode : encoding) : bool := match mode with encodeQueryComponent => true | _ => false end.

Definition escape_byte (mode : encoding) (b : byte) : bytes :=
  let c := bval b in
  if shouldEscape c mode then
    if (c =? 32) && is_query mode then [x2b] else [x25; upper_hex (c / 16); upper_hex (c mod 16)]
  else [b].
Definition escape (mode : encoding) (s : bytes) : bytes := flat_map (escape_byte mode) s.

Definition PathEscape : bytes → bytes := escape encodePathSegment.
Definition QueryEscape : bytes → bytes := escape encodeQueryComponent.

Fixpoint unescape (mode : encoding) (s : bytes) : option bytes :=
  match s with
  | [] => Some []
  | b :: s' =>
      if bool_decide (b = x25) then
        match s' with
        | h :: l :: s'' => h ← hex_digit h; l ← hex_digit l; rest ← unescape mode s''; Some (byte_of (16 * h + l) :: rest)
        | _ => None
        end
      else rest ← unescape mode s'; Some ((if bool_decide (b = x2b) && is_query mode then x20 else b) :: rest)
  end.

Definition PathUnescape : bytes → option bytes := unescape encodePathSegment.

(** ** The path on the wire *)

Definition valid_byte (b : byte) : bool :=
  bool_decide (b ∈ [x21; x24; x26; x27; x28; x29; x2a; x2b; x2c; x3b; x3d; x3a; x40; x5b; x5d; x25]) || negb (shouldEscape (bval b) encodePath).
Definition validEncoded (s : bytes) : bool := forallb valid_byte s.

(** [URL.EscapedPath] of a URL's [Path] and [RawPath]. *)
Definition EscapedPath (path rawPath : bytes) : bytes :=
  if negb (bool_decide (rawPath = [])) && validEncoded rawPath && bool_decide (unescape encodePath rawPath = Some path) then rawPath
  else if bool_decide (path = #"*") then #"*" else escape encodePath path.

(** ** Facts: what escaping writes *)

Lemma escape_Forall (P : byte → Prop) mode s : (∀ b, Forall P (escape_byte mode b)) → Forall P (escape mode s).
Proof. intros Hb. induction s as [|b s IH]; cbn; [constructor|]. apply Forall_app. by split. Qed.

Lemma QueryEscape_inert s : x26 ∉ QueryEscape s ∧ x3d ∉ QueryEscape s.
Proof.
  assert (H : Forall (λ c, c ≠ x26 ∧ c ≠ x3d) (QueryEscape s)).
  { apply escape_Forall. intros b. apply Forall_forall. destruct b; by apply Forall_forall; apply (bool_decide_unpack _); vm_compute. }
  rewrite Forall_forall in H. split; intros Hin; by destruct (H _ Hin).
Qed.

Lemma PathEscape_inert s : Forall (λ c, c ≠ x2f ∧ valid_byte c = true) (PathEscape s).
Proof. apply escape_Forall. intros b. destruct b; by apply (bool_decide_unpack _); vm_compute. Qed.

Lemma escape_path_valid s : Forall (λ c, valid_byte c = true) (escape encodePath s).
Proof. apply escape_Forall. intros b. destruct b; by apply (bool_decide_unpack _); vm_compute. Qed.

Lemma unescape_mode s : unescape encodePath s = unescape encodePathSegment s.
Proof.
  cut (∀ n s, (length s <= n)%nat → unescape encodePath s = unescape encodePathSegment s); [eauto|]. clear s.
  induction n as [|n IH]; intros s Hn; (destruct s as [|b s]; [done|]); cbn in Hn; [lia|]. cbn [unescape].
  destruct (bool_decide (b = x25)).
  - destruct s as [|h [|l s]]; try done. rewrite IH; [done|]. cbn in Hn. lia.
  - rewrite IH; [done|lia].
Qed.

(** ** Facts: replacing text *)

Lemma replace_Forall (P : byte → Prop) old new s : ∀ skip, Forall P new → Forall P s → Forall P (replace_from old new skip s).
Proof.
  induction s as [|b s IH]; intros skip Hn Hs; cbn [replace_from]; [constructor|]. apply Forall_cons in Hs as [Hb Hs].
  destruct skip as [|k]; [|by apply IH]. destruct (HasPrefix (b :: s) old); [apply Forall_app; split; [done|by apply IH]|constructor; [done|by apply IH]].
Qed.

Lemma HasPrefix_field c s old : c ∉ old → HasPrefix s old = match Split s c with f :: _ => HasPrefix f old | [] => false end.
Proof.
  revert old. induction s as [|b s IH]; intros old Hc; cbn [Split]; [done|]. pose proof (Split_nonempty s c) as Hne.
  destruct old as [|o old].
  { assert (Hnil : ∀ t, HasPrefix t [] = true) by (intros t; apply HasPrefix_spec; by exists t).
    destruct (bool_decide _); rewrite ?Hnil; [done|]. by destruct (Split s c). }
  apply not_elem_of_cons in Hc as [Ho Hc]. assert (Hcons : ∀ x t, HasPrefix (x :: t) (o :: old) = bool_decide (x = o) && HasPrefix t old).
  { intros x t. apply eq_true_iff_eq. rewrite andb_true_iff, !HasPrefix_spec, bool_decide_eq_true. split.
    - intros [u [= -> ->]]. eauto. - intros [-> [u ->]]. by exists u. }
  case_bool_decide as E.
  - subst b. rewrite Hcons, bool_decide_false by done. cbn [andb]. unfold HasPrefix. symmetry. apply bool_decide_false. intros [t Ht]. done.
  - specialize (IH old Hc). destruct (Split s c) as [|f fs]; [done|]. by rewrite !Hcons, IH.
Qed.

Lemma Split_app_plain c a t : c ∉ a → Split (a ++ t) c = match Split t c with f :: fs => (a ++ f) :: fs | [] => [] end.
Proof.
  induction a as [|x a IH]; intros Ha; cbn [app]; [by destruct (Split t c)|]. apply not_elem_of_cons in Ha as [Hx Ha].
  cbn [Split]. rewrite bool_decide_false by congruence. rewrite IH by done. destruct (Split t c) eqn:E; [by destruct (Split_nonempty t c)|done].
Qed.

(** Replacing a text without separators by another such text works field by
    field. *)
Lemma Split_replace c old new s : old ≠ [] → c ∉ old → c ∉ new → ∀ skip, c ∉ take skip s →
  Split (replace_from old new skip s) c =
  match Split s c with f :: fs => replace_from old new skip f :: map (replace_from old new 0) fs | [] => [] end.
Proof.
  intros Hne Ho Hn. induction s as [|b s IH]; intros skip Ht; [done|]. cbn [replace_from].
  pose proof (Split_nonempty s c) as Hs. pose proof (HasPrefix_field c (b :: s) old Ho) as Hp. cbn [Split] in *. destruct skip as [|k].
  - destruct (bool_decide_reflect (b = c)) as [->|Hb].
    + assert (HasPrefix (c :: s) old = false) as ->.
      { rewrite Hp. destruct old as [|o old]; [done|]. unfold HasPrefix. apply bool_decide_false. by intros [t Ht']. }
      cbn [Split]. rewrite bool_decide_true by done. rewrite IH by apply not_elem_of_nil. by destruct (Split s c).
    + destruct (Split s c) as [|f fs] eqn:Es; [done|]. cbn [replace_from]. rewrite <- Hp. destruct (HasPrefix (b :: s) old) eqn:Hq.
      * rewrite Split_app_plain by done. rewrite IH; [done|]. destruct old as [|o old]; [done|]. apply HasPrefix_spec in Hq as [t [= -> ->]].
        cbn [length]. rewrite Nat.sub_succ, Nat.sub_0_r, take_app_length. by apply not_elem_of_cons in Ho as [_ ?].
      * cbn [Split]. rewrite bool_decide_false by done. by rewrite IH by apply not_elem_of_nil.
  - cbn [take] in Ht. apply not_elem_of_cons in Ht as [Hb Ht]. rewrite bool_decide_false by congruence.
    destruct (Split s c) as [|f fs] eqn:Es; [done|]. by rewrite IH.
Qed.

Lemma Split_ReplaceAll c s old new : old ≠ [] → c ∉ old → c ∉ new → Split (ReplaceAll s old new) c = map (λ f, ReplaceAll f old new) (Split s c).
Proof.
  intros Hne Ho Hn. unfold ReplaceAll. rewrite bool_decide_false by done. rewrite Split_replace by (done || apply not_elem_of_nil). by destruct (Split s c).
Qed.

Lemma ReplaceAll_Forall (P : byte → Prop) s old new : old ≠ [] → Forall P new → Forall P s → Forall P (ReplaceAll s old new).
Proof. intros Hne. unfold ReplaceAll. rewrite bool_decide_false by done. apply replace_Forall. Qed.

(** * The parts of Go's [net/http] and [net/url] the program uses

    Header names are put in canonical form byte by byte; a URL is parsed by an
    argument, whose result has the fields of [url.URL]. *)

(** [textproto.validHeaderFieldByte]: the token characters of RFC 7230. *)
Definition token_byte (b : byte) : bool :=
  is_alnum (bval b) ||
  bool_decide (b ∈ [x21; x23; x24; x25; x26; x27; x2a; x2b; x2d; x2e; x5e; x5f; x60; x7c; x7e]).

(** [upper]: the next letter begins a word. *)
Fixpoint canonical_words (upper : bool) (s : bytes) : bytes :=
  match s with
  | [] => []
  | b :: s' =>
      let c := bval b in
      byte_of (if upper then ascii_upper c else ascii_lower c) :: canonical_words (c =? 45) s'
  end.

(** [http.CanonicalHeaderKey]: a name that is not a token is left as it is. *)
Definition CanonicalHeaderKey (s : bytes) : bytes := if forallb token_byte s then canonical_words true s else s.

Record URL := {
  u_Scheme : bytes;
  u_Opaque : bytes;
  u_User : bool;                                           (* [User != nil] *)
  u_Host : bytes;
  u_Path : bytes;
  u_ForceQuery : bool;
  u_RawQuery : bytes;
  u_Fragment : bytes;
  u_Hostname : bytes;                                      (* [Hostname()] *)
  u_Port : bytes;                                          (* [Port()] *)
}.

(** ** Canonical form *)

Lemma bval_ascii_upper b : bval (byte_of (ascii_upper (bval b))) = ascii_upper (bval b).
Proof.
  pose proof (bval_range b). unfold ascii_upper, is_lower, in_range. rewrite bval_byte_of.
  destruct (_ && _) eqn:E; b2p; rewrite Z.mod_small; lia.
Qed.

Lemma bval_ascii_lower b : bval (byte_of (ascii_lower (bval b))) = ascii_lower (bval b).
Proof.
  pose proof (bval_range b). unfold ascii_lower, is_upper, in_range. rewrite bval_byte_of.
  destruct (_ && _) eqn:E; b2p; rewrite Z.mod_small; lia.
Qed.

Lemma canonical_words_idem s : ∀ upper, canonical_words upper (canonical_words upper s) = canonical_words upper s.
Proof.
  induction s as [|b s IH]; intros upper; [done|]. cbn [canonical_words]. f_equal.
  - destruct upper; [rewrite bval_ascii_upper|rewrite bval_ascii_lower]; f_equal; unfold ascii_upper, ascii_lower, is_upper, is_lower, in_range;
      repeat (destruct (_ && _) eqn:?; b2p; try lia).
  - replace (bval (byte_of (if upper then ascii_upper (bval b) else ascii_lower (bval b))) =? 45) with (bval b =? 45); [apply IH|].
    destruct upper; [rewrite bval_ascii_upper|rewrite bval_ascii_lower]; unfold ascii_upper, ascii_lower, is_upper, is_lower, in_range;
      destruct (_ && _) eqn:E; try done; b2p; destruct (Z.eqb_spec (bval b) 45); symmetry; try (apply Z.eqb_neq; lia); lia.
Qed.
