(* ===== verification/NetGuard.v ===== *)
(** * Network guard ([internal/netguard/netguard.go])

    The dial-time policy that keeps the proxy away from cloud metadata
    endpoints, private ranges and addresses outside the approved egress
    ranges.  [os.Getenv] is a function argument, DNS resolution
    ([LookupIPAddr]) another; the network dial itself is the value the model
    returns. *)

From S2P Require Import Prelude GoString GoStrconv GoNet.

Abbreviation environment := (bytes → bytes).

(** [strconv.ParseBool] *)
Definition ParseBool (s : bytes) : option bool :=
  if bool_decide (s ∈ [ #"1"; #"t"; #"T"; #"true"; #"TRUE"; #"True"]) then Some true
  else if bool_decide (s ∈ [ #"0"; #"f"; #"F"; #"false"; #"FALSE"; #"False"]) then Some false
  else None.

Definition AllowPrivateFromEnv (Getenv : environment) : bool :=
  let v := Getenv #"AGENT_VAULT_ALLOW_PRIVATE_RANGES" in
  if bool_decide (v = []) then false
  else match ParseBool v with None => false | Some b => b end.

(** [parseCIDR]; [None] is the panic. *)
Definition parseCIDR (s : bytes) : option IPNet := ParseCIDR s.

Definition alwaysBlocked_src : list bytes :=
  [ #"169.254.169.254/32"; #"fd00:ec2::254/128"].
Definition privateRanges_src : list bytes :=
  [ #"10.0.0.0/8"; #"172.16.0.0/12"; #"192.168.0.0/16"; #"127.0.0.0/8";
   #"169.254.0.0/16"; #"100.64.0.0/10"; #"::1/128"; #"fe80::/10"; #"fc00::/7";
   #"0.0.0.0/32"].

Definition alwaysBlocked : list IPNet := Eval vm_compute in default [] (mapM parseCIDR alwaysBlocked_src).
Definition privateRanges : list IPNet := Eval vm_compute in default [] (mapM parseCIDR privateRanges_src).

(** The package's [parseCIDR] calls do not panic. *)
Lemma ranges_parse :
  mapM parseCIDR alwaysBlocked_src = Some alwaysBlocked ∧
  mapM parseCIDR privateRanges_src = Some privateRanges.
Proof. split; vm_compute; reflexivity. Qed.

Section NetGuard.
Context `{UnicodeTables}.

(** One entry of [ParseCIDRList], after trimming. *)
Definition parse_entry (p : bytes) : option IPNet :=
  if ContainsByte p x2f then ParseCIDR p
  else match ParseIP p with
       | None => None
       | Some ip => if bool_decide (is_Some (To4 ip)) then ParseCIDR (p ++ #"/32")
                    else ParseCIDR (p ++ #"/128")
       end.

Definition ParseCIDRList (raw : bytes) : list IPNet :=
  if bool_decide (raw = []) then []
  else omap (λ p, let p := TrimSpace p in if bool_decide (p = []) then None else parse_entry p)
            (Split raw x2c).

Definition AllowlistFromEnv (Getenv : environment) : list IPNet :=
  ParseCIDRList (Getenv #"AGENT_VAULT_NETWORK_ALLOWLIST").

Definition isBlockedIP (ip : bytes) (allowPrivate : bool) (allowed : list IPNet) : bool :=
  if existsb (λ n, net_Contains n ip) alwaysBlocked then true
  else if allowPrivate then false
  else if existsb (λ n, net_Contains n ip) allowed then false
  else existsb (λ n, net_Contains n ip) privateRanges.

Definition withinEgress (ip : bytes) (egress : list IPNet) : bool :=
  if bool_decide (length egress = 0%nat) then true
  else existsb (λ n, net_Contains n ip) egress.

(** The variables [SafeDialContext]'s closure captures. *)
Record Guard := { g_allowPrivate : bool; g_allowed : list IPNet; g_egress : list IPNet }.

Definition IPv4zero : bytes := v4InV6Prefix ++ replicate 4 x00.

Definition SafeDialContext (Getenv : environment) (allowPrivate : bool) : Guard :=
  let allowed := if allowPrivate then [] else AllowlistFromEnv Getenv in
  let egressSetting := Getenv #"AGENT_VAULT_EGRESS_RANGES" in
  let egress := ParseCIDRList egressSetting in
  let egress :=
    if negb (bool_decide (TrimSpace egressSetting = [])) && bool_decide (length egress = 0%nat)
    then [{| net_IP := IPv4zero; net_Mask := CIDRMask 32 4 |}] else egress in
  {| g_allowPrivate := allowPrivate; g_allowed := allowed; g_egress := egress |}.

Inductive dial_error :=
| InvalidAddress | LookupFailed | BlockedByPolicy (ip : bytes)
| IndexOutOfRange. (* [ips[0]] of an empty answer panics *)

(** The dial function: resolve, check every answer, connect to the first. *)
Definition dial (g : Guard) (LookupIPAddr : bytes → option (list bytes))
    (addr : bytes) : result dial_error (bytes * bytes) :=
  match SplitHostPort addr with
  | None => Err InvalidAddress
  | Some (host, port) =>
      match LookupIPAddr host with
      | None => Err LookupFailed
      | Some ips =>
          match first_error (λ ip,
                  if isBlockedIP ip (g_allowPrivate g) (g_allowed g)
                     || negb (withinEgress ip (g_egress g))
                  then Some (BlockedByPolicy ip) else None) ips with
          | Some e => Err e
          | None => match ips with
                    | [] => Err IndexOutOfRange
                    | ip :: _ => Ok (ip, port)
                    end
          end
      end
  end.

(** ** Specification: the policy as address intervals *)

(** The address a connection reaches: IPv4-mapped IPv6 is IPv4. *)
Definition canon (ip : bytes) : bytes := default ip (To4 ip).

Definition v4 (a b c d : Z) : Z := ((a * 256 + b) * 256 + c) * 256 + d.

Definition in_v4 (ip : bytes) (lo hi : Z) : Prop :=
  length (canon ip) = 4%nat ∧ lo <= be_val (canon ip) <= hi.
Definition in_v6 (ip : bytes) (lo hi : Z) : Prop :=
  length (canon ip) = 16%nat ∧ lo <= be_val (canon ip) <= hi.

Definition metadata_address (ip : bytes) : Prop :=
  in_v4 ip (v4 169 254 169 254) (v4 169 254 169 254) ∨
  in_v6 ip (0xfd000ec2 * 2 ^ 96 + 0x254) (0xfd000ec2 * 2 ^ 96 + 0x254).

Definition private_address (ip : bytes) : Prop :=
  in_v4 ip (v4 10 0 0 0) (v4 10 255 255 255) ∨
  in_v4 ip (v4 172 16 0 0) (v4 172 31 255 255) ∨
  in_v4 ip (v4 192 168 0 0) (v4 192 168 255 255) ∨
  in_v4 ip (v4 127 0 0 0) (v4 127 255 255 255) ∨
  in_v4 ip (v4 169 254 0 0) (v4 169 254 255 255) ∨
  in_v4 ip (v4 100 64 0 0) (v4 100 127 255 255) ∨
  in_v6 ip 1 1 ∨
  in_v6 ip (0xfe80 * 2 ^ 112) (0xfec0 * 2 ^ 112 - 1) ∨
  in_v6 ip (0xfc00 * 2 ^ 112) (0xfe00 * 2 ^ 112 - 1) ∨
  in_v4 ip 0 0.

Definition in_nets (ip : bytes) (nets : list IPNet) : Prop :=
  ∃ n, n ∈ nets ∧ net_Contains n ip = true.

Definition permitted (g : Guard) (ip : bytes) : Prop :=
  ¬ metadata_address ip ∧
  (g_allowPrivate g = true ∨ in_nets ip (g_allowed g) ∨ ¬ private_address ip) ∧
  (g_egress g = [] ∨ in_nets ip (g_egress g)).

(** ** Containment in a literal range is an interval test *)

Lemma net_Contains_cidr n nn ones ip :
  networkNumberAndMask n = (nn, CIDRMask ones (length nn)) → (ones <= 8 * length nn)%nat →
  net_Contains n ip = true ↔
  length (canon ip) = length nn ∧
  be_val nn / 2 ^ (8 * Z.of_nat (length nn) - Z.of_nat ones)
  = be_val (canon ip) / 2 ^ (8 * Z.of_nat (length nn) - Z.of_nat ones).
Proof.
  intros Hn Ho. unfold net_Contains. rewrite Hn. fold (canon ip).
  rewrite andb_true_iff, bool_decide_eq_true. split; intros [Hl Hm]; split; try done.
  - by apply (masked_eq_prefix nn (canon ip)).
  - by apply (masked_eq_prefix nn (canon ip)).
Qed.

Lemma net_Contains_range n nn ones ip lo hi :
  networkNumberAndMask n = (nn, CIDRMask ones (length nn)) → (ones <= 8 * length nn)%nat →
  let k := 2 ^ (8 * Z.of_nat (length nn) - Z.of_nat ones) in
  lo = be_val nn / k * k → hi = be_val nn / k * k + k - 1 →
  net_Contains n ip = true ↔ length (canon ip) = length nn ∧ lo <= be_val (canon ip) <= hi.
Proof.
  intros Hn Ho k -> ->. rewrite (net_Contains_cidr n nn ones) by done. fold k.
  assert (0 < k) by (apply Z.pow_pos_nonneg; lia).
  pose proof (Z.div_mod (be_val (canon ip)) k ltac:(lia)).
  pose proof (Z.mod_pos_bound (be_val (canon ip)) k ltac:(lia)).
  split; intros [? ?]; split; try done; nia.
Qed.

(** Solves one disjunct: the literal range at position [i] of a list. *)
Ltac literal_range ones :=
  match goal with |- net_Contains ?n _ = true ↔ _ =>
    let p := eval vm_compute in (networkNumberAndMask n) in
    match p with (?nn, _) =>
      apply (net_Contains_range n nn ones); [reflexivity|simpl; lia|vm_compute; reflexivity..]
    end
  end.

Lemma existsb_cons_iff {A} (f : A → bool) x l P Q :
  (f x = true ↔ P) → (existsb f l = true ↔ Q) → (existsb f (x :: l) = true ↔ P ∨ Q).
Proof. intros HP HQ. simpl. by rewrite orb_true_iff, HP, HQ. Qed.

Lemma existsb_last_iff {A} (f : A → bool) x P :
  (f x = true ↔ P) → (existsb f [x] = true ↔ P).
Proof. intros HP. simpl. by rewrite orb_false_r. Qed.

Lemma alwaysBlocked_spec ip :
  existsb (λ n, net_Contains n ip) alwaysBlocked = true ↔ metadata_address ip.
Proof.
  unfold alwaysBlocked, metadata_address.
  apply existsb_cons_iff; [literal_range 32%nat|].
  apply existsb_last_iff. literal_range 128%nat.
Qed.

Lemma privateRanges_spec ip :
  existsb (λ n, net_Contains n ip) privateRanges = true ↔ private_address ip.
Proof.
  unfold privateRanges, private_address.
  apply existsb_cons_iff; [literal_range 8%nat|].
  apply existsb_cons_iff; [literal_range 12%nat|].
  apply existsb_cons_iff; [literal_range 16%nat|].
  apply existsb_cons_iff; [literal_range 8%nat|].
  apply existsb_cons_iff; [literal_range 16%nat|].
  apply existsb_cons_iff; [literal_range 10%nat|].
  apply existsb_cons_iff; [literal_range 128%nat|].
  apply existsb_cons_iff; [literal_range 10%nat|].
  apply existsb_cons_iff; [literal_range 7%nat|].
  apply existsb_last_iff. literal_range 32%nat.
Qed.

Lemma check_permitted g ip :
  isBlockedIP ip (g_allowPrivate g) (g_allowed g) || negb (withinEgress ip (g_egress g)) = false
  ↔ permitted g ip.
Proof.
  rewrite orb_false_iff, negb_false_iff. unfold permitted.
  assert (withinEgress ip (g_egress g) = true ↔ g_egress g = [] ∨ in_nets ip (g_egress g)) as ->.
  { unfold withinEgress, in_nets. rewrite <- existsb_Exists.
    case_bool_decide as Hl.
    - apply nil_length_inv in Hl. rewrite Hl. split; auto.
    - split; [auto|]. intros [E|?]; [|done]. by rewrite E in Hl. }
  generalize (g_egress g = [] ∨ in_nets ip (g_egress g)) as E; intros E.
  unfold isBlockedIP. rewrite <- alwaysBlocked_spec, <- privateRanges_spec.
  unfold in_nets. rewrite <- existsb_Exists.
  destruct (existsb _ alwaysBlocked), (g_allowPrivate g), (existsb _ (g_allowed g)),
    (existsb _ privateRanges); intuition congruence.
Qed.

(** ** Properties *)


(** An egress setting that is present but contains no usable
    range fails closed: nothing but 0.0.0.0 is within egress, so with private
    ranges blocked and no allowlist entry for it no dial succeeds at all. *)
Theorem unparseable_egress_blocks_all Getenv LookupIPAddr addr ip port :
  TrimSpace (Getenv #"AGENT_VAULT_EGRESS_RANGES") ≠ [] →
  ParseCIDRList (Getenv #"AGENT_VAULT_EGRESS_RANGES") = [] →
  (∀ n, n ∈ AllowlistFromEnv Getenv → net_Contains n IPv4zero = false) →
  dial (SafeDialContext Getenv false) LookupIPAddr addr ≠ Ok (ip, port).
Proof.
  intros Hs He Hal Hd. set (g := SafeDialContext Getenv false) in *.
  assert (g_egress g = [{| net_IP := IPv4zero; net_Mask := CIDRMask 32 4 |}]) as Hg.
  { unfold g, SafeDialContext. simpl. by rewrite He, (bool_decide_false _ Hs). }
  assert (permitted g ip) as (_ & Hp & Hin).
  { unfold dial in Hd. destruct (SplitHostPort addr) as [[host port']|]; [|done].
    destruct (LookupIPAddr host) as [ips|]; [|done].
    destruct (first_error _ ips) eqn:E; [done|]. apply first_error_None in E.
    destruct ips as [|ip' ips]; [done|]. simplify_eq. apply Forall_cons_1 in E as [E _].
    apply check_permitted. by destruct (_ || _). }
  rewrite Hg in Hin. destruct Hin as [[=]|(n & Hn & Hc)].
  apply list_elem_of_singleton in Hn. subst n.
  apply (net_Contains_range _ [x00; x00; x00; x00] 32 _ 0 0) in Hc as [Hl Hv];
    [|vm_compute; reflexivity|simpl; lia|vm_compute; reflexivity..].
  assert (canon ip = canon IPv4zero) as Hcan.
  { apply be_val_inj; [by rewrite Hl|]. vm_compute (be_val (canon IPv4zero)). lia. }
  destruct Hp as [[=]|[(n & Hn & Hc)|Hp]].
  - assert (net_Contains n ip = net_Contains n IPv4zero) as E.
    { unfold net_Contains. by fold (canon ip) (canon IPv4zero); rewrite Hcan. }
    by rewrite E, Hal in Hc.
  - apply Hp. unfold private_address. do 9 right. split; [done|].
    rewrite Hcan. vm_compute. split; discriminate.
Qed.

(** The guard blocks 0.0.0.0 in both spellings but not the
    IPv6 unspecified address ::, which reaches the same local listeners. *)
Theorem unspecified_v6_not_blocked :
  isBlockedIP (replicate 4 x00) false [] = true ∧
  isBlockedIP IPv4zero false [] = true ∧
  ParseIP #"::" = Some (replicate 16 x00) ∧
  isBlockedIP (replicate 16 x00) false [] = false.
Proof. repeat split; vm_compute; reflexivity. Qed.
End NetGuard.

(** ** Witnesses *)

Definition sample_lookup (ips : list bytes) (_ : bytes) : option (list bytes) := Some ips.
Definition sample_env (k : bytes) : bytes :=
  if bool_decide (k = #"AGENT_VAULT_EGRESS_RANGES") then #" nonsense " else [].


Lemma unparseable_egress_blocks_all_witness :
  @dial (@SafeDialContext latin1_tables sample_env false)
    (sample_lookup [replicate 4 x00]) #"h:1" ≠ Ok (replicate 4 x00, #"1").
Proof.
  apply (@unparseable_egress_blocks_all latin1_tables).
  - vm_compute. discriminate.
  - vm_compute. reflexivity.
  - intros n Hn. vm_compute in Hn. inversion Hn.
Defined.
