(* ===== verification/BrokerMatch.v ===== *)
(** * Broker services and request matching
    ([internal/broker/broker.go]: types, [MatchService], [matchHostPattern],
    [matchPathGlob], [AnyHostMatches])

    Go maps that the code only ranges over ([Headers], [FixedQuery]) are
    association lists in the order the runtime iterates them; a nil map is
    distinguished where the code tests for nil. *)

From S2P Require Import Prelude GoString GoStrconv GoNet.

Record Substitution := {
  sub_Key : bytes;
  sub_Placeholder : bytes;
  sub_In : list bytes;
}.

Record Auth := {
  auth_Type : bytes;
  auth_Token : bytes;
  auth_Username : bytes;
  auth_Password : bytes;
  auth_Key : bytes;
  auth_Header : bytes;
  auth_Prefix : bytes;
  auth_Headers : list (bytes * bytes);
}.

Record Service := {
  svc_Name : bytes;
  svc_Host : bytes;
  svc_Path : bytes;
  svc_Port : option Z;
  svc_Enabled : option bool;
  svc_Auth : Auth;
  svc_Substitutions : list Substitution;
  svc_FixedQuery : option (list (bytes * bytes));
}.

Record Config := { cfg_Vault : bytes; cfg_Services : list Service }.

Definition IsEnabled (s : Service) : bool :=
  match svc_Enabled s with None => true | Some b => b end.

(** The joined inline form, [slack.com/api/*]. *)
Definition MatcherPattern (s : Service) : bytes :=
  let host := match svc_Port s with
              | Some p => JoinHostPort (svc_Host s) (Itoa p)
              | None => svc_Host s
              end in
  if bool_decide (svc_Path s = []) then host else host ++ svc_Path s.

(** ** Host patterns *)

Definition HostTierWildcard : Z := 1.
Definition HostTierExact : Z := 2.

Definition matchHostPattern (pattern host : bytes) : Z * bool :=
  let pattern := match SplitHostPort pattern with Some (h, _) => h | None => pattern end in
  if bool_decide (pattern = host) then (HostTierExact, true)
  else if HasPrefix pattern #"*." then
    let suffix := drop 1 pattern in
    if HasSuffix host suffix then
      let prefix := TrimSuffix host suffix in
      if negb (bool_decide (prefix = [])) && negb (Contains prefix #".")
      then (HostTierWildcard, true) else (0, false)
    else (0, false)
  else (0, false).

Definition AnyHostMatches (host : bytes) (services : list Service) : bool :=
  existsb (λ s, snd (matchHostPattern (svc_Host s) host)) services.

(** ** Path globs *)

(** The loop over the middle parts, then the suffix test on what is left. *)
Fixpoint glob_rest (parts : list bytes) (rest : bytes) : bool :=
  match parts with
  | [] => false
  | [last] => HasSuffix rest last
  | part :: parts' =>
      match Index rest part with
      | None => false
      | Some idx => glob_rest parts' (drop (idx + length part) rest)
      end
  end.

Definition matchPathGlob (pattern path : bytes) : Z * bool :=
  if bool_decide (pattern = []) then (0, true)
  else
    match Split pattern x2a with
    | [] => (0, false)                     (* Split never returns no field *)
    | [p0] => (Z.of_nat (length p0), bool_decide (path = pattern))
    | p0 :: parts =>
        let literalLen := Z.of_nat (length p0) in
        if negb (HasPrefix path p0) then (literalLen, false)
        else (literalLen, glob_rest parts (drop (length p0) path))
    end.

(** ** Selection *)

Record MatchScore := {
  HostTier : Z;
  PortSpecific : bool;
  PathLiteralLen : Z;
  DeclOrder : nat;
}.

Definition zero_score : MatchScore :=
  {| HostTier := 0; PortSpecific := false; PathLiteralLen := 0; DeclOrder := 0 |}.

Definition Better (s other : MatchScore) : bool :=
  if negb (HostTier s =? HostTier other) then HostTier other <? HostTier s
  else if negb (Bool.eqb (PortSpecific s) (PortSpecific other)) then PortSpecific s
  else PathLiteralLen other <? PathLiteralLen s.

(** One iteration of the loop: the score of service [i], or [None] where the
    code continues. *)
Definition score_of (host : bytes) (targetPort : Z) (path : bytes) (i : nat) (s : Service)
  : option MatchScore :=
  let '(hostTier, hostOK) := matchHostPattern (svc_Host s) host in
  if negb hostOK then None
  else
    let rest portSpecific :=
      let '(pathLen, pathOK) := matchPathGlob (svc_Path s) path in
      if negb pathOK then None
      else Some {| HostTier := hostTier; PortSpecific := portSpecific;
                   PathLiteralLen := pathLen; DeclOrder := i |} in
    match svc_Port s with
    | Some p => if negb (targetPort =? p) then None else rest true
    | None => rest false
    end.

Fixpoint match_loop (host : bytes) (targetPort : Z) (path : bytes)
    (best : option Service) (bestScore : MatchScore) (i : nat) (services : list Service)
  : option Service * MatchScore :=
  match services with
  | [] => (best, bestScore)
  | s :: services' =>
      match score_of host targetPort path i s with
      | None => match_loop host targetPort path best bestScore (S i) services'
      | Some score =>
          if negb (bool_decide (is_Some best)) || Better score bestScore
          then match_loop host targetPort path (Some s) score (S i) services'
          else match_loop host targetPort path best bestScore (S i) services'
      end
  end.

Definition MatchService (host : bytes) (targetPort : Z) (path : bytes) (services : list Service)
  : option Service * MatchScore :=
  match_loop host targetPort path None zero_score 0 services.

(** ** Specification of a match *)

(** The host a service pattern stands for, without a port. *)
Definition bare_pattern (pattern : bytes) : bytes :=
  match SplitHostPort pattern with Some (h, _) => h | None => pattern end.

(** [*.domain] stands for exactly one label in front of the domain. *)
Definition wildcard_host (pattern host : bytes) : Prop :=
  ∃ label domain, pattern = #"*." ++ domain ∧ host = label ++ #"." ++ domain ∧
                  label ≠ [] ∧ x2e ∉ label.

Definition host_matches (pattern host : bytes) : Prop :=
  bare_pattern pattern = host ∨ wildcard_host (bare_pattern pattern) host.

(** A glob: a star stands for any text, slashes included. *)
Inductive glob : bytes → bytes → Prop :=
| glob_nil : glob [] []
| glob_lit c p t : c ≠ x2a → glob p t → glob (c :: p) (c :: t)
| glob_star p s t : glob p t → glob (x2a :: p) (s ++ t).

Definition path_matches (pattern path : bytes) : Prop := pattern = [] ∨ glob pattern path.

Definition service_matches (host : bytes) (port : Z) (path : bytes) (s : Service) : Prop :=
  host_matches (svc_Host s) host ∧
  (svc_Port s = None ∨ svc_Port s = Some port) ∧
  path_matches (svc_Path s) path.

(** The priority of a matching service: exact host over wildcard, then a
    declared port, then the characters of the path before its first star. *)
Fixpoint literal_prefix (p : bytes) : nat :=
  match p with
  | [] => 0
  | c :: p' => if bool_decide (c = x2a) then 0 else S (literal_prefix p')
  end.

Definition rank (host : bytes) (s : Service) : Z * Z * Z :=
  (if bool_decide (bare_pattern (svc_Host s) = host) then 2 else 1,
   if svc_Port s then 1 else 0,
   Z.of_nat (literal_prefix (svc_Path s))).

Definition rank_lt (a b : Z * Z * Z) : Prop :=
  let '(a1, a2, a3) := a in let '(b1, b2, b3) := b in
  a1 < b1 ∨ (a1 = b1 ∧ (a2 < b2 ∨ (a2 = b2 ∧ a3 < b3))).

Definition score_rank (sc : MatchScore) : Z * Z * Z :=
  (HostTier sc, if PortSpecific sc then 1 else 0, PathLiteralLen sc).

Arguments rank_lt : simpl never.
Arguments rank : simpl never.
Arguments score_rank : simpl never.

(** ** Host patterns *)

Lemma matchHostPattern_spec pattern host :
  matchHostPattern pattern host =
  if bool_decide (bare_pattern pattern = host) then (2, true)
  else if bool_decide (snd (matchHostPattern pattern host) = true) then (1, true) else (0, false).
Proof. unfold matchHostPattern. fold (bare_pattern pattern). by repeat case_match. Qed.

Lemma matchHostPattern_wild pattern host :
  bare_pattern pattern ≠ host →
  snd (matchHostPattern pattern host) = true ↔ wildcard_host (bare_pattern pattern) host.
Proof.
  intros Hne. unfold matchHostPattern. fold (bare_pattern pattern).
  rewrite (bool_decide_false _ Hne). generalize dependent (bare_pattern pattern). clear.
  intros p Hne. unfold wildcard_host. destruct (HasPrefix p #"*.") eqn:Hp.
  2:{ split; [done|]. intros (l & d & -> & _). by vm_compute in Hp. }
  apply HasPrefix_spec in Hp as [d ->].
  change (drop 1 (#"*." ++ d)) with (#"." ++ d).
  destruct (HasSuffix host (#"." ++ d)) eqn:Hs.
  - apply HasSuffix_spec in Hs as [l ->]. rewrite TrimSuffix_app.
    change #"." with [x2e]. rewrite Contains_byte.
    destruct (bool_decide (l = [])) eqn:Hl; b2p; simpl.
    + subst. split; [done|]. intros (l & d' & [= <-] & E & Hl & _).
      change (x2e :: d) with ([x2e] ++ d) in E. change #"." with [x2e] in E.
      apply (f_equal length) in E. rewrite !length_app in E. destruct l; simpl in E; [done|lia].
    + destruct (ContainsByte l x2e) eqn:Hd; simpl.
      * split; [done|]. intros (l' & d' & [= <-] & E & _ & Hn).
        apply app_inv_tail in E. subst. by apply ContainsByte_spec in Hd.
      * split; [|done]. intros _. exists l, d. apply ContainsByte_false in Hd. done.
  - split; [done|]. intros (l & d' & [= <-] & -> & _).
    assert (HasSuffix (l ++ #"." ++ d) (#"." ++ d) = true) by (apply HasSuffix_spec; eauto).
    congruence.
Qed.

Lemma matchHostPattern_ok pattern host :
  snd (matchHostPattern pattern host) = true ↔ host_matches pattern host.
Proof.
  unfold host_matches. destruct (decide (bare_pattern pattern = host)) as [E|Hne].
  - rewrite matchHostPattern_spec, bool_decide_true by done. naive_solver.
  - rewrite matchHostPattern_wild by done. naive_solver.
Qed.

(** ** Path globs *)

Fixpoint glob_parts (parts : list bytes) (rest : bytes) : Prop :=
  match parts with
  | [] => rest = []
  | p :: parts' => ∃ s t, rest = s ++ p ++ t ∧ glob_parts parts' t
  end.

Lemma glob_split pattern path :
  glob pattern path ↔
  match Split pattern x2a with
  | [] => False
  | p0 :: parts => ∃ rest, path = p0 ++ rest ∧ glob_parts parts rest
  end.
Proof.
  revert path. induction pattern as [|c p IH]; intros path; simpl.
  - split; [inversion 1; subst; by exists []|]. intros (rest & -> & Hr). simpl in *. subst. constructor.
  - destruct (Split p x2a) as [|p0 parts] eqn:E; [by destruct (Split_nonempty p x2a)|].
    case_bool_decide as Hc; [subst c|].
    + split.
      * inversion 1 as [| |? s t Hg]; subst; [done|]. apply IH in Hg as (rest & -> & Hr).
        exists (s ++ p0 ++ rest). split; [done|]. exists s, rest. done.
      * intros (rest & -> & s & t & -> & Hr). simpl. constructor. apply IH. eauto.
    + split.
      * inversion 1 as [|? ? t ? Hg|]; subst; [|done]. apply IH in Hg as (rest & -> & Hr).
        exists rest. done.
      * intros (rest & -> & Hr). simpl. constructor; [done|]. apply IH. eauto.
Qed.

Lemma glob_parts_mono parts u t : parts ≠ [] → glob_parts parts t → glob_parts parts (u ++ t).
Proof.
  destruct parts as [|p parts]; [done|]. intros _ (s & t' & -> & H). simpl.
  exists (u ++ s), t'. by rewrite <- app_assoc.
Qed.

(** Taking the leftmost occurrence of each middle part loses no match. *)
Lemma glob_rest_spec parts rest : parts ≠ [] → glob_rest parts rest = true ↔ glob_parts parts rest.
Proof.
  revert rest. induction parts as [|p parts IH]; intros rest Hne; [done|].
  destruct parts as [|q parts].
  - simpl. rewrite HasSuffix_spec. split.
    + intros [t ->]. exists t, []. by rewrite app_nil_r.
    + intros (s & t & -> & ->). exists s. by rewrite app_nil_r.
  - change (glob_rest (p :: q :: parts) rest) with
      (match Index rest p with
       | None => false
       | Some idx => glob_rest (q :: parts) (drop (idx + length p) rest)
       end).
    set (ps := q :: parts) in *. split.
    + destruct (Index rest p) as [i|] eqn:E; [|done].
      apply Index_Some in E as (a & b & -> & <-). rewrite app_assoc.
      rewrite drop_app_length' by (by rewrite length_app). intros H%IH; [|done].
      exists a, b. by rewrite <- app_assoc.
    + intros (s & t & -> & H). destruct (Index_le s p t) as (i & E & Hi). rewrite E.
      apply IH; [done|]. rewrite app_assoc, drop_app_le by (rewrite length_app; lia).
      by apply glob_parts_mono.
Qed.

Lemma literal_prefix_split p :
  match Split p x2a with [] => False | p0 :: _ => literal_prefix p = length p0 end.
Proof.
  induction p as [|c p IH]; simpl; [done|].
  destruct (Split p x2a) as [|p0 ps]; [done|]. by case_bool_decide; [|simpl; f_equal].
Qed.

Lemma glob_literal p t : x2a ∉ p → glob p t ↔ t = p.
Proof.
  revert t. induction p as [|c p IH]; intros t Hn.
  - split; [by inversion 1|intros ->; constructor].
  - split.
    + inversion 1; subst; [|set_solver]. f_equal. apply IH; set_solver.
    + intros ->. constructor; [set_solver|]. apply IH; set_solver.
Qed.

Lemma matchPathGlob_spec pattern path :
  fst (matchPathGlob pattern path) = Z.of_nat (literal_prefix pattern) ∧
  (snd (matchPathGlob pattern path) = true ↔ path_matches pattern path).
Proof.
  unfold matchPathGlob, path_matches. case_bool_decide as Hp; [subst; simpl; naive_solver|].
  pose proof (glob_split pattern path) as Hg. pose proof (literal_prefix_split pattern) as Hl.
  pose proof (Split_fields pattern x2a) as Hf. pose proof (Join_Split pattern x2a) as Hj.
  destruct (Split pattern x2a) as [|p0 [|p1 parts]]; [done| |].
  - simpl in Hj. subst p0. rewrite Hl. split; [done|]. simpl. rewrite bool_decide_eq_true.
    apply Forall_cons_1 in Hf as [Hf _]. rewrite glob_literal by done. naive_solver.
  - rewrite Hl. destruct (HasPrefix path p0) eqn:E; cbn [negb fst snd]; (split; [done|]).
    + apply HasPrefix_spec in E as [t ->]. rewrite drop_app_length.
      rewrite glob_rest_spec by done. rewrite Hg. split.
      * intros H. right. by exists t.
      * intros [?|(rest & E & H)]; [done|]. apply app_inv_head in E. by subst.
    + split; [done|]. intros [?|H]; [done|]. apply Hg in H as (rest & -> & _).
      assert (HasPrefix (p0 ++ rest) p0 = true) by (apply HasPrefix_spec; eauto). congruence.
Qed.

(** ** Scores and selection *)

Lemma score_of_spec host port path i s sc :
  score_of host port path i s = Some sc ↔
  service_matches host port path s ∧ score_rank sc = rank host s ∧ DeclOrder sc = i.
Proof.
  unfold score_of, service_matches, rank, score_rank.
  pose proof (matchHostPattern_ok (svc_Host s) host) as Hh.
  pose proof (matchHostPattern_spec (svc_Host s) host) as Ht.
  pose proof (matchPathGlob_spec (svc_Path s) path) as [Hl Hp].
  destruct (matchHostPattern (svc_Host s) host) as [tier ok]. simpl in Hh, Ht.
  destruct (matchPathGlob (svc_Path s) path) as [len pok]. simpl in Hl, Hp. subst len.
  rewrite <- Hh, <- Hp. destruct ok; simpl; [|naive_solver].
  rewrite (bool_decide_true (true = true)) in Ht by done.
  assert (tier = if bool_decide (bare_pattern (svc_Host s) = host) then 2 else 1) as <-
    by (revert Ht; case_bool_decide; congruence).
  destruct sc as [ht ps pl d].
  destruct pok; destruct (svc_Port s) as [p|]; simpl; try destruct (Z.eqb_spec port p); simpl;
    destruct ps; naive_solver.
Qed.

Lemma Better_spec a b : Better a b = true ↔ rank_lt (score_rank b) (score_rank a).
Proof.
  unfold Better, rank_lt, score_rank. destruct a as [a1 a2 a3 ?], b as [b1 b2 b3 ?]; simpl.
  destruct (Z.eqb_spec a1 b1), a2, b2; simpl; rewrite ?Z.ltb_lt; lia.
Qed.

Lemma rank_total a b : rank_lt a b ∨ a = b ∨ rank_lt b a.
Proof.
  destruct a as [[a1 a2] a3], b as [[b1 b2] b3]. unfold rank_lt.
  destruct (Z.lt_total a1 b1) as [?|[->|?]]; [tauto| |tauto].
  destruct (Z.lt_total a2 b2) as [?|[->|?]]; [tauto| |tauto].
  destruct (Z.lt_total a3 b3) as [?|[->|?]]; tauto.
Qed.

Lemma rank_trans a b c : rank_lt a b → rank_lt b c → rank_lt a c.
Proof. destruct a as [[? ?] ?], b as [[? ?] ?], c as [[? ?] ?]. unfold rank_lt. lia. Qed.

Lemma rank_irrefl a : ¬ rank_lt a a.
Proof. destruct a as [[? ?] ?]. unfold rank_lt. lia. Qed.

(** Service [i] is selected over [j]: higher rank, or equal and declared no later. *)
Definition preferred (host : bytes) (i : nat) (s : Service) (j : nat) (s' : Service) : Prop :=
  rank_lt (rank host s') (rank host s) ∨ (rank host s' = rank host s ∧ (i <= j)%nat).

Definition selected (host : bytes) (port : Z) (path : bytes) (seen : list Service)
    (best : option Service) (sc : MatchScore) : Prop :=
  match best with
  | None => ∀ s, s ∈ seen → ¬ service_matches host port path s
  | Some s => ∃ i, seen !! i = Some s ∧ service_matches host port path s ∧
      score_rank sc = rank host s ∧ DeclOrder sc = i ∧
      ∀ j s', seen !! j = Some s' → service_matches host port path s' → preferred host i s j s'
  end.

Lemma selected_snoc_skip host port path seen best sc s :
  ¬ service_matches host port path s →
  selected host port path seen best sc → selected host port path (seen ++ [s]) best sc.
Proof.
  intros Hs. destruct best as [b|]; simpl.
  - intros (i & Hi & ? & ? & ? & Hall). exists i. split_and!; try done.
    + by apply lookup_app_l_Some.
    + intros j s' [Hj|[Hj E]]%lookup_app_Some Hm; [by apply Hall|].
      apply list_lookup_singleton_Some in E as [_ <-]. done.
  - intros H s' [?| ->%list_elem_of_singleton]%elem_of_app; auto.
Qed.

(** The loop keeps the best of the services seen so far. *)
Lemma match_loop_selected host port path seen services best sc :
  selected host port path seen best sc →
  selected host port path (seen ++ services)
    (fst (match_loop host port path best sc (length seen) services))
    (snd (match_loop host port path best sc (length seen) services)).
Proof.
  revert seen best sc. induction services as [|s services IH]; intros seen best sc Hsel.
  { by rewrite app_nil_r. }
  replace (seen ++ s :: services) with ((seen ++ [s]) ++ services) by (by rewrite <- app_assoc).
  replace (S (length seen)) with (length (seen ++ [s])) in IH by (rewrite length_app; simpl; lia).
  assert (S (length seen) = length (seen ++ [s])) as HS by (rewrite length_app; simpl; lia).
  simpl. rewrite HS. destruct (score_of host port path (length seen) s) as [sc'|] eqn:E.
  - apply score_of_spec in E as (Hm & Hr & Hd).
    assert (selected host port path (seen ++ [s]) (Some s) sc' ↔
            ∀ j s', seen !! j = Some s' → service_matches host port path s' →
                    rank_lt (rank host s') (rank host s)) as Hnew.
    { simpl. split.
      - intros (i & Hi & _ & _ & <- & Hall) j s' Hj Hm'.
        destruct (Hall j s') as [?|[_ Hle]]; [by apply lookup_app_l_Some|done|done|].
        rewrite Hd in Hle. apply lookup_lt_Some in Hj. lia.
      - intros Hall. exists (length seen). split_and!; try done.
        + by rewrite lookup_app_r, Nat.sub_diag by done.
        + intros j s' [Hj|[Hj Ej]]%lookup_app_Some Hm'; [left; eauto|].
          apply list_lookup_singleton_Some in Ej as [Ej0 Es]; subst s'. right. split; [done|lia]. }
    destruct best as [b|]; simpl.
    + destruct Hsel as (i & Hi & Hmb & Hrb & Hdb & Hall).
      destruct (Better sc' sc) eqn:B; apply IH.
      * apply Hnew. intros j s' Hj Hm'. apply Better_spec in B. rewrite Hr, Hrb in B.
        destruct (Hall j s' Hj Hm') as [?|[-> _]]; [by eapply rank_trans|done].
      * exists i. split_and!; try done; [by apply lookup_app_l_Some|].
        intros j s' [Hj|[Hj Ej]]%lookup_app_Some Hm'; [by apply Hall|].
        apply list_lookup_singleton_Some in Ej as [Ej0 Es]; subst s'.
        assert (¬ rank_lt (rank host b) (rank host s)) as Hnb.
        { rewrite <- Hr, <- Hrb, <- Better_spec. by rewrite B. }
        apply lookup_lt_Some in Hi.
        destruct (rank_total (rank host b) (rank host s)) as [?|[?|?]]; [done|right|by left].
        split; [done|lia].
    + apply IH, Hnew. intros j s' Hj%list_elem_of_lookup_2 Hm'. by destruct (Hsel s').
  - apply IH, selected_snoc_skip; [|done]. intros Hm.
    assert (score_of host port path (length seen) s = Some
      {| HostTier := (rank host s).1.1; PortSpecific := bool_decide (is_Some (svc_Port s));
         PathLiteralLen := (rank host s).2; DeclOrder := length seen |}) as E'; [|congruence].
    apply score_of_spec. split_and!; [done| |done]. unfold score_rank, rank. simpl.
    by destruct (svc_Port s).
Qed.

(** C15 (functional). [MatchService] picks, among exactly the services whose
    host pattern, port and path glob admit the request (a leading star label
    stands for one subdomain level; a path star for any text), the one of
    highest rank: exact host over wildcard, then a declared port, then the
    longer literal path prefix, and among equals the one declared first; it
    returns none exactly when no service matches, and the reported score is
    the winner's. *)
Theorem MatchService_correct host port path services :
  let '(best, sc) := MatchService host port path services in
  selected host port path services best sc.
Proof.
  destruct (MatchService host port path services) as [best sc] eqn:E.
  pose proof (match_loop_selected host port path [] services None zero_score) as H.
  simpl in H. unfold MatchService in E. rewrite E in H. apply H.
  intros s Hs. by apply not_elem_of_nil in Hs.
Qed.
