(* ===== verification/BrokerHost.v ===== *)
(** * Broker hosts, paths and ports
    ([internal/broker/broker.go]: [ValidateHost], [ValidatePath],
    [ValidatePort], [SplitInlineHost], [splitHostPort], [NormalizePort],
    [PortVal], [MatcherPattern])  *)

From S2P Require Import Prelude GoString GoRegexp GoStrconv GoNet BrokerMatch.

Definition is_alpha (c : Z) : bool := is_lower c || is_upper c.

(** [^([a-zA-Z0-9]([a-zA-Z0-9-]*[a-zA-Z0-9])?\.)+[a-zA-Z]{2,}$] *)
Definition hostLabelPattern : regex :=
  RSeq (RPlus (RSeq (RCls is_alnum)
          (RSeq (ROpt (RSeq (RStar (RCls (λ c, is_alnum c || (c =? 45)))) (RCls is_alnum)))
                (RChar x2e))))
       (RSeq (RTimes 2 (RCls is_alpha)) (RStar (RCls is_alpha))).

Definition internalHosts : list bytes :=
  [ #"localhost"; #"localhost.localdomain"; #"internal"; #"kubernetes"; #"kubernetes.default";
    #"metadata.google.internal"; #"metadata.google"; #"instance-data"].

Inductive host_error :=
| HostEmpty | HostBadChar (r : Z) | HostIsIP | HostBareWildcard | HostWildcardForm
| HostWildcardLevels | HostWildcardName | HostInternal | HostInvalid.

Inductive path_error := PathTooLong | PathNoSlash | PathDoubleStar | PathControl | PathBadChar (r : Z).
Inductive port_error := PortOutOfRange (p : Z).

Section Hosts.
Context `{UnicodeTables}.

Definition host_bad_rune (ch : Z) : bool :=
  (ch =? 64) || (ch =? 63) || (ch =? 35) || (ch =? 32) || IsControl ch.

(** [Getenv] supplies AGENT_VAULT_DEV_MODE. *)
Definition ValidateHost (Getenv : bytes → bytes) (host : bytes) : option host_error :=
  let h := TrimSpace host in
  if bool_decide (h = []) then Some HostEmpty
  else match List.find host_bad_rune (runes h) with
  | Some ch => Some (HostBadChar ch)
  | None =>
      if bool_decide (is_Some (ParseIP h)) then Some HostIsIP
      else if HasPrefix h #"*" then
        if bool_decide (h = #"*") then Some HostBareWildcard
        else if negb (HasPrefix h #"*.") then Some HostWildcardForm
        else
          let suffix := drop 2 h in
          if negb (Contains suffix #".") then Some HostWildcardLevels
          else if negb (MatchString hostLabelPattern suffix) then Some HostWildcardName
          else None
      else
        let devMode := EqualFoldASCII (Getenv #"AGENT_VAULT_DEV_MODE") #"true" in
        if negb devMode && bool_decide (ToLower h ∈ internalHosts) then Some HostInternal
        else if negb (MatchString hostLabelPattern h) then Some HostInvalid
        else None
  end.
End Hosts.

(** Space, ?, #, brackets, backslash, bar, angle brackets, double quote. *)
Definition path_bad_rune (r : Z) : bool :=
  bool_decide (r ∈ [32; 63; 35; 91; 93; 92; 124; 60; 62; 34]).

Definition path_rune_error (r : Z) : option path_error :=
  if IsControl r then Some PathControl
  else if path_bad_rune r then Some (PathBadChar r) else None.

Definition ValidatePath (p : bytes) : option path_error :=
  if bool_decide (p = []) then None
  else if 256 <? Z.of_nat (length p) then Some PathTooLong
  else if negb (HasPrefix p #"/") then Some PathNoSlash
  else if Contains p #"**" then Some PathDoubleStar
  else first_error path_rune_error (runes p).

Definition ValidatePort (port : option Z) : option port_error :=
  match port with
  | None => None
  | Some p => if (p <? 1) || (65535 <? p) then Some (PortOutOfRange p) else None
  end.

Definition splitHostPort (host : bytes) : bytes * option Z :=
  match LastIndexByte host x3a with
  | None => (host, None)
  | Some idx =>
      match Atoi (drop (S idx) host) with
      | None => (host, None)
      | Some p => (take idx host, Some p)
      end
  end.

Definition SplitInlineHost (host path : bytes) : bytes * bytes * option Z :=
  if negb (bool_decide (path = [])) then
    let '(h, port) := splitHostPort host in (h, path, port)
  else
    match IndexByte host x2f with
    | Some (S i) =>
        let '(h, port) := splitHostPort (take (S i) host) in (h, drop (S i) host, port)
    | _ => let '(h, port) := splitHostPort host in (h, path, port)
    end.

Inductive port_conflict := PortConflict (inline field : Z).

Definition set_host (s : Service) (host path : bytes) (port : option Z) : Service :=
  {| svc_Name := svc_Name s; svc_Host := host; svc_Path := path; svc_Port := port;
     svc_Enabled := svc_Enabled s; svc_Auth := svc_Auth s;
     svc_Substitutions := svc_Substitutions s; svc_FixedQuery := svc_FixedQuery s |}.

(** The service is updated in place, also when the ports conflict. *)
Definition NormalizePort (svc : Service) : Service * option port_conflict :=
  let '(host, path, inlinePort) := SplitInlineHost (svc_Host svc) (svc_Path svc) in
  match inlinePort, svc_Port svc with
  | Some a, Some b =>
      if negb (a =? b) then (set_host svc host path (Some b), Some (PortConflict a b))
      else (set_host svc host path (Some a), None)
  | Some a, None => (set_host svc host path (Some a), None)
  | None, p => (set_host svc host path p, None)
  end.

Definition PortVal (p : option Z) : Z := match p with None => 0 | Some p => p end.

(** ** What a validated host looks like *)

Definition host_char (c : Z) : Prop := is_alnum c = true ∨ c = 45 ∨ c = 46.

Lemma hostLabelPattern_chars s : MatchString hostLabelPattern s = true → Forall host_char (runes s).
Proof.
  unfold MatchString. rewrite full_match_lang. apply lang_Forall.
  unfold host_char, is_alpha, is_alnum. simpl.
  assert (bval x2e = 46) as -> by reflexivity.
  repeat split; auto; intros c; unfold is_alpha, is_alnum; rewrite ?orb_true_iff, ?Z.eqb_eq; tauto.
Qed.

Lemma hostLabelPattern_bytes s c :
  MatchString hostLabelPattern s = true → c ∈ s → host_char (bval c).
Proof.
  intros Hm Hc. apply hostLabelPattern_chars in Hm.
  assert (Forall (λ r, r < 128) (runes s)) as Ha.
  { eapply Forall_impl; [exact Hm|]. unfold host_char, is_alnum, is_lower, is_upper, is_digit, in_range.
    intros r. rewrite ?orb_true_iff, ?andb_true_iff, ?Z.leb_le. lia. }
  rewrite runes_small in Hm by done. rewrite Forall_forall in Hm. apply Hm.
  apply list_elem_of_In, in_map, list_elem_of_In, Hc.
Qed.

Definition plain_host (h : bytes) : Prop := h ≠ [] ∧ x3a ∉ h ∧ x2f ∉ h.

Lemma plain_host_chars (h : bytes) :
  h ≠ [] → (∀ c, c ∈ h → host_char (bval c) ∨ c = x2a) → plain_host h.
Proof.
  intros Hne Hc. split_and!; [done| |];
    intros Hin; destruct (Hc _ Hin) as [[E|[E|E]]|E]; vm_compute in E; discriminate E.
Qed.

Lemma ValidateHost_plain `{UnicodeTables} Getenv h :
  TrimSpace h = h → ValidateHost Getenv h = None → plain_host h.
Proof.
  intros Ht. unfold ValidateHost. rewrite Ht.
  destruct (bool_decide (h = [])) eqn:He; [done|]. destruct (List.find _ _); [done|].
  destruct (bool_decide (is_Some (ParseIP h))); [done|]. b2p.
  destruct (HasPrefix h #"*") eqn:Hp.
  - destruct (bool_decide (h = #"*")); [done|].
    destruct (HasPrefix h #"*.") eqn:Hp2; [|done]. apply HasPrefix_spec in Hp2 as [t ->].
    change (drop 2 (#"*." ++ t)) with t. destruct (Contains t #"."); [|done]. cbn [negb].
    destruct (MatchString hostLabelPattern t) eqn:Hm; [|done]. intros _.
    apply plain_host_chars; [done|]. intros c [Hc|Hc]%elem_of_app.
    + change #"*." with [x2a; x2e] in Hc. apply elem_of_cons in Hc as [->|Hc]; [by right|].
      apply list_elem_of_singleton in Hc as ->. left. right. by right.
    + left. by eapply hostLabelPattern_bytes.
  - destruct (negb _ && _); [done|].
    destruct (MatchString hostLabelPattern h) eqn:Hm; [|done]. intros _.
    apply plain_host_chars; [done|]. intros c Hc. left. by eapply hostLabelPattern_bytes.
Qed.

Lemma splitHostPort_bare h : x3a ∉ h → splitHostPort h = (h, None).
Proof. intros Hh. unfold splitHostPort. by rewrite (proj2 (LastIndexByte_None h x3a)). Qed.

Lemma FormatInt_no_byte c z : digit_byte c = false → c ≠ x2d → c ∉ Itoa z.
Proof.
  intros Hd Hm Hin. unfold Itoa, FormatInt in Hin.
  assert (∀ y, c ∉ FormatUint y) as Hu.
  { intros y Hy. pose proof (FormatUint_digits y) as F. rewrite Forall_forall in F.
    apply F in Hy. congruence. }
  case_match; [apply elem_of_cons in Hin as [?|?]; [done|]|]; by eapply Hu.
Qed.

Lemma splitHostPort_join h p :
  x3a ∉ h → in_int64 p = true → splitHostPort (JoinHostPort h (Itoa p)) = (h, Some p).
Proof.
  intros Hh Hp. unfold splitHostPort, JoinHostPort.
  rewrite (proj2 (ContainsByte_false h x3a)) by done. change #":" with [x3a]. simpl.
  rewrite LastIndexByte_app by (by apply FormatInt_no_byte).
  rewrite drop_app_ge, take_app_length by lia.
  replace (S (length h) - length h)%nat with 1%nat by lia. simpl. rewrite drop_0.
  by rewrite Atoi_Itoa.
Qed.

(** The inline form of a service, host, port and path joined, splits back. *)
Lemma split_pattern s :
  plain_host (svc_Host s) → (svc_Path s = [] ∨ ∃ t, svc_Path s = x2f :: t) →
  (∀ p, svc_Port s = Some p → in_int64 p = true) →
  SplitInlineHost (MatcherPattern s) [] = (svc_Host s, svc_Path s, svc_Port s).
Proof.
  intros (Hne & Hc & Hs) Hpath Hport. unfold SplitInlineHost, MatcherPattern.
  rewrite bool_decide_true by done. cbn [negb].
  set (hp := match svc_Port s with Some p => _ | None => _ end).
  assert (x2f ∉ hp ∧ hp ≠ [] ∧ splitHostPort hp = (svc_Host s, svc_Port s)) as (Hsl & Hnil & Hsp).
  { unfold hp. destruct (svc_Port s) as [p|] eqn:E.
    - rewrite splitHostPort_join by eauto. unfold JoinHostPort.
      rewrite (proj2 (ContainsByte_false (svc_Host s) x3a)) by done. split_and!; [|by destruct (svc_Host s)|done].
      rewrite !not_elem_of_app. split_and!; [done|vm_compute; intros X; inversion X as [|? ? ? Y]; inversion Y|].
      by apply FormatInt_no_byte.
    - by rewrite splitHostPort_bare. }
  destruct Hpath as [->|[t Ht]].
  - rewrite bool_decide_true by done. rewrite (proj2 (IndexByte_None hp x2f)) by done. by rewrite Hsp.
  - rewrite Ht. rewrite bool_decide_false by done.
    rewrite (proj2 (IndexByte_Some (hp ++ x2f :: t) x2f (length hp))) by eauto.
    destruct (length hp) as [|n] eqn:El; [by apply nil_length_inv in El|]. rewrite <- El.
    by rewrite take_app_length, drop_app_length, Hsp.
Qed.

(** For a service whose host, path and port pass validation,
    reading back the inline form the API prints ([host:port/path]) recovers
    the same host, path and port. *)
Theorem inline_host_roundtrip `{UnicodeTables} Getenv s :
  TrimSpace (svc_Host s) = svc_Host s →
  ValidateHost Getenv (svc_Host s) = None → ValidatePath (svc_Path s) = None →
  ValidatePort (svc_Port s) = None →
  SplitInlineHost (MatcherPattern s) [] = (svc_Host s, svc_Path s, svc_Port s).
Proof.
  intros Ht Hh Hp Hport. apply split_pattern.
  - by eapply ValidateHost_plain.
  - unfold ValidatePath in Hp. case_bool_decide; [by left|]. right.
    destruct (256 <? _); [done|]. destruct (HasPrefix (svc_Path s) #"/") eqn:E; [|done].
    apply HasPrefix_spec in E as [t ->]. by exists t.
  - intros p Hs. rewrite Hs in Hport. unfold ValidatePort in Hport.
    destruct (_ || _) eqn:E; [done|]. b2p. unfold in_int64, in_range, min_int64, max_int64.
    rewrite andb_true_iff, !Z.leb_le. lia.
Qed.

Definition sample_auth : Auth :=
  {| auth_Type := #"passthrough"; auth_Token := []; auth_Username := []; auth_Password := [];
     auth_Key := []; auth_Header := []; auth_Prefix := []; auth_Headers := [] |}.
Definition sample_service (host path : bytes) (port : option Z) : Service :=
  {| svc_Name := #"svc"; svc_Host := host; svc_Path := path; svc_Port := port;
     svc_Enabled := None; svc_Auth := sample_auth; svc_Substitutions := []; svc_FixedQuery := None |}.

Lemma inline_host_roundtrip_witness :
  SplitInlineHost (MatcherPattern (sample_service #"*.corp.example.com" #"/api/*" (Some 3000))) []
  = (#"*.corp.example.com", #"/api/*", Some 3000).
Proof.
  apply (@inline_host_roundtrip latin1_tables (λ _, []) (sample_service #"*.corp.example.com" #"/api/*" (Some 3000)));
    vm_compute; reflexivity.
Defined.

(** * Service names
    ([internal/broker/broker.go]: [Slugify], [DisambiguateSlug],
    [AssignSlugNamesAvoiding], [ValidateSlug]) *)

Definition hyphen : byte := x2d.

Inductive slug_error :=
| SlugRequired | SlugTooShort | SlugTooLong | SlugEdgeHyphen | SlugDoubleHyphen | SlugBadChar.

Definition slug_rune (c : Z) : bool := is_lower c || is_digit c || (c =? 45).

Definition ValidateSlug (name : bytes) : option slug_error :=
  if bool_decide (name = []) then Some SlugRequired
  else if (length name <? 3)%nat then Some SlugTooShort
  else if (64 <? length name)%nat then Some SlugTooLong
  else if bool_decide (head name = Some hyphen) || bool_decide (last name = Some hyphen)
  then Some SlugEdgeHyphen
  else if Contains name #"--" then Some SlugDoubleHyphen
  else first_error (λ c, if slug_rune c then None else Some SlugBadChar) (runes name).

(** [strings.ReplaceAll(s, "--", "-")]: left to right, without overlap. *)
Fixpoint collapse_once (s : bytes) : bytes :=
  match s with
  | b :: ((c :: s'') as s') =>
      if bool_decide (b = hyphen) && bool_decide (c = hyphen)
      then hyphen :: collapse_once s'' else b :: collapse_once s'
  | _ => s
  end.

(** The loop [for strings.Contains(raw, "--")]; each round shortens the text,
    so its length is enough fuel. *)
Fixpoint collapse (fuel : nat) (s : bytes) : bytes :=
  match fuel with
  | O => s
  | S f => if Contains s #"--" then collapse f (collapse_once s) else s
  end.

Section Slug.
Context `{UnicodeTables}.

Definition slug_write (s : bytes) : bytes :=
  map (λ r, if is_lower r || is_digit r then byte_of r else hyphen) (runes (ToLower s)).

Definition Slugify (host path : bytes) (port : option Z) : bytes :=
  let raw := slug_write host
             ++ match port with Some p => slug_write (Itoa p) | None => [] end
             ++ slug_write path in
  let raw := collapse (length raw) raw in
  let raw := Trim raw hyphen in
  let raw := if (64 <? length raw)%nat then TrimRight (take 64 raw) hyphen else raw in
  if (length raw <? 3)%nat then
    if bool_decide (raw = []) then #"svc" else raw ++ #"-svc"
  else raw.
End Slug.

(** The candidate [base-n], with base cut to keep the name within 64 bytes. *)
Definition slug_candidate (base : bytes) (n : Z) : bytes :=
  let suffix := hyphen :: Itoa n in
  let trunc := if (64 <? length base + length suffix)%nat
               then TrimRight (take (64 - length suffix) base) hyphen else base in
  trunc ++ suffix.

(** The loop of [DisambiguateSlug]; [None] is out of fuel, which
    [DisambiguateSlug_total] rules out. *)
Fixpoint disambiguate (fuel : nat) (base : bytes) (taken : gset bytes) (n : Z) (name : bytes)
  : option bytes :=
  if bool_decide (name ∈ taken) then
    match fuel with
    | O => None
    | S f => disambiguate f base taken (n + 1) (slug_candidate base n)
    end
  else Some name.

Definition DisambiguateSlug (base : bytes) (taken : gset bytes) : option bytes :=
  disambiguate (S (size taken)) base taken 2 base.

(** ** [AssignSlugNamesAvoiding] *)

Definition set_name (s : Service) (name : bytes) : Service :=
  {| svc_Name := name; svc_Host := svc_Host s; svc_Path := svc_Path s; svc_Port := svc_Port s;
     svc_Enabled := svc_Enabled s; svc_Auth := svc_Auth s;
     svc_Substitutions := svc_Substitutions s; svc_FixedQuery := svc_FixedQuery s |}.

Definition same_hp (a b : Service) : bool :=
  bool_decide (svc_Host a = svc_Host b) && bool_decide (svc_Path a = svc_Path b).

(** [hpCount[k] == 1] and [hpName[k]] for the key of [svc]. *)
Definition unique_existing (existing : list Service) (svc : Service) : option bytes :=
  match List.filter (same_hp svc) existing with
  | [e] => Some (svc_Name e)
  | _ => None
  end.

Definition adopt (existing : list Service) (svc : Service) : Service :=
  if negb (bool_decide (svc_Name svc = [])) then svc
  else match unique_existing existing svc with
       | Some name => set_name svc name
       | None => svc
       end.

Definition names_of (l : list Service) : gset bytes :=
  list_to_set (List.filter (λ n, negb (bool_decide (n = []))) (map svc_Name l)).

Section Assign.
Context `{UnicodeTables}.

Fixpoint assign_loop (taken : gset bytes) (services : list Service) : option (list Service) :=
  match services with
  | [] => Some []
  | svc :: rest =>
      if negb (bool_decide (svc_Name svc = [])) then
        rest' ← assign_loop taken rest; Some (svc :: rest')
      else
        name ← DisambiguateSlug (Slugify (svc_Host svc) (svc_Path svc) (svc_Port svc)) taken;
        rest' ← assign_loop ({[name]} ∪ taken) rest;
        Some (set_name svc name :: rest')
  end.

Definition AssignSlugNamesAvoiding (services existing : list Service) : option (list Service) :=
  if negb (existsb (λ s, bool_decide (svc_Name s = [])) services) then Some services
  else
    let services := map (adopt existing) services in
    assign_loop (names_of existing ∪ names_of services) services.

Definition AssignSlugNames (services : list Service) : option (list Service) :=
  AssignSlugNamesAvoiding services [].
End Assign.

(** ** Specification of a name *)

Definition slug_byte (b : byte) : bool := slug_rune (bval b).

Definition no_double (s : bytes) : Prop := ∀ a b, s ≠ a ++ hyphen :: hyphen :: b.

Record slug_ok (s : bytes) : Prop := {
  slug_len : (3 <= length s <= 64)%nat;
  slug_chars : Forall (λ b, slug_byte b = true) s;
  slug_head : head s ≠ Some hyphen;
  slug_last : last s ≠ Some hyphen;
  slug_single : no_double s;
}.

Lemma slug_byte_ascii b : slug_byte b = true → is_ascii b = true.
Proof.
  unfold slug_byte, slug_rune, is_lower, is_digit, in_range, is_ascii.
  rewrite !orb_true_iff, !andb_true_iff, !Z.leb_le, Z.eqb_eq, Z.ltb_lt. lia.
Qed.

Lemma no_double_Contains s : Contains s #"--" = false ↔ no_double s.
Proof.
  unfold no_double. split.
  - intros H a b ->. assert (Contains (a ++ hyphen :: hyphen :: b) #"--" = true)
      by (apply Contains_spec; by exists a, b). congruence.
  - intros H. destruct (Contains s #"--") eqn:E; [|done].
    apply Contains_spec in E as (a & b & ->). by destruct (H a b).
Qed.

Lemma ValidateSlug_ok name : ValidateSlug name = None ↔ slug_ok name.
Proof.
  unfold ValidateSlug. split.
  - case_bool_decide; [done|].
    destruct (Nat.ltb_spec (length name) 3); [done|]. destruct (Nat.ltb_spec 64 (length name)); [done|].
    destruct (_ || _) eqn:E; [done|]. b2p. destruct (Contains name #"--") eqn:Hd; [done|].
    rewrite first_error_None. intros HF.
    assert (Forall (λ r, slug_rune r = true) (runes name)) as Hr.
    { eapply Forall_impl; [exact HF|]. intros r. simpl. by destruct (slug_rune r). }
    assert (Forall (λ r, r < 128) (runes name)) as Hs.
    { eapply Forall_impl; [exact Hr|]. intros r. simpl.
      unfold slug_rune, is_lower, is_digit, in_range. rewrite !orb_true_iff, !andb_true_iff, !Z.leb_le, Z.eqb_eq. lia. }
    rewrite (runes_small _ Hs), Forall_map in Hr.
    split; [lia|done|done|done|]. by apply (proj1 (no_double_Contains name)).
  - intros [Hl Hc Hh Hla Hs]. destruct (bool_decide (name = [])) eqn:E; [b2p; subst; simpl in Hl; lia|].
    destruct (Nat.ltb_spec (length name) 3); [lia|]. destruct (Nat.ltb_spec 64 (length name)); [lia|].
    rewrite (bool_decide_false _ Hh), (bool_decide_false _ Hla). simpl.
    apply no_double_Contains in Hs. rewrite Hs. apply first_error_None.
    rewrite runes_ascii by (eapply Forall_impl; [exact Hc|apply slug_byte_ascii]).
    rewrite Forall_map. eapply Forall_impl; [exact Hc|]. intros b Hb. unfold slug_byte in Hb. by rewrite Hb.
Qed.

(** ** Collapsing hyphens *)

Lemma no_double_nil : no_double [].
Proof. intros [|x a] t; done. Qed.

Lemma no_double_cons b s :
  no_double (b :: s) ↔ (b = hyphen → head s ≠ Some hyphen) ∧ no_double s.
Proof.
  unfold no_double. split.
  - intros H. split.
    + intros -> E. destruct s as [|c s]; simplify_eq/=. by destruct (H [] s).
    + intros a t ->. by destruct (H (b :: a) t).
  - intros [Hb Hs] [|x a] t E; simplify_eq/=; [by destruct Hb|]. by destruct (Hs a t).
Qed.

Lemma no_double_app_l s t : no_double (s ++ t) → no_double s.
Proof. intros H a b ->. destruct (H a (b ++ t)). by rewrite <- app_assoc. Qed.

Lemma no_double_app_r s t : no_double (s ++ t) → no_double t.
Proof. intros H a b ->. destruct (H (s ++ a) b). by rewrite <- app_assoc. Qed.

Lemma no_double_join s t :
  no_double s → no_double t → (last s = Some hyphen → head t ≠ Some hyphen) → no_double (s ++ t).
Proof.
  induction s as [|b s IH]; intros Hs Ht Hj; [done|]. simpl.
  apply no_double_cons in Hs as [Hb Hs]. apply no_double_cons.
  destruct s as [|c s]; simpl in *; [split; [|done]; intros ->; auto|].
  split; [done|]. apply IH; auto.
Qed.

Lemma collapse_once_cons b c s :
  collapse_once (b :: c :: s) =
  if bool_decide (b = hyphen) && bool_decide (c = hyphen)
  then hyphen :: collapse_once s else b :: collapse_once (c :: s).
Proof. reflexivity. Qed.

(** Induction two bytes at a time, the shape of [collapse_once]. *)
Lemma collapse_once_Forall (P : byte → Prop) s : Forall P s → Forall P (collapse_once s).
Proof.
  induction s as [|b|b c s IH1 IH2] using pairs_ind; [done|done|].
  rewrite collapse_once_cons, !Forall_cons. intros (Hb & Hc & Hs).
  destruct (bool_decide (b = hyphen) && bool_decide (c = hyphen)) eqn:E; b2p; subst;
    constructor; auto.
Qed.

Lemma collapse_once_length s :
  (length (collapse_once s) <= length s)%nat ∧
  (¬ no_double s → (length (collapse_once s) < length s)%nat).
Proof.
  induction s as [|b|b c s IH1 IH2] using pairs_ind.
  - split; [done|]. intros []. apply no_double_nil.
  - split; [done|]. intros []. apply no_double_cons.
    split; [done|apply no_double_nil].
  - rewrite collapse_once_cons. destruct (decide (b = hyphen ∧ c = hyphen)) as [[-> ->]|Hn].
    + rewrite !bool_decide_true by done. cbn [length andb]. lia.
    + replace (bool_decide (b = hyphen) && bool_decide (c = hyphen)) with false.
      2:{ symmetry. apply andb_false_iff. rewrite !bool_decide_eq_false.
          destruct (decide (b = hyphen)); tauto. }
      cbn [length] in *. split; [lia|]. intros Hd. apply -> Nat.succ_lt_mono. apply IH2. intros Hc.
      apply Hd, no_double_cons. split; [|done]. intros -> [= ->]. tauto.
Qed.

Lemma collapse_no_double fuel s : (length s <= fuel)%nat → no_double (collapse fuel s).
Proof.
  revert s. induction fuel as [|f IH]; intros s Hf; simpl.
  - destruct s; simpl in Hf; [apply no_double_nil|lia].
  - destruct (Contains s #"--") eqn:E; [|by apply no_double_Contains].
    apply IH. destruct (collapse_once_length s) as [_ Hlt].
    assert (¬ no_double s) as Hd by (rewrite <- no_double_Contains; congruence).
    specialize (Hlt Hd). lia.
Qed.

Lemma collapse_Forall (P : byte → Prop) fuel s : Forall P s → Forall P (collapse fuel s).
Proof.
  revert s. induction fuel as [|f IH]; intros s Hs; simpl; [done|].
  case_match; [|done]. by apply IH, collapse_once_Forall.
Qed.

(** ** Trimming hyphens *)

Lemma TrimLeft_suffix s c : ∃ p, s = p ++ TrimLeft s c ∧ Forall (λ b, b = c) p.
Proof.
  induction s as [|b s (p & Hp & HF)]; simpl; [by exists []|].
  case_bool_decide as E; [|by exists []]. subst b. exists (c :: p). split; [|by constructor].
  simpl. by f_equal.
Qed.

Lemma TrimLeft_head s c : head (TrimLeft s c) ≠ Some c.
Proof. induction s as [|b s IH]; simpl; [done|]. case_bool_decide; simpl; congruence. Qed.

Lemma TrimRight_prefix s c : ∃ p, s = TrimRight s c ++ p ∧ Forall (λ b, b = c) p.
Proof.
  unfold TrimRight. destruct (TrimLeft_suffix (reverse s) c) as (p & Hp & HF).
  exists (reverse p). split; [|by apply Forall_reverse].
  by rewrite <- reverse_app, <- Hp, reverse_involutive.
Qed.

Lemma TrimRight_last s c : last (TrimRight s c) ≠ Some c.
Proof. unfold TrimRight. rewrite last_reverse. apply TrimLeft_head. Qed.

Lemma head_prefix {A} (s p : list A) x : head s = Some x → head (s ++ p) = Some x.
Proof. by destruct s. Qed.

(** Without double hyphens, trimming the end drops at most one byte. *)
Lemma TrimRight_length s : no_double s → (length s <= S (length (TrimRight s hyphen)))%nat.
Proof.
  destruct (TrimRight_prefix s hyphen) as (p & Hp & HF). intros Hd.
  rewrite Hp at 1. rewrite length_app. destruct p as [|a [|b p]]; simpl; [lia|lia|].
  apply Forall_cons_1 in HF as [-> HF]. apply Forall_cons_1 in HF as [-> HF].
  by destruct (Hd (TrimRight s hyphen) p).
Qed.

Lemma TrimRight_ok s :
  Forall (λ b, slug_byte b = true) s → no_double s → head s ≠ Some hyphen →
  let t := TrimRight s hyphen in
  Forall (λ b, slug_byte b = true) t ∧ no_double t ∧ head t ≠ Some hyphen ∧ last t ≠ Some hyphen.
Proof.
  intros HF Hd Hh t. destruct (TrimRight_prefix s hyphen) as (p & Hp & _). fold t in Hp.
  rewrite Hp in HF, Hd, Hh. split_and!.
  - by apply Forall_app in HF as [? _].
  - by eapply no_double_app_l.
  - intros E. apply Hh. by apply head_prefix.
  - apply TrimRight_last.
Qed.

(** ** [Slugify] yields a valid name *)

Section SlugFacts.
Context `{UnicodeTables}.

Lemma slug_write_chars s : Forall (λ b, slug_byte b = true) (slug_write s).
Proof.
  unfold slug_write. apply Forall_map, Forall_true. intros r.
  destruct (is_lower r || is_digit r) eqn:E; [|done].
  unfold slug_byte, slug_rune. rewrite bval_byte_of.
  assert (0 <= r < 256).
  { revert E. unfold is_lower, is_digit, in_range. rewrite orb_true_iff, !andb_true_iff, !Z.leb_le. lia. }
  rewrite Z.mod_small by done. by rewrite E.
Qed.

Lemma Slugify_ok host path port : slug_ok (Slugify host path port).
Proof.
  unfold Slugify. set (raw0 := slug_write host ++ _).
  assert (Forall (λ b, slug_byte b = true) raw0) as F0.
  { unfold raw0. rewrite !Forall_app. split_and!; try apply slug_write_chars.
    destruct port; [apply slug_write_chars|constructor]. }
  set (raw1 := collapse (length raw0) raw0).
  pose proof (collapse_Forall _ (length raw0) raw0 F0) as F1. fold raw1 in F1.
  pose proof (collapse_no_double (length raw0) raw0 (le_n _)) as D1. fold raw1 in D1.
  unfold Trim. set (raw2 := TrimLeft raw1 hyphen).
  destruct (TrimLeft_suffix raw1 hyphen) as (p & Hp & _). fold raw2 in Hp.
  rewrite Hp in F1, D1. apply Forall_app in F1 as [_ F2]. apply no_double_app_r in D1.
  pose proof (TrimLeft_head raw1 hyphen) as H2. fold raw2 in H2.
  destruct (TrimRight_ok raw2 F2 D1 H2) as (F3 & D3 & H3 & L3).
  set (raw3 := TrimRight raw2 hyphen) in *.
  set (raw4 := if (64 <? length raw3)%nat then _ else _).
  assert (Forall (λ b, slug_byte b = true) raw4 ∧ no_double raw4 ∧ head raw4 ≠ Some hyphen ∧
          last raw4 ≠ Some hyphen ∧ (length raw4 <= 64)%nat) as (F4 & D4 & H4 & L4 & N4).
  { unfold raw4. destruct (Nat.ltb_spec 64 (length raw3)) as [Hlt|Hge]; [|split_and!; auto].
    destruct (TrimRight_ok (take 64 raw3)) as (? & ? & ? & ?).
    - by apply Forall_take.
    - rewrite <- (take_drop 64 raw3) in D3. by eapply no_double_app_l.
    - by destruct raw3.
    - split_and!; try done. destruct (TrimRight_prefix (take 64 raw3) hyphen) as (q & Hq & _).
      apply (f_equal length) in Hq. rewrite length_app, length_take in Hq. lia. }
  destruct (Nat.ltb_spec (length raw4) 3) as [Hlt|Hge]; [|split; [lia|done..]].
  case_bool_decide as E; [by apply ValidateSlug_ok; vm_compute|].
  split.
  - rewrite length_app. simpl. destruct raw4; simpl in *; [done|lia].
  - apply Forall_app. split; [done|]. by repeat constructor.
  - by destruct raw4.
  - rewrite last_app. by vm_compute.
  - apply no_double_join; [done| |done]. apply no_double_Contains. by vm_compute.
Qed.
End SlugFacts.

(** ** [DisambiguateSlug] terminates, avoids the taken names and stays valid *)

Lemma hyphen_not_digits z : hyphen ∉ FormatUint z.
Proof.
  intros Hin. pose proof (FormatUint_digits z) as F. rewrite Forall_forall in F.
  by apply F in Hin.
Qed.

Lemma Itoa_nonneg z : 0 <= z → Itoa z = FormatUint z.
Proof. intros Hz. unfold Itoa, FormatInt. by destruct (Z.ltb_spec z 0); [lia|]. Qed.

Lemma slug_candidate_inj base n m :
  0 <= n → 0 <= m → slug_candidate base n = slug_candidate base m → n = m.
Proof.
  intros Hn Hm. unfold slug_candidate. rewrite !Itoa_nonneg by done.
  set (t := if (64 <? length base + length (hyphen :: FormatUint n))%nat then _ else _).
  set (u := if (64 <? length base + length (hyphen :: FormatUint m))%nat then _ else _).
  intros E. assert (length t = length u) as El.
  { pose proof (LastIndexByte_app t hyphen (FormatUint n) (hyphen_not_digits n)) as L1.
    pose proof (LastIndexByte_app u hyphen (FormatUint m) (hyphen_not_digits m)) as L2. congruence. }
  apply app_inj_1 in E as [_ [= E]]; [|done]. by apply FormatUint_inj.
Qed.

Lemma disambiguate_None fuel base taken n name :
  disambiguate fuel base taken n name = None →
  ∀ k, (k < fuel)%nat → slug_candidate base (n + Z.of_nat k) ∈ taken.
Proof.
  revert n name. induction fuel as [|f IH]; intros n name; simpl; [lia|].
  case_bool_decide; [|done]. intros Hd [|k] Hk.
  - rewrite Z.add_0_r. destruct f; cbn [disambiguate] in Hd; by case_bool_decide.
  - replace (n + Z.of_nat (S k)) with (n + 1 + Z.of_nat k) by lia. eapply IH; [done|lia].
Qed.

Lemma disambiguate_Some fuel base taken n name r :
  disambiguate fuel base taken n name = Some r →
  r ∉ taken ∧ (r = name ∨ ∃ k, n <= k < n + Z.of_nat fuel ∧ r = slug_candidate base k).
Proof.
  revert n name. induction fuel as [|f IH]; intros n name; simpl.
  { case_bool_decide; [done|]. intros [= <-]. auto. }
  case_bool_decide; [|intros [= <-]; auto].
  intros Hd. apply IH in Hd as [Hr [->|(k & Hk & ->)]]; split; auto; right.
  - exists n. split; [lia|done].
  - exists k. split; [lia|done].
Qed.

(** One more candidate than there are taken names, so one is free. *)
Lemma DisambiguateSlug_total base taken : is_Some (DisambiguateSlug base taken).
Proof.
  destruct (DisambiguateSlug base taken) eqn:E; [eauto|].
  unfold DisambiguateSlug in E. pose proof (disambiguate_None _ _ _ _ _ E) as Hall.
  set (cands := (λ k, slug_candidate base (2 + Z.of_nat k)) <$> seq 0 (S (size taken))).
  assert (NoDup cands) as Hnd.
  { apply NoDup_fmap_2_strong; [|apply NoDup_seq]. intros x y _ _ Hxy.
    apply slug_candidate_inj in Hxy; lia. }
  assert ((list_to_set cands : gset bytes) ⊆ taken) as Hsub.
  { intros c. rewrite elem_of_list_to_set. unfold cands. rewrite list_elem_of_fmap.
    intros (k & -> & Hk). apply elem_of_seq in Hk. apply Hall. lia. }
  apply subseteq_size in Hsub. rewrite size_list_to_set in Hsub by done.
  unfold cands in Hsub. rewrite length_fmap, length_seq in Hsub. lia.
Qed.

Lemma slug_candidate_ok base n :
  slug_ok base → 0 <= n → (length (Itoa n) <= 60)%nat → slug_ok (slug_candidate base n).
Proof.
  intros [Hl Hc Hh Hla Hs] Hn Hlen. unfold slug_candidate. set (suffix := hyphen :: Itoa n).
  assert (length suffix = S (length (Itoa n))) as Hsl by done.
  assert (Itoa n ≠ []) as Hne by (rewrite Itoa_nonneg by done; apply FormatUint_nonempty).
  assert (Forall (λ b, slug_byte b = true) suffix ∧ no_double suffix ∧ last suffix ≠ Some hyphen) as (Fs & Ds & Ls).
  { unfold suffix. rewrite Itoa_nonneg in * by done. pose proof (FormatUint_digits n) as Fd.
    pose proof (hyphen_not_digits n) as Hd. destruct (FormatUint n) as [|c ds] eqn:E; [done|]. split_and!.
    - constructor; [done|]. eapply Forall_impl; [exact Fd|]. intros b Hb.
      unfold slug_byte, slug_rune, digit_byte in *. simpl in Hb. by rewrite Hb, orb_true_r.
    - apply no_double_cons. split; [intros _; simpl; set_solver|].
      intros a b Ei. apply Hd. rewrite Ei. set_solver.
    - change (hyphen :: c :: ds) with ([hyphen] ++ (c :: ds)). rewrite last_app_cons.
      intros El. apply last_Some_elem_of in El. set_solver. }
  set (trunc := if (64 <? length base + length suffix)%nat then _ else _).
  assert (Forall (λ b, slug_byte b = true) trunc ∧ no_double trunc ∧ head trunc ≠ Some hyphen ∧
          last trunc ≠ Some hyphen ∧ (2 <= length trunc)%nat ∧ (length trunc + length suffix <= 64)%nat)
    as (Ft & Dt & Ht & Lt & Nt & Nt2).
  { unfold trunc. destruct (Nat.ltb_spec 64 (length base + length suffix)); [|split_and!; auto; lia].
    set (cut := take (64 - length suffix) base).
    assert (no_double cut) as Dc by (rewrite <- (take_drop (64 - length suffix) base) in Hs; by eapply no_double_app_l).
    destruct (TrimRight_ok cut) as (? & ? & ? & ?); [by apply Forall_take|done| |].
    { unfold cut. destruct base; [by rewrite take_nil|].
      by destruct (64 - length suffix)%nat eqn:E; [lia|]. }
    pose proof (TrimRight_length cut Dc) as Hcl. unfold cut in Hcl at 1. rewrite length_take in Hcl.
    destruct (TrimRight_prefix cut hyphen) as (q & Hq & _).
    apply (f_equal length) in Hq. rewrite length_app in Hq. unfold cut in Hq at 1. rewrite length_take in Hq.
    split_and!; try done; lia. }
  clearbody trunc. split.
  - rewrite length_app. lia.
  - by apply Forall_app.
  - destruct trunc; [simpl in Nt; lia|done].
  - rewrite last_app. destruct (last suffix) eqn:E; [done|]. by apply last_None in E.
  - by apply no_double_join.
Qed.

Lemma DisambiguateSlug_ok base taken :
  slug_ok base → Z.of_nat (size taken) < 10 ^ 50 →
  ∃ name, DisambiguateSlug base taken = Some name ∧ name ∉ taken ∧ slug_ok name.
Proof.
  intros Hb Hsz. destruct (DisambiguateSlug_total base taken) as [name E]. exists name.
  split; [done|]. unfold DisambiguateSlug in E.
  apply disambiguate_Some in E as [Hn [->|(k & Hk & ->)]]; split; auto.
  apply slug_candidate_ok; [done|lia|]. rewrite Itoa_nonneg by lia.
  apply FormatUint_length; [|lia]. change (10 ^ Z.of_nat 60) with (10 ^ 60). lia.
Qed.

(** ** Assigning names *)

Definition assigned (s o : Service) : Prop :=
  o = set_name s (svc_Name o) ∧
  (svc_Name s ≠ [] → o = s) ∧
  (svc_Name s = [] → ValidateSlug (svc_Name o) = None).

Definition given_names (l : list Service) : list bytes :=
  List.filter (λ n, negb (bool_decide (n = []))) (map svc_Name l).

Lemma elem_of_given l n : n ∈ given_names l ↔ n ≠ [] ∧ ∃ s, s ∈ l ∧ svc_Name s = n.
Proof.
  unfold given_names. rewrite elem_of_lfilter, negb_true_iff, bool_decide_eq_false.
  rewrite elem_of_map. naive_solver.
Qed.

Section AssignFacts.
Context `{UnicodeTables}.

Lemma assign_loop_spec services taken :
  (∀ n, n ∈ given_names services → n ∈ taken) → NoDup (given_names services) →
  Z.of_nat (size taken + length services) < 10 ^ 50 →
  ∃ out, assign_loop taken services = Some out ∧ Forall2 assigned services out ∧
         NoDup (map svc_Name out) ∧
         (∀ n, n ∈ map svc_Name out → n ∈ taken → n ∈ given_names services).
Proof.
  revert taken. induction services as [|s rest IH]; intros taken Hsub Hnd Hsz.
  { exists []. split_and!; [done|constructor|constructor|set_solver]. }
  simpl. unfold given_names in Hnd, Hsub. simpl in Hnd, Hsub, Hsz.
  fold (given_names rest) in Hnd, Hsub. destruct (bool_decide (svc_Name s = [])) eqn:Hs; b2p; simpl in *.
  - destruct (DisambiguateSlug_ok (Slugify (svc_Host s) (svc_Path s) (svc_Port s)) taken)
      as (name & -> & Hnt & Hok); [apply Slugify_ok|lia|]. simpl.
    destruct (IH ({[name]} ∪ taken)) as (out & -> & HF & Hnd' & Hin); [set_solver|done| |].
    { rewrite size_union by set_solver. rewrite size_singleton. lia. }
    exists (set_name s name :: out). split_and!; [done| | |].
    + constructor; [|done]. split_and!; [done|done|]. intros _. by apply ValidateSlug_ok.
    + simpl. constructor; [|done]. intros Hname. apply Hnt, Hsub, Hin; set_solver.
    + simpl. unfold given_names. simpl. rewrite bool_decide_true by done. simpl.
      intros n [->|Hn]%elem_of_cons Ht; [done|]. apply Hin; set_solver.
  - apply NoDup_cons in Hnd as [Hsn Hnd].
    destruct (IH taken) as (out & -> & HF & Hnd' & Hin); [set_solver|done|lia|].
    exists (s :: out). split_and!; [done| | |].
    + constructor; [|done]. split_and!; [by destruct s|done|done].
    + simpl. constructor; [|done]. intros Hname. apply Hsn, Hin; [done|set_solver].
    + simpl. unfold given_names. simpl. rewrite bool_decide_false by done. simpl.
      intros n [->|Hn]%elem_of_cons Ht; [left|right]. by apply Hin.
Qed.

(** Filling in missing service names always ends with a
    result in which every service keeps its host, path and settings, given
    names are untouched, each filled-in name passes [ValidateSlug], and no two
    services share a name, provided the given names were distinct. *)
Theorem AssignSlugNames_unique services :
  NoDup (given_names services) → Z.of_nat (length services) < 10 ^ 49 →
  ∃ out, AssignSlugNames services = Some out ∧ Forall2 assigned services out ∧
         NoDup (map svc_Name out).
Proof.
  intros Hnd Hlen. unfold AssignSlugNames, AssignSlugNamesAvoiding.
  destruct (existsb _ services) eqn:He; simpl.
  - assert (map (adopt []) services = services) as ->.
    { rewrite <- (map_id services) at 2. apply map_ext. intros s. unfold adopt. simpl. by case_match. }
    destruct (assign_loop_spec services (names_of [] ∪ names_of services)) as (out & ? & ? & ? & _); eauto.
    + intros n Hn. unfold names_of. rewrite elem_of_union. right. by apply elem_of_list_to_set.
    + assert (size (names_of services) <= length services)%nat.
      { unfold names_of. fold (given_names services). rewrite size_list_to_set by done.
        unfold given_names. etransitivity; [apply lfilter_length_le|]. by rewrite length_map. }
      change (names_of []) with (∅ : gset bytes). rewrite union_empty_l_L. lia.
  - exists services. assert (∀ s, s ∈ services → svc_Name s ≠ []) as Hne.
    { intros s Hs. rewrite existsb_false in He. apply He in Hs. by b2p. }
    assert (given_names services = map svc_Name services) as Hg.
    { apply lfilter_all, Forall_forall. intros n (s & -> & Hs)%elem_of_map. by rewrite bool_decide_false by auto. }
    split_and!; [done| |by rewrite <- Hg].
    apply Forall_Forall2_diag, Forall_forall. intros s Hs. split_and!; [by destruct s|done|].
    intros E. by destruct (Hne s).
Qed.
End AssignFacts.

Definition unnamed_service (host : bytes) : Service :=
  {| svc_Name := []; svc_Host := host; svc_Path := []; svc_Port := None; svc_Enabled := None;
     svc_Auth := {| auth_Type := #"passthrough"; auth_Token := []; auth_Username := [];
                    auth_Password := []; auth_Key := []; auth_Header := []; auth_Prefix := [];
                    auth_Headers := [] |};
     svc_Substitutions := []; svc_FixedQuery := None |}.

Definition colliding_services : list Service :=
  map unnamed_service [ #"github.com"; #"*.github.com"; #"*.github.com"].

Lemma AssignSlugNames_unique_witness :
  ∃ out, @AssignSlugNames latin1_tables colliding_services = Some out ∧
    Forall2 assigned colliding_services out ∧ NoDup (map svc_Name out).
Proof.
  apply (@AssignSlugNames_unique latin1_tables).
  - vm_compute. constructor.
  - vm_compute. reflexivity.
Defined.

Example AssignSlugNames_collision :
  option_map (map svc_Name) (@AssignSlugNames latin1_tables colliding_services)
  = Some [ #"github-com"; #"github-com-2"; #"github-com-3"].
Proof. vm_compute. reflexivity. Qed.
