(* ===== verification/BrokerAuth.v ===== *)
(** * Credential attachment
    ([internal/broker/broker.go]: [Auth.Validate], [CredentialKeys], [Resolve],
    [resolveHeaders], substitution validation)

    [getCredential] is a function argument, as in the source; its errors are of
    an arbitrary type [E]. *)

From S2P Require Import Prelude GoString GoRegexp GoStrconv BrokerMatch.

Definition SupportedAuthTypes : list bytes :=
  [ #"bearer"; #"basic"; #"api-key"; #"custom"; #"passthrough"].

(** [^[A-Z][A-Z0-9_]*$] *)
Definition CredentialKeyPattern : regex :=
  RSeq (RCls is_upper) (RStar (RCls (λ c, is_upper c || is_digit c || (c =? 95)))).

Definition SubstitutionSurfaces : list bytes :=
  [ #"path"; #"query"; #"header"; #"body"; #"websocket"].
Definition DefaultSubstitutionSurfaces : list bytes := [ #"path"; #"query"].

Definition placeholderWordChar (c : Z) : bool :=
  is_lower c || is_upper c || is_digit c || (c =? 95).
Definition placeholderCharAllowed (c : Z) : bool :=
  placeholderWordChar c || (c =? 45) || (c =? 46) || (c =? 126).

Inductive auth_error :=
| AuthTypeRequired | AuthTokenRequired | AuthUsernameRequired | AuthKeyRequired
| AuthHeadersRequired | AuthUnexpectedField (field : bytes)
| AuthBadCredentialKey (field key : bytes)
| AuthBadHeaderName (name : bytes) | AuthBadHeaderKey (key name : bytes)
| AuthUnsupportedType (t : bytes).

(** [\{\{\s*(\w+)\s*\}\}] *)
Definition re_space (c : Z) : bool := bool_decide (c ∈ [9; 10; 12; 13; 32]).
Definition CredentialRef : regex :=
  RSeq (RStr #"{{") (RSeq (RStar (RCls re_space))
    (RSeq (RCap 1 (RPlus (RCls placeholderWordChar)))
      (RSeq (RStar (RCls re_space)) (RStr #"}}")))).

(** The text as literal bytes and credential references, left to right; the
    pattern is ASCII, so searching bytes finds what searching runes does. *)
Inductive segment := SLit (b : byte) | SRef (text key : bytes).

Fixpoint segments (fuel : nat) (s : bytes) : list segment :=
  match fuel with
  | O => map SLit s
  | S f =>
      match s with
      | [] => []
      | b :: s' =>
          match rmatch CredentialRef (codes s) with
          | (c, rest) :: _ =>
              let n := (length s - length rest)%nat in
              SRef (take n s) (map byte_of (default [] (capture 1 c))) :: segments f (drop n s)
          | [] => SLit b :: segments f s'
          end
      end
  end.

Definition ref_segments (v : bytes) : list segment := segments (length v) v.

(** The first submatch of every match, [FindAllStringSubmatch(v, -1)]. *)
Definition credential_refs (v : bytes) : list bytes :=
  omap (λ g, match g with SRef _ k => Some k | SLit _ => None end) (ref_segments v).

Definition validateCredentialKey (field key : bytes) : option auth_error :=
  if negb (MatchString CredentialKeyPattern key) then Some (AuthBadCredentialKey field key) else None.

Definition checkUnexpectedFields (a : Auth) (allowed : list bytes) : option auth_error :=
  let set v := negb (bool_decide (v = [])) in
  first_error (λ '(name, isSet),
      if isSet && negb (bool_decide (name ∈ allowed)) then Some (AuthUnexpectedField name) else None)
    [(#"token", set (auth_Token a)); (#"username", set (auth_Username a));
     (#"password", set (auth_Password a)); (#"key", set (auth_Key a));
     (#"header", set (auth_Header a)); (#"prefix", set (auth_Prefix a));
     (#"headers", negb (bool_decide (auth_Headers a = [])))].

(** [^[a-zA-Z0-9-]+$] *)
Definition headerNamePattern : regex := RPlus (RCls (λ c, is_alnum c || (c =? 45))).

Definition check_header '((name, val) : bytes * bytes) : option auth_error :=
  if negb (MatchString headerNamePattern name) then Some (AuthBadHeaderName name)
  else first_error (λ k, if negb (MatchString CredentialKeyPattern k)
                         then Some (AuthBadHeaderKey k name) else None) (credential_refs val).

(** [if err := e; err != nil { return err }], then the rest. *)
Definition or_else {E} (e rest : option E) : option E :=
  match e with Some x => Some x | None => rest end.

Definition Auth_Validate (a : Auth) : option auth_error :=
  if bool_decide (auth_Type a = []) then Some AuthTypeRequired
  else if bool_decide (auth_Type a = #"bearer") then
    if bool_decide (auth_Token a = []) then Some AuthTokenRequired
    else or_else (checkUnexpectedFields a [ #"token"]) (validateCredentialKey #"token" (auth_Token a))
  else if bool_decide (auth_Type a = #"basic") then
    if bool_decide (auth_Username a = []) then Some AuthUsernameRequired
    else or_else (checkUnexpectedFields a [ #"username"; #"password"])
         (or_else (validateCredentialKey #"username" (auth_Username a))
            (if negb (bool_decide (auth_Password a = []))
             then validateCredentialKey #"password" (auth_Password a) else None))
  else if bool_decide (auth_Type a = #"api-key") then
    if bool_decide (auth_Key a = []) then Some AuthKeyRequired
    else or_else (checkUnexpectedFields a [ #"key"; #"header"; #"prefix"])
         (validateCredentialKey #"key" (auth_Key a))
  else if bool_decide (auth_Type a = #"custom") then
    if bool_decide (length (auth_Headers a) = 0%nat) then Some AuthHeadersRequired
    else or_else (checkUnexpectedFields a [ #"headers"]) (first_error check_header (auth_Headers a))
  else if bool_decide (auth_Type a = #"passthrough") then checkUnexpectedFields a []
  else Some (AuthUnsupportedType (auth_Type a)).

(** First occurrences, in order: the [seen] map loops. *)
Definition add_new (seen : list bytes) (k : bytes) : list bytes :=
  if bool_decide (k ∈ seen) then seen else seen ++ [k].
Definition dedup (keys : list bytes) : list bytes := foldl add_new [] keys.

Definition credentialKeysFromHeaders (headers : list (bytes * bytes)) : list bytes :=
  dedup (flat_map (λ '(_, v), credential_refs v) headers).

Definition Auth_CredentialKeys (a : Auth) : list bytes :=
  if bool_decide (auth_Type a = #"bearer") then [auth_Token a]
  else if bool_decide (auth_Type a = #"basic") then
    auth_Username a :: (if negb (bool_decide (auth_Password a = [])) then [auth_Password a] else [])
  else if bool_decide (auth_Type a = #"api-key") then [auth_Key a]
  else if bool_decide (auth_Type a = #"custom") then credentialKeysFromHeaders (auth_Headers a)
  else [].

Definition Service_CredentialKeys (s : Service) : list bytes :=
  let authKeys := Auth_CredentialKeys (svc_Auth s) in
  if bool_decide (length (svc_Substitutions s) = 0%nat) then authKeys
  else dedup (authKeys ++ map sub_Key (svc_Substitutions s)).

(** ** Resolution *)

Inductive resolve_error (E : Type) := LookupErr (e : E) | UnsupportedAuth (t : bytes).
Arguments LookupErr {E} e.
Arguments UnsupportedAuth {E} t.

(** The alphabet of [base64.StdEncoding]. *)
Definition base64_char (z : Z) : byte :=
  byte_of (if z <? 26 then 65 + z else if z <? 52 then 71 + z else if z <? 62 then z - 4
           else if z =? 62 then 43 else 47).

Fixpoint EncodeToString (s : bytes) : bytes :=
  match s with
  | [] => []
  | [a] => let v := bval a * 65536 in
      [base64_char (v / 262144); base64_char (v / 4096 mod 64); x3d; x3d]
  | [a; b] => let v := bval a * 65536 + bval b * 256 in
      [base64_char (v / 262144); base64_char (v / 4096 mod 64); base64_char (v / 64 mod 64); x3d]
  | a :: b :: c :: s' => let v := bval a * 65536 + bval b * 256 + bval c in
      base64_char (v / 262144) :: base64_char (v / 4096 mod 64) ::
      base64_char (v / 64 mod 64) :: base64_char (v mod 64) :: EncodeToString s'
  end.

Section Resolve.
Context {E : Type} (getCredential : bytes → result E bytes).

(** One header value with its references replaced; the first failed lookup
    stops the replacement. *)
Fixpoint resolve_segments (segs : list segment) : result E bytes :=
  match segs with
  | [] => Ok []
  | SLit b :: rest => out ← resolve_segments rest; Ok (b :: out)
  | SRef _ key :: rest =>
      val ← getCredential key; out ← resolve_segments rest; Ok (val ++ out)
  end.

Fixpoint resolveHeaders (headers : list (bytes * bytes)) : result E (list (bytes * bytes)) :=
  match headers with
  | [] => Ok []
  | (k, v) :: rest =>
      out ← resolve_segments (ref_segments v);
      rest' ← resolveHeaders rest;
      Ok ((k, out) :: rest')
  end.

Definition lift {A} (r : result E A) : result (resolve_error E) A :=
  match r with Ok a => Ok a | Err e => Err (LookupErr e) end.

(** [None] is the nil map of a passthrough service. *)
Definition Resolve (a : Auth) : result (resolve_error E) (option (list (bytes * bytes))) :=
  if bool_decide (auth_Type a = #"bearer") then
    val ← lift (getCredential (auth_Token a));
    Ok (Some [(#"Authorization", #"Bearer " ++ val)])
  else if bool_decide (auth_Type a = #"basic") then
    user ← lift (getCredential (auth_Username a));
    pass ← (if negb (bool_decide (auth_Password a = []))
            then lift (getCredential (auth_Password a)) else Ok []);
    Ok (Some [(#"Authorization", #"Basic " ++ EncodeToString (user ++ #":" ++ pass))])
  else if bool_decide (auth_Type a = #"api-key") then
    val ← lift (getCredential (auth_Key a));
    let header := if bool_decide (auth_Header a = []) then #"Authorization" else auth_Header a in
    Ok (Some [(header, auth_Prefix a ++ val)])
  else if bool_decide (auth_Type a = #"custom") then
    hs ← lift (resolveHeaders (auth_Headers a)); Ok (Some hs)
  else if bool_decide (auth_Type a = #"passthrough") then Ok None
  else Err (UnsupportedAuth (auth_Type a)).
End Resolve.

(** ** Substitutions *)

Inductive sub_error :=
| SubKeyRequired (i : nat) | SubBadKey (i : nat) (e : auth_error)
| SubPlaceholder (i : nat) (e : Z) | SubDuplicate (i : nat) (prev : nat)
| SubBadSurface (i : nat) (surface : bytes) | SubSurfaceTwice (i : nat) (surface : bytes).

(** Codes of [validatePlaceholder]'s errors, in the order of its checks. *)
Definition PlaceholderEmpty : Z := 1.
Definition PlaceholderShort : Z := 2.
Definition PlaceholderChar : Z := 3.
Definition PlaceholderNoAlnum : Z := 4.
Definition PlaceholderNoBoundary : Z := 5.

(** The scan: [None] on a disallowed character, else whether an alphanumeric
    and a boundary were seen. *)
Fixpoint placeholder_scan (p : bytes) (hasBoundary hasAlnum : bool) : option (bool * bool) :=
  match p with
  | [] => Some (hasBoundary, hasAlnum)
  | c :: p' =>
      let z := bval c in
      if negb (placeholderCharAllowed z) then None
      else
        let hasAlnum := hasAlnum || is_alnum z in
        let hasBoundary :=
          if negb (placeholderWordChar z) then true
          else if (z =? 95) && bool_decide (head p' = Some x5f) then true else hasBoundary in
        placeholder_scan p' hasBoundary hasAlnum
  end.

Definition validatePlaceholder (p : bytes) : option Z :=
  if bool_decide (p = []) then Some PlaceholderEmpty
  else if (length p <? 4)%nat then Some PlaceholderShort
  else match placeholder_scan p false false with
       | None => Some PlaceholderChar
       | Some (hasBoundary, hasAlnum) =>
           if negb hasAlnum then Some PlaceholderNoAlnum
           else if negb hasBoundary then Some PlaceholderNoBoundary else None
       end.

Fixpoint validateSubstitutionSurfaces (i : nat) (seen : list bytes) (l : list bytes) : option sub_error :=
  match l with
  | [] => None
  | surface :: l' =>
      if negb (bool_decide (surface ∈ SubstitutionSurfaces)) then Some (SubBadSurface i surface)
      else if bool_decide (surface ∈ seen) then Some (SubSurfaceTwice i surface)
      else validateSubstitutionSurfaces i (surface :: seen) l'
  end.

Fixpoint validate_subs (i : nat) (seen : list (bytes * nat)) (l : list Substitution) : option sub_error :=
  match l with
  | [] => None
  | sub :: l' =>
      if bool_decide (sub_Key sub = []) then Some (SubKeyRequired i)
      else match validateCredentialKey #"key" (sub_Key sub) with
      | Some e => Some (SubBadKey i e)
      | None =>
      match validatePlaceholder (sub_Placeholder sub) with
      | Some e => Some (SubPlaceholder i e)
      | None =>
      match List.find (λ '(p, _), bool_decide (p = sub_Placeholder sub)) seen with
      | Some (_, prev) => Some (SubDuplicate i prev)
      | None =>
      match validateSubstitutionSurfaces i [] (sub_In sub) with
      | Some e => Some e
      | None => validate_subs (S i) ((sub_Placeholder sub, i) :: seen) l'
      end end end end
  end.

Definition ValidateSubstitutions (s : Service) : option sub_error :=
  validate_subs 0 [] (svc_Substitutions s).

Definition NormalizedIn (s : Substitution) : list bytes :=
  if bool_decide (length (sub_In s) = 0%nat) then DefaultSubstitutionSurfaces else sub_In s.

(** ** What a validated service attaches *)

Lemma add_new_spec seen k x : x ∈ add_new seen k ↔ x ∈ seen ∨ x = k.
Proof.
  unfold add_new. case_bool_decide; [|set_solver].
  split; [by left | by intros [?| ->]].
Qed.

Lemma dedup_spec keys x : x ∈ dedup keys ↔ x ∈ keys.
Proof.
  unfold dedup. cut (∀ seen, x ∈ foldl add_new seen keys ↔ x ∈ seen ∨ x ∈ keys).
  { intros H. rewrite H. set_solver. }
  induction keys as [|k keys IH]; intros seen; simpl; [set_solver|].
  rewrite IH, add_new_spec, elem_of_cons. tauto.
Qed.

Lemma dedup_NoDup keys : NoDup (dedup keys).
Proof.
  unfold dedup. cut (∀ seen, NoDup seen → NoDup (foldl add_new seen keys)).
  { intros H. apply H. constructor. }
  induction keys as [|k keys IH]; intros seen Hs; simpl; [done|]. apply IH.
  unfold add_new. case_bool_decide; [done|].
  apply NoDup_app. split_and!; [done | set_solver | apply NoDup_singleton].
Qed.

Definition is_credential_key (k : bytes) : Prop := MatchString CredentialKeyPattern k = true.

Lemma validateCredentialKey_None f k : validateCredentialKey f k = None → is_credential_key k.
Proof. unfold validateCredentialKey, is_credential_key. by destruct (MatchString _ k). Qed.

Lemma or_else_None {E} (e r : option E) : or_else e r = None ↔ e = None ∧ r = None.
Proof. destruct e; simpl; split; [done | by intros [? _] | done | by intros [_ ?]]. Qed.

Lemma check_header_None n v :
  check_header (n, v) = None → Forall is_credential_key (credential_refs v).
Proof.
  simpl. destruct (MatchString headerNamePattern n); [|done]. simpl.
  rewrite first_error_None. intros H. eapply Forall_impl; [exact H|]. intros k.
  unfold is_credential_key. simpl. by destruct (MatchString _ k).
Qed.

Lemma headers_keys_valid hs :
  first_error check_header hs = None → Forall is_credential_key (credentialKeysFromHeaders hs).
Proof.
  rewrite first_error_None, !Forall_forall. intros H k Hk.
  apply dedup_spec, elem_of_flat_map in Hk as ([n v] & Hin & Hk).
  specialize (H _ Hin). apply check_header_None in H. rewrite Forall_forall in H. by apply H.
Qed.

Ltac auth_type :=
  repeat match goal with
  | H : context [bool_decide (?x = ?y)] |- _ =>
      destruct (decide (x = y)) as [?E|?N];
      [rewrite (bool_decide_eq_true_2 (x = y)) in * by done
      |rewrite (bool_decide_eq_false_2 (x = y)) in * by done]; cbn [negb] in *; try done
  | H : or_else _ _ = None |- _ => apply or_else_None in H as [? ?]
  | H : validateCredentialKey _ _ = None |- _ => apply validateCredentialKey_None in H
  end.

Lemma Auth_Validate_keys a :
  Auth_Validate a = None → Forall is_credential_key (Auth_CredentialKeys a).
Proof.
  unfold Auth_Validate, Auth_CredentialKeys. intros H. auth_type;
    repeat constructor; try done; by apply headers_keys_valid.
Qed.

Section ResolveFacts.
Context {E : Type}.
Implicit Types get : bytes → result E bytes.

Lemma is_Ok_bind {F A B} (r : result F A) (f : A → result F B) :
  (∀ a, is_Ok (f a) = true) → is_Ok (r ≫= f) = is_Ok r.
Proof. intros H. destruct r; simpl; [apply H | done]. Qed.

Lemma is_Ok_lift {A} (r : result E A) : is_Ok (lift r) = is_Ok r.
Proof. by destruct r. Qed.

(** The keys a list of segments looks up. *)
Definition segment_keys (segs : list segment) : list bytes :=
  omap (λ g, match g with SRef _ k => Some k | SLit _ => None end) segs.

Lemma resolve_segments_ok get segs :
  is_Ok (resolve_segments get segs) = forallb (λ k, is_Ok (get k)) (segment_keys segs).
Proof.
  induction segs as [|[b|t k] segs IH]; simpl; [done | by rewrite is_Ok_bind |].
  destruct (get k); simpl; [by rewrite is_Ok_bind | done].
Qed.

Lemma resolve_segments_ext get get' segs :
  Forall (λ k, get k = get' k) (segment_keys segs) →
  resolve_segments get segs = resolve_segments get' segs.
Proof.
  induction segs as [|[b|t k] segs IH]; simpl; [done | intros H; by rewrite IH |].
  intros [Hk H]%Forall_cons. by rewrite Hk, IH.
Qed.

Lemma forallb_app {A} (f : A → bool) l k : forallb f (l ++ k) = forallb f l && forallb f k.
Proof. apply List.forallb_app. Qed.

Lemma resolveHeaders_ok get hs :
  is_Ok (resolveHeaders get hs) =
  forallb (λ k, is_Ok (get k)) (flat_map (λ '(_, v), credential_refs v) hs).
Proof.
  induction hs as [|[n v] hs IH]; simpl; [done|]. rewrite forallb_app, <- IH.
  change (credential_refs v) with (segment_keys (ref_segments v)).
  rewrite <- resolve_segments_ok. destruct (resolve_segments get (ref_segments v)); simpl; [|done].
  by rewrite is_Ok_bind.
Qed.

Lemma resolveHeaders_ext get get' hs :
  Forall (λ k, get k = get' k) (flat_map (λ '(_, v), credential_refs v) hs) →
  resolveHeaders get hs = resolveHeaders get' hs.
Proof.
  induction hs as [|[n v] hs IH]; simpl; [done|]. intros [H1 H2]%Forall_app.
  by rewrite (resolve_segments_ext get get'), IH.
Qed.

Lemma forallb_dedup (f : bytes → bool) l : forallb f (dedup l) = forallb f l.
Proof.
  apply eq_true_iff_eq. rewrite !forallb_Forall, !Forall_forall. by setoid_rewrite dedup_spec.
Qed.

Lemma Forall_dedup (P : bytes → Prop) l : Forall P (dedup l) ↔ Forall P l.
Proof. rewrite !Forall_forall. by setoid_rewrite dedup_spec. Qed.

Lemma Resolve_ok get a :
  Auth_Validate a = None →
  is_Ok (Resolve get a) = forallb (λ k, is_Ok (get k)) (Auth_CredentialKeys a).
Proof.
  unfold Auth_Validate, Auth_CredentialKeys, Resolve. intros H. auth_type; simpl;
    rewrite ?andb_true_r.
  - by rewrite is_Ok_bind, is_Ok_lift.
  - destruct (get (auth_Username a)); done.
  - destruct (get (auth_Username a)); simpl; [|done]. by destruct (get (auth_Password a)).
  - by rewrite is_Ok_bind, is_Ok_lift.
  - unfold credentialKeysFromHeaders.
    by rewrite is_Ok_bind, is_Ok_lift, resolveHeaders_ok, forallb_dedup.
Qed.

Lemma Resolve_ext get get' a :
  Forall (λ k, get k = get' k) (Auth_CredentialKeys a) → Resolve get a = Resolve get' a.
Proof.
  unfold Auth_CredentialKeys, Resolve. intros H. auth_type;
    repeat match goal with H : Forall _ (_ :: _) |- _ => apply Forall_cons in H as [? ?] end;
    try congruence.
  - by rewrite H, H0.
  - unfold credentialKeysFromHeaders in H. rewrite Forall_dedup in H.
    by rewrite (resolveHeaders_ext get get').
Qed.
End ResolveFacts.

(** A validated authentication block names only UPPER_SNAKE credential keys;
    its headers are resolved exactly when every key [CredentialKeys] lists can be
    looked up, and depend on the value of no other credential: the keys an access
    check is shown are the keys the request is given. *)
Theorem Resolve_uses_CredentialKeys {E} (a : Auth) (get get' : bytes → result E bytes)
  (Hvalid : Auth_Validate a = None) :
  Forall is_credential_key (Auth_CredentialKeys a) ∧
  (is_Ok (Resolve get a) = true ↔ ∀ k, k ∈ Auth_CredentialKeys a → is_Ok (get k) = true) ∧
  ((∀ k, k ∈ Auth_CredentialKeys a → get k = get' k) → Resolve get a = Resolve get' a).
Proof.
  split_and!.
  - by apply Auth_Validate_keys.
  - by rewrite Resolve_ok, forallb_Forall, Forall_forall.
  - intros H. apply Resolve_ext. by apply Forall_forall.
Qed.

Definition sample_custom : Auth :=
  {| auth_Type := #"custom"; auth_Token := []; auth_Username := []; auth_Password := [];
     auth_Key := []; auth_Header := []; auth_Prefix := [];
     auth_Headers := [(#"X-Org", #"acme"); (#"X-Auth", #"k={{ API_KEY }};o={{ORG_ID}}")] |}.

Definition sample_get (k : bytes) : result unit bytes :=
  if bool_decide (k = #"API_KEY") then Ok #"s3cret"
  else if bool_decide (k = #"ORG_ID") then Ok #"42" else Err tt.

Lemma Resolve_uses_CredentialKeys_witness :
  Auth_Validate sample_custom = None ∧
  Resolve sample_get sample_custom =
    Ok (Some [(#"X-Org", #"acme"); (#"X-Auth", #"k=s3cret;o=42")]) ∧
  is_credential_key #"ORG_ID".
Proof.
  split_and!; [by vm_compute | by vm_compute |].
  assert (H : Auth_Validate sample_custom = None) by (by vm_compute).
  pose proof (Resolve_uses_CredentialKeys sample_custom sample_get sample_get H) as (Hk & _ & _).
  rewrite Forall_forall in Hk. apply Hk. vm_compute. right. left.
Defined.

(** ** Substitutions *)

Lemma validate_subs_spec l : ∀ i seen,
  validate_subs i seen l = None →
  Forall (λ s, is_credential_key (sub_Key s) ∧ validatePlaceholder (sub_Placeholder s) = None ∧
               (∀ f, f ∈ NormalizedIn s → f ∈ SubstitutionSurfaces)) l ∧
  NoDup (map sub_Placeholder l) ∧
  (∀ s, s ∈ l → sub_Placeholder s ∉ seen.*1).
Proof.
  assert (Hsurf : ∀ i fs acc, validateSubstitutionSurfaces i acc fs = None →
            ∀ f, f ∈ fs → f ∈ SubstitutionSurfaces).
  { intros i fs. induction fs as [|g fs IHs]; intros acc H f Hf; [set_solver|].
    simpl in H. case_bool_decide; [|done]. simpl in H. case_bool_decide; [done|].
    apply elem_of_cons in Hf as [->|Hf]; [done | by eapply IHs]. }
  induction l as [|s l IH]; intros i seen H; simpl in H.
  { split_and!; [constructor | constructor | set_solver]. }
  repeat (case_match; try done). b2p.
  destruct (IH _ _ H) as (Hok & Hnd & Hseen).
  split_and!.
  - constructor; [|done]. split_and!; [by eapply validateCredentialKey_None | done |].
    intros f. unfold NormalizedIn. case_bool_decide; [set_solver|]. by eapply Hsurf.
  - simpl. constructor; [|done]. intros (t & Heq & Ht)%elem_of_map.
    apply (Hseen t Ht). rewrite <- Heq. set_solver.
  - intros t [->|Ht]%elem_of_cons; [|specialize (Hseen t Ht); set_solver].
    intros ([p n] & Hp & Hin)%list_elem_of_fmap. simpl in Hp. subst.
    eapply List.find_none in H3; [|by apply list_elem_of_In]. simpl in H3. by case_bool_decide.
Qed.

Lemma placeholder_scan_chars p : ∀ hb ha r,
  placeholder_scan p hb ha = Some r → Forall (λ c, placeholderCharAllowed (bval c) = true) p.
Proof.
  induction p as [|c p IH]; intros hb ha r H; [constructor|]. cbn [placeholder_scan] in H.
  destruct (placeholderCharAllowed (bval c)) eqn:E; [|done]. cbn [negb] in H. constructor; eauto.
Qed.
