(* ===== verification/BrokerConfig.v ===== *)
(** * Service lists as a whole
    ([internal/broker/fixed_query.go] and [Validate] of [broker.go])

    The fixed-query rules, the JSON reader of fixed parameters over the tokens
    of [encoding/json], and the validation of a complete configuration. *)

From S2P Require Import Prelude GoString GoRegexp GoStrconv GoNet GoUrl.
From S2P Require Import BrokerMatch BrokerHost BrokerAuth.

(** ** Library functions the rules use *)

(** [path.Clean], element by element: empty and [.] elements are dropped, [..]
    removes the element before it, or is dropped at the root. *)
Definition clean_step (rooted : bool) (stack : list bytes) (e : bytes) : list bytes :=
  if bool_decide (e = []) || bool_decide (e = #".") then stack
  else if bool_decide (e = #"..") then
    match stack with
    | top :: stack' => if bool_decide (top = #"..") then e :: stack else stack'
    | [] => if rooted then [] else [e]
    end
  else e :: stack.

Definition Clean (path : bytes) : bytes :=
  let rooted := HasPrefix path #"/" in
  let body := Join (rev (foldl (clean_step rooted) [] (Split path x2f))) #"/" in
  if rooted then #"/" ++ body else if bool_decide (body = []) then #"." else body.

(** [url.Values.Encode] of one value per key. *)
Fixpoint bytes_leb (a b : bytes) : bool :=
  match a, b with
  | [], _ => true
  | _ :: _, [] => false
  | x :: a', y :: b' => if bval x <? bval y then true else if bval y <? bval x then false else bytes_leb a' b'
  end.
Fixpoint insert_key (kv : bytes * bytes) (l : list (bytes * bytes)) : list (bytes * bytes) :=
  match l with
  | [] => [kv]
  | kv' :: l' => if bytes_leb (fst kv) (fst kv') then kv :: l else kv' :: insert_key kv l'
  end.
Definition Encode (q : list (bytes * bytes)) : bytes :=
  Join (map (λ '(k, v), QueryEscape k ++ #"=" ++ QueryEscape v) (foldr insert_key [] q)) #"&".

(** ** Fixed queries *)

Definition is_word (c : Z) : bool := is_alnum c || (c =? 95).

(** [^[A-Za-z][A-Za-z0-9_]{0,63}$] *)
Definition fixedQueryKey : regex :=
  RSeq (RCls (λ c, is_lower c || is_upper c)) (RUpTo 63 (RCls is_word)).

Inductive fixed_error := FixedInvalid | FixedAmbiguous.

Definition fixed_param_bad '((key, value) : bytes * bytes) : bool :=
  negb (MatchString fixedQueryKey key) || (512 <? Z.of_nat (length value)) ||
  negb (ValidString value) || Contains value #"__" || ContainsAny value #"{}" ||
  existsb IsControl (runes value).

Definition fixed_shape_bad (s : Service) (q : list (bytes * bytes)) : bool :=
  bool_decide (length q = 0%nat) || (16 <? Z.of_nat (length q)) ||
  bool_decide (svc_Host s = []) || ContainsAny (svc_Host s) #"*?[]" ||
  bool_decide (svc_Path s = []) || negb (HasPrefix (svc_Path s) #"/") ||
  negb (bool_decide (Clean (svc_Path s) = svc_Path s)) ||
  ContainsAny (svc_Path s) #"*?[]{}%#" || Contains (svc_Path s) #"__".

Definition ValidateFixedQuery (s : Service) : option fixed_error :=
  match svc_FixedQuery s with
  | None => None
  | Some q =>
      if fixed_shape_bad s q then Some FixedInvalid
      else if existsb fixed_param_bad q then Some FixedInvalid
      else if 4096 <? Z.of_nat (length (Encode q)) then Some FixedInvalid
      else None
  end.

(** The inner loop's test of service [other] against the fixed service [s]. *)
Definition overlaps (s other : Service) : bool :=
  snd (matchHostPattern (svc_Host other) (svc_Host s)) &&
  snd (matchPathGlob (svc_Path other) (svc_Path s)) &&
  match svc_Port s, svc_Port other with
  | Some p, Some q => p =? q
  | _, _ => true
  end.

Definition indexed {A} (l : list A) : list (nat * A) := imap pair l.

Definition ValidateFixedQueryBindings (services : list Service) : option fixed_error :=
  first_error (λ '(i, s),
      match ValidateFixedQuery s with
      | Some e => Some e
      | None =>
          match svc_FixedQuery s with
          | None => None
          | Some _ =>
              first_error (λ '(j, other),
                  if bool_decide (i = j) then None
                  else if overlaps s other then Some FixedAmbiguous else None)
                (indexed services)
          end
      end)
    (indexed services).

(** ** Reading fixed parameters from JSON

    What [decoder.Token] yields, in order; a malformed input yields [TBad]
    from the offending position on, and the end of the tokens is [io.EOF]. *)
Inductive token := TDelim (c : byte) | TString (s : bytes) | TOther | TBad.

Inductive json_error := NotObject | BadParameter | BadName | DuplicateName | NotString | BadObject.

(** [decoder.More]: another element before the closing delimiter. *)
Definition More (ts : list token) : bool :=
  match ts with
  | [] => false
  | TDelim c :: _ => negb (bool_decide (c = x7d) || bool_decide (c = x5d))
  | _ => true
  end.

Fixpoint read_pairs (ts : list token) (parsed : list (bytes * bytes))
  : result json_error (list (bytes * bytes)) :=
  if negb (More ts) then
    match ts with
    | [] | TBad :: _ => Err BadObject
    | _ :: _ => Ok parsed
    end
  else
    match ts with
    | [] | TBad :: _ => Err BadParameter
    | TString key :: rest =>
        if bool_decide (key ∈ parsed.*1) then Err DuplicateName
        else match rest with
             | TString value :: rest' => read_pairs rest' (parsed ++ [(key, value)])
             | _ => Err NotString
             end
    | _ :: _ => Err BadName
    end.

Definition UnmarshalJSON (data : bytes) (tokens : list token)
  : result json_error (option (list (bytes * bytes))) :=
  if bool_decide (data = #"null") then Ok None
  else
    match tokens with
    | TDelim c :: ts =>
        if bool_decide (c = x7b)
        then match read_pairs ts [] with Ok q => Ok (Some q) | Err e => Err e end
        else Err NotObject
    | _ => Err NotObject
    end.

(** ** A complete configuration *)

Inductive config_error :=
| VaultRequired
| BadFixed (e : fixed_error)
| HostRequired (i : nat) | HostHasSlash (i : nat) | BadHost (i : nat) (e : host_error)
| NameRequired (i : nat) | BadName_ (i : nat) (e : slug_error) | DuplicateService (i prev : nat)
| BadPath (i : nat) (e : path_error) | BadPort (i : nat) (e : port_error)
| BadFixedAt (i : nat) (e : fixed_error)
| BadAuth (i : nat) (e : auth_error) | BadSubstitution (i : nat) (e : sub_error).

Section Validate.
Context `{UnicodeTables} (Getenv : bytes → bytes).

Definition err_map {E F} (f : E → F) (e : option E) : option F :=
  match e with Some x => Some (f x) | None => None end.

Definition validate_service (i : nat) (nameSet : list (bytes * nat)) (s : Service)
  : option config_error :=
  if bool_decide (svc_Host s = []) then Some (HostRequired i)
  else if Contains (svc_Host s) #"/" then Some (HostHasSlash i)
  else or_else (err_map (BadHost i) (ValidateHost Getenv (svc_Host s)))
    (if bool_decide (svc_Name s = []) then Some (NameRequired i)
     else or_else (err_map (BadName_ i) (ValidateSlug (svc_Name s)))
       (match List.find (λ '(n, _), bool_decide (n = svc_Name s)) nameSet with
        | Some (_, prev) => Some (DuplicateService i prev)
        | None =>
            or_else (err_map (BadPath i) (ValidatePath (svc_Path s)))
            (or_else (err_map (BadPort i) (ValidatePort (svc_Port s)))
            (or_else (err_map (BadFixedAt i) (ValidateFixedQuery s))
            (or_else (err_map (BadAuth i) (Auth_Validate (svc_Auth s)))
                     (err_map (BadSubstitution i) (ValidateSubstitutions s)))))
        end)).

Fixpoint validate_services (i : nat) (nameSet : list (bytes * nat)) (l : list Service)
  : option config_error :=
  match l with
  | [] => None
  | s :: l' => or_else (validate_service i nameSet s)
                 (validate_services (S i) ((svc_Name s, i) :: nameSet) l')
  end.

Definition Validate (cfg : Config) : option config_error :=
  if bool_decide (cfg_Vault cfg = []) then Some VaultRequired
  else or_else (err_map BadFixed (ValidateFixedQueryBindings (cfg_Services cfg)))
         (validate_services 0 [] (cfg_Services cfg)).

(** ** What a validated configuration guarantees *)

Lemma err_map_None {E F} (f : E → F) e : err_map f e = None ↔ e = None.
Proof. by destruct e. Qed.

(** What [validate_service] has established of an accepted service. *)
Record valid_service (s : Service) : Prop := {
  vs_host : ValidateHost Getenv (svc_Host s) = None;
  vs_name : ValidateSlug (svc_Name s) = None;
  vs_path : ValidatePath (svc_Path s) = None;
  vs_port : ValidatePort (svc_Port s) = None;
  vs_fixed : ValidateFixedQuery s = None;
  vs_auth : Auth_Validate (svc_Auth s) = None;
  vs_subs : ValidateSubstitutions s = None;
}.

Lemma validate_service_None i names s :
  validate_service i names s = None → valid_service s ∧ svc_Name s ∉ names.*1.
Proof.
  unfold validate_service. case_bool_decide; [done|]. destruct (Contains _ _); [done|].
  rewrite or_else_None, err_map_None. intros [Hh Hr]. case_bool_decide; [done|].
  rewrite or_else_None, err_map_None in Hr. destruct Hr as [Hn Hr].
  destruct (List.find _ names) as [[? ?]|] eqn:E; [done|].
  rewrite !or_else_None, !err_map_None in Hr. destruct Hr as (? & ? & ? & ? & ?).
  split; [by constructor|]. intros ([n k] & Heq & Hin)%list_elem_of_fmap. simpl in Heq. subst.
  eapply List.find_none in E; [|by apply list_elem_of_In]. simpl in E. by case_bool_decide.
Qed.

Lemma validate_services_None l : ∀ i names,
  validate_services i names l = None →
  Forall valid_service l ∧ NoDup (map svc_Name l) ∧ ∀ s, s ∈ l → svc_Name s ∉ names.*1.
Proof.
  induction l as [|s l IH]; intros i names; simpl.
  { intros _. split_and!; [constructor | constructor | set_solver]. }
  rewrite or_else_None. intros [[Hv Hn]%validate_service_None (Hl & Hnd & Hnames)%IH].
  split_and!; [by constructor | |].
  - constructor; [|done]. intros (t & Heq & Ht)%elem_of_map. apply (Hnames t Ht).
    rewrite <- Heq. set_solver.
  - intros t [->|Ht]%elem_of_cons; [done|]. specialize (Hnames t Ht). set_solver.
Qed.

Lemma Validate_None cfg :
  Validate cfg = None →
  ValidateFixedQueryBindings (cfg_Services cfg) = None ∧
  Forall valid_service (cfg_Services cfg) ∧ NoDup (map svc_Name (cfg_Services cfg)).
Proof.
  unfold Validate. case_bool_decide; [done|]. rewrite or_else_None, err_map_None.
  intros [Hb (? & ? & _)%validate_services_None]. done.
Qed.

Lemma bindings_disjoint services i s j other :
  ValidateFixedQueryBindings services = None →
  services !! i = Some s → is_Some (svc_FixedQuery s) →
  services !! j = Some other → i ≠ j → overlaps s other = false.
Proof.
  unfold ValidateFixedQueryBindings. rewrite first_error_None, Forall_forall.
  intros Hall Hi [q Hq] Hj Hne.
  assert (Hin : ∀ k t, services !! k = Some t → (k, t) ∈ indexed services).
  { intros k t Hk. apply list_elem_of_lookup. exists k. unfold indexed.
    by rewrite list_lookup_imap, Hk. }
  specialize (Hall _ (Hin _ _ Hi)). simpl in Hall.
  destruct (ValidateFixedQuery s); [done|]. rewrite Hq in Hall.
  rewrite first_error_None, Forall_forall in Hall. specialize (Hall _ (Hin _ _ Hj)).
  simpl in Hall. case_bool_decide; [done|]. by destruct (overlaps s other).
Qed.

Lemma bare_pattern_plain h : x3a ∉ h → bare_pattern h = h.
Proof.
  intros Hc. unfold bare_pattern. destruct (SplitHostPort h) as [[h' p]|] eqn:E; [|done].
  unfold SplitHostPort in E. by rewrite (proj2 (LastIndexByte_None h x3a)) in E.
Qed.

Lemma ContainsAny_false s chars : ContainsAny s chars = false ↔ ∀ c, c ∈ chars → c ∉ s.
Proof.
  unfold ContainsAny. rewrite existsb_false. split; intros Ha c Hc.
  - intros Hs. specialize (Ha _ Hs). apply ContainsByte_false in Ha. done.
  - apply ContainsByte_false. intros Hs. by apply (Ha c).
Qed.

Lemma fixed_service_shape s q :
  svc_FixedQuery s = Some q → ValidateFixedQuery s = None →
  x2a ∉ svc_Host s ∧ x2a ∉ svc_Path s ∧ svc_Path s ≠ [].
Proof.
  intros Hq. unfold ValidateFixedQuery. rewrite Hq.
  destruct (fixed_shape_bad s q) eqn:E; [done|]. intros _. unfold fixed_shape_bad in E. b2p.
  rewrite !ContainsAny_false in *. split_and!; [| |done]; match goal with H : ∀ c, c ∈ _ → _ |- _ => apply H; vm_compute; left end.
Qed.

Lemma MatchService_selected host port path services :
  selected host port path services
    (fst (MatchService host port path services)) (snd (MatchService host port path services)).
Proof.
  apply (match_loop_selected host port path [] services None zero_score). simpl. set_solver.
Qed.

Lemma overlaps_spec s other :
  overlaps s other = true ↔
  host_matches (svc_Host other) (svc_Host s) ∧ path_matches (svc_Path other) (svc_Path s) ∧
  (∀ p q, svc_Port s = Some p → svc_Port other = Some q → p = q).
Proof.
  unfold overlaps. rewrite !andb_true_iff, matchHostPattern_ok.
  rewrite (proj2 (matchPathGlob_spec _ _)).
  destruct (svc_Port s), (svc_Port other); rewrite ?Z.eqb_eq; naive_solver.
Qed.

(** In a validated configuration service names are pairwise distinct, and a
    service with fixed query parameters is the one [MatchService] picks for its
    own host and path on every port it serves: no other entry of the list, exact
    or wildcard, can take the request and drop the configured parameters. *)
Theorem Validate_fixed_query_exclusive cfg i s q port
  (Hvalid : Validate cfg = None)
  (Hi : cfg_Services cfg !! i = Some s) (Hq : svc_FixedQuery s = Some q)
  (Htrim : TrimSpace (svc_Host s) = svc_Host s)
  (Hport : svc_Port s = None ∨ svc_Port s = Some port) :
  NoDup (map svc_Name (cfg_Services cfg)) ∧
  fst (MatchService (svc_Host s) port (svc_Path s) (cfg_Services cfg)) = Some s ∧
  ∀ j other, cfg_Services cfg !! j = Some other →
    service_matches (svc_Host s) port (svc_Path s) other → j = i.
Proof.
  apply Validate_None in Hvalid as (Hb & Hvs & Hnd). split; [done|].
  assert (Hother : ∀ j other, cfg_Services cfg !! j = Some other →
    service_matches (svc_Host s) port (svc_Path s) other → j = i).
  { intros j other Hj (Hh & Hp & Hpath). destruct (decide (i = j)) as [|Hne]; [done|exfalso].
    assert (overlaps s other = true); [|by erewrite bindings_disjoint in * by eauto].
    apply overlaps_spec. split_and!; [done..|]. naive_solver. }
  split; [|exact Hother].
  assert (Hs : valid_service s) by (eapply Forall_lookup_1; eauto).
  destruct (fixed_service_shape s q Hq (vs_fixed _ Hs)) as (_ & Hstar & _).
  assert (Hself : service_matches (svc_Host s) port (svc_Path s) s).
  { split_and!; [|done|].
    - left. apply bare_pattern_plain. by eapply ValidateHost_plain, vs_host.
    - right. by apply glob_literal. }
  pose proof (MatchService_selected (svc_Host s) port (svc_Path s) (cfg_Services cfg)) as Hsel.
  destruct (fst (MatchService _ _ _ _)) as [best|]; simpl in Hsel.
  - destruct Hsel as (k & Hk & Hm & _). by rewrite (Hother k best Hk Hm), Hi in Hk.
  - exfalso. apply (Hsel s); [|done]. by eapply list_elem_of_lookup_2.
Qed.
End Validate.

Definition fixed_sample : Config :=
  {| cfg_Vault := #"default";
     cfg_Services :=
       [ {| svc_Name := #"wild"; svc_Host := #"*.example.com"; svc_Path := #"/v1/other/*";
            svc_Port := None; svc_Enabled := None; svc_Auth := sample_auth;
            svc_Substitutions := []; svc_FixedQuery := None |};
         {| svc_Name := #"rates"; svc_Host := #"api.example.com"; svc_Path := #"/v1/rates";
            svc_Port := None; svc_Enabled := None; svc_Auth := sample_auth;
            svc_Substitutions := []; svc_FixedQuery := Some [(#"base", #"USD")] |} ] |}.

Lemma Validate_fixed_query_exclusive_witness :
  @Validate latin1_tables (λ _, []) fixed_sample = None ∧
  svc_Name <$> fst (MatchService #"api.example.com" 443 #"/v1/rates" (cfg_Services fixed_sample))
  = Some #"rates".
Proof.
  assert (Hv : @Validate latin1_tables (λ _, []) fixed_sample = None) by (by vm_compute).
  split; [exact Hv|].
  pose proof (@Validate_fixed_query_exclusive latin1_tables (λ _, []) fixed_sample 1 _ _ 443 Hv
    eq_refl eq_refl eq_refl (or_introl eq_refl)) as (_ & H & _).
  change (svc_Host _) with #"api.example.com" in H. change (svc_Path _) with #"/v1/rates" in H.
  by rewrite H.
Defined.

(** ** Reading fixed parameters *)

Lemma read_pairs_NoDup n : ∀ ts parsed q, (length ts <= n)%nat →
  NoDup parsed.*1 → read_pairs ts parsed = Ok q → NoDup q.*1.
Proof.
  induction n as [|n IH]; intros ts parsed q Hlen Hnd; destruct ts as [|t ts]; simpl in *; try done; [lia|].
  destruct t as [c|key| |]; simpl; try done.
  - destruct (_ || _); simpl; congruence.
  - case_bool_decide; [done|]. destruct ts as [|[c|value| |] ts]; try done. apply IH; simpl in *; [lia|].
    rewrite fmap_app. apply NoDup_app. split_and!; [done | set_solver | apply NoDup_singleton].
Qed.
