(* ===== verification/RateLimit.v ===== *)
(** * Rate-limit tiers and configuration
    ([internal/ratelimit/ratelimit.go], [config.go])

    [ParseFloat] and [ParseDuration] are arguments of [LoadFromEnv]: its result
    is described for every reading of the variables' values. *)

From S2P Require Import Prelude GoString GoStrconv.

Inductive Tier := TierAuth | TierProxy | TierAuthed | TierGlobal | TierVerifyFailure.
#[global] Instance Tier_eq_dec : EqDecision Tier.
Proof. solve_decision. Defined.

Definition AllTiers : list Tier := [TierAuth; TierProxy; TierAuthed; TierGlobal; TierVerifyFailure].

Definition Tier_String (t : Tier) : bytes :=
  match t with
  | TierAuth => #"AUTH" | TierProxy => #"PROXY" | TierAuthed => #"AUTHED"
  | TierGlobal => #"GLOBAL" | TierVerifyFailure => #"VERIFY_FAIL"
  end.

Definition TierByName (name : bytes) : option Tier :=
  List.find (λ t, bool_decide (Tier_String t = name)) AllTiers.

Inductive Algorithm := AlgSliding | AlgTokenBucket | AlgSemaphore | AlgFailureCounter.

Record Decision := {
  Allow : bool;
  RetryAfter : Z;
  Remaining : Z;
  Limit : Z;
  Reason : bytes;
}.

Definition Deny (reason : bytes) (retryAfter limit : Z) : Decision :=
  {| Allow := false; RetryAfter := retryAfter; Remaining := 0; Limit := limit; Reason := reason |}.
Definition AllowOK (remaining limit : Z) : Decision :=
  {| Allow := true; RetryAfter := 0; Remaining := remaining; Limit := limit; Reason := [] |}.

(** ** Configuration *)

Record TierConfig := {
  tc_Algorithm : Algorithm;
  tc_Rate : float64;
  tc_Burst : Z;
  tc_Window : Z;
  tc_Max : Z;
  tc_Concurrency : Z;
  tc_MaxKeys : Z;
}.

(** The zero value of the struct. *)
Definition zero_tier : TierConfig :=
  {| tc_Algorithm := AlgSliding; tc_Rate := fzero; tc_Burst := 0; tc_Window := 0;
     tc_Max := 0; tc_Concurrency := 0; tc_MaxKeys := 0 |}.

(** The array of tiers is a function of the index. *)
Record Config := {
  rl_Profile : bytes;
  rl_Off : bool;
  rl_Locked : bool;
  rl_Tiers : Tier → TierConfig;
}.

Definition set_tier {A} (f : Tier → A) (t : Tier) (x : A) : Tier → A :=
  λ u, if bool_decide (u = t) then x else f u.

Definition ProfileDefault : bytes := #"default".
Definition ProfileStrict : bytes := #"strict".
Definition ProfileLoose : bytes := #"loose".
Definition ProfileOff : bytes := #"off".
Definition defaultMaxKeys : Z := 200000.

Definition profileMultiplier (p : bytes) : float64 :=
  if bool_decide (p = ProfileStrict) then fconst 1 2
  else if bool_decide (p = ProfileLoose) then of_int 2 else of_int 1.

Definition scaleMax (base : Z) (mul : float64) : Z :=
  let v := to_int (fmul (of_int base) mul) in if v <? 1 then 1 else v.

Definition scaleRate (base mul : float64) : float64 :=
  let v := fmul base mul in if fle v fzero then fconst 1 10 else v.

Definition DefaultsFor (profile : bytes) : Config :=
  if bool_decide (profile = ProfileOff)
  then {| rl_Profile := profile; rl_Off := true; rl_Locked := false; rl_Tiers := λ _, zero_tier |}
  else
    let mul := profileMultiplier profile in
    {| rl_Profile := profile; rl_Off := false; rl_Locked := false;
       rl_Tiers := λ t,
         match t with
         | TierAuth =>
             {| tc_Algorithm := AlgSliding; tc_Rate := fzero; tc_Burst := 0; tc_Window := 5 * Minute;
                tc_Max := scaleMax 50 mul; tc_Concurrency := 0; tc_MaxKeys := defaultMaxKeys |}
         | TierProxy =>
             {| tc_Algorithm := AlgTokenBucket; tc_Rate := scaleRate (of_int 200) mul;
                tc_Burst := scaleMax 2000 mul; tc_Window := 0; tc_Max := 0;
                tc_Concurrency := scaleMax 1024 mul; tc_MaxKeys := defaultMaxKeys |}
         | TierAuthed =>
             {| tc_Algorithm := AlgTokenBucket; tc_Rate := scaleRate (of_int 10) mul;
                tc_Burst := scaleMax 240 mul; tc_Window := 0; tc_Max := 0;
                tc_Concurrency := 0; tc_MaxKeys := defaultMaxKeys |}
         | TierGlobal =>
             {| tc_Algorithm := AlgSliding; tc_Rate := of_int (scaleMax 20000 mul);
                tc_Burst := scaleMax 40000 mul; tc_Window := 0; tc_Max := 0;
                tc_Concurrency := scaleMax 10000 mul; tc_MaxKeys := 0 |}
         | TierVerifyFailure =>
             {| tc_Algorithm := AlgFailureCounter; tc_Rate := fzero; tc_Burst := 0; tc_Window := 0;
                tc_Max := scaleMax 10 mul; tc_Concurrency := 0; tc_MaxKeys := defaultMaxKeys |}
         end |}.

Record EnvSetMask := {
  m_Rate : bool; m_Burst : bool; m_Window : bool; m_Max : bool; m_Concurrency : bool }.
Definition no_mask : EnvSetMask :=
  {| m_Rate := false; m_Burst := false; m_Window := false; m_Max := false; m_Concurrency := false |}.
Definition Any (m : EnvSetMask) : bool :=
  m_Rate m || m_Burst m || m_Window m || m_Max m || m_Concurrency m.

Section Env.
Context `{UnicodeTables}.
Context (Getenv : bytes → bytes) (ParseFloat : bytes → option float64)
        (ParseDuration : bytes → option Z).

(** A variable that is set and readable. *)
Definition knob {A} (parse : bytes → option A) (name : bytes) : option A :=
  let v := Getenv name in if bool_decide (v = []) then None else parse v.

Definition or_default {A} (o : option A) (d : A) : A := match o with Some a => a | None => d end.
Definition given {A} (o : option A) : bool := match o with Some _ => true | None => false end.

(** One iteration of the loop over the tiers. *)
Definition load_tier (t : Tier) (tc : TierConfig) : TierConfig * EnvSetMask :=
  let prefix := #"AGENT_VAULT_RATELIMIT_" ++ Tier_String t ++ #"_" in
  let rate := knob ParseFloat (prefix ++ #"RATE") in
  let burst := knob Atoi (prefix ++ #"BURST") in
  let window := knob ParseDuration (prefix ++ #"WINDOW") in
  let max := knob Atoi (prefix ++ #"MAX") in
  let conc := knob Atoi (prefix ++ #"CONCURRENCY") in
  ({| tc_Algorithm := tc_Algorithm tc; tc_Rate := or_default rate (tc_Rate tc);
      tc_Burst := or_default burst (tc_Burst tc); tc_Window := or_default window (tc_Window tc);
      tc_Max := or_default max (tc_Max tc); tc_Concurrency := or_default conc (tc_Concurrency tc);
      tc_MaxKeys := tc_MaxKeys tc |},
   {| m_Rate := given rate; m_Burst := given burst; m_Window := given window;
      m_Max := given max; m_Concurrency := given conc |}).

Definition LoadFromEnv : Config * (Tier → EnvSetMask) :=
  let profile := ToLower (Getenv #"AGENT_VAULT_RATELIMIT_PROFILE") in
  let profile := if bool_decide (profile = []) then ProfileDefault else profile in
  let d := DefaultsFor profile in
  let locked := EqualFoldASCII (Getenv #"AGENT_VAULT_RATELIMIT_LOCK") #"true" in
  let with_tiers tiers := {| rl_Profile := rl_Profile d; rl_Off := rl_Off d;
                             rl_Locked := locked; rl_Tiers := tiers |} in
  if rl_Off d then (with_tiers (rl_Tiers d), λ _, no_mask)
  else (with_tiers (λ t, fst (load_tier t (rl_Tiers d t))),
        λ t, snd (load_tier t (rl_Tiers d t))).
End Env.

(** [if ov.X != 0 { c.X = ov.X }], for every knob. *)
Definition override_int (ov cur : Z) : Z := if ov =? 0 then cur else ov.
Definition override_tier (ov tc : TierConfig) : TierConfig :=
  {| tc_Algorithm := tc_Algorithm tc;
     tc_Rate := if feq (tc_Rate ov) fzero then tc_Rate tc else tc_Rate ov;
     tc_Burst := override_int (tc_Burst ov) (tc_Burst tc);
     tc_Window := override_int (tc_Window ov) (tc_Window tc);
     tc_Max := override_int (tc_Max ov) (tc_Max tc);
     tc_Concurrency := override_int (tc_Concurrency ov) (tc_Concurrency tc);
     tc_MaxKeys := tc_MaxKeys tc |}.

(** The overrides of distinct tiers, in the order the map is ranged over. *)
Definition ApplyOverrides (c : Config) (overrides : list (Tier * TierConfig)) : Config :=
  {| rl_Profile := rl_Profile c; rl_Off := rl_Off c; rl_Locked := rl_Locked c;
     rl_Tiers := foldl (λ tiers '(t, ov), set_tier tiers t (override_tier ov (tiers t)))
                       (rl_Tiers c) overrides |}.

Definition minAuthFloor : Z := 5.
Definition minGlobalInflight : Z := 32.
Definition minGlobalRPS : Z := 100.

Inductive rl_error := AuthMaxFloor | GlobalConcurrencyFloor | GlobalRateFloor.

Definition Config_Validate (c : Config) : option rl_error :=
  if rl_Off c then None
  else if tc_Max (rl_Tiers c TierAuth) <? minAuthFloor then Some AuthMaxFloor
  else if tc_Concurrency (rl_Tiers c TierGlobal) <? minGlobalInflight then Some GlobalConcurrencyFloor
  else if flt (tc_Rate (rl_Tiers c TierGlobal)) (of_int minGlobalRPS) then Some GlobalRateFloor
  else None.

(** * Failure counters ([internal/ratelimit/failure.go])

    Counts bad verification codes per key.  A recording that overflows the map
    drops one other key, the first one the runtime's range order yields. *)

Record failureCounter := {
  fc_attempts : gmap bytes Z;
  fc_max : Z;
  fc_maxKeys : Z;
}.

Definition newFailureCounter (cfg : TierConfig) : failureCounter :=
  {| fc_attempts := ∅;
     fc_max := if tc_Max cfg <? 1 then 10 else tc_Max cfg;
     fc_maxKeys := if tc_MaxKeys cfg <=? 0 then 10000 else tc_MaxKeys cfg |}.

Definition fc_reconfigure (f : failureCounter) (cfg : TierConfig) : failureCounter :=
  {| fc_attempts := fc_attempts f;
     fc_max := if 0 <? tc_Max cfg then tc_Max cfg else fc_max f;
     fc_maxKeys := if 0 <? tc_MaxKeys cfg then tc_MaxKeys cfg else fc_maxKeys f |}.

Definition failures_of (f : failureCounter) (key : bytes) : Z := default 0 (fc_attempts f !! key).

Definition fc_check (f : failureCounter) (key : bytes) : bool := failures_of f key <? fc_max f.

Definition set_fc (f : failureCounter) (m : gmap bytes Z) : failureCounter :=
  {| fc_attempts := m; fc_max := fc_max f; fc_maxKeys := fc_maxKeys f |}.

(** The first entry of the range order other than [key]. *)
Fixpoint victim (order : list bytes) (m : gmap bytes Z) (key : bytes) : option bytes :=
  match order with
  | [] => None
  | k :: order' =>
      if bool_decide (is_Some (m !! k)) && negb (bool_decide (k = key)) then Some k
      else victim order' m key
  end.

Definition record (f : failureCounter) (order : list bytes) (key : bytes) : failureCounter :=
  let m := <[key := failures_of f key + 1]> (fc_attempts f) in
  if (0 <? fc_maxKeys f) && (fc_maxKeys f <? Z.of_nat (size m)) then
    match victim order m key with
    | Some k => set_fc f (delete k m)
    | None => set_fc f m
    end
  else set_fc f m.

Definition reset (f : failureCounter) (key : bytes) : failureCounter :=
  set_fc f (delete key (fc_attempts f)).

(** ** What a key's counter says *)

Inductive fc_op := Record (key : bytes) (order : list bytes) | Reset (key : bytes).

Definition fc_step (f : failureCounter) (o : fc_op) : failureCounter :=
  match o with Record k order => record f order k | Reset k => reset f k end.

(** Failures of [key] since its last reset, in a sequence of operations. *)
Fixpoint since_reset (key : bytes) (n : Z) (ops : list fc_op) : Z :=
  match ops with
  | [] => n
  | Record k _ :: ops' => since_reset key (if bool_decide (k = key) then n + 1 else n) ops'
  | Reset k :: ops' => since_reset key (if bool_decide (k = key) then 0 else n) ops'
  end.

Lemma victim_other order m key k : victim order m key = Some k → k ≠ key ∧ is_Some (m !! k).
Proof.
  induction order as [|x order IH]; simpl; [done|].
  destruct (bool_decide (is_Some (m !! x))) eqn:E1; simpl; [|done].
  destruct (bool_decide (x = key)) eqn:E2; simpl; [done|]. intros [= <-]. by b2p.
Qed.

Lemma record_self f order key : failures_of (record f order key) key = failures_of f key + 1.
Proof.
  unfold record, failures_of, set_fc. destruct (_ && _); simpl.
  - destruct (victim order _ key) as [k|] eqn:E; simpl; [|by rewrite lookup_insert_eq].
    apply victim_other in E as [Hk _]. by rewrite lookup_delete_ne, lookup_insert_eq.
  - by rewrite lookup_insert_eq.
Qed.

Lemma record_other f order key k :
  k ≠ key → failures_of (record f order key) k = failures_of f k ∨ failures_of (record f order key) k = 0.
Proof.
  intros Hk. unfold record, failures_of, set_fc. destruct (_ && _); simpl.
  - destruct (victim order _ key) as [v|]; simpl; [|left; by rewrite lookup_insert_ne].
    destruct (decide (k = v)) as [->|Hv]; [right; by rewrite lookup_delete_eq|left].
    by rewrite lookup_delete_ne, lookup_insert_ne.
  - left. by rewrite lookup_insert_ne.
Qed.

Lemma fc_step_max f o : fc_max (fc_step f o) = fc_max f.
Proof. destruct o; simpl; [unfold record; repeat case_match|]; done. Qed.

Lemma failures_upper ops : ∀ f key n,
  0 <= n → failures_of f key <= n → failures_of (foldl fc_step f ops) key <= since_reset key n ops.
Proof.
  induction ops as [|[k order|k] ops IH]; intros f key n Hn Hle; simpl; [done| |].
  - case_bool_decide as Hk; [subst; apply IH; [lia|rewrite record_self; lia]|].
    apply IH; [done|]. destruct (record_other f order k key) as [-> | ->]; [done|done|done].
  - case_bool_decide as Hk; apply IH; try done; unfold failures_of, reset, set_fc; simpl.
    + subst. by rewrite lookup_delete_eq.
    + by rewrite lookup_delete_ne.
Qed.

Lemma record_size f order key :
  (∀ k, is_Some (fc_attempts f !! k) → k ∈ order) → 1 <= fc_maxKeys f →
  Z.of_nat (size (fc_attempts f)) <= fc_maxKeys f →
  Z.of_nat (size (fc_attempts (record f order key))) <= fc_maxKeys f.
Proof.
  intros Hr Hcap Hsz. unfold record. set (m := <[key := _]> (fc_attempts f)).
  assert (Hm : Z.of_nat (size m) <= Z.of_nat (size (fc_attempts f)) + 1).
  { unfold m. rewrite map_size_insert. destruct (_ !! key); simpl; lia. }
  destruct (Z.ltb_spec 0 (fc_maxKeys f)); [|lia]. simpl.
  destruct (Z.ltb_spec (fc_maxKeys f) (Z.of_nat (size m))); [|done].
  destruct (victim order m key) as [k|] eqn:E; simpl.
  - apply victim_other in E as [_ [x Hx]]. rewrite map_size_delete, Hx. simpl.
    assert (size m ≠ 0%nat) by (eapply map_size_ne_0_lookup_2; eauto). lia.
  - exfalso. assert (∃ k x, delete key m !! k = Some x) as (k & x & Hk).
    { assert (is_Some (m !! key)) as [y Hy] by (unfold m; rewrite lookup_insert_eq; eauto).
      apply map_size_ne_0_lookup_1. rewrite map_size_delete, Hy. simpl. lia. }
    apply lookup_delete_Some in Hk as [Hne Hk]. unfold m in Hk. rewrite lookup_insert_ne in Hk by done.
    assert (k ∈ order) as Hin by (apply Hr; eauto). clear -E Hin Hk Hne.
    assert (is_Some (m !! k)) as Hs by (unfold m; rewrite lookup_insert_ne by done; eauto).
    clearbody m. induction order as [|y order IH]; [by apply not_elem_of_nil in Hin|]. simpl in E.
    destruct (bool_decide (is_Some (m !! y)) && negb (bool_decide (y = key))) eqn:B; [done|].
    apply elem_of_cons in Hin as [->|Hin]; [|by apply IH].
    rewrite bool_decide_eq_true_2, bool_decide_eq_false_2 in B by done. done.
Qed.

(** Every recording's range order visits the entries of the map it finds. *)
Fixpoint covers (f : failureCounter) (ops : list fc_op) : Prop :=
  match ops with
  | [] => True
  | o :: ops' =>
      match o with
      | Record _ order => ∀ k, is_Some (fc_attempts f !! k) → k ∈ order
      | Reset _ => True
      end ∧ covers (fc_step f o) ops'
  end.

Lemma fc_run_size ops : ∀ f,
  1 <= fc_maxKeys f → Z.of_nat (size (fc_attempts f)) <= fc_maxKeys f → covers f ops →
  Z.of_nat (size (fc_attempts (foldl fc_step f ops))) <= fc_maxKeys f.
Proof.
  induction ops as [|o ops IH]; intros f Hcap Hsz Hc; simpl; [done|]. destruct Hc as [Ho Hc].
  assert (fc_maxKeys (fc_step f o) = fc_maxKeys f) as Hk
    by (destruct o; simpl; [unfold record; repeat case_match|]; done).
  rewrite <- Hk. apply IH; rewrite ?Hk; [done| |done].
  destruct o as [k order|k]; simpl; [by apply record_size|].
  rewrite map_size_delete. destruct (_ !! k); simpl; lia.
Qed.

(** Over any history of failures and resets, the map of counters stays
    within [maxKeys] in every range order; a key whose failures since its last
    reset are below the cap is never locked out, whatever other keys do; and a
    recorded failure always counts for its own key. *)
Theorem failure_counter_sound cfg ops key order
  (Hcovers : covers (newFailureCounter cfg) ops) :
  let f := foldl fc_step (newFailureCounter cfg) ops in
  Z.of_nat (size (fc_attempts f)) <= fc_maxKeys (newFailureCounter cfg) ∧
  (since_reset key 0 ops < fc_max f → fc_check f key = true) ∧
  failures_of (record f order key) key = failures_of f key + 1 ∧
  failures_of (reset f key) key = 0.
Proof.
  cbv zeta. set (f := foldl fc_step (newFailureCounter cfg) ops). split_and!.
  - assert (1 <= fc_maxKeys (newFailureCounter cfg)) as Hcap
      by (unfold newFailureCounter; simpl; destruct (Z.leb_spec (tc_MaxKeys cfg) 0); lia).
    apply fc_run_size; [done| |done]. simpl fc_attempts. rewrite map_size_empty. lia.
  - intros Hlt. unfold fc_check. apply Z.ltb_lt.
    assert (failures_of f key <= since_reset key 0 ops) by (apply failures_upper; done). lia.
  - apply record_self.
  - unfold failures_of, reset, set_fc. simpl. by rewrite lookup_delete_eq.
Qed.

Lemma failure_counter_sound_witness :
  let f := foldl fc_step (newFailureCounter zero_tier) [Record #"a" []; Record #"a" [ #"a"]; Reset #"b"] in
  fc_check f #"a" = true ∧ failures_of (record f [ #"a"] #"a") #"a" = 3.
Proof.
  cbv zeta.
  destruct (failure_counter_sound zero_tier [Record #"a" []; Record #"a" [ #"a"]; Reset #"b"] #"a" [ #"a"])
    as (_ & H1 & H2 & _).
  - simpl. split_and!; [|intros k [x Hx]|done|done].
    + intros k [x Hx]. by rewrite lookup_empty in Hx.
    + change ((<[ #"a" := 1]> ∅ : gmap bytes Z) !! k = Some x) in Hx.
      apply lookup_insert_Some in Hx as [[<- _]|[_ Hx]]; [left|by rewrite lookup_empty in Hx].
  - split; [apply H1; reflexivity|]. rewrite H2. reflexivity.
Defined.
