(* ===== verification/SlidingWindow.v ===== *)
(** * Sliding-window limiter ([internal/ratelimit/sliding.go])

    Every operation runs under the limiter's mutex and reads the clock there,
    so a history is a sequence of operations at nondecreasing instants.  The
    reference limiter [Ref] remembers every admitted event for ever and counts
    those inside the window; the limiter, which drops old events and evicts
    cold keys, is proved to give the same decisions. *)

From Stdlib Require Import Sorting.Sorted.
From S2P Require Import Prelude RateLimit.

Record slidingWindow := {
  attempts : gmap bytes (list Z);
  window : Z;
  max : Z;
  maxKeys : Z;
}.

Definition newSlidingWindow (cfg : TierConfig) : slidingWindow :=
  {| attempts := ∅;
     window := if tc_Window cfg <=? 0 then 5 * Minute else tc_Window cfg;
     max := if tc_Max cfg <? 1 then 1 else tc_Max cfg;
     maxKeys := if tc_MaxKeys cfg <=? 0 then 10000 else tc_MaxKeys cfg |}.

Definition set_attempts (l : slidingWindow) (m : gmap bytes (list Z)) : slidingWindow :=
  {| attempts := m; window := window l; max := max l; maxKeys := maxKeys l |}.

Definition reconfigure (l : slidingWindow) (cfg : TierConfig) : slidingWindow :=
  {| attempts := attempts l;
     window := if 0 <? tc_Window cfg then tc_Window cfg else window l;
     max := if 0 <? tc_Max cfg then tc_Max cfg else max l;
     maxKeys := if 0 <? tc_MaxKeys cfg then tc_MaxKeys cfg else maxKeys l |}.

(** The events of a key: a missing map entry reads as the nil slice. *)
Definition events (m : gmap bytes (list Z)) (key : bytes) : list Z := default [] (m !! key).

Definition after (cutoff t : Z) : bool := cutoff <? t.

(** [len(v) == 0 || v[len(v)-1].Before(cutoff)] *)
Definition cold (cutoff : Z) (v : list Z) : bool :=
  match last v with None => true | Some t => t <? cutoff end.

(** The eviction loop; it deletes the entries it ranges over independently of
    each other, so its order does not matter. *)
Definition evict (l : slidingWindow) (cutoff : Z) (m : gmap bytes (list Z)) : gmap bytes (list Z) :=
  if (0 <? maxKeys l) && (maxKeys l <? Z.of_nat (size m))
  then filter (λ kv, cold cutoff (snd kv) = false) m else m.

Definition retry_after (l : slidingWindow) (now : Z) (recent : list Z) : Z :=
  let wait := match recent with [] => 0 | t :: _ => time_Sub (time_Add t (window l)) now end in
  if wait <? Second then Second else wait.

Definition allow (l : slidingWindow) (now : Z) (key : bytes) : slidingWindow * Decision :=
  let cutoff := time_Add now (- window l) in
  let recent := List.filter (after cutoff) (events (attempts l) key) in
  let m := <[key := recent]> (attempts l) in
  let n := Z.of_nat (length recent) in
  if max l <=? n then (set_attempts l m, Deny #"rate" (retry_after l now recent) (max l))
  else
    let m := <[key := recent ++ [now]]> m in
    (set_attempts l (evict l cutoff m), AllowOK (max l - n - 1) (max l)).

Definition check (l : slidingWindow) (now : Z) (key : bytes) : slidingWindow * Decision :=
  let cutoff := time_Add now (- window l) in
  let recent := List.filter (after cutoff) (events (attempts l) key) in
  let m := <[key := recent]> (attempts l) in
  let n := Z.of_nat (length recent) in
  if max l <=? n then (set_attempts l m, Deny #"rate" (retry_after l now recent) (max l))
  else (set_attempts l (evict l cutoff m), AllowOK (max l - n) (max l)).

(** ** Operation sequences *)

Inductive op := OpAllow (key : bytes) | OpCheck (key : bytes) | OpReconf (cfg : TierConfig).

Definition step (l : slidingWindow) (now : Z) (o : op) : slidingWindow * option Decision :=
  match o with
  | OpAllow k => let '(l', d) := allow l now k in (l', Some d)
  | OpCheck k => let '(l', d) := check l now k in (l', Some d)
  | OpReconf cfg => (reconfigure l cfg, None)
  end.

Fixpoint run (l : slidingWindow) (ops : list (Z * op)) : slidingWindow * list (option Decision) :=
  match ops with
  | [] => (l, [])
  | (now, o) :: ops' =>
      let '(l1, d) := step l now o in
      let '(l2, ds) := run l1 ops' in (l2, d :: ds)
  end.

(** ** The reference limiter *)

Module Ref.
Record t := { hist : list (bytes * Z); window : Z; max : Z }.

(** Admitted events of a key, oldest first. *)
Definition of_key (h : list (bytes * Z)) (key : bytes) : list Z :=
  omap (λ '(k, t), if bool_decide (k = key) then Some t else None) h.

Definition live (s : t) (now : Z) (key : bytes) : list Z :=
  List.filter (after (now - window s)) (of_key (hist s) key).

Definition retry (s : t) (now : Z) (l : list Z) : Z :=
  Z.max Second (match l with [] => 0 | e :: _ => time_Sub (e + window s) now end).

Definition step (s : t) (now : Z) (o : op) : t * option Decision :=
  match o with
  | OpAllow k =>
      let l := live s now k in
      if max s <=? Z.of_nat (length l) then (s, Some (Deny #"rate" (retry s now l) (max s)))
      else ({| hist := hist s ++ [(k, now)]; window := window s; max := max s |},
            Some (AllowOK (max s - Z.of_nat (length l) - 1) (max s)))
  | OpCheck k =>
      let l := live s now k in
      (s, Some (if max s <=? Z.of_nat (length l) then Deny #"rate" (retry s now l) (max s)
                else AllowOK (max s - Z.of_nat (length l)) (max s)))
  | OpReconf cfg =>
      ({| hist := hist s;
          window := if 0 <? tc_Window cfg then tc_Window cfg else window s;
          max := if 0 <? tc_Max cfg then tc_Max cfg else max s |}, None)
  end.

Fixpoint run (s : t) (ops : list (Z * op)) : t * list (option Decision) :=
  match ops with
  | [] => (s, [])
  | (now, o) :: ops' =>
      let '(s1, d) := step s now o in
      let '(s2, ds) := run s1 ops' in (s2, d :: ds)
  end.
End Ref.

(** Instants do not decrease, starting at [t0]; no reconfiguration widens the
    window (events outside a narrower window are gone for good). *)
Fixpoint timed (t0 w : Z) (ops : list (Z * op)) : Prop :=
  match ops with
  | [] => True
  | (now, o) :: ops' =>
      t0 <= now ∧
      match o with
      | OpReconf cfg =>
          let w' := if 0 <? tc_Window cfg then tc_Window cfg else w in
          w' <= w ∧ timed now w' ops'
      | _ => timed now w ops'
      end
  end.

(** ** Refinement *)

(** The limiter at instant [t0] against the reference: same parameters, stored
    events in order and not in the future, and per key the same live events. *)
Record related (t0 : Z) (l : slidingWindow) (s : Ref.t) : Prop := {
  rel_window : window l = Ref.window s;
  rel_max : max l = Ref.max s;
  rel_sorted : ∀ k, StronglySorted Z.le (events (attempts l) k);
  rel_past : ∀ k t, t ∈ events (attempts l) k → t <= t0;
  rel_live : ∀ k c, t0 - window l <= c →
    List.filter (after c) (events (attempts l) k) = List.filter (after c) (Ref.of_key (Ref.hist s) k);
}.

Lemma events_insert m k v k' :
  events (<[k := v]> m) k' = if bool_decide (k' = k) then v else events m k'.
Proof.
  unfold events. case_bool_decide; [subst; by rewrite lookup_insert_eq|].
  by rewrite lookup_insert_ne.
Qed.

Lemma filter_filter_after c c' l :
  c <= c' → List.filter (after c') (List.filter (after c) l) = List.filter (after c') l.
Proof.
  intros Hc. rewrite lfilter_filter. apply List.filter_ext. intros t. unfold after.
  destruct (Z.ltb_spec c t), (Z.ltb_spec c' t); simpl; lia || done.
Qed.

Lemma sorted_filter c l : StronglySorted Z.le l → StronglySorted Z.le (List.filter (after c) l).
Proof.
  induction 1 as [|t l Hs IH Hall]; simpl; [constructor|].
  case_match; [constructor|]; auto with vault.
Qed.

Lemma sorted_snoc l t :
  StronglySorted Z.le l → (∀ u, u ∈ l → u <= t) → StronglySorted Z.le (l ++ [t]).
Proof.
  induction 1 as [|u l Hs IH Hall]; intros Hle; simpl; [repeat constructor|].
  constructor; [apply IH; set_solver|]. apply Forall_app; split; [done|].
  constructor; [apply Hle; set_solver|constructor].
Qed.

Lemma sorted_last_max l t : StronglySorted Z.le l → last l = Some t → ∀ u, u ∈ l → u <= t.
Proof.
  induction 1 as [|v l Hs IH Hall]; [done|]. destruct l as [|w l].
  - intros [= <-] u ->%list_elem_of_singleton. done.
  - intros Hl u [->|Hu]%elem_of_cons; [|by apply IH].
    rewrite Forall_forall in Hall. apply Hall.
    change (last (w :: l) = Some t) in Hl.
    apply last_Some in Hl as [l' Hl]. rewrite Hl. set_solver.
Qed.

(** Eviction removes whole keys, and only keys with no event after the cutoff. *)
Lemma events_evict l c m k :
  events (evict l c m) k = events m k ∨ events (evict l c m) k = [] ∧ cold c (events m k) = true.
Proof.
  unfold evict. destruct (_ && _); [|by left]. unfold events.
  rewrite map_lookup_filter. destruct (m !! k) as [v|]; simpl; [|by left].
  destruct (cold c v) eqn:E; [right|left].
  - split; [|done]. by rewrite option_guard_False by congruence.
  - by rewrite option_guard_True by done.
Qed.

Lemma cold_filter c c' v :
  StronglySorted Z.le v → cold c v = true → c <= c' → List.filter (after c') v = [].
Proof.
  unfold cold. intros Hs Hc Hle. destruct (last v) as [t|] eqn:E.
  - apply lfilter_none, Forall_forall. intros u Hu.
    pose proof (sorted_last_max _ _ Hs E u Hu). b2p. unfold after. apply Z.ltb_ge. lia.
  - by apply last_None in E as ->.
Qed.

(** What the limiter keeps of a key's events after an operation on [key]. *)
Definition kept (l : slidingWindow) (c : Z) (key : bytes) (v : list Z) : slidingWindow :=
  set_attempts l (evict l c (<[key := v]> (attempts l))).

Lemma of_key_snoc h k t k' :
  Ref.of_key (h ++ [(k, t)]) k' = Ref.of_key h k' ++ (if bool_decide (k = k') then [t] else []).
Proof. unfold Ref.of_key. rewrite omap_app. simpl. by case_bool_decide. Qed.

Section Step.
Context (t0 now : Z) (l : slidingWindow) (s : Ref.t).
Context (Hrel : related t0 l s) (Hnow : t0 <= now).

Let cutoff := time_Add now (- window l).
Let recent (key : bytes) := List.filter (after cutoff) (events (attempts l) key).

Lemma recent_live (key : bytes) : recent key = Ref.live s now key.
Proof.
  unfold recent, Ref.live, cutoff, time_Add. rewrite <- (rel_window _ _ _ Hrel).
  rewrite (rel_live _ _ _ Hrel) by lia. f_equal.
Qed.

(** Storing a key's recent events, with or without the new one, then evicting,
    keeps the relation. *)
Lemma related_store (key : bytes) (extra : list Z) (m : gmap bytes (list Z)) :
  extra = [] ∨ extra = [now] →
  m = <[key := recent key ++ extra]> (attempts l) ∨
  m = evict l cutoff (<[key := recent key ++ extra]> (attempts l)) →
  related now (set_attempts l m)
    {| Ref.hist := Ref.hist s ++ map (λ t, (key, t)) extra;
       Ref.window := Ref.window s; Ref.max := Ref.max s |}.
Proof.
  intros Hex Hm. set (m0 := <[key := recent key ++ extra]> (attempts l)) in *.
  assert (Hp0 : ∀ k t, t ∈ events m0 k → t <= now).
  { intros k t. unfold m0. rewrite events_insert. case_bool_decide.
    - intros [Ht|Ht]%elem_of_app; [|destruct Hex; set_solver].
      apply elem_of_lfilter in Ht as [Ht _]. apply (rel_past _ _ _ Hrel) in Ht. lia.
    - intros Ht%(rel_past _ _ _ Hrel). lia. }
  assert (Hs0 : ∀ k, StronglySorted Z.le (events m0 k)).
  { intros k. unfold m0. rewrite events_insert. case_bool_decide; [|apply Hrel].
    assert (StronglySorted Z.le (recent key)) by (apply sorted_filter, Hrel).
    destruct Hex as [-> | ->]; [by rewrite app_nil_r|]. apply sorted_snoc; [done|].
    intros u [Hu _]%elem_of_lfilter. apply (rel_past _ _ _ Hrel) in Hu. lia. }
  assert (Hl0 : ∀ k c, now - window l <= c → List.filter (after c) (events m0 k) =
    List.filter (after c) (Ref.of_key (Ref.hist s ++ map (λ t, (key, t)) extra) k)).
  { intros k c Hc. unfold m0. rewrite events_insert.
    assert (Hk : Ref.of_key (Ref.hist s ++ map (λ t, (key, t)) extra) k =
      Ref.of_key (Ref.hist s) k ++ (if bool_decide (k = key) then extra else [])).
    { destruct Hex as [-> | ->]; simpl; [|rewrite of_key_snoc]; [rewrite !app_nil_r|];
        repeat case_bool_decide; subst; rewrite ?app_nil_r; done. }
    rewrite Hk. case_bool_decide; subst; rewrite ?app_nil_r, ?lfilter_app.
    - unfold recent. rewrite filter_filter_after by (unfold cutoff, time_Add; lia).
      rewrite (rel_live _ _ _ Hrel) by lia. done.
    - apply Hrel. lia. }
  destruct Hm as [-> | ->]; [by split; simpl; [apply Hrel | apply Hrel | ..]|].
  split; simpl; [apply Hrel | apply Hrel | intros k | intros k t | intros k c Hc];
    destruct (events_evict l cutoff m0 k) as [-> | [-> Hcold]].
  - apply Hs0.
  - constructor.
  - apply Hp0.
  - intros ?. set_solver.
  - by apply Hl0.
  - rewrite <- Hl0 by done. symmetry. eapply cold_filter; eauto.
Qed.
End Step.

Lemma retry_after_ref l s now recent :
  window l = Ref.window s → retry_after l now recent = Ref.retry s now recent.
Proof.
  intros Hw. unfold retry_after, Ref.retry, time_Add. rewrite Hw.
  destruct recent; cbv beta iota zeta;
    match goal with |- (if ?a <? ?b then _ else _) = _ => destruct (Z.ltb_spec a b) end; lia.
Qed.

Lemma step_related t0 now l s o :
  related t0 l s → t0 <= now → 
  (match o with OpReconf cfg => (if 0 <? tc_Window cfg then tc_Window cfg else window l) <= window l | _ => True end) →
  related now (fst (step l now o)) (fst (Ref.step s now o)) ∧
  snd (step l now o) = snd (Ref.step s now o).
Proof.
  intros Hrel Hnow Hw. destruct o as [k|k|cfg]; simpl.
  - unfold allow. pose proof (recent_live _ now _ _ Hrel Hnow k) as Hr. rewrite Hr.
    rewrite (rel_max _ _ _ Hrel). destruct (_ <=? _) eqn:E; simpl.
    + rewrite (retry_after_ref l s) by apply Hrel. split; [|done].
      pose proof (related_store t0 now l s Hrel Hnow k [] _ (or_introl eq_refl) (or_introl eq_refl)) as H.
      simpl in H. rewrite !app_nil_r, Hr in H. by destruct s.
    + split; [|done]. rewrite insert_insert_eq, <- Hr.
      apply (related_store t0 now l s Hrel Hnow k [now]); auto.
  - unfold check. pose proof (recent_live _ now _ _ Hrel Hnow k) as Hr. rewrite Hr.
    rewrite (rel_max _ _ _ Hrel). destruct (_ <=? _) eqn:E; simpl.
    + rewrite (retry_after_ref l s) by apply Hrel. split; [|done].
      pose proof (related_store t0 now l s Hrel Hnow k [] _ (or_introl eq_refl) (or_introl eq_refl)) as H.
      simpl in H. rewrite !app_nil_r, Hr in H. by destruct s.
    + split; [|done].
      pose proof (related_store t0 now l s Hrel Hnow k [] _ (or_introl eq_refl) (or_intror eq_refl)) as H.
      simpl in H. rewrite !app_nil_r, Hr in H. by destruct s.
  - split; [|done]. destruct Hrel as [Hwin Hmax Hs Hp Hl]. split; simpl.
    + by rewrite Hwin.
    + by rewrite Hmax.
    + done.
    + intros k t Ht. specialize (Hp k t Ht). lia.
    + intros k c Hc. apply Hl. lia.
Qed.

Lemma run_related ops : ∀ t0 l s,
  related t0 l s → timed t0 (window l) ops →
  snd (run l ops) = snd (Ref.run s ops) ∧
  ∃ t1, related t1 (fst (run l ops)) (fst (Ref.run s ops)).
Proof.
  induction ops as [|[now o] ops IH]; intros t0 l s Hrel Ht; simpl; [eauto|].
  simpl in Ht. destruct Ht as [Hnow Ht].
  destruct (step_related t0 now l s o Hrel Hnow) as [Hrel' Hd]; [by destruct o; [..|apply Ht]|].
  assert (Ht' : timed now (window (fst (step l now o))) ops).
  { destruct o as [k|k|cfg]; simpl; [| |apply Ht].
    - unfold allow. by destruct (_ <=? _).
    - unfold check. by destruct (_ <=? _). }
  destruct (step l now o) as [l1 d], (Ref.step s now o) as [s1 d']. simpl in *. subst d'.
  specialize (IH _ _ _ Hrel' Ht'). destruct (run l1 ops), (Ref.run s1 ops). simpl in *.
  destruct IH as [-> ?]. done.
Qed.

Lemma related_new t0 cfg :
  related t0 (newSlidingWindow cfg)
    {| Ref.hist := []; Ref.window := window (newSlidingWindow cfg); Ref.max := max (newSlidingWindow cfg) |}.
Proof. split; simpl; try done; intros k; [constructor|]. intros t Ht. by apply not_elem_of_nil in Ht. Qed.

(** The reference limiter a new limiter starts from. *)
Definition Ref_new (cfg : TierConfig) : Ref.t :=
  {| Ref.hist := []; Ref.window := window (newSlidingWindow cfg); Ref.max := max (newSlidingWindow cfg) |}.


Definition tight : TierConfig :=
  {| tc_Algorithm := AlgSliding; tc_Rate := GoStrconv.fzero; tc_Burst := 0; tc_Window := 10 * Second;
     tc_Max := 2; tc_Concurrency := 0; tc_MaxKeys := 1 |}.

Definition tight_ops : list (Z * op) :=
  [(0, OpAllow #"a"); (1 * Second, OpAllow #"b"); (2 * Second, OpAllow #"a");
   (3 * Second, OpCheck #"a"); (4 * Second, OpAllow #"a"); (11 * Second, OpAllow #"a");
   (12 * Second, OpReconf zero_tier); (12 * Second, OpAllow #"c")].


(** ** The admission bound *)

Definition in_window (a w t : Z) : bool := (a <? t) && (t <=? a + w).

(** The instants at which [key] was let through. *)
Fixpoint admitted (key : bytes) (ops : list (Z * op)) (ds : list (option Decision)) : list Z :=
  match ops, ds with
  | (now, OpAllow k) :: ops', Some d :: ds' =>
      if bool_decide (k = key) && Allow d then now :: admitted key ops' ds' else admitted key ops' ds'
  | _ :: ops', _ :: ds' => admitted key ops' ds'
  | _, _ => []
  end.

Definition no_reconf (o : Z * op) : Prop := match snd o with OpReconf _ => False | _ => True end.

(** Every window holds at most [max] admitted events of a key. *)
Definition bounded (s : Ref.t) (t0 : Z) : Prop :=
  ∀ key, (∀ t, t ∈ Ref.of_key (Ref.hist s) key → t <= t0) ∧
    ∀ a, Z.of_nat (length (List.filter (in_window a (Ref.window s)) (Ref.of_key (Ref.hist s) key))) <= Ref.max s.

Lemma window_count_le a w c l :
  c <= a → (length (List.filter (in_window a w) l) <= length (List.filter (after c) l))%nat.
Proof.
  intros Hc. induction l as [|t l IH]; simpl; [done|]. unfold in_window at 1, after at 1.
  destruct (Z.ltb_spec a t), (Z.ltb_spec c t), (Z.leb_spec t (a + w)); simpl; lia.
Qed.

Lemma Ref_step_bounded s t0 now o :
  bounded s t0 → t0 <= now → no_reconf (now, o) → bounded (fst (Ref.step s now o)) now.
Proof.
  intros Hb Hnow Ho.
  assert (Hmono : bounded s now).
  { intros k. destruct (Hb k) as [H1 H2]. split; [|done]. intros t Ht. specialize (H1 t Ht). lia. }
  destruct o as [k|k|cfg]; simpl; [|done|done].
  destruct (Z.leb_spec (Ref.max s) (Z.of_nat (length (Ref.live s now k)))) as [|Hlt]; [done|]. simpl.
  intros key. destruct (Hmono key) as [H1 H2]. simpl. rewrite of_key_snoc. case_bool_decide as Hk.
  2:{ by rewrite app_nil_r. }
  subst key. split; [intros t; rewrite elem_of_app, list_elem_of_singleton; intros [?| ->]; [auto|done]|].
  intros a. rewrite lfilter_app, length_app. simpl.
  destruct (in_window a (Ref.window s) now) eqn:E; simpl; [|specialize (H2 a); lia].
  unfold in_window in E. b2p. pose proof (window_count_le a (Ref.window s) (now - Ref.window s)
    (Ref.of_key (Ref.hist s) k) ltac:(lia)). unfold Ref.live in Hlt. lia.
Qed.

Lemma Ref_step_params s now o :
  no_reconf (now, o) → Ref.window (fst (Ref.step s now o)) = Ref.window s ∧
                       Ref.max (fst (Ref.step s now o)) = Ref.max s.
Proof. destruct o as [k|k|cfg]; simpl; [by case_match|done|done]. Qed.

Lemma Ref_run_bounded ops : ∀ t0 w s,
  bounded s t0 → timed t0 w ops → Forall no_reconf ops →
  Ref.window (fst (Ref.run s ops)) = Ref.window s ∧ Ref.max (fst (Ref.run s ops)) = Ref.max s ∧
  (∃ t1, bounded (fst (Ref.run s ops)) t1) ∧
  ∀ key, Ref.of_key (Ref.hist (fst (Ref.run s ops))) key =
         Ref.of_key (Ref.hist s) key ++ admitted key ops (snd (Ref.run s ops)).
Proof.
  induction ops as [|[now o] ops IH]; intros t0 w s Hb Ht Hn; simpl.
  { split_and!; eauto. intros key. by rewrite app_nil_r. }
  apply Forall_cons in Hn as [Ho Hn]. simpl in Ht. destruct Ht as [Hnow Ht].
  pose proof (Ref_step_bounded s t0 now o Hb Hnow Ho) as Hb'.
  destruct (Ref_step_params s now o Ho) as [Hw Hm].
  assert (Ht' : timed now w ops) by (by destruct o).
  destruct (IH now w _ Hb' Ht' Hn) as (Hw' & Hm' & Hb'' & Hk).
  assert (Hh : ∀ key, Ref.of_key (Ref.hist (fst (Ref.step s now o))) key = Ref.of_key (Ref.hist s) key ++
    match o, snd (Ref.step s now o) with
    | OpAllow k, Some d => if bool_decide (k = key) && Allow d then [now] else []
    | _, _ => []
    end).
  { intros key. destruct o as [k|k|cfg]; simpl; rewrite ?app_nil_r; [|done|done].
    case_match; simpl; rewrite ?andb_false_r, ?app_nil_r, ?of_key_snoc; [done|].
    by rewrite andb_true_r. }
  destruct (Ref.step s now o) as [s1 d] eqn:Es. simpl in *.
  destruct (Ref.run s1 ops) as [s2 ds] eqn:Er. simpl in *.
  split_and!; [congruence | congruence | done |].
  intros key. rewrite Hk, Hh, <- app_assoc. f_equal.
  destruct o as [k|k|cfg]; [| |done]; destruct d as [d|]; try done. by destruct (_ && _).
Qed.

(** Whatever the keys seen, and however many are evicted in between, no
    window of the configured length contains more than [max] admitted attempts
    of one key. *)
Theorem sliding_window_bound cfg t0 ops key a
  (Htimed : timed t0 (window (newSlidingWindow cfg)) ops) (Hfix : Forall no_reconf ops) :
  let l := newSlidingWindow cfg in
  Z.of_nat (length (List.filter (in_window a (window l)) (admitted key ops (snd (run l ops))))) <= max l.
Proof.
  cbv zeta.
  destruct (run_related ops t0 _ _ (related_new t0 cfg) Htimed) as [-> _].
  assert (Hb : bounded (Ref_new cfg) t0).
  { intros k. split; simpl; [intros t Ht; by apply not_elem_of_nil in Ht|].
    intros _. unfold newSlidingWindow. simpl. destruct (Z.ltb_spec (tc_Max cfg) 1); simpl; lia. }
  destruct (Ref_run_bounded ops t0 _ _ Hb Htimed Hfix) as (Hw & Hm & [t1 Hb'] & Hk).
  destruct (Hb' key) as [_ H]. specialize (H a). rewrite Hk, Hw, Hm in H. exact H.
Qed.

Lemma sliding_window_bound_witness :
  admitted #"a" (take 6 tight_ops) (snd (run (newSlidingWindow tight) (take 6 tight_ops)))
    = [0; 2 * Second; 11 * Second] ∧
  Z.of_nat (length (List.filter (in_window (1 * Second) (10 * Second))
    (admitted #"a" (take 6 tight_ops) (snd (run (newSlidingWindow tight) (take 6 tight_ops)))))) <= 2.
Proof.
  split; [by vm_compute|].
  apply (sliding_window_bound tight 0 (take 6 tight_ops) #"a" (1 * Second)).
  - vm_compute; intuition discriminate.
  - repeat constructor.
Defined.
