(* ===== verification/TokenBucket.v ===== *)
(** * Token buckets ([internal/ratelimit/bucket.go])

    Buckets are heap objects the map points to: [allow] keeps its pointer
    across an eviction, so a deduction from an evicted bucket is lost.  Go ranges
    over a map in an order of the runtime's choosing; every pass takes its order
    from the argument [order], the list of keys of pass [i]. *)

From S2P Require Import Prelude GoStrconv RateLimit.

Record bucket := { tokens : float64; lastRefill : Z }.

Record tokenBucketMap := {
  buckets : gmap bytes bucket;
  rate : float64;
  burst : float64;
  maxKeys : Z;
}.

Definition newTokenBucketMap (cfg : TierConfig) : tokenBucketMap :=
  {| buckets := ∅;
     rate := if fle (tc_Rate cfg) fzero then fone else tc_Rate cfg;
     burst := if flt (of_int (tc_Burst cfg)) fone then fone else of_int (tc_Burst cfg);
     maxKeys := if tc_MaxKeys cfg <=? 0 then 10000 else tc_MaxKeys cfg |}.

Definition set_buckets (m : tokenBucketMap) (b : gmap bytes bucket) : tokenBucketMap :=
  {| buckets := b; rate := rate m; burst := burst m; maxKeys := maxKeys m |}.

Definition reconfigure (m : tokenBucketMap) (cfg : TierConfig) : tokenBucketMap :=
  let burst' := of_int (tc_Burst cfg) in
  let clamp b := if flt burst' (tokens b)
                 then {| tokens := burst'; lastRefill := lastRefill b |} else b in
  {| buckets := if 0 <? tc_Burst cfg then clamp <$> buckets m else buckets m;
     rate := if flt fzero (tc_Rate cfg) then tc_Rate cfg else rate m;
     burst := if 0 <? tc_Burst cfg then burst' else burst m;
     maxKeys := if 0 <? tc_MaxKeys cfg then tc_MaxKeys cfg else maxKeys m |}.

(** ** Eviction *)

Definition size_Z {A} (m : gmap bytes A) : Z := Z.of_nat (size m).

(** [b.tokens >= m.burst-0.0001] *)
Definition near_full (full : float64) (b : bucket) : bool :=
  fle (fsub full (fconst 1 10000)) (tokens b).

(** The first pass; [true] when it returned. *)
Fixpoint evict_idle (full : float64) (cap : Z) (order : list bytes) (m : gmap bytes bucket)
  : gmap bytes bucket * bool :=
  match order with
  | [] => (m, false)
  | k :: order' =>
      match m !! k with
      | None => evict_idle full cap order' m          (* no such entry to visit *)
      | Some b =>
          let m' := if near_full full b then delete k m else m in
          if size_Z m' <=? cap then (m', true) else evict_idle full cap order' m'
      end
  end.

(** The entry with the earliest refill, the first of equals in range order. *)
Fixpoint oldest (order : list bytes) (m : gmap bytes bucket) (best : option (bytes * Z))
  : option (bytes * Z) :=
  match order with
  | [] => best
  | k :: order' =>
      match m !! k with
      | None => oldest order' m best
      | Some b =>
          let better := match best with None => true | Some (_, t) => lastRefill b <? t end in
          oldest order' m (if better then Some (k, lastRefill b) else best)
      end
  end.

(** The fallback loop: each pass deletes one entry, so [fuel] entries suffice. *)
Fixpoint evict_oldest (fuel : nat) (cap : Z) (order : nat → list bytes) (pass : nat)
    (m : gmap bytes bucket) : gmap bytes bucket :=
  match fuel with
  | O => m
  | S f =>
      if size_Z m <=? cap then m
      else match oldest (order pass) m None with
           | None => m
           | Some (k, _) =>
               if bool_decide (k = []) then m
               else evict_oldest f cap order (S pass) (delete k m)
           end
  end.

Definition evictIfNeededLocked (order : nat → list bytes) (m : tokenBucketMap) : gmap bytes bucket :=
  if (maxKeys m <=? 0) || (size_Z (buckets m) <=? maxKeys m) then buckets m
  else
    let '(b, returned) := evict_idle (burst m) (maxKeys m) (order 0%nat) (buckets m) in
    if returned then b else evict_oldest (size b) (maxKeys m) order 1 b.

(** ** Admission *)

(** Refill of an existing bucket. *)
Definition refill (m : tokenBucketMap) (now : Z) (b : bucket) : bucket :=
  let elapsed := Seconds (time_Sub now (lastRefill b)) in
  if flt fzero elapsed
  then {| tokens := math_Min (burst m) (fadd (tokens b) (fmul elapsed (rate m))); lastRefill := now |}
  else b.

(** The bucket [allow] works on, and the map after lookup or insertion. *)
Definition fetch (m : tokenBucketMap) (order : nat → list bytes) (now : Z) (key : bytes)
  : gmap bytes bucket * bucket :=
  match buckets m !! key with
  | None =>
      let b := {| tokens := burst m; lastRefill := now |} in
      (evictIfNeededLocked order (set_buckets m (<[key := b]> (buckets m))), b)
  | Some b => let b' := refill m now b in (<[key := b']> (buckets m), b')
  end.

(** A write through the pointer reaches the map only while the entry is there. *)
Definition write_back (m : gmap bytes bucket) (key : bytes) (b : bucket) : gmap bytes bucket :=
  if bool_decide (is_Some (m !! key)) then <[key := b]> m else m.

Definition wait_for_token (m : tokenBucketMap) (b : bucket) : Z :=
  let need := fsub fone (tokens b) in
  let wait := to_int (fmul (fdiv need (rate m)) (of_int Second)) in
  if wait <? Second then Second else wait.

Definition allow (m : tokenBucketMap) (order : nat → list bytes) (now : Z) (key : bytes)
  : tokenBucketMap * Decision :=
  let '(bs, b) := fetch m order now key in
  if fle fone (tokens b) then
    let b' := {| tokens := fsub (tokens b) fone; lastRefill := lastRefill b |} in
    (set_buckets m (write_back bs key b'), AllowOK (to_int (tokens b')) (to_int (burst m)))
  else (set_buckets m bs, Deny #"rate" (wait_for_token m b) (to_int (burst m))).

(** ** The map stays bounded *)

(** An order is a range over the map when it visits every entry. *)
Definition ranges (order : list bytes) (m : gmap bytes bucket) : Prop :=
  ∀ k, is_Some (m !! k) → k ∈ order.

Lemma size_delete (k : bytes) (m : gmap bytes bucket) : is_Some (m !! k) → size_Z (delete k m) = size_Z m - 1.
Proof.
  intros [b Hb]. unfold size_Z. rewrite map_size_delete, Hb.
  assert (size m ≠ 0%nat) by (eapply map_size_ne_0_lookup_2; eauto). simpl. lia.
Qed.

Lemma size_insert_le (k : bytes) (b : bucket) (m : gmap bytes bucket) : size_Z (<[k := b]> m) <= size_Z m + 1.
Proof. unfold size_Z. rewrite map_size_insert. destruct (m !! k); simpl; lia. Qed.

Lemma evict_idle_sub full cap order m : (evict_idle full cap order m).1 ⊆ m.
Proof.
  revert m. induction order as [|k order IH]; intros m; simpl; [done|].
  destruct (m !! k) as [b|]; [|apply IH].
  assert ((if near_full full b then delete k m else m) ⊆ m) as Hsub
    by (case_match; [apply delete_subseteq | done]).
  destruct (_ <=? cap); [done|]. etrans; [apply IH|done].
Qed.

Lemma evict_idle_returned full cap order m m' :
  evict_idle full cap order m = (m', true) → size_Z m' <= cap.
Proof.
  revert m. induction order as [|k order IH]; intros m; simpl; [done|].
  destruct (m !! k) as [b|]; [|apply IH].
  destruct (Z.leb_spec (size_Z (if near_full full b then delete k m else m)) cap); [|apply IH].
  by intros [= <-].
Qed.

Lemma oldest_some order m best :
  is_Some best ∨ (∃ k, k ∈ order ∧ is_Some (m !! k)) →
  (∀ k t, best = Some (k, t) → is_Some (m !! k)) →
  ∃ k t, oldest order m best = Some (k, t) ∧ is_Some (m !! k).
Proof.
  revert best. induction order as [|k order IH]; intros best Hex Hin; simpl.
  - destruct Hex as [[[k t] ->]|(k & Hk & _)]; [eauto|by apply not_elem_of_nil in Hk].
  - destruct (m !! k) as [b|] eqn:E.
    + apply IH; destruct best as [[k0 t0]|]; simpl.
      * left. destruct (_ <? _); eauto.
      * left. eauto.
      * intros k' t. destruct (_ <? _); [intros [= <- <-]; eauto|apply Hin].
      * intros k' t [= <- <-]. eauto.
    + apply IH; [|done]. destruct Hex as [?|(k' & Hk & Hs)]; [by left|].
      apply elem_of_cons in Hk as [->|Hk]; [rewrite E in Hs; by destruct Hs|]. right. eauto.
Qed.

Lemma evict_oldest_bound fuel cap order pass m :
  0 < cap → (∀ i, ranges (order i) m) → m !! [] = None → size_Z m <= cap + Z.of_nat fuel →
  size_Z (evict_oldest fuel cap order pass m) <= cap.
Proof.
  revert pass m. induction fuel as [|fuel IH]; intros pass m Hcap Hr Hne Hs; simpl; [lia|].
  destruct (Z.leb_spec (size_Z m) cap); [done|].
  assert (∃ k, k ∈ order pass ∧ is_Some (m !! k)) as Hex.
  { assert (size m ≠ 0%nat) as Hz by (unfold size_Z in *; lia).
    apply map_size_ne_0_lookup_1 in Hz as (k & b & Hk). exists k. split; eauto. apply Hr; eauto. }
  destruct (oldest_some (order pass) m None (or_intror Hex) ltac:(done)) as (k & t & -> & Hk).
  case_bool_decide; [subst; rewrite Hne in Hk; by destruct Hk|].
  apply IH; [done| | |].
  - intros i k' [b Hb]. apply lookup_delete_Some in Hb as [_ Hb]. apply Hr; eauto.
  - by rewrite lookup_delete_ne.
  - rewrite size_delete by done. lia.
Qed.

Lemma evict_bound order m :
  0 < maxKeys m → (∀ i, ranges (order i) (buckets m)) → buckets m !! [] = None →
  size_Z (evictIfNeededLocked order m) <= maxKeys m ∧ evictIfNeededLocked order m ⊆ buckets m.
Proof.
  intros Hcap Hr Hne. unfold evictIfNeededLocked.
  destruct (Z.leb_spec (maxKeys m) 0); [lia|]. simpl.
  destruct (Z.leb_spec (size_Z (buckets m)) (maxKeys m)); [done|].
  pose proof (evict_idle_sub (burst m) (maxKeys m) (order 0%nat) (buckets m)) as Hsub.
  destruct (evict_idle _ _ _ _) as [b ret] eqn:E. simpl in Hsub. destruct ret.
  - split; [by eapply evict_idle_returned|done].
  - split.
    + apply evict_oldest_bound; [done| | |unfold size_Z; lia].
      * intros i k [x Hk]. apply Hr. exists x. by eapply lookup_weaken.
      * destruct (b !! []) eqn:Eb; [|done]. eapply lookup_weaken in Eb; [|done]. congruence.
    + clear E. etrans; [|exact Hsub]. generalize 1%nat as pass. generalize (size b) as fuel.
      clear -b. intros fuel. revert b. induction fuel as [|fuel IH]; intros b pass; simpl; [done|].
      repeat case_match; try done. etrans; [apply IH|apply delete_subseteq].
Qed.

(** The invariant of a bucket map in use: the registry passes no empty key. *)
Record wf (m : tokenBucketMap) : Prop := {
  wf_cap : 0 < maxKeys m;
  wf_size : size_Z (buckets m) <= maxKeys m;
  wf_keys : buckets m !! [] = None;
}.

Lemma write_back_size bs (key : bytes) (b : bucket) : size_Z (write_back bs key b) = size_Z bs.
Proof.
  unfold write_back. case_bool_decide as H; [|done]. unfold size_Z. f_equal.
  destruct H as [x Hx]. by rewrite map_size_insert, Hx.
Qed.

Lemma write_back_other bs (key k : bytes) (b : bucket) :
  k ≠ key → write_back bs key b !! k = bs !! k.
Proof. intros Hk. unfold write_back. case_bool_decide; [|done]. by rewrite lookup_insert_ne. Qed.

Lemma fetch_facts m order now key :
  wf m → key ≠ [] →
  (∀ i, ranges (order i) (<[key := {| tokens := burst m; lastRefill := now |}]> (buckets m))) →
  size_Z (fetch m order now key).1 <= maxKeys m ∧
  (∀ k b, k ≠ key → (fetch m order now key).1 !! k = Some b → buckets m !! k = Some b).
Proof.
  intros [Hcap Hsize Hempty] Hkey Hr. unfold fetch. destruct (buckets m !! key) as [b|] eqn:E; simpl.
  - split.
    + unfold size_Z in *. rewrite map_size_insert, E. simpl. lia.
    + intros k b' Hk. by rewrite lookup_insert_ne.
  - destruct (evict_bound order (set_buckets m (<[key := {| tokens := burst m; lastRefill := now |}]> (buckets m)))
      Hcap Hr) as [H1 H2]; [simpl; by rewrite lookup_insert_ne|].
    split; [done|]. intros k b Hk Hb. eapply lookup_weaken in Hb; [|exact H2].
    simpl in Hb. by rewrite lookup_insert_ne in Hb.
Qed.

(** Admission keeps the bucket map within [maxKeys] entries for every order
    in which the runtime ranges over it, never changes the bucket of another key
    (it may only forget it), and never stores an entry under the empty key. *)
Theorem token_bucket_bounded m order now key
  (Hwf : wf m) (Hkey : key ≠ [])
  (Horder : ∀ i, ranges (order i) (<[key := {| tokens := burst m; lastRefill := now |}]> (buckets m))) :
  let m' := fst (allow m order now key) in
  wf m' ∧ ∀ k b, k ≠ key → buckets m' !! k = Some b → buckets m !! k = Some b.
Proof.
  cbv zeta. destruct (fetch_facts m order now key Hwf Hkey Horder) as [Hs Ho].
  destruct Hwf as [Hcap Hsize Hempty]. unfold allow.
  destruct (fetch m order now key) as [bs b] eqn:Ef. simpl in Hs, Ho.
  assert (He : bs !! [] = None) by (destruct (bs !! []) eqn:E; [rewrite (Ho [] _ (not_eq_sym Hkey) E) in Hempty; done|done]).
  destruct (fle fone (tokens b)); simpl.
  - split; [split; simpl|].
    + done.
    + by rewrite write_back_size.
    + by rewrite write_back_other.
    + intros k b' Hk. rewrite write_back_other by done. by apply Ho.
  - split; [by split|done].
Qed.

Definition small_cfg (n cap : Z) : TierConfig :=
  {| tc_Algorithm := AlgTokenBucket; tc_Rate := of_int 10; tc_Burst := n; tc_Window := 0;
     tc_Max := 0; tc_Concurrency := 0; tc_MaxKeys := cap |}.

Lemma token_bucket_bounded_witness :
  wf (fst (allow (newTokenBucketMap (small_cfg 3 1)) (λ _, [ #"a"]) 5 #"a")).
Proof.
  apply (token_bucket_bounded (newTokenBucketMap (small_cfg 3 1)) (λ _, [ #"a"]) 5 #"a").
  - split; done.
  - done.
  - intros _ k [b Hb]. apply lookup_insert_Some in Hb as [[<- _]|[_ Hb]]; [by left|].
    simpl in Hb. by rewrite lookup_empty in Hb.
Defined.

(** ** Bursts *)

(** The same key at one instant, [n] times. *)
Fixpoint allow_n (m : tokenBucketMap) (order : nat → list bytes) (now : Z) (key : bytes) (n : nat)
  : tokenBucketMap * list bool :=
  match n with
  | O => (m, [])
  | S n' =>
      let '(m1, d) := allow m order now key in
      let '(m2, ds) := allow_n m1 order now key n' in (m2, Allow d :: ds)
  end.

Lemma refill_now m b : refill m (lastRefill b) b = b.
Proof. unfold refill. replace (time_Sub _ _) with 0 by (unfold time_Sub, min_int64, max_int64; lia). done. Qed.

(** A tracked bucket holding [k] whole tokens, asked again at its refill time. *)
Lemma allow_tracked m order now key k :
  0 <= k < 2 ^ 53 → buckets m !! key = Some {| tokens := of_int k; lastRefill := now |} →
  Allow (snd (allow m order now key)) = (1 <=? k) ∧
  buckets (fst (allow m order now key)) !! key =
    Some {| tokens := of_int (Z.max 0 (k - 1)); lastRefill := now |}.
Proof.
  intros Hk Hm. unfold allow, fetch. rewrite Hm.
  pose proof (refill_now m {| tokens := of_int k; lastRefill := now |}) as Hr. cbn [lastRefill] in Hr.
  rewrite Hr. cbn [tokens lastRefill]. rewrite fone_le by done.
  destruct (Z.leb_spec 1 k); cbn [fst snd Allow AllowOK Deny buckets set_buckets].
  - split; [done|]. rewrite fsub_one by lia. rewrite Z.max_r by lia. unfold write_back.
    rewrite bool_decide_true; by rewrite ?lookup_insert_eq.
  - split; [done|]. rewrite lookup_insert_eq. replace k with 0 by lia. done.
Qed.

Lemma allow_n_tracked order now key n : ∀ m (k : nat),
  Z.of_nat k < 2 ^ 53 → buckets m !! key = Some {| tokens := of_int (Z.of_nat k); lastRefill := now |} →
  snd (allow_n m order now key n) = replicate (Nat.min n k) true ++ replicate (n - k) false.
Proof.
  induction n as [|n IH]; intros m k Hk Hm; [done|]. cbn [allow_n].
  destruct (allow_tracked m order now key (Z.of_nat k) ltac:(lia) Hm) as [Ha Hb].
  destruct (allow m order now key) as [m1 d]. cbn [fst snd] in Ha, Hb.
  replace (Z.max 0 (Z.of_nat k - 1)) with (Z.of_nat (k - 1)) in Hb by lia.
  pose proof (IH m1 (k - 1)%nat ltac:(lia) Hb) as IH'.
  destruct (allow_n m1 order now key n) as [m2 ds]. cbn [snd] in *. rewrite Ha, IH'.
  destruct k as [|k]; simpl.
  - by rewrite Nat.min_0_r, Nat.sub_0_r.
  - rewrite Nat.sub_0_r. by destruct (1 <=? _) eqn:E; [|b2p; lia].
Qed.

Lemma allow_fresh cfg order now key (k : nat) :
  tc_Burst cfg = Z.of_nat (S k) → Z.of_nat (S k) < 2 ^ 53 →
  let m := newTokenBucketMap cfg in
  Allow (snd (allow m order now key)) = true ∧
  buckets (fst (allow m order now key)) !! key = Some {| tokens := of_int (Z.of_nat k); lastRefill := now |}.
Proof.
  intros Hb Hk m. assert (Hburst : burst m = of_int (Z.of_nat (S k))).
  { unfold m, newTokenBucketMap. simpl burst. rewrite Hb. destruct (flt _ fone) eqn:E; [exfalso|done].
    pose proof (fone_le (Z.of_nat (S k)) ltac:(lia)) as Hle. rewrite (proj2 (Z.leb_le _ _)) in Hle by lia.
    by rewrite (fle_not_flt _ _ Hle) in E. }
  assert (Hcap : 1 <= maxKeys m) by (unfold m, newTokenBucketMap; simpl; destruct (Z.leb_spec (tc_MaxKeys cfg) 0); lia).
  assert (Hnone : buckets m !! key = None) by apply lookup_empty.
  unfold allow, fetch. rewrite Hnone. unfold evictIfNeededLocked. cbn [maxKeys set_buckets buckets].
  rewrite (proj2 (Z.leb_gt (maxKeys m) 0)) by lia.
  assert (size_Z (<[key := {| tokens := burst m; lastRefill := now |}]> (buckets m)) = 1) as Hsz.
  { unfold size_Z. rewrite map_size_insert, Hnone. unfold m. simpl. by rewrite map_size_empty. }
  rewrite Hsz, (proj2 (Z.leb_le 1 (maxKeys m))) by lia. cbn [orb tokens lastRefill]. rewrite Hburst.
  rewrite fone_le by lia. rewrite (proj2 (Z.leb_le 1 _)) by lia. cbn [fst snd Allow AllowOK buckets set_buckets].
  split; [done|]. rewrite fsub_one by lia. unfold write_back.
  rewrite bool_decide_true by (rewrite lookup_insert_eq; eauto). rewrite lookup_insert_eq.
  by replace (Z.of_nat (S k) - 1) with (Z.of_nat k) by lia.
Qed.

(** In binary64 arithmetic a new key is granted exactly [Burst] requests
    at one instant, and every further request of that instant is refused. *)
Theorem token_bucket_burst cfg order now key (burst0 n : nat)
  (Hburst : tc_Burst cfg = Z.of_nat burst0) (Hpos : (0 < burst0)%nat) (Hexact : Z.of_nat burst0 < 2 ^ 53) :
  snd (allow_n (newTokenBucketMap cfg) order now key n) =
    replicate (Nat.min n burst0) true ++ replicate (n - burst0) false.
Proof.
  destruct n as [|n]; [done|]. destruct burst0 as [|k]; [lia|]. cbn [allow_n].
  destruct (allow_fresh cfg order now key k Hburst Hexact) as [Ha Hb].
  destruct (allow _ order now key) as [m1 d]. cbn [fst snd] in Ha, Hb.
  pose proof (allow_n_tracked order now key n m1 k ltac:(lia) Hb) as H.
  destruct (allow_n m1 order now key n) as [m2 ds]. cbn [snd] in *. by rewrite Ha, H.
Qed.

Lemma token_bucket_burst_witness :
  snd (allow_n (newTokenBucketMap (small_cfg 3 10)) (λ _, []) 7 #"k" 5) = [true; true; true; false; false].
Proof.
  apply (token_bucket_burst (small_cfg 3 10) (λ _, []) 7 #"k" 3 5); [done | lia | lia].
Defined.

(** ** A full map of used buckets *)

Lemma evict_idle_hot full cap order m (key : bytes) (b : bucket) :
  m !! key = None → near_full full b = true →
  (∀ k x, m !! k = Some x → near_full full x = false) →
  size_Z m = cap → key ∈ order →
  evict_idle full cap order (<[key := b]> m) = (m, true).
Proof.
  intros Hm Hb Hhot Hsz.
  assert (Hs1 : size_Z (<[key := b]> m) = cap + 1).
  { unfold size_Z in *. rewrite map_size_insert, Hm. lia. }
  induction order as [|k order IH]; intros Hin; [by apply not_elem_of_nil in Hin|]. simpl.
  destruct (decide (k = key)) as [->|Hk].
  - rewrite lookup_insert_eq, Hb, delete_insert_id by done.
    by rewrite (proj2 (Z.leb_le _ _)) by lia.
  - rewrite lookup_insert_ne by done. apply elem_of_cons in Hin as [->|Hin]; [done|].
    destruct (m !! k) as [x|] eqn:E; [|by apply IH].
    rewrite (Hhot k x E), Hs1, (proj2 (Z.leb_gt _ _)) by lia. by apply IH.
Qed.

(** Once the map holds [maxKeys] buckets none of which is full (a bucket is
    refilled only when its own key asks, so buckets used once long ago count), a
    request from a key that is not in the map is admitted and leaves no trace:
    its new full bucket is itself the one evicted, so such a key is never
    limited, in every range order. *)
Theorem saturated_map_never_limits m order now key
  (Hcap : 0 < maxKeys m) (Hfull : size_Z (buckets m) = maxKeys m)
  (Hhot : ∀ k b, buckets m !! k = Some b → near_full (burst m) b = false)
  (Hburst : near_full (burst m) {| tokens := burst m; lastRefill := now |} = true)
  (Hone : fle fone (burst m) = true)
  (Hnew : buckets m !! key = None) (Horder : key ∈ order 0%nat) :
  Allow (snd (allow m order now key)) = true ∧ fst (allow m order now key) = m.
Proof.
  unfold allow, fetch. rewrite Hnew. unfold evictIfNeededLocked. cbn [maxKeys set_buckets buckets burst].
  rewrite (proj2 (Z.leb_gt (maxKeys m) 0)) by lia.
  assert (size_Z (<[key := {| tokens := burst m; lastRefill := now |}]> (buckets m)) = maxKeys m + 1) as ->.
  { unfold size_Z in *. rewrite map_size_insert, Hnew. lia. }
  rewrite (proj2 (Z.leb_gt _ _)) by lia. cbn [orb].
  rewrite evict_idle_hot by done. cbn [tokens]. rewrite Hone. cbn [fst snd Allow AllowOK].
  split; [done|]. unfold write_back. rewrite Hnew, bool_decide_false by (by intros [? [=]]).
  by destruct m.
Qed.

(** One entry, one slot: a bucket with two of its three tokens left. *)
Definition saturated : tokenBucketMap :=
  {| buckets := {[ #"old" := {| tokens := of_int 2; lastRefill := 0 |} ]};
     rate := of_int 10; burst := of_int 3; maxKeys := 1 |}.

Lemma saturated_map_never_limits_witness :
  snd (allow_n saturated (λ _, [ #"old"; #"new"]) (3600 * Second) #"new" 6) =
    [true; true; true; true; true; true] ∧
  Allow (snd (allow saturated (λ _, [ #"old"; #"new"]) (3600 * Second) #"new")) = true.
Proof.
  split; [vm_compute; reflexivity|].
  apply (saturated_map_never_limits saturated (λ _, [ #"old"; #"new"]) (3600 * Second) #"new").
  - reflexivity.
  - unfold size_Z. simpl. by rewrite map_size_singleton.
  - intros k b Hb. unfold saturated in Hb. cbn [buckets] in Hb.
    apply lookup_singleton_Some in Hb as [_ <-]. vm_compute. reflexivity.
  - vm_compute. reflexivity.
  - vm_compute. reflexivity.
  - by apply lookup_singleton_ne.
  - right. left.
Defined.
