(* ===== verification/Semaphore.v ===== *)
(** * Concurrency limits ([internal/ratelimit/semaphore.go])

    Semaphores are heap objects: the keyed map stores pointers, and a request
    that has fetched a pointer keeps using the object after the map forgot it.
    A request passes through the phases of [acquire] and of its release closure;
    channel operations and the atomic [held] counter are separate steps, and
    requests interleave freely. *)

From S2P Require Import Prelude RateLimit.

(** [slots] is the number of values in the channel, [cap] its capacity. *)
Record semaphore := { slots : Z; cap : Z; held : Z; timeout : Z }.

Definition newSemaphore (capacity waitBudget : Z) : semaphore :=
  {| slots := 0; cap := if capacity <? 1 then 1 else capacity; held := 0;
     timeout := if waitBudget <=? 0 then 2 * Second else waitBudget |}.

Definition add_slots (d : Z) (s : semaphore) : semaphore :=
  {| slots := slots s + d; cap := cap s; held := held s; timeout := timeout s |}.
Definition add_held (d : Z) (s : semaphore) : semaphore :=
  {| slots := slots s; cap := cap s; held := held s + d; timeout := timeout s |}.

Definition holders (s : semaphore) : Z := held s.

(** Where a request is; the natural number is its semaphore's address. *)
Inductive phase :=
| Fast (p : nat)        (* before the non-blocking select *)
| Waiting (p : nat)     (* in the second select *)
| Taken (p : nat)       (* sent on the channel, held not yet incremented *)
| Holding (p : nat)     (* acquire returned; the closure has not run *)
| Releasing (p : nat)   (* received from the channel, held not yet decremented *)
| Released (p : nat)    (* the once is done *)
| Denied (p : nat).

Record store := { sems : list semaphore; requests : list phase }.

Definition upd (st : store) (p : nat) (f : semaphore → semaphore) (i : nat) (ph : phase) : store :=
  {| sems := alter f p (sems st); requests := <[i := ph]> (requests st) |}.

(** The decision [acquire] returns on success reads the channel after the send. *)
Definition acquired (s : semaphore) : Decision := AllowOK (cap s - slots s) (cap s).
Definition refused (s : semaphore) : Decision := Deny #"concurrency" Second (cap s).

Inductive step : store → store → Prop :=
| step_fast st i p s :
    requests st !! i = Some (Fast p) → sems st !! p = Some s → slots s < cap s →
    step st (upd st p (add_slots 1) i (Taken p))
| step_full st i p s :
    requests st !! i = Some (Fast p) → sems st !! p = Some s → cap s <= slots s →
    step st (upd st p id i (Waiting p))
| step_wait st i p s :
    requests st !! i = Some (Waiting p) → sems st !! p = Some s → slots s < cap s →
    step st (upd st p (add_slots 1) i (Taken p))
| step_deny st i p :                                   (* context done or timer *)
    requests st !! i = Some (Waiting p) → step st (upd st p id i (Denied p))
| step_held st i p :
    requests st !! i = Some (Taken p) → step st (upd st p (add_held 1) i (Holding p))
| step_release st i p s :                              (* receive needs a value *)
    requests st !! i = Some (Holding p) → sems st !! p = Some s → 0 < slots s →
    step st (upd st p (add_slots (-1)) i (Releasing p))
| step_unheld st i p :
    requests st !! i = Some (Releasing p) → step st (upd st p (add_held (-1)) i (Released p))
| step_again st i p :                                  (* the once ignores a second call *)
    requests st !! i = Some (Released p) → step st (upd st p id i (Released p))
| step_new st capacity waitBudget :
    step st {| sems := sems st ++ [newSemaphore capacity waitBudget]; requests := requests st |}
| step_request st p :
    (p < length (sems st))%nat →
    step st {| sems := sems st; requests := requests st ++ [Fast p] |}.

Definition init : store := {| sems := []; requests := [] |}.

(** ** Keyed semaphores *)

Record keyedSemaphore := {
  ks_sems : gmap bytes nat;
  capacity : Z;
  waitBudget : Z;
  maxKeys : Z;
}.

Definition newKeyedSemaphore (cfg : TierConfig) (budget : Z) : keyedSemaphore :=
  {| ks_sems := ∅;
     capacity := if tc_Concurrency cfg <? 1 then 1 else tc_Concurrency cfg;
     waitBudget := budget;
     maxKeys := if tc_MaxKeys cfg <=? 0 then 10000 else tc_MaxKeys cfg |}.

Definition reconfigure (k : keyedSemaphore) (cfg : TierConfig) : keyedSemaphore :=
  {| ks_sems := ks_sems k;
     capacity := if 0 <? tc_Concurrency cfg then tc_Concurrency cfg else capacity k;
     waitBudget := waitBudget k;
     maxKeys := if 0 <? tc_MaxKeys cfg then tc_MaxKeys cfg else maxKeys k |}.

Definition size_Z (m : gmap bytes nat) : Z := Z.of_nat (size m).

(** One pass over the entries in range order, deleting those [drop] selects
    until the map is within the cap; [true] when the pass returned. *)
Fixpoint evict_pass (dropped : bytes → nat → bool) (skipKey : bytes) (limit : Z)
    (order : list bytes) (m : gmap bytes nat) : gmap bytes nat * bool :=
  match order with
  | [] => (m, false)
  | kk :: order' =>
      match m !! kk with
      | None => evict_pass dropped skipKey limit order' m
      | Some p =>
          if bool_decide (kk = skipKey) then evict_pass dropped skipKey limit order' m
          else if dropped kk p then
            let m' := delete kk m in
            if size_Z m' <=? limit then (m', true) else evict_pass dropped skipKey limit order' m'
          else evict_pass dropped skipKey limit order' m
      end
  end.

(** [ss.holders() == 0] *)
Definition idle (st : store) (_ : bytes) (p : nat) : bool :=
  match sems st !! p with Some s => holders s =? 0 | None => false end.

Definition evictLocked (st : store) (order1 order2 : list bytes) (k : keyedSemaphore)
    (skipKey : bytes) : gmap bytes nat :=
  if (maxKeys k <=? 0) || (size_Z (ks_sems k) <=? maxKeys k) then ks_sems k
  else
    let '(m, returned) := evict_pass (idle st) skipKey (maxKeys k) order1 (ks_sems k) in
    if returned then m
    else fst (evict_pass (λ _ _, true) skipKey (maxKeys k) order2 m).

Definition set_sems (k : keyedSemaphore) (m : gmap bytes nat) : keyedSemaphore :=
  {| ks_sems := m; capacity := capacity k; waitBudget := waitBudget k; maxKeys := maxKeys k |}.

(** The locked part of [acquire]: the address of the key's semaphore. The
    request then enters [Fast] at that address. *)
Definition keyed_fetch (st : store) (order1 order2 : list bytes) (k : keyedSemaphore) (key : bytes)
  : store * keyedSemaphore * nat :=
  match ks_sems k !! key with
  | Some p => (st, k, p)
  | None =>
      let p := length (sems st) in
      let st' := {| sems := sems st ++ [newSemaphore (capacity k) (waitBudget k)];
                    requests := requests st |} in
      let k1 := set_sems k (<[key := p]> (ks_sems k)) in
      (st', set_sems k1 (evictLocked st' order1 order2 k1 key), p)
  end.

Definition keyed_acquire (st : store) (order1 order2 : list bytes) (k : keyedSemaphore) (key : bytes)
  : store * keyedSemaphore :=
  let '(st', k', p) := keyed_fetch st order1 order2 k key in
  ({| sems := sems st'; requests := requests st' ++ [Fast p] |}, k').

(** ** Counting requests *)

Definition count (P : phase → bool) (l : list phase) : Z := Z.of_nat (length (List.filter P l)).
Definition b2z (b : bool) : Z := if b then 1 else 0.

Lemma count_insert P l i x y :
  l !! i = Some x → count P (<[i := y]> l) = count P l - b2z (P x) + b2z (P y).
Proof.
  unfold count, b2z. revert i. induction l as [|z l IH]; intros [|i] H; simplify_eq/=.
  - destruct (P x), (P y); simpl; lia.
  - specialize (IH i H). destruct (P z); simpl; lia.
Qed.

Lemma count_app P l k : count P (l ++ k) = count P l + count P k.
Proof. unfold count. rewrite lfilter_app, length_app. lia. Qed.

Lemma count_nonneg P l : 0 <= count P l.
Proof. unfold count. lia. Qed.

Lemma count_pos P l i x : l !! i = Some x → P x = true → 0 < count P l.
Proof.
  intros Hl Hx. unfold count. apply list_elem_of_lookup_2 in Hl.
  assert (x ∈ List.filter P l) as H by (by apply elem_of_lfilter).
  destruct (List.filter P l); [by apply not_elem_of_nil in H|]. simpl. lia.
Qed.

(** Requests with a value in the channel of [p], and those counted by [held]. *)
Definition in_slot (p : nat) (ph : phase) : bool :=
  match ph with Taken q | Holding q => bool_decide (q = p) | _ => false end.
Definition in_held (p : nat) (ph : phase) : bool :=
  match ph with Holding q | Releasing q => bool_decide (q = p) | _ => false end.
Definition is_holding (p : nat) (ph : phase) : bool :=
  match ph with Holding q => bool_decide (q = p) | _ => false end.
Definition phase_sem (ph : phase) : nat :=
  match ph with
  | Fast p | Waiting p | Taken p | Holding p | Releasing p | Released p | Denied p => p
  end.

Record inv (st : store) : Prop := {
  inv_sem : ∀ p s, sems st !! p = Some s →
    slots s = count (in_slot p) (requests st) ∧ held s = count (in_held p) (requests st) ∧
    slots s <= cap s ∧ 1 <= cap s;
  inv_addr : ∀ i ph, requests st !! i = Some ph → (phase_sem ph < length (sems st))%nat;
}.

Lemma inv_init : inv init.
Proof. split; intros i x H; simpl in H; by rewrite lookup_nil in H. Qed.

(** A step that changes one request and the semaphore it is at: it is enough
    to check that semaphore. *)
Lemma inv_upd st i p f ph ph' :
  inv st → requests st !! i = Some ph → phase_sem ph = p → phase_sem ph' = p →
  (∀ s, sems st !! p = Some s → cap (f s) = cap s ∧
     slots (f s) = slots s - b2z (in_slot p ph) + b2z (in_slot p ph') ∧
     held (f s) = held s - b2z (in_held p ph) + b2z (in_held p ph') ∧ slots (f s) <= cap s) →
  inv (upd st p f i ph').
Proof.
  intros [Hs Ha] Hi Hp Hp' Hf. split; simpl.
  - intros q s Hq. rewrite !(count_insert _ _ _ ph) by done.
    destruct (decide (q = p)) as [->|Hne].
    + rewrite list_lookup_alter_eq in Hq. destruct (sems st !! p) as [s0|] eqn:E; simplify_eq/=.
      destruct (Hf s0 eq_refl) as (? & ? & ? & ?). destruct (Hs _ _ E) as (? & ? & ? & ?). lia.
    + rewrite list_lookup_alter_ne in Hq by done. destruct (Hs _ _ Hq) as (? & ? & ? & ?).
      assert (∀ x, phase_sem x = p → in_slot q x = false ∧ in_held q x = false) as Hx.
      { intros [] <-; simpl; rewrite ?bool_decide_eq_false_2; auto. }
      destruct (Hx ph Hp) as [-> ->], (Hx ph' Hp') as [-> ->]. simpl. lia.
  - intros j x. rewrite length_alter. intros [[<- [-> _]]|[_ Hj]]%list_lookup_insert_Some.
    + rewrite Hp', <- Hp. by eapply Ha.
    + by eapply Ha.
Qed.

Lemma in_slot_self p : in_slot p (Taken p) = true ∧ in_slot p (Holding p) = true ∧
  in_held p (Holding p) = true ∧ in_held p (Releasing p) = true.
Proof. simpl. by rewrite bool_decide_eq_true_2. Qed.

Lemma inv_step st st' : inv st → step st st' → inv st'.
Proof.
  intros Hinv Hst. destruct Hst;
    try (eapply inv_upd; [done|done|done|done|]; intros s0 Hs0;
         destruct (inv_sem _ Hinv _ _ Hs0) as (? & ? & ? & ?); simplify_eq;
         cbn [in_slot in_held add_slots add_held slots held cap id]; rewrite ?bool_decide_eq_true_2 by done;
         unfold b2z, id; repeat split; lia).
  - destruct Hinv as [Hs Ha]. split; simpl.
    + intros p s [Hp|[Hlen Hp]]%lookup_app_Some; [by apply Hs|].
      apply list_lookup_singleton_Some in Hp as [Hz <-].
      assert (Hout : ∀ P, (∀ ph, P ph = true → phase_sem ph = p) → count P (requests st) = 0).
      { intros P HP. unfold count. rewrite lfilter_none; [done|]. apply Forall_forall.
        intros ph (i & Hi)%list_elem_of_lookup_1. destruct (P ph) eqn:E; [|done].
        specialize (HP _ E). apply Ha in Hi. lia. }
      unfold newSemaphore. simpl. rewrite !Hout; [destruct (Z.ltb_spec capacity0 1); lia|..];
        intros [] E; simpl in *; b2p; done.
    + intros i ph Hi. rewrite length_app. apply Ha in Hi. lia.
  - destruct Hinv as [Hs Ha]. split; simpl.
    + intros q s Hq. rewrite !count_app. destruct (Hs _ _ Hq) as (? & ? & ? & ?).
      unfold count at 2 4. simpl. lia.
    + intros i ph [Hi|[_ Hi]]%lookup_app_Some; [by eapply Ha|].
      by apply list_lookup_singleton_Some in Hi as [_ <-].
Qed.

Lemma inv_reachable st : rtc step init st → inv st.
Proof.
  intros Hr. cut (∀ a b, rtc step a b → inv a → inv b); [intros H; eauto using inv_init|].
  clear. induction 1; eauto using inv_step.
Qed.

Lemma count_mono (P Q : phase → bool) l :
  (∀ x, P x = true → Q x = true) → count P l <= count Q l.
Proof.
  intros H. unfold count. induction l as [|x l IH]; simpl; [done|].
  specialize (H x). destruct (P x), (Q x); simpl; lia.
Qed.

(** In every interleaving of acquires, timeouts, cancellations and releases,
    the requests holding a slot of a semaphore never exceed its capacity, the
    channel holds one value for each request that took one (so none is leaked),
    and a release closure can always run: its receive never blocks. *)
Theorem semaphore_safe st p s
  (Hreach : rtc step init st) (Hp : sems st !! p = Some s) :
  count (is_holding p) (requests st) <= cap s ∧
  slots s = count (in_slot p) (requests st) ∧
  ∀ i, requests st !! i = Some (Holding p) → step st (upd st p (add_slots (-1)) i (Releasing p)).
Proof.
  destruct (inv_sem _ (inv_reachable _ Hreach) _ _ Hp) as (Hs & Hh & Hc & _). split_and!.
  - transitivity (slots s); [|done]. rewrite Hs. apply count_mono. by intros [].
  - done.
  - intros i Hi. eapply step_release; [done|done|]. rewrite Hs.
    eapply count_pos; [exact Hi|]. simpl. by rewrite bool_decide_eq_true_2.
Qed.

Lemma semaphore_safe_witness :
  let s := {| slots := 1; cap := 1; held := 0; timeout := 2 * Second |} in
  let st := {| sems := [s]; requests := [Taken 0; Waiting 0] |} in
  count (is_holding 0) (requests st) <= cap s.
Proof.
  cbv zeta. apply (semaphore_safe _ 0%nat {| slots := 1; cap := 1; held := 0; timeout := 2 * Second |});
    [|reflexivity].
  eapply rtc_l; [apply (step_new init 1 0)|].
  eapply rtc_l; [apply (step_request _ 0); simpl; lia|].
  eapply rtc_l; [apply (step_request _ 0); simpl; lia|].
  eapply rtc_l; [eapply (step_fast _ 0 0); [reflexivity | reflexivity | simpl; lia]|].
  eapply rtc_l; [eapply (step_full _ 1 0); [reflexivity | reflexivity | simpl; lia]|].
  apply rtc_refl.
Defined.

(** ** The keyed map *)

Definition ranges (order : list bytes) (m : gmap bytes nat) : Prop :=
  ∀ k, is_Some (m !! k) → k ∈ order.

Lemma size_delete_Z (k : bytes) (m : gmap bytes nat) :
  is_Some (m !! k) → size_Z (delete k m) = size_Z m - 1.
Proof.
  intros [b Hb]. unfold size_Z. rewrite map_size_delete, Hb.
  assert (size m ≠ 0%nat) by (eapply map_size_ne_0_lookup_2; eauto). simpl. lia.
Qed.

(** A pass deletes entries only, never the skipped one. *)
Lemma evict_pass_sub dropped skip limit order m :
  (evict_pass dropped skip limit order m).1 ⊆ m ∧
  (evict_pass dropped skip limit order m).1 !! skip = m !! skip.
Proof.
  revert m. induction order as [|kk order IH]; intros m; simpl; [done|].
  destruct (m !! kk) as [p|]; [|apply IH]. case_bool_decide as Hk; [apply IH|].
  destruct (dropped kk p); [|apply IH].
  assert (delete kk m ⊆ m ∧ delete kk m !! skip = m !! skip) as [H1 H2].
  { split; [apply delete_subseteq|]. by rewrite lookup_delete_ne. }
  destruct (_ <=? limit); simpl; [done|]. destruct (IH (delete kk m)) as [H3 H4].
  split; [by etrans|by rewrite H4].
Qed.

Lemma evict_pass_returned dropped skip limit order m m' :
  evict_pass dropped skip limit order m = (m', true) → size_Z m' <= limit.
Proof.
  revert m. induction order as [|kk order IH]; intros m; simpl; [done|].
  destruct (m !! kk) as [p|]; [|apply IH]. case_bool_decide; [apply IH|].
  destruct (dropped kk p); [|apply IH].
  destruct (Z.leb_spec (size_Z (delete kk m)) limit); [by intros [= <-]|apply IH].
Qed.

(** The unconditional pass removes an entry when one other than [skip] exists. *)
Lemma evict_pass_any skip limit order m :
  size_Z m <= limit + 1 → (∃ k, k ∈ order ∧ k ≠ skip ∧ is_Some (m !! k)) →
  size_Z (evict_pass (λ _ _, true) skip limit order m).1 <= limit.
Proof.
  intros Hsz. induction order as [|kk order IH]; intros (k & Hin & Hne & Hk); [by apply not_elem_of_nil in Hin|].
  simpl. destruct (m !! kk) as [p|] eqn:E.
  - case_bool_decide as Hs.
    + apply IH. apply elem_of_cons in Hin as [->|]; [done|eauto].
    + rewrite (proj2 (Z.leb_le _ _)); simpl; rewrite size_delete_Z; eauto; lia.
  - apply IH. apply elem_of_cons in Hin as [->|]; [rewrite E in Hk; by destruct Hk|eauto].
Qed.

Lemma evictLocked_bound st o1 o2 k skip :
  1 <= maxKeys k → size_Z (ks_sems k) <= maxKeys k + 1 → is_Some (ks_sems k !! skip) →
  ranges o2 (ks_sems k) →
  size_Z (evictLocked st o1 o2 k skip) <= maxKeys k ∧ evictLocked st o1 o2 k skip ⊆ ks_sems k ∧
  evictLocked st o1 o2 k skip !! skip = ks_sems k !! skip.
Proof.
  intros Hcap Hsz Hskip Hr. unfold evictLocked. rewrite (proj2 (Z.leb_gt (maxKeys k) 0)) by lia. simpl.
  destruct (Z.leb_spec (size_Z (ks_sems k)) (maxKeys k)) as [|Hover]; [done|].
  destruct (evict_pass_sub (idle st) skip (maxKeys k) o1 (ks_sems k)) as [Hsub Hs].
  destruct (evict_pass (idle st) skip _ o1 _) as [m ret] eqn:E. simpl in *. destruct ret.
  { split_and!; [by eapply evict_pass_returned|done|done]. }
  destruct (evict_pass_sub (λ _ _, true) skip (maxKeys k) o2 m) as [Hsub2 Hs2].
  split_and!; [|by etrans|congruence].
  destruct (decide (size_Z m <= maxKeys k)) as [Hle|Hgt].
  { etrans; [|exact Hle]. unfold size_Z. apply inj_le, map_subseteq_size, Hsub2. }
  apply evict_pass_any; [unfold size_Z in *; apply map_subseteq_size in Hsub; lia|].
  rewrite <- Hs in Hskip. destruct Hskip as [p Hp].
  assert (∃ kk q, delete skip m !! kk = Some q) as (kk & q & Hkk).
  { apply map_size_ne_0_lookup_1. pose proof (size_delete_Z skip m ltac:(eauto)). unfold size_Z in *. lia. }
  apply lookup_delete_Some in Hkk as [Hne Hkk]. exists kk. split_and!; [|done|eauto].
  apply Hr. exists q. by eapply lookup_weaken.
Qed.

Record keyed_wf (st : store) (k : keyedSemaphore) : Prop := {
  kw_cap : 1 <= maxKeys k;
  kw_size : size_Z (ks_sems k) <= maxKeys k;
  kw_addr : ∀ key p, ks_sems k !! key = Some p → (p < length (sems st))%nat;
}.

(** Fetching a key's semaphore keeps the map within [maxKeys] whatever the
    range orders, even when every entry has holders; the requested key keeps its
    entry and gets its own semaphore, entries of other keys are kept or dropped
    but never redirected, and the heap of semaphores only gains steps of the
    interleaving semantics, so holders of a dropped semaphore stay accounted for. *)
Theorem keyed_acquire_bounded st o1 o2 k key
  (Hwf : keyed_wf st k) (Horder : ranges o2 (<[key := length (sems st)]> (ks_sems k))) :
  let '(st', k') := keyed_acquire st o1 o2 k key in
  keyed_wf st' k' ∧ rtc step st st' ∧
  (∃ p, ks_sems k' !! key = Some p ∧ last (requests st') = Some (Fast p)) ∧
  ∀ key' p, key' ≠ key → ks_sems k' !! key' = Some p → ks_sems k !! key' = Some p.
Proof.
  destruct Hwf as [Hcap Hsize Haddr]. unfold keyed_acquire, keyed_fetch.
  destruct (ks_sems k !! key) as [p|] eqn:E.
  { split_and!; [by split | by apply rtc_once, step_request; eauto | | done].
    exists p. split; [done|]. apply last_snoc. }
  set (st' := {| sems := sems st ++ [newSemaphore (capacity k) (waitBudget k)]; requests := requests st |}).
  set (k1 := set_sems k (<[key := length (sems st)]> (ks_sems k))).
  destruct (evictLocked_bound st' o1 o2 k1 key) as (Hsz & Hsub & Hkey); [done| | |done|].
  { unfold k1, size_Z in *. simpl. rewrite map_size_insert, E. lia. }
  { unfold k1. simpl. rewrite lookup_insert_eq. eauto. }
  assert (Hkeep : ∀ key' p, key' ≠ key → evictLocked st' o1 o2 k1 key !! key' = Some p → ks_sems k !! key' = Some p).
  { intros key' p Hne Hp. eapply lookup_weaken in Hp; [|exact Hsub]. simpl in Hp.
    by rewrite lookup_insert_ne in Hp. }
  simpl in Hkey. rewrite lookup_insert_eq in Hkey.
  split_and!; [split; [done|done|]| |exists (length (sems st)); split; [done|apply last_snoc]|done].
  - simpl. intros key' p Hp. rewrite length_app. simpl.
    destruct (decide (key' = key)) as [->|Hne]; [simplify_eq; lia|].
    apply Hkeep, Haddr in Hp; [lia|done].
  - eapply rtc_l; [apply (step_new st (capacity k) (waitBudget k))|].
    apply rtc_once, (step_request st'). simpl. rewrite length_app. simpl. lia.
Qed.

Lemma keyed_acquire_bounded_witness :
  let k := {| ks_sems := {[ #"a" := 0%nat ]}; capacity := 2; waitBudget := Second; maxKeys := 1 |} in
  let st := {| sems := [{| slots := 1; cap := 2; held := 1; timeout := Second |}];
               requests := [Holding 0] |} in
  keyed_wf (fst (keyed_acquire st [ #"a"; #"b"] [ #"b"; #"a"] k #"b"))
           (snd (keyed_acquire st [ #"a"; #"b"] [ #"b"; #"a"] k #"b")).
Proof.
  cbv zeta.
  set (k := {| ks_sems := {[ #"a" := 0%nat ]}; capacity := 2; waitBudget := Second; maxKeys := 1 |}).
  set (st := {| sems := [{| slots := 1; cap := 2; held := 1; timeout := Second |}];
               requests := [Holding 0] |}).
  assert (Hwf : keyed_wf st k).
  { split; [simpl; lia | unfold size_Z; simpl; rewrite map_size_singleton; lia|].
    intros key p. unfold k. cbn [ks_sems]. intros [_ <-]%lookup_singleton_Some. simpl. lia. }
  assert (Hr : ranges [ #"b"; #"a"] (<[ #"b" := length (sems st)]> (ks_sems k))).
  { intros key [p Hp]. apply lookup_insert_Some in Hp as [[<- _]|[_ Hp]]; [left|].
    unfold k in Hp. cbn [ks_sems] in Hp. apply lookup_singleton_Some in Hp as [<- _]. right. left. }
  pose proof (keyed_acquire_bounded st [ #"a"; #"b"] [ #"b"; #"a"] k #"b" Hwf Hr) as H.
  destruct (keyed_acquire st [ #"a"; #"b"] [ #"b"; #"a"] k #"b") as [st' k']. apply H.
Defined.
