(* ===== verification/RateRegistry.v ===== *)
(** * The rate-limit registry and its middleware
    ([internal/ratelimit/registry.go], [key.go], [middleware.go])

    The registry owns one limiter per tier; semaphores live in the heap of
    [Semaphore].  [rt] is what a call reads from the runtime: the clock and the
    order of each range over a map.  An acquisition that reaches a semaphore
    becomes a request of the heap, whose steps decide its outcome. *)

From S2P Require Import Prelude GoString GoStrconv RateLimit.
From S2P Require Import SlidingWindow TokenBucket Semaphore RateLimit.

Record rt := { rt_now : Z; rt_order : nat → list bytes }.

Record Registry := {
  r_cfg : Config;
  r_sliding : Tier → option SlidingWindow.slidingWindow;
  r_buckets : Tier → option TokenBucket.tokenBucketMap;
  r_ksems : Tier → option Semaphore.keyedSemaphore;
  r_failures : Tier → option RateLimit.failureCounter;
  r_globalSem : option nat;
  r_globalRate : option TokenBucket.tokenBucketMap;
}.

(** The registry with the heap its semaphore addresses point into. *)
Record world := { reg : Registry; heap : Semaphore.store }.

Definition alloc (h : Semaphore.store) (capacity budget : Z) : Semaphore.store * nat :=
  ({| Semaphore.sems := Semaphore.sems h ++ [Semaphore.newSemaphore capacity budget];
      Semaphore.requests := Semaphore.requests h |}, length (Semaphore.sems h)).

Definition nothing {A} : Tier → option A := λ _, None.

(** [build] on the empty registry [New] makes. *)
Definition New (cfg : Config) (h : Semaphore.store) : world :=
  if rl_Off cfg then
    {| reg := {| r_cfg := cfg; r_sliding := nothing; r_buckets := nothing; r_ksems := nothing;
                 r_failures := nothing; r_globalSem := None; r_globalRate := None |};
       heap := h |}
  else
    let tc := rl_Tiers cfg in
    let pick {A} (alg : Algorithm → bool) (mk : TierConfig → A) : Tier → option A := λ t,
      if bool_decide (t = TierGlobal) then None
      else if alg (tc_Algorithm (tc t)) then Some (mk (tc t)) else None in
    let '(h', sem) := alloc h (tc_Concurrency (tc TierGlobal)) (500 * Millisecond) in
    {| reg :=
         {| r_cfg := cfg;
            r_sliding := pick (λ a, match a with AlgSliding => true | _ => false end)
                              SlidingWindow.newSlidingWindow;
            r_buckets := pick (λ a, match a with AlgTokenBucket => true | _ => false end)
                              TokenBucket.newTokenBucketMap;
            r_failures := pick (λ a, match a with AlgFailureCounter => true | _ => false end)
                               RateLimit.newFailureCounter;
            r_ksems := λ t,
              if bool_decide (t = TierProxy) && (0 <? tc_Concurrency (tc TierProxy))
              then Some (Semaphore.newKeyedSemaphore (tc TierProxy) (2 * Second)) else None;
            r_globalSem := Some sem;
            r_globalRate := Some (TokenBucket.newTokenBucketMap
              {| tc_Algorithm := AlgSliding; tc_Rate := tc_Rate (tc TierGlobal);
                 tc_Burst := tc_Burst (tc TierGlobal); tc_Window := 0; tc_Max := 0;
                 tc_Concurrency := 0; tc_MaxKeys := 1 |}) |};
       heap := h' |}.

Definition Reload (w : world) (newCfg : Config) : world :=
  let r := reg w in
  let tc := rl_Tiers newCfg in
  let oldc := tc_Concurrency (rl_Tiers (r_cfg r) TierGlobal) in
  let newc := tc_Concurrency (tc TierGlobal) in
  let '(h, sem) :=
    if negb (newc =? oldc)
    then let '(h, p) := alloc (heap w) newc (500 * Millisecond) in (h, Some p)
    else (heap w, r_globalSem r) in
  {| reg :=
       {| r_cfg := newCfg;
          r_sliding := λ t, (λ s, SlidingWindow.reconfigure s (tc t)) <$> r_sliding r t;
          r_buckets := λ t, (λ b, TokenBucket.reconfigure b (tc t)) <$> r_buckets r t;
          r_ksems := λ t,
            match r_ksems r t with
            | Some k => Some (Semaphore.reconfigure k (tc t))
            | None =>
                if bool_decide (t = TierProxy) && (0 <? tc_Concurrency (tc t))
                then Some (Semaphore.newKeyedSemaphore (tc t) (2 * Second)) else None
            end;
          r_failures := λ t, (λ f, RateLimit.fc_reconfigure f (tc t)) <$> r_failures r t;
          r_globalSem := sem;
          r_globalRate := (λ b, TokenBucket.reconfigure b
            {| tc_Algorithm := AlgSliding; tc_Rate := tc_Rate (tc TierGlobal);
               tc_Burst := tc_Burst (tc TierGlobal); tc_Window := 0; tc_Max := 0;
               tc_Concurrency := 0; tc_MaxKeys := 0 |}) <$> r_globalRate r |};
     heap := h |}.

(** ** Updates of one field *)

Definition set_sliding (r : Registry) (t : Tier) (s : SlidingWindow.slidingWindow) : Registry :=
  {| r_cfg := r_cfg r; r_sliding := set_tier (r_sliding r) t (Some s); r_buckets := r_buckets r;
     r_ksems := r_ksems r; r_failures := r_failures r; r_globalSem := r_globalSem r;
     r_globalRate := r_globalRate r |}.
Definition set_bucket (r : Registry) (t : Tier) (b : TokenBucket.tokenBucketMap) : Registry :=
  {| r_cfg := r_cfg r; r_sliding := r_sliding r; r_buckets := set_tier (r_buckets r) t (Some b);
     r_ksems := r_ksems r; r_failures := r_failures r; r_globalSem := r_globalSem r;
     r_globalRate := r_globalRate r |}.
Definition set_ksem (r : Registry) (t : Tier) (k : Semaphore.keyedSemaphore) : Registry :=
  {| r_cfg := r_cfg r; r_sliding := r_sliding r; r_buckets := r_buckets r;
     r_ksems := set_tier (r_ksems r) t (Some k); r_failures := r_failures r;
     r_globalSem := r_globalSem r; r_globalRate := r_globalRate r |}.
Definition set_failures (r : Registry) (t : Tier) (f : RateLimit.failureCounter) : Registry :=
  {| r_cfg := r_cfg r; r_sliding := r_sliding r; r_buckets := r_buckets r; r_ksems := r_ksems r;
     r_failures := set_tier (r_failures r) t (Some f); r_globalSem := r_globalSem r;
     r_globalRate := r_globalRate r |}.
Definition set_globalRate (r : Registry) (b : TokenBucket.tokenBucketMap) : Registry :=
  {| r_cfg := r_cfg r; r_sliding := r_sliding r; r_buckets := r_buckets r; r_ksems := r_ksems r;
     r_failures := r_failures r; r_globalSem := r_globalSem r; r_globalRate := Some b |}.

(** ** Rate checks *)

Definition skipped (r : Registry) (key : bytes) : bool :=
  rl_Off (r_cfg r) || bool_decide (key = []).

Definition Check (r : Registry) (e : rt) (tier : Tier) (key : bytes) : Registry * Decision :=
  if skipped r key then (r, AllowOK 0 0)
  else match r_sliding r tier with
       | Some sw => let '(sw', d) := SlidingWindow.check sw (rt_now e) key in (set_sliding r tier sw', d)
       | None => (r, AllowOK 0 0)
       end.

Definition Registry_Allow (r : Registry) (e : rt) (tier : Tier) (key : bytes) : Registry * Decision :=
  if skipped r key then (r, AllowOK 0 0)
  else match r_sliding r tier with
       | Some sw => let '(sw', d) := SlidingWindow.allow sw (rt_now e) key in (set_sliding r tier sw', d)
       | None =>
           match r_buckets r tier with
           | Some tb =>
               let '(tb', d) := TokenBucket.allow tb (rt_order e) (rt_now e) key in (set_bucket r tier tb', d)
           | None => (r, AllowOK 0 0)
           end
       end.

Definition AllowGlobalRPS (r : Registry) (e : rt) : Registry * Decision :=
  if rl_Off (r_cfg r) then (r, AllowOK 0 0)
  else match r_globalRate r with
       | None => (r, AllowOK 0 0)
       | Some tb =>
           let '(tb', d) := TokenBucket.allow tb (rt_order e) (rt_now e) #"global" in (set_globalRate r tb', d)
       end.

(** ** Concurrency *)

(** [Free]: allowed without a slot, the release is a no-op. [Pending i]:
    request [i] of the heap has entered the semaphore's [acquire]. *)
Inductive acquisition := Free | Pending (i : nat).

Definition enter (h : Semaphore.store) (p : nat) : Semaphore.store :=
  {| Semaphore.sems := Semaphore.sems h; Semaphore.requests := Semaphore.requests h ++ [Semaphore.Fast p] |}.

Definition AcquireGlobal (w : world) : world * acquisition :=
  if rl_Off (r_cfg (reg w)) then (w, Free)
  else match r_globalSem (reg w) with
       | None => (w, Free)
       | Some p => ({| reg := reg w; heap := enter (heap w) p |},
                    Pending (length (Semaphore.requests (heap w))))
       end.

Definition acquireKeyed (w : world) (e : rt) (tier : Tier) (key : bytes) : world * acquisition :=
  if skipped (reg w) key then (w, Free)
  else match r_ksems (reg w) tier with
       | None => (w, Free)
       | Some k =>
           let '(h, k') := Semaphore.keyed_acquire (heap w) (rt_order e 0) (rt_order e 1) k key in
           ({| reg := set_ksem (reg w) tier k'; heap := h |},
            Pending (length (Semaphore.requests (heap w))))
       end.

(** ** Proxy requests *)

Inductive ProxyEnforcement :=
| EnforceAllowed (a : acquisition)
| EnforceDenied (d : Decision) (errCode message : bytes).

Definition scopeKey (actorID vaultID : bytes) : bytes := #"scope:" ++ actorID ++ #":" ++ vaultID.

(** A nil registry is the outer [None] of the code; callers of the model hold
    a world.  A pending acquisition that ends in [Denied] is reported by
    [enforcement_result]. *)
Definition EnforceProxy (w : world) (e : rt) (actorID vaultID : bytes) : world * ProxyEnforcement :=
  if rl_Off (r_cfg (reg w)) || bool_decide (actorID = []) || bool_decide (vaultID = [])
  then (w, EnforceAllowed Free)
  else
    let key := scopeKey actorID vaultID in
    let '(r, d) := Registry_Allow (reg w) e TierProxy key in
    let w1 := {| reg := r; heap := heap w |} in
    if negb (Allow d)
    then (w1, EnforceDenied d #"rate_limit_scope" #"Proxy rate limit exceeded for this scope")
    else let '(w2, a) := acquireKeyed w1 e TierProxy key in (w2, EnforceAllowed a).

(** The outcome once the request's phase is final; [None] while it is undecided. *)
Definition enforcement_result (h : Semaphore.store) (i : nat) : option ProxyEnforcement :=
  match Semaphore.requests h !! i with
  | Some (Semaphore.Holding _) => Some (EnforceAllowed (Pending i))
  | Some (Semaphore.Denied p) =>
      (λ s, EnforceDenied (Semaphore.refused s) #"concurrency_scope"
              #"Proxy at concurrency limit for this scope") <$> Semaphore.sems h !! p
  | _ => None
  end.

(** ** Failure budgets *)

Definition FailureCheck (r : Registry) (tier : Tier) (key : bytes) : bool :=
  if skipped r key then true
  else match r_failures r tier with None => true | Some f => RateLimit.fc_check f key end.

Definition FailureRecord (r : Registry) (e : rt) (tier : Tier) (key : bytes) : Registry :=
  if skipped r key then r
  else match r_failures r tier with
       | Some f => set_failures r tier (RateLimit.record f (rt_order e 0) key)
       | None => r
       end.

Definition FailureReset (r : Registry) (tier : Tier) (key : bytes) : Registry :=
  if bool_decide (key = []) then r
  else match r_failures r tier with
       | Some f => set_failures r tier (RateLimit.reset f key)
       | None => r
       end.

(** ** Keys and middleware *)

Definition IPKey (clientIP : bytes) : bytes := #"ip:" ++ clientIP.
Definition ActorKey (id : bytes) : bytes := if bool_decide (id = []) then [] else #"actor:" ++ id.

Definition hex_lower (z : Z) : byte := byte_of (if z <? 10 then 48 + z else 87 + z).
Definition hex_encode (s : bytes) : bytes :=
  flat_map (λ b, [hex_lower (bval b / 16); hex_lower (bval b mod 16)]) s.

Section Keys.
(** SHA-256. *)
Context (Sum256 : bytes → bytes).
Definition HashToken (s : bytes) : bytes := hex_encode (take 8 (Sum256 s)).
Definition IPTokenKey (clientIP tok : bytes) : bytes :=
  if bool_decide (tok = []) then [] else #"ipt:" ++ clientIP ++ #":" ++ HashToken tok.
End Keys.

Definition writeRateLimitHeaders (d : Decision) : list (bytes * bytes) :=
  if 0 <? Limit d
  then [(#"X-RateLimit-Limit", Itoa (Limit d)); (#"X-RateLimit-Remaining", Itoa (Remaining d))] else [].

(** Status and headers; the body carries the message. *)
Inductive response :=
| Next (headers : list (bytes * bytes))
| TooMany (headers : list (bytes * bytes)) (message : bytes).

Definition WriteDenial (d : Decision) (message : bytes) : response :=
  TooMany (writeRateLimitHeaders d ++
           (if 0 <? RetryAfter d then [(#"Retry-After", Itoa (to_int (Seconds (RetryAfter d))))] else []) ++
           [(#"Content-Type", #"application/json")]) message.

(** [key] is what the keyer returned, empty for a nil keyer. *)
Definition HandlerFunc (r : Registry) (e : rt) (tier : Tier) (key : bytes) : Registry * response :=
  if rl_Off (r_cfg r) then (r, Next [])
  else if bool_decide (key = []) then (r, Next [])
  else
    let '(r', d) := Registry_Allow r e tier key in
    if Allow d then (r', Next (writeRateLimitHeaders d))
    else (r', WriteDenial d #"Too many requests, try again later").

(** ** Proxy admission *)

Lemma Allow_rate_only r e tier key :
  r_ksems (fst (Registry_Allow r e tier key)) = r_ksems r ∧
  r_cfg (fst (Registry_Allow r e tier key)) = r_cfg r.
Proof. unfold Registry_Allow. repeat case_match; simplify_eq/=; done. Qed.

Lemma skipped_scope r a v : skipped r (scopeKey a v) = rl_Off (r_cfg r).
Proof. unfold skipped. rewrite bool_decide_eq_false_2 by done. apply orb_false_r. Qed.

(** Scopes of distinct actors or entries have distinct keys, given entry names
    without colons. *)
Lemma scopeKey_inj a v a' v' :
  x3a ∉ v → x3a ∉ v' → scopeKey a v = scopeKey a' v' → a = a' ∧ v = v'.
Proof.
  unfold scopeKey. intros Hv Hv' E. apply app_inv_head in E. change #":" with [x3a] in E.
  pose proof (LastIndexByte_app a x3a v Hv) as L1. pose proof (LastIndexByte_app a' x3a v' Hv') as L2.
  simpl in *. rewrite E, L2 in L1. injection L1 as L1.
  apply app_inj_1 in E as [-> E]; [|done]. by injection E as ->.
Qed.

(** A proxy request that is neither exempt nor refused by its scope's token
    bucket joins the queue of exactly one semaphore, that of its own scope key;
    one refused by the bucket takes no concurrency slot and leaves the heap and
    the keyed map as they were. *)
Theorem EnforceProxy_order w e a v k
  (Hon : rl_Off (r_cfg (reg w)) = false) (Ha : a ≠ []) (Hv : v ≠ [])
  (Hk : r_ksems (reg w) TierProxy = Some k) :
  let d := snd (Registry_Allow (reg w) e TierProxy (scopeKey a v)) in
  let '(w', out) := EnforceProxy w e a v in
  if Allow d then
    out = EnforceAllowed (Pending (length (Semaphore.requests (heap w)))) ∧
    ∃ k' p, r_ksems (reg w') TierProxy = Some k' ∧
            Semaphore.requests (heap w') = Semaphore.requests (heap w) ++ [Semaphore.Fast p] ∧
            p = snd (Semaphore.keyed_fetch (heap w) (rt_order e 0) (rt_order e 1) k (scopeKey a v))
  else
    out = EnforceDenied d #"rate_limit_scope" #"Proxy rate limit exceeded for this scope" ∧
    heap w' = heap w ∧ r_ksems (reg w') TierProxy = Some k.
Proof.
  cbv zeta. unfold EnforceProxy. rewrite Hon, !bool_decide_eq_false_2 by done. cbn [orb].
  destruct (Allow_rate_only (reg w) e TierProxy (scopeKey a v)) as [Hks Hcfg].
  destruct (Registry_Allow (reg w) e TierProxy (scopeKey a v)) as [r d]. cbn [fst snd] in *.
  destruct (Allow d); cbn [negb]; [|cbn [heap reg]; by rewrite Hks].
  unfold acquireKeyed. cbn [reg heap]. rewrite skipped_scope, Hcfg, Hon, Hks, Hk.
  unfold Semaphore.keyed_acquire.
  assert (Hreq : ∀ o1 o2, Semaphore.requests (fst (fst (Semaphore.keyed_fetch (heap w) o1 o2 k (scopeKey a v))))
                 = Semaphore.requests (heap w)) by (intros; unfold Semaphore.keyed_fetch; by case_match).
  specialize (Hreq (rt_order e 0) (rt_order e 1)).
  destruct (Semaphore.keyed_fetch _ _ _ _ _) as [[h k'] p]. cbn [fst snd] in *.
  split; [done|]. exists k', p. cbn [heap reg r_ksems set_ksem Semaphore.requests].
  unfold set_tier. by rewrite Hreq.
Qed.

Lemma EnforceProxy_order_witness :
  let w := New (DefaultsFor ProfileDefault) Semaphore.init in
  let e := {| rt_now := 0; rt_order := λ _, [] |} in
  snd (EnforceProxy w e #"agent" #"github") = EnforceAllowed (Pending 0).
Proof.
  cbv zeta.
  pose proof (EnforceProxy_order (New (DefaultsFor ProfileDefault) Semaphore.init)
    {| rt_now := 0; rt_order := λ _, [] |} #"agent" #"github"
    (Semaphore.newKeyedSemaphore (rl_Tiers (DefaultsFor ProfileDefault) TierProxy) (2 * Second))
    eq_refl ltac:(done) ltac:(done) eq_refl) as H.
  cbv zeta in H. revert H.
  assert (Ha : Allow (snd (Registry_Allow (reg (New (DefaultsFor ProfileDefault) Semaphore.init))
    {| rt_now := 0; rt_order := λ _, [] |} TierProxy (scopeKey #"agent" #"github"))) = true)
    by (vm_compute; reflexivity).
  rewrite Ha. destruct (EnforceProxy _ _ _ _) as [w' out]. intros [-> _]. reflexivity.
Defined.

(** ** Reloading *)

(** A registry built with the limits off keeps no per-tier limiter after a
    reload, whatever the new configuration: every rate check and failure check
    of every tier answers "allowed" although the new configuration is on. *)
Theorem Reload_from_off_stays_open off on h
  (Hoff : rl_Off off = true) :
  let r := reg (Reload (New off h) on) in
  r_cfg r = on ∧
  ∀ e tier key, Registry_Allow r e tier key = (r, AllowOK 0 0) ∧
    Check r e tier key = (r, AllowOK 0 0) ∧ AllowGlobalRPS r e = (r, AllowOK 0 0) ∧
    FailureCheck r tier key = true.
Proof.
  cbv zeta. unfold New. rewrite Hoff. unfold Reload.
  cbn [reg heap r_cfg r_globalSem r_sliding r_buckets r_failures r_ksems r_globalRate].
  set (hp := if negb _ then _ else _). destruct hp as [h' sem].
  split; [done|]. intros e tier key.
  unfold Registry_Allow, Check, AllowGlobalRPS, FailureCheck. cbn. by repeat case_match.
Qed.

Lemma Reload_from_off_stays_open_witness :
  rl_Off (DefaultsFor ProfileStrict) = false ∧
  snd (Registry_Allow (reg (Reload (New (DefaultsFor ProfileOff) Semaphore.init) (DefaultsFor ProfileStrict)))
    {| rt_now := 0; rt_order := λ _, [] |} TierAuth #"ip:203.0.113.9") = AllowOK 0 0.
Proof.
  split; [reflexivity|].
  destruct (Reload_from_off_stays_open (DefaultsFor ProfileOff) (DefaultsFor ProfileStrict) Semaphore.init eq_refl)
    as [_ H].
  destruct (H {| rt_now := 0; rt_order := λ _, [] |} TierAuth #"ip:203.0.113.9") as [H1 _].
  by rewrite H1.
Defined.
