(* ===== verification/RateSettings.v ===== *)
(** * Rate-limit settings ([internal/server/ratelimit_settings.go])

    How the environment, the stored instance setting and the profile defaults
    combine.  The database and the environment are function arguments; a stored
    payload is given already decoded from JSON. *)

From S2P Require Import Prelude GoString GoStrconv RateLimit.

Record rateLimitTierOverride := {
  ov_Rate : option float64;
  ov_Burst : option Z;
  ov_Window : bytes;
  ov_Max : option Z;
  ov_Concurrency : option Z;
}.

Record rateLimitSettingPayload := {
  pl_Profile : bytes;
  pl_Overrides : list (bytes * rateLimitTierOverride);
}.

Definition empty_payload : rateLimitSettingPayload := {| pl_Profile := []; pl_Overrides := [] |}.

Section Settings.
Context `{UnicodeTables}.
Context (Getenv : bytes → bytes) (ParseFloat : bytes → option float64)
        (ParseDuration : bytes → option Z).

(** The knobs set in the environment, put back over a profile's defaults. *)
Definition restore_env (mask : EnvSetMask) (env tc : TierConfig) : TierConfig :=
  {| tc_Algorithm := tc_Algorithm tc;
     tc_Rate := if m_Rate mask then tc_Rate env else tc_Rate tc;
     tc_Burst := if m_Burst mask then tc_Burst env else tc_Burst tc;
     tc_Window := if m_Window mask then tc_Window env else tc_Window tc;
     tc_Max := if m_Max mask then tc_Max env else tc_Max tc;
     tc_Concurrency := if m_Concurrency mask then tc_Concurrency env else tc_Concurrency tc;
     tc_MaxKeys := tc_MaxKeys tc |}.

Definition override_config (ov : rateLimitTierOverride) : TierConfig :=
  {| tc_Algorithm := AlgSliding; tc_Rate := or_default (ov_Rate ov) fzero;
     tc_Burst := or_default (ov_Burst ov) 0;
     tc_Window := if bool_decide (ov_Window ov = []) then 0
                  else or_default (ParseDuration (ov_Window ov)) 0;
     tc_Max := or_default (ov_Max ov) 0; tc_Concurrency := or_default (ov_Concurrency ov) 0;
     tc_MaxKeys := 0 |}.

(** The overrides of known tiers, in the order the payload's map is ranged over;
    tier names are distinct keys of that map. *)
Definition tier_overrides (p : rateLimitSettingPayload) : list (Tier * TierConfig) :=
  omap (λ '(name, ov), (λ t, (t, override_config ov)) <$> TierByName name) (pl_Overrides p).

Definition applyPayload (envCfg : Config) (envMask : Tier → EnvSetMask) (p : rateLimitSettingPayload)
  : Config :=
  let base :=
    if bool_decide (pl_Profile p = []) then envCfg
    else
      let d := DefaultsFor (pl_Profile p) in
      {| rl_Profile := rl_Profile d; rl_Off := rl_Off d; rl_Locked := rl_Locked envCfg;
         rl_Tiers := λ t, restore_env (envMask t) (rl_Tiers envCfg t) (rl_Tiers d t) |} in
  ApplyOverrides base (tier_overrides p).

Inductive setting_error := SettingError (why : bytes).

(** [load] is [loadRateLimitSetting] on the store. *)
Definition resolveRateLimitConfig (load : result setting_error (option rateLimitSettingPayload))
  : result setting_error Config :=
  let '(envCfg, envMask) := LoadFromEnv Getenv ParseFloat ParseDuration in
  if rl_Locked envCfg then Ok envCfg
  else match load with
       | Err e => Err e
       | Ok None => Ok envCfg
       | Ok (Some p) => Ok (applyPayload envCfg envMask p)
       end.

Definition rateLimitSourceForTier (t : Tier) (p : rateLimitSettingPayload) (hasPayload : bool)
    (envMask : Tier → EnvSetMask) : bytes :=
  if Any (envMask t) then #"env"
  else if hasPayload && bool_decide (Tier_String t ∈ (pl_Overrides p).*1) then #"override"
  else #"default".

Inductive update_error :=
| UpdateLocked | InvalidProfile (p : bytes) | UnknownTier (name : bytes)
| RateRange | BurstRange | MaxRange | ConcurrencyRange | BadWindow | BelowFloor (e : rl_error).

Definition out_of (hi z : Z) : bool := (z <? 0) || (hi <? z).

Definition check_override '((name, ov) : bytes * rateLimitTierOverride) : option update_error :=
  if negb (given (TierByName name)) then Some (UnknownTier name)
  else if match ov_Rate ov with Some r => flt r fzero || flt (of_int 100000) r | None => false end
  then Some RateRange
  else if match ov_Burst ov with Some b => out_of 100000 b | None => false end then Some BurstRange
  else if match ov_Max ov with Some m => out_of 100000 m | None => false end then Some MaxRange
  else if match ov_Concurrency ov with Some c => out_of 8192 c | None => false end
  then Some ConcurrencyRange
  else if negb (bool_decide (ov_Window ov = [])) && negb (given (ParseDuration (ov_Window ov)))
  then Some BadWindow else None.

(** The checks of [handleUpdateRateLimitSetting]; on [None] the payload is
    stored and the registry reloaded with [candidate]. *)
Definition candidate (p : rateLimitSettingPayload) : Config :=
  let '(envCfg, envMask) := LoadFromEnv Getenv ParseFloat ParseDuration in
  applyPayload envCfg envMask p.

Definition handleUpdateRateLimitSetting (locked : bool) (p : rateLimitSettingPayload)
  : option update_error :=
  if locked then Some UpdateLocked
  else if negb (bool_decide (pl_Profile p = [])) &&
          negb (bool_decide (pl_Profile p ∈ [ProfileDefault; ProfileStrict; ProfileLoose; ProfileOff]))
  then Some (InvalidProfile (pl_Profile p))
  else match first_error check_override (pl_Overrides p) with
       | Some e => Some e
       | None =>
           match Config_Validate (candidate p) with Some e => Some (BelowFloor e) | None => None end
       end.

(** ** Facts *)

Lemma override_other l : ∀ (f : Tier → TierConfig) t,
  t ∉ l.*1 →
  foldl (λ tiers '(u, ov), set_tier tiers u (override_tier ov (tiers u))) f l t = f t.
Proof.
  induction l as [|[u ov] l IH]; intros f t Ht; simpl; [done|].
  rewrite IH by set_solver. unfold set_tier. rewrite bool_decide_eq_false_2; [done|].
  intros ->. apply Ht. simpl. left.
Qed.

Lemma override_once l : ∀ (f : Tier → TierConfig) t ov,
  NoDup l.*1 → (t, ov) ∈ l →
  foldl (λ tiers '(u, ov), set_tier tiers u (override_tier ov (tiers u))) f l t = override_tier ov (f t).
Proof.
  induction l as [|[u ov'] l IH]; intros f t ov Hnd Hin; [by apply not_elem_of_nil in Hin|].
  simpl in *. apply NoDup_cons in Hnd as [Hu Hnd]. apply elem_of_cons in Hin as [[= <- <-]|Hin].
  - rewrite override_other by done. unfold set_tier. by rewrite bool_decide_eq_true_2.
  - rewrite (IH _ t ov) by done. unfold set_tier. rewrite bool_decide_eq_false_2; [done|].
    intros ->. apply Hu. apply list_elem_of_fmap. by exists (u, ov).
Qed.

(** An accepted update leaves a configuration within the floors (at least
    five authentication attempts per window, 32 requests in flight and 100
    requests per second globally, or limits off): owners cannot lock themselves
    out through the settings pane. *)
Theorem accepted_update_keeps_floors locked p
  (Hok : handleUpdateRateLimitSetting locked p = None) :
  locked = false ∧
  (rl_Off (candidate p) = false →
   5 <= tc_Max (rl_Tiers (candidate p) TierAuth) ∧
   32 <= tc_Concurrency (rl_Tiers (candidate p) TierGlobal) ∧
   flt (tc_Rate (rl_Tiers (candidate p) TierGlobal)) (of_int 100) = false) ∧
  Forall (λ '(name, ov), is_Some (TierByName name) ∧
            ∀ c, ov_Concurrency ov = Some c → 0 <= c <= 8192) (pl_Overrides p).
Proof.
  unfold handleUpdateRateLimitSetting in Hok. destruct locked; [done|]. split; [done|].
  destruct (_ && _); [done|].
  destruct (first_error check_override (pl_Overrides p)) eqn:Ef; [done|].
  destruct (Config_Validate (candidate p)) eqn:Ev; [done|]. split.
  - intros Hoff. unfold Config_Validate in Ev. rewrite Hoff in Ev.
    unfold minAuthFloor, minGlobalInflight, minGlobalRPS in Ev.
    destruct (Z.ltb_spec (tc_Max (rl_Tiers (candidate p) TierAuth)) 5); [done|].
    destruct (Z.ltb_spec (tc_Concurrency (rl_Tiers (candidate p) TierGlobal)) 32); [done|].
    destruct (flt _ _); [done|]. done.
  - apply first_error_None in Ef. eapply Forall_impl; [exact Ef|]. intros [name ov]. cbn [check_override].
    destruct (TierByName name); [|done]. cbn [given negb]. intros Hc. split; [eauto|]. intros c Hcc.
    rewrite Hcc in Hc. unfold out_of in Hc. destruct (ov_Rate ov), (ov_Burst ov), (ov_Max ov);
      repeat (case_match; try done); b2p; lia.
Qed.

(** A stored override wins over the environment variable of the same knob:
    with AGENT_VAULT_RATELIMIT_<TIER>_MAX set and an unlocked configuration, the
    effective maximum is the payload's, while the source reported for the tier
    is still "env". *)
Theorem override_beats_env p t name ov m cfg
  (Hlocked : rl_Locked (fst (LoadFromEnv Getenv ParseFloat ParseDuration)) = false)
  (Henv : m_Max (snd (LoadFromEnv Getenv ParseFloat ParseDuration) t) = true)
  (Hnd : NoDup (tier_overrides p).*1) (Hname : TierByName name = Some t)
  (Hin : (name, ov) ∈ pl_Overrides p) (Hmax : ov_Max ov = Some m) (Hm : m ≠ 0)
  (Hres : resolveRateLimitConfig (Ok (Some p)) = Ok cfg) :
  tc_Max (rl_Tiers cfg t) = m ∧
  rateLimitSourceForTier t p true (snd (LoadFromEnv Getenv ParseFloat ParseDuration)) = #"env".
Proof.
  unfold resolveRateLimitConfig in Hres.
  destruct (LoadFromEnv Getenv ParseFloat ParseDuration) as [envCfg envMask]. simpl in *.
  rewrite Hlocked in Hres. injection Hres as <-. split.
  - unfold applyPayload, ApplyOverrides. cbn [rl_Tiers].
    rewrite (override_once _ _ t (override_config ov)); [|done|].
    + unfold override_tier, override_config, override_int. cbn [tc_Max]. rewrite Hmax. simpl.
      by rewrite (proj2 (Z.eqb_neq m 0)).
    + apply list_elem_of_omap. exists (name, ov). split; [done|]. by rewrite Hname.
  - unfold rateLimitSourceForTier, Any. rewrite Henv. by rewrite !orb_true_r.
Qed.
End Settings.

Definition env_max (k : bytes) : bytes :=
  if bool_decide (k = #"AGENT_VAULT_RATELIMIT_AUTH_MAX") then #"20" else [].

Definition payload_max : rateLimitSettingPayload :=
  {| pl_Profile := #"strict";
     pl_Overrides := [(#"AUTH", {| ov_Rate := None; ov_Burst := None; ov_Window := [];
                                   ov_Max := Some 500; ov_Concurrency := None |})] |}.

Lemma accepted_update_keeps_floors_witness :
  5 <= tc_Max (rl_Tiers (@candidate latin1_tables env_max (λ _, None) (λ _, None) payload_max) TierAuth).
Proof.
  apply (@accepted_update_keeps_floors latin1_tables env_max (λ _, None) (λ _, None) false payload_max);
    vm_compute; reflexivity.
Defined.

Lemma override_beats_env_witness :
  ∃ cfg, @resolveRateLimitConfig latin1_tables env_max (λ _, None) (λ _, None) (Ok (Some payload_max)) = Ok cfg ∧
    tc_Max (rl_Tiers cfg TierAuth) = 500 ∧
    tc_Max (rl_Tiers (fst (@LoadFromEnv latin1_tables env_max (λ _, None) (λ _, None))) TierAuth) = 20.
Proof.
  exists (@candidate latin1_tables env_max (λ _, None) (λ _, None) payload_max).
  split; [reflexivity|]. split; [|vm_compute; reflexivity].
  eapply (@override_beats_env latin1_tables env_max (λ _, None) (λ _, None) payload_max TierAuth #"AUTH"
    {| ov_Rate := None; ov_Burst := None; ov_Window := []; ov_Max := Some 500; ov_Concurrency := None |} 500);
    try reflexivity.
  - vm_compute. repeat constructor. intros Hx. by apply not_elem_of_nil in Hx.
  - left.
  - lia.
Defined.
