(* ===== verification/SqlClassify.v ===== *)
(** * Splitting SQL text ([internal/pgproxy/session_state.go]:
    [splitStatementsRaw], [splitStatements], [identChar])

    The scanner walks the text once; [prev] holds the bytes already passed,
    nearest first, for the tests on [sql[i-1]] and [sql[i-2]].  Each token
    function returns how many bytes it takes. *)

From S2P Require Import Prelude GoString GoRegexp.

Definition identChar (c : byte) : bool :=
  let z := bval c in (z =? 95) || is_lower z || is_upper z || is_digit z || (128 <=? z).

Definition beq (b c : byte) : bool := bool_decide (b = c).

(** Bytes up to a newline or the end. *)
Fixpoint line_len (s : bytes) : nat :=
  match s with
  | [] => 0
  | b :: s' => if beq b x0a then 0 else S (line_len s')
  end.

(** A nested block comment, from its opening; [None] at the end of the text. *)
Fixpoint comment_len (depth : nat) (s : bytes) : option nat :=
  match s with
  | [] => None
  | b :: s' =>
      match s' with
      | c :: s'' =>
          if beq b x2f && beq c x2a then (λ n, S (S n)) <$> comment_len (S depth) s''
          else if beq b x2a && beq c x2f then
            if bool_decide (depth = 1%nat) then Some 2%nat
            else (λ n, S (S n)) <$> comment_len (pred depth) s''
          else S <$> comment_len depth s'
      | [] => S <$> comment_len depth s'
      end
  end.

(** The rest of a literal after its opening quote [q]; doubled quotes, and
    backslash pairs when [escapes], stay inside. *)
Fixpoint quoted_len (q : byte) (escapes : bool) (s : bytes) : option nat :=
  match s with
  | [] => None
  | b :: s' =>
      if escapes && beq b x5c then
        match s' with
        | [] => None
        | _ :: s'' => (λ n, S (S n)) <$> quoted_len q escapes s''
        end
      else if beq b q then
        match s' with
        | c :: s'' => if beq c q then (λ n, S (S n)) <$> quoted_len q escapes s'' else Some 1%nat
        | [] => Some 1%nat
        end
      else S <$> quoted_len q escapes s'
  end.

(** The identifier run of a dollar tag: its first byte is not a digit. *)
Fixpoint ident_run (s : bytes) : nat :=
  match s with
  | b :: s' => if identChar b then S (ident_run s') else 0
  | [] => 0
  end.
Definition tag_run (s : bytes) : nat :=
  match s with
  | b :: _ => if is_digit (bval b) then 0 else ident_run s
  | [] => 0
  end.

(** What the scanner does at one position: how many bytes it takes and what it
    appends to the cleaned statement, a statement end, or failure. *)
Inductive lexeme := Text (n : nat) (out : bytes) | EndStatement | Unterminated.

Definition prev_is (p : byte → bool) (prev : bytes) : bool :=
  match prev with b :: _ => p b | [] => false end.

(** [i > 0 && (sql[i-1] == 'e' || 'E') && (i < 2 || !identChar(sql[i-2]))] *)
Definition e_string (prev : bytes) : bool :=
  match prev with
  | b :: prev' => (beq b x65 || beq b x45) && negb (prev_is identChar prev')
  | [] => false
  end.

Definition next (prev rest : bytes) : option lexeme :=
  match rest with
  | [] => None
  | c :: rest' =>
      let second := head rest' in
      Some (
        if beq c x2d && bool_decide (second = Some x2d) then Text (line_len rest) #" "
        else if beq c x2f && bool_decide (second = Some x2a) then
          match comment_len 0 rest with Some n => Text n #" " | None => Unterminated end
        else if beq c x27 then
          match quoted_len x27 (e_string prev) rest' with
          | Some n => Text (S n) #"''" | None => Unterminated end
        else if beq c x22 then
          match quoted_len x22 false rest' with
          | Some n => Text (S n) [x22; x78; x22] | None => Unterminated end
        else if beq c x24 && negb (prev_is identChar prev) then
          let e := tag_run rest' in
          if bool_decide (rest' !! e = Some x24) then
            let tag := take (S (S e)) rest in
            match Index (drop (S (S e)) rest) tag with
            | Some closing => Text (S (S e) + closing + length tag) #"''"
            | None => Unterminated
            end
          else Text 1 [c]
        else if beq c x3b then EndStatement
        else Text 1 [c])
  end.

(** [cur] and [raw] are the current statement, cleaned and as written. *)
Fixpoint scan (fuel : nat) (prev rest cur raw : bytes) : option (list (bytes * bytes)) :=
  match next prev rest with
  | None => Some [(cur, raw)]
  | Some Unterminated => None
  | Some EndStatement =>
      match fuel with
      | O => None
      | S f => cons (cur, raw) <$> scan f (x3b :: prev) (drop 1 rest) [] []
      end
  | Some (Text n out) =>
      match fuel with
      | O => None
      | S f => scan f (rev (take n rest) ++ prev) (drop n rest) (cur ++ out) (raw ++ take n rest)
      end
  end.

(** Pairs of a cleaned statement and its original text; [None] when the text
    ends inside a comment, string or quoted identifier. *)
Definition splitStatementsRaw (sql : bytes) : option (list (bytes * bytes)) :=
  scan (length sql) [] sql [] [].

Definition splitStatements (sql : bytes) : option (list bytes) :=
  (λ l, l.*1) <$> splitStatementsRaw sql.

(** ** Facts *)

Lemma comment_len_bound s : ∀ d n, comment_len d s = Some n → (n <= length s)%nat.
Proof.
  induction s as [|b|b c s IH1 IH2] using pairs_ind; intros d n; [done|done|].
  change (comment_len d (b :: c :: s)) with
    (if beq b x2f && beq c x2a then (λ n, S (S n)) <$> comment_len (S d) s
     else if beq b x2a && beq c x2f then
       if bool_decide (d = 1%nat) then Some 2%nat else (λ n, S (S n)) <$> comment_len (pred d) s
     else S <$> comment_len d (c :: s)).
  cbn [length]. repeat case_match; rewrite ?fmap_Some; intros HH;
    try (destruct HH as (m & HH & ->); apply IH1 in HH || apply IH2 in HH; cbn [length] in *; lia).
  simplify_eq. lia.
Qed.

(** A comment that opens at the text's start takes its two opening bytes at least. *)
Lemma comment_len_open b c s n : comment_len 0 (b :: c :: s) = Some n → (1 <= n)%nat.
Proof. simpl. repeat case_match; rewrite ?fmap_Some; intros (m & ? & ->); lia. Qed.

Lemma quoted_len_bound q esc s : ∀ n, quoted_len q esc s = Some n → (1 <= n <= length s)%nat.
Proof.
  induction s as [|b|b c s IH1 IH2] using pairs_ind; intros n.
  - done.
  - simpl. destruct (esc && beq b x5c); [done|]. destruct (beq b q); [intros [= <-]; lia|done].
  - change (quoted_len q esc (b :: c :: s)) with
      (if esc && beq b x5c then (λ n, S (S n)) <$> quoted_len q esc s
       else if beq b q then (if beq c q then (λ n, S (S n)) <$> quoted_len q esc s else Some 1%nat)
       else S <$> quoted_len q esc (c :: s)).
    cbn [length]. repeat case_match; rewrite ?fmap_Some; intros HH;
      try (destruct HH as (m & HH & ->); apply IH1 in HH || apply IH2 in HH; cbn [length] in *; lia).
    simplify_eq. lia.
Qed.

(** Every token takes at least one byte and no more than there are. *)
Lemma next_bound prev rest n out :
  next prev rest = Some (Text n out) → (1 <= n <= length rest)%nat.
Proof.
  destruct rest as [|c rest]; [done|]. unfold next. intros H%(inj Some).
  destruct (beq c x2d && _) eqn:E1.
  { injection H as <- _. b2p. unfold beq in *. b2p. subst. simpl.
    assert (∀ s, (line_len s <= length s)%nat) as Hl by (induction s; simpl; [|case_match]; lia).
    specialize (Hl rest). lia. }
  destruct (beq c x2f && _) eqn:E2.
  { destruct (comment_len 0 (c :: rest)) as [m|] eqn:E; [|done]. injection H as <- _.
    pose proof (comment_len_bound _ _ _ E). destruct rest as [|d rest]; [by destruct (beq c x2f)|].
    apply comment_len_open in E. lia. }
  destruct (beq c x27).
  { destruct (quoted_len _ _ rest) as [m|] eqn:E; [|done]. injection H as <- _.
    apply quoted_len_bound in E. simpl. lia. }
  destruct (beq c x22).
  { destruct (quoted_len _ _ rest) as [m|] eqn:E; [|done]. injection H as <- _.
    apply quoted_len_bound in E. simpl. lia. }
  destruct (beq c x24 && _) eqn:E3.
  { case_bool_decide as Ht; [|injection H as <- _; simpl; lia].
    destruct (Index _ _) as [k|] eqn:E; [|done]. injection H as <- _.
    apply Index_Some in E as (a & b & Hab & <-).
    assert (length (c :: rest) = S (S (tag_run rest)) + length (drop (S (S (tag_run rest))) (c :: rest)))%nat as Hlen.
    { rewrite length_drop. apply lookup_lt_Some in Ht. simpl. lia. }
    rewrite Hlen, Hab, !length_app. cbn [take length]. lia. }
  destruct (beq c x3b); [done|]. injection H as <- _. simpl. lia.
Qed.

(** With fuel for every byte the scan ends by itself: more changes nothing. *)
Lemma scan_fuel f : ∀ g prev rest cur raw,
  (length rest <= f)%nat → (length rest <= g)%nat →
  scan f prev rest cur raw = scan g prev rest cur raw.
Proof.
  induction f as [|f IH]; intros g prev rest cur raw Hf Hg.
  - destruct rest as [|b rest]; [by destruct g|simpl in Hf; lia].
  - destruct rest as [|b rest]; [by destruct g|]. destruct g as [|g]; [simpl in Hg; lia|].
    cbn [scan]. destruct (next prev (b :: rest)) as [[n out| |]|] eqn:E; try done.
    + apply next_bound in E. apply IH; rewrite length_drop; lia.
    + f_equal. simpl in *. apply IH; rewrite drop_0; lia.
Qed.

Lemma next_end prev b rest : next prev (b :: rest) = Some EndStatement → b = x3b.
Proof.
  unfold next. intros H%(inj Some). revert H. unfold beq at 6. 
  repeat (case_match; try done). by b2p.
Qed.

(** The original texts, joined by semicolons, are the whole input. *)
Lemma scan_raw f : ∀ prev rest cur raw l,
  scan f prev rest cur raw = Some l → Join l.*2 #";" = raw ++ rest ∧ l ≠ [].
Proof.
  induction f as [|f IH]; intros prev rest cur raw l H; cbn [scan] in H;
    (destruct rest as [|b rest]; [simpl in H; simplify_eq/=; by rewrite app_nil_r|]);
    destruct (next prev (b :: rest)) as [[n out| |]|] eqn:E; try done.
  - apply IH in H as [H ?]. split; [|done]. rewrite H, <- app_assoc. by rewrite take_drop.
  - apply next_end in E as ->. apply fmap_Some in H as (l' & H & ->).
    apply IH in H as [H Hne]. split; [|done].
    destruct l' as [|x l']; [done|]. change (Join ((cur, raw) :: x :: l').*2 #";")
      with (raw ++ #";" ++ Join (x :: l').*2 #";"). by rewrite H.
Qed.

(** * Classifying SQL text ([internal/pgproxy/session_state.go])

    Which text a pooled session may run: whether it pins the connection
    ([needsSession]), changes roles, creates temporary objects, changes how
    later text is read, or is a read allowed on a read-only login. *)

Section Classify.
Context `{UnicodeTables}.

(** [strings.FieldsFunc(strings.ToLower(statement), ...)]: words of ASCII
    identifier characters. *)
Definition word_sep (r : Z) : bool := (127 <? r) || negb (identChar (byte_of r)).
Definition sqlWords (statement : bytes) : list bytes := FieldsFunc (ToLower statement) word_sep.

Definition is_one_of (w : bytes) (l : list bytes) : bool := bool_decide (w ∈ l).

(** ** Session state *)

Definition sessionFunctions : list bytes :=
  [ #"set_config"; #"pg_advisory_lock"; #"pg_try_advisory_lock"; #"pg_advisory_unlock";
    #"dblink_connect"; #"lo_open"].

Definition temp_word (w : bytes) : bool := is_one_of w [ #"temp"; #"temporary"].

(** [into] directly before [temp]. *)
Fixpoint into_temp (words : list bytes) : bool :=
  match words with
  | w :: words' =>
      (bool_decide (w = #"into") && match words' with t :: _ => temp_word t | [] => false end)
      || into_temp words'
  | [] => false
  end.

Definition safe_starts : list bytes :=
  [ #"select"; #"insert"; #"update"; #"delete"; #"merge"; #"with"; #"values"; #"table"; #"begin";
    #"start"; #"commit"; #"end"; #"rollback"; #"abort"; #"savepoint"; #"release"; #"show"; #"explain";
    #"copy"; #"lock"; #"notify"; #"fetch"; #"move"; #"close"; #"alter"; #"drop"; #"comment"; #"grant";
    #"revoke"; #"truncate"; #"analyze"; #"refresh"; #"reindex"; #"cluster"; #"vacuum"].

Definition transactionSafe (statement : bytes) : bool :=
  match sqlWords statement with
  | [] => true
  | w0 :: rest as words =>
      if existsb (λ f, existsb (λ w, HasPrefix w f) words) sessionFunctions then false
      else if into_temp words || existsb (λ w, HasPrefix w #"pg_temp") words then false
      else if is_one_of w0 safe_starts then true
      else if bool_decide (w0 = #"declare") then
        negb (Contains (#" " ++ Join words #" " ++ #" ") #" with hold ")
      else if bool_decide (w0 = #"create") then negb (existsb temp_word (take 4 rest))
      else if bool_decide (w0 = #"set") then
        match rest with
        | w1 :: _ => is_one_of w1 [ #"local"; #"transaction"; #"constraints"]
        | [] => false
        end
      else false
  end.

Definition needsSession (sql : bytes) : bool :=
  match splitStatements sql with
  | None => true
  | Some statements => existsb (λ s, negb (transactionSafe s)) statements
  end.

Definition changes_role_words (words : list bytes) : bool :=
  match words with
  | w0 :: w1 :: _ =>
      bool_decide (w0 = #"alter") && is_one_of w1 [ #"role"; #"user"; #"group"; #"database"]
  | _ => false
  end.

Definition changesRole (sql : bytes) : bool :=
  match splitStatements sql with
  | None => true
  | Some statements => existsb (λ s, changes_role_words (sqlWords s)) statements
  end.

(** ** Temporary objects *)

(** The loop over the words of one statement: [None] where it returns true,
    else the flags update, settings, searchPath. [before] holds the words
    already passed, last first. *)
Fixpoint temp_scan (first : bytes) (i : nat) (before words : list bytes) (flags : bool * bool * bool)
  : option (bool * bool * bool) :=
  match words with
  | [] => Some flags
  | w :: words' =>
      let '(update, settings, searchPath) := flags in
      if temp_word w then
        if existsb (λ b, is_one_of b [ #"create"; #"into"]) (take 3 before) then None
        else temp_scan first (S i) (w :: before) words' flags
      else if HasPrefix w #"set_config" then None
      else
        let flags' :=
          if bool_decide (w = #"update") then (true, settings, searchPath)
          else if bool_decide (w = #"pg_settings") then (update, true, searchPath)
          else if bool_decide (w = #"search_path") ||
                  (bool_decide (first = #"set") && (i <=? 2)%nat && bool_decide (w = #"schema"))
          then (update, settings, true) else flags in
        temp_scan first (S i) (w :: before) words' flags'
  end.

Definition has_backslash (s : bytes) : bool := ContainsByte s x5c.

Definition statement_temp (sql statement : bytes) : bool :=
  match sqlWords statement with
  | [] => false
  | w0 :: _ as words =>
      if bool_decide (w0 = #"do") then true
      else match temp_scan w0 0 [] words (false, false, false) with
           | None => true
           | Some (update, settings, searchPath) =>
               (update && settings) || (searchPath && has_backslash sql)
           end
  end.

Definition createsTemporary (sql : bytes) : bool :=
  let lower := ToLower sql in
  if Contains lower #"pg_temp" || Contains lower #"u&'" || Contains lower [x75; x26; x22] then true
  else match splitStatements sql with
       | None => true
       | Some statements => existsb (statement_temp sql) statements
       end.

(** ** Settings that change how text is read *)

(** One ASCII letter under [(?i)]: both cases, and the runes that fold to it. *)
Definition ci (c : Z) : regex :=
  RCls (λ r, (ascii_lower r =? c) || ((c =? 115) && (r =? 383)) || ((c =? 107) && (r =? 8490))).
Definition ci_str (s : bytes) : regex := foldr (λ b r, RSeq (ci (bval b)) r) REps s.
Definition ws : regex := RCls (λ c, bool_decide (c ∈ [9; 10; 12; 13; 32])).
Definition value_char : regex :=
  RCls (λ c, is_alnum c || (c =? 95) || (c =? 45) || (c =? 383) || (c =? 8490)).
Definition quote_opt : regex := ROpt (RChar x27).

Definition lexerSet : regex :=
  RSeq (RStar ws) (RSeq (ci_str #"set") (RSeq (RPlus ws)
    (RSeq (ROpt (RSeq (ci_str #"session") (RPlus ws)))
      (RSeq (RCap 1 (RAlt (ci_str #"standard_conforming_strings")
                       (RAlt (ci_str #"client_encoding") (ci_str #"names"))))
        (RSeq (RStar ws)
          (RSeq (RAlt (RChar x3d) (RAlt (RSeq (RPlus ws) (RSeq (ci_str #"to") (RPlus ws))) ws))
            (RSeq (RStar ws) (RSeq quote_opt
              (RSeq (RCap 2 (RPlus value_char)) (RSeq quote_opt (RStar ws))))))))))).

(** [strings.EqualFold] of matched runes against an ASCII word. *)
Definition fold_rune (r : Z) : Z :=
  if r =? 383 then 115 else if r =? 8490 then 107 else ascii_lower r.
Definition fold_equal (rs : list Z) (w : bytes) : bool :=
  bool_decide (map fold_rune rs = map (λ b, fold_rune (bval b)) w).

Definition lexer_word (w : bytes) : bool :=
  is_one_of w [ #"standard_conforming_strings"; #"client_encoding"; #"names"].

(** Whether the statement sets a lexer setting, and whether in the safe form. *)
Definition lexerSetting (words : list bytes) (raw : bytes) : bool * bool :=
  match words with
  | w0 :: w1 :: _ =>
      if negb (bool_decide (w0 = #"set")) then (false, false)
      else if negb (existsb lexer_word (take 2 (tail words))) then (false, false)
      else match full_captures lexerSet (runes raw) with
           | None => (true, false)
           | Some m =>
               let value := ToLower (concat (map EncodeRune (default [] (capture 2 m)))) in
               if fold_equal (default [] (capture 1 m)) #"standard_conforming_strings"
               then (true, bool_decide (value = #"on")) else (true, bool_decide (value = #"utf8"))
           end
  | _ => (false, false)
  end.

Fixpoint lexer_loop (l : list (bytes * bytes)) (started : bool) : bool * bool :=
  match l with
  | [] => (false, started)
  | (statement, raw) :: l' =>
      match sqlWords statement with
      | [] => lexer_loop l' started
      | words =>
          let '(isSet, safe) := lexerSetting words raw in
          if isSet && (negb safe || started) then (true, true)
          else lexer_loop l' (if isSet then started else true)
      end
  end.

(** Whether to refuse the text, and the session's [started] flag after it. *)
Definition changesLexer (sql : bytes) (started : bool) : bool * bool :=
  match splitStatementsRaw sql with
  | None => (false, true)
  | Some l => lexer_loop l started
  end.

(** ** Read-only logins *)

Definition write_keywords : list bytes :=
  [ #"insert"; #"update"; #"delete"; #"merge"; #"into"; #"create"; #"drop"; #"alter"; #"truncate";
    #"grant"; #"revoke"; #"copy"; #"call"; #"do"; #"lock"; #"listen"; #"notify"; #"refresh"; #"vacuum";
    #"cluster"; #"reindex"; #"import"; #"security"].

Definition readQuery (words : list bytes) : bool :=
  negb (existsb (λ w, is_one_of w write_keywords) words).

Definition readOnlySettings : list bytes :=
  [ #"search_path"; #"schema"; #"statement_timeout"; #"lock_timeout";
    #"idle_in_transaction_session_timeout"; #"application_name"; #"timezone"; #"datestyle";
    #"intervalstyle"; #"extra_float_digits"; #"client_min_messages"; #"bytea_output";
    #"standard_conforming_strings"; #"client_encoding"; #"names"].

(** [rest] is [words[1:]]. *)
Definition readOnlySet (words rest : list bytes) (raw : bytes) : bool :=
  if is_one_of #"write" words then false
  else
    let name := match rest with
                | w :: rest' => if is_one_of w [ #"session"; #"local"] then rest' else rest
                | [] => rest
                end in
    match name with
    | [] => false
    | n0 :: name' =>
        if is_one_of n0 [ #"transaction"; #"characteristics"; #"constraints"] then true
        else if bool_decide (n0 = #"time") && bool_decide (head name' = Some #"zone") then true
        else if is_one_of n0 [ #"search_path"; #"schema"] then negb (has_backslash raw)
        else is_one_of n0 readOnlySettings
    end.

(** EXPLAIN: what follows the first word that decides. *)
Fixpoint explain_read (words : list bytes) : bool :=
  match words with
  | [] => false
  | w :: words' =>
      if is_one_of w [ #"select"; #"values"; #"table"; #"with"] then readQuery words
      else if is_one_of w [ #"insert"; #"update"; #"delete"; #"merge"; #"create"; #"execute"; #"declare"]
      then false else explain_read words'
  end.

Definition readOnlyStatement (words : list bytes) (raw : bytes) : bool :=
  match words with
  | [] => false                           (* not called without words *)
  | w0 :: rest =>
      if is_one_of w0 [ #"select"; #"values"; #"table"; #"with"; #"declare"] then readQuery words
      else if bool_decide (w0 = #"explain") then explain_read rest
      else if is_one_of w0 [ #"show"; #"commit"; #"end"; #"rollback"; #"abort"; #"savepoint"; #"release";
                             #"fetch"; #"move"; #"close"; #"deallocate"] then true
      else if is_one_of w0 [ #"begin"; #"start"] then negb (is_one_of #"write" words)
      else if bool_decide (w0 = #"set") then readOnlySet words rest raw
      else if bool_decide (w0 = #"reset") then
        match rest with [w1] => is_one_of w1 readOnlySettings | _ => false end
      else false
  end.

Definition banned_text : list bytes :=
  [ #"pg_temp"; #"set_config"; #"pg_settings"; #"u&'"; [x75; x26; x22]].

Definition readOnlyAllowed (sql : bytes) : bool :=
  let lower := ToLower sql in
  if existsb (Contains lower) banned_text then false
  else if createsTemporary sql then false
  else match splitStatementsRaw sql with
       | None => false
       | Some l =>
           forallb (λ '(statement, raw),
             match sqlWords statement with [] => true | words => readOnlyStatement words raw end) l
       end.
End Classify.

(** ** The splitter *)

(** The scanner ends on every input (fuel beyond one unit per byte changes
    nothing), and when it accepts, the original texts of the statements joined by
    semicolons are exactly the input: no byte of what the server will read is
    outside the statements the classifiers see. *)
Theorem splitStatementsRaw_complete sql :
  (∀ fuel, (length sql <= fuel)%nat → scan fuel [] sql [] [] = splitStatementsRaw sql) ∧
  match splitStatementsRaw sql with
  | Some l => Join l.*2 #";" = sql ∧ l ≠ []
  | None => True
  end.
Proof.
  split.
  - intros fuel Hf. by apply scan_fuel.
  - destruct (splitStatementsRaw sql) as [l|] eqn:E; [|done]. by apply scan_raw in E.
Qed.

(** ** What a read-only login may run *)

Section ReadOnly.
Context `{UnicodeTables}.

Definition query_starts : list bytes := [ #"select"; #"values"; #"table"; #"with"; #"declare"].
Definition control_starts : list bytes :=
  [ #"show"; #"commit"; #"end"; #"rollback"; #"abort"; #"savepoint"; #"release"; #"fetch"; #"move";
    #"close"; #"deallocate"; #"begin"; #"start"; #"set"; #"reset"; #"explain"].

(** A statement of an accepted text, by its words. *)
Definition read_statement (words : list bytes) : Prop :=
  match words with
  | [] => True
  | w0 :: rest =>
      (w0 ∈ query_starts ∧ ∀ w, w ∈ words → w ∉ write_keywords) ∨
      (w0 ∈ control_starts ∧
       (w0 ∈ [ #"begin"; #"start"; #"set"] → #"write" ∉ words) ∧
       (w0 = #"explain" → ∃ a b, rest = a ++ b ∧ b ≠ [] ∧ (∀ w, w ∈ b → w ∉ write_keywords)))
  end.

Lemma readQuery_spec words : readQuery words = true ↔ ∀ w, w ∈ words → w ∉ write_keywords.
Proof.
  unfold readQuery, is_one_of. rewrite negb_true_iff, existsb_false.
  by setoid_rewrite bool_decide_eq_false.
Qed.

Lemma explain_read_spec words :
  explain_read words = true → ∃ a b, words = a ++ b ∧ b ≠ [] ∧ ∀ w, w ∈ b → w ∉ write_keywords.
Proof.
  induction words as [|w words IH]; [done|]. cbn [explain_read].
  destruct (is_one_of w [ #"select"; #"values"; #"table"; #"with"]).
  - intros Hq. exists [], (w :: words). by rewrite <- readQuery_spec.
  - destruct (is_one_of w _); [done|]. intros (a & b & -> & ?)%IH. by exists (w :: a), b.
Qed.

Lemma readOnlyStatement_sound words raw :
  readOnlyStatement words raw = true → read_statement words.
Proof.
  unfold readOnlyStatement, read_statement, is_one_of. destruct words as [|w0 rest]; [done|].
  destruct (bool_decide (w0 ∈ [ #"select"; #"values"; #"table"; #"with"; #"declare"])) eqn:E1; b2p.
  { intros Hq. left. split; [done|]. by apply readQuery_spec. }
  assert (Hctl : ∀ k, w0 ∈ k → forallb (λ y, bool_decide (y ∈ control_starts)) k = true → w0 ∈ control_starts)
    by (intros k Hk Hc; by eapply incl_check).
  assert (Hnot : ∀ k, w0 ∈ k → forallb (λ y, negb (bool_decide (y ∈ [ #"begin"; #"start"; #"set"]))) k = true →
    w0 ∈ [ #"begin"; #"start"; #"set"] → #"write" ∉ w0 :: rest).
  { intros k Hk Hc Hin. by apply (disj_check _ _ _ Hc) in Hk. }
  intros Hrest. right. case_bool_decide as E2.
  { assert (Hin : w0 ∈ [ #"explain"]) by (subst; left).
    split_and!; [by apply (Hctl _ Hin) | by apply (Hnot _ Hin) | intros _; by apply explain_read_spec]. }
  assert (Hex : w0 = #"explain" → ∃ a b, rest = a ++ b ∧ b ≠ [] ∧ ∀ w, w ∈ b → w ∉ write_keywords)
    by done.
  case_bool_decide as E3.
  { split_and!; [by apply (Hctl _ E3) | by apply (Hnot _ E3) | done]. }
  case_bool_decide as E4.
  { b2p. split_and!; [by apply (Hctl _ E4) | done | done]. }
  case_bool_decide as E5.
  { assert (Hin : w0 ∈ [ #"set"]) by (subst; left).
    split_and!; [by apply (Hctl _ Hin) | intros _ | done]. unfold readOnlySet, is_one_of in Hrest.
    case_bool_decide; done. }
  case_bool_decide as E6; [|done]. assert (Hin : w0 ∈ [ #"reset"]) by (subst; left).
  split_and!; [by apply (Hctl _ Hin) | by apply (Hnot _ Hin) | done].
Qed.

Lemma read_statement_role words : read_statement words → changes_role_words words = false.
Proof.
  destruct words as [|w0 [|w1 rest]]; [done|done|]. unfold changes_role_words. case_bool_decide; [|done].
  subst. intros [[Hq _]|[Hc _]]; exfalso; revert Hq || revert Hc; apply disj_check with (l := [ #"alter"]);
    (vm_compute; reflexivity) || left.
Qed.


End ReadOnly.


(** A dollar sign that follows another dollar sign inside an identifier is
    taken for the start of a dollar quote, so the text up to the next such tag is
    not seen: this three-statement text, whose identifiers [a$$b$] and [c$b$] the
    server reads whole, is accepted on a read-only login as one SELECT, keeps its
    pooled connection, and hides an ALTER ROLE. *)
Theorem dollar_identifier_hides_statement `{UnicodeTables} :
  let hidden := #"SELECT 1 AS a$$b$; ALTER ROLE app SET search_path = evil; SELECT 1 AS c$b$" in
  readOnlyAllowed hidden = true ∧ needsSession hidden = false ∧ changesRole hidden = false ∧
  length <$> splitStatements hidden = Some 1%nat ∧
  changesRole #"SELECT 1 AS a; ALTER ROLE app SET search_path = evil; SELECT 1 AS c" = true.
Proof. split_and!; vm_compute; reflexivity. Qed.

(** [SELECT ... INTO LOCAL TEMP] and [INTO GLOBAL TEMPORARY], which create a
    temporary table as [INTO TEMP] does and which [createsTemporary] recognises,
    do not pin the session. *)
Theorem into_local_temp_not_pinned `{UnicodeTables} :
  needsSession #"SELECT 1 AS x INTO TEMP t" = true ∧
  needsSession #"SELECT 1 AS x INTO LOCAL TEMP t" = false ∧
  needsSession #"SELECT 1 AS x INTO GLOBAL TEMPORARY t" = false ∧
  createsTemporary #"SELECT 1 AS x INTO LOCAL TEMP t" = true.
Proof. split_and!; vm_compute; reflexivity. Qed.

(** ** Lexer settings over a session *)

Section LexerSession.
Context `{UnicodeTables}.

(** What one statement is to the lexer check: a setting (safe or not), or
    anything else. *)
Inductive kind := KSet (safe : bool) | KOther.

Definition kind_of (p : bytes * bytes) : option kind :=
  let '(statement, raw) := p in
  match sqlWords statement with
  | [] => None
  | words => let '(isSet, safe) := lexerSetting words raw in Some (if isSet then KSet safe else KOther)
  end.

(** Unterminated text counts as one other statement. *)
Definition kinds (sql : bytes) : list kind :=
  match splitStatementsRaw sql with None => [KOther] | Some l => omap kind_of l end.

(** A session's texts, none refused; [started] is threaded through them. *)
Fixpoint session_accepted (started : bool) (texts : list bytes) : bool :=
  match texts with
  | [] => true
  | sql :: texts' =>
      let '(refuse, next) := changesLexer sql started in negb refuse && session_accepted next texts'
  end.

Lemma lexer_loop_kinds l : ∀ started next,
  lexer_loop l started = (false, next) →
  ∃ a b, omap kind_of l = replicate a (KSet true) ++ replicate b KOther ∧
         (started = true → a = 0%nat) ∧ (next = started || bool_decide (b ≠ 0%nat)).
Proof.
  induction l as [|[st raw] l IH]; intros started next; cbn [lexer_loop omap list_omap].
  { intros [= <-]. exists 0%nat, 0%nat. by rewrite bool_decide_eq_false_2, orb_false_r by lia. }
  unfold kind_of at 1. destruct (sqlWords st) as [|w ws] eqn:Ew; [apply IH|].
  destruct (lexerSetting (w :: ws) raw) as [[] safe] eqn:El; cbn [andb].
  - destruct safe; [|done]. destruct started; [done|]. cbn [negb orb].
    intros (a & b & -> & _ & Hn)%IH. exists (S a), b. done.
  - intros (a & b & -> & Ha & Hn)%IH. rewrite (Ha eq_refl). exists 0%nat, (S b).
    split_and!; [done|done|]. rewrite bool_decide_eq_true_2 by lia. by rewrite orb_true_r, Hn.
Qed.

Lemma session_kinds texts : ∀ started,
  session_accepted started texts = true →
  ∃ a b, concat (map kinds texts) = replicate a (KSet true) ++ replicate b KOther ∧
         (started = true → a = 0%nat).
Proof.
  induction texts as [|sql texts IH]; intros started; simpl.
  { intros _. by exists 0%nat, 0%nat. }
  unfold changesLexer, kinds at 1. destruct (splitStatementsRaw sql) as [l|].
  - destruct (lexer_loop l started) as [[] next] eqn:E; [done|]. cbn [negb andb].
    intros (a' & b' & -> & Ha')%IH. apply lexer_loop_kinds in E as (a & b & -> & Ha & Hn).
    destruct (decide (b = 0%nat)) as [->|Hb].
    + exists (a + a')%nat, b'. rewrite replicate_add, app_nil_r, <- app_assoc. split; [done|].
      intros Hs. rewrite Hs in Hn. specialize (Ha Hs). subst. simpl in Ha'. by rewrite Ha'.
    + rewrite bool_decide_eq_true_2, orb_true_r in Hn by done. rewrite (Ha' Hn).
      exists a, (b + b')%nat. by rewrite replicate_add, <- app_assoc.
  - simpl. intros (a & b & -> & Ha)%IH. rewrite (Ha eq_refl). by exists 0%nat, (S b).
Qed.

(** Over a whole session in which no text was refused, every statement that
    sets how the server reads text is in the safe form and comes before the
    session's first other statement, across message boundaries and empty
    statements. *)
Theorem lexer_settings_come_first texts (Hok : session_accepted false texts = true) :
  ∃ a b, concat (map kinds texts) = replicate a (KSet true) ++ replicate b KOther.
Proof. destruct (session_kinds texts false Hok) as (a & b & E & _). eauto. Qed.
End LexerSession.

Definition driver_session : list bytes :=
  [ #"SET standard_conforming_strings=on; ;SET client_encoding TO 'utf8'"; #"SELECT 1; SELECT 2"].

Lemma lexer_settings_come_first_witness :
  concat (map (@kinds latin1_tables) driver_session) = [KSet true; KSet true; KOther; KOther] ∧
  ∃ a b, concat (map (@kinds latin1_tables) driver_session) = replicate a (KSet true) ++ replicate b KOther.
Proof.
  split; [vm_compute; reflexivity|].
  apply (@lexer_settings_come_first latin1_tables driver_session). vm_compute. reflexivity.
Defined.
