(* ===== verification/PgWire.v ===== *)
(** * PostgreSQL framing and the read-only relay
    ([internal/pgproxy/readonly_relay.go], [message_reader.go])

    A client stream is its bytes; it ends where the connection does.  What the
    relay hands to its buffered writer is [out]: the database receives a prefix
    of it, because the last part may stay in the buffer when the session ends. *)

From S2P Require Import Prelude GoString GoStrconv SqlClassify.

Definition maxReadOnlyStatementBytes : Z := 64 * 2 ^ 20.

(** The text up to the first NUL, and what follows it. *)
Definition cut_nul (s : bytes) : option (bytes * bytes) :=
  (λ i, (take i s, drop (S i) s)) <$> IndexByte s x00.

(** The SQL of a Query or Parse body. *)
Definition statementText (kind : byte) (payload : bytes) : option bytes :=
  if bool_decide (kind = x50) then
    match cut_nul payload with
    | None => None
    | Some (_, rest) => fst <$> cut_nul rest
    end
  else fst <$> cut_nul payload.

(** [binary.BigEndian.Uint32] of a four-byte slice. *)
Definition length_word (b : bytes) : Z :=
  match b with [h1; h2; h3; h4] => Uint32BigEndian h1 h2 h3 h4 | _ => 0 end.

(** [Refused] is the result [true]; [Ended] is [false]. *)
Inductive outcome := Refused | Ended.

Section Relay.
Context `{UnicodeTables}.

(** One iteration per message; every message takes at least five bytes, so the
    length of the stream is fuel enough. *)
Fixpoint relay_loop (fuel : nat) (input out : bytes) (started : bool) : bytes * outcome :=
  match fuel with
  | O => (out, Ended)
  | S f =>
      match input with
      | k :: h1 :: h2 :: h3 :: h4 :: rest =>
          let header := [k; h1; h2; h3; h4] in
          let len := length_word [h1; h2; h3; h4] in
          if len <? 4 then (out, Ended)
          else
            let body := len - 4 in
            if bool_decide (k = x46) then (out, Refused)
            else if bool_decide (k = x51) || bool_decide (k = x50) then
              if maxReadOnlyStatementBytes <? body then (out, Refused)
              else if Z.of_nat (length rest) <? body then (out, Ended)
              else
                let payload := take (Z.to_nat body) rest in
                match statementText k payload with
                | None => (out, Ended)
                | Some sql =>
                    let '(refused, started') := changesLexer sql started in
                    if refused || negb (readOnlyAllowed sql) then (out, Refused)
                    else relay_loop f (drop (Z.to_nat body) rest) (out ++ header ++ payload) started'
                end
            else
              let payload := take (Z.to_nat body) rest in
              if Z.of_nat (length rest) <? body then (out ++ header ++ payload, Ended)
              else relay_loop f (drop (Z.to_nat body) rest) (out ++ header ++ payload) started
      | _ => (out, Ended)
      end
  end.

Definition copyClientReadOnly (input : bytes) : bytes * outcome :=
  relay_loop (length input) input [] false.

(** ** What reaches the database *)

(** A whole message: its type, its length word and its body. *)
Record message := { m_kind : byte; m_len : bytes; m_body : bytes }.

Definition frame (m : message) : bytes := m_kind m :: m_len m ++ m_body m.

Definition framed (m : message) : Prop :=
  length (m_len m) = 4%nat ∧ length_word (m_len m) = Z.of_nat (length (m_body m)) + 4.

Definition is_statement (k : byte) : Prop := k = x51 ∨ k = x50.

(** The SQL texts of the statements among the messages. *)
Definition texts (ms : list message) : list bytes :=
  omap (λ m, if bool_decide (m_kind m = x51) || bool_decide (m_kind m = x50)
             then statementText (m_kind m) (m_body m) else None) ms.

Definition allowed_message (m : message) : Prop :=
  framed m ∧ m_kind m ≠ x46 ∧
  (is_statement (m_kind m) →
   ∃ sql, statementText (m_kind m) (m_body m) = Some sql ∧ readOnlyAllowed sql = true).

(** A message cut short by the end of the client's stream, never a statement. *)
Definition cut_message (t : bytes) : Prop :=
  t = [] ∨ ∃ k rest, t = k :: rest ∧ ¬ is_statement k ∧ k ≠ x46.

Lemma session_accepted_app l : ∀ started k,
  session_accepted started (l ++ k) =
  session_accepted started l && session_accepted (foldl (λ s t, snd (changesLexer t s)) started l) k.
Proof.
  induction l as [|t l IH]; intros started k; [done|]. cbn [app session_accepted foldl].
  destruct (changesLexer t started) as [r s]. rewrite IH. cbn [snd]. by rewrite andb_assoc.
Qed.

Definition relay_inv (ms : list message) (started : bool) : Prop :=
  Forall allowed_message ms ∧ session_accepted false (texts ms) = true ∧
  started = foldl (λ s t, snd (changesLexer t s)) false (texts ms).

(** [out] extends the messages [ms] already forwarded by allowed messages taken
    from the front of [input], and possibly a cut one. *)
Definition relay_ok (ms : list message) (input out : bytes) : Prop :=
  ∃ ms' t, out = concat (map frame (ms ++ ms')) ++ t ∧
    (∃ rest, input = concat (map frame ms') ++ t ++ rest) ∧
    Forall allowed_message (ms ++ ms') ∧ session_accepted false (texts (ms ++ ms')) = true ∧ cut_message t.

Lemma relay_stop input ms started : relay_inv ms started → relay_ok ms input (concat (map frame ms)).
Proof.
  intros (H1 & H2 & _). exists [], []. rewrite !app_nil_r.
  split_and!; [done| by exists input | done | done | by left].
Qed.

(** Forwarding one more whole message first. *)
Lemma relay_extend ms m input out :
  relay_ok (ms ++ [m]) input out → relay_ok ms (frame m ++ input) out.
Proof.
  intros (ms' & t & E & [rest Hr] & HA & HS & HC). rewrite <- app_assoc in E, HA, HS.
  exists (m :: ms'), t. split_and!; try done. exists rest. cbn [map concat].
  by rewrite Hr, <- app_assoc.
Qed.

Lemma frames_snoc ms m : concat (map frame (ms ++ [m])) = concat (map frame ms) ++ frame m.
Proof. rewrite map_app, concat_app. simpl. by rewrite app_nil_r. Qed.

Lemma texts_snoc ms m :
  texts (ms ++ [m]) = texts ms ++ (if bool_decide (m_kind m = x51) || bool_decide (m_kind m = x50)
                                   then option_list (statementText (m_kind m) (m_body m)) else []).
Proof.
  unfold texts. rewrite omap_app. simpl. f_equal.
  destruct (_ || _); [|done]. by destruct (statementText _ _).
Qed.

Lemma inv_statement ms started m sql started' :
  relay_inv ms started → framed m → is_statement (m_kind m) → m_kind m ≠ x46 →
  statementText (m_kind m) (m_body m) = Some sql → readOnlyAllowed sql = true →
  changesLexer sql started = (false, started') → relay_inv (ms ++ [m]) started'.
Proof.
  intros (HA & HS & Hst) Hf Hs HF Ht Hr Hc.
  assert (texts (ms ++ [m]) = texts ms ++ [sql]) as E.
  { rewrite texts_snoc, Ht. by destruct Hs as [-> | ->]. }
  split_and!.
  - apply Forall_app; split; [done|]. constructor; [|done]. split_and!; eauto.
  - rewrite E, session_accepted_app, HS, <- Hst. simpl. by rewrite Hc.
  - rewrite E, foldl_app, <- Hst. simpl. by rewrite Hc.
Qed.

Lemma inv_other ms started m :
  relay_inv ms started → framed m → ¬ is_statement (m_kind m) → m_kind m ≠ x46 →
  relay_inv (ms ++ [m]) started.
Proof.
  intros (HA & HS & Hst) Hf Hs HF. assert (texts (ms ++ [m]) = texts ms) as E.
  { rewrite texts_snoc. destruct (_ || _) eqn:B; [|by rewrite app_nil_r]. destruct Hs.
    apply orb_true_iff in B as [B|B]; b2p; [by left|by right]. }
  split_and!; [|by rewrite E|by rewrite E]. apply Forall_app; split; [done|].
  constructor; [|done]. by split_and!.
Qed.

Lemma relay_loop_spec fuel : ∀ input ms started,
  relay_inv ms started → relay_ok ms input (fst (relay_loop fuel input (concat (map frame ms)) started)).
Proof.
  induction fuel as [|f IH]; intros input ms started Hinv; cbn [relay_loop]; [by eapply relay_stop|].
  destruct input as [|k [|h1 [|h2 [|h3 [|h4 rest]]]]]; try (by eapply relay_stop).
  set (len := length_word [h1; h2; h3; h4]).
  destruct (Z.ltb_spec len 4) as [|Hlen]; [by eapply relay_stop|].
  case_bool_decide as HF; [by eapply relay_stop|].
  set (m := {| m_kind := k; m_len := [h1; h2; h3; h4]; m_body := take (Z.to_nat (len - 4)) rest |}).
  change ([k; h1; h2; h3; h4] ++ take (Z.to_nat (len - 4)) rest) with (frame m). rewrite <- frames_snoc.
  assert (Hnext : ∀ started', relay_inv (ms ++ [m]) started' →
    relay_ok ms (k :: h1 :: h2 :: h3 :: h4 :: rest)
      (fst (relay_loop f (drop (Z.to_nat (len - 4)) rest) (concat (map frame (ms ++ [m]))) started'))).
  { intros started' Hi.
    pose proof (relay_extend _ _ _ _ (IH (drop (Z.to_nat (len - 4)) rest) _ _ Hi)) as Hx.
    unfold frame at 1 in Hx. simpl in Hx. by rewrite take_drop in Hx. }
  assert (Hframed : len - 4 <= Z.of_nat (length rest) → framed m).
  { intros Hle. split; [done|]. unfold m. cbn [m_len m_body]. rewrite length_take. fold len. lia. }
  destruct (bool_decide (k = x51) || bool_decide (k = x50)) eqn:EQ.
  - destruct (_ <? len - 4); [by eapply relay_stop|].
    destruct (Z.ltb_spec (Z.of_nat (length rest)) (len - 4)) as [|Hle]; [by eapply relay_stop|].
    destruct (statementText k (take (Z.to_nat (len - 4)) rest)) as [sql|] eqn:Es; [|by eapply relay_stop].
    destruct (changesLexer sql started) as [refused started'] eqn:Ec.
    destruct (refused || negb (readOnlyAllowed sql)) eqn:Er; [by eapply relay_stop|].
    apply orb_false_iff in Er as [-> Er%negb_false_iff].
    apply Hnext. eapply inv_statement; eauto.
    apply orb_true_iff in EQ as [E|E]; b2p; [by left|by right].
  - assert (Hns : ¬ is_statement k) by (apply orb_false_iff in EQ as [E1 E2]; b2p; intros [?|?]; done).
    destruct (Z.ltb_spec (Z.of_nat (length rest)) (len - 4)) as [Hshort|Hle].
    + destruct Hinv as (HA & HS & _). exists [], (frame m). rewrite app_nil_r, frames_snoc.
      split_and!; [done| |done|done|right; by exists k, ([h1; h2; h3; h4] ++ take (Z.to_nat (len - 4)) rest)].
      exists []. rewrite app_nil_r. unfold frame, m. simpl. by rewrite take_ge by lia.
    + apply Hnext, inv_other; auto.
Qed.

End Relay.

(** ** Following the server's stream *)

(** [ft_header] holds the header bytes seen so far ([have] is its length). *)
Record frameTracker := {
  ft_header : bytes;
  ft_remaining : Z;
  ft_broken : bool;
  ft_last : byte;
  ft_status : byte;
  ft_first : bool;
}.

Definition new_tracker : frameTracker :=
  {| ft_header := []; ft_remaining := 0; ft_broken := false; ft_last := x00; ft_status := x00;
     ft_first := false |}.

(** The body branch of the loop, for [k] bytes of [p]. *)
Definition take_body (t : frameTracker) (p : bytes) (k : Z) : frameTracker :=
  {| ft_header := ft_header t; ft_remaining := ft_remaining t - k; ft_broken := ft_broken t;
     ft_last := ft_last t;
     ft_status := if ft_first t && bool_decide (ft_last t = x5a)
                  then default (ft_status t) (head p) else ft_status t;
     ft_first := false |}.

(** The header branch, after [k] bytes of [p] were copied. *)
Definition take_header (t : frameTracker) (h : bytes) : frameTracker :=
  if bool_decide (length h = 5%nat) then
    let len := length_word (drop 1 h) in
    if len <? 4
    then {| ft_header := []; ft_remaining := ft_remaining t; ft_broken := true; ft_last := ft_last t;
            ft_status := ft_status t; ft_first := ft_first t |}
    else {| ft_header := []; ft_remaining := len - 4; ft_broken := ft_broken t;
            ft_last := default x00 (head h); ft_status := ft_status t; ft_first := true |}
  else {| ft_header := h; ft_remaining := ft_remaining t; ft_broken := ft_broken t;
          ft_last := ft_last t; ft_status := ft_status t; ft_first := ft_first t |}.

(** Every iteration takes a byte, so the length of [p] is fuel enough. *)
Fixpoint advance_loop (fuel : nat) (t : frameTracker) (p : bytes) : frameTracker :=
  match fuel, p with
  | S f, _ :: _ =>
      if ft_broken t then t
      else if 0 <? ft_remaining t then
        let k := Z.min (Z.of_nat (length p)) (ft_remaining t) in
        advance_loop f (take_body t p k) (drop (Z.to_nat k) p)
      else
        let k := Nat.min (5 - length (ft_header t)) (length p) in
        advance_loop f (take_header t (ft_header t ++ take k p)) (drop k p)
  | _, _ => t
  end.

Definition advance (t : frameTracker) (p : bytes) : frameTracker := advance_loop (length p) t p.

Definition atBoundary (t : frameTracker) : bool :=
  negb (ft_broken t) && bool_decide (length (ft_header t) = 0%nat) && (ft_remaining t =? 0).

Definition idle (t : frameTracker) : bool :=
  atBoundary t && bool_decide (ft_last t = x5a) && bool_decide (ft_status t = x49).

(** The tracker one byte at a time. *)
Definition byte_step (t : frameTracker) (b : byte) : frameTracker :=
  if ft_broken t then t
  else if 0 <? ft_remaining t then take_body t [b] 1
  else take_header t (ft_header t ++ [b]).

Definition tracker_wf (t : frameTracker) : Prop :=
  (length (ft_header t) < 5)%nat ∧ 0 <= ft_remaining t ∧ (ft_header t ≠ [] → ft_remaining t = 0).

Lemma byte_step_wf t b : tracker_wf t → tracker_wf (byte_step t b).
Proof.
  intros (H1 & H2 & H3). unfold byte_step. destruct (ft_broken t); [done|].
  destruct (Z.ltb_spec 0 (ft_remaining t)).
  - unfold take_body. split_and!; simpl; [done|lia|]. intros Hh. specialize (H3 Hh). lia.
  - unfold take_header. case_bool_decide as E.
    + destruct (Z.ltb_spec (length_word (drop 1 (ft_header t ++ [b]))) 4); split_and!; simpl; try done; lia.
    + rewrite length_app in E. simpl in E. split_and!; simpl; rewrite ?length_app; simpl; lia.
Qed.

Lemma steps_broken p : ∀ t, ft_broken t = true → foldl byte_step t p = t.
Proof.
  induction p as [|b p IH]; intros t Hb; simpl; [done|].
  unfold byte_step at 2. rewrite Hb. by apply IH.
Qed.

Lemma steps_body p : ∀ t,
  ft_broken t = false → p ≠ [] → Z.of_nat (length p) <= ft_remaining t →
  foldl byte_step t p = take_body t p (Z.of_nat (length p)).
Proof.
  induction p as [|b p IH]; intros t Hb Hne Hle; [done|]. simpl in Hle. simpl foldl.
  unfold byte_step at 2. rewrite Hb, (proj2 (Z.ltb_lt 0 _)) by lia.
  destruct p as [|c p]; [done|]. rewrite IH; [|done|done|simpl in *; lia].
  unfold take_body. simpl. f_equal. lia.
Qed.

Lemma steps_header p : ∀ t,
  ft_broken t = false → ft_remaining t = 0 → p ≠ [] → (length (ft_header t ++ p) <= 5)%nat →
  foldl byte_step t p = take_header t (ft_header t ++ p).
Proof.
  induction p as [|b p IH]; intros t Hb Hr Hne Hle; [done|]. simpl foldl.
  unfold byte_step at 2. rewrite Hb, Hr. simpl. destruct p as [|c p]; [done|].
  rewrite length_app in Hle. simpl in Hle.
  assert (take_header t (ft_header t ++ [b]) =
    {| ft_header := ft_header t ++ [b]; ft_remaining := ft_remaining t; ft_broken := ft_broken t;
       ft_last := ft_last t; ft_status := ft_status t; ft_first := ft_first t |}) as ->.
  { unfold take_header. by rewrite bool_decide_eq_false_2 by (rewrite length_app; simpl; lia). }
  rewrite IH; simpl; [|done|done|done|rewrite !length_app; simpl; lia].
  rewrite <- app_assoc. simpl. unfold take_header. by case_bool_decide.
Qed.

Lemma advance_loop_steps fuel : ∀ t p,
  tracker_wf t → (length p <= fuel)%nat → advance_loop fuel t p = foldl byte_step t p.
Proof.
  induction fuel as [|f IH]; intros t p Hwf Hlen; [by destruct p; [|simpl in Hlen; lia]|].
  destruct p as [|b p]; [done|]. cbn [advance_loop]. destruct (ft_broken t) eqn:Hb; [by rewrite steps_broken|].
  assert (Hstep : ∀ k t', (1 <= k)%nat → t' = foldl byte_step t (take k (b :: p)) →
    advance_loop f t' (drop k (b :: p)) = foldl byte_step t (b :: p)).
  { intros k t' Hk ->. rewrite IH.
    - by rewrite <- foldl_app, take_drop.
    - generalize (take k (b :: p)). intros l. clear -Hwf. revert t Hwf.
      induction l as [|c l IHl]; intros t Hwf; [done|]. simpl. by apply IHl, byte_step_wf.
    - rewrite length_drop. simpl in *. lia. }
  destruct Hwf as (Hh & Hr & Hx). destruct (Z.ltb_spec 0 (ft_remaining t)) as [Hpos|Hz]; apply Hstep.
  - simpl length. lia.
  - set (k := Z.min _ _). assert (1 <= k <= Z.of_nat (length (b :: p))) by (unfold k; simpl length; lia).
    rewrite steps_body; [|done| |].
    + rewrite length_take. replace (Z.of_nat _) with k by lia.
      unfold take_body. simpl. by destruct (Z.to_nat k) eqn:E; [lia|].
    + destruct (Z.to_nat k) eqn:E; [lia|done].
    + rewrite length_take. unfold k in *. lia.
  - simpl length. lia.
  - rewrite steps_header; [done|done|lia| |].
    + destruct (Nat.min _ _) eqn:E; [simpl length in E; lia|done].
    + rewrite length_app, length_take. lia.
Qed.

Lemma advance_steps t p : tracker_wf t → advance t p = foldl byte_step t p.
Proof. intros Hwf. by apply advance_loop_steps. Qed.

Lemma steps_wf p : ∀ t, tracker_wf t → tracker_wf (foldl byte_step t p).
Proof. induction p; intros t Ht; [done|]. simpl. auto using byte_step_wf. Qed.

Lemma advance_chunks chunks : ∀ t,
  tracker_wf t → foldl advance t chunks = foldl byte_step t (concat chunks).
Proof.
  induction chunks as [|c chunks IH]; intros t Ht; [done|]. simpl.
  rewrite advance_steps by done. rewrite foldl_app. apply IH, steps_wf, Ht.
Qed.

(** Where the tracker is after a stream that has not broken the framing. *)
Inductive position (t : frameTracker) (p : bytes) : Prop :=
| between ms h :
    Forall framed ms → p = concat (map frame ms) ++ h → ft_header t = h → (length h < 5)%nat →
    ft_remaining t = 0 →
    (∀ ms' m, ms = ms' ++ [m] → ft_last t = m_kind m ∧
       (m_kind m = x5a → m_body m ≠ [] → head (m_body m) = Some (ft_status t))) →
    (ms = [] → ft_last t = x00) → position t p
| inside ms k l body :
    Forall framed ms → p = concat (map frame ms) ++ k :: l ++ body → ft_header t = [] →
    length l = 4%nat → length_word l = Z.of_nat (length body) + ft_remaining t + 4 → 0 < ft_remaining t →
    ft_last t = k → ft_first t = bool_decide (body = []) →
    (k = x5a → body ≠ [] → head body = Some (ft_status t)) → position t p.

Lemma position_step t p b :
  ft_broken t = false → position t p → ft_broken (byte_step t b) = false → position (byte_step t b) (p ++ [b]).
Proof.
  intros Hb Hp. unfold byte_step. rewrite Hb. destruct Hp as [ms h Hms -> Hh Hlen Hr Hlast Hnil
    | ms k l body Hms -> Hh Hl Hw Hr Hlast Hfirst Hst].
  - rewrite Hr, Hh. simpl. unfold take_header. case_bool_decide as E.
    + rewrite length_app in E. simpl in E. destruct h as [|k [|h1 [|h2 [|h3 [|h4 h]]]]]; simpl in E; try lia.
      simpl. destruct (Z.ltb_spec (Uint32BigEndian h1 h2 h3 b) 4) as [|Hw]; [done|]. intros _.
      destruct (decide (Uint32BigEndian h1 h2 h3 b = 4)) as [H4|H4].
      * apply between with (ms := ms ++ [{| m_kind := k; m_len := [h1; h2; h3; b]; m_body := [] |}]) (h := []);
          simpl; try done; try lia.
        -- apply Forall_app; split; [done|]. constructor; [|done]. split; [done|]. simpl. lia.
        -- rewrite frames_snoc, app_nil_r, <- app_assoc. done.
        -- intros ms' m [_ [= <-]]%app_inj_tail. split; [done|]. done.
        -- by intros [_ ?]%app_nil.
      * apply inside with (ms := ms) (k := k) (l := [h1; h2; h3; b]) (body := []); simpl; try done; try lia.
        -- by rewrite <- app_assoc.
    + rewrite length_app in E. simpl in E. intros _.
      apply between with (ms := ms) (h := h ++ [b]); simpl; try done.
      * by rewrite app_assoc.
      * rewrite length_app. simpl. lia.
  - rewrite (proj2 (Z.ltb_lt 0 _)) by lia. intros _. unfold take_body. subst k.
    assert (Hstat : ft_last t = x5a → head (body ++ [b]) =
      Some (if ft_first t && bool_decide (ft_last t = x5a) then default (ft_status t) (head [b]) else ft_status t)).
    { intros Hz. rewrite Hfirst, (bool_decide_eq_true_2 (ft_last t = x5a)), andb_true_r by done.
      destruct body as [|c body]; [done|]. simpl. by apply (Hst Hz). }
    destruct (decide (ft_remaining t = 1)) as [H1|H1].
    + apply between with (ms := ms ++ [{| m_kind := ft_last t; m_len := l; m_body := body ++ [b] |}]) (h := []);
        cbn [ft_header ft_remaining ft_last ft_status]; try done; try lia.
      * apply Forall_app; split; [done|]. constructor; [|done]. split; [done|]. simpl.
        rewrite length_app. simpl. lia.
      * rewrite frames_snoc, app_nil_r. unfold frame. simpl. by rewrite <- !app_assoc, <- app_comm_cons, <- app_assoc.
      * simpl. lia.
      * intros ms' m [_ [= <-]]%app_inj_tail. split; [done|]. intros Hz _. by apply Hstat.
      * by intros [_ ?]%app_nil.
    + apply inside with (ms := ms) (k := ft_last t) (l := l) (body := body ++ [b]);
        cbn [ft_header ft_remaining ft_last ft_status ft_first]; try done; try lia.
      * by rewrite <- !app_assoc, <- app_comm_cons, <- app_assoc.
      * rewrite length_app. simpl. lia.
      * symmetry. apply bool_decide_eq_false_2. by destruct body.
      * intros Hz _. by apply Hstat.
Qed.

Lemma new_tracker_wf : tracker_wf new_tracker.
Proof. split_and!; simpl; [lia|lia|done]. Qed.

Lemma steps_position p : ft_broken (foldl byte_step new_tracker p) = false →
  position (foldl byte_step new_tracker p) p.
Proof.
  induction p as [|b p IH] using rev_ind; intros Hb.
  { apply between with (ms := []) (h := []); simpl; try done; try lia. by intros [] ? ?. }
  rewrite foldl_app in *. simpl in *.
  assert (ft_broken (foldl byte_step new_tracker p) = false) as Hp.
  { unfold byte_step at 1 in Hb. destruct (ft_broken (foldl byte_step new_tracker p)) eqn:E; congruence. }
  apply position_step; auto.
Qed.

Definition resting (t : frameTracker) : Prop :=
  ft_broken t = false ∧ ft_header t = [] ∧ ft_remaining t = 0.

Lemma atBoundary_resting t : atBoundary t = true ↔ resting t.
Proof.
  unfold atBoundary, resting. rewrite !andb_true_iff, negb_true_iff, bool_decide_eq_true, Z.eqb_eq.
  rewrite length_zero_iff_nil. tauto.
Qed.

Lemma run_frame t m : resting t → framed m → resting (foldl byte_step t (frame m)).
Proof.
  intros (Hb & Hh & Hr) [Hl Hw]. destruct m as [k l body]. unfold frame. cbn [m_kind m_len m_body] in *.
  destruct l as [|h1 [|h2 [|h3 [|h4 [|? ?]]]]]; simpl in Hl; try lia.
  change (k :: [h1; h2; h3; h4] ++ body) with ([k; h1; h2; h3; h4] ++ body). rewrite foldl_app.
  rewrite (steps_header [k; h1; h2; h3; h4] t); [|done|done|done|rewrite Hh; simpl; lia]. rewrite Hh. unfold take_header.
  rewrite (bool_decide_eq_true_2 (length ([] ++ [k; h1; h2; h3; h4]) = 5%nat)) by reflexivity.
  change (drop 1 ([] ++ [k; h1; h2; h3; h4])) with [h1; h2; h3; h4].
  rewrite Hw, (proj2 (Z.ltb_ge _ _)) by lia.
  destruct body as [|c body]; [simpl; by rewrite Hb|].
  rewrite steps_body; [|done|done|simpl; lia]. unfold take_body, resting. simpl. split_and!; [done|done|lia].
Qed.

Lemma run_frames ms : ∀ t, resting t → Forall framed ms → resting (foldl byte_step t (concat (map frame ms))).
Proof.
  induction ms as [|m ms IH]; intros t Ht HF; [done|]. simpl. apply Forall_cons in HF as [Hm HF].
  rewrite foldl_app. apply IH; [by apply run_frame|done].
Qed.

(** The frame tracker gives the same state however the server's bytes are
    cut into writes; it reports a boundary exactly when they are a sequence of
    whole messages, and reports idle only when the last of these is a
    ReadyForQuery whose status byte, if it has one, is I. *)
Theorem frameTracker_correct chunks :
  let t := foldl advance new_tracker chunks in
  t = advance new_tracker (concat chunks) ∧
  (atBoundary t = true ↔ ∃ ms, Forall framed ms ∧ concat chunks = concat (map frame ms)) ∧
  (idle t = true → ∃ ms m, Forall framed (ms ++ [m]) ∧ concat chunks = concat (map frame (ms ++ [m])) ∧
     m_kind m = x5a ∧ (m_body m ≠ [] → head (m_body m) = Some x49)).
Proof.
  cbv zeta. rewrite advance_chunks by apply new_tracker_wf.
  rewrite advance_steps by apply new_tracker_wf. set (t := foldl byte_step new_tracker (concat chunks)).
  assert (Hpos : resting t → ∃ ms, Forall framed ms ∧ concat chunks = concat (map frame ms) ∧
    (∀ ms' m, ms = ms' ++ [m] → ft_last t = m_kind m ∧
       (m_kind m = x5a → m_body m ≠ [] → head (m_body m) = Some (ft_status t))) ∧ (ms = [] → ft_last t = x00)).
  { intros (Hb & Hh & Hr). destruct (steps_position (concat chunks) Hb) as
      [ms h Hms Hp Hh' Hlen Hr' Hlast Hnil | ms k l body _ _ _ _ _ Hr' _ _ _].
    - fold t in Hh'. rewrite Hh in Hh'. subst h. rewrite app_nil_r in Hp. eauto.
    - fold t in Hr'. lia. }
  split; [done|]. split.
  - rewrite atBoundary_resting. split; [intros (ms & ? & ? & _)%Hpos; eauto|].
    intros (ms & Hms & E). unfold t. rewrite E. by apply run_frames.
  - unfold idle. rewrite !andb_true_iff, atBoundary_resting, !bool_decide_eq_true.
    intros [[(ms & Hms & E & Hlast & Hnil)%Hpos Hz] Hi].
    destruct ms as [|m ms _] using rev_ind; [rewrite Hnil in Hz; done|].
    destruct (Hlast ms m eq_refl) as [Hk Hs]. rewrite Hz in Hk. rewrite Hi in Hs.
    exists ms, m. split_and!; auto.
Qed.

(** ** Reading one message at a time *)

(** The underlying connection is its unread bytes. *)
Record messageReader := {
  mr_source : bytes;
  mr_startup : bool;
  mr_buffered : bytes;
  mr_remaining : Z;
}.

Inductive read_result := ReadN (b : bytes) | ReadError.

(** Go's [int(int32(u))]. *)
Definition to_int32 (u : Z) : Z := if 2 ^ 31 <=? u then u - 2 ^ 32 else u.

(** [Read] into a buffer of [n] bytes; [chunk] is what the connection is ready
    to deliver at once. *)
Definition Read (r : messageReader) (n chunk : nat) : messageReader * read_result :=
  if bool_decide (n = 0%nat) then (r, ReadN [])
  else
    let size := if mr_startup r then 4%nat else 5%nat in
    let fill : option messageReader :=
      if bool_decide (length (mr_buffered r) = 0%nat) && (mr_remaining r =? 0) then
        if (length (mr_source r) <? size)%nat then None
        else
          let header := take size (mr_source r) in
          let len := to_int32 (length_word (drop (size - 4) header)) in
          if len <? 4 then None
          else Some {| mr_source := drop size (mr_source r); mr_startup := mr_startup r;
                       mr_buffered := header; mr_remaining := len - 4 |}
      else Some r in
    match fill with
    | None => ({| mr_source := drop size (mr_source r); mr_startup := mr_startup r;
                  mr_buffered := mr_buffered r; mr_remaining := mr_remaining r |}, ReadError)
    | Some r =>
        if negb (bool_decide (length (mr_buffered r) = 0%nat)) then
          ({| mr_source := mr_source r; mr_startup := mr_startup r;
              mr_buffered := drop n (mr_buffered r); mr_remaining := mr_remaining r |},
           ReadN (take n (mr_buffered r)))
        else
          let want := Nat.min n (Z.to_nat (mr_remaining r)) in
          let got := take (Nat.min want chunk) (mr_source r) in
          ({| mr_source := drop (length got) (mr_source r); mr_startup := mr_startup r;
              mr_buffered := []; mr_remaining := mr_remaining r - Z.of_nat (length got) |}, ReadN got)
    end.

(** Successive reads, none failing, and the bytes they delivered. *)
Fixpoint reads (r : messageReader) (calls : list (nat * nat)) : option (messageReader * bytes) :=
  match calls with
  | [] => Some (r, [])
  | (n, chunk) :: calls' =>
      match Read r n chunk with
      | (r', ReadN b) => '(r2, out) ← reads r' calls'; Some (r2, b ++ out)
      | (_, ReadError) => None
      end
  end.

(** The connection read past the current message by nothing: what was delivered
    is a number of whole messages, or these and part of one of which exactly the
    header is held back. *)
Definition reader_inv (stream : bytes) (r : messageReader) (out : bytes) : Prop :=
  stream = out ++ mr_buffered r ++ mr_source r ∧ 0 <= mr_remaining r ∧ mr_startup r = false ∧
  ∃ ms part, Forall framed ms ∧ out ++ mr_buffered r = concat (map frame ms) ++ part ∧
    ((part = [] ∧ mr_remaining r = 0 ∧ mr_buffered r = []) ∨
     ∃ k l body, part = k :: l ++ body ∧ length l = 4%nat ∧
       length_word l = Z.of_nat (length body) + mr_remaining r + 4).

Lemma to_int32_pos u : 4 <= to_int32 u → u < 2 ^ 32 → to_int32 u = u.
Proof. unfold to_int32. destruct (Z.leb_spec (2 ^ 31) u); lia. Qed.

Lemma length_word_range l : 0 <= length_word l < 2 ^ 32.
Proof.
  unfold length_word. destruct l as [|a [|b [|c [|d [|? ?]]]]]; try lia. apply Uint32BigEndian_range.
Qed.

(** Between messages, reading the next header. *)
Lemma reader_fill stream r out header len :
  reader_inv stream r out → mr_buffered r = [] → mr_remaining r = 0 → (5 <= length (mr_source r))%nat →
  header = take 5 (mr_source r) → len = to_int32 (length_word (drop 1 header)) → 4 <= len →
  reader_inv stream {| mr_source := drop 5 (mr_source r); mr_startup := mr_startup r;
                       mr_buffered := header; mr_remaining := len - 4 |} out.
Proof.
  intros (Hs & _ & Hst & ms & part & Hms & Hout & Hpart) Hb Hr Hlen -> -> Hw.
  rewrite to_int32_pos in * by (done || apply length_word_range).
  rewrite Hb in Hs, Hout. rewrite app_nil_r in Hout.
  split_and!; simpl; [by rewrite take_drop|lia|done|].
  destruct (mr_source r) as [|k [|h1 [|h2 [|h3 [|h4 src]]]]]; simpl in Hlen; try lia. simpl in *.
  destruct Hpart as [(-> & _ & _)|(k0 & l0 & b0 & -> & Hl0 & Hw0)].
  - exists ms, [k; h1; h2; h3; h4]. split_and!; [done|by rewrite Hout, app_nil_r|]. right.
    exists k, [h1; h2; h3; h4], []. split_and!; [done|done|]. simpl. lia.
  - exists (ms ++ [{| m_kind := k0; m_len := l0; m_body := b0 |}]), [k; h1; h2; h3; h4]. split_and!.
    + apply Forall_app; split; [done|]. constructor; [|done]. split; [done|]. simpl. lia.
    + by rewrite Hout, frames_snoc.
    + right. exists k, [h1; h2; h3; h4], []. split_and!; [done|done|]. simpl. lia.
Qed.

(** Delivering [b], a part of what is buffered or of the message's body. *)
Lemma reader_deliver stream r out b n chunk r' :
  reader_inv stream r out → (mr_buffered r = [] → mr_remaining r ≠ 0) →
  (if negb (bool_decide (length (mr_buffered r) = 0%nat)) then
     ({| mr_source := mr_source r; mr_startup := mr_startup r;
         mr_buffered := drop n (mr_buffered r); mr_remaining := mr_remaining r |},
      ReadN (take n (mr_buffered r)))
   else
     let want := Nat.min n (Z.to_nat (mr_remaining r)) in
     let got := take (Nat.min want chunk) (mr_source r) in
     ({| mr_source := drop (length got) (mr_source r); mr_startup := mr_startup r;
         mr_buffered := []; mr_remaining := mr_remaining r - Z.of_nat (length got) |}, ReadN got))
  = (r', ReadN b) → reader_inv stream r' (out ++ b).
Proof.
  intros (Hs & Hrem & Hst & ms & part & Hms & Hout & Hpart) Hne.
  case_bool_decide as Hb; cbv zeta; intros [= <- <-].
  - apply length_zero_iff_nil in Hb. rewrite Hb in Hs, Hout. simpl in Hs.
    set (got := take _ _). assert (Hg : got ++ drop (length got) (mr_source r) = mr_source r)
      by apply take_drop_len.
    assert (Hlg : Z.of_nat (length got) <= mr_remaining r) by (unfold got; rewrite length_take; lia).
    destruct Hpart as [(_ & H0 & _)|(k & l & body & -> & Hl & Hw)]; [by destruct (Hne Hb)|].
    split_and!; simpl; [by rewrite <- app_assoc, Hg|lia|done|].
    exists ms, (k :: l ++ body ++ got). split_and!; [done| |].
    + rewrite app_nil_r in *. rewrite Hout, <- app_assoc. simpl. by rewrite <- app_assoc.
    + right. exists k, l, (body ++ got). split_and!; [done|done|]. rewrite length_app. lia.
  - split_and!; simpl; [|done|done|].
    + rewrite <- app_assoc, (app_assoc (take n _)), take_drop. done.
    + exists ms, part. split_and!; [done| |].
      * by rewrite <- app_assoc, take_drop.
      * destruct Hpart as [(_ & _ & H0)|?]; [by rewrite H0 in Hb|by right].
Qed.

Lemma Read_inv stream r out n chunk r' b :
  reader_inv stream r out → Read r n chunk = (r', ReadN b) → reader_inv stream r' (out ++ b).
Proof.
  intros Hinv. pose proof Hinv as (_ & _ & Hst & _). unfold Read. case_bool_decide as Hn.
  { intros [= <- <-]. by rewrite app_nil_r. }
  rewrite Hst. destruct (bool_decide (length (mr_buffered r) = 0%nat) && (mr_remaining r =? 0)) eqn:E.
  - b2p. apply length_zero_iff_nil in H.
    destruct (Nat.ltb_spec (length (mr_source r)) 5) as [|H5]; [done|].
    destruct (Z.ltb_spec (to_int32 (length_word (drop (5 - 4) (take 5 (mr_source r))))) 4) as [|H4]; [done|].
    eapply reader_deliver; [rewrite <- Hst; eapply reader_fill; done|].
    cbn [mr_buffered]. intros Hb. apply (f_equal length) in Hb. rewrite length_take in Hb.
    change (length []) with 0%nat in Hb. lia.
  - eapply reader_deliver; [done|]. intros Hb. apply andb_false_iff in E as [E|E]; b2p; [|done].
    by rewrite Hb in E.
Qed.

(** Reading through [messageReader], with any buffer sizes and any
    partial deliveries of the connection, consumes of the stream only what it
    delivered and the undelivered rest of one five-byte header; whenever it is
    between messages, the delivered bytes are whole messages and the connection
    is left at the start of the next. *)
Theorem messageReader_exact stream calls r out
  (Hreads : reads {| mr_source := stream; mr_startup := false; mr_buffered := []; mr_remaining := 0 |} calls
            = Some (r, out)) :
  stream = out ++ mr_buffered r ++ mr_source r ∧
  (mr_buffered r = [] → mr_remaining r = 0 → ∃ ms, Forall framed ms ∧ out = concat (map frame ms)).
Proof.
  assert (Hgen : ∀ calls r0 out0 r out, reader_inv stream r0 out0 → reads r0 calls = Some (r, out) →
            reader_inv stream r (out0 ++ out)).
  { clear. induction calls as [|[n chunk] calls IH]; intros r0 out0 r out Hinv; simpl.
    - intros [= <- <-]. by rewrite app_nil_r.
    - destruct (Read r0 n chunk) as [r' [b|]] eqn:E; [|done].
      destruct (reads r' calls) as [[r2 out2]|] eqn:E2; [|done]. intros [= <- <-].
      rewrite app_assoc. eapply IH; [|done]. by eapply Read_inv. }
  assert (H0 : reader_inv stream
    {| mr_source := stream; mr_startup := false; mr_buffered := []; mr_remaining := 0 |} []).
  { split_and!; simpl; [done|lia|done|]. exists [], []. split_and!; [constructor|done|by left]. }
  destruct (Hgen _ _ _ _ _ H0 Hreads) as (Hs & _ & _ & ms & part & Hms & Hout & Hpart). simpl in *.
  split; [done|]. intros Hb Hr. rewrite Hb, app_nil_r in Hout.
  destruct Hpart as [(-> & _ & _)|(k & l & body & -> & Hl & Hw)].
  - exists ms. by rewrite app_nil_r in Hout.
  - exists (ms ++ [{| m_kind := k; m_len := l; m_body := body |}]). split.
    + apply Forall_app; split; [done|]. constructor; [|done]. split; [done|]. simpl. lia.
    + by rewrite frames_snoc, Hout.
Qed.

Definition two_messages : bytes :=
  x51 :: BigEndianUint32 6 ++ [x61; x00] ++ x58 :: BigEndianUint32 4.

Lemma messageReader_exact_witness :
  ∃ ms, Forall framed ms ∧ x51 :: BigEndianUint32 6 ++ [x61; x00] = concat (map frame ms).
Proof.
  assert (H : reads {| mr_source := two_messages; mr_startup := false; mr_buffered := []; mr_remaining := 0 |}
    [(3, 9); (4, 9); (1, 9); (8, 9)]%nat = Some ({| mr_source := x58 :: BigEndianUint32 4; mr_startup := false;
       mr_buffered := []; mr_remaining := 0 |}, x51 :: BigEndianUint32 6 ++ [x61; x00]))
    by (vm_compute; reflexivity).
  apply (messageReader_exact two_messages [(3, 9); (4, 9); (1, 9); (8, 9)]%nat _ _ H); reflexivity.
Defined.

(** * Startup parameters ([internal/brokercore/startup.go])

    Which PostgreSQL startup parameters a client may send, the canonical form
    that is forwarded, and the check of server-reported settings
    ([unsafeLexerParameter] of [internal/pgproxy/session_state.go]). *)

Definition StartupParameters : list bytes :=
  [ #"application_name"; #"client_encoding"; #"DateStyle"; #"extra_float_digits"; #"search_path";
    #"standard_conforming_strings"; #"statement_timeout"; #"TimeZone"].

Definition printable (s : bytes) : bool :=
  forallb (λ b, negb ((bval b <? 32) || (126 <? bval b))) s.

Definition clean_byte (b : byte) : bytes :=
  let z := bval b in
  if is_upper z then [byte_of (z + 32)]
  else if is_lower z || is_digit z then [b] else [].

Definition cleanEncoding (s : bytes) : bytes :=
  if (32 <? length s)%nat then [] else flat_map clean_byte s.

Definition canonical_encodings : list bytes :=
  [ #"SQL_ASCII"; #"EUC_JP"; #"EUC_CN"; #"EUC_KR"; #"EUC_TW"; #"EUC_JIS_2004"; #"UTF8";
    #"MULE_INTERNAL"; #"LATIN1"; #"LATIN2"; #"LATIN3"; #"LATIN4"; #"LATIN5"; #"LATIN6"; #"LATIN7";
    #"LATIN8"; #"LATIN9"; #"LATIN10"; #"WIN1256"; #"WIN1258"; #"WIN866"; #"WIN874"; #"KOI8R";
    #"WIN1251"; #"WIN1252"; #"ISO_8859_5"; #"ISO_8859_6"; #"ISO_8859_7"; #"ISO_8859_8"; #"WIN1250";
    #"WIN1253"; #"WIN1254"; #"WIN1255"; #"WIN1257"; #"KOI8U"].

Definition encoding_aliases : list (bytes * bytes) :=
  [(#"unicode", #"UTF8"); (#"iso88591", #"LATIN1"); (#"iso88592", #"LATIN2"); (#"iso88593", #"LATIN3");
   (#"iso88594", #"LATIN4"); (#"iso88599", #"LATIN5"); (#"iso885910", #"LATIN6");
   (#"iso885913", #"LATIN7"); (#"iso885914", #"LATIN8"); (#"iso885915", #"LATIN9");
   (#"iso885916", #"LATIN10"); (#"koi8", #"KOI8R"); (#"win", #"WIN1251"); (#"alt", #"WIN866");
   (#"cp866", #"WIN866"); (#"cp874", #"WIN874"); (#"cp1250", #"WIN1250"); (#"cp1251", #"WIN1251");
   (#"cp1252", #"WIN1252"); (#"cp1253", #"WIN1253"); (#"cp1254", #"WIN1254"); (#"cp1255", #"WIN1255");
   (#"cp1256", #"WIN1256"); (#"cp1257", #"WIN1257"); (#"cp1258", #"WIN1258"); (#"tcvn", #"WIN1258");
   (#"tcvn5712", #"WIN1258"); (#"vscii", #"WIN1258"); (#"abc", #"WIN1258")].

(** The map: aliases are written after the canonical names, so they win. *)
Definition assoc (k : bytes) (l : list (bytes * bytes)) : option bytes :=
  snd <$> List.find (λ '(k', _), bool_decide (k' = k)) l.

Definition encodings (k : bytes) : option bytes :=
  match assoc k encoding_aliases with
  | Some v => Some v
  | None => assoc k (map (λ n, (cleanEncoding n, n)) canonical_encodings)
  end.

Definition all_digits (s : bytes) : bool := forallb (λ b, is_digit (bval b)) s.

(** [strconv.ParseUint(value, 10, 31)] of digits. *)
Definition parse_uint31 (s : bytes) : option Z :=
  match parse_digits s with
  | Some n => if n <? 2 ^ 31 then Some n else None
  | None => None
  end.

Definition StartupValue (key value : bytes) : option bytes :=
  let n := Z.of_nat (length value) in
  if bool_decide (key = #"statement_timeout") then
    if bool_decide (value = []) || (10 <? n) then None
    else if negb (all_digits value) then None
    else match parse_uint31 value with
         | None => None
         | Some t => if t =? 0 then None else Some value
         end
  else if bool_decide (key = #"application_name") then
    if (63 <? n) || negb (printable value) then None else Some value
  else if bool_decide (key = #"client_encoding") then encodings (cleanEncoding value)
  else if bool_decide (key = #"standard_conforming_strings") then
    if negb (EqualFoldASCII value #"on") then None else Some #"on"
  else if bool_decide (key ∈ [ #"DateStyle"; #"extra_float_digits"; #"search_path"; #"TimeZone"]) then
    if (256 <? n) || negb (printable value) then None else Some value
  else None.

Section Params.
Context `{UnicodeTables}.

Definition canonicalKeys (k : bytes) : option bytes :=
  assoc k (map (λ n, (ToLower n, n)) StartupParameters).

Definition StartupParameter (key value : bytes) : option (bytes * bytes) :=
  match canonicalKeys (ToLower key) with
  | None => None
  | Some name => match StartupValue name value with None => None | Some v => Some (name, v) end
  end.
End Params.

Definition unsafeLexerParameter (name value : bytes) : bool :=
  if negb (bool_decide (name = #"standard_conforming_strings")) && negb (bool_decide (name = #"client_encoding"))
  then false
  else match StartupValue name value with Some _ => false | None => true end.

(** ** Forwarded parameters are fixed points *)

Lemma assoc_Some k l v : assoc k l = Some v → (k, v) ∈ l.
Proof.
  unfold assoc. destruct (List.find _ l) as [[k' v']|] eqn:E; [|done]. intros [= <-].
  apply find_some in E as [Hin Hk]. apply list_elem_of_In in Hin. b2p. by subst.
Qed.

Lemma encodings_canonical k v : encodings k = Some v → encodings (cleanEncoding v) = Some v.
Proof.
  assert (Hall : forallb (λ n, bool_decide (encodings (cleanEncoding n) = Some n)) canonical_encodings = true)
    by (vm_compute; reflexivity).
  assert (Hal : forallb (λ y, bool_decide (y ∈ canonical_encodings)) (map snd encoding_aliases) = true)
    by (vm_compute; reflexivity).
  rewrite forallb_Forall, Forall_forall in Hall. unfold encodings at 1.
  assert (v ∈ canonical_encodings → encodings (cleanEncoding v) = Some v) as Hv.
  { intros Hin. apply Hall in Hin. by b2p. }
  destruct (assoc k encoding_aliases) as [a|] eqn:E.
  - intros [= ->]. apply Hv. eapply incl_check; [exact Hal|].
    apply elem_of_map. apply assoc_Some in E. by exists (k, v).
  - intros Hc%assoc_Some. apply Hv. apply elem_of_map in Hc as (n & [= _ ->] & Hn). done.
Qed.

Lemma StartupValue_fixed key value v : StartupValue key value = Some v → StartupValue key v = Some v.
Proof.
  assert (Hsame : ∀ (f : bytes → option bytes), (∀ x y, f x = Some y → y = x) →
    f value = Some v → f v = Some v) by (intros f Hf Hx; pose proof (Hf _ _ Hx); by subst).
  unfold StartupValue.
  destruct (bool_decide (key = #"statement_timeout")).
  { apply (Hsame (λ x, if bool_decide (x = []) || (10 <? Z.of_nat (length x)) then None
      else if negb (all_digits x) then None
      else match parse_uint31 x with None => None | Some t => if t =? 0 then None else Some x end)).
    intros x y Hx. repeat case_match; congruence. }
  destruct (bool_decide (key = #"application_name")).
  { apply (Hsame (λ x, if (63 <? Z.of_nat (length x)) || negb (printable x) then None else Some x)).
    intros x y Hx. repeat case_match; congruence. }
  destruct (bool_decide (key = #"client_encoding")); [apply encodings_canonical|].
  destruct (bool_decide (key = #"standard_conforming_strings")).
  { destruct (EqualFoldASCII value #"on"); [|done]. by intros [= <-]. }
  destruct (bool_decide (key ∈ _)); [|done].
  apply (Hsame (λ x, if (256 <? Z.of_nat (length x)) || negb (printable x) then None else Some x)).
  intros x y Hx. repeat case_match; congruence.
Qed.

(** What the relay forwards, the broker accepts unchanged: applying
    [StartupParameter] to an accepted parameter's canonical form gives it back, so
    the two components, which share the function, cannot disagree. Accepted
    encodings and string settings are also exactly those the server may report
    without ending the session. *)
Theorem StartupParameter_idempotent `{UnicodeTables} key value name v
  (Hok : StartupParameter key value = Some (name, v)) :
  StartupParameter name v = Some (name, v) ∧ unsafeLexerParameter name v = false.
Proof.
  unfold StartupParameter in *. destruct (canonicalKeys (ToLower key)) as [n|] eqn:Ek; [|done].
  destruct (StartupValue n value) as [w|] eqn:Ev; [|done]. injection Hok as <- <-.
  apply StartupValue_fixed in Ev.
  assert (Hn : n ∈ StartupParameters).
  { apply assoc_Some, elem_of_map in Ek as (m & [= _ ->] & Hm). done. }
  assert (canonicalKeys (ToLower n) = Some n) as Hc.
  { assert (Hall : forallb (λ m, bool_decide (canonicalKeys (ToLower m) = Some m)) StartupParameters = true)
      by (vm_compute; reflexivity).
    rewrite forallb_Forall, Forall_forall in Hall. apply Hall in Hn. by b2p. }
  rewrite Hc, Ev. split; [done|]. unfold unsafeLexerParameter. rewrite Ev. by case_match.
Qed.

Lemma StartupParameter_idempotent_witness :
  @StartupParameter latin1_tables #"CLIENT_ENCODING" #"utf-8" = Some (#"client_encoding", #"UTF8") ∧
  @StartupParameter latin1_tables #"client_encoding" #"UTF8" = Some (#"client_encoding", #"UTF8").
Proof.
  split; [vm_compute; reflexivity|].
  apply (@StartupParameter_idempotent latin1_tables #"CLIENT_ENCODING" #"utf-8"). vm_compute. reflexivity.
Defined.
