(* ===== verification/AuditRow.v ===== *)
(** * Audit rows ([internal/auditchain/row.go])

    One record of the tamper-evident trail and the byte string its MAC covers.
    [HMAC] is HMAC-SHA256 printed in hex, an argument: what is proved of the
    encoding holds for every function, and what is proved of chains states what
    it needs of it. *)

From S2P Require Import Prelude GoString GoStrconv.

Definition RowType : bytes := #"gatehouse.audit.v1".
Definition EventChainStart : bytes := #"chain_start".
Definition EventSessionOpen : bytes := #"session_open".
Definition EventSessionClose : bytes := #"session_close".
Definition EventDenied : bytes := #"denied".
Definition EventCheckpoint : bytes := #"checkpoint".
Definition EventCheckpointFailed : bytes := #"checkpoint_failed".
Definition EventKeyRotated : bytes := #"key_rotated".
Definition EventHTTPRequest : bytes := #"http_request".
Definition EventHTTPResponse : bytes := #"http_response".
Definition EventTransaction : bytes := #"transaction".
Definition EventStateLeak : bytes := #"state_leak_caught".
Definition EventCertificate : bytes := #"proxy_certificate".
Definition MACVersionCurrent : Z := 5.

Record Row := {
  row_Type : bytes;
  row_Replica : bytes;
  row_Boot : Z;
  row_Seq : Z;
  row_Time : bytes;
  row_Event : bytes;
  row_Pool : bytes;
  row_Agent : bytes;
  row_PodUID : bytes;
  row_Binding : bytes;
  row_Session : bytes;
  row_Outcome : bytes;
  row_Requester : bytes;
  row_RequesterKind : bytes;
  row_RequesterOID : bytes;
  row_TokenSHA256 : bytes;
  row_Tier : bytes;
  row_Decision : bytes;
  row_Groups : bytes;
  row_CacheAgeSec : Z;
  row_Kid : bytes;
  row_KidSHA256 : bytes;
  row_Peer : bytes;
  row_Serial : bytes;
  row_NotAfter : bytes;
  row_DNSNames : bytes;
  row_Target : bytes;
  row_Method : bytes;
  row_Status : Z;
  row_Duration : Z;
  row_SignedSeq : Z;
  row_SignedMAC : bytes;
  row_Signature : bytes;
  row_PrevKey : Z;
  row_PrevBoot : Z;
  row_PrevCheckpointSeq : Z;
  row_PrevCheckpointMAC : bytes;
  row_KeyVersion : Z;
  row_Prev : bytes;
  row_MACVersion : Z;
  row_MAC : bytes;
}.

(** The zero value of the struct. *)
Definition zero_row : Row :=
  {| row_Type := []; row_Replica := []; row_Boot := 0; row_Seq := 0; row_Time := [];
     row_Event := []; row_Pool := []; row_Agent := []; row_PodUID := []; row_Binding := [];
     row_Session := []; row_Outcome := []; row_Requester := []; row_RequesterKind := [];
     row_RequesterOID := []; row_TokenSHA256 := []; row_Tier := []; row_Decision := [];
     row_Groups := []; row_CacheAgeSec := 0; row_Kid := []; row_KidSHA256 := []; row_Peer := [];
     row_Serial := []; row_NotAfter := []; row_DNSNames := []; row_Target := [];
     row_Method := []; row_Status := 0; row_Duration := 0; row_SignedSeq := 0;
     row_SignedMAC := []; row_Signature := []; row_PrevKey := 0; row_PrevBoot := 0;
     row_PrevCheckpointSeq := 0; row_PrevCheckpointMAC := []; row_KeyVersion := 0;
     row_Prev := []; row_MACVersion := 0; row_MAC := [] |}.

Definition set_MAC (r : Row) (mac : bytes) : Row :=
  {| row_Type := row_Type r; row_Replica := row_Replica r; row_Boot := row_Boot r;
     row_Seq := row_Seq r; row_Time := row_Time r; row_Event := row_Event r;
     row_Pool := row_Pool r; row_Agent := row_Agent r; row_PodUID := row_PodUID r;
     row_Binding := row_Binding r; row_Session := row_Session r; row_Outcome := row_Outcome r;
     row_Requester := row_Requester r; row_RequesterKind := row_RequesterKind r;
     row_RequesterOID := row_RequesterOID r; row_TokenSHA256 := row_TokenSHA256 r;
     row_Tier := row_Tier r; row_Decision := row_Decision r; row_Groups := row_Groups r;
     row_CacheAgeSec := row_CacheAgeSec r; row_Kid := row_Kid r;
     row_KidSHA256 := row_KidSHA256 r; row_Peer := row_Peer r; row_Serial := row_Serial r;
     row_NotAfter := row_NotAfter r; row_DNSNames := row_DNSNames r; row_Target := row_Target r;
     row_Method := row_Method r; row_Status := row_Status r; row_Duration := row_Duration r;
     row_SignedSeq := row_SignedSeq r; row_SignedMAC := row_SignedMAC r;
     row_Signature := row_Signature r; row_PrevKey := row_PrevKey r;
     row_PrevBoot := row_PrevBoot r; row_PrevCheckpointSeq := row_PrevCheckpointSeq r;
     row_PrevCheckpointMAC := row_PrevCheckpointMAC r; row_KeyVersion := row_KeyVersion r;
     row_Prev := row_Prev r; row_MACVersion := row_MACVersion r; row_MAC := mac |}.

(** ** The MAC input *)

Definition field (f : bytes) : bytes := BigEndianUint32 (Z.of_nat (length f)) ++ f.

Definition lengthPrefixed (domain : bytes) (fields : list bytes) : bytes :=
  domain ++ [x00] ++ concat (map field fields).

Definition fields_v1 (r : Row) : list bytes :=
  [row_Type r; row_Replica r; FormatUint (row_Boot r); FormatUint (row_Seq r); row_Time r; row_Event r;
   row_Pool r; row_Agent r; row_PodUID r; row_Binding r; row_Session r; row_Outcome r; row_Requester r;
   row_Method r; Itoa (row_Status r); FormatInt (row_Duration r);
   FormatUint (row_SignedSeq r); row_SignedMAC r; row_Signature r;
   Itoa (row_PrevKey r); FormatUint (row_PrevBoot r); FormatUint (row_PrevCheckpointSeq r);
   row_PrevCheckpointMAC r; Itoa (row_KeyVersion r); row_Prev r].
Definition fields_v2 (r : Row) : list bytes :=
  [Itoa (row_MACVersion r); row_RequesterKind r; row_RequesterOID r; row_TokenSHA256 r; row_Tier r;
   row_Decision r; row_Groups r; FormatInt (row_CacheAgeSec r)].
Definition fields_v3 (r : Row) : list bytes := [row_Kid r; row_KidSHA256 r; row_Peer r].
Definition fields_v4 (r : Row) : list bytes := [row_Serial r; row_NotAfter r; row_DNSNames r].

Definition macInput (r : Row) : bytes :=
  let fields := fields_v1 r in
  if row_MACVersion r <? 2 then lengthPrefixed #"gatehouse-audit-v1" fields
  else
    let fields := fields ++ fields_v2 r in
    if row_MACVersion r <? 3 then lengthPrefixed #"gatehouse-audit-v2" fields
    else
      let fields := fields ++ fields_v3 r in
      if row_MACVersion r <? 4 then lengthPrefixed #"gatehouse-audit-v3" fields
      else
        let fields := fields ++ fields_v4 r in
        if row_MACVersion r <? 5 then lengthPrefixed #"gatehouse-audit-v4" fields
        else lengthPrefixed #"gatehouse-audit-v5" (fields ++ [row_Target r]).

Definition set_ (s : bytes) : bool := negb (bool_decide (s = [])).

Definition v2Only (r : Row) : bool :=
  set_ (row_RequesterKind r) || set_ (row_RequesterOID r) || set_ (row_TokenSHA256 r) ||
  set_ (row_Tier r) || set_ (row_Decision r) || set_ (row_Groups r) || negb (row_CacheAgeSec r =? 0).
Definition v3Only (r : Row) : bool := set_ (row_Kid r) || set_ (row_KidSHA256 r) || set_ (row_Peer r).
Definition v4Only (r : Row) : bool := set_ (row_Serial r) || set_ (row_NotAfter r) || set_ (row_DNSNames r).
Definition v5Only (r : Row) : bool := set_ (row_Target r).

Definition computeMAC (HMAC : bytes → bytes → bytes) (key : bytes) (r : Row) : bytes :=
  HMAC key (macInput r).

Definition checkpointInput (replica : bytes) (boot seq : Z) (mac : bytes) : bytes :=
  lengthPrefixed #"gatehouse-checkpoint-v1" [replica; FormatUint boot; FormatUint seq; mac].

(** ** The encoding is injective *)

(** Lengths that fit their 32-bit prefix. *)
Definition short (f : bytes) : Prop := Z.of_nat (length f) < 2 ^ 32.

Lemma field_app f t : field f ++ t = BigEndianUint32 (Z.of_nat (length f)) ++ f ++ t.
Proof. unfold field. by rewrite <- app_assoc. Qed.

Lemma fields_inj l : ∀ k, Forall short l → Forall short k → length l = length k →
  concat (map field l) = concat (map field k) → l = k.
Proof.
  induction l as [|f l IH]; intros [|g k] Hl Hk Hlen E; try done.
  apply Forall_cons in Hl as [Hf Hl], Hk as [Hg Hk]. unfold short in *. cbn [map concat] in E.
  rewrite !field_app in E. apply app_inj_1 in E as [En E]; [|done].
  apply BigEndianUint32_inj in En; [|lia|lia].
  apply app_inj_1 in E as [-> E]; [|lia]. f_equal. apply IH; auto.
Qed.

Lemma lengthPrefixed_inj d d' l k :
  length d = length d' → Forall short l → Forall short k →
  lengthPrefixed d l = lengthPrefixed d' k → d = d' ∧ (length l = length k → l = k).
Proof.
  intros Hd Hl Hk E. unfold lengthPrefixed in E. apply app_inj_1 in E as [-> E]; [|done].
  split; [done|]. intros Hlen. injection E as E. by apply fields_inj.
Qed.

Definition nonneg (z : Z) : Prop := 0 <= z.

(** What the types of the struct guarantee, and lengths below 4 GiB. *)
Record row_wf (r : Row) : Prop := {
  wf_uints : Forall nonneg [row_Boot r; row_Seq r; row_SignedSeq r; row_PrevBoot r; row_PrevCheckpointSeq r];
  wf_short : Forall short (fields_v1 r ++ fields_v2 r ++ fields_v3 r ++ fields_v4 r ++ [row_Target r]);
}.

Definition row_wfb (r : Row) : bool :=
  forallb (λ z, 0 <=? z) [row_Boot r; row_Seq r; row_SignedSeq r; row_PrevBoot r; row_PrevCheckpointSeq r] &&
  forallb (λ f, Z.of_nat (length f) <? 2 ^ 32)
    (fields_v1 r ++ fields_v2 r ++ fields_v3 r ++ fields_v4 r ++ [row_Target r]).

Lemma row_wf_check r : row_wfb r = true → row_wf r.
Proof.
  unfold row_wfb. rewrite andb_true_iff, !forallb_Forall. intros [H1 H2]. split.
  - eapply Forall_impl; [exact H1|]. intros z. apply Z.leb_le.
  - eapply Forall_impl; [exact H2|]. intros f. apply Z.ltb_lt.
Qed.

(** What the verifier requires of a row's version before it trusts the row. *)
Definition version_ok (r : Row) : bool :=
  ((row_MACVersion r =? 0) || in_range 2 MACVersionCurrent (row_MACVersion r)) &&
  negb ((row_MACVersion r <? 2) && v2Only r) && negb ((row_MACVersion r <? 3) && v3Only r) &&
  negb ((row_MACVersion r <? 4) && v4Only r) && negb ((row_MACVersion r <? 5) && v5Only r).

(** Per version: the domain and the fields it covers. *)
Definition domain_of (v : Z) : bytes :=
  if v <? 2 then #"gatehouse-audit-v1" else if v <? 3 then #"gatehouse-audit-v2"
  else if v <? 4 then #"gatehouse-audit-v3" else if v <? 5 then #"gatehouse-audit-v4"
  else #"gatehouse-audit-v5".

Definition covered (r : Row) : list bytes :=
  fields_v1 r ++
  (if row_MACVersion r <? 2 then [] else fields_v2 r) ++
  (if row_MACVersion r <? 3 then [] else fields_v3 r) ++
  (if row_MACVersion r <? 4 then [] else fields_v4 r) ++
  (if row_MACVersion r <? 5 then [] else [row_Target r]).

Lemma macInput_covered r : macInput r = lengthPrefixed (domain_of (row_MACVersion r)) (covered r).
Proof.
  unfold macInput, domain_of, covered.
  destruct (Z.ltb_spec (row_MACVersion r) 2), (Z.ltb_spec (row_MACVersion r) 3),
    (Z.ltb_spec (row_MACVersion r) 4), (Z.ltb_spec (row_MACVersion r) 5); try lia;
    by rewrite ?app_nil_r, <- ?app_assoc.
Qed.

Lemma covered_short r : row_wf r → Forall short (covered r).
Proof.
  intros [_ H]. unfold covered. rewrite !Forall_app in *. destruct H as (H1 & H2 & H3 & H4 & H5).
  split_and!; [done|..]; by case_match.
Qed.

Lemma domain_inj v w : domain_of v = domain_of w →
  (v = 0 ∨ 2 <= v <= 5) → (w = 0 ∨ 2 <= w <= 5) → v = w.
Proof.
  unfold domain_of.
  destruct (Z.ltb_spec v 2), (Z.ltb_spec v 3), (Z.ltb_spec v 4), (Z.ltb_spec v 5); try lia;
  destruct (Z.ltb_spec w 2), (Z.ltb_spec w 3), (Z.ltb_spec w 4), (Z.ltb_spec w 5); try lia;
    intros E ? ?; try (exfalso; discriminate E); lia.
Qed.

Lemma unset s : set_ s = false → s = [].
Proof. unfold set_. rewrite negb_false_iff. apply bool_decide_eq_true. Qed.

Lemma v2_unset r : v2Only r = false →
  fields_v2 r = [Itoa (row_MACVersion r); []; []; []; []; []; []; FormatInt 0] ∧ row_CacheAgeSec r = 0.
Proof.
  unfold v2Only, fields_v2. rewrite !orb_false_iff, negb_false_iff, Z.eqb_eq.
  intros ((((((H1%unset & H2%unset) & H3%unset) & H4%unset) & H5%unset) & H6%unset) & H7).
  by rewrite H1, H2, H3, H4, H5, H6, H7.
Qed.

Lemma v3_unset r : v3Only r = false → fields_v3 r = [[]; []; []].
Proof.
  unfold v3Only, fields_v3. rewrite !orb_false_iff.
  intros ((H1%unset & H2%unset) & H3%unset). by rewrite H1, H2, H3.
Qed.

Lemma v4_unset r : v4Only r = false → fields_v4 r = [[]; []; []].
Proof.
  unfold v4Only, fields_v4. rewrite !orb_false_iff.
  intros ((H1%unset & H2%unset) & H3%unset). by rewrite H1, H2, H3.
Qed.

(** Every field of the row but its MAC, in text form. *)
Definition all_fields (r : Row) : list bytes :=
  fields_v1 r ++ fields_v2 r ++ fields_v3 r ++ fields_v4 r ++ [row_Target r].

(** A part that is left out when [c] holds, and then known to be equal. *)
Lemma part_eq (c : bool) (l k : list bytes) :
  (if c then [] else l) = (if c then [] else k) → (c = true → l = k) → l = k.
Proof. destruct c; auto. Qed.

(** A trusted row's uncovered fields are empty, so what is covered is all. *)
Lemma covered_all r r' :
  version_ok r = true → version_ok r' = true → row_MACVersion r = row_MACVersion r' →
  covered r = covered r' → all_fields r = all_fields r'.
Proof.
  unfold version_ok, covered, all_fields. rewrite !andb_true_iff, !negb_true_iff. intros H H' Hv E.
  destruct H as ((((_ & H2) & H3) & H4) & H5), H' as ((((_ & H2') & H3') & H4') & H5').
  rewrite <- Hv in *.
  apply app_inj_1 in E as [E1 E]; [|done]. apply app_inj_1 in E as [E2 E]; [|by case_match].
  apply app_inj_1 in E as [E3 E]; [|by case_match]. apply app_inj_1 in E as [E4 E5]; [|by case_match].
  apply part_eq in E2, E3, E4, E5; [by rewrite E1, E2, E3, E4, E5|..]; intros Hc;
    rewrite Hc in *; cbn [andb] in *.
  - by rewrite (unset _ H5), (unset _ H5').
  - by rewrite (v4_unset _ H4), (v4_unset _ H4').
  - by rewrite (v3_unset _ H3), (v3_unset _ H3').
  - rewrite (proj1 (v2_unset _ H2)), (proj1 (v2_unset _ H2')). by rewrite Hv.
Qed.

Lemma version_range r : version_ok r = true → row_MACVersion r = 0 ∨ 2 <= row_MACVersion r <= 5.
Proof.
  unfold version_ok, in_range, MACVersionCurrent. rewrite !andb_true_iff, orb_true_iff, andb_true_iff.
  rewrite Z.eqb_eq, !Z.leb_le. intros ((((H & _) & _) & _) & _). lia.
Qed.

Lemma all_fields_inj r r' :
  row_wf r → row_wf r' → all_fields r = all_fields r' → set_MAC r [] = set_MAC r' [].
Proof.
  intros [Hu _] [Hu' _] E. unfold all_fields, fields_v1, fields_v2, fields_v3, fields_v4 in E.
  cbn [app] in E. rewrite !Forall_cons in Hu, Hu'. unfold nonneg in *.
  destruct Hu as (? & ? & ? & ? & ? & _), Hu' as (? & ? & ? & ? & ? & _).
  injection E. clear E. intros.
  repeat match goal with
  | E : FormatUint _ = FormatUint _ |- _ => apply FormatUint_inj in E; [|assumption|assumption]
  | E : Itoa _ = Itoa _ |- _ => apply FormatInt_inj in E
  | E : FormatInt _ = FormatInt _ |- _ => apply FormatInt_inj in E
  end.
  unfold set_MAC. f_equal; assumption.
Qed.

Lemma macInput_inj r r' :
  row_wf r → row_wf r' → version_ok r = true → version_ok r' = true →
  macInput r = macInput r' → set_MAC r [] = set_MAC r' [].
Proof.
  intros Hw Hw' Hv Hv' E. rewrite !macInput_covered in E.
  assert (Hlen : ∀ v, length (domain_of v) = 18%nat) by (intros v; unfold domain_of; by repeat case_match).
  apply lengthPrefixed_inj in E as [Ed E]; [|by rewrite !Hlen|by apply covered_short|by apply covered_short].
  apply domain_inj in Ed; [|by apply version_range|by apply version_range].
  apply all_fields_inj; [done|done|]. apply covered_all; [done|done|done|]. apply E.
  unfold covered. rewrite <- Ed. by destruct (row_MACVersion r <? 2), (row_MACVersion r <? 3),
    (row_MACVersion r <? 4), (row_MACVersion r <? 5).
Qed.

(** C38: two rows the verifier could trust (a known MAC version, no field its
    version leaves uncovered) that differ anywhere but in their MAC have
    different MAC inputs, whatever bytes their fields hold. *)
Theorem macInput_injective r r'
  (Hwf : row_wf r) (Hwf' : row_wf r') (Hv : version_ok r = true) (Hv' : version_ok r' = true)
  (Heq : macInput r = macInput r') :
  set_MAC r (row_MAC r') = r'.
Proof.
  pose proof (macInput_inj r r' Hwf Hwf' Hv Hv' Heq) as E. apply (f_equal (λ x, set_MAC x (row_MAC r'))) in E.
  change (set_MAC r (row_MAC r') = set_MAC r' (row_MAC r')) in E. rewrite E. by destruct r'.
Qed.

Definition sample_row : Row := set_MAC zero_row #"00".

Lemma macInput_injective_witness : set_MAC zero_row #"00" = sample_row.
Proof.
  assert (Hwf : ∀ m, row_wf (set_MAC zero_row m)).
  { intros m. apply row_wf_check. vm_compute. reflexivity. }
  apply (macInput_injective zero_row sample_row (Hwf []) (Hwf _)); vm_compute; reflexivity.
Defined.
