(* ===== verification/AuditChain.v ===== *)
(** * The audit chain's writer ([internal/auditchain/chain.go])

    The state of one replica boot, [out] holding the rows written so far.  Every
    method body that runs under the mutex is one operation; [Checkpoint] drops
    the lock while it signs and while it persists, so it is three operations with
    anything in between.  What a call learns from outside (the clock, whether the
    output accepted the line, the signature, the store's answer, the current
    key) is an argument of the operation. *)

From S2P Require Import Prelude GoString GoStrconv GoRegexp GoNet AuditRow.

(** ** Events *)

Record Event := {
  ev_Event : bytes;
  ev_Pool : bytes;
  ev_Agent : bytes;
  ev_PodUID : bytes;
  ev_Binding : bytes;
  ev_Session : bytes;
  ev_Outcome : bytes;
  ev_Requester : bytes;
  ev_RequesterKind : bytes;
  ev_RequesterOID : bytes;
  ev_TokenSHA256 : bytes;
  ev_Tier : bytes;
  ev_Decision : bytes;
  ev_Groups : bytes;
  ev_CacheAgeSec : Z;
  ev_Kid : bytes;
  ev_KidSHA256 : bytes;
  ev_Peer : bytes;
  ev_Serial : bytes;
  ev_NotAfter : bytes;
  ev_DNSNames : bytes;
  ev_Target : bytes;
  ev_Method : bytes;
  ev_Status : Z;
  ev_Duration : Z;
}.

(** Bounded printable ASCII without spaces, quotes or backslashes. *)
Definition identifier (s : bytes) (optional : bool) : bool :=
  if bool_decide (s = []) then optional
  else if 512 <? Z.of_nat (length s) then false
  else forallb (λ b, negb ((bval b <=? 32) || (126 <? bval b) || (bval b =? 34) || (bval b =? 92))) s.

Definition lower_alnum (c : Z) : bool := is_lower c || is_digit c.
Definition hex_char (c : Z) : bool := is_digit c || in_range 97 102 c.

(** [^(0|[1-9a-f][0-9a-f]{0,39})$] *)
Definition serialHex : regex :=
  RAlt (RChar x30) (RSeq (RCls (λ c, in_range 49 57 c || in_range 97 102 c)) (RUpTo 39 (RCls hex_char))).

(** [[a-z0-9]([a-z0-9-]{0,61}[a-z0-9])?] and dotted sequences of it. *)
Definition dns_label : regex :=
  RSeq (RCls lower_alnum)
    (ROpt (RSeq (RUpTo 61 (RCls (λ c, lower_alnum c || (c =? 45)))) (RCls lower_alnum))).
Definition dnsName : regex := RSeq dns_label (RStar (RSeq (RChar x2e) dns_label)).

Definition hex_run (n : nat) : regex := RTimes n (RCls hex_char).
Definition groupID : regex :=
  RSeq (hex_run 8) (RSeq (RChar x2d) (RSeq (hex_run 4) (RSeq (RChar x2d) (RSeq (hex_run 4)
    (RSeq (RChar x2d) (RSeq (hex_run 4) (RSeq (RChar x2d) (hex_run 12)))))))).

Definition dnsNameList (s : bytes) : bool :=
  bool_decide (s = []) ||
  forallb (λ n, negb (253 <? Z.of_nat (length n)) && MatchString dnsName n) (Split s x2c).

Definition groupList (s : bytes) : bool :=
  bool_decide (s = []) || forallb (MatchString groupID) (Split s x2c).

(** [net.IP.String]: dotted decimal for an IPv4 address, else RFC 5952 text with
    the first longest run of two or more zero groups elided. *)
Fixpoint hex_digits (fuel : nat) (z : Z) (acc : bytes) : bytes :=
  match fuel with
  | O => acc
  | S f =>
      let d := z mod 16 in
      let acc := byte_of (if d <? 10 then 48 + d else 87 + d) :: acc in
      if z <? 16 then acc else hex_digits f (z / 16) acc
  end.

Fixpoint groups (ip : bytes) : list Z :=
  match ip with a :: b :: ip' => bval a * 256 + bval b :: groups ip' | _ => [] end.

Fixpoint zero_run (g : list Z) : nat :=
  match g with z :: g' => if z =? 0 then S (zero_run g') else 0 | [] => 0 end.

(** The position and length of the first longest run. *)
Fixpoint longest_zeros (i : nat) (g : list Z) (best : nat * nat) : nat * nat :=
  match g with
  | [] => best
  | _ :: g' =>
      let l := zero_run g in
      longest_zeros (S i) g' (if (2 <=? l)%nat && (snd best <? l)%nat then (i, l) else best)
  end.

Definition colon_hex (g : list Z) : bytes := Join (map (λ z, hex_digits 4 z []) g) #":".

Definition IP_String (ip : bytes) : bytes :=
  match To4 ip with
  | Some v4 => Join (map (λ b, Itoa (bval b)) v4) #"."
  | None =>
      let g := groups ip in
      let '(i, l) := longest_zeros 0 g (0, 0)%nat in
      if bool_decide (l = 0%nat) then colon_hex g
      else colon_hex (take i g) ++ #"::" ++ colon_hex (drop (i + l) g)
  end.

Section Events.
Context `{UnicodeTables}.
(** Whether text is RFC 3339 in UTC, in the form [time] prints. *)
Context (canonical_time : bytes → bool).

Definition TargetField (hostport : bytes) : bytes :=
  if bool_decide (hostport = []) then []
  else
    let '(host, port) :=
      match SplitHostPort hostport with
      | Some hp => hp
      | None => (TrimSuffix (TrimPrefix hostport #"[") #"]", [])
      end in
    let host := ToLower host in
    let host' :=
      match ParseIP host with
      | Some ip => Some (IP_String ip)
      | None => if (253 <? Z.of_nat (length host)) || negb (MatchString dnsName host) then None else Some host
      end in
    match host' with
    | None => #"invalid"
    | Some host =>
        if bool_decide (port = []) then host
        else match Atoi port with
             | Some n =>
                 if (n <? 1) || (65535 <? n) || negb (bool_decide (Itoa n = port)) then #"invalid"
                 else JoinHostPort host port
             | None => #"invalid"
             end
    end.

Definition known_events : list bytes :=
  [EventSessionOpen; EventSessionClose; EventDenied; EventHTTPRequest; EventHTTPResponse;
   EventTransaction; EventStateLeak; EventCertificate].
Definition known_methods : list bytes :=
  [[]; #"GET"; #"HEAD"; #"POST"; #"PUT"; #"PATCH"; #"DELETE"; #"OPTIONS"; #"CONNECT"; #"TRACE"].

(** [true] where the source returns nil. *)
Definition Event_Validate (e : Event) : bool :=
  bool_decide (ev_Event e ∈ known_events) && bool_decide (ev_Method e ∈ known_methods) &&
  negb ((negb (ev_Status e =? 0) && ((ev_Status e <? 100) || (599 <? ev_Status e))) || (ev_Duration e <? 0)) &&
  negb (ev_CacheAgeSec e <? 0) &&
  forallb (λ v, identifier v true)
    [ev_Pool e; ev_Agent e; ev_PodUID e; ev_Binding e; ev_Session e; ev_Outcome e; ev_Requester e;
     ev_RequesterKind e; ev_RequesterOID e; ev_TokenSHA256 e; ev_Tier e; ev_Decision e; ev_Kid e;
     ev_KidSHA256 e; ev_Peer e] &&
  groupList (ev_Groups e) && dnsNameList (ev_DNSNames e) &&
  (bool_decide (ev_Target e = []) || bool_decide (TargetField (ev_Target e) = ev_Target e)) &&
  (bool_decide (ev_Serial e = []) || MatchString serialHex (ev_Serial e)) &&
  (bool_decide (ev_NotAfter e = []) || canonical_time (ev_NotAfter e)).
End Events.

(** ** The chain *)

Record Key := { key_Version : Z; key_secret : bytes }.

Definition NewKey (version : Z) (secret : bytes) : option Key :=
  if (version <? 1) || (Z.of_nat (length secret) <? 32) then None
  else Some {| key_Version := version; key_secret := secret |}.

(** [signing] and [persisting] are the heads of the [Checkpoint] calls that are
    outside the lock. *)
Record Chain := {
  ch_replica : bytes;
  ch_grace : Z;
  ch_boot : Z;
  ch_seq : Z;
  ch_prev : bytes;
  ch_key : Key;
  ch_lastCheckpoint : Z;
  ch_failed : bool;
  ch_out : list Row;
  ch_signing : list (Z * bytes);
  ch_persisting : list (Z * bytes);
}.

(** What one call sees: the time, the time as text, whether the write succeeds. *)
Record env := { e_now : Z; e_text : bytes; e_write : bool }.

(** The row [appendLocked] completes. *)
Definition stamp (c : Chain) (text : bytes) (r : Row) : Row :=
  {| row_Type := RowType; row_Replica := ch_replica c; row_Boot := ch_boot c;
     row_Seq := ch_seq c; row_Time := text; row_Event := row_Event r; row_Pool := row_Pool r;
     row_Agent := row_Agent r; row_PodUID := row_PodUID r; row_Binding := row_Binding r;
     row_Session := row_Session r; row_Outcome := row_Outcome r;
     row_Requester := row_Requester r; row_RequesterKind := row_RequesterKind r;
     row_RequesterOID := row_RequesterOID r; row_TokenSHA256 := row_TokenSHA256 r;
     row_Tier := row_Tier r; row_Decision := row_Decision r; row_Groups := row_Groups r;
     row_CacheAgeSec := row_CacheAgeSec r; row_Kid := row_Kid r;
     row_KidSHA256 := row_KidSHA256 r; row_Peer := row_Peer r; row_Serial := row_Serial r;
     row_NotAfter := row_NotAfter r; row_DNSNames := row_DNSNames r; row_Target := row_Target r;
     row_Method := row_Method r; row_Status := row_Status r; row_Duration := row_Duration r;
     row_SignedSeq := row_SignedSeq r; row_SignedMAC := row_SignedMAC r;
     row_Signature := row_Signature r; row_PrevKey := row_PrevKey r;
     row_PrevBoot := row_PrevBoot r; row_PrevCheckpointSeq := row_PrevCheckpointSeq r;
     row_PrevCheckpointMAC := row_PrevCheckpointMAC r; row_KeyVersion := key_Version (ch_key c);
     row_Prev := ch_prev c; row_MACVersion := MACVersionCurrent; row_MAC := row_MAC r |}.

Definition set_failed (c : Chain) : Chain :=
  {| ch_replica := ch_replica c; ch_grace := ch_grace c; ch_boot := ch_boot c; ch_seq := ch_seq c;
     ch_prev := ch_prev c; ch_key := ch_key c; ch_lastCheckpoint := ch_lastCheckpoint c;
     ch_failed := true; ch_out := ch_out c; ch_signing := ch_signing c; ch_persisting := ch_persisting c |}.

Definition wrote (c : Chain) (r : Row) : Chain :=
  {| ch_replica := ch_replica c; ch_grace := ch_grace c; ch_boot := ch_boot c;
     ch_seq := uint64_wrap (ch_seq c + 1); ch_prev := row_MAC r; ch_key := ch_key c;
     ch_lastCheckpoint := ch_lastCheckpoint c; ch_failed := ch_failed c; ch_out := ch_out c ++ [r];
     ch_signing := ch_signing c; ch_persisting := ch_persisting c |}.

Definition set_queues (c : Chain) (signing persisting : list (Z * bytes)) : Chain :=
  {| ch_replica := ch_replica c; ch_grace := ch_grace c; ch_boot := ch_boot c; ch_seq := ch_seq c;
     ch_prev := ch_prev c; ch_key := ch_key c; ch_lastCheckpoint := ch_lastCheckpoint c;
     ch_failed := ch_failed c; ch_out := ch_out c; ch_signing := signing; ch_persisting := persisting |}.

Definition set_key (c : Chain) (k : Key) : Chain :=
  {| ch_replica := ch_replica c; ch_grace := ch_grace c; ch_boot := ch_boot c; ch_seq := ch_seq c;
     ch_prev := ch_prev c; ch_key := k; ch_lastCheckpoint := ch_lastCheckpoint c;
     ch_failed := ch_failed c; ch_out := ch_out c; ch_signing := ch_signing c;
     ch_persisting := ch_persisting c |}.

Definition set_lastCheckpoint (c : Chain) (t : Z) : Chain :=
  {| ch_replica := ch_replica c; ch_grace := ch_grace c; ch_boot := ch_boot c; ch_seq := ch_seq c;
     ch_prev := ch_prev c; ch_key := ch_key c; ch_lastCheckpoint := t; ch_failed := ch_failed c;
     ch_out := ch_out c; ch_signing := ch_signing c; ch_persisting := ch_persisting c |}.

Inductive audit_error := ErrAuditFailed | ErrCheckpointOverdue | ErrInvalidEvent.

(** The rows the chain's methods pass to [appendLocked]. *)
Definition start_row (prevBoot prevSeq : Z) (prevMAC : bytes) : Row :=
  {| row_Type := row_Type zero_row; row_Replica := row_Replica zero_row;
     row_Boot := row_Boot zero_row; row_Seq := row_Seq zero_row; row_Time := row_Time zero_row;
     row_Event := EventChainStart; row_Pool := row_Pool zero_row;
     row_Agent := row_Agent zero_row; row_PodUID := row_PodUID zero_row;
     row_Binding := row_Binding zero_row; row_Session := row_Session zero_row;
     row_Outcome := row_Outcome zero_row; row_Requester := row_Requester zero_row;
     row_RequesterKind := row_RequesterKind zero_row;
     row_RequesterOID := row_RequesterOID zero_row; row_TokenSHA256 := row_TokenSHA256 zero_row;
     row_Tier := row_Tier zero_row; row_Decision := row_Decision zero_row;
     row_Groups := row_Groups zero_row; row_CacheAgeSec := row_CacheAgeSec zero_row;
     row_Kid := row_Kid zero_row; row_KidSHA256 := row_KidSHA256 zero_row;
     row_Peer := row_Peer zero_row; row_Serial := row_Serial zero_row;
     row_NotAfter := row_NotAfter zero_row; row_DNSNames := row_DNSNames zero_row;
     row_Target := row_Target zero_row; row_Method := row_Method zero_row;
     row_Status := row_Status zero_row; row_Duration := row_Duration zero_row;
     row_SignedSeq := row_SignedSeq zero_row; row_SignedMAC := row_SignedMAC zero_row;
     row_Signature := row_Signature zero_row; row_PrevKey := row_PrevKey zero_row;
     row_PrevBoot := prevBoot; row_PrevCheckpointSeq := prevSeq;
     row_PrevCheckpointMAC := prevMAC; row_KeyVersion := row_KeyVersion zero_row;
     row_Prev := row_Prev zero_row; row_MACVersion := row_MACVersion zero_row;
     row_MAC := row_MAC zero_row |}.

Definition event_row (e : Event) : Row :=
  {| row_Type := row_Type zero_row; row_Replica := row_Replica zero_row;
     row_Boot := row_Boot zero_row; row_Seq := row_Seq zero_row; row_Time := row_Time zero_row;
     row_Event := ev_Event e; row_Pool := ev_Pool e; row_Agent := ev_Agent e;
     row_PodUID := ev_PodUID e; row_Binding := ev_Binding e; row_Session := ev_Session e;
     row_Outcome := ev_Outcome e; row_Requester := ev_Requester e;
     row_RequesterKind := ev_RequesterKind e; row_RequesterOID := ev_RequesterOID e;
     row_TokenSHA256 := ev_TokenSHA256 e; row_Tier := ev_Tier e; row_Decision := ev_Decision e;
     row_Groups := ev_Groups e; row_CacheAgeSec := ev_CacheAgeSec e; row_Kid := ev_Kid e;
     row_KidSHA256 := ev_KidSHA256 e; row_Peer := ev_Peer e; row_Serial := ev_Serial e;
     row_NotAfter := ev_NotAfter e; row_DNSNames := ev_DNSNames e; row_Target := ev_Target e;
     row_Method := ev_Method e; row_Status := ev_Status e; row_Duration := ev_Duration e;
     row_SignedSeq := row_SignedSeq zero_row; row_SignedMAC := row_SignedMAC zero_row;
     row_Signature := row_Signature zero_row; row_PrevKey := row_PrevKey zero_row;
     row_PrevBoot := row_PrevBoot zero_row;
     row_PrevCheckpointSeq := row_PrevCheckpointSeq zero_row;
     row_PrevCheckpointMAC := row_PrevCheckpointMAC zero_row;
     row_KeyVersion := row_KeyVersion zero_row; row_Prev := row_Prev zero_row;
     row_MACVersion := row_MACVersion zero_row; row_MAC := row_MAC zero_row |}.

Definition failed_row (outcome : bytes) : Row :=
  {| row_Type := row_Type zero_row; row_Replica := row_Replica zero_row;
     row_Boot := row_Boot zero_row; row_Seq := row_Seq zero_row; row_Time := row_Time zero_row;
     row_Event := EventCheckpointFailed; row_Pool := row_Pool zero_row;
     row_Agent := row_Agent zero_row; row_PodUID := row_PodUID zero_row;
     row_Binding := row_Binding zero_row; row_Session := row_Session zero_row;
     row_Outcome := outcome; row_Requester := row_Requester zero_row;
     row_RequesterKind := row_RequesterKind zero_row;
     row_RequesterOID := row_RequesterOID zero_row; row_TokenSHA256 := row_TokenSHA256 zero_row;
     row_Tier := row_Tier zero_row; row_Decision := row_Decision zero_row;
     row_Groups := row_Groups zero_row; row_CacheAgeSec := row_CacheAgeSec zero_row;
     row_Kid := row_Kid zero_row; row_KidSHA256 := row_KidSHA256 zero_row;
     row_Peer := row_Peer zero_row; row_Serial := row_Serial zero_row;
     row_NotAfter := row_NotAfter zero_row; row_DNSNames := row_DNSNames zero_row;
     row_Target := row_Target zero_row; row_Method := row_Method zero_row;
     row_Status := row_Status zero_row; row_Duration := row_Duration zero_row;
     row_SignedSeq := row_SignedSeq zero_row; row_SignedMAC := row_SignedMAC zero_row;
     row_Signature := row_Signature zero_row; row_PrevKey := row_PrevKey zero_row;
     row_PrevBoot := row_PrevBoot zero_row;
     row_PrevCheckpointSeq := row_PrevCheckpointSeq zero_row;
     row_PrevCheckpointMAC := row_PrevCheckpointMAC zero_row;
     row_KeyVersion := row_KeyVersion zero_row; row_Prev := row_Prev zero_row;
     row_MACVersion := row_MACVersion zero_row; row_MAC := row_MAC zero_row |}.

Definition checkpoint_row (seq : Z) (mac signature : bytes) : Row :=
  {| row_Type := row_Type zero_row; row_Replica := row_Replica zero_row;
     row_Boot := row_Boot zero_row; row_Seq := row_Seq zero_row; row_Time := row_Time zero_row;
     row_Event := EventCheckpoint; row_Pool := row_Pool zero_row;
     row_Agent := row_Agent zero_row; row_PodUID := row_PodUID zero_row;
     row_Binding := row_Binding zero_row; row_Session := row_Session zero_row;
     row_Outcome := row_Outcome zero_row; row_Requester := row_Requester zero_row;
     row_RequesterKind := row_RequesterKind zero_row;
     row_RequesterOID := row_RequesterOID zero_row; row_TokenSHA256 := row_TokenSHA256 zero_row;
     row_Tier := row_Tier zero_row; row_Decision := row_Decision zero_row;
     row_Groups := row_Groups zero_row; row_CacheAgeSec := row_CacheAgeSec zero_row;
     row_Kid := row_Kid zero_row; row_KidSHA256 := row_KidSHA256 zero_row;
     row_Peer := row_Peer zero_row; row_Serial := row_Serial zero_row;
     row_NotAfter := row_NotAfter zero_row; row_DNSNames := row_DNSNames zero_row;
     row_Target := row_Target zero_row; row_Method := row_Method zero_row;
     row_Status := row_Status zero_row; row_Duration := row_Duration zero_row;
     row_SignedSeq := seq; row_SignedMAC := mac; row_Signature := signature;
     row_PrevKey := row_PrevKey zero_row; row_PrevBoot := row_PrevBoot zero_row;
     row_PrevCheckpointSeq := row_PrevCheckpointSeq zero_row;
     row_PrevCheckpointMAC := row_PrevCheckpointMAC zero_row;
     row_KeyVersion := row_KeyVersion zero_row; row_Prev := row_Prev zero_row;
     row_MACVersion := row_MACVersion zero_row; row_MAC := row_MAC zero_row |}.

Definition rotated_row (previous : Z) : Row :=
  {| row_Type := row_Type zero_row; row_Replica := row_Replica zero_row;
     row_Boot := row_Boot zero_row; row_Seq := row_Seq zero_row; row_Time := row_Time zero_row;
     row_Event := EventKeyRotated; row_Pool := row_Pool zero_row;
     row_Agent := row_Agent zero_row; row_PodUID := row_PodUID zero_row;
     row_Binding := row_Binding zero_row; row_Session := row_Session zero_row;
     row_Outcome := row_Outcome zero_row; row_Requester := row_Requester zero_row;
     row_RequesterKind := row_RequesterKind zero_row;
     row_RequesterOID := row_RequesterOID zero_row; row_TokenSHA256 := row_TokenSHA256 zero_row;
     row_Tier := row_Tier zero_row; row_Decision := row_Decision zero_row;
     row_Groups := row_Groups zero_row; row_CacheAgeSec := row_CacheAgeSec zero_row;
     row_Kid := row_Kid zero_row; row_KidSHA256 := row_KidSHA256 zero_row;
     row_Peer := row_Peer zero_row; row_Serial := row_Serial zero_row;
     row_NotAfter := row_NotAfter zero_row; row_DNSNames := row_DNSNames zero_row;
     row_Target := row_Target zero_row; row_Method := row_Method zero_row;
     row_Status := row_Status zero_row; row_Duration := row_Duration zero_row;
     row_SignedSeq := row_SignedSeq zero_row; row_SignedMAC := row_SignedMAC zero_row;
     row_Signature := row_Signature zero_row; row_PrevKey := previous;
     row_PrevBoot := row_PrevBoot zero_row;
     row_PrevCheckpointSeq := row_PrevCheckpointSeq zero_row;
     row_PrevCheckpointMAC := row_PrevCheckpointMAC zero_row;
     row_KeyVersion := row_KeyVersion zero_row; row_Prev := row_Prev zero_row;
     row_MACVersion := row_MACVersion zero_row; row_MAC := row_MAC zero_row |}.

Section Chain.
Context `{UnicodeTables} (canonical_time : bytes → bool) (HMAC : bytes → bytes → bytes).

(** The encoding to JSON cannot fail: every field is a string or an integer. *)
Definition appendLocked (c : Chain) (e : env) (r : Row) : Chain * result audit_error Row :=
  if ch_failed c then (c, Err ErrAuditFailed)
  else
    let r := stamp c (e_text e) r in
    let r := set_MAC r (computeMAC HMAC (key_secret (ch_key c)) r) in
    if negb (e_write e) then (set_failed c, Err ErrAuditFailed)
    else (wrote c r, Ok r).

(** What [BeginAuditBoot] answers: the boot it replaces, with its checkpoint. *)
Record AuditBoot := { ab_Boot : Z; ab_CheckpointSeq : Z; ab_CheckpointMAC : bytes }.

(** [New] once its options are complete; [boot] and [previous] come from the
    store, [key] from the key source. *)
Definition New (replica : bytes) (grace : Z) (key : Key) (boot : Z) (previous : AuditBoot) (e : env)
  : option Chain :=
  if negb (identifier replica false) then None
  else
    let c := {| ch_replica := replica; ch_grace := if grace <=? 0 then 5 * Minute else grace;
                ch_boot := boot; ch_seq := 0; ch_prev := []; ch_key := key;
                ch_lastCheckpoint := e_now e; ch_failed := false; ch_out := [];
                ch_signing := []; ch_persisting := [] |} in
    match appendLocked c e (start_row (ab_Boot previous) (ab_CheckpointSeq previous) (ab_CheckpointMAC previous)) with
    | (c', Ok _) => Some c'
    | (_, Err _) => None
    end.

Definition Admit (c : Chain) (now : Z) : option audit_error :=
  if ch_failed c then Some ErrAuditFailed
  else if ch_grace c <? time_Sub now (ch_lastCheckpoint c) then Some ErrCheckpointOverdue
  else None.

Definition Record_ (c : Chain) (e : env) (ev : Event) : Chain * option audit_error :=
  if negb (Event_Validate canonical_time ev) then (c, Some ErrInvalidEvent)
  else match appendLocked c e (event_row ev) with
       | (c', Ok _) => (c', None)
       | (c', Err err) => (c', Some err)
       end.

(** [Checkpoint] up to the call of the signer: the head it will sign. *)
Definition checkpoint_begin (c : Chain) : Chain * option audit_error :=
  if ch_failed c then (c, Some ErrAuditFailed)
  else (set_queues c (ch_signing c ++ [(uint64_wrap (ch_seq c - 1), ch_prev c)]) (ch_persisting c), None).

(** After the signer answered call [i]: the checkpoint row, or the failure's. *)
Definition checkpoint_signed (c : Chain) (e : env) (i : nat) (signature : option bytes)
  : Chain * option audit_error :=
  match ch_signing c !! i with
  | None => (c, None)                                        (* no such call *)
  | Some (seq, mac) =>
      let c := set_queues c (delete i (ch_signing c)) (ch_persisting c) in
      let good := match signature with Some s => identifier s false | None => false end in
      if negb good then
        match appendLocked c e (failed_row #"signer_unavailable") with
        | (c', Ok _) => (c', Some ErrCheckpointOverdue)
        | (c', Err err) => (c', Some err)
        end
      else
        match appendLocked c e (checkpoint_row seq mac (default [] signature)) with
        | (c', Ok row) => (set_queues c' (ch_signing c') (ch_persisting c' ++ [(row_Seq row, row_MAC row)]), None)
        | (c', Err err) => (c', Some err)
        end
  end.

(** After the store answered for the checkpoint row of call [i]. *)
Definition checkpoint_persisted (c : Chain) (e : env) (i : nat) (stored : bool)
  : Chain * option audit_error :=
  match ch_persisting c !! i with
  | None => (c, None)                                        (* no such call *)
  | Some _ =>
      let c := set_queues c (ch_signing c) (delete i (ch_persisting c)) in
      if negb stored then
        match appendLocked c e (failed_row #"store_unavailable") with
        | (c', Ok _) => (c', Some ErrCheckpointOverdue)
        | (c', Err err) => (c', Some err)
        end
      else (set_lastCheckpoint c (e_now e), None)
  end.

(** [RefreshKey] with the key the source returned. *)
Definition RefreshKey (c : Chain) (e : env) (key : Key) : Chain * option audit_error :=
  if key_Version key <=? key_Version (ch_key c) then (c, None)
  else
    let previous := key_Version (ch_key c) in
    match appendLocked (set_key c key) e (rotated_row previous) with
    | (c', Ok _) => (c', None)
    | (c', Err err) => (c', Some err)
    end.

(** ** Operation sequences *)

Inductive op :=
| ORecord (ev : Event)
| OBegin
| OSigned (i : nat) (signature : option bytes)
| OPersisted (i : nat) (stored : bool)
| ORefresh (key : Key).

Definition step (c : Chain) (o : env * op) : Chain :=
  let '(e, o) := o in
  fst match o with
      | ORecord ev => Record_ c e ev
      | OBegin => checkpoint_begin c
      | OSigned i sig => checkpoint_signed c e i sig
      | OPersisted i ok => checkpoint_persisted c e i ok
      | ORefresh k => RefreshKey c e k
      end.

Definition run (c : Chain) (ops : list (env * op)) : Chain := foldl step c ops.
End Chain.
