(* ===== verification/AuditVerify.v ===== *)
(** * The offline verifier ([internal/auditchain/verify.go])

    [HMAC], the Ed25519 check, the key fetch and the parser of row times are
    arguments.  [Verify] works on lines already decoded: JSON that is not a row is
    [Ignored], an undecodable row is [Malformed]. *)

From S2P Require Import Prelude GoString GoStrconv AuditRow.

Inductive kind :=
| FindingEdit | FindingGap | FindingReorder | FindingDuplicate | FindingBrokenLink | FindingNoStart
| FindingBadCheckpoint | FindingUnsigned | FindingKeyUnavailable | FindingKeyChange | FindingMalformed
| FindingMissingBoot | FindingTruncatedTail | FindingBootLink | FindingMissingHead | FindingUnknownBoot
| FindingKeyDowngrade.

Record Finding := { f_Kind : kind; f_Replica : bytes; f_Boot : Z; f_Seq : Z }.

Record Head := { h_Replica : bytes; h_Boot : Z; h_CheckpointSeq : Z; h_CheckpointMAC : bytes }.

Abbreviation chainKey := (bytes * Z)%type.

(** ** Transit signatures *)

(** [base64.StdEncoding.DecodeString]: newlines are skipped, the last group may
    be padded, and its unused bits are not checked. *)
Definition b64_value (b : byte) : option Z :=
  let z := bval b in
  if is_upper z then Some (z - 65) else if is_lower z then Some (z - 71)
  else if is_digit z then Some (z + 4) else if z =? 43 then Some 62 else if z =? 47 then Some 63 else None.

Fixpoint b64_groups (s : bytes) : option bytes :=
  match s with
  | [] => Some []
  | a :: b :: c :: d :: s' =>
      x ← b64_value a; y ← b64_value b;
      if bool_decide (c = x3d) then
        if bool_decide (d = x3d) && bool_decide (s' = []) then Some [byte_of (x * 4 + y / 16)] else None
      else
        z ← b64_value c;
        if bool_decide (d = x3d) then
          if bool_decide (s' = []) then Some [byte_of (x * 4 + y / 16); byte_of (y * 16 + z / 4)] else None
        else
          w ← b64_value d; rest ← b64_groups s';
          Some (byte_of (x * 4 + y / 16) :: byte_of (y * 16 + z / 4) :: byte_of (z * 64 + w) :: rest)
  | _ => None
  end.
Definition DecodeString (s : bytes) : option bytes :=
  b64_groups (List.filter (λ b, negb (bool_decide (b = x0a) || bool_decide (b = x0d))) s).

Definition parseTransitSignature (s : bytes) : option (Z * bytes) :=
  match Split s x3a with
  | [p0; p1; p2] =>
      if negb (bool_decide (p0 = #"vault")) || negb (HasPrefix p1 #"v") then None
      else match Atoi (TrimPrefix p1 #"v") with
           | Some version => if version <? 1 then None else (λ sig, (version, sig)) <$> DecodeString p2
           | None => None
           end
  | _ => None
  end.

Section Verifier.
Context (HMAC : bytes → bytes → bytes) (HMACKey : Z → option bytes).
Context (PublicKeys : Z → option bytes) (ed25519_Verify : bytes → bytes → bytes → bool).
Context (parse_time : bytes → option Z) (MaxUnsigned : Z) (PartialHistory : bool).

Definition checkpointValid (row : Row) (macs : gmap Z bytes) : bool :=
  match macs !! row_SignedSeq row with
  | None => false
  | Some signed =>
      if (row_Seq row <=? row_SignedSeq row) || negb (bool_decide (signed = row_SignedMAC row)) then false
      else match parseTransitSignature (row_Signature row) with
           | None => false
           | Some (version, signature) =>
               match PublicKeys version with
               | None => false
               | Some public =>
                   ed25519_Verify public
                     (checkpointInput (row_Replica row) (row_Boot row) (row_SignedSeq row) (row_SignedMAC row))
                     signature
               end
           end
  end.

(** The variables of [verifyChain]'s loop. *)
Record vstate := {
  vs_prev : option Row;
  vs_lastSigned : Z;
  vs_signedAny : bool;
  vs_macs : gmap Z bytes;
  vs_rows : gmap Z Row;
  vs_start : option Row;
  vs_maxSeq : Z;
  vs_lastKey : Z;
}.

Definition vinit : vstate :=
  {| vs_prev := None; vs_lastSigned := 0; vs_signedAny := false; vs_macs := ∅; vs_rows := ∅;
     vs_start := None; vs_maxSeq := 0; vs_lastKey := 0 |}.

(** The first [switch]: is the row's MAC to be trusted? *)
Definition mac_findings (prev : option Row) (row : Row) : list kind :=
  match HMACKey (row_KeyVersion row) with
  | None => [FindingKeyUnavailable]
  | Some key =>
      let v := row_MACVersion row in
      if negb (bool_decide (computeMAC HMAC key row = row_MAC row)) then [FindingEdit]
      else if negb (v =? 0) && ((v <? 2) || (MACVersionCurrent <? v)) then [FindingEdit]
      else if (v <? 2) && v2Only row then [FindingEdit]
      else if (v <? 3) && v3Only row then [FindingEdit]
      else if (v <? 4) && v4Only row then [FindingEdit]
      else if (v <? 5) && v5Only row then [FindingEdit]
      else match prev with
           | Some p => if v <? row_MACVersion p then [FindingEdit] else []
           | None => []
           end
  end.

Definition rotated (prev row : Row) : bool :=
  bool_decide (row_Event row = EventKeyRotated) && (row_PrevKey row =? row_KeyVersion prev) &&
  (row_PrevKey row <? row_KeyVersion row).

(** Sequence, link and key findings, each with the sequence number it names. *)
Definition link_findings (prev : option Row) (row : Row) : list (kind * Z) :=
  match prev with
  | None =>
      if negb (row_Seq row =? 0) || negb (bool_decide (row_Event row = EventChainStart)) ||
         negb (bool_decide (row_Prev row = []))
      then [(FindingNoStart, row_Seq row)] else []
  | Some p =>
      let next := uint64_wrap (row_Seq p + 1) in
      (if row_Seq row =? row_Seq p then [(FindingDuplicate, row_Seq row)]
       else if row_Seq row <? row_Seq p then [(FindingReorder, row_Seq row)]
       else if next <? row_Seq row then [(FindingGap, next)] else []) ++
      (if (row_Seq row =? next) && negb (bool_decide (row_Prev row = row_MAC p))
       then [(FindingBrokenLink, row_Seq row)] else []) ++
      (if (negb (row_KeyVersion row =? row_KeyVersion p) && negb (rotated p row)) ||
          (bool_decide (row_Event row = EventKeyRotated) && negb (rotated p row))
       then [(FindingKeyChange, row_Seq row)] else [])
  end.

(** One iteration of the loop. *)
Definition verify_row (st : vstate) (row : Row) : vstate * list (kind * Z) :=
  let prev := vs_prev st in
  let is_checkpoint := bool_decide (row_Event row = EventCheckpoint) in
  let good := checkpointValid row (vs_macs st) in
  let signed := if is_checkpoint && good then parse_time (row_Time row) else None in
  let fresh := negb (bool_decide (is_Some (vs_macs st !! row_Seq row))) in
  ({| vs_prev := match prev with
                 | Some p => if row_Seq p <? row_Seq row then Some row else prev
                 | None => Some row
                 end;
      vs_lastSigned := default (vs_lastSigned st) signed;
      vs_signedAny := vs_signedAny st || bool_decide (is_Some signed);
      vs_macs := if fresh then <[row_Seq row := row_MAC row]> (vs_macs st) else vs_macs st;
      vs_rows := if fresh then <[row_Seq row := row]> (vs_rows st) else vs_rows st;
      vs_start := match vs_start st with
                  | Some s => Some s
                  | None => if (row_Seq row =? 0) && bool_decide (row_Event row = EventChainStart)
                            then Some row else None
                  end;
      vs_maxSeq := if vs_maxSeq st <=? row_Seq row then row_Seq row else vs_maxSeq st;
      vs_lastKey := if vs_maxSeq st <=? row_Seq row then row_KeyVersion row else vs_lastKey st |},
   map (λ k, (k, row_Seq row)) (mac_findings prev row) ++ link_findings prev row ++
   (if is_checkpoint && negb good then [(FindingBadCheckpoint, row_Seq row)] else [])).

Fixpoint verify_rows (st : vstate) (rows : list Row) : vstate * list (kind * Z) :=
  match rows with
  | [] => (st, [])
  | row :: rows' =>
      let '(st1, f) := verify_row st row in
      let '(st2, fs) := verify_rows st1 rows' in (st2, f ++ fs)
  end.

(** The check of the tail after the last checkpoint. *)
Definition tail_findings (st : vstate) : list (kind * Z) :=
  match vs_prev st with
  | None => []
  | Some p =>
      if negb (vs_signedAny st) then [(FindingUnsigned, row_Seq p)]
      else if 0 <? MaxUnsigned then
        match parse_time (row_Time p) with
        | None => [(FindingUnsigned, row_Seq p)]
        | Some last =>
            if MaxUnsigned <? time_Sub last (vs_lastSigned st) then [(FindingUnsigned, row_Seq p)] else []
        end
      else []
  end.

Definition mk_finding (k : chainKey) (f : kind * Z) : Finding :=
  {| f_Kind := fst f; f_Replica := fst k; f_Boot := snd k; f_Seq := snd f |}.

Definition verifyChain (k : chainKey) (rows : list Row) : list Finding * vstate :=
  let '(st, fs) := verify_rows vinit rows in (map (mk_finding k) (fs ++ tail_findings st), st).

(** ** Between boots *)

Definition verifyBootLink (k : chainKey) (states : gmap chainKey vstate) (earliest : bool) : list Finding :=
  match states !! k with
  | None => []
  | Some st =>
      match vs_start st with
      | None => []
      | Some start =>
          let finding kd boot seq := [{| f_Kind := kd; f_Replica := fst k; f_Boot := boot; f_Seq := seq |}] in
          if (snd k =? 0) || negb (row_PrevBoot start =? uint64_wrap (snd k - 1)) ||
             ((row_PrevBoot start =? 0) &&
              (negb (row_PrevCheckpointSeq start =? 0) || negb (bool_decide (row_PrevCheckpointMAC start = []))))
          then finding FindingBootLink (snd k) 0
          else if row_PrevBoot start =? 0 then []
          else match states !! (fst k, row_PrevBoot start) with
          | None =>
              if earliest && PartialHistory then [] else finding FindingMissingBoot (row_PrevBoot start) 0
          | Some previous =>
              if row_KeyVersion start <? vs_lastKey previous then finding FindingKeyDowngrade (snd k) 0
              else if bool_decide (row_PrevCheckpointMAC start = []) then []
              else match vs_rows previous !! row_PrevCheckpointSeq start with
              | None =>
                  if vs_maxSeq previous <? row_PrevCheckpointSeq start
                  then finding FindingTruncatedTail (row_PrevBoot start) (uint64_wrap (vs_maxSeq previous + 1))
                  else []
              | Some linked =>
                  if negb (bool_decide (row_Event linked = EventCheckpoint)) ||
                     negb (bool_decide (row_MAC linked = row_PrevCheckpointMAC start))
                  then finding FindingBootLink (snd k) 0 else []
              end
          end
      end
  end.

(** [heads] as the map the code builds: a later entry of a replica replaces an
    earlier one. *)
Definition head_of (heads : list Head) (replica : bytes) : option Head :=
  List.find (λ h, bool_decide (h_Replica h = replica)) (rev heads).

Definition verifyHeads (heads : list Head) (order : list chainKey) (states : gmap chainKey vstate)
  : list Finding :=
  flat_map (λ h,
    let missing seq := [{| f_Kind := FindingMissingHead; f_Replica := h_Replica h; f_Boot := h_Boot h; f_Seq := seq |}] in
    match states !! (h_Replica h, h_Boot h) with
    | None => missing 0
    | Some st =>
        if bool_decide (h_CheckpointMAC h = []) then []
        else match vs_rows st !! h_CheckpointSeq h with
             | None => missing (h_CheckpointSeq h)
             | Some row =>
                 if negb (bool_decide (row_Event row = EventCheckpoint)) ||
                    negb (bool_decide (row_MAC row = h_CheckpointMAC h))
                 then missing (h_CheckpointSeq h) else []
             end
    end) heads ++
  flat_map (λ k,
    let unknown := [{| f_Kind := FindingUnknownBoot; f_Replica := fst k; f_Boot := snd k; f_Seq := 0 |}] in
    match head_of heads (fst k) with
    | None => unknown
    | Some h => if h_Boot h <? snd k then unknown else []
    end) order.

(** ** The whole export *)

Inductive line := Ignored | Malformed | Parsed (r : Row).

Definition key_of (r : Row) : chainKey := (row_Replica r, row_Boot r).

Definition parsed (ls : list line) : list Row := omap (λ l, match l with Parsed r => Some r | _ => None end) ls.

Definition rows_of (k : chainKey) (rows : list Row) : list Row :=
  List.filter (λ r, bool_decide (key_of r = k)) rows.

Definition key_ltb (a b : chainKey) : bool :=
  bytes_ltb (fst a) (fst b) || (bool_decide (fst a = fst b) && (snd a <? snd b)).

(** The chains in order of first appearance, then sorted. *)
Definition chain_order (rows : list Row) : list chainKey :=
  sort_by key_ltb (foldl (λ seen r, if bool_decide (key_of r ∈ seen) then seen else seen ++ [key_of r]) [] rows).

Record Report := { rep_Chains : nat; rep_Rows : nat; rep_Findings : list Finding }.

Definition Verify (SortBySeq : bool) (heads : option (list Head)) (ls : list line) : Report :=
  let rows := parsed ls in
  let order := chain_order rows in
  let chain k := let l := rows_of k rows in
                 if SortBySeq then sort_by (λ a b, row_Seq a <? row_Seq b) l else l in
  let results := map (λ k, (k, verifyChain k (chain k))) order in
  let states : gmap chainKey vstate := list_to_map (map (λ '(k, (_, st)), (k, st)) results) in
  let earliest k := forallb (λ k', negb (bool_decide (fst k' = fst k)) || (snd k <=? snd k')) order in
  {| rep_Chains := length order; rep_Rows := length rows;
     rep_Findings :=
       omap (λ l, match l with
                  | Malformed => Some {| f_Kind := FindingMalformed; f_Replica := []; f_Boot := 0; f_Seq := 0 |}
                  | _ => None end) ls ++
       flat_map (λ '(_, (fs, _)), fs) results ++
       flat_map (λ k, verifyBootLink k states (earliest k)) order ++
       match heads with Some hs => verifyHeads hs order states | None => [] end |}.
End Verifier.
