(* ===== verification/AuditTheorems.v ===== *)
(** * The audit chain end to end

    The verifier's findings characterised row by row ([clean]), the writer's
    invariant, and what follows for the two together: an honest boot's output
    verifies, and output that verifies is what the boot wrote. *)

From S2P Require Import Prelude GoString GoStrconv AuditRow AuditChain AuditVerify.

(** ** What a row must satisfy to raise no finding *)

(** Only a rotation row may change the key, and it must raise its version. *)
Definition key_step (p r : Row) : Prop :=
  if bool_decide (row_Event r = EventKeyRotated)
  then row_PrevKey r = row_KeyVersion p ∧ row_PrevKey r < row_KeyVersion r
  else row_KeyVersion r = row_KeyVersion p.

Definition seq_range (r : Row) : Prop := 0 <= row_Seq r < 2 ^ 64.

Section Clean.
Context (HMAC : bytes → bytes → bytes) (HMACKey : Z → option bytes).
Context (PublicKeys : Z → option bytes) (ed25519_Verify : bytes → bytes → bytes → bool).
Context (parse_time : bytes → option Z) (MaxUnsigned : Z).

Abbreviation verify_row := (verify_row HMAC HMACKey PublicKeys ed25519_Verify parse_time).
Abbreviation verify_rows := (verify_rows HMAC HMACKey PublicKeys ed25519_Verify parse_time).
Abbreviation verifyChain := (verifyChain HMAC HMACKey PublicKeys ed25519_Verify parse_time MaxUnsigned).
Abbreviation checkpointValid := (checkpointValid PublicKeys ed25519_Verify).

Definition authentic (r : Row) : Prop :=
  ∃ key, HMACKey (row_KeyVersion r) = Some key ∧ computeMAC HMAC key r = row_MAC r.

Definition signature_valid (r : Row) : Prop :=
  ∃ version signature public,
    parseTransitSignature (row_Signature r) = Some (version, signature) ∧
    PublicKeys version = Some public ∧
    ed25519_Verify public
      (checkpointInput (row_Replica r) (row_Boot r) (row_SignedSeq r) (row_SignedMAC r)) signature = true.

(** The checkpoint covers an earlier row of the chain. *)
Definition covers (rows : list Row) (r : Row) : Prop :=
  ∃ i s, rows !! i = Some s ∧ row_SignedSeq r = Z.of_nat i ∧ row_MAC s = row_SignedMAC r.

(** [r] may follow [rows]: its MAC, version, position, link and key are right and
    a checkpoint covers one of [rows]. *)
Definition row_linked (rows : list Row) (r : Row) : Prop :=
  authentic r ∧ version_ok r = true ∧ row_Seq r = Z.of_nat (length rows) ∧
  match last rows with
  | None => row_Event r = EventChainStart ∧ row_Prev r = []
  | Some p => row_MACVersion p <= row_MACVersion r ∧ row_Prev r = row_MAC p ∧ key_step p r
  end ∧
  (row_Event r = EventCheckpoint → covers rows r).

Inductive linked : list Row → Prop :=
| linked_nil : linked []
| linked_snoc rows r : linked rows → row_linked rows r → linked (rows ++ [r]).

(** The signatures are the signer's, so they are apart. *)
Definition signed (r : Row) : Prop := row_Event r = EventCheckpoint → signature_valid r.

Definition clean (rows : list Row) : Prop := linked rows ∧ Forall signed rows.

Lemma linked_snoc_inv rows r : linked (rows ++ [r]) ↔ linked rows ∧ row_linked rows r.
Proof.
  split; [|by intros [? ?]; constructor]. inversion 1 as [E|rows' r' ? ? E]; [by destruct rows|].
  by apply app_inj_tail in E as [-> ->].
Qed.

Lemma clean_snoc rows r : clean (rows ++ [r]) ↔ clean rows ∧ row_linked rows r ∧ signed r.
Proof. unfold clean. rewrite linked_snoc_inv, Forall_app, Forall_singleton. tauto. Qed.

(** The loop's variables after the rows seen so far. *)
Record vst_ok (rows : list Row) (st : vstate) : Prop := {
  vo_prev : vs_prev st = last rows;
  vo_macs : ∀ z, vs_macs st !! z = (if 0 <=? z then row_MAC <$> rows !! Z.to_nat z else None);
  vo_rows : ∀ z, vs_rows st !! z = (if 0 <=? z then rows !! Z.to_nat z else None);
  vo_signed : vs_signedAny st = existsb (λ r, bool_decide (row_Event r = EventCheckpoint) &&
                                              bool_decide (is_Some (parse_time (row_Time r)))) rows;
}.

(** ** The findings of one row *)

Lemma if_nil {A} (b : bool) (x : A) : (if b then [x] else []) = [] ↔ b = false.
Proof. by destruct b. Qed.

Lemma map_nil {A B} (f : A → B) l : map f l = [] ↔ l = [].
Proof. by destruct l. Qed.

Lemma mac_findings_nil prev r :
  mac_findings HMAC HMACKey prev r = [] ↔
  authentic r ∧ version_ok r = true ∧
  (∀ p, prev = Some p → row_MACVersion p <= row_MACVersion r).
Proof.
  unfold mac_findings, authentic, version_ok. destruct (HMACKey (row_KeyVersion r)) as [key|];
    [|split; [done|intros ((? & ? & _) & _); done]].
  destruct (bool_decide_reflect (computeMAC HMAC key r = row_MAC r)) as [E|E]; cbn [negb].
  2: { split; [done|]. intros ((k & [= <-] & ?) & _). done. }
  assert (Hv : ((row_MACVersion r =? 0) || in_range 2 MACVersionCurrent (row_MACVersion r)) =
    negb (negb (row_MACVersion r =? 0) && ((row_MACVersion r <? 2) || (MACVersionCurrent <? row_MACVersion r)))).
  { unfold in_range. rewrite (Z.leb_antisym (row_MACVersion r) 2), (Z.leb_antisym MACVersionCurrent).
    by destruct (_ =? 0), (_ <? 2), (_ <? row_MACVersion r). }
  rewrite Hv. destruct (negb (row_MACVersion r =? 0) && _); [split; [done|by intros (_ & [=] & _)]|].
  do 4 (match goal with |- (if ?b then _ else _) = _ ↔ _ => destruct b end;
        [split; [done|intros (_ & Hn & _); cbn [negb andb] in Hn; by rewrite ?andb_false_r in Hn]|]).
  cbn [negb andb]. destruct prev as [p|].
  - rewrite if_nil, Z.ltb_ge. split.
    + intros Hp. split_and!; [by exists key|done|]. by intros ? [= <-].
    + intros (_ & _ & Hp). by apply Hp.
  - split; [|done]. intros _. split_and!; [by exists key|done|done].
Qed.

Lemma key_findings_nil p r :
  ((negb (row_KeyVersion r =? row_KeyVersion p) && negb (rotated p r)) ||
   (bool_decide (row_Event r = EventKeyRotated) && negb (rotated p r))) = false ↔ key_step p r.
Proof.
  unfold rotated, key_step. case_bool_decide; cbn [andb orb].
  - rewrite orb_false_iff, negb_false_iff, andb_true_iff, Z.eqb_eq, Z.ltb_lt. split.
    + by intros [_ ?].
    + intros [H1 H2]. split; [|done]. rewrite <- H1, Z.eqb_refl. apply Z.ltb_lt in H2. rewrite H2.
      apply andb_false_r.
  - rewrite orb_false_r, andb_true_r, negb_false_iff. apply Z.eqb_eq.
Qed.

(** Sequence numbers that are neither repeated, moved nor skipped. *)
Lemma seq_findings_nil p r n :
  seq_range p → seq_range r → row_Seq p + 1 = n →
  (if row_Seq r =? row_Seq p then [(FindingDuplicate, row_Seq r)]
   else if row_Seq r <? row_Seq p then [(FindingReorder, row_Seq r)]
   else if uint64_wrap (row_Seq p + 1) <? row_Seq r then [(FindingGap, uint64_wrap (row_Seq p + 1))] else []) = [] ↔
  row_Seq r = n.
Proof.
  unfold seq_range, uint64_wrap. intros Hp Hr Hn.
  destruct (Z.eqb_spec (row_Seq r) (row_Seq p)); [split; [done|lia]|].
  destruct (Z.ltb_spec (row_Seq r) (row_Seq p)); [split; [done|lia]|].
  rewrite if_nil, Z.ltb_ge, Z.mod_small; lia.
Qed.

Lemma link_findings_nil rows r :
  (∀ p, last rows = Some p → seq_range p ∧ row_Seq p + 1 = Z.of_nat (length rows)) → seq_range r →
  link_findings (last rows) r = [] ↔
  row_Seq r = Z.of_nat (length rows) ∧
  match last rows with
  | None => row_Event r = EventChainStart ∧ row_Prev r = []
  | Some p => row_Prev r = row_MAC p ∧ key_step p r
  end.
Proof.
  intros Hp Hr. unfold link_findings. destruct (last rows) as [p|] eqn:El.
  - destruct (Hp p eq_refl) as [Hs Hn]. rewrite !app_nil, !if_nil, key_findings_nil.
    rewrite (seq_findings_nil p r (Z.of_nat (length rows))) by done.
    split; intros (H1 & H2 & H3); split_and!; try done.
    + apply andb_false_iff in H2 as [H2|H2]; [|by apply negb_false_iff, bool_decide_eq_true in H2].
      apply Z.eqb_neq in H2. unfold uint64_wrap in H2. unfold seq_range in *. rewrite Z.mod_small in H2; lia.
    + rewrite H2. by rewrite bool_decide_true, andb_false_r.
  - apply last_None in El as ->. rewrite if_nil, !orb_false_iff, !negb_false_iff, !bool_decide_eq_true, Z.eqb_eq.
    cbn. tauto.
Qed.

Lemma checkpoint_spec rows st r :
  vst_ok rows st → row_Seq r = Z.of_nat (length rows) →
  checkpointValid r (vs_macs st) = true ↔ covers rows r ∧ signature_valid r.
Proof.
  intros Hst Hseq. unfold checkpointValid. rewrite (vo_macs _ _ Hst). unfold covers, signature_valid.
  destruct (Z.leb_spec 0 (row_SignedSeq r)) as [Hz|Hz].
  2: { split; [done|]. intros ((i & s & _ & ? & _) & _). lia. }
  destruct (rows !! Z.to_nat (row_SignedSeq r)) as [s|] eqn:El; cbn [fmap option_fmap option_map].
  2: { split; [done|]. intros ((i & s & Hi & Hq & _) & _). rewrite Hq, Nat2Z.id in El. congruence. }
  pose proof (lookup_lt_Some _ _ _ El) as Hlt.
  rewrite (proj2 (Z.leb_gt _ _)) by lia. cbn [orb].
  destruct (bool_decide_reflect (row_MAC s = row_SignedMAC r)) as [Hm|Hm]; cbn [negb].
  2: { split; [done|]. intros ((i & s' & Hi & Hq & Hm') & _). rewrite Hq, Nat2Z.id in El. congruence. }
  split.
  - intros H. split; [exists (Z.to_nat (row_SignedSeq r)), s; split_and!; [done|lia|done]|].
    destruct (parseTransitSignature _) as [[v sg]|]; [|done].
    destruct (PublicKeys v) as [pk|] eqn:Ep; [|done]. by exists v, sg, pk.
  - intros (_ & v & sg & pk & -> & -> & H). done.
Qed.

Lemma last_seq rows p : linked rows → last rows = Some p → row_Seq p + 1 = Z.of_nat (length rows).
Proof.
  intros Hc Hl. destruct Hc as [|rows r _ (_ & _ & Hs & _)]; [done|].
  rewrite last_snoc in Hl. injection Hl as <-. rewrite length_app. cbn [length]. lia.
Qed.

Lemma verify_row_nil rows st r :
  linked rows → Forall seq_range rows → seq_range r → vst_ok rows st →
  snd (verify_row st r) = [] ↔ row_linked rows r ∧ signed r.
Proof.
  intros Hc Hf Hr Hst. unfold AuditVerify.verify_row, row_linked, signed. cbn [snd].
  rewrite !app_nil, map_nil, if_nil, (vo_prev _ _ Hst), mac_findings_nil, link_findings_nil; [|intros p Hp|done].
  2: { split; [|by apply last_seq]. apply last_Some_elem_of in Hp. rewrite Forall_forall in Hf. by apply Hf. }
  assert (Hk : row_Seq r = Z.of_nat (length rows) →
    (bool_decide (row_Event r = EventCheckpoint) && negb (checkpointValid r (vs_macs st)) = false ↔
     (row_Event r = EventCheckpoint → covers rows r ∧ signature_valid r))).
  { intros Hs. rewrite <- (checkpoint_spec rows st r Hst Hs).
    case_bool_decide; cbn [andb]; [rewrite negb_false_iff|]; tauto. }
  split.
  - intros ((Ha & Hv & Hm) & (Hs & Hl) & Hcp). pose proof (proj1 (Hk Hs) Hcp) as Hcov. split; [|by intros He; apply Hcov].
    split_and!; [done..| |by intros He; apply Hcov].
    destruct (last rows) as [p|]; [|done]. destruct Hl. split_and!; [by apply Hm|done|done].
  - intros ((Ha & Hv & Hs & Hl & Hcp) & Hsg). split_and!; [done|done| |done| |].
    + intros p Hp. rewrite Hp in Hl. apply Hl.
    + destruct (last rows); [|done]. apply Hl.
    + apply (Hk Hs). auto.
Qed.

(** ** The findings of a chain *)

Lemma lookup_snoc_Z (A : Type) (rows : list A) (r : A) z :
  (if 0 <=? z then (rows ++ [r]) !! Z.to_nat z else None) =
  if z =? Z.of_nat (length rows) then Some r else if 0 <=? z then rows !! Z.to_nat z else None.
Proof.
  destruct (Z.eqb_spec z (Z.of_nat (length rows))) as [->|Hz].
  - rewrite (proj2 (Z.leb_le _ _)) by lia. rewrite Nat2Z.id. by rewrite list_lookup_middle.
  - destruct (Z.leb_spec 0 z); [|done]. destruct (decide (Z.to_nat z < length rows)%nat).
    + by rewrite lookup_app_l.
    + rewrite !lookup_ge_None_2; [done| |]; rewrite ?length_app; cbn; lia.
Qed.

Lemma verify_row_state rows st r :
  linked rows → vst_ok rows st → row_linked rows r → signed r → vst_ok (rows ++ [r]) (fst (verify_row st r)).
Proof.
  intros Hc Hst (_ & _ & Hs & _ & Hcp) Hsg. unfold signed in Hsg. pose proof (vo_prev _ _ Hst) as Hp.
  assert (Hfresh : vs_macs st !! row_Seq r = None).
  { rewrite (vo_macs _ _ Hst), Hs. case_match; [|done]. rewrite lookup_ge_None_2; [done|lia]. }
  assert (Hins : ∀ A (m : gmap Z A) (l : list A) x z,
    (∀ z, m !! z = if 0 <=? z then l !! Z.to_nat z else None) → length l = length rows →
    <[row_Seq r := x]> m !! z = if 0 <=? z then (l ++ [x]) !! Z.to_nat z else None).
  { intros A m l x z Hm Hl. rewrite lookup_snoc_Z, Hl, lookup_insert, Hm, Hs.
    destruct (Z.eqb_spec z (Z.of_nat (length rows))); case_decide; congruence. }
  unfold AuditVerify.verify_row. split; cbn [fst vs_prev vs_macs vs_rows vs_signedAny].
  - rewrite last_snoc, Hp. destruct (last rows) as [p|] eqn:El; [|done].
    pose proof (last_seq rows p Hc El). rewrite (proj2 (Z.ltb_lt _ _)); [done|lia].
  - intros z. rewrite Hfresh. cbn. rewrite <- list_lookup_fmap, fmap_app. apply Hins; [|by rewrite length_fmap].
    intros z'. rewrite (vo_macs _ _ Hst), list_lookup_fmap. done.
  - intros z. rewrite Hfresh. cbn. apply Hins; [|done]. apply (vo_rows _ _ Hst).
  - rewrite existsb_app, (vo_signed _ _ Hst). f_equal. cbn [existsb]. rewrite orb_false_r.
    destruct (bool_decide_reflect (row_Event r = EventCheckpoint)) as [He|He]; cbn [andb];
      [|by apply bool_decide_eq_false; intros [? [=]]].
    by rewrite (proj2 (checkpoint_spec rows st r Hst Hs)) by auto.
Qed.

Lemma verify_rows_snoc rows r : ∀ st,
  verify_rows st (rows ++ [r]) =
  (fst (verify_row (fst (verify_rows st rows)) r),
   snd (verify_rows st rows) ++ snd (verify_row (fst (verify_rows st rows)) r)).
Proof.
  induction rows as [|r' rows IH]; intros st; cbn [app AuditVerify.verify_rows].
  - cbn [fst snd]. destruct (verify_row st r) as [s f]. cbn [fst snd app]. by rewrite app_nil_r.
  - destruct (verify_row st r') as [s f]. rewrite IH. destruct (verify_rows s rows) as [s2 f2].
    cbn [fst snd]. by rewrite app_assoc.
Qed.

Lemma verify_rows_clean rows : Forall seq_range rows →
  (snd (verify_rows vinit rows) = [] ↔ clean rows) ∧
  (clean rows → vst_ok rows (fst (verify_rows vinit rows))).
Proof.
  induction rows as [|r rows IH] using rev_ind.
  - intros _. split; [split; [repeat constructor|done]|]. intros _. split; try done; intros z; cbn;
      rewrite lookup_empty; by destruct (0 <=? z).
  - rewrite Forall_app, Forall_singleton. intros [Hf Hr]. destruct (IH Hf) as [IH1 IH2].
    rewrite verify_rows_snoc. cbn [fst snd]. rewrite app_nil, IH1, clean_snoc. split.
    + split; intros [Hc H]; (split; [done|]); eapply verify_row_nil; eauto; apply Hc.
    + intros (Hc & H & Hs). apply verify_row_state; auto. apply Hc.
Qed.

(** The verifier's answer for one chain that raises no finding but, at the end,
    that its tail is unsigned. *)
Lemma verifyChain_clean k rows : Forall seq_range rows → fst (verifyChain k rows) = [] → clean rows.
Proof.
  intros Hf. unfold AuditVerify.verifyChain. destruct (verify_rows vinit rows) as [st fs] eqn:E.
  cbn [fst]. rewrite map_nil, app_nil. intros [Hn _]. apply (verify_rows_clean rows Hf). by rewrite E.
Qed.

Lemma clean_findings k rows : Forall seq_range rows → clean rows →
  fst (verifyChain k rows) =
  map (mk_finding k) (tail_findings parse_time MaxUnsigned (fst (verify_rows vinit rows))).
Proof.
  intros Hf Hc. destruct (verify_rows_clean rows Hf) as [H _]. apply H in Hc. unfold AuditVerify.verifyChain.
  destruct (verify_rows vinit rows) as [st fs]. cbn [fst snd] in *. by rewrite Hc.
Qed.

(** What a linked chain says of each of its rows. *)
Lemma linked_lookup rows i r : linked rows → rows !! i = Some r → row_linked (take i rows) r.
Proof.
  induction 1 as [|rows r' Hc IH Hr]; [done|]. intros Hl. apply lookup_snoc_Some in Hl as [[Hi Hl]|[-> ->]].
  - rewrite take_app_le by lia. by apply IH.
  - by rewrite take_app_length.
Qed.

Lemma linked_authentic rows r : linked rows → r ∈ rows → authentic r ∧ version_ok r = true.
Proof.
  intros Hc [i Hi]%list_elem_of_lookup. destruct (linked_lookup rows i r Hc Hi) as (Ha & Hv & _). by split.
Qed.

Lemma linked_seq rows i r : linked rows → rows !! i = Some r → row_Seq r = Z.of_nat i.
Proof.
  intros Hc Hi. destruct (linked_lookup rows i r Hc Hi) as (_ & _ & Hs & _).
  rewrite Hs, length_take, Nat.min_l; [done|]. apply lookup_lt_Some in Hi. lia.
Qed.

Lemma linked_prev rows i p r : linked rows → rows !! i = Some p → rows !! S i = Some r → row_Prev r = row_MAC p.
Proof.
  intros Hc Hp Hr. destruct (linked_lookup rows (S i) r Hc Hr) as (_ & _ & _ & Hl & _).
  rewrite (take_S_r _ _ _ Hp), last_snoc in Hl. apply Hl.
Qed.

(** ** The writer *)

(** A (sequence number, MAC) pair that names a row of the chain. *)
Definition real_head (rows : list Row) (h : Z * bytes) : Prop :=
  ∃ i r, rows !! i = Some r ∧ fst h = Z.of_nat i ∧ snd h = row_MAC r.

Definition of_boot (replica : bytes) (boot : Z) (r : Row) : Prop :=
  row_Replica r = replica ∧ row_Boot r = boot ∧ row_MACVersion r = MACVersionCurrent.

Definition key_known (k : Key) : Prop := HMACKey (key_Version k) = Some (key_secret k).

Record wbase (c : Chain) : Prop := {
  wb_linked : linked (ch_out c);
  wb_seq : ch_seq c = Z.of_nat (length (ch_out c));
  wb_prev : ch_prev c = match last (ch_out c) with Some p => row_MAC p | None => [] end;
  wb_rows : Forall (of_boot (ch_replica c) (ch_boot c)) (ch_out c);
  wb_heads : Forall (real_head (ch_out c)) (ch_signing c);
  wb_key : key_known (ch_key c);
}.

(** The key in use is the last row's, unless the chain has stopped. *)
Record winv (c : Chain) : Prop := {
  wi_base : wbase c;
  wi_started : ch_out c ≠ [];
  wi_last : ∀ p, ch_failed c = false → last (ch_out c) = Some p → row_KeyVersion p = key_Version (ch_key c);
}.

Lemma real_head_app rows rows' h : real_head rows h → real_head (rows ++ rows') h.
Proof. intros (i & r & Hi & H). exists i, r. split; [by apply lookup_app_l_Some|done]. Qed.

(** The row [appendLocked] writes. *)
Definition appended (c : Chain) (e : env) (r : Row) : Row :=
  let r := stamp c (e_text e) r in set_MAC r (computeMAC HMAC (key_secret (ch_key c)) r).

(** What the caller of [appendLocked] must bring. *)
Definition row_fits (c : Chain) (e : env) (r : Row) : Prop :=
  match last (ch_out c) with
  | None => row_Event r = EventChainStart
  | Some p => key_step p (appended c e r)
  end ∧
  (row_Event r = EventCheckpoint → real_head (ch_out c) (row_SignedSeq r, row_SignedMAC r)).

Lemma macInput_set_MAC r m : macInput (set_MAC r m) = macInput r.
Proof. reflexivity. Qed.

Lemma appended_linked c e r : wbase c → row_fits c e r → row_linked (ch_out c) (appended c e r).
Proof.
  intros Hb [Hf Hcp]. split_and!.
  - exists (key_secret (ch_key c)). split; [apply (wb_key _ Hb)|]. done.
  - reflexivity.
  - apply (wb_seq _ Hb).
  - pose proof (wb_prev _ Hb) as Hp. destruct (last (ch_out c)) as [p|] eqn:El; [|by split].
    split_and!; [|done|done]. apply last_Some_elem_of in El.
    pose proof (wb_rows _ Hb) as Hr. rewrite Forall_forall in Hr. destruct (Hr p El) as (_ & _ & ->). done.
  - intros He. destruct (Hcp He) as (i & s & Hi & Hs & Hm). by exists i, s.
Qed.

Lemma append_winv c e r :
  wbase c → Z.of_nat (length (ch_out c)) + 1 < 2 ^ 64 →
  (ch_failed c = true → ch_out c ≠ []) → (e_write e = false → ch_out c ≠ []) →
  (ch_failed c = false → row_fits c e r) → winv (fst (appendLocked HMAC c e r)).
Proof.
  intros Hb Hlen Hne Hne' Hf. unfold appendLocked. destruct (ch_failed c) eqn:Efail; cbn [fst].
  { split; [done|by apply Hne|]. intros p. by rewrite Efail. }
  destruct (e_write e); cbn [negb fst].
  2: { split; [by destruct Hb; constructor|by apply Hne'|done]. }
  fold (appended c e r). specialize (Hf eq_refl).
  pose proof (appended_linked c e r Hb Hf) as Hl. destruct Hb as [H1 H2 H3 H4 H5 H6].
  split; [split| |]; cbn.
  - by constructor.
  - rewrite H2, length_app. cbn [length]. unfold uint64_wrap. rewrite Z.mod_small; lia.
  - by rewrite last_snoc.
  - apply Forall_app. split; [done|]. by apply Forall_singleton.
  - eapply Forall_impl; [exact H5|]. intros h. apply real_head_app.
  - done.
  - by destruct (ch_out c).
  - intros p _. rewrite last_snoc. by intros [= <-].
Qed.

Context `{UnicodeTables} (canonical_time : bytes → bool).
Abbreviation step := (step canonical_time HMAC).
Abbreviation run := (run canonical_time HMAC).

Lemma fits_plain c e r :
  winv c → ch_failed c = false → row_Event r ≠ EventKeyRotated →
  (row_Event r = EventCheckpoint → real_head (ch_out c) (row_SignedSeq r, row_SignedMAC r)) → row_fits c e r.
Proof.
  intros Hw Hnf Hk Hcp. split; [|done]. destruct (last (ch_out c)) as [p|] eqn:El.
  - unfold key_step. rewrite bool_decide_false by done. symmetry. by apply (wi_last _ Hw).
  - apply last_None in El. by destruct (wi_started _ Hw).
Qed.

Lemma append_plain c e r :
  winv c → Z.of_nat (length (ch_out c)) + 1 < 2 ^ 64 → row_Event r ≠ EventKeyRotated →
  (row_Event r = EventCheckpoint → real_head (ch_out c) (row_SignedSeq r, row_SignedMAC r)) →
  winv (fst (appendLocked HMAC c e r)).
Proof.
  intros Hw Hlen Hk Hcp. apply append_winv; [apply Hw|done|by intros _; apply Hw..|].
  intros Hnf. by apply fits_plain.
Qed.

Lemma known_not_own ev : Event_Validate canonical_time ev = true →
  ev_Event ev ≠ EventKeyRotated ∧ ev_Event ev ≠ EventCheckpoint.
Proof.
  unfold Event_Validate. rewrite !andb_true_iff. intros H0.
  assert (Hin : bool_decide (ev_Event ev ∈ known_events) = true) by tauto.
  split; intros E; rewrite E in Hin; vm_compute in Hin; discriminate Hin.
Qed.

Lemma set_queues_winv c s p :
  winv c → Forall (real_head (ch_out c)) s → winv (set_queues c s p).
Proof. intros [[H1 H2 H3 H4 H5 H6] Hs Hl] Hh. split; [by constructor|done|done]. Qed.

Lemma set_lastCheckpoint_winv c t : winv c → winv (set_lastCheckpoint c t).
Proof. intros [[H1 H2 H3 H4 H5 H6] Hs Hl]. split; [by constructor|done|done]. Qed.

Lemma Forall_delete {A} (P : A → Prop) (l : list A) i : Forall P l → Forall P (delete i l).
Proof. rewrite delete_take_drop. intros Hl. apply Forall_app. split; [by apply Forall_take|by apply Forall_drop]. Qed.

(** The head [Checkpoint] is about to have signed is the last row. *)
Lemma head_real c : winv c → Z.of_nat (length (ch_out c)) < 2 ^ 64 →
  real_head (ch_out c) (uint64_wrap (ch_seq c - 1), ch_prev c).
Proof.
  intros Hw Hlen. pose proof (wi_base _ Hw) as Hb. destruct (last (ch_out c)) as [p|] eqn:El.
  2: { apply last_None in El. by destruct (wi_started _ Hw). }
  pose proof (wb_prev _ Hb) as Hp. rewrite El in Hp.
  exists (pred (length (ch_out c))), p. split_and!; [by rewrite <- last_lookup| |done].
  cbn [fst]. rewrite (wb_seq _ Hb). apply last_Some_elem_of in El.
  destruct (ch_out c); [by inversion El|]. cbn [length pred] in *. unfold uint64_wrap. rewrite Z.mod_small; lia.
Qed.

Definition op_keys (o : env * op) : list Key := match snd o with ORefresh k => [k] | _ => [] end.

Lemma Record_winv c e ev :
  winv c → Z.of_nat (length (ch_out c)) + 1 < 2 ^ 64 → winv (fst (Record_ canonical_time HMAC c e ev)).
Proof.
  intros Hw Hlen. unfold Record_. destruct (Event_Validate canonical_time ev) eqn:Ev; cbn [negb]; [|done].
  destruct (known_not_own ev Ev) as [Hk Hc].
  pose proof (append_plain c e (event_row ev) Hw Hlen Hk) as Hap.
  destruct (appendLocked HMAC c e (event_row ev)) as [c' [row|err]]; apply Hap; intros E; by destruct Hc.
Qed.

Lemma begin_winv c : winv c → Z.of_nat (length (ch_out c)) < 2 ^ 64 → winv (fst (checkpoint_begin c)).
Proof.
  intros Hw Hlen. unfold checkpoint_begin. destruct (ch_failed c); [done|]. cbn [fst].
  apply set_queues_winv; [done|]. apply Forall_app. split; [apply (wb_heads _ (wi_base _ Hw))|].
  apply Forall_singleton. by apply head_real.
Qed.

Lemma signed_winv c e i sg :
  winv c → Z.of_nat (length (ch_out c)) + 1 < 2 ^ 64 → winv (fst (checkpoint_signed HMAC c e i sg)).
Proof.
  intros Hw Hlen. unfold checkpoint_signed. destruct (ch_signing c !! i) as [[seq mac]|] eqn:Ei; [|done].
  pose proof (wb_heads _ (wi_base _ Hw)) as Hh.
  set (c1 := set_queues c (delete i (ch_signing c)) (ch_persisting c)).
  assert (Hw1 : winv c1) by (apply set_queues_winv; [done|by apply Forall_delete]).
  destruct (negb _).
  - pose proof (append_plain c1 e (failed_row #"signer_unavailable") Hw1 Hlen) as Hap.
    destruct (appendLocked _ _ _ _) as [c' [row|err]]; by apply Hap.
  - pose proof (append_plain c1 e (checkpoint_row seq mac (default [] sg)) Hw1 Hlen) as Hap.
    destruct (appendLocked _ _ _ _) as [c' [row|err]]; cbn [fst] in *.
    1: apply set_queues_winv; [|apply (wb_heads c')]; [|apply (wi_base c')].
    all: apply Hap; [done|]; intros _; exact (Forall_lookup_1 _ _ _ _ Hh Ei).
Qed.

Lemma persisted_winv c e i ok :
  winv c → Z.of_nat (length (ch_out c)) + 1 < 2 ^ 64 → winv (fst (checkpoint_persisted HMAC c e i ok)).
Proof.
  intros Hw Hlen. unfold checkpoint_persisted. destruct (ch_persisting c !! i); [|done].
  set (c1 := set_queues c (ch_signing c) (delete i (ch_persisting c))).
  assert (Hw1 : winv c1) by (apply set_queues_winv; [done|apply (wb_heads _ (wi_base _ Hw))]).
  destruct ok; cbn [negb]; [by apply set_lastCheckpoint_winv|].
  pose proof (append_plain c1 e (failed_row #"store_unavailable") Hw1 Hlen) as Hap.
  destruct (appendLocked _ _ _ _) as [c' [row|err]]; by apply Hap.
Qed.

Lemma RefreshKey_winv c e k :
  winv c → Z.of_nat (length (ch_out c)) + 1 < 2 ^ 64 → key_known k → winv (fst (RefreshKey HMAC c e k)).
Proof.
  intros Hw Hlen Hk. unfold RefreshKey. destruct (Z.leb_spec (key_Version k) (key_Version (ch_key c))) as [|Hlt]; [done|].
  assert (Hap : winv (fst (appendLocked HMAC (set_key c k) e (rotated_row (key_Version (ch_key c)))))).
  { pose proof (wi_base _ Hw) as [H1 H2 H3 H4 H5 H6].
    apply append_winv; [by constructor|done|by intros _; apply Hw..|]. cbn. intros Hnf. split; [|done]. cbn.
    destruct (last (ch_out c)) as [p|] eqn:El.
    - unfold key_step. rewrite bool_decide_true by done. cbn.
      rewrite (wi_last _ Hw p Hnf El). by split.
    - apply last_None in El. by destruct (wi_started _ Hw). }
  by destruct (appendLocked _ _ _ _) as [c' [row|err]].
Qed.

Lemma step_winv c o :
  winv c → Z.of_nat (length (ch_out c)) + 1 < 2 ^ 64 → Forall key_known (op_keys o) → winv (step c o).
Proof.
  destruct o as [e [ev| |i sg|i ok|k]]; intros Hw Hlen Hk; cbn [AuditChain.step].
  - by apply Record_winv.
  - apply begin_winv; [done|lia].
  - by apply signed_winv.
  - by apply persisted_winv.
  - apply RefreshKey_winv; [done|done|]. exact (proj1 (Forall_singleton _ _) Hk).
Qed.

(** ** Whole runs *)

Lemma append_out c e r : ∃ l, ch_out (fst (appendLocked HMAC c e r)) = ch_out c ++ l ∧ (length l <= 1)%nat.
Proof.
  unfold appendLocked. destruct (ch_failed c); [|destruct (e_write e)]; cbn;
    [exists []|eexists [_]|exists []]; rewrite ?app_nil_r; split; try done; cbn; lia.
Qed.

Lemma step_out c o : ∃ l, ch_out (step c o) = ch_out c ++ l ∧ (length l <= 1)%nat.
Proof.
  assert (H0 : ∃ l, ch_out c = ch_out c ++ l ∧ (length l <= 1)%nat)
    by (exists []; rewrite app_nil_r; split; [done|cbn; lia]).
  destruct o as [e [ev| |i sg|i ok|k]]; cbn [AuditChain.step];
    unfold Record_, checkpoint_begin, checkpoint_signed, checkpoint_persisted, RefreshKey;
    repeat case_match; cbn [fst ch_out set_queues set_lastCheckpoint]; try done;
    match goal with E : appendLocked _ ?c' ?e ?r = _ |- _ =>
      pose proof (append_out c' e r) as Ha; rewrite E in Ha; exact Ha end.
Qed.

Lemma run_out ops : ∀ c, ∃ l, ch_out (run c ops) = ch_out c ++ l ∧ (length l <= length ops)%nat.
Proof.
  induction ops as [|o ops IH]; intros c; cbn [AuditChain.run foldl].
  - exists []. rewrite app_nil_r. split; [done|cbn; lia].
  - destruct (step_out c o) as (l1 & E1 & H1), (IH (step c o)) as (l2 & E2 & H2). exists (l1 ++ l2).
    unfold AuditChain.run in E2. rewrite E2, E1, <- app_assoc. split; [done|]. rewrite length_app. cbn. lia.
Qed.

(** Heads handed to the signer. *)
Fixpoint asked (c : Chain) (ops : list (env * op)) : list (Z * bytes) :=
  match ops with
  | [] => []
  | o :: ops' =>
      match snd o with
      | OBegin => if ch_failed c then [] else [(uint64_wrap (ch_seq c - 1), ch_prev c)]
      | _ => []
      end ++ asked (step c o) ops'
  end.

Lemma run_winv ops : ∀ c,
  winv c → Z.of_nat (length (ch_out c) + length ops) < 2 ^ 64 →
  Forall key_known (flat_map op_keys ops) →
  winv (run c ops) ∧ Forall (real_head (ch_out (run c ops))) (asked c ops).
Proof.
  induction ops as [|o ops IH]; intros c Hw Hlen Hk; cbn [AuditChain.run foldl asked flat_map length] in *; [by split|].
  apply Forall_app in Hk as [Ho Hk]. destruct (step_out c o) as (l & El & Hl).
  assert (Hw' : winv (step c o)) by (apply step_winv; [done|lia|done]).
  destruct (IH (step c o)) as [Hr Ha]; [done| |done|].
  { rewrite El, length_app. lia. }
  split; [done|]. apply Forall_app. split; [|done].
  destruct (run_out (o :: ops) c) as (l2 & E2 & _).
  destruct (snd o); try constructor. destruct (ch_failed c); constructor; [|constructor].
  cbn [AuditChain.run foldl] in E2. unfold AuditChain.run in E2. rewrite E2. apply real_head_app, head_real; [done|lia].
Qed.

(** The boot and the operations that ran since. *)
Definition boot_run (replica : bytes) (grace : Z) (key : Key) (boot : Z) (previous : AuditBoot) (e : env)
  (ops : list (env * op)) : option Chain :=
  (λ c, run c ops) <$> New HMAC replica grace key boot previous e.

Lemma New_winv replica grace key boot previous e c :
  New HMAC replica grace key boot previous e = Some c → key_known key →
  winv c ∧ length (ch_out c) = 1%nat ∧ ch_replica c = replica ∧ ch_boot c = boot.
Proof.
  unfold New. destruct (identifier replica false); cbn [negb]; [|done].
  set (c0 := {| ch_replica := replica; ch_out := [] |}). intros HN Hk.
  assert (Hb : wbase c0) by (constructor; done || constructor).
  unfold appendLocked in HN. cbn [ch_failed c0] in HN. destruct (e_write e) eqn:Ew; [|done].
  apply (inj Some) in HN as <-. split; [|done].
  pose proof (append_winv c0 e (start_row (ab_Boot previous) (ab_CheckpointSeq previous) (ab_CheckpointMAC previous)) Hb) as Ha.
  unfold appendLocked in Ha. cbn [ch_failed c0] in Ha. rewrite Ew in Ha. cbn [negb fst] in Ha.
  apply Ha; [done..|]. intros _. done.
Qed.

Definition same_ids (c c' : Chain) : Prop := ch_replica c' = ch_replica c ∧ ch_boot c' = ch_boot c.

Lemma append_ids c e r : same_ids c (fst (appendLocked HMAC c e r)).
Proof. unfold appendLocked. by destruct (ch_failed c), (e_write e). Qed.

Lemma step_ids c o : same_ids c (step c o).
Proof.
  destruct o as [e [ev| |i sg|i ok|k]]; cbn [AuditChain.step];
    unfold Record_, checkpoint_begin, checkpoint_signed, checkpoint_persisted, RefreshKey;
    repeat case_match; cbn [fst]; try done;
    match goal with E : appendLocked _ ?c' ?e ?r = _ |- _ =>
      pose proof (append_ids c' e r) as Ha; rewrite E in Ha; exact Ha end.
Qed.

Lemma run_ids ops : ∀ c, same_ids c (run c ops).
Proof.
  induction ops as [|o ops IH]; intros c; [done|]. destruct (step_ids c o) as [E1 E2], (IH (step c o)) as [E3 E4].
  cbn [AuditChain.run foldl]. unfold AuditChain.run in *. split; congruence.
Qed.

(** A boot from its first row: all that the theorems need of the rows it wrote
    and of the heads it had signed. *)
Lemma boot_written replica grace key boot previous e c ops :
  New HMAC replica grace key boot previous e = Some c →
  Forall key_known (key :: flat_map op_keys ops) → Z.of_nat (length ops) + 1 < 2 ^ 64 →
  linked (ch_out (run c ops)) ∧ Forall (of_boot replica boot) (ch_out (run c ops)) ∧
  Forall seq_range (ch_out (run c ops)) ∧ Forall (real_head (ch_out (run c ops))) (asked c ops).
Proof.
  intros HN [Hk Hks]%Forall_cons Hlen. destruct (New_winv _ _ _ _ _ _ _ HN Hk) as (Hw & H1 & Hr & Hb).
  destruct (run_winv ops c Hw) as [[[Hl _ _ Ho _ _] _ _] Ha]; [lia|done|].
  destruct (run_ids ops c) as [Er Eb]. rewrite Er, Eb, Hr, Hb in Ho. split_and!; [done..| |done].
  apply Forall_forall. intros r [i Hi]%list_elem_of_lookup.
  unfold seq_range. rewrite (linked_seq _ _ _ Hl Hi). apply lookup_lt_Some in Hi.
  destruct (run_out ops c) as (l & El & Hle). rewrite El, length_app in Hi. lia.
Qed.

(** Rows that agree but for the MAC, both authentic, are the same row. *)
Lemma authentic_eq r g : authentic r → authentic g → set_MAC r [] = set_MAC g [] → r = g.
Proof.
  intros (k & Hk & Hm) (k' & Hk' & Hm') E.
  assert (Ek : row_KeyVersion r = row_KeyVersion g) by exact (f_equal row_KeyVersion E).
  assert (Ei : macInput r = macInput g) by exact (f_equal macInput E).
  assert (Em : row_MAC r = row_MAC g).
  { rewrite <- Hm, <- Hm'. unfold computeMAC. rewrite Ei. rewrite Ek in Hk. congruence. }
  apply (f_equal (λ x, set_MAC x (row_MAC r))) in E. change (set_MAC r (row_MAC r) = set_MAC g (row_MAC r)) in E.
  rewrite Em in E at 2. by destruct r, g.
Qed.

(** ** The theorems *)

Lemma lookups_take (A : Type) (l k : list A) :
  (∀ i x, l !! i = Some x → k !! i = Some x) → l = take (length l) k.
Proof.
  intros H0. apply list_eq. intros i. destruct (l !! i) as [x|] eqn:E.
  - rewrite lookup_take_lt; [by symmetry; apply H0|by apply lookup_lt_Some in E].
  - symmetry. apply lookup_take_ge. by apply lookup_ge_None in E.
Qed.

Section Boot.
Context (replica : bytes) (grace : Z) (key : Key) (boot : Z) (previous : AuditBoot) (e : env).
Context (c : Chain) (ops : list (env * op)).
Abbreviation written := (ch_out (run c ops)).

Lemma tail_unsigned rows st f : vst_ok rows st → f ∈ tail_findings parse_time MaxUnsigned st →
  fst f = FindingUnsigned ∧ (existsb (λ r, bool_decide (row_Event r = EventCheckpoint) &&
                                 bool_decide (is_Some (parse_time (row_Time r)))) rows = true → 0 < MaxUnsigned).
Proof.
  intros Hst. rewrite <- (vo_signed _ _ Hst). unfold tail_findings.
  destruct (vs_prev st) as [p|]; [|by inversion 1]. destruct (vs_signedAny st); cbn [negb].
  - destruct (Z.ltb_spec 0 MaxUnsigned); [|by inversion 1].
    repeat case_match; try (by inversion 1); by intros ->%list_elem_of_singleton.
  - by intros ->%list_elem_of_singleton.
Qed.

(** What an honest boot writes verifies.  For every sequence of events,
    checkpoints (their signing and persisting interleaved in any way), failures and key rotations, with the
    verifier holding the keys that were used and every recorded signature valid
    for the head it names, the verifier reports nothing but, possibly, an
    unsigned tail; and nothing at all once a checkpoint is on record and no limit
    is set on the tail. *)
Theorem honest_boot_verifies
  (Hnew : New HMAC replica grace key boot previous e = Some c)
  (Hkeys : Forall key_known (key :: flat_map op_keys ops))
  (Hlen : Z.of_nat (length ops) + 1 < 2 ^ 64)
  (Hsigned : Forall signed written) :
  Forall (λ f, f_Kind f = FindingUnsigned) (fst (verifyChain (replica, boot) written)) ∧
  (MaxUnsigned <= 0 →
   Exists (λ r, row_Event r = EventCheckpoint ∧ is_Some (parse_time (row_Time r))) written →
   fst (verifyChain (replica, boot) written) = []).
Proof.
  destruct (boot_written _ _ _ _ _ _ _ _ Hnew Hkeys Hlen) as (Hl & _ & Hs & _).
  rewrite clean_findings by done. destruct (verify_rows_clean written Hs) as [_ Hst].
  specialize (Hst (conj Hl Hsigned)). split.
  - apply Forall_forall. intros f (t & -> & Ht)%list_elem_of_fmap. cbn.
    by apply (tail_unsigned _ _ _ Hst) in Ht as [? _].
  - intros Hm (r & Hr & He & Ht)%Exists_exists.
    destruct (tail_findings parse_time MaxUnsigned _) as [|t ts] eqn:Et; [done|].
    assert (Hin : t ∈ tail_findings parse_time MaxUnsigned (fst (verify_rows vinit written)))
      by (rewrite Et; left).
    apply (tail_unsigned _ _ _ Hst) in Hin as [_ Hp]. exfalso.
    enough (0 < MaxUnsigned) by lia. apply Hp, existsb_Exists. exists r. split; [done|]. by rewrite !bool_decide_true.
Qed.

(** What verifies is what was written.  Rows presented as this boot's that
    raise no finding are the first rows the boot wrote, in order and unchanged: nothing edited, dropped,
    repeated, moved or added.  Assumed of HMAC: whoever presents a row with a
    good MAC had it from a holder of the key, this boot or another. *)
Theorem verified_rows_are_written (rows others : list Row)
  (Hnew : New HMAC replica grace key boot previous e = Some c)
  (Hkeys : Forall key_known (key :: flat_map op_keys ops))
  (Hlen : Z.of_nat (length ops) + 1 < 2 ^ 64)
  (Hwf : Forall row_wf (rows ++ written ++ others))
  (Hrange : Forall seq_range rows)
  (Hgroup : Forall (λ r, key_of r = (replica, boot)) rows)
  (Hothers : Forall (λ g, version_ok g = true ∧ key_of g ≠ (replica, boot)) others)
  (Hunforged : ∀ r, r ∈ rows → authentic r → ∃ g, g ∈ written ++ others ∧ macInput g = macInput r)
  (Hverified : fst (verifyChain (replica, boot) rows) = []) :
  rows = take (length rows) written.
Proof.
  destruct (boot_written _ _ _ _ _ _ _ _ Hnew Hkeys Hlen) as (Hl & _ & _ & _).
  apply verifyChain_clean in Hverified as [Hrows _]; [|done]. rewrite !Forall_app in Hwf.
  destruct Hwf as (Hw1 & Hw2 & Hw3). rewrite !Forall_forall in *. apply lookups_take. intros i r Hi.
  assert (Hr : r ∈ rows) by (by eapply list_elem_of_lookup_2).
  destruct (linked_authentic _ _ Hrows Hr) as [Ha Hv], (Hunforged r Hr Ha) as (g & Hg & Em).
  apply elem_of_app in Hg as [Hg|Hg].
  - destruct (linked_authentic _ _ Hl Hg) as [Ha' Hv'].
    apply macInput_inj in Em; [|auto..]. apply authentic_eq in Em as ->; [|done..].
    apply list_elem_of_lookup in Hg as [j Hj].
    pose proof (linked_seq _ _ _ Hl Hj) as Es. rewrite (linked_seq _ _ _ Hrows Hi) in Es.
    by apply Nat2Z.inj in Es as ->.
  - destruct (Hothers g Hg) as [Hv' Hk]. apply macInput_inj in Em; [|auto..]. destruct Hk.
    rewrite <- (Hgroup r Hr). exact (f_equal key_of Em).
Qed.

(** Where two linked chains agree on one MAC, they agree on everything before it. *)
Lemma mac_anchors rows ws :
  linked rows → linked ws → Forall row_wf rows → Forall row_wf ws →
  (∀ r g, r ∈ rows → g ∈ ws → row_MAC r = row_MAC g → macInput r = macInput g) →
  ∀ i s w, rows !! i = Some s → ws !! i = Some w → row_MAC s = row_MAC w → take (S i) rows = take (S i) ws.
Proof.
  intros Hr Hw Wr Ww Hcol. rewrite Forall_forall in Wr, Ww.
  assert (Heq : ∀ i s w, rows !! i = Some s → ws !! i = Some w → row_MAC s = row_MAC w → s = w).
  { intros i s w Hs%list_elem_of_lookup_2 Hg%list_elem_of_lookup_2 Hm.
    destruct (linked_authentic _ _ Hr Hs), (linked_authentic _ _ Hw Hg).
    apply authentic_eq; [done..|]. apply macInput_inj; auto. }
  induction i as [|i IH]; intros s w Hs Hg Hm; rewrite (take_S_r _ _ _ Hs), (take_S_r _ _ _ Hg), (Heq _ _ _ Hs Hg Hm).
  - done.
  - f_equal. destruct (rows !! i) as [s'|] eqn:Es.
    2: { apply lookup_ge_None in Es. apply lookup_lt_Some in Hs. lia. }
    destruct (ws !! i) as [w'|] eqn:Ew.
    2: { apply lookup_ge_None in Ew. apply lookup_lt_Some in Hg. lia. }
    apply (IH s' w'); [done..|].
    rewrite <- (linked_prev _ _ _ _ Hr Es Hs), <- (linked_prev _ _ _ _ Hw Ew Hg). by rewrite (Heq _ _ _ Hs Hg Hm).
Qed.

Lemma wf_checkpoint_fields r : row_wf r →
  0 <= row_Boot r ∧ 0 <= row_SignedSeq r ∧ 0 <= row_Seq r ∧
  short (row_Replica r) ∧ short (FormatUint (row_Boot r)) ∧ short (FormatUint (row_SignedSeq r)) ∧
  short (FormatUint (row_Seq r)) ∧ short (row_SignedMAC r).
Proof.
  intros [Hu Hs]. unfold fields_v1 in Hs. cbn [app] in Hs. rewrite !Forall_cons in Hu. rewrite !Forall_cons in Hs.
  unfold nonneg in Hu. tauto.
Qed.

Lemma checkpointInput_inj p q s m p' q' s' m' :
  0 <= q → 0 <= q' → 0 <= s → 0 <= s' →
  Forall short [p; FormatUint q; FormatUint s; m] → Forall short [p'; FormatUint q'; FormatUint s'; m'] →
  checkpointInput p q s m = checkpointInput p' q' s' m' → (p, q) = (p', q') ∧ s = s' ∧ m = m'.
Proof.
  intros ???? H1 H2 E. apply lengthPrefixed_inj in E as [_ E]; [|done..]. specialize (E eq_refl).
  injection E as -> Eq Es ->. apply FormatUint_inj in Eq as ->, Es as ->; done.
Qed.

(** C25: a signed checkpoint protects everything before it even from a holder of
    every HMAC key.  Nothing is assumed of who can make a MAC: only that no two
    of the rows at hand collide under HMAC, and that the signer's key signs nothing
    but the heads this boot and others ask it to sign.  If the rows raise no
    finding and hold a checkpoint, then up to the row it names they are the rows this boot
    wrote. *)
Theorem checkpoint_anchors_history (rows others : list Row) (n : nat) (r : Row)
  (Hnew : New HMAC replica grace key boot previous e = Some c)
  (Hkeys : Forall key_known (key :: flat_map op_keys ops))
  (Hlen : Z.of_nat (length ops) + 1 < 2 ^ 64)
  (Hwf : Forall row_wf (rows ++ written ++ others))
  (Hrange : Forall seq_range rows)
  (Hgroup : Forall (λ x, key_of x = (replica, boot)) rows)
  (Hothers : Forall (λ g, key_of g ≠ (replica, boot)) others)
  (Hmac : ∀ k m, short (HMAC k m))
  (Hcollision : ∀ x g, x ∈ rows → g ∈ written → row_MAC x = row_MAC g → macInput x = macInput g)
  (Hsigner : ∀ version public message signature,
     PublicKeys version = Some public → ed25519_Verify public message signature = true →
     (∃ h, h ∈ asked c ops ∧ message = checkpointInput replica boot (fst h) (snd h)) ∨
     (∃ g, g ∈ others ∧ message = checkpointInput (row_Replica g) (row_Boot g) (row_SignedSeq g) (row_SignedMAC g)))
  (Hverified : fst (verifyChain (replica, boot) rows) = [])
  (Hat : rows !! n = Some r) (Hevent : row_Event r = EventCheckpoint) :
  let covered := S (Z.to_nat (row_SignedSeq r)) in
  (covered <= n)%nat ∧ take covered rows = take covered written.
Proof.
  destruct (boot_written _ _ _ _ _ _ _ _ Hnew Hkeys Hlen) as (Hl & Ho & _ & Hask).
  apply verifyChain_clean in Hverified as [Hrows Hsg]; [|done]. rewrite !Forall_app in Hwf.
  destruct Hwf as (Hw1 & Hw2 & Hw3).
  destruct (linked_lookup _ _ _ Hrows Hat) as (_ & _ & _ & _ & Hcov).
  destruct (Hcov Hevent) as (i & s & Hs & Hi & Hm). apply lookup_take_Some in Hs as [Hs Hin].
  rewrite Forall_lookup in Hgroup, Hw1, Hsg. pose proof (Hgroup _ _ Hat) as Hg.
  injection Hg as Hg1 Hg2.
  destruct (Hsg _ _ Hat Hevent) as (v & sg & pk & _ & Hpk & Hver). rewrite Hg1, Hg2 in Hver.
  destruct (wf_checkpoint_fields _ (Hw1 _ _ Hat)) as (B0 & B1 & _ & B2 & B3 & B4 & _ & B5).
  rewrite Hg1 in B2. rewrite Hg2 in B0, B3. cbn zeta. rewrite Hi, Nat2Z.id. split; [lia|].
  destruct (Hsigner _ _ _ _ Hpk Hver) as [(h & Hh & Em)|(g & Hg & Em)].
  - rewrite Forall_forall in Hask. destruct (Hask h Hh) as (j & w & Hj & Ej & Ew).
    assert (Hjw : row_wf w) by (by eapply Forall_lookup_1 in Hw2).
    destruct (wf_checkpoint_fields _ Hjw) as (_ & _ & W1 & _ & _ & _ & W2 & _).
    assert (Hwa : ∃ k, row_MAC w = HMAC k (macInput w)).
    { destruct (linked_authentic _ w Hl) as [(k & _ & E) _]; [by eapply list_elem_of_lookup_2|].
      exists k. by rewrite <- E. }
    destruct Hwa as [k Ek]. rewrite (linked_seq _ _ _ Hl Hj) in W1, W2.
    apply checkpointInput_inj in Em as (_ & Es & Esm); [|done|done|done|by rewrite Ej| |].
    + rewrite Ej, Hi in Es. apply Nat2Z.inj in Es as <-.
      apply (mac_anchors rows written Hrows Hl) with s w; [by apply Forall_lookup|done..|]. congruence.
    + repeat constructor; done.
    + rewrite Ej, Ew, Ek. repeat constructor; auto.
  - rewrite Forall_forall in Hothers, Hw3.
    destruct (wf_checkpoint_fields _ (Hw3 g Hg)) as (G0 & G1 & _ & G2 & G3 & G4 & _ & G5).
    apply checkpointInput_inj in Em as (Ek & _); [|done..|repeat constructor; done|repeat constructor; done].
    destruct (Hothers g Hg). by rewrite Ek.
Qed.
End Boot.
End Clean.

(** ** A boot to try them on: a denied request between a checkpoint's signing and
    its row, then a key rotation. *)
Module Demo.
#[local] Existing Instance latin1_tables.
Definition HMAC (_ m : bytes) : bytes := take 5000 m.
Definition k1 : Key := {| key_Version := 1; key_secret := #"one" |}.
Definition k2 : Key := {| key_Version := 2; key_secret := #"two" |}.
Definition HMACKey (v : Z) : option bytes :=
  if v =? 1 then Some (key_secret k1) else if v =? 2 then Some (key_secret k2) else None.
Definition e : env := {| e_now := 0; e_text := #"2026-01-01T00:00:00Z"; e_write := true |}.
Definition prev : AuditBoot := {| ab_Boot := 0; ab_CheckpointSeq := 0; ab_CheckpointMAC := [] |}.
Definition denied : Event :=
  {| ev_Event := EventDenied; ev_Pool := []; ev_Agent := #"a"; ev_PodUID := []; ev_Binding := []; ev_Session := [];
     ev_Outcome := []; ev_Requester := []; ev_RequesterKind := []; ev_RequesterOID := []; ev_TokenSHA256 := [];
     ev_Tier := []; ev_Decision := []; ev_Groups := []; ev_CacheAgeSec := 0; ev_Kid := []; ev_KidSHA256 := [];
     ev_Peer := []; ev_Serial := []; ev_NotAfter := []; ev_DNSNames := []; ev_Target := []; ev_Method := [];
     ev_Status := 0; ev_Duration := 0 |}.
Definition canonical_time (_ : bytes) : bool := false.
Definition start : option Chain := New HMAC #"r" 0 k1 1 prev e.
Definition ops : list (env * op) :=
  [(e, OBegin); (e, ORecord denied); (e, OSigned 0 (Some #"vault:v1:AAAA")); (e, OPersisted 0 true); (e, ORefresh k2)].
Definition c : Chain := default (set_failed {| ch_replica := []; ch_grace := 0; ch_boot := 0; ch_seq := 0; ch_prev := [];
  ch_key := k1; ch_lastCheckpoint := 0; ch_failed := false; ch_out := []; ch_signing := []; ch_persisting := [] |}) start.
Abbreviation out := (ch_out (@run latin1_tables canonical_time HMAC c ops)).
Definition PublicKeys (v : Z) : option bytes := if v =? 1 then Some [] else None.
Definition message : bytes := default [] ((λ r, checkpointInput #"r" 1 0 (row_MAC r)) <$> out !! 0%nat).
Definition ed25519_Verify (_ m _ : bytes) : bool := bool_decide (m = message).
Definition parse_time (_ : bytes) : option Z := Some 0.

Lemma started : New HMAC #"r" 0 k1 1 prev e = Some c.
Proof. vm_compute. reflexivity. Qed.
Lemma keys : Forall (key_known HMACKey) (k1 :: flat_map op_keys ops).
Proof. repeat constructor. Qed.
Lemma wf : Forall row_wf out.
Proof.
  assert (H : forallb row_wfb out = true) by (vm_compute; reflexivity).
  apply forallb_Forall in H. eapply Forall_impl; [exact H|]. apply row_wf_check.
Qed.
Lemma full_macs : Forall (λ r, row_MAC r = macInput r) out.
Proof.
  assert (H : forallb (λ r, bool_decide (row_MAC r = macInput r)) out = true) by (vm_compute; reflexivity).
  apply forallb_Forall in H. eapply Forall_impl; [exact H|]. intros r. apply bool_decide_eq_true.
Qed.
Lemma heads : ∃ r0 : Row, out !! 0%nat = Some r0 ∧ asked HMAC canonical_time c ops = [(0, row_MAC r0)] ∧
  message = checkpointInput #"r" 1 0 (row_MAC r0).
Proof. exists (default zero_row (out !! 0%nat)). split_and!; vm_compute; reflexivity. Qed.
End Demo.

Lemma honest_boot_verifies_witness :
  fst (verifyChain Demo.HMAC Demo.HMACKey Demo.PublicKeys Demo.ed25519_Verify Demo.parse_time 0 (#"r", 1) Demo.out) = [].
Proof.
  refine (proj2 (honest_boot_verifies Demo.HMAC Demo.HMACKey Demo.PublicKeys Demo.ed25519_Verify Demo.parse_time 0
    (H := latin1_tables) Demo.canonical_time #"r" 0 Demo.k1 1 Demo.prev Demo.e Demo.c Demo.ops Demo.started Demo.keys _ _) _ _).
  - vm_compute. reflexivity.
  - assert (H : forallb (λ r, negb (bool_decide (row_Event r = EventCheckpoint)) ||
      (bool_decide (row_Signature r = #"vault:v1:AAAA") &&
       bool_decide (checkpointInput (row_Replica r) (row_Boot r) (row_SignedSeq r) (row_SignedMAC r) = Demo.message))) Demo.out = true)
      by (vm_compute; reflexivity).
    apply forallb_Forall in H. eapply Forall_impl; [exact H|]. intros r Hr He. cbn beta in Hr.
    rewrite bool_decide_true in Hr by done. cbn [negb orb] in Hr. apply andb_true_iff in Hr as [Hs Hm].
    exists 1, [x00; x00; x00], []. split_and!; [by apply bool_decide_eq_true in Hs as ->|done|done].
  - lia.
  - assert (H : existsb (λ r, bool_decide (row_Event r = EventCheckpoint)) Demo.out = true) by (vm_compute; reflexivity).
    apply existsb_Exists in H as (r & Hr & He). apply Exists_exists. exists r. split; [done|].
    split; [by apply bool_decide_eq_true in He|by eexists].
Defined.

Lemma verified_rows_are_written_witness :
  take 3 Demo.out = take (length (take 3 Demo.out)) Demo.out.
Proof.
  assert (Hsub : ∀ r, r ∈ take 3 Demo.out → r ∈ Demo.out)
    by (intros r Hr; rewrite <- (take_drop 3 Demo.out); apply elem_of_app; by left).
  assert (Hg : forallb (λ r, bool_decide (key_of r = (#"r", 1)) && (0 <=? row_Seq r) && (row_Seq r <? 2 ^ 64)) (take 3 Demo.out) = true)
    by (vm_compute; reflexivity).
  apply forallb_Forall in Hg.
  apply (verified_rows_are_written Demo.HMAC Demo.HMACKey Demo.PublicKeys Demo.ed25519_Verify Demo.parse_time 0
    (H := latin1_tables) Demo.canonical_time #"r" 0 Demo.k1 1 Demo.prev Demo.e Demo.c Demo.ops
    (take 3 Demo.out) [] Demo.started Demo.keys).
  - vm_compute. reflexivity.
  - rewrite app_nil_r. apply Forall_app. split; [apply Forall_take|]; apply Demo.wf.
  - eapply Forall_impl; [exact Hg|]. intros r Hr. cbn beta in Hr. unfold seq_range. lia.
  - eapply Forall_impl; [exact Hg|]. intros r Hr. cbn beta in Hr. rewrite !andb_true_iff in Hr.
    destruct Hr as [[Hr _] _]. by apply bool_decide_eq_true in Hr.
  - constructor.
  - intros r Hr _. exists r. split; [|done]. rewrite app_nil_r. auto.
  - vm_compute. reflexivity.
Defined.

Lemma checkpoint_anchors_history_witness :
  ∃ r, Demo.out !! 2%nat = Some r ∧ row_Event r = EventCheckpoint ∧
    (S (Z.to_nat (row_SignedSeq r)) <= 2)%nat.
Proof.
  set (r := default zero_row (Demo.out !! 2%nat)).
  assert (Hr : Demo.out !! 2%nat = Some r) by (vm_compute; reflexivity).
  assert (He : row_Event r = EventCheckpoint) by (vm_compute; reflexivity).
  exists r. split; [exact Hr|]. split; [exact He|].
  assert (Hg : forallb (λ r, bool_decide (key_of r = (#"r", 1)) && (0 <=? row_Seq r) && (row_Seq r <? 2 ^ 64)) Demo.out = true)
    by (vm_compute; reflexivity).
  apply forallb_Forall in Hg.
  refine (proj1 (checkpoint_anchors_history Demo.HMAC Demo.HMACKey Demo.PublicKeys Demo.ed25519_Verify Demo.parse_time 0
    (H := latin1_tables) Demo.canonical_time #"r" 0 Demo.k1 1 Demo.prev Demo.e Demo.c Demo.ops
    Demo.out [] 2 r Demo.started Demo.keys _ _ _ _ _ _ _ _ _ Hr He)).
  - vm_compute. reflexivity.
  - rewrite app_nil_r. apply Forall_app. split; apply Demo.wf.
  - eapply Forall_impl; [exact Hg|]. intros x Hx. cbn beta in Hx. unfold seq_range. lia.
  - eapply Forall_impl; [exact Hg|]. intros x Hx. cbn beta in Hx. rewrite !andb_true_iff in Hx.
    destruct Hx as [[Hx _] _]. by apply bool_decide_eq_true in Hx.
  - constructor.
  - intros k m. unfold short, Demo.HMAC. rewrite length_take. lia.
  - intros x g Hx Hy Hm. pose proof Demo.full_macs as Hf. rewrite Forall_forall in Hf.
    by rewrite <- (Hf x Hx), <- (Hf g Hy).
  - intros v pk m sg _ Hv. apply bool_decide_eq_true in Hv as ->. left.
    destruct Demo.heads as (r0 & _ & -> & ->). exists (0, row_MAC r0). split; [left|done].
  - vm_compute. reflexivity.
Defined.

(** ** Failing closed *)

Section Admission.
Context `{UnicodeTables} (canonical_time : bytes → bool) (HMAC : bytes → bytes → bytes).
Abbreviation step := (step canonical_time HMAC).
Abbreviation run := (run canonical_time HMAC).

Lemma append_failed c e r : ch_failed c = true → appendLocked HMAC c e r = (c, Err ErrAuditFailed).
Proof. unfold appendLocked. by intros ->. Qed.

Lemma step_failed c o : ch_failed c = true → ch_failed (step c o) = true ∧ ch_out (step c o) = ch_out c.
Proof.
  intros Hf. destruct o as [e [ev| |i sg|i ok|k]]; cbn [AuditChain.step];
    unfold Record_, checkpoint_begin, checkpoint_signed, checkpoint_persisted, RefreshKey;
    rewrite ?append_failed by done; repeat case_match; simplify_eq/=; try done;
    match goal with E : appendLocked _ _ _ _ = _ |- _ => rewrite append_failed in E by done end; by simplify_eq/=.
Qed.

Lemma run_failed ops : ∀ c, ch_failed c = true → ch_failed (run c ops) = true ∧ ch_out (run c ops) = ch_out c.
Proof.
  induction ops as [|o ops IH]; intros c Hf; [done|]. cbn [AuditChain.run foldl].
  destruct (step_failed c o Hf) as [Hf' Ho], (IH (step c o) Hf') as [H1 H2].
  unfold AuditChain.run in *. by rewrite H2.
Qed.

Lemma run_snoc c ops o : run c (ops ++ [o]) = step (run c ops) o.
Proof. unfold AuditChain.run. by rewrite foldl_app. Qed.

(** What [appendLocked] leaves alone, and the row it returns. *)
Lemma append_frame c e r c' res : appendLocked HMAC c e r = (c', res) →
  (∃ l, ch_out c' = ch_out c ++ l) ∧ ch_persisting c' = ch_persisting c ∧
  ch_lastCheckpoint c' = ch_lastCheckpoint c ∧ ch_grace c' = ch_grace c ∧
  (∀ row, res = Ok row → row ∈ ch_out c' ∧ row_Event row = row_Event r).
Proof.
  unfold appendLocked. destruct (ch_failed c); [|destruct (e_write e)]; cbn [negb]; intros E;
    injection E as <- <-; cbn; split_and!; try done; try (by exists []; rewrite app_nil_r).
  - by eexists.
  - intros row [= <-]. split; [apply elem_of_app; right; left|done].
Qed.

(** The pending heads of checkpoints are rows of the chain. *)
Definition is_checkpoint_of (rows : list Row) (h : Z * bytes) : Prop :=
  ∃ r, r ∈ rows ∧ row_Event r = EventCheckpoint ∧ h = (row_Seq r, row_MAC r).
Definition pending_ok (c : Chain) : Prop := Forall (is_checkpoint_of (ch_out c)) (ch_persisting c).

Lemma is_checkpoint_app rows l h : is_checkpoint_of rows h → is_checkpoint_of (rows ++ l) h.
Proof. intros (r & Hr & H0). exists r. split; [apply elem_of_app; by left|done]. Qed.

Lemma append_pending c e r c' res : pending_ok c → appendLocked HMAC c e r = (c', res) → pending_ok c'.
Proof.
  intros Hp Ea. apply append_frame in Ea as ((l & El) & Ep & _). unfold pending_ok. rewrite Ep, El.
  eapply Forall_impl; [exact Hp|]. intros h. apply is_checkpoint_app.
Qed.

Lemma step_pending c o : pending_ok c → pending_ok (step c o).
Proof.
  intros Hp. assert (Hd : ∀ s i, pending_ok (set_queues c s (delete i (ch_persisting c)))) by (intros; by apply Forall_delete).
  destruct o as [e [ev| |i sg|i ok|k]]; cbn [AuditChain.step];
    unfold Record_, checkpoint_begin, checkpoint_signed, checkpoint_persisted, RefreshKey;
    repeat case_match; cbn [fst]; try done; try apply Hd;
    match goal with E : appendLocked _ ?c' ?e ?r = (?c2, ?res) |- _ =>
      pose proof (append_pending c' e r c2 res) as Ha; try (apply Ha; [apply Hd||exact Hp|exact E]) end.
  specialize (Ha Hp ltac:(eassumption)). match goal with E : appendLocked _ _ _ _ = _ |- _ =>
    apply append_frame in E as (_ & _ & _ & _ & Hr) end.
  destruct (Hr _ eq_refl) as [Hin Hev]. apply Forall_app. split; [done|]. apply Forall_singleton.
  cbn. eexists. split_and!; [exact Hin|exact Hev|done].
Qed.
(** A chain whose output once refused a row never writes again, whatever is
    asked of it, and admits no session. *)
Theorem failed_chain_is_final c e ev ops now
  (Hfull : Event_Validate canonical_time ev = true) (Hwrite : e_write e = false) (Hlive : ch_failed c = false) :
  let c' := fst (Record_ canonical_time HMAC c e ev) in
  snd (Record_ canonical_time HMAC c e ev) = Some ErrAuditFailed ∧
  ch_out (run c' ops) = ch_out c ∧ Admit (run c' ops) now = Some ErrAuditFailed.
Proof.
  cbn zeta. unfold Record_. rewrite Hfull. cbn [negb]. unfold appendLocked. rewrite Hlive, Hwrite. cbn [negb fst snd].
  destruct (run_failed ops (set_failed c) eq_refl) as [Hf Ho]. split_and!; [done|by rewrite Ho|].
  unfold Admit. by rewrite Hf.
Qed.

Lemma step_lastCheckpoint c o :
  ch_grace (step c o) = ch_grace c ∧
  (ch_lastCheckpoint (step c o) = ch_lastCheckpoint c ∨
   ∃ e i h, o = (e, OPersisted i true) ∧ ch_persisting c !! i = Some h ∧ ch_lastCheckpoint (step c o) = e_now e).
Proof.
  destruct o as [e [ev| |i sg|i [|]|k]]; cbn [AuditChain.step];
    unfold Record_, checkpoint_begin, checkpoint_signed, checkpoint_persisted, RefreshKey; cbn [negb];
    repeat case_match; cbn [fst]; try (split; [done|by left]);
    try (match goal with E : appendLocked _ _ _ _ = _ |- _ =>
           apply append_frame in E as (_ & _ & E1 & E2 & _); cbn in *; split; [done|by left] end).
  split; [done|]. right. by exists e, i, p.
Qed.

Lemma run_lastCheckpoint ops : ∀ c, pending_ok c →
  ch_grace (run c ops) = ch_grace c ∧
  (ch_lastCheckpoint (run c ops) = ch_lastCheckpoint c ∨
   ∃ e i row, (e, OPersisted i true) ∈ ops ∧ row ∈ ch_out (run c ops) ∧ row_Event row = EventCheckpoint ∧
     ch_lastCheckpoint (run c ops) = e_now e).
Proof.
  induction ops as [|o ops IH] using rev_ind; intros c Hp; [by split; [|left]|].
  destruct (IH c Hp) as [Hg Hl]. rewrite run_snoc. destruct (step_lastCheckpoint (run c ops) o) as [Hg' Hl'].
  assert (Hp' : pending_ok (run c ops)).
  { clear -Hp. induction ops as [|o ops IH] using rev_ind; [done|]. rewrite run_snoc. by apply step_pending. }
  destruct (step_out HMAC canonical_time (run c ops) o) as (l & El & _).
  split; [congruence|]. destruct Hl' as [Hl'|(e & i & h & -> & Hi & Hl')].
  - rewrite Hl'. destruct Hl as [Hl|(e & i & row & Hin & Hr & Hev & Hl)]; [by left|]. right.
    exists e, i, row. rewrite El. split_and!; [apply elem_of_app; by left|apply elem_of_app; by left|done|done].
  - right. destruct (Forall_lookup_1 _ _ _ _ Hp' Hi) as (row & Hr & Hev & _). exists e, i, row. rewrite El.
    split_and!; [apply elem_of_app; right; left|apply elem_of_app; by left|done|done].
Qed.

(** A session is admitted only while checkpoints are current.  If [Admit]
    lets one in after any operations, then within the grace period either
    the boot began or a checkpoint row that is on the trail was confirmed by
    the store. *)
Theorem admitted_checkpoint_current replica grace key boot previous e c ops now
  (Hnew : New HMAC replica grace key boot previous e = Some c)
  (Hadmit : Admit (run c ops) now = None) :
  let limit := if grace <=? 0 then 5 * Minute else grace in
  time_Sub now (e_now e) <= limit ∨
  ∃ e' i row, (e', OPersisted i true) ∈ ops ∧ row ∈ ch_out (run c ops) ∧
    row_Event row = EventCheckpoint ∧ time_Sub now (e_now e') <= limit.
Proof.
  assert (Hc : ch_grace c = (if grace <=? 0 then 5 * Minute else grace) ∧ ch_lastCheckpoint c = e_now e ∧ pending_ok c).
  { unfold New in Hnew. destruct (identifier replica false); [|done]. cbn [negb] in Hnew.
    destruct (appendLocked _ _ _ _) as [c1 [row|]] eqn:Ea; [|done]. apply (inj Some) in Hnew as <-.
    assert (Hp : pending_ok c1) by (eapply append_pending; [|exact Ea]; constructor). apply append_frame in Ea as (_ & _ & E1 & E2 & _). done. }
  destruct Hc as (Hg & Hl & Hp). destruct (run_lastCheckpoint ops c Hp) as [Hg' Hl'].
  unfold Admit in Hadmit. destruct (ch_failed (run c ops)); [done|]. rewrite Hg', Hg in Hadmit. cbn zeta.
  match type of Hadmit with (if ?x <? ?y then _ else _) = _ => destruct (Z.ltb_spec x y) as [|Hle]; [done|] end.
  destruct Hl' as [Hl'|(e' & i & row & Hin & Hr & Hev & Hl')]; rewrite Hl' in Hle.
  - left. by rewrite <- Hl.
  - right. by exists e', i, row.
Qed.
End Admission.

Lemma failed_chain_is_final_witness :
  ch_out (fst (Record_ (H := latin1_tables) Demo.canonical_time Demo.HMAC Demo.c
    {| e_now := 0; e_text := []; e_write := false |} Demo.denied)) = ch_out Demo.c.
Proof.
  apply (failed_chain_is_final (H := latin1_tables) Demo.canonical_time Demo.HMAC Demo.c
    {| e_now := 0; e_text := []; e_write := false |} Demo.denied [] 0); vm_compute; reflexivity.
Defined.

Lemma admitted_checkpoint_current_witness :
  time_Sub (2 * Minute) 0 <= 5 * Minute ∨
  ∃ e' i row, (e', OPersisted i true) ∈ Demo.ops ∧ row ∈ Demo.out ∧
    row_Event row = EventCheckpoint ∧ time_Sub (2 * Minute) (e_now e') <= 5 * Minute.
Proof.
  refine (admitted_checkpoint_current (H := latin1_tables) Demo.canonical_time Demo.HMAC #"r" 0 Demo.k1 1
    Demo.prev Demo.e Demo.c Demo.ops (2 * Minute) Demo.started _).
  vm_compute. reflexivity.
Defined.
