(* ===== verification/PgPool.v ===== *)
(** * The pool of server connections
    ([internal/pgproxy/pool.go], with [pooledKey] and [pin] of [txn.go])

    Clients share server connections, each opened under a credential that
    rotates.  Credentials and connections are heap objects named by their index;
    pools are named by their key, since none is ever removed.  Every section of
    code under the pool's mutex is one step; between two of them (while a
    checkout waits, mints or dials, or a client holds its connection) any other
    step can run.  [thread] is a checkout from [acquire] to [release], [rotation]
    a background mint started by [maintain].  The order of each range over a map
    is an argument.  Closing a [changed] channel is a new value of [b_changed].
    A tick of the maintenance loop may still run after [close], until the loop has
    seen [stop].  The prepared statements and parameters a connection remembers
    belong to the session code and are left out. *)

From S2P Require Import Prelude GoString GoStrconv.

(** ** Data *)

Record DatabaseService := {
  ds_Name : bytes;
  ds_Addr : bytes;
  ds_Database : bytes;
  ds_Mount : bytes;
  ds_Role : bytes;
  ds_MaxConns : Z;
  ds_CA : bytes;
  ds_ServerName : bytes;
}.

Record AgentScope := { as_VaultID : bytes; as_ActorID : bytes; as_Pool : bytes }.

Record Lease := { l_ID : bytes; l_Username : bytes; l_Password : bytes; l_ExpiresAt : Z }.

Record poolKey := {
  k_pool : bytes;
  k_binding : bytes;
  k_mount : bytes;
  k_role : bytes;
  k_addr : bytes;
  k_database : bytes;
  k_trust : bytes;
}.
#[global] Instance poolKey_eq_dec : EqDecision poolKey.
Proof. solve_decision. Defined.
#[global] Program Instance poolKey_countable : Countable poolKey :=
  inj_countable'
    (λ k, (k_pool k, k_binding k, k_mount k, k_role k, k_addr k, k_database k, k_trust k))
    (λ '(a, b, c, d, e, f, g), {| k_pool := a; k_binding := b; k_mount := c; k_role := d; k_addr := e;
                                  k_database := f; k_trust := g |}) _.
Next Obligation. by intros []. Qed.

Record credential := {
  c_lease : Lease;
  c_issued : Z;
  c_rotateAt : Z;
  c_conns : Z;
  c_open : gset nat;
  c_retiring : bool;
  c_revoked : bool;
  c_margin : Z;
}.

(** [sc_closed]: the network connection has been closed. *)
Record serverConn := {
  sc_cred : nat;
  sc_pool : poolKey;
  sc_pinned : bool;
  sc_idleAt : Z;
  sc_closed : bool;
}.

Record serverPool := {
  sp_svc : DatabaseService;
  sp_vault : bytes;
  sp_cur : option nat;
  sp_minting : bool;
  sp_mintMu : bool;                                        (* held *)
  sp_creds : list nat;
  sp_idle : list nat;
  sp_pinned : Z;
}.

Record budget := { b_base : Z; b_limit : Z; b_open : Z; b_waiters : Z; b_changed : Z }.

Record PoolOptions := {
  po_Replicas : Z;
  po_SessionShare : float64;
  po_QueueFactor : Z;
  po_QueueWait : Z;
  po_RotateFraction : float64;
  po_IdleTimeout : Z;
  po_DefaultBudget : Z;
}.

Definition defaultDatabaseConns : Z := 50.

Definition withDefaults (o : PoolOptions) : PoolOptions :=
  {| po_Replicas := if po_Replicas o <? 1 then 1 else po_Replicas o;
     po_SessionShare := if fle (po_SessionShare o) fzero || flt fone (po_SessionShare o)
                        then fconst 1 10 else po_SessionShare o;
     po_QueueFactor := if po_QueueFactor o <? 1 then 200 else po_QueueFactor o;
     po_QueueWait := if po_QueueWait o <=? 0 then 5 * Second else po_QueueWait o;
     po_RotateFraction := if fle (po_RotateFraction o) fzero || fle fone (po_RotateFraction o)
                          then fconst 1 2 else po_RotateFraction o;
     po_IdleTimeout := if po_IdleTimeout o <=? 0 then 5 * Minute else po_IdleTimeout o;
     po_DefaultBudget := if po_DefaultBudget o <=? 0 then defaultDatabaseConns else po_DefaultBudget o |}.

Inductive pool_error := ErrPoolBudget | ErrPinnedShare | ErrPoolClosed | ErrOpen | ErrContext.

(** Where a checkout stands.  [Opening] to [OpenFailed] have a unit of the budget
    reserved; [Locked] to [Minted] hold the pool's [mintMu]. *)
Inductive phase :=
| Trying                                                   (* at the top of the loop *)
| Sleeping (changed : Z)                                   (* in the select *)
| Opening                                                  (* before the first [usable] *)
| WantMint                                                 (* before [mintMu.Lock] *)
| Locked                                                   (* before the second [usable] *)
| Minting                                                  (* [Mint] is running *)
| Minted                                                   (* before the third [usable] *)
| Dialing (c : nat)                                        (* [connectUpstreamWith] is running *)
| Opened (i : nat)                                         (* [open] returned a connection *)
| OpenFailed                                               (* [open] returned an error *)
| Holding (i : nat)                                        (* the client owns it *)
| Finished (e : option pool_error).

Record thread := {
  t_key : poolKey;
  t_vault : bytes;
  t_svc : DatabaseService;
  t_pinned : bool;
  t_deadline : Z;
  t_waiting : bool;
  t_phase : phase;
}.

Inductive rotation := RWant | RMinting | RClear | RDone.

(** Calls of [Leases.Revoke]: for a credential, or for a lease that was refused. *)
Inductive revocation := RevokeCred (c : nat) | RevokeLease (l : Lease).

Record serverPools := {
  ps_pools : gmap poolKey serverPool;
  ps_budgets : gmap bytes budget;
  ps_creds : list credential;
  ps_conns : list serverConn;
  ps_threads : list thread;
  ps_rotations : list (poolKey * rotation);
  ps_closed : bool;
  ps_stopped : bool;                                       (* [maintain] has returned *)
  ps_revokes : list revocation;
}.

Definition newServerPools : serverPools :=
  {| ps_pools := ∅; ps_budgets := ∅; ps_creds := []; ps_conns := []; ps_threads := []; ps_rotations := [];
     ps_closed := false; ps_stopped := false; ps_revokes := [] |}.

(** Field updates. *)
Definition with_conns (v : Z) (c : credential) : credential :=
  {| c_lease := c_lease c; c_issued := c_issued c; c_rotateAt := c_rotateAt c; c_conns := v; c_open := c_open c; c_retiring := c_retiring c; c_revoked := c_revoked c; c_margin := c_margin c |}.
Definition with_open (v : gset nat) (c : credential) : credential :=
  {| c_lease := c_lease c; c_issued := c_issued c; c_rotateAt := c_rotateAt c; c_conns := c_conns c; c_open := v; c_retiring := c_retiring c; c_revoked := c_revoked c; c_margin := c_margin c |}.
Definition with_retiring (v : bool) (c : credential) : credential :=
  {| c_lease := c_lease c; c_issued := c_issued c; c_rotateAt := c_rotateAt c; c_conns := c_conns c; c_open := c_open c; c_retiring := v; c_revoked := c_revoked c; c_margin := c_margin c |}.
Definition with_revoked (v : bool) (c : credential) : credential :=
  {| c_lease := c_lease c; c_issued := c_issued c; c_rotateAt := c_rotateAt c; c_conns := c_conns c; c_open := c_open c; c_retiring := c_retiring c; c_revoked := v; c_margin := c_margin c |}.
Definition with_svc (v : DatabaseService) (p : serverPool) : serverPool :=
  {| sp_svc := v; sp_vault := sp_vault p; sp_cur := sp_cur p; sp_minting := sp_minting p; sp_mintMu := sp_mintMu p; sp_creds := sp_creds p; sp_idle := sp_idle p; sp_pinned := sp_pinned p |}.
Definition with_cur (v : option nat) (p : serverPool) : serverPool :=
  {| sp_svc := sp_svc p; sp_vault := sp_vault p; sp_cur := v; sp_minting := sp_minting p; sp_mintMu := sp_mintMu p; sp_creds := sp_creds p; sp_idle := sp_idle p; sp_pinned := sp_pinned p |}.
Definition with_minting (v : bool) (p : serverPool) : serverPool :=
  {| sp_svc := sp_svc p; sp_vault := sp_vault p; sp_cur := sp_cur p; sp_minting := v; sp_mintMu := sp_mintMu p; sp_creds := sp_creds p; sp_idle := sp_idle p; sp_pinned := sp_pinned p |}.
Definition with_mintMu (v : bool) (p : serverPool) : serverPool :=
  {| sp_svc := sp_svc p; sp_vault := sp_vault p; sp_cur := sp_cur p; sp_minting := sp_minting p; sp_mintMu := v; sp_creds := sp_creds p; sp_idle := sp_idle p; sp_pinned := sp_pinned p |}.
Definition with_creds (v : list nat) (p : serverPool) : serverPool :=
  {| sp_svc := sp_svc p; sp_vault := sp_vault p; sp_cur := sp_cur p; sp_minting := sp_minting p; sp_mintMu := sp_mintMu p; sp_creds := v; sp_idle := sp_idle p; sp_pinned := sp_pinned p |}.
Definition with_idle (v : list nat) (p : serverPool) : serverPool :=
  {| sp_svc := sp_svc p; sp_vault := sp_vault p; sp_cur := sp_cur p; sp_minting := sp_minting p; sp_mintMu := sp_mintMu p; sp_creds := sp_creds p; sp_idle := v; sp_pinned := sp_pinned p |}.
Definition with_pinned (v : Z) (p : serverPool) : serverPool :=
  {| sp_svc := sp_svc p; sp_vault := sp_vault p; sp_cur := sp_cur p; sp_minting := sp_minting p; sp_mintMu := sp_mintMu p; sp_creds := sp_creds p; sp_idle := sp_idle p; sp_pinned := v |}.
Definition with_base (v : Z) (b : budget) : budget :=
  {| b_base := v; b_limit := b_limit b; b_open := b_open b; b_waiters := b_waiters b; b_changed := b_changed b |}.
Definition with_limit (v : Z) (b : budget) : budget :=
  {| b_base := b_base b; b_limit := v; b_open := b_open b; b_waiters := b_waiters b; b_changed := b_changed b |}.
Definition with_bopen (v : Z) (b : budget) : budget :=
  {| b_base := b_base b; b_limit := b_limit b; b_open := v; b_waiters := b_waiters b; b_changed := b_changed b |}.
Definition with_waiters (v : Z) (b : budget) : budget :=
  {| b_base := b_base b; b_limit := b_limit b; b_open := b_open b; b_waiters := v; b_changed := b_changed b |}.
Definition with_changed (v : Z) (b : budget) : budget :=
  {| b_base := b_base b; b_limit := b_limit b; b_open := b_open b; b_waiters := b_waiters b; b_changed := v |}.
Definition with_cpinned (v : bool) (cn : serverConn) : serverConn :=
  {| sc_cred := sc_cred cn; sc_pool := sc_pool cn; sc_pinned := v; sc_idleAt := sc_idleAt cn; sc_closed := sc_closed cn |}.
Definition with_idleAt (v : Z) (cn : serverConn) : serverConn :=
  {| sc_cred := sc_cred cn; sc_pool := sc_pool cn; sc_pinned := sc_pinned cn; sc_idleAt := v; sc_closed := sc_closed cn |}.
Definition with_closed (v : bool) (cn : serverConn) : serverConn :=
  {| sc_cred := sc_cred cn; sc_pool := sc_pool cn; sc_pinned := sc_pinned cn; sc_idleAt := sc_idleAt cn; sc_closed := v |}.
Definition with_pools (v : gmap poolKey serverPool) (st : serverPools) : serverPools :=
  {| ps_pools := v; ps_budgets := ps_budgets st; ps_creds := ps_creds st; ps_conns := ps_conns st; ps_threads := ps_threads st; ps_rotations := ps_rotations st; ps_closed := ps_closed st; ps_stopped := ps_stopped st; ps_revokes := ps_revokes st |}.
Definition with_budgets (v : gmap bytes budget) (st : serverPools) : serverPools :=
  {| ps_pools := ps_pools st; ps_budgets := v; ps_creds := ps_creds st; ps_conns := ps_conns st; ps_threads := ps_threads st; ps_rotations := ps_rotations st; ps_closed := ps_closed st; ps_stopped := ps_stopped st; ps_revokes := ps_revokes st |}.
Definition with_pcreds (v : list credential) (st : serverPools) : serverPools :=
  {| ps_pools := ps_pools st; ps_budgets := ps_budgets st; ps_creds := v; ps_conns := ps_conns st; ps_threads := ps_threads st; ps_rotations := ps_rotations st; ps_closed := ps_closed st; ps_stopped := ps_stopped st; ps_revokes := ps_revokes st |}.
Definition with_pconns (v : list serverConn) (st : serverPools) : serverPools :=
  {| ps_pools := ps_pools st; ps_budgets := ps_budgets st; ps_creds := ps_creds st; ps_conns := v; ps_threads := ps_threads st; ps_rotations := ps_rotations st; ps_closed := ps_closed st; ps_stopped := ps_stopped st; ps_revokes := ps_revokes st |}.
Definition with_threads (v : list thread) (st : serverPools) : serverPools :=
  {| ps_pools := ps_pools st; ps_budgets := ps_budgets st; ps_creds := ps_creds st; ps_conns := ps_conns st; ps_threads := v; ps_rotations := ps_rotations st; ps_closed := ps_closed st; ps_stopped := ps_stopped st; ps_revokes := ps_revokes st |}.
Definition with_rotations (v : list (poolKey * rotation)) (st : serverPools) : serverPools :=
  {| ps_pools := ps_pools st; ps_budgets := ps_budgets st; ps_creds := ps_creds st; ps_conns := ps_conns st; ps_threads := ps_threads st; ps_rotations := v; ps_closed := ps_closed st; ps_stopped := ps_stopped st; ps_revokes := ps_revokes st |}.
Definition with_pclosed (v : bool) (st : serverPools) : serverPools :=
  {| ps_pools := ps_pools st; ps_budgets := ps_budgets st; ps_creds := ps_creds st; ps_conns := ps_conns st; ps_threads := ps_threads st; ps_rotations := ps_rotations st; ps_closed := v; ps_stopped := ps_stopped st; ps_revokes := ps_revokes st |}.
Definition with_stopped (v : bool) (st : serverPools) : serverPools :=
  {| ps_pools := ps_pools st; ps_budgets := ps_budgets st; ps_creds := ps_creds st; ps_conns := ps_conns st; ps_threads := ps_threads st; ps_rotations := ps_rotations st; ps_closed := ps_closed st; ps_stopped := v; ps_revokes := ps_revokes st |}.
Definition with_revokes (v : list revocation) (st : serverPools) : serverPools :=
  {| ps_pools := ps_pools st; ps_budgets := ps_budgets st; ps_creds := ps_creds st; ps_conns := ps_conns st; ps_threads := ps_threads st; ps_rotations := ps_rotations st; ps_closed := ps_closed st; ps_stopped := ps_stopped st; ps_revokes := v |}.

Definition upd_pool (k : poolKey) (f : serverPool → serverPool) (st : serverPools) : serverPools :=
  with_pools (alter f k (ps_pools st)) st.
Definition upd_budget (a : bytes) (f : budget → budget) (st : serverPools) : serverPools :=
  with_budgets (alter f a (ps_budgets st)) st.
Definition upd_cred (c : nat) (f : credential → credential) (st : serverPools) : serverPools :=
  with_pcreds (alter f c (ps_creds st)) st.
Definition upd_conn (i : nat) (f : serverConn → serverConn) (st : serverPools) : serverPools :=
  with_pconns (alter f i (ps_conns st)) st.
Definition with_phase (p : phase) (t : thread) : thread :=
  {| t_key := t_key t; t_vault := t_vault t; t_svc := t_svc t; t_pinned := t_pinned t; t_deadline := t_deadline t;
     t_waiting := t_waiting t; t_phase := p |}.
Definition set_waiting (t : thread) : thread :=
  {| t_key := t_key t; t_vault := t_vault t; t_svc := t_svc t; t_pinned := t_pinned t; t_deadline := t_deadline t;
     t_waiting := true; t_phase := t_phase t |}.
Definition set_thread (n : nat) (t : thread) (st : serverPools) : serverPools :=
  with_threads (<[n := t]> (ps_threads st)) st.

(** ** Keys *)

Section Keys.
Context (SHA256 : bytes → bytes).                          (* in hex *)

Definition trustKey (svc : DatabaseService) : bytes :=
  if bool_decide (ds_CA svc = []) && bool_decide (ds_ServerName svc = []) then []
  else SHA256 (BigEndianUint32 (Z.of_nat (length (ds_CA svc))) ++ ds_CA svc ++ ds_ServerName svc).

Definition databaseBinding (vaultID : bytes) (svc : DatabaseService) : bytes := vaultID ++ #"/" ++ ds_Name svc.

Definition pooledKey (scope : AgentScope) (svc : DatabaseService) : poolKey :=
  {| k_pool := if bool_decide (as_Pool scope = []) then #"actor:" ++ as_ActorID scope else as_Pool scope;
     k_binding := databaseBinding (as_VaultID scope) svc; k_mount := ds_Mount svc; k_role := ds_Role svc;
     k_addr := ds_Addr svc; k_database := ds_Database svc; k_trust := trustKey svc |}.
End Keys.

(** ** Operations under the mutex *)

Definition usable (c : credential) (now : Z) : bool := now <? l_ExpiresAt (c_lease c) - c_margin c.

Definition notify (b : budget) : budget := with_changed (b_changed b + 1) b.

Definition cred_of (st : serverPools) (i : nat) : option credential :=
  cn ← ps_conns st !! i; ps_creds st !! sc_cred cn.

Definition retireIfDrainedLocked (k : poolKey) (c : nat) (st : serverPools) : serverPools :=
  match ps_creds st !! c with
  | Some cr =>
      if negb (c_retiring cr) || c_revoked cr || (0 <? c_conns cr) then st
      else
        let st := upd_cred c (with_revoked true) st in
        let st := upd_pool k (λ p, with_creds (List.filter (λ d, negb (d =? c)%nat) (sp_creds p)) p) st in
        with_revokes (ps_revokes st ++ [RevokeCred c]) st
  | None => st
  end.

Definition closeLocked (i : nat) (st : serverPools) : serverPools :=
  match ps_conns st !! i with
  | Some cn =>
      let st := upd_conn i (with_closed true) st in
      let st := upd_cred (sc_cred cn) (λ c, with_conns (c_conns c - 1) (with_open (c_open c ∖ {[i]}) c)) st in
      let st := match ps_pools st !! sc_pool cn with
                | Some p => upd_budget (ds_Addr (sp_svc p)) (λ b, notify (with_bopen (b_open b - 1) b)) st
                | None => st
                end in
      retireIfDrainedLocked (sc_pool cn) (sc_cred cn) st
  | None => st
  end.

(** [for _, conn := range l { p.closeLocked(conn) }] *)
Definition close_all (l : list nat) (st : serverPools) : serverPools := foldl (λ st i, closeLocked i st) st l.

Section Ops.
Context (SHA256 : bytes → bytes) (opts : PoolOptions).

(** [live] is what [LiveReplicas] answers, if it is set. *)
Definition replicas (live : option Z) : Z :=
  match live with Some n => if 0 <? n then n else po_Replicas opts | None => po_Replicas opts end.

Definition budgetFor (live : option Z) (svc : DatabaseService) (st : serverPools) : serverPools :=
  let limit := if ds_MaxConns svc <=? 0 then po_DefaultBudget opts else ds_MaxConns svc in
  let bud := default {| b_base := 0; b_limit := 0; b_open := 0; b_waiters := 0; b_changed := 0 |}
               (ps_budgets st !! ds_Addr svc) in
  let bud := with_limit (Z.max 1 (Z.quot limit (replicas live))) (with_base limit bud) in
  with_budgets (<[ds_Addr svc := bud]> (ps_budgets st)) st.

(** Pops idle connections of [k], last first, while the budget of [a] is over its limit. *)
Fixpoint trim_idle (fuel : nat) (a : bytes) (k : poolKey) (st : serverPools) : serverPools :=
  match fuel with
  | O => st
  | S f =>
      match ps_pools st !! k, ps_budgets st !! a with
      | Some p, Some b =>
          if negb (b_limit b <? b_open b) then st
          else match last (sp_idle p) with
               | None => st
               | Some i => trim_idle f a k (closeLocked i (upd_pool k (with_idle (removelast (sp_idle p))) st))
               end
      | _, _ => st
      end
  end.

Definition trim_pool (a : bytes) (st : serverPools) (k : poolKey) : serverPools :=
  match ps_pools st !! k with
  | Some p => if negb (bool_decide (ds_Addr (sp_svc p) = a)) then st
              else trim_idle (length (sp_idle p)) a k st
  | None => st
  end.

Definition trim_budget (live : option Z) (order : list poolKey) (st : serverPools) (a : bytes) : serverPools :=
  match ps_budgets st !! a with
  | None => st
  | Some b =>
      let limit := Z.max 1 (Z.quot (b_base b) (replicas live)) in
      if limit =? b_limit b then st
      else
        let st := foldl (trim_pool a) (upd_budget a (with_limit limit) st) order in
        if b_limit b <? limit then upd_budget a notify st else st
  end.

Definition trimLocked (live : option Z) (addrs : list bytes) (order : list poolKey) (st : serverPools) : serverPools :=
  foldl (trim_budget live order) st addrs.

(** [for key, pool := range p.pools] up to the first that fits. *)
Fixpoint evictIdleLocked (order : list poolKey) (addr : bytes) (except : poolKey) (st : serverPools) : serverPools :=
  match order with
  | [] => st
  | k :: order' =>
      match ps_pools st !! k with
      | Some p =>
          if bool_decide (k = except) || negb (bool_decide (ds_Addr (sp_svc p) = addr)) then
            evictIdleLocked order' addr except st
          else match sp_idle p with
               | [] => evictIdleLocked order' addr except st
               | i :: idle' => closeLocked i (upd_pool k (with_idle idle') st)
               end
      | None => evictIdleLocked order' addr except st
      end
  end.

(** The loop that reuses an idle connection: [l] is [pool.idle], last first. *)
Fixpoint reuse (k : poolKey) (l : list nat) (st : serverPools) : serverPools * option nat :=
  match l with
  | [] => (st, None)
  | i :: l' =>
      let st := upd_pool k (with_idle (rev l')) st in
      match cred_of st i with
      | Some cr => if c_retiring cr then reuse k l' (closeLocked i st) else (st, Some i)
      | None => (st, Some i)
      end
  end.

(** Handing connection [i] to a checkout. *)
Definition take_conn (t : thread) (i : nat) (st : serverPools) : serverPools :=
  let st := upd_conn i (with_cpinned (t_pinned t)) st in
  if t_pinned t then upd_pool (t_key t) (λ p, with_pinned (sp_pinned p + 1) p) st else st.

(** The deferred [waiters--], and the checkout's result. *)
Definition finish (n : nat) (t : thread) (ph : phase) (st : serverPools) : serverPools :=
  let st := if t_waiting t then upd_budget (ds_Addr (t_svc t)) (λ b, with_waiters (b_waiters b - 1) b) st else st in
  set_thread n {| t_key := t_key t; t_vault := t_vault t; t_svc := t_svc t; t_pinned := t_pinned t;
                  t_deadline := t_deadline t; t_waiting := false; t_phase := ph |} st.

(** [max(1, int(math.Floor(float64(limit) * SessionShare)))]; [pin] computes it
    without [Floor], which is the same for values that are not negative. *)
Definition session_share (limit : Z) : Z := Z.max 1 (to_int (fmul (of_int limit) (po_SessionShare opts))).

(** One turn of [acquire]'s loop, from its top to where it gives up the mutex. *)
Definition acquire_turn (n : nat) (t : thread) (now : Z) (live : option Z) (order : list poolKey) (st : serverPools)
  : serverPools :=
  if ps_closed st then finish n t (Finished (Some ErrPoolClosed)) st
  else
    let k := t_key t in
    let st := match ps_pools st !! k with
              | Some _ => st
              | None => with_pools (<[k := {| sp_svc := t_svc t; sp_vault := t_vault t; sp_cur := None; sp_minting := false;
                                              sp_mintMu := false; sp_creds := []; sp_idle := []; sp_pinned := 0 |}]> (ps_pools st)) st
              end in
    let st := upd_pool k (with_svc (t_svc t)) st in
    let st := budgetFor live (t_svc t) st in
    let a := ds_Addr (t_svc t) in
    match ps_pools st !! k, ps_budgets st !! a with
    | Some p, Some b =>
        if t_pinned t && (session_share (b_limit b) <=? sp_pinned p)
        then finish n t (Finished (Some ErrPinnedShare)) st
        else
          let '(st, found) := reuse k (rev (sp_idle p)) st in
          match found with
          | Some i => finish n t (Holding i) (take_conn t i st)
          | None =>
              let over st := match ps_budgets st !! a with Some b => b_limit b <=? b_open b | None => true end in
              let st := if over st then evictIdleLocked order a k st else st in
              if negb (over st) then
                set_thread n (with_phase Opening t) (upd_budget a (λ b, with_bopen (b_open b + 1) b) st)
              else
                match ps_budgets st !! a with
                | None => st
                | Some b =>
                    if negb (t_waiting t) && (b_limit b * po_QueueFactor opts <=? b_waiters b)
                    then finish n t (Finished (Some ErrPoolBudget)) st
                    else
                      let '(t, st) := if t_waiting t then (t, st)
                                      else (set_waiting t, upd_budget a (λ b, with_waiters (b_waiters b + 1) b) st) in
                      if t_deadline t <=? now then finish n t (Finished (Some ErrPoolBudget)) st
                      else set_thread n (with_phase (Sleeping (b_changed b)) t) st
                end
          end
    | _, _ => st
    end.

(** [usable] in [credentialFor]: reserves a connection on the current credential. *)
Definition reserve (k : poolKey) (now : Z) (st : serverPools) : option (nat * serverPools) :=
  p ← ps_pools st !! k; c ← sp_cur p; cr ← ps_creds st !! c;
  if negb (c_retiring cr) && negb (c_revoked cr) && usable cr now
  then Some (c, upd_cred c (λ c, with_conns (c_conns c + 1) c) st) else None.

Definition unlock_mint (k : poolKey) (st : serverPools) : serverPools := upd_pool k (with_mintMu false) st.

(** What a call of [Mint] brings: the clock when the lease is checked and when the
    credential is made, the jitter, the lease. *)
Record mint_result := { mt_checked : Z; mt_now : Z; mt_jitter : Z; mt_lease : option Lease }.

Definition lease_valid (m : mint_result) (l : Lease) : bool :=
  negb (bool_decide (l_ID l = []) || bool_decide (l_Username l = []) || bool_decide (l_Password l = []) ||
        (l_ExpiresAt l <=? mt_checked m + Second)).

Definition new_credential (m : mint_result) (l : Lease) : credential :=
  let life := time_Sub (l_ExpiresAt l) (mt_now m) in
  let spread := to_int (fdiv (fmul (fmul (of_int life) (fconst 1 10)) (of_int (mt_jitter m))) (of_int 65535)) in
  {| c_lease := l; c_issued := mt_now m;
     c_rotateAt := time_Add (mt_now m) (to_int (fmul (of_int life) (po_RotateFraction opts)) - spread);
     c_conns := 0; c_open := ∅; c_retiring := false; c_revoked := false;
     c_margin := Z.min (5 * Second) (Z.quot life 4) |}.

(** The previous credential retires with its idle connections. *)
Definition retire_old (k : poolKey) (old : nat) (st : serverPools) : serverPools :=
  let st := upd_cred old (with_retiring true) st in
  let idle := match ps_pools st !! k with Some p => sp_idle p | None => [] end in
  let mine i := match ps_conns st !! i with Some cn => (sc_cred cn =? old)%nat | None => false end in
  let st := close_all (List.filter mine idle) st in
  let st := upd_pool k (with_idle (List.filter (λ i, negb (mine i)) idle)) st in
  retireIfDrainedLocked k old st.

(** [mintLocked] after [Mint] returned; the boolean is whether it succeeded. *)
Definition mintLocked (k : poolKey) (m : mint_result) (st : serverPools) : serverPools * bool :=
  match mt_lease m with
  | None => (st, false)
  | Some l =>
      if negb (lease_valid m l) then
        (if bool_decide (l_ID l = []) then st else with_revokes (ps_revokes st ++ [RevokeLease l]) st, false)
      else
        let c := length (ps_creds st) in
        let cur := p ← ps_pools st !! k; sp_cur p in
        let st := match cur with Some old => retire_old k old st | None => st end in
        let st := with_pcreds (ps_creds st ++ [new_credential m l]) st in
        (upd_pool k (λ p, with_creds (sp_creds p ++ [c]) (with_cur (Some c) p)) st, true)
  end.

(** [open] after the dial. *)
Definition dialed (k : poolKey) (c : nat) (ok : bool) (st : serverPools) : serverPools * phase :=
  if ok then
    let i := length (ps_conns st) in
    let st := with_pconns (ps_conns st ++ [{| sc_cred := c; sc_pool := k; sc_pinned := false; sc_idleAt := 0; sc_closed := false |}]) st in
    (upd_cred c (λ cr, with_open ({[i]} ∪ c_open cr) cr) st, Opened i)
  else (retireIfDrainedLocked k c (upd_cred c (λ cr, with_conns (c_conns cr - 1) cr) st), OpenFailed).

Definition release (i : nat) (reusable : bool) (now : Z) (st : serverPools) : serverPools :=
  match ps_conns st !! i with
  | None => st
  | Some cn =>
      let k := sc_pool cn in
      let st := if sc_pinned cn then
                  upd_pool k (λ p, with_pinned (sp_pinned p - 1) p) (upd_conn i (with_cpinned false) st) else st in
      let bud := p ← ps_pools st !! k; ps_budgets st !! ds_Addr (sp_svc p) in
      let over := match bud with Some b => b_limit b <? b_open b | None => false end in
      let bad := match ps_creds st !! sc_cred cn with
                 | Some cr => c_retiring cr || c_revoked cr || negb (usable cr now)
                 | None => true
                 end in
      if negb reusable || over || ps_closed st || bad then closeLocked i st
      else
        let st := upd_pool k (λ p, with_idle (sp_idle p ++ [i]) p) (upd_conn i (with_idleAt now) st) in
        match ps_pools st !! k with
        | Some p => upd_budget (ds_Addr (sp_svc p)) notify st
        | None => st
        end
  end.

(** [retire], over all pools. *)
Definition retire (c : nat) (st : serverPools) : serverPools :=
  let st := with_pools ((λ p, if bool_decide (sp_cur p = Some c) then with_cur None p else p) <$> ps_pools st) st in
  upd_cred c (with_retiring true) st.

Definition pin (i : nat) (st : serverPools) : serverPools * option pool_error :=
  match ps_conns st !! i with
  | None => (st, None)
  | Some cn =>
      match ps_pools st !! sc_pool cn with
      | None => (st, None)
      | Some p =>
          let limit := match ps_budgets st !! ds_Addr (sp_svc p) with Some b => b_limit b | None => 1 end in
          if session_share limit <=? sp_pinned p then (st, Some ErrPinnedShare)
          else (upd_pool (sc_pool cn) (λ p, with_pinned (sp_pinned p + 1) p) (upd_conn i (with_cpinned true) st), None)
      end
  end.

(** ** Maintenance *)

(** One credential of the loop over [pool.creds]: an expired one is revoked with
    its connections open. *)
Definition expire (k : poolKey) (now : Z) (st : serverPools) (c : nat) : serverPools :=
  match ps_creds st !! c with
  | Some cr =>
      if c_revoked cr || (now <? l_ExpiresAt (c_lease cr)) then st
      else
        let st := upd_cred c (λ c, with_revoked true (with_retiring true c)) st in
        let st := upd_pool k (λ p, if bool_decide (sp_cur p = Some c) then with_cur None p else p) st in
        let st := foldl (λ st i, upd_conn i (with_closed true) st) st (elements (c_open cr)) in
        with_revokes (ps_revokes st ++ [RevokeCred c]) st
  | None => st
  end.

Definition is_revoked (st : serverPools) (c : nat) : bool :=
  match ps_creds st !! c with Some cr => c_revoked cr | None => false end.

(** The body of the loop over the pools. *)
Definition maintain_pool (now : Z) (st : serverPools) (k : poolKey) : serverPools :=
  match ps_pools st !! k with
  | None => st
  | Some p =>
      let stale i := match ps_conns st !! i with
                     | Some cn => po_IdleTimeout opts <? time_Sub now (sc_idleAt cn) | None => false end in
      let st := close_all (List.filter stale (sp_idle p)) st in
      let kept := List.filter (λ i, negb (stale i)) (sp_idle p) in
      let st := upd_pool k (with_idle kept) st in
      let st :=
        match sp_cur p with
        | None => st
        | Some c =>
            match ps_creds st !! c with
            | None => st
            | Some cr =>
                let due := c_rotateAt cr <=? now in
                let st := if negb (sp_minting p) && due && ((0 <? c_conns cr) || negb (bool_decide (kept = [])))
                          then with_rotations (ps_rotations st ++ [(k, RWant)]) (upd_pool k (with_minting true) st) else st in
                if (c_conns cr =? 0) && due
                then retireIfDrainedLocked k c (upd_pool k (with_cur None) (upd_cred c (with_retiring true) st)) else st
            end
        end in
      let cs := match ps_pools st !! k with Some p => sp_creds p | None => [] end in
      let live := List.filter (λ c, negb (is_revoked st c)) cs in
      let st := foldl (expire k now) st cs in
      upd_pool k (with_creds live) st
  end.

Definition maintain (now : Z) (live : option Z) (addrs : list bytes) (order : list poolKey) (st : serverPools) : serverPools :=
  foldl (maintain_pool now) (trimLocked live addrs order st) order.

(** [close]'s loop over [pool.creds]: [retireIfDrainedLocked] filters the slice in
    place, so the loop reads what it left in the array. [j] is the next index and
    [backing] the array. *)
Fixpoint close_creds (fuel j : nat) (k : poolKey) (backing : list nat) (st : serverPools) : serverPools :=
  match fuel, backing !! j with
  | S f, Some c =>
      let st := retireIfDrainedLocked k c (upd_cred c (with_retiring true) st) in
      let slice := match ps_pools st !! k with Some p => sp_creds p | None => [] end in
      close_creds f (S j) k (slice ++ drop (length slice) backing) st
  | _, _ => st
  end.

Definition close_pool (st : serverPools) (k : poolKey) : serverPools :=
  match ps_pools st !! k with
  | None => st
  | Some p =>
      let st := upd_pool k (with_idle []) (close_all (sp_idle p) st) in
      let cs := match ps_pools st !! k with Some p => sp_creds p | None => [] end in
      upd_pool k (with_cur None) (close_creds (length cs) 0 k cs st)
  end.

Definition close (order : list poolKey) (st : serverPools) : serverPools :=
  if ps_closed st then st else foldl close_pool (with_pclosed true st) order.

(** ** Steps *)

Inductive event :=
| EStart (scope : AgentScope) (svc : DatabaseService) (pinned : bool) (now : Z)
| ETurn (n : nat) (now : Z) (live : option Z) (order : list poolKey)
| EWake (n : nat) (now : Z) (cancelled : bool)
| EUsable (n : nat) (now : Z)
| ELock (n : nat)
| EMint (n : nat) (m : mint_result)
| EDial (n : nat) (success : bool)
| EOpened (n : nat)
| EPin (n : nat)
| ERetire (n : nat)
| ERelease (n : nat) (reusable : bool) (now : Z)
| EMaintain (now : Z) (live : option Z) (addrs : list bytes) (order : list poolKey)
| ERotateLock (r : nat)
| ERotateMint (r : nat) (m : mint_result)
| ERotateClear (r : nat)
| EClose (order : list poolKey)
| EStopped.

(** [None]: the event is not possible now. *)
Definition step (st : serverPools) (ev : event) : option serverPools :=
  match ev with
  | EStart scope svc pinned now =>
      Some (with_threads (ps_threads st ++
        [{| t_key := pooledKey SHA256 scope svc; t_vault := as_VaultID scope; t_svc := svc; t_pinned := pinned;
            t_deadline := time_Add now (po_QueueWait opts); t_waiting := false; t_phase := Trying |}]) st)
  | ETurn n now live order =>
      t ← ps_threads st !! n;
      match t_phase t with Trying => Some (acquire_turn n t now live order st) | _ => None end
  | EWake n now cancelled =>
      t ← ps_threads st !! n;
      match t_phase t with
      | Sleeping seen =>
          b ← ps_budgets st !! ds_Addr (t_svc t);
          if negb (b_changed b =? seen) || (t_deadline t <=? now) || cancelled
          then Some (if cancelled then finish n t (Finished (Some ErrContext)) st else set_thread n (with_phase Trying t) st)
          else None
      | _ => None
      end
  | EUsable n now =>
      t ← ps_threads st !! n;
      let r := reserve (t_key t) now st in
      let dial := λ '(c, st), set_thread n (with_phase (Dialing c) t) st in
      match t_phase t, r with
      | Opening, Some r => Some (dial r)
      | Opening, None => Some (set_thread n (with_phase WantMint t) st)
      | Locked, Some r => Some (unlock_mint (t_key t) (dial r))
      | Locked, None => Some (set_thread n (with_phase Minting t) st)
      | Minted, Some r => Some (unlock_mint (t_key t) (dial r))
      | Minted, None => Some (unlock_mint (t_key t) (set_thread n (with_phase OpenFailed t) st))
      | _, _ => None
      end
  | ELock n =>
      t ← ps_threads st !! n; p ← ps_pools st !! t_key t;
      match t_phase t with
      | WantMint => if sp_mintMu p then None
                    else Some (upd_pool (t_key t) (with_mintMu true) (set_thread n (with_phase Locked t) st))
      | _ => None
      end
  | EMint n m =>
      t ← ps_threads st !! n;
      match t_phase t with
      | Minting =>
          let '(st, ok) := mintLocked (t_key t) m st in
          Some (if ok then set_thread n (with_phase Minted t) st
                else unlock_mint (t_key t) (set_thread n (with_phase OpenFailed t) st))
      | _ => None
      end
  | EDial n success =>
      t ← ps_threads st !! n;
      match t_phase t with
      | Dialing c => let '(st, ph) := dialed (t_key t) c success st in Some (set_thread n (with_phase ph t) st)
      | _ => None
      end
  | EOpened n =>
      t ← ps_threads st !! n;
      match t_phase t with
      | Opened i => Some (finish n t (Holding i) (take_conn t i st))
      | OpenFailed => Some (finish n t (Finished (Some ErrOpen))
                              (upd_budget (ds_Addr (t_svc t)) (λ b, notify (with_bopen (b_open b - 1) b)) st))
      | _ => None
      end
  | EPin n =>
      t ← ps_threads st !! n;
      match t_phase t with
      | Holding i =>
          cn ← ps_conns st !! i;
          if sc_pinned cn then None else Some (fst (pin i st))
      | _ => None
      end
  | ERetire n =>
      t ← ps_threads st !! n;
      match t_phase t with
      | Holding i => cn ← ps_conns st !! i; Some (retire (sc_cred cn) st)
      | _ => None
      end
  | ERelease n reusable now =>
      t ← ps_threads st !! n;
      match t_phase t with
      | Holding i => Some (set_thread n (with_phase (Finished None) t) (release i reusable now st))
      | _ => None
      end
  | EMaintain now live addrs order => if ps_stopped st then None else Some (maintain now live addrs order st)
  | ERotateLock r =>
      x ← ps_rotations st !! r;
      match x with
      | (k, RWant) =>
          p ← ps_pools st !! k;
          if sp_mintMu p then None
          else Some (upd_pool k (with_mintMu true) (with_rotations (<[r := (k, RMinting)]> (ps_rotations st)) st))
      | _ => None
      end
  | ERotateMint r m =>
      x ← ps_rotations st !! r;
      match x with
      | (k, RMinting) =>
          Some (unlock_mint k (with_rotations (<[r := (k, RClear)]> (ps_rotations st)) (fst (mintLocked k m st))))
      | _ => None
      end
  | ERotateClear r =>
      x ← ps_rotations st !! r;
      match x with
      | (k, RClear) => Some (upd_pool k (with_minting false) (with_rotations (<[r := (k, RDone)]> (ps_rotations st)) st))
      | _ => None
      end
  | EClose order => Some (close order st)
  | EStopped => if ps_closed st then Some (with_stopped true st) else None
  end.

Inductive reachable : serverPools → Prop :=
| reach_init : reachable newServerPools
| reach_step st ev st' : reachable st → step st ev = Some st' → reachable st'.
End Ops.
