(* ===== verification/PgPoolInv.v ===== *)
(** * Accounting of the connection pool

    [core] is what the accounting depends on: which connections and credentials
    exist, which connections are open on which credential, the idle lists, the
    budgets' counters and where each checkout stands.  [cinv] is its invariant;
    its first section shows that every transition of the core keeps it, the
    second that every step of [PgPool] is a sequence of such transitions. *)

From S2P Require Import Prelude GoString GoStrconv PgPool.

(** ** Counting *)

Fixpoint countb {A} (f : A → bool) (l : list A) : Z :=
  match l with [] => 0 | x :: l' => Z.b2z (f x) + countb f l' end.

Lemma countb_app {A} (f : A → bool) l k : countb f (l ++ k) = countb f l + countb f k.
Proof. induction l as [|x l IH]; cbn; [done|]. rewrite IH. lia. Qed.

Lemma countb_nonneg {A} (f : A → bool) l : 0 <= countb f l.
Proof. induction l as [|x l IH]; cbn; [done|]. destruct (f x); cbn; lia. Qed.

Lemma countb_insert {A} (f : A → bool) l n x y :
  l !! n = Some x → countb f (<[n := y]> l) = countb f l - Z.b2z (f x) + Z.b2z (f y).
Proof.
  revert n. induction l as [|z l IH]; intros [|n] H; try done.
  - injection H as ->. change (<[0%nat:=y]> (x :: l)) with (y :: l). cbn [countb]. lia.
  - change (<[S n:=y]> (z :: l)) with (z :: <[n:=y]> l). cbn [countb]. rewrite (IH n H). lia.
Qed.

Lemma countb_ext {A} (f g : A → bool) l : (∀ x, x ∈ l → f x = g x) → countb f l = countb g l.
Proof.
  induction l as [|x l IH]; intros H; cbn; [done|]. rewrite (H x) by left. f_equal. apply IH.
  intros y Hy. apply H. by right.
Qed.

Lemma countb_one {A} (f g : A → bool) l x :
  NoDup l → x ∈ l → (∀ y, y ∈ l → y ≠ x → f y = g y) → countb g l = countb f l - Z.b2z (f x) + Z.b2z (g x).
Proof.
  induction 1 as [|y l Hy Hl IH]; intros Hx Hfg; [by inversion Hx|]. cbn.
  apply elem_of_cons in Hx as [<-|Hx].
  - rewrite (countb_ext f g l); [lia|]. intros z Hz. apply Hfg; [by right|]. by intros ->.
  - rewrite IH; [|done|intros z ? ?; apply Hfg; [by right|done]]. rewrite (Hfg y); [lia|left|]. by intros ->.
Qed.

Lemma countb_pos {A} (f : A → bool) l : 0 < countb f l → ∃ n x, l !! n = Some x ∧ f x = true.
Proof.
  induction l as [|x l IH]; cbn; [lia|]. destruct (f x) eqn:E; cbn.
  - intros _. by exists 0%nat, x.
  - intros H. destruct IH as (n & y & Hn & Hy); [lia|]. by exists (S n), y.
Qed.

(** ** The core *)

Record core := {
  co_conns : list (nat * poolKey);
  co_creds : list (Z * gset nat);
  co_idle : gmap poolKey (list nat);
  co_open : gmap bytes Z;
  co_threads : list (poolKey * phase);
}.

Definition liveb (co : core) (i : nat) : bool :=
  match co_conns co !! i with
  | Some (c, _) => match co_creds co !! c with Some (_, s) => bool_decide (i ∈ s) | None => false end
  | None => false
  end.

Definition at_addr (co : core) (a : bytes) (i : nat) : bool :=
  match co_conns co !! i with Some (_, k) => bool_decide (k_addr k = a) | None => false end.

(** A unit of the budget is taken but no connection exists yet. *)
Definition reserved (ph : phase) : bool :=
  match ph with
  | Opening | WantMint | Locked | Minting | Minted | Dialing _ | OpenFailed => true
  | _ => false
  end.
Definition dialing (c : nat) (ph : phase) : bool := match ph with Dialing d => (d =? c)%nat | _ => false end.
Definition holds (ph : phase) : option nat := match ph with Opened i | Holding i => Some i | _ => None end.

Definition live_count (co : core) (a : bytes) : Z :=
  countb (λ i, liveb co i && at_addr co a i) (seq 0 (length (co_conns co))).
Definition reserved_count (co : core) (a : bytes) : Z :=
  countb (λ '(k, ph), reserved ph && bool_decide (k_addr k = a)) (co_threads co).
Definition dialing_count (co : core) (c : nat) : Z := countb (λ '(_, ph), dialing c ph) (co_threads co).
Definition open_of (co : core) (a : bytes) : Z := default 0 (co_open co !! a).

(** The counters are exact. *)
Record counted (co : core) : Prop := {
  i_open : ∀ c n s i, co_creds co !! c = Some (n, s) → i ∈ s →
    ∃ k, co_conns co !! i = Some (c, k) ∧ is_Some (co_idle co !! k);
  i_conns : ∀ c n s, co_creds co !! c = Some (n, s) → n = Z.of_nat (size s) + dialing_count co c;
  i_dial : ∀ m k c, co_threads co !! m = Some (k, Dialing c) → is_Some (co_creds co !! c);
  i_pool : ∀ m k ph, co_threads co !! m = Some (k, ph) → reserved ph = true → is_Some (co_idle co !! k);
  i_budget : ∀ a, open_of co a = live_count co a + reserved_count co a;
}.

(** Every open connection has one owner: an idle list, a checkout, or the code
    that runs, which has those of [X] in hand. *)
Record own (X : list nat) (co : core) : Prop := {
  i_idle : ∀ k l i, co_idle co !! k = Some l → i ∈ l → liveb co i = true ∧ ∃ c, co_conns co !! i = Some (c, k);
  i_nodup : ∀ k l, co_idle co !! k = Some l → NoDup l;
  i_held : ∀ m k ph i, co_threads co !! m = Some (k, ph) → holds ph = Some i →
    liveb co i = true ∧ (∃ c, co_conns co !! i = Some (c, k)) ∧ (∀ k l, co_idle co !! k = Some l → i ∉ l);
  i_excl : ∀ m m' k k' ph ph' i, co_threads co !! m = Some (k, ph) → co_threads co !! m' = Some (k', ph') →
    holds ph = Some i → holds ph' = Some i → m = m';
  i_mine : NoDup X ∧ ∀ i, i ∈ X → liveb co i = true ∧ (∀ k l, co_idle co !! k = Some l → i ∉ l) ∧
    (∀ m k ph, co_threads co !! m = Some (k, ph) → holds ph ≠ Some i);
  i_owned : ∀ i, liveb co i = true →
    (∃ k l, co_idle co !! k = Some l ∧ i ∈ l) ∨
    (∃ m k ph, co_threads co !! m = Some (k, ph) ∧ holds ph = Some i) ∨ i ∈ X;
}.

Record cinv (X : list nat) (co : core) : Prop := { ci_counted : counted co; ci_own : own X co }.

Lemma liveb_true co i : liveb co i = true →
  ∃ c k n s, co_conns co !! i = Some (c, k) ∧ co_creds co !! c = Some (n, s) ∧ i ∈ s.
Proof.
  unfold liveb. destruct (co_conns co !! i) as [[c k]|] eqn:Ei; [|done].
  destruct (co_creds co !! c) as [[n s]|] eqn:Ec; [|done]. intros H%bool_decide_eq_true.
  exists c, k, n, s. by split_and!.
Qed.

Lemma live_lt co i : liveb co i = true → i ∈ seq 0 (length (co_conns co)).
Proof.
  intros (c & k & n & s & Hi & _)%liveb_true. apply elem_of_seq. apply lookup_lt_Some in Hi. lia.
Qed.

(** ** Transitions of the core *)

Definition core_close (i : nat) (co : core) : core :=
  match co_conns co !! i with
  | Some (c, k) =>
      {| co_conns := co_conns co; co_creds := alter (λ '(n, s), (n - 1, s ∖ {[i]})) c (co_creds co);
         co_idle := co_idle co; co_open := alter (λ z, z - 1) (k_addr k) (co_open co); co_threads := co_threads co |}
  | None => co
  end.

Lemma countb_elem {A} (f : A → bool) l x : x ∈ l → f x = true → 0 < countb f l.
Proof.
  induction l as [|y l IH]; intros Hx Hf; [by inversion Hx|]. cbn.
  pose proof (countb_nonneg f l). apply elem_of_cons in Hx as [<-|Hx]; [rewrite Hf; cbn; lia|].
  specialize (IH Hx Hf). destruct (f y); cbn; lia.
Qed.

(** A budget something counts against exists, so its counter can be changed. *)
Lemma open_alter (co : core) (f : Z → Z) (a b : bytes) :
  counted co → 0 < live_count co a + reserved_count co a →
  default 0 (alter f a (co_open co) !! b) = if bool_decide (b = a) then f (open_of co a) else open_of co b.
Proof.
  intros Hk Hp. pose proof (i_budget _ Hk a) as Hb. unfold open_of in *.
  destruct (co_open co !! a) as [z|] eqn:Ez; cbn in Hb; [|lia].
  case_bool_decide as E.
  - subst. by rewrite lookup_alter_eq, Ez.
  - by rewrite lookup_alter_ne by congruence.
Qed.

Lemma live_pos co i c k : liveb co i = true → co_conns co !! i = Some (c, k) → 0 < live_count co (k_addr k).
Proof.
  intros Hl Hi. apply countb_elem with i; [by apply live_lt|]. rewrite Hl. unfold at_addr. rewrite Hi.
  by apply bool_decide_eq_true.
Qed.

Lemma reserved_nonneg co a : 0 <= reserved_count co a.
Proof. apply countb_nonneg. Qed.
Lemma live_nonneg co a : 0 <= live_count co a.
Proof. apply countb_nonneg. Qed.

Lemma close_live co i c k j : co_conns co !! i = Some (c, k) →
  liveb (core_close i co) j = if (j =? i)%nat then false else liveb co j.
Proof.
  intros Hi. unfold core_close. rewrite Hi. unfold liveb. cbn.
  destruct (co_conns co !! j) as [[c' k']|] eqn:Ej; [|by destruct (j =? i)%nat].
  destruct (decide (c' = c)) as [->|Hne].
  - rewrite list_lookup_alter_eq. destruct (co_creds co !! c) as [[n s]|] eqn:Hc; cbn; [|by destruct (j =? i)%nat].
    destruct (Nat.eqb_spec j i) as [->|Hji].
    + apply bool_decide_eq_false. set_solver.
    + apply bool_decide_ext. set_solver.
  - rewrite list_lookup_alter_ne by done. destruct (Nat.eqb_spec j i) as [->|Hji]; [congruence|done].
Qed.

Lemma close_count co i c k a : liveb co i = true → co_conns co !! i = Some (c, k) →
  live_count (core_close i co) a = live_count co a - Z.b2z (bool_decide (a = k_addr k)).
Proof.
  intros Hl Hi. unfold live_count. replace (length (co_conns (core_close i co))) with (length (co_conns co))
    by (unfold core_close; by rewrite Hi).
  assert (Hat : ∀ j, at_addr (core_close i co) a j = at_addr co a j).
  { intros j. unfold at_addr, core_close. by rewrite Hi. }
  rewrite (countb_one (λ j, liveb co j && at_addr co a j) _ _ i (NoDup_seq _ _) (live_lt _ _ Hl)).
  - rewrite (close_live co i c k i Hi), Nat.eqb_refl, Hl. cbn. unfold at_addr. rewrite Hi.
    replace (bool_decide (k_addr k = a)) with (bool_decide (a = k_addr k)) by (apply bool_decide_ext; done). lia.
  - intros j _ Hj. rewrite (close_live co i c k j Hi), Hat. by destruct (Nat.eqb_spec j i).
Qed.

Lemma size_remove (s : gset nat) i : i ∈ s → size s = S (size (s ∖ {[i]})).
Proof.
  intros Hi. rewrite size_difference by set_solver. rewrite size_singleton.
  assert (size s ≠ 0%nat); [|lia]. apply size_non_empty_iff. set_solver.
Qed.

Lemma counted_close i co : liveb co i = true → counted co → counted (core_close i co).
Proof.
  intros Hl Hk. destruct (liveb_true _ _ Hl) as (c & k & n & s & Hi & Hc & His).
  pose proof (live_pos _ _ _ _ Hl Hi) as Hpos. pose proof (λ a, close_count co i c k a Hl Hi) as Hcount.
  revert Hcount. unfold core_close. rewrite Hi. intros Hcount.
  split; cbn [co_conns co_creds co_idle co_open co_threads] in *.
  - intros c' n' s' j Hc' Hj. destruct (decide (c' = c)) as [->|Hne].
    + rewrite list_lookup_alter_eq, Hc in Hc'. injection Hc' as <- <-. apply (i_open _ Hk c n s j Hc). set_solver.
    + rewrite list_lookup_alter_ne in Hc' by done. by apply (i_open _ Hk c' n' s' j).
  - intros c' n' s' Hc'. unfold dialing_count. cbn. destruct (decide (c' = c)) as [->|Hne].
    + rewrite list_lookup_alter_eq, Hc in Hc'. injection Hc' as <- <-.
      pose proof (i_conns _ Hk c n s Hc) as E. unfold dialing_count in E. rewrite (size_remove s i His) in E. lia.
    + rewrite list_lookup_alter_ne in Hc' by done. by apply (i_conns _ Hk c' n' s').
  - intros m k' c' Ht. destruct (i_dial _ Hk m k' c' Ht) as [x Hx]. destruct (decide (c' = c)) as [->|Hne].
    + rewrite list_lookup_alter_eq, Hx. by eexists.
    + rewrite list_lookup_alter_ne by done. by eexists.
  - apply (i_pool _ Hk).
  - intros a. rewrite Hcount. unfold open_of. cbn. pose proof (reserved_nonneg co (k_addr k)).
    rewrite (open_alter co _ (k_addr k) a Hk) by lia. pose proof (i_budget _ Hk a).
    unfold reserved_count. cbn. fold (reserved_count co a). case_bool_decide; subst; cbn [Z.b2z]; lia.
Qed.

Lemma own_close i X co : own (i :: X) co → own X (core_close i co).
Proof.
  intros Ho. destruct (i_mine _ _ Ho) as [[HiX HX]%NoDup_cons Hm].
  destruct (Hm i ltac:(left)) as (Hl & Hni & Hnh).
  destruct (liveb_true _ _ Hl) as (c & k & n & s & Hi & _ & _).
  pose proof (λ j, close_live co i c k j Hi) as Hlive.
  assert (Hother : ∀ j, j ≠ i → liveb co j = true → liveb (core_close i co) j = true).
  { intros j Hj Hlj. rewrite Hlive. by destruct (Nat.eqb_spec j i). }
  revert Hlive Hother. unfold core_close. rewrite Hi. intros Hlive Hother.
  split; cbn [co_conns co_creds co_idle co_open co_threads] in *.
  - intros k' l j Hk' Hj. destruct (i_idle _ _ Ho k' l j Hk' Hj) as [Hlj ?]. split; [|done].
    apply Hother; [|done]. intros ->. by apply (Hni k' l).
  - apply (i_nodup _ _ Ho).
  - intros m k' ph j Ht Hh. destruct (i_held _ _ Ho m k' ph j Ht Hh) as (Hlj & ? & ?). split_and!; [|done|done].
    apply Hother; [|done]. intros ->. by apply (Hnh m k' ph).
  - apply (i_excl _ _ Ho).
  - split; [done|]. intros j Hj. destruct (Hm j ltac:(by right)) as (? & ? & ?). split_and!; [|done|done].
    apply Hother; [|done]. by intros ->.
  - intros j Hlj. rewrite Hlive in Hlj. destruct (Nat.eqb_spec j i) as [E|Hji]; [done|].
    destruct (i_owned _ _ Ho j Hlj) as [?|[?|[?|?]%elem_of_cons]]; [by left|by right; left|done|by right; right].
Qed.

Lemma cinv_close i X co : cinv (i :: X) co → cinv X (core_close i co).
Proof.
  intros [Hk Ho]. split; [|by apply own_close]. apply counted_close; [|done].
  destruct (i_mine _ _ Ho) as [_ Hm]. apply Hm. left.
Qed.

Definition set_idle (k : poolKey) (l : list nat) (co : core) : core :=
  {| co_conns := co_conns co; co_creds := co_creds co; co_idle := <[k := l]> (co_idle co); co_open := co_open co;
     co_threads := co_threads co |}.

Lemma counted_idle k l co : counted co → counted (set_idle k l co).
Proof.
  intros Hk. assert (Hdom : ∀ k', is_Some (co_idle co !! k') → is_Some (<[k:=l]> (co_idle co) !! k')).
  { intros k' Hs. destruct (decide (k = k')) as [->|]; [by rewrite lookup_insert_eq|by rewrite lookup_insert_ne]. }
  destruct Hk as [H1 H2 H3 H4 H5]. split; [|done|done| |done].
  - intros c n s i Hc Hi. destruct (H1 c n s i Hc Hi) as (k' & ? & ?). exists k'. auto.
  - intros m k' ph Ht Hr. apply Hdom. by apply (H4 m k' ph).
Qed.

(** Connections leave an idle list for the hands of the running code. *)
Lemma own_pop k l ys rest X co :
  co_idle co !! k = Some l → l ≡ₚ ys ++ rest → own X co → own (ys ++ X) (set_idle k rest co).
Proof.
  intros Hk Hp Ho. pose proof (i_nodup _ _ Ho k l Hk) as Hnd. rewrite Hp in Hnd.
  apply NoDup_app in Hnd as (Hny & Hdis & Hnr).
  assert (Hin : ∀ i, i ∈ l ↔ i ∈ ys ∨ i ∈ rest) by (intros i; by rewrite Hp, elem_of_app).
  assert (Hsub : ∀ i, (∀ k l, co_idle co !! k = Some l → i ∉ l) →
    ∀ k' l', co_idle (set_idle k rest co) !! k' = Some l' → i ∉ l').
  { intros i Hni k' l'. cbn. rewrite lookup_insert_Some. intros [[<- <-]|[_ ?]] Hi; [|by apply (Hni k' l')].
    apply (Hni k l Hk), Hin. by right. }
  assert (Hys : ∀ i, i ∈ ys → ∀ k' l', co_idle (set_idle k rest co) !! k' = Some l' → i ∉ l').
  { intros i Hi k' l'. cbn. rewrite lookup_insert_Some. intros [[<- <-]|[Hne Hk']] Hil; [by apply (Hdis i)|].
    destruct (i_idle _ _ Ho k' l' i Hk' Hil) as (_ & c1 & E1), (i_idle _ _ Ho k l i Hk) as (_ & c2 & E2);
      [apply Hin; by left|congruence]. }
  split.
  - intros k' l' i Hk' Hi. cbn in Hk'. apply lookup_insert_Some in Hk' as [[<- <-]|[_ Hk']];
      [apply (i_idle _ _ Ho k l i Hk), Hin; by right|by apply (i_idle _ _ Ho k' l')].
  - intros k' l' Hk'. cbn in Hk'. apply lookup_insert_Some in Hk' as [[<- <-]|[_ Hk']]; [done|by apply (i_nodup _ _ Ho k')].
  - intros m k' ph i Ht Hh. destruct (i_held _ _ Ho m k' ph i Ht Hh) as (? & ? & Hni). split_and!; [done|done|by apply Hsub].
  - apply (i_excl _ _ Ho).
  - destruct (i_mine _ _ Ho) as [HX Hm]. split.
    + apply NoDup_app. split_and!; [done| |done]. intros i Hi HiX. destruct (Hm i HiX) as (_ & Hni & _).
      apply (Hni k l Hk), Hin. by left.
    + intros i [Hi|Hi]%elem_of_app.
      * assert (Hil : i ∈ l) by (apply Hin; by left). split_and!; [by apply (i_idle _ _ Ho k l)|by apply Hys|].
        intros m k' ph Ht Hh. destruct (i_held _ _ Ho m k' ph i Ht Hh) as (_ & _ & Hni). by apply (Hni k l).
      * destruct (Hm i Hi) as (? & Hni & ?). split_and!; [done|by apply Hsub|done].
  - intros i Hl. destruct (i_owned _ _ Ho i Hl) as [(k' & l' & Hk' & Hi)|[?|?]]; [|by right; left|right; right; apply elem_of_app; by right].
    destruct (decide (k = k')) as [<-|Hne].
    + assert (l' = l) as -> by congruence. apply Hin in Hi as [Hi|Hi]; [right; right; apply elem_of_app; by left|].
      left. exists k, rest. cbn. by rewrite lookup_insert_eq.
    + left. exists k', l'. cbn. by rewrite lookup_insert_ne.
Qed.

Lemma cinv_pop k l ys rest X co :
  co_idle co !! k = Some l → l ≡ₚ ys ++ rest → cinv X co → cinv (ys ++ X) (set_idle k rest co).
Proof. intros Hk Hp [Hc Ho]. split; [by apply counted_idle|by eapply own_pop]. Qed.

(** A connection in hand joins its pool's idle list. *)
Lemma cinv_push k l i c X co :
  co_idle co !! k = Some l → co_conns co !! i = Some (c, k) → cinv (i :: X) co → cinv X (set_idle k (l ++ [i]) co).
Proof.
  intros Hk Hi [Hc Ho]. split; [by apply counted_idle|].
  destruct (i_mine _ _ Ho) as [[HiX HX]%NoDup_cons Hm]. destruct (Hm i ltac:(left)) as (Hl & Hni & Hnh).
  assert (Hsub : ∀ j, (∀ k l, co_idle co !! k = Some l → j ∉ l) → j ≠ i →
    ∀ k' l', co_idle (set_idle k (l ++ [i]) co) !! k' = Some l' → j ∉ l').
  { intros j Hnj Hne k' l'. cbn. rewrite lookup_insert_Some. intros [[<- <-]|[_ ?]]; [|by apply (Hnj k' l')].
    intros [?| ->%list_elem_of_singleton]%elem_of_app; [by apply (Hnj k l)|done]. }
  split.
  - intros k' l' j Hk' Hj. cbn in Hk'. apply lookup_insert_Some in Hk' as [[<- <-]|[_ Hk']]; [|by apply (i_idle _ _ Ho k' l')].
    apply elem_of_app in Hj as [Hj| ->%list_elem_of_singleton]; [by apply (i_idle _ _ Ho k l)|]. split; [done|by exists c].
  - intros k' l' Hk'. cbn in Hk'. apply lookup_insert_Some in Hk' as [[<- <-]|[_ Hk']]; [|by apply (i_nodup _ _ Ho k')].
    apply NoDup_app. split_and!; [by apply (i_nodup _ _ Ho k)| |apply NoDup_singleton].
    intros j Hj ->%list_elem_of_singleton. by apply (Hni k l).
  - intros m k' ph j Ht Hh. destruct (i_held _ _ Ho m k' ph j Ht Hh) as (? & ? & Hnj). split_and!; [done|done|].
    apply Hsub; [done|]. intros ->. by apply (Hnh m k' ph).
  - apply (i_excl _ _ Ho).
  - split; [done|]. intros j Hj. destruct (Hm j ltac:(by right)) as (? & Hnj & ?). split_and!; [done| |done].
    apply Hsub; [done|]. by intros ->.
  - intros j Hlj. destruct (i_owned _ _ Ho j Hlj) as [(k' & l' & Hk' & Hj)|[?|[->|?]%elem_of_cons]]; [|by right; left| |by right; right].
    + left. destruct (decide (k = k')) as [<-|Hne]; [exists k, (l ++ [i])|exists k', l']; cbn.
      * rewrite lookup_insert_eq. split; [done|]. assert (l' = l) as -> by congruence. apply elem_of_app. by left.
      * by rewrite lookup_insert_ne.
    + left. exists k, (l ++ [i]). cbn. rewrite lookup_insert_eq. split; [done|]. apply elem_of_app. right. by left.
Qed.

Lemma cinv_perm X Y co : X ≡ₚ Y → cinv X co → cinv Y co.
Proof.
  intros HP [Hc Ho]. split; [done|]. destruct Ho as [H1 H2 H3 H4 [H5 H6] H7]. split; try done.
  - split; [by rewrite <- HP|]. intros i Hi. apply H6. by rewrite HP.
  - intros i Hi. destruct (H7 i Hi) as [?|[?|?]]; [by left|by right; left|right; right; by rewrite <- HP].
Qed.

(** Ownership depends on the checkouts only through what they hold. *)
Lemma own_threads X co co' :
  own X co → (∀ i, liveb co' i = liveb co i) → co_conns co' = co_conns co → co_idle co' = co_idle co →
  (∀ m, prod_map id holds <$> co_threads co' !! m = prod_map id holds <$> co_threads co !! m) → own X co'.
Proof.
  intros Ho Hlive En Ei Hth.
  assert (Hold : ∀ co1 co2, (∀ m, prod_map id holds <$> co_threads co2 !! m = prod_map id holds <$> co_threads co1 !! m) →
    ∀ m k p, co_threads co2 !! m = Some (k, p) → ∃ p', co_threads co1 !! m = Some (k, p') ∧ holds p' = holds p).
  { intros co1 co2 Hm m k p Hp. specialize (Hm m). rewrite Hp in Hm.
    destruct (co_threads co1 !! m) as [[k' p']|]; cbn in Hm; [|done]. injection Hm as -> E. by exists p'. }
  split.
  - intros k l i. rewrite Ei, Hlive, En. apply (i_idle _ _ Ho).
  - rewrite Ei. apply (i_nodup _ _ Ho).
  - intros m k p i Hm Hp. destruct (Hold co co' Hth m k p Hm) as (p' & Hm' & E). rewrite Hlive, En, Ei.
    apply (i_held _ _ Ho m k p'); [done|congruence].
  - intros m m' k1 k2 p p' i H1 H2 Hp Hp'.
    destruct (Hold co co' Hth m k1 p H1) as (q & Hq & ?), (Hold co co' Hth m' k2 p' H2) as (q' & Hq' & ?).
    apply (i_excl _ _ Ho m m' k1 k2 q q' i); congruence.
  - destruct (i_mine _ _ Ho) as [HX Hm]. split; [done|]. intros i Hi. rewrite Hlive, Ei. destruct (Hm i Hi) as (? & ? & Hno).
    split_and!; [done|done|]. intros m k p H1 Hp. destruct (Hold co co' Hth m k p H1) as (q & Hq & E).
    apply (Hno m k q Hq). congruence.
  - intros i. rewrite Hlive, Ei. intros Hl. destruct (i_owned _ _ Ho i Hl) as [?|[(m & k & p & Hm & Hp)|?]]; [by left| |by right; right].
    right. left. destruct (Hold co' co ltac:(done) m k p Hm) as (q & Hq & E). exists m, k, q. split; [done|congruence].
Qed.

(** Credentials that differ only in their counters. *)
Definition same_sets (co co' : core) : Prop :=
  ∀ c, snd <$> co_creds co' !! c = snd <$> co_creds co !! c.

Lemma same_sets_live co co' i : same_sets co co' → co_conns co' = co_conns co → liveb co' i = liveb co i.
Proof.
  intros Hs En. unfold liveb. rewrite En. destruct (co_conns co !! i) as [[c k']|]; [|done]. specialize (Hs c).
  destruct (co_creds co' !! c) as [[m s]|], (co_creds co !! c) as [[m' s']|]; cbn in Hs; try done.
  by apply (inj Some) in Hs as ->.
Qed.

(** A checkout moves on and the counters follow its phase. *)
Lemma counted_thread co co' n k ph ph' :
  counted co → co_threads co !! n = Some (k, ph) →
  co_threads co' = <[n := (k, ph')]> (co_threads co) → co_conns co' = co_conns co → co_idle co' = co_idle co →
  same_sets co co' →
  (∀ c m s, co_creds co' !! c = Some (m, s) →
     co_creds co !! c = Some (m + Z.b2z (dialing c ph) - Z.b2z (dialing c ph'), s)) →
  (∀ c, ph' = Dialing c → is_Some (co_creds co !! c)) → (reserved ph' = true → is_Some (co_idle co !! k)) →
  (∀ a, open_of co' a = open_of co a +
     (if bool_decide (k_addr k = a) then Z.b2z (reserved ph') - Z.b2z (reserved ph) else 0)) →
  counted co'.
Proof.
  intros Hk Hn Et En Ei Hset Hcr Hd Hr Hop.
  assert (Hlook : ∀ m k' p, co_threads co' !! m = Some (k', p) →
    (m = n ∧ k' = k ∧ p = ph') ∨ (m ≠ n ∧ co_threads co !! m = Some (k', p))).
  { intros m k' p. rewrite Et, list_lookup_insert_Some. naive_solver. }
  assert (Hsome : ∀ c, is_Some (co_creds co !! c) → is_Some (co_creds co' !! c)).
  { intros c Hc. specialize (Hset c). destruct Hc as [x Hx]. rewrite Hx in Hset.
    destruct (co_creds co' !! c); [by eexists|done]. }
  split.
  - intros c m s i Hc Hi. rewrite En, Ei. by apply (i_open _ Hk c _ s i (Hcr c m s Hc)).
  - intros c m s Hc. pose proof (i_conns _ Hk c _ s (Hcr c m s Hc)) as E. unfold dialing_count in *.
    rewrite Et, (countb_insert _ _ _ _ _ Hn). lia.
  - intros m k' c Hm. apply Hsome. apply Hlook in Hm as [(_ & _ & E)|[_ Hm]]; [by apply Hd|by apply (i_dial _ Hk m k')].
  - intros m k' p Hm Hp. rewrite Ei. apply Hlook in Hm as [(_ & -> & ->)|[_ Hm]]; [by apply Hr|by apply (i_pool _ Hk m k' p)].
  - intros a. rewrite Hop, (i_budget _ Hk a). unfold reserved_count. rewrite Et, (countb_insert _ _ _ _ _ Hn).
    replace (live_count co' a) with (live_count co a).
    + case_bool_decide; rewrite ?andb_true_r, ?andb_false_r; cbn [Z.b2z]; lia.
    + unfold live_count. rewrite En. apply countb_ext. intros i _. rewrite (same_sets_live co co') by done.
      unfold at_addr. by rewrite En.
Qed.

Lemma cinv_thread X co co' n k ph ph' :
  cinv X co → co_threads co !! n = Some (k, ph) → holds ph' = holds ph →
  co_threads co' = <[n := (k, ph')]> (co_threads co) → co_conns co' = co_conns co → co_idle co' = co_idle co →
  same_sets co co' →
  (∀ c m s, co_creds co' !! c = Some (m, s) →
     co_creds co !! c = Some (m + Z.b2z (dialing c ph) - Z.b2z (dialing c ph'), s)) →
  (∀ c, ph' = Dialing c → is_Some (co_creds co !! c)) → (reserved ph' = true → is_Some (co_idle co !! k)) →
  (∀ a, open_of co' a = open_of co a +
     (if bool_decide (k_addr k = a) then Z.b2z (reserved ph') - Z.b2z (reserved ph) else 0)) →
  cinv X co'.
Proof.
  intros [Hk Ho] Hn Hh Et En Ei Hset Hcr Hd Hr Hop. split; [by apply (counted_thread co co' n k ph ph')|].
  apply (own_threads X co); [done|intros i; by apply same_sets_live|done|done|].
  intros m. rewrite Et. destruct (decide (m = n)) as [->|Hne].
  - rewrite list_lookup_insert_eq, Hn by (by eapply lookup_lt_Some). cbn. by rewrite Hh.
  - by rewrite list_lookup_insert_ne.
Qed.

Definition set_ph (n : nat) (k : poolKey) (ph : phase) (co : core) : core :=
  {| co_conns := co_conns co; co_creds := co_creds co; co_idle := co_idle co; co_open := co_open co;
     co_threads := <[n := (k, ph)]> (co_threads co) |}.

(** Phases no counter depends on. *)
Definition quiet (ph : phase) : bool := negb (reserved ph).

Lemma quiet_counts ph : quiet ph = true → reserved ph = false ∧ ∀ c, dialing c ph = false.
Proof. by destruct ph. Qed.

Lemma counted_quiet co n k ph ph' :
  counted co → co_threads co !! n = Some (k, ph) → quiet ph = true → quiet ph' = true → counted (set_ph n k ph' co).
Proof.
  intros Hk Hn [Hr Hd]%quiet_counts [Hr' Hd']%quiet_counts.
  apply (counted_thread co _ n k ph ph'); try done.
  - intros c m s Hc. rewrite Hd, Hd'. cbn in *. rewrite Hc. do 2 f_equal. lia.
  - intros c ->. cbn in Hr'. done.
  - congruence.
  - intros a. rewrite Hr, Hr'. unfold open_of. cbn. case_bool_decide; lia.
Qed.

Lemma set_ph_lookup n k ph k0 ph0 co m k' p : co_threads co !! n = Some (k0, ph0) →
  co_threads (set_ph n k ph co) !! m = Some (k', p) →
  (m = n ∧ k' = k ∧ p = ph) ∨ (m ≠ n ∧ co_threads co !! m = Some (k', p)).
Proof. intros Hn. cbn. rewrite list_lookup_insert_Some. naive_solver. Qed.

(** A checkout gets a connection from the running code. *)
Lemma cinv_take X co n k ph i c :
  cinv (i :: X) co → co_threads co !! n = Some (k, ph) → quiet ph = true → holds ph = None →
  co_conns co !! i = Some (c, k) → cinv X (set_ph n k (Holding i) co).
Proof.
  intros [Hk Ho] Hn Hq Hh Hi. split; [by apply (counted_quiet co n k ph)|].
  destruct (i_mine _ _ Ho) as [[HiX HX]%NoDup_cons Hm]. destruct (Hm i ltac:(left)) as (Hl & Hni & Hnh).
  split; [apply (i_idle _ _ Ho)|apply (i_nodup _ _ Ho)|..].
  - intros m k' p j Hp Hj. destruct (set_ph_lookup _ _ _ _ _ _ _ _ _ Hn Hp) as [(-> & -> & ->)|[_ Hp']];
      [|by apply (i_held _ _ Ho m k' p)].
    injection Hj as <-. split_and!; [done|by exists c|done].
  - intros m m' k1 k2 p p' j H1 H2 Hj Hj'.
    destruct (set_ph_lookup _ _ _ _ _ _ _ _ _ Hn H1) as [(-> & -> & ->)|[E1 H1']],
      (set_ph_lookup _ _ _ _ _ _ _ _ _ Hn H2) as [(-> & -> & ->)|[E2 H2']]; [done|..].
    + injection Hj as <-. by destruct (Hnh m' k2 p').
    + injection Hj' as <-. by destruct (Hnh m k1 p).
    + by apply (i_excl _ _ Ho m m' k1 k2 p p' j).
  - split; [done|]. intros j Hj. destruct (Hm j ltac:(by right)) as (? & ? & Hno). split_and!; [done|done|].
    intros m k' p Hp Hj'. destruct (set_ph_lookup _ _ _ _ _ _ _ _ _ Hn Hp) as [(-> & -> & ->)|[_ Hp']];
      [|by apply (Hno m k' p)]. injection Hj' as <-. done.
  - intros j Hlj. destruct (i_owned _ _ Ho j Hlj) as [?|[(m & k' & p & Hp & Hj)|[->|?]%elem_of_cons]]; [by left| | |by right; right].
    + right. left. exists m, k', p. cbn. rewrite list_lookup_insert_ne; [done|]. intros ->. congruence.
    + right. left. exists n, k, (Holding i). cbn. by rewrite list_lookup_insert_eq by (by eapply lookup_lt_Some).
Qed.

(** A checkout gives its connection up. *)
Lemma cinv_give X co n k ph i :
  cinv X co → co_threads co !! n = Some (k, Holding i) → quiet ph = true → holds ph = None →
  cinv (i :: X) (set_ph n k ph co).
Proof.
  intros [Hk Ho] Hn Hq Hh. split; [by apply (counted_quiet co n k (Holding i))|].
  destruct (i_mine _ _ Ho) as [HX Hm]. destruct (i_held _ _ Ho n k (Holding i) i Hn eq_refl) as (Hl & Hci & Hni).
  split; [apply (i_idle _ _ Ho)|apply (i_nodup _ _ Ho)|..].
  - intros m k' p j Hp Hj. destruct (set_ph_lookup _ _ _ _ _ _ _ _ _ Hn Hp) as [(-> & -> & ->)|[_ Hp']];
      [congruence|by apply (i_held _ _ Ho m k' p)].
  - intros m m' k1 k2 p p' j H1 H2 Hj Hj'.
    destruct (set_ph_lookup _ _ _ _ _ _ _ _ _ Hn H1) as [(-> & -> & ->)|[E1 H1']],
      (set_ph_lookup _ _ _ _ _ _ _ _ _ Hn H2) as [(-> & -> & ->)|[E2 H2']]; [done|congruence|congruence|].
    by apply (i_excl _ _ Ho m m' k1 k2 p p' j).
  - assert (Hfree : ∀ m k' p, co_threads (set_ph n k ph co) !! m = Some (k', p) → holds p ≠ Some i).
    { intros m k' p Hp Hj. destruct (set_ph_lookup _ _ _ _ _ _ _ _ _ Hn Hp) as [(-> & -> & ->)|[Hne Hp']]; [congruence|].
      destruct Hne. by apply (i_excl _ _ Ho m n k' k p (Holding i) i). }
    split.
    + apply NoDup_cons. split; [|done]. intros HiX. destruct (Hm i HiX) as (_ & _ & Hno). by destruct (Hno n k (Holding i)).
    + intros j [->|Hj]%elem_of_cons; [by split_and!|]. destruct (Hm j Hj) as (? & ? & Hno). split_and!; [done|done|].
      intros m k' p Hp. destruct (set_ph_lookup _ _ _ _ _ _ _ _ _ Hn Hp) as [(-> & -> & ->)|[_ Hp']]; [congruence|by apply (Hno m k' p)].
  - intros j Hlj. destruct (i_owned _ _ Ho j Hlj) as [?|[(m & k' & p & Hp & Hj)|?]]; [by left| |right; right; by right].
    destruct (decide (m = n)) as [->|Hne].
    + right. right. rewrite Hn in Hp. injection Hp as <- <-. injection Hj as <-. left.
    + right. left. exists m, k', p. cbn. by rewrite list_lookup_insert_ne.
Qed.

(** A dial succeeded: the reservation becomes a connection of the checkout. *)
Definition core_dialed (n : nat) (k : poolKey) (c : nat) (co : core) : core :=
  let i := length (co_conns co) in
  {| co_conns := co_conns co ++ [(c, k)]; co_creds := alter (λ '(m, s), (m, {[i]} ∪ s)) c (co_creds co);
     co_idle := co_idle co; co_open := co_open co; co_threads := <[n := (k, Opened i)]> (co_threads co) |}.

Lemma dialed_live co n k c j : counted co → is_Some (co_creds co !! c) →
  liveb (core_dialed n k c co) j = if (j =? length (co_conns co))%nat then true else liveb co j.
Proof.
  intros Hk [[m s] Hc]. unfold liveb, core_dialed. cbn. destruct (Nat.eqb_spec j (length (co_conns co))) as [->|Hj].
  - rewrite list_lookup_middle by done. rewrite list_lookup_alter_eq, Hc. cbn. apply bool_decide_eq_true. set_solver.
  - destruct (co_conns co !! j) as [[c' k']|] eqn:Ej.
    + rewrite lookup_app_l by (by eapply lookup_lt_Some). rewrite Ej. destruct (decide (c' = c)) as [->|Hne].
      * rewrite list_lookup_alter_eq, Hc. cbn. apply bool_decide_ext. set_solver.
      * by rewrite list_lookup_alter_ne.
    + apply lookup_ge_None in Ej. rewrite lookup_ge_None_2; [done|]. rewrite length_app. cbn. lia.
Qed.

Lemma counted_dialed co n k c :
  counted co → co_threads co !! n = Some (k, Dialing c) → counted (core_dialed n k c co).
Proof.
  intros Hk Hn. pose proof (i_dial _ Hk n k c Hn) as Hsome. destruct Hsome as [[m s] Hc].
  assert (Hfresh : ∀ c' m' s', co_creds co !! c' = Some (m', s') → length (co_conns co) ∉ s').
  { intros c' m' s' Hc' Hin. destruct (i_open _ Hk c' m' s' _ Hc' Hin) as (k' & Hi & _).
    apply lookup_lt_Some in Hi. lia. }
  pose proof (λ j, dialed_live co n k c j Hk ltac:(by eexists)) as Hlive.
  split; cbn [co_conns co_creds co_idle co_open co_threads core_dialed].
  - intros c' m' s' j Hc' Hj. destruct (decide (c' = c)) as [->|Hne].
    + rewrite list_lookup_alter_eq, Hc in Hc'. injection Hc' as <- <-. apply elem_of_union in Hj as [->%elem_of_singleton|Hj].
      * exists k. rewrite list_lookup_middle by done. split; [done|]. by apply (i_pool _ Hk n k (Dialing c)).
      * destruct (i_open _ Hk c m s j Hc Hj) as (k' & Hi & ?). exists k'. split; [|done]. by apply lookup_app_l_Some.
    + rewrite list_lookup_alter_ne in Hc' by done. destruct (i_open _ Hk c' m' s' j Hc' Hj) as (k' & Hi & ?).
      exists k'. split; [|done]. by apply lookup_app_l_Some.
  - intros c' m' s' Hc'. unfold dialing_count. cbn. rewrite (countb_insert _ _ _ _ _ Hn). cbn.
    destruct (decide (c' = c)) as [->|Hne].
    + rewrite list_lookup_alter_eq, Hc in Hc'. injection Hc' as <- <-. rewrite Nat.eqb_refl. cbn.
      rewrite size_union, size_singleton by (pose proof (Hfresh c m s Hc); set_solver).
      pose proof (i_conns _ Hk c m s Hc) as E. unfold dialing_count in E. lia.
    + rewrite list_lookup_alter_ne in Hc' by done. rewrite (proj2 (Nat.eqb_neq _ _)) by done. cbn.
      pose proof (i_conns _ Hk c' m' s' Hc') as E. unfold dialing_count in E. lia.
  - intros m' k' c' Ht. apply list_lookup_insert_Some in Ht as [(_ & [=] & _)|[_ Ht]].
    apply lookup_lt_is_Some. rewrite length_alter. apply lookup_lt_is_Some. by apply (i_dial _ Hk m' k').
  - intros m' k' ph Ht Hr. apply list_lookup_insert_Some in Ht as [(_ & [= <- <-] & _)|[_ Ht]]; [done|].
    by apply (i_pool _ Hk m' k' ph).
  - intros a. unfold open_of. cbn. fold (open_of co a). rewrite (i_budget _ Hk a). unfold reserved_count. cbn.
    rewrite (countb_insert _ _ _ _ _ Hn). cbn. unfold live_count. cbn. rewrite length_app, seq_app, countb_app. cbn.
    rewrite Hlive, Nat.eqb_refl. unfold at_addr at 3. cbn. rewrite list_lookup_middle by done. cbn.
    rewrite (countb_ext (λ i, liveb (core_dialed n k c co) i && at_addr (core_dialed n k c co) a i)
      (λ i, liveb co i && at_addr co a i)); [lia|].
    intros j Hj. apply elem_of_seq in Hj. rewrite Hlive, (proj2 (Nat.eqb_neq _ _)) by lia. unfold at_addr. cbn.
    by rewrite lookup_app_l by lia.
Qed.

Lemma own_dialed X co n k c :
  counted co → own X co → co_threads co !! n = Some (k, Dialing c) → own X (core_dialed n k c co).
Proof.
  intros Hk Ho Hn. pose proof (λ j, dialed_live co n k c j Hk (i_dial _ Hk n k c Hn)) as Hlive.
  set (i := length (co_conns co)) in *.
  assert (Hlt : ∀ j, liveb co j = true → j ≠ i ∧ liveb (core_dialed n k c co) j = true).
  { intros j Hj. assert (j ≠ i) by (apply live_lt, elem_of_seq in Hj; unfold i; lia). split; [done|].
    rewrite Hlive. by rewrite (proj2 (Nat.eqb_neq _ _)). }
  assert (Hconn : ∀ j x, co_conns co !! j = Some x → (co_conns co ++ [(c, k)]) !! j = Some x) by (intros; by apply lookup_app_l_Some).
  assert (Hni : ∀ k' l, co_idle co !! k' = Some l → i ∉ l).
  { intros k' l Hk' Hin. destruct (i_idle _ _ Ho k' l i Hk' Hin) as [Hl _]. by destruct (Hlt i Hl). }
  assert (Hno : ∀ m k' ph, co_threads co !! m = Some (k', ph) → holds ph ≠ Some i).
  { intros m k' ph Hm Hh. destruct (i_held _ _ Ho m k' ph i Hm Hh) as [Hl _]. by destruct (Hlt i Hl). }
  assert (Hth : ∀ m k' ph, co_threads (core_dialed n k c co) !! m = Some (k', ph) →
    (m = n ∧ k' = k ∧ ph = Opened i) ∨ (m ≠ n ∧ co_threads co !! m = Some (k', ph))).
  { intros m k' ph. cbn. rewrite list_lookup_insert_Some. naive_solver. }
  split; cbn [co_conns co_idle core_dialed] in *.
  - intros k' l j Hk' Hj. destruct (i_idle _ _ Ho k' l j Hk' Hj) as [Hl [c' Hc']]. split; [by apply Hlt|]. exists c'. auto.
  - apply (i_nodup _ _ Ho).
  - intros m k' ph j Hm Hj. apply Hth in Hm as [(-> & -> & ->)|[_ Hm]].
    + injection Hj as <-. split_and!; [by rewrite Hlive, Nat.eqb_refl| |done]. exists c. by apply list_lookup_middle.
    + destruct (i_held _ _ Ho m k' ph j Hm Hj) as (Hl & [c' Hc'] & ?). split_and!; [by apply Hlt| |done]. exists c'. auto.
  - intros m m' k1 k2 p p' j H1 H2 Hj Hj'. apply Hth in H1 as [(-> & -> & ->)|[E1 H1]], H2 as [(-> & -> & ->)|[E2 H2]]; [done|..].
    + injection Hj as <-. by destruct (Hno m' k2 p').
    + injection Hj' as <-. by destruct (Hno m k1 p).
    + by apply (i_excl _ _ Ho m m' k1 k2 p p' j).
  - destruct (i_mine _ _ Ho) as [HX Hm]. split; [done|]. intros j Hj. destruct (Hm j Hj) as (Hl & ? & Hf).
    split_and!; [by apply Hlt|done|]. intros m k' ph Ht. apply Hth in Ht as [(-> & -> & ->)|[_ Ht]]; [|by apply (Hf m k' ph)].
    intros [= <-]. by destruct (Hlt i Hl).
  - intros j. rewrite Hlive. destruct (Nat.eqb_spec j i) as [->|Hji].
    + intros _. right. left. exists n, k, (Opened i). cbn. by rewrite list_lookup_insert_eq by (by eapply lookup_lt_Some).
    + intros Hl. destruct (i_owned _ _ Ho j Hl) as [?|[(m & k' & ph & Hm & Hh)|?]]; [by left| |by right; right].
      right. left. exists m, k', ph. cbn. rewrite list_lookup_insert_ne; [done|]. intros ->. rewrite Hn in Hm. by simplify_eq.
Qed.

Lemma cinv_dialed X co n k c :
  cinv X co → co_threads co !! n = Some (k, Dialing c) → cinv X (core_dialed n k c co).
Proof. intros [Hk Ho] Hn. split; [by apply counted_dialed|by apply own_dialed]. Qed.

(** New checkouts, credentials, pools and budgets. *)
Definition add_thread (k : poolKey) (co : core) : core :=
  {| co_conns := co_conns co; co_creds := co_creds co; co_idle := co_idle co; co_open := co_open co;
     co_threads := co_threads co ++ [(k, Trying)] |}.
Definition add_cred (co : core) : core :=
  {| co_conns := co_conns co; co_creds := co_creds co ++ [(0, ∅)]; co_idle := co_idle co; co_open := co_open co;
     co_threads := co_threads co |}.

Lemma cinv_add_thread X k co : cinv X co → cinv X (add_thread k co).
Proof.
  intros [Hk Ho].
  assert (Hth : ∀ m k' ph, co_threads (add_thread k co) !! m = Some (k', ph) →
    ph = Trying ∨ co_threads co !! m = Some (k', ph)).
  { intros m k' ph [[_ H]|[_ [= _ <-]]]%lookup_snoc_Some; auto. }
  assert (Hheld : ∀ m k' ph i, co_threads (add_thread k co) !! m = Some (k', ph) → holds ph = Some i →
    co_threads co !! m = Some (k', ph)).
  { intros m k' ph i Hm Hh. apply Hth in Hm as [->|?]; [done|done]. }
  split; split; cbn [co_conns co_creds co_idle co_open add_thread] in *.
  - apply (i_open _ Hk).
  - intros c n s Hc. unfold dialing_count. cbn. rewrite countb_app. cbn. rewrite (i_conns _ Hk c n s Hc). unfold dialing_count. lia.
  - intros m k' c Hm. apply Hth in Hm as [?|Hm]; [done|by apply (i_dial _ Hk m k')].
  - intros m k' ph Hm Hr. apply Hth in Hm as [->|Hm]; [done|by apply (i_pool _ Hk m k' ph)].
  - intros a. change (open_of (add_thread k co) a) with (open_of co a). rewrite (i_budget _ Hk a).
    change (live_count (add_thread k co) a) with (live_count co a). unfold reserved_count. cbn [co_threads add_thread].
    rewrite countb_app. cbn. lia.
  - apply (i_idle _ _ Ho).
  - apply (i_nodup _ _ Ho).
  - intros m k' ph i Hm Hh. apply (i_held _ _ Ho m k' ph); [by apply (Hheld m k' ph i)|done].
  - intros m m' k1 k2 p p' i H1 H2 Hp Hp'. apply (i_excl _ _ Ho m m' k1 k2 p p' i); eauto.
  - destruct (i_mine _ _ Ho) as [HX Hm]. split; [done|]. intros i Hi. destruct (Hm i Hi) as (? & ? & Hf). split_and!; [done|done|].
    intros m k' ph Ht Hh. apply (Hf m k' ph); [by apply (Hheld m k' ph i)|done].
  - intros i Hl. destruct (i_owned _ _ Ho i Hl) as [?|[(m & k' & ph & Hm & Hh)|?]]; [by left| |by right; right].
    right. left. exists m, k', ph. split; [|done]. by apply lookup_app_l_Some.
Qed.

Lemma cinv_add_cred X co : cinv X co → cinv X (add_cred co).
Proof.
  intros [Hk Ho].
  assert (Hcr : ∀ c n s, co_creds (add_cred co) !! c = Some (n, s) →
    co_creds co !! c = Some (n, s) ∨ (c = length (co_creds co) ∧ n = 0 ∧ s = ∅)).
  { intros c n s [[_ H]|[-> [= <- <-]]]%lookup_snoc_Some; auto. }
  assert (Hlive : ∀ i, liveb (add_cred co) i = liveb co i).
  { intros i. unfold liveb. cbn. destruct (co_conns co !! i) as [[c k]|]; [|done].
    destruct (decide (c < length (co_creds co))%nat) as [|Hge].
    - by rewrite lookup_app_l.
    - rewrite (lookup_ge_None_2 (co_creds co)) by lia. rewrite lookup_app_r by lia.
      destruct (c - _)%nat; [|done]. cbn. apply bool_decide_eq_false. set_solver. }
  split; [split|].
  - intros c n s i Hc Hi. apply Hcr in Hc as [Hc|(_ & _ & ->)]; [by apply (i_open _ Hk c n s)|set_solver].
  - intros c n s Hc. apply Hcr in Hc as [Hc|(-> & -> & ->)]; [by apply (i_conns _ Hk)|].
    rewrite size_empty. unfold dialing_count. cbn. destruct (decide (countb (λ '(_, ph), dialing (length (co_creds co)) ph) (co_threads co) = 0)) as [->|Hne]; [done|].
    pose proof (countb_nonneg (λ '(_, ph), dialing (length (co_creds co)) ph) (co_threads co)).
    destruct (countb_pos (λ '(_, ph), dialing (length (co_creds co)) ph) (co_threads co)) as (m & [k ph] & Hm & Hd); [lia|].
    destruct ph; try done. apply Nat.eqb_eq in Hd as ->. destruct (i_dial _ Hk m k _ Hm) as [x Hx].
    apply lookup_lt_Some in Hx. lia.
  - intros m k c Hm. destruct (i_dial _ Hk m k c Hm) as [x Hx]. exists x. by apply lookup_app_l_Some.
  - apply (i_pool _ Hk).
  - intros a. change (open_of (add_cred co) a) with (open_of co a). rewrite (i_budget _ Hk a).
    change (reserved_count (add_cred co) a) with (reserved_count co a). f_equal. apply countb_ext. intros i _. by rewrite Hlive.
  - by apply (own_threads X co).
Qed.

Lemma cinv_add_pool X k co : co_idle co !! k = None → cinv X co → cinv X (set_idle k [] co).
Proof.
  intros Hk [Hc Ho]. split; [by apply counted_idle|].
  assert (Hold : ∀ k' l i, <[k := []]> (co_idle co) !! k' = Some l → i ∈ l → co_idle co !! k' = Some l).
  { intros k' l i. rewrite lookup_insert_Some. intros [[_ <-]|[_ ?]]; [by inversion 1|done]. }
  split; cbn [co_idle co_conns co_threads set_idle].
  - intros k' l i Hl Hi. apply (i_idle _ _ Ho k' l); eauto.
  - intros k' l. rewrite lookup_insert_Some. intros [[_ <-]|[_ ?]]; [constructor|by apply (i_nodup _ _ Ho k')].
  - intros m k' ph i Hm Hh. destruct (i_held _ _ Ho m k' ph i Hm Hh) as (? & ? & Hni). split_and!; [done|done|].
    intros k1 l Hl Hi. apply (Hni k1 l); eauto.
  - apply (i_excl _ _ Ho).
  - destruct (i_mine _ _ Ho) as [HX Hm]. split; [done|]. intros i Hi. destruct (Hm i Hi) as (? & Hni & ?). split_and!; [done| |done].
    intros k1 l Hl Hil. apply (Hni k1 l); eauto.
  - intros i Hl. destruct (i_owned _ _ Ho i Hl) as [(k' & l & Hk' & Hi)|[?|?]]; [|by right; left|by right; right].
    left. exists k', l. rewrite lookup_insert_ne; [done|]. congruence.
Qed.

Lemma cinv_open X co co' :
  cinv X co → co_conns co' = co_conns co → co_creds co' = co_creds co → co_idle co' = co_idle co →
  co_threads co' = co_threads co → (∀ a, open_of co' a = open_of co a) → cinv X co'.
Proof.
  destruct co as [c1 c2 c3 c4 c5], co' as [d1 d2 d3 d4 d5]. cbn. intros [Hk Ho] -> -> -> -> Hop. split.
  - destruct Hk as [H1 H2 H3 H4 H5]. split; try done. intros a. rewrite Hop. apply H5.
  - destruct Ho as [H1 H2 H3 H4 H5 H6]. by split.
Qed.
