(* ===== verification/PgPoolSteps.v ===== *)
(** * Every step of the connection pool keeps the accounting

    [abs] extracts the core from a state of [PgPool]; [ok X] is the invariant of
    states in which the running code has the connections of [X] in hand. *)

From S2P Require Import Prelude GoString GoStrconv PgPool PgPoolInv.

Definition core_conn (cn : serverConn) : nat * poolKey := (sc_cred cn, sc_pool cn).
Definition core_cred (cr : credential) : Z * gset nat := (c_conns cr, c_open cr).
Definition core_thread (t : thread) : poolKey * phase := (t_key t, t_phase t).

Definition abs (st : serverPools) : core :=
  {| co_conns := core_conn <$> ps_conns st; co_creds := core_cred <$> ps_creds st; co_idle := sp_idle <$> ps_pools st;
     co_open := b_open <$> ps_budgets st; co_threads := core_thread <$> ps_threads st |}.

(** A pool's and a checkout's service is at its key's address. *)
Record addr_ok (st : serverPools) : Prop := {
  ao_pool : ∀ (k : poolKey) (p : serverPool), ps_pools st !! k = Some p → ds_Addr (sp_svc p) = k_addr k;
  ao_thread : ∀ n t, ps_threads st !! n = Some t → ds_Addr (t_svc t) = k_addr (t_key t);
}.

Record ok (X : list nat) (st : serverPools) : Prop := { ok_addr : addr_ok st; ok_core : cinv X (abs st) }.

(** ** Updates the core does not see *)

Lemma fmap_alter {A B} (g : A → B) (f : A → A) (h : B → B) i (l : list A) :
  (∀ x, g (f x) = h (g x)) → g <$> alter f i l = alter h i (g <$> l).
Proof.
  intros H. apply list_eq. intros j. destruct (decide (j = i)) as [->|Hj].
  - rewrite list_lookup_fmap, !list_lookup_alter_eq, list_lookup_fmap. destruct (l !! i); cbn; [by rewrite H|done].
  - by rewrite list_lookup_fmap, !list_lookup_alter_ne, list_lookup_fmap.
Qed.

Lemma fmap_alter_id {A B} (g : A → B) (f : A → A) i (l : list A) :
  (∀ x, g (f x) = g x) → g <$> alter f i l = g <$> l.
Proof.
  intros H. apply list_eq. intros j. destruct (decide (j = i)) as [->|Hj].
  - rewrite !list_lookup_fmap, list_lookup_alter_eq. destruct (l !! i); cbn; [by rewrite H|done].
  - by rewrite !list_lookup_fmap, list_lookup_alter_ne.
Qed.

Lemma map_fmap_alter_id `{Countable K} {A B} (g : A → B) (f : A → A) (i : K) (m : gmap K A) :
  (∀ x, m !! i = Some x → g (f x) = g x) → g <$> alter f i m = g <$> m.
Proof.
  intros Hg. apply map_eq. intros j. destruct (decide (i = j)) as [->|Hj].
  - rewrite !lookup_fmap, lookup_alter_eq. destruct (m !! j) eqn:E; cbn; [by rewrite Hg|done].
  - by rewrite !lookup_fmap, lookup_alter_ne.
Qed.

Lemma map_fmap_alter `{Countable K} {A B} (g : A → B) (f : A → A) (h : B → B) (i : K) (m : gmap K A) :
  (∀ x, g (f x) = h (g x)) → g <$> alter f i m = alter h i (g <$> m).
Proof.
  intros Hg. apply map_eq. intros j. destruct (decide (i = j)) as [->|Hj].
  - rewrite lookup_fmap, !lookup_alter_eq, lookup_fmap. destruct (m !! j); cbn; [by rewrite Hg|done].
  - by rewrite lookup_fmap, !lookup_alter_ne, lookup_fmap.
Qed.

(** [same st st']: nothing the invariant depends on has changed. *)
Record same (st st' : serverPools) : Prop := {
  sm_abs : abs st' = abs st;
  sm_threads : ps_threads st' = ps_threads st;
  sm_addr : ∀ (k : poolKey) (p' : serverPool), ps_pools st' !! k = Some p' → addr_ok st →
    ds_Addr (sp_svc p') = k_addr k;
}.

Lemma ok_same X st st' : same st st' → ok X st → ok X st'.
Proof.
  intros [Ha Ht Hp] [Hok Hc]. split; [|by rewrite Ha]. split; [eauto|]. rewrite Ht. apply (ao_thread _ Hok).
Qed.

Lemma same_refl st : same st st.
Proof. split; [done|done|]. intros k p H Ho. by apply (ao_pool _ Ho). Qed.

Lemma same_trans a b c : same a b → same b c → same a c.
Proof.
  intros [A1 A2 A3] [B1 B2 B3]. split; [congruence|congruence|]. intros k p Hp Ho. apply (B3 k p Hp).
  split; [intros k' p' Hp'; by apply (A3 k' p')|rewrite A2; apply (ao_thread _ Ho)].
Qed.

Lemma same_cred c f st : (∀ cr, core_cred (f cr) = core_cred cr) → same st (upd_cred c f st).
Proof.
  intros Hf. split; [|done|by intros k p H Ho; apply (ao_pool _ Ho)].
  unfold abs. cbn. by rewrite fmap_alter_id.
Qed.

Lemma same_conn i f st : (∀ cn, core_conn (f cn) = core_conn cn) → same st (upd_conn i f st).
Proof.
  intros Hf. split; [|done|by intros k p H Ho; apply (ao_pool _ Ho)].
  unfold abs. cbn. by rewrite fmap_alter_id.
Qed.

Lemma same_budget a f st : (∀ b, b_open (f b) = b_open b) → same st (upd_budget a f st).
Proof.
  intros Hf. split; [|done|by intros k p H Ho; apply (ao_pool _ Ho)].
  unfold abs. cbn. rewrite map_fmap_alter_id; auto.
Qed.

Lemma same_pool k f st :
  (∀ p, sp_idle (f p) = sp_idle p) → (∀ p, ds_Addr (sp_svc p) = k_addr k → ds_Addr (sp_svc (f p)) = k_addr k) →
  same st (upd_pool k f st).
Proof.
  intros Hf Hs. split; [|done|].
  - unfold abs. cbn. rewrite map_fmap_alter_id; auto.
  - cbn. intros k' p'. rewrite lookup_alter_Some. intros [(<- & p & Hp & ->)|[_ Hp]] Ho; [|by apply (ao_pool _ Ho)].
    apply Hs. by apply (ao_pool _ Ho).
Qed.

Lemma same_revokes v st : same st (with_revokes v st).
Proof. split; [done|done|]. intros k p H Ho. by apply (ao_pool _ Ho). Qed.

Lemma same_rotations v st : same st (with_rotations v st).
Proof. split; [done|done|]. intros k p H Ho. by apply (ao_pool _ Ho). Qed.

Lemma same_closed v st : same st (with_pclosed v st).
Proof. split; [done|done|]. intros k p H Ho. by apply (ao_pool _ Ho). Qed.

Lemma same_stopped v st : same st (with_stopped v st).
Proof. split; [done|done|]. intros k p H Ho. by apply (ao_pool _ Ho). Qed.

Create HintDb pool.
#[export] Hint Resolve same_refl same_cred same_conn same_budget same_pool same_revokes same_rotations same_closed
  same_stopped : pool.

(** Chains of such updates. *)
Ltac same_chain :=
  repeat (first [apply same_refl | eapply same_trans; [|first [apply same_cred|apply same_conn|apply same_budget|
    apply same_pool|apply same_revokes|apply same_rotations|apply same_closed|apply same_stopped]; done]]).

Lemma retire_same k c st : same st (retireIfDrainedLocked k c st).
Proof.
  unfold retireIfDrainedLocked. destruct (ps_creds st !! c); [|apply same_refl]. case_match; [apply same_refl|]. same_chain.
Qed.

Lemma foldl_same {A} (f : serverPools → A → serverPools) l : (∀ st x, same st (f st x)) → ∀ st, same st (foldl f st l).
Proof.
  intros Hf. induction l as [|x l IH]; intros st; cbn; [apply same_refl|]. eapply same_trans; [apply Hf|apply IH].
Qed.

(** ** Closing and moving connections *)

Lemma abs_conn st i c k : co_conns (abs st) !! i = Some (c, k) →
  ∃ cn, ps_conns st !! i = Some cn ∧ sc_cred cn = c ∧ sc_pool cn = k.
Proof.
  cbn. rewrite list_lookup_fmap. destruct (ps_conns st !! i) as [cn|]; cbn; [|done]. intros [= <- <-]. by exists cn.
Qed.

Lemma abs_idle st k l : co_idle (abs st) !! k = Some l → ∃ p, ps_pools st !! k = Some p ∧ sp_idle p = l.
Proof.
  cbn. rewrite lookup_fmap. destruct (ps_pools st !! k) as [p|]; cbn; [|done]. intros [= <-]. by exists p.
Qed.

(** A connection in hand, with its pool. *)
Lemma in_hand X st i : ok X st → i ∈ X →
  ∃ cn p, ps_conns st !! i = Some cn ∧ ps_pools st !! sc_pool cn = Some p ∧ ds_Addr (sp_svc p) = k_addr (sc_pool cn).
Proof.
  intros [Ha [Hk Ho]] Hi. destruct (i_mine _ _ Ho) as [_ Hm]. destruct (Hm i Hi) as (Hl & _).
  destruct (liveb_true _ _ Hl) as (c & k & n & s & Hci & Hc & His).
  destruct (i_open _ Hk c n s i Hc His) as (k' & Hci' & [l Hl']). assert (k' = k) as -> by congruence.
  destruct (abs_conn _ _ _ _ Hci) as (cn & Hcn & _ & <-), (abs_idle _ _ _ Hl') as (p & Hp & _).
  exists cn, p. split_and!; [done|done|by apply (ao_pool _ Ha)].
Qed.

Lemma close_abs X st i : ok (i :: X) st → abs (closeLocked i st) = core_close i (abs st).
Proof.
  intros Hok. destruct (in_hand _ _ i Hok ltac:(left)) as (cn & p & Hi & Hp & Ha).
  unfold closeLocked. rewrite Hi. rewrite (sm_abs _ _ (retire_same _ _ _)). cbn [ps_pools upd_cred upd_conn with_pcreds with_pconns].
  rewrite Hp, Ha. unfold core_close. cbn [co_conns abs]. rewrite list_lookup_fmap, Hi. cbn.
  unfold abs, upd_budget, upd_cred, upd_conn. cbn. f_equal.
  - by apply fmap_alter_id.
  - by apply fmap_alter.
  - by apply map_fmap_alter.
Qed.

Lemma close_threads i st : ps_threads (closeLocked i st) = ps_threads st.
Proof.
  unfold closeLocked. destruct (ps_conns st !! i); [|done]. rewrite (sm_threads _ _ (retire_same _ _ _)). by case_match.
Qed.

Lemma close_addr i st : addr_ok st → addr_ok (closeLocked i st).
Proof.
  intros Ha. assert (Hs : ∀ st, addr_ok st → ∀ k c, addr_ok (retireIfDrainedLocked k c st)).
  { intros st' Ha' k c. destruct (retire_same k c st') as [_ Ht Hp]. split; [eauto|]. rewrite Ht. apply (ao_thread _ Ha'). }
  unfold closeLocked. destruct (ps_conns st !! i); [|done]. apply Hs. destruct Ha as [H1 H2]. by case_match; split.
Qed.

Lemma close_ok X st i : ok (i :: X) st → ok X (closeLocked i st).
Proof.
  intros Hok. split; [apply close_addr, Hok|]. rewrite (close_abs X) by done. apply cinv_close, Hok.
Qed.

Lemma close_idle X st i : ok (i :: X) st → co_idle (abs (closeLocked i st)) = co_idle (abs st).
Proof. intros Hok. rewrite (close_abs X) by done. unfold core_close. by case_match; [case_match|]. Qed.

(** No budget's counter grew. *)
Definition shrinks (st st' : serverPools) : Prop := ∀ a, open_of (abs st') a <= open_of (abs st) a.

Lemma shrinks_refl st : shrinks st st.
Proof. intros a. lia. Qed.
#[export] Hint Resolve shrinks_refl : core.

Lemma shrinks_trans a b c : shrinks a b → shrinks b c → shrinks a c.
Proof. intros H1 H2 x. specialize (H1 x). specialize (H2 x). lia. Qed.

Lemma close_shrinks X st i : ok (i :: X) st → shrinks st (closeLocked i st).
Proof.
  intros Hok a. rewrite (close_abs X) by done. unfold core_close. destruct (co_conns (abs st) !! i) as [[c k]|]; [|done].
  unfold open_of. cbn. destruct (decide (k_addr k = a)) as [->|Hne].
  - rewrite lookup_alter_eq. destruct ((b_open <$> ps_budgets st) !! a); cbn; lia.
  - by rewrite lookup_alter_ne.
Qed.

Lemma close_all_ok X l : ∀ st, ok (l ++ X) st →
  ok X (close_all l st) ∧ co_idle (abs (close_all l st)) = co_idle (abs st) ∧ ps_threads (close_all l st) = ps_threads st ∧
  shrinks st (close_all l st).
Proof.
  induction l as [|i l IH]; intros st Hok; [by split_and!; [| | |apply shrinks_refl]|].
  change (close_all (i :: l) st) with (close_all l (closeLocked i st)).
  destruct (IH (closeLocked i st)) as (H1 & H2 & H3 & H4); [by apply close_ok|].
  split_and!; [done|rewrite H2; by apply (close_idle (l ++ X))|rewrite H3; apply close_threads|].
  eapply shrinks_trans; [by apply (close_shrinks (l ++ X))|done].
Qed.

(** Replacing an idle list. *)
Lemma abs_idle_upd k l st p : ps_pools st !! k = Some p → abs (upd_pool k (with_idle l) st) = set_idle k l (abs st).
Proof.
  intros Hp. unfold abs, set_idle. cbn. f_equal. apply map_eq. intros k'.
  destruct (decide (k = k')) as [<-|Hne].
  - by rewrite lookup_fmap, lookup_alter_eq, lookup_insert_eq, Hp.
  - by rewrite lookup_fmap, lookup_alter_ne, lookup_insert_ne, lookup_fmap.
Qed.

Lemma addr_idle k l st : addr_ok st → addr_ok (upd_pool k (with_idle l) st).
Proof.
  intros [H1 H2]. split; [|done]. cbn. intros k' p'. rewrite lookup_alter_Some.
  intros [(<- & p & Hp & ->)|[_ Hp]]; [exact (H1 _ p Hp)|by apply H1].
Qed.

Lemma pop_ok X st k p ys rest :
  ok X st → ps_pools st !! k = Some p → sp_idle p ≡ₚ ys ++ rest → ok (ys ++ X) (upd_pool k (with_idle rest) st).
Proof.
  intros [Ha Hc] Hp Hperm. split; [by apply addr_idle|]. rewrite (abs_idle_upd _ _ _ p) by done.
  apply cinv_pop with (sp_idle p); [|done|done]. cbn. by rewrite lookup_fmap, Hp.
Qed.

Lemma snoc_perm {A} (l : list A) i : last l = Some i → l ≡ₚ [i] ++ removelast l.
Proof.
  intros (l' & ->)%last_Some. rewrite removelast_last. by rewrite Permutation_app_comm.
Qed.

(** Idle connections that satisfy [f] leave the list and are closed. *)
Lemma filter_perm {A} (f : A → bool) (l : list A) : l ≡ₚ List.filter f l ++ List.filter (λ x, negb (f x)) l.
Proof.
  induction l as [|x l IH]; cbn; [done|]. destruct (f x); cbn; [by rewrite <- IH|].
  rewrite <- Permutation_middle. by rewrite <- IH.
Qed.

Lemma alter_comm `{Countable K} {A} (f g : A → A) (i j : K) (m : gmap K A) :
  (∀ x, f (g x) = g (f x)) → alter f i (alter g j m) = alter g j (alter f i m).
Proof.
  intros Hfg. apply map_eq. intros k. rewrite !lookup_alter. repeat case_decide; subst; try done.
  destruct (m !! _); cbn; [by rewrite Hfg|done].
Qed.

Lemma alter_missing `{Countable K} {A} (f : A → A) (i : K) (m : gmap K A) : m !! i = None → alter f i m = m.
Proof.
  intros Hi. apply map_eq. intros j. rewrite lookup_alter. case_decide; [|done]. subst. by rewrite Hi.
Qed.

Lemma retire_idle_comm k l k' c st :
  retireIfDrainedLocked k' c (upd_pool k (with_idle l) st) = upd_pool k (with_idle l) (retireIfDrainedLocked k' c st).
Proof.
  unfold retireIfDrainedLocked. cbn [ps_creds upd_pool with_pools]. destruct (ps_creds st !! c); [|done].
  case_match; [done|]. unfold upd_pool, upd_cred, with_pools, with_pcreds, with_revokes. cbn. f_equal. by apply alter_comm.
Qed.

Lemma close_idle_comm k l i st :
  closeLocked i (upd_pool k (with_idle l) st) = upd_pool k (with_idle l) (closeLocked i st).
Proof.
  unfold closeLocked. cbn [ps_conns upd_pool with_pools]. destruct (ps_conns st !! i) as [cn|]; [|done].
  rewrite <- retire_idle_comm. f_equal. cbn [ps_pools upd_cred upd_conn with_pcreds with_pconns upd_pool with_pools].
  destruct (decide (k = sc_pool cn)) as [->|Hne].
  - rewrite lookup_alter_eq. by destruct (ps_pools st !! sc_pool cn).
  - rewrite lookup_alter_ne by done. by destruct (ps_pools st !! sc_pool cn).
Qed.

Lemma close_all_comm k l is_ : ∀ st,
  close_all is_ (upd_pool k (with_idle l) st) = upd_pool k (with_idle l) (close_all is_ st).
Proof.
  induction is_ as [|i is_ IH]; intros st; [done|].
  change (close_all (i :: is_) (upd_pool k (with_idle l) st)) with (close_all is_ (closeLocked i (upd_pool k (with_idle l) st))).
  by rewrite close_idle_comm, IH.
Qed.

(** Closing part of an idle list and keeping the rest, in the order of the code. *)
Lemma close_part_ok X st k p f :
  ok X st → ps_pools st !! k = Some p →
  let kept := List.filter (λ i, negb (f i)) (sp_idle p) in
  let st' := upd_pool k (with_idle kept) (close_all (List.filter f (sp_idle p)) st) in
  ok X st' ∧ ps_threads st' = ps_threads st ∧ shrinks st st'.
Proof.
  intros Hok Hp kept st'. unfold st'. rewrite <- close_all_comm.
  pose proof (pop_ok X st k p _ kept Hok Hp (filter_perm f _)) as H1.
  destruct (close_all_ok X _ _ H1) as (? & _ & -> & Hs). split_and!; [done|done|].
  intros a. etransitivity; [apply Hs|done].
Qed.

(** ** Composite operations *)

(** The invariant holds, no checkout moved, and no budget has more open. *)
Definition stays (X : list nat) (st st' : serverPools) : Prop :=
  ok X st' ∧ ps_threads st' = ps_threads st ∧ shrinks st st'.

Lemma stays_refl X st : ok X st → stays X st st.
Proof. intros Hok. by split_and!. Qed.

Lemma same_shrinks st st' : same st st' → shrinks st st'.
Proof. intros Hs a. by rewrite (sm_abs _ _ Hs). Qed.

Lemma stays_same X st st' : ok X st → same st st' → stays X st st'.
Proof. intros Hok Hs. split_and!; [by eapply ok_same|apply (sm_threads _ _ Hs)|by apply same_shrinks]. Qed.

Lemma stays_trans X a b c : stays X a b → (ok X b → stays X b c) → stays X a c.
Proof.
  intros (H1 & E1 & S1) H. destruct (H H1) as (H2 & E2 & S2). split_and!; [done|congruence|by eapply shrinks_trans].
Qed.

Lemma stays_then_same X a b c : stays X a b → same b c → stays X a c.
Proof. intros H Hs. eapply stays_trans; [exact H|]. intros Hok. by apply stays_same. Qed.

Lemma foldl_stays {A} X (f : serverPools → A → serverPools) l :
  (∀ st x, ok X st → stays X st (f st x)) → ∀ st, ok X st → stays X st (foldl f st l).
Proof.
  intros Hf. induction l as [|x l IH]; intros st Hok; cbn; [by apply stays_refl|].
  apply stays_trans with (f st x); [by apply Hf|apply IH].
Qed.

Lemma pop_close X st k p i rest :
  ok X st → ps_pools st !! k = Some p → sp_idle p ≡ₚ [i] ++ rest →
  stays X st (closeLocked i (upd_pool k (with_idle rest) st)).
Proof.
  intros Hok Hp Hperm. pose proof (pop_ok X st k p [i] rest Hok Hp Hperm) as H1.
  split_and!; [by apply close_ok|by rewrite close_threads|]. intros a. etransitivity; [by apply (close_shrinks X)|done].
Qed.

Lemma trim_idle_ok X fuel a k : ∀ st, ok X st → stays X st (trim_idle fuel a k st).
Proof.
  induction fuel as [|f IH]; intros st Hok; cbn [trim_idle]; [by apply stays_refl|].
  destruct (ps_pools st !! k) as [p|] eqn:Hp; [|by apply stays_refl].
  destruct (ps_budgets st !! a); [|by apply stays_refl]. case_match; [by apply stays_refl|].
  destruct (last (sp_idle p)) as [i|] eqn:El; [|by apply stays_refl].
  eapply stays_trans; [|apply IH]. eapply pop_close; [done|done|]. by apply snoc_perm.
Qed.

Lemma trimLocked_ok X opts live addrs order st : ok X st → stays X st (trimLocked opts live addrs order st).
Proof.
  apply foldl_stays. intros st' a Hok. unfold trim_budget. destruct (ps_budgets st' !! a) as [b|]; [|by apply stays_refl].
  case_match; [by apply stays_refl|].
  set (st1 := upd_budget a _ st'). assert (Hf : stays X st' (foldl (trim_pool a) st1 order)).
  { apply stays_trans with st1; [apply stays_same; [done|by apply same_budget]|]. apply foldl_stays.
    intros st2 k Hok2. unfold trim_pool. destruct (ps_pools st2 !! k); [|by apply stays_refl].
    case_match; [by apply stays_refl|by apply trim_idle_ok]. }
  case_match; [|done]. eapply stays_then_same; [exact Hf|]. by apply same_budget.
Qed.

Lemma evict_ok X order addr except : ∀ st, ok X st → stays X st (evictIdleLocked order addr except st).
Proof.
  induction order as [|k order IH]; intros st Hok; cbn [evictIdleLocked]; [by apply stays_refl|].
  destruct (ps_pools st !! k) as [p|] eqn:Hp; [|by apply IH]. case_match; [by apply IH|].
  destruct (sp_idle p) as [|i rest] eqn:Ei; [by apply IH|].
  eapply pop_close; [done|done|by rewrite Ei].
Qed.

Lemma close_pool_stays i k st : is_Some (ps_pools st !! k) → is_Some (ps_pools (closeLocked i st) !! k).
Proof.
  intros Hs. unfold closeLocked. destruct (ps_conns st !! i) as [cn|]; [|done].
  assert (Hr : ∀ k' c st, is_Some (ps_pools st !! k) → is_Some (ps_pools (retireIfDrainedLocked k' c st) !! k)).
  { intros k' c st' Hs'. unfold retireIfDrainedLocked. repeat (case_match; try done). cbn. by apply lookup_alter_is_Some. }
  apply Hr. by case_match.
Qed.

Lemma reuse_ok X k l : ∀ st, ok X st → co_idle (abs st) !! k = Some (rev l) →
  let '(st', found) := reuse k l st in
  ps_threads st' = ps_threads st ∧ is_Some (ps_pools st' !! k) ∧ shrinks st st' ∧
  match found with
  | None => ok X st'
  | Some i => ok (i :: X) st' ∧ ∃ c, co_conns (abs st') !! i = Some (c, k)
  end.
Proof.
  induction l as [|i l IH]; intros st Hok Hl; cbn [reuse]; destruct (abs_idle _ _ _ Hl) as (p & Hp & Ei);
    [by split_and!; [|eexists| |]|]. cbn [rev] in Ei.
  assert (Hsh0 : shrinks st (upd_pool k (with_idle (rev l)) st)) by (intros a; unfold open_of; cbn; lia).
  assert (Hs : is_Some (ps_pools (upd_pool k (with_idle (rev l)) st) !! k)) by (cbn; apply lookup_alter_is_Some; by eexists).
  assert (Hpop : ok (i :: X) (upd_pool k (with_idle (rev l)) st)).
  { apply (pop_ok X st k p [i]); [done|done|]. by rewrite Ei, Permutation_app_comm. }
  assert (Hfound : ∃ c, co_conns (abs (upd_pool k (with_idle (rev l)) st)) !! i = Some (c, k)).
  { destruct (ok_core _ _ Hok) as [_ Ho]. apply (i_idle _ _ Ho k _ i Hl). cbn [rev]. apply elem_of_app. right. by left. }
  destruct (cred_of _ i) as [cr|]; [|by split_and!]. destruct (c_retiring cr); [|by split_and!].
  specialize (IH (closeLocked i (upd_pool k (with_idle (rev l)) st))). destruct (reuse k l _) as [st' found].
  destruct IH as (Ht & Hs' & Hsh & Hf).
  - by apply close_ok.
  - rewrite (close_idle X) by done. rewrite (abs_idle_upd _ _ _ p) by done. cbn. by rewrite lookup_insert_eq.
  - split_and!; [by rewrite Ht, close_threads|done| |done].
    eapply shrinks_trans; [|exact Hsh]. intros a. etransitivity; [by apply (close_shrinks X)|done].
Qed.

Lemma retire_old_ok X k old st : ok X st → stays X st (retire_old k old st).
Proof.
  intros Hok. unfold retire_old. set (st1 := upd_cred old (with_retiring true) st).
  assert (H1 : stays X st st1) by (apply stays_same; [done|by apply same_cred]).
  destruct (ps_pools st1 !! k) as [p|] eqn:Hp.
  - eapply stays_then_same; [|apply retire_same]. eapply stays_trans; [exact H1|]. intros Hok1.
    exact (close_part_ok X st1 k p _ Hok1 Hp).
  - cbn [List.filter close_all foldl]. eapply stays_then_same; [exact H1|]. eapply same_trans; [|apply retire_same].
    split; [|done|].
    + unfold abs. cbn. f_equal. rewrite alter_missing; [done|]. exact Hp.
    + cbn. rewrite alter_missing by exact Hp. intros k' p' Hp' Ho. by apply (ao_pool _ Ho).
Qed.

(** ** Checkouts *)

Lemma abs_set_thread n t st : abs (set_thread n t st) = set_ph n (t_key t) (t_phase t) (abs st).
Proof. unfold abs, set_ph. cbn. by rewrite list_fmap_insert. Qed.

Lemma abs_thread st n t : ps_threads st !! n = Some t → co_threads (abs st) !! n = Some (t_key t, t_phase t).
Proof. intros H. cbn. by rewrite list_lookup_fmap, H. Qed.

(** [t'] is the checkout [t] at another point. *)
Definition moved (t t' : thread) : Prop := t_key t' = t_key t ∧ t_svc t' = t_svc t.

Lemma addr_set_thread n t t' st st' :
  addr_ok st → ps_threads st !! n = Some t → moved t t' → ps_threads st' = ps_threads st → addr_ok st' →
  addr_ok (set_thread n t' st').
Proof.
  intros Ha Hn [Ek Es] Et Ha'. split; [apply (ao_pool _ Ha')|]. cbn. rewrite Et. intros m x Hm.
  apply list_lookup_insert_Some in Hm as [(_ & <- & _)|[_ Hm]]; [|by apply (ao_thread _ Ha m)].
  rewrite Ek, Es. by apply (ao_thread _ Ha n).
Qed.

(** A move no counter depends on. *)
Lemma neutral_ok X st n t t' :
  ok X st → ps_threads st !! n = Some t → moved t t' → holds (t_phase t') = holds (t_phase t) →
  reserved (t_phase t') = reserved (t_phase t) → (∀ c, dialing c (t_phase t') = dialing c (t_phase t)) →
  ok X (set_thread n t' st).
Proof.
  intros [Ha Hc] Hn Hm Hh Hr Hd. split; [by apply (addr_set_thread n t t' st)|]. rewrite abs_set_thread.
  pose proof (abs_thread _ _ _ Hn) as Hn'. destruct Hm as [-> _].
  apply (cinv_thread X (abs st) _ n (t_key t) (t_phase t) (t_phase t')); try done.
  - intros c m s Hcr. rewrite Hd. cbn in *. rewrite Hcr. do 2 f_equal. lia.
  - intros c E. specialize (Hd c). rewrite E in Hd. cbn in Hd. rewrite Nat.eqb_refl in Hd. symmetry in Hd.
    destruct (t_phase t) eqn:Et; try done. apply Nat.eqb_eq in Hd as ->. destruct Hc as [Hk _]. by apply (i_dial _ Hk n (t_key t)).
  - rewrite Hr. intros E. destruct Hc as [Hk _]. by apply (i_pool _ Hk n _ (t_phase t)).
  - intros a. rewrite Hr. unfold open_of. cbn. case_bool_decide; lia.
Qed.

Lemma finish_ok X st n t ph :
  ok X st → ps_threads st !! n = Some t → holds ph = holds (t_phase t) →
  reserved ph = reserved (t_phase t) → (∀ c, dialing c ph = dialing c (t_phase t)) → ok X (finish n t ph st).
Proof.
  intros Hok Hn Hh Hr Hd. unfold finish. destruct (t_waiting t).
  - apply (neutral_ok X _ n t); [|done..]. eapply ok_same; [|exact Hok]. by apply same_budget.
  - by apply (neutral_ok X _ n t).
Qed.

Lemma same_take_conn t i st : same st (take_conn t i st).
Proof. unfold take_conn. destruct (t_pinned t); same_chain. Qed.

Lemma take_ok X st n t i c :
  ok (i :: X) st → ps_threads st !! n = Some t → t_phase t = Trying →
  co_conns (abs st) !! i = Some (c, t_key t) → ok X (finish n t (Holding i) (take_conn t i st)).
Proof.
  intros [Ha Hc] Hn Ht Hi. pose proof (abs_thread _ _ _ Hn) as Hn'. rewrite Ht in Hn'.
  pose proof (cinv_take X (abs st) n (t_key t) Trying i c Hc Hn' eq_refl eq_refl Hi) as Hcore.
  pose proof (same_take_conn t i st) as Hs. unfold finish.
  assert (Hs2 : same st (if t_waiting t
    then upd_budget (ds_Addr (t_svc t)) (λ b, with_waiters (b_waiters b - 1) b) (take_conn t i st) else take_conn t i st)).
  { destruct (t_waiting t); [|done]. eapply same_trans; [exact Hs|]. by apply same_budget. }
  revert Hs2. set (st' := if t_waiting t then _ else _). intros Hs2. split.
  - apply (addr_set_thread n t _ st); [done|done|done|apply (sm_threads _ _ Hs2)|].
    split; [intros k p Hp; by apply (sm_addr _ _ Hs2)|rewrite (sm_threads _ _ Hs2); apply (ao_thread _ Ha)].
  - rewrite abs_set_thread, (sm_abs _ _ Hs2). exact Hcore.
Qed.

(** Reserving a unit of the budget. *)
Lemma reserve_ok X st n t b :
  ok X st → ps_threads st !! n = Some t → t_phase t = Trying → ps_budgets st !! ds_Addr (t_svc t) = Some b →
  is_Some (ps_pools st !! t_key t) →
  ok X (set_thread n (with_phase Opening t) (upd_budget (ds_Addr (t_svc t)) (λ b, with_bopen (b_open b + 1) b) st)).
Proof.
  intros [Ha Hc] Hn Ht Hb Hp. split.
  - apply (addr_set_thread n t _ st); [done|done|done|done|]. destruct Ha as [H1 H2]. by split.
  - rewrite abs_set_thread. pose proof (abs_thread _ _ _ Hn) as Hn'. rewrite Ht in Hn'.
    apply (cinv_thread X (abs st) _ n (t_key t) Trying Opening); try done.
    + intros c m s Hcr. cbn in *. rewrite Hcr. do 2 f_equal. lia.
    + intros _. cbn. rewrite lookup_fmap. by apply fmap_is_Some.
    + intros a. unfold open_of. cbn. rewrite (map_fmap_alter b_open _ (λ z, z + 1)) by done.
      rewrite (ao_thread _ Ha n t Hn) in *. case_bool_decide as E.
      * subst a. by rewrite lookup_alter_eq, lookup_fmap, Hb.
      * rewrite lookup_alter_ne by done. lia.
Qed.

(** Giving a reserved unit back. *)
Lemma unreserve_ok X st n t e :
  ok X st → ps_threads st !! n = Some t → t_phase t = OpenFailed →
  ok X (finish n t (Finished e) (upd_budget (ds_Addr (t_svc t)) (λ b, notify (with_bopen (b_open b - 1) b)) st)).
Proof.
  intros [Ha Hc] Hn Ht. unfold finish. pose proof (ao_thread _ Ha n t Hn) as Haddr. rewrite Haddr.
  set (st1 := upd_budget (k_addr (t_key t)) (λ b, notify (with_bopen (b_open b - 1) b)) st).
  pose proof (abs_thread _ _ _ Hn) as Hn'. rewrite Ht in Hn'.
  assert (Hopen : ∀ a, default 0 ((b_open <$> ps_budgets st1) !! a) =
    open_of (abs st) a + if bool_decide (k_addr (t_key t) = a) then -1 else 0).
  { intros a. unfold st1. cbn [ps_budgets upd_budget with_budgets]. rewrite (map_fmap_alter b_open _ (λ z, z - 1)) by done.
    pose proof (open_alter (abs st) (λ z, z - 1) (k_addr (t_key t)) a (ci_counted _ _ Hc)) as E. cbn [co_open abs] in E.
    rewrite E.
    - case_bool_decide; case_bool_decide; subst; try done; lia.
    - pose proof (live_nonneg (abs st) (k_addr (t_key t))).
      assert (0 < reserved_count (abs st) (k_addr (t_key t))); [|lia].
      apply countb_elem with (t_key t, OpenFailed); [by eapply list_elem_of_lookup_2|]. by apply bool_decide_eq_true. }
  assert (Hs : same st1 (if t_waiting t then upd_budget (k_addr (t_key t)) (λ b, with_waiters (b_waiters b - 1) b) st1 else st1)).
  { destruct (t_waiting t); [by apply same_budget|apply same_refl]. }
  revert Hs. set (st2 := if t_waiting t then _ else _). intros Hs. split.
  - apply (addr_set_thread n t _ st); [done|done|done|by rewrite (sm_threads _ _ Hs)|].
    assert (Ha1 : addr_ok st1) by (destruct Ha as [H1 H2]; by split).
    split; [intros k p Hp; by apply (sm_addr _ _ Hs)|rewrite (sm_threads _ _ Hs); apply (ao_thread _ Ha1)].
  - rewrite abs_set_thread, (sm_abs _ _ Hs).
    apply (cinv_thread X (abs st) _ n (t_key t) OpenFailed (Finished e)); try done.
    intros c m s Hcr. cbn in *. rewrite Hcr. do 2 f_equal. lia.
Qed.

(** The counter of credential [c] follows a checkout that starts or stops dialing. *)
Lemma dial_count_ok X st st' n t ph c (f : credential → credential) z :
  ok X st → ps_threads st !! n = Some t → is_Some (ps_creds st !! c) →
  same (upd_cred c f st) st' → (∀ cr, core_cred (f cr) = (c_conns cr + z, c_open cr)) →
  holds ph = holds (t_phase t) → reserved ph = true → reserved (t_phase t) = true →
  (∀ c', Z.b2z (dialing c' ph) = Z.b2z (dialing c' (t_phase t)) + if (c' =? c)%nat then z else 0) →
  (∀ c', ph = Dialing c' → c' = c) → ok X (set_thread n (with_phase ph t) st').
Proof.
  intros [Ha Hc] Hn Hcr Hs Hf Hh Hr Hr' Hd Hph.
  assert (Ha1 : addr_ok (upd_cred c f st)) by (destruct Ha as [H1 H2]; by split). split.
  - apply (addr_set_thread n t _ st); [done|done|done|by rewrite (sm_threads _ _ Hs)|].
    split; [intros k p Hp; by apply (sm_addr _ _ Hs)|rewrite (sm_threads _ _ Hs); apply (ao_thread _ Ha1)].
  - rewrite abs_set_thread, (sm_abs _ _ Hs). pose proof (abs_thread _ _ _ Hn) as Hn'.
    assert (Hlook : ∀ c', (core_cred <$> alter f c (ps_creds st)) !! c' =
      (λ x, if (c' =? c)%nat then (fst x + z, snd x) else x) <$> (core_cred <$> ps_creds st) !! c').
    { intros c'. rewrite !list_lookup_fmap. destruct (Nat.eqb_spec c' c) as [->|Hne].
      - rewrite list_lookup_alter_eq. destruct (ps_creds st !! c); cbn; [by rewrite Hf|done].
      - rewrite list_lookup_alter_ne by done. by destruct (ps_creds st !! c'). }
    apply (cinv_thread X (abs st) _ n (t_key t) (t_phase t) ph); try done.
    + intros c'. cbn [co_creds set_ph abs upd_cred with_pcreds ps_creds]. rewrite Hlook.
      destruct ((core_cred <$> ps_creds st) !! c') as [[]|]; cbn; [by destruct (c' =? c)%nat|done].
    + intros c' m s. cbn [co_creds set_ph abs upd_cred with_pcreds ps_creds]. rewrite Hlook, Hd.
      destruct ((core_cred <$> ps_creds st) !! c') as [[m0 s0]|] eqn:E; [|done].
      cbn [fmap option_fmap option_map]. destruct (c' =? c)%nat; cbn [fst snd]; intros [= <- <-]; do 2 f_equal; lia.
    + intros c' ->. rewrite (Hph c' eq_refl). cbn. rewrite list_lookup_fmap. by apply fmap_is_Some.
    + intros _. destruct Hc as [Hk _]. by apply (i_pool _ Hk n _ (t_phase t)).
    + intros a. rewrite Hr, Hr'. unfold open_of. cbn. case_bool_decide; lia.
Qed.

Lemma dial_start_ok X st n t c :
  ok X st → ps_threads st !! n = Some t → is_Some (ps_creds st !! c) → reserved (t_phase t) = true →
  (∀ c', dialing c' (t_phase t) = false) → holds (t_phase t) = None →
  ok X (set_thread n (with_phase (Dialing c) t) (upd_cred c (λ c, with_conns (c_conns c + 1) c) st)).
Proof.
  intros Hok Hn Hc Hr Hd Hh.
  apply (dial_count_ok X st _ n t (Dialing c) c (λ c, with_conns (c_conns c + 1) c) 1); try done; [apply same_refl|..].
  - intros c'. rewrite Hd. cbn. by rewrite Nat.eqb_sym, Z.add_0_l; destruct (c' =? c)%nat.
  - by intros c' [= ->].
Qed.

Lemma dial_failed_ok X st n t c k :
  ok X st → ps_threads st !! n = Some t → t_phase t = Dialing c →
  ok X (set_thread n (with_phase OpenFailed t) (retireIfDrainedLocked k c (upd_cred c (λ cr, with_conns (c_conns cr - 1) cr) st))).
Proof.
  intros Hok Hn Ht. eapply (dial_count_ok X st _ n t OpenFailed c (λ cr, with_conns (c_conns cr - 1) cr) (-1)); try done.
  - destruct Hok as [_ [Hk _]]. pose proof (abs_thread _ _ _ Hn) as Hn'. rewrite Ht in Hn'.
    pose proof (i_dial _ Hk n _ c Hn') as E. cbn in E. rewrite list_lookup_fmap in E. by apply fmap_is_Some in E.
  - apply retire_same.
  - by rewrite Ht.
  - by rewrite Ht.
  - intros c'. rewrite Ht. cbn. rewrite Nat.eqb_sym. by destruct (c' =? c)%nat.
Qed.

Lemma dialed_ok X st n t c :
  ok X st → ps_threads st !! n = Some t → t_phase t = Dialing c →
  ok X (let '(st', ph) := dialed (t_key t) c true st in set_thread n (with_phase ph t) st').
Proof.
  intros [Ha Hc] Hn Ht. pose proof (abs_thread _ _ _ Hn) as Hn'. rewrite Ht in Hn'. cbn zeta. unfold dialed.
  split.
  - apply (addr_set_thread n t _ st); [done|done|done|done|]. destruct Ha as [H1 H2]. by split.
  - rewrite abs_set_thread. pose proof (cinv_dialed X (abs st) n (t_key t) c Hc Hn') as Hd.
    unfold core_dialed in Hd. cbn [co_conns abs] in Hd. rewrite length_fmap in Hd.
    unfold abs, set_ph. cbn. rewrite fmap_app. cbn.
    rewrite (fmap_alter core_cred _ (λ '(m, s), (m, {[length (ps_conns st)]} ∪ s))) by done. exact Hd.
Qed.

(** ** Minting *)

Lemma new_cred_ok X opts st m l k c :
  ok X st →
  ok X (upd_pool k (λ p, with_creds (sp_creds p ++ [c]) (with_cur (Some c) p))
          (with_pcreds (ps_creds st ++ [new_credential opts m l]) st)).
Proof.
  intros [Ha Hc]. eapply ok_same; [by apply same_pool|]. split; [destruct Ha; by split|].
  pose proof (cinv_add_cred X _ Hc) as Hd. unfold add_cred in Hd. cbn [co_creds abs] in Hd.
  unfold abs. cbn. by rewrite fmap_app.
Qed.

Lemma mintLocked_ok X opts k m st : ok X st → stays X st (fst (mintLocked opts k m st)).
Proof.
  intros Hok. unfold mintLocked. destruct (mt_lease m) as [l|]; [|by apply stays_refl].
  destruct (lease_valid m l); cbn [negb].
  - cbn [fst]. destruct (p ← ps_pools st !! k; sp_cur p) as [old|].
    + destruct (retire_old_ok X k old st Hok) as (H1 & H2 & H3). split_and!; [by apply new_cred_ok|done|exact H3].
    + split_and!; [by apply new_cred_ok|done|exact (shrinks_refl st)].
  - case_bool_decide; cbn [fst]; [by apply stays_refl|]. apply stays_same; [done|apply same_revokes].
Qed.

(** ** A turn of [acquire] *)

Lemma new_pool_ok X st k svc vault :
  ok X st → ps_pools st !! k = None → ds_Addr svc = k_addr k →
  ok X (with_pools (<[k := {| sp_svc := svc; sp_vault := vault; sp_cur := None; sp_minting := false; sp_mintMu := false;
                             sp_creds := []; sp_idle := []; sp_pinned := 0 |}]> (ps_pools st)) st).
Proof.
  intros [[H1 H2] Hc] Hk Ha. split.
  - split; [|done]. cbn. intros k' p. rewrite lookup_insert_Some. intros [[<- <-]|[_ ?]]; [done|by apply H1].
  - assert (Hi : co_idle (abs st) !! k = None) by (cbn; by rewrite lookup_fmap, Hk).
    pose proof (cinv_add_pool X k _ Hi Hc) as Hd. unfold set_idle in Hd. unfold abs. cbn. by rewrite fmap_insert.
Qed.

Lemma budgetFor_ok X opts live svc st : ok X st → ok X (budgetFor opts live svc st).
Proof.
  intros [[H1 H2] Hc]. split; [by split|]. apply (cinv_open X (abs st)); [done..|]. intros a. unfold open_of. cbn.
  rewrite fmap_insert. destruct (decide (ds_Addr svc = a)) as [->|Hne].
  - rewrite lookup_insert_eq, lookup_fmap. cbn. by destruct (ps_budgets st !! a).
  - by rewrite lookup_insert_ne.
Qed.

(** The part of the turn that finds the pool and the budget. *)
Definition turn_enter (opts : PoolOptions) (t : thread) (live : option Z) (st : serverPools) : serverPools :=
  let st := match ps_pools st !! t_key t with
            | Some _ => st
            | None => with_pools (<[t_key t := {| sp_svc := t_svc t; sp_vault := t_vault t; sp_cur := None; sp_minting := false;
                                                  sp_mintMu := false; sp_creds := []; sp_idle := []; sp_pinned := 0 |}]> (ps_pools st)) st
            end in
  budgetFor opts live (t_svc t) (upd_pool (t_key t) (with_svc (t_svc t)) st).

Lemma turn_enter_ok X opts n t live st : ok X st → ps_threads st !! n = Some t →
  ok X (turn_enter opts t live st) ∧ ps_threads (turn_enter opts t live st) = ps_threads st ∧
  is_Some (ps_pools (turn_enter opts t live st) !! t_key t).
Proof.
  intros Hok Hn. pose proof (ao_thread _ (ok_addr _ _ Hok) n t Hn) as Ha. unfold turn_enter.
  set (st1 := match ps_pools st !! t_key t with Some _ => st | None => _ end).
  assert (H1 : ok X st1 ∧ ps_threads st1 = ps_threads st ∧ is_Some (ps_pools st1 !! t_key t)).
  { unfold st1. destruct (ps_pools st !! t_key t) as [p|] eqn:Hp; [by split_and!; [| |eexists]|].
    split_and!; [by apply new_pool_ok|done|]. cbn. rewrite lookup_insert_eq. by eexists. }
  destruct H1 as (H1 & H2 & [p Hp]). split_and!; [|done|].
  - apply budgetFor_ok. eapply ok_same; [|exact H1]. by apply same_pool.
  - cbn. rewrite lookup_alter_eq, Hp. by eexists.
Qed.

(** The rest of the turn when no idle connection was found. *)
Definition turn_open (opts : PoolOptions) (n : nat) (t : thread) (now : Z) (order : list poolKey) (st : serverPools) : serverPools :=
  let a := ds_Addr (t_svc t) in
  let over st := match ps_budgets st !! a with Some b => b_limit b <=? b_open b | None => true end in
  let st := if over st then evictIdleLocked order a (t_key t) st else st in
  if negb (over st) then
    set_thread n (with_phase Opening t) (upd_budget a (λ b, with_bopen (b_open b + 1) b) st)
  else
    match ps_budgets st !! a with
    | None => st
    | Some b =>
        if negb (t_waiting t) && (b_limit b * po_QueueFactor opts <=? b_waiters b)
        then finish n t (Finished (Some ErrPoolBudget)) st
        else
          let '(t, st) := if t_waiting t then (t, st)
                          else (set_waiting t, upd_budget a (λ b, with_waiters (b_waiters b + 1) b) st) in
          if t_deadline t <=? now then finish n t (Finished (Some ErrPoolBudget)) st
          else set_thread n (with_phase (Sleeping (b_changed b)) t) st
    end.

Lemma acquire_turn_eq opts n t now live order st :
  acquire_turn opts n t now live order st =
  if ps_closed st then finish n t (Finished (Some ErrPoolClosed)) st
  else
    let st := turn_enter opts t live st in
    match ps_pools st !! t_key t, ps_budgets st !! ds_Addr (t_svc t) with
    | Some p, Some b =>
        if t_pinned t && (session_share opts (b_limit b) <=? sp_pinned p)
        then finish n t (Finished (Some ErrPinnedShare)) st
        else
          let '(st, found) := reuse (t_key t) (rev (sp_idle p)) st in
          match found with
          | Some i => finish n t (Holding i) (take_conn t i st)
          | None => turn_open opts n t now order st
          end
    | _, _ => st
    end.
Proof. reflexivity. Qed.

Lemma evict_pool order addr except k : ∀ st, is_Some (ps_pools st !! k) → is_Some (ps_pools (evictIdleLocked order addr except st) !! k).
Proof.
  induction order as [|k' order IH]; intros st Hs; cbn [evictIdleLocked]; [done|]. repeat (case_match; auto).
  apply close_pool_stays. cbn. by apply lookup_alter_is_Some.
Qed.

Lemma turn_open_ok X opts n t now order st :
  ok X st → ps_threads st !! n = Some t → t_phase t = Trying → is_Some (ps_pools st !! t_key t) →
  ok X (turn_open opts n t now order st).
Proof.
  intros Hok Hn Ht Hp. unfold turn_open. set (a := ds_Addr (t_svc t)). cbn zeta.
  set (st1 := if (match ps_budgets st !! a with Some b => b_limit b <=? b_open b | None => true end) then _ else st).
  assert (H1 : stays X st st1) by (unfold st1; case_match; [by apply evict_ok|by apply stays_refl]).
  assert (Hp1 : is_Some (ps_pools st1 !! t_key t)) by (unfold st1; case_match; [by apply evict_pool|done]).
  destruct H1 as (Hok1 & Ht1 & _). rewrite <- Ht1 in Hn. clearbody st1.
  destruct (ps_budgets st1 !! a) as [b|] eqn:Hb; cbn [negb]; [|done].
  destruct (b_limit b <=? b_open b); cbn [negb].
  - case_match; [apply finish_ok; by rewrite ?Ht|]. destruct (t_waiting t); cbn beta iota zeta.
    + case_match; [apply finish_ok; by rewrite ?Ht|]. apply (neutral_ok X _ n t); rewrite ?Ht; done.
    + set (st2 := upd_budget a _ st1). assert (Hok2 : ok X st2) by (eapply ok_same; [|exact Hok1]; by apply same_budget).
      case_match.
      * unfold finish. cbn [t_waiting set_waiting]. apply (neutral_ok X _ n t); rewrite ?Ht; try done.
        eapply ok_same; [|exact Hok2]. by apply same_budget.
      * apply (neutral_ok X _ n t); rewrite ?Ht; done.
  - by apply reserve_ok with b.
Qed.

Lemma acquire_turn_ok opts n t now live order st :
  ok [] st → ps_threads st !! n = Some t → t_phase t = Trying → ok [] (acquire_turn opts n t now live order st).
Proof.
  intros Hok Hn Ht. rewrite acquire_turn_eq. destruct (ps_closed st); [apply finish_ok; by rewrite ?Ht|].
  destruct (turn_enter_ok [] opts n t live st Hok Hn) as (Hok1 & Ht1 & Hp1). cbn zeta.
  set (st1 := turn_enter opts t live st) in *. clearbody st1. rewrite <- Ht1 in Hn.
  destruct (ps_pools st1 !! t_key t) as [p|] eqn:Hp; [|done]. destruct (ps_budgets st1 !! ds_Addr (t_svc t)) as [b|]; [|done].
  case_match; [apply finish_ok; by rewrite ?Ht|].
  pose proof (reuse_ok [] (t_key t) (rev (sp_idle p)) st1 Hok1) as Hr.
  destruct (reuse (t_key t) (rev (sp_idle p)) st1) as [st2 found] eqn:Er.
  destruct Hr as (Ht2 & Hp2 & _ & Hf); [cbn; rewrite lookup_fmap, Hp, rev_involutive; done|]. rewrite <- Ht2 in Hn.
  destruct found as [i|]; [|by apply turn_open_ok].
  destruct Hf as [Hf [c Hc]]. by apply (take_ok [] st2 n t i c).
Qed.

(** ** Giving a connection back *)

Lemma retire_threads_comm k c v st :
  retireIfDrainedLocked k c (with_threads v st) = with_threads v (retireIfDrainedLocked k c st).
Proof. unfold retireIfDrainedLocked. cbn. destruct (ps_creds st !! c); [|done]. by case_match. Qed.

Lemma close_threads_comm i v st : closeLocked i (with_threads v st) = with_threads v (closeLocked i st).
Proof.
  unfold closeLocked. cbn [ps_conns with_threads]. destruct (ps_conns st !! i) as [cn|]; [|done].
  rewrite <- retire_threads_comm. f_equal. cbn. by destruct (ps_pools st !! sc_pool cn).
Qed.

Lemma release_threads_comm i r now v st : release i r now (with_threads v st) = with_threads v (release i r now st).
Proof.
  unfold release. cbn [ps_conns with_threads]. destruct (ps_conns st !! i) as [cn|]; [|done].
  destruct (sc_pinned cn); cbn [ps_pools ps_budgets ps_creds ps_closed with_threads upd_pool upd_conn with_pools with_pconns];
    match goal with |- (if ?b then _ else _) = _ => destruct b end;
    try (by rewrite <- close_threads_comm); cbn; by destruct (alter _ _ _ !! _).
Qed.

Lemma release_ok X i r now st : ok (i :: X) st → ok X (release i r now st).
Proof.
  intros Hok. destruct (in_hand _ _ i Hok ltac:(left)) as (cn & p & Hi & Hp & Ha). unfold release. rewrite Hi.
  set (st1 := if sc_pinned cn then _ else st).
  assert (Hs : same st st1) by (unfold st1; destruct (sc_pinned cn); same_chain).
  assert (Hok1 : ok (i :: X) st1) by (by eapply ok_same).
  destruct (in_hand _ _ i Hok1 ltac:(left)) as (cn1 & p1 & Hi1 & Hp1 & Ha1).
  assert (Ek : sc_pool cn1 = sc_pool cn).
  { pose proof (f_equal (λ co, co_conns co !! i) (sm_abs _ _ Hs)) as E. cbn in E. rewrite !list_lookup_fmap, Hi, Hi1 in E.
    by injection E. }
  rewrite Ek in Hp1. clearbody st1.
  match goal with |- ok _ (if ?b then _ else _) => destruct b end; [by apply close_ok|].
  set (st2 := upd_conn i (with_idleAt now) st1).
  assert (Hok2 : ok (i :: X) st2) by (eapply ok_same; [|exact Hok1]; by apply same_conn).
  assert (Hpush : ok X (upd_pool (sc_pool cn) (λ p, with_idle (sp_idle p ++ [i]) p) st2)).
  { destruct Hok2 as [Ha2 Hc2]. split.
    - destruct Ha2 as [A1 A2]. split; [|done]. cbn. intros k' p'. rewrite lookup_alter_Some.
      intros [(<- & q & Hq & ->)|[_ Hq]]; [exact (A1 _ q Hq)|by apply A1].
    - assert (Eabs : abs (upd_pool (sc_pool cn) (λ p, with_idle (sp_idle p ++ [i]) p) st2) =
        set_idle (sc_pool cn) (sp_idle p1 ++ [i]) (abs st2)).
      { rewrite <- (abs_idle_upd _ _ _ p1) by done. unfold abs. cbn. f_equal. apply map_eq. intros k'.
        rewrite !lookup_fmap. destruct (decide (sc_pool cn = k')) as [<-|Hne].
        - by rewrite !lookup_alter_eq, Hp1.
        - by rewrite !lookup_alter_ne. }
      rewrite Eabs. apply cinv_push with (sc_cred cn1); [cbn; by rewrite lookup_fmap, Hp1| |done].
      cbn. rewrite list_lookup_fmap, list_lookup_alter_eq, Hi1. cbn. unfold core_conn. cbn. by rewrite Ek. }
  case_match; [|exact Hpush]. eapply ok_same; [by apply same_budget|exact Hpush].
Qed.

(** ** Retirement, maintenance and shutdown *)

Lemma retire_all_same c st : same st (retire c st).
Proof.
  unfold retire. eapply same_trans; [|by apply same_cred]. split; [|done|].
  - unfold abs. cbn. f_equal. apply map_eq. intros k. rewrite !lookup_fmap. destruct (ps_pools st !! k); cbn; [|done].
    by case_bool_decide.
  - cbn. intros k p'. rewrite lookup_fmap_Some. intros (p & <- & Hp) Ho. case_bool_decide; exact (ao_pool _ Ho k p Hp).
Qed.

Lemma pin_same opts i st : same st (fst (pin opts i st)).
Proof.
  unfold pin. destruct (ps_conns st !! i) as [cn|]; [|apply same_refl].
  destruct (ps_pools st !! sc_pool cn); [|apply same_refl]. case_match; cbn [fst]; [apply same_refl|]. same_chain.
Qed.

Lemma expire_same k now st c : same st (expire k now st c).
Proof.
  unfold expire. destruct (ps_creds st !! c) as [cr|]; [|apply same_refl]. case_match; [apply same_refl|].
  eapply same_trans; [|apply same_revokes]. eapply same_trans; [|apply foldl_same; intros; by apply same_conn].
  eapply same_trans; [|apply same_pool; intros p; by case_bool_decide]. by apply same_cred.
Qed.

Lemma maintain_pool_ok X opts now st k : ok X st → stays X st (maintain_pool opts now st k).
Proof.
  intros Hok. unfold maintain_pool. destruct (ps_pools st !! k) as [p|] eqn:Hp; [|by apply stays_refl].
  set (stale := λ i, match ps_conns st !! i with Some cn => _ | None => false end).
  eapply stays_then_same; [exact (close_part_ok X st k p stale Hok Hp)|]. set (kept := List.filter _ (sp_idle p)).
  set (st1 := upd_pool k (with_idle kept) _). eapply same_trans; [|by apply same_pool].
  eapply same_trans; [|apply foldl_same; intros; apply expire_same].
  destruct (sp_cur p) as [c|]; [|apply same_refl]. destruct (ps_creds st1 !! c) as [cr|]; [|apply same_refl].
  set (st2 := if negb (sp_minting p) && _ && _ then _ else st1).
  assert (H2 : same st1 st2) by (unfold st2; case_match; [|apply same_refl]; same_chain).
  case_match; [|done]. eapply same_trans; [exact H2|]. eapply same_trans; [|apply retire_same]. same_chain.
Qed.

Lemma maintain_ok X opts now live addrs order st : ok X st → stays X st (maintain opts now live addrs order st).
Proof.
  intros Hok. unfold maintain. apply stays_trans with (trimLocked opts live addrs order st); [by apply trimLocked_ok|].
  apply foldl_stays. intros. by apply maintain_pool_ok.
Qed.

Lemma close_creds_same fuel k : ∀ j backing st, same st (close_creds fuel j k backing st).
Proof.
  induction fuel as [|f IH]; intros j backing st; cbn [close_creds]; [by destruct (backing !! j); apply same_refl|].
  destruct (backing !! j) as [c|]; [|apply same_refl]. eapply same_trans; [|apply IH].
  eapply same_trans; [|apply retire_same]. by apply same_cred.
Qed.

Lemma filter_true {A} (l : list A) : List.filter (λ _, true) l = l ∧ List.filter (λ _, negb true) l = [].
Proof. induction l as [|x l [IH1 IH2]]; cbn; [done|]. cbn in IH2. by rewrite IH1, IH2. Qed.

Lemma close_pool_ok X st k : ok X st → stays X st (close_pool st k).
Proof.
  intros Hok. unfold close_pool. destruct (ps_pools st !! k) as [p|] eqn:Hp; [|by apply stays_refl].
  eapply stays_then_same; [|eapply same_trans; [|by apply same_pool]; apply close_creds_same].
  pose proof (close_part_ok X st k p (λ _, true) Hok Hp) as H. cbn zeta in H.
  destruct (filter_true (sp_idle p)) as [E1 E2]. rewrite E1 in H. cbn [negb] in *. by rewrite E2 in H.
Qed.

Lemma close_ok_all X order st : ok X st → stays X st (close order st).
Proof.
  intros Hok. unfold close. destruct (ps_closed st); [by apply stays_refl|].
  apply stays_trans with (with_pclosed true st); [apply stays_same; [done|apply same_closed]|].
  apply foldl_stays. intros. by apply close_pool_ok.
Qed.

(** ** Every step *)

Lemma reserve_spec k now st c st' : reserve k now st = Some (c, st') →
  is_Some (ps_creds st !! c) ∧ st' = upd_cred c (λ c, with_conns (c_conns c + 1) c) st.
Proof.
  unfold reserve. destruct (ps_pools st !! k) as [p|]; cbn; [|done]. destruct (sp_cur p) as [c'|]; cbn; [|done].
  destruct (ps_creds st !! c') as [cr|] eqn:E; cbn; [|done]. case_match; [|done]. intros [= <- <-]. split; [by eexists|done].
Qed.

Lemma unlock_same k st : same st (unlock_mint k st).
Proof. unfold unlock_mint. by apply (same_pool k (with_mintMu false)). Qed.

Lemma usable_ok st n now st' opts SHA256 : ok [] st → step SHA256 opts st (EUsable n now) = Some st' → ok [] st'.
Proof.
  intros Hok. cbn [step]. destruct (ps_threads st !! n) as [t|] eqn:Hn; cbn; [|done].
  destruct (reserve (t_key t) now st) as [[c st1]|] eqn:Er.
  - destruct (reserve_spec _ _ _ _ _ Er) as [Hc ->].
    assert (Hd : reserved (t_phase t) = true → (∀ c', dialing c' (t_phase t) = false) → holds (t_phase t) = None →
      ok [] (set_thread n (with_phase (Dialing c) t) (upd_cred c (λ c, with_conns (c_conns c + 1) c) st)))
      by (intros; by apply dial_start_ok).
    destruct (t_phase t) eqn:Ht; try done; intros Hst; apply (inj Some) in Hst as <-.
    + by apply Hd.
    + eapply ok_same; [apply unlock_same|by apply Hd].
    + eapply ok_same; [apply unlock_same|by apply Hd].
  - destruct (t_phase t) eqn:Ht; try done; intros Hst; apply (inj Some) in Hst as <-.
    + apply (neutral_ok [] _ n t); rewrite ?Ht; done.
    + apply (neutral_ok [] _ n t); rewrite ?Ht; done.
    + eapply ok_same; [apply unlock_same|]. apply (neutral_ok [] _ n t); rewrite ?Ht; done.
Qed.

Lemma checkout_ok SHA256 opts st n t st' ev :
  ok [] st → ps_threads st !! n = Some t →
  match ev with
  | ETurn m _ _ _ | EWake m _ _ | ELock m | EMint m _ | EDial m _ | EOpened m | EPin m | ERetire m | ERelease m _ _ => m = n
  | _ => False
  end → step SHA256 opts st ev = Some st' → ok [] st'.
Proof.
  intros Hok Hn Hev. destruct ev; try done; subst; cbn [step]; rewrite Hn; cbn [mbind option_bind]; intros Hst.
  - destruct (t_phase t) eqn:Ht; try done. apply (inj Some) in Hst as <-. by apply acquire_turn_ok.
  - destruct (t_phase t) eqn:Ht; try done. destruct (ps_budgets st !! _) as [b|]; cbn in Hst; [|done].
    match type of Hst with (if ?c then _ else _) = _ => destruct c; [|done] end. apply (inj Some) in Hst as <-.
    destruct cancelled; [apply finish_ok|apply (neutral_ok [] _ n t)]; rewrite ?Ht; done.
  - destruct (ps_pools st !! t_key t) as [p|]; cbn in Hst; [|done]. destruct (t_phase t) eqn:Ht; try done.
    destruct (sp_mintMu p); [done|]. apply (inj Some) in Hst as <-. eapply ok_same; [by apply same_pool|].
    apply (neutral_ok [] _ n t); rewrite ?Ht; done.
  - destruct (t_phase t) eqn:Ht; try done. pose proof (mintLocked_ok [] opts (t_key t) m st Hok) as (Hok1 & Ht1 & _).
    destruct (mintLocked opts (t_key t) m st) as [st1 [|]]; cbn [fst] in *; apply (inj Some) in Hst as <-; rewrite <- Ht1 in Hn.
    + apply (neutral_ok [] _ n t); rewrite ?Ht; done.
    + eapply ok_same; [apply unlock_same|]. apply (neutral_ok [] _ n t); rewrite ?Ht; done.
  - destruct (t_phase t) eqn:Ht; try done. destruct success; cbn [dialed] in Hst; apply (inj Some) in Hst as <-.
    + by apply (dialed_ok [] st n t c).
    + by apply dial_failed_ok.
  - destruct (t_phase t) eqn:Ht; try done; apply (inj Some) in Hst as <-.
    + apply finish_ok; rewrite ?Ht; try done; [|by rewrite (sm_threads _ _ (same_take_conn t i st))].
      eapply ok_same; [apply same_take_conn|done].
    + by apply unreserve_ok.
  - destruct (t_phase t) eqn:Ht; try done. destruct (ps_conns st !! i) as [cn|]; cbn in Hst; [|done].
    destruct (sc_pinned cn); [done|]. apply (inj Some) in Hst as <-. eapply ok_same; [apply pin_same|done].
  - destruct (t_phase t) eqn:Ht; try done. destruct (ps_conns st !! i) as [cn|]; cbn in Hst; [|done].
    apply (inj Some) in Hst as <-. eapply ok_same; [apply retire_all_same|done].
  - destruct (t_phase t) eqn:Ht; try done. apply (inj Some) in Hst as <-.
    assert (Hgive : ok [i] (set_thread n (with_phase (Finished None) t) st)).
    { destruct Hok as [Ha Hc]. split; [by apply (addr_set_thread n t _ st)|]. rewrite abs_set_thread.
      pose proof (abs_thread _ _ _ Hn) as Hn'. rewrite Ht in Hn'. by apply (cinv_give [] _ n (t_key t)). }
    apply (release_ok [] i reusable now) in Hgive. unfold set_thread in *. rewrite release_threads_comm in Hgive.
    replace (ps_threads (release i reusable now st)) with (ps_threads st); [done|].
    pose proof (release_threads_comm i reusable now (ps_threads st) st) as E.
    apply (f_equal ps_threads) in E. cbn [ps_threads with_threads] in E. rewrite <- E. f_equal. f_equal. by destruct st.
Qed.

Lemma step_ok SHA256 opts st ev st' : ok [] st → step SHA256 opts st ev = Some st' → ok [] st'.
Proof.
  intros Hok Hst. destruct ev as [scope svc pinned now|n| n|n|n|n|n|n|n|n|n|now live addrs order|r|r|r|order|].
  4: by eapply usable_ok.
  2-10: destruct (ps_threads st !! n) as [t|] eqn:Hn; [|by cbn [step] in Hst; rewrite Hn in Hst];
    by refine (checkout_ok SHA256 opts st n t st' _ Hok Hn _ Hst).
  - cbn [step] in Hst. apply (inj Some) in Hst as <-. destruct Hok as [[H1 H2] Hc]. split.
    + split; [done|]. cbn. intros n t [[_ Hn]|[_ <-]]%lookup_snoc_Some; [by apply (H2 n)|done].
    + pose proof (cinv_add_thread [] (pooledKey SHA256 scope svc) _ Hc) as Hd. unfold add_thread in Hd.
      unfold abs. cbn. by rewrite fmap_app.
  - cbn [step] in Hst. destruct (ps_stopped st); [done|]. apply (inj Some) in Hst as <-. by apply maintain_ok.
  - cbn [step] in Hst. destruct (ps_rotations st !! r) as [[k []]|]; cbn in Hst; try done.
    destruct (ps_pools st !! k) as [p|]; cbn in Hst; [|done]. destruct (sp_mintMu p); [done|]. apply (inj Some) in Hst as <-.
    eapply ok_same; [|exact Hok]. same_chain.
  - cbn [step] in Hst. destruct (ps_rotations st !! r) as [[k []]|]; cbn in Hst; try done. apply (inj Some) in Hst as <-.
    eapply ok_same; [apply unlock_same|]. eapply ok_same; [apply same_rotations|]. by apply mintLocked_ok.
  - cbn [step] in Hst. destruct (ps_rotations st !! r) as [[k []]|]; cbn in Hst; try done. apply (inj Some) in Hst as <-.
    eapply ok_same; [|exact Hok]. same_chain.
  - cbn [step] in Hst. apply (inj Some) in Hst as <-. by apply close_ok_all.
  - cbn [step] in Hst. destruct (ps_closed st); [|done]. apply (inj Some) in Hst as <-.
    eapply ok_same; [apply same_stopped|done].
Qed.

Lemma init_ok : ok [] newServerPools.
Proof.
  assert (Hidle : ∀ k, co_idle (abs newServerPools) !! k = None) by (intros k; cbn; by rewrite fmap_empty, lookup_empty).
  split; [split; [intros k p; cbn; by rewrite lookup_empty|done]|]. split; split; try done;
    try (intros k l; rewrite Hidle; done); try (intros k l i; rewrite Hidle; done).
  split; [constructor|]. intros i Hi. by inversion Hi.
Qed.

Lemma reachable_ok SHA256 opts st : reachable SHA256 opts st → ok [] st.
Proof. induction 1 as [|st ev st' _ IH Hst]; [apply init_ok|]. by eapply step_ok. Qed.
