(* ===== verification/PgPoolTheorems.v ===== *)
(** * What the connection pool guarantees

    Theorems about every state the pool can reach, and two runs that break what
    the code's comments say. *)

From S2P Require Import Prelude GoString GoStrconv PgPool PgPoolInv PgPoolSteps.

(** ** Budgets grow only within their limit *)

(** The budget of [a] has no more open than before, or is within its limit. *)
Definition within (st st' : serverPools) (a : bytes) : Prop :=
  open_of (abs st') a <= open_of (abs st) a ∨ ∃ b, ps_budgets st' !! a = Some b ∧ b_open b <= b_limit b.

Lemma shrinks_within st st' a : shrinks st st' → within st st' a.
Proof. intros H. left. apply H. Qed.

Lemma budget_shrinks st st' : b_open <$> ps_budgets st' = b_open <$> ps_budgets st → shrinks st st'.
Proof. intros H a. unfold open_of. cbn. by rewrite H. Qed.

Lemma same_budget_eq st st' : same st st' → b_open <$> ps_budgets st' = b_open <$> ps_budgets st.
Proof. intros Hs. exact (f_equal co_open (sm_abs _ _ Hs)). Qed.

Lemma set_thread_shrinks n t st : shrinks st (set_thread n t st).
Proof. by apply budget_shrinks. Qed.

Lemma finish_shrinks n t ph st : shrinks st (finish n t ph st).
Proof.
  apply budget_shrinks. unfold finish. destruct (t_waiting t); [|done]. cbn. rewrite map_fmap_alter_id; auto.
Qed.

Lemma turn_enter_shrinks opts t live st : shrinks st (turn_enter opts t live st).
Proof.
  intros a. unfold turn_enter. set (st1 := match ps_pools st !! t_key t with Some _ => st | None => _ end).
  assert (E : ps_budgets st1 = ps_budgets st) by (unfold st1; by destruct (ps_pools st !! t_key t)).
  unfold open_of. cbn. rewrite E, fmap_insert. destruct (decide (ds_Addr (t_svc t) = a)) as [->|Hne].
  - rewrite lookup_insert_eq, lookup_fmap. cbn. destruct (ps_budgets st !! a); cbn; lia.
  - by rewrite lookup_insert_ne.
Qed.

Lemma turn_open_within opts n t now order st a : ok [] st → within st (turn_open opts n t now order st) a.
Proof.
  intros Hok. unfold turn_open. set (ad := ds_Addr (t_svc t)). cbn zeta.
  set (st1 := if (match ps_budgets st !! ad with Some b => b_limit b <=? b_open b | None => true end) then _ else st).
  assert (H1 : shrinks st st1) by (unfold st1; case_match; [by apply (evict_ok [])|apply shrinks_refl]).
  clearbody st1. destruct (ps_budgets st1 !! ad) as [b|] eqn:Hb; cbn [negb]; [|by apply shrinks_within].
  destruct (Z.leb_spec (b_limit b) (b_open b)) as [|Hlt]; cbn [negb].
  - apply shrinks_within. eapply shrinks_trans; [exact H1|]. case_match; [apply finish_shrinks|].
    destruct (t_waiting t); cbn beta iota zeta; [case_match; [apply finish_shrinks|apply set_thread_shrinks]|].
    eapply (shrinks_trans _ (upd_budget ad (λ b, with_waiters (b_waiters b + 1) b) st1)).
    + apply budget_shrinks. cbn. rewrite map_fmap_alter_id; auto.
    + case_match; [apply finish_shrinks|apply set_thread_shrinks].
  - destruct (decide (ad = a)) as [<-|Hne].
    + right. cbn. rewrite lookup_alter_eq, Hb. cbn. eexists. split; [done|]. cbn. lia.
    + left. etransitivity; [|apply (H1 a)]. unfold open_of. cbn. rewrite (map_fmap_alter b_open _ (λ z, z + 1)) by done.
      by rewrite lookup_alter_ne.
Qed.

Lemma turn_within opts n t now live order st a :
  ok [] st → ps_threads st !! n = Some t → within st (acquire_turn opts n t now live order st) a.
Proof.
  intros Hok Hn. rewrite acquire_turn_eq. destruct (ps_closed st); [apply shrinks_within, finish_shrinks|].
  destruct (turn_enter_ok [] opts n t live st Hok Hn) as (Hok1 & _ & _).
  pose proof (turn_enter_shrinks opts t live st) as Hs. cbn zeta. set (st1 := turn_enter opts t live st) in *. clearbody st1.
  destruct (ps_pools st1 !! t_key t) as [p|] eqn:Hp; [|by apply shrinks_within].
  destruct (ps_budgets st1 !! ds_Addr (t_svc t)) as [b|]; [|by apply shrinks_within].
  case_match; [apply shrinks_within; eapply shrinks_trans; [exact Hs|apply finish_shrinks]|].
  pose proof (reuse_ok [] (t_key t) (rev (sp_idle p)) st1 Hok1) as Hr.
  destruct (reuse (t_key t) (rev (sp_idle p)) st1) as [st2 found].
  destruct Hr as (_ & _ & Hs2 & Hf); [cbn; rewrite lookup_fmap, Hp, rev_involutive; done|].
  pose proof (shrinks_trans _ _ _ Hs Hs2) as Hs3. destruct found as [i|].
  - apply shrinks_within. eapply shrinks_trans; [exact Hs3|]. eapply shrinks_trans; [|apply finish_shrinks].
    apply same_shrinks, same_take_conn.
  - destruct (turn_open_within opts n t now order st2 a Hf) as [Hle|Hb]; [left|by right].
    specialize (Hs3 a). lia.
Qed.

Lemma release_shrinks X i r now st : ok (i :: X) st → shrinks st (release i r now st).
Proof.
  intros Hok. unfold release. destruct (ps_conns st !! i) as [cn|]; [|apply shrinks_refl].
  set (st1 := if sc_pinned cn then _ else st).
  assert (Hs : same st st1) by (unfold st1; destruct (sc_pinned cn); same_chain).
  assert (Hok1 : ok (i :: X) st1) by (by eapply ok_same). clearbody st1.
  eapply shrinks_trans; [by apply same_shrinks|].
  match goal with |- shrinks _ (if ?b then _ else _) => destruct b end; [by apply (close_shrinks X)|].
  set (st2 := upd_pool (sc_pool cn) _ _). apply (shrinks_trans _ st2); [by apply budget_shrinks|].
  destruct (ps_pools st2 !! sc_pool cn); [|apply shrinks_refl]. apply budget_shrinks. cbn. rewrite map_fmap_alter_id; auto.
Qed.

Lemma give_ok st n t i : ok [] st → ps_threads st !! n = Some t → t_phase t = Holding i →
  ok [i] (set_thread n (with_phase (Finished None) t) st).
Proof.
  intros [Ha Hc] Hn Ht. split; [by apply (addr_set_thread n t _ st)|]. rewrite abs_set_thread.
  pose proof (abs_thread _ _ _ Hn) as Hn'. rewrite Ht in Hn'. by apply (cinv_give [] _ n (t_key t)).
Qed.

Lemma dialed_shrinks k c b st : shrinks st (fst (dialed k c b st)).
Proof.
  apply budget_shrinks. unfold dialed. destruct b; [done|]. cbn [fst]. by rewrite (same_budget_eq _ _ (retire_same _ _ _)).
Qed.

Lemma checkout_within SHA256 opts st ev st' n t :
  ok [] st → ps_threads st !! n = Some t →
  match ev with
  | EWake m _ _ | EUsable m _ | ELock m | EMint m _ | EDial m _ | EOpened m | EPin m | ERetire m | ERelease m _ _ => m = n
  | _ => False
  end → step SHA256 opts st ev = Some st' → shrinks st st'.
Proof.
  intros Hok Hn Hev. destruct ev; try done; subst; cbn [step]; rewrite Hn; cbn [mbind option_bind]; intros Hst.
  - destruct (t_phase t); try done. destruct (ps_budgets st !! _) as [b|]; cbn in Hst; [|done].
    match type of Hst with (if ?c then _ else _) = _ => destruct c; [|done] end. apply (inj Some) in Hst as <-.
    destruct cancelled; [apply finish_shrinks|apply set_thread_shrinks].
  - destruct (reserve (t_key t) now st) as [[c st1]|] eqn:Er; [apply reserve_spec in Er as [_ ->]|];
      (destruct (t_phase t); try done; apply (inj Some) in Hst as <-; by apply budget_shrinks).
  - destruct (ps_pools st !! t_key t) as [p|]; cbn in Hst; [|done]. destruct (t_phase t); try done.
    destruct (sp_mintMu p); [done|]. apply (inj Some) in Hst as <-. by apply budget_shrinks.
  - destruct (t_phase t); try done. pose proof (mintLocked_ok [] opts (t_key t) m st Hok) as (_ & _ & Hs).
    destruct (mintLocked opts (t_key t) m st) as [st1 [|]]; cbn [fst] in *; apply (inj Some) in Hst as <-;
      (eapply shrinks_trans; [exact Hs|by apply budget_shrinks]).
  - destruct (t_phase t); try done. pose proof (dialed_shrinks (t_key t) c success st) as Hs.
    destruct (dialed (t_key t) c success st) as [st1 ph]. apply (inj Some) in Hst as <-.
    eapply shrinks_trans; [exact Hs|apply set_thread_shrinks].
  - destruct (t_phase t); try done; apply (inj Some) in Hst as <-; (eapply shrinks_trans; [|apply finish_shrinks]).
    + apply same_shrinks, same_take_conn.
    + intros x. unfold open_of. cbn. rewrite (map_fmap_alter b_open _ (λ z, z - 1)) by done.
      destruct (decide (ds_Addr (t_svc t) = x)) as [->|Hne]; [|by rewrite lookup_alter_ne].
      rewrite lookup_alter_eq. destruct ((b_open <$> ps_budgets st) !! x); cbn; lia.
  - destruct (t_phase t); try done. destruct (ps_conns st !! i) as [cn|]; cbn in Hst; [|done].
    destruct (sc_pinned cn); [done|]. apply (inj Some) in Hst as <-. apply same_shrinks, pin_same.
  - destruct (t_phase t); try done. destruct (ps_conns st !! i) as [cn|]; cbn in Hst; [|done].
    apply (inj Some) in Hst as <-. apply same_shrinks, retire_all_same.
  - destruct (t_phase t) eqn:Ht; try done. apply (inj Some) in Hst as <-.
    pose proof (release_shrinks [] i reusable now _ (give_ok st n t i Hok Hn Ht)) as Hs. unfold set_thread in Hs at 2.
    rewrite release_threads_comm in Hs. exact Hs.
Qed.

Lemma step_within SHA256 opts st ev st' a : ok [] st → step SHA256 opts st ev = Some st' → within st st' a.
Proof.
  intros Hok Hst. destruct ev as [scope svc pinned now|n now live order|n|n|n|n|n|n|n|n|n|now live addrs order|r|r|r|order|].
  3-11: apply shrinks_within; destruct (ps_threads st !! n) as [t|] eqn:Hn; [|by cbn [step] in Hst; rewrite Hn in Hst];
    by refine (checkout_within SHA256 opts st _ st' n t Hok Hn _ Hst).
  2: { cbn [step] in Hst. destruct (ps_threads st !! n) as [t|] eqn:Hn; cbn in Hst; [|done].
       destruct (t_phase t); try done. apply (inj Some) in Hst as <-. by apply turn_within. }
  all: apply shrinks_within; cbn [step] in Hst.
  - apply (inj Some) in Hst as <-. by apply budget_shrinks.
  - destruct (ps_stopped st); [done|]. apply (inj Some) in Hst as <-. by apply (maintain_ok []).
  - destruct (ps_rotations st !! r) as [[k []]|]; cbn in Hst; try done.
    destruct (ps_pools st !! k) as [p|]; cbn in Hst; [|done]. destruct (sp_mintMu p); [done|]. apply (inj Some) in Hst as <-.
    by apply budget_shrinks.
  - destruct (ps_rotations st !! r) as [[k []]|]; cbn in Hst; try done. apply (inj Some) in Hst as <-.
    destruct (mintLocked_ok [] opts k m st Hok) as (_ & _ & Hs). eapply shrinks_trans; [exact Hs|by apply budget_shrinks].
  - destruct (ps_rotations st !! r) as [[k []]|]; cbn in Hst; try done. apply (inj Some) in Hst as <-. by apply budget_shrinks.
  - apply (inj Some) in Hst as <-. by apply (close_ok_all []).
  - destruct (ps_closed st); [|done]. apply (inj Some) in Hst as <-. by apply budget_shrinks.
Qed.

(** ** Revocation *)

Definition cred_id (r : revocation) : option nat := match r with RevokeCred c => Some c | RevokeLease _ => None end.

(** Each revoked credential was sent for revocation once. *)
Definition log_ok (st : serverPools) : Prop :=
  NoDup (omap cred_id (ps_revokes st)) ∧
  ∀ c, c ∈ omap cred_id (ps_revokes st) ↔ ∃ cr, ps_creds st !! c = Some cr ∧ c_revoked cr = true.

Section Revocation.
(** The expiry times that have passed. *)
Context (late : Z → Prop).

(** From [st] to [st'], a credential is revoked only without connections or past
    its expiry, and a revoked one gets no new connection. *)
Record drained (st st' : serverPools) : Prop := {
  dr_creds : ∀ c cr', ps_creds st' !! c = Some cr' → c_revoked cr' = true →
    c_conns cr' <= 0 ∨ late (l_ExpiresAt (c_lease cr')) ∨
    ∃ cr, ps_creds st !! c = Some cr ∧ c_revoked cr = true ∧ c_lease cr = c_lease cr' ∧ c_conns cr' <= c_conns cr;
  dr_log : log_ok st → log_ok st';
}.

Lemma drained_refl st : drained st st.
Proof. split; [|done]. intros c cr Hc Hr. right. right. by exists cr. Qed.

Lemma drained_trans a b c : drained a b → drained b c → drained a c.
Proof.
  intros [A1 A2] [B1 B2]. split; [|auto]. intros x cr Hx Hr.
  destruct (B1 x cr Hx Hr) as [?|[?|(cr1 & H1 & R1 & L1 & C1)]]; [by left|by right; left|].
  destruct (A1 x cr1 H1 R1) as [?|[Hl|(cr2 & H2 & R2 & L2 & C2)]]; [left; lia|right; left; by rewrite <- L1|].
  right. right. exists cr2. split_and!; [done|done|congruence|lia].
Qed.

Lemma drained_frame st st' : ps_creds st' = ps_creds st → ps_revokes st' = ps_revokes st → drained st st'.
Proof.
  intros E1 E2. split; [|unfold log_ok; by rewrite E1, E2]. intros c cr Hc Hr. rewrite E1 in Hc. right. right. by exists cr.
Qed.

(** [f] neither revokes nor, once revoked, adds connections. *)
Lemma drained_cred c f st :
  (∀ cr, ps_creds st !! c = Some cr → c_revoked (f cr) = c_revoked cr ∧ c_lease (f cr) = c_lease cr ∧
     (c_revoked cr = true → c_conns (f cr) <= c_conns cr)) → drained st (upd_cred c f st).
Proof.
  intros Hf. assert (Hlook : ∀ x cr', alter f c (ps_creds st) !! x = Some cr' →
    ∃ cr, ps_creds st !! x = Some cr ∧ c_revoked cr' = c_revoked cr ∧ c_lease cr' = c_lease cr ∧
      (c_revoked cr = true → c_conns cr' <= c_conns cr)).
  { intros x cr' Hx. destruct (decide (x = c)) as [->|Hne].
    - rewrite list_lookup_alter_eq in Hx. destruct (ps_creds st !! c) as [cr|] eqn:E; [|done]. injection Hx as <-.
      exists cr. split; [done|]. by apply Hf.
    - rewrite list_lookup_alter_ne in Hx by done. by exists cr'. }
  split; cbn.
  - intros x cr' Hx Hr. destruct (Hlook x cr' Hx) as (cr & Hcr & Er & El & Hle). right. right. exists cr.
    rewrite <- Er in Hle |- *. by split_and!; [| | |auto].
  - intros [H1 H2]. split; [done|]. intros x. cbn. rewrite H2. split.
    + intros (cr & Hcr & Hr). destruct (alter f c (ps_creds st) !! x) as [cr'|] eqn:E.
      * exists cr'. split; [done|]. destruct (Hlook x cr' E) as (cr0 & Hcr0 & Er & _). congruence.
      * apply lookup_ge_None in E. rewrite length_alter in E. apply lookup_lt_Some in Hcr. lia.
    + intros (cr' & Hx & Hr). destruct (Hlook x cr' Hx) as (cr & Hcr & Er & _). exists cr. split; [done|congruence].
Qed.

Lemma omap_snoc r l : omap cred_id (l ++ [r]) = omap cred_id l ++ omap cred_id [r].
Proof. induction l as [|x l IH]; cbn; [done|]. destruct (cred_id x); cbn; by rewrite ?IH. Qed.

(** Marking one more credential revoked and logging it. *)
Lemma drained_revoke c cr f st st' :
  ps_creds st !! c = Some cr → c_revoked cr = false → c_revoked (f cr) = true → c_lease (f cr) = c_lease cr →
  (c_conns (f cr) <= 0 ∨ late (l_ExpiresAt (c_lease cr))) →
  ps_creds st' = alter f c (ps_creds st) → ps_revokes st' = ps_revokes st ++ [RevokeCred c] → drained st st'.
Proof.
  intros Hc Hnr Hr Hl Hwhy Ec Er. split.
  - intros x cr' Hx Hrx. rewrite Ec in Hx. destruct (decide (x = c)) as [->|Hne].
    + rewrite list_lookup_alter_eq, Hc in Hx. injection Hx as <-. rewrite Hl. destruct Hwhy; auto.
    + rewrite list_lookup_alter_ne in Hx by done. right. right. by exists cr'.
  - intros [H1 H2]. unfold log_ok. rewrite Er, Ec, omap_snoc. cbn. split.
    + apply NoDup_app. split_and!; [done| |apply NoDup_singleton]. intros x Hx ->%list_elem_of_singleton.
      apply H2 in Hx as (cr' & Hc' & Hr'). congruence.
    + intros x. rewrite elem_of_app, list_elem_of_singleton, H2. destruct (decide (x = c)) as [->|Hne].
      * split; [|by right]. intros _. exists (f cr). by rewrite list_lookup_alter_eq, Hc.
      * rewrite list_lookup_alter_ne by done. naive_solver.
Qed.

Lemma drained_retire k c st : drained st (retireIfDrainedLocked k c st).
Proof.
  unfold retireIfDrainedLocked. destruct (ps_creds st !! c) as [cr|] eqn:Hc; [|apply drained_refl].
  destruct (negb (c_retiring cr) || c_revoked cr || (0 <? c_conns cr)) eqn:E; [apply drained_refl|].
  apply orb_false_iff in E as [[_ Hr]%orb_false_iff Hz%Z.ltb_ge].
  apply (drained_revoke c cr (with_revoked true)); try done. by left.
Qed.

Lemma drained_close i st : drained st (closeLocked i st).
Proof.
  unfold closeLocked. destruct (ps_conns st !! i) as [cn|]; [|apply drained_refl].
  eapply drained_trans; [|apply drained_retire]. set (st1 := upd_cred _ _ _).
  apply (drained_trans _ st1); [|by apply drained_frame; destruct (ps_pools st1 !! sc_pool cn)].
  apply (drained_trans _ (upd_conn i (with_closed true) st)); [by apply drained_frame|].
  apply drained_cred. intros cr _. cbn. split_and!; [done|done|]. intros _. lia.
Qed.

Lemma drained_foldl {A} (f : serverPools → A → serverPools) l :
  (∀ st x, drained st (f st x)) → ∀ st, drained st (foldl f st l).
Proof.
  intros Hf. induction l as [|x l IH]; intros st; cbn; [apply drained_refl|]. eapply drained_trans; [apply Hf|apply IH].
Qed.

Lemma drained_close_all l st : drained st (close_all l st).
Proof. apply drained_foldl. intros. apply drained_close. Qed.

Lemma drained_pop_close i k l st : drained st (closeLocked i (upd_pool k (with_idle l) st)).
Proof. eapply drained_trans; [|apply drained_close]. by apply drained_frame. Qed.

Lemma drained_trim fuel a k : ∀ st, drained st (trim_idle fuel a k st).
Proof.
  induction fuel as [|f IH]; intros st; cbn [trim_idle]; [apply drained_refl|].
  repeat (case_match; try apply drained_refl). eapply drained_trans; [apply drained_pop_close|apply IH].
Qed.

Lemma drained_trimLocked opts live addrs order st : drained st (trimLocked opts live addrs order st).
Proof.
  apply drained_foldl. intros st' a. unfold trim_budget. destruct (ps_budgets st' !! a) as [b|]; [|apply drained_refl].
  case_match; [apply drained_refl|]. set (st1 := upd_budget a _ st').
  assert (H1 : drained st' (foldl (trim_pool a) st1 order)).
  { apply (drained_trans _ st1); [by apply drained_frame|]. apply drained_foldl. intros st2 k. unfold trim_pool.
    repeat (case_match; try apply drained_refl). apply drained_trim. }
  case_match; [|done]. eapply drained_trans; [exact H1|by apply drained_frame].
Qed.

Lemma drained_evict order addr except : ∀ st, drained st (evictIdleLocked order addr except st).
Proof.
  induction order as [|k order IH]; intros st; cbn [evictIdleLocked]; [apply drained_refl|].
  repeat (case_match; try apply IH). apply drained_pop_close.
Qed.

Lemma drained_reuse k l : ∀ st, drained st (fst (reuse k l st)).
Proof.
  induction l as [|i l IH]; intros st; cbn [reuse]; [apply drained_refl|].
  destruct (cred_of _ i) as [cr|]; [destruct (c_retiring cr)|]; [|by apply drained_frame..].
  eapply drained_trans; [apply drained_pop_close|apply IH].
Qed.

Lemma drained_retire_old k old st : drained st (retire_old k old st).
Proof.
  unfold retire_old. set (st1 := upd_cred old (with_retiring true) st). eapply drained_trans; [|apply drained_retire].
  match goal with |- drained _ (upd_pool k ?f (close_all ?l st1)) => apply (drained_trans _ (close_all l st1)) end;
    [|by apply drained_frame].
  apply (drained_trans _ st1); [by apply drained_cred|apply drained_close_all].
Qed.

Lemma drained_new_cred opts k c m l st :
  drained st (upd_pool k (λ p, with_creds (sp_creds p ++ [c]) (with_cur (Some c) p))
                (with_pcreds (ps_creds st ++ [new_credential opts m l]) st)).
Proof.
  split; cbn.
  - intros x cr [[_ Hx]|[_ <-]]%lookup_snoc_Some Hr; [|done]. right. right. by exists cr.
  - intros [H1 H2]. split; [done|]. intros x. cbn. rewrite H2. split.
    + intros (cr & Hx & Hr). exists cr. split; [by apply lookup_app_l_Some|done].
    + intros (cr & [[_ Hx]|[_ <-]]%lookup_snoc_Some & Hr); [by exists cr|done].
Qed.

Lemma drained_mint opts k m st : drained st (fst (mintLocked opts k m st)).
Proof.
  unfold mintLocked. destruct (mt_lease m) as [l|]; [|apply drained_refl]. destruct (lease_valid m l); cbn [negb fst].
  - destruct (p ← ps_pools st !! k; sp_cur p) as [old|]; [|apply drained_new_cred].
    eapply drained_trans; [apply drained_retire_old|apply drained_new_cred].
  - case_bool_decide; [apply drained_refl|]. split; cbn.
    + intros c cr Hc Hr. right. right. by exists cr.
    + unfold log_ok. cbn. rewrite omap_snoc. cbn. by rewrite app_nil_r.
Qed.

Lemma drained_release i r now st : drained st (release i r now st).
Proof.
  unfold release. destruct (ps_conns st !! i) as [cn|]; [|apply drained_refl]. set (st1 := if sc_pinned cn then _ else st).
  assert (H1 : drained st st1) by (unfold st1; destruct (sc_pinned cn); [by apply drained_frame|apply drained_refl]).
  eapply drained_trans; [exact H1|]. match goal with |- drained _ (if ?b then _ else _) => destruct b end; [apply drained_close|].
  case_match; by apply drained_frame.
Qed.

Lemma drained_expire k now st c : (∀ z, z <= now → late z) → drained st (expire k now st c).
Proof.
  intros Hlate. unfold expire. destruct (ps_creds st !! c) as [cr|] eqn:Hc; [|apply drained_refl].
  destruct (c_revoked cr || (now <? l_ExpiresAt (c_lease cr))) eqn:E; [apply drained_refl|].
  apply orb_false_iff in E as [Hr Hz%Z.ltb_ge]. set (st2 := foldl _ _ _).
  assert (E2 : ps_creds st2 = alter (λ c, with_revoked true (with_retiring true c)) c (ps_creds st) ∧ ps_revokes st2 = ps_revokes st).
  { unfold st2. set (s0 := upd_pool k _ _). assert (E0 : ps_creds s0 = alter (λ c, with_revoked true (with_retiring true c)) c (ps_creds st)
      ∧ ps_revokes s0 = ps_revokes st) by done. clearbody s0. revert s0 E0.
    induction (elements (c_open cr)) as [|i l IH]; intros s0 E0; cbn; [done|]. by apply IH. }
  destruct E2 as [E2 E3]. apply (drained_revoke c cr (λ c, with_revoked true (with_retiring true c))); try done.
  - right. by apply Hlate.
  - cbn. by rewrite E3.
Qed.

Lemma drained_maintain opts now live addrs order st : (∀ z, z <= now → late z) → drained st (maintain opts now live addrs order st).
Proof.
  intros Hlate. unfold maintain. eapply drained_trans; [apply drained_trimLocked|]. apply drained_foldl. intros st0 k.
  unfold maintain_pool. destruct (ps_pools st0 !! k) as [p|]; [|apply drained_refl].
  set (stale := λ i, match ps_conns st0 !! i with Some cn => _ | None => false end).
  set (st1 := upd_pool k _ (close_all (List.filter stale (sp_idle p)) st0)).
  assert (H1 : drained st0 st1) by (eapply drained_trans; [apply (drained_close_all (List.filter stale (sp_idle p)))|by apply drained_frame]).
  set (st2 := match sp_cur p with Some c => _ | None => st1 end).
  assert (H2 : drained st1 st2).
  { unfold st2. destruct (sp_cur p) as [c|]; [|apply drained_refl]. destruct (ps_creds st1 !! c) as [cr|]; [|apply drained_refl].
    set (s := if negb (sp_minting p) && _ && _ then _ else st1).
    assert (Hs : drained st1 s) by (unfold s; case_match; [by apply drained_frame|apply drained_refl]).
    case_match; [|done]. eapply drained_trans; [exact Hs|]. eapply drained_trans; [|apply drained_retire].
    apply (drained_trans _ (upd_cred c (with_retiring true) s)); [by apply drained_cred|by apply drained_frame]. }
  eapply drained_trans; [exact H1|]. eapply drained_trans; [exact H2|]. clearbody st2.
  match goal with |- drained _ (upd_pool k _ ?s) => apply (drained_trans _ s); [|by apply drained_frame] end.
  apply drained_foldl. intros. by apply drained_expire.
Qed.

Lemma drained_close_creds k fuel : ∀ j cs st, drained st (close_creds fuel j k cs st).
Proof.
  induction fuel as [|f IH]; intros j cs st; cbn [close_creds]; [destruct (cs !! j); apply drained_refl|].
  destruct (cs !! j) as [c|]; [|apply drained_refl].
  apply (drained_trans _ (retireIfDrainedLocked k c (upd_cred c (with_retiring true) st))); [|apply IH].
  eapply drained_trans; [|apply drained_retire]. by apply drained_cred.
Qed.

Lemma drained_shutdown order st : drained st (close order st).
Proof.
  unfold close. destruct (ps_closed st); [apply drained_refl|].
  apply (drained_trans _ (with_pclosed true st)); [by apply drained_frame|]. apply drained_foldl. intros st0 k.
  unfold close_pool. destruct (ps_pools st0 !! k) as [p|]; [|apply drained_refl].
  set (st1 := upd_pool k (with_idle []) (close_all (sp_idle p) st0)).
  assert (H1 : drained st0 st1) by (eapply drained_trans; [apply (drained_close_all (sp_idle p))|by apply drained_frame]).
  eapply drained_trans; [exact H1|]. clearbody st1. set (cs := match ps_pools st1 !! k with Some p => sp_creds p | None => [] end).
  match goal with |- drained _ (upd_pool k _ ?s) => apply (drained_trans _ s); [|by apply drained_frame] end.
  apply drained_close_creds.
Qed.
End Revocation.

(** The expiries a step may count as passed: those before a maintenance tick. *)
Definition passed (ev : event) (z : Z) : Prop :=
  match ev with EMaintain now _ _ _ => z <= now | _ => False end.

Lemma drained_turn late opts n t now live order st : drained late st (acquire_turn opts n t now live order st).
Proof.
  assert (Hfin : ∀ t st ph, drained late st (finish n t ph st))
    by (intros t' st' ph; unfold finish; destruct (t_waiting t'); by apply drained_frame).
  assert (Hset : ∀ t st, drained late st (set_thread n t st)) by (intros; by apply drained_frame).
  rewrite acquire_turn_eq. destruct (ps_closed st); [apply Hfin|]. cbn zeta. set (st1 := turn_enter opts t live st).
  assert (H1 : drained late st st1) by (unfold st1, turn_enter; destruct (ps_pools st !! t_key t); by apply drained_frame).
  eapply drained_trans; [exact H1|]. clearbody st1. destruct (ps_pools st1 !! t_key t) as [p|]; [|apply drained_refl].
  destruct (ps_budgets st1 !! ds_Addr (t_svc t)); [|apply drained_refl]. case_match; [apply Hfin|].
  pose proof (drained_reuse late (t_key t) (rev (sp_idle p)) st1) as Hr.
  destruct (reuse (t_key t) (rev (sp_idle p)) st1) as [st2 [i|]]; cbn [fst] in Hr; (eapply drained_trans; [exact Hr|]).
  - apply (drained_trans _ _ (take_conn t i st2)); [|apply Hfin]. unfold take_conn. destruct (t_pinned t); by apply drained_frame.
  - unfold turn_open. cbn zeta. set (st3 := if (match ps_budgets st2 !! _ with Some x => _ | None => true end) then _ else st2).
    assert (H3 : drained late st2 st3) by (unfold st3; case_match; [apply drained_evict|apply drained_refl]).
    eapply drained_trans; [exact H3|]. clearbody st3. destruct (ps_budgets st3 !! _) as [bud|]; [|apply drained_refl].
    case_match; [by apply drained_frame|]. case_match; [apply Hfin|]. destruct (t_waiting t).
    + case_match; [apply Hfin|apply Hset].
    + apply (drained_trans _ _ (upd_budget (ds_Addr (t_svc t)) (λ b, with_waiters (b_waiters b + 1) b) st3)); [by apply drained_frame|].
      case_match; [apply Hfin|apply Hset].
Qed.

Lemma checkout_drained SHA256 opts st ev st' n t :
  ps_threads st !! n = Some t →
  match ev with
  | ETurn m _ _ _ | EWake m _ _ | EUsable m _ | ELock m | EMint m _ | EDial m _ | EOpened m | EPin m | ERetire m
  | ERelease m _ _ => m = n
  | _ => False
  end → step SHA256 opts st ev = Some st' → drained (passed ev) st st'.
Proof.
  intros Hn Hev. destruct ev; try done; subst; cbn [step]; rewrite Hn; cbn [mbind option_bind]; intros Hst.
  - destruct (t_phase t); try done. apply (inj Some) in Hst as <-. apply drained_turn.
  - destruct (t_phase t); try done. destruct (ps_budgets st !! _) as [b|]; cbn in Hst; [|done].
    match type of Hst with (if ?c then _ else _) = _ => destruct c; [|done] end. apply (inj Some) in Hst as <-.
    destruct cancelled; [unfold finish; destruct (t_waiting t)|]; by apply drained_frame.
  - destruct (reserve (t_key t) now st) as [[c st1]|] eqn:Er.
    + assert (H1 : drained (passed (EUsable n now)) st st1).
      { unfold reserve in Er. destruct (ps_pools st !! t_key t) as [p|]; cbn in Er; [|done].
        destruct (sp_cur p) as [c'|]; cbn in Er; [|done]. destruct (ps_creds st !! c') as [cr|] eqn:Hc; cbn in Er; [|done].
        destruct (c_revoked cr) eqn:Hr; [by rewrite andb_false_r in Er|].
        match type of Er with (if ?b then _ else _) = _ => destruct b; [|done] end. injection Er as <- <-.
        apply drained_cred. intros cr' Hc'. rewrite Hc in Hc'. injection Hc' as <-. cbn. by rewrite Hr. }
      eapply drained_trans; [exact H1|]. destruct (t_phase t); try done; apply (inj Some) in Hst as <-; by apply drained_frame.
    + destruct (t_phase t); try done; apply (inj Some) in Hst as <-; by apply drained_frame.
  - destruct (ps_pools st !! t_key t) as [p|]; cbn in Hst; [|done]. destruct (t_phase t); try done.
    destruct (sp_mintMu p); [done|]. apply (inj Some) in Hst as <-. by apply drained_frame.
  - destruct (t_phase t); try done. pose proof (drained_mint (passed (EMint n m)) opts (t_key t) m st) as Hd.
    destruct (mintLocked opts (t_key t) m st) as [st1 [|]]; cbn [fst] in *; apply (inj Some) in Hst as <-;
      (eapply drained_trans; [exact Hd|by apply drained_frame]).
  - destruct (t_phase t); try done. destruct success; cbn [dialed] in Hst; apply (inj Some) in Hst as <-.
    + match goal with |- drained _ _ (set_thread _ _ ?s) => apply (drained_trans _ _ s); [|by apply drained_frame] end.
      match goal with |- drained _ _ (upd_cred _ _ ?s) => apply (drained_trans _ _ s); [by apply drained_frame|] end.
      by apply drained_cred.
    + match goal with |- drained _ _ (set_thread _ _ ?s) => apply (drained_trans _ _ s); [|by apply drained_frame] end.
      eapply drained_trans; [|apply drained_retire]. apply drained_cred. intros cr _. cbn. split_and!; [done|done|lia].
  - destruct (t_phase t); try done; apply (inj Some) in Hst as <-; unfold finish, take_conn;
      destruct (t_waiting t); try destruct (t_pinned t); by apply drained_frame.
  - destruct (t_phase t); try done. destruct (ps_conns st !! i) as [cn|] eqn:Ei; cbn in Hst; [|done].
    destruct (sc_pinned cn); [done|]. apply (inj Some) in Hst as <-. unfold pin. rewrite Ei.
    destruct (ps_pools st !! sc_pool cn); [|apply drained_refl]. case_match; [apply drained_refl|by apply drained_frame].
  - destruct (t_phase t); try done. destruct (ps_conns st !! i) as [cn|]; cbn in Hst; [|done]. apply (inj Some) in Hst as <-.
    unfold retire. match goal with |- drained _ _ (upd_cred _ _ ?s) => apply (drained_trans _ _ s); [by apply drained_frame|] end.
    by apply drained_cred.
  - destruct (t_phase t); try done. apply (inj Some) in Hst as <-.
    eapply drained_trans; [apply drained_release|by apply drained_frame].
Qed.

Lemma step_drained SHA256 opts st ev st' : step SHA256 opts st ev = Some st' → drained (passed ev) st st'.
Proof.
  intros Hst. destruct ev as [scope svc pinned now|n now live order|n|n|n|n|n|n|n|n|n|now live addrs order|r|r|r|order|].
  2-11: destruct (ps_threads st !! n) as [t|] eqn:Hn; [|by cbn [step] in Hst; rewrite Hn in Hst];
    by refine (checkout_drained SHA256 opts st _ st' n t Hn _ Hst).
  all: cbn [step] in Hst.
  - apply (inj Some) in Hst as <-. by apply drained_frame.
  - destruct (ps_stopped st); [done|]. apply (inj Some) in Hst as <-. by apply drained_maintain.
  - destruct (ps_rotations st !! r) as [[k []]|]; cbn in Hst; try done.
    destruct (ps_pools st !! k) as [p|]; cbn in Hst; [|done]. destruct (sp_mintMu p); [done|]. apply (inj Some) in Hst as <-.
    by apply drained_frame.
  - destruct (ps_rotations st !! r) as [[k []]|]; cbn in Hst; try done. apply (inj Some) in Hst as <-.
    eapply drained_trans; [apply (drained_mint _ opts k m)|by apply drained_frame].
  - destruct (ps_rotations st !! r) as [[k []]|]; cbn in Hst; try done. apply (inj Some) in Hst as <-. by apply drained_frame.
  - apply (inj Some) in Hst as <-. apply drained_shutdown.
  - destruct (ps_closed st); [|done]. apply (inj Some) in Hst as <-. by apply drained_frame.
Qed.

Lemma reachable_log SHA256 opts st : reachable SHA256 opts st → log_ok st.
Proof.
  induction 1 as [|st ev st' _ IH Hst]; [|by eapply dr_log; [by eapply step_drained|]].
  split; [constructor|]. intros c. cbn. split; [by inversion 1|]. by intros (cr & ? & _).
Qed.

(** ** The theorems *)

Definition budget_open (st : serverPools) (a : bytes) : Z :=
  match ps_budgets st !! a with Some b => b_open b | None => 0 end.

Lemma open_of_abs st a : open_of (abs st) a = budget_open st a.
Proof. unfold open_of, budget_open. cbn. rewrite lookup_fmap. by destruct (ps_budgets st !! a). Qed.

(** The pool's counters are exact in every state it can reach, whatever the
    interleaving of checkouts, mints, dials, releases, rotations, maintenance
    and shutdown: a budget's [open] is the number of open connections to the
    address plus the checkouts that are opening one, a credential's [conns] the
    number of connections open on it plus those being dialed.  And a step that raises
    [open] leaves it within the budget's current limit. *)
Theorem pool_accounting SHA256 opts st (Hreach : reachable SHA256 opts st) :
  (∀ a, budget_open st a = live_count (abs st) a + reserved_count (abs st) a) ∧
  (∀ c cr, ps_creds st !! c = Some cr → c_conns cr = Z.of_nat (size (c_open cr)) + dialing_count (abs st) c) ∧
  (∀ ev st' a, step SHA256 opts st ev = Some st' → budget_open st a < budget_open st' a →
     ∃ b, ps_budgets st' !! a = Some b ∧ b_open b <= b_limit b).
Proof.
  apply reachable_ok in Hreach as Hok. destruct (ok_core _ _ Hok) as [Hk _]. split_and!.
  - intros a. rewrite <- open_of_abs. apply (i_budget _ Hk).
  - intros c cr Hc. apply (i_conns _ Hk c). cbn. by rewrite list_lookup_fmap, Hc.
  - intros ev st' a Hst. rewrite <- !open_of_abs. intros Hlt.
    destruct (step_within _ _ _ _ _ a Hok Hst) as [Hle|Hb]; [lia|done].
Qed.

(** C12: a server connection has one owner.  Two checkouts never hold the same
    one, a held one is in no idle list and belongs to the pool the checkout asked for (so to its role,
    target and trust), and none is lost: every open connection is idle or held. *)
Theorem pool_exclusive SHA256 opts st (Hreach : reachable SHA256 opts st) :
  (∀ n m t t' i, ps_threads st !! n = Some t → ps_threads st !! m = Some t' →
     holds (t_phase t) = Some i → holds (t_phase t') = Some i → n = m) ∧
  (∀ n t i, ps_threads st !! n = Some t → holds (t_phase t) = Some i →
     (∀ (k : poolKey) (p : serverPool), ps_pools st !! k = Some p → i ∉ sp_idle p) ∧
     ∃ cn, ps_conns st !! i = Some cn ∧ sc_pool cn = t_key t) ∧
  (∀ c cr i, ps_creds st !! c = Some cr → i ∈ c_open cr →
     (∃ (k : poolKey) (p : serverPool), ps_pools st !! k = Some p ∧ i ∈ sp_idle p) ∨
     (∃ n t, ps_threads st !! n = Some t ∧ holds (t_phase t) = Some i)).
Proof.
  apply reachable_ok in Hreach as Hok. destruct (ok_core _ _ Hok) as [Hk Ho]. split_and!.
  - intros n m t t' i Hn Hm. apply (i_excl _ _ Ho n m (t_key t) (t_key t') _ _ i); by apply abs_thread.
  - intros n t i Hn Hh. destruct (i_held _ _ Ho n (t_key t) (t_phase t) i (abs_thread _ _ _ Hn) Hh) as (_ & [c Hc] & Hni).
    split; [|destruct (abs_conn _ _ _ _ Hc) as (cn & ? & _ & ?); by exists cn].
    intros k p Hp. apply (Hni k). cbn. by rewrite lookup_fmap, Hp.
  - intros c cr i Hc Hi. assert (Hl : liveb (abs st) i = true).
    { assert (Hcc : co_creds (abs st) !! c = Some (c_conns cr, c_open cr)) by (cbn; by rewrite list_lookup_fmap, Hc).
      destruct (i_open _ Hk c _ _ i Hcc Hi) as (k & Hci & _). unfold liveb. rewrite Hci, Hcc. by apply bool_decide_eq_true. }
    destruct (i_owned _ _ Ho i Hl) as [(k & l & Hkl & Hil)|[(m & k & ph & Hm & Hh)|Hx]]; [left|right|by inversion Hx].
    + destruct (abs_idle _ _ _ Hkl) as (p & Hp & <-). by exists k, p.
    + cbn in Hm. rewrite list_lookup_fmap in Hm. destruct (ps_threads st !! m) as [t|] eqn:Ht; [|done].
      injection Hm as <- <-. by exists m, t.
Qed.

Lemma countb_nodup c l : NoDup (omap cred_id l) → c ∈ omap cred_id l →
  countb (λ r, bool_decide (cred_id r = Some c)) l = 1.
Proof.
  assert (Hnone : ∀ l, c ∉ omap cred_id l → countb (λ r, bool_decide (cred_id r = Some c)) l = 0).
  { intros k. induction k as [|r k IH]; [done|]. cbn [countb]. destruct r as [d|x]; cbn [omap list_omap cred_id].
    - rewrite not_elem_of_cons. intros [Hd Hl]. rewrite bool_decide_false by congruence. by apply IH.
    - intros Hl. rewrite bool_decide_false by done. by apply IH. }
  induction l as [|r l IH]; [by inversion 2|]. cbn [countb]. destruct r as [d|x]; cbn [omap list_omap cred_id].
  - intros [Hd Hl]%NoDup_cons [->|Hin]%elem_of_cons.
    + rewrite bool_decide_true by done. by rewrite Hnone.
    + rewrite bool_decide_false; [by apply IH|]. intros [= ->]. done.
  - rewrite bool_decide_false by done. apply IH.
Qed.

(** Rotation never cuts a running transaction.  When a step revokes a
    credential, no connection is open or being dialed on it, or its lease had
    expired at a maintenance tick; and a revoked credential was sent for
    revocation exactly once. *)
Theorem revoked_once_drained SHA256 opts st ev st' c cr
  (Hreach : reachable SHA256 opts st) (Hstep : step SHA256 opts st ev = Some st')
  (Hcred : ps_creds st' !! c = Some cr) (Hrevoked : c_revoked cr = true) :
  countb (λ r, bool_decide (cred_id r = Some c)) (ps_revokes st') = 1 ∧
  ((∃ old, ps_creds st !! c = Some old ∧ c_revoked old = true) ∨
   (c_open cr = ∅ ∧ dialing_count (abs st') c = 0) ∨
   passed ev (l_ExpiresAt (c_lease cr))).
Proof.
  pose proof (reach_step _ _ _ _ _ Hreach Hstep) as Hreach'. destruct (reachable_log _ _ _ Hreach') as [Hnd Hin]. split.
  - apply countb_nodup; [done|]. apply Hin. by exists cr.
  - destruct (dr_creds _ _ _ (step_drained _ _ _ _ _ Hstep) c cr Hcred Hrevoked) as [Hz|[?|(old & ? & ? & _)]];
      [right; left|by right; right|left; by exists old].
    apply reachable_ok in Hreach' as Hok. destruct (ok_core _ _ Hok) as [Hk _].
    assert (Hcc : co_creds (abs st') !! c = Some (c_conns cr, c_open cr)) by (cbn; by rewrite list_lookup_fmap, Hcred).
    pose proof (i_conns _ Hk c _ _ Hcc) as E. pose proof (countb_nonneg (λ '(_, ph), dialing c ph) (co_threads (abs st'))) as Hd.
    fold (dialing_count (abs st') c) in Hd. split; [|lia]. apply leibniz_equiv, size_empty_inv. lia.
Qed.

(** ** A pool that has been closed *)

(** Every goroutine of the pool has ended; checkouts are over or about to see [closed]. *)
Definition settledb (st : serverPools) : bool :=
  ps_closed st && ps_stopped st && forallb (λ r, match snd r with RDone => true | _ => false end) (ps_rotations st) &&
  forallb (λ t, match t_phase t with Trying | Finished _ => true | _ => false end) (ps_threads st).

Lemma forallb_lookup {A} (f : A → bool) l n x : forallb f l = true → l !! n = Some x → f x = true.
Proof. rewrite forallb_forall. intros H Hn. apply H, list_elem_of_In. by eapply list_elem_of_lookup_2. Qed.

Lemma forallb_insert {A} (f : A → bool) l n x : forallb f l = true → f x = true → forallb f (<[n := x]> l) = true.
Proof.
  intros Hl Hx. apply forallb_forall. intros y Hy%list_elem_of_In. apply list_elem_of_lookup in Hy as [m Hm].
  destruct (decide (m = n)) as [->|Hne].
  - destruct (decide (n < length l)%nat).
    + rewrite list_lookup_insert_eq in Hm by done. congruence.
    + rewrite list_insert_ge in Hm by lia. by eapply forallb_lookup.
  - rewrite list_lookup_insert_ne in Hm by done. by eapply forallb_lookup.
Qed.

(** A settled pool only starts checkouts that fail, so its credentials stay as they are. *)
Lemma settled_step SHA256 opts st ev st' : settledb st = true → step SHA256 opts st ev = Some st' →
  settledb st' = true ∧ ps_creds st' = ps_creds st ∧ ps_revokes st' = ps_revokes st.
Proof.
  intros Hs Hst. pose proof Hs as H. unfold settledb in H. rewrite !andb_true_iff in H. destruct H as [[[Hc Hp] Hr] Ht].
  destruct ev as [scope svc pinned now|n now live order|n now cancelled|n now|n|n m|n success|n|n|n|n reusable now|now live addrs order|r|r m|r|order|];
    cbn [step] in Hst.
  2-11: destruct (ps_threads st !! n) as [t|] eqn:Hn; cbn [mbind option_bind] in Hst; [|done];
    pose proof (forallb_lookup _ _ _ _ Ht Hn) as Hph; cbn beta in Hph.
  - apply (inj Some) in Hst as <-. split; [|done]. unfold settledb. cbn. rewrite Hc, Hp, Hr, forallb_app, Ht. done.
  - destruct (t_phase t) eqn:Eph; try done. apply (inj Some) in Hst as <-. unfold acquire_turn. rewrite Hc. unfold finish.
    destruct (t_waiting t); (split; [|done]); unfold settledb; cbn; rewrite Hc, Hp, Hr; cbn; by apply forallb_insert.
  - by destruct (t_phase t).
  - by destruct (t_phase t).
  - destruct (ps_pools st !! t_key t); cbn in Hst; [|done]. by destruct (t_phase t).
  - by destruct (t_phase t).
  - by destruct (t_phase t).
  - by destruct (t_phase t).
  - by destruct (t_phase t).
  - by destruct (t_phase t).
  - by destruct (t_phase t).
  - by rewrite Hp in Hst.
  - destruct (ps_rotations st !! r) as [[k x]|] eqn:E; cbn in Hst; [|done].
    pose proof (forallb_lookup _ _ _ _ Hr E) as Hx. by destruct x.
  - destruct (ps_rotations st !! r) as [[k x]|] eqn:E; cbn in Hst; [|done].
    pose proof (forallb_lookup _ _ _ _ Hr E) as Hx. by destruct x.
  - destruct (ps_rotations st !! r) as [[k x]|] eqn:E; cbn in Hst; [|done].
    pose proof (forallb_lookup _ _ _ _ Hr E) as Hx. by destruct x.
  - unfold close in Hst. rewrite Hc in Hst. apply (inj Some) in Hst as <-. done.
  - rewrite Hc in Hst. apply (inj Some) in Hst as <-. split; [|done]. unfold settledb. cbn. by rewrite Hc, Hr, Ht.
Qed.

(** ** Runs *)

Definition run (SHA256 : bytes → bytes) (opts : PoolOptions) (st : serverPools) (evs : list event) : option serverPools :=
  foldl (λ o ev, o ≫= λ s, step SHA256 opts s ev) (Some st) evs.

Lemma pool_run_snoc SHA256 opts st evs ev :
  run SHA256 opts st (evs ++ [ev]) = run SHA256 opts st evs ≫= λ s, step SHA256 opts s ev.
Proof. unfold run. by rewrite foldl_app. Qed.

Lemma run_reachable SHA256 opts evs : ∀ st', run SHA256 opts newServerPools evs = Some st' → reachable SHA256 opts st'.
Proof.
  induction evs as [|ev evs IH] using rev_ind; intros st'.
  - intros Hr. apply (inj Some) in Hr as <-. constructor.
  - rewrite pool_run_snoc. destruct (run SHA256 opts newServerPools evs) as [st|] eqn:E; cbn; [|done].
    intros Hst. econstructor; [by apply IH|exact Hst].
Qed.

Lemma settled_run SHA256 opts evs : ∀ st st', settledb st = true → run SHA256 opts st evs = Some st' →
  ps_creds st' = ps_creds st ∧ ps_revokes st' = ps_revokes st.
Proof.
  induction evs as [|ev evs IH] using rev_ind; intros st st' Hs Hr; [by apply (inj Some) in Hr as <-|].
  assert (∀ evs st1, run SHA256 opts st evs = Some st1 → settledb st1 = true) as Hsett.
  { clear IH Hr st' ev evs. intros evs. induction evs as [|ev evs IH] using rev_ind; intros st1 Hr; [by apply (inj Some) in Hr as <-|].
    rewrite pool_run_snoc in Hr. destruct (run SHA256 opts st evs) as [st2|] eqn:E; cbn in Hr; [|done].
    by refine (proj1 (settled_step _ _ _ _ _ (IH _ eq_refl) Hr)). }
  rewrite pool_run_snoc in Hr. destruct (run SHA256 opts st evs) as [st1|] eqn:E; cbn in Hr; [|done].
  destruct (IH _ _ Hs E) as [E1 E2]. destruct (settled_step _ _ _ _ _ (Hsett _ _ E) Hr) as (_ & E3 & E4). by rewrite E3, E4.
Qed.

Module PoolDemo.
Definition opts : PoolOptions := withDefaults
  {| po_Replicas := 1; po_SessionShare := fzero; po_QueueFactor := 0; po_QueueWait := 0; po_RotateFraction := fzero;
     po_IdleTimeout := 0; po_DefaultBudget := 0 |}.
Definition hash (x : bytes) : bytes := x.
Definition svc : DatabaseService :=
  {| ds_Name := #"db"; ds_Addr := #"h:5432"; ds_Database := []; ds_Mount := []; ds_Role := []; ds_MaxConns := 10;
     ds_CA := []; ds_ServerName := [] |}.
Definition scope : AgentScope := {| as_VaultID := #"v"; as_ActorID := []; as_Pool := #"p" |}.
Definition key : poolKey := pooledKey hash scope svc.
Definition mint (id : bytes) : mint_result :=
  {| mt_checked := 0; mt_now := 0; mt_jitter := 0;
     mt_lease := Some {| l_ID := id; l_Username := #"u"; l_Password := #"w"; l_ExpiresAt := 3600 * Second |} |}.
(** The first checkout mints; the second finds the credential. *)
Definition first (n : nat) : list event :=
  [EUsable n 0; ELock n; EUsable n 0; EMint n (mint #"a"); EUsable n 0; EDial n true; EOpened n].
Definition second (n : nat) : list event := [EUsable n 0; EDial n true; EOpened n].

(** A checkout, a rotation that is minting when the pool closes, and its end. *)
Definition rotate_release : list event :=
  [EStart scope svc false 0; ETurn 0 0 None []] ++ first 0 ++
  [EMaintain (1800 * Second) None [] [key]; ERotateLock 0; ERelease 0 true (1800 * Second)].
Definition rotate_drained : list event := rotate_release ++ [EClose [key]].
Definition rotate_at_close : list event :=
  rotate_drained ++ [EStopped; ERotateMint 0 (mint #"b"); ERotateClear 0].

(** Two checkouts that need session state, both admitted before either is pinned. *)
Definition two_pinned : list event :=
  [EStart scope svc true 0; EStart scope svc true 0; ETurn 0 0 None []; ETurn 1 0 None []] ++ first 0 ++ second 1.

Definition after (evs : list event) : serverPools := default newServerPools (run hash opts newServerPools evs).

Definition runs (evs : list event) : bool := bool_decide (is_Some (run hash opts newServerPools evs)).

Lemma pool_after_run evs : runs evs = true → run hash opts newServerPools evs = Some (after evs).
Proof. unfold runs, after. intros [st E]%bool_decide_eq_true. by rewrite E. Qed.

Lemma after_reachable evs : runs evs = true → reachable hash opts (after evs).
Proof. intros E%pool_after_run. by apply run_reachable in E. Qed.

(** What thread [n] holds. *)
Definition held (st : serverPools) (n : nat) : option nat := ps_threads st !! n ≫= λ t, holds (t_phase t).

Lemma held_thread st n i : held st n = Some i → ∃ t, ps_threads st !! n = Some t ∧ holds (t_phase t) = Some i.
Proof. unfold held. destruct (ps_threads st !! n) as [t|] eqn:E; cbn; [|done]. by exists t. Qed.

Lemma two_pinned_runs : runs two_pinned = true.
Proof. vm_compute. reflexivity. Qed.
(** A pool's pinned checkouts and its share. *)
Definition pinned_of (st : serverPools) (k : poolKey) : option (Z * Z) :=
  p ← ps_pools st !! k; b ← ps_budgets st !! ds_Addr (sp_svc p); Some (sp_pinned p, session_share opts (b_limit b)).
Lemma pinned_pool st k x : pinned_of st k = Some x →
  ∃ p b, ps_pools st !! k = Some p ∧ ps_budgets st !! ds_Addr (sp_svc p) = Some b ∧
    sp_pinned p = fst x ∧ session_share opts (b_limit b) = snd x.
Proof.
  unfold pinned_of. destruct (ps_pools st !! k) as [p|]; cbn; [|done].
  destruct (ps_budgets st !! ds_Addr (sp_svc p)) as [b|] eqn:Eb; cbn; [|done]. intros [= <-]. by exists p, b.
Qed.
Lemma two_pinned_share : pinned_of (after two_pinned) key = Some (2, 1).
Proof. vm_compute. reflexivity. Qed.
Lemma two_pinned_held : held (after two_pinned) 0 = Some 0%nat.
Proof. vm_compute. reflexivity. Qed.
(** The revoked flag of credential [c]. *)
Definition revoked (st : serverPools) (c : nat) : option bool := c_revoked <$> ps_creds st !! c.

Lemma revoked_cred st c : revoked st c = Some true → ∃ cr, ps_creds st !! c = Some cr ∧ c_revoked cr = true.
Proof. unfold revoked. destruct (ps_creds st !! c) as [cr|]; cbn; [|done]. intros [= E]. by exists cr. Qed.

Lemma rotate_release_runs : runs rotate_release = true.
Proof. vm_compute. reflexivity. Qed.
Lemma rotate_drained_runs : runs rotate_drained = true.
Proof. vm_compute. reflexivity. Qed.
Lemma rotate_revoked : revoked (after rotate_drained) 0 = Some true.
Proof. vm_compute. reflexivity. Qed.
Lemma rotate_drained_step : step hash opts (after rotate_release) (EClose [key]) = Some (after rotate_drained).
Proof.
  pose proof (pool_after_run _ rotate_drained_runs) as E. unfold rotate_drained in E.
  rewrite pool_run_snoc, (pool_after_run _ rotate_release_runs) in E. exact E.
Qed.
Lemma rotate_settled : settledb (after rotate_at_close) = true.
Proof. vm_compute. reflexivity. Qed.
(** Credentials that are neither revoked nor on their way out. *)
Definition live_creds (st : serverPools) : list bytes :=
  l_ID ∘ c_lease <$> List.filter (λ c, negb (c_revoked c || c_retiring c)) (ps_creds st).
Definition revoke_count (st : serverPools) (c : nat) : Z := countb (λ r, bool_decide (cred_id r = Some c)) (ps_revokes st).
Lemma rotate_live : live_creds (after rotate_at_close) = [ #"b"].
Proof. vm_compute. reflexivity. Qed.
Lemma rotate_unrevoked : revoke_count (after rotate_at_close) 1 = 0.
Proof. vm_compute. reflexivity. Qed.
Lemma rotate_runs : runs rotate_at_close = true.
Proof. vm_compute. reflexivity. Qed.
End PoolDemo.

Lemma pool_accounting_witness :
  budget_open (PoolDemo.after PoolDemo.two_pinned) #"h:5432" =
  live_count (abs (PoolDemo.after PoolDemo.two_pinned)) #"h:5432" +
  reserved_count (abs (PoolDemo.after PoolDemo.two_pinned)) #"h:5432".
Proof.
  exact (proj1 (pool_accounting PoolDemo.hash PoolDemo.opts (PoolDemo.after PoolDemo.two_pinned)
    (PoolDemo.after_reachable _ PoolDemo.two_pinned_runs)) #"h:5432").
Defined.

Lemma pool_exclusive_witness :
  ∃ t cn, ps_threads (PoolDemo.after PoolDemo.two_pinned) !! 0%nat = Some t ∧
    ps_conns (PoolDemo.after PoolDemo.two_pinned) !! 0%nat = Some cn ∧ sc_pool cn = t_key t.
Proof.
  destruct (PoolDemo.held_thread _ _ _ PoolDemo.two_pinned_held) as (t & Et & Hh).
  destruct (proj1 (proj2 (pool_exclusive PoolDemo.hash PoolDemo.opts _ (PoolDemo.after_reachable _ PoolDemo.two_pinned_runs)))
    0%nat t 0%nat Et Hh) as (_ & cn & Hc & Hk).
  exists t, cn. split; [exact Et|split; [exact Hc|exact Hk]].
Defined.

(** After the release the drained credential 0 was revoked by [close]; the lease had not expired. *)
Lemma revoked_once_drained_witness :
  ∃ cr, ps_creds (PoolDemo.after PoolDemo.rotate_drained) !! 0%nat = Some cr ∧
    countb (λ r, bool_decide (cred_id r = Some 0%nat)) (ps_revokes (PoolDemo.after PoolDemo.rotate_drained)) = 1 ∧
    ((∃ old, ps_creds (PoolDemo.after PoolDemo.rotate_release) !! 0%nat = Some old ∧ c_revoked old = true) ∨
     (c_open cr = ∅ ∧ dialing_count (abs (PoolDemo.after PoolDemo.rotate_drained)) 0%nat = 0) ∨
     passed (EClose [PoolDemo.key]) (l_ExpiresAt (c_lease cr))).
Proof.
  destruct (PoolDemo.revoked_cred _ _ PoolDemo.rotate_revoked) as (cr & Hc & Hr). exists cr. split; [exact Hc|].
  exact (revoked_once_drained PoolDemo.hash PoolDemo.opts _ _ _ 0%nat cr
    (PoolDemo.after_reachable _ PoolDemo.rotate_release_runs) PoolDemo.rotate_drained_step Hc Hr).
Defined.

(** [close] promises to revoke every credential, but a rotation that is
    minting when the pool closes installs its credential afterwards.  Once the
    rotation, the maintenance and every checkout are over, the new credential is
    live and no call, of any kind and in any number, revokes it. *)
Theorem rotation_outlives_close evs st
  (Hrun : run PoolDemo.hash PoolDemo.opts (PoolDemo.after PoolDemo.rotate_at_close) evs = Some st) :
  ps_closed (PoolDemo.after PoolDemo.rotate_at_close) = true ∧
  PoolDemo.live_creds st = [ #"b"] ∧ PoolDemo.revoke_count st 1 = 0.
Proof.
  destruct (settled_run _ _ _ _ _ PoolDemo.rotate_settled Hrun) as [Ec Er].
  split; [pose proof PoolDemo.rotate_settled as H; unfold settledb in H; by rewrite !andb_true_iff in H; destruct H as [[[? _] _] _]|].
  unfold PoolDemo.live_creds, PoolDemo.revoke_count. rewrite Ec, Er.
  exact (conj PoolDemo.rotate_live PoolDemo.rotate_unrevoked).
Qed.

Lemma rotation_outlives_close_witness : PoolDemo.live_creds (PoolDemo.after PoolDemo.rotate_at_close) = [ #"b"].
Proof. exact (proj1 (proj2 (rotation_outlives_close [] _ eq_refl))). Defined.

(** A key's session-mode share is not a bound.  Two pinned checkouts that
    are opening a connection at the same time both pass the share check, which
    comes before the connection is opened and is not repeated, so the key has
    two pinned connections where its share is one. *)
Theorem pinned_share_exceeded :
  ∃ (st : serverPools) (p : serverPool) (b : budget),
    reachable PoolDemo.hash PoolDemo.opts st ∧ ps_pools st !! PoolDemo.key = Some p ∧
    ps_budgets st !! ds_Addr (sp_svc p) = Some b ∧ sp_pinned p = 2 ∧ session_share PoolDemo.opts (b_limit b) = 1.
Proof.
  exists (PoolDemo.after PoolDemo.two_pinned).
  destruct (PoolDemo.pinned_pool _ _ _ PoolDemo.two_pinned_share) as (p & b & Hp & Hb & Hn & Hs). exists p, b.
  split; [exact (PoolDemo.after_reachable _ PoolDemo.two_pinned_runs)|]. by split_and!.
Qed.
