(* ===== verification/Entitlement.v ===== *)
(** * Entitlements ([internal/entitlement/entitlement.go])

    The answer cache in front of the directory and the decision made from its
    answers.  Each section of [lookup] under the cache's mutex is one step, so
    lookups, the directory's replies and purges interleave freely; a flight is
    named by its place in a heap, since its askers share it through a pointer.
    [purges] wraps at 64 bits.  Instants and durations are nanoseconds. *)

From S2P Require Import Prelude GoString.

Definition maxTrackedPeople : Z := 200000.
Definition MaxCacheTTL : Z := 5 * Minute.
Definition DefaultLookupsPerMinute : Z := 60.
Definition DefaultRecentAnswer : Z := 5 * Second.

Record Person := { pn_ObjectID : bytes; pn_Enabled : bool; pn_MemberOf : list bytes }.

Record cached := { ca_person : Person; ca_fetched : Z }.

(** [ErrSource] is whatever error the source returned, [ErrContext] the asker's own. *)
Inductive lookup_error := ErrNoSource | ErrLookupLimited | ErrSource | ErrContext.

Abbreviation answer := (result lookup_error (Person * Z)).

(** [None]: [done] is still open. *)
Abbreviation flight := (option (result lookup_error Person)).

(** The fields a cache is built with; [cc_Source] is whether there is one. *)
Record config := { cc_Source : bool; cc_TTL : Z; cc_LookupsPerMinute : Z; cc_RecentAnswer : Z }.

(** Where a call of [lookup] stands. *)
Inductive phase :=
| Asking                                          (* [now] is read *)
| Waiting (f : nat)                               (* for a flight in progress *)
| Calling (f : nat) (generation : Z)              (* the source is asked *)
| Answered (r : answer).

Record asker := {
  as_subject : bytes;
  as_groups : list bytes;
  as_fresh : bool;
  as_now : Z;
  as_phase : phase;
}.

Record Cache := {
  entries : gmap bytes cached;
  flights : gmap bytes nat;
  spent : gmap bytes (list Z);
  purges : Z;
  heap : list flight;
  askers : list asker;
}.

Definition new_cache : Cache :=
  {| entries := ∅; flights := ∅; spent := ∅; purges := 0; heap := []; askers := [] |}.

Definition with_entries (v : gmap bytes cached) (c : Cache) : Cache :=
  {| entries := v; flights := flights c; spent := spent c; purges := purges c; heap := heap c; askers := askers c |}.
Definition with_flights (v : gmap bytes nat) (c : Cache) : Cache :=
  {| entries := entries c; flights := v; spent := spent c; purges := purges c; heap := heap c; askers := askers c |}.
Definition with_spent (v : gmap bytes (list Z)) (c : Cache) : Cache :=
  {| entries := entries c; flights := flights c; spent := v; purges := purges c; heap := heap c; askers := askers c |}.
Definition with_heap (v : list flight) (c : Cache) : Cache :=
  {| entries := entries c; flights := flights c; spent := spent c; purges := purges c; heap := v; askers := askers c |}.
Definition with_askers (v : list asker) (c : Cache) : Cache :=
  {| entries := entries c; flights := flights c; spent := spent c; purges := purges c; heap := heap c; askers := v |}.

Definition with_phase (p : phase) (a : asker) : asker :=
  {| as_subject := as_subject a; as_groups := as_groups a; as_fresh := as_fresh a; as_now := as_now a; as_phase := p |}.

Definition set_asker (n : nat) (a : asker) (p : phase) (c : Cache) : Cache :=
  with_askers (<[n := with_phase p a]> (askers c)) c.

(** [subject + "\x00"] *)
Definition prefix_of_subject (subject : bytes) : bytes := subject ++ [x00].

Definition cache_key (subject : bytes) (groups : list bytes) : bytes :=
  prefix_of_subject subject ++ Join (sort_Strings groups) #",".

Definition key_of (a : asker) : bytes := cache_key (as_subject a) (as_groups a).

Definition Purge (subject : bytes) (c : Cache) : Cache :=
  let other (k : bytes) := HasPrefix k (prefix_of_subject subject) = false in
  {| entries := filter (λ kv, other (fst kv)) (entries c);
     flights := filter (λ kv, other (fst kv)) (flights c);
     spent := spent c; purges := uint64_wrap (purges c + 1); heap := heap c; askers := askers c |}.

Section Ops.
Context (cfg : config).

Definition ttl : Z := if (cc_TTL cfg <=? 0) || (MaxCacheTTL <? cc_TTL cfg) then MaxCacheTTL else cc_TTL cfg.
Definition recent_answer : Z := if cc_RecentAnswer cfg <=? 0 then DefaultRecentAnswer else cc_RecentAnswer cfg.
Definition lookup_limit : Z :=
  if cc_LookupsPerMinute cfg <=? 0 then DefaultLookupsPerMinute else cc_LookupsPerMinute cfg.

(** A nil map has no entries, so [c.spent == nil] needs no case of its own. *)
Definition spend (subject : bytes) (now : Z) (m : gmap bytes (list Z)) : gmap bytes (list Z) * bool :=
  let m := if maxTrackedPeople <? Z.of_nat (size m) then ∅ else m in
  let recent := List.filter (λ t, time_Sub now t <? Minute) (default [] (m !! subject)) in
  if lookup_limit <=? Z.of_nat (length recent) then (<[subject := recent]> m, false)
  else (<[subject := recent ++ [now]]> m, true).

(** [lookup] up to the first [Unlock]. *)
Definition enter (n : nat) (a : asker) (c : Cache) : Cache :=
  if negb (cc_Source cfg) then set_asker n a (Answered (Err ErrNoSource)) c
  else
    let key := key_of a in
    let now := as_now a in
    let e := entries c !! key in
    let cached_within d := e ≫= λ e, let age := time_Sub now (ca_fetched e) in
                                     if age <? d then Some (ca_person e, age) else None in
    match (if as_fresh a then None else cached_within ttl), flights c !! key with
    | Some x, _ => set_asker n a (Answered (Ok x)) c
    | None, Some f => set_asker n a (Waiting f) c
    | None, None =>
        let '(m, ok) := spend (as_subject a) now (spent c) in
        let c := with_spent m c in
        if ok then
          let f := length (heap c) in
          set_asker n a (Calling f (purges c)) (with_flights (<[key := f]> (flights c)) (with_heap (heap c ++ [None]) c))
        else
          match cached_within (Z.min recent_answer ttl) with
          | Some x => set_asker n a (Answered (Ok x)) c
          | None => set_asker n a (Answered (Err ErrLookupLimited)) c
          end
    end.

(** [lookup] after the source returned [r]. *)
Definition returned (n : nat) (a : asker) (f : nat) (generation : Z) (r : result lookup_error Person) (c : Cache) : Cache :=
  let key := key_of a in
  let c := if bool_decide (flights c !! key = Some f) then with_flights (delete key (flights c)) c else c in
  let c := match r with
           | Ok p =>
               if purges c =? generation then
                 let m := if maxTrackedPeople <? Z.of_nat (size (entries c)) then ∅ else entries c in
                 with_entries (<[key := {| ca_person := p; ca_fetched := as_now a |}]> m) c
               else c
           | Err _ => c
           end in
  let c := with_heap (<[f := Some r]> (heap c)) c in
  set_asker n a (Answered (p ← r; Ok (p, 0))) c.

Inductive event :=
| EAsk (subject : bytes) (groups : list bytes) (fresh : bool) (now : Z)
| EEnter (n : nat)
| EReturn (n : nat) (r : result lookup_error Person)
| EWoken (n : nat)
| ECancel (n : nat)
| EPurge (subject : bytes).

(** [None]: the event is not possible now. *)
Definition step (c : Cache) (ev : event) : option Cache :=
  match ev with
  | EAsk subject groups fresh now =>
      Some (with_askers (askers c ++ [{| as_subject := subject; as_groups := groups; as_fresh := fresh; as_now := now;
                                         as_phase := Asking |}]) c)
  | EEnter n =>
      a ← askers c !! n;
      match as_phase a with Asking => Some (enter n a c) | _ => None end
  | EReturn n r =>
      a ← askers c !! n;
      match as_phase a with Calling f g => Some (returned n a f g r c) | _ => None end
  | EWoken n =>
      a ← askers c !! n;
      match as_phase a with
      | Waiting f => fl ← heap c !! f; r ← fl; Some (set_asker n a (Answered (p ← r; Ok (p, 0))) c)
      | _ => None
      end
  | ECancel n =>
      a ← askers c !! n;
      match as_phase a with Waiting _ => Some (set_asker n a (Answered (Err ErrContext)) c) | _ => None end
  | EPurge subject => Some (Purge subject c)
  end.

Definition run (c : Cache) (evs : list event) : option Cache :=
  foldl (λ o ev, o ≫= λ c, step c ev) (Some c) evs.
End Ops.

(** ** The decision *)

Definition Tier (t : bytes) : option Z :=
  if bool_decide (t = []) || bool_decide (t = #"T0") then Some 0
  else if bool_decide (t = #"T1") then Some 1
  else if bool_decide (t = #"T2") then Some 2
  else None.

Record Pool := { p_Identity : bytes; p_Ceiling : bytes; p_Entitlements : list bytes }.
Record Entry := { e_Tier : bytes; e_Requires : list bytes }.
Record Requester := { r_Kind : bytes; r_Subject : bytes }.
Record Decision := {
  d_Allowed : bool;
  d_Outcome : bytes;
  d_Tier : bytes;
  d_Groups : list bytes;
  d_ObjectID : bytes;
  d_CacheAge : Z;
}.

Definition subset (want have : list bytes) : bool := forallb (λ w, bool_decide (w ∈ have)) want.

Definition person_identities : list bytes := [ #"claude-session"; #"cursor-session"; #"attested-person"].

(** What [Decide] does before it asks anyone: a decision, or whether to ask for a
    fresh answer. *)
Definition decide_first (pool : Pool) (entry : Entry) (who : Requester) (recheck : bool)
  : result (bool * bytes) bool :=
  if bool_decide (p_Ceiling pool = #"external") then Err (false, #"pool_external")
  else match Tier (e_Tier entry), Tier (p_Ceiling pool) with
  | Some want, Some ceiling =>
      if ceiling <? want then Err (false, #"pool_ceiling")
      else if want =? 0 then Err (true, #"t0")
      else if bool_decide (p_Identity pool = #"workload") then
        if (2 <=? want) || negb (subset (e_Requires entry) (p_Entitlements pool))
        then Err (false, #"workload_not_entitled") else Err (true, #"workload_entitled")
      else if negb (bool_decide (p_Identity pool ∈ person_identities)) then
        Err (false, #"no_identity")
      else if negb (bool_decide (r_Kind who = #"person")) || bool_decide (r_Subject who = []) then Err (false, #"no_person")
      else if bool_decide (e_Requires entry = []) then Err (false, #"entitlement_config")
      else Ok ((2 <=? want) && negb recheck)
  | _, _ => Err (false, #"entitlement_config")
  end.

(** [Decide], given the answers of [Lookup] and [Fresh]; the boolean is whether it
    purges the person. *)
Definition Decide (ask : bool → bytes → list bytes → answer) (pool : Pool) (entry : Entry) (who : Requester) (recheck : bool)
  : Decision * bool :=
  let tier := if bool_decide (e_Tier entry = []) then #"T0" else e_Tier entry in
  let d ok outcome id age :=
    {| d_Allowed := ok; d_Outcome := outcome; d_Tier := tier; d_Groups := e_Requires entry; d_ObjectID := id; d_CacheAge := age |} in
  match decide_first pool entry who recheck with
  | Err (ok, outcome) => (d ok outcome [] 0, false)
  | Ok fresh =>
      match ask fresh (r_Subject who) (e_Requires entry) with
      | Err ErrLookupLimited => (d false #"entitlement_rate_limited" [] 0, false)
      | Err _ => (d false #"entitlement_unavailable" [] 0, recheck)
      | Ok (p, age) =>
          if negb (pn_Enabled p) then (d false #"account_disabled" (pn_ObjectID p) age, recheck || fresh)
          else if negb (subset (e_Requires entry) (pn_MemberOf p)) then
            (d false #"not_entitled" (pn_ObjectID p) age, recheck || fresh)
          else (d true #"entitled" (pn_ObjectID p) age, false)
      end
  end.
