(* ===== verification/EntitlementCache.v ===== *)
(** * What the answer cache guarantees ([internal/entitlement/entitlement.go])

    The invariants of the cache's runs and the theorems on where answers come
    from, how old they are, how often the directory is asked, and when a request
    is allowed.  The invariant is relative to a state [c0] of the run and to a
    set of questions [about], so that one proof gives both the provenance of
    every answer and what a purge forgets. *)

From stdpp Require Import sorting.
From S2P Require Import Prelude GoString Entitlement.

Definition n_purges (evs : list event) : Z :=
  Z.of_nat (length (List.filter (λ ev, match ev with EPurge _ => true | _ => false end) evs)).

Lemma n_purges_snoc evs ev : n_purges (evs ++ [ev]) = n_purges evs + (match ev with EPurge _ => 1 | _ => 0 end).
Proof. unfold n_purges. rewrite lfilter_app, length_app. destruct ev; cbn; lia. Qed.

Lemma n_purges_nonneg evs : 0 <= n_purges evs.
Proof. unfold n_purges. lia. Qed.

Lemma cache_run_snoc cfg c evs ev : run cfg c (evs ++ [ev]) = run cfg c evs ≫= λ c, step cfg c ev.
Proof. unfold run. by rewrite foldl_app. Qed.

Lemma key_of_with_phase p a : key_of (with_phase p a) = key_of a.
Proof. done. Qed.

Lemma askers_set n a p c m b : askers c !! n = Some a → askers (set_asker n a p c) !! m = Some b →
  (m = n ∧ b = with_phase p a) ∨ (m ≠ n ∧ askers c !! m = Some b).
Proof.
  intros Hn. cbn. destruct (decide (m = n)) as [->|Hne].
  - rewrite list_lookup_insert_eq by (by eapply lookup_lt_Some). intros [= <-]. by left.
  - rewrite list_lookup_insert_ne by done. by right.
Qed.

(** Is the asker of [H] the one that [Hn] says has just changed? *)
Ltac at_asker Hn H := apply (askers_set _ _ _ _ _ _ Hn) in H as [[-> ->]|[? H]].

Section Inv.
Context (cfg : config) (about : bytes → Prop) (c0 : Cache).

(** Asker [n] reached the cache after [c0]. *)
Definition entered_after (n : nat) : Prop := ∀ a, askers c0 !! n = Some a → as_phase a = Asking.

(** The source answered [p] to question [k], asked at [t] by a call begun after [c0]. *)
Definition said (evs : list event) (c : Cache) (k : bytes) (p : Person) (t : Z) : Prop :=
  ∃ m b, askers c !! m = Some b ∧ key_of b = k ∧ as_now b = t ∧ EReturn m (Ok p) ∈ evs ∧ entered_after m.

Definition max_age (fresh : bool) : Z := if fresh then Z.min (recent_answer cfg) (ttl cfg) else ttl cfg.

(** An answer of age [age], given to a question asked at [now]. *)
Definition sourced (evs : list event) (c : Cache) (a : asker) (p : Person) (age : Z) : Prop :=
  ∃ t, said evs c (key_of a) p t ∧ (age = 0 ∨ age = time_Sub (as_now a) t ∧ age < max_age (as_fresh a)).

Record inv (evs : list event) (c : Cache) : Prop := {
  v_len : (length (askers c0) <= length (askers c))%nat;
  v_gens : ∀ n a f g, askers c !! n = Some a → as_phase a = Calling f g → g <= purges c;
  v_call : ∀ n a f g, askers c !! n = Some a → as_phase a = Calling f g → (f < length (heap c))%nat;
  v_wait : ∀ n a f, askers c !! n = Some a → as_phase a = Waiting f → (f < length (heap c))%nat;
  v_open : ∀ (k : bytes) f, flights c !! k = Some f → heap c !! f = Some None;
  v_flight : ∀ (k : bytes) f m b g, flights c !! k = Some f → askers c !! m = Some b → as_phase b = Calling f g →
    key_of b = k ∧ (about k → entered_after m);
  v_join : ∀ n a f m b g, askers c !! n = Some a → as_phase a = Waiting f → askers c !! m = Some b →
    as_phase b = Calling f g → key_of b = key_of a ∧ (about (key_of a) → entered_after n → entered_after m);
  v_asking : ∀ n a, askers c !! n = Some a → as_phase a = Asking → entered_after n;
  v_gen : ∀ n a f, askers c !! n = Some a → as_phase a = Calling f (purges c) → about (key_of a) → entered_after n;
  v_done : ∀ n a f p, askers c !! n = Some a → as_phase a = Waiting f → about (key_of a) → entered_after n →
    heap c !! f = Some (Some (Ok p)) → ∃ t, said evs c (key_of a) p t;
  v_entry : ∀ (k : bytes) e, entries c !! k = Some e → about k → said evs c k (ca_person e) (ca_fetched e);
  v_answer : ∀ n a p age, askers c !! n = Some a → as_phase a = Answered (Ok (p, age)) → about (key_of a) →
    entered_after n → sourced evs c a p age;
}.

(** Questions do not change; events accumulate. *)
Definition grows (c c' : Cache) : Prop :=
  ∀ n a, askers c !! n = Some a → ∃ p, askers c' !! n = Some (with_phase p a).

Lemma grows_set n a p c : askers c !! n = Some a → grows c (set_asker n a p c).
Proof.
  intros Hn m b Hm. cbn. destruct (decide (m = n)) as [->|Hne].
  - rewrite list_lookup_insert_eq by (by eapply lookup_lt_Some). exists p. congruence.
  - rewrite list_lookup_insert_ne by done. exists (as_phase b). rewrite Hm. by destruct b.
Qed.

Lemma said_mono evs ev c c' k p t : grows c c' → said evs c k p t → said (evs ++ [ev]) c' k p t.
Proof.
  intros Hg (m & b & Hm & Hk & Ht & Hin & He). destruct (Hg _ _ Hm) as [ph Hm']. exists m, (with_phase ph b).
  split_and!; try done. apply elem_of_app. by left.
Qed.

Lemma sourced_mono evs ev c c' a p age : grows c c' → sourced evs c a p age → sourced (evs ++ [ev]) c' a p age.
Proof. intros Hg (t & Hs & H). exists t. split; [by eapply said_mono|done]. Qed.

Lemma inv_spent evs c m : inv evs c → inv evs (with_spent m c).
Proof. by intros []. Qed.

(** An asker that joins a flight or gets its answer. *)
Lemma inv_phase evs ev c n a p : inv evs c → askers c !! n = Some a →
  match p with
  | Waiting f => flights c !! key_of a = Some f
  | Answered (Ok (x, age)) => about (key_of a) → entered_after n → sourced evs c a x age
  | Answered (Err _) => True
  | _ => False
  end → inv (evs ++ [ev]) (set_asker n a p c).
Proof.
  intros Hi Hn Hp. pose proof (grows_set n a p c Hn) as Hg.
  constructor.
  - cbn. rewrite length_insert. apply Hi.
  - intros m b f g Hm Hb. at_asker Hn Hm; [by destruct p|]. by apply (v_gens _ _ Hi m b f).
  - intros m b f g Hm Hb. at_asker Hn Hm; [by destruct p|]. by apply (v_call _ _ Hi m b f g).
  - intros m b f Hm Hb. at_asker Hn Hm; [|by apply (v_wait _ _ Hi m b)].
    cbn in Hb. subst p. apply (v_open _ _ Hi) in Hp. by eapply lookup_lt_Some.
  - apply (v_open _ _ Hi).
  - intros k f m b g Hf Hm Hb. at_asker Hn Hm; [by destruct p|].
    by apply (v_flight _ _ Hi _ f m b g).
  - intros m b f m' b' g Hm Hb Hm' Hb'. at_asker Hn Hm'; [by destruct p|].
    at_asker Hn Hm.
    + cbn in Hb. subst p. destruct (v_flight _ _ Hi _ f m' b' g Hp Hm' Hb') as [-> Hx]. split; [done|]. intros Ha _. by apply Hx.
    + by apply (v_join _ _ Hi m b f m' b' g).
  - intros m b Hm Hb. at_asker Hn Hm; [by destruct p|]. by apply (v_asking _ _ Hi m b).
  - intros m b f Hm Hb. at_asker Hn Hm; [by destruct p|]. by apply (v_gen _ _ Hi m b f).
  - intros m b f x Hm Hb Ha He Hh. at_asker Hn Hm.
    + cbn in Hb. subst p. cbn in Hh. by rewrite (v_open _ _ Hi _ _ Hp) in Hh.
    + destruct (v_done _ _ Hi m b f x Hm Hb Ha He Hh) as [t Ht]. exists t. by eapply said_mono.
  - intros k e He Ha. eapply said_mono; [done|]. by apply (v_entry _ _ Hi).
  - intros m b x age Hm Hb Ha He. at_asker Hn Hm.
    + cbn in Hb. subst p. destruct (Hp Ha He) as (t & Ht & Hx). exists t. split; [by eapply said_mono|done].
    + eapply sourced_mono; [done|]. by apply (v_answer _ _ Hi m b).
Qed.

(** An asker that asks the source. *)
Lemma inv_begin evs ev c n a : inv evs c → askers c !! n = Some a → as_phase a = Asking → flights c !! key_of a = None →
  inv (evs ++ [ev]) (set_asker n a (Calling (length (heap c)) (purges c))
    (with_flights (<[key_of a := length (heap c)]> (flights c)) (with_heap (heap c ++ [None]) c))).
Proof.
  intros Hi Hn Has Hnone. set (L := length (heap c)). set (c1 := with_flights _ _).
  assert (Hn1 : askers c1 !! n = Some a) by done. pose proof (grows_set n a (Calling L (purges c)) c1 Hn1) as Hg.
  pose proof (v_asking _ _ Hi n a Hn Has) as He.
  assert (HL : ∀ m b f g, askers c !! m = Some b → as_phase b = Calling f g → f ≠ L)
    by (intros m b f g Hm Hb ->; pose proof (v_call _ _ Hi m b L g Hm Hb); unfold L in *; lia).
  constructor.
  - cbn. rewrite length_insert. apply Hi.
  - intros m b f g Hm Hb. at_asker Hn1 Hm.
    + cbn in *. injection Hb as <- <-. lia.
    + by apply (v_gens _ _ Hi m b f).
  - intros m b f g Hm Hb. cbn. rewrite length_app. cbn. at_asker Hn1 Hm.
    + cbn in Hb. injection Hb as <- <-. unfold L. lia.
    + pose proof (v_call _ _ Hi m b f g Hm Hb). lia.
  - intros m b f Hm Hb. cbn. rewrite length_app. cbn. at_asker Hn1 Hm; [done|].
    pose proof (v_wait _ _ Hi m b f Hm Hb). lia.
  - intros k f. cbn. intros [[<- <-]|[Hne Hf]]%lookup_insert_Some.
    + by apply list_lookup_middle.
    + apply lookup_app_l_Some. by apply (v_open _ _ Hi k).
  - intros k f m b g Hf Hm Hb. cbn in Hf. at_asker Hn1 Hm.
    + cbn in Hb. injection Hb as <- <-. apply lookup_insert_Some in Hf as [[<- _]|[_ Hf]]; [done|].
      pose proof (v_open _ _ Hi _ _ Hf) as Hx%lookup_lt_Some. unfold L in Hx. lia.
    + apply lookup_insert_Some in Hf as [[<- <-]|[_ Hf]]; [by destruct (HL m b L g Hm Hb)|]. by apply (v_flight _ _ Hi k f m b g).
  - intros m b f m' b' g Hm Hb Hm' Hb'. at_asker Hn1 Hm; [done|].
    at_asker Hn1 Hm'; [|by apply (v_join _ _ Hi m b f m' b' g)].
    cbn in Hb'. injection Hb' as <- <-. pose proof (v_wait _ _ Hi m b L Hm Hb). unfold L in *. lia.
  - intros m b Hm Hb. at_asker Hn1 Hm; [done|]. by apply (v_asking _ _ Hi m b).
  - intros m b f Hm Hb. at_asker Hn1 Hm; [done|]. by apply (v_gen _ _ Hi m b f).
  - intros m b f x Hm Hb Ha Hx Hh. at_asker Hn1 Hm; [done|].
    cbn in Hh. rewrite lookup_app_l in Hh by (by apply (v_wait _ _ Hi m b)).
    destruct (v_done _ _ Hi m b f x Hm Hb Ha Hx Hh) as [t Ht]. exists t. by eapply said_mono.
  - intros k e Hk Ha. eapply said_mono; [done|]. by apply (v_entry _ _ Hi).
  - intros m b x age Hm Hb Ha Hx. at_asker Hn1 Hm; [done|].
    eapply sourced_mono; [done|]. by apply (v_answer _ _ Hi m b).
Qed.

(** An asker whose call of the source returned. *)
Lemma inv_returned evs c n a f g r : inv evs c → askers c !! n = Some a → as_phase a = Calling f g →
  inv (evs ++ [EReturn n r]) (returned n a f g r c).
Proof.
  intros Hi Hn Hc. pose proof (v_call _ _ Hi n a f g Hn Hc) as Hf.
  assert (Hret : ∃ m' e', returned n a f g r c = set_asker n a (Answered (p ← r; Ok (p, 0)))
    (with_heap (<[f := Some r]> (heap c)) (with_entries e' (with_flights m' c))) ∧
    (∀ (k : bytes) f', m' !! k = Some f' → flights c !! k = Some f' ∧ f' ≠ f) ∧
    (∀ (k : bytes) e, e' !! k = Some e → entries c !! k = Some e ∨
       (k = key_of a ∧ purges c = g ∧ r = Ok (ca_person e) ∧ ca_fetched e = as_now a))).
  { assert (Hfl : ∀ (k : bytes) f', flights c !! k = Some f' → flights c !! key_of a ≠ Some f → f' ≠ f).
    { intros k f' Hk Hx ->. destruct (v_flight _ _ Hi k f n a g Hk Hn Hc) as [E _]. by rewrite E in Hx. }
    unfold returned. case_bool_decide as Hd.
    - exists (delete (key_of a) (flights c)).
      exists (match r with Ok p => if purges c =? g then <[key_of a := {| ca_person := p; ca_fetched := as_now a |}]>
        (if maxTrackedPeople <? Z.of_nat (size (entries c)) then ∅ else entries c) else entries c | Err _ => entries c end).
      split; [by destruct r; cbn; [destruct (purges c =? g)|]|]. split.
      + intros k f' [Hne Hk]%lookup_delete_Some. split; [done|]. intros ->.
        by destruct (v_flight _ _ Hi k f n a g Hk Hn Hc) as [E _].
      + intros k e. destruct r as [p|]; [|by left]. destruct (purges c =? g) eqn:Eg; [|by left].
        intros [[<- <-]|[_ He]]%lookup_insert_Some; [right; apply Z.eqb_eq in Eg; by split_and!|]. left. by case_match.
    - exists (flights c).
      exists (match r with Ok p => if purges c =? g then <[key_of a := {| ca_person := p; ca_fetched := as_now a |}]>
        (if maxTrackedPeople <? Z.of_nat (size (entries c)) then ∅ else entries c) else entries c | Err _ => entries c end).
      split; [by destruct c; destruct r; cbn; [destruct (_ =? g)|]|]. split.
      + intros k f' Hk. split; [done|]. by apply (Hfl k).
      + intros k e. destruct r as [p|]; [|by left]. destruct (purges c =? g) eqn:Eg; [|by left].
        intros [[<- <-]|[_ He]]%lookup_insert_Some; [right; apply Z.eqb_eq in Eg; by split_and!|]. left. by case_match. }
  destruct Hret as (m' & e' & -> & Hm' & He'). set (c1 := with_heap _ _). set (ph := Answered _).
  assert (Hn1 : askers c1 !! n = Some a) by done. pose proof (grows_set n a ph c1 Hn1) as Hg.
  assert (Hg0 : grows c (set_asker n a ph c1)) by done.
  assert (Hsaid : ∀ p, r = Ok p → entered_after n → said (evs ++ [EReturn n r]) (set_asker n a ph c1) (key_of a) p (as_now a)).
  { intros p -> He. exists n, (with_phase ph a). split_and!; try done; [|apply elem_of_app; right; by apply list_elem_of_singleton].
    cbn. by rewrite list_lookup_insert_eq by (by eapply lookup_lt_Some). }
  constructor.
  - cbn. rewrite length_insert. apply Hi.
  - intros m b f' g' Hm Hb. at_asker Hn1 Hm; [done|]. by apply (v_gens _ _ Hi m b f').
  - intros m b f' g' Hm Hb. cbn. rewrite length_insert. at_asker Hn1 Hm; [done|].
    by apply (v_call _ _ Hi m b f' g').
  - intros m b f' Hm Hb. cbn. rewrite length_insert. at_asker Hn1 Hm; [done|].
    by apply (v_wait _ _ Hi m b f').
  - intros k f' Hk. cbn in *. destruct (Hm' _ _ Hk) as [Hk' Hne]. rewrite list_lookup_insert_ne by done. by apply (v_open _ _ Hi k).
  - intros k f' m b g' Hk Hm Hb. at_asker Hn1 Hm; [done|].
    destruct (Hm' _ _ Hk) as [Hk' _]. by apply (v_flight _ _ Hi k f' m b g').
  - intros m b f' m2 b2 g' Hm Hb Hm2 Hb2. at_asker Hn1 Hm; [done|].
    at_asker Hn1 Hm2; [done|]. by apply (v_join _ _ Hi m b f' m2 b2 g').
  - intros m b Hm Hb. at_asker Hn1 Hm; [done|]. by apply (v_asking _ _ Hi m b).
  - intros m b f' Hm Hb. at_asker Hn1 Hm; [done|]. by apply (v_gen _ _ Hi m b f').
  - intros m b f' x Hm Hb Ha Hx Hh. at_asker Hn1 Hm; [done|].
    cbn in Hh. destruct (decide (f' = f)) as [->|Hne].
    + rewrite list_lookup_insert_eq in Hh by done. injection Hh as ->.
      destruct (v_join _ _ Hi m b f n a g Hm Hb Hn Hc) as [Ek Hen]. exists (as_now a). rewrite <- Ek. by apply Hsaid, Hen.
    + rewrite list_lookup_insert_ne in Hh by done. destruct (v_done _ _ Hi m b f' x Hm Hb Ha Hx Hh) as [t Ht]. exists t. by eapply said_mono.
  - intros k e Hk Ha. destruct (He' _ _ Hk) as [Hk'|(-> & <- & Hr & Ht)].
    + eapply said_mono; [done|]. by apply (v_entry _ _ Hi).
    + rewrite Ht. apply Hsaid; [done|]. by apply (v_gen _ _ Hi n a f).
  - intros m b x age Hm Hb Ha Hx. at_asker Hn1 Hm.
    + cbn in Hb. destruct r as [p|]; [|done]. injection Hb as <- <-. exists (as_now a). split; [by apply Hsaid|by left].
    + eapply sourced_mono; [done|]. by apply (v_answer _ _ Hi m b).
Qed.

Lemma inv_ask evs ev c subject groups fresh now : inv evs c →
  inv (evs ++ [ev]) (with_askers (askers c ++ [{| as_subject := subject; as_groups := groups; as_fresh := fresh; as_now := now;
                                                   as_phase := Asking |}]) c).
Proof.
  intros Hi. set (c1 := with_askers _ c).
  assert (Hnew : ∀ m b, askers c1 !! m = Some b → as_phase b ≠ Asking → askers c !! m = Some b).
  { intros m b [[_ Hm]|[-> <-]]%lookup_snoc_Some Hb; [done|by cbn in Hb]. }
  assert (Hg : grows c c1).
  { intros m b Hm. exists (as_phase b). cbn. rewrite lookup_app_l by (by eapply lookup_lt_Some). rewrite Hm. by destruct b. }
  constructor.
  - cbn. rewrite length_app. pose proof (v_len _ _ Hi). lia.
  - intros m b f g Hm Hb. apply Hnew in Hm; [|by rewrite Hb]. by apply (v_gens _ _ Hi m b f).
  - intros m b f g Hm Hb. apply Hnew in Hm; [|by rewrite Hb]. by apply (v_call _ _ Hi m b f g).
  - intros m b f Hm Hb. apply Hnew in Hm; [|by rewrite Hb]. by apply (v_wait _ _ Hi m b f).
  - apply (v_open _ _ Hi).
  - intros k f m b g Hf Hm Hb. apply Hnew in Hm; [|by rewrite Hb]. by apply (v_flight _ _ Hi k f m b g).
  - intros m b f m' b' g Hm Hb Hm' Hb'. apply Hnew in Hm; [|by rewrite Hb]. apply Hnew in Hm'; [|by rewrite Hb'].
    by apply (v_join _ _ Hi m b f m' b' g).
  - intros m b Hm Hb. apply lookup_snoc_Some in Hm as [[_ Hm]|[Hm _]]; [by apply (v_asking _ _ Hi m b)|].
    intros b' Hb'%lookup_lt_Some. pose proof (v_len _ _ Hi). lia.
  - intros m b f Hm Hb. apply Hnew in Hm; [|by rewrite Hb]. by apply (v_gen _ _ Hi m b f).
  - intros m b f x Hm Hb Ha He Hh. apply Hnew in Hm; [|by rewrite Hb].
    destruct (v_done _ _ Hi m b f x Hm Hb Ha He Hh) as [t Ht]. exists t. by eapply said_mono.
  - intros k e Hk Ha. eapply said_mono; [done|]. by apply (v_entry _ _ Hi).
  - intros m b x age Hm Hb Ha He. apply Hnew in Hm; [|by rewrite Hb]. eapply sourced_mono; [done|]. by apply (v_answer _ _ Hi m b).
Qed.

Lemma inv_purge evs ev c subject : inv evs c → 0 <= purges c + 1 < 2 ^ 64 → inv (evs ++ [ev]) (Purge subject c).
Proof.
  intros Hi Hp. assert (Hw : purges (Purge subject c) = purges c + 1) by (cbn; unfold uint64_wrap; by rewrite Z.mod_small).
  assert (Hg : grows c (Purge subject c)) by (intros m b Hm; exists (as_phase b); cbn; rewrite Hm; by destruct b).
  assert (Hfl : ∀ (k : bytes) f, flights (Purge subject c) !! k = Some f → flights c !! k = Some f)
    by (intros k f Hk; cbn in Hk; by apply map_lookup_filter_Some in Hk as [? _]).
  constructor.
  - apply (v_len _ _ Hi).
  - intros m b f g Hm Hb. pose proof (v_gens _ _ Hi m b f g Hm Hb). lia.
  - apply (v_call _ _ Hi).
  - apply (v_wait _ _ Hi).
  - intros k f Hk%Hfl. by apply (v_open _ _ Hi k).
  - intros k f m b g Hk%Hfl. by apply (v_flight _ _ Hi k f m b g).
  - apply (v_join _ _ Hi).
  - apply (v_asking _ _ Hi).
  - intros m b f Hm Hb. pose proof (v_gens _ _ Hi m b f _ Hm Hb). lia.
  - intros m b f x Hm Hb Ha He Hh. destruct (v_done _ _ Hi m b f x Hm Hb Ha He Hh) as [t Ht]. exists t. by eapply said_mono.
  - intros k e Hk Ha. cbn in Hk. apply map_lookup_filter_Some in Hk as [Hk _]. eapply said_mono; [done|]. by apply (v_entry _ _ Hi).
  - intros m b x age Hm Hb Ha He. eapply sourced_mono; [done|]. by apply (v_answer _ _ Hi m b).
Qed.

(** An asker of [about] served from the cache. *)
Lemma inv_hit evs ev c n a d x : inv evs c → askers c !! n = Some a → d <= max_age (as_fresh a) →
  (entries c !! key_of a ≫= λ e, let age := time_Sub (as_now a) (ca_fetched e) in
                                 if age <? d then Some (ca_person e, age) else None) = Some x →
  inv (evs ++ [ev]) (set_asker n a (Answered (Ok x)) c).
Proof.
  intros Hi Hn Hd Hx. destruct (entries c !! key_of a) as [e|] eqn:He; cbn in Hx; [|done].
  destruct (time_Sub (as_now a) (ca_fetched e) <? d) eqn:E; [|done]. injection Hx as <-. apply Z.ltb_lt in E.
  apply inv_phase; [done|done|]. intros Ha _. exists (ca_fetched e). split; [by apply (v_entry _ _ Hi)|]. right. split; [done|lia].
Qed.

Lemma inv_enter evs ev c n a : inv evs c → askers c !! n = Some a → as_phase a = Asking → inv (evs ++ [ev]) (enter cfg n a c).
Proof.
  intros Hi Hn Ha. unfold enter. destruct (cc_Source cfg); cbn [negb]; [|by apply inv_phase].
  destruct (if as_fresh a then None else _) as [x|] eqn:Ex.
  { destruct (as_fresh a) eqn:Ef; [done|]. eapply (inv_hit _ _ _ _ _ (ttl cfg)); [done|done| |exact Ex]. rewrite Ef. cbn. lia. }
  destruct (flights c !! key_of a) as [f|] eqn:Efl; [by apply inv_phase|].
  destruct (spend cfg (as_subject a) (as_now a) (spent c)) as [m []].
  - refine (inv_begin evs ev (with_spent m c) n a _ Hn Ha Efl). by apply inv_spent.
  - cbv zeta. match goal with |- inv _ (match ?o with _ => _ end) => destruct o as [x|] eqn:Ey end.
    + eapply (inv_hit _ _ (with_spent m c) n a (Z.min (recent_answer cfg) (ttl cfg))); [by apply inv_spent|done| |exact Ey].
      unfold max_age. destruct (as_fresh a); lia.
    + apply inv_phase; [by apply inv_spent|done|done].
Qed.

Lemma cache_inv_step evs ev c c' : inv evs c → (∀ s, ev = EPurge s → 0 <= purges c + 1 < 2 ^ 64) → step cfg c ev = Some c' → inv (evs ++ [ev]) c'.
Proof.
  intros Hi Hp Hst. destruct ev as [subject groups fresh now|n|n r|n|n|subject]; cbn [step] in Hst.
  - injection Hst as <-. by apply inv_ask.
  - destruct (askers c !! n) as [a|] eqn:Hn; cbn in Hst; [|done]. destruct (as_phase a) eqn:Ha; try done.
    injection Hst as <-. by apply inv_enter.
  - destruct (askers c !! n) as [a|] eqn:Hn; cbn in Hst; [|done]. destruct (as_phase a) eqn:Ha; try done.
    injection Hst as <-. by apply inv_returned.
  - destruct (askers c !! n) as [a|] eqn:Hn; cbn in Hst; [|done]. destruct (as_phase a) as [|f| |] eqn:Ha; try done.
    destruct (heap c !! f) as [[r|]|] eqn:Hh; cbn in Hst; try done. injection Hst as <-.
    apply inv_phase; [done|done|]. destruct r as [p|]; cbn; [|done]. intros Hab He.
    destruct (v_done _ _ Hi n a f p Hn Ha Hab He Hh) as [t Ht]. exists t. split; [done|by left].
  - destruct (askers c !! n) as [a|] eqn:Hn; cbn in Hst; [|done]. destruct (as_phase a) as [|f| |] eqn:Ha; try done.
    injection Hst as <-. by apply inv_phase.
  - injection Hst as <-. apply inv_purge; [done|by apply (Hp subject)].
Qed.
End Inv.

Lemma step_purges cfg c ev c' : step cfg c ev = Some c' →
  purges c' = match ev with EPurge _ => uint64_wrap (purges c + 1) | _ => purges c end.
Proof.
  intros Hst. destruct ev as [subject groups fresh now|n|n r|n|n|subject]; cbn [step] in Hst; [by injection Hst as <-| | | | |by injection Hst as <-].
  all: destruct (askers c !! n) as [a|]; cbn in Hst; [|done]; destruct (as_phase a) as [|f|f g|]; try done.
  - injection Hst as <-. unfold enter. destruct (negb (cc_Source cfg)); [done|].
    destruct (if as_fresh a then None else _); [done|]. destruct (flights c !! key_of a); [done|].
    destruct (spend cfg (as_subject a) (as_now a) (spent c)) as [m []]; [done|]. cbv zeta. by case_match.
  - injection Hst as <-. unfold returned. by case_bool_decide; (destruct r; cbn; [destruct (purges c =? g)|]).
  - destruct (heap c !! f) as [[r|]|]; cbn in Hst; try done. by injection Hst as <-.
  - by injection Hst as <-.
Qed.

Lemma run_purges cfg evs : ∀ c, run cfg new_cache evs = Some c → n_purges evs < 2 ^ 64 → purges c = n_purges evs.
Proof.
  induction evs as [|ev evs IH] using rev_ind; intros c Hr Hp; [by injection Hr as <-|].
  rewrite cache_run_snoc in Hr. destruct (run cfg new_cache evs) as [c1|] eqn:E; cbn in Hr; [|done].
  rewrite (step_purges _ _ _ _ Hr). rewrite n_purges_snoc in *. pose proof (n_purges_nonneg evs).
  rewrite (IH c1 eq_refl) by (destruct ev; lia). destruct ev; try lia. unfold uint64_wrap. rewrite Z.mod_small; lia.
Qed.

Lemma run_app cfg c evs evs' : run cfg c (evs ++ evs') = run cfg c evs ≫= λ c', run cfg c' evs'.
Proof.
  induction evs' as [|ev evs' IH] using rev_ind.
  - rewrite app_nil_r. by destruct (run cfg c evs).
  - rewrite app_assoc, cache_run_snoc, IH. destruct (run cfg c evs) as [c'|]; cbn [mbind option_bind]; [|done]. by rewrite cache_run_snoc.
Qed.

Lemma inv_run cfg about c0 evs0 evs : ∀ c,
  run cfg new_cache evs0 = Some c0 → inv cfg about c0 [] c0 → run cfg c0 evs = Some c → n_purges (evs0 ++ evs) < 2 ^ 64 →
  inv cfg about c0 evs c.
Proof.
  induction evs as [|ev evs IH] using rev_ind; intros c H0 Hi Hr Hp; [by injection Hr as <-|].
  rewrite cache_run_snoc in Hr. destruct (run cfg c0 evs) as [c1|] eqn:E; cbn in Hr; [|done].
  rewrite app_assoc, n_purges_snoc in Hp. pose proof (n_purges_nonneg (evs0 ++ evs)).
  assert (n_purges (evs0 ++ evs) < 2 ^ 64) as Hp' by (destruct ev; lia).
  eapply cache_inv_step; [by apply IH| |done]. intros s ->.
  rewrite (run_purges cfg (evs0 ++ evs)); [lia| |done]. by rewrite run_app, H0.
Qed.

Lemma inv_start cfg about c0 : about = (λ _, True) → c0 = new_cache → inv cfg about c0 [] c0.
Proof. intros -> ->. by constructor. Qed.

(** After a purge, nothing that is left knows the person. *)
Lemma inv_purged cfg evs s c : run cfg new_cache evs = Some c → n_purges evs + 1 < 2 ^ 64 →
  inv cfg (λ k, HasPrefix k (prefix_of_subject s) = true) (Purge s c) [] (Purge s c).
Proof.
  intros Hr Hp. pose proof (n_purges_nonneg evs) as Hn.
  assert (Hw : purges (Purge s c) = purges c + 1).
  { cbn. unfold uint64_wrap. rewrite (run_purges cfg evs) by (done || lia). by rewrite Z.mod_small by lia. }
  assert (Hb : inv cfg (λ _, True) new_cache evs c) by (eapply (inv_run cfg _ _ [] evs); [done|by apply inv_start|done|cbn [app]; lia]).
  assert (Hno : ∀ (k : bytes) f, flights (Purge s c) !! k = Some f →
    flights c !! k = Some f ∧ ¬ HasPrefix k (prefix_of_subject s) = true).
  { intros k f Hk. cbn in Hk. apply map_lookup_filter_Some in Hk as [? H]. cbn in H. split; [done|congruence]. }
  constructor.
  - done.
  - intros m b f g Hm Hph. pose proof (v_gens _ _ _ _ _ Hb m b f g Hm Hph). lia.
  - apply (v_call _ _ _ _ _ Hb).
  - apply (v_wait _ _ _ _ _ Hb).
  - intros k f [Hk _]%Hno. by apply (v_open _ _ _ _ _ Hb k).
  - intros k f m b g [Hk Hx]%Hno Hm Hph. split; [|done]. by apply (v_flight _ _ _ _ _ Hb k f m b g).
  - intros n a f m b g Hn' Ha Hm Hph. split; [by apply (v_join _ _ _ _ _ Hb n a f m b g)|].
    intros _ He. by rewrite (He a Hn') in Ha.
  - intros n a Hn' Ha b Hm. rewrite Hn' in Hm. by injection Hm as <-.
  - intros m b f Hm Hph. pose proof (v_gens _ _ _ _ _ Hb m b f _ Hm Hph). lia.
  - intros n a f p Hn' Ha _ He. by rewrite (He a Hn') in Ha.
  - intros k e Hk Ha. cbn in Hk. apply map_lookup_filter_Some in Hk as [_ H]. cbn in H. congruence.
  - intros n a p age Hn' Ha _ He. by rewrite (He a Hn') in Ha.
Qed.

Lemma key_about a s : as_subject a = s → HasPrefix (key_of a) (prefix_of_subject s) = true.
Proof. intros <-. apply HasPrefix_spec. by eexists. Qed.

Lemma entered_start n : entered_after new_cache n.
Proof. intros a Hn. by destruct n. Qed.

(** ** Where answers come from *)

(** Answers are the source's and fresh.  In any interleaving of askers, replies
    and purges, an answer is what the source said to a call about the same
    question; it is that call's own reply (age 0), or its age is the time since
    the call began and is below the TTL, at most five minutes, or for a fresh
    answer below the recent-answer bound. *)
Theorem lookup_answers_sourced cfg evs c n a p age
  (Hrun : run cfg new_cache evs = Some c) (Hpurges : n_purges evs < 2 ^ 64)
  (Hasker : askers c !! n = Some a) (Hanswer : as_phase a = Answered (Ok (p, age))) :
  ttl cfg <= MaxCacheTTL ∧
  ∃ m b, askers c !! m = Some b ∧ key_of b = key_of a ∧ EReturn m (Ok p) ∈ evs ∧
    (age = 0 ∨ age = time_Sub (as_now a) (as_now b) ∧
               age < (if as_fresh a then Z.min (recent_answer cfg) (ttl cfg) else ttl cfg)).
Proof.
  split. { unfold ttl. destruct (_ || _) eqn:E; b2p; lia. }
  assert (Hi : inv cfg (λ _, True) new_cache evs c) by (eapply (inv_run cfg _ _ [] evs); [done|by apply inv_start|done|cbn [app]; lia]).
  destruct (v_answer _ _ _ _ _ Hi n a p age Hasker Hanswer I (entered_start n)) as (t & (m & b & Hm & Hk & Ht & Hin & _) & Hage).
  exists m, b. subst t. by split_and!.
Qed.

(** C11: a purge is final.  Whoever reaches the cache after a person's answers were
    purged is answered from a call of the source that was itself begun after
    the purge: neither a cached answer, nor a call already under way, nor an
    asker still waiting for one lets an older answer through. *)
Theorem purge_is_final cfg pre post s c0 c n a p age
  (Hpre : run cfg new_cache (pre ++ [EPurge s]) = Some c0) (Hpost : run cfg c0 post = Some c)
  (Hpurges : n_purges (pre ++ [EPurge s] ++ post) < 2 ^ 64)
  (Hasker : askers c !! n = Some a) (Hsubject : as_subject a = s) (Hafter : entered_after c0 n)
  (Hanswer : as_phase a = Answered (Ok (p, age))) :
  ∃ m b, askers c !! m = Some b ∧ key_of b = key_of a ∧ EReturn m (Ok p) ∈ post ∧ entered_after c0 m.
Proof.
  rewrite cache_run_snoc in Hpre. destruct (run cfg new_cache pre) as [c1|] eqn:E; cbn in Hpre; [|done]. injection Hpre as <-.
  assert (Hp : n_purges pre + 1 < 2 ^ 64).
  { unfold n_purges in *. rewrite !lfilter_app, !length_app in Hpurges. cbn in Hpurges. lia. }
  pose proof (inv_purged cfg pre s c1 E Hp) as Hi.
  apply (inv_run cfg _ _ (pre ++ [EPurge s]) post c) in Hi; [|by rewrite cache_run_snoc, E|done|by rewrite <- app_assoc].
  destruct (v_answer _ _ _ _ _ Hi n a p age Hasker Hanswer (key_about a s Hsubject) Hafter) as (t & (m & b & Hm & Hk & _ & Hin & He) & _).
  exists m, b. by split_and!.
Qed.

(** ** The directory budget *)

(** What [obs] sees along a run. *)
Fixpoint observe {B} (cfg : config) (obs : Cache → event → option B) (c : Cache) (evs : list event) : list B :=
  match evs with
  | [] => []
  | ev :: evs' => option_list (obs c ev) ++ match step cfg c ev with Some c' => observe cfg obs c' evs' | None => [] end
  end.

Lemma observe_snoc {B} cfg (obs : Cache → event → option B) evs ev : ∀ c,
  observe cfg obs c (evs ++ [ev]) =
  observe cfg obs c evs ++ match run cfg c evs with Some c' => option_list (obs c' ev) | None => [] end.
Proof.
  induction evs as [|e evs IH]; intros c; cbn [app observe].
  - cbn. destruct (step cfg c ev); by rewrite !app_nil_r.
  - replace (run cfg c (e :: evs)) with (step cfg c e ≫= λ c', run cfg c' evs) by (symmetry; apply (run_app cfg c [e] evs)).
    destruct (step cfg c e) as [c'|]; cbn [mbind option_bind]; [|by rewrite !app_nil_r]. by rewrite IH, app_assoc.
Qed.

(** The clock an asker reads, when it enters the cache. *)
Definition enters (c : Cache) (ev : event) : option Z :=
  match ev with EEnter n => as_now <$> askers c !! n | _ => None end.

(** The subject and time of a call of the source, when it begins. *)
Definition calls (cfg : config) (c : Cache) (ev : event) : option (bytes * Z) :=
  match ev with
  | EEnter n =>
      a ← askers c !! n; c' ← step cfg c ev; a' ← askers c' !! n;
      match as_phase a' with Calling _ _ => Some (as_subject a, as_now a) | _ => None end
  | _ => None
  end.

Definition times_of (s : bytes) (l : list (bytes * Z)) : list Z := snd <$> List.filter (λ x, bool_decide (fst x = s)) l.

Definition since (lo : Z) (l : list Z) : list Z := List.filter (λ t, lo <? t) l.

Definition in_window (x : Z) (l : list Z) : list Z := List.filter (λ t, (x - Minute <? t) && (t <=? x)) l.

Definition recent_calls (m : gmap bytes (list Z)) (s : bytes) : list Z := default [] (m !! s).

Record budget_ok (cfg : config) (L : list (bytes * Z)) (now : Z) (m : gmap bytes (list Z)) : Prop := {
  bo_past : ∀ s t, t ∈ times_of s L → t <= now;
  bo_recent : ∀ s, since (now - Minute) (recent_calls m s) = since (now - Minute) (times_of s L);
  bo_bound : ∀ s x, Z.of_nat (length (in_window x (times_of s L))) <= lookup_limit cfg;
}.

Lemma since_since lo lo' l : lo <= lo' → since lo' (since lo l) = since lo' l.
Proof.
  intros H. unfold since. rewrite lfilter_filter. apply List.filter_ext. intros t. destruct (lo' <? t) eqn:E; b2p; [|by rewrite ?andb_false_r].
  rewrite andb_true_r || rewrite andb_true_l. apply Z.ltb_lt. lia.
Qed.

Lemma times_of_snoc s L s' t : times_of s (L ++ [(s', t)]) = times_of s L ++ (if bool_decide (s' = s) then [t] else []).
Proof. unfold times_of. rewrite lfilter_app, fmap_app. cbn. by case_bool_decide. Qed.

Lemma time_Sub_minute now t : (time_Sub now t <? Minute) = (now - Minute <? t).
Proof.
  unfold time_Sub, max_int64, min_int64, Minute, Second, Millisecond. destruct (_ <? _) eqn:E; symmetry; b2p; lia.
Qed.

Lemma in_window_snoc x l t : in_window x (l ++ [t]) = in_window x l ++ (if (x - Minute <? t) && (t <=? x) then [t] else []).
Proof. unfold in_window. by rewrite lfilter_app. Qed.

Lemma in_window_since x now l : now <= x → x - Minute < now →
  (length (in_window x l) <= length (since (now - Minute) l))%nat.
Proof.
  intros H1 H2. unfold in_window, since. induction l as [|t l IH]; [done|]. cbn [List.filter].
  destruct ((x - Minute <? t) && (t <=? x)) eqn:E; destruct (now - Minute <? t) eqn:E'; cbn [length]; b2p; lia.
Qed.

Lemma recent_insert m s l s' : recent_calls (<[s := l]> m) s' = if bool_decide (s = s') then l else recent_calls m s'.
Proof.
  unfold recent_calls. case_bool_decide as E; [subst; by rewrite lookup_insert_eq|by rewrite lookup_insert_ne].
Qed.

Lemma budget_later cfg L now now' m : budget_ok cfg L now m → now <= now' → budget_ok cfg L now' m.
Proof.
  intros [Hp Hr Hb] Hle. split; [|intros s|done].
  - intros s t Ht. specialize (Hp s t Ht). lia.
  - rewrite <- (since_since (now - Minute) (now' - Minute) (recent_calls m s)) by lia. rewrite Hr. by apply since_since; lia.
Qed.

Lemma lookup_limit_pos cfg : 0 < lookup_limit cfg.
Proof. unfold lookup_limit, DefaultLookupsPerMinute. destruct (_ <=? _) eqn:E; b2p; lia. Qed.

Lemma spend_budget cfg L now m s m' ok : budget_ok cfg L now m → Z.of_nat (size m) <= maxTrackedPeople →
  spend cfg s now m = (m', ok) → budget_ok cfg (if ok then L ++ [(s, now)] else L) now m'.
Proof.
  intros [Hp Hr Hb] Hsz. unfold spend. destruct (_ <? Z.of_nat (size m)) eqn:Esz; [b2p; lia|]. clear Esz Hsz.
  fold (recent_calls m s). assert (Hrec : List.filter (λ t, time_Sub now t <? Minute) (recent_calls m s) = since (now - Minute) (times_of s L)).
  { rewrite <- (Hr s). apply List.filter_ext. intros t. apply time_Sub_minute. }
  rewrite Hrec. set (R := since _ _). assert (HRR : since (now - Minute) R = R) by (unfold R; by apply since_since).
  destruct (lookup_limit cfg <=? Z.of_nat (length R)) eqn:El; intros [= <- <-]; b2p.
  - split; [done| |done]. intros s'. rewrite recent_insert. case_bool_decide as E; [subst s'; by rewrite HRR|apply Hr].
  - split.
    + intros s' t. rewrite times_of_snoc, elem_of_app. case_bool_decide as E; [|by intros [?|?%not_elem_of_nil]; [apply (Hp s')|]].
      intros [?| ->%list_elem_of_singleton]; [by apply (Hp s')|lia].
    + intros s'. rewrite recent_insert, times_of_snoc. case_bool_decide as E; [subst s'|by rewrite app_nil_r].
      unfold since in *. rewrite !lfilter_app. by rewrite HRR.
    + intros s' x. rewrite times_of_snoc. case_bool_decide as E; [subst s'|rewrite app_nil_r; apply Hb].
      rewrite in_window_snoc, length_app. destruct (_ && _) eqn:Ew; cbn [length]; [|specialize (Hb s x); lia].
      b2p. pose proof (in_window_since x now (times_of s L) ltac:(lia) ltac:(lia)) as Hw. fold R in Hw. lia.
Qed.

(** The people the cache has been asked about. *)
Definition people (c : Cache) : gset bytes := list_to_set (as_subject <$> askers c).

Lemma people_set n a p c : askers c !! n = Some a → people (set_asker n a p c) = people c.
Proof.
  intros Hn. unfold people. f_equal. cbn. rewrite list_fmap_insert. cbn. apply list_insert_id. by rewrite list_lookup_fmap, Hn.
Qed.

Lemma dom_spend cfg s now m : dom (fst (spend cfg s now m)) ⊆ ({[s]} ∪ dom m : gset bytes).
Proof.
  unfold spend. set (m1 := if _ <? _ then ∅ else m). assert (dom m1 ⊆ (dom m : gset bytes)) by (unfold m1; case_match; set_solver).
  destruct (_ <=? _); cbn [fst]; rewrite dom_insert; set_solver.
Qed.

(** How a step spends. *)
Lemma step_spends cfg c ev c' : step cfg c ev = Some c' →
  people c ⊆ people c' ∧
  ((spent c' = spent c ∧ calls cfg c ev = None) ∨
   ∃ n a ok, ev = EEnter n ∧ askers c !! n = Some a ∧ spend cfg (as_subject a) (as_now a) (spent c) = (spent c', ok) ∧
     calls cfg c ev = if ok then Some (as_subject a, as_now a) else None).
Proof.
  intros Hst. pose proof Hst as Hst'. destruct ev as [subject groups fresh now|n|n r|n|n|subject]; cbn [step] in Hst.
  - injection Hst as <-. split; [|by left]. unfold people. cbn. rewrite fmap_app, list_to_set_app. set_solver.
  - destruct (askers c !! n) as [a|] eqn:Hn; cbn in Hst; [|done]. destruct (as_phase a) eqn:Ha; try done.
    assert (Hc : calls cfg c (EEnter n) = a' ← askers c' !! n;
      match as_phase a' with Calling _ _ => Some (as_subject a, as_now a) | _ => None end).
    { unfold calls. rewrite Hn. cbn [mbind option_bind]. rewrite Hst'. done. }
    assert (Hset : ∀ p c1, askers c1 = askers c → askers (set_asker n a p c1) !! n = Some (with_phase p a)).
    { intros p c1 E. cbn. rewrite E. apply list_lookup_insert_eq. by eapply lookup_lt_Some. }
    apply (inj Some) in Hst. unfold enter in Hst.
    destruct (negb (cc_Source cfg)).
    { subst c'. split; [by rewrite people_set|]. left. rewrite Hc, Hset by done. done. }
    destruct (if as_fresh a then None else _) as [x|].
    { subst c'. split; [by rewrite people_set|]. left. rewrite Hc, Hset by done. done. }
    destruct (flights c !! key_of a).
    { subst c'. split; [by rewrite people_set|]. left. rewrite Hc, Hset by done. done. }
    destruct (spend cfg (as_subject a) (as_now a) (spent c)) as [m ok] eqn:Es. destruct ok; cbv zeta in Hst.
    + subst c'. split; [by rewrite people_set|]. right. exists n, a, true. rewrite Hc, Hset by done. done.
    + match type of Hst with match ?o with _ => _ end = _ => destruct o as [x|] end; subst c';
        (split; [by rewrite people_set|]); right; exists n, a, false; rewrite Hc, Hset by done; done.
  - destruct (askers c !! n) as [a|] eqn:Hn; cbn in Hst; [|done]. destruct (as_phase a) as [| |f g|]; try done. apply (inj Some) in Hst as <-.
    assert (E : people (returned n a f g r c) = people c ∧ spent (returned n a f g r c) = spent c).
    { unfold returned. case_bool_decide; (destruct r as [p|]; cbn [flights purges with_flights]; [destruct (purges c =? g)|]);
        (split; [apply (people_set n a _ c Hn)|done]). }
    destruct E as [-> ->]. by split; [|left].
  - destruct (askers c !! n) as [a|] eqn:Hn; cbn in Hst; [|done]. destruct (as_phase a) as [|f| |]; try done.
    destruct (heap c !! f) as [[r|]|]; cbn in Hst; try done. apply (inj Some) in Hst as <-. rewrite people_set by done. by split; [|left].
  - destruct (askers c !! n) as [a|] eqn:Hn; cbn in Hst; [|done]. destruct (as_phase a) as [|f| |]; try done.
    apply (inj Some) in Hst as <-. rewrite people_set by done. by split; [|left].
  - apply (inj Some) in Hst as <-. by split; [|left].
Qed.

Lemma run_budget cfg evs : ∀ c, run cfg new_cache evs = Some c → Z.of_nat (size (people c)) <= maxTrackedPeople →
  StronglySorted Z.le (observe cfg enters new_cache evs) →
  dom (spent c) ⊆ people c ∧
  ∀ now, (∀ t, t ∈ observe cfg enters new_cache evs → t <= now) → budget_ok cfg (observe cfg (calls cfg) new_cache evs) now (spent c).
Proof.
  induction evs as [|ev evs IH] using rev_ind; intros c Hr Hsz Hso.
  { injection Hr as <-. split; [done|]. intros now _. split; [by intros s t ?%not_elem_of_nil|done|].
    intros s x. cbn. pose proof (lookup_limit_pos cfg). lia. }
  rewrite cache_run_snoc in Hr. rewrite !observe_snoc in *. destruct (run cfg new_cache evs) as [c1|] eqn:E; cbn in Hr; [|done].
  destruct (step_spends _ _ _ _ Hr) as [Hpe Hsp]. apply StronglySorted_app in Hso as (Hlt & Hso & _).
  assert (Hsz1 : Z.of_nat (size (people c1)) <= maxTrackedPeople) by (apply subseteq_size in Hpe; lia).
  destruct (IH c1 eq_refl Hsz1 Hso) as [Hd Hb].
  destruct Hsp as [[-> ->]|(n & a & ok & -> & Hn & Hs & ->)].
  - split; [set_solver|]. intros now Hnow. rewrite app_nil_r. apply Hb. intros t Ht. apply Hnow, elem_of_app. by left.
  - cbn [enters] in *. rewrite Hn in *. cbn in *. pose proof (dom_spend cfg (as_subject a) (as_now a) (spent c1)) as Hds.
    rewrite Hs in Hds. cbn in Hds. split.
    + assert (as_subject a ∈ people c1); [|set_solver]. unfold people. apply elem_of_list_to_set, list_elem_of_fmap.
      exists a. split; [done|by eapply list_elem_of_lookup_2].
    + intros now Hnow. assert (as_now a <= now) by (apply Hnow, elem_of_app; right; by apply list_elem_of_singleton).
      apply (budget_later _ _ (as_now a)); [|done].
      assert (Hm : Z.of_nat (size (spent c1)) <= maxTrackedPeople).
      { pose proof (subseteq_size _ _ Hd) as Hx. rewrite size_dom in Hx. lia. }
      pose proof (spend_budget cfg _ _ _ _ _ _ (Hb (as_now a) (λ t Ht, Hlt t (as_now a) Ht ltac:(by apply list_elem_of_singleton))) Hm Hs) as Hok.
      destruct ok; [done|]. cbn. by rewrite app_nil_r.
Qed.

Lemma elem_le_max l t : t ∈ l → t <= foldr Z.max 0 l.
Proof.
  induction l as [|u l IH]; [by intros ?%not_elem_of_nil|]. cbn. intros [->|Ht]%elem_of_cons; [lia|]. specialize (IH Ht). lia.
Qed.

(** The directory is asked within budget.  Whatever the askers do, in any minute
    at most [LookupsPerMinute] calls of the source are begun for one person, as
    long as the clock does not run backwards and the tracked people fit the table. *)
Theorem directory_budget cfg evs c
  (Hrun : run cfg new_cache evs = Some c) (Hpeople : Z.of_nat (size (people c)) <= maxTrackedPeople)
  (Hclock : StronglySorted Z.le (observe cfg enters new_cache evs)) :
  ∀ s x, Z.of_nat (length (in_window x (times_of s (observe cfg (calls cfg) new_cache evs)))) <= lookup_limit cfg.
Proof.
  destruct (run_budget cfg evs c Hrun Hpeople Hclock) as [_ Hb]. intros s x.
  apply (bo_bound _ _ (foldr Z.max 0 (observe cfg enters new_cache evs)) (spent c)). apply Hb. intros t Ht.
  by apply elem_le_max.
Qed.

(** ** The decision *)

Lemma subset_spec want have : subset want have = true ↔ (∀ g, g ∈ want → g ∈ have).
Proof.
  unfold subset. rewrite forallb_forall. split.
  - intros H g Hg. specialize (H g). rewrite bool_decide_eq_true in H. by apply H, list_elem_of_In.
  - intros H g Hg%list_elem_of_In. rewrite bool_decide_eq_true. by apply H.
Qed.

(** Who may use an entry: the lesser of the pool's ceiling and the requester. *)
Definition entitled (ask : bool → bytes → list bytes → answer) (pool : Pool) (entry : Entry) (who : Requester) (recheck : bool) : Prop :=
  p_Ceiling pool ≠ #"external" ∧
  ∃ want ceiling, Tier (e_Tier entry) = Some want ∧ Tier (p_Ceiling pool) = Some ceiling ∧ want <= ceiling ∧
  (want = 0 ∨
   (p_Identity pool = #"workload" ∧ want = 1 ∧ ∀ g, g ∈ e_Requires entry → g ∈ p_Entitlements pool) ∨
   (p_Identity pool ∈ person_identities ∧
    r_Kind who = #"person" ∧ r_Subject who ≠ [] ∧ e_Requires entry ≠ [] ∧
    ∃ p age, ask ((2 <=? want) && negb recheck) (r_Subject who) (e_Requires entry) = Ok (p, age) ∧ pn_Enabled p = true ∧
      ∀ g, g ∈ e_Requires entry → g ∈ pn_MemberOf p)).

Lemma workload_no_person : #"workload" ∉ person_identities.
Proof. by apply (bool_decide_unpack (¬ _)); vm_compute. Qed.

Lemma Tier_range t w : Tier t = Some w → 0 <= w <= 2.
Proof. unfold Tier. repeat case_bool_decide; intros [= <-]; lia. Qed.

(** [Decide] allows exactly the lesser of the pool's ceiling and the requester's
    entitlements: nothing above the ceiling or from an external pool, everything
    else at T0, a workload's own T1 entries, and for a person the entries whose
    every group an enabled account is in, as the directory says now for T2. *)
Theorem Decide_exact ask pool entry who recheck :
  d_Allowed (fst (Decide ask pool entry who recheck)) = true ↔ entitled ask pool entry who recheck.
Proof.
  unfold Decide, decide_first, entitled.
  destruct (bool_decide_reflect (p_Ceiling pool = #"external")) as [Hx|Hx]; [by split; [|intros [? _]]|].
  destruct (Tier (e_Tier entry)) as [want|] eqn:Ew; [|split; [done|by intros (_ & ? & ? & [=] & _)]].
  destruct (Tier (p_Ceiling pool)) as [ceiling|] eqn:Ec; [|split; [done|by intros (_ & ? & ? & _ & [=] & _)]].
  pose proof (Tier_range _ _ Ew) as Hw.
  transitivity (want <= ceiling ∧ (want = 0 ∨
     (p_Identity pool = #"workload" ∧ want = 1 ∧ ∀ g, g ∈ e_Requires entry → g ∈ p_Entitlements pool) ∨
     (p_Identity pool ∈ person_identities ∧
      r_Kind who = #"person" ∧ r_Subject who ≠ [] ∧ e_Requires entry ≠ [] ∧
      ∃ p age, ask ((2 <=? want) && negb recheck) (r_Subject who) (e_Requires entry) = Ok (p, age) ∧ pn_Enabled p = true ∧
      ∀ g, g ∈ e_Requires entry → g ∈ pn_MemberOf p))).
  2: { split; [intros [H1 H2]; split; [done|]; by exists want, ceiling|]. by intros (_ & ? & ? & [= <-] & [= <-] & ?). }
  destruct (Z.ltb_spec ceiling want) as [Hlt|Hle]; [split; [done|intros [? _]; lia]|].
  destruct (Z.eqb_spec want 0) as [Hz|Hz]; [split; [by split; [|left]|done]|].
  destruct (bool_decide_reflect (p_Identity pool = #"workload")) as [Hid|Hid].
  { destruct (subset (e_Requires entry) (p_Entitlements pool)) eqn:Es; destruct (Z.leb_spec 2 want) as [H2|H2]; cbn; split; try done.
    - intros (_ & [?|[(_ & ? & _)|(Hin & _)]]); [lia|lia|]. rewrite Hid in Hin. by destruct workload_no_person.
    - intros _. split; [done|]. right. left. split_and!; [done|lia|by apply subset_spec].
    - intros (_ & [?|[(_ & ? & _)|(Hin & _)]]); [lia|lia|]. rewrite Hid in Hin. by destruct workload_no_person.
    - intros (_ & [?|[(_ & _ & Hs)|(Hin & _)]]); [lia| |]; [apply subset_spec in Hs; congruence|].
      rewrite Hid in Hin. by destruct workload_no_person. }
  destruct (bool_decide_reflect (p_Identity pool ∈ person_identities)) as [Hin|Hin]; cbn [negb].
  2: { split; [done|]. by intros (_ & [?|[(? & _)|(? & _)]]). }
  destruct (bool_decide_reflect (r_Kind who = #"person")) as [Hk|Hk]; cbn [negb orb].
  2: { split; [done|]. by intros (_ & [?|[(? & _)|(_ & ? & _)]]). }
  destruct (bool_decide_reflect (r_Subject who = [])) as [Hs|Hs].
  { split; [done|]. by intros (_ & [?|[(? & _)|(_ & _ & ? & _)]]). }
  destruct (bool_decide_reflect (e_Requires entry = [])) as [Hr|Hr].
  { split; [done|]. by intros (_ & [?|[(? & _)|(_ & _ & _ & ? & _)]]). }
  destruct (ask _ _ _) as [[p age]|err].
  - destruct (pn_Enabled p) eqn:Ep; cbn [negb].
    + destruct (subset (e_Requires entry) (pn_MemberOf p)) eqn:Es; cbn; split; try done.
      * intros _. split; [done|]. right. right. split_and!; try done. exists p, age. split_and!; [done|done|by apply subset_spec].
      * intros (_ & [?|[(? & _)|(_ & _ & _ & _ & ? & ? & [= <- <-] & _ & Hg)]]); [done|done|]. apply subset_spec in Hg. congruence.
    + split; [done|]. intros (_ & [?|[(? & _)|(_ & _ & _ & _ & ? & ? & [= <- <-] & ? & _)]]); congruence.
  - split; [by destruct err|]. by intros (_ & [?|[(? & _)|(_ & _ & _ & _ & ? & ? & [=] & _)]]).
Qed.

Module CacheDemo.
Definition cfg : config := {| cc_Source := true; cc_TTL := 0; cc_LookupsPerMinute := 1; cc_RecentAnswer := 0 |}.
Definition person : Person := {| pn_ObjectID := #"id"; pn_Enabled := true; pn_MemberOf := [ #"g"] |}.
Definition ask (now : Z) : event := EAsk #"ann" [ #"g"] false now.
(** A call of the source, a cached answer, and after a purge a refusal over budget and a call. *)
Definition before : list event := [ask 0; EEnter 0; EReturn 0 (Ok person); ask Second; EEnter 1].
Definition later : list event := [ask (2 * Second); EEnter 2; ask (70 * Second); EEnter 3; EReturn 3 (Ok person)].
Definition after (evs : list event) : Cache := default new_cache (run cfg new_cache evs).
Definition runs (evs : list event) : bool := bool_decide (is_Some (run cfg new_cache evs)).
Lemma cache_after_run evs : runs evs = true → run cfg new_cache evs = Some (after evs).
Proof. unfold runs, after. intros [c E]%bool_decide_eq_true. by rewrite E. Qed.
Lemma before_run : run cfg new_cache before = Some (after before).
Proof. apply cache_after_run. by vm_compute. Qed.
Lemma purged_run : run cfg new_cache (before ++ [EPurge #"ann"]) = Some (after (before ++ [EPurge #"ann"])).
Proof. apply cache_after_run. by vm_compute. Qed.
Lemma all_run : run cfg new_cache ((before ++ [EPurge #"ann"]) ++ later) = Some (after ((before ++ [EPurge #"ann"]) ++ later)).
Proof. apply cache_after_run. by vm_compute. Qed.
Lemma later_run : run cfg (after (before ++ [EPurge #"ann"])) later = Some (after ((before ++ [EPurge #"ann"]) ++ later)).
Proof. rewrite <- all_run, run_app, purged_run. cbn [mbind option_bind]. reflexivity. Qed.
Definition asker_of (n : nat) (now : Z) (p : phase) : asker :=
  {| as_subject := #"ann"; as_groups := [ #"g"]; as_fresh := false; as_now := now; as_phase := p |}.
Lemma cached_answer : askers (after before) !! 1%nat = Some (asker_of 1 Second (Answered (Ok (person, Second)))).
Proof. by vm_compute. Qed.
Lemma fresh_answer : askers (after ((before ++ [EPurge #"ann"]) ++ later)) !! 3%nat =
  Some (asker_of 3 (70 * Second) (Answered (Ok (person, 0)))).
Proof. by vm_compute. Qed.
Lemma new_asker : entered_after (after (before ++ [EPurge #"ann"])) 3.
Proof. intros a Ha. apply lookup_lt_Some in Ha. vm_compute in Ha. lia. Qed.
Lemma small : Z.of_nat (size (people (after before))) <= maxTrackedPeople.
Proof. by vm_compute. Qed.
Lemma clock : StronglySorted Z.le (observe cfg enters new_cache before).
Proof.
  assert (observe cfg enters new_cache before = [0; Second]) as -> by (by vm_compute).
  repeat constructor; unfold Second, Millisecond; lia.
Qed.
End CacheDemo.

Lemma lookup_answers_sourced_witness :
  ∃ m b, askers (CacheDemo.after CacheDemo.before) !! m = Some b ∧ EReturn m (Ok CacheDemo.person) ∈ CacheDemo.before.
Proof.
  destruct (lookup_answers_sourced CacheDemo.cfg CacheDemo.before (CacheDemo.after CacheDemo.before) 1%nat _ _ _
    CacheDemo.before_run eq_refl CacheDemo.cached_answer eq_refl) as (_ & m & b & Hm & _ & Hin & _).
  exists m, b. split; [exact Hm|exact Hin].
Defined.

Lemma purge_is_final_witness : ∃ m, EReturn m (Ok CacheDemo.person) ∈ CacheDemo.later.
Proof.
  destruct (purge_is_final CacheDemo.cfg CacheDemo.before CacheDemo.later #"ann" _ _ 3%nat _ _ _
    CacheDemo.purged_run CacheDemo.later_run eq_refl CacheDemo.fresh_answer eq_refl CacheDemo.new_asker eq_refl) as (m & _ & _ & _ & Hin & _).
  exists m. exact Hin.
Defined.

Lemma directory_budget_witness :
  Z.of_nat (length (in_window Second (times_of #"ann" (observe CacheDemo.cfg (calls CacheDemo.cfg) new_cache CacheDemo.before)))) <= 1.
Proof.
  exact (directory_budget CacheDemo.cfg CacheDemo.before (CacheDemo.after CacheDemo.before)
    CacheDemo.before_run CacheDemo.small CacheDemo.clock #"ann" Second).
Defined.
