(* ===== verification/ImageRule.v ===== *)
(** * Which pulled images an agent may run ([internal/imagerule/imagerule.go])

    Image references are matched by their patterns, then by digest or by
    repository prefix.  The theorems: an image admitted by prefix lies strictly
    below it, with no empty or dotted path component, and prefixes that do not
    overlap have no image in common. *)

From S2P Require Import Prelude GoString GoRegexp.

Definition lower_digit (c : Z) : bool := is_lower c || is_digit c.
Definition hex_lower (c : Z) : bool := is_digit c || in_range 97 102 c.

(** [^sha256:[0-9a-f]{64}$] *)
Definition digest : regex := RSeq (RStr #"sha256:") (RTimes 64 (RCls hex_lower)).

(** [[a-z0-9]([a-z0-9-]{0,61}[a-z0-9])?] *)
Definition segment : regex :=
  RSeq (RCls lower_digit) (ROpt (RSeq (RUpTo 61 (RCls (λ c, lower_digit c || (c =? 45)))) (RCls lower_digit))).

Definition prefix_pattern : regex :=
  RSeq (RStr #"us-central1-docker.pkg.dev/trm-agent-sandbox/")
    (RSeq segment (RSeq (RChar x2f) (ROpt (RSeq segment (RChar x2f))))).

Definition domainPart : regex :=
  RSeq (RCls lower_digit) (ROpt (RSeq (RStar (RCls (λ c, lower_digit c || (c =? 45)))) (RCls lower_digit))).

Definition pathPart : regex :=
  RSeq (RPlus (RCls lower_digit))
    (RStar (RSeq (RAlt (RChar x2e) (RAlt (RChar x5f) (RAlt (RStr #"__") (RPlus (RChar x2d))))) (RPlus (RCls lower_digit)))).

Definition ref : regex :=
  RSeq (ROpt (RSeq domainPart (RSeq (RStar (RSeq (RChar x2e) domainPart))
          (RSeq (ROpt (RSeq (RChar x3a) (RSeq (RCls is_digit) (RUpTo 4 (RCls is_digit))))) (RChar x2f)))))
    (RSeq pathPart (RSeq (RStar (RSeq (RChar x2f) pathPart)) (RSeq (RChar x40) digest))).

Definition ValidDigest (d : bytes) : bool := MatchString digest d.
Definition ValidPrefix (p : bytes) : bool := MatchString prefix_pattern p.
Definition Overlap (a b : bytes) : bool := HasPrefix a b || HasPrefix b a.

(** The repository and the digest. *)
Definition split_image (imageID : bytes) : option (bytes * bytes) :=
  let imageID := TrimPrefix imageID #"docker-pullable://" in
  if MatchString digest imageID then Some ([], imageID)
  else if (600 <? Z.of_nat (length imageID)) || negb (MatchString ref imageID) then None
  else match LastIndexByte imageID x40 with
       | Some i => Some (take i imageID, drop (S i) imageID)
       | None => None
       end.

Definition Allowed (imageID prefix : bytes) (digests : list bytes) : bool :=
  match split_image imageID with
  | None => false
  | Some (repository, d) =>
      bool_decide (d ∈ digests) ||
      (negb (bool_decide (prefix = [])) && negb (bool_decide (repository = [])) && HasPrefix (repository ++ #"/") prefix &&
       (Z.of_nat (length prefix) <? Z.of_nat (length repository) + 1))
  end.

(** ** The shape of a repository *)

(** Components between slashes, each beginning with a letter or digit; [start] is
    whether a component begins here. *)
Fixpoint components (start : bool) (w : list Z) : bool :=
  match w with
  | [] => negb start
  | c :: w' => if c =? 47 then negb start && components true w' else (negb start || lower_digit c) && components false w'
  end.

Lemma components_app w k : ∀ start, w ≠ [] → Forall (λ c, c ≠ 47) w → (start = true → ∃ c w', w = c :: w' ∧ lower_digit c = true) →
  components start (w ++ k) = components false k.
Proof.
  induction w as [|c w IH]; intros start Hne Hw Hs; [done|]. inversion_clear Hw as [|? ? Hc Hw']. cbn [app components].
  rewrite (proj2 (Z.eqb_neq c 47) Hc). destruct w as [|d w].
  - cbn. destruct start; cbn; [|done]. destruct (Hs eq_refl) as (? & ? & [= <- <-] & ->). done.
  - rewrite (IH false); [|done|done|done]. destruct start; cbn; [|done]. by destruct (Hs eq_refl) as (? & ? & [= <- <-] & ->).
Qed.

Lemma components_slash w : components true w = true → components false (47 :: w) = true.
Proof. intros H. by cbn. Qed.

Lemma lang_char b w : lang (RChar b) w → w = [bval b].
Proof. intros (c & -> & Hc)%lang_cls_inv. by apply Z.eqb_eq in Hc as ->. Qed.

(** A word of a pattern without slashes that begins with a letter or digit. *)
Lemma lang_component r w k : cls_ok (λ c, c ≠ 47) r → lang (RSeq (RCls lower_digit) r) w →
  components true (w ++ k) = components false k ∧ ∀ b, components b (w ++ k) = components false k.
Proof.
  intros Hr (w1 & w2 & -> & (c & -> & Hc)%lang_cls_inv & H2)%lang_seq_inv.
  assert (Forall (λ c, c ≠ 47) ([c] ++ w2)) as Hf.
  { apply Forall_app. split; [|by eapply lang_Forall]. apply Forall_singleton. intros ->. done. }
  assert (∀ b, components b (([c] ++ w2) ++ k) = components false k); [|done].
  intros b. apply components_app; [done|done|]. intros _. by exists c, w2.
Qed.

Lemma lower_digit_no_slash c : lower_digit c = true → c ≠ 47.
Proof. by intros ? ->. Qed.
Lemma lower_dash_no_slash c : lower_digit c || (c =? 45) = true → c ≠ 47.
Proof. by intros ? ->. Qed.
Lemma digit_no_slash c : is_digit c = true → c ≠ 47.
Proof. by intros ? ->. Qed.
#[local] Hint Resolve lower_digit_no_slash lower_dash_no_slash digit_no_slash : vault.

Lemma domainPart_component w k b : lang domainPart w → components b (w ++ k) = components false k.
Proof. intros H. eapply lang_component; [|exact H]. cbn. repeat split; auto with vault. Qed.

Lemma pathPart_component w k b : lang pathPart w → components b (w ++ k) = components false k.
Proof.
  unfold pathPart. intros (w1 & w2 & -> & (v1 & v2 & -> & Hv1 & Hv2)%lang_seq_inv & H2)%lang_seq_inv.
  rewrite <- (app_assoc v1 v2 w2). eapply lang_component; [|apply lang_seq; [exact Hv1|apply lang_seq; [exact Hv2|exact H2]]].
  cbn. repeat split; auto with vault; intros c Hc%Z.eqb_eq; by subst c.
Qed.

(** A repeated pattern that leaves the rest of the text as it is. *)
Lemma star_components r w k : (∀ w k, lang r w → components false (w ++ k) = components false k) →
  lang (RStar r) w → components false (w ++ k) = components false k.
Proof.
  intros Hr. remember (RStar r) as s eqn:Es. intros Hw. revert k.
  induction Hw as [| | | | | |r' w1 w2 Hne H1 _ H2 IH|]; try done; intros k. injection Es as ->. rewrite <- app_assoc. rewrite (Hr _ _ H1). by apply IH.
Qed.

Lemma components_no_slash w k : Forall (λ c, c ≠ 47) w → components false (w ++ k) = components false k.
Proof. induction 1 as [|c w Hc Hw IH]; [done|]. cbn. by rewrite (proj2 (Z.eqb_neq c 47) Hc). Qed.

Lemma path_components w1 w2 : lang pathPart w1 → lang (RStar (RSeq (RChar x2f) pathPart)) w2 → components true (w1 ++ w2) = true.
Proof.
  intros H1 H2. rewrite (pathPart_component _ _ _ H1). rewrite <- (app_nil_r w2).
  rewrite (star_components (RSeq (RChar x2f) pathPart)); [done| |done]. clear. intros w k (a & b & -> & ->%lang_char & Hb)%lang_seq_inv.
  rewrite <- app_assoc. apply (pathPart_component _ k true Hb).
Qed.

Lemma digest_no_at w : lang digest w → Forall (λ c, c ≠ 64) w.
Proof.
  apply lang_Forall. unfold digest. cbn. repeat split; try (intros c Hc%Z.eqb_eq; by subst c); intros c Hc ->; done.
Qed.

Lemma ref_shape w : lang ref w → ∃ repo d, w = repo ++ 64 :: d ∧ components true repo = true ∧ lang digest d.
Proof.
  unfold ref. intros (dom & w1 & -> & Hdom & (pp & w2 & -> & Hpp & (st & w3 & -> & Hst & (at_ & d & -> & ->%lang_char & Hd)%lang_seq_inv)%lang_seq_inv)%lang_seq_inv)%lang_seq_inv.
  exists (dom ++ pp ++ st), d. split_and!; [by rewrite <- !app_assoc| |done].
  pose proof (path_components _ _ Hpp Hst) as Hp. apply lang_alt_inv in Hdom as [Hdom| ->%lang_eps_inv]; [|done].
  apply lang_seq_inv in Hdom as (d1 & x1 & -> & Hd1 & (s1 & x2 & -> & Hs1 & (p1 & sl & -> & Hp1 & ->%lang_char)%lang_seq_inv)%lang_seq_inv).
  rewrite <- !app_assoc. rewrite (domainPart_component _ _ _ Hd1).
  rewrite (components_no_slash s1), (components_no_slash p1); [exact Hp| |].
  - eapply lang_Forall; [|exact Hp1]. cbn. repeat split; auto with vault; intros c Hc%Z.eqb_eq; by subst c.
  - eapply lang_Forall; [|exact Hs1]. cbn. repeat split; auto with vault; intros c Hc%Z.eqb_eq; by subst c.
Qed.

Definition ascii_class (c : Z) : Prop := c < 128.

Lemma class_small c : is_lower c || is_digit c || (c =? 45) = true → c < 128.
Proof. unfold is_lower, is_digit, in_range. intros H. b2p; lia. Qed.
Lemma hex_small c : hex_lower c = true → c < 128.
Proof. unfold hex_lower, is_digit, in_range. intros H. b2p; lia. Qed.

Lemma ref_ascii : cls_ok (λ c, c < 128) ref.
Proof.
  cbn. repeat split; try (intros c Hc%Z.eqb_eq; subst c; done); try exact hex_small;
    intros c Hc; apply class_small; revert Hc; unfold lower_digit; by repeat (intros ->%orb_true_iff || intros ->; rewrite ?orb_true_r).
Qed.

Lemma components_after a b : ∀ start, components start (a ++ 47 :: b) = true → components true b = true.
Proof.
  induction a as [|c a IH]; intros start; cbn; [by rewrite andb_true_iff; intros [_ ?]|].
  destruct (c =? 47); rewrite andb_true_iff; intros [_ H]; by apply IH in H.
Qed.

Definition proper (f : bytes) : Prop := ∃ b f', f = b :: f' ∧ lower_digit (bval b) = true.

Lemma proper_not_dots f : proper f → f ∉ [ []; #"."; #".."].
Proof. intros (b & f' & -> & Hb). rewrite !elem_of_cons. intros [?|[[= -> ->]|[[= -> ->]|?%not_elem_of_nil]]]; done. Qed.

Lemma bval_slash b : (bval b =? 47) = bool_decide (b = x2f).
Proof. case_bool_decide as H; [by subst|]. apply Z.eqb_neq. intros E. apply H, bval_inj. by rewrite E. Qed.

Lemma Split_proper s : ∀ start, components start (codes s) = true →
  match Split s x2f with [] => False | f :: fs => (start = true → proper f) ∧ Forall proper fs end.
Proof.
  induction s as [|b s IH]; intros start; cbn [codes map components Split]; [by destruct start; cbn|].
  rewrite bval_slash. case_bool_decide as Hb; rewrite andb_true_iff; intros [H1 H2].
  - subst b. specialize (IH true H2). destruct (Split s x2f) as [|f fs]; [done|]. destruct IH as [Hf Hfs].
    split; [by destruct start|]. constructor; auto.
  - specialize (IH false H2). destruct (Split s x2f) as [|f fs]; [done|]. destruct IH as [_ Hfs].
    split; [|done]. intros ->. by exists b, f.
Qed.

Lemma codes_app a b : codes (a ++ b) = codes a ++ codes b.
Proof. apply map_app. Qed.

Lemma MatchString_codes r s : cls_ok (λ c, c < 128) r → MatchString r s = true → lang r (codes s).
Proof.
  intros Hr H. apply full_match_lang in H. unfold codes. rewrite <- (runes_small s); [done|]. by eapply lang_Forall.
Qed.

(** A reference splits at its only at sign. *)
Lemma split_image_shape id repo d : split_image id = Some (repo, d) → repo ≠ [] →
  TrimPrefix id #"docker-pullable://" = repo ++ x40 :: d ∧ components true (codes repo) = true ∧ lang digest (codes d).
Proof.
  unfold split_image. set (s := TrimPrefix id _). destruct (MatchString digest s); [by intros [= <- <-]|].
  destruct (_ || _) eqn:E; [done|]. b2p. destruct (LastIndexByte s x40) as [i|] eqn:Ei; [|done]. intros [= <- <-] _.
  match goal with H : MatchString ref s = true |- _ => apply (MatchString_codes _ _ ref_ascii), ref_shape in H; destruct H as (r & d & Hs & Hr & Hd) end.
  unfold codes in Hs. apply map_eq_app in Hs as (a & b & Hab & Ha & Hb). apply map_eq_cons in Hb as (x & d' & -> & Hx & Hd').
  assert (x = x40) as -> by (by apply bval_inj). rewrite Hab in *.
  assert (x40 ∉ d') as Hno.
  { intros Hin. apply digest_no_at in Hd. rewrite Forall_forall in Hd. apply (Hd 64); [|done]. rewrite <- Hd'.
    apply elem_of_map. by exists x40. }
  rewrite LastIndexByte_app in Ei by done. injection Ei as <-. rewrite take_app_length.
  replace (drop (S (length a)) (a ++ x40 :: d')) with d' by (rewrite drop_app_ge by lia; by replace (S (length a) - length a)%nat with 1%nat by lia).
  split_and!; [done|by unfold codes; rewrite Ha|by unfold codes; rewrite Hd'].
Qed.

Lemma ValidPrefix_slash p : ValidPrefix p = true → ∃ p', p = p' ++ #"/".
Proof.
  unfold ValidPrefix. intros H. apply MatchString_codes in H.
  - unfold prefix_pattern in H. apply lang_seq_inv in H as (w1 & w2 & Hw & _ & (s1 & w3 & -> & _ & (sl & o & -> & ->%lang_char & Ho)%lang_seq_inv)%lang_seq_inv).
    assert (∃ w, codes p = w ++ [47]) as [w Hp].
    { apply lang_alt_inv in Ho as [(s2 & sl & -> & _ & ->%lang_char)%lang_seq_inv| ->%lang_eps_inv].
      - exists (w1 ++ s1 ++ [bval x2f] ++ s2). rewrite Hw. by rewrite <- !app_assoc.
      - exists (w1 ++ s1). rewrite Hw. by rewrite <- !app_assoc. }
    unfold codes in Hp. apply map_eq_app in Hp as (a & b & -> & _ & Hb). apply map_eq_cons in Hb as (x & b' & -> & Hx & Hb').
    destruct b'; [|done]. exists a. assert (x = x2f) as -> by (by apply bval_inj). done.
  - unfold prefix_pattern, segment. cbn.
    repeat split; try (intros c Hc%Z.eqb_eq; subst c; done); intros c Hc; apply class_small; revert Hc; unfold lower_digit;
      by repeat (intros ->%orb_true_iff || intros ->; rewrite ?orb_true_r).
Qed.

(** An image is admitted by its digest or by its place.  One that is not listed
    by digest is a reference [prefix rest@digest] whose path below the prefix is
    not empty and has no empty, [.] or [..] component, so it cannot climb out. *)
Theorem Allowed_by_place id prefix digests
  (Hprefix : ValidPrefix prefix = true) (Hallowed : Allowed id prefix digests = true) :
  (∃ repo d, split_image id = Some (repo, d) ∧ d ∈ digests) ∨
  (∃ rest d, TrimPrefix id #"docker-pullable://" = prefix ++ rest ++ #"@" ++ d ∧ lang digest (codes d) ∧
     Forall (λ c, c ∉ [ []; #"."; #".."]) (Split rest x2f)).
Proof.
  unfold Allowed in Hallowed. destruct (split_image id) as [[repo d]|] eqn:Es; [|done].
  destruct (bool_decide_reflect (d ∈ digests)) as [Hd|_]; [left; by exists repo, d|right].
  cbn [orb] in Hallowed. rewrite !andb_true_iff in Hallowed. destruct Hallowed as [[[_ Hne] [t Ht]%HasPrefix_spec] Hlen%Z.ltb_lt].
  rewrite negb_true_iff, bool_decide_eq_false in Hne. destruct (split_image_shape _ _ _ Es Hne) as (Hid & Hc & Hdig).
  destruct (ValidPrefix_slash _ Hprefix) as [p' ->]. destruct t as [|x t _] using rev_ind.
  { apply (f_equal length) in Ht. rewrite !length_app in *. cbn in *. lia. }
  rewrite app_assoc in Ht. apply app_inj_2 in Ht as [-> [= <-]]; [|done]. exists t, d. split_and!; [by rewrite Hid, <- !app_assoc|done|].
  rewrite !codes_app in Hc. cbn in Hc. rewrite <- app_assoc in Hc. apply components_after in Hc.
  pose proof (Split_proper t true Hc) as Hs. destruct (Split t x2f) as [|f fs]; [done|]. destruct Hs as [Hf Hfs].
  constructor; [by apply proper_not_dots, Hf|]. eapply Forall_impl; [exact Hfs|]. intros g. apply proper_not_dots.
Qed.

(** Prefixes that do not overlap have no image in common. *)
Lemma prefixes_disjoint id a b : Overlap a b = false → Allowed id a [] = true → Allowed id b [] = false.
Proof.
  intros Hoverlap Ha. destruct (Allowed id b []) eqn:Hb; [|done]. exfalso. unfold Allowed in *. destruct (split_image id) as [[repo d]|]; [|done].
  cbn [orb bool_decide] in *. rewrite bool_decide_false in Ha, Hb by apply not_elem_of_nil. cbn [orb] in *.
  rewrite !andb_true_iff in Ha, Hb. destruct Ha as [[_ [s Hs]%HasPrefix_spec] _], Hb as [[_ [t Ht]%HasPrefix_spec] _].
  rewrite Hs in Ht. unfold Overlap in Hoverlap. apply orb_false_iff in Hoverlap as [H1 H2].
  apply app_eq_inv in Ht as [(k & -> & _)|(k & -> & _)].
  - assert (HasPrefix (b ++ k) b = true) by (apply HasPrefix_spec; by eexists). congruence.
  - assert (HasPrefix (a ++ k) a = true) by (apply HasPrefix_spec; by eexists). congruence.
Qed.

Module ImageDemo.
Definition repo : bytes := #"us-central1-docker.pkg.dev/trm-agent-sandbox/agents/".
Definition id : bytes := #"us-central1-docker.pkg.dev/trm-agent-sandbox/agents/shell@sha256:0123456789abcdef0123456789abcdef0123456789abcdef0123456789abcdef".
End ImageDemo.

Lemma Allowed_by_place_witness :
  (∃ repo d, split_image ImageDemo.id = Some (repo, d) ∧ d ∈ ([] : list bytes)) ∨
  (∃ rest d, TrimPrefix ImageDemo.id #"docker-pullable://" = ImageDemo.repo ++ rest ++ #"@" ++ d ∧ lang digest (codes d) ∧
     Forall (λ c, c ∉ [ []; #"."; #".."]) (Split rest x2f)).
Proof. apply (Allowed_by_place ImageDemo.id ImageDemo.repo []); vm_compute; reflexivity. Defined.
