(* ===== verification/RunnerId.v ===== *)
(** * Session tokens ([internal/runnerid/verify.go], [cursor.go])

    The checks on a Claude runner's token and on a Cursor run's token, and the
    person each names.  JSON decoding, the published keys and the signature
    check are arguments; base64 and times are modelled.  A token's audience is a
    string, a list or neither, as [json.Unmarshal] tries them. *)

From S2P Require Import Prelude GoString.

(** ** The standard library *)

(** [base64.RawURLEncoding]: six bits a character, no padding. *)
Definition b64_value (b : byte) : option Z :=
  let c := bval b in
  if is_upper c then Some (c - 65) else if is_lower c then Some (c - 71) else if is_digit c then Some (c + 4)
  else if c =? 45 then Some 62 else if c =? 95 then Some 63 else None.

Fixpoint b64_groups (l : list Z) : option bytes :=
  match l with
  | [] => Some []
  | [a; b] => Some [byte_of (a * 4 + b / 16)]
  | [a; b; c] => Some [byte_of (a * 4 + b / 16); byte_of (b mod 16 * 16 + c / 4)]
  | a :: b :: c :: d :: l' =>
      r ← b64_groups l';
      Some (byte_of (a * 4 + b / 16) :: byte_of (b mod 16 * 16 + c / 4) :: byte_of (c mod 4 * 64 + d) :: r)
  | _ => None
  end.

(** [DecodeString]; it skips line breaks, which no token holds. *)
Definition RawURLDecode (s : bytes) : option bytes := mapM b64_value s ≫= b64_groups.

(** [time.Unix(s, 0)]: the seconds since year 1 are an [int64]. *)
Definition int64_wrap (z : Z) : Z := (z - min_int64) mod 2 ^ 64 + min_int64.
Definition unixToInternal : Z := 62135596800.
Definition time_Unix (s : Z) : Z := (int64_wrap (s + unixToInternal) - unixToInternal) * Second.

(** ** Data *)

Definition Hour : Z := 60 * Minute.
Definition maxLifetime : Z := 12 * Hour.
Definition clockSkew : Z := 60 * Second.
Definition sessionRole : bytes := #"session_worker".
Definition tokenPrefix : bytes := #"sk-ant-cc-".
Definition cursorMaxLifetime : Z := Hour.
Definition cursorRuntime : bytes := #"self_hosted".

Inductive Kind := KindPerson | KindAgent | KindNone.

Definition kind_string (k : Kind) : bytes :=
  match k with KindPerson => #"person" | KindAgent => #"agent" | KindNone => #"none" end.

Record Session := {
  s_Kind : Kind;
  s_Subject : bytes;
  s_Owner : bytes;
  s_Run : bytes;
  s_Pools : list bytes;
  s_Expires : Z;
  s_TokenSHA256 : bytes;
}.

Definition InPool (s : Session) (ccpool : bytes) : bool := bool_decide (ccpool ∈ s_Pools s).

Inductive token_error := ErrInvalid | ErrUnverifiable.

Record header := { hd_Alg : bytes; hd_Kid : bytes; hd_Crit : list bytes }.

Inductive json_audience := AudOne (s : bytes) | AudMany (l : list bytes) | AudOther.

Record claims := {
  c_Issuer : bytes;
  c_Audience : json_audience;
  c_Expires : Z;
  c_Issued : Z;
  c_NotBefor : Z;
  c_Role : bytes;
  c_Sub : bytes;
  c_Email : bytes;
}.

Record cursorClaims := {
  cc_Issuer : bytes;
  cc_Subject : bytes;
  cc_Audience : json_audience;
  cc_Expires : Z;
  cc_Issued : Z;
  cc_NotBefor : Z;
  cc_Runtime : bytes;
  cc_TeamID : bytes;
  cc_Email : bytes;
  cc_RunID : bytes;
}.

(** [audience] and [audienceIs]. *)
Definition audience (raw : json_audience) : list bytes :=
  let many := match raw with AudOne s => [s] | AudMany l => l | AudOther => [] end in
  List.filter (λ a, HasPrefix a #"ccpool_" && (Z.of_nat (length a) <=? 128)) many.

Definition audienceIs (raw : json_audience) (want : bytes) : bool :=
  match raw with
  | AudOne s => bool_decide (s = want)
  | AudMany [s] => bool_decide (s = want)
  | _ => false
  end.

Definition contains (l : list bytes) (s : bytes) : bool := existsb (λ v, negb (bool_decide (v = [])) && bool_decide (v = s)) l.

Definition plainSubject (s : bytes) : bool :=
  (Z.of_nat (length s) <=? 256) && negb (ContainsAny s [x20; x22; x5c]) &&
  negb (existsb (λ r, (r <? 32) || (r =? 127)) (runes s)).

(** The two JSON decoders, [kid] to key, the signature check and SHA-256 in hex. *)
Class Crypto := {
  pubkey : Type;
  parse_header : bytes → option header;
  parse_claims : bytes → option claims;
  parse_cursorClaims : bytes → option cursorClaims;
  ec_key : bytes → option pubkey;
  rsa_key : bytes → option pubkey;
  ec_verify : pubkey → bytes → bytes → bool;
  rsa_verify : pubkey → bytes → bytes → bool;
  SHA256hex : bytes → bytes;
}.

Record Verifier := { v_Issuer : bytes; v_PersonDomains : list bytes }.
Record CursorVerifier := { cv_Issuer : bytes; cv_Audience : bytes; cv_TeamIDs : list bytes; cv_PersonDomains : list bytes }.

Section Verify.
Context `{UnicodeTables} `{Crypto}.

Definition personEmail (email : bytes) (domains : list bytes) : option bytes :=
  let email := ToLower email in
  match LastIndexByte email x40 with
  | Some at_ =>
      if (Z.of_nat at_ <? 1) || negb (bool_decide (IndexByte email x40 = Some at_)) || (254 <? Z.of_nat (length email)) then None
      else
        let domain := drop (S at_) email in
        if existsb (λ d, negb (bool_decide (d = [])) && bool_decide (domain = d)) domains then Some email else None
  | None => None
  end.

Definition bad_token (token : bytes) : bool :=
  bool_decide (token = []) || (16384 <? Z.of_nat (length token)) || ContainsAny token [x20; x09; x0d; x0a].

(** The three parts of a token: its header, payload, signature and signed text. *)
Definition token_parts (token : bytes) : option (bytes * bytes * bytes * bytes) :=
  match Split token x2e with
  | [p0; p1; p2] =>
      h ← RawURLDecode p0; p ← RawURLDecode p1; s ← RawURLDecode p2; Some (h, p, s, p0 ++ #"." ++ p1)
  | _ => None
  end.

Definition header_ok (alg : bytes) (h : header) : bool :=
  bool_decide (hd_Alg h = alg) && negb (bool_decide (hd_Kid h = [])) && bool_decide (hd_Crit h = []).

(** The checks on the times of a token. *)
Definition times_ok (now expires issued notBefore life : Z) : bool :=
  (now <? time_Unix expires) && (0 <? issued) && (time_Unix issued <=? time_Add now clockSkew) &&
  (time_Unix notBefore <=? time_Add now clockSkew) && (time_Sub (time_Unix expires) (time_Unix issued) <=? life).

(** The session of a Claude token's claims. *)
Definition claude_session (v : Verifier) (c : claims) (pools : list bytes) (sha : bytes) : Session :=
  let owner := if HasPrefix (c_Sub c) #"agent:" || HasPrefix (c_Sub c) #"user:" then c_Sub c else [] in
  let '(kind, subject) :=
    if HasPrefix (c_Sub c) #"agent:" then (KindAgent, c_Sub c)
    else if HasPrefix (c_Sub c) #"user:" && (5 <? Z.of_nat (length (c_Sub c))) then
      match personEmail (c_Email c) (v_PersonDomains v) with Some e => (KindPerson, e) | None => (KindNone, []) end
    else (KindNone, []) in
  {| s_Kind := kind; s_Subject := subject; s_Owner := owner; s_Run := []; s_Pools := pools;
     s_Expires := time_Unix (c_Expires c); s_TokenSHA256 := sha |}.

Definition Verify (v : Verifier) (now : Z) (raw : bytes) : option Session :=
  if bad_token raw then None
  else if negb (HasPrefix raw tokenPrefix) && HasPrefix raw #"sk-ant-" then None
  else
    '(h, payload, signature, signed) ← token_parts (TrimPrefix raw tokenPrefix);
    if negb (length signature =? 64)%nat then None
    else
      hd ← parse_header h;
      if negb (header_ok #"ES256" hd) then None
      else
        k ← ec_key (hd_Kid hd);
        if negb (ec_verify k signed signature) then None
        else
          c ← parse_claims payload;
          let pools := audience (c_Audience c) in
          if negb (bool_decide (c_Issuer c = v_Issuer v) && bool_decide (c_Role c = sessionRole) &&
                   times_ok now (c_Expires c) (c_Issued c) (c_NotBefor c) maxLifetime) then None
          else if bool_decide (pools = []) then None
          else
            let s := claude_session v c pools (SHA256hex raw) in
            if negb (plainSubject (s_Subject s)) || negb (plainSubject (s_Owner s)) then None else Some s.

(** The session of a Cursor token's claims. *)
Definition cursor_session (v : CursorVerifier) (c : cursorClaims) (sha : bytes) : Session :=
  let '(kind, subject, owner) :=
    if HasPrefix (cc_Subject c) #"service_account:" && (16 <? Z.of_nat (length (cc_Subject c))) then
      (KindAgent, cc_Subject c, cc_Subject c)
    else if HasPrefix (cc_Subject c) #"user:" && (5 <? Z.of_nat (length (cc_Subject c))) then
      match personEmail (cc_Email c) (cv_PersonDomains v) with
      | Some e => (KindPerson, e, cc_Subject c)
      | None => (KindNone, [], cc_Subject c)
      end
    else (KindNone, [], []) in
  {| s_Kind := kind; s_Subject := subject; s_Owner := owner; s_Run := cc_RunID c; s_Pools := [];
     s_Expires := time_Unix (cc_Expires c); s_TokenSHA256 := sha |}.

Definition VerifyCursor (v : CursorVerifier) (now : Z) (token : bytes) : option Session :=
  if bad_token token || bool_decide (cv_Audience v = []) || bool_decide (cv_TeamIDs v = []) then None
  else
    '(h, payload, signature, signed) ← token_parts token;
    hd ← parse_header h;
    if negb (header_ok #"RS256" hd) then None
    else
      k ← rsa_key (hd_Kid hd);
      if negb (rsa_verify k signed signature) then None
      else
        c ← parse_cursorClaims payload;
        if negb (bool_decide (cc_Issuer c = cv_Issuer v) &&
                 times_ok now (cc_Expires c) (cc_Issued c) (cc_NotBefor c) cursorMaxLifetime) then None
        else if negb (audienceIs (cc_Audience c) (cv_Audience v)) || negb (bool_decide (cc_Runtime c = cursorRuntime)) ||
                bool_decide (cc_RunID c = []) || negb (contains (cv_TeamIDs v) (cc_TeamID c)) then None
        else
          let s := cursor_session v c (SHA256hex token) in
          if negb (plainSubject (s_Subject s)) || negb (plainSubject (s_Owner s)) || negb (plainSubject (s_Run s)) then None
          else Some s.

(** [Verifiers]: a vendor that is not configured cannot be verified. *)
Record Verifiers := { vs_Claude : option Verifier; vs_Cursor : option CursorVerifier; vs_SandboxDomains : list bytes }.

Definition vs_Verify (s : Verifiers) (now : Z) (token : bytes) : result token_error Session :=
  match vs_Claude s with
  | None => Err ErrUnverifiable
  | Some v => match Verify v now token with Some x => Ok x | None => Err ErrInvalid end
  end.

Definition vs_VerifyCursor (s : Verifiers) (now : Z) (token : bytes) : result token_error Session :=
  match vs_Cursor s with
  | None => Err ErrUnverifiable
  | Some v => match VerifyCursor v now token with Some x => Ok x | None => Err ErrInvalid end
  end.

Definition AttestedPerson (s : Verifiers) (login : bytes) : result token_error bytes :=
  if bool_decide (vs_SandboxDomains s = []) then Err ErrUnverifiable
  else match personEmail login (vs_SandboxDomains s) with
       | Some email => Ok (if plainSubject email then email else [])
       | None => Ok []
       end.
End Verify.

(** ** What a verified session is *)

Section Facts.
Context `{UnicodeTables} `{Crypto}.

(** A plain address in one of the domains. *)
Definition address_in (email : bytes) (domains : list bytes) : Prop :=
  ∃ user domain, email = user ++ x40 :: domain ∧ user ≠ [] ∧ domain ≠ [] ∧ x40 ∉ user ∧ x40 ∉ domain ∧ domain ∈ domains.

Lemma LastIndexByte_Some s c i : LastIndexByte s c = Some i → s = take i s ++ c :: drop (S i) s ∧ c ∉ drop (S i) s.
Proof.
  revert i. induction s as [|b s IH]; intros i; cbn; [done|].
  destruct (LastIndexByte s c) as [j|] eqn:E.
  - intros [= <-]. destruct (IH j eq_refl) as [Hs Hc]. cbn. split; [by rewrite <- Hs|done].
  - case_bool_decide as Hb; [|done]. intros [= <-]. subst b. cbn. rewrite drop_0. split; [done|]. by apply LastIndexByte_None.
Qed.

Lemma personEmail_spec email domains m : personEmail email domains = Some m →
  m = ToLower email ∧ address_in m domains ∧ Z.of_nat (length m) <= 254.
Proof.
  unfold personEmail. set (e := ToLower email). destruct (LastIndexByte e x40) as [i|] eqn:Ei; [|done].
  destruct (_ || _) eqn:E1; [done|]. destruct (existsb _ domains) eqn:E2; [|done]. intros [= <-]. b2p.
  split; [done|]. split; [|lia]. destruct (LastIndexByte_Some _ _ _ Ei) as [_ Hno].
  match goal with H : IndexByte e x40 = Some i |- _ => apply IndexByte_Some in H as (a & b & Hab & Ha & <-) end.
  assert (Hd : drop (S (length a)) e = b) by (rewrite Hab; by rewrite (drop_app_ge a), Nat.sub_succ_l, Nat.sub_diag by lia).
  rewrite Hd in *. apply existsb_Exists in E2 as (d & Hin & Hx). b2p. subst d.
  exists a, b. split_and!; try done. intros ->. cbn in *. lia.
Qed.

Lemma times_ok_spec now e i nb life : times_ok now e i nb life = true →
  now < time_Unix e ∧ 0 < i ∧ time_Unix i <= now + clockSkew ∧ time_Unix nb <= now + clockSkew ∧
  time_Sub (time_Unix e) (time_Unix i) <= life.
Proof. unfold times_ok, time_Add. rewrite !andb_true_iff. intros [[[[? ?] ?] ?] ?]. b2p. by split_and!. Qed.

(** What holds of every verified token: its signature covers what was read. *)
Definition signed_by (alg : bytes) (key : bytes → option pubkey) (verify : pubkey → bytes → bytes → bool) (token payload : bytes) : Prop :=
  ∃ h signature signed hd k, token_parts token = Some (h, payload, signature, signed) ∧ parse_header h = Some hd ∧
    hd_Alg hd = alg ∧ key (hd_Kid hd) = Some k ∧ verify k signed signature = true.

(** The condition of the outermost [if] on the left of the goal's equation. *)
Ltac outer_if E := match goal with |- (if ?b then _ else _) = _ → _ => destruct b eqn:E end.

Lemma Verify_inv v now raw s : Verify v now raw = Some s →
  ∃ payload c, signed_by #"ES256" ec_key ec_verify (TrimPrefix raw tokenPrefix) payload ∧ parse_claims payload = Some c ∧
    c_Issuer c = v_Issuer v ∧ c_Role c = sessionRole ∧ times_ok now (c_Expires c) (c_Issued c) (c_NotBefor c) maxLifetime = true ∧
    audience (c_Audience c) ≠ [] ∧ s = claude_session v c (audience (c_Audience c)) (SHA256hex raw) ∧
    plainSubject (s_Subject s) = true ∧ plainSubject (s_Owner s) = true.
Proof.
  unfold Verify. destruct (bad_token raw); [done|]. destruct (_ && _); [done|].
  destruct (token_parts _) as [[[[h payload] sg] signed]|] eqn:Ep; cbn; [|done]. destruct (negb (_ =? _)%nat); [done|].
  destruct (parse_header h) as [hd|] eqn:Eh; cbn; [|done]. destruct (header_ok _ hd) eqn:Eo; cbn; [|done].
  destruct (ec_key (hd_Kid hd)) as [k|] eqn:Ek; cbn; [|done]. destruct (ec_verify k signed sg) eqn:Ev; cbn; [|done].
  destruct (parse_claims payload) as [c|] eqn:Ec; cbn; [|done]. outer_if E1; [done|].
  destruct (bool_decide_reflect (audience (c_Audience c) = [])) as [|Ha]; [done|]. destruct (_ || _) eqn:E2; [done|]. intros [= <-].
  unfold header_ok in Eo. rewrite negb_false_iff, !andb_true_iff, ?bool_decide_eq_true in *. destruct Eo as [[? ?] ?], E1 as [[? ?] ?].
  apply orb_false_iff in E2 as [E2 E3]. rewrite negb_false_iff in *. exists payload, c.
  split; [by exists h, sg, signed, hd, k; split_and!|]. by split_and!.
Qed.

Lemma VerifyCursor_inv v now token s : VerifyCursor v now token = Some s →
  ∃ payload c, signed_by #"RS256" rsa_key rsa_verify token payload ∧ parse_cursorClaims payload = Some c ∧
    cc_Issuer c = cv_Issuer v ∧ times_ok now (cc_Expires c) (cc_Issued c) (cc_NotBefor c) cursorMaxLifetime = true ∧
    audienceIs (cc_Audience c) (cv_Audience v) = true ∧ cc_Runtime c = cursorRuntime ∧ cc_RunID c ≠ [] ∧
    contains (cv_TeamIDs v) (cc_TeamID c) = true ∧ s = cursor_session v c (SHA256hex token) ∧
    plainSubject (s_Subject s) = true ∧ plainSubject (s_Owner s) = true ∧ plainSubject (s_Run s) = true.
Proof.
  unfold VerifyCursor. outer_if E0; [done|].
  destruct (token_parts _) as [[[[h payload] sg] signed]|] eqn:Ep; cbn; [|done].
  destruct (parse_header h) as [hd|] eqn:Eh; cbn; [|done]. destruct (header_ok _ hd) eqn:Eo; cbn; [|done].
  destruct (rsa_key (hd_Kid hd)) as [k|] eqn:Ek; cbn; [|done]. destruct (rsa_verify k signed sg) eqn:Ev; cbn; [|done].
  destruct (parse_cursorClaims payload) as [c|] eqn:Ec; cbn; [|done]. outer_if E1; [done|].
  outer_if E4; [done|]. outer_if E2; [done|]. intros [= <-].
  unfold header_ok in Eo. rewrite negb_false_iff, !andb_true_iff, ?bool_decide_eq_true in *. destruct Eo as [[? ?] ?], E1 as [? ?].
  rewrite !orb_false_iff in *. rewrite !negb_false_iff, ?bool_decide_eq_true, ?bool_decide_eq_false in *. destruct_and!.
  exists payload, c. split; [by exists h, sg, signed, hd, k; split_and!|]. by split_and!.
Qed.

Lemma claude_session_person v c pools sha : s_Kind (claude_session v c pools sha) = KindPerson →
  HasPrefix (c_Sub c) #"user:" = true ∧ s_Owner (claude_session v c pools sha) = c_Sub c ∧
  s_Subject (claude_session v c pools sha) = ToLower (c_Email c) ∧
  address_in (s_Subject (claude_session v c pools sha)) (v_PersonDomains v).
Proof.
  unfold claude_session. destruct (HasPrefix (c_Sub c) #"agent:"); [done|]. destruct (HasPrefix (c_Sub c) #"user:") eqn:Eu; cbn [andb orb]; [|done].
  destruct (5 <? _); [|done]. destruct (personEmail _ _) as [e|] eqn:Ee; [|done]. intros _. cbn.
  by apply personEmail_spec in Ee as (He & Ha & _).
Qed.

Lemma cursor_session_person v c sha : s_Kind (cursor_session v c sha) = KindPerson →
  s_Owner (cursor_session v c sha) = cc_Subject c ∧ HasPrefix (cc_Subject c) #"user:" = true ∧
  s_Subject (cursor_session v c sha) = ToLower (cc_Email c) ∧ address_in (s_Subject (cursor_session v c sha)) (cv_PersonDomains v).
Proof.
  unfold cursor_session. destruct (HasPrefix (cc_Subject c) #"service_account:" && _); [done|].
  destruct (HasPrefix (cc_Subject c) #"user:") eqn:Eu; cbn [andb]; [|done]. destruct (5 <? _); [|done].
  destruct (personEmail _ _) as [e|] eqn:Ee; [|done]. intros _. cbn. by apply personEmail_spec in Ee as (He & Had & _).
Qed.

Lemma cursor_session_run v c sha : s_Run (cursor_session v c sha) = cc_RunID c ∧ s_Expires (cursor_session v c sha) = time_Unix (cc_Expires c).
Proof. unfold cursor_session. by repeat case_match; simplify_eq. Qed.

Lemma claude_session_pools v c pools sha : s_Pools (claude_session v c pools sha) = pools ∧
  s_Expires (claude_session v c pools sha) = time_Unix (c_Expires c).
Proof. unfold claude_session. by repeat case_match; simplify_eq. Qed.

(** A Claude token names a person only by a recorded address.  Its signed claims
    are the configured issuer's for a session worker, it is in force, issued
    for at most twelve hours and for at least one runner pool; and the person
    is the lower-cased email of a [user:] session, a plain address in a
    configured domain. *)
Theorem Verify_person v now raw s
  (Hverify : Verify v now raw = Some s) (Hperson : s_Kind s = KindPerson) :
  ∃ payload c, signed_by #"ES256" ec_key ec_verify (TrimPrefix raw tokenPrefix) payload ∧ parse_claims payload = Some c ∧
    c_Issuer c = v_Issuer v ∧ c_Role c = sessionRole ∧ now < s_Expires s ∧
    time_Sub (s_Expires s) (time_Unix (c_Issued c)) <= maxLifetime ∧
    s_Pools s ≠ [] ∧ Forall (λ p, HasPrefix p #"ccpool_" = true) (s_Pools s) ∧
    HasPrefix (c_Sub c) #"user:" = true ∧ s_Owner s = c_Sub c ∧
    s_Subject s = ToLower (c_Email c) ∧ address_in (s_Subject s) (v_PersonDomains v) ∧ plainSubject (s_Subject s) = true.
Proof.
  destruct (Verify_inv _ _ _ _ Hverify) as (payload & c & Hsig & Hc & Hi & Hr & (? & _ & _ & _ & ?)%times_ok_spec & Hp & -> & Hps & _).
  exists payload, c. destruct (claude_session_person _ _ _ _ Hperson) as (? & ? & ? & ?).
  destruct (claude_session_pools v c (audience (c_Audience c)) (SHA256hex raw)) as [-> ->]. split_and!; try done.
  unfold audience. apply Forall_forall. intros a Hin%elem_of_lfilter. destruct Hin as [_ Hx]. by apply andb_true_iff in Hx as [? _].
Qed.

(** A Cursor token counts only for this broker and for its own run: a self-hosted
    run of a configured team, for exactly this audience, in force for at most an
    hour; a person is the address of a [user:] run, and an owner is pinned
    whenever there is a person. *)
Theorem VerifyCursor_sound v now token s (Hverify : VerifyCursor v now token = Some s) :
  ∃ payload c, signed_by #"RS256" rsa_key rsa_verify token payload ∧ parse_cursorClaims payload = Some c ∧
    cc_Issuer c = cv_Issuer v ∧ audienceIs (cc_Audience c) (cv_Audience v) = true ∧ cc_Runtime c = cursorRuntime ∧
    cc_TeamID c ∈ cv_TeamIDs v ∧ s_Run s = cc_RunID c ∧ s_Run s ≠ [] ∧ now < s_Expires s ∧
    time_Sub (s_Expires s) (time_Unix (cc_Issued c)) <= cursorMaxLifetime ∧
    (s_Kind s = KindPerson → s_Owner s = cc_Subject c ∧ HasPrefix (s_Owner s) #"user:" = true ∧
       s_Subject s = ToLower (cc_Email c) ∧ address_in (s_Subject s) (cv_PersonDomains v)).
Proof.
  destruct (VerifyCursor_inv _ _ _ _ Hverify) as (payload & c & Hsig & Hc & Hi & (? & _ & _ & _ & ?)%times_ok_spec & Ha & Hrt & Hrun & Ht & -> & _).
  exists payload, c. assert (cc_TeamID c ∈ cv_TeamIDs v) by (apply existsb_Exists in Ht as (x & ? & Hx); b2p; by subst x).
  destruct (cursor_session_run v c (SHA256hex token)) as [-> ->]. split_and!; try done.
  intros (Ho & Hu & Hs & Hd)%cursor_session_person. by rewrite Ho.
Qed.
End Facts.

Module TokenDemo.
Definition hd (alg : bytes) : header := {| hd_Alg := alg; hd_Kid := #"k"; hd_Crit := [] |}.
Definition cl : claims :=
  {| c_Issuer := #"iss"; c_Audience := AudOne #"ccpool_1"; c_Expires := 1000; c_Issued := 10; c_NotBefor := 10;
     c_Role := sessionRole; c_Sub := #"user:1"; c_Email := #"Ann@example.com" |}.
Definition ccl : cursorClaims :=
  {| cc_Issuer := #"iss"; cc_Subject := #"user:1"; cc_Audience := AudOne #"aud"; cc_Expires := 1000; cc_Issued := 10;
     cc_NotBefor := 10; cc_Runtime := cursorRuntime; cc_TeamID := #"t"; cc_Email := #"Ann@example.com"; cc_RunID := #"bc-1" |}.
Definition crypto : Crypto :=
  {| pubkey := unit; parse_header := λ h, if bool_decide (h = #"h") then Some (hd #"ES256") else Some (hd #"RS256");
     parse_claims := λ _, Some cl; parse_cursorClaims := λ _, Some ccl; ec_key := λ _, Some tt; rsa_key := λ _, Some tt;
     ec_verify := λ _ _ _, true; rsa_verify := λ _ _ _, true; SHA256hex := λ x, x |}.
Definition v : Verifier := {| v_Issuer := #"iss"; v_PersonDomains := [ #"example.com"] |}.
Definition cv : CursorVerifier :=
  {| cv_Issuer := #"iss"; cv_Audience := #"aud"; cv_TeamIDs := [ #"t"]; cv_PersonDomains := [ #"example.com"] |}.
Definition signature : bytes := replicate 86 x41.
Definition token (h : bytes) : bytes := h ++ #".cA." ++ signature.
Definition raw : bytes := tokenPrefix ++ token #"aA".
Definition session : Session := @claude_session latin1_tables v cl [ #"ccpool_1"] raw.
Definition cursor : Session := @cursor_session latin1_tables cv ccl (token #"bA").
Lemma verified : @Verify latin1_tables crypto v (100 * Second) raw = Some session.
Proof. vm_compute. reflexivity. Qed.
Lemma verified_cursor : @VerifyCursor latin1_tables crypto cv (100 * Second) (token #"bA") = Some cursor.
Proof. vm_compute. reflexivity. Qed.
End TokenDemo.

Lemma Verify_person_witness : @address_in (s_Subject TokenDemo.session) [ #"example.com"].
Proof.
  destruct (@Verify_person latin1_tables TokenDemo.crypto TokenDemo.v (100 * Second) TokenDemo.raw TokenDemo.session
    TokenDemo.verified eq_refl) as (_ & _ & _ & _ & _ & _ & _ & _ & _ & _ & _ & _ & _ & Ha & _). exact Ha.
Defined.

Lemma VerifyCursor_sound_witness : s_Run TokenDemo.cursor ≠ [].
Proof.
  destruct (@VerifyCursor_sound latin1_tables TokenDemo.crypto TokenDemo.cv (100 * Second) (TokenDemo.token #"bA") TokenDemo.cursor
    TokenDemo.verified_cursor) as (_ & _ & _ & _ & _ & _ & _ & _ & _ & Hr & _). exact Hr.
Defined.
