(* ===== verification/RunnerSession.v ===== *)
(** * Pins of runner sessions ([internal/store/runner_session.go])

    [BindRunnerSession] pins a token to the first Pod that presents it, with three
    statements on a shared table.  Calls of any number of replicas interleave at
    the statements, each of which the database runs atomically and under its own
    clock, and any statement may fail, a failed insert with or without effect.
    Times in the table are milliseconds. *)

From S2P Require Import Prelude GoString.

(** A row: the Pod (or owner) and [expires_ms]. *)
Record pin := { pin_pod : bytes; pin_expires : Z }.

Inductive bind_phase :=
| BStart
| BCleaned                                        (* expired pins are deleted *)
| BInserted                                       (* the insert has been tried *)
| BDone (bound : option bytes).                   (* [None]: an error *)

Record bind_call := { bc_token : bytes; bc_pod : bytes; bc_expires : Z; bc_phase : bind_phase }.

Record binding := { table : gmap bytes pin; bind_calls : list bind_call }.

Definition no_bindings : binding := {| table := ∅; bind_calls := [] |}.

Definition UnixMilli (t : Z) : Z := t / Millisecond.

Definition with_bind_phase (p : bind_phase) (c : bind_call) : bind_call :=
  {| bc_token := bc_token c; bc_pod := bc_pod c; bc_expires := bc_expires c; bc_phase := p |}.

Definition set_call (i : nat) (c : bind_call) (p : bind_phase) (t : gmap bytes pin) (b : binding) : binding :=
  {| table := t; bind_calls := <[i := with_bind_phase p c]> (bind_calls b) |}.

Inductive bind_event :=
| BCall (token pod : bytes) (expires : Z)
| BDelete (i : nat) (now : Z) (failed : bool)
| BInsert (i : nat) (applied : bool)
| BSelect (i : nat) (failed : bool).

(** [INSERT ... WHERE NOT EXISTS]: the primary key keeps one row. *)
Definition insert_pin (c : bind_call) (t : gmap bytes pin) : gmap bytes pin :=
  match t !! bc_token c with
  | Some _ => t
  | None => <[bc_token c := {| pin_pod := bc_pod c; pin_expires := UnixMilli (bc_expires c) |}]> t
  end.

Definition BindRunnerSession (b : binding) (ev : bind_event) : option binding :=
  match ev with
  | BCall token pod expires =>
      let phase := if bool_decide (token = []) || bool_decide (pod = []) then BDone None else BStart in
      Some {| table := table b;
              bind_calls := bind_calls b ++ [{| bc_token := token; bc_pod := pod; bc_expires := expires; bc_phase := phase |}] |}
  | BDelete i now failed =>
      c ← bind_calls b !! i;
      match bc_phase c with
      | BStart => Some (if failed then set_call i c (BDone None) (table b) b
                        else set_call i c BCleaned (filter (λ kv, now < pin_expires (snd kv)) (table b)) b)
      | _ => None
      end
  | BInsert i applied =>
      c ← bind_calls b !! i;
      match bc_phase c with
      | BCleaned => Some (set_call i c BInserted (if applied then insert_pin c (table b) else table b) b)
      | _ => None
      end
  | BSelect i failed =>
      c ← bind_calls b !! i;
      match bc_phase c with
      | BInserted => Some (set_call i c (BDone (if failed then None else pin_pod <$> table b !! bc_token c)) (table b) b)
      | _ => None
      end
  end.

Definition bind_run (b : binding) (evs : list bind_event) : option binding :=
  foldl (λ o ev, o ≫= λ b, BindRunnerSession b ev) (Some b) evs.

(** ** One pin for one token *)

Lemma bind_run_snoc b evs ev : bind_run b (evs ++ [ev]) = bind_run b evs ≫= λ b, BindRunnerSession b ev.
Proof. unfold bind_run. by rewrite foldl_app. Qed.

(** The answer of call [i]. *)
Definition bound_to (b : binding) (i : nat) (pod : bytes) : Prop :=
  ∃ c, bind_calls b !! i = Some c ∧ bc_phase c = BDone (Some pod).

Definition call_token (b : binding) (i : nat) : option bytes := bc_token <$> bind_calls b !! i.

(** The clock at which a step deletes, if it does. *)
Definition deletes_at (ev : bind_event) : option Z :=
  match ev with BDelete _ now false => Some now | _ => None end.

Lemma calls_set i c p t b j d : bind_calls b !! i = Some c → bind_calls (set_call i c p t b) !! j = Some d →
  (j = i ∧ d = with_bind_phase p c) ∨ (j ≠ i ∧ bind_calls b !! j = Some d).
Proof.
  intros Hi. cbn. destruct (decide (j = i)) as [->|Hne].
  - rewrite list_lookup_insert_eq by (by eapply lookup_lt_Some). intros [= <-]. by left.
  - rewrite list_lookup_insert_ne by done. by right.
Qed.

(** What a step does to the row of one token. *)
Lemma bind_step_table b ev b' token p : BindRunnerSession b ev = Some b' → table b !! token = Some p →
  (∀ now, deletes_at ev = Some now → now < pin_expires p) → table b' !! token = Some p.
Proof.
  intros Hst Hp Hnow. destruct ev as [tk pod ex|i now failed|i applied|i failed]; cbn [BindRunnerSession] in Hst; [by injection Hst as <-|..].
  all: destruct (bind_calls b !! i) as [c|]; cbn in Hst; [|done]; destruct (bc_phase c); try done; injection Hst as <-.
  - destruct failed; [done|]. cbn. apply map_lookup_filter_Some. split; [done|]. by apply Hnow.
  - destruct applied; [|done]. cbn. unfold insert_pin. destruct (table b !! bc_token c) eqn:E; [done|].
    rewrite lookup_insert_ne; [done|]. congruence.
  - done.
Qed.

(** An answer, once given, stays; the one a step gives is in the table. *)
Lemma bind_step_answer b ev b' j pod : BindRunnerSession b ev = Some b' → bound_to b' j pod →
  bound_to b j pod ∨ (∃ token p, call_token b' j = Some token ∧ table b' !! token = Some p ∧ pin_pod p = pod ∧ table b !! token = Some p).
Proof.
  intros Hst (d & Hd & Hph). destruct ev as [tk po ex|i now failed|i applied|i failed]; cbn [BindRunnerSession] in Hst.
  { injection Hst as <-. cbn in Hd. apply lookup_snoc_Some in Hd as [[_ Hd]|[_ <-]]; [by left; exists d|]. cbn in Hph. by case_match. }
  all: destruct (bind_calls b !! i) as [c|] eqn:Hi; cbn in Hst; [|done]; destruct (bc_phase c) eqn:Hc; try done; injection Hst as <-.
  - destruct failed; apply (calls_set _ _ _ _ _ _ _ Hi) in Hd as [[-> ->]|[_ Hd]]; try done; by left; exists d.
  - apply (calls_set _ _ _ _ _ _ _ Hi) in Hd as [[-> ->]|[_ Hd]]; [done|]. by left; exists d.
  - pose proof Hd as Hd'. apply (calls_set _ _ _ _ _ _ _ Hi) in Hd as [[-> ->]|[_ Hd]]; [|by left; exists d].
    right. cbn in Hph. destruct failed; [done|]. destruct (table b !! bc_token c) as [p|] eqn:Hp; [|done]. injection Hph as <-.
    exists (bc_token c), p. unfold call_token. rewrite Hd'. by split_and!.
Qed.

Lemma bind_step_calls b ev b' i c : BindRunnerSession b ev = Some b' → bind_calls b !! i = Some c →
  ∃ p, bind_calls b' !! i = Some (with_bind_phase p c).
Proof.
  intros Hst Hi. assert (Hkeep : ∃ p, bind_calls b !! i = Some (with_bind_phase p c)) by (exists (bc_phase c); by destruct c).
  destruct ev as [tk po ex|j now failed|j applied|j failed]; cbn [BindRunnerSession] in Hst.
  { injection Hst as <-. exists (bc_phase c). cbn. rewrite lookup_app_l by (by eapply lookup_lt_Some). rewrite Hi. by destruct c. }
  all: destruct (bind_calls b !! j) as [d|] eqn:Hj; cbn in Hst; [|done]; destruct (bc_phase d); try done; injection Hst as <-.
  1: destruct failed.
  all: cbn; destruct (decide (i = j)) as [->|Hne]; [|by rewrite list_lookup_insert_ne].
  all: rewrite list_lookup_insert_eq by (by eapply lookup_lt_Some); eexists; by replace c with d by congruence.
Qed.

(** A row of a token was asked for by a call. *)
Lemma bind_step_row b ev b' token p : BindRunnerSession b ev = Some b' → table b' !! token = Some p →
  table b !! token = Some p ∨ ∃ i c, bind_calls b !! i = Some c ∧ bc_token c = token ∧ pin_expires p = UnixMilli (bc_expires c).
Proof.
  intros Hst Hp. destruct ev as [tk po ex|j now failed|j applied|j failed]; cbn [BindRunnerSession] in Hst; [injection Hst as <-; by left|..].
  all: destruct (bind_calls b !! j) as [d|] eqn:Hj; cbn in Hst; [|done]; destruct (bc_phase d); try done; injection Hst as <-.
  - destruct failed; [by left|]. cbn in Hp. apply map_lookup_filter_Some in Hp as [Hp _]. by left.
  - destruct applied; [|by left]. cbn in Hp. unfold insert_pin in Hp. destruct (table b !! bc_token d); [by left|].
    apply lookup_insert_Some in Hp as [[<- <-]|[_ Hp]]; [right; by exists j, d|by left].
  - by left.
Qed.

Definition lives_through (token : bytes) (b : binding) (evs : list bind_event) : Prop :=
  ∀ i c ev now, bind_calls b !! i = Some c → bc_token c = token → ev ∈ evs → deletes_at ev = Some now →
    now < UnixMilli (bc_expires c).

Lemma binding_inv token evs : ∀ b, bind_run no_bindings evs = Some b → lives_through token b evs →
  (∀ p, table b !! token = Some p → ∃ i c, bind_calls b !! i = Some c ∧ bc_token c = token ∧ pin_expires p = UnixMilli (bc_expires c)) ∧
  (∀ i pod, bound_to b i pod → call_token b i = Some token → ∃ p, table b !! token = Some p ∧ pin_pod p = pod).
Proof.
  induction evs as [|ev evs IH] using rev_ind; intros b Hr Hl.
  { injection Hr as <-. split; [done|]. intros i pod (c & Hc & _). by destruct i. }
  rewrite bind_run_snoc in Hr. destruct (bind_run no_bindings evs) as [b1|] eqn:E; cbn in Hr; [|done].
  assert (Hl1 : lives_through token b1 evs).
  { intros i c e now Hc Ht He. destruct (bind_step_calls _ _ _ _ _ Hr Hc) as [ph Hc']. apply (Hl i _ e now Hc' Ht).
    apply elem_of_app. by left. }
  destruct (IH b1 eq_refl Hl1) as [Hrow Hans]. split.
  - intros p Hp. destruct (bind_step_row _ _ _ _ _ Hr Hp) as [Hp1|(i & c & Hc & Ht & He)].
    + destruct (Hrow p Hp1) as (i & c & Hc & Ht & He). destruct (bind_step_calls _ _ _ _ _ Hr Hc) as [ph Hc'].
      by exists i, (with_bind_phase ph c).
    + destruct (bind_step_calls _ _ _ _ _ Hr Hc) as [ph Hc']. by exists i, (with_bind_phase ph c).
  - intros i pod Hb Ht. destruct (bind_step_answer _ _ _ _ _ Hr Hb) as [Hb1|(tk & p & Htk & Hp & Hpod & _)].
    + destruct Hb1 as (c & Hc & Hph). destruct (bind_step_calls _ _ _ _ _ Hr Hc) as [ph Hc'].
      assert (Ht1 : call_token b1 i = Some token) by (unfold call_token in *; rewrite Hc; rewrite Hc' in Ht; exact Ht).
      destruct (Hans i pod) as (p & Hp & Hpod); [by exists c|done|]. exists p. split; [|done].
      apply (bind_step_table _ _ _ _ _ Hr Hp). intros now Hnow. destruct (Hrow p Hp) as (k & d & Hd & Hdt & ->).
      destruct (bind_step_calls _ _ _ _ _ Hr Hd) as [ph' Hd']. apply (Hl k _ ev now Hd' Hdt); [|done].
      apply elem_of_app. right. by apply list_elem_of_singleton.
    + rewrite Htk in Ht. injection Ht as ->. by exists p.
Qed.

Lemma pins_agree evs b token i j pod pod' : bind_run no_bindings evs = Some b → lives_through token b evs →
  call_token b i = Some token → call_token b j = Some token → bound_to b i pod → bound_to b j pod' → pod = pod'.
Proof.
  intros Hrun Halive Hi Hj Hbi Hbj. destruct (binding_inv token evs b Hrun Halive) as [_ H].
  destruct (H i pod Hbi Hi) as (p & Hp & <-), (H j pod' Hbj Hj) as (p' & Hp' & <-). congruence.
Qed.

(** A token is pinned to one Pod.  However the calls of all replicas interleave
    and whichever statements fail, as long as no expired-pin sweep runs past a
    token's own expiry, every call that gets an answer for the token gets the
    same Pod. *)
Theorem one_pin_per_token evs b token i j pod pod'
  (Hrun : bind_run no_bindings evs = Some b) (Halive : lives_through token b evs)
  (Hi : call_token b i = Some token) (Hj : call_token b j = Some token)
  (Hbi : bound_to b i pod) (Hbj : bound_to b j pod') : pod = pod'.
Proof.
  by apply (pins_agree evs b token i j).
Qed.

Module BindDemo.
(** Two Pods race for one token. *)
Definition evs : list bind_event :=
  [BCall #"t" #"pod-a" (10 * Second); BCall #"t" #"pod-b" (10 * Second); BDelete 0 5 false; BDelete 1 6 false;
   BInsert 1 true; BInsert 0 false; BSelect 0 false; BSelect 1 false].
Definition b : binding := default no_bindings (bind_run no_bindings evs).
Lemma run : bind_run no_bindings evs = Some b.
Proof. vm_compute. reflexivity. Qed.
Lemma calls : bind_calls b = [{| bc_token := #"t"; bc_pod := #"pod-a"; bc_expires := 10 * Second; bc_phase := BDone (Some #"pod-b") |};
                              {| bc_token := #"t"; bc_pod := #"pod-b"; bc_expires := 10 * Second; bc_phase := BDone (Some #"pod-b") |}].
Proof. vm_compute. reflexivity. Qed.
Lemma alive : lives_through #"t" b evs.
Proof.
  intros i c ev now Hc _ Hev Hd. rewrite calls in Hc.
  assert (UnixMilli (bc_expires c) = 10000) as -> by (by destruct i as [|[|i]]; cbn in Hc; simplify_eq).
  unfold evs in Hev. rewrite !elem_of_cons in Hev.
  repeat destruct Hev as [->|Hev]; try done; cbn in Hd; try (injection Hd as <-; lia); by apply not_elem_of_nil in Hev.
Qed.
Lemma first_answer : bound_to b 0 #"pod-b".
Proof. eexists. rewrite calls. by split. Qed.
Lemma second_answer : bound_to b 1 #"pod-b".
Proof. eexists. rewrite calls. by split. Qed.
Lemma token_of i : (i < 2)%nat → call_token b i = Some #"t".
Proof. intros Hi. unfold call_token. rewrite calls. destruct i as [|[|i]]; [done|done|lia]. Qed.
End BindDemo.

Lemma one_pin_per_token_witness :
  bound_to BindDemo.b 0 #"pod-b" ∧ bound_to BindDemo.b 1 #"pod-b" ∧ #"pod-b" = #"pod-b".
Proof.
  split; [exact BindDemo.first_answer|]. split; [exact BindDemo.second_answer|].
  exact (one_pin_per_token BindDemo.evs BindDemo.b #"t" 0%nat 1%nat _ _ BindDemo.run BindDemo.alive
    (BindDemo.token_of 0%nat ltac:(lia)) (BindDemo.token_of 1%nat ltac:(lia)) BindDemo.first_answer BindDemo.second_answer).
Defined.
