(* ===== verification/Harness.v ===== *)
(** * Agent profiles and pools ([internal/httpcatalog/harness.go], the pools of [catalog.go])

    A harness says how one agent runtime's agents prove who they are; a pool is a
    set of workers.  [validateHarnesses] binds every pool of a catalog to one
    profile.  Errors are short codes; maps whose order does not matter are maps,
    and [url.Parse] is an argument. *)

From S2P Require Import Prelude GoString GoRegexp GoUrl ImageRule Entitlement.

Record HarnessTrustDomain := { td_Issuer : bytes; td_Keys : bytes; td_Audience : bytes }.

Record HarnessIdentity := {
  hi_Kind : bytes;
  hi_OwnerKind : bytes;
  hi_Namespaces : list bytes;
  hi_ImageDigests : list bytes;
  hi_ImagePrefix : bytes;
  hi_Requester : option bytes;                             (* its kind *)
}.

Record HarnessPath := { hp_Kind : bytes; hp_CrossCluster : bool }.
Record HarnessAuthorization := { ha_Mode : bytes; ha_PoolName : bytes }.
Record HarnessClient := { hc_ProxyEnv : bytes; hc_CAFileEnv : bytes; hc_CASpkiEnv : bytes }.

Record Harness := {
  h_Name : bytes;
  h_TrustDomain : HarnessTrustDomain;
  h_Identity : HarnessIdentity;
  h_Path : HarnessPath;
  h_Authorization : HarnessAuthorization;
  h_Client : HarnessClient;
}.

Definition IdentityPodToken : bytes := #"pod-token".
Definition IdentitySessionJWT : bytes := #"session-jwt".
Definition IdentityProxyAttested : bytes := #"proxy-attested".
Definition RequesterSessionJWT : bytes := #"session-jwt".
Definition RequesterCursorOIDC : bytes := #"cursor-oidc".
Definition RequesterSignedAssertion : bytes := #"signed-assertion".
Definition RequesterPodAnnotation : bytes := #"pod-annotation".
Definition PathSidecar : bytes := #"sidecar".
Definition PathSharedProxy : bytes := #"shared-proxy".
Definition KeysInCluster : bytes := #"in-cluster".
Definition KeysRemote : bytes := #"remote".
Definition KeysPinned : bytes := #"pinned".
Definition AuthorizePool : bytes := #"pool".
Definition AuthorizePerson : bytes := #"person".


Definition id_char (c : Z) : bool := is_alnum c || (c =? 46) || (c =? 95) || (c =? 45).

(** [^[A-Za-z0-9][A-Za-z0-9._-]{0,127}$] *)
Definition idPattern : regex := RSeq (RCls is_alnum) (RUpTo 127 (RCls id_char)).
Definition dnsLabel : regex := segment.
Definition kubernetesKind : regex := RSeq (RCls is_upper) (RUpTo 62 (RCls is_alnum)).
Definition env_first (c : Z) : bool := is_upper c || (c =? 95).
Definition envName : regex := RSeq (RCls env_first) (RUpTo 127 (RCls (λ c, env_first c || is_digit c))).
Definition audience_char (c : Z) : bool := id_char c || (c =? 58) || (c =? 47).
Definition audiencePat : regex := RSeq (RCls is_alnum) (RUpTo 252 (RCls audience_char)).
Definition hex8 : regex := RTimes 8 (RCls hex_lower).
Definition hex4 : regex := RTimes 4 (RCls hex_lower).
Definition groupID : regex :=
  RSeq hex8 (RSeq (RChar x2d) (RSeq hex4 (RSeq (RChar x2d) (RSeq hex4 (RSeq (RChar x2d) (RSeq hex4 (RSeq (RChar x2d) (RTimes 12 (RCls hex_lower))))))))).
Definition ccpoolID : regex := RSeq (RStr #"ccpool_") (RSeq (RCls is_alnum) (RUpTo 119 (RCls is_alnum))).

(** ** Pools *)

Record CatalogPool := {
  cp_Name : bytes;
  cp_Namespace : bytes;
  cp_ServiceAccount : bytes;
  cp_Identity : bytes;
  cp_Ceiling : bytes;
  cp_CCPoolID : bytes;
  cp_BaseGroup : bytes;
  cp_Entitlements : list bytes;
  cp_harness : option Harness;
}.

Definition CeilingExternal : bytes := #"external".

(** [tierRank[t]]: a missing key reads as 0. *)
Definition tierRank (t : bytes) : Z := default 0 (Tier t).

Definition Pool_validate (p : CatalogPool) : option bytes :=
  let idp id := bool_decide (cp_Identity p = id) in
  let none_given := bool_decide (cp_CCPoolID p = []) && bool_decide (cp_BaseGroup p = []) in
  if bool_decide (cp_Ceiling p = CeilingExternal) && negb (idp [] || idp #"none") then Some #"external"
  else if negb (bool_decide (cp_Ceiling p = CeilingExternal)) && negb (bool_decide (is_Some (Tier (cp_Ceiling p)))) then Some #"ceiling"
  else if existsb (λ g, negb (bool_decide (g = [])) && negb (MatchString groupID g)) (cp_Entitlements p ++ [cp_BaseGroup p]) then Some #"groups"
  else if idp [] || idp #"none" then
    if negb none_given || negb (bool_decide (cp_Entitlements p = [])) || (0 <? tierRank (cp_Ceiling p)) then Some #"none" else None
  else if idp #"claude-session" then
    if negb (MatchString ccpoolID (cp_CCPoolID p)) || negb (bool_decide (cp_Entitlements p = [])) then Some #"claude-session" else None
  else if idp #"cursor-session" then
    if negb none_given || negb (bool_decide (cp_Entitlements p = [])) then Some #"cursor-session" else None
  else if idp #"attested-person" then
    if negb none_given || negb (bool_decide (cp_Entitlements p = [])) then Some #"attested-person" else None
  else if idp #"workload" then
    if negb none_given || (1 <? tierRank (cp_Ceiling p)) then Some #"workload" else None
  else Some #"identity".

(** ** Profiles *)

(** [Explicit] is whether the catalog declares the profile. *)
Record Profile := { pr_Harness : Harness; pr_Explicit : bool }.

Definition no_client : HarnessClient := {| hc_ProxyEnv := []; hc_CAFileEnv := []; hc_CASpkiEnv := [] |}.
Definition no_trust : HarnessTrustDomain := {| td_Issuer := []; td_Keys := []; td_Audience := [] |}.
Definition bare_identity (kind : bytes) (requester : option bytes) : HarnessIdentity :=
  {| hi_Kind := kind; hi_OwnerKind := []; hi_Namespaces := []; hi_ImageDigests := []; hi_ImagePrefix := []; hi_Requester := requester |}.

Definition Pool_Profile (p : CatalogPool) : Profile :=
  match cp_harness p with
  | Some h => {| pr_Harness := h; pr_Explicit := true |}
  | None =>
      let '(identity, mode) :=
        if bool_decide (cp_Identity p = #"claude-session") then
          (bare_identity IdentitySessionJWT (Some RequesterSessionJWT), AuthorizePerson)
        else if bool_decide (cp_Identity p = #"cursor-session") then
          (bare_identity IdentitySessionJWT (Some RequesterCursorOIDC), AuthorizePerson)
        else (bare_identity IdentityPodToken None, AuthorizePool) in
      {| pr_Harness := {| h_Name := cp_Name p; h_TrustDomain := no_trust; h_Identity := identity;
                          h_Path := {| hp_Kind := PathSidecar; hp_CrossCluster := false |};
                          h_Authorization := {| ha_Mode := mode; ha_PoolName := cp_Name p |}; h_Client := no_client |};
         pr_Explicit := false |}
  end.

Definition RequesterKind (p : Profile) : bytes :=
  let id := h_Identity (pr_Harness p) in
  match hi_Requester id with
  | Some kind => kind
  | None => if bool_decide (hi_Kind id = IdentitySessionJWT) then RequesterSessionJWT else []
  end.

(** [personIdentities]. *)
Definition personIdentities (identity : bytes) : option bytes :=
  if bool_decide (identity = #"claude-session") then Some RequesterSessionJWT
  else if bool_decide (identity = #"cursor-session") then Some RequesterCursorOIDC
  else if bool_decide (identity = #"attested-person") then Some RequesterPodAnnotation
  else None.

(** ** Validation *)

Section Validate.
Context (url_Parse : bytes → option URL).

(** [seen] holds the namespaces before this one. *)
Fixpoint namespaces_ok (seen : list bytes) (l : list bytes) : bool :=
  match l with
  | [] => true
  | ns :: l' => MatchString dnsLabel ns && negb (bool_decide (ns ∈ seen)) && namespaces_ok (ns :: seen) l'
  end.

Definition issuer_ok (issuer : bytes) : bool :=
  match url_Parse issuer with
  | Some u => negb (bool_decide (issuer = [])) && bool_decide (u_Scheme u = #"https") && negb (bool_decide (u_Host u = [])) && negb (u_User u) &&
              bool_decide (u_RawQuery u = []) && bool_decide (u_Fragment u = []) && (Z.of_nat (length issuer) <=? 512)
  | None => false
  end.

(** The combinations that hold together. *)
Definition identity_rules (h : Harness) (requester : bytes) : option bytes :=
  let id := h_Identity h in
  let path := hp_Kind (h_Path h) in let mode := ha_Mode (h_Authorization h) in
  let req r := bool_decide (requester = r) in
  if bool_decide (hi_Kind id = IdentityPodToken) then
    if negb (bool_decide (path = PathSidecar)) || negb (req []) || negb (bool_decide (mode = AuthorizePool)) then Some #"pod-token" else None
  else if bool_decide (hi_Kind id = IdentitySessionJWT) then
    if negb (bool_decide (path = PathSidecar)) || req RequesterSignedAssertion || req RequesterPodAnnotation ||
       negb (bool_decide (mode = AuthorizePerson)) then Some #"session-jwt" else None
  else if bool_decide (hi_Kind id = IdentityProxyAttested) then
    if negb (bool_decide (path = PathSharedProxy)) || req RequesterSessionJWT || req RequesterCursorOIDC then Some #"proxy-attested"
    else if req RequesterSignedAssertion then Some #"signed-assertion"
    else if negb (Bool.eqb (req RequesterPodAnnotation) (bool_decide (mode = AuthorizePerson))) then Some #"requester mode"
    else if negb (length (hi_Namespaces id) =? 1)%nat then Some #"one namespace"
    else None
  else None.

Definition one_of (s : bytes) (l : list bytes) : bool := bool_decide (s ∈ l).

Definition Harness_validate (h : Harness) : option bytes :=
  let td := h_TrustDomain h in let id := h_Identity h in let c := h_Client h in
  let n := Z.of_nat (length (hi_Namespaces id)) in
  let requester := default [] (hi_Requester id) in
  if negb (MatchString idPattern (h_Name h)) then Some #"name"
  else if negb (issuer_ok (td_Issuer td)) then Some #"issuer"
  else if negb (one_of (td_Keys td) [KeysInCluster; KeysRemote; KeysPinned]) then Some #"keys"
  else if negb (MatchString audiencePat (td_Audience td)) then Some #"audience"
  else if negb (one_of (hi_Kind id) [IdentityPodToken; IdentitySessionJWT; IdentityProxyAttested]) then Some #"identity kind"
  else if negb (MatchString kubernetesKind (hi_OwnerKind id)) then Some #"owner"
  else if (n =? 0) || (10000 <? n) then Some #"namespaces"
  else if negb (namespaces_ok [] (hi_Namespaces id)) then Some #"namespace"
  else if negb (bool_decide (hi_ImagePrefix id = [])) &&
          (negb (bool_decide (hi_Kind id = IdentityProxyAttested)) || negb (ValidPrefix (hi_ImagePrefix id))) then Some #"image prefix"
  else if bool_decide (hi_ImagePrefix id = []) && bool_decide (hi_ImageDigests id = []) then Some #"no image"
  else if existsb (λ d, negb (ValidDigest d)) (hi_ImageDigests id) then Some #"digest"
  else if bool_decide (is_Some (hi_Requester id)) &&
          negb (one_of requester [RequesterSessionJWT; RequesterCursorOIDC; RequesterSignedAssertion; RequesterPodAnnotation]) then Some #"requester"
  else if negb (one_of (hp_Kind (h_Path h)) [PathSidecar; PathSharedProxy]) then Some #"path"
  else if negb (one_of (ha_Mode (h_Authorization h)) [AuthorizePool; AuthorizePerson]) then Some #"mode"
  else if negb (MatchString idPattern (ha_PoolName (h_Authorization h))) then Some #"pool name"
  else if negb (MatchString envName (hc_ProxyEnv c)) || negb (MatchString envName (hc_CAFileEnv c)) ||
          (negb (bool_decide (hc_CASpkiEnv c = [])) && negb (MatchString envName (hc_CASpkiEnv c))) then Some #"env"
  else if bool_decide (hc_ProxyEnv c = hc_CAFileEnv c) ||
          (negb (bool_decide (hc_CASpkiEnv c = [])) && (bool_decide (hc_CASpkiEnv c = hc_ProxyEnv c) || bool_decide (hc_CASpkiEnv c = hc_CAFileEnv c)))
       then Some #"env repeats"
  else match identity_rules h requester with
  | Some e => Some e
  | None =>
      if negb (Bool.eqb (hp_CrossCluster (h_Path h)) (negb (bool_decide (td_Keys td = KeysInCluster)))) then Some #"cross-cluster keys"
      else if hp_CrossCluster (h_Path h) && negb (bool_decide (hi_Kind id = IdentityProxyAttested)) then Some #"cross-cluster identity"
      else None
  end.

(** The maps of the loop: pool to harness, the names, issuer and namespace of the
    proxy-attested ones, and the image prefixes. *)
Record harness_state := {
  hs_byPool : gmap bytes Harness;
  hs_names : list bytes;
  hs_attested : list bytes;
  hs_prefixes : list bytes;
}.

Definition attest_key (h : Harness) : bytes :=
  td_Issuer (h_TrustDomain h) ++ #" " ++ default [] (hi_Namespaces (h_Identity h) !! 0%nat).

Definition add_harness (pools : gmap bytes CatalogPool) (st : harness_state) (h : Harness) : result bytes harness_state :=
  match Harness_validate h with
  | Some e => Err e
  | None =>
      if one_of (h_Name h) (hs_names st) then Err #"duplicate harness"
      else match pools !! ha_PoolName (h_Authorization h) with
      | None => Err #"undefined pool"
      | Some pool =>
          let person := personIdentities (cp_Identity pool) in
          let requester := RequesterKind {| pr_Harness := h; pr_Explicit := false |} in
          let prefix := hi_ImagePrefix (h_Identity h) in
          let attests := bool_decide (hi_Kind (h_Identity h) = IdentityProxyAttested) in
          if bool_decide (is_Some (hs_byPool st !! cp_Name pool)) then Err #"pool taken"
          else if negb (Bool.eqb (bool_decide (is_Some person)) (bool_decide (ha_Mode (h_Authorization h) = AuthorizePerson))) then Err #"mode"
          else if bool_decide (is_Some person) && negb (bool_decide (person = Some requester)) then Err #"person source"
          else if negb (bool_decide (cp_Namespace pool = [])) && negb (one_of (cp_Namespace pool) (hi_Namespaces (h_Identity h))) then Err #"pool namespace"
          else if negb (bool_decide (prefix = [])) && existsb (λ p, Overlap p prefix) (hs_prefixes st) then Err #"overlapping prefixes"
          else if attests && one_of (attest_key h) (hs_attested st) then Err #"namespace claimed twice"
          else Ok {| hs_byPool := <[cp_Name pool := h]> (hs_byPool st); hs_names := h_Name h :: hs_names st;
                     hs_attested := if attests then attest_key h :: hs_attested st else hs_attested st;
                     hs_prefixes := if bool_decide (prefix = []) then hs_prefixes st else prefix :: hs_prefixes st |}
      end
  end.

Definition no_harness : harness_state := {| hs_byPool := ∅; hs_names := []; hs_attested := []; hs_prefixes := [] |}.

Fixpoint add_harnesses (pools : gmap bytes CatalogPool) (st : harness_state) (l : list Harness) : result bytes harness_state :=
  match l with
  | [] => Ok st
  | h :: l' => st ← add_harness pools st h; add_harnesses pools st l'
  end.

(** The profile of every pool; nothing for a catalog without harnesses. *)
Definition validateHarnesses (harnesses : list Harness) (pools : gmap bytes CatalogPool) : result bytes (gmap bytes Harness) :=
  match harnesses with
  | [] => Ok ∅
  | _ :: _ =>
      st ← add_harnesses pools no_harness harnesses;
      if forallb (λ name, bool_decide (is_Some (hs_byPool st !! name))) (map_to_list pools).*1 then Ok (hs_byPool st) else Err #"pool without harness"
  end.
End Validate.

(** ** Validated profiles *)

Section Facts.
Context (url_Parse : bytes → option URL) (pools : gmap bytes CatalogPool).

(** A pool's identity names a person exactly when its profile authorizes one, and
    from the same source. *)
Definition agrees (pool : CatalogPool) (h : Harness) : Prop :=
  (is_Some (personIdentities (cp_Identity pool)) ↔ ha_Mode (h_Authorization h) = AuthorizePerson) ∧
  (∀ source, personIdentities (cp_Identity pool) = Some source →
     RequesterKind {| pr_Harness := h; pr_Explicit := true |} = source).

Definition prefix_of_harness (h : Harness) : bytes := hi_ImagePrefix (h_Identity h).

Record harnesses_ok (l : list Harness) (st : harness_state) : Prop := {
  ho_bound : ∀ (name : bytes) h, hs_byPool st !! name = Some h →
    h ∈ l ∧ Harness_validate url_Parse h = None ∧
    ∃ pool, pools !! ha_PoolName (h_Authorization h) = Some pool ∧ cp_Name pool = name ∧ agrees pool h;
  ho_prefix : ∀ (name : bytes) h, hs_byPool st !! name = Some h → prefix_of_harness h ≠ [] → prefix_of_harness h ∈ hs_prefixes st;
  ho_disjoint : ∀ (n n' : bytes) h h', n ≠ n' → hs_byPool st !! n = Some h → hs_byPool st !! n' = Some h' →
    prefix_of_harness h ≠ [] → prefix_of_harness h' ≠ [] → Overlap (prefix_of_harness h) (prefix_of_harness h') = false;
}.

Lemma Overlap_sym a b : Overlap a b = Overlap b a.
Proof. apply orb_comm. Qed.

(** What [add_harness] checked. *)
Lemma add_harness_inv st h st' : add_harness url_Parse pools st h = Ok st' →
  ∃ pool, Harness_validate url_Parse h = None ∧ pools !! ha_PoolName (h_Authorization h) = Some pool ∧
    hs_byPool st !! cp_Name pool = None ∧ agrees pool h ∧
    (prefix_of_harness h = [] ∨ existsb (λ p, Overlap p (prefix_of_harness h)) (hs_prefixes st) = false) ∧
    hs_byPool st' = <[cp_Name pool := h]> (hs_byPool st) ∧
    hs_prefixes st' = (if bool_decide (prefix_of_harness h = []) then hs_prefixes st else prefix_of_harness h :: hs_prefixes st).
Proof.
  unfold add_harness. destruct (Harness_validate url_Parse h) eqn:Ev; [done|]. destruct (one_of _ _); [done|].
  destruct (pools !! _) as [pool|] eqn:Ep; [|done]. cbv zeta.
  destruct (bool_decide_reflect (is_Some (hs_byPool st !! cp_Name pool))) as [|Hfree]; [done|].
  destruct (negb (Bool.eqb _ _)) eqn:Em; [done|]. destruct (bool_decide (is_Some _) && _) eqn:Es; [done|].
  destruct (negb _ && negb _); [done|]. destruct (negb _ && existsb _ _) eqn:Eo; [done|]. destruct (_ && one_of _ _); [done|].
  intros [= <-]. exists pool. cbn. split_and!; try done.
  - by apply eq_None_not_Some.
  - apply negb_false_iff, eqb_prop in Em. split; [rewrite <- (bool_decide_eq_true (is_Some _)), Em; apply bool_decide_eq_true|]. intros source Hs.
    rewrite Hs in Es. rewrite bool_decide_true in Es by done. cbn in Es. apply negb_false_iff, bool_decide_eq_true in Es. apply (inj Some) in Es. exact (eq_sym Es).
  - unfold prefix_of_harness. apply andb_false_iff in Eo as [Eo|Eo]; [left|by right]. by apply negb_false_iff, bool_decide_eq_true in Eo.
Qed.

Lemma add_harness_ok l st h st' : harnesses_ok l st → add_harness url_Parse pools st h = Ok st' → harnesses_ok (l ++ [h]) st'.
Proof.
  intros [Hb Hp Hd] Ha. destruct (add_harness_inv _ _ _ Ha) as (pool & Hv & Hpool & Hfree & Hag & Hpre & Eb & Ep).
  assert (Hin : ∀ p, p ∈ hs_prefixes st → p ∈ hs_prefixes st') by (intros p ?; rewrite Ep; case_bool_decide; [done|by right]).
  split.
  - intros name g. rewrite Eb. intros [[<- <-]|[_ Hg]]%lookup_insert_Some.
    + split_and!; [apply elem_of_app; right; by apply list_elem_of_singleton|done|]. by exists pool.
    + destruct (Hb _ _ Hg) as (? & ? & ?). split_and!; [apply elem_of_app; by left|done|done].
  - intros name g. rewrite Eb. intros [[<- <-]|[_ Hg]]%lookup_insert_Some Hne; [|by eapply Hin, Hp].
    rewrite Ep, bool_decide_false by done. by left.
  - intros n n' g g' Hne. rewrite Eb. intros [[<- <-]|[_ Hg]]%lookup_insert_Some [[<- <-]|[_ Hg']]%lookup_insert_Some H1 H2; try done.
    + destruct Hpre as [?|Hpre]; [done|]. rewrite Overlap_sym. by eapply (proj1 (existsb_false _ _) Hpre), Hp.
    + destruct Hpre as [?|Hpre]; [done|]. by eapply (proj1 (existsb_false _ _) Hpre), Hp.
    + by apply (Hd n n').
Qed.

Lemma add_harnesses_ok hs : ∀ l st st', harnesses_ok l st → add_harnesses url_Parse pools st hs = Ok st' → harnesses_ok (l ++ hs) st'.
Proof.
  induction hs as [|h hs IH]; intros l st st' Hok.
  - intros [= <-]. by rewrite app_nil_r.
  - cbn [add_harnesses]. intros (st1 & H1 & H2)%result_bind_Ok. replace (l ++ h :: hs) with ((l ++ [h]) ++ hs) by by rewrite <- app_assoc.
    eapply IH; [|exact H2]. by eapply add_harness_ok.
Qed.

Lemma validateHarnesses_ok hs byPool : validateHarnesses url_Parse hs pools = Ok byPool →
  (hs = [] ∧ byPool = ∅) ∨
  (∃ st, harnesses_ok hs st ∧ byPool = hs_byPool st ∧ ∀ name p, pools !! name = Some p → is_Some (byPool !! name)).
Proof.
  unfold validateHarnesses. destruct hs as [|h hs]; [intros [= <-]; by left|]. intros (st & Hst & H)%result_bind_Ok. right. exists st.
  destruct (forallb _ _) eqn:Ef; [|done]. injection H as <-. split_and!; [|done|].
  - apply (add_harnesses_ok (h :: hs) [] no_harness st); [|done]. by constructor.
  - intros name p Hp. rewrite forallb_forall in Ef. specialize (Ef name). rewrite bool_decide_eq_true in Ef. apply Ef.
    apply list_elem_of_In, list_elem_of_fmap. exists (name, p). split; [done|]. by apply elem_of_map_to_list.
Qed.

Lemma one_of_spec x l : one_of x l = true ↔ x ∈ l.
Proof. apply bool_decide_eq_true. Qed.

(** The checks of a valid profile that later theorems use. *)
Lemma Harness_validate_inv h : Harness_validate url_Parse h = None →
  hi_Kind (h_Identity h) ∈ [IdentityPodToken; IdentitySessionJWT; IdentityProxyAttested] ∧
  (∀ r, hi_Requester (h_Identity h) = Some r →
     r ∈ [RequesterSessionJWT; RequesterCursorOIDC; RequesterSignedAssertion; RequesterPodAnnotation]) ∧
  identity_rules h (default [] (hi_Requester (h_Identity h))) = None.
Proof.
  unfold Harness_validate. cbv zeta. intros Hv.
  do 4 (match type of Hv with (if ?b then _ else _) = _ => destruct b; [done|] end).
  match type of Hv with (if ?b then _ else _) = _ => destruct b eqn:Hk; [done|] end.
  do 6 (match type of Hv with (if ?b then _ else _) = _ => destruct b; [done|] end).
  match type of Hv with (if ?b then _ else _) = _ => destruct b eqn:Hr; [done|] end.
  do 5 (match type of Hv with (if ?b then _ else _) = _ => destruct b; [done|] end).
  split_and!; [by apply negb_false_iff, one_of_spec in Hk| |by destruct (identity_rules _ _)].
  intros r Er. rewrite Er in Hr. rewrite bool_decide_true in Hr by done. by apply negb_false_iff, one_of_spec in Hr.
Qed.

Lemma no_empty_requester : [] ∉ [RequesterSessionJWT; RequesterCursorOIDC; RequesterSignedAssertion; RequesterPodAnnotation].
Proof. by apply (bool_decide_unpack (¬ _)); vm_compute. Qed.

(** A validated profile that authorizes the pool takes no person from anywhere. *)
Lemma pool_mode_no_source h : Harness_validate url_Parse h = None → ha_Mode (h_Authorization h) ≠ AuthorizePerson →
  RequesterKind {| pr_Harness := h; pr_Explicit := true |} = [].
Proof.
  intros (Hk & Hr & Hrules)%Harness_validate_inv Hm. unfold RequesterKind, identity_rules in *. cbn [pr_Harness]. cbv zeta in Hrules.
  rewrite (bool_decide_false (ha_Mode (h_Authorization h) = AuthorizePerson)) in Hrules by done.
  destruct (bool_decide_reflect (hi_Kind (h_Identity h) = IdentitySessionJWT)) as [Hs|Hs].
  { rewrite Hs in Hrules. change (bool_decide (IdentitySessionJWT = IdentityPodToken)) with false in Hrules.
    cbn [negb] in Hrules. by rewrite orb_true_r in Hrules. }
  destruct (hi_Requester (h_Identity h)) as [r|] eqn:Er; [exfalso|done]. cbn [default from_option id] in Hrules. specialize (Hr r eq_refl).
  destruct (bool_decide (hi_Kind (h_Identity h) = IdentityPodToken)) eqn:Hp.
  - match type of Hrules with context [@bool_decide (r = []) ?D] => destruct (@bool_decide_reflect (r = []) D) as [->|] end; [by apply no_empty_requester|]. cbn [negb] in Hrules. by rewrite orb_true_r in Hrules.
  - rewrite bool_decide_true in Hrules.
    + destruct (bool_decide_reflect (r = RequesterSessionJWT)) as [|H1]; [by rewrite orb_true_r in Hrules|].
      destruct (bool_decide_reflect (r = RequesterCursorOIDC)) as [|H2]; [by rewrite orb_true_r in Hrules|].
      destruct (negb _ || false || false); [done|].
      destruct (bool_decide_reflect (r = RequesterSignedAssertion)) as [|H3]; [done|].
      destruct (bool_decide_reflect (r = RequesterPodAnnotation)) as [|H4]; [done|].
      rewrite !elem_of_cons in Hr. by destruct Hr as [?|[?|[?|[?|?%not_elem_of_nil]]]].
    + apply bool_decide_eq_false in Hp. rewrite !elem_of_cons in Hk. by destruct Hk as [?|[?|[?|?%not_elem_of_nil]]].
Qed.
End Facts.

(** [file.Pools[i].harness = &h] *)
Definition with_harness (byPool : gmap bytes Harness) (p : CatalogPool) : CatalogPool :=
  {| cp_Name := cp_Name p; cp_Namespace := cp_Namespace p; cp_ServiceAccount := cp_ServiceAccount p; cp_Identity := cp_Identity p;
     cp_Ceiling := cp_Ceiling p; cp_CCPoolID := cp_CCPoolID p; cp_BaseGroup := cp_BaseGroup p; cp_Entitlements := cp_Entitlements p;
     cp_harness := match byPool !! cp_Name p with Some h => Some h | None => cp_harness p end |}.

Definition well_keyed (pools : gmap bytes CatalogPool) : Prop := ∀ (name : bytes) p, pools !! name = Some p → cp_Name p = name.

(** Where a pool's person comes from, if anywhere, is what its identity names. *)
Lemma profile_source url_Parse hs pools byPool name p :
  validateHarnesses url_Parse hs pools = Ok byPool → well_keyed pools → pools !! name = Some p → cp_harness p = None →
  (hs ≠ [] → RequesterKind (Pool_Profile (with_harness byPool p)) = default [] (personIdentities (cp_Identity p))) ∧
  (RequesterKind (Pool_Profile (with_harness byPool p)) = [] ∨
   personIdentities (cp_Identity p) = Some (RequesterKind (Pool_Profile (with_harness byPool p)))).
Proof.
  intros Hv Hk Hp Hno. destruct (validateHarnesses_ok _ _ _ _ Hv) as [[-> ->]|(st & Hok & -> & Hall)].
  - split; [done|]. unfold Pool_Profile, with_harness. cbn [cp_harness cp_Name cp_Identity]. rewrite lookup_empty, Hno.
    unfold personIdentities. destruct (bool_decide_reflect (cp_Identity p = #"claude-session")); [by right|].
    destruct (bool_decide_reflect (cp_Identity p = #"cursor-session")); [by right|by left].
  - destruct (Hall name p Hp) as [h Hh]. destruct (ho_bound _ _ _ _ Hok name h Hh) as (_ & Hvh & pool & Hpool & Hpn & [Hmode Hsrc]).
    pose proof (Hk _ _ Hpool) as E. rewrite Hpn in E. rewrite <- E, Hp in Hpool. injection Hpool as <-.
    unfold Pool_Profile, with_harness. cbn [cp_harness cp_Name cp_Identity]. rewrite Hpn, Hh.
    destruct (personIdentities (cp_Identity p)) as [source|] eqn:Es; cbn [default from_option id].
    + rewrite (Hsrc source eq_refl). by split; [|right].
    + assert (ha_Mode (h_Authorization h) ≠ AuthorizePerson) as Hm by (intros Hm%Hmode; by destruct Hm).
      rewrite (pool_mode_no_source _ _ Hvh Hm). by split; [|left].
Qed.

(** An image belongs to one profile.  In a validated catalog no image is admitted
    by the image prefixes of two harnesses. *)
Theorem harness_images_disjoint url_Parse hs pools byPool n n' h h' id
  (Hvalid : validateHarnesses url_Parse hs pools = Ok byPool) (Hne : n ≠ n')
  (Hh : byPool !! n = Some h) (Hh' : byPool !! n' = Some h') (Hin : Allowed id (prefix_of_harness h) [] = true) :
  Allowed id (prefix_of_harness h') [] = false.
Proof.
  destruct (validateHarnesses_ok _ _ _ _ Hvalid) as [[-> ->]|(st & Hok & -> & _)]; [done|].
  assert (Hnil : ∀ p, Allowed id p [] = true → p ≠ []) by (intros p Hp ->; unfold Allowed in Hp; by destruct (split_image id) as [[? ?]|]).
  destruct (Allowed id (prefix_of_harness h') []) eqn:E; [|done].
  pose proof (ho_disjoint _ _ _ _ Hok n n' h h' Hne Hh Hh' (Hnil _ Hin) (Hnil _ E)) as Hd.
  rewrite (prefixes_disjoint _ _ _ Hd Hin) in E. done.
Qed.

Module HarnessDemo.
Definition url (s : bytes) : option URL :=
  Some {| u_Scheme := #"https"; u_Opaque := []; u_User := false; u_Host := #"keys"; u_Path := []; u_ForceQuery := false;
          u_RawQuery := []; u_Fragment := []; u_Hostname := #"keys"; u_Port := [] |}.
Definition sandbox : bytes := #"us-central1-docker.pkg.dev/trm-agent-sandbox/".
Definition harness (name ns repo pool mode : bytes) (requester : option bytes) : Harness :=
  {| h_Name := name;
     h_TrustDomain := {| td_Issuer := #"https://keys"; td_Keys := KeysRemote; td_Audience := #"broker" |};
     h_Identity := {| hi_Kind := IdentityProxyAttested; hi_OwnerKind := #"Job"; hi_Namespaces := [ns]; hi_ImageDigests := [];
                      hi_ImagePrefix := sandbox ++ repo; hi_Requester := requester |};
     h_Path := {| hp_Kind := PathSharedProxy; hp_CrossCluster := true |};
     h_Authorization := {| ha_Mode := mode; ha_PoolName := pool |};
     h_Client := {| hc_ProxyEnv := #"HTTPS_PROXY"; hc_CAFileEnv := #"CA_FILE"; hc_CASpkiEnv := [] |} |}.
Definition h1 : Harness := harness #"h1" #"a" #"agents/" #"p1" AuthorizePerson (Some RequesterPodAnnotation).
Definition h2 : Harness := harness #"h2" #"b" #"tools/" #"p2" AuthorizePool None.
Definition pool (name ns identity : bytes) : CatalogPool :=
  {| cp_Name := name; cp_Namespace := ns; cp_ServiceAccount := #"sa"; cp_Identity := identity; cp_Ceiling := #"T0"; cp_CCPoolID := [];
     cp_BaseGroup := []; cp_Entitlements := []; cp_harness := None |}.
Definition p1 : CatalogPool := pool #"p1" #"a" #"attested-person".
Definition pools : gmap bytes CatalogPool := <[ #"p1" := p1]> {[ #"p2" := pool #"p2" #"b" #"none"]}.
Definition byPool : gmap bytes Harness := <[ #"p2" := h2]> {[ #"p1" := h1]}.
Lemma valid : validateHarnesses url [h1; h2] pools = Ok byPool.
Proof. vm_compute. reflexivity. Qed.
Lemma keyed : well_keyed pools.
Proof. intros name p. unfold pools. intros [[<- <-]|[_ [<- <-]%lookup_singleton_Some]]%lookup_insert_Some; done. Qed.
Definition image : bytes := sandbox ++ #"agents/shell@sha256:0123456789abcdef0123456789abcdef0123456789abcdef0123456789abcdef".
Lemma image_allowed : Allowed image (prefix_of_harness h1) [] = true.
Proof. vm_compute. reflexivity. Qed.
End HarnessDemo.

Lemma harness_images_disjoint_witness : Allowed HarnessDemo.image (prefix_of_harness HarnessDemo.h2) [] = false.
Proof.
  refine (harness_images_disjoint HarnessDemo.url [HarnessDemo.h1; HarnessDemo.h2] HarnessDemo.pools HarnessDemo.byPool
    #"p1" #"p2" HarnessDemo.h1 HarnessDemo.h2 HarnessDemo.image HarnessDemo.valid _ _ _ HarnessDemo.image_allowed).
  - discriminate.
  - reflexivity.
  - reflexivity.
Defined.
