(* ===== verification/Authorize.v ===== *)
(** * Who stands behind a request ([internal/authorize/authorize.go])

    [Resolve] derives the requester from the pool's profile, the relayed session
    token and what the broker learned of the Pod; [authorize_Decide] applies the
    entitlement decision.  The verifier and the binder are interfaces, so they
    are arguments; the theorems at the end put the program's own behind them:
    the token verifiers of [RunnerId], the pins of [RunnerSession] and the
    profiles of a validated catalog. *)

From S2P Require Import Prelude GoString GoUrl ImageRule Entitlement Harness RunnerId RunnerSession.

(** A [Verifier]; the two options are the interfaces it may also implement. *)
Record SessionVerifier := {
  sv_Verify : bytes → result token_error Session;
  sv_VerifyCursor : option (bytes → result token_error Session);
  sv_AttestedPerson : option (bytes → result token_error bytes);
}.

Record Claims := { cl_Pod : bytes; cl_ClaimedRun : bytes; cl_AttestedRequester : bytes }.

Record Identity := { id_Kind : bytes; id_Subject : bytes; id_TokenSHA256 : bytes }.

Definition podOwnerPin : Z := 24 * Hour.

(** What [BindRunnerSession] answers for a key, a value and an expiry; [None] is an
    error. *)
Abbreviation Binder := (bytes → bytes → Z → option bytes).

Definition nobody : Identity := {| id_Kind := #"none"; id_Subject := []; id_TokenSHA256 := [] |}.
Definition token_only (s : Session) : Identity := {| id_Kind := #"none"; id_Subject := []; id_TokenSHA256 := s_TokenSHA256 s |}.
Definition behind (s : Session) : Identity :=
  {| id_Kind := kind_string (s_Kind s); id_Subject := s_Subject s; id_TokenSHA256 := s_TokenSHA256 s |}.

Definition cursor_pod_key (pod : bytes) : bytes := #"cursor-pod:" ++ pod.

(** The checks on a verified session; [now] is the clock when the owner is pinned. *)
Definition admit_session (cursor : bool) (pool : CatalogPool) (claims : Claims) (b : option Binder) (now : Z) (s : Session)
  : Identity * bytes :=
  let pod := cl_Pod claims in
  if negb cursor && negb (InPool s (cp_CCPoolID pool)) then (token_only s, #"session_pool")
  else if cursor && (bool_decide (cl_ClaimedRun claims = []) || negb (bool_decide (s_Run s = cl_ClaimedRun claims))) then
    (token_only s, #"session_run")
  else match b with
  | None => (token_only s, #"session_unbindable")
  | Some bind =>
      if bool_decide (pod = []) then (token_only s, #"session_unbindable")
      else match bind (s_TokenSHA256 s) pod (s_Expires s) with
      | None => (token_only s, #"session_unbindable")
      | Some bound =>
          if negb (bool_decide (bound = pod)) then (token_only s, #"session_pod_mismatch")
          else if cursor then
            if bool_decide (s_Owner s = []) then (token_only s, #"session_token")
            else match bind (cursor_pod_key pod) (s_Owner s) (time_Add now podOwnerPin) with
                 | None => (token_only s, #"session_unbindable")
                 | Some owner => if negb (bool_decide (owner = s_Owner s)) then (token_only s, #"session_pod_owner") else (behind s, [])
                 end
          else (behind s, [])
      end
  end.

Definition Resolve (pool : CatalogPool) (session : bytes) (claims : Claims) (v : option SessionVerifier) (b : option Binder) (now : Z)
  : Identity * bytes :=
  let requester := RequesterKind (Pool_Profile pool) in
  let req r := bool_decide (requester = r) in
  if negb (bool_decide (cl_AttestedRequester claims = [])) && negb (req RequesterPodAnnotation) then (nobody, #"requester_unexpected")
  else if negb (bool_decide (session = [])) && negb (req RequesterSessionJWT) && negb (req RequesterCursorOIDC) then (nobody, #"session_unexpected")
  else if req [] then
    (if bool_decide (cp_Identity pool = #"workload") then {| id_Kind := #"workload"; id_Subject := []; id_TokenSHA256 := [] |} else nobody, [])
  else if req RequesterSessionJWT || req RequesterCursorOIDC then
    if bool_decide (session = []) then (nobody, [])
    else
      let cursor := req RequesterCursorOIDC in
      let verified :=
        match v with
        | None => None
        | Some v => if cursor then (λ f, f session) <$> sv_VerifyCursor v else Some (sv_Verify v session)
        end in
      match verified with
      | None | Some (Err ErrUnverifiable) => (nobody, #"session_unverifiable")
      | Some (Err ErrInvalid) => (nobody, #"session_token")
      | Some (Ok s) => admit_session cursor pool claims b now s
      end
  else if req RequesterPodAnnotation then
    if bool_decide (cl_AttestedRequester claims = []) then (nobody, #"requester_missing")
    else match v ≫= sv_AttestedPerson with
    | None => (nobody, #"requester_unverifiable")
    | Some f =>
        match f (cl_AttestedRequester claims) with
        | Err _ => (nobody, #"requester_unverifiable")
        | Ok person =>
            (if bool_decide (person = []) then nobody else {| id_Kind := #"person"; id_Subject := person; id_TokenSHA256 := [] |}, [])
        end
    end
  else (nobody, #"requester_unverifiable").

Definition authorize_Decide (ask : bool → bytes → list bytes → answer) (pool : CatalogPool) (tier : bytes) (requires : list bytes)
    (who : Identity) (recheck : bool) : Decision * bool :=
  Decide ask {| p_Identity := cp_Identity pool; p_Ceiling := cp_Ceiling pool; p_Entitlements := cp_Entitlements pool |}
    {| e_Tier := tier; e_Requires := requires |} {| r_Kind := id_Kind who; r_Subject := id_Subject who |} recheck.

(** ** Who is a person *)

(** The three ways a person can stand behind a request. *)
Definition vouched (pool : CatalogPool) (session : bytes) (claims : Claims) (v : option SessionVerifier) (b : option Binder) (now : Z)
    (subject : bytes) : Prop :=
  ∃ sv, v = Some sv ∧
  ((RequesterKind (Pool_Profile pool) = RequesterSessionJWT ∧ session ≠ [] ∧
     ∃ s bind, sv_Verify sv session = Ok s ∧ s_Kind s = KindPerson ∧ s_Subject s = subject ∧ cp_CCPoolID pool ∈ s_Pools s ∧
       b = Some bind ∧ bind (s_TokenSHA256 s) (cl_Pod claims) (s_Expires s) = Some (cl_Pod claims) ∧ cl_Pod claims ≠ []) ∨
   (RequesterKind (Pool_Profile pool) = RequesterCursorOIDC ∧ session ≠ [] ∧
     ∃ f s bind, sv_VerifyCursor sv = Some f ∧ f session = Ok s ∧ s_Kind s = KindPerson ∧ s_Subject s = subject ∧
       s_Run s = cl_ClaimedRun claims ∧ cl_ClaimedRun claims ≠ [] ∧ b = Some bind ∧
       bind (s_TokenSHA256 s) (cl_Pod claims) (s_Expires s) = Some (cl_Pod claims) ∧ cl_Pod claims ≠ [] ∧
       s_Owner s ≠ [] ∧ bind (cursor_pod_key (cl_Pod claims)) (s_Owner s) (time_Add now podOwnerPin) = Some (s_Owner s)) ∨
   (RequesterKind (Pool_Profile pool) = RequesterPodAnnotation ∧ session = [] ∧
     ∃ f, sv_AttestedPerson sv = Some f ∧ f (cl_AttestedRequester claims) = Ok subject ∧ subject ≠ [])).

Lemma kind_person k : kind_string k = #"person" ↔ k = KindPerson.
Proof. by destruct k. Qed.

(** An admitted session is pinned to the Pod that presents it. *)
Lemma admit_session_inv cursor pool claims b now s who : admit_session cursor pool claims b now s = (who, []) →
  ∃ bind, b = Some bind ∧ who = behind s ∧ cl_Pod claims ≠ [] ∧
    bind (s_TokenSHA256 s) (cl_Pod claims) (s_Expires s) = Some (cl_Pod claims) ∧
    if cursor then s_Run s = cl_ClaimedRun claims ∧ cl_ClaimedRun claims ≠ [] ∧ s_Owner s ≠ [] ∧
                   bind (cursor_pod_key (cl_Pod claims)) (s_Owner s) (time_Add now podOwnerPin) = Some (s_Owner s)
    else cp_CCPoolID pool ∈ s_Pools s.
Proof.
  unfold admit_session, InPool. destruct (_ && negb _) eqn:E1; [done|]. destruct (cursor && _) eqn:E2; [done|].
  destruct b as [bind|]; [|done]. destruct (bool_decide_reflect (cl_Pod claims = [])) as [|Hpod]; [done|].
  destruct (bind (s_TokenSHA256 s) _ _) as [bound|] eqn:Eb; [|done]. destruct (bool_decide_reflect (bound = cl_Pod claims)) as [->|]; [|done].
  cbn [negb]. destruct cursor; cbn [andb negb] in *.
  - destruct (bool_decide_reflect (s_Owner s = [])) as [|Ho]; [done|]. destruct (bind (cursor_pod_key _) _ _) as [owner|] eqn:Eo; [|done].
    destruct (bool_decide_reflect (owner = s_Owner s)) as [->|]; [|done]. intros [= <-]. apply orb_false_iff in E2 as [E2 E3].
    apply negb_false_iff, bool_decide_eq_true in E3. apply bool_decide_eq_false in E2. exists bind. by split_and!.
  - intros [= <-]. exists bind. apply negb_false_iff, bool_decide_eq_true in E1. by split_and!.
Qed.

Lemma nobody_not_person : id_Kind nobody ≠ #"person".
Proof. intros E. vm_compute in E. discriminate E. Qed.
Lemma workload_not_person : #"workload" ≠ #"person".
Proof. intros E. vm_compute in E. discriminate E. Qed.

(** How [Resolve] can answer without a refusal. *)
Lemma Resolve_inv pool session claims v b now who : Resolve pool session claims v b now = (who, []) →
  let source := RequesterKind (Pool_Profile pool) in
  (id_Kind who ≠ #"person" ∧ id_TokenSHA256 who = []) ∨
  (∃ cursor sv s, v = Some sv ∧ session ≠ [] ∧ source = (if cursor : bool then RequesterCursorOIDC else RequesterSessionJWT) ∧
     (if cursor then ∃ f, sv_VerifyCursor sv = Some f ∧ f session = Ok s else sv_Verify sv session = Ok s) ∧
     admit_session cursor pool claims b now s = (who, [])) ∨
  (∃ sv f, v = Some sv ∧ session = [] ∧ source = RequesterPodAnnotation ∧ sv_AttestedPerson sv = Some f ∧
     f (cl_AttestedRequester claims) = Ok (id_Subject who) ∧ id_Subject who ≠ [] ∧ id_TokenSHA256 who = []).
Proof.
  unfold Resolve. cbv zeta. set (source := RequesterKind _).
  destruct (_ && negb (bool_decide (source = RequesterPodAnnotation))); [done|].
  destruct (_ && negb (bool_decide (source = RequesterCursorOIDC))) eqn:Es; [done|].
  destruct (bool_decide (source = [])) eqn:E0.
  { intros [= <-]. left. destruct (bool_decide (cp_Identity pool = _)); (split; [|done]); [apply workload_not_person|apply nobody_not_person]. }
  destruct (bool_decide_reflect (source = RequesterSessionJWT)) as [Hj|Hj].
  { cbn [orb]. destruct (bool_decide_reflect (session = [])); [intros [= <-]; left; split; [apply nobody_not_person|done]|].
    assert (bool_decide (source = RequesterCursorOIDC) = false) as -> by (by rewrite Hj).
    destruct v as [sv|]; [|done]. destruct (sv_Verify sv session) as [s|[]] eqn:Ev; try done. intros Ha. right. left. by exists false, sv, s. }
  destruct (bool_decide_reflect (source = RequesterCursorOIDC)) as [Hc|Hc].
  { cbn [orb]. destruct (bool_decide_reflect (session = [])); [intros [= <-]; left; split; [apply nobody_not_person|done]|].
    destruct v as [sv|]; [|done]. destruct (sv_VerifyCursor sv) as [f|] eqn:Ef; cbn; [|done].
    destruct (f session) as [s|[]] eqn:Ev; try done. intros Ha. right. left. exists true, sv, s. split_and!; try done. by exists f. }
  cbn [orb]. destruct (bool_decide_reflect (source = RequesterPodAnnotation)) as [Hp|Hp]; [|done].
  cbn [negb] in Es. rewrite !andb_true_r in Es. apply negb_false_iff, bool_decide_eq_true in Es.
  destruct (bool_decide (cl_AttestedRequester claims = [])); [done|]. destruct v as [sv|]; cbn; [|done].
  destruct (sv_AttestedPerson sv) as [f|] eqn:Ef; [|done]. destruct (f _) as [person|] eqn:Ep; [|done]. intros [= <-].
  destruct (bool_decide_reflect (person = [])) as [|Hne]; [left; split; [apply nobody_not_person|done]|]. right. right. by exists sv, f.
Qed.

(** C5: a request is a person's only when someone vouches for it: a session token
    verified for this runner pool and pinned to this Pod; a Cursor token of the run
    the controller started this Pod for, with the Pod pinned to that run's owner;
    or a shared proxy's attestation on a pool that takes its person from one.  A
    token on any other profile, or an attestation on a profile that takes none,
    is refused. *)
Theorem Resolve_person pool session claims v b now who
  (Hresolve : Resolve pool session claims v b now = (who, [])) (Hperson : id_Kind who = #"person") :
  vouched pool session claims v b now (id_Subject who).
Proof.
  destruct (Resolve_inv _ _ _ _ _ _ _ Hresolve) as [[? _]|[(cursor & sv & s & -> & Hs & Hsrc & Hv & Hadm)|(sv & f & -> & Hs & Hsrc & Hf & Hok & Hne & _)]].
  - done.
  - exists sv. split; [done|]. apply admit_session_inv in Hadm as (bind & -> & -> & Hpod & Hbind & Hc). apply kind_person in Hperson. destruct cursor.
    + right. left. destruct Hv as (f & Hf & Hv), Hc as (? & ? & ? & ?). split_and!; [done|done|]. exists f, s, bind. by split_and!.
    + left. split_and!; [done|done|]. exists s, bind. by split_and!.
  - exists sv. split; [done|]. right. right. split_and!; [done|done|]. by exists f.
Qed.


(** ** With the program's own parts behind the interfaces *)

(** A person stands behind a request only on a pool whose identity names persons,
    and only from the source that identity is trusted for, whatever the tokens
    and attestations: a catalog's validation is what makes the profile say so. *)
Theorem person_pools_only url_Parse hs pools byPool name p session claims v b now who
  (Hcatalog : validateHarnesses url_Parse hs pools = Ok byPool) (Hkeyed : well_keyed pools) (Hpool : pools !! name = Some p)
  (Hplain : cp_harness p = None)
  (Hresolve : Resolve (with_harness byPool p) session claims v b now = (who, [])) (Hperson : id_Kind who = #"person") :
  personIdentities (cp_Identity p) = Some (RequesterKind (Pool_Profile (with_harness byPool p))).
Proof.
  destruct (profile_source _ _ _ _ _ _ Hcatalog Hkeyed Hpool Hplain) as [_ [Hnone|?]]; [exfalso|done].
  destruct (Resolve_inv _ _ _ _ _ _ _ Hresolve) as [[? _]|[(cursor & sv & s & _ & _ & Hsrc & _)|(sv & f & _ & _ & Hsrc & _)]].
  - done.
  - rewrite Hnone in Hsrc. by destruct cursor.
  - by rewrite Hnone in Hsrc.
Qed.

(** The answers of a binder are those of calls of [BindRunnerSession]. *)
Definition served (st : binding) (bind : Binder) : Prop :=
  ∀ key value expires x, bind key value expires = Some x → ∃ i, call_token st i = Some key ∧ bound_to st i x.

(** A session token is good on one Pod.  Of all the requests any replica accepts
    with one token, while the token's pin lives, every one comes from the same
    Pod. *)
Theorem token_one_pod evs st pool pool' session session' claims claims' v v' bind bind' now now' who who'
  (Hrun : bind_run no_bindings evs = Some st) (Hserved : served st bind) (Hserved' : served st bind')
  (Ha : Resolve pool session claims v (Some bind) now = (who, []))
  (Ha' : Resolve pool' session' claims' v' (Some bind') now' = (who', []))
  (Hsame : id_TokenSHA256 who = id_TokenSHA256 who') (Htoken : id_TokenSHA256 who ≠ [])
  (Halive : lives_through (id_TokenSHA256 who) st evs) :
  cl_Pod claims = cl_Pod claims'.
Proof.
  destruct (Resolve_inv _ _ _ _ _ _ _ Ha) as [[_ ?]|[(c & sv & s & _ & _ & _ & _ & Hadm)|(? & ? & _ & _ & _ & _ & _ & _ & ?)]]; [done| |done].
  destruct (Resolve_inv _ _ _ _ _ _ _ Ha') as [[_ ?]|[(c' & sv' & s' & _ & _ & _ & _ & Hadm')|(? & ? & _ & _ & _ & _ & _ & _ & ?)]]; [congruence| |congruence].
  apply admit_session_inv in Hadm as (b1 & [= <-] & -> & _ & Hb & _). apply admit_session_inv in Hadm' as (b2 & [= <-] & -> & _ & Hb' & _).
  cbn in *. destruct (Hserved _ _ _ _ Hb) as (i & Hi & Hbi), (Hserved' _ _ _ _ Hb') as (j & Hj & Hbj). rewrite <- Hsame in Hj.
  by apply (pins_agree evs st (s_TokenSHA256 s) i j).
Qed.

(** The broker's verifiers, at an instant. *)
Definition runner_verifiers `{UnicodeTables} `{Crypto} (vs : Verifiers) (now : Z) : SessionVerifier :=
  {| sv_Verify := vs_Verify vs now; sv_VerifyCursor := Some (vs_VerifyCursor vs now);
     sv_AttestedPerson := Some (AttestedPerson vs) |}.

(** The domains whose addresses a source may name. *)
Definition source_domains (vs : Verifiers) (source : bytes) : list bytes :=
  if bool_decide (source = RequesterSessionJWT) then match vs_Claude vs with Some v => v_PersonDomains v | None => [] end
  else if bool_decide (source = RequesterCursorOIDC) then match vs_Cursor vs with Some v => cv_PersonDomains v | None => [] end
  else vs_SandboxDomains vs.

(** The person behind a request is always a plain address in a domain configured
    for the source that named it: nothing a token or an attestation says can name
    anyone else. *)
Theorem person_in_domain `{UnicodeTables} `{Crypto} vs clock pool session claims b now who
  (Hresolve : Resolve pool session claims (Some (runner_verifiers vs clock)) b now = (who, []))
  (Hperson : id_Kind who = #"person") :
  address_in (id_Subject who) (source_domains vs (RequesterKind (Pool_Profile pool))).
Proof.
  destruct (Resolve_inv _ _ _ _ _ _ _ Hresolve) as [[? _]|[(cursor & sv & s & [= <-] & _ & -> & Hv & Hadm)|(sv & f & [= <-] & _ & -> & Hf & Hok & Hne & _)]]; [done| |].
  - apply admit_session_inv in Hadm as (_ & _ & -> & _). apply kind_person in Hperson. cbn [id_Subject behind]. destruct cursor; cbn in Hv.
    + destruct Hv as (f & [= <-] & Hv). unfold vs_VerifyCursor in Hv. unfold source_domains. cbn.
      destruct (vs_Cursor vs) as [cv|]; [|done]. destruct (VerifyCursor cv clock session) as [x|] eqn:E; [|done]. injection Hv as ->.
      apply VerifyCursor_inv in E as (_ & c & _ & _ & _ & _ & _ & _ & _ & _ & -> & _). by apply cursor_session_person in Hperson as (_ & _ & _ & ?).
    + unfold vs_Verify in Hv. unfold source_domains. rewrite bool_decide_true by done.
      destruct (vs_Claude vs) as [cv|]; [|done]. destruct (Verify cv clock session) as [x|] eqn:E; [|done]. injection Hv as ->.
      apply Verify_inv in E as (_ & c & _ & _ & _ & _ & _ & _ & -> & _). by apply claude_session_person in Hperson as (_ & _ & _ & ?).
  - cbn in Hf. injection Hf as <-. unfold AttestedPerson in Hok. case_bool_decide; [done|].
    destruct (personEmail _ _) as [e|] eqn:Ee; [|injection Hok as Hok; by rewrite <- Hok in Hne].
    destruct (plainSubject e); injection Hok as Hok; rewrite <- Hok in *; [|done].
    apply personEmail_spec in Ee as (_ & ? & _). unfold source_domains.
    change (bool_decide (RequesterPodAnnotation = RequesterSessionJWT)) with false.
    by change (bool_decide (RequesterPodAnnotation = RequesterCursorOIDC)) with false.
Qed.

Module AuthorizeDemo.
(** A Claude pool, and a session token pinned by the calls of [BindDemo]. *)
Definition claude : CatalogPool :=
  {| cp_Name := #"p"; cp_Namespace := #"ns"; cp_ServiceAccount := #"sa"; cp_Identity := #"claude-session"; cp_Ceiling := #"T1";
     cp_CCPoolID := #"ccpool_1"; cp_BaseGroup := []; cp_Entitlements := []; cp_harness := None |}.
Definition claims : Claims := {| cl_Pod := #"pod-b"; cl_ClaimedRun := []; cl_AttestedRequester := [] |}.
Definition session : Session :=
  {| s_Kind := KindPerson; s_Subject := #"ann"; s_Owner := #"user:1"; s_Run := []; s_Pools := [ #"ccpool_1"]; s_Expires := 10 * Second;
     s_TokenSHA256 := #"t" |}.
Definition verifier : SessionVerifier :=
  {| sv_Verify := λ _, Ok session; sv_VerifyCursor := None; sv_AttestedPerson := None |}.
Definition bind : Binder := λ key _ _, if bool_decide (key = #"t") then Some #"pod-b" else None.
Lemma resolved : Resolve claude #"token" claims (Some verifier) (Some bind) 0 = (behind session, []).
Proof. vm_compute. reflexivity. Qed.
Lemma bind_served : served BindDemo.b bind.
Proof.
  intros key value expires x. unfold bind. case_bool_decide as E; [subst|done]. intros [= <-]. exists 0%nat.
  split; [apply BindDemo.token_of; lia|exact BindDemo.first_answer].
Qed.
(** A proxy-attested pool of [HarnessDemo]'s catalog. *)
Definition attested : CatalogPool := with_harness HarnessDemo.byPool HarnessDemo.p1.
Definition sandbox : SessionVerifier :=
  @runner_verifiers latin1_tables TokenDemo.crypto {| vs_Claude := None; vs_Cursor := None; vs_SandboxDomains := [ #"x.com"] |} 0.
Definition agent : Claims := {| cl_Pod := []; cl_ClaimedRun := []; cl_AttestedRequester := #"Ann@x.com" |}.
Definition ann : Identity := {| id_Kind := #"person"; id_Subject := #"ann@x.com"; id_TokenSHA256 := [] |}.
Lemma attested_resolved : Resolve attested [] agent (Some sandbox) None 0 = (ann, []).
Proof. vm_compute. reflexivity. Qed.
End AuthorizeDemo.

Lemma Resolve_person_witness :
  vouched AuthorizeDemo.claude #"token" AuthorizeDemo.claims (Some AuthorizeDemo.verifier) (Some AuthorizeDemo.bind) 0 #"ann".
Proof. exact (Resolve_person _ _ _ _ _ _ _ AuthorizeDemo.resolved eq_refl). Defined.

Lemma person_pools_only_witness : personIdentities #"attested-person" = Some (RequesterKind (Pool_Profile AuthorizeDemo.attested)).
Proof.
  exact (person_pools_only HarnessDemo.url _ HarnessDemo.pools HarnessDemo.byPool #"p1" HarnessDemo.p1 _ _ _ _ _ _
    HarnessDemo.valid HarnessDemo.keyed eq_refl eq_refl AuthorizeDemo.attested_resolved eq_refl).
Defined.

Lemma token_one_pod_witness : cl_Pod AuthorizeDemo.claims = #"pod-b".
Proof.
  refine (token_one_pod BindDemo.evs BindDemo.b _ _ _ _ _ _ _ _ _ _ _ _ _ _ BindDemo.run
    AuthorizeDemo.bind_served AuthorizeDemo.bind_served AuthorizeDemo.resolved AuthorizeDemo.resolved eq_refl _ BindDemo.alive).
  discriminate.
Defined.

Lemma person_in_domain_witness : address_in #"ann@x.com" [ #"x.com"].
Proof.
  exact (@person_in_domain latin1_tables TokenDemo.crypto _ _ _ _ _ _ _ _ AuthorizeDemo.attested_resolved eq_refl).
Defined.
