(* ===== verification/Catalog.v ===== *)
(** * The HTTP catalog ([internal/httpcatalog/catalog.go], [browser.go],
      [browser_paths.go], [gcp.go])

    What a catalog may say: the entries, their normalization by kind, the tiers
    and grants, and [Parse] on a decoded file.  The JSON decoder, [url.Parse],
    [netip.ParseAddr], the PEM and certificate checks of a pinned CA, and the
    process settings (the environment name and the two test-only switches) are
    arguments.  An error is a short code. *)

From S2P Require Import Prelude GoString GoRegexp GoUrl GoNet GoStrconv ImageRule Entitlement Harness.

(** ** Data *)

Record KeyRef := { kr_Mount : bytes; kr_Path : bytes; kr_Field : bytes }.
Record KVRef := { kv_Mount : bytes; kv_Path : bytes }.
Record GitRepo := { gr_Repo : bytes; gr_Access : bytes; gr_RefPrefixes : list bytes }.
Record GitBinding := { gb_AppID : Z; gb_InstallationID : Z; gb_Repos : list GitRepo }.

Record PostgresBinding := {
  pb_Database : bytes;
  pb_Mount : bytes;
  pb_Role : bytes;
  pb_SSLMode : bytes;
  pb_MaxConns : Z;
  pb_Access : bytes;
  pb_CA : bytes;
  pb_ServerName : bytes;
}.

Record AutomatedAuthBinding := { aa_URL : bytes; aa_Profile : bytes; aa_OrgID : bytes; aa_Key : KVRef }.

Record Auth0Binding := {
  a0_Domain : bytes;
  a0_ClientID : bytes;
  a0_Audience : bytes;
  a0_Scope : bytes;
  a0_Login : bytes;
  a0_Realm : bytes;
  a0_TokenClient : KVRef;
}.

Record BrowserSessionBinding := {
  bs_AppHost : bytes;
  bs_Auth0 : Auth0Binding;
  bs_User : KVRef;
  bs_AutomatedAuth : option AutomatedAuthBinding;
}.

Record GCPBinding := {
  gc_Bucket : bytes;
  gc_Prefix : bytes;
  gc_Role : bytes;
  gc_ServiceAccount : bytes;
  gc_Scopes : list bytes;
  gc_LifetimeSeconds : Z;
}.

Record CatalogEntry := {
  en_Name : bytes;
  en_Host : bytes;
  en_Port : Z;
  en_PathPrefixes : list bytes;
  en_DeniedPaths : list bytes;
  en_ReadOnlyPaths : list bytes;
  en_Methods : list bytes;
  en_Header : bytes;
  en_Scheme : bytes;
  en_BasicUser : bool;
  en_Placeholder : bytes;
  en_Key : KeyRef;
  en_Pools : list bytes;
  en_ForwardHeaders : list bytes;
  en_MaxRequestBytes : Z;
  en_MaxResponseBytes : Z;
  en_Kind : bytes;
  en_Git : option GitBinding;
  en_Postgres : option PostgresBinding;
  en_BrowserSession : option BrowserSessionBinding;
  en_GCP : option GCPBinding;
  en_Tier : bytes;
  en_Requires : list bytes;
}.

Record Catalog := { cat_entries : list CatalogEntry; cat_pools : list CatalogPool; cat_harnesses : list Harness }.

(** Field updates. *)
Definition set_Host (v : bytes) (e : CatalogEntry) : CatalogEntry :=
  {| en_Name := en_Name e; en_Host := v; en_Port := en_Port e; en_PathPrefixes := en_PathPrefixes e; en_DeniedPaths := en_DeniedPaths e; en_ReadOnlyPaths := en_ReadOnlyPaths e; en_Methods := en_Methods e; en_Header := en_Header e; en_Scheme := en_Scheme e; en_BasicUser := en_BasicUser e; en_Placeholder := en_Placeholder e; en_Key := en_Key e; en_Pools := en_Pools e; en_ForwardHeaders := en_ForwardHeaders e; en_MaxRequestBytes := en_MaxRequestBytes e; en_MaxResponseBytes := en_MaxResponseBytes e; en_Kind := en_Kind e; en_Git := en_Git e; en_Postgres := en_Postgres e; en_BrowserSession := en_BrowserSession e; en_GCP := en_GCP e; en_Tier := en_Tier e; en_Requires := en_Requires e |}.
Definition set_Port (v : Z) (e : CatalogEntry) : CatalogEntry :=
  {| en_Name := en_Name e; en_Host := en_Host e; en_Port := v; en_PathPrefixes := en_PathPrefixes e; en_DeniedPaths := en_DeniedPaths e; en_ReadOnlyPaths := en_ReadOnlyPaths e; en_Methods := en_Methods e; en_Header := en_Header e; en_Scheme := en_Scheme e; en_BasicUser := en_BasicUser e; en_Placeholder := en_Placeholder e; en_Key := en_Key e; en_Pools := en_Pools e; en_ForwardHeaders := en_ForwardHeaders e; en_MaxRequestBytes := en_MaxRequestBytes e; en_MaxResponseBytes := en_MaxResponseBytes e; en_Kind := en_Kind e; en_Git := en_Git e; en_Postgres := en_Postgres e; en_BrowserSession := en_BrowserSession e; en_GCP := en_GCP e; en_Tier := en_Tier e; en_Requires := en_Requires e |}.
Definition set_PathPrefixes (v : list bytes) (e : CatalogEntry) : CatalogEntry :=
  {| en_Name := en_Name e; en_Host := en_Host e; en_Port := en_Port e; en_PathPrefixes := v; en_DeniedPaths := en_DeniedPaths e; en_ReadOnlyPaths := en_ReadOnlyPaths e; en_Methods := en_Methods e; en_Header := en_Header e; en_Scheme := en_Scheme e; en_BasicUser := en_BasicUser e; en_Placeholder := en_Placeholder e; en_Key := en_Key e; en_Pools := en_Pools e; en_ForwardHeaders := en_ForwardHeaders e; en_MaxRequestBytes := en_MaxRequestBytes e; en_MaxResponseBytes := en_MaxResponseBytes e; en_Kind := en_Kind e; en_Git := en_Git e; en_Postgres := en_Postgres e; en_BrowserSession := en_BrowserSession e; en_GCP := en_GCP e; en_Tier := en_Tier e; en_Requires := en_Requires e |}.
Definition set_Methods (v : list bytes) (e : CatalogEntry) : CatalogEntry :=
  {| en_Name := en_Name e; en_Host := en_Host e; en_Port := en_Port e; en_PathPrefixes := en_PathPrefixes e; en_DeniedPaths := en_DeniedPaths e; en_ReadOnlyPaths := en_ReadOnlyPaths e; en_Methods := v; en_Header := en_Header e; en_Scheme := en_Scheme e; en_BasicUser := en_BasicUser e; en_Placeholder := en_Placeholder e; en_Key := en_Key e; en_Pools := en_Pools e; en_ForwardHeaders := en_ForwardHeaders e; en_MaxRequestBytes := en_MaxRequestBytes e; en_MaxResponseBytes := en_MaxResponseBytes e; en_Kind := en_Kind e; en_Git := en_Git e; en_Postgres := en_Postgres e; en_BrowserSession := en_BrowserSession e; en_GCP := en_GCP e; en_Tier := en_Tier e; en_Requires := en_Requires e |}.
Definition set_Header (v : bytes) (e : CatalogEntry) : CatalogEntry :=
  {| en_Name := en_Name e; en_Host := en_Host e; en_Port := en_Port e; en_PathPrefixes := en_PathPrefixes e; en_DeniedPaths := en_DeniedPaths e; en_ReadOnlyPaths := en_ReadOnlyPaths e; en_Methods := en_Methods e; en_Header := v; en_Scheme := en_Scheme e; en_BasicUser := en_BasicUser e; en_Placeholder := en_Placeholder e; en_Key := en_Key e; en_Pools := en_Pools e; en_ForwardHeaders := en_ForwardHeaders e; en_MaxRequestBytes := en_MaxRequestBytes e; en_MaxResponseBytes := en_MaxResponseBytes e; en_Kind := en_Kind e; en_Git := en_Git e; en_Postgres := en_Postgres e; en_BrowserSession := en_BrowserSession e; en_GCP := en_GCP e; en_Tier := en_Tier e; en_Requires := en_Requires e |}.
Definition set_ForwardHeaders (v : list bytes) (e : CatalogEntry) : CatalogEntry :=
  {| en_Name := en_Name e; en_Host := en_Host e; en_Port := en_Port e; en_PathPrefixes := en_PathPrefixes e; en_DeniedPaths := en_DeniedPaths e; en_ReadOnlyPaths := en_ReadOnlyPaths e; en_Methods := en_Methods e; en_Header := en_Header e; en_Scheme := en_Scheme e; en_BasicUser := en_BasicUser e; en_Placeholder := en_Placeholder e; en_Key := en_Key e; en_Pools := en_Pools e; en_ForwardHeaders := v; en_MaxRequestBytes := en_MaxRequestBytes e; en_MaxResponseBytes := en_MaxResponseBytes e; en_Kind := en_Kind e; en_Git := en_Git e; en_Postgres := en_Postgres e; en_BrowserSession := en_BrowserSession e; en_GCP := en_GCP e; en_Tier := en_Tier e; en_Requires := en_Requires e |}.
Definition set_Git (v : option GitBinding) (e : CatalogEntry) : CatalogEntry :=
  {| en_Name := en_Name e; en_Host := en_Host e; en_Port := en_Port e; en_PathPrefixes := en_PathPrefixes e; en_DeniedPaths := en_DeniedPaths e; en_ReadOnlyPaths := en_ReadOnlyPaths e; en_Methods := en_Methods e; en_Header := en_Header e; en_Scheme := en_Scheme e; en_BasicUser := en_BasicUser e; en_Placeholder := en_Placeholder e; en_Key := en_Key e; en_Pools := en_Pools e; en_ForwardHeaders := en_ForwardHeaders e; en_MaxRequestBytes := en_MaxRequestBytes e; en_MaxResponseBytes := en_MaxResponseBytes e; en_Kind := en_Kind e; en_Git := v; en_Postgres := en_Postgres e; en_BrowserSession := en_BrowserSession e; en_GCP := en_GCP e; en_Tier := en_Tier e; en_Requires := en_Requires e |}.
Definition set_Postgres (v : option PostgresBinding) (e : CatalogEntry) : CatalogEntry :=
  {| en_Name := en_Name e; en_Host := en_Host e; en_Port := en_Port e; en_PathPrefixes := en_PathPrefixes e; en_DeniedPaths := en_DeniedPaths e; en_ReadOnlyPaths := en_ReadOnlyPaths e; en_Methods := en_Methods e; en_Header := en_Header e; en_Scheme := en_Scheme e; en_BasicUser := en_BasicUser e; en_Placeholder := en_Placeholder e; en_Key := en_Key e; en_Pools := en_Pools e; en_ForwardHeaders := en_ForwardHeaders e; en_MaxRequestBytes := en_MaxRequestBytes e; en_MaxResponseBytes := en_MaxResponseBytes e; en_Kind := en_Kind e; en_Git := en_Git e; en_Postgres := v; en_BrowserSession := en_BrowserSession e; en_GCP := en_GCP e; en_Tier := en_Tier e; en_Requires := en_Requires e |}.
Definition set_BrowserSession (v : option BrowserSessionBinding) (e : CatalogEntry) : CatalogEntry :=
  {| en_Name := en_Name e; en_Host := en_Host e; en_Port := en_Port e; en_PathPrefixes := en_PathPrefixes e; en_DeniedPaths := en_DeniedPaths e; en_ReadOnlyPaths := en_ReadOnlyPaths e; en_Methods := en_Methods e; en_Header := en_Header e; en_Scheme := en_Scheme e; en_BasicUser := en_BasicUser e; en_Placeholder := en_Placeholder e; en_Key := en_Key e; en_Pools := en_Pools e; en_ForwardHeaders := en_ForwardHeaders e; en_MaxRequestBytes := en_MaxRequestBytes e; en_MaxResponseBytes := en_MaxResponseBytes e; en_Kind := en_Kind e; en_Git := en_Git e; en_Postgres := en_Postgres e; en_BrowserSession := v; en_GCP := en_GCP e; en_Tier := en_Tier e; en_Requires := en_Requires e |}.
Definition set_GCP (v : option GCPBinding) (e : CatalogEntry) : CatalogEntry :=
  {| en_Name := en_Name e; en_Host := en_Host e; en_Port := en_Port e; en_PathPrefixes := en_PathPrefixes e; en_DeniedPaths := en_DeniedPaths e; en_ReadOnlyPaths := en_ReadOnlyPaths e; en_Methods := en_Methods e; en_Header := en_Header e; en_Scheme := en_Scheme e; en_BasicUser := en_BasicUser e; en_Placeholder := en_Placeholder e; en_Key := en_Key e; en_Pools := en_Pools e; en_ForwardHeaders := en_ForwardHeaders e; en_MaxRequestBytes := en_MaxRequestBytes e; en_MaxResponseBytes := en_MaxResponseBytes e; en_Kind := en_Kind e; en_Git := en_Git e; en_Postgres := en_Postgres e; en_BrowserSession := en_BrowserSession e; en_GCP := v; en_Tier := en_Tier e; en_Requires := en_Requires e |}.
Definition set_limits (req resp : Z) (e : CatalogEntry) : CatalogEntry :=
  {| en_Name := en_Name e; en_Host := en_Host e; en_Port := en_Port e; en_PathPrefixes := en_PathPrefixes e; en_DeniedPaths := en_DeniedPaths e; en_ReadOnlyPaths := en_ReadOnlyPaths e; en_Methods := en_Methods e; en_Header := en_Header e; en_Scheme := en_Scheme e; en_BasicUser := en_BasicUser e; en_Placeholder := en_Placeholder e; en_Key := en_Key e; en_Pools := en_Pools e; en_ForwardHeaders := en_ForwardHeaders e; en_MaxRequestBytes := req; en_MaxResponseBytes := resp; en_Kind := en_Kind e; en_Git := en_Git e; en_Postgres := en_Postgres e; en_BrowserSession := en_BrowserSession e; en_GCP := en_GCP e; en_Tier := en_Tier e; en_Requires := en_Requires e |}.

(** ** Patterns *)

Definition dash_or (f : Z → bool) (c : Z) : bool := f c || (c =? 45).
Definition repo_char (c : Z) : bool := lower_digit c || (c =? 46) || (c =? 95) || (c =? 45).
Definition RBetween (least extra : nat) (f : Z → bool) : regex := RSeq (RTimes least (RCls f)) (RUpTo extra (RCls f)).
Definition RRunes (s : bytes) : regex := foldr (λ r k, RSeq (RCls (λ c, c =? r)) k) REps (runes s).

(** [^[a-z0-9][a-z0-9-]{0,38}/[a-z0-9._-]{1,100}$] *)
Definition repoPattern : regex :=
  RSeq (RCls lower_digit) (RSeq (RUpTo 38 (RCls (dash_or lower_digit))) (RSeq (RChar x2f) (RBetween 1 99 repo_char))).
Definition refPattern : regex := RSeq (RStr #"refs/") (RPlus (RCls (λ c, id_char c || (c =? 47)))).
Definition pgName : regex := RSeq (RCls (λ c, is_alnum c || (c =? 95))) (RUpTo 62 (RCls id_char)).
Definition vaultSegment : regex := idPattern.
Definition placeholder : regex :=
  RSeq (RStr #"__vault_") (RSeq (RCls is_upper) (RSeq (RStar (RCls (λ c, is_upper c || is_digit c || (c =? 95)))) (RStr #"__"))).
Definition host_part : regex := RSeq (RCls lower_digit) (ROpt (RSeq (RStar (RCls (dash_or lower_digit))) (RCls lower_digit))).
Definition hostPattern : regex := RSeq host_part (RPlus (RSeq (RChar x2e) host_part)).
Definition tokenPattern : regex := RSeq (RCls is_alnum) (RStar (RCls (dash_or is_alnum))).
Definition kvPattern : regex := RSeq (RPlus (RCls id_char)) (RStar (RSeq (RChar x2f) (RPlus (RCls id_char)))).
Definition slug_char (c : Z) : bool := lower_digit c || (c =? 95) || (c =? 45).
Definition slug : regex := RSeq (RCls lower_digit) (RStar (RCls slug_char)).
Definition vendorKeyPath : regex := RSeq (RStr #"vendors") (RPlus (RSeq (RChar x2f) slug)).
Definition vaultMount : regex := RSeq slug (RStar (RSeq (RChar x2f) slug)).
Definition templateSegment : regex :=
  RAlt (RChar x2a) (RSeq (RCls is_alnum) (RUpTo 127 (RCls (λ c, id_char c || (c =? 126))))).
Definition gcsBucket : regex := RSeq (RCls lower_digit) (RSeq (RBetween 1 60 slug_char) (RCls lower_digit)).
Definition gcsPrefix : regex := RPlus (RSeq (RPlus (RCls (λ c, is_alnum c || (c =? 95) || (c =? 45)))) (RChar x2f)).
Definition account_part : regex := RSeq (RCls is_lower) (RSeq (RBetween 4 24 (dash_or lower_digit)) (RCls lower_digit)).
Definition serviceAccount : regex := RSeq account_part (RSeq (RChar x40) (RSeq account_part (RStr #".iam.gserviceaccount.com"))).
Definition googleScope : regex := RSeq (RStr #"https://www.googleapis.com/auth/") (RPlus (RCls repo_char)).

Definition allowedMethods : list bytes := [ #"GET"; #"HEAD"; #"POST"; #"PUT"; #"PATCH"; #"DELETE"].
Definition reservedHeaders : list bytes :=
  [ #"Host"; #"Connection"; #"Proxy-Authorization"; #"Proxy-Connection"; #"Te"; #"Trailer";
    #"Transfer-Encoding"; #"Upgrade"; #"Keep-Alive"; #"Content-Length"; #"Content-Encoding";
    #"Cookie"; #"Forwarded"; #"X-Forwarded-For"; #"X-Forwarded-Host"; #"X-Forwarded-Proto";
    #"X-Http-Method-Override"; #"X-Method-Override"; #"X-Original-Url"; #"X-Rewrite-Url";
    #"Authorization"; #"X-Api-Key"; #"Accept-Encoding"].
Definition storageRoles : list bytes := [ #"roles/storage.objectViewer"; #"roles/storage.objectCreator"; #"roles/storage.objectUser"].
Definition dataPlaneHosts : list bytes := [ #"storage.googleapis.com"; #"bigquery.googleapis.com"; #"bigquerystorage.googleapis.com"].

Definition ValidMount (mount : bytes) : bool := (Z.of_nat (length mount) <=? 127) && MatchString vaultMount mount.

(** [deniedSegments] and [readOnlySegments]. *)
Definition deniedSegments : list bytes :=
  [ #"apikey"; #"apikeys"; #"password"; #"changepassword"; #"resetpassword"; #"mfa"; #"otp"; #"totp";
    #"invitations"; #"invites"; #"oauth"; #"tokens"; #"token"; #"sso"; #"saml"; #"scim"; #"connections"; #"roles"; #"ipallowlist";
    #"authentication"; #"admin"; #"usermanagement"; #"bulkoperations"; #"rotatesecret"; #"webhooks"; #"credentials"; #"secrets";
    #"keys"; #"clientsecret"; #"permissions"; #"impersonate"; #"sessions"].
Definition readOnlySegments : list bytes := [ #"usersorganizations"].

Definition KiB : Z := 1024.
Definition MiB : Z := 1024 * KiB.
Definition GiB : Z := 1024 * MiB.

Definition no_key : KeyRef := {| kr_Mount := []; kr_Path := []; kr_Field := [] |}.
Definition no_kv : KVRef := {| kv_Mount := []; kv_Path := [] |}.
#[global] Instance KeyRef_eq_dec : EqDecision KeyRef.
Proof. solve_decision. Defined.
#[global] Instance KVRef_eq_dec : EqDecision KVRef.
Proof. solve_decision. Defined.

(** [errors.New(e)] unless the check holds. *)
Definition require (ok : bool) (e : bytes) : result bytes unit := if ok then Ok tt else Err e.

Definition empty (s : bytes) : bool := bool_decide (s = []).
Definition none {A} (o : option A) : bool := match o with None => true | Some _ => false end.
Definition nil_list (l : list bytes) : bool := bool_decide (l = []).

(** The checks every kind makes of its pools. *)
Definition pools_ok (e : CatalogEntry) : bool := negb (nil_list (en_Pools e)) && forallb (MatchString idPattern) (en_Pools e).

(** What HTTP paths a prefix may name; [extra] forbids what only header entries forbid. *)
Definition prefix_ok (chars : bytes) (dots : bool) (p : bytes) : bool :=
  HasPrefix p #"/" && negb (ContainsAny p chars) && negb (Contains p #"//") && negb (Contains p #"/..") &&
  negb (dots && Contains p #"/./") && negb (Contains p #"__").

Fixpoint repos_ok (seen : list bytes) (l : list GitRepo) : bool :=
  match l with
  | [] => true
  | r :: l' =>
      MatchString repoPattern (gr_Repo r) && negb (Contains (gr_Repo r) #"..") && negb (HasSuffix (gr_Repo r) #".git") &&
      negb (bool_decide (gr_Repo r ∈ seen)) &&
      (bool_decide (gr_Access r = #"read") || bool_decide (gr_Access r = #"write")) &&
      negb (bool_decide (gr_Access r = #"read") && negb (nil_list (gr_RefPrefixes r))) &&
      forallb (λ p, MatchString refPattern p && negb (Contains p #"..") && negb (Contains p #"//")) (gr_RefPrefixes r) &&
      repos_ok (gr_Repo r :: seen) l'
  end.

Definition or_default (v d : Z) : Z := if v =? 0 then d else v.

Definition clusterLocal (host : bytes) : bool := HasSuffix host #".svc.cluster.local" || HasSuffix host #".svc".

Definition printableASCII (s : bytes) : bool := forallb (λ b, in_range 32 126 (bval b)) s.

(** [bytes.TrimLeft] *)
Fixpoint trim_any (cut s : bytes) : bytes :=
  match s with
  | b :: s' => if bool_decide (b ∈ cut) then trim_any cut s' else s
  | [] => []
  end.

(** ** Browser paths *)

Definition pathSegments (path : bytes) : list bytes := List.filter (λ s, negb (empty s)) (Split path x2f).

Section Parse.
Context `{UnicodeTables}.

(** [foldSegment]: lower case, without dashes and underscores. *)
Definition foldSegment (s : bytes) : bytes :=
  List.filter (λ b, negb (bool_decide (b = x2d) || bool_decide (b = x5f))) (ToLower s).

Definition denied (s : bytes) : bool := bool_decide (foldSegment s ∈ deniedSegments).

Fixpoint templateCovers (template path : list bytes) : bool :=
  match template, path with
  | [], _ => true
  | t :: template', s :: path' => (bool_decide (t = #"*") || EqualFold t s) && templateCovers template' path'
  | _ :: _, [] => false
  end.

Definition dot_segment (s : bytes) : bool := bool_decide (s = #".") || bool_decide (s = #"..").

Definition template_ok (t : bytes) : bool :=
  let segments := pathSegments t in
  HasPrefix t #"/" && negb (HasSuffix t #"/") && negb (Contains t #"//") && negb (bool_decide (segments = [])) &&
  forallb (λ s, MatchString templateSegment s && negb (dot_segment s)) segments.

Definition browser_prefix_ok (deniedPaths : list bytes) (p : bytes) : bool :=
  let segments := pathSegments p in
  HasPrefix p #"/" && negb (bool_decide (segments = [])) &&
  negb (ContainsAny p (#"?#%*{} " ++ [x5c; x3b])) && negb (Contains p #"//") && negb (Contains p #"__") &&
  forallb (λ s, negb (dot_segment s) && negb (denied s)) segments &&
  negb (existsb (λ t, templateCovers (pathSegments t) segments) deniedPaths).

Definition normalizeBrowserPaths (e : CatalogEntry) : bool :=
  negb (nil_list (en_PathPrefixes e)) && forallb template_ok (en_DeniedPaths e) && forallb template_ok (en_ReadOnlyPaths e) &&
  forallb (browser_prefix_ok (en_DeniedPaths e)) (en_PathPrefixes e).

(** ** Normalization *)

Context (url_Parse : bytes → option URL) (is_addr : bytes → bool).

(** A certificate: what [validPinnedCA] asks of it; [ct_IsCA] is
    [BasicConstraintsValid && IsCA]. *)
Record Certificate := { ct_IsCA : bool; ct_SelfSigned : bool }.
(** [pem.Decode]: the block's type and bytes, and the rest; [x509.ParseCertificate]. *)
Context (pem_Decode : bytes → option (bytes * bytes * bytes)) (ParseCertificate : bytes → option Certificate).
(** The process settings. *)
Context (environment : bytes) (rolesWithoutEnvironment plaintextDatabases : bool).

Definition maxPinnedCABytes : Z := 32 * KiB.

(** The loop over the PEM blocks; each decode leaves a shorter rest, so the length
    of the text is fuel enough. *)
Fixpoint pinned_blocks (fuel : nat) (count : nat) (rest : bytes) : bool :=
  let rest := trim_any [x20; x09; x0d; x0a] rest in
  match rest, fuel with
  | [], _ => (0 <? count)%nat
  | _, S f =>
      match pem_Decode rest with
      | Some (type, block, next) =>
          HasPrefix rest #"-----BEGIN " && bool_decide (type = #"CERTIFICATE") &&
          match ParseCertificate block with
          | Some c => (ct_IsCA c || ct_SelfSigned c) && pinned_blocks f (S count) next
          | None => false
          end
      | None => false
      end
  | _, O => false
  end.
Definition validPinnedCA (text : bytes) : bool :=
  (Z.of_nat (length text) <=? maxPinnedCABytes) && pinned_blocks (S (length text)) 0 text.

Definition validRole (role : bytes) : bool :=
  if empty environment then rolesWithoutEnvironment && MatchString vaultSegment role
  else
    MatchString (RSeq (ROpt (RStr #"gatehouse-")) (RSeq (RRunes environment) (RSeq (RChar x2e) (RSeq (RPlus (RCls is_lower))
      (RSeq (RChar x2e) (RSeq (RPlus (RCls lower_digit)) (RSeq (RChar x2e) (RSeq (RPlus (RCls (dash_or lower_digit)))
        (RSeq (RChar x2d) (RAlt (RStr #"readonly") (RStr #"readwrite")))))))))))
      role.

Definition with_pb (access ssl : bytes) (p : PostgresBinding) : PostgresBinding :=
  {| pb_Database := pb_Database p; pb_Mount := pb_Mount p; pb_Role := pb_Role p; pb_SSLMode := ssl; pb_MaxConns := pb_MaxConns p;
     pb_Access := access; pb_CA := pb_CA p; pb_ServerName := pb_ServerName p |}.

Definition normalizePostgres (e : CatalogEntry) : result bytes CatalogEntry :=
  _ ← require (nil_list (en_PathPrefixes e) && nil_list (en_Methods e) && empty (en_Header e) && empty (en_Scheme e) &&
               negb (en_BasicUser e) && empty (en_Placeholder e) && bool_decide (en_Key e = no_key) && nil_list (en_ForwardHeaders e) &&
               none (en_Git e) && none (en_BrowserSession e) && none (en_GCP e) && (en_MaxRequestBytes e =? 0) &&
               (en_MaxResponseBytes e =? 0)) #"postgres fields";
  _ ← require (negb (empty environment && negb rolesWithoutEnvironment)) #"environment";
  match en_Postgres e with
  | None => Err #"postgres settings"
  | Some p =>
      _ ← require (MatchString pgName (pb_Database p) && validRole (pb_Role p)) #"postgres settings";
      _ ← require (ValidMount (pb_Mount p)) #"mount";
      let access := if empty (pb_Access p) then #"read" else pb_Access p in
      _ ← require (bool_decide (access = #"read") || bool_decide (access = #"write")) #"access";
      _ ← require (Bool.eqb (bool_decide (access = #"write")) (HasSuffix (pb_Role p) #"-readwrite")) #"access role";
      let ssl := if empty (pb_SSLMode p) then #"verify-full" else pb_SSLMode p in
      let full := bool_decide (ssl = #"verify-full") in
      _ ← require (full || (bool_decide (ssl = #"disable") && plaintextDatabases && clusterLocal (en_Host e))) #"sslmode";
      _ ← require (full || (empty (pb_CA p) && empty (pb_ServerName p))) #"ca without verify-full";
      _ ← require (empty (pb_CA p) || validPinnedCA (pb_CA p)) #"ca";
      _ ← require (empty (pb_ServerName p) || MatchString hostPattern (pb_ServerName p) || is_addr (pb_ServerName p)) #"server name";
      _ ← require (in_range 0 1000 (pb_MaxConns p)) #"maxConns";
      _ ← require (pools_ok e) #"pools";
      Ok (set_Postgres (Some (with_pb access ssl p)) e)
  end.

Definition lower_repo (r : GitRepo) : GitRepo :=
  {| gr_Repo := ToLower (gr_Repo r); gr_Access := gr_Access r; gr_RefPrefixes := gr_RefPrefixes r |}.

Definition normalizeGit (e : CatalogEntry) : result bytes CatalogEntry :=
  _ ← require (none (en_Postgres e) && none (en_BrowserSession e) && none (en_GCP e)) #"other settings";
  _ ← require (nil_list (en_PathPrefixes e) && nil_list (en_Methods e) && empty (en_Header e) && empty (en_Scheme e) &&
               negb (en_BasicUser e) && empty (en_Placeholder e) && bool_decide (en_Key e = no_key) && nil_list (en_ForwardHeaders e)) #"git fields";
  match en_Git e with
  | None => Err #"git settings"
  | Some g =>
      _ ← require ((0 <? gb_AppID g) && (0 <? gb_InstallationID g) && negb (bool_decide (length (gb_Repos g) = 0%nat))) #"git settings";
      _ ← require (pools_ok e) #"pools";
      let repos := map lower_repo (gb_Repos g) in
      _ ← require (repos_ok [] repos) #"repository";
      let req := or_default (en_MaxRequestBytes e) GiB in let resp := or_default (en_MaxResponseBytes e) (4 * GiB) in
      _ ← require (in_range 1 (2 * GiB) req && in_range 1 (8 * GiB) resp) #"limits";
      Ok (set_limits req resp
            (set_Git (Some {| gb_AppID := gb_AppID g; gb_InstallationID := gb_InstallationID g; gb_Repos := repos |}) e))
  end.

Definition normalizeGitHubAPI (e : CatalogEntry) : result bytes CatalogEntry :=
  e ← normalizeGit e;
  let repos := match en_Git e with Some g => gb_Repos g | None => [] end in
  _ ← require (forallb (λ r, bool_decide (gr_Access r = #"write") && nil_list (gr_RefPrefixes r)) repos) #"github-api access";
  let req := if en_MaxRequestBytes e =? GiB then MiB else en_MaxRequestBytes e in
  let resp := if en_MaxResponseBytes e =? 4 * GiB then 8 * MiB else en_MaxResponseBytes e in
  _ ← require (req <=? 16 * MiB) #"github-api limit";
  Ok (set_limits req resp e).

(** The shared end of the kinds that forward headers; [own] is the header that carries
    the credential. *)
Definition forward_ok (own : bytes) (h : bytes) : bool :=
  MatchString tokenPattern h && negb (bool_decide (CanonicalHeaderKey h ∈ reservedHeaders)) &&
  negb (negb (empty own) && bool_decide (CanonicalHeaderKey h = own)).

Definition normalize_automated (s : AutomatedAuthBinding) : result bytes AutomatedAuthBinding :=
  match url_Parse (aa_URL s) with
  | None => Err #"url"
  | Some u =>
      _ ← require (negb (u_User u) && (empty (u_Path u) || bool_decide (u_Path u = #"/")) && empty (u_RawQuery u) &&
                   negb (u_ForceQuery u) && empty (u_Fragment u) && empty (u_Opaque u)) #"url";
      let host := ToLower (u_Hostname u) in
      _ ← require (none (ParseIP host)) #"url host";
      _ ← require (MatchString hostPattern host &&
                   (bool_decide (u_Scheme u = #"https") || (bool_decide (u_Scheme u = #"http") && clusterLocal host && plaintextDatabases))) #"https";
      _ ← require (empty (u_Port u) ||
                   match Atoi (u_Port u) with Some n => in_range 1 65535 n && bool_decide (Itoa n = u_Port u) | None => false end) #"url port";
      let host := if empty (u_Port u) then host else JoinHostPort host (u_Port u) in
      _ ← require (MatchString idPattern (aa_Profile s) && MatchString idPattern (aa_OrgID s)) #"profile";
      Ok {| aa_URL := u_Scheme u ++ #"://" ++ host; aa_Profile := aa_Profile s; aa_OrgID := aa_OrgID s; aa_Key := aa_Key s |}
  end.

Definition ref_ok (r : KVRef) : bool :=
  MatchString kvPattern (kv_Mount r) && MatchString kvPattern (kv_Path r) && negb (Contains (kv_Path r) #"..").

Definition normalizeBrowser (e : CatalogEntry) : result bytes CatalogEntry :=
  _ ← require (none (en_Git e) && none (en_Postgres e) && none (en_GCP e) && bool_decide (en_Key e = no_key) && empty (en_Header e) &&
               empty (en_Scheme e) && negb (en_BasicUser e) && nil_list (en_Methods e)) #"browser fields";
  match en_BrowserSession e with
  | None => Err #"browser settings"
  | Some b =>
      let app := ToLower (bs_AppHost b) in
      let a := bs_Auth0 b in
      let domain := ToLower (a0_Domain a) in
      let scope := if empty (a0_Scope a) then #"openid profile email offline_access" else a0_Scope a in
      _ ← require (MatchString hostPattern app && negb (bool_decide (app = en_Host e))) #"appHost";
      _ ← require (MatchString hostPattern domain && MatchString idPattern (a0_ClientID a) && negb (empty (a0_Audience a)) &&
                   (Z.of_nat (length (a0_Audience a)) <=? 256) && negb (ContainsAny (a0_Audience a) [x20; x09; x0d; x0a])) #"auth0";
      _ ← require ((Z.of_nat (length scope) <=? 256) && Contains (#" " ++ scope ++ #" ") #" openid " && printableASCII scope) #"scope";
      '(login, auto, refs) ←
        (if empty (a0_Login a) || bool_decide (a0_Login a = #"password-realm") then
           _ ← require (none (bs_AutomatedAuth b) && MatchString idPattern (a0_Realm a)) #"password-realm";
           Ok (#"password-realm", None, [bs_User b; a0_TokenClient a])
         else if bool_decide (a0_Login a = #"automated-auth") then
           match bs_AutomatedAuth b with
           | Some s =>
               _ ← require (bool_decide (a0_TokenClient a = no_kv)) #"automated-auth";
               s ← normalize_automated s;
               Ok (#"automated-auth", Some s, [bs_User b; aa_Key s])
           | None => Err #"automated-auth"
           end
         else Err #"login");
      _ ← require (forallb ref_ok refs) #"secret";
      _ ← require (MatchString placeholder (en_Placeholder e)) #"placeholder";
      _ ← require (normalizeBrowserPaths e) #"paths";
      _ ← require (bool_decide (length (en_Pools e) = 1%nat) && pools_ok e) #"pools";
      _ ← require (forallb (forward_ok []) (en_ForwardHeaders e)) #"forward header";
      let req := or_default (en_MaxRequestBytes e) MiB in let resp := or_default (en_MaxResponseBytes e) (32 * MiB) in
      _ ← require (in_range 0 (16 * MiB) req && in_range 1 GiB resp) #"limits";
      let a := {| a0_Domain := domain; a0_ClientID := a0_ClientID a; a0_Audience := a0_Audience a; a0_Scope := scope; a0_Login := login;
                  a0_Realm := a0_Realm a; a0_TokenClient := a0_TokenClient a |} in
      Ok (set_limits req resp (set_ForwardHeaders (map CanonicalHeaderKey (en_ForwardHeaders e))
            (set_BrowserSession (Some {| bs_AppHost := app; bs_Auth0 := a; bs_User := bs_User b; bs_AutomatedAuth := auto |}) e)))
  end.

Definition with_gcp (scopes : list bytes) (life : Z) (g : GCPBinding) : GCPBinding :=
  {| gc_Bucket := gc_Bucket g; gc_Prefix := gc_Prefix g; gc_Role := gc_Role g; gc_ServiceAccount := gc_ServiceAccount g;
     gc_Scopes := scopes; gc_LifetimeSeconds := life |}.

(** The methods in upper case, sorted. *)
Definition upper_methods (l : list bytes) : result bytes (list bytes) :=
  let l := map ToUpper l in
  _ ← require (forallb (λ m, bool_decide (m ∈ allowedMethods)) l) #"method"; Ok (sort_Strings l).

Definition normalizeGCP (e : CatalogEntry) : result bytes CatalogEntry :=
  _ ← require (none (en_Git e) && none (en_Postgres e) && none (en_BrowserSession e) && bool_decide (en_Key e = no_key) &&
               empty (en_Header e) && empty (en_Scheme e) && negb (en_BasicUser e)) #"gcp fields";
  match en_GCP e with
  | None => Err #"gcp settings"
  | Some g =>
      _ ← require (bool_decide (en_Host e ∈ dataPlaneHosts)) #"gcp host";
      _ ← require (bool_decide (en_Tier e = #"T1") || bool_decide (en_Tier e = #"T2")) #"gcp tier";
      '(paths, scopes) ←
        (if negb (empty (gc_Bucket g)) && empty (gc_ServiceAccount g) then
           _ ← require (bool_decide (en_Host e = #"storage.googleapis.com") && MatchString gcsBucket (gc_Bucket g) &&
                        MatchString gcsPrefix (gc_Prefix g) && negb (Contains (gc_Bucket g) #"..") &&
                        bool_decide (gc_Role g ∈ storageRoles) && nil_list (gc_Scopes g)) #"bucket";
           let at_bucket p := p ++ gc_Bucket g ++ #"/" in
           Ok (if nil_list (en_PathPrefixes e)
               then map at_bucket [ #"/storage/v1/b/"; #"/upload/storage/v1/b/"; #"/download/storage/v1/b/"] else en_PathPrefixes e, gc_Scopes g)
         else if negb (empty (gc_ServiceAccount g)) && empty (gc_Bucket g) then
           _ ← require (MatchString serviceAccount (gc_ServiceAccount g) && empty (gc_Prefix g) && empty (gc_Role g) &&
                        negb (nil_list (en_PathPrefixes e))) #"service account";
           let scopes := if nil_list (gc_Scopes g) then [ #"https://www.googleapis.com/auth/cloud-platform"] else gc_Scopes g in
           _ ← require (forallb (MatchString googleScope) scopes) #"scope";
           Ok (en_PathPrefixes e, scopes)
         else Err #"bucket or serviceAccount");
      let life := or_default (gc_LifetimeSeconds g) 900 in
      _ ← require (in_range 300 3600 life) #"lifetime";
      _ ← require (forallb (prefix_ok (#"?#%*{} " ++ [x5c]) false) paths) #"path prefix";
      methods ← (if nil_list (en_Methods e) then upper_methods [ #"DELETE"; #"GET"; #"HEAD"; #"PATCH"; #"POST"; #"PUT"]
                 else upper_methods (en_Methods e));
      _ ← require (MatchString placeholder (en_Placeholder e)) #"placeholder";
      _ ← require (pools_ok e) #"pools";
      _ ← require (forallb (forward_ok []) (en_ForwardHeaders e)) #"forward header";
      let req := or_default (en_MaxRequestBytes e) (16 * MiB) in let resp := or_default (en_MaxResponseBytes e) (256 * MiB) in
      _ ← require (in_range 0 GiB req && in_range 1 (4 * GiB) resp) #"limits";
      Ok (set_limits req resp (set_ForwardHeaders (map CanonicalHeaderKey (en_ForwardHeaders e))
            (set_GCP (Some (with_gcp scopes life g)) (set_Methods methods (set_PathPrefixes paths e)))))
  end.

(** The header entries, whose kind is empty. *)
Definition normalizeHeader (e : CatalogEntry) : result bytes CatalogEntry :=
  _ ← require (none (en_Git e) && none (en_Postgres e) && none (en_BrowserSession e) && none (en_GCP e)) #"settings without kind";
  _ ← require (negb (nil_list (en_PathPrefixes e)) && forallb (prefix_ok (#"?#%*{} " ++ [x5c; x3b]) true) (en_PathPrefixes e)) #"path prefix";
  _ ← require (negb (nil_list (en_Methods e))) #"method";
  methods ← upper_methods (en_Methods e);
  let header := CanonicalHeaderKey (en_Header e) in
  _ ← require (MatchString tokenPattern header &&
               (negb (bool_decide (header ∈ reservedHeaders)) || bool_decide (header = #"Authorization") || bool_decide (header = #"X-Api-Key"))) #"header";
  _ ← require (empty (en_Scheme e) || MatchString tokenPattern (en_Scheme e)) #"scheme";
  _ ← require (negb (en_BasicUser e) || (bool_decide (header = #"Authorization") && empty (en_Scheme e))) #"basicUser";
  _ ← require (MatchString placeholder (en_Placeholder e)) #"placeholder";
  _ ← require (ValidMount (kr_Mount (en_Key e)) && (Z.of_nat (length (kr_Path (en_Key e))) <=? 127) &&
               MatchString vendorKeyPath (kr_Path (en_Key e)) && negb (empty (kr_Field (en_Key e)))) #"key";
  _ ← require (pools_ok e) #"pools";
  _ ← require (forallb (forward_ok header) (en_ForwardHeaders e)) #"forward header";
  let req := or_default (en_MaxRequestBytes e) MiB in let resp := or_default (en_MaxResponseBytes e) (32 * MiB) in
  _ ← require (in_range 0 (16 * MiB) req && in_range 1 GiB resp) #"limits";
  Ok (set_limits req resp (set_ForwardHeaders (map CanonicalHeaderKey (en_ForwardHeaders e))
        (set_Header header (set_Methods methods e)))).

(** [strings.Trim(label, "0123456789") == ""] of the last label. *)
Definition numeric_tld (host : bytes) : bool :=
  match last (Split host x2e) with Some l => forallb digit_byte l | None => true end.

Definition normalize (e : CatalogEntry) : result bytes CatalogEntry :=
  let host := ToLower (en_Host e) in
  let is_kind k := bool_decide (en_Kind e = k) in
  let port := if en_Port e =? 0 then (if is_kind #"postgres" then 5432 else 443) else en_Port e in
  let e := set_Port port (set_Host host e) in
  _ ← require (MatchString idPattern (en_Name e)) #"name";
  _ ← require (MatchString hostPattern host && (Z.of_nat (length host) <=? 253) && negb (numeric_tld host)) #"host";
  _ ← require (in_range 1 65535 port) #"port";
  _ ← require (is_kind #"browser-session" || (nil_list (en_DeniedPaths e) && nil_list (en_ReadOnlyPaths e))) #"browser paths";
  if is_kind #"postgres" then normalizePostgres e
  else if is_kind #"git" then normalizeGit e
  else if is_kind #"github-api" then normalizeGitHubAPI e
  else if is_kind #"browser-session" then normalizeBrowser e
  else if is_kind #"gcp" then normalizeGCP e
  else if is_kind [] then normalizeHeader e
  else Err #"kind".
End Parse.

(** * Parsing a catalog ([Parse], [validateTier] and [grantable] of
      [internal/httpcatalog/catalog.go])

    [Parse] from the decoded file on, and what a parsed catalog promises: its
    names and routes are unique, its tiers are well formed, and every grant is one
    that the entitlement decision of [Entitlement] can allow. *)

(** [Entry.validateTier] *)
Definition validateTier (e : CatalogEntry) : option bytes :=
  match Tier (en_Tier e) with
  | None => Some #"tier"
  | Some rank =>
      if (rank =? 0) && negb (nil_list (en_Requires e)) then Some #"T0 requires"
      else if (0 <? rank) && nil_list (en_Requires e) then Some #"requires"
      else if negb (forallb (MatchString groupID) (en_Requires e)) then Some #"group"
      else None
  end.

Definition grantable (e : CatalogEntry) (p : CatalogPool) (defined : bool) : option bytes :=
  if bool_decide (cp_Ceiling p = CeilingExternal) then Some #"external"
  else
    let rank := tierRank (en_Tier e) in
    if rank =? 0 then None
    else if negb defined then Some #"undefined pools"
    else if tierRank (cp_Ceiling p) <? rank then Some #"ceiling"
    else if bool_decide (cp_Identity p ∈ [ #"claude-session"; #"cursor-session"; #"attested-person"]) then None
    else if bool_decide (cp_Identity p = #"workload") then
      if 2 <=? rank then Some #"workload T2"
      else if forallb (λ g, bool_decide (g ∈ cp_Entitlements p)) (en_Requires e) then None else Some #"workload group"
    else Some #"no identity".

(** [Pool{}], the value of a missing key of [pools]. *)
Definition no_pool : CatalogPool :=
  {| cp_Name := []; cp_Namespace := []; cp_ServiceAccount := []; cp_Identity := []; cp_Ceiling := []; cp_CCPoolID := []; cp_BaseGroup := [];
     cp_Entitlements := []; cp_harness := None |}.

(** The first loop of [Parse]. *)
Fixpoint add_pools (l : list CatalogPool) (pools : gmap bytes CatalogPool) : result bytes (gmap bytes CatalogPool) :=
  match l with
  | [] => Ok pools
  | p :: l' =>
      _ ← require (MatchString idPattern (cp_Name p) && negb (bool_decide (is_Some (pools !! cp_Name p))) &&
                   MatchString dnsLabel (cp_Namespace p) && MatchString dnsLabel (cp_ServiceAccount p)) #"pool";
      match Pool_validate p with
      | Some err => Err err
      | None => add_pools l' (<[cp_Name p := p]> pools)
      end
  end.

(** The maps of the second loop; only which keys they hold matters, save for [kinds]. *)
Record parse_state := {
  ps_names : list bytes;
  ps_users : list KVRef;
  ps_routes : list bytes;
  ps_kinds : gmap bytes bytes;
}.
Definition no_entries : parse_state := {| ps_names := []; ps_users := []; ps_routes := []; ps_kinds := ∅ |}.

Definition hostKey (host : bytes) (port : Z) : bytes := host ++ #":" ++ Itoa port.

Definition git_route (e : CatalogEntry) (r : GitRepo) : bytes :=
  hostKey (en_Host e) (en_Port e) ++ #" " ++ en_Kind e ++ #" " ++ gr_Repo r.
Definition path_route (e : CatalogEntry) (prefix : bytes) : bytes := hostKey (en_Host e) (en_Port e) ++ prefix.

(** Adding to a set, unless it is already there. *)
Fixpoint add_new (l : list bytes) (seen : list bytes) (err : bytes) : result bytes (list bytes) :=
  match l with
  | [] => Ok seen
  | x :: l' => if bool_decide (x ∈ seen) then Err err else add_new l' (x :: seen) err
  end.

(** The repositories and then the path prefixes. *)
Definition entry_routes (e : CatalogEntry) : list bytes :=
  match en_Git e with Some g => map (git_route e) (gb_Repos g) | None => [] end ++ map (path_route e) (en_PathPrefixes e).

Definition check_pool (pools : gmap bytes CatalogPool) (e : CatalogEntry) (pool : bytes) : result bytes unit :=
  let defined := negb (bool_decide (pools = ∅)) in
  _ ← require (negb (defined && negb (bool_decide (is_Some (pools !! pool))))) #"undefined pool";
  match grantable e (default no_pool (pools !! pool)) defined with Some err => Err err | None => Ok tt end.

Fixpoint check_pools (pools : gmap bytes CatalogPool) (e : CatalogEntry) (l : list bytes) : result bytes unit :=
  match l with
  | [] => Ok tt
  | p :: l' => _ ← check_pool pools e p; check_pools pools e l'
  end.

(** [browser-session] hosts stand alone, other hosts hold one kind. *)
Definition kind_clash (kinds : gmap bytes bytes) (e : CatalogEntry) : bool :=
  match kinds !! hostKey (en_Host e) (en_Port e) with
  | Some kind => negb (bool_decide (kind = en_Kind e)) || bool_decide (en_Kind e = #"browser-session")
  | None => false
  end.

Section Parse.
Context `{UnicodeTables}.
Context (url_Parse : bytes → option URL) (is_addr : bytes → bool)
  (pem_Decode : bytes → option (bytes * bytes * bytes)) (ParseCertificate : bytes → option Certificate)
  (environment : bytes) (rolesWithoutEnvironment plaintextDatabases : bool).

Let norm := normalize url_Parse is_addr pem_Decode ParseCertificate environment rolesWithoutEnvironment plaintextDatabases.

(** One turn of the second loop. *)
Definition add_entry (pools : gmap bytes CatalogPool) (st : parse_state) (e : CatalogEntry) : result bytes (CatalogEntry * parse_state) :=
  e ← norm e;
  _ ← require (negb (bool_decide (en_Name e ∈ ps_names st))) #"duplicate entry";
  match validateTier e with
  | Some err => Err err
  | None =>
      _ ← check_pools pools e (en_Pools e);
      let key := hostKey (en_Host e) (en_Port e) in
      _ ← require (negb (kind_clash (ps_kinds st) e)) #"host kinds";
      let kinds := <[key := en_Kind e]> (ps_kinds st) in
      '(users, kinds) ←
        match en_BrowserSession e with
        | None => Ok (ps_users st, kinds)
        | Some b =>
            _ ← require (negb (bool_decide (bs_User b ∈ ps_users st))) #"test user";
            let appKey := hostKey (bs_AppHost b) (en_Port e) in
            _ ← require (negb (bool_decide (is_Some (kinds !! appKey)))) #"app host";
            Ok (bs_User b :: ps_users st, <[appKey := #"browser-session-app"]> kinds)
        end;
      routes ← add_new (entry_routes e) (ps_routes st) #"route";
      Ok (e, {| ps_names := en_Name e :: ps_names st; ps_users := users; ps_routes := routes; ps_kinds := kinds |})
  end.

Fixpoint add_entries (pools : gmap bytes CatalogPool) (st : parse_state) (l : list CatalogEntry) : result bytes (list CatalogEntry) :=
  match l with
  | [] => Ok []
  | e :: l' => '(e, st) ← add_entry pools st e; l' ← add_entries pools st l'; Ok (e :: l')
  end.

(** [Parse], from the decoded file on. *)
Definition Parse (harnesses : list Harness) (pools : list CatalogPool) (entries : list CatalogEntry) : result bytes Catalog :=
  _ ← require (negb (bool_decide (length entries = 0%nat))) #"no entries";
  by_name ← add_pools pools ∅;
  profiles ← validateHarnesses url_Parse harnesses by_name;
  entries ← add_entries by_name no_entries entries;
  Ok {| cat_entries := entries; cat_pools := map (with_harness profiles) pools; cat_harnesses := harnesses |}.
End Parse.
