(* ===== verification/CatalogMatch.v ===== *)
(** * Routing by the catalog ([Match], [GitMatch], [GitHubAPIMatch], [Database] and
      the host checks of [internal/httpcatalog/catalog.go]; [BrowserMatch] of
      [browser.go], the path guard of [browser_paths.go], [GCPMatch] of [gcp.go])

    A nil entry is [None].  [GitMatch], [GitHubAPIMatch], [BrowserMatch] and
    [GCPMatch] answer [None] where the code's [ok] is false.  [Parse] refuses
    an entry of kind git, github-api or browser-session without its binding; where
    the code would dereference a nil one the model passes the entry by. *)

From S2P Require Import Prelude GoString GoRegexp GoUrl GoStrconv Harness Catalog.

Inductive match_error := ErrUnlisted | ErrMethod | ErrPool | ErrReadOnly | ErrDeniedPath | ErrReadOnlyPath.

Definition cat_contains (list : list bytes) (v : bytes) : bool := existsb (λ s, bool_decide (s = v)) list.

Definition pathWithin (path prefix : bytes) : bool :=
  HasPrefix path prefix &&
  (bool_decide (length path = length prefix) || HasSuffix prefix #"/" || bool_decide (path !! length prefix = Some x2f)).

(** ** The longest prefix *)

(** [best] and [bestLen]. *)
Abbreviation best_entry := (option (CatalogEntry * nat)).
Definition bestLen (best : best_entry) : Z := match best with Some (_, n) => Z.of_nat n | None => -1 end.

Definition better (path : bytes) (e : CatalogEntry) (best : best_entry) (prefix : bytes) : best_entry :=
  if pathWithin path prefix && (bestLen best <? Z.of_nat (length prefix)) then Some (e, length prefix) else best.

Definition on_host (kind host : bytes) (port : Z) (e : CatalogEntry) : bool :=
  bool_decide (en_Kind e = kind) && bool_decide (en_Host e = host) && (en_Port e =? port).

Definition scan_entry (kind host : bytes) (port : Z) (path : bytes) (best : best_entry) (e : CatalogEntry) : best_entry :=
  if on_host kind host port e then foldl (better path e) best (en_PathPrefixes e) else best.

Definition longest (c : Catalog) (kind host : bytes) (port : Z) (path : bytes) : option CatalogEntry :=
  fst <$> foldl (scan_entry kind host port path) None (cat_entries c).

(** The checks on the entry found. *)
Definition grant (best : option CatalogEntry) (method pool : bytes) : option CatalogEntry * option match_error :=
  match best with
  | None => (None, Some ErrUnlisted)
  | Some e =>
      if negb (cat_contains (en_Methods e) method) then (best, Some ErrMethod)
      else if negb (cat_contains (en_Pools e) pool) then (best, Some ErrPool)
      else (best, None)
  end.

(** ** Databases *)

Fixpoint database_in (l : list CatalogEntry) (name pool : bytes) : option CatalogEntry * option match_error :=
  match l with
  | [] => (None, Some ErrUnlisted)
  | e :: l' =>
      if negb (bool_decide (en_Kind e = #"postgres")) || negb (bool_decide (en_Name e = name)) then database_in l' name pool
      else if negb (cat_contains (en_Pools e) pool) then (Some e, Some ErrPool)
      else (Some e, None)
  end.
Definition Database (c : Catalog) (name pool : bytes) : option CatalogEntry * option match_error := database_in (cat_entries c) name pool.

(** ** GitHub *)

Record GitRequest := {
  rq_Entry : CatalogEntry;
  rq_Repo : GitRepo;
  rq_Write : bool;
  rq_OpensPullRequest : bool;
  rq_HeadPrefixes : list bytes;
  rq_CommentsOn : Z;
}.
Abbreviation git_answer := (option (option GitRequest * option match_error)).

Definition gitRepos (e : CatalogEntry) : list GitRepo := match en_Git e with Some g => gb_Repos g | None => [] end.

(** The first listing of [repo] among the host's entries. *)
Fixpoint find_repo (l : list CatalogEntry) (repo : bytes) : option (CatalogEntry * GitRepo) :=
  match l with
  | [] => None
  | e :: l' =>
      match List.find (λ r, bool_decide (gr_Repo r = repo)) (gitRepos e) with
      | Some r => Some (e, r)
      | None => find_repo l' repo
      end
  end.

Definition number (s : bytes) : Z :=
  if empty s || (12 <? Z.of_nat (length s)) then 0
  else match Atoi s with
       | Some n => if (n <=? 0) || negb (bool_decide (FormatInt n = s)) then 0 else n
       | None => 0
       end.

(** The method ([[]] when unlisted), whether it opens a pull request, and the number
    it comments on. *)
Definition githubAPIEndpoint (rest : list bytes) : bytes * bool * Z :=
  match rest with
  | [a] => if bool_decide (a = #"pulls") then (#"POST", true, 0) else ([], false, 0)
  | [a; n] => if bool_decide (a = #"pulls") && (0 <? number n) then (#"GET", false, 0) else ([], false, 0)
  | [a; n; b] =>
      if (bool_decide (a = #"issues") || bool_decide (a = #"pulls")) && (0 <? number n) && bool_decide (b = #"comments")
      then (#"POST", false, number n) else ([], false, 0)
  | [a; n; b; id; c] =>
      if bool_decide (a = #"pulls") && (0 <? number n) && bool_decide (b = #"comments") && (0 <? number id) && bool_decide (c = #"replies")
      then (#"POST", false, number n) else ([], false, 0)
  | _ => ([], false, 0)
  end.

Definition heads : bytes := #"refs/heads/".

(** [strings.CutPrefix(prefix, "refs/heads/")], when something is left. *)
Definition head_branch (prefix : bytes) : option bytes :=
  if HasPrefix prefix heads && negb (empty (drop (length heads) prefix)) then Some (drop (length heads) prefix) else None.

Definition pushBranchPrefixes (c : Catalog) (repo pool : bytes) : list bytes :=
  concat (map (λ e,
    if negb (bool_decide (en_Kind e = #"git")) || none (en_Git e) || negb (cat_contains (en_Pools e) pool) then []
    else concat (map (λ r,
      if negb (bool_decide (gr_Repo r = repo)) || negb (bool_decide (gr_Access r = #"write")) then []
      else omap head_branch (gr_RefPrefixes r)) (gitRepos e))) (cat_entries c)).

Definition git_request (e : CatalogEntry) (r : GitRepo) (write opens : bool) (prefixes : list bytes) (comments : Z) : GitRequest :=
  {| rq_Entry := e; rq_Repo := r; rq_Write := write; rq_OpensPullRequest := opens; rq_HeadPrefixes := prefixes; rq_CommentsOn := comments |}.

(** [GitGranted] and [GitScope]. *)
Definition scope_granted (e : CatalogEntry) (r : GitRepo) (scope : bytes) : bool :=
  (bool_decide (en_Kind e = #"git") && bool_decide (scope = #"contents-read")) ||
  (bool_decide (en_Kind e = #"git") && bool_decide (scope = #"contents-write") && bool_decide (gr_Access r = #"write")) ||
  (bool_decide (en_Kind e = #"github-api") && bool_decide (scope = #"pull-requests")).

Definition installed (installation : Z) (e : CatalogEntry) : bool :=
  match en_Git e with Some g => gb_InstallationID g =? installation | None => false end.

Definition GitScope (c : Catalog) (installation : Z) : list bytes * bool :=
  let l := List.filter (installed installation) (cat_entries c) in
  (concat (map (λ e, map gr_Repo (gitRepos e)) l), existsb (λ e, bool_decide (en_Kind e = #"github-api")) l).

(** ** Browsers *)

Record BrowserRequest := { br_Entry : CatalogEntry; br_App : bool; br_Seed : bool }.
Abbreviation browser_answer := (option (BrowserRequest * option match_error)).

Definition BrowserSeedPath : bytes := #"/.gatehouse/browser-seed".
Definition browserMethods : list bytes := [ #"GET"; #"HEAD"; #"POST"; #"PUT"; #"PATCH"; #"DELETE"; #"OPTIONS"].

Section Match.
Context `{UnicodeTables}.

Definition Match (c : Catalog) (host : bytes) (port : Z) (method path pool : bytes) : option CatalogEntry * option match_error :=
  grant (longest c [] (ToLower host) port path) method pool.

Definition GCPMatch (c : Catalog) (host : bytes) (port : Z) (method path pool : bytes) : option (option CatalogEntry * option match_error) :=
  if existsb (on_host #"gcp" (ToLower host) port) (cat_entries c)
  then Some (grant (longest c #"gcp" (ToLower host) port path) method pool)
  else None.

(** Which of the three endpoints, and whether it writes. *)
Definition git_endpoint (endpoint rawQuery method : bytes) : result match_error bool :=
  let is_method m w := if bool_decide (method = m) then Ok w else Err ErrMethod in
  if bool_decide (endpoint = #"info/refs") &&
     (bool_decide (rawQuery = #"service=git-upload-pack") || bool_decide (rawQuery = #"service=git-receive-pack"))
  then is_method #"GET" (bool_decide (rawQuery = #"service=git-receive-pack"))
  else if (bool_decide (endpoint = #"git-upload-pack") || bool_decide (endpoint = #"git-receive-pack")) && empty rawQuery
  then is_method #"POST" (bool_decide (endpoint = #"git-receive-pack"))
  else Err ErrUnlisted.

Definition GitMatch (c : Catalog) (host : bytes) (port : Z) (method path rawQuery pool : bytes) : git_answer :=
  let hostEntries := List.filter (on_host #"git" (ToLower host) port) (cat_entries c) in
  if bool_decide (length hostEntries = 0%nat) then None
  else Some
    (if negb (HasPrefix path #"/") then (None, Some ErrUnlisted)
     else match Split (TrimPrefix path #"/") x2f with
     | owner :: name :: ((_ :: _) as rest) =>
         let repo := ToLower (owner ++ #"/" ++ TrimSuffix name #".git") in
         match git_endpoint (Join rest #"/") rawQuery method with
         | Err err => (None, Some err)
         | Ok write =>
             match find_repo hostEntries repo with
             | None => (None, Some ErrUnlisted)
             | Some (e, r) =>
                 let matched := Some (git_request e r write false [] 0) in
                 if negb (cat_contains (en_Pools e) pool) then (matched, Some ErrPool)
                 else if write && negb (bool_decide (gr_Access r = #"write")) then (matched, Some ErrReadOnly)
                 else (matched, None)
             end
         end
     | _ => (None, Some ErrUnlisted)
     end).

Definition GitHubAPIMatch (c : Catalog) (host : bytes) (port : Z) (method path rawQuery pool : bytes) : git_answer :=
  let hostEntries := List.filter (on_host #"github-api" (ToLower host) port) (cat_entries c) in
  if bool_decide (length hostEntries = 0%nat) then None
  else Some
    (if negb (empty rawQuery) then (None, Some ErrUnlisted)
     else match Split path x2f with
     | root :: repos :: owner :: name :: ((_ :: _) as rest) =>
         if negb (empty root) || negb (bool_decide (repos = #"repos")) then (None, Some ErrUnlisted)
         else
           let '(want, create, on) := githubAPIEndpoint rest in
           if empty want then (None, Some ErrUnlisted)
           else
             let repo := ToLower (owner ++ #"/" ++ name) in
             match find_repo hostEntries repo with
             | None => (None, Some ErrUnlisted)
             | Some (e, r) =>
                 let write := bool_decide (want = #"POST") in
                 let bare := Some (git_request e r write false [] 0) in
                 if negb (bool_decide (method = want)) then (bare, Some ErrMethod)
                 else if negb (cat_contains (en_Pools e) pool) then (bare, Some ErrPool)
                 else
                   let own := if create || (0 <? on) then pushBranchPrefixes c repo pool else [] in
                   (Some (git_request e r write create own (if 0 <? on then on else 0)), None)
             end
     | _ => (None, Some ErrUnlisted)
     end).

(** [guardBrowserPath] *)
Definition guardBrowserPath (e : CatalogEntry) (method path : bytes) : option match_error :=
  let segments := pathSegments path in
  if existsb denied segments then Some ErrDeniedPath
  else if existsb (λ t, templateCovers (pathSegments t) segments) (en_DeniedPaths e) then Some ErrDeniedPath
  else
    let readOnly := existsb (λ s, bool_decide (foldSegment s ∈ readOnlySegments)) segments ||
                    existsb (λ t, templateCovers (pathSegments t) segments) (en_ReadOnlyPaths e) in
    if readOnly && negb (bool_decide (method ∈ [ #"GET"; #"HEAD"; #"OPTIONS"])) then Some ErrReadOnlyPath else None.

Definition browser_app (e : CatalogEntry) (method pool : bytes) : BrowserRequest * option match_error :=
  let matched := {| br_Entry := e; br_App := true; br_Seed := false |} in
  if negb (bool_decide (method = #"GET")) && negb (bool_decide (method = #"HEAD")) then (matched, Some ErrMethod)
  else if negb (cat_contains (en_Pools e) pool) then (matched, Some ErrPool)
  else (matched, None).

Definition browser_api (e : CatalogEntry) (method path pool : bytes) : BrowserRequest * option match_error :=
  let seed := bool_decide (path = BrowserSeedPath) in
  let matched := {| br_Entry := e; br_App := false; br_Seed := seed |} in
  if negb (seed || existsb (pathWithin path) (en_PathPrefixes e)) then (matched, Some ErrUnlisted)
  else if negb (bool_decide (method ∈ browserMethods)) || (seed && negb (bool_decide (method = #"GET"))) then (matched, Some ErrMethod)
  else if negb (cat_contains (en_Pools e) pool) then (matched, Some ErrPool)
  else if negb seed then (matched, guardBrowserPath e method path)
  else (matched, None).

Fixpoint browser_in (l : list CatalogEntry) (host : bytes) (port : Z) (method path pool : bytes) : browser_answer :=
  match l with
  | [] => None
  | e :: l' =>
      match en_BrowserSession e with
      | Some b =>
          if negb (bool_decide (en_Kind e = #"browser-session")) || negb (port =? en_Port e) then browser_in l' host port method path pool
          else if bool_decide (host = bs_AppHost b) then Some (browser_app e method pool)
          else if bool_decide (host = en_Host e) then Some (browser_api e method path pool)
          else browser_in l' host port method path pool
      | None => browser_in l' host port method path pool
      end
  end.

Definition BrowserMatch (c : Catalog) (host : bytes) (port : Z) (method path pool : bytes) : browser_answer :=
  browser_in (cat_entries c) (ToLower host) port method path pool.

Definition BrowserHost (c : Catalog) (host : bytes) (port : Z) : bool :=
  existsb (λ e, bool_decide (en_Kind e = #"browser-session") && (port =? en_Port e) &&
    (bool_decide (ToLower host = en_Host e) ||
     match en_BrowserSession e with Some b => bool_decide (ToLower host = bs_AppHost b) | None => false end)) (cat_entries c).

Definition names_host (host : bytes) (port : Z) (e : CatalogEntry) : bool :=
  (negb (bool_decide (en_Kind e = #"postgres")) && bool_decide (en_Host e = ToLower host) && (en_Port e =? port)) ||
  match en_BrowserSession e with
  | Some b => bool_decide (bs_AppHost b = ToLower host) && (en_Port e =? port)
  | None => false
  end.

Definition HasHost (c : Catalog) (host : bytes) (port : Z) : bool := existsb (names_host host port) (cat_entries c).
Definition HasHostForPool (c : Catalog) (host : bytes) (port : Z) (pool : bytes) : bool :=
  existsb (λ e, cat_contains (en_Pools e) pool && names_host host port e) (cat_entries c).

Definition HasAuth0Domain (c : Catalog) (host : bytes) : bool :=
  existsb (λ e, match en_BrowserSession e with Some b => bool_decide (a0_Domain (bs_Auth0 b) = ToLower host) | None => false end) (cat_entries c).

Definition GitGranted (c : Catalog) (installation : Z) (repo scope : bytes) : bool :=
  existsb (λ e, installed installation e &&
    existsb (λ r, EqualFold (gr_Repo r) repo && scope_granted e r scope) (gitRepos e)) (cat_entries c).

(** [CheckHosts]; the error is the entry. *)
Definition host_under (host suffix : bytes) : bool :=
  let suffix := ToLower (TrimSpace suffix) in
  negb (empty suffix) && (bool_decide (host = TrimPrefix suffix #".") || HasSuffix host (#"." ++ TrimPrefix suffix #".")).
Definition CheckHosts (c : Catalog) (suffixes : list bytes) : option CatalogEntry :=
  List.find (λ e, negb (existsb (host_under (en_Host e)) suffixes)) (cat_entries c).
End Match.

(** ** Headers *)

Definition ForwardsHeader (e : CatalogEntry) (name : bytes) : bool :=
  let name := CanonicalHeaderKey name in
  bool_decide (name ∈ [ #"Accept"; #"Accept-Language"; #"Content-Type"; #"User-Agent"]) || cat_contains (en_ForwardHeaders e) name.

Definition gcpForwardHeaders : list bytes :=
  [ #"Accept"; #"Content-Type"; #"User-Agent"; #"X-Goog-Api-Client"; #"X-Upload-Content-Type"; #"X-Upload-Content-Length"; #"Content-Range";
    #"Range"; #"If-Match"; #"If-None-Match"].
Definition GCPForwardsHeader (e : CatalogEntry) (name : bytes) : bool :=
  cat_contains gcpForwardHeaders (CanonicalHeaderKey name) || cat_contains (en_ForwardHeaders e) (CanonicalHeaderKey name).
