(* ===== verification/CatalogGrants.v ===== *)
(** * What the catalog grants: git, GitHub and browser requests

    The exact surface of [GitMatch] on a parsed catalog, the branches a pull request
    may come from, and the paths a browser session never reaches. *)

From S2P Require Import Prelude GoString GoRegexp GoUrl GoStrconv ImageRule Entitlement Harness Authorize Catalog CatalogMatch CatalogFacts.

(** ** Finding a repository *)

Lemma find_Some {A} f (l : list A) x : List.find f l = Some x → x ∈ l ∧ f x = true.
Proof. intros [H1 H2]%find_some. split; [by apply list_elem_of_In|done]. Qed.

Lemma find_repo_Some l repo e r : find_repo l repo = Some (e, r) → e ∈ l ∧ r ∈ gitRepos e ∧ gr_Repo r = repo.
Proof.
  induction l as [|e0 l IH]; [done|]. cbn [find_repo]. destruct (List.find _ _) as [r0|] eqn:Ef.
  - intros [= <- <-]. apply find_Some in Ef as [? ?%bool_decide_eq_true]. split_and!; [by left|done|done].
  - intros (? & ? & ?)%IH. split_and!; [by right|done|done].
Qed.

Lemma find_repo_None l repo e r : find_repo l repo = None → e ∈ l → r ∈ gitRepos e → gr_Repo r ≠ repo.
Proof.
  induction l as [|e0 l IH]; [by intros _ ?%not_elem_of_nil|]. cbn [find_repo]. destruct (List.find _ _) as [r0|] eqn:Ef; [done|].
  intros Hn [->|He]%elem_of_cons Hr; [|by apply IH]. intros <-.
  pose proof (find_none _ _ Ef r ltac:(by apply list_elem_of_In)) as H0. cbn in H0. by rewrite bool_decide_true in H0.
Qed.

Lemma repo_in_routes e r : r ∈ gitRepos e → git_route e r ∈ entry_routes e.
Proof.
  unfold gitRepos, entry_routes. destruct (en_Git e) as [g|]; [|by intros ?%not_elem_of_nil]. intros Hr.
  apply elem_of_app. left. apply list_elem_of_fmap. by exists r.
Qed.

Lemma NoDup_map_same {A B} (f : A → B) l x y : NoDup (map f l) → x ∈ l → y ∈ l → f x = f y → x = y.
Proof.
  intros Hnd Hx Hy Ef. apply list_elem_of_lookup in Hx as [i Hi], Hy as [j Hj].
  assert (Hi' : map f l !! i = Some (f y)) by (rewrite list_lookup_fmap, Hi; cbn; by rewrite Ef).
  assert (Hj' : map f l !! j = Some (f y)) by (rewrite list_lookup_fmap, Hj; done).
  pose proof (NoDup_lookup _ _ _ _ Hnd Hi' Hj') as <-. congruence.
Qed.

Lemma entry_routes_NoDup l e : NoDup (concat (map entry_routes l)) → e ∈ l → NoDup (entry_routes e).
Proof.
  induction l as [|e0 l IH]; [by intros _ ?%not_elem_of_nil|]. cbn [map concat].
  intros (? & _ & Hnd)%NoDup_app [->|He]%elem_of_cons; [done|by apply IH].
Qed.

Lemma same_repo l e r e' r' : NoDup (concat (map entry_routes l)) → e ∈ l → e' ∈ l → r ∈ gitRepos e → r' ∈ gitRepos e' →
  git_route e r = git_route e' r' → e = e' ∧ r = r'.
Proof.
  intros Hnd He He' Hr Hr' Er.
  assert (e = e') as <-.
  { apply (routes_same_entry l _ _ (git_route e r) Hnd He He'); [by apply repo_in_routes|rewrite Er; by apply repo_in_routes]. }
  split; [done|]. pose proof (entry_routes_NoDup l e Hnd He) as Hnd'. unfold entry_routes, gitRepos in *.
  destruct (en_Git e) as [g|]; [|by apply not_elem_of_nil in Hr]. apply NoDup_app in Hnd' as (Hnd' & _).
  by apply (NoDup_map_same (git_route e) (gb_Repos g)).
Qed.

Lemma find_repo_spec c kind host port repo e r : NoDup (concat (map entry_routes (cat_entries c))) →
  find_repo (List.filter (on_host kind host port) (cat_entries c)) repo = Some (e, r) ↔
  e ∈ cat_entries c ∧ on_host kind host port e = true ∧ r ∈ gitRepos e ∧ gr_Repo r = repo.
Proof.
  intros Hnd. split.
  - intros (He & Hr & Er)%find_repo_Some. apply elem_of_lfilter in He as [He Ho]. done.
  - intros (He & Ho & Hr & <-). destruct (find_repo _ _) as [[e0 r0]|] eqn:Ef.
    + apply find_repo_Some in Ef as (He0 & Hr0 & Er0). apply elem_of_lfilter in He0 as [He0 Ho0].
      pose proof Ho as (Ek & Eh & Ep)%on_host_spec. pose proof Ho0 as (Ek0 & Eh0 & Ep0)%on_host_spec.
      assert (git_route e r = git_route e0 r0) as Eroute by (unfold git_route; congruence).
      by destruct (same_repo _ _ _ _ _ Hnd He He0 Hr Hr0 Eroute) as [-> ->].
    + by eapply find_repo_None in Ef; [|apply elem_of_lfilter|].
Qed.

(** ** The git endpoints *)

(** Endpoint, method, query and whether it is a push. *)
Definition git_endpoints : list (bytes * bytes * bytes * bool) :=
  [(#"info/refs", #"GET", #"service=git-upload-pack", false); (#"info/refs", #"GET", #"service=git-receive-pack", true);
   (#"git-upload-pack", #"POST", [], false); (#"git-receive-pack", #"POST", [], true)].

Lemma git_endpoint_Ok endpoint rawQuery method w :
  git_endpoint endpoint rawQuery method = Ok w ↔ (endpoint, method, rawQuery, w) ∈ git_endpoints.
Proof.
  split.
  - unfold git_endpoint. destruct (_ && (_ || _)) eqn:E1.
    + apply andb_true_iff in E1 as [->%bool_decide_eq_true Hq]. destruct (bool_decide_reflect (method = #"GET")) as [->|]; [|done].
      intros [= <-]. apply orb_true_iff in Hq as [->%bool_decide_eq_true| ->%bool_decide_eq_true]; vm_compute; [by left|by right; left].
    + clear E1. destruct (_ && empty rawQuery) eqn:E2; [|done]. apply andb_true_iff in E2 as [He ->%bool_decide_eq_true].
      destruct (bool_decide_reflect (method = #"POST")) as [->|]; [|done]. intros [= <-].
      apply orb_true_iff in He as [->%bool_decide_eq_true| ->%bool_decide_eq_true]; vm_compute; [by right; right; left|by right; right; right; left].
  - unfold git_endpoints. rewrite !elem_of_cons. intros [E|[E|[E|[E|?%not_elem_of_nil]]]]; [injection E as -> -> -> ->; vm_compute; reflexivity..|done].
Qed.

Lemma Split_app x c s : c ∉ x → Split (x ++ c :: s) c = x :: Split s c.
Proof.
  induction x as [|b x IH]; intros Hc; cbn [Split app]; [by rewrite bool_decide_true|].
  rewrite bool_decide_false by (intros ->; apply Hc; by left). rewrite IH; [done|]. intros ?. apply Hc. by right.
Qed.

(** The requests git makes of a repository: [owner/name], with or without [.git]. *)
Definition git_path (owner name endpoint : bytes) : bytes := #"/" ++ owner ++ #"/" ++ name ++ #"/" ++ endpoint.

(** The parts of a path of the right shape, and back. *)
Lemma git_path_parts path :
  (∃ owner name rest, rest ≠ [] ∧ HasPrefix path #"/" = true ∧ Split (TrimPrefix path #"/") x2f = owner :: name :: rest ∧
     x2f ∉ owner ∧ x2f ∉ name ∧ path = git_path owner name (Join rest #"/")) ∨
  (HasPrefix path #"/" = false ∨ ∀ owner name rest, Split (TrimPrefix path #"/") x2f = owner :: name :: rest → rest = []).
Proof.
  unfold TrimPrefix. destruct (HasPrefix path #"/") eqn:Hp; [|by right; left].
  pose proof Hp as Hp'. apply bool_decide_eq_true in Hp' as [s ->]. change (drop (length _) (_ ++ s)) with s.
  pose proof (Join_Split s x2f) as Hj. pose proof (Split_fields s x2f) as Hf.
  destruct (Split s x2f) as [|owner [|name rest]] eqn:Es; [right; right; by intros ???..|].
  destruct rest as [|x rest]; [right; right; by intros ??? [= _ _ <-]|]. left.
  apply Forall_cons_1 in Hf as [Ho Hf]. apply Forall_cons_1 in Hf as [Hn _].
  exists owner, name, (x :: rest). split_and!; try done. unfold git_path. f_equal. by rewrite <- Hj.
Qed.

Lemma Split_git_path owner name endpoint : x2f ∉ owner → x2f ∉ name →
  HasPrefix (git_path owner name endpoint) #"/" = true ∧
  Split (TrimPrefix (git_path owner name endpoint) #"/") x2f = owner :: name :: Split endpoint x2f.
Proof.
  intros Ho Hn. assert (Hp : HasPrefix (git_path owner name endpoint) #"/" = true).
  { unfold HasPrefix, git_path. apply bool_decide_eq_true. by eexists. }
  split; [done|]. unfold TrimPrefix. rewrite Hp. change (drop _ _) with (owner ++ x2f :: (name ++ x2f :: endpoint)).
  by rewrite !Split_app.
Qed.

Lemma GitMatch_spec `{UnicodeTables} c host port method path rawQuery pool e r w : NoDup (concat (map entry_routes (cat_entries c))) →
  GitMatch c host port method path rawQuery pool = Some (Some (git_request e r w false [] 0), None) ↔
  e ∈ cat_entries c ∧ on_host #"git" (ToLower host) port e = true ∧ r ∈ gitRepos e ∧ pool ∈ en_Pools e ∧
  (w = true → gr_Access r = #"write") ∧
  ∃ owner name endpoint, path = git_path owner name endpoint ∧ x2f ∉ owner ∧ x2f ∉ name ∧
    ToLower (owner ++ #"/" ++ TrimSuffix name #".git") = gr_Repo r ∧ (endpoint, method, rawQuery, w) ∈ git_endpoints.
Proof.
  intros Hnd. unfold GitMatch. cbv zeta. split.
  - destruct (bool_decide _); [done|]. intros [= Hm].
    destruct (git_path_parts path) as [(owner & name & rest & Hne & Hp & Es & Ho & Hn & Epath)|[Hp|Hshort]].
    + rewrite Hp, Es in Hm. cbn [negb] in Hm. destruct rest as [|x rest]; [done|].
      destruct (git_endpoint _ _ _) as [w0|] eqn:Ee; [|done]. apply git_endpoint_Ok in Ee.
      destruct (find_repo _ _) as [[e0 r0]|] eqn:Ef; [|done]. apply (find_repo_spec _ _ _ _ _ _ _ Hnd) in Ef as (He & Ho' & Hr & Er).
      destruct (cat_contains (en_Pools e0) pool) eqn:Hpool; [|done]. apply cat_contains_spec in Hpool. cbn [negb] in Hm.
      destruct (w0 && negb _) eqn:Hw; [done|]. injection Hm as -> -> ->.
      split_and!; try done.
      * intros ->. by apply andb_false_iff in Hw as [?|?%negb_false_iff%bool_decide_eq_true].
      * by exists owner, name, (Join (x :: rest) #"/").
    + by rewrite Hp in Hm.
    + destruct (negb _); [done|]. destruct (Split _ _) as [|a [|b l]] eqn:Es; [done..|]. by rewrite (Hshort a b l eq_refl) in Hm.
  - intros (He & Ho & Hr & Hpool & Hw & owner & name & endpoint & -> & Hso & Hsn & Er & Hend).
    rewrite bool_decide_false.
    2: { intros E%length_zero_iff_nil. assert (Hin : e ∈ List.filter (on_host #"git" (ToLower host) port) (cat_entries c)) by (by apply elem_of_lfilter). rewrite E in Hin. by apply not_elem_of_nil in Hin. }
    destruct (Split_git_path owner name endpoint Hso Hsn) as [-> ->]. cbn [negb].
    pose proof (Split_nonempty endpoint x2f) as Hne. pose proof (Join_Split endpoint x2f) as Hj.
    destruct (Split endpoint x2f) as [|x rest]; [done|]. change (Join (x :: rest) #"/") with (Join (x :: rest) [x2f]). rewrite Hj.
    apply git_endpoint_Ok in Hend as ->. rewrite Er.
    rewrite (proj2 (find_repo_spec c #"git" (ToLower host) port (gr_Repo r) e r Hnd)) by done.
    rewrite (proj2 (cat_contains_spec _ _) Hpool). cbn [negb]. destruct w; [|done]. by rewrite bool_decide_true by by apply Hw.
Qed.

(** ** Normalized entries *)

Ltac normalizer :=
  repeat match goal with
  | |- _ ≫= _ = Ok _ → _ => intros (? & ? & Hs)%result_bind_Ok; revert Hs
  | |- (match ?x with (_, _) => _ end) = Ok _ → _ => destruct x
  | |- (match ?x with Some _ => _ | None => _ end) = Ok _ → _ => destruct x eqn:?
  | |- Ok _ = Ok _ → _ => intros [= <-]
  | |- Err _ = Ok _ → _ => done
  | |- (if ?b then _ else _) = Ok _ → _ => destruct b
  | |- _ => progress cbv beta zeta
  end.

(** Lower-case ASCII. *)
Definition low (c : Z) : Prop := c < 128 ∧ is_upper c = false.

Lemma low_class c : is_lower c || is_digit c || (c =? 45) = true → low c.
Proof. unfold low, is_lower, is_digit, is_upper, in_range. intros H. split; b2p; lia. Qed.
Lemma lower_digit_low c : lower_digit c = true → low c.
Proof. intros H. apply low_class. unfold lower_digit in H. by rewrite H. Qed.
Lemma dash_low c : dash_or lower_digit c = true → low c.
Proof. apply low_class. Qed.
Lemma repo_char_low c : repo_char c = true → low c.
Proof. unfold repo_char, lower_digit, low, is_lower, is_digit, is_upper, in_range. intros H. split; b2p; lia. Qed.

Lemma hostPattern_low : cls_ok low hostPattern.
Proof. cbn. repeat apply conj; try exact dash_low; try exact lower_digit_low; try exact I; intros c Hc%Z.eqb_eq; by subst c. Qed.

Lemma RTimes_ok P n r : cls_ok P r → cls_ok P (RTimes n r).
Proof. intros Hr. induction n as [|n IH]; cbn; [done|]. by repeat apply conj. Qed.

Definition repo_owner : regex := RSeq (RCls lower_digit) (RUpTo 38 (RCls (dash_or lower_digit))).
Definition repo_name : regex := RBetween 1 99 repo_char.

Lemma repo_owner_ok P : (∀ c, lower_digit c = true → P c) → (∀ c, dash_or lower_digit c = true → P c) → cls_ok P repo_owner.
Proof. intros H1 H2. split; [exact H1|by apply RUpTo_ok]. Qed.
Lemma repo_name_ok P : (∀ c, repo_char c = true → P c) → cls_ok P repo_name.
Proof. intros H1. split; [by apply RTimes_ok|by apply RUpTo_ok]. Qed.
Lemma repoPattern_low : cls_ok low repoPattern.
Proof.
  destruct (repo_owner_ok low lower_digit_low dash_low) as [H1 H2].
  split; [exact H1|]. split; [exact H2|]. split; [intros c Hc%Z.eqb_eq; by subst c|]. apply repo_name_ok, repo_char_low.
Qed.

Lemma cls_ok_impl (P Q : Z → Prop) r : (∀ c, P c → Q c) → cls_ok P r → cls_ok Q r.
Proof. intros HPQ. induction r; cbn; naive_solver. Qed.

Lemma MatchString_low r s : cls_ok low r → MatchString r s = true → lang r (codes s) ∧ Forall low (codes s).
Proof.
  intros Hr Hm. assert (Hl : lang r (codes s)) by (apply MatchString_codes; [|done]; by eapply cls_ok_impl, Hr; intros ? []).
  split; [done|by eapply lang_Forall].
Qed.

Lemma repo_shape s : MatchString repoPattern s = true →
  Forall low (codes s) ∧ ∃ owner name, s = owner ++ #"/" ++ name ∧ x2f ∉ owner ∧ x2f ∉ name.
Proof.
  intros (Hl & Hlow)%(MatchString_low _ _ repoPattern_low). split; [done|].
  assert (Hl' : lang (RSeq repo_owner (RSeq (RChar x2f) repo_name)) (codes s)).
  { unfold repoPattern in Hl. apply lang_seq_inv in Hl as (w1 & ? & -> & H1 & Hl). apply lang_seq_inv in Hl as (w2 & w3 & -> & H2 & Hl).
    rewrite app_assoc. constructor; [by constructor|done]. }
  apply lang_seq_inv in Hl' as (wo & w & Es & Ho & Hw). apply lang_seq_inv in Hw as (ws & wn & -> & ->%lang_char & Hn).
  unfold codes in Es. apply map_eq_app in Es as (owner & rest & -> & <- & Er). symmetry in Er. apply symmetry, map_eq_app in Er as (slash & name & -> & Esl & <-).
  apply map_eq_cons in Esl as (b & ? & -> & Eb & ->%map_eq_nil). apply bval_inj in Eb as ->. exists owner, name. split_and!; [done|..].
  - intros Hin. eapply (lang_Forall (λ c, c ≠ 47)) in Ho; [|apply repo_owner_ok; [exact lower_digit_no_slash|exact lower_dash_no_slash]].
    rewrite Forall_forall in Ho. apply (Ho (bval x2f)); [|done]. by apply list_elem_of_fmap_2.
  - intros Hin. eapply (lang_Forall (λ c, c ≠ 47)) in Hn.
    + rewrite Forall_forall in Hn. apply (Hn (bval x2f)); [|done]. by apply list_elem_of_fmap_2.
    + apply repo_name_ok. intros c Hc ->. by vm_compute in Hc.
Qed.

Lemma repos_ok_Forall l : ∀ seen r, repos_ok seen l = true → r ∈ l → MatchString repoPattern (gr_Repo r) = true ∧ HasSuffix (gr_Repo r) #".git" = false.
Proof.
  induction l as [|r0 l IH]; [by intros ?? _ ?%not_elem_of_nil|]. intros seen r. cbn [repos_ok]. rewrite !andb_true_iff.
  intros [[[[[[[Hp _] Hg%negb_true_iff] _] _] _] _] Hl] [->|Hr]%elem_of_cons; [done|by eapply IH].
Qed.

Lemma ToLower_low `{UnicodeTables} s : Forall low (codes s) → ToLower s = s.
Proof.
  intros Hs. unfold ToLower. assert (forallb is_ascii s = true) as ->.
  { apply forallb_forall. intros b Hb%list_elem_of_In. rewrite Forall_forall in Hs. apply Z.ltb_lt, (Hs (bval b)). by apply list_elem_of_fmap_2. }
  induction s as [|b s IH]; [done|]. apply Forall_cons in Hs as [[_ Hu] Hs]. cbn [map]. rewrite IH by done. unfold ascii_lower. rewrite Hu.
  f_equal. apply bval_inj. rewrite bval_byte_of. apply Z.mod_small, bval_range.
Qed.

Section Grants.
Context `{UnicodeTables}.
Context (url_Parse : bytes → option URL) (is_addr : bytes → bool)
  (pem_Decode : bytes → option (bytes * bytes * bytes)) (ParseCertificate : bytes → option Certificate)
  (environment : bytes) (rolesWithoutEnvironment plaintextDatabases : bool).

Abbreviation parse := (Parse url_Parse is_addr pem_Decode ParseCertificate environment rolesWithoutEnvironment plaintextDatabases).

Abbreviation norm := (normalize url_Parse is_addr pem_Decode ParseCertificate environment rolesWithoutEnvironment plaintextDatabases).

(** No kind changes the host or the kind of an entry. *)
Definition keeps (f : CatalogEntry → result bytes CatalogEntry) : Prop :=
  ∀ e e', f e = Ok e' → en_Host e' = en_Host e ∧ en_Kind e' = en_Kind e.
Lemma keeps_postgres : keeps (normalizePostgres is_addr pem_Decode ParseCertificate environment rolesWithoutEnvironment plaintextDatabases).
Proof. intros e e'. unfold normalizePostgres. normalizer. all: done. Qed.
Lemma keeps_git : keeps normalizeGit.
Proof. intros e e'. unfold normalizeGit. normalizer. all: done. Qed.
Lemma keeps_github : keeps normalizeGitHubAPI.
Proof. intros e e'. unfold normalizeGitHubAPI. intros (e1 & [<- <-]%keeps_git & Hs)%result_bind_Ok. revert Hs. normalizer. all: done. Qed.
Lemma keeps_browser : keeps (normalizeBrowser url_Parse plaintextDatabases).
Proof. intros e e'. unfold normalizeBrowser. normalizer. all: done. Qed.
Lemma keeps_gcp : keeps normalizeGCP.
Proof. intros e e'. unfold normalizeGCP. normalizer. all: done. Qed.
Lemma keeps_header : keeps normalizeHeader.
Proof. intros e e'. unfold normalizeHeader. normalizer. all: done. Qed.

Lemma normalizeGit_repos e e' : normalizeGit e = Ok e' → repos_ok [] (gitRepos e') = true.
Proof.
  unfold normalizeGit. intros (? & _ & Hs)%result_bind_Ok. apply result_bind_Ok in Hs as (? & _ & Hs).
  destruct (en_Git e) as [g|]; [|done]. apply result_bind_Ok in Hs as (? & _ & Hs). apply result_bind_Ok in Hs as (? & _ & Hs). cbv zeta in Hs.
  apply result_bind_Ok in Hs as (? & Hr%require_Ok & Hs). apply result_bind_Ok in Hs as (? & _ & [= <-]). exact Hr.
Qed.

Lemma normalize_shape e0 e : norm e0 = Ok e →
  MatchString hostPattern (en_Host e) = true ∧ (en_Kind e = #"git" → repos_ok [] (gitRepos e) = true).
Proof.
  unfold normalize. cbv zeta. intros (? & _ & Hs)%result_bind_Ok. apply result_bind_Ok in Hs as (? & Hh%require_Ok & Hs).
  apply result_bind_Ok in Hs as (? & _ & Hs). apply result_bind_Ok in Hs as (? & _ & Hs).
  rewrite !andb_true_iff in Hh. destruct Hh as [[Hh _] _]. revert Hs.
  set (e1 := set_Port _ _). assert (Eh : en_Host e1 = ToLower (en_Host e0)) by done. assert (Ek : en_Kind e1 = en_Kind e0) by done. clearbody e1.
  assert (Hkeep : ∀ f, keeps f → f e1 = Ok e → MatchString hostPattern (en_Host e) = true ∧ en_Kind e = en_Kind e0).
  { intros f Hf He. destruct (Hf _ _ He) as [-> ->]. by rewrite Eh, Ek. }
  destruct (bool_decide_reflect (en_Kind e0 = #"postgres")) as [E1|]; [intros [? E]%(Hkeep _ keeps_postgres); rewrite E, E1; by split|].
  destruct (bool_decide_reflect (en_Kind e0 = #"git")) as [E2|]; [intros Hg; split; [by apply (Hkeep _ keeps_git)|intros _; by eapply normalizeGit_repos]|].
  destruct (bool_decide _); [intros [? E]%(Hkeep _ keeps_github); rewrite E; by split|].
  destruct (bool_decide _); [intros [? E]%(Hkeep _ keeps_browser); rewrite E; by split|].
  destruct (bool_decide _); [intros [? E]%(Hkeep _ keeps_gcp); rewrite E; by split|].
  destruct (bool_decide _); [intros [? E]%(Hkeep _ keeps_header); rewrite E; by split|done].
Qed.

(** The git surface is exactly the three smart-HTTP endpoints.  In a parsed catalog
    a git request is granted exactly when its path is [/owner/name/endpoint] with the
    endpoint, the method and the query of a fetch or of a push, the repository (any
    case, with or without [.git]) is one an entry of that host grants the pool, and a
    push meets write access. *)
Theorem GitMatch_exact hs pools entries c host port method path rawQuery pool e r w (Hparse : parse hs pools entries = Ok c) :
  GitMatch c host port method path rawQuery pool = Some (Some (git_request e r w false [] 0), None) ↔
  e ∈ cat_entries c ∧ on_host #"git" (ToLower host) port e = true ∧ r ∈ gitRepos e ∧ pool ∈ en_Pools e ∧
  (w = true → gr_Access r = #"write") ∧
  ∃ owner name endpoint, path = git_path owner name endpoint ∧ x2f ∉ owner ∧ x2f ∉ name ∧
    ToLower (owner ++ #"/" ++ TrimSuffix name #".git") = gr_Repo r ∧ (endpoint, method, rawQuery, w) ∈ git_endpoints.
Proof. apply Parse_Ok in Hparse as (by_name & Hok & _). exact (GitMatch_spec _ _ _ _ _ _ _ _ _ _ (eo_routes _ _ _ _ _ _ _ _ _ Hok)). Qed.

(** ** Pull requests *)

Lemma pushBranchPrefixes_spec c repo pool h : h ∈ pushBranchPrefixes c repo pool ↔
  ∃ e r, e ∈ cat_entries c ∧ en_Kind e = #"git" ∧ pool ∈ en_Pools e ∧ r ∈ gitRepos e ∧ gr_Repo r = repo ∧ gr_Access r = #"write" ∧
    heads ++ h ∈ gr_RefPrefixes r ∧ h ≠ [].
Proof.
  unfold pushBranchPrefixes. rewrite elem_of_concat. setoid_rewrite list_elem_of_fmap. split.
  - intros (? & Hin & e & -> & He). destruct (negb _ || _ || _) eqn:E; [by apply not_elem_of_nil in Hin|].
    apply orb_false_iff in E as [[Hk%negb_false_iff%bool_decide_eq_true _]%orb_false_iff Hp%negb_false_iff%cat_contains_spec].
    apply elem_of_concat in Hin as (? & Hin & (r & -> & Hr)%list_elem_of_fmap). destruct (negb _ || negb _) eqn:E; [by apply not_elem_of_nil in Hin|].
    apply orb_false_iff in E as [Er%negb_false_iff%bool_decide_eq_true Ew%negb_false_iff%bool_decide_eq_true].
    apply list_elem_of_omap in Hin as (prefix & Hprefix & Hb). exists e, r. unfold head_branch in Hb.
    destruct (HasPrefix prefix heads) eqn:Hh; [|done]. apply bool_decide_eq_true in Hh as [b ->].
    destruct (negb _) eqn:Hne; [|done]. injection Hb as <-. rewrite drop_app_length in *.
    apply negb_true_iff, bool_decide_eq_false in Hne. done.
  - intros (e & r & He & Hk & Hp & Hr & Er & Ew & Hin & Hne). eexists. split; [|exists e; split; [reflexivity|done]].
    rewrite bool_decide_true, (proj2 (cat_contains_spec _ _) Hp) by done. cbn [negb orb].
    assert (none (en_Git e) = false) as -> by (unfold gitRepos in Hr; destruct (en_Git e); [done|by apply not_elem_of_nil in Hr]). cbn [orb].
    apply elem_of_concat. eexists. split; [|apply list_elem_of_fmap; exists r; split; [reflexivity|done]].
    rewrite !bool_decide_true by done. cbn [negb orb]. apply list_elem_of_omap. exists (heads ++ h). split; [done|].
    unfold head_branch, HasPrefix. rewrite bool_decide_true by (by eexists). rewrite drop_app_length.
    unfold empty. by rewrite bool_decide_false.
Qed.

Lemma GitHubAPIMatch_heads c host port method path rawQuery pool rq h :
  GitHubAPIMatch c host port method path rawQuery pool = Some (Some rq, None) → h ∈ rq_HeadPrefixes rq →
  h ∈ pushBranchPrefixes c (gr_Repo (rq_Repo rq)) pool.
Proof.
  unfold GitHubAPIMatch. cbv zeta. destruct (bool_decide _); [done|]. intros [= Hm] Hh.
  destruct (negb (empty rawQuery)); [done|]. destruct (Split path x2f) as [|root [|repos [|owner [|name [|x rest]]]]]; [done..|].
  destruct (_ || _); [done|]. destruct (githubAPIEndpoint _) as [[want create] on]. destruct (empty want); [done|].
  destruct (find_repo _ _) as [[e r]|] eqn:Ef; [|done]. apply find_repo_Some in Ef as (_ & _ & Er).
  destruct (negb _); [done|]. destruct (negb _); [done|]. injection Hm as <-. cbn [rq_HeadPrefixes rq_Repo git_request] in *. rewrite Er.
  destruct (create || _); [done|by apply not_elem_of_nil in Hh].
Qed.

(** A pull request comes only from a branch its pool may push.  On a parsed
    catalog, every head prefix of a granted GitHub request is a branch prefix of a
    listing of the same repository, and [GitMatch] grants the pool a push there. *)
Theorem pull_request_heads_pushable hs pools entries c host port method path rawQuery pool rq h
  (Hparse : parse hs pools entries = Ok c) (Hm : GitHubAPIMatch c host port method path rawQuery pool = Some (Some rq, None))
  (Hh : h ∈ rq_HeadPrefixes rq) :
  ∃ e r, gr_Repo r = gr_Repo (rq_Repo rq) ∧ heads ++ h ∈ gr_RefPrefixes r ∧
    GitMatch c (en_Host e) (en_Port e) #"POST" (#"/" ++ gr_Repo r ++ #"/git-receive-pack") [] pool =
    Some (Some (git_request e r true false [] 0), None).
Proof.
  apply (GitHubAPIMatch_heads _ _ _ _ _ _ _ _ _ Hm), pushBranchPrefixes_spec in Hh as (e & r & He & Hk & Hp & Hr & Er & Ew & Hin & _).
  apply Parse_Ok in Hparse as (by_name & Hok & _). exists e, r. split_and!; [done|done|].
  destruct (eo_norm _ _ _ _ _ _ _ _ _ Hok e He) as [e0 [Hhost Hrepos]%normalize_shape].
  destruct (repos_ok_Forall _ _ _ (Hrepos Hk) Hr) as [[Hlow (owner & name & Eo & Ho & Hn)]%repo_shape Hgit].
  apply GitMatch_spec; [exact (eo_routes _ _ _ _ _ _ _ _ _ Hok)|].
  apply (MatchString_low _ _ hostPattern_low) in Hhost as [_ Hhost]. split_and!; try done.
  - apply on_host_spec. by rewrite ToLower_low.
  - exists owner, name, #"git-receive-pack". rewrite Eo. split_and!; [unfold git_path; by rewrite <- !app_assoc|done|done| |by right; right; right; left].
    assert (TrimSuffix name #".git" = name) as ->; [|rewrite <- Eo; by apply ToLower_low].
    unfold TrimSuffix. destruct (HasSuffix name #".git") eqn:E; [exfalso|done]. apply bool_decide_eq_true in E as [k ->].
    apply bool_decide_eq_false in Hgit. apply Hgit. rewrite Eo. exists (owner ++ #"/" ++ k). by rewrite <- !app_assoc.
Qed.
End Grants.

(** ** Browser sessions *)

(** A path the guard keeps from a session: one with a denied segment, in any case and
    with any dashes, or at or below a denied template. *)
Definition forbidden `{UnicodeTables} (e : CatalogEntry) (path : bytes) : Prop :=
  (∃ s, s ∈ pathSegments path ∧ foldSegment s ∈ deniedSegments) ∨
  (∃ t, t ∈ en_DeniedPaths e ∧ templateCovers (pathSegments t) (pathSegments path) = true).
Definition read_only `{UnicodeTables} (e : CatalogEntry) (path : bytes) : Prop :=
  (∃ s, s ∈ pathSegments path ∧ foldSegment s ∈ readOnlySegments) ∨
  (∃ t, t ∈ en_ReadOnlyPaths e ∧ templateCovers (pathSegments t) (pathSegments path) = true).

Lemma existsb_spec {A} (f : A → bool) (P : A → Prop) l : (∀ x, f x = true ↔ P x) → existsb f l = true ↔ ∃ x, x ∈ l ∧ P x.
Proof. intros Hf. rewrite existsb_exists. setoid_rewrite Hf. by setoid_rewrite list_elem_of_In. Qed.

Lemma bool_negb_iff b P : (b = true ↔ P) → b = false ↔ ¬ P.
Proof. intros <-. by destruct b. Qed.

Lemma guardBrowserPath_spec `{UnicodeTables} e method path : guardBrowserPath e method path = None ↔
  ¬ forbidden e path ∧ (read_only e path → method ∈ [ #"GET"; #"HEAD"; #"OPTIONS"]).
Proof.
  unfold guardBrowserPath. cbv zeta. unfold forbidden, read_only.
  pose proof (existsb_spec denied (λ s, foldSegment s ∈ deniedSegments) (pathSegments path) (λ s, bool_decide_eq_true _)) as H1.
  pose proof (existsb_spec (λ t, templateCovers (pathSegments t) (pathSegments path)) _ (en_DeniedPaths e) (λ t, iff_refl _)) as H2.
  pose proof (existsb_spec (λ s, bool_decide (foldSegment s ∈ readOnlySegments)) _ (pathSegments path) (λ s, bool_decide_eq_true _)) as H3.
  pose proof (existsb_spec (λ t, templateCovers (pathSegments t) (pathSegments path)) _ (en_ReadOnlyPaths e) (λ t, iff_refl _)) as H4.
  rewrite <- H1, <- H2, <- H3, <- H4.
  destruct (existsb denied _); [split; [done|intros [Hn _]; by destruct Hn; left]|].
  destruct (existsb _ (en_DeniedPaths e)); [split; [done|intros [Hn _]; by destruct Hn; right]|].
  set (ro := existsb _ (pathSegments path) || _). rewrite <- !orb_true_iff. fold ro.
  destruct (bool_decide_reflect (method ∈ [ #"GET"; #"HEAD"; #"OPTIONS"])) as [Hm|Hm]; cbn [negb]; destruct ro; cbn [andb]; split; try done.
  intros [_ Hro]. by destruct Hm; apply Hro.
Qed.

Lemma browser_in_inv `{UnicodeTables} l host port method path pool rq err : browser_in l host port method path pool = Some (rq, err) →
  ∃ e b, e ∈ l ∧ en_BrowserSession e = Some b ∧ en_Kind e = #"browser-session" ∧ en_Port e = port ∧
    ((host = bs_AppHost b ∧ (rq, err) = browser_app e method pool) ∨ (host = en_Host e ∧ (rq, err) = browser_api e method path pool)).
Proof.
  induction l as [|e l IH]; [done|]. cbn [browser_in]. intros Hb.
  assert (Hrest : browser_in l host port method path pool = Some (rq, err) → ∃ e0 b, e0 ∈ e :: l ∧ en_BrowserSession e0 = Some b ∧
    en_Kind e0 = #"browser-session" ∧ en_Port e0 = port ∧
    ((host = bs_AppHost b ∧ (rq, err) = browser_app e0 method pool) ∨ (host = en_Host e0 ∧ (rq, err) = browser_api e0 method path pool))).
  { intros (e0 & b & ? & ?)%IH. exists e0, b. split; [by right|done]. }
  destruct (en_BrowserSession e) as [b|] eqn:Es; [|by apply Hrest]. destruct (negb _ || negb _) eqn:Ek; [by apply Hrest|].
  apply orb_false_iff in Ek as [Ek%negb_false_iff%bool_decide_eq_true Ep%negb_false_iff%Z.eqb_eq].
  destruct (bool_decide_reflect (host = bs_AppHost b)) as [->|]; [|destruct (bool_decide_reflect (host = en_Host e)) as [->|]; [|by apply Hrest]].
  - injection Hb as <-. exists e, b. split_and!; [by left|done|done|done|by left].
  - injection Hb as <-. exists e, b. split_and!; [by left|done|done|done|by right].
Qed.

(** A browser session reaches only what its entry opens.  Of the requests granted to
    a browser-session entry, those to the app host are GET or HEAD, the one for the seed
    is a GET, and every other lies within one of the entry's path prefixes, has no
    denied segment and no denied template above it, and on a read-only part of the API
    only reads; all of them come from a pool of the entry. *)
Theorem BrowserMatch_guarded `{UnicodeTables} c host port method path pool rq
  (Hm : BrowserMatch c host port method path pool = Some (rq, None)) :
  br_Entry rq ∈ cat_entries c ∧ en_Kind (br_Entry rq) = #"browser-session" ∧ pool ∈ en_Pools (br_Entry rq) ∧
  if br_App rq then method = #"GET" ∨ method = #"HEAD"
  else if br_Seed rq then path = BrowserSeedPath ∧ method = #"GET"
  else (∃ prefix, prefix ∈ en_PathPrefixes (br_Entry rq) ∧ pathWithin path prefix = true) ∧
       ¬ forbidden (br_Entry rq) path ∧ (read_only (br_Entry rq) path → method ∈ [ #"GET"; #"HEAD"; #"OPTIONS"]).
Proof.
  apply browser_in_inv in Hm as (e & b & He & Hb & Hk & _ & [[_ Hr]|[_ Hr]]).
  - unfold browser_app in Hr. cbv zeta in Hr. destruct (negb _ && negb _) eqn:Em; [done|]. destruct (cat_contains _ _) eqn:Ep; [|done].
    injection Hr as ->. apply cat_contains_spec in Ep. split_and!; try done.
    by apply andb_false_iff in Em as [?%negb_false_iff%bool_decide_eq_true|?%negb_false_iff%bool_decide_eq_true]; [left|right].
  - unfold browser_api in Hr. cbv zeta in Hr. destruct (negb (_ || _)) eqn:Ew; [done|]. apply negb_false_iff in Ew.
    destruct (negb _ || _) eqn:Em; [done|]. apply orb_false_iff in Em as [_ Em]. destruct (cat_contains _ _) eqn:Ep; [|done]. cbn [negb] in Hr.
    apply cat_contains_spec in Ep. destruct (bool_decide_reflect (path = BrowserSeedPath)) as [Eseed|Eseed]; cbn [negb andb orb] in *.
    + injection Hr as ->. split_and!; try done. cbn. split; [done|]. by apply negb_false_iff, bool_decide_eq_true in Em.
    + injection Hr as -> Hg. symmetry in Hg. apply guardBrowserPath_spec in Hg as [Hf Hro]. split_and!; try done. cbn [br_App br_Seed br_Entry]. split; [|done].
      apply existsb_exists in Ew as (p & Hp & Hw). exists p. split; [by apply list_elem_of_In|done].
Qed.

Module CatalogDemo.
(** A pool of Claude workers with a vendor key, a repository it may push and open pull
    requests on, and a browser session. *)
Definition pool : CatalogPool :=
  {| cp_Name := #"p"; cp_Namespace := #"ns"; cp_ServiceAccount := #"sa"; cp_Identity := #"claude-session"; cp_Ceiling := #"T1";
     cp_CCPoolID := #"ccpool_1"; cp_BaseGroup := []; cp_Entitlements := []; cp_harness := None |}.
Definition blank (name host kind : bytes) : CatalogEntry :=
  {| en_Name := name; en_Host := host; en_Port := 0; en_PathPrefixes := []; en_DeniedPaths := []; en_ReadOnlyPaths := []; en_Methods := [];
     en_Header := []; en_Scheme := []; en_BasicUser := false; en_Placeholder := []; en_Key := no_key; en_Pools := [ #"p"];
     en_ForwardHeaders := []; en_MaxRequestBytes := 0; en_MaxResponseBytes := 0; en_Kind := kind; en_Git := None; en_Postgres := None;
     en_BrowserSession := None; en_GCP := None; en_Tier := []; en_Requires := [] |}.
Definition vendor : CatalogEntry :=
  {| en_Name := #"vendor"; en_Host := #"API.vendor.com"; en_Port := 0; en_PathPrefixes := [ #"/v1"; #"/v1/models"]; en_DeniedPaths := [];
     en_ReadOnlyPaths := []; en_Methods := [ #"get"]; en_Header := #"authorization"; en_Scheme := #"Bearer"; en_BasicUser := false;
     en_Placeholder := #"__vault_VENDOR__"; en_Key := {| kr_Mount := #"kv"; kr_Path := #"vendors/x"; kr_Field := #"key" |};
     en_Pools := [ #"p"]; en_ForwardHeaders := []; en_MaxRequestBytes := 0; en_MaxResponseBytes := 0; en_Kind := []; en_Git := None;
     en_Postgres := None; en_BrowserSession := None; en_GCP := None; en_Tier := #"T1";
     en_Requires := [ #"01234567-89ab-cdef-0123-456789abcdef"] |}.
Definition git (prefixes : list bytes) : option GitBinding :=
  Some {| gb_AppID := 1; gb_InstallationID := 1;
          gb_Repos := [{| gr_Repo := #"trm/app"; gr_Access := #"write"; gr_RefPrefixes := prefixes |}] |}.
Definition entries : list CatalogEntry :=
  [vendor; set_Git (git [ #"refs/heads/agents/"]) (blank #"git" #"github.com" #"git"); set_Git (git []) (blank #"api" #"api.github.com" #"github-api")].

#[local] Instance tables : UnicodeTables := latin1_tables.
Definition parsed : result bytes Catalog :=
  Parse (λ _, None) (λ _, false) (λ _, None) (λ _, None) [] false false [] [pool] entries.
Definition c : Catalog := match parsed with Ok c => c | Err _ => {| cat_entries := []; cat_pools := []; cat_harnesses := [] |} end.
Lemma parsed_c : Parse (λ _, None) (λ _, false) (λ _, None) (λ _, None) [] false false [] [pool] entries = Ok c.
Proof. vm_compute. reflexivity. Qed.
Definition no_entry : CatalogEntry := blank [] [] [].
Definition nth_entry (n : nat) : CatalogEntry := default no_entry (cat_entries c !! n).
Lemma nth_in n : (n < 3)%nat → nth_entry n ∈ cat_entries c.
Proof.
  intros Hn. unfold nth_entry. assert (Hl : length (cat_entries c) = 3%nat) by (vm_compute; reflexivity).
  destruct (lookup_lt_is_Some_2 (cat_entries c) n) as [e He]; [by rewrite Hl|]. rewrite He. by apply (list_elem_of_lookup_2 _ n).
Qed.
Lemma pool_in : pool ∈ cat_pools c.
Proof. apply list_elem_of_In. vm_compute. by left. Qed.
Lemma vendor_pool : cp_Name pool ∈ en_Pools (nth_entry 0).
Proof. apply list_elem_of_In. vm_compute. by left. Qed.
Definition nobody_known : bool → bytes → list bytes → answer := λ _ _ _, Err ErrNoSource.
Lemma vendor_match : Match c #"Api.Vendor.com" 443 #"GET" #"/v1/models/a" #"p" = (Some (nth_entry 0), None).
Proof. vm_compute. reflexivity. Qed.
Definition the_repo : GitRepo := {| gr_Repo := #"trm/app"; gr_Access := #"write"; gr_RefPrefixes := [ #"refs/heads/agents/"] |}.
Lemma push_match : GitMatch c #"github.com" 443 #"POST" #"/TRM/app.git/git-receive-pack" [] #"p" =
  Some (Some (git_request (nth_entry 1) the_repo true false [] 0), None).
Proof. vm_compute. reflexivity. Qed.
Definition opened : GitRequest :=
  git_request (nth_entry 2) {| gr_Repo := #"trm/app"; gr_Access := #"write"; gr_RefPrefixes := [] |} true true [ #"agents/"] 0.
Lemma open_match : GitHubAPIMatch c #"api.github.com" 443 #"POST" #"/repos/trm/app/pulls" [] #"p" = Some (Some opened, None).
Proof. vm_compute. reflexivity. Qed.

(** A browser entry, as [normalizeBrowser] leaves it. *)
Definition no_auth0 : Auth0Binding :=
  {| a0_Domain := #"login.app.com"; a0_ClientID := #"id"; a0_Audience := #"aud"; a0_Scope := #"openid"; a0_Login := #"password-realm";
     a0_Realm := #"users"; a0_TokenClient := no_kv |}.
Definition browser_entry : CatalogEntry :=
  set_PathPrefixes [ #"/v1"] (set_Port 443 (set_BrowserSession
    (Some {| bs_AppHost := #"app.com"; bs_Auth0 := no_auth0; bs_User := no_kv; bs_AutomatedAuth := None |}) (blank #"b" #"api.app.com" #"browser-session"))).
Definition browser_catalog : Catalog := {| cat_entries := [browser_entry]; cat_pools := [pool]; cat_harnesses := [] |}.
Definition browsed : BrowserRequest := {| br_Entry := browser_entry; br_App := false; br_Seed := false |}.
Lemma browse : BrowserMatch browser_catalog #"API.app.com" 443 #"POST" #"/v1/orders" #"p" = Some (browsed, None).
Proof. vm_compute. reflexivity. Qed.
Lemma no_api_keys : BrowserMatch browser_catalog #"API.app.com" 443 #"POST" #"/v1/API_Keys/1" #"p" = Some (browsed, Some ErrDeniedPath).
Proof. vm_compute. reflexivity. Qed.
End CatalogDemo.

Lemma parsed_grants_work_witness :
  d_Outcome (authorize_Decide CatalogDemo.nobody_known CatalogDemo.pool (en_Tier (CatalogDemo.nth_entry 0)) (en_Requires (CatalogDemo.nth_entry 0)) nobody false).1
    ∉ config_refusals.
Proof.
  exact (@parsed_grants_work latin1_tables _ _ _ _ _ _ _ _ _ _ _ _ _ CatalogDemo.nobody_known nobody false CatalogDemo.parsed_c
    (CatalogDemo.nth_in 0 ltac:(lia)) CatalogDemo.pool_in CatalogDemo.vendor_pool).
Defined.

Lemma Match_longest_witness : #"GET" ∈ en_Methods (CatalogDemo.nth_entry 0).
Proof.
  destruct (proj1 (@Match_longest latin1_tables _ _ _ _ _ _ _ _ _ _ _ #"Api.Vendor.com" 443 #"GET" #"/v1/models/a" #"p" (CatalogDemo.nth_entry 0) CatalogDemo.parsed_c)
    CatalogDemo.vendor_match) as (_ & _ & _ & Hm & _). exact Hm.
Defined.

Lemma GitMatch_exact_witness : gr_Access CatalogDemo.the_repo = #"write".
Proof.
  destruct (proj1 (@GitMatch_exact latin1_tables _ _ _ _ _ _ _ _ _ _ _ #"github.com" 443 #"POST" #"/TRM/app.git/git-receive-pack" [] #"p"
    (CatalogDemo.nth_entry 1) CatalogDemo.the_repo true CatalogDemo.parsed_c) CatalogDemo.push_match) as (_ & _ & _ & _ & Hw & _).
  exact (Hw eq_refl).
Defined.

Lemma pull_request_heads_pushable_witness :
  ∃ e r, gr_Repo r = #"trm/app" ∧ heads ++ #"agents/" ∈ gr_RefPrefixes r ∧
    @GitMatch latin1_tables CatalogDemo.c (en_Host e) (en_Port e) #"POST" (#"/" ++ gr_Repo r ++ #"/git-receive-pack") [] #"p" =
    Some (Some (git_request e r true false [] 0), None).
Proof.
  refine (@pull_request_heads_pushable latin1_tables _ _ _ _ _ _ _ _ _ _ _ _ _ _ _ _ _ _ _ CatalogDemo.parsed_c CatalogDemo.open_match _).
  apply list_elem_of_singleton. reflexivity.
Defined.

Lemma BrowserMatch_guarded_witness : ¬ @forbidden latin1_tables CatalogDemo.browser_entry #"/v1/orders".
Proof.
  destruct (@BrowserMatch_guarded latin1_tables _ _ _ _ _ _ _ CatalogDemo.browse) as (_ & _ & _ & _ & Hf & _). exact Hf.
Defined.
