(* ===== verification/Proposal.v ===== *)
(** * Proposals ([internal/proposal], and the normalization of
      [internal/server/handle_services.go])

    Agents propose changes to a vault's services and credentials; a person
    approves them.  A proposal is validated when it is created, normalized again
    against the services it finds when it is applied, and merged into them.
    [None] of [MergeServices] is its panic; a warning is the service's name.
    [url.Parse] is an argument; an error is a short code. *)

From S2P Require Import Prelude GoString GoRegexp GoStrconv GoNet GoUrl BrokerMatch BrokerHost BrokerAuth BrokerConfig.

Definition ActionSet : bytes := #"set".
Definition ActionDelete : bytes := #"delete".

Record PService := {
  pv_Action : bytes;
  pv_Name : bytes;
  pv_Host : bytes;
  pv_Path : bytes;
  pv_Port : option Z;
  pv_Enabled : option bool;
  pv_Auth : option Auth;
  pv_Substitutions : list Substitution;
}.

Record OAuthConfig := {
  oc_AuthorizationURL : bytes;
  oc_TokenURL : bytes;
  oc_ClientID : bytes;
  oc_Scopes : bytes;
  oc_ScopeSeparator : bytes;
  oc_DisablePKCE : bool;
  oc_TokenAuthMethod : bytes;
}.

Record CredentialSlot := {
  sl_Action : bytes;
  sl_Key : bytes;
  sl_Type : bytes;
  sl_Description : bytes;
  sl_Obtain : bytes;
  sl_ObtainInstructions : bytes;
  sl_Value : option bytes;
  sl_HasValue : bool;
  sl_OAuth : option OAuthConfig;
}.

Definition MaxServices : Z := 10.
Definition MaxCredentials : Z := 10.
Definition MaxMessageLen : Z := 2000.
Definition MaxUserMessageLen : Z := 5000.
Definition MaxDescriptionLen : Z := 500.
Definition MaxObtainLen : Z := 500.
Definition MaxObtainInstructionsLen : Z := 1000.

(** [len] *)
Definition len_Z {A} (l : list A) : Z := Z.of_nat (length l).

Definition ValidateMessages (message userMessage : bytes) : option bytes :=
  if MaxMessageLen <? len_Z message then Some #"message"
  else if MaxUserMessageLen <? len_Z userMessage then Some #"user_message"
  else None.

(** ** Validation *)

(** [if err := e; err != nil { return code }] in a chain of checks. *)
Definition failing {E} (code : bytes) (e : option E) : option bytes :=
  match e with Some _ => Some code | None => None end.
Definition fails_if (b : bool) (code : bytes) : option bytes := if b then Some code else None.

Definition is_action (a : bytes) : bool := bool_decide (a = ActionSet) || bool_decide (a = ActionDelete).
Definition sets (a : bytes) : bool := bool_decide (a = ActionSet).
Definition is_empty (s : bytes) : bool := bool_decide (s = []).

Definition no_auth : Auth :=
  {| auth_Type := []; auth_Token := []; auth_Username := []; auth_Password := []; auth_Key := []; auth_Header := []; auth_Prefix := [];
     auth_Headers := [] |}.

(** [broker.Service{Host: s.Host, Substitutions: s.Substitutions}] *)
Definition synthetic (s : PService) : Service :=
  {| svc_Name := []; svc_Host := pv_Host s; svc_Path := []; svc_Port := None; svc_Enabled := None; svc_Auth := no_auth;
     svc_Substitutions := pv_Substitutions s; svc_FixedQuery := None |}.

Section Validate.
Context `{UnicodeTables} (Getenv : bytes → bytes) (url_Parse : bytes → option URL).

Definition set_ok (s : PService) : option bytes :=
  match pv_Auth s with
  | None =>
      or_else (fails_if (bool_decide (pv_Enabled s = None)) #"set without change")
              (fails_if (0 <? len_Z (pv_Substitutions s)) #"substitutions without auth")
  | Some a =>
      or_else (failing #"auth" (Auth_Validate a))
              (if 0 <? len_Z (pv_Substitutions s) then failing #"substitutions" (ValidateSubstitutions (synthetic s)) else None)
  end.

Definition pservice_ok (nameSet : list bytes) (s : PService) : option bytes :=
  or_else (fails_if (negb (is_action (pv_Action s))) #"action")
  (or_else (fails_if (is_empty (pv_Host s)) #"host")
  (or_else (fails_if (Contains (pv_Host s) #"/") #"host slash")
  (or_else (failing #"host" (ValidateHost Getenv (pv_Host s)))
  (or_else (fails_if (is_empty (pv_Name s)) #"name")
  (or_else (failing #"slug" (ValidateSlug (pv_Name s)))
  (or_else (fails_if (bool_decide (pv_Name s ∈ nameSet)) #"duplicate name")
  (or_else (failing #"path" (ValidatePath (pv_Path s)))
  (or_else (failing #"port" (ValidatePort (pv_Port s)))
           (if sets (pv_Action s) then set_ok s else None))))))))).

Fixpoint pservices_ok (nameSet : list bytes) (l : list PService) : option bytes :=
  match l with
  | [] => None
  | s :: l' => or_else (pservice_ok nameSet s) (pservices_ok (pv_Name s :: nameSet) l')
  end.

(** The keys a set entry with credentials refers to. *)
Definition entry_keys (s : PService) : list bytes :=
  if sets (pv_Action s)
  then match pv_Auth s with Some a => Auth_CredentialKeys a ++ map sub_Key (pv_Substitutions s) | None => [] end
  else [].

Definition http_url (s : bytes) : bool :=
  match url_Parse s with
  | Some u => (bool_decide (u_Scheme u = #"https") || bool_decide (u_Scheme u = #"http")) && negb (is_empty (u_Host u))
  | None => false
  end.

Definition oauth_ok (c : CredentialSlot) : option bytes :=
  match sl_OAuth c with
  | None => Some #"oauth"
  | Some o =>
      or_else (fails_if (is_empty (oc_TokenURL o)) #"token_url")
      (or_else (fails_if (negb (is_empty (oc_AuthorizationURL o)) && negb (http_url (oc_AuthorizationURL o))) #"authorization_url")
      (or_else (fails_if (negb (http_url (oc_TokenURL o))) #"token_url")
      (or_else (fails_if (bool_decide (is_Some (sl_Value c))) #"value")
               (fails_if (negb (bool_decide (oc_TokenAuthMethod o ∈ [ []; #"client_secret_post"; #"client_secret_basic"]))) #"token_auth_method"))))
  end.

Definition slot_ok (no_services : bool) (refs seenKeys : list bytes) (c : CredentialSlot) : option bytes :=
  or_else (fails_if (negb (is_action (sl_Action c))) #"action")
  (or_else (fails_if (is_empty (sl_Key c)) #"key")
  (or_else (fails_if (negb (MatchString CredentialKeyPattern (sl_Key c))) #"key case")
  (or_else (fails_if (bool_decide (sl_Key c ∈ seenKeys)) #"duplicate key")
  (or_else (fails_if (MaxDescriptionLen <? len_Z (sl_Description c)) #"description")
  (or_else (fails_if (MaxObtainLen <? len_Z (sl_Obtain c)) #"obtain")
  (or_else (fails_if (negb (is_empty (sl_Obtain c)) && negb (http_url (sl_Obtain c))) #"obtain url")
  (or_else (fails_if (MaxObtainInstructionsLen <? len_Z (sl_ObtainInstructions c)) #"obtain_instructions")
  (or_else (fails_if (negb (bool_decide (sl_Type c ∈ [ []; #"static"; #"oauth"]))) #"type")
  (or_else (if bool_decide (sl_Type c = #"oauth") then oauth_ok c else None)
           (fails_if (negb no_services && sets (sl_Action c) && negb (bool_decide (sl_Key c ∈ refs))) #"unreferenced")))))))))).

Fixpoint slots_ok (no_services : bool) (refs seenKeys : list bytes) (l : list CredentialSlot) : option bytes :=
  match l with
  | [] => None
  | c :: l' => or_else (slot_ok no_services refs seenKeys c) (slots_ok no_services refs (sl_Key c :: seenKeys) l')
  end.

(** [Validate] of [validate.go]. *)
Definition proposal_Validate (services : list PService) (credentials : list CredentialSlot) : option bytes :=
  or_else (fails_if ((len_Z services =? 0) && (len_Z credentials =? 0)) #"empty")
  (or_else (fails_if (MaxServices <? len_Z services) #"services")
  (or_else (fails_if (MaxCredentials <? len_Z credentials) #"credentials")
  (or_else (pservices_ok [] services)
           (slots_ok (len_Z services =? 0) (flat_map entry_keys services) [] credentials)))).

Definition available_keys (slots : list CredentialSlot) (existingKeys : list bytes) : list bytes :=
  map sl_Key (List.filter (λ c, sets (sl_Action c)) slots) ++ existingKeys.

Definition ValidateCredentialRefs (services : list PService) (slots : list CredentialSlot) (existingKeys : list bytes) : option bytes :=
  fails_if (negb (forallb (λ s, forallb (λ k, bool_decide (k ∈ available_keys slots existingKeys)) (entry_keys s)) services)) #"credential".
End Validate.

(** ** Normalization *)

(** [hp] *)
Definition place (host path : bytes) (port : option Z) : bytes * bytes * Z := (host, path, PortVal port).
Definition place_of (e : Service) : bytes * bytes * Z := place (svc_Host e) (svc_Path e) (svc_Port e).
Definition place_of_proposed (p : PService) : bytes * bytes * Z := place (pv_Host p) (pv_Path p) (pv_Port p).

(** The name of the only existing service at a place. *)
Definition name_at (existing : list Service) (k : bytes * bytes * Z) : option bytes :=
  match List.filter (λ e, bool_decide (place_of e = k)) existing with
  | [e] => Some (svc_Name e)
  | _ => None
  end.

(** [adoptByHost], for one entry. *)
Definition adopted_name (existing : list Service) (rebindStale : bool) (name : bytes) (k : bytes * bytes * Z) : bytes :=
  if negb (is_empty name) && (negb rebindStale || bool_decide (name ∈ map svc_Name existing)) then name
  else default name (name_at existing k).

Definition with_name (n : bytes) (p : PService) : PService :=
  {| pv_Action := pv_Action p; pv_Name := n; pv_Host := pv_Host p; pv_Path := pv_Path p; pv_Port := pv_Port p; pv_Enabled := pv_Enabled p;
     pv_Auth := pv_Auth p; pv_Substitutions := pv_Substitutions p |}.
Definition split_host (p : PService) : PService :=
  let '(host, path, port) := SplitInlineHost (pv_Host p) (pv_Path p) in
  {| pv_Action := pv_Action p; pv_Name := pv_Name p; pv_Host := host; pv_Path := path; pv_Port := port; pv_Enabled := pv_Enabled p;
     pv_Auth := pv_Auth p; pv_Substitutions := pv_Substitutions p |}.

Inductive normalize_error := HostAmbiguous (host : bytes) (candidates : list Service) | HostNotFound (host : bytes).

(** The services an unnamed delete may mean. *)
Definition delete_matches (existing : list Service) (p : PService) : list Service :=
  List.filter (λ e, bool_decide (svc_Host e = pv_Host p) &&
    (is_empty (pv_Path p) || bool_decide (svc_Path e = pv_Path p)) &&
    match pv_Port p with None => true | Some port => bool_decide (svc_Port e = Some port) end) existing.

Definition resolve_delete (existing : list Service) (p : PService) : result normalize_error PService :=
  if bool_decide (pv_Action p = ActionDelete) && is_empty (pv_Name p) then
    match delete_matches existing p with
    | [e] => Ok (with_name (svc_Name e) p)
    | [] => Err (HostNotFound (pv_Host p))
    | l => Err (HostAmbiguous (pv_Host p) l)
    end
  else Ok p.

Definition adopt_set (existing : list Service) (p : PService) : PService :=
  if sets (pv_Action p) && negb (is_empty (pv_Host p))
  then with_name (adopted_name existing true (pv_Name p) (place_of_proposed p)) p else p.

Fixpoint resolve_deletes (existing : list Service) (l : list PService) : result normalize_error (list PService) :=
  match l with
  | [] => Ok []
  | p :: l' => p ← resolve_delete existing (split_host p); l' ← resolve_deletes existing l'; Ok (p :: l')
  end.

Definition normalizeProposalServices (l : list PService) (existing : list Service) : result normalize_error (list PService) :=
  out ← resolve_deletes existing l; Ok (map (adopt_set existing) out).

(** ** Merging *)

Definition toBrokerService (p : PService) : Service :=
  {| svc_Name := pv_Name p; svc_Host := pv_Host p; svc_Path := pv_Path p; svc_Port := pv_Port p; svc_Enabled := pv_Enabled p;
     svc_Auth := default no_auth (pv_Auth p); svc_Substitutions := pv_Substitutions p; svc_FixedQuery := None |}.

Definition set_enabled (v : option bool) (s : Service) : Service :=
  {| svc_Name := svc_Name s; svc_Host := svc_Host s; svc_Path := svc_Path s; svc_Port := svc_Port s; svc_Enabled := v;
     svc_Auth := svc_Auth s; svc_Substitutions := svc_Substitutions s; svc_FixedQuery := svc_FixedQuery s |}.
Definition set_subs (v : list Substitution) (s : Service) : Service :=
  {| svc_Name := svc_Name s; svc_Host := svc_Host s; svc_Path := svc_Path s; svc_Port := svc_Port s; svc_Enabled := svc_Enabled s;
     svc_Auth := svc_Auth s; svc_Substitutions := v; svc_FixedQuery := svc_FixedQuery s |}.

(** What a set does to the service it names. *)
Definition overlay (p : PService) (e : Service) : Service :=
  match pv_Auth p, pv_Enabled p with
  | None, Some _ => set_enabled (pv_Enabled p) e
  | _, _ =>
      let next := toBrokerService p in
      if bool_decide (length (pv_Substitutions p) = 0%nat) then set_subs (svc_Substitutions e) next else next
  end.

Record merge_state := {
  ms_index : gmap bytes nat;
  ms_merged : list Service;
  ms_removed : gset nat;
  ms_warnings : list bytes;
}.

Definition merge_one (st : merge_state) (p : PService) : merge_state :=
  let name := pv_Name p in
  if bool_decide (pv_Action p = ActionDelete) then
    match ms_index st !! name with
    | None => {| ms_index := ms_index st; ms_merged := ms_merged st; ms_removed := ms_removed st; ms_warnings := ms_warnings st ++ [name] |}
    | Some i => {| ms_index := delete name (ms_index st); ms_merged := ms_merged st; ms_removed := {[i]} ∪ ms_removed st; ms_warnings := ms_warnings st |}
    end
  else
    match ms_index st !! name with
    | Some i => {| ms_index := ms_index st; ms_merged := alter (overlay p) i (ms_merged st); ms_removed := ms_removed st; ms_warnings := ms_warnings st |}
    | None => {| ms_index := <[name := length (ms_merged st)]> (ms_index st); ms_merged := ms_merged st ++ [toBrokerService p];
                 ms_removed := ms_removed st; ms_warnings := ms_warnings st |}
    end.

(** [nameIndex]: of two services with one name the later wins. *)
Fixpoint name_index (i : nat) (l : list Service) : gmap bytes nat → gmap bytes nat :=
  match l with
  | [] => λ m, m
  | e :: l' => λ m, name_index (S i) l' (<[svc_Name e := i]> m)
  end.

(** The services whose index is not in the set. *)
Fixpoint unremoved (i : nat) (removed : gset nat) (l : list Service) : list Service :=
  match l with
  | [] => []
  | e :: l' => if bool_decide (i ∈ removed) then unremoved (S i) removed l' else e :: unremoved (S i) removed l'
  end.

Definition MergeServices (existing : list Service) (proposed : list PService) : option (list Service * list bytes) :=
  if existsb (λ e, is_empty (svc_Name e)) existing || existsb (λ p, is_empty (pv_Name p)) proposed then None
  else
    let st := foldl merge_one {| ms_index := name_index 0 existing ∅; ms_merged := existing; ms_removed := ∅; ms_warnings := [] |} proposed in
    Some (unremoved 0 (ms_removed st) (ms_merged st), ms_warnings st).
