(* ===== verification/ProposalMerge.v ===== *)
(** * What applying a proposal does

    The merge is compared with a reference that says, service by service, what
    becomes of it; and a validated proposal leaves no credential reference that
    nobody provides. *)

From S2P Require Import Prelude GoString GoRegexp GoStrconv GoNet GoUrl BrokerMatch BrokerHost BrokerAuth BrokerConfig Proposal.

(** ** The reference *)

Definition is_delete (p : PService) : bool := bool_decide (pv_Action p = ActionDelete).
Definition proposed_for (l : list PService) (n : bytes) : option PService := List.find (λ p, bool_decide (pv_Name p = n)) l.

(** What becomes of an existing service. *)
Definition updated (l : list PService) (e : Service) : Service :=
  match proposed_for l (svc_Name e) with
  | Some p => if is_delete p then e else overlay p e
  | None => e
  end.
Definition deleted (l : list PService) (e : Service) : bool :=
  match proposed_for l (svc_Name e) with Some p => is_delete p | None => false end.

Definition missing (existing : list Service) (p : PService) : bool := negb (bool_decide (pv_Name p ∈ map svc_Name existing)).

Definition merged_spec (existing : list Service) (l : list PService) : list Service :=
  map (updated l) (List.filter (λ e, negb (deleted l e)) existing) ++
  map toBrokerService (List.filter (λ p, negb (is_delete p) && missing existing p) l).
Definition warnings_spec (existing : list Service) (l : list PService) : list bytes :=
  map pv_Name (List.filter (λ p, is_delete p && missing existing p) l).

(** ** Indices *)

Lemma name_index_other l : ∀ i m n, n ∉ map svc_Name l → name_index i l m !! n = m !! n.
Proof.
  induction l as [|e l IH]; [done|]. intros i m n Hn. cbn [name_index map] in *. apply not_elem_of_cons in Hn as [Hne Hn].
  rewrite IH by done. by apply lookup_insert_ne.
Qed.

Lemma name_index_at l : ∀ i m n j e, NoDup (map svc_Name l) → l !! j = Some e → svc_Name e = n → name_index i l m !! n = Some (i + j)%nat.
Proof.
  induction l as [|e0 l IH]; [done|]. intros i m n j e Hnd Hj Hn. cbn [name_index map] in *. apply NoDup_cons in Hnd as [Hne Hnd].
  destruct j as [|j]; cbn in Hj.
  - injection Hj as ->. subst n. rewrite name_index_other by done. rewrite lookup_insert_eq. f_equal. lia.
  - rewrite (IH (S i) _ n j e) by done. f_equal. lia.
Qed.

Lemma name_index_None l n : n ∉ map svc_Name l → name_index 0 l ∅ !! n = None.
Proof. intros. rewrite name_index_other by done. apply lookup_empty. Qed.

Lemma unremoved_app a : ∀ i R b, unremoved i R (a ++ b) = unremoved i R a ++ unremoved (i + length a) R b.
Proof.
  induction a as [|x a IH]; intros i R b; cbn [unremoved app length]; [by rewrite Nat.add_0_r|].
  rewrite IH. replace (S i + length a)%nat with (i + S (length a))%nat by lia. by destruct (bool_decide (i ∈ R)).
Qed.

Lemma unremoved_all a : ∀ i R, (∀ k, k ∈ R → (k < i)%nat) → unremoved i R a = a.
Proof.
  induction a as [|x a IH]; intros i R HR; cbn [unremoved]; [done|].
  rewrite bool_decide_false by (intros Hi; specialize (HR i Hi); lia). f_equal. apply IH. intros k Hk. specialize (HR k Hk). lia.
Qed.

Lemma unremoved_map f g (l : list Service) : ∀ i R,
  (∀ j e, l !! j = Some e → (i + j)%nat ∈ R ↔ g e = true) →
  unremoved i R (map f l) = map f (List.filter (λ e, negb (g e)) l).
Proof.
  induction l as [|e l IH]; intros i R HR; cbn [unremoved map List.filter]; [done|].
  pose proof (HR 0%nat e eq_refl) as H0. rewrite Nat.add_0_r in H0. rewrite (IH (S i)).
  - destruct (g e); cbn [negb]; [rewrite bool_decide_true by by apply H0|rewrite bool_decide_false by (intros ?%H0; done)]; done.
  - intros j e' Hj. rewrite <- (HR (S j) e') by done. by rewrite Nat.add_succ_r.
Qed.

(** ** Proposals one at a time *)

Lemma proposed_for_snoc l p n : pv_Name p ∉ map pv_Name l →
  proposed_for (l ++ [p]) n = if bool_decide (pv_Name p = n) then Some p else proposed_for l n.
Proof.
  intros Hp. unfold proposed_for. induction l as [|q l IH]; cbn [List.find app]; [by destruct (bool_decide _)|].
  cbn [map] in Hp. apply not_elem_of_cons in Hp as [Hne Hp].
  destruct (bool_decide_reflect (pv_Name q = n)) as [Hq|]; [|by apply IH].
  rewrite bool_decide_false; [done|]. congruence.
Qed.

Lemma proposed_for_None l n : n ∉ map pv_Name l → proposed_for l n = None.
Proof.
  intros Hn. unfold proposed_for. destruct (List.find _ l) as [q|] eqn:E; [|done]. apply find_some in E as [Hin Hq%bool_decide_eq_true].
  destruct Hn. rewrite <- Hq. apply list_elem_of_fmap_2. by apply list_elem_of_In.
Qed.

Lemma updated_snoc_other l p e : pv_Name p ∉ map pv_Name l → svc_Name e ≠ pv_Name p → updated (l ++ [p]) e = updated l e.
Proof. intros Hp Hne. unfold updated. rewrite proposed_for_snoc by done. by rewrite bool_decide_false by congruence. Qed.
Lemma deleted_snoc_other l p e : pv_Name p ∉ map pv_Name l → svc_Name e ≠ pv_Name p → deleted (l ++ [p]) e = deleted l e.
Proof. intros Hp Hne. unfold deleted. rewrite proposed_for_snoc by done. by rewrite bool_decide_false by congruence. Qed.

Record merging (existing : list Service) (l : list PService) (st : merge_state) : Prop := {
  mg_index : ∀ n, n ∉ map pv_Name l → ms_index st !! n = name_index 0 existing ∅ !! n;
  mg_merged : ms_merged st = map (updated l) existing ++ map toBrokerService (List.filter (λ p, negb (is_delete p) && missing existing p) l);
  mg_removed : ∀ i, i ∈ ms_removed st ↔ ∃ e, existing !! i = Some e ∧ deleted l e = true;
  mg_warnings : ms_warnings st = warnings_spec existing l;
}.

Lemma map_updated_missing existing l p : pv_Name p ∉ map pv_Name l → pv_Name p ∉ map svc_Name existing →
  map (updated (l ++ [p])) existing = map (updated l) existing ∧ (∀ e, e ∈ existing → deleted (l ++ [p]) e = deleted l e).
Proof.
  intros Hl Hex. assert (Hne : ∀ e, e ∈ existing → svc_Name e ≠ pv_Name p).
  { intros e He E. apply Hex. rewrite <- E. by apply list_elem_of_fmap_2. }
  split; [|intros e He; by apply deleted_snoc_other; [|apply Hne]].
  apply map_ext_in. intros e He%list_elem_of_In. by apply updated_snoc_other; [|apply Hne].
Qed.

Lemma same_index (existing : list Service) i j e e' : NoDup (map svc_Name existing) →
  existing !! i = Some e → existing !! j = Some e' → svc_Name e = svc_Name e' → i = j.
Proof. intros Hnd Hi Hj E. eapply (NoDup_lookup (map svc_Name existing)); [done|rewrite list_lookup_fmap, Hi; done|]. rewrite list_lookup_fmap, Hj. cbn. by rewrite E. Qed.

Lemma map_updated_at existing l p i e : NoDup (map svc_Name existing) → pv_Name p ∉ map pv_Name l →
  existing !! i = Some e → svc_Name e = pv_Name p → is_delete p = false →
  map (updated (l ++ [p])) existing = alter (overlay p) i (map (updated l) existing).
Proof.
  intros Hnd Hl Hi He Hd. apply list_eq. intros j. destruct (decide (j = i)) as [->|Hj].
  - rewrite list_lookup_alter_eq, !list_lookup_fmap, Hi. cbn [fmap option_fmap option_map]. unfold updated. rewrite proposed_for_snoc by done.
    rewrite bool_decide_true by done. rewrite (proposed_for_None l) by by rewrite He. by rewrite Hd.
  - rewrite list_lookup_alter_ne by done. rewrite !list_lookup_fmap. destruct (existing !! j) as [e'|] eqn:Ej; [|done]. cbn. f_equal.
    apply updated_snoc_other; [done|]. rewrite <- He. intros E. destruct Hj. by apply (same_index existing j i e' e).
Qed.

Lemma map_updated_deleted existing l p : pv_Name p ∉ map pv_Name l → is_delete p = true →
  map (updated (l ++ [p])) existing = map (updated l) existing.
Proof.
  intros Hl Hd. apply map_ext. intros e. unfold updated. rewrite proposed_for_snoc by done.
  case_bool_decide as E; [|done]. rewrite Hd. by rewrite (proposed_for_None l) by by rewrite <- E.
Qed.

Lemma merging_step existing l st p : NoDup (map svc_Name existing) → pv_Name p ∉ map pv_Name l →
  merging existing l st → merging existing (l ++ [p]) (merge_one st p).
Proof.
  intros Hnd Hl [M1 M2 M3 M4].
  assert (Hl' : ∀ n, n ∉ map pv_Name (l ++ [p]) → n ∉ map pv_Name l ∧ n ≠ pv_Name p).
  { intros n. rewrite map_app, elem_of_app. cbn. rewrite list_elem_of_singleton. tauto. }
  unfold merge_one. rewrite M1 by done. fold (is_delete p).
  destruct (decide (pv_Name p ∈ map svc_Name existing)) as [Hex|Hex].
  - pose proof Hex as Hex'. apply list_elem_of_fmap in Hex' as (e & En & Hin). apply list_elem_of_lookup in Hin as [i Hi].
    rewrite (name_index_at existing 0 ∅ (pv_Name p) i e Hnd Hi (eq_sym En)). cbn [Nat.add].
    assert (Hm : missing existing p = false) by (unfold missing; by rewrite bool_decide_true).
    assert (Hf : ∀ b, List.filter (λ q, b q && missing existing q) (l ++ [p]) = List.filter (λ q, b q && missing existing q) l).
    { intros b. rewrite lfilter_app. cbn [List.filter]. by rewrite Hm, andb_false_r, app_nil_r. }
    destruct (is_delete p) eqn:Hd; split; cbn [ms_index ms_merged ms_removed ms_warnings].
    + intros n [Hn Hne]%Hl'. rewrite lookup_delete_ne by done. by apply M1.
    + rewrite Hf, map_updated_deleted by done. exact M2.
    + intros j. rewrite elem_of_union, elem_of_singleton, M3. split.
      * intros [->|(e' & Hj & Hdel)].
        { exists e. split; [done|]. unfold deleted. rewrite proposed_for_snoc by done. by rewrite bool_decide_true. }
        exists e'. split; [done|]. unfold deleted in *. rewrite proposed_for_snoc by done. by destruct (bool_decide _).
      * intros (e' & Hj & Hdel). destruct (decide (j = i)) as [->|Hne]; [by left|]. right. exists e'. split; [done|].
        rewrite deleted_snoc_other in Hdel; [done|done|]. rewrite En. intros E. destruct Hne. by apply (same_index existing j i e' e).
    + unfold warnings_spec. by rewrite Hf.
    + intros n [Hn Hne]%Hl'. by apply M1.
    + rewrite Hf, M2. rewrite alter_app_l by (rewrite length_fmap; by eapply lookup_lt_Some). f_equal. symmetry. by apply (map_updated_at existing l p i e).
    + intros j. rewrite M3. split; intros (e' & Hj & Hdel); exists e'; (split; [done|]); unfold deleted in *; rewrite proposed_for_snoc in * by done;
        destruct (bool_decide_reflect (pv_Name p = svc_Name e')) as [E|]; try done; [|congruence].
      by rewrite (proposed_for_None l) in Hdel by by rewrite <- E.
    + unfold warnings_spec. by rewrite Hf.
  - rewrite name_index_None by done. destruct (map_updated_missing existing l p Hl Hex) as [Hu Hdel].
    assert (Hm : missing existing p = true) by (unfold missing; by rewrite bool_decide_false).
    assert (Hr : ∀ i, i ∈ ms_removed st ↔ ∃ e, existing !! i = Some e ∧ deleted (l ++ [p]) e = true).
    { intros i. rewrite M3. split; intros (e & Hi & Hd); exists e; (split; [done|]); [rewrite Hdel|rewrite Hdel in Hd]; try done; by apply (list_elem_of_lookup_2 _ i). }
    destruct (is_delete p) eqn:Hd; split; cbn [ms_index ms_merged ms_removed ms_warnings]; try exact Hr.
    + intros n [Hn Hne]%Hl'. by apply M1.
    + rewrite lfilter_app. cbn [List.filter]. rewrite Hd. cbn [negb andb]. by rewrite app_nil_r, Hu.
    + unfold warnings_spec. rewrite lfilter_app, map_app. cbn [List.filter map]. rewrite Hd, Hm. cbn [andb map]. by rewrite M4.
    + intros n [Hn Hne]%Hl'. rewrite lookup_insert_ne by done. by apply M1.
    + rewrite lfilter_app, map_app. cbn [List.filter map]. rewrite Hd, Hm. cbn [andb negb map]. by rewrite M2, Hu, app_assoc.
    + unfold warnings_spec. rewrite lfilter_app, map_app. cbn [List.filter map]. rewrite Hd. cbn [andb map]. by rewrite app_nil_r, M4.
Qed.

Lemma merging_all existing l : ∀ done st, NoDup (map svc_Name existing) → NoDup (map pv_Name (done ++ l)) →
  merging existing done st → merging existing (done ++ l) (foldl merge_one st l).
Proof.
  induction l as [|p l IH]; intros dn st Hex Hnd H; cbn [foldl]; [by rewrite app_nil_r|].
  replace (dn ++ p :: l) with ((dn ++ [p]) ++ l) in * by by rewrite <- app_assoc.
  apply IH; [done|done|]. apply merging_step; [done| |done].
  rewrite !map_app in Hnd. apply NoDup_app in Hnd as [Hnd _]. apply NoDup_app in Hnd as (_ & Hd & _).
  intros Hp. apply (Hd _ Hp). cbn. by apply list_elem_of_singleton.
Qed.

Lemma merging_none existing :
  merging existing [] {| ms_index := name_index 0 existing ∅; ms_merged := existing; ms_removed := ∅; ms_warnings := [] |}.
Proof.
  split; cbn; [done| | |done].
  - rewrite app_nil_r. symmetry. by apply map_id.
  - intros i. split; [intros []%not_elem_of_empty|]. intros (e & _ & Hd). done.
Qed.

Lemma merging_result existing l st : NoDup (map svc_Name existing) → merging existing l st →
  unremoved 0 (ms_removed st) (ms_merged st) = merged_spec existing l.
Proof.
  intros Hnd [_ M2 M3 _]. rewrite M2, unremoved_app, length_fmap. unfold merged_spec. f_equal.
  - apply unremoved_map. intros j e Hj. rewrite Nat.add_0_l, M3. split; [intros (e' & Hj' & Hd)|eauto]. congruence.
  - apply unremoved_all. intros k (e & Hk & _)%M3. apply lookup_lt_Some in Hk. lia.
Qed.

(** ** What validation gives the merge *)

Lemma fails_if_None b c : fails_if b c = None ↔ b = false.
Proof. by destruct b. Qed.
Lemma failing_None {E} c (e : option E) : failing c e = None ↔ e = None.
Proof. by destruct e. Qed.

Section Validated.
Context `{UnicodeTables} (Getenv : bytes → bytes) (url_Parse : bytes → option URL).

Lemma pservice_ok_name seen s : pservice_ok Getenv seen s = None → pv_Name s ≠ [] ∧ pv_Name s ∉ seen.
Proof.
  unfold pservice_ok. intros H0. repeat match goal with H : or_else _ _ = None |- _ => apply or_else_None in H as [? ?] end.
  rewrite fails_if_None in *. repeat match goal with H : bool_decide _ = false |- _ => apply bool_decide_eq_false in H end.
  split; [|done]. unfold is_empty in *. by repeat match goal with H : bool_decide _ = false |- _ => apply bool_decide_eq_false in H end.
Qed.

Lemma pservices_ok_names l : ∀ seen, pservices_ok Getenv seen l = None →
  NoDup (map pv_Name l) ∧ (∀ p, p ∈ l → pv_Name p ≠ [] ∧ pv_Name p ∉ seen).
Proof.
  induction l as [|s l IH]; intros seen Hv; cbn [pservices_ok map] in *; [split; [constructor|by intros ? ?%elem_of_nil]|].
  apply or_else_None in Hv as [Hs%pservice_ok_name Hl]. destruct (IH _ Hl) as [Hnd Hall]. split.
  - apply NoDup_cons. split; [|done]. intros (p & E & Hp)%list_elem_of_fmap. apply (proj2 (Hall p Hp)). rewrite E. apply elem_of_cons. by left.
  - intros p [->|Hp]%elem_of_cons; [done|]. destruct (Hall p Hp) as [? Hn]. split; [done|]. intros Hin. apply Hn. apply elem_of_cons. by right.
Qed.

Lemma validated_names services slots : proposal_Validate Getenv url_Parse services slots = None →
  NoDup (map pv_Name services) ∧ (∀ p, p ∈ services → pv_Name p ≠ []).
Proof.
  unfold proposal_Validate. intros H0. repeat match goal with H : or_else _ _ = None |- _ => apply or_else_None in H as [? ?] end.
  destruct (pservices_ok_names services []) as [? Hall]; [done|]. split; [done|]. intros p Hp. by apply Hall.
Qed.
End Validated.

(** ** The theorems *)

Lemma updated_name l e : svc_Name (updated l e) = svc_Name e.
Proof.
  unfold updated. destruct (proposed_for l (svc_Name e)) as [p|] eqn:E; [|done]. apply find_some in E as [_ E%bool_decide_eq_true].
  destruct (is_delete p); [done|]. unfold overlay. destruct (pv_Auth p), (pv_Enabled p); cbn; try done; by destruct (bool_decide _).
Qed.

Lemma filter_names_NoDup {A} (f : A → bytes) (g : A → bool) (l : list A) : NoDup (map f l) → NoDup (map f (List.filter g l)).
Proof.
  induction l as [|x l IH]; cbn [map List.filter]; [done|]. intros [Hx Hnd]%NoDup_cons. destruct (g x); [|by apply IH].
  cbn [map]. apply NoDup_cons. split; [|by apply IH]. intros (y & E & [Hy _]%elem_of_lfilter)%list_elem_of_fmap. apply Hx. rewrite E. by apply list_elem_of_fmap_2.
Qed.

Lemma merged_names_NoDup existing l : NoDup (map svc_Name existing) → NoDup (map pv_Name l) → NoDup (map svc_Name (merged_spec existing l)).
Proof.
  intros He Hl. unfold merged_spec. rewrite map_app, !map_map. rewrite (map_ext _ svc_Name) by apply updated_name.
  apply NoDup_app. repeat apply conj; [by apply filter_names_NoDup| |by apply (filter_names_NoDup pv_Name)].
  intros n (e & -> & [Hin _]%elem_of_lfilter)%list_elem_of_fmap (p & E & [_ Hm]%elem_of_lfilter)%list_elem_of_fmap.
  apply andb_true_iff in Hm as [_ Hm]. unfold missing in Hm. apply negb_true_iff, bool_decide_eq_false in Hm. apply Hm.
  cbn in E. rewrite <- E. by apply list_elem_of_fmap_2.
Qed.

Lemma nonempty_names {A} (f : A → bytes) (l : list A) : (∀ x, x ∈ l → f x ≠ []) → existsb (λ x, is_empty (f x)) l = false.
Proof. intros Hl. apply existsb_false. intros x Hx. unfold is_empty. apply bool_decide_eq_false_2. by apply Hl. Qed.

(** Merging a proposal. When names are unique, [MergeServices] returns
    exactly what the reference says, service by service: an existing service
    nobody names is untouched and keeps its place, one that is set is
    overlaid, one that is deleted is gone, a set of an unknown name is
    appended in the proposal's order, a delete of one is a warning; and the
    names of the result are unique again. *)
Theorem MergeServices_exact existing proposed :
  NoDup (map svc_Name existing) → (∀ e, e ∈ existing → svc_Name e ≠ []) →
  NoDup (map pv_Name proposed) → (∀ p, p ∈ proposed → pv_Name p ≠ []) →
  MergeServices existing proposed = Some (merged_spec existing proposed, warnings_spec existing proposed) ∧
  NoDup (map svc_Name (merged_spec existing proposed)).
Proof.
  intros He He' Hp Hp'. split; [|by apply merged_names_NoDup]. unfold MergeServices. rewrite !nonempty_names by done. cbn [orb].
  pose proof (merging_all existing proposed [] _ He Hp (merging_none existing)) as M. cbn [app] in M.
  rewrite (merging_result existing proposed _ He M). by rewrite (mg_warnings _ _ _ M).
Qed.

(** Where the keys of a service come from. *)
Definition service_keys (s : Service) : list bytes := Auth_CredentialKeys (svc_Auth s) ++ map sub_Key (svc_Substitutions s).

Lemma elem_of_Service_CredentialKeys s k : k ∈ Service_CredentialKeys s ↔ k ∈ service_keys s.
Proof.
  unfold Service_CredentialKeys, service_keys. case_bool_decide as Hl.
  - destruct (svc_Substitutions s); [|done]. cbn [map]. by rewrite app_nil_r.
  - apply dedup_spec.
Qed.

Lemma pservice_ok_sets `{UnicodeTables} Getenv seen s : pservice_ok Getenv seen s = None →
  sets (pv_Action s) = negb (is_delete s) ∧ (is_delete s = false → set_ok s = None).
Proof.
  unfold pservice_ok. intros H0. repeat match goal with H : or_else _ _ = None |- _ => apply or_else_None in H as [? ?] end.
  match goal with H : fails_if (negb (is_action _)) _ = None |- _ => apply fails_if_None, negb_false_iff, orb_true_iff in H as [E|E] end;
    apply bool_decide_eq_true in E; unfold sets, is_delete, fails_if in *; rewrite E in *; split; try done.
Qed.

Lemma pservices_ok_sets `{UnicodeTables} Getenv l : ∀ seen, pservices_ok Getenv seen l = None →
  ∀ p, p ∈ l → sets (pv_Action p) = negb (is_delete p) ∧ (is_delete p = false → set_ok p = None).
Proof.
  induction l as [|s l IH]; intros seen Hv; cbn [pservices_ok] in *; [by intros ? ?%elem_of_nil|].
  apply or_else_None in Hv as [Hs Hl]. intros p [->|Hp]%elem_of_cons; [by eapply pservice_ok_sets|by eapply IH].
Qed.

(** A validated set without credentials has no substitutions either. *)
Lemma set_ok_bare `{UnicodeTables} p : set_ok p = None → pv_Auth p = None → pv_Substitutions p = [] ∧ is_Some (pv_Enabled p).
Proof.
  unfold set_ok. intros H0 Ha. rewrite Ha in H0. apply or_else_None in H0 as [H1%fails_if_None H2%fails_if_None].
  apply bool_decide_eq_false in H1. split; [|by apply not_eq_None_Some]. unfold len_Z in H2. apply Z.ltb_ge in H2. destruct (pv_Substitutions p); [done|cbn [length] in H2; lia].
Qed.

Lemma toBroker_keys p k : k ∈ service_keys (toBrokerService p) →
  sets (pv_Action p) = true → (pv_Auth p = None → pv_Substitutions p = []) → k ∈ entry_keys p.
Proof.
  unfold service_keys, entry_keys, toBrokerService. cbn [svc_Auth svc_Substitutions]. intros Hk -> Hb.
  destruct (pv_Auth p); [done|]. rewrite (Hb eq_refl) in Hk. cbn in Hk. by apply elem_of_nil in Hk.
Qed.

Lemma overlay_keys p e k : k ∈ service_keys (overlay p e) →
  sets (pv_Action p) = true → (pv_Auth p = None → pv_Substitutions p = [] ∧ is_Some (pv_Enabled p)) → k ∈ entry_keys p ∨ k ∈ service_keys e.
Proof.
  intros Hk Hs Hb. unfold overlay in Hk. destruct (pv_Auth p) as [a|] eqn:Ea.
  - assert (He : k ∈ service_keys (if bool_decide (length (pv_Substitutions p) = 0%nat) then set_subs (svc_Substitutions e) (toBrokerService p) else toBrokerService p)) by by destruct (pv_Enabled p).
    clear Hk. unfold entry_keys. rewrite Hs, Ea. case_bool_decide as Hl; unfold service_keys, toBrokerService in *; cbn in He; rewrite Ea in He; cbn in He.
    + rewrite !elem_of_app in *. tauto.
    + by left.
  - destruct (Hb eq_refl) as [_ [en Hen]]. rewrite Hen in Hk. by right.
Qed.

Lemma refs_available services slots keys p k : ValidateCredentialRefs services slots keys = None →
  p ∈ services → k ∈ entry_keys p → k ∈ available_keys slots keys.
Proof.
  unfold ValidateCredentialRefs. intros H%fails_if_None Hp Hk. apply negb_false_iff in H. rewrite forallb_forall in H.
  specialize (H p (proj1 (list_elem_of_In _ _) Hp)). rewrite forallb_forall in H.
  by apply (bool_decide_eq_true_1 _ (H k (proj1 (list_elem_of_In _ _) Hk))).
Qed.

(** An approved proposal leaves no dangling reference. When a proposal
    passes [Validate] and [ValidateCredentialRefs] at its creation and is
    merged, every credential key a merged service needs is set by the
    proposal, in the vault, or was already needed by the same service before. *)
Theorem applied_refs_resolve `{UnicodeTables} Getenv url_Parse existing services slots keys merged warnings s k :
  proposal_Validate Getenv url_Parse services slots = None →
  ValidateCredentialRefs services slots keys = None →
  NoDup (map svc_Name existing) →
  MergeServices existing services = Some (merged, warnings) →
  s ∈ merged → k ∈ Service_CredentialKeys s →
  k ∈ available_keys slots keys ∨ ∃ e, e ∈ existing ∧ svc_Name e = svc_Name s ∧ k ∈ Service_CredentialKeys e.
Proof.
  intros Hv Href He Hm Hs Hk%elem_of_Service_CredentialKeys. pose proof (validated_names _ _ _ _ Hv) as [Hp Hp'].
  assert (Hsets : ∀ p, p ∈ services → sets (pv_Action p) = negb (is_delete p) ∧ (is_delete p = false → set_ok p = None)).
  { unfold proposal_Validate in Hv. repeat match goal with H : or_else _ _ = None |- _ => apply or_else_None in H as [? ?] end. by eapply pservices_ok_sets. }
  unfold MergeServices in Hm. destruct (_ || _) eqn:Hne; [done|]. injection Hm as <- <-.
  rewrite (merging_result existing services) in Hs; [|done|by apply (merging_all existing services []); [| |apply merging_none]].
  unfold merged_spec in Hs. apply elem_of_app in Hs as [(e & -> & [Hin Hd]%elem_of_lfilter)%list_elem_of_fmap|(p & -> & [Hin Hd]%elem_of_lfilter)%list_elem_of_fmap].
  - assert (Hor : k ∈ available_keys slots keys ∨ k ∈ service_keys e).
    { unfold updated in Hk. destruct (proposed_for services (svc_Name e)) as [p|] eqn:Ep; [|by right].
      apply find_some in Ep as [Hp1%list_elem_of_In _]. destruct (Hsets p Hp1) as [Hse Hok]. destruct (is_delete p); [by right|].
      apply overlay_keys in Hk as [Hk|Hk]; [left; by eapply refs_available|by right|done|]. intros Ha. by apply set_ok_bare; [apply Hok|]. }
    destruct Hor as [Ha|Ha]; [by left|]. right. exists e. by rewrite updated_name, elem_of_Service_CredentialKeys.
  - apply andb_true_iff in Hd as [Hd _]. apply negb_true_iff in Hd. destruct (Hsets p Hin) as [Hse Hok]. rewrite Hd in Hse.
    left. apply (refs_available services slots keys p); [done|done|]. apply toBroker_keys; [done|done|]. intros Ha. by apply set_ok_bare; [apply Hok|].
Qed.

(** A full replacement leaves no fixed query behind: a proposal has no field
    that could carry it. *)
Lemma overlay_clears_fixed_query p e a : pv_Auth p = Some a → svc_FixedQuery (overlay p e) = None.
Proof. intros Ha. unfold overlay. rewrite Ha. destruct (pv_Enabled p); by destruct (bool_decide _). Qed.

(** ** A proposal that does everything *)

Definition proposed_service (action name host : bytes) (enabled : option bool) (a : option Auth) : PService :=
  {| pv_Action := action; pv_Name := name; pv_Host := host; pv_Path := []; pv_Port := None; pv_Enabled := enabled; pv_Auth := a;
     pv_Substitutions := [] |}.
Definition bearer_auth (key : bytes) : Auth :=
  {| auth_Type := #"bearer"; auth_Token := key; auth_Username := []; auth_Password := []; auth_Key := []; auth_Header := []; auth_Prefix := [];
     auth_Headers := [] |}.
Definition plain_service (name host key : bytes) : Service :=
  {| svc_Name := name; svc_Host := host; svc_Path := []; svc_Port := None; svc_Enabled := None; svc_Auth := bearer_auth key;
     svc_Substitutions := []; svc_FixedQuery := None |}.
Definition set_slot (key : bytes) : CredentialSlot :=
  {| sl_Action := ActionSet; sl_Key := key; sl_Type := []; sl_Description := []; sl_Obtain := []; sl_ObtainInstructions := []; sl_Value := None;
     sl_HasValue := false; sl_OAuth := None |}.

Definition merge_existing : list Service :=
  [plain_service #"github" #"api.github.com" #"GITHUB_TOKEN"; plain_service #"stripe" #"api.stripe.com" #"STRIPE_KEY";
   plain_service #"slack" #"slack.com" #"SLACK_TOKEN"].
Definition merge_proposed : list PService :=
  [proposed_service ActionSet #"openai" #"api.openai.com" None (Some (bearer_auth #"OPENAI_KEY"));
   proposed_service ActionDelete #"stripe" #"api.stripe.com" None None;
   proposed_service ActionSet #"slack" #"slack.com" (Some false) None;
   proposed_service ActionDelete #"gone" #"gone.example.com" None None].

Lemma merge_sample_names :
  NoDup (map svc_Name merge_existing) ∧ (∀ e, e ∈ merge_existing → svc_Name e ≠ []) ∧
  NoDup (map pv_Name merge_proposed) ∧ (∀ p, p ∈ merge_proposed → pv_Name p ≠ []).
Proof.
  repeat apply conj; try (apply Forall_forall); by apply (bool_decide_unpack _); vm_compute.
Qed.

Lemma merge_sample_result :
  MergeServices merge_existing merge_proposed =
  Some ([plain_service #"github" #"api.github.com" #"GITHUB_TOKEN"; set_enabled (Some false) (plain_service #"slack" #"slack.com" #"SLACK_TOKEN");
         plain_service #"openai" #"api.openai.com" #"OPENAI_KEY"], [ #"gone"]).
Proof. vm_compute. reflexivity. Qed.

Lemma merge_sample_valid :
  @proposal_Validate latin1_tables (λ _, []) (λ _, None) merge_proposed [set_slot #"OPENAI_KEY"] = None ∧
  ValidateCredentialRefs merge_proposed [set_slot #"OPENAI_KEY"] [] = None.
Proof. split; vm_compute; reflexivity. Qed.

Lemma MergeServices_exact_witness :
  map svc_Name (merged_spec merge_existing merge_proposed) = [ #"github"; #"slack"; #"openai"] ∧
  warnings_spec merge_existing merge_proposed = [ #"gone"].
Proof.
  destruct merge_sample_names as (He & He' & Hp & Hp').
  destruct (MergeServices_exact merge_existing merge_proposed He He' Hp Hp') as [E _].
  rewrite merge_sample_result in E. split.
  - exact (eq_sym (f_equal (λ r, map svc_Name (fst (default ([], []) r))) E)).
  - exact (eq_sym (f_equal (λ r, snd (default ([], []) r)) E)).
Defined.

Lemma applied_refs_resolve_witness :
  #"OPENAI_KEY" ∈ available_keys [set_slot #"OPENAI_KEY"] [] ∨
  ∃ e, e ∈ merge_existing ∧ svc_Name e = #"openai" ∧ #"OPENAI_KEY" ∈ Service_CredentialKeys e.
Proof.
  destruct merge_sample_valid as [Hv Hr]. destruct merge_sample_names as [He _].
  apply (@applied_refs_resolve latin1_tables (λ _, []) (λ _, None) merge_existing merge_proposed [set_slot #"OPENAI_KEY"] [] _ _
    (plain_service #"openai" #"api.openai.com" #"OPENAI_KEY") _ Hv Hr He merge_sample_result).
  - rewrite !elem_of_cons. right; right; left; reflexivity.
  - apply elem_of_Service_CredentialKeys. apply elem_of_cons. left; reflexivity.
Defined.
