(* ===== verification/BrokerCore.v ===== *)
(** * What the HTTP proxy forwards ([internal/brokercore/brokercore.go])

    The headers of the outbound request, the hosts a request may name and the
    response a failed injection gets.  A header map that is ranged over is the
    list of its entries in the order of the iteration; one that is written is a
    [gmap]. *)

From S2P Require Import Prelude GoString GoUrl.

(** ** Headers by name *)

Definition HopByHopHeaders : list bytes :=
  [ #"Connection"; #"Keep-Alive"; #"Proxy-Authenticate"; #"Proxy-Authorization"; #"Proxy-Connection"; #"Te"; #"Trailer"; #"Transfer-Encoding";
    #"Upgrade"].
Definition IsHopByHop (name : bytes) : bool := bool_decide (CanonicalHeaderKey name ∈ HopByHopHeaders).

Definition brokerScopedRequestHeaders : list bytes := [ #"X-Vault"; #"Proxy-Authorization"].
Definition IsBrokerScopedRequestHeader (name : bytes) : bool := bool_decide (CanonicalHeaderKey name ∈ brokerScopedRequestHeaders).

Definition ShouldStripResponseHeader `{UnicodeTables} (name : bytes) : bool := IsHopByHop name || EqualFold name #"Set-Cookie".

(** ** Hosts *)

(** The characters [IsValidHost] refuses. *)
Definition unsafe_host_rune (c : Z) : bool := bool_decide (c ∈ [64; 63; 35; 47; 92; 32; 37]) || (c <? 32) || (c =? 127).

Definition IsValidHost (h : bytes) : bool :=
  if bool_decide (h = []) || (253 <? Z.of_nat (length h)) then false
  else if existsb unsafe_host_rune (runes h) then false
  else negb (HasPrefix h #".") && negb (HasSuffix h #".").

(** ** Header maps *)

Abbreviation Header := (gmap bytes (list bytes)).

(** [Header.Add] and [Header.Set] *)
Definition header_Add (k v : bytes) (h : Header) : Header :=
  let k := CanonicalHeaderKey k in <[k := default [] (h !! k) ++ [v]]> h.
Definition header_Set (k v : bytes) (h : Header) : Header := <[CanonicalHeaderKey k := [v]]> h.

(** [Header.Values] on the entries of a map. *)
Definition header_Values (h : list (bytes * list bytes)) (k : bytes) : list bytes :=
  match List.find (λ '(k', _), bool_decide (k' = CanonicalHeaderKey k)) h with Some (_, vv) => vv | None => [] end.

Section Injection.
Context `{UnicodeTables}.

(** The fields the client's Connection headers name. *)
Definition connection_fields (src : list (bytes * list bytes)) : list bytes :=
  flat_map (λ c, List.filter (λ f, negb (bool_decide (f = []))) (map TrimSpace (Split c x2c))) (header_Values src #"Connection").

(** [strip] *)
Definition strip_set (src : list (bytes * list bytes)) (injected : list (bytes * bytes)) (extraStrip : list bytes) : list bytes :=
  map CanonicalHeaderKey (extraStrip ++ map fst injected ++ connection_fields src).

Definition forward_entry (strip : list bytes) (dst : Header) (e : bytes * list bytes) : Header :=
  let '(k, vv) := e in
  let ck := CanonicalHeaderKey k in
  if IsHopByHop ck || IsBrokerScopedRequestHeader ck || bool_decide (ck ∈ strip) then dst
  else foldl (λ dst v, header_Add ck v dst) dst vv.

Definition ApplyInjection (src : list (bytes * list bytes)) (dst : Header) (injected : list (bytes * bytes)) (extraStrip : list bytes) : Header :=
  foldl (λ dst '(k, v), header_Set k v dst) (foldl (forward_entry (strip_set src injected extraStrip)) dst src) injected.
End Injection.

(** ** Errors of an injection *)

Inductive sentinel := ErrServiceNotFound | ErrServiceDisabled | ErrOAuthNotConnected | ErrOAuthRefreshFailed | ErrCredentialMissing.
#[global] Instance sentinel_eq : EqDecision sentinel.
Proof. solve_decision. Defined.

(** The sentinels [errors.Is] finds in an error's chain. *)
Abbreviation chain := (list sentinel).
Definition errors_Is (e : chain) (target : sentinel) : bool := bool_decide (target ∈ e).

(** [WriteInjectError]: the status and code of the response. *)
Definition WriteInjectError (e : chain) : Z * bytes :=
  if errors_Is e ErrServiceNotFound then (403, #"forbidden")
  else if errors_Is e ErrServiceDisabled then (403, #"service_disabled")
  else if errors_Is e ErrOAuthNotConnected then (502, #"oauth_not_connected")
  else if errors_Is e ErrOAuthRefreshFailed then (502, #"oauth_refresh_failed")
  else if errors_Is e ErrCredentialMissing then (502, #"credential_not_found")
  else (500, #"internal").

(** ** Canonical names *)

Lemma token_byte_upper b : token_byte b = true → token_byte (byte_of (ascii_upper (bval b))) = true.
Proof. by destruct b. Qed.
Lemma token_byte_lower b : token_byte b = true → token_byte (byte_of (ascii_lower (bval b))) = true.
Proof. by destruct b. Qed.

Lemma canonical_words_token s : ∀ upper, forallb token_byte s = true → forallb token_byte (canonical_words upper s) = true.
Proof.
  induction s as [|b s IH]; intros upper; [done|]. cbn [forallb canonical_words]. intros [Hb Hs]%andb_true_iff.
  apply andb_true_iff. split; [|by apply IH]. destruct upper; [by apply token_byte_upper|by apply token_byte_lower].
Qed.

Lemma CanonicalHeaderKey_idem s : CanonicalHeaderKey (CanonicalHeaderKey s) = CanonicalHeaderKey s.
Proof.
  unfold CanonicalHeaderKey. destruct (forallb token_byte s) eqn:E; [|by rewrite E].
  rewrite canonical_words_token by done. apply canonical_words_idem.
Qed.

Lemma IsHopByHop_canonical s : IsHopByHop (CanonicalHeaderKey s) = IsHopByHop s.
Proof. unfold IsHopByHop. by rewrite CanonicalHeaderKey_idem. Qed.
Lemma IsBrokerScoped_canonical s : IsBrokerScopedRequestHeader (CanonicalHeaderKey s) = IsBrokerScopedRequestHeader s.
Proof. unfold IsBrokerScopedRequestHeader. by rewrite CanonicalHeaderKey_idem. Qed.

(** ** The outbound headers *)

(** The client's values for a name, in the order of the iteration. *)
Definition client_values (src : list (bytes * list bytes)) (name : bytes) : list bytes :=
  flat_map (λ '(k, vv), if bool_decide (CanonicalHeaderKey k = name) then vv else []) src.
(** The last value injected under a name. *)
Definition injected_value (injected : list (bytes * bytes)) (name : bytes) : option bytes :=
  snd <$> List.find (λ '(k, _), bool_decide (CanonicalHeaderKey k = name)) (rev injected).

Definition append_values (old : option (list bytes)) (vv : list bytes) : option (list bytes) :=
  match vv with [] => old | _ => Some (default [] old ++ vv) end.

Lemma append_values_app o a b : append_values (append_values o a) b = append_values o (a ++ b).
Proof.
  destruct a as [|x a]; [done|]. destruct b as [|y b]; cbn [append_values app]; [by rewrite app_nil_r|].
  cbn [from_option]. unfold id at 1. by rewrite <- app_assoc.
Qed.

Lemma foldl_Add k vv name : ∀ dst,
  foldl (λ dst v, header_Add k v dst) dst vv !! name =
  if bool_decide (CanonicalHeaderKey k = name) then append_values (dst !! name) vv else dst !! name.
Proof.
  induction vv as [|v vv IH]; intros dst; cbn [foldl]; [by case_bool_decide|]. rewrite IH. unfold header_Add. case_bool_decide as E.
  - subst name. rewrite lookup_insert_eq. change (Some (default [] (dst !! CanonicalHeaderKey k) ++ [v])) with (append_values (dst !! CanonicalHeaderKey k) [v]).
    by rewrite append_values_app.
  - by rewrite lookup_insert_ne.
Qed.

Lemma foldl_forward strip src name : ∀ dst,
  foldl (forward_entry strip) dst src !! name =
  if IsHopByHop name || IsBrokerScopedRequestHeader name || bool_decide (name ∈ strip) then dst !! name
  else append_values (dst !! name) (client_values src name).
Proof.
  induction src as [|[k vv] src IH]; intros dst; cbn [foldl]; [by destruct (_ || _)|]. rewrite IH. unfold client_values. cbn [flat_map].
  fold (client_values src name). cbn [forward_entry]. destruct (decide (CanonicalHeaderKey k = name)) as [E|E].
  - rewrite (bool_decide_true _ E), E. destruct (_ || _ || _) eqn:Hs; [done|]. rewrite foldl_Add.
    assert (CanonicalHeaderKey name = name) as En by (rewrite <- E; apply CanonicalHeaderKey_idem).
    by rewrite (bool_decide_true _ En), append_values_app.
  - rewrite (bool_decide_false _ E). cbn [app].
    assert (Hsame : ∀ d : Header, foldl (λ dst v, header_Add (CanonicalHeaderKey k) v dst) d vv !! name = d !! name).
    { intros d. rewrite foldl_Add, CanonicalHeaderKey_idem. by rewrite bool_decide_false. }
    by destruct (IsHopByHop (CanonicalHeaderKey k) || _ || _); rewrite ?Hsame.
Qed.

Lemma foldl_Set injected name : ∀ dst,
  foldl (λ dst '(k, v), header_Set k v dst) dst injected !! name =
  match injected_value injected name with Some v => Some [v] | None => dst !! name end.
Proof.
  induction injected as [|[k v] l IH] using rev_ind; intros dst; [done|]. rewrite foldl_app. cbn [foldl].
  unfold injected_value. rewrite rev_app_distr. cbn [rev app List.find]. unfold header_Set at 1. case_bool_decide as E; cbn.
  - rewrite <- E. apply lookup_insert_eq.
  - rewrite lookup_insert_ne by done. apply IH.
Qed.

(** The outbound headers, exactly. Every name the service injects carries
    the injected value alone, whatever the client sent; hop-by-hop names, the
    broker's own, the names the caller strips and those the client's Connection
    headers list are not forwarded; every other name carries the client's values
    in order. *)
Theorem ApplyInjection_exact `{UnicodeTables} src dst injected extraStrip name :
  ApplyInjection src dst injected extraStrip !! name =
  match injected_value injected name with
  | Some v => Some [v]
  | None =>
      if IsHopByHop name || IsBrokerScopedRequestHeader name || bool_decide (name ∈ strip_set src injected extraStrip)
      then dst !! name else append_values (dst !! name) (client_values src name)
  end.
Proof. unfold ApplyInjection. rewrite foldl_Set. by rewrite foldl_forward. Qed.
