(* ===== verification/BrokerInject.v ===== *)
(** * Credential injection ([internal/brokercore/credential.go])

    [Inject] decides which service a request is for and reads its credentials.
    What it reads (the store, decryption, the external and dynamic resolvers, the
    OAuth endpoint) are arguments.  Within one call a key is read at most once:
    its value is memoized and a failed read ends the call; so the answers of the
    store are functions of the key. *)

From S2P Require Import Prelude GoString GoNet GoUrl BrokerMatch BrokerHost BrokerAuth BrokerConfig BrokerCore.

Definition PolicyPassthrough : bytes := #"passthrough".
Definition PolicyDeny : bytes := #"deny".
Definition IsValidUnmatchedHostPolicy (p : bytes) : bool := bool_decide (p = PolicyPassthrough) || bool_decide (p = PolicyDeny).

Record ResolvedSubstitution := { rs_Placeholder : bytes; rs_Value : bytes; rs_In : list bytes }.

Record InjectResult := {
  ir_Headers : option (list (bytes * bytes));
  ir_MatchedName : bytes;
  ir_MatchedHost : bytes;
  ir_MatchedPath : bytes;
  ir_MatchedPort : option Z;
  ir_FixedQuery : option (list (bytes * bytes));
  ir_CredentialKeys : list bytes;
  ir_Substitutions : list ResolvedSubstitution;
  ir_Passthrough : bool;
}.

(** What [GetBrokerConfig] answers: [sql.ErrNoRows] and a nil row are one. *)
Inductive config_row := ConfigError | NoRow | ConfigRow (ServicesJSON : bytes).

Record Credential := { cr_Ciphertext : bytes; cr_Nonce : bytes; cr_Type : bytes }.

Record CredentialOAuth := {
  co_TokenURL : bytes;
  co_ClientID : bytes;
  co_ClientSecret : bytes * bytes;                         (* ciphertext and nonce *)
  co_RefreshToken : bytes * bytes;
  co_Scopes : bytes;
  co_ScopeSeparator : bytes;
  co_TokenAuthMethod : bytes;
  co_TokenExpiresAt : option Z;
}.

Record RefreshConfig := {
  rf_TokenURL : bytes;
  rf_ClientID : bytes;
  rf_ClientSecret : bytes;
  rf_RefreshToken : bytes;
  rf_Scopes : bytes;
  rf_ScopeSeparator : bytes;
  rf_TokenAuthMethod : bytes;
}.

Record Token := { tok_AccessToken : bytes; tok_RefreshToken : bytes; tok_ExpiresAt : option Z }.

Record RefreshResult := { rr_AccessToken : bytes; rr_Refreshed : bool; rr_Err : option chain }.
Definition refresh_error (e : chain) : RefreshResult := {| rr_AccessToken := []; rr_Refreshed := false; rr_Err := Some e |}.

Definition oauthRefreshBuffer : Z := 5 * Minute.

(** [fmt.Errorf] with [%w: %v]: the cause is text only, the sentinel is what
    [errors.Is] finds. *)
Definition wrap_text (s : sentinel) (cause : chain) : chain := [s].

Section Inject.
Context `{UnicodeTables}.
Context (unmarshal_services : bytes → option (list Service)).
Context (GetBrokerConfig : config_row) (UnmatchedHostPolicy : option bytes).
Context (GetCredential : bytes → option Credential) (Decrypt : bytes → bytes → option bytes) (Encrypt : bytes → option (bytes * bytes)).
(** [None]: no resolver is configured. *)
Context (RequestSecrets : option (result chain (gmap bytes bytes * bool))).
Context (Dynamic : option (bytes → result chain (option bytes))).
(** The OAuth store ([None] if it or the refresher is not configured), the clock
    and the token endpoint. *)
Context (GetCredentialOAuth : option (bytes → option CredentialOAuth)) (now : Z) (oauth_Refresh : RefreshConfig → result chain Token).
Context (UpdateCredentialOAuthTokens : bytes → bytes * bytes → option (bytes * bytes) → option Z → bool).
(** The result of a refresh of the key already in flight, if there is one. *)
Context (in_flight : bytes → option RefreshResult).

(** ** OAuth *)

(** The function [Refresher.Do] runs. *)
Definition refresh_once (key : bytes) (cfg : CredentialOAuth) : RefreshResult :=
  match Decrypt (fst (co_RefreshToken cfg)) (snd (co_RefreshToken cfg)) with
  | None => refresh_error [ErrOAuthRefreshFailed]
  | Some refreshToken =>
      match (if bool_decide (fst (co_ClientSecret cfg) = []) then Some []
             else Decrypt (fst (co_ClientSecret cfg)) (snd (co_ClientSecret cfg))) with
      | None => refresh_error [ErrOAuthRefreshFailed]
      | Some clientSecret =>
          match oauth_Refresh {| rf_TokenURL := co_TokenURL cfg; rf_ClientID := co_ClientID cfg; rf_ClientSecret := clientSecret;
                                 rf_RefreshToken := refreshToken; rf_Scopes := co_Scopes cfg; rf_ScopeSeparator := co_ScopeSeparator cfg;
                                 rf_TokenAuthMethod := co_TokenAuthMethod cfg |} with
          | Err e => refresh_error (wrap_text ErrOAuthRefreshFailed e)
          | Ok tok =>
              match Encrypt (tok_AccessToken tok) with
              | None => refresh_error [ErrOAuthRefreshFailed]
              | Some access =>
                  match (if bool_decide (tok_RefreshToken tok = []) then Some None else Some <$> Encrypt (tok_RefreshToken tok)) with
                  | None => refresh_error [ErrOAuthRefreshFailed]
                  | Some refresh =>
                      if UpdateCredentialOAuthTokens key access refresh (tok_ExpiresAt tok)
                      then {| rr_AccessToken := tok_AccessToken tok; rr_Refreshed := true; rr_Err := None |}
                      else refresh_error [ErrOAuthRefreshFailed]
                  end
              end
          end
      end
  end.

Definition maybeRefreshOAuth (lookup : bytes → option CredentialOAuth) (key currentToken : bytes) : result chain bytes :=
  match lookup key with
  | None => Ok currentToken
  | Some cfg =>
      match co_TokenExpiresAt cfg with
      | None => Ok currentToken
      | Some expires =>
          if oauthRefreshBuffer <? time_Sub expires now then Ok currentToken
          else if bool_decide (fst (co_RefreshToken cfg) = []) then Ok currentToken
          else
            let r := match in_flight key with Some r => r | None => refresh_once key cfg end in
            match rr_Err r with
            | Some e => Err e
            | None => if rr_Refreshed r then Ok (rr_AccessToken r) else Ok currentToken
            end
      end
  end.

(** ** One credential *)

Definition stored_credential (key : bytes) : result chain bytes :=
  match GetCredential key with
  | None =>
      match Dynamic with
      | Some resolve => val ← resolve key; match val with Some v => Ok v | None => Err [] end
      | None => Err []
      end
  | Some cred =>
      match Decrypt (cr_Ciphertext cred) (cr_Nonce cred) with
      | None => Err []
      | Some s =>
          if bool_decide (cr_Type cred = #"oauth") && bool_decide (s = []) then Err [ErrOAuthNotConnected]
          else if bool_decide (cr_Type cred = #"oauth")
          then match GetCredentialOAuth with Some lookup => maybeRefreshOAuth lookup key s | None => Ok s end
          else Ok s
      end
  end.

(** [getCredential]: with external secrets there is no fallback. *)
Definition getCredential (fresh : gmap bytes bytes) (external : bool) (key : bytes) : result chain bytes :=
  if external then
    match fresh !! key with
    | Some v => if bool_decide (v = []) then Err [ErrCredentialMissing] else Ok v
    | None => Err [ErrCredentialMissing]
    end
  else stored_credential key.

(** ** The services of a request *)

Definition split_inline (s : Service) : Service :=
  let '(host, path, port) := SplitInlineHost (svc_Host s) (svc_Path s) in
  {| svc_Name := svc_Name s; svc_Host := host; svc_Path := path; svc_Port := port; svc_Enabled := svc_Enabled s; svc_Auth := svc_Auth s;
     svc_Substitutions := svc_Substitutions s; svc_FixedQuery := svc_FixedQuery s |}.

(** [AssignSlugNames] names the services in place; [DisambiguateSlug] always
    ends ([DisambiguateSlug_total]), so the default is not used. *)
Definition load_services : result chain (list Service) :=
  match GetBrokerConfig with
  | ConfigError => Err [ErrServiceNotFound]
  | NoRow => Ok []
  | ConfigRow json =>
      if bool_decide (json = []) then Ok []
      else match unmarshal_services json with
           | None => Err []
           | Some l => let l := map split_inline l in Ok (default l (AssignSlugNames l))
           end
  end.

Definition match_host (targetHost : bytes) : bytes := match SplitHostPort targetHost with Some (h, _) => h | None => targetHost end.
Definition match_path (targetPath : bytes) : bytes := if bool_decide (targetPath = []) then #"/" else targetPath.

(** ** The result *)

Definition passthrough_result : InjectResult :=
  {| ir_Headers := None; ir_MatchedName := []; ir_MatchedHost := []; ir_MatchedPath := []; ir_MatchedPort := None; ir_FixedQuery := None;
     ir_CredentialKeys := []; ir_Substitutions := []; ir_Passthrough := true |}.
(** The metadata of a matched service, with what was resolved so far. *)
Definition matched_result (s : Service) (headers : option (list (bytes * bytes))) (subs : list ResolvedSubstitution) : InjectResult :=
  {| ir_Headers := headers; ir_MatchedName := svc_Name s; ir_MatchedHost := svc_Host s; ir_MatchedPath := svc_Path s; ir_MatchedPort := svc_Port s;
     ir_FixedQuery := svc_FixedQuery s; ir_CredentialKeys := Service_CredentialKeys s; ir_Substitutions := subs; ir_Passthrough := false |}.

Fixpoint resolve_subs (get : bytes → result chain bytes) (l : list Substitution) : result chain (list ResolvedSubstitution) :=
  match l with
  | [] => Ok []
  | sub :: l' =>
      val ← get (sub_Key sub); rest ← resolve_subs get l';
      Ok ({| rs_Placeholder := sub_Placeholder sub; rs_Value := val; rs_In := NormalizedIn sub |} :: rest)
  end.

(** The part of [Inject] after the match. *)
Definition attach (get : bytes → result chain bytes) (s : Service) : option InjectResult * option chain :=
  match resolve_subs get (svc_Substitutions s) with
  | Err e => (Some (matched_result s None []), Some (wrap_text ErrCredentialMissing e))
  | Ok subs =>
      if bool_decide (auth_Type (svc_Auth s) = #"passthrough") then (Some (matched_result s None subs), None)
      else match Resolve get (svc_Auth s) with
           | Err (LookupErr e) => (Some (matched_result s None []), Some (wrap_text ErrCredentialMissing e))
           | Err (UnsupportedAuth _) => (Some (matched_result s None []), Some (wrap_text ErrCredentialMissing []))
           | Ok headers => (Some (matched_result s headers subs), None)
           end
  end.

(** [Inject]: its result and its error. *)
Definition Inject (targetHost : bytes) (targetPort : Z) (targetPath : bytes) : option InjectResult * option chain :=
  match load_services with
  | Err e => (None, Some e)
  | Ok services =>
      match ValidateFixedQueryBindings services with
      | Some _ => (None, Some [ErrServiceNotFound])
      | None =>
          match fst (MatchService (match_host targetHost) targetPort (match_path targetPath) services) with
          | None =>
              match UnmatchedHostPolicy with
              | None => (None, Some [ErrServiceNotFound])
              | Some policy => if bool_decide (policy = PolicyDeny) then (None, Some [ErrServiceNotFound]) else (Some passthrough_result, None)
              end
          | Some s =>
              match ValidateFixedQuery s with
              | Some _ => (None, Some [ErrServiceNotFound])
              | None =>
                  if negb (IsEnabled s) then (None, Some [ErrServiceDisabled])
                  else match RequestSecrets with
                       | None => attach (getCredential ∅ false) s
                       | Some (Err _) => (Some (matched_result s None []), Some [ErrCredentialMissing])
                       | Some (Ok (fresh, external)) => attach (getCredential fresh external) s
                       end
              end
          end
      end
  end.
End Inject.

(** ** What an injection reads *)

Lemma resolve_subs_ext get get' l : (∀ k, k ∈ map sub_Key l → get k = get' k) → resolve_subs get l = resolve_subs get' l.
Proof.
  induction l as [|s l IH]; intros Hk; cbn [resolve_subs]; [done|]. cbn [map] in Hk.
  rewrite (Hk (sub_Key s)) by (apply elem_of_cons; by left). rewrite IH; [done|]. intros k Hin. apply Hk. apply elem_of_cons. by right.
Qed.

Lemma elem_of_declared s k : k ∈ Service_CredentialKeys s ↔ k ∈ Auth_CredentialKeys (svc_Auth s) ∨ k ∈ map sub_Key (svc_Substitutions s).
Proof.
  unfold Service_CredentialKeys. case_bool_decide as Hl.
  - destruct (svc_Substitutions s); [|done]. cbn [map]. rewrite elem_of_nil. tauto.
  - by rewrite dedup_spec, elem_of_app.
Qed.

Lemma attach_ext get get' s : (∀ k, k ∈ Service_CredentialKeys s → get k = get' k) → attach get s = attach get' s.
Proof.
  intros Hk. unfold attach. rewrite (resolve_subs_ext get get') by (intros k ?; apply Hk, elem_of_declared; by right).
  rewrite (Resolve_ext get get'); [done|]. apply Forall_forall. intros k ?. apply Hk, elem_of_declared. by left.
Qed.

(** Whatever becomes of a matched service, its declared keys are in the result. *)
Lemma attach_keys get s : ∃ r, fst (attach get s) = Some r ∧ ir_CredentialKeys r = Service_CredentialKeys s.
Proof. unfold attach. destruct (resolve_subs get _); [|by eexists]. case_bool_decide; [by eexists|]. destruct (Resolve get _) as [h|[e|t]]; by eexists. Qed.

Lemma resolve_subs_values get l subs : resolve_subs get l = Ok subs →
  Forall2 (λ sub r, rs_Placeholder r = sub_Placeholder sub ∧ get (sub_Key sub) = Ok (rs_Value r) ∧ rs_In r = NormalizedIn sub) l subs.
Proof.
  revert subs. induction l as [|s l IH]; intros subs Hr; cbn [resolve_subs] in Hr; [by injection Hr as <-|].
  apply result_bind_Ok in Hr as (v & Hv & Hr). apply result_bind_Ok in Hr as (rest & Hrest & [= <-]). constructor; [done|by apply IH].
Qed.

(** A failed attempt shows its service and its keys, and no resolved value. *)
Definition no_secrets (r : option InjectResult) : Prop := ∀ r', r = Some r' → ir_Headers r' = None ∧ ir_Substitutions r' = [].

Lemma attach_error get s r e : attach get s = (r, Some e) → no_secrets r ∧ e = [ErrCredentialMissing].
Proof.
  unfold attach. destruct (resolve_subs get _); [case_bool_decide; [done|]; destruct (Resolve get _) as [h|[e'|t]]; [done|..]|]; intros [= <- <-]; (split; [|done]); by intros ? [= <-].
Qed.

Lemma attach_ok get s r : attach get s = (r, None) → ∃ headers subs,
  r = Some (matched_result s headers subs) ∧
  Forall2 (λ sub r, rs_Placeholder r = sub_Placeholder sub ∧ get (sub_Key sub) = Ok (rs_Value r) ∧ rs_In r = NormalizedIn sub) (svc_Substitutions s) subs ∧
  (if bool_decide (auth_Type (svc_Auth s) = #"passthrough") then headers = None else Resolve get (svc_Auth s) = Ok headers).
Proof.
  unfold attach. destruct (resolve_subs get _) as [subs|] eqn:Es; [|done]. apply resolve_subs_values in Es.
  case_bool_decide; [intros [= <-]; by exists None, subs|]. destruct (Resolve get _) as [h|[e|t]] eqn:Er; [|done..]. intros [= <-]. by exists h, subs.
Qed.

(** ** The theorems *)

Section InjectFacts.
Context `{UnicodeTables}.
Context (unmarshal_services : bytes → option (list Service)).
Context (config : config_row) (policy : option bytes).
Context (Decrypt : bytes → bytes → option bytes) (Encrypt : bytes → option (bytes * bytes)).
Context (secrets : option (result chain (gmap bytes bytes * bool))) (Dynamic : option (bytes → result chain (option bytes))).
Context (oauth : option (bytes → option CredentialOAuth)) (now : Z) (oauth_Refresh : RefreshConfig → result chain Token).
Context (update : bytes → bytes * bytes → option (bytes * bytes) → option Z → bool) (in_flight : bytes → option RefreshResult).

Abbreviation services_of := (load_services unmarshal_services config).
Abbreviation inject store := (Inject unmarshal_services config policy store Decrypt Encrypt secrets Dynamic oauth now oauth_Refresh update in_flight).
Abbreviation lookup store fresh external := (getCredential store Decrypt Encrypt Dynamic oauth now oauth_Refresh update in_flight fresh external).

(** The request's service: the best match of a vault whose fixed queries do not
    collide, enabled and with a valid fixed query. *)
Definition serves (host : bytes) (port : Z) (path : bytes) (s : Service) : Prop := ∃ services,
  services_of = Ok services ∧ ValidateFixedQueryBindings services = None ∧
  fst (MatchService (match_host host) port (match_path path) services) = Some s ∧ ValidateFixedQuery s = None ∧ IsEnabled s = true.
Definition request_secrets (fresh : gmap bytes bytes) (external : bool) : Prop :=
  secrets = Some (Ok (fresh, external)) ∨ (secrets = None ∧ fresh = ∅ ∧ external = false).

(** The outcomes of a call, over every store of credentials. *)
Lemma Inject_cases host port path :
  (∃ e, (∀ store, inject store host port path = (None, Some e)) ∧ (e = [ErrServiceNotFound] ∨ e = [ErrServiceDisabled] ∨ e = [])) ∨
  ((∀ store, inject store host port path = (Some passthrough_result, None)) ∧ ∃ services p,
     services_of = Ok services ∧ policy = Some p ∧ p ≠ PolicyDeny ∧ ∀ s, s ∈ services → ¬ service_matches (match_host host) port (match_path path) s) ∨
  (∃ s, serves host port path s ∧
     ((∀ store, inject store host port path = (Some (matched_result s None []), Some [ErrCredentialMissing])) ∨
      ∃ fresh external, request_secrets fresh external ∧ ∀ store, inject store host port path = attach (lookup store fresh external) s)).
Proof.
  unfold Inject. destruct (load_services unmarshal_services config) as [services|e] eqn:El.
  2:{ left. eexists. split; [done|]. unfold load_services in El. destruct config; try done; [by injection El as <-; left|]. case_bool_decide; [done|].
      destruct (unmarshal_services ServicesJSON); [done|]. injection El as <-. by right; right. }
  destruct (ValidateFixedQueryBindings services) eqn:Eb; [left; eexists; split; [done|by left]|].
  pose proof (MatchService_selected (match_host host) port (match_path path) services) as Hsel.
  destruct (fst (MatchService _ _ _ services)) as [s|] eqn:Em.
  - destruct (ValidateFixedQuery s) eqn:Eq; [left; eexists; split; [done|by left]|].
    destruct (IsEnabled s) eqn:Ee; cbn [negb]; [|left; eexists; split; [done|by right; left]].
    right. right. exists s. split; [by exists services|]. unfold request_secrets. destruct secrets as [[[fresh external]|e]|] eqn:Esec.
    + right. exists fresh, external. split; [by left|done].
    + by left.
    + right. exists ∅, false. split; [by right|done].
  - destruct policy as [p|] eqn:Ep; [|left; eexists; split; [done|by left]]. case_bool_decide as Ed; [left; eexists; split; [done|by left]|].
    right. left. split; [done|]. by exists services, p.
Qed.

(** What a successful injection is. Either no service admits the request,
    the vault's policy lets it pass and nothing is attached; or it goes to the
    vault's best match, which is enabled and whose fixed query holds, and what is
    attached is exactly that service's credential headers and substitutions, each
    value the one the key it names resolved to. *)
Theorem Inject_sound store host port path r : inject store host port path = (Some r, None) →
  (r = passthrough_result ∧ ∃ services p,
     services_of = Ok services ∧ policy = Some p ∧ p ≠ PolicyDeny ∧ ∀ s, s ∈ services → ¬ service_matches (match_host host) port (match_path path) s) ∨
  (∃ s fresh external headers subs, serves host port path s ∧ request_secrets fresh external ∧ r = matched_result s headers subs ∧
     Forall2 (λ sub r, rs_Placeholder r = sub_Placeholder sub ∧ lookup store fresh external (sub_Key sub) = Ok (rs_Value r) ∧ rs_In r = NormalizedIn sub)
       (svc_Substitutions s) subs ∧
     (if bool_decide (auth_Type (svc_Auth s) = #"passthrough") then headers = None
      else Resolve (lookup store fresh external) (svc_Auth s) = Ok headers)).
Proof.
  intros E. destruct (Inject_cases host port path) as [(e & E' & _)|[(E' & Hp)|(s & Hs & [E'|(fresh & external & Hf & E')])]];
    specialize (E' store); rewrite E in E'; [done| |done|].
  - left. injection E' as ->. done.
  - right. symmetry in E'. apply attach_ok in E' as (headers & subs & Er & Hsubs & Hh). injection Er as ->. by exists s, fresh, external, headers, subs.
Qed.

Lemma stored_ext store store' k : store k = store' k →
  stored_credential store Decrypt Encrypt Dynamic oauth now oauth_Refresh update in_flight k =
  stored_credential store' Decrypt Encrypt Dynamic oauth now oauth_Refresh update in_flight k.
Proof. intros E. unfold stored_credential. by rewrite E. Qed.

(** C18: least privilege. The outcome of a request depends on no stored
    credential but those its result declares in [CredentialKeys]: changing every
    other credential of the vault changes nothing. *)
Theorem Inject_reads_declared store store' host port path r e :
  inject store host port path = (r, e) →
  (∀ k, (∃ r', r = Some r' ∧ k ∈ ir_CredentialKeys r') → store k = store' k) →
  inject store' host port path = (r, e).
Proof.
  intros E Hk. destruct (Inject_cases host port path) as [(e' & E' & He)|[(E' & Hp)|(s & Hs & [E'|(fresh & external & Hf & E')])]].
  1, 2, 3: by rewrite <- E, !E'.
  destruct (attach_keys (lookup store fresh external) s) as (r' & Er & Ek). rewrite E' in *. rewrite <- E. symmetry.
  apply attach_ext. intros k Hin. unfold getCredential. destruct external; [done|]. apply stored_ext, Hk. exists r'. rewrite Ek. split; [|done].
  by rewrite <- Er, E.
Qed.

End InjectFacts.

(** ** A vault *)

Definition vault_service (name host key : bytes) : Service :=
  {| svc_Name := name; svc_Host := host; svc_Path := []; svc_Port := None; svc_Enabled := None;
     svc_Auth := {| auth_Type := #"bearer"; auth_Token := key; auth_Username := []; auth_Password := []; auth_Key := []; auth_Header := [];
                    auth_Prefix := []; auth_Headers := [] |};
     svc_Substitutions := []; svc_FixedQuery := None |}.
Definition vault_services (json : bytes) : option (list Service) :=
  Some [vault_service #"github" #"api.github.com" #"GITHUB_TOKEN"; vault_service #"linear" #"api.linear.app" #"LINEAR_TOKEN"].
(** A store where GitHub's token is static and Linear's is an OAuth credential
    that is not connected yet. *)
Definition vault_store (github : bytes) (key : bytes) : option Credential :=
  if bool_decide (key = #"GITHUB_TOKEN") then Some {| cr_Ciphertext := github; cr_Nonce := []; cr_Type := #"static" |}
  else if bool_decide (key = #"LINEAR_TOKEN") then Some {| cr_Ciphertext := []; cr_Nonce := []; cr_Type := #"oauth" |} else None.
Definition vault_inject (store : bytes → option Credential) (host : bytes) : option InjectResult * option chain :=
  @Inject latin1_tables vault_services (ConfigRow #"[...]") (Some PolicyPassthrough) store (λ ct _, Some ct) (λ _, None) None None None 0
    (λ _, Err []) (λ _ _ _ _, true) (λ _, None) host 443 #"/user".
Definition github_result (token : bytes) : InjectResult :=
  matched_result (vault_service #"github" #"api.github.com" #"GITHUB_TOKEN") (Some [(#"Authorization", #"Bearer " ++ token)]) [].

Lemma vault_github : vault_inject (vault_store #"ghp_1") #"api.github.com" = (Some (github_result #"ghp_1"), None).
Proof. vm_compute. reflexivity. Qed.
Lemma vault_linear : vault_inject (vault_store #"ghp_1") #"api.linear.app" =
  (Some (matched_result (vault_service #"linear" #"api.linear.app" #"LINEAR_TOKEN") None []), Some [ErrCredentialMissing]).
Proof. vm_compute. reflexivity. Qed.
Lemma vault_keys k r' : Some (github_result #"ghp_1") = Some r' → k ∈ ir_CredentialKeys r' → k = #"GITHUB_TOKEN".
Proof. intros [= <-] Hk. change (ir_CredentialKeys (github_result _)) with [ #"GITHUB_TOKEN"] in Hk. by apply list_elem_of_singleton in Hk. Qed.

Lemma Inject_sound_witness : ∃ headers, ir_Headers (github_result #"ghp_1") = Some headers ∧ ¬ (github_result #"ghp_1" = passthrough_result).
Proof.
  destruct (@Inject_sound latin1_tables vault_services (ConfigRow #"[...]") (Some PolicyPassthrough) (λ ct _, Some ct) (λ _, None) None None None 0
    (λ _, Err []) (λ _ _ _ _, true) (λ _, None) _ _ _ _ _ vault_github) as [(E & _)|(s & fresh & external & headers & subs & _ & _ & E & _)].
  - discriminate E.
  - exists [(#"Authorization", #"Bearer ghp_1")]. split; [reflexivity|discriminate].
Defined.

Lemma Inject_reads_declared_witness :
  vault_inject (λ k, if bool_decide (k = #"GITHUB_TOKEN") then vault_store #"ghp_1" k else None) #"api.github.com" = (Some (github_result #"ghp_1"), None).
Proof.
  apply (@Inject_reads_declared latin1_tables vault_services (ConfigRow #"[...]") (Some PolicyPassthrough) (λ ct _, Some ct) (λ _, None) None None None 0
    (λ _, Err []) (λ _ _ _ _, true) (λ _, None) (vault_store #"ghp_1") _ _ _ _ _ _ vault_github).
  intros k (r' & Hr & Hk). rewrite (vault_keys k r' Hr Hk). reflexivity.
Defined.

