(* ===== verification/Substitute.v ===== *)
(** * Substitutions ([internal/brokercore/substitution.go])

    Placeholders are replaced in the parts of a request their substitution
    declares.  A URL is the three fields that are written; the entries of a
    header map come in the order of its iteration; [mime.ParseMediaType] is an
    argument, a body is its bytes. *)

From S2P Require Import Prelude GoString GoNet GoUrl BrokerMatch BrokerAuth BrokerCore BrokerInject.

Record target_url := { tu_Path : bytes; tu_RawPath : bytes; tu_RawQuery : bytes }.

(** The wire path of the URL. *)
Definition wire_path (u : target_url) : bytes := EscapedPath (tu_Path u) (tu_RawPath u).

Abbreviation headers := (list (bytes * list bytes)).

Definition declares (surface : bytes) (sub : ResolvedSubstitution) : bool := bool_decide (surface ∈ rs_In sub).
Definition HasBodySubstitutions (subs : list ResolvedSubstitution) : bool := existsb (declares #"body") subs.

Inductive sub_failure := InvalidPathEncoding (placeholder : bytes) | HeaderInjection (placeholder : bytes).

Definition substitute_path (sub : ResolvedSubstitution) (u : target_url) : result sub_failure target_url :=
  let escaped := wire_path u in
  let rewritten := ReplaceAll escaped (rs_Placeholder sub) (PathEscape (rs_Value sub)) in
  if bool_decide (rewritten = escaped) then Ok u
  else match PathUnescape rewritten with
       | None => Err (InvalidPathEncoding (rs_Placeholder sub))
       | Some decoded => Ok {| tu_Path := decoded; tu_RawPath := rewritten; tu_RawQuery := tu_RawQuery u |}
       end.

Definition substitute_query (sub : ResolvedSubstitution) (u : target_url) : target_url :=
  {| tu_Path := tu_Path u; tu_RawPath := tu_RawPath u; tu_RawQuery := ReplaceAll (tu_RawQuery u) (rs_Placeholder sub) (QueryEscape (rs_Value sub)) |}.

Definition substitute_header (sub : ResolvedSubstitution) (h : headers) : result sub_failure headers :=
  if ContainsAny (rs_Value sub) [x0d; x0a] then Err (HeaderInjection (rs_Placeholder sub))
  else Ok (map (λ '(k, vals), (k, map (λ v, ReplaceAll v (rs_Placeholder sub) (rs_Value sub)) vals)) h).

(** One surface of one substitution; a nil URL or header map is passed over. *)
Definition substitute (sub : ResolvedSubstitution) (surface : bytes) (u : option target_url) (h : option headers)
  : result sub_failure (option target_url * option headers) :=
  if bool_decide (surface = #"path") then
    match u with Some u => u ← substitute_path sub u; Ok (Some u, h) | None => Ok (u, h) end
  else if bool_decide (surface = #"query") then Ok (substitute_query sub <$> u, h)
  else if bool_decide (surface = #"header") then
    match h with Some h => h ← substitute_header sub h; Ok (u, Some h) | None => Ok (u, h) end
  else Ok (u, h).

Fixpoint substitute_surfaces (sub : ResolvedSubstitution) (l : list bytes) (u : option target_url) (h : option headers) :=
  match l with
  | [] => Ok (u, h)
  | s :: l' => '(u, h) ← substitute sub s u h; substitute_surfaces sub l' u h
  end.

Fixpoint ApplySubstitutions (subs : list ResolvedSubstitution) (u : option target_url) (h : option headers)
  : result sub_failure (option target_url * option headers) :=
  match subs with
  | [] => Ok (u, h)
  | sub :: subs' => '(u, h) ← substitute_surfaces sub (rs_In sub) u h; ApplySubstitutions subs' u h
  end.

(** ** Bodies *)

Definition lower_hex (z : Z) : byte := byte_of (if z <? 10 then 48 + z else 87 + z).

(** [encoding/json]'s string escaping, HTML characters included. *)
Definition json_byte (b : byte) : bytes :=
  let c := bval b in
  if bool_decide (c ∈ [92; 34]) then [x5c; b]
  else if c =? 8 then #"\b" else if c =? 12 then #"\f" else if c =? 10 then #"\n" else if c =? 13 then #"\r" else if c =? 9 then #"\t"
  else if (c <? 32) || bool_decide (c ∈ [60; 62; 38]) then #"\u00" ++ [lower_hex (c / 16); lower_hex (c mod 16)]
  else [b].

Fixpoint json_string (skip : nat) (s : bytes) : bytes :=
  match s with
  | [] => []
  | b :: s' =>
      match skip with
      | S k => json_string k s'
      | O =>
          if bval b <? 128 then json_byte b ++ json_string 0 s'
          else
            let '(r, w) := DecodeRune s in
            if (r =? RuneError) && bool_decide (w = 1%nat) then #"\ufffd" ++ json_string 0 s'
            else (if bool_decide (r ∈ [8232; 8233]) then #"\u202" ++ [lower_hex (r mod 16)] else take w s) ++ json_string (w - 1) s'
      end
  end.
Definition jsonEscapeString (s : bytes) : bytes := json_string 0 s.

Definition bodyEncoder (mediaType : bytes) : bytes → bytes :=
  if bool_decide (mediaType = #"application/x-www-form-urlencoded") then QueryEscape
  else if bool_decide (mediaType = #"application/json") then jsonEscapeString else id.

Definition substitute_text (encode : bytes → bytes) (subs : list ResolvedSubstitution) (text : bytes) : bytes :=
  foldl (λ text sub, ReplaceAll text (rs_Placeholder sub) (encode (rs_Value sub))) text subs.

(** [ApplyBodySubstitutions]: the new body, its length and whether it changed.
    [None]: reading the body failed; a nil body is empty. *)
Definition ApplyBodySubstitutions (ParseMediaType : bytes → bytes) (data : option bytes) (contentLength : Z) (nil : bool) (contentType : bytes)
    (subs : list ResolvedSubstitution) : option (option bytes * Z * bool) :=
  let bodySubs := List.filter (declares #"body") subs in
  if bool_decide (length bodySubs = 0%nat) then Some (data, contentLength, false)
  else if nil then Some (data, contentLength, false)
  else match data with
       | None => None
       | Some orig =>
           if bool_decide (orig = []) then Some (Some [], 0, false)
           else if HasPrefix (ParseMediaType contentType) #"multipart/" then Some (Some orig, Z.of_nat (length orig), false)
           else
             let text := substitute_text (bodyEncoder (ParseMediaType contentType)) bodySubs orig in
             if bool_decide (text = orig) then Some (Some orig, Z.of_nat (length orig), false)
             else Some (Some text, Z.of_nat (length text), true)
       end.

(** ** The rewritten surfaces *)

Definition path_rewrite (subs : list ResolvedSubstitution) (t : bytes) : bytes :=
  substitute_text PathEscape (List.filter (declares #"path") subs) t.
Definition query_rewrite (subs : list ResolvedSubstitution) (t : bytes) : bytes :=
  substitute_text QueryEscape (List.filter (declares #"query") subs) t.
Definition value_rewrite (subs : list ResolvedSubstitution) (t : bytes) : bytes :=
  substitute_text id (List.filter (declares #"header") subs) t.
Definition header_rewrite (subs : list ResolvedSubstitution) (h : headers) : headers := map (λ '(k, vals), (k, map (value_rewrite subs) vals)) h.

(** A substitution of a validated service. *)
Definition ready (sub : ResolvedSubstitution) : Prop := validatePlaceholder (rs_Placeholder sub) = None ∧ NoDup (rs_In sub).

Lemma placeholder_plain p : validatePlaceholder p = None → p ≠ [] ∧ Forall (λ b, placeholderCharAllowed (bval b) = true) p.
Proof.
  unfold validatePlaceholder. case_bool_decide as Hne; [done|]. destruct (_ <? _)%nat; [done|]. destruct (placeholder_scan p false false) eqn:E; [|done].
  intros _. split; [done|]. by eapply placeholder_scan_chars.
Qed.

Lemma ready_free sub c : ready sub → placeholderCharAllowed (bval c) = false → rs_Placeholder sub ≠ [] ∧ c ∉ rs_Placeholder sub.
Proof. intros [Hp _] Hc. apply placeholder_plain in Hp as [? Hp]. split; [done|]. intros Hin. rewrite Forall_forall in Hp. by rewrite (Hp c Hin) in Hc. Qed.

Lemma Split_substitute_text c encode subs : Forall ready subs → placeholderCharAllowed (bval c) = false → (∀ v, c ∉ encode v) →
  ∀ t, Split (substitute_text encode subs t) c = map (substitute_text encode subs) (Split t c).
Proof.
  intros Hr Hc He. induction subs as [|sub subs IH]; intros t; cbn [substitute_text foldl]; [symmetry; apply map_id|].
  apply Forall_cons in Hr as [Hs Hr]. destruct (ready_free sub c Hs Hc) as [Hne Hn]. fold (substitute_text encode subs (ReplaceAll t (rs_Placeholder sub) (encode (rs_Value sub)))).
  rewrite IH by done. rewrite Split_ReplaceAll by done. by rewrite map_map.
Qed.

Lemma Forall_ready_filter f subs : Forall ready subs → Forall ready (List.filter f subs).
Proof. intros Hr. apply Forall_forall. intros x [Hx _]%elem_of_lfilter. by eapply Forall_forall. Qed.

Lemma EscapedPath_valid path raw : Forall (λ c, valid_byte c = true) (EscapedPath path raw).
Proof.
  unfold EscapedPath. destruct (negb _ && _ && _) eqn:E; [|destruct (bool_decide (path = _)); [by apply (bool_decide_unpack _); vm_compute|apply escape_path_valid]].
  apply andb_true_iff in E as [[_ E]%andb_true_iff _]. apply Forall_forall. intros x Hx%list_elem_of_In. unfold validEncoded in E. by eapply forallb_forall in E.
Qed.

Lemma EscapedPath_raw decoded raw : Forall (λ c, valid_byte c = true) raw → PathUnescape raw = Some decoded → EscapedPath decoded raw = raw.
Proof.
  intros Hv Hd. unfold EscapedPath. destruct (decide (raw = [])) as [->|Hne].
  - injection Hd as <-. reflexivity.
  - rewrite bool_decide_false by done. assert (validEncoded raw = true) as ->. { apply forallb_forall. intros x Hx%list_elem_of_In. by eapply Forall_forall in Hv. }
    rewrite unescape_mode. fold (PathUnescape raw). by rewrite bool_decide_true.
Qed.

Lemma substitute_path_wire sub u u' : ready sub → substitute_path sub u = Ok u' →
  wire_path u' = ReplaceAll (wire_path u) (rs_Placeholder sub) (PathEscape (rs_Value sub)) ∧ tu_RawQuery u' = tu_RawQuery u.
Proof.
  intros [Hp _]. apply placeholder_plain in Hp as [Hne _]. unfold substitute_path. case_bool_decide as E; [by intros [= <-]|].
  destruct (PathUnescape _) as [d|] eqn:Ed; [|done]. intros [= <-]. split; [|done]. apply EscapedPath_raw; [|done]. apply ReplaceAll_Forall; [done| |apply EscapedPath_valid].
  eapply Forall_impl; [apply PathEscape_inert|]. by intros ? [_ ?].
Qed.

(** One step: the surface it names and no other. *)
Lemma substitute_step sub s u h u' h' : ready sub → substitute sub s (Some u) (Some h) = Ok (u', h') → ∃ v k, u' = Some v ∧ h' = Some k ∧
  wire_path v = (if bool_decide (s = #"path") then ReplaceAll (wire_path u) (rs_Placeholder sub) (PathEscape (rs_Value sub)) else wire_path u) ∧
  tu_RawQuery v = (if bool_decide (s = #"query") then ReplaceAll (tu_RawQuery u) (rs_Placeholder sub) (QueryEscape (rs_Value sub)) else tu_RawQuery u) ∧
  k = (if bool_decide (s = #"header") then map (λ '(k, vals), (k, map (λ v, ReplaceAll v (rs_Placeholder sub) (rs_Value sub)) vals)) h else h) ∧
  (s = #"header" → ContainsAny (rs_Value sub) [x0d; x0a] = false).
Proof.
  intros Hr. unfold substitute. case_bool_decide as E1.
  { intros (v & Hv & [= <- <-])%result_bind_Ok. apply substitute_path_wire in Hv as [Hw Hq]; [|done]. exists v, h. subst s.
    rewrite !bool_decide_false by done. done. }
  case_bool_decide as E2.
  { intros [= <- <-]. eexists _, h. subst s. rewrite bool_decide_false by done. done. }
  case_bool_decide as E3.
  { intros (k & Hk & [= <- <-])%result_bind_Ok. unfold substitute_header in Hk. destruct (ContainsAny _ _) eqn:Ec; [done|]. injection Hk as <-. by eexists u, _. }
  intros [= <- <-]. by exists u, h.
Qed.

Definition replace_values (sub : ResolvedSubstitution) (h : headers) : headers :=
  map (λ '(k, vals), (k, map (λ v, ReplaceAll v (rs_Placeholder sub) (rs_Value sub)) vals)) h.

(** A function applied once if the surface is listed. *)
Lemma once {A} (f : A → A) (s x : bytes) (l : list bytes) (a b c : A) : NoDup (s :: l) →
  b = (if bool_decide (s = x) then f a else a) → c = (if bool_decide (x ∈ l) then f b else b) → c = (if bool_decide (x ∈ s :: l) then f a else a).
Proof.
  intros [Hn _]%NoDup_cons -> ->. destruct (decide (s = x)) as [->|Hne].
  - rewrite (bool_decide_false (x ∈ l)), !bool_decide_true by (done || apply elem_of_cons; by left). done.
  - rewrite (bool_decide_false (s = x)) by done. destruct (decide (x ∈ l)) as [Hin|Hin]; [rewrite !bool_decide_true|rewrite !bool_decide_false]; try done; rewrite elem_of_cons; naive_solver.
Qed.

Lemma substitute_surfaces_once sub l : ∀ u h u' h', ready sub → NoDup l → substitute_surfaces sub l (Some u) (Some h) = Ok (u', h') → ∃ v k,
  u' = Some v ∧ h' = Some k ∧
  wire_path v = (if bool_decide (#"path" ∈ l) then ReplaceAll (wire_path u) (rs_Placeholder sub) (PathEscape (rs_Value sub)) else wire_path u) ∧
  tu_RawQuery v = (if bool_decide (#"query" ∈ l) then ReplaceAll (tu_RawQuery u) (rs_Placeholder sub) (QueryEscape (rs_Value sub)) else tu_RawQuery u) ∧
  k = (if bool_decide (#"header" ∈ l) then replace_values sub h else h) ∧
  (#"header" ∈ l → ContainsAny (rs_Value sub) [x0d; x0a] = false).
Proof.
  induction l as [|s l IH]; intros u h u' h' Hr Hnd Hs; cbn [substitute_surfaces] in Hs.
  - injection Hs as <- <-. exists u, h. rewrite !bool_decide_false by apply not_elem_of_nil. repeat apply conj; try done. by intros []%not_elem_of_nil.
  - apply result_bind_Ok in Hs as ([u1 h1] & H1 & Hs). destruct (substitute_step _ _ _ _ _ _ Hr H1) as (v1 & k1 & -> & -> & Hw1 & Hq1 & Hk1 & Hc1).
    destruct (IH _ _ _ _ Hr (proj2 (proj1 (NoDup_cons _ _) Hnd)) Hs) as (v & k & -> & -> & Hw & Hq & Hk & Hc). exists v, k. split; [done|]. split; [done|].
    split; [|split; [|split]].
    + by apply (once (λ t, ReplaceAll t _ _) s _ l (wire_path u) (wire_path v1) (wire_path v) Hnd).
    + by apply (once (λ t, ReplaceAll t _ _) s _ l (tu_RawQuery u) (tu_RawQuery v1) (tu_RawQuery v) Hnd).
    + by apply (once (replace_values sub) s _ l h k1 k Hnd).
    + intros [E|Hin]%elem_of_cons; [by apply Hc1|by apply Hc].
Qed.

Lemma text_cons encode f sub subs t :
  substitute_text encode (List.filter f (sub :: subs)) t =
  substitute_text encode (List.filter f subs) (if f sub then ReplaceAll t (rs_Placeholder sub) (encode (rs_Value sub)) else t).
Proof. cbn [List.filter]. by destruct (f sub). Qed.

Lemma header_rewrite_cons sub subs h : header_rewrite (sub :: subs) h = header_rewrite subs (if declares #"header" sub then replace_values sub h else h).
Proof.
  unfold header_rewrite, replace_values, value_rewrite. destruct (declares #"header" sub) eqn:E; [rewrite map_map|]; apply map_ext; intros [k vals]; f_equal;
    rewrite ?map_map; apply map_ext; intros v; rewrite text_cons, E; done.
Qed.

Lemma ApplySubstitutions_exact subs : ∀ u h u' h', Forall ready subs → ApplySubstitutions subs (Some u) (Some h) = Ok (u', h') → ∃ v k,
  u' = Some v ∧ h' = Some k ∧ wire_path v = path_rewrite subs (wire_path u) ∧ tu_RawQuery v = query_rewrite subs (tu_RawQuery u) ∧
  k = header_rewrite subs h ∧ (∀ sub, sub ∈ subs → declares #"header" sub = true → ContainsAny (rs_Value sub) [x0d; x0a] = false).
Proof.
  induction subs as [|sub subs IH]; intros u h u' h' Hr Hs; cbn [ApplySubstitutions] in Hs.
  - injection Hs as <- <-. exists u, h. repeat apply conj; try done; [|by intros ? []%not_elem_of_nil].
    unfold header_rewrite. rewrite <- (map_id h) at 1. apply map_ext. intros [k vals]. cbn. f_equal. symmetry. apply map_id.
  - apply Forall_cons in Hr as [H1 Hr]. apply result_bind_Ok in Hs as ([u1 h1] & Hs1 & Hs).
    destruct (substitute_surfaces_once _ _ _ _ _ _ H1 (proj2 H1) Hs1) as (v1 & k1 & -> & -> & Hw1 & Hq1 & Hk1 & Hc1).
    destruct (IH _ _ _ _ Hr Hs) as (v & k & -> & -> & Hw & Hq & Hk & Hc). exists v, k. split; [done|]. split; [done|].
    unfold path_rewrite, query_rewrite. rewrite !text_cons, header_rewrite_cons.
    fold (declares #"path" sub) in Hw1. fold (declares #"query" sub) in Hq1. fold (declares #"header" sub) in Hk1. rewrite <- Hw1, <- Hq1, <- Hk1.
    split; [done|]. split; [done|]. split; [done|]. intros s [->|Hin]%elem_of_cons Hd; [apply Hc1; by apply bool_decide_eq_true in Hd|by apply Hc].
Qed.

(** ** The theorems *)

Lemma ContainsAny_free s chars : ContainsAny s chars = false → Forall (λ b, b ∉ chars) s.
Proof. unfold ContainsAny. rewrite existsb_false. intros Hs. apply Forall_forall. intros b Hb. apply ContainsByte_false. by apply Hs. Qed.

Lemma value_rewrite_clean subs v : Forall ready subs →
  (∀ sub, sub ∈ subs → declares #"header" sub = true → ContainsAny (rs_Value sub) [x0d; x0a] = false) →
  Forall (λ b, b ∉ [x0d; x0a]) v → Forall (λ b, b ∉ [x0d; x0a]) (value_rewrite subs v).
Proof.
  unfold value_rewrite. revert v. induction subs as [|sub subs IH]; intros v Hr Hc Hv; [done|]. rewrite text_cons. apply Forall_cons in Hr as [H1 Hr].
  apply IH; [done|intros s ?; apply Hc, elem_of_cons; by right|]. destruct (declares #"header" sub) eqn:E; [|done].
  apply ReplaceAll_Forall; [by apply placeholder_plain, (proj1 H1)| |done]. apply ContainsAny_free, Hc; [apply elem_of_cons; by left|done].
Qed.

(** C30: substitutions stay in the surfaces they declare and in their place.
    After [ApplySubstitutions] of a validated service's substitutions, the path
    on the wire, the query and the header values are the old ones with exactly
    the placeholders declared for them replaced; a value adds or removes no path
    segment, no query parameter and no part of one, and no line break in a header. *)
Theorem substitution_confined subs u h u' h' : Forall ready subs → ApplySubstitutions subs (Some u) (Some h) = Ok (u', h') → ∃ v,
  u' = Some v ∧ h' = Some (header_rewrite subs h) ∧
  wire_path v = path_rewrite subs (wire_path u) ∧ tu_RawQuery v = query_rewrite subs (tu_RawQuery u) ∧
  Split (wire_path v) x2f = map (path_rewrite subs) (Split (wire_path u) x2f) ∧
  Split (tu_RawQuery v) x26 = map (query_rewrite subs) (Split (tu_RawQuery u) x26) ∧
  (∀ param, Split (query_rewrite subs param) x3d = map (query_rewrite subs) (Split param x3d)) ∧
  (∀ value, Forall (λ b, b ∉ [x0d; x0a]) value → Forall (λ b, b ∉ [x0d; x0a]) (value_rewrite subs value)).
Proof.
  intros Hr Hs. destruct (ApplySubstitutions_exact _ _ _ _ _ Hr Hs) as (v & k & -> & -> & Hw & Hq & -> & Hc). exists v.
  rewrite Hw, Hq. unfold path_rewrite, query_rewrite. pose proof (λ f, Forall_ready_filter f subs Hr) as Hf.
  repeat apply conj; try done.
  - apply Split_substitute_text; [apply Hf|done|]. intros x Hin. pose proof (PathEscape_inert x) as Hp. rewrite Forall_forall in Hp. by destruct (Hp _ Hin).
  - apply Split_substitute_text; [apply Hf|done|]. intros x. apply QueryEscape_inert.
  - intros param. apply Split_substitute_text; [apply Hf|done|]. intros x. apply QueryEscape_inert.
  - intros value. by apply value_rewrite_clean.
Qed.

(** ** Values in JSON bodies *)

(** Reading on inside a JSON string: [None] if it ends or is broken by a control
    character, else whether a backslash is open. *)
Fixpoint in_string (escaped : bool) (s : bytes) : option bool :=
  match s with
  | [] => Some escaped
  | b :: s' =>
      if bval b <? 32 then None
      else if escaped then in_string false s'
      else if bool_decide (b = x22) then None else in_string (bool_decide (b = x5c)) s'
  end.

Lemma in_string_high a t : Forall (λ b, 128 <= bval b) a → in_string false (a ++ t) = in_string false t.
Proof.
  induction 1 as [|b a Hb _ IH]; [done|]. cbn [app in_string]. rewrite (proj2 (Z.ltb_ge (bval b) 32)) by lia.
  rewrite !bool_decide_false; [done|intros ->; exact (Hb eq_refl)..].
Qed.

Lemma in_string_byte b t : bval b < 128 → in_string false (json_byte b ++ t) = in_string false t.
Proof. intros Hb. destruct b; try reflexivity; discriminate Hb. Qed.

Lemma DecodeRune_high s : s ≠ [] → (∀ b, head s = Some b → 128 <= bval b) → Forall (λ b, 128 <= bval b) (take (snd (DecodeRune s)) s).
Proof.
  destruct s as [|b0 s1]; [done|]. intros _ Hh. specialize (Hh b0 eq_refl). unfold DecodeRune.
  destruct (Z.ltb_spec (bval b0) 128); [lia|]. unfold cont_byte, in_range.
  repeat case_match; cbn [snd take]; repeat constructor; try done; b2p; lia.
Qed.

Lemma json_string_inert s t : ∀ skip, in_string false (json_string skip s ++ t) = in_string false t.
Proof.
  induction s as [|b s IH]; intros skip; [done|]. destruct skip as [|k]; [|apply IH]. cbn [json_string].
  destruct (Z.ltb_spec (bval b) 128) as [Hb|Hb]; [by rewrite <- app_assoc, in_string_byte|].
  pose proof (DecodeRune_high (b :: s) ltac:(done) ltac:(by intros ? [= <-])) as Hh. destruct (DecodeRune (b :: s)) as [r w]. cbn [snd] in Hh.
  destruct (_ && _).
  { rewrite <- app_assoc. change (in_string false (#"\ufffd" ++ ?x)) with (in_string false x). apply IH. }
  rewrite <- app_assoc. case_bool_decide as Hr; [|by rewrite in_string_high].
  rewrite !elem_of_cons, elem_of_nil in Hr. destruct Hr as [->|[->|[]]];
    rewrite <- app_assoc; change (in_string false (#"\u202" ++ [?c] ++ ?x)) with (in_string false x); apply IH.
Qed.

(** A credential put into a JSON string of a body never ends the string, and
    leaves no escape open for what follows. *)
Theorem json_value_inert value rest : in_string false (jsonEscapeString value ++ rest) = in_string false rest.
Proof. apply json_string_inert. Qed.

(** ** A request *)

Definition sample_subs : list ResolvedSubstitution :=
  [{| rs_Placeholder := #"__acct__"; rs_Value := #"a/b&c=d"; rs_In := [ #"path"; #"query"] |};
   {| rs_Placeholder := #"__key__"; rs_Value := #"s3cret"; rs_In := [ #"header"] |}].
Definition sample_url : target_url := {| tu_Path := #"/v1/__acct__/list"; tu_RawPath := []; tu_RawQuery := #"q=__acct__&k=__key__" |}.
Definition sample_headers : headers := [(#"X-Key", [ #"token __key__"])].

Lemma sample_ready : Forall ready sample_subs.
Proof. repeat constructor; by apply (bool_decide_unpack _); vm_compute. Qed.
Lemma sample_applied : ApplySubstitutions sample_subs (Some sample_url) (Some sample_headers) =
  Ok (Some {| tu_Path := #"/v1/a/b&c=d/list"; tu_RawPath := #"/v1/a%2Fb&c=d/list"; tu_RawQuery := #"q=a%2Fb%26c%3Dd&k=__key__" |},
      Some [(#"X-Key", [ #"token s3cret"])]).
Proof. vm_compute. reflexivity. Qed.

Lemma substitution_confined_witness : map (path_rewrite sample_subs) (Split #"/v1/__acct__/list" x2f) = [ []; #"v1"; #"a%2Fb&c=d"; #"list"].
Proof.
  destruct (substitution_confined _ _ _ _ _ sample_ready sample_applied) as (v & Ev & _ & _ & _ & Hs & _). injection Ev as Ev. rewrite <- Ev in Hs.
  etransitivity; [symmetry; exact Hs|]. vm_compute. reflexivity.
Defined.
