(* ===== verification/ProxySession.v ===== *)
(** * Who a proxy request comes from ([internal/brokercore]: [proxyauth.go],
      [session.go], [kinds.go], [proxyheader.go], [attestation.go], [replica.go])

    The token in the Proxy-Authorization header, the session and vault it stands
    for, the PROXY header of a trusted terminator, and the safe form of what a
    refusal records.  The store's answers are arguments ([None]: an error or no
    row).  A byte stream is the bytes still to come. *)

From S2P Require Import Prelude GoString GoRegexp GoStrconv GoNet BrokerAuth.

(** ** [base64.StdEncoding.DecodeString] *)

Definition base64_value (b : byte) : option Z :=
  let c := bval b in
  if is_upper c then Some (c - 65) else if is_lower c then Some (c - 71) else if is_digit c then Some (c + 4)
  else if c =? 43 then Some 62 else if c =? 47 then Some 63 else None.

(** Quads, padding only at the end. *)
Fixpoint base64_quads (s : bytes) : option bytes :=
  match s with
  | [] => Some []
  | [a; b; x3d; x3d] => a ← base64_value a; b ← base64_value b; Some [byte_of (a * 4 + b / 16)]
  | a :: b :: c :: d :: s' =>
      a ← base64_value a; b ← base64_value b; c ← base64_value c;
      if bool_decide (d = x3d) && bool_decide (s' = []) then Some [byte_of (a * 4 + b / 16); byte_of (b mod 16 * 16 + c / 4)]
      else
        d ← base64_value d; rest ← base64_quads s';
        Some (byte_of (a * 4 + b / 16) :: byte_of (b mod 16 * 16 + c / 4) :: byte_of (c mod 4 * 64 + d) :: rest)
  | _ => None
  end.

(** Line breaks are passed over. *)
Definition DecodeString (s : bytes) : option bytes :=
  base64_quads (List.filter (λ b, negb (bool_decide (b ∈ [x0a; x0d]))) s).

(** ** [ParseProxyAuth] *)

Definition ParseProxyAuth `{UnicodeTables} (header : bytes) : option (bytes * bytes) :=
  if bool_decide (header = []) then None
  else match IndexByte header x20 with
       | None => None
       | Some i =>
           let scheme := take i header in
           let rest := drop (S i) header in
           if bool_decide (rest = []) then None
           else
             let rest := TrimSpace rest in
             if bool_decide (ToLower scheme = #"bearer") then if bool_decide (rest = []) then None else Some (rest, [])
             else if bool_decide (ToLower scheme = #"basic") then
               userinfo ← DecodeString rest;
               if bool_decide (userinfo = []) then None
               else match IndexByte userinfo x3a with
                    | Some i => if bool_decide (take i userinfo = []) then None else Some (take i userinfo, drop (S i) userinfo)
                    | None => Some (userinfo, [])
                    end
             else None
       end.

(** ** Sessions *)

Record Session := {
  se_UserID : bytes;
  se_VaultID : bytes;
  se_AgentID : bytes;
  se_VaultRole : bytes;
  se_ExpiresAt : option Z;
  se_LastUsedAt : option Z;
  se_IdleTTL : Z;
}.
Record Vault := { va_ID : bytes; va_Name : bytes }.
Record VaultGrant := { gr_VaultID : bytes; gr_VaultName : bytes; gr_Role : bytes }.

(** [Session.IsExpired] *)
Definition IsExpired (s : Session) (now : Z) : bool :=
  match se_ExpiresAt s with Some t => t <? now | None => false end ||
  match se_LastUsedAt s with Some t => (0 <? se_IdleTTL s) && (se_IdleTTL s <? time_Sub now t) | None => false end.

Record ProxyScope := { ps_UserID : bytes; ps_AgentID : bytes; ps_VaultID : bytes; ps_VaultName : bytes; ps_VaultRole : bytes }.
Definition ActorID (s : ProxyScope) : bytes := if bool_decide (ps_UserID s = []) then ps_AgentID s else ps_UserID s.

Inductive session_error := ErrInvalidSession | ErrNoVaultContext | ErrAgentVaultAmbiguous | ErrVaultHintMismatch | ErrVaultNotFound | ErrVaultAccessDenied.

Section Resolve.
Context (GetSession : bytes → option Session) (GetVault GetVaultByID : bytes → option Vault).
Context (GetVaultRole : bytes → bytes → option bytes) (ListActorGrants : bytes → option (list VaultGrant)) (now : Z).

Definition ResolveForProxy (token vaultHint : bytes) : result session_error ProxyScope :=
  if bool_decide (token = []) then Err ErrInvalidSession
  else match GetSession token with
  | None => Err ErrInvalidSession
  | Some sess =>
      if IsExpired sess now then Err ErrInvalidSession
      else if negb (bool_decide (se_VaultID sess = [])) then
        match GetVaultByID (se_VaultID sess) with
        | None => Err ErrVaultNotFound
        | Some v =>
            if negb (bool_decide (vaultHint = [])) && negb (bool_decide (vaultHint = va_Name v)) then Err ErrVaultHintMismatch
            else Ok {| ps_UserID := se_UserID sess; ps_AgentID := se_AgentID sess; ps_VaultID := va_ID v; ps_VaultName := va_Name v;
                       ps_VaultRole := se_VaultRole sess |}
        end
      else if bool_decide (se_AgentID sess = []) then Err ErrNoVaultContext
      else if negb (bool_decide (vaultHint = [])) then
        match GetVault vaultHint with
        | None => Err ErrVaultNotFound
        | Some v =>
            match GetVaultRole (se_AgentID sess) (va_ID v) with
            | Some role =>
                if bool_decide (role = []) then Err ErrVaultAccessDenied
                else Ok {| ps_UserID := []; ps_AgentID := se_AgentID sess; ps_VaultID := va_ID v; ps_VaultName := va_Name v; ps_VaultRole := role |}
            | None => Err ErrVaultAccessDenied
            end
        end
      else match ListActorGrants (se_AgentID sess) with
           | None => Err ErrNoVaultContext
           | Some [] => Err ErrNoVaultContext
           | Some [g] => Ok {| ps_UserID := []; ps_AgentID := se_AgentID sess; ps_VaultID := gr_VaultID g; ps_VaultName := gr_VaultName g; ps_VaultRole := gr_Role g |}
           | Some _ => Err ErrAgentVaultAmbiguous
           end
  end.
End Resolve.

(** ** Identity kinds and refusals *)

Definition KindPodToken : bytes := #"pod-token".
Definition KindTokenReview : bytes := #"token-review".
Definition KindProxyAttested : bytes := #"proxy-attested".
Definition defaultKinds : list bytes := [ []; KindPodToken; KindTokenReview].
(** [ConnKinds] of a connection tagged with kinds or not. *)
Definition ConnKinds (tagged : option (list bytes)) : list bytes := default defaultKinds tagged.
Definition KindAdmitted (kinds : list bytes) (kind : bytes) : bool := bool_decide (kind ∈ kinds).

Record KeyDenial := { kd_Kid : bytes; kd_KidSHA256 : bytes; kd_Peer : bytes }.

Definition kid_char (c : Z) : bool := is_alnum c || bool_decide (c ∈ [46; 95; 45]).
(** [^[A-Za-z0-9._-]{1,128}$] *)
Definition plainKid : regex := RSeq (RCls kid_char) (RUpTo 127 (RCls kid_char)).

(** The key part of [DeniedKey]; [hex_sha256] is [hex.EncodeToString] of the digest. *)
Definition DeniedKey (hex_sha256 : bytes → bytes) (kid : bytes) : KeyDenial :=
  if MatchString plainKid kid then {| kd_Kid := kid; kd_KidSHA256 := []; kd_Peer := [] |}
  else {| kd_Kid := #"invalid"; kd_KidSHA256 := take 12 (hex_sha256 kid); kd_Peer := [] |}.

(** [WithPeer] with the peer's text, [None] when it is not valid. *)
Definition WithPeer (k : KeyDenial) (peer : option bytes) : KeyDenial :=
  match peer with Some p => {| kd_Kid := kd_Kid k; kd_KidSHA256 := kd_KidSHA256 k; kd_Peer := p |} | None => k end.

(** [deniedError.Error] *)
Definition denied_text (reason : bytes) (key : option KeyDenial) : bytes :=
  #"workload not admitted: " ++ reason ++
  match key with
  | None => []
  | Some k =>
      #" kid=" ++ kd_Kid k ++ (if bool_decide (kd_KidSHA256 k = []) then [] else #" kid_sha256=" ++ kd_KidSHA256 k) ++
      (if bool_decide (kd_Peer k = []) then [] else #" peer=" ++ kd_Peer k)
  end.

(** ** The PROXY header *)

(** [netip.ParseAddr] with its zone: the address and whether it has one. *)
Definition ParseAddrZone (s : bytes) : option (bytes * bool) :=
  match IndexByte s x25 with
  | None => a ← ParseAddr s; Some (a, false)
  | Some i =>
      a ← ParseAddr (take i s);
      if bool_decide (length a = 16%nat) && negb (bool_decide (drop (S i) s = [])) then Some (a, true) else None
  end.

Definition proxy_port (port : bytes) : bool :=
  match Atoi port with Some n => (1 <=? n) && (n <=? 65535) && bool_decide (Itoa n = port) | None => false end.

Definition parseProxyV1 (line : bytes) : option bytes :=
  match Split line x20 with
  | [proxy; proto; src; dst; sport; dport] =>
      if negb (bool_decide (proxy = #"PROXY")) || negb (bool_decide (proto ∈ [ #"TCP4"; #"TCP6"])) then None
      else
        '(source, zone) ← ParseAddrZone src;
        if zone || negb (Bool.eqb (bool_decide (proto = #"TCP4")) (bool_decide (length source = 4%nat))) then None
        else
          _ ← ParseAddrZone dst;
          if proxy_port sport && proxy_port dport then Some source else None
  | _ => None
  end.

Definition proxy_magic : bytes := #"PROXY ".
Definition proxy_header_max : nat := 107.

(** The loop of [ReadProxyV1]; [fuel] counts the bytes still allowed.  The
    second component is what the connection still holds. *)
Fixpoint read_proxy (fuel : nat) (line : bytes) (stream : bytes) : option bytes * bytes :=
  match fuel with
  | O => (None, stream)
  | S fuel =>
      match stream with
      | [] => (None, [])
      | b :: stream =>
          let line := line ++ [b] in
          let n := length line in
          if (n <=? 6)%nat && negb (bool_decide (proxy_magic !! (n - 1)%nat = Some b)) then (None, stream)
          else if HasSuffix line [x0d; x0a] then (parseProxyV1 (take (n - 2) line), stream)
          else read_proxy fuel line stream
      end
  end.

Definition ReadProxyV1 (loopback : bool) (stream : bytes) : option bytes * bytes :=
  if loopback then read_proxy proxy_header_max [] stream else (None, stream).

(** ** Attested sandboxes and replica names *)

Definition maxAttestationHeader : Z := 4096.
(** [^[A-Za-z0-9][A-Za-z0-9-]{0,127}$] *)
Definition sandboxUID : regex := RSeq (RCls is_alnum) (RUpTo 127 (RCls (λ c, is_alnum c || (c =? 45)))).

(** [owner_uid] is the base64 and JSON decoding of the header. *)
Definition AttestedSandbox (owner_uid : bytes → option bytes) (attestation : bytes) : bytes :=
  if bool_decide (attestation = []) || (maxAttestationHeader <? Z.of_nat (length attestation)) then []
  else match owner_uid attestation with
       | Some uid => if MatchString sandboxUID uid then uid else []
       | None => []
       end.

Definition ReplicaName (getenv : bytes → bytes) (hostname : bytes) : bytes :=
  match List.find (λ v, negb (bool_decide (v = []))) (map getenv [ #"AGENT_VAULT_REPLICA"; #"AGENT_VAULT_AUDIT_REPLICA"]) with
  | Some v => v
  | None => hostname
  end.

(** [None] is [ErrFleetReplicaName]. *)
Definition FleetReplicaName (getenv : bytes → bytes) (hostname : bytes) : option bytes :=
  if bool_decide (getenv #"DATABASE_URL" = []) && bool_decide (getenv #"DATABASE_URL_FILE" = []) then Some (ReplicaName getenv hostname)
  else if negb (bool_decide (getenv #"AGENT_VAULT_REPLICA" = [])) then Some (getenv #"AGENT_VAULT_REPLICA") else None.

Definition replica_end (c : Z) : bool := is_lower c || is_digit c.
(** [^[a-z0-9]([-a-z0-9.]{0,251}[a-z0-9])?$] *)
Definition replicaPattern : regex :=
  RSeq (RCls replica_end) (ROpt (RSeq (RUpTo 251 (RCls (λ c, replica_end c || bool_decide (c ∈ [45; 46])))) (RCls replica_end))).
Definition ValidReplicaName (name : bytes) : bool := MatchString replicaPattern name.

(** ** Base64 *)

Definition visible (b : byte) : bool := in_range 33 126 (bval b).

Lemma base64_char_value z : 0 <= z < 64 → base64_value (base64_char z) = Some z ∧ visible (base64_char z) = true ∧ base64_char z ≠ x3d.
Proof.
  intros Hz. assert (H : Forall (λ z, base64_value (base64_char z) = Some z ∧ visible (base64_char z) = true ∧ base64_char z ≠ x3d) (seqZ 0 64))
    by (apply (bool_decide_unpack _); vm_compute; reflexivity).
  rewrite Forall_forall in H. apply H. apply elem_of_seqZ. lia.
Qed.

Lemma byte_of_eq b z : z = bval b → byte_of z = b.
Proof. intros ->. apply bval_inj. rewrite bval_byte_of. pose proof (bval_range b). by rewrite Z.mod_small. Qed.

(** Three bytes as four six-bit digits and back. *)
Lemma sextets a b c : let v := bval a * 65536 + bval b * 256 + bval c in
  0 <= v / 262144 < 64 ∧ 0 <= v / 4096 mod 64 < 64 ∧ 0 <= v / 64 mod 64 < 64 ∧ 0 <= v mod 64 < 64 ∧
  v / 262144 * 4 + v / 4096 mod 64 / 16 = bval a ∧ v / 4096 mod 64 mod 16 * 16 + v / 64 mod 64 / 4 = bval b ∧ v / 64 mod 64 mod 4 * 64 + v mod 64 = bval c.
Proof. intros v. pose proof (bval_range a). pose proof (bval_range b). pose proof (bval_range c). subst v. Z.div_mod_to_equations. lia. Qed.

Lemma triple_ind (P : bytes → Prop) : P [] → (∀ a, P [a]) → (∀ a b, P [a; b]) → (∀ a b c s, P s → P (a :: b :: c :: s)) → ∀ s, P s.
Proof.
  intros H0 H1 H2 H3 s. cut (∀ n s, (length s <= n)%nat → P s); [intros H; by apply (H (length s))|]. clear s. intros n.
  induction n as [|n IH]; intros s Hn; destruct s as [|a [|b [|c s]]]; try done; cbn in Hn; [lia|]. apply H3, IH. lia.
Qed.

Lemma base64_quads_encode s : base64_quads (EncodeToString s) = Some s.
Proof.
  induction s as [|a|a b|a b c s IH] using triple_ind; [done|..].
  - pose proof (sextets a x00 x00) as (H1 & H2 & _ & _ & E1 & _). change (bval x00) with 0 in *. cbn [EncodeToString base64_quads]. rewrite !Z.add_0_r in *.
    rewrite (proj1 (base64_char_value _ H1)), (proj1 (base64_char_value _ H2)). cbn [mbind option_bind]. by rewrite (byte_of_eq a).
  - pose proof (sextets a b x00) as (H1 & H2 & H3 & _ & E1 & E2 & _). change (bval x00) with 0 in *. cbn [EncodeToString]. rewrite Z.add_0_r in *.
    destruct (base64_char_value _ H3) as (V3 & _ & N3). set (v := bval a * 65536 + bval b * 256) in *.
    assert (Hq : ∀ w x y, y ≠ x3d → base64_quads [w; x; y; x3d] =
      (w ← base64_value w; x ← base64_value x; y ← base64_value y; Some [byte_of (w * 4 + x / 16); byte_of (x mod 16 * 16 + y / 4)])).
    { intros w x y Hy. destruct y; try (by destruct Hy); reflexivity. }
    rewrite Hq, (proj1 (base64_char_value _ H1)), (proj1 (base64_char_value _ H2)), V3 by done. cbn [mbind option_bind]. by rewrite (byte_of_eq a), (byte_of_eq b).
  - pose proof (sextets a b c) as (H1 & H2 & H3 & H4 & E1 & E2 & E3). cbn [EncodeToString]. set (v := bval a * 65536 + bval b * 256 + bval c) in *.
    destruct (base64_char_value _ H3) as (V3 & _ & N3). destruct (base64_char_value _ H4) as (V4 & _ & N4).
    assert (Hq : ∀ w x y z t, y ≠ x3d → z ≠ x3d → base64_quads (w :: x :: y :: z :: t) =
      (w ← base64_value w; x ← base64_value x; y ← base64_value y; z ← base64_value z; rest ← base64_quads t;
       Some (byte_of (w * 4 + x / 16) :: byte_of (x mod 16 * 16 + y / 4) :: byte_of (y mod 4 * 64 + z) :: rest))).
    { intros w x y z t Hy Hz. destruct y; try (by destruct Hy); cbn [base64_quads]; by rewrite (bool_decide_false _ Hz). }
    rewrite Hq by done. rewrite (proj1 (base64_char_value _ H1)), (proj1 (base64_char_value _ H2)), V3, V4, IH. cbn [mbind option_bind].
    by rewrite (byte_of_eq a), (byte_of_eq b), (byte_of_eq c).
Qed.

Lemma EncodeToString_visible s : Forall (λ b, visible b = true) (EncodeToString s).
Proof.
  assert (Hp : visible x3d = true) by reflexivity. induction s as [|a|a b|a b c s IH] using triple_ind; cbn [EncodeToString]; [constructor|..].
  - pose proof (sextets a x00 x00) as (H1 & H2 & _). change (bval x00) with 0 in *. rewrite !Z.add_0_r in *. repeat constructor; by (done || by apply base64_char_value).
  - pose proof (sextets a b x00) as (H1 & H2 & H3 & _). change (bval x00) with 0 in *. rewrite Z.add_0_r in *. repeat constructor; by (done || by apply base64_char_value).
  - pose proof (sextets a b c) as (H1 & H2 & H3 & H4 & _). repeat constructor; by (done || by apply base64_char_value).
Qed.

Lemma DecodeString_EncodeToString s : DecodeString (EncodeToString s) = Some s.
Proof.
  unfold DecodeString. rewrite lfilter_all; [apply base64_quads_encode|]. eapply Forall_impl; [apply EncodeToString_visible|].
  intros b Hb. destruct b; by vm_compute in Hb |- *.
Qed.

(** ** Tokens in the header *)

Lemma DecodeRune_ascii b s : bval b < 128 → DecodeRune (b :: s) = (bval b, 1%nat).
Proof. intros Hb. unfold DecodeRune. by rewrite (proj2 (Z.ltb_lt _ _)). Qed.

Lemma visible_rune `{UnicodeTables} b : visible b = true → bval b < 128 ∧ IsSpace (bval b) = false.
Proof.
  unfold visible, in_range, IsSpace, in_range. intros [H1 H2]%andb_true_iff. split; [lia|]. rewrite (proj2 (Z.ltb_lt _ _)) by lia.
  apply orb_false_iff. split; [apply andb_false_iff; right|]; b2p; lia.
Qed.

Lemma kept_length_visible `{UnicodeTables} s : ∀ pos keep, Forall (λ b, visible b = true) s →
  kept_length pos keep 0 s = if bool_decide (s = []) then keep else (pos + length s)%nat.
Proof.
  induction s as [|b s IH]; intros pos keep Hs; [done|]. apply Forall_cons in Hs as [[Hb Hsp]%visible_rune Hs]. cbn [kept_length].
  rewrite DecodeRune_ascii, Hsp by done. cbn [pred]. rewrite IH by done. rewrite (bool_decide_false (b :: s = [])) by done. cbn [length]. case_bool_decide as E; [subst s; cbn; lia|lia].
Qed.

Lemma TrimSpace_visible `{UnicodeTables} s : Forall (λ b, visible b = true) s → TrimSpace s = s.
Proof.
  intros Hs. unfold TrimSpace. assert (trim_space_left 0 s = s) as ->.
  { destruct s as [|b s]; [done|]. apply Forall_cons in Hs as [[Hb Hsp]%visible_rune _]. cbn [trim_space_left]. by rewrite DecodeRune_ascii, Hsp. }
  rewrite kept_length_visible by done. case_bool_decide as E; [by subst s|]. by rewrite Nat.add_0_l, take_ge by lia.
Qed.

Lemma ToLower_basic `{UnicodeTables} : ToLower #"Basic" = #"basic".
Proof. reflexivity. Qed.

Lemma ParseProxyAuth_basic `{UnicodeTables} userinfo : ParseProxyAuth (#"Basic " ++ EncodeToString userinfo) =
  if bool_decide (userinfo = []) then None
  else match IndexByte userinfo x3a with
       | Some i => if bool_decide (take i userinfo = []) then None else Some (take i userinfo, drop (S i) userinfo)
       | None => Some (userinfo, [])
       end.
Proof.
  unfold ParseProxyAuth. change (#"Basic " ++ EncodeToString userinfo) with (#"Basic" ++ x20 :: EncodeToString userinfo).
  rewrite bool_decide_false by done. change (IndexByte (#"Basic" ++ x20 :: EncodeToString userinfo) x20) with (Some 5%nat). cbv beta iota zeta.
  change (take 5 (#"Basic" ++ x20 :: EncodeToString userinfo)) with (#"Basic"). change (drop 6 (#"Basic" ++ x20 :: EncodeToString userinfo)) with (EncodeToString userinfo).
  rewrite ToLower_basic, TrimSpace_visible by apply EncodeToString_visible. rewrite (bool_decide_false (#"basic" = #"bearer")), (bool_decide_true (#"basic" = #"basic")) by done.
  rewrite DecodeString_EncodeToString. cbn [mbind option_bind]. case_bool_decide as E; [|done].
  assert (userinfo = []) as ->; [|done]. pose proof (DecodeString_EncodeToString userinfo) as Hd. rewrite E in Hd. by injection Hd.
Qed.



(** ** The vault of a session *)

(** A proxy request gets a vault its session may use. A resolved scope
    comes from a live session: either a scoped one, whose own vault it names
    and which the hint, if any, names too; or an agent's, on the vault the hint
    names with a role granted there, or on the only vault it has a grant for.  *)
Theorem resolved_scope_granted GetSession GetVault GetVaultByID GetVaultRole ListActorGrants now token hint scope :
  ResolveForProxy GetSession GetVault GetVaultByID GetVaultRole ListActorGrants now token hint = Ok scope →
  ∃ sess, token ≠ [] ∧ GetSession token = Some sess ∧ IsExpired sess now = false ∧ ps_AgentID scope = se_AgentID sess ∧
  ((∃ v, se_VaultID sess ≠ [] ∧ GetVaultByID (se_VaultID sess) = Some v ∧ (hint = [] ∨ hint = va_Name v) ∧
         ps_UserID scope = se_UserID sess ∧ ps_VaultID scope = va_ID v ∧ ps_VaultName scope = va_Name v ∧ ps_VaultRole scope = se_VaultRole sess) ∨
   (se_VaultID sess = [] ∧ se_AgentID sess ≠ [] ∧ ps_UserID scope = [] ∧
      ((∃ v, hint ≠ [] ∧ GetVault hint = Some v ∧ ps_VaultID scope = va_ID v ∧ ps_VaultName scope = va_Name v ∧
             GetVaultRole (se_AgentID sess) (va_ID v) = Some (ps_VaultRole scope) ∧ ps_VaultRole scope ≠ []) ∨
       (∃ g, hint = [] ∧ ListActorGrants (se_AgentID sess) = Some [g] ∧ ps_VaultID scope = gr_VaultID g ∧ ps_VaultName scope = gr_VaultName g ∧
             ps_VaultRole scope = gr_Role g)))).
Proof.
  unfold ResolveForProxy. intros Hs. case_bool_decide as Ht; [done|]. destruct (GetSession token) as [sess|] eqn:Eg; [|done].
  destruct (IsExpired sess now) eqn:Ee; [done|]. exists sess. repeat (split; [done|]).
  destruct (bool_decide_reflect (se_VaultID sess = [])) as [Ev|Ev]; cbn [negb] in Hs.
  - case_bool_decide as Ea; [done|]. destruct (bool_decide_reflect (hint = [])) as [Eh|Eh]; cbn [negb] in Hs.
    + destruct (ListActorGrants _) as [[|g [|]]|] eqn:El; try done. injection Hs as <-. split; [done|]. right. split; [done|]. split; [done|]. split; [done|]. right. by exists g.
    + destruct (GetVault hint) as [v|] eqn:Eq; [|done]. destruct (GetVaultRole _ _) as [role|] eqn:Er; [|done]. case_bool_decide as Hr; [done|]. injection Hs as <-.
      split; [done|]. right. split; [done|]. split; [done|]. split; [done|]. left. by exists v.
  - destruct (GetVaultByID _) as [v|] eqn:Eq; [|done]. destruct (_ && _) eqn:Eh; [done|]. injection Hs as <-. split; [done|]. left. exists v. repeat (split; [done|]). split; [|done].
    apply andb_false_iff in Eh as [Eh|Eh]; apply negb_false_iff, bool_decide_eq_true in Eh; [by left|by right].
Qed.

Definition sample_session : Session :=
  {| se_UserID := []; se_VaultID := []; se_AgentID := #"agent-1"; se_VaultRole := []; se_ExpiresAt := Some 100; se_LastUsedAt := None; se_IdleTTL := 0 |}.
Lemma resolved_scope_granted_witness : ∃ v, va_Name v = #"prod" ∧ va_ID v = #"v1".
Proof.
  destruct (resolved_scope_granted (λ _, Some sample_session) (λ _, Some {| va_ID := #"v1"; va_Name := #"prod" |}) (λ _, None) (λ _ _, Some #"proxy") (λ _, None) 7
    #"av_agt_1" #"prod" {| ps_UserID := []; ps_AgentID := #"agent-1"; ps_VaultID := #"v1"; ps_VaultName := #"prod"; ps_VaultRole := #"proxy" |} eq_refl)
    as (sess & _ & Es & _ & _ & [(v & _ & Ev & _)|(_ & _ & _ & [(v & _ & Ev & _)|(g & Eh & _)])]).
  - discriminate Ev.
  - exists v. injection Ev as <-. split; reflexivity.
  - discriminate Eh.
Defined.

(** ** The PROXY header *)

Abbreviation crlf := [x0d; x0a].

Lemma HasSuffix_crlf line : HasSuffix line crlf = true → line = take (length line - 2) line ++ crlf.
Proof. intros [t ->]%HasSuffix_spec. rewrite length_app. cbn [length]. replace (length t + 2 - 2)%nat with (length t) by lia. by rewrite take_app_length. Qed.

(** What the loop accepts, it has read up to its end and no further. *)
Lemma read_proxy_sound fuel : ∀ line stream a rest, read_proxy fuel line stream = (Some a, rest) →
  ∃ body, line ++ stream = body ++ crlf ++ rest ∧ (length body + 2 <= length line + fuel)%nat ∧ parseProxyV1 body = Some a.
Proof.
  induction fuel as [|fuel IH]; intros line stream a rest Hr; cbn [read_proxy] in Hr; [done|]. destruct stream as [|b stream]; [done|].
  destruct (_ && _); [done|]. destruct (HasSuffix (line ++ [b]) crlf) eqn:Es.
  - injection Hr as Hp <-. apply HasSuffix_crlf in Es. exists (take (length (line ++ [b]) - 2) (line ++ [b])).
    rewrite app_assoc, <- Es, <- app_assoc. split; [done|]. split; [|done]. rewrite length_take, length_app. cbn [length].
    apply (f_equal length) in Es. rewrite !length_app, length_take, length_app in Es. cbn [length] in Es. lia.
  - apply IH in Hr as (body & E & Hl & Hp). exists body. rewrite <- app_assoc in E. split; [done|]. rewrite length_app in Hl. cbn [length] in Hl. split; [lia|done].
Qed.

Definition no_line_end (body : bytes) : Prop := ∀ a b, body ++ [x0d] ≠ a ++ crlf ++ b.

Lemma magic_at body n b : proxy_magic `prefix_of` body → body !! n = Some b → (n < 6)%nat → proxy_magic !! n = Some b.
Proof. intros [t ->] Hb Hn. by rewrite lookup_app_l in Hb. Qed.

Lemma read_proxy_complete body rest : proxy_magic `prefix_of` body → no_line_end body → ∀ tl line fuel,
  line ++ tl = body ++ crlf → tl ≠ [] → (length tl <= fuel)%nat → read_proxy fuel line (tl ++ rest) = (parseProxyV1 body, rest).
Proof.
  intros Hm Hn tl. induction tl as [|b tl IH]; intros line fuel E Hne Hf; [done|]. destruct fuel as [|fuel]; cbn [length] in Hf; [lia|]. cbn [app read_proxy].
  assert (Hl6 : (6 <= length body)%nat) by (destruct Hm as [t ->]; rewrite length_app; cbn; lia).
  assert (Hfirst : ((length (line ++ [b]) <=? 6)%nat && negb (bool_decide (proxy_magic !! (length (line ++ [b]) - 1)%nat = Some b))) = false).
  { rewrite length_app. cbn [length]. destruct (Nat.leb_spec (length line + 1) 6); [|done]. cbn [andb]. apply negb_false_iff, bool_decide_true.
    rewrite Nat.add_sub. apply (magic_at body); [done| |lia]. rewrite <- (lookup_app_l body crlf) by lia. rewrite <- E, lookup_app_r, Nat.sub_diag by lia. done. }
  rewrite Hfirst. destruct (HasSuffix (line ++ [b]) crlf) eqn:Es.
  - apply HasSuffix_crlf in Es. set (pre := take (length (line ++ [b]) - 2) (line ++ [b])) in *.
    assert (Eall : pre ++ crlf ++ tl = body ++ crlf) by by rewrite app_assoc, <- Es, <- app_assoc.
    destruct tl as [|c tl] using rev_ind.
    + rewrite app_nil_r in Eall. apply app_inv_tail in Eall. by rewrite Eall.
    + clear IHtl. change crlf with ([x0d] ++ [x0a]) in Eall at 2. rewrite (app_assoc body), !app_assoc in Eall. apply app_inj_tail in Eall as [Eall _]. rewrite <- !app_assoc in Eall.
      by destruct (Hn pre tl).
  - apply IH; [by rewrite <- app_assoc| |lia]. intros ->. rewrite E in Es. assert (HasSuffix (body ++ crlf) crlf = true) by (apply HasSuffix_spec; by exists body). congruence.
Qed.

(** The PROXY header. From a loopback peer [ReadProxyV1] reads exactly the
    first line: what it accepts is a line of at most 107 bytes whose source is the
    answer, and the bytes after it stay in the connection; and it does so for
    every such line that starts like a header. *)
Theorem ReadProxyV1_exact stream a rest :
  (ReadProxyV1 true stream = (Some a, rest) → ∃ body, stream = body ++ crlf ++ rest ∧ (length body + 2 <= 107)%nat ∧ parseProxyV1 body = Some a) ∧
  (∀ body, stream = body ++ crlf ++ rest → (length body + 2 <= 107)%nat → proxy_magic `prefix_of` body → no_line_end body →
     ReadProxyV1 true stream = (parseProxyV1 body, rest)).
Proof.
  split.
  - intros (body & E & Hl & Hp)%read_proxy_sound. by exists body.
  - intros body -> Hl Hm Hn. unfold ReadProxyV1. rewrite app_assoc. apply (read_proxy_complete body); [done|done|done|by destruct body|rewrite length_app; exact Hl].
Qed.

(** ** What a refusal records *)

(** The key ID of a refusal is a plain identifier, whatever the token held. *)
Theorem DeniedKey_plain hex_sha256 kid : Forall (λ c, kid_char c = true) (runes (kd_Kid (DeniedKey hex_sha256 kid))).
Proof.
  unfold DeniedKey. destruct (MatchString plainKid kid) eqn:Em; cbn [kd_Kid]; [|by apply (bool_decide_unpack _); vm_compute].
  unfold MatchString in Em. apply full_match_lang in Em. refine (lang_Forall _ plainKid _ _ Em). exact (conj (λ _ H, H) (RUpTo_ok _ 127 (RCls kid_char) (λ _ H, H))).
Qed.
