(* ===== verification/PgSession.v ===== *)
(** * A pooled client session ([internal/pgproxy/txn.go])

    One client multiplexed onto shared server connections: what it may send, how
    its messages are rewritten and counted, which answers it gets, and when its
    connection goes back to the pool.  Each function is a section the code runs
    under [s.mu]; the fields of [pooledSession] are grouped by what they count.
    A message keeps what the session looks at; times are milliseconds. *)

From S2P Require Import Prelude GoString GoStrconv SqlClassify PgWire.

(** ** Messages *)

(** The frontend messages; the payload of the others is not looked at. *)
Inductive frontend :=
| Query (sql : bytes)
| Sync
| FunctionCall
| Parse (name query : bytes) (types : list Z)
| BindMsg (statement : bytes)
| DescribeMsg (statement : bool) (name : bytes)            (* ['S'], else ['P'] *)
| CloseMsg (statement : bool) (name : bytes)
| Execute
| Flush
| CopyMsg                                                  (* CopyData, CopyDone, CopyFail *)
| Terminate.

Inductive backend :=
| ParseComplete
| CloseComplete
| ErrorResponse
| ParameterStatus (name value : bytes)
| DataRow
| ReadyForQuery (status : byte)
| OtherAnswer (n : Z).

#[global] Instance frontend_eq : EqDecision frontend.
Proof. solve_decision. Defined.
#[global] Instance backend_eq : EqDecision backend.
Proof. solve_decision. Defined.

Definition idle_status : byte := x49.                      (* ['I'] *)

(** ** State *)

Definition maxSessionStatements : Z := 1000.
Definition maxSessionStatementBytes : Z := 16 * 2 ^ 20.

Record clientStatement := { cs_query : bytes; cs_types : list Z; cs_server : bytes }.
Record swallowEntry := { sw_close : bool; sw_seq : Z }.

(** The session's view of its server connection. *)
Record connState := {
  cn_prepared : gset bytes;
  cn_params : gmap bytes bytes;
  cn_actual : gmap bytes bytes;
  cn_reported : gmap bytes bytes;
  cn_seen : gmap bytes bytes;
}.

(** What awaits an answer. *)
Record flow := {
  fl_pending : Z;
  fl_unsynced : bool;
  fl_executed : bool;
  fl_txStatus : byte;
  fl_swallow : list swallowEntry;
  fl_sendSeq : Z;
  fl_recvSeq : Z;
  fl_flushedSeq : Z;
}.

Record statementTable := { tb_statements : gmap bytes clientStatement; tb_bytes : Z }.

Record pooledSession := {
  ss_conn : option connState;
  ss_pinned : bool;
  ss_flow : flow;
  ss_table : statementTable;
  ss_txnStart : option Z;
  ss_txnFailed : bool;
  ss_killed : bool;
  ss_started : bool;
  ss_dataRows : Z;
  ss_draining : bool;
}.

Definition new_session : pooledSession :=
  {| ss_conn := None; ss_pinned := false;
     ss_flow := {| fl_pending := 0; fl_unsynced := false; fl_executed := false; fl_txStatus := idle_status; fl_swallow := []; fl_sendSeq := 0;
                   fl_recvSeq := 0; fl_flushedSeq := 0 |};
     ss_table := {| tb_statements := ∅; tb_bytes := 0 |}; ss_txnStart := None; ss_txnFailed := false; ss_killed := false; ss_started := false;
     ss_dataRows := 0; ss_draining := false |}.

Definition with_conn (c : option connState) (s : pooledSession) : pooledSession :=
  {| ss_conn := c; ss_pinned := ss_pinned s; ss_flow := ss_flow s; ss_table := ss_table s; ss_txnStart := ss_txnStart s; ss_txnFailed := ss_txnFailed s;
     ss_killed := ss_killed s; ss_started := ss_started s; ss_dataRows := ss_dataRows s; ss_draining := ss_draining s |}.
Definition with_flow (f : flow) (s : pooledSession) : pooledSession :=
  {| ss_conn := ss_conn s; ss_pinned := ss_pinned s; ss_flow := f; ss_table := ss_table s; ss_txnStart := ss_txnStart s; ss_txnFailed := ss_txnFailed s;
     ss_killed := ss_killed s; ss_started := ss_started s; ss_dataRows := ss_dataRows s; ss_draining := ss_draining s |}.
Definition with_table (t : statementTable) (s : pooledSession) : pooledSession :=
  {| ss_conn := ss_conn s; ss_pinned := ss_pinned s; ss_flow := ss_flow s; ss_table := t; ss_txnStart := ss_txnStart s; ss_txnFailed := ss_txnFailed s;
     ss_killed := ss_killed s; ss_started := ss_started s; ss_dataRows := ss_dataRows s; ss_draining := ss_draining s |}.
Definition with_txn (start : option Z) (failed : bool) (s : pooledSession) : pooledSession :=
  {| ss_conn := ss_conn s; ss_pinned := ss_pinned s; ss_flow := ss_flow s; ss_table := ss_table s; ss_txnStart := start; ss_txnFailed := failed;
     ss_killed := ss_killed s; ss_started := ss_started s; ss_dataRows := ss_dataRows s; ss_draining := ss_draining s |}.
Definition with_pinned (b : bool) (s : pooledSession) : pooledSession :=
  {| ss_conn := ss_conn s; ss_pinned := b; ss_flow := ss_flow s; ss_table := ss_table s; ss_txnStart := ss_txnStart s; ss_txnFailed := ss_txnFailed s;
     ss_killed := ss_killed s; ss_started := ss_started s; ss_dataRows := ss_dataRows s; ss_draining := ss_draining s |}.
Definition with_marks (killed started draining : bool) (s : pooledSession) : pooledSession :=
  {| ss_conn := ss_conn s; ss_pinned := ss_pinned s; ss_flow := ss_flow s; ss_table := ss_table s; ss_txnStart := ss_txnStart s; ss_txnFailed := ss_txnFailed s;
     ss_killed := killed; ss_started := started; ss_dataRows := ss_dataRows s; ss_draining := draining |}.
Definition with_dataRows (n : Z) (s : pooledSession) : pooledSession :=
  {| ss_conn := ss_conn s; ss_pinned := ss_pinned s; ss_flow := ss_flow s; ss_table := ss_table s; ss_txnStart := ss_txnStart s; ss_txnFailed := ss_txnFailed s;
     ss_killed := ss_killed s; ss_started := ss_started s; ss_dataRows := n; ss_draining := ss_draining s |}.

Definition with_prepared (p : gset bytes) (c : connState) : connState :=
  {| cn_prepared := p; cn_params := cn_params c; cn_actual := cn_actual c; cn_reported := cn_reported c; cn_seen := cn_seen c |}.
Definition with_seen (m : gmap bytes bytes) (c : connState) : connState :=
  {| cn_prepared := cn_prepared c; cn_params := cn_params c; cn_actual := cn_actual c; cn_reported := cn_reported c; cn_seen := m |}.

(** [s.pending++; s.sendSeq++] *)
Definition count_sent (f : flow) : flow :=
  {| fl_pending := fl_pending f + 1; fl_unsynced := fl_unsynced f; fl_executed := fl_executed f; fl_txStatus := fl_txStatus f; fl_swallow := fl_swallow f;
     fl_sendSeq := fl_sendSeq f + 1; fl_recvSeq := fl_recvSeq f; fl_flushedSeq := fl_flushedSeq f |}.
Definition set_batch (unsynced executed : bool) (f : flow) : flow :=
  {| fl_pending := fl_pending f; fl_unsynced := unsynced; fl_executed := executed; fl_txStatus := fl_txStatus f; fl_swallow := fl_swallow f;
     fl_sendSeq := fl_sendSeq f; fl_recvSeq := fl_recvSeq f; fl_flushedSeq := fl_flushedSeq f |}.
Definition set_swallow (l : list swallowEntry) (f : flow) : flow :=
  {| fl_pending := fl_pending f; fl_unsynced := fl_unsynced f; fl_executed := fl_executed f; fl_txStatus := fl_txStatus f; fl_swallow := l;
     fl_sendSeq := fl_sendSeq f; fl_recvSeq := fl_recvSeq f; fl_flushedSeq := fl_flushedSeq f |}.
(** [s.pending--; s.recvSeq++; s.txStatus = status] *)
Definition count_ready (status : byte) (f : flow) : flow :=
  {| fl_pending := fl_pending f - 1; fl_unsynced := fl_unsynced f; fl_executed := fl_executed f; fl_txStatus := status; fl_swallow := fl_swallow f;
     fl_sendSeq := fl_sendSeq f; fl_recvSeq := fl_recvSeq f + 1; fl_flushedSeq := fl_flushedSeq f |}.
Definition count_flushed (f : flow) : flow :=
  {| fl_pending := fl_pending f; fl_unsynced := fl_unsynced f; fl_executed := fl_executed f; fl_txStatus := fl_txStatus f; fl_swallow := fl_swallow f;
     fl_sendSeq := fl_sendSeq f; fl_recvSeq := fl_recvSeq f; fl_flushedSeq := fl_flushedSeq f + 1 |}.

(** The session's status byte, and an idle point. *)
Definition status (s : pooledSession) : byte := match ss_conn s with None => idle_status | Some _ => fl_txStatus (ss_flow s) end.

Definition idleLocked (s : pooledSession) : bool :=
  let f := ss_flow s in
  (fl_pending f <=? 0) && negb (fl_unsynced f) && (fl_flushedSeq f =? fl_recvSeq f) &&
  match ss_conn s with None => true | Some _ => ss_pinned s && bool_decide (fl_txStatus f = idle_status) end.

(** ** Taking and sending *)

(** The last section of [bind]: a session that holds no connection takes one;
    [None]: it was killed meanwhile and the connection goes back unused. *)
Definition bound (conn : connState) (pin : bool) (s : pooledSession) : option pooledSession :=
  if ss_killed s then None
  else
    let f := ss_flow s in
    Some (with_pinned pin (with_conn (Some conn) (with_flow
      {| fl_pending := 0; fl_unsynced := false; fl_executed := false; fl_txStatus := idle_status; fl_swallow := []; fl_sendSeq := fl_sendSeq f;
         fl_recvSeq := fl_recvSeq f; fl_flushedSeq := fl_flushedSeq f |} s))).

Inductive bind_result := Killed | Bound (s : pooledSession) | PinRefused | Acquire.

(** The first section: [pin_ok] is what [serverPools.pin] answers. *)
Definition bind_begin (pin : bool) (pin_ok : bool) (s : pooledSession) : bind_result :=
  if ss_killed s then Killed
  else match ss_conn s with
       | Some _ => if pin && negb (ss_pinned s) then if pin_ok then Bound (with_pinned true s) else PinRefused else Bound s
       | None => Acquire
       end.

(** A message on its way to the server; [true]: the broker's own. *)
Abbreviation sent := (frontend * bool)%type.

Section Forward.
Context (hex_sha256 : bytes → bytes).

(** The digest covers the query and the types as big-endian words. *)
Definition serverStatementName (query : bytes) (types : list Z) : bytes :=
  #"gatehouse_" ++ take 24 (hex_sha256 (query ++ flat_map BigEndianUint32 types)).

Definition serverStatement (conn : connState) (name : bytes) (s : pooledSession) : pooledSession * connState * list sent * bytes :=
  if bool_decide (name = []) then (s, conn, [], [])
  else match tb_statements (ss_table s) !! name with
       | None => (s, conn, [], name)
       | Some st =>
           if bool_decide (cs_server st ∈ cn_prepared conn) then (s, conn, [], cs_server st)
           else
             let f := ss_flow s in
             (with_flow (set_swallow (fl_swallow f ++ [{| sw_close := true; sw_seq := fl_sendSeq f |}; {| sw_close := false; sw_seq := fl_sendSeq f |}]) f) s,
              with_prepared ({[cs_server st]} ∪ cn_prepared conn) conn,
              [(CloseMsg true (cs_server st), true); (Parse (cs_server st) (cs_query st) (cs_types st), true)], cs_server st)
       end.

Definition forget_bytes (name : bytes) (t : statementTable) : Z :=
  match tb_statements t !! name with Some old => tb_bytes t - Z.of_nat (length (cs_query old)) | None => tb_bytes t end.

(** What [forward] does with its connection. *)
Definition forward_on (conn : connState) (s : pooledSession) (msg : frontend) : pooledSession * connState * list sent :=
  let f := ss_flow s in
  match msg with
  | Query _ | FunctionCall => (with_flow (count_sent f) s, conn, [(msg, false)])
  | Sync => (with_flow (set_batch false false (count_sent f)) s, conn, [(msg, false)])
  | Parse name query types =>
      let f := set_batch true (fl_executed f) f in
      if bool_decide (name = []) then (with_flow f s, conn, [(msg, false)])
      else
        let server := serverStatementName query types in
        let t := ss_table s in
        let t := {| tb_statements := <[name := {| cs_query := query; cs_types := types; cs_server := server |}]> (tb_statements t);
                    tb_bytes := forget_bytes name t + Z.of_nat (length query) |} in
        let f := set_swallow (fl_swallow f ++ [{| sw_close := true; sw_seq := fl_sendSeq f |}]) f in
        (with_flow f (with_table t s), with_prepared ({[server]} ∪ cn_prepared conn) conn,
         [(CloseMsg true server, true); (Parse server query types, false)])
  | BindMsg name =>
      let '(s, conn, extra, server) := serverStatement conn name (with_flow (set_batch true (fl_executed f) f) s) in
      (s, conn, extra ++ [(BindMsg server, false)])
  | DescribeMsg true name =>
      let '(s, conn, extra, server) := serverStatement conn name (with_flow (set_batch true (fl_executed f) f) s) in
      (s, conn, extra ++ [(DescribeMsg true server, false)])
  | CloseMsg true name =>
      let s := with_flow (set_batch true (fl_executed f) f) s in
      if bool_decide (name = []) then (s, conn, [(msg, false)])
      else
        let t := ss_table s in
        (with_table {| tb_statements := delete name (tb_statements t); tb_bytes := forget_bytes name t |} s, conn, [(CloseMsg true #"gatehouse_closed", false)])
  | DescribeMsg false _ | CloseMsg false _ | Flush => (with_flow (set_batch true (fl_executed f) f) s, conn, [(msg, false)])
  | Execute => (with_flow (set_batch true true f) s, conn, [(msg, false)])
  | CopyMsg | Terminate => (s, conn, [(msg, false)])
  end.

(** [forward]; [None] is [errRebind]. *)
Definition forward (now : Z) (s : pooledSession) (msg : frontend) : option (pooledSession * list sent) :=
  match ss_conn s with
  | None => None
  | Some conn =>
      let s := match ss_txnStart s with None => with_txn (Some now) (ss_txnFailed s) s | Some _ => s end in
      let '(s, conn, out) := forward_on conn s msg in
      Some (with_conn (Some conn) s, out)
  end.
End Forward.

(** ** Answers *)

Inductive received :=
| Swallowed (s : pooledSession)
| Relay (s : pooledSession) (flush : bool) (txn : option (bool * Z)) (release : option connState)
| EncodingChanged (s : pooledSession).

Definition drop_batch (f : flow) : flow := set_swallow (List.filter (λ e, negb (sw_seq e =? fl_recvSeq f)) (fl_swallow f)) f.

Definition swallow_match (e : swallowEntry) (msg : backend) : bool :=
  match msg with CloseComplete => sw_close e | ParseComplete => negb (sw_close e) | _ => false end.

(** An answer that goes to the client. *)
Definition relay_answer (now : Z) (conn : connState) (s : pooledSession) (msg : backend) : received :=
  let f := ss_flow s in
  match msg with
  | ErrorResponse => Relay (with_conn (Some (with_prepared ∅ conn)) (with_txn (ss_txnStart s) true (with_flow (drop_batch f) s))) true None None
  | ParameterStatus name value =>
      let s := with_conn (Some (with_seen (<[name := value]> (cn_seen conn)) conn)) s in
      if unsafeLexerParameter name value then EncodingChanged s else Relay s true None None
  | DataRow => Relay (with_dataRows (ss_dataRows s + 1) s) ((ss_dataRows s + 1) mod 64 =? 0) None None
  | ReadyForQuery st =>
      let f := count_ready st f in
      let idle := bool_decide (st = idle_status) in
      let txn := match ss_txnStart s with Some t => if idle then Some (ss_txnFailed s, now - t) else None | None => None end in
      let s := with_flow f (match txn with Some _ => with_txn None false s | None => s end) in
      if (fl_pending f <=? 0) && negb (fl_unsynced f) && idle && negb (ss_pinned s)
      then Relay (with_conn None s) true txn (Some conn) else Relay s true txn None
  | _ => Relay s true None None
  end.

(** One turn of [readServer] on the connection it reads; [txn] is the audited
    transaction (failed, duration), [release] the connection that is given back. *)
Definition receive (now : Z) (conn : connState) (s : pooledSession) (msg : backend) : received :=
  let f := ss_flow s in
  match fl_swallow f with
  | e :: rest =>
      if (sw_seq e =? fl_recvSeq f) && swallow_match e msg then Swallowed (with_flow (set_swallow rest f) s) else relay_answer now conn s msg
  | [] => relay_answer now conn s msg
  end.

(** The answer has been written: a drained session may end now. *)
Definition answered (s : pooledSession) (msg : backend) : pooledSession :=
  match msg with ReadyForQuery _ => with_flow (count_flushed (ss_flow s)) s | _ => s end.

(** ** Giving the connection back *)

Inductive leak_outcome := RoleSwitched | RoleDefaults | Reset.
#[global] Instance leak_outcome_eq : EqDecision leak_outcome.
Proof. solve_decision. Defined.

(** A parameter the server reported differently from how the broker left it. *)
Definition seen_leak (conn : connState) : bool :=
  existsb (λ '(n, v), negb (bool_decide (default [] (cn_reported conn !! n) = v))) (map_to_list (cn_seen conn)).

(** [verifyClean]: whether the connection may be reused, the outcome it audits
    and whether its credential is retired.  [state] is the answer of the check
    query, [discarded] whether DISCARD ALL worked. *)
Definition verifyClean (conn : connState) (state : option bytes) (discarded : bool) : bool * option leak_outcome * bool :=
  match state with
  | None => (false, None, false)
  | Some st =>
      if bool_decide (st = #"switched") then (false, Some RoleSwitched, false)
      else if bool_decide (st = #"role") then (false, Some RoleDefaults, true)
      else if bool_decide (st = #"state") then (discarded, Some Reset, false)
      else if bool_decide (st = #"clean") then if seen_leak conn then (discarded, Some Reset, false) else (true, None, false)
      else (false, None, false)
  end.

(** [end]: the connection to release and whether it may be reused. *)
Definition end_session (s : pooledSession) (state : option bytes) (discarded : bool) : pooledSession * option (connState * bool) :=
  let f := ss_flow s in
  match ss_conn s with
  | None => (s, None)
  | Some conn =>
      let reusable := negb (ss_killed s) && (fl_pending f =? 0) && negb (fl_unsynced f) && bool_decide (fl_txStatus f = idle_status) in
      let reusable := reusable && (if ss_pinned s then discarded else (verifyClean conn state discarded).1.1) in
      (with_conn None s, Some (conn, reusable))
  end.

Inductive closeNotice := noticeRestarting | noticeRestartCut | noticeUpstream | noticeCredential | noticeAuthorization | noticeDeadline | noticeAudit | noticeEncoding.
#[global] Instance closeNotice_eq : EqDecision closeNotice.
Proof. solve_decision. Defined.

(** The SQLSTATE and the reason of a notice. *)
Definition notice_code (n : closeNotice) : bytes * bytes :=
  match n with
  | noticeRestarting => (#"57P01", #"restarting")
  | noticeRestartCut => (#"08006", #"restart_cut")
  | noticeAuthorization => (#"08006", #"authorization_ended")
  | noticeDeadline => (#"08006", #"deadline")
  | noticeCredential => (#"08006", #"credential_expired")
  | noticeUpstream => (#"08006", #"upstream")
  | noticeAudit => (#"08004", #"audit_unavailable")
  | noticeEncoding => (#"42501", #"encoding_change")
  end.

(** [killWith]: the connection that is closed and the notice that is written;
    [None] if the session was killed before. *)
Definition killWith (n : option closeNotice) (s : pooledSession) : option (pooledSession * option connState * option closeNotice) :=
  if ss_killed s then None
  else
    let n := if bool_decide (n = Some noticeRestarting) && negb (idleLocked s) then Some noticeRestartCut else n in
    Some (with_conn None (with_marks true (ss_started s) (ss_draining s) s), ss_conn s, n).

(** [beginDrain]; [true]: the session's read is woken now. *)
Definition beginDrain (s : pooledSession) : pooledSession * bool :=
  let s := with_marks (ss_killed s) (ss_started s) true s in (s, idleLocked s).

(** ** Refusals *)

Inductive refusal := errRoleChange | errLexerChange | errReadOnly | errStatementLimit | errPipelinedEscape | errPoolBudget | errPinnedShare | errOther.
#[global] Instance refusal_eq : EqDecision refusal.
Proof. solve_decision. Defined.

(** [poolRefusal]: the SQLSTATE and the audited outcome. *)
Definition poolRefusal (e : refusal) : bytes * bytes :=
  match e with
  | errPoolBudget => (#"53300", #"pool_budget")
  | errPinnedShare => (#"53300", #"pinned_share")
  | errRoleChange => (#"42501", #"role_change")
  | errReadOnly => (#"25006", #"read_only")
  | errLexerChange => (#"42501", #"encoding_change")
  | errPipelinedEscape => (#"0A000", #"pipelined_escape")
  | errStatementLimit => (#"54000", #"statement_limit")
  | errOther => (#"08006", #"upstream")
  end.

Definition sql_of (msg : frontend) : bytes := match msg with Query sql => sql | Parse _ query _ => query | _ => [] end.

Section Refuse.
Context `{UnicodeTables}.

(** [refuse]: the refusal, or the session with its new [started]. *)
Definition refuse (readOnly : bool) (s : pooledSession) (msg : frontend) : refusal + pooledSession :=
  let sql := sql_of msg in
  let text := negb (bool_decide (sql = [])) in
  if text && changesRole sql then inl errRoleChange
  else
    let '(refused, started) := if text then changesLexer sql (ss_started s) else (false, ss_started s) in
    if refused then inl errLexerChange
    else if readOnly && (bool_decide (msg = FunctionCall) || text && negb (readOnlyAllowed sql)) then inl errReadOnly
    else
      let over :=
        match msg with
        | Parse name query _ =>
            negb (bool_decide (name = [])) &&
            (let t := ss_table s in
             let replaces := bool_decide (is_Some (tb_statements t !! name)) in
             let count := Z.of_nat (size (tb_statements t)) - (if replaces then 1 else 0) in
             let total := forget_bytes name t + Z.of_nat (length query) in
             (maxSessionStatements <=? count) || (maxSessionStatementBytes <? total))
        | _ => false
        end in
      if over then inl errStatementLimit else inr (with_marks (ss_killed s) started (ss_draining s) s).
End Refuse.

Inductive settling := Settled | Refuse | Ended | Wait.

(** One look of [settleBeforeEscapes]. *)
Definition settle (s : pooledSession) (sql : bytes) : settling :=
  if negb (ContainsByte sql x5c) then Settled
  else if ss_killed s then Ended
  else match ss_conn s with
       | Some _ => if fl_executed (ss_flow s) then Refuse else if fl_pending (ss_flow s) =? 0 then Settled else Wait
       | None => Settled
       end.

(** What a refused message gets: an error, and whether the session ends or drops
    what follows until the next Sync. *)
Inductive refusal_answer := ErrorAndReady (status : byte) | FatalEnd | ErrorUntilSync.
Definition refused_answer (s : pooledSession) (msg : frontend) : refusal_answer :=
  match msg with
  | Query _ | FunctionCall => ErrorAndReady (status s)
  | _ => match ss_conn s with Some _ => if fl_unsynced (ss_flow s) then FatalEnd else ErrorUntilSync | None => ErrorUntilSync end
  end.

(** ** Session parameters *)

Definition sessionParams : list bytes :=
  [ #"DateStyle"; #"TimeZone"; #"client_encoding"; #"extra_float_digits"; #"search_path"; #"standard_conforming_strings"; #"statement_timeout"].

(** [dollarQuote]: the first tag of [$gh$], [$gh0$], [$gh1$], … that does not
    occur in the value before its end; [fuel] counts the numbered tags tried. *)
Definition quote_tag (i : option nat) : bytes := #"$gh" ++ match i with Some n => Itoa (Z.of_nat n) | None => [] end ++ #"$".
Definition tag_free (value tag : bytes) : bool := bool_decide (Index (value ++ tag) tag = Some (length value)).
Fixpoint find_tag (fuel : nat) (value : bytes) (i : nat) : option bytes :=
  match fuel with
  | O => None
  | S fuel => if tag_free value (quote_tag (Some i)) then Some (quote_tag (Some i)) else find_tag fuel value (S i)
  end.
Definition dollarQuote (value : bytes) : option bytes :=
  tag ← (if tag_free value (quote_tag None) then Some (quote_tag None) else find_tag (S (length value)) value 0);
  Some (tag ++ value ++ tag).

(** The changes [syncParams] makes: resets, then settings, in the fixed order. *)
Definition param_resets (want have : gmap bytes bytes) : list bytes :=
  List.filter (λ n, bool_decide (want !! n = None) && bool_decide (is_Some (have !! n))) sessionParams.
Definition param_sets (want have : gmap bytes bytes) : list (bytes * bytes) :=
  omap (λ n, match want !! n with Some v => if bool_decide (have !! n = Some v) then None else Some (n, v) | None => None end) sessionParams.

(** [syncParams] when the server confirmed with [normalized] values; [None]: the
    parameters were rejected or not confirmed. *)
Definition syncParams (want : gmap bytes bytes) (failed : bool) (normalized : list bytes) (conn : connState) : option connState :=
  let resets := param_resets want (cn_params conn) in
  let sets := param_sets want (cn_params conn) in
  if bool_decide (length resets = 0%nat) && bool_decide (length sets = 0%nat) then Some conn
  else if failed || negb (bool_decide (length normalized = length sets)) then None
  else
    let drop m := foldr (λ n m, delete n m) m resets in
    Some {| cn_prepared := cn_prepared conn; cn_params := foldl (λ m '(n, v), <[n := v]> m) (drop (cn_params conn)) sets;
            cn_actual := foldl (λ m '(n, v), <[n := v]> m) (drop (cn_actual conn)) (zip (map fst sets) normalized);
            cn_reported := cn_reported conn; cn_seen := cn_seen conn |}.
