(* ===== verification/PgSessionFacts.v ===== *)
(** * What a pooled session keeps

    The session on one server connection, with the messages on their way, as a
    step relation.  The server is any that answers as the protocol documents:
    it reads in order, and a ReadyForQuery is the last answer of a Query, a Sync
    or a FunctionCall, if it answers that one at all. *)

From S2P Require Import Prelude GoString GoStrconv SqlClassify PgWire PgSession.

(** ** Messages by kind *)

Definition producer (m : frontend) : bool := match m with Query _ | Sync | FunctionCall => true | _ => false end.
Definition is_copy (m : frontend) : bool := match m with CopyMsg | Terminate => true | _ => false end.
Definition is_ready (r : backend) : bool := match r with ReadyForQuery _ => true | _ => false end.

(** A batch of the extended protocol is open at the end. *)
Definition opens (b : bool) (m : frontend) : bool := match m with Sync => false | Query _ | FunctionCall | CopyMsg | Terminate => b | _ => true end.
Definition tail_open (l : list frontend) : bool := foldl opens false l.

Definition tally {A} (f : A → bool) (l : list A) : Z := Z.of_nat (length (List.filter f l)).

(** How the server may answer a message that takes it from one transaction
    status to another; the last component says whether it became ready. *)
Inductive answers (m : frontend) (st : byte) : list backend → byte → bool → Prop :=
| answers_ready rs st' : producer m = true → Forall (λ r, is_ready r = false) rs → answers m st (rs ++ [ReadyForQuery st']) st' true
| answers_silent rs st' : Forall (λ r, is_ready r = false) rs → (is_copy m = true → st' = st) → answers m st rs st' false.

(** ** The session and its server *)

(** [sy_since]: what the server has read since it was last ready. *)
Record system := {
  sy_session : pooledSession;
  sy_inflight : list sent;
  sy_replies : list (backend * bool);
  sy_status : byte;
  sy_since : list frontend;
}.

Inductive step (hex : bytes → bytes) : system → system → Prop :=
| step_forward now msg s' out y : msg ≠ Terminate → forward hex now (sy_session y) msg = Some (s', out) →
    step hex y {| sy_session := s'; sy_inflight := sy_inflight y ++ out; sy_replies := sy_replies y; sy_status := sy_status y; sy_since := sy_since y |}
| step_server m tag rest rs st' ready y : sy_inflight y = (m, tag) :: rest → answers m (sy_status y) rs st' ready →
    step hex y {| sy_session := sy_session y; sy_inflight := rest; sy_replies := sy_replies y ++ map (λ r, (r, tag)) rs; sy_status := st';
                  sy_since := if ready then [] else sy_since y ++ [m] |}
| step_notice r y : is_ready r = false →
    step hex y {| sy_session := sy_session y; sy_inflight := sy_inflight y; sy_replies := sy_replies y ++ [(r, false)]; sy_status := sy_status y;
                  sy_since := sy_since y |}
| step_receive now conn s' r tag rest y : ss_conn (sy_session y) = Some conn → sy_replies y = (r, tag) :: rest →
    (receive now conn (sy_session y) r = Swallowed s' ∨ (∃ flush txn, receive now conn (sy_session y) r = Relay s' flush txn None)) →
    step hex y {| sy_session := s'; sy_inflight := sy_inflight y; sy_replies := rest; sy_status := sy_status y; sy_since := sy_since y |}
| step_answered r y :
    step hex y {| sy_session := answered (sy_session y) r; sy_inflight := sy_inflight y; sy_replies := sy_replies y; sy_status := sy_status y;
                  sy_since := sy_since y |}.

Definition fresh (s : pooledSession) : system := {| sy_session := s; sy_inflight := []; sy_replies := []; sy_status := idle_status; sy_since := [] |}.

Definition msgs (y : system) : list frontend := sy_since y ++ map fst (sy_inflight y).
Definition last_ready (y : system) : byte :=
  foldl (λ st r, match r with ReadyForQuery st' => st' | _ => st end) (fl_txStatus (ss_flow (sy_session y))) (map fst (sy_replies y)).

Record in_step (y : system) : Prop := {
  is_pending : tally producer (msgs y) + tally is_ready (map fst (sy_replies y)) <= fl_pending (ss_flow (sy_session y));
  is_open : tail_open (msgs y) = true → fl_unsynced (ss_flow (sy_session y)) = true;
  is_status : Forall (λ m, is_copy m = true) (sy_since y) → sy_status y = last_ready y;
  is_seq : fl_pending (ss_flow (sy_session y)) = fl_sendSeq (ss_flow (sy_session y)) - fl_recvSeq (ss_flow (sy_session y));
}.

(** ** Counting *)

Lemma tally_app {A} (f : A → bool) a b : tally f (a ++ b) = tally f a + tally f b.
Proof. unfold tally. rewrite lfilter_app, length_app. lia. Qed.
Lemma tally_cons {A} (f : A → bool) x l : tally f (x :: l) = (if f x then 1 else 0) + tally f l.
Proof. unfold tally. cbn [List.filter]. destruct (f x); cbn [length]; lia. Qed.
Lemma tally_nil {A} (f : A → bool) : tally f [] = 0.
Proof. done. Qed.
Lemma tally_nonneg {A} (f : A → bool) l : 0 <= tally f l.
Proof. unfold tally. lia. Qed.
Lemma tally_none {A} (f : A → bool) l : Forall (λ x, f x = false) l → tally f l = 0.
Proof. induction 1 as [|x l Hx _ IH]; [done|]. by rewrite tally_cons, Hx, IH. Qed.
Lemma tally_zero {A} (f : A → bool) l : tally f l <= 0 → Forall (λ x, f x = false) l.
Proof. induction l as [|x l IH]; rewrite ?tally_cons; intros Hc; [constructor|]. pose proof (tally_nonneg f l). destruct (f x) eqn:E; [lia|]. constructor; [done|]. apply IH. lia. Qed.

Lemma opens_mono a b m : (a = true → b = true) → opens a m = true → opens b m = true.
Proof. destruct m; cbn; auto. Qed.
Lemma foldl_opens_mono l : ∀ a b, (a = true → b = true) → foldl opens a l = true → foldl opens b l = true.
Proof. induction l as [|m l IH]; intros a b Hab; cbn; [done|]. apply IH. by apply opens_mono. Qed.
Lemma tail_open_app a b : tail_open b = true → tail_open (a ++ b) = true.
Proof. unfold tail_open. rewrite foldl_app. by apply foldl_opens_mono. Qed.

(** Messages without a pending answer and without an open batch are stray copy
    data. *)
Lemma quiet_copies l : Forall (λ m, producer m = false) l → tail_open l = false → Forall (λ m, is_copy m = true) l.
Proof.
  induction l as [|m l IH] using rev_ind; intros Hp Ho; [constructor|]. apply Forall_app in Hp as [Hp Hm]. inversion_clear Hm as [|? ? Hm0 _].
  unfold tail_open in *. rewrite foldl_app in Ho. cbn [foldl] in Ho. apply Forall_app. split; [apply IH; [done|]|repeat constructor]; by destruct m.
Qed.

(** ** Sending *)

Record sends (s s' : pooledSession) (out : list sent) : Prop := {
  se_pending : fl_pending (ss_flow s') = fl_pending (ss_flow s) + tally producer (map fst out);
  se_seq : fl_sendSeq (ss_flow s') = fl_sendSeq (ss_flow s) + tally producer (map fst out);
  se_recv : fl_recvSeq (ss_flow s') = fl_recvSeq (ss_flow s);
  se_status : fl_txStatus (ss_flow s') = fl_txStatus (ss_flow s);
  se_open : ∀ b, (b = true → fl_unsynced (ss_flow s) = true) → foldl opens b (map fst out) = true → fl_unsynced (ss_flow s') = true;
  se_conn : is_Some (ss_conn s');
}.

Lemma forward_sends hex now s msg s' out : msg ≠ Terminate → forward hex now s msg = Some (s', out) → sends s s' out.
Proof.
  intros Hne. unfold forward. destruct (ss_conn s) as [conn|]; [|done].
  assert (Hf : ss_flow (match ss_txnStart s with None => with_txn (Some now) (ss_txnFailed s) s | Some _ => s end) = ss_flow s) by by destruct (ss_txnStart s).
  set (t := match ss_txnStart s with None => _ | Some _ => _ end) in *. destruct (forward_on hex conn t msg) as [[u c] o] eqn:E. intros [= <- <-].
  destruct msg; unfold forward_on, serverStatement in E; repeat (case_match || (progress simplify_eq/=)); split; cbn; rewrite ?Hf; try done;
    rewrite ?tally_cons, ?tally_nil; cbn; try lia; auto.
Qed.

(** ** Reading *)

Definition taken (s s' : pooledSession) (r : backend) : Prop :=
  fl_unsynced (ss_flow s') = fl_unsynced (ss_flow s) ∧ fl_sendSeq (ss_flow s') = fl_sendSeq (ss_flow s) ∧
  match r with
  | ReadyForQuery st =>
      fl_pending (ss_flow s') = fl_pending (ss_flow s) - 1 ∧ fl_recvSeq (ss_flow s') = fl_recvSeq (ss_flow s) + 1 ∧ fl_txStatus (ss_flow s') = st
  | _ =>
      fl_pending (ss_flow s') = fl_pending (ss_flow s) ∧ fl_recvSeq (ss_flow s') = fl_recvSeq (ss_flow s) ∧
      fl_txStatus (ss_flow s') = fl_txStatus (ss_flow s)
  end.

Lemma relay_taken now conn s r s' flush txn rel : relay_answer now conn s r = Relay s' flush txn rel → taken s s' r.
Proof. unfold relay_answer. intros E. destruct r; repeat (case_match || (progress simplify_eq/=)); repeat split; reflexivity. Qed.

Lemma receive_taken now conn s r s' : receive now conn s r = Swallowed s' ∨ (∃ flush txn rel, receive now conn s r = Relay s' flush txn rel) → taken s s' r.
Proof.
  unfold receive. intros [E|(flush & txn & rel & E)].
  - destruct (fl_swallow (ss_flow s)) as [|e rest]; [unfold relay_answer in E; repeat (case_match || (progress simplify_eq/=))|].
    destruct (_ && swallow_match e r) eqn:Em; [|unfold relay_answer in E; repeat (case_match || (progress simplify_eq/=))].
    injection E as <-. apply andb_true_iff in Em as [_ Em]. by destruct r.
  - destruct (fl_swallow (ss_flow s)) as [|e rest]; [by apply relay_taken in E|]. destruct (_ && swallow_match e r); [done|]. by apply relay_taken in E.
Qed.

(** What a release requires. *)
Lemma receive_release now conn s r s' flush txn c : receive now conn s r = Relay s' flush txn (Some c) →
  r = ReadyForQuery idle_status ∧ fl_pending (ss_flow s) <= 1 ∧ fl_unsynced (ss_flow s) = false ∧ ss_pinned s = false ∧ ss_conn s' = None.
Proof.
  unfold receive. intros E. assert (Er : relay_answer now conn s r = Relay s' flush txn (Some c)) by (destruct (fl_swallow (ss_flow s)) as [|e rest]; [done|]; by destruct (_ && _)).
  clear E. destruct r as [| | |n v| |st|n]; cbn [relay_answer] in Er; try discriminate Er; try (by destruct (unsafeLexerParameter n v)).
  match type of Er with (if ?b then _ else _) = _ => destruct b eqn:Ec end; [|discriminate Er]. injection Er as <- _ _ _.
  apply andb_true_iff in Ec as [[[Hp%Z.leb_le Hu%negb_true_iff]%andb_true_iff Hi%bool_decide_eq_true]%andb_true_iff Hn%negb_true_iff].
  cbn in Hp, Hu. subst st. split; [done|]. split; [lia|]. split; [done|]. split; [|done]. by destruct (ss_txnStart s).
Qed.

(** ** The invariant *)

Lemma fresh_in_step s : fl_pending (ss_flow s) = 0 → fl_txStatus (ss_flow s) = idle_status → fl_sendSeq (ss_flow s) = fl_recvSeq (ss_flow s) → in_step (fresh s).
Proof. intros H1 H2 H3. split; cbn; rewrite ?tally_nil; [lia|done| |lia]. unfold last_ready. cbn. by rewrite H2. Qed.

Lemma last_ready_app st l : foldl (λ st r, match r with ReadyForQuery st' => st' | _ => st end) st l =
  match List.find is_ready (rev l) with Some (ReadyForQuery st') => st' | _ => st end.
Proof.
  induction l as [|r l IH] using rev_ind; [done|]. rewrite foldl_app, rev_app_distr. cbn [foldl rev app List.find]. destruct r; cbn [is_ready]; try apply IH. done.
Qed.

Lemma foldl_ready_none st l : Forall (λ r, is_ready r = false) l → foldl (λ st r, match r with ReadyForQuery st' => st' | _ => st end) st l = st.
Proof. induction 1 as [|r l Hr _ IH]; [done|]. cbn. by destruct r. Qed.

Lemma in_step_forward hex now y msg s' out : in_step y → msg ≠ Terminate → forward hex now (sy_session y) msg = Some (s', out) →
  in_step {| sy_session := s'; sy_inflight := sy_inflight y ++ out; sy_replies := sy_replies y; sy_status := sy_status y; sy_since := sy_since y |}.
Proof.
  intros [P O S Q] Hne Hf. destruct (forward_sends _ _ _ _ _ _ Hne Hf) as [E1 E2 E3 E4 E5 _]. unfold msgs in *.
  split; unfold msgs, last_ready in *; cbn [sy_session sy_inflight sy_replies sy_status sy_since] in *; rewrite ?map_app, ?tally_app in *.
  - lia.
  - rewrite app_assoc. unfold tail_open in *. rewrite foldl_app. by apply E5.
  - rewrite E4. exact S.
  - lia.
Qed.

Lemma in_step_server y m tag rest rs st' ready : in_step y → sy_inflight y = (m, tag) :: rest → answers m (sy_status y) rs st' ready →
  in_step {| sy_session := sy_session y; sy_inflight := rest; sy_replies := sy_replies y ++ map (λ r, (r, tag)) rs; sy_status := st';
             sy_since := if ready then [] else sy_since y ++ [m] |}.
Proof.
  intros [P O S Q] Hi Ha. unfold msgs in P, O. rewrite Hi in P, O. cbn [map fst] in P, O.
  assert (Hrs : map fst (map (λ r, (r, tag)) rs) = rs) by (rewrite map_map; apply map_id).
  split; unfold msgs, last_ready in *; cbn [sy_session sy_inflight sy_replies sy_status sy_since] in *; rewrite ?map_app, ?Hrs, ?tally_app, ?foldl_app in *.
  - destruct Ha as [rs st' Hp Hn|rs st' Hn Hc]; rewrite ?tally_app, ?tally_cons, ?tally_nil in *; rewrite (tally_none is_ready rs Hn); cbn [is_ready];
      pose proof (tally_nonneg producer (sy_since y)); [rewrite Hp in P|]; lia.
  - intros Ht. apply O. destruct Ha as [rs st' Hp Hn|rs st' Hn Hc]; cbn [app] in Ht; [|by rewrite <- app_assoc in Ht].
    replace (sy_since y ++ m :: map fst rest) with ((sy_since y ++ [m]) ++ map fst rest) by by rewrite <- app_assoc. by apply tail_open_app.
  - intros Hc. destruct Ha as [rs st' Hp Hn|rs st' Hn Hc'].
    + rewrite foldl_app. done.
    + rewrite foldl_ready_none by done. apply Forall_app in Hc as [Hs Hm]. inversion_clear Hm as [|? ? Hm0 _]. rewrite Hc' by done. by apply S.
  - done.
Qed.

Lemma in_step_taken y s' r tag rest : in_step y → sy_replies y = (r, tag) :: rest → taken (sy_session y) s' r →
  in_step {| sy_session := s'; sy_inflight := sy_inflight y; sy_replies := rest; sy_status := sy_status y; sy_since := sy_since y |}.
Proof.
  intros [P O S Q] Hr (T1 & T2 & T3). unfold last_ready in S. rewrite Hr in P, S. cbn [map fst foldl] in P, S. rewrite tally_cons in P.
  split; unfold msgs, last_ready in *; cbn [sy_session sy_inflight sy_replies sy_status sy_since] in *.
  - destruct r; cbn [is_ready] in P; destruct T3 as (? & ? & ?); lia.
  - rewrite T1. exact O.
  - destruct r; destruct T3 as (? & ? & ->); exact S.
  - destruct r; destruct T3 as (? & ? & ?); lia.
Qed.

Lemma step_in_step hex y y' : in_step y → step hex y y' → in_step y'.
Proof.
  intros I Hs. destruct Hs as [now msg s' out y Hne Hf|m tag rest rs st' ready y Hi Ha|r y Hr|now conn s' r tag rest y Hc Hr Hrec|r y].
  - by eapply in_step_forward.
  - by eapply in_step_server.
  - destruct I as [P O S Q]. split; unfold msgs, last_ready in *; cbn [sy_session sy_inflight sy_replies sy_status sy_since] in *; rewrite ?map_app, ?tally_app, ?foldl_app in *; try done.
    + cbn [map fst]. rewrite tally_cons, Hr, tally_nil. lia.
    + intros Hall. cbn. rewrite <- S by done. by destruct r.
  - eapply in_step_taken; [done..|]. eapply receive_taken. destruct Hrec as [?|(? & ? & ?)]; eauto.
  - destruct I as [P O S Q]. unfold answered. destruct r; by split.
Qed.

Lemma reachable_in_step hex x y : in_step x → rtc (step hex) x y → in_step y.
Proof. intros I Hr. induction Hr as [x|x z y Hs _ IH]; [done|]. apply IH. by eapply step_in_step. Qed.

(** The server has read everything but stray copy data and has nothing to say:
    no transaction is open on it and no answer of this client's is to come. *)
Definition server_idle (y : system) (replies : list (backend * bool)) : Prop :=
  sy_status y = idle_status ∧ Forall (λ m, is_copy m = true) (map fst (sy_inflight y)) ∧ Forall (λ r, is_ready r = false) (map fst replies).

Lemma settled_idle y replies st : in_step y → tail_open (msgs y) = false → tally producer (msgs y) <= 0 → tally is_ready (map fst replies) <= 0 →
  last_ready y = st → st = idle_status → server_idle y replies.
Proof.
  intros [P O S Q] Ho Hp Hr Hl ->. pose proof (quiet_copies (msgs y) (tally_zero _ _ Hp) Ho) as Hc. unfold msgs in Hc. apply Forall_app in Hc as [Hs Hi].
  split; [by rewrite S|]. split; [done|]. by apply tally_zero.
Qed.


(** ** One query *)

Definition empty_conn : connState := {| cn_prepared := ∅; cn_params := ∅; cn_actual := ∅; cn_reported := ∅; cn_seen := ∅ |}.
Definition query_session : pooledSession := with_conn (Some empty_conn) new_session.
Definition sent_session : pooledSession := match forward id 0 query_session (Query #"SELECT 1") with Some (s, _) => s | None => query_session end.

Lemma query_forwarded : forward id 0 query_session (Query #"SELECT 1") = Some (sent_session, [(Query #"SELECT 1", false)]).
Proof. vm_compute. reflexivity. Qed.
Lemma query_released : ss_conn sent_session = Some empty_conn ∧ ∃ s', receive 5 empty_conn sent_session (ReadyForQuery idle_status) = Relay s' true (Some (false, 5)) (Some empty_conn).
Proof. split; [vm_compute; reflexivity|]. eexists. vm_compute. reflexivity. Qed.

Definition query_answered : system :=
  {| sy_session := sent_session; sy_inflight := []; sy_replies := [(ReadyForQuery idle_status, false)]; sy_status := idle_status; sy_since := [] |}.
Lemma query_reachable : rtc (step id) (fresh query_session) query_answered.
Proof.
  eapply rtc_l; [exact (step_forward id 0 (Query #"SELECT 1") sent_session _ (fresh query_session) ltac:(discriminate) query_forwarded)|].
  eapply rtc_l; [|apply rtc_refl]. apply (step_server id (Query #"SELECT 1") false [] [ReadyForQuery idle_status] idle_status true); [reflexivity|].
  exact (answers_ready (Query #"SELECT 1") idle_status [] idle_status eq_refl (Forall_nil_2 _)).
Qed.

