(* ===== verification/PgSwallow.v ===== *)
(** * Which answers a pooled client sees

    The broker sends messages of its own between the client's, to close and
    prepare statements on whatever connection it holds, and swallows their
    answers.  Against a server that answers every message, and a client that
    closes nothing, it swallows exactly those; what can go wrong otherwise is
    shown on two traces. *)

From S2P Require Import Prelude GoString GoStrconv SqlClassify PgWire PgSession PgSessionFacts.

(** ** A server that answers everything *)

Definition plain (r : backend) : bool := match r with DataRow | ParameterStatus _ _ | OtherAnswer _ => true | _ => false end.

Inductive prompt (m : frontend) : list backend → Prop :=
| prompt_close b n : m = CloseMsg b n → prompt m [CloseComplete]
| prompt_parse n q t : m = Parse n q t → prompt m [ParseComplete]
| prompt_ready rs st : producer m = true → Forall (λ r, plain r = true) rs → prompt m (rs ++ [ReadyForQuery st])
| prompt_plain rs : match m with BindMsg _ | DescribeMsg _ _ | Execute | Flush | CopyMsg => True | _ => False end →
    Forall (λ r, plain r = true) rs → prompt m rs.

(** [tr_client]: what the client was sent; [tr_own]: the answers to its own
    messages, and notices, in the order the server gave them. *)
Record trace := {
  tr_session : pooledSession;
  tr_inflight : list sent;
  tr_replies : list (backend * bool);
  tr_client : list backend;
  tr_own : list backend;
}.

Definition is_close (m : frontend) : bool := match m with CloseMsg _ _ => true | _ => false end.

Inductive turn (hex : bytes → bytes) : trace → trace → Prop :=
| turn_forward now msg s' out t : msg ≠ Terminate → is_close msg = false → forward hex now (tr_session t) msg = Some (s', out) →
    turn hex t {| tr_session := s'; tr_inflight := tr_inflight t ++ out; tr_replies := tr_replies t; tr_client := tr_client t; tr_own := tr_own t |}
| turn_server m tag rest rs t : tr_inflight t = (m, tag) :: rest → prompt m rs →
    turn hex t {| tr_session := tr_session t; tr_inflight := rest; tr_replies := tr_replies t ++ map (λ r, (r, tag)) rs; tr_client := tr_client t; tr_own := tr_own t |}
| turn_notice r t : plain r = true →
    turn hex t {| tr_session := tr_session t; tr_inflight := tr_inflight t; tr_replies := tr_replies t ++ [(r, false)]; tr_client := tr_client t; tr_own := tr_own t |}
| turn_swallow now conn s' r tag rest t : ss_conn (tr_session t) = Some conn → tr_replies t = (r, tag) :: rest → receive now conn (tr_session t) r = Swallowed s' →
    turn hex t {| tr_session := s'; tr_inflight := tr_inflight t; tr_replies := rest; tr_client := tr_client t;
                  tr_own := tr_own t ++ (if tag then [] else [r]) |}
| turn_relay now conn s' flush txn rel r tag rest t : ss_conn (tr_session t) = Some conn → tr_replies t = (r, tag) :: rest →
    receive now conn (tr_session t) r = Relay s' flush txn rel →
    turn hex t {| tr_session := s'; tr_inflight := tr_inflight t; tr_replies := rest; tr_client := tr_client t ++ [r];
                  tr_own := tr_own t ++ (if tag then [] else [r]) |}
| turn_answered r t :
    turn hex t {| tr_session := answered (tr_session t) r; tr_inflight := tr_inflight t; tr_replies := tr_replies t; tr_client := tr_client t; tr_own := tr_own t |}.

Definition fresh_trace (s : pooledSession) : trace := {| tr_session := s; tr_inflight := []; tr_replies := []; tr_client := []; tr_own := [] |}.

(** ** What is owed *)

(** The closes, parses ([true]: a close) and batch ends on their way; the second
    flag marks the broker's own. *)
Inductive item := CP (close own : bool) | Ready.

Definition reply_item (r : backend * bool) : option item :=
  match r with (CloseComplete, t) => Some (CP true t) | (ParseComplete, t) => Some (CP false t) | (ReadyForQuery _, _) => Some Ready | _ => None end.
Definition sent_item (m : sent) : option item :=
  match m with (CloseMsg _ _, t) => Some (CP true t) | (Parse _ _ _, t) => Some (CP false t) | (m, _) => if producer m then Some Ready else None end.

Definition items (t : trace) : list item := omap reply_item (tr_replies t) ++ omap sent_item (tr_inflight t).

(** The entries for a stream of items, from a batch number on. *)
Fixpoint owed (n : Z) (l : list item) : list swallowEntry :=
  match l with
  | [] => []
  | CP c true :: l' => {| sw_close := c; sw_seq := n |} :: owed n l'
  | CP c false :: l' => owed n l'
  | Ready :: l' => owed (n + 1) l'
  end.
Definition batches (l : list item) : Z := tally (λ i, match i with Ready => true | _ => false end) l.

(** An own parse comes right after an own close. *)
Fixpoint paired (prev : bool) (l : list item) : bool :=
  match l with
  | [] => true
  | CP c t :: l' => (c || negb t || prev) && paired (c && t) l'
  | Ready :: l' => paired false l'
  end.
Definition item_ok (i : item) : bool := match i with CP true false => false | _ => true end.

(** The broker's own messages are closes and parses, and so are their answers. *)
Definition own_kind (m : sent) : bool := match m with (CloseMsg _ _, _) | (Parse _ _ _, _) => true | (_, t) => negb t end.
Definition own_reply (r : backend * bool) : bool := match r with (CloseComplete, _) | (ParseComplete, _) => true | (_, t) => negb t end.

Record in_turn (t : trace) : Prop := {
  it_swallow : fl_swallow (ss_flow (tr_session t)) = owed (fl_recvSeq (ss_flow (tr_session t))) (items t);
  it_seq : fl_sendSeq (ss_flow (tr_session t)) = fl_recvSeq (ss_flow (tr_session t)) + batches (items t);
  it_paired : paired true (items t) = true;
  it_own : Forall (λ i, item_ok i = true) (items t);
  it_errors : Forall (λ r, r.1 ≠ ErrorResponse) (tr_replies t);
  it_sent : Forall (λ m, own_kind m = true) (tr_inflight t);
  it_tags : Forall (λ r, own_reply r = true) (tr_replies t);
  it_same : tr_client t = tr_own t;
}.

Lemma owed_app a b : ∀ n, owed n (a ++ b) = owed n a ++ owed (n + batches a) b.
Proof.
  induction a as [|i a IH]; intros n; unfold batches in *; [cbn [app owed]; by rewrite tally_nil, Z.add_0_r|]. rewrite tally_cons.
  destruct i as [c [|]|]; cbn [app owed]; rewrite IH, ?Z.add_0_l, ?Z.add_assoc; done.
Qed.

Lemma batches_app a b : batches (a ++ b) = batches a + batches b.
Proof. apply tally_app. Qed.

Lemma paired_weaken l : ∀ p, paired p l = true → paired true l = true.
Proof. destruct l as [|[c t|] l]; intros p; cbn [paired]; [done| |done]. intros [_ Hl]%andb_true_iff. by rewrite orb_true_r, Hl. Qed.

Lemma paired_app a b : ∀ p, paired p a = true → paired false b = true → paired p (a ++ b) = true.
Proof.
  induction a as [|[c t|] a IH]; intros p Ha Hb; cbn [app paired] in *.
  - destruct p; [by eapply paired_weaken|done].
  - apply andb_true_iff in Ha as [H1 H2]. rewrite H1. by apply IH.
  - by apply IH.
Qed.

(** Without an own close in front the first entry owed is a close. *)
Lemma owed_close l : ∀ n e rest, paired false l = true → owed n l = e :: rest → sw_close e = true.
Proof.
  induction l as [|[c [|]|] l IH]; intros n e rest Hp Ho; cbn [paired owed] in *; [done|..].
  - injection Ho as <- _. apply andb_true_iff in Hp as [Hp _]. cbn. by destruct c.
  - apply andb_true_iff in Hp as [_ Hp]. rewrite andb_false_r in Hp. by eapply IH.
  - by eapply IH.
Qed.

(** ** The steps *)

Lemma prompt_items m tag rs : prompt m rs → omap reply_item (map (λ r, (r, tag)) rs) = omap sent_item [(m, tag)] ∧ Forall (λ r, r ≠ ErrorResponse) rs.
Proof.
  assert (Hplain : ∀ l, Forall (λ r, plain r = true) l → omap reply_item (map (λ r, (r, tag)) l) = [] ∧ Forall (λ r, r ≠ ErrorResponse) l).
  { induction 1 as [|r l Hr _ [IH1 IH2]]; [done|]. split; [destruct r; try done; exact IH1|]. constructor; [|done]. by intros ->. }
  destruct 1 as [b n ->|n q t ->|rs st Hp Hr|rs Hm Hr].
  - split; [done|]. by repeat constructor.
  - split; [done|]. by repeat constructor.
  - destruct (Hplain rs Hr) as [E Hne]. rewrite map_app, omap_app, E. split; [destruct m; try discriminate Hp; reflexivity|]. apply Forall_app. split; [done|]. by repeat constructor.
  - destruct (Hplain rs Hr) as [E Hne]. split; [|done]. rewrite E. by destruct m.
Qed.

Lemma forward_items hex now s msg s' out : msg ≠ Terminate → is_close msg = false → forward hex now s msg = Some (s', out) →
  fl_swallow (ss_flow s') = fl_swallow (ss_flow s) ++ owed (fl_sendSeq (ss_flow s)) (omap sent_item out) ∧
  fl_sendSeq (ss_flow s') = fl_sendSeq (ss_flow s) + batches (omap sent_item out) ∧ fl_recvSeq (ss_flow s') = fl_recvSeq (ss_flow s) ∧
  paired false (omap sent_item out) = true ∧ Forall (λ i, item_ok i = true) (omap sent_item out).
Proof.
  intros Hne Hcl. unfold forward. destruct (ss_conn s) as [conn|]; [|done].
  assert (Hf : ss_flow (match ss_txnStart s with None => with_txn (Some now) (ss_txnFailed s) s | Some _ => s end) = ss_flow s) by by destruct (ss_txnStart s).
  set (t := match ss_txnStart s with None => _ | Some _ => _ end) in *. destruct (forward_on hex conn t msg) as [[u c] o] eqn:E. intros [= <- <-].
  destruct msg; try done; unfold forward_on, serverStatement in E; repeat (case_match || (progress simplify_eq/=)); cbn; rewrite ?Hf, ?app_nil_r, ?Z.add_0_r;
    repeat apply conj; try done; repeat constructor.
Qed.

Lemma receive_swallow now conn s r n rest : fl_swallow (ss_flow s) = {| sw_close := bool_decide (r = CloseComplete); sw_seq := n |} :: rest → n = fl_recvSeq (ss_flow s) →
  r = CloseComplete ∨ r = ParseComplete → receive now conn s r = Swallowed (with_flow (set_swallow rest (ss_flow s)) s).
Proof. intros E -> Hr. unfold receive. rewrite E. cbn [sw_seq]. rewrite Z.eqb_refl. by destruct Hr as [->| ->]. Qed.

(** An answer that is not swallowed leaves what is owed alone. *)
Lemma relay_flow now conn s r s' flush txn rel : relay_answer now conn s r = Relay s' flush txn rel → r ≠ ErrorResponse →
  fl_swallow (ss_flow s') = fl_swallow (ss_flow s) ∧ fl_sendSeq (ss_flow s') = fl_sendSeq (ss_flow s) ∧
  fl_recvSeq (ss_flow s') = fl_recvSeq (ss_flow s) + (if is_ready r then 1 else 0).
Proof. unfold relay_answer. intros E Hr. destruct r; repeat (case_match || (progress simplify_eq/=)); try done; rewrite ?Z.add_0_r; done. Qed.

(** Reading the next answer: it is swallowed exactly if it is an own one. *)
Lemma read_own t now conn r tag rest : in_turn t → tr_replies t = (r, tag) :: rest → ∃ i, omap reply_item [(r, tag)] = i ∧
  items t = i ++ omap reply_item rest ++ omap sent_item (tr_inflight t) ∧
  ((∃ c l, i = [CP c true] ∧ fl_swallow (ss_flow (tr_session t)) = {| sw_close := c; sw_seq := fl_recvSeq (ss_flow (tr_session t)) |} :: l ∧
      receive now conn (tr_session t) r = Swallowed (with_flow (set_swallow l (ss_flow (tr_session t))) (tr_session t))) ∨
   ((∀ c, i ≠ [CP c true]) ∧ receive now conn (tr_session t) r = relay_answer now conn (tr_session t) r)).
Proof.
  intros [W Q P O E _ _ _] Hr. eexists. split; [done|]. unfold items in *. rewrite Hr in *. change ((r, tag) :: rest) with ([(r, tag)] ++ rest) in *. rewrite omap_app, <- app_assoc in *. split; [done|].
  set (l := omap reply_item rest ++ omap sent_item (tr_inflight t)) in *. assert (Hnot : swallow_match {| sw_close := true; sw_seq := 0 |} r = false →
    swallow_match {| sw_close := false; sw_seq := 0 |} r = false → receive now conn (tr_session t) r = relay_answer now conn (tr_session t) r).
  { intros H1 H2. unfold receive. destruct (fl_swallow _) as [|[[] ?] ?]; [done|..]; destruct r; try done; cbn; by rewrite andb_false_r. }
  destruct r; try (right; split; [by destruct c || done|by apply Hnot]).
  - destruct tag; cbn [omap list_omap reply_item app owed paired] in *.
    + left. exists false, (owed (fl_recvSeq (ss_flow (tr_session t))) l). split; [done|]. split; [done|]. by eapply receive_swallow; [exact W|done|right].
    + right. split; [done|]. unfold receive. destruct (fl_swallow (ss_flow (tr_session t))) as [|e es] eqn:Es; [done|].
      cbn [orb andb] in P. cbn [swallow_match]. rewrite (owed_close l _ e es) by (done || by rewrite <- W). cbn [negb]. by rewrite andb_false_r.
  - cbn [omap list_omap reply_item app owed paired] in *. apply Forall_cons in O as [O _]. destruct tag; [|done].
    left. exists true, (owed (fl_recvSeq (ss_flow (tr_session t))) l). split; [done|]. split; [done|]. by eapply receive_swallow; [exact W|done|left].
Qed.

Lemma omap_paired_tail i l : paired true (i ++ l) = true → (i = [] ∨ ∃ x, i = [x]) → paired true l = true.
Proof. intros H [->|[x ->]]; [done|]. destruct x as [c t|]; cbn [app paired] in H; [apply andb_true_iff in H as [_ H]|]; by eapply paired_weaken. Qed.

Lemma reply_item_small r tag : omap reply_item [(r, tag)] = [] ∨ ∃ x, omap reply_item [(r, tag)] = [x].
Proof. destruct r; cbn; eauto. Qed.

Lemma prompt_own m tag rs : own_kind (m, tag) = true → prompt m rs → Forall (λ r, own_reply r = true) (map (λ r, (r, tag)) rs).
Proof.
  intros Hm. destruct 1 as [b n ->|n q t ->|rs st Hp Hr|rs Hk Hr]; try by repeat constructor.
  - assert (tag = false) as -> by by destruct m, tag. apply Forall_forall. intros x (r & -> & _)%list_elem_of_fmap. by destruct r.
  - assert (tag = false) as -> by by destruct m, tag. apply Forall_forall. intros x (r & -> & _)%list_elem_of_fmap. by destruct r.
Qed.

Lemma forward_own hex now s msg s' out : forward hex now s msg = Some (s', out) → Forall (λ m, own_kind m = true) out.
Proof.
  unfold forward. destruct (ss_conn s) as [conn|]; [|done]. set (t := match ss_txnStart s with None => _ | Some _ => _ end). destruct (forward_on hex conn t msg) as [[u c] o] eqn:E.
  intros [= <- <-]. destruct msg; unfold forward_on, serverStatement in E; repeat (case_match || (progress simplify_eq/=)); by repeat constructor.
Qed.

Lemma fresh_in_turn s : fl_swallow (ss_flow s) = [] → fl_sendSeq (ss_flow s) = fl_recvSeq (ss_flow s) → in_turn (fresh_trace s).
Proof. intros H1 H2. split; cbn; try done. unfold batches, items. cbn. rewrite tally_nil. lia. Qed.

Lemma turn_in_turn hex t t' : in_turn t → turn hex t t' → in_turn t'.
Proof.
  intros I Ht. pose proof I as [W Q P O E S T C]. destruct Ht as [now msg s' out t Hne Hcl Hf|m tag rest rs t Hi Hp|r t Hr|now conn s' r tag rest t Hc Hr Hrec|now conn s' flush txn rel r tag rest t Hc Hr Hrec|r t].
  - destruct (forward_items _ _ _ _ _ _ Hne Hcl Hf) as (F1 & F2 & F3 & F4 & F5).
    assert (Hitems : items {| tr_session := s'; tr_inflight := tr_inflight t ++ out; tr_replies := tr_replies t; tr_client := tr_client t; tr_own := tr_own t |} = items t ++ omap sent_item out)
      by (unfold items; cbn; by rewrite omap_app, app_assoc).
    split; rewrite ?Hitems; cbn [tr_session tr_inflight tr_replies tr_client tr_own]; try done.
    + by rewrite F1, F3, W, Q, owed_app.
    + rewrite F2, F3, Q, batches_app. lia.
    + by apply paired_app.
    + apply Forall_app. by split.
    + apply Forall_app. split; [done|]. by eapply forward_own.
  - destruct (prompt_items m tag rs Hp) as [Hp1 Hp2].
    assert (Hitems : items {| tr_session := tr_session t; tr_inflight := rest; tr_replies := tr_replies t ++ map (λ r, (r, tag)) rs; tr_client := tr_client t; tr_own := tr_own t |} = items t).
    { unfold items. cbn [tr_inflight tr_replies]. rewrite Hi, omap_app, Hp1, <- app_assoc. change ((m, tag) :: rest) with ([(m, tag)] ++ rest). by rewrite omap_app. }
    rewrite Hi in S. apply Forall_cons in S as [Sm S].
    split; rewrite ?Hitems; cbn [tr_session tr_inflight tr_replies tr_client tr_own]; try done.
    + apply Forall_app. split; [done|]. apply Forall_forall. intros x (r & -> & Hin)%list_elem_of_fmap. cbn. rewrite Forall_forall in Hp2. by apply Hp2.
    + apply Forall_app. split; [done|]. by apply (prompt_own m).
  - assert (Hitems : items {| tr_session := tr_session t; tr_inflight := tr_inflight t; tr_replies := tr_replies t ++ [(r, false)]; tr_client := tr_client t; tr_own := tr_own t |} = items t).
    { unfold items. cbn [tr_inflight tr_replies]. rewrite omap_app. destruct r; try done; cbn; by rewrite app_nil_r. }
    split; rewrite ?Hitems; cbn [tr_session tr_inflight tr_replies tr_client tr_own]; try done.
    + apply Forall_app. split; [done|]. repeat constructor. by destruct r.
    + apply Forall_app. split; [done|]. repeat constructor. by destruct r.
  - destruct (read_own t now conn r tag rest I Hr) as (i & Ei & Hit & Hcase).
    destruct Hcase as [(c & l & -> & Hw & Hs)|[Hne Hs]].
    2:{ rewrite Hrec in Hs. exfalso. symmetry in Hs. unfold relay_answer in Hs. repeat (case_match || (progress simplify_eq/=)). }
    rewrite Hs in Hrec. injection Hrec as <-. rewrite Hr in E, T. apply Forall_cons in E as [_ E]. apply Forall_cons in T as [_ T]. rewrite Hit in W, Q, P, O.
    assert (tag = true) as -> by (by destruct r, tag). cbn [app owed paired] in *. apply Forall_cons in O as [_ O]. unfold batches in Q. rewrite tally_cons in Q.
    split; unfold items; cbn [tr_session tr_inflight tr_replies tr_client tr_own ss_flow with_flow set_swallow fl_swallow fl_recvSeq fl_sendSeq]; try done.
    + rewrite Hw in W. by injection W.
    + apply andb_true_iff in P as [_ P]. by eapply paired_weaken.
    + by rewrite app_nil_r.
  - destruct (read_own t now conn r tag rest I Hr) as (i & Ei & Hit & Hcase).
    destruct Hcase as [(c & l & -> & Hw & Hs)|[Hne Hs]]; [by rewrite Hs in Hrec|]. rewrite Hs in Hrec.
    rewrite Hr in E, T. apply Forall_cons in E as [Er E]. apply Forall_cons in T as [Tr T]. rewrite Hit in W, Q, P, O.
    destruct (relay_flow _ _ _ _ _ _ _ _ Hrec Er) as (F1 & F2 & F3). pose proof (reply_item_small r tag) as Hsm. rewrite Ei in Hsm.
    assert (tag = false) as ->. { destruct tag; [|done]. exfalso. destruct r; try discriminate Tr; rewrite <- Ei in Hne; by eapply Hne. }
    assert (Hi : ∀ n, owed n i = [] ∧ batches i = (if is_ready r then 1 else 0)).
    { rewrite <- Ei. intros n. destruct r; split; reflexivity. }
    split; unfold items; cbn [tr_session tr_inflight tr_replies tr_client tr_own]; try done.
    + rewrite F1, F3, W, owed_app, (proj1 (Hi _)), (proj2 (Hi 0)). done.
    + rewrite F2, F3, Q, batches_app, (proj2 (Hi 0)). lia.
    + by apply (omap_paired_tail i).
    + by apply Forall_app in O as [_ O].
    + by rewrite C.
  - split; unfold items, answered in *; cbn [tr_session tr_inflight tr_replies tr_client tr_own] in *; destruct r; done.
Qed.


(** ** Traces *)

(** Messages the client sends and answers that are read, in order; what the
    client is sent, and what its own messages were answered. *)
Fixpoint play (hex : bytes → bytes) (s : pooledSession) (l : list (frontend + backend * bool)) : list backend * list backend * pooledSession :=
  match l with
  | [] => ([], [], s)
  | inl m :: l' => match forward hex 0 s m with Some (s', _) => play hex s' l' | None => ([], [], s) end
  | inr (r, tag) :: l' =>
      match ss_conn s with
      | None => ([], [], s)
      | Some conn =>
          let own := if tag then [] else [r] in
          match receive 0 conn s r with
          | Swallowed s' => let '(client, mine, s) := play hex s' l' in (client, own ++ mine, s)
          | Relay s' _ _ _ => let '(client, mine, s) := play hex s' l' in (r :: client, own ++ mine, s)
          | EncodingChanged s' => ([], [], s')
          end
      end
  end.

Definition on_connection (pinned : bool) : pooledSession :=
  with_pinned pinned (with_conn (Some {| cn_prepared := ∅; cn_params := ∅; cn_actual := ∅; cn_reported := ∅; cn_seen := ∅ |}) new_session).
Definition ready_answer : backend * bool := (ReadyForQuery idle_status, false).

(** A client that closes a statement early in a batch gets the answers of the
    batch out of order: the CloseComplete of its own Close is swallowed for a
    later one of the broker's. *)
Lemma own_close_reorders :
  (play id (on_connection false)
     [inl (CloseMsg true #"old"); inl (Parse [] #"SELECT 1" []); inl (Parse #"new" #"SELECT 2" []); inl Sync;
      inr (CloseComplete, false); inr (ParseComplete, false); inr (CloseComplete, true); inr (ParseComplete, false); inr ready_answer]).1 =
  ([ParseComplete; CloseComplete; ParseComplete; ReadyForQuery idle_status], [CloseComplete; ParseComplete; ParseComplete; ReadyForQuery idle_status]).
Proof. vm_compute. reflexivity. Qed.

(** An entry made while the server already skips to the next Sync is never
    matched, and nothing behind it is: on a connection that is kept, the client
    gets CloseCompletes it never asked for. *)
Lemma skipped_prepare_leaks :
  (play id (on_connection true)
     [inl (Parse #"a" #"SELEC" []); inr (CloseComplete, true); inr (ErrorResponse, false); inl (BindMsg #"a"); inl Sync; inr ready_answer;
      inl (Parse #"b" #"SELECT 1" []); inl Sync; inr (CloseComplete, true); inr (ParseComplete, false); inr ready_answer]).1 =
  ([ErrorResponse; ReadyForQuery idle_status; CloseComplete; ParseComplete; ReadyForQuery idle_status],
   [ErrorResponse; ReadyForQuery idle_status; ParseComplete; ReadyForQuery idle_status]).
Proof. vm_compute. reflexivity. Qed.

(** ** A batch *)

Definition one_parse : pooledSession * list sent :=
  default (new_session, []) (forward id 0 (on_connection false) (Parse #"a" #"SELECT 1" [])).
Lemma one_parse_sent : one_parse.2 = [(CloseMsg true #"gatehouse_SELECT 1", true); (Parse #"gatehouse_SELECT 1" #"SELECT 1" [], false)].
Proof. vm_compute. reflexivity. Qed.

Definition no_conn : connState := {| cn_prepared := ∅; cn_params := ∅; cn_actual := ∅; cn_reported := ∅; cn_seen := ∅ |}.
Definition parse_conn : connState := default no_conn (ss_conn one_parse.1).
Definition parse_session : pooledSession := with_flow (set_swallow [] (ss_flow one_parse.1)) one_parse.1.

Lemma one_parse_reads :
  ss_conn one_parse.1 = Some parse_conn ∧ receive 0 parse_conn one_parse.1 CloseComplete = Swallowed parse_session ∧
  ss_conn parse_session = Some parse_conn ∧ receive 0 parse_conn parse_session ParseComplete = Relay parse_session true None None.
Proof. repeat apply conj; vm_compute; reflexivity. Qed.

(** After a named Parse the client has its ParseComplete and nothing else. *)
Definition after_parse : trace :=
  {| tr_session := parse_session; tr_inflight := []; tr_replies := []; tr_client := [ParseComplete]; tr_own := [ParseComplete] |}.

Lemma after_parse_reachable : rtc (turn id) (fresh_trace (on_connection false)) after_parse.
Proof.
  destruct one_parse_reads as (C1 & R1 & C2 & R2).
  eapply rtc_l; [eapply (turn_forward id 0 (Parse #"a" #"SELECT 1" []) one_parse.1 one_parse.2); [done|done|vm_compute; reflexivity]|].
  cbn [tr_inflight tr_replies tr_session tr_client tr_own fresh_trace app]. rewrite one_parse_sent.
  eapply rtc_l; [eapply (turn_server id (CloseMsg true #"gatehouse_SELECT 1") true _ [CloseComplete]); [reflexivity|by eapply prompt_close]|].
  eapply rtc_l; [eapply (turn_server id (Parse #"gatehouse_SELECT 1" #"SELECT 1" []) false [] [ParseComplete]); [reflexivity|by eapply prompt_parse]|].
  eapply rtc_l; [eapply (turn_swallow id 0 parse_conn parse_session); [exact C1|reflexivity|exact R1]|].
  eapply rtc_l; [eapply (turn_relay id 0 parse_conn parse_session true None None); [exact C2|reflexivity|exact R2]|]. apply rtc_refl.
Qed.

