(* ===== verification/PgSessionTables.v ===== *)
(** * Statements, texts and parameters of a pooled session

    What a session may hold and send, however its messages come; and the
    parameters and quoted values the broker sends for it. *)

From S2P Require Import Prelude GoString GoStrconv SqlClassify PgWire PgSession PgSessionFacts.

(** ** Quoted values *)

Fixpoint leading_digits (s : bytes) : bytes :=
  match s with b :: s' => if digit_byte b then b :: leading_digits s' else [] | [] => [] end.

Definition tag_digits (i : option nat) : bytes := match i with Some n => Itoa (Z.of_nat n) | None => [] end.

Lemma leading_digits_app d t : Forall (λ b, digit_byte b = true) d → leading_digits (d ++ x24 :: t) = d ∧ leading_digits d = d.
Proof. induction 1 as [|b d Hb _ [IH1 IH2]]; [done|]. cbn [app leading_digits]. by rewrite Hb, IH1, IH2. Qed.

Lemma tag_digits_digits i : Forall (λ b, digit_byte b = true) (tag_digits i).
Proof. destruct i as [n|]; [|constructor]. unfold tag_digits, Itoa, FormatInt. rewrite (proj2 (Z.ltb_ge _ _)) by lia. apply FormatUint_digits. Qed.

(** The only dollars of a tag are its ends. *)
Lemma tag_dollar d k : Forall (λ b, digit_byte b = true) d → (#"$gh" ++ d ++ #"$") !! S k = Some x24 → S k = (3 + length d)%nat.
Proof.
  intros Hd Hk. destruct k as [|[|k]]; [done|done|]. change (#"$gh" ++ d ++ #"$") with ([x24; x67; x68] ++ d ++ [x24]) in Hk.
  rewrite lookup_app_r in Hk by (cbn; lia). cbn [length] in Hk. destruct (decide (k < length d)%nat) as [Hlt|Hge].
  - rewrite lookup_app_l in Hk by lia. replace (S (S (S k)) - 3)%nat with k in Hk by lia. rewrite Forall_lookup in Hd. by specialize (Hd _ _ Hk).
  - rewrite lookup_app_r in Hk by lia. apply lookup_lt_Some in Hk. cbn [length] in Hk. lia.
Qed.

(** Where a tag occurs in a value too early, its number stands in the value. *)
Lemma early_tag value i : tag_free value (quote_tag i) = false → ∃ p, Index (value ++ quote_tag i) (quote_tag i) = Some p ∧ (p < length value)%nat ∧
  leading_digits (drop 3 (drop p value)) = tag_digits i.
Proof.
  unfold tag_free. intros Hf%bool_decide_eq_false. set (tag := quote_tag i) in *.
  destruct (Index_le value tag []) as (p & Hp & Hle). rewrite app_nil_r in Hp. exists p. split; [done|]. assert (Hlt : (p < length value)%nat).
  { destruct (decide (p = length value)); [congruence|lia]. }
  split; [done|]. apply Index_Some in Hp as (a & rest & E & Hl).
  assert (Ev : drop p value ++ tag = tag ++ rest).
  { apply (f_equal (drop p)) in E. rewrite drop_app_le in E by lia. rewrite E. by rewrite <- Hl, drop_app_length. }
  set (v := drop p value) in *. assert (Hv : v ≠ []) by (intros En; apply (f_equal length) in En; unfold v in En; rewrite length_drop in En; cbn in En; lia).
  clearbody v. assert (Hd := tag_digits_digits i). assert (Et : tag = #"$gh" ++ tag_digits i ++ #"$") by done.
  destruct (decide (length tag <= length v)%nat) as [Hlen|Hlen].
  - assert (v = tag ++ drop (length tag) v) as ->.
    { rewrite <- (take_drop (length tag) v) at 1. f_equal. apply (f_equal (take (length tag))) in Ev. by rewrite take_app_le, take_app_length in Ev by lia. }
    rewrite Et. change (#"$gh" ++ tag_digits i ++ #"$") with (x24 :: x67 :: x68 :: (tag_digits i ++ [x24])). cbn [app drop]. rewrite <- app_assoc. by apply leading_digits_app.
  - assert (Eu : tag = v ++ drop (length v) tag).
    { rewrite <- (take_drop (length v) tag) at 1. f_equal. apply (f_equal (take (length v))) in Ev. rewrite take_app_length, take_app_le in Ev by lia. done. }
    set (u := drop (length v) tag) in *. assert (Hu : tag = u ++ rest). { rewrite Eu in Ev at 2. rewrite <- app_assoc in Ev. by apply app_inv_head in Ev. }
    destruct v as [|b w]; [done|]. assert (Hat : tag !! S (length w) = Some x24).
    { rewrite Eu. rewrite lookup_app_r by (cbn; lia). cbn [length]. rewrite Nat.sub_diag. destruct u as [|c u].
      - apply (f_equal length) in Eu. rewrite app_nil_r in Eu. lia.
      - rewrite Et in Hu. change (#"$gh" ++ tag_digits i ++ #"$") with (x24 :: [x67; x68] ++ tag_digits i ++ #"$") in Hu. by injection Hu as <- _. }
    rewrite Et in Hat. apply tag_dollar in Hat; [|done]. assert (Hvv : b :: w = #"$gh" ++ tag_digits i).
    { rewrite Et, app_assoc in Eu. apply (f_equal (take (S (length w)))) in Eu. rewrite (take_app_length' (b :: w)) in Eu by done. rewrite <- Eu. apply take_app_length'. rewrite length_app, Hat. done. }
    rewrite Hvv. change (#"$gh" ++ tag_digits i) with (x24 :: x67 :: x68 :: tag_digits i). cbn [drop]. by apply (leading_digits_app _ []).
Qed.

Lemma find_tag_None fuel value : ∀ i, find_tag fuel value i = None → ∀ k, (k < fuel)%nat → tag_free value (quote_tag (Some (i + k)%nat)) = false.
Proof.
  induction fuel as [|fuel IH]; intros i Hn k Hk; [lia|]. cbn [find_tag] in Hn. destruct (tag_free value (quote_tag (Some i))) eqn:E; [done|].
  destruct k as [|k]; [by rewrite Nat.add_0_r|]. rewrite Nat.add_succ_r. apply (IH (S i) Hn k). lia.
Qed.

Lemma find_tag_Some fuel value : ∀ i tag, find_tag fuel value i = Some tag → tag_free value tag = true ∧ ∃ k, tag = quote_tag (Some k).
Proof. induction fuel as [|fuel IH]; intros i tag Hf; [done|]. cbn [find_tag] in Hf. destruct (tag_free value (quote_tag (Some i))) eqn:E; [|by eapply IH]. injection Hf as <-. eauto. Qed.

(** Too many numbered tags would need too many places in the value. *)
Lemma some_tag_free value : is_Some (find_tag (S (length value)) value 0).
Proof.
  destruct (find_tag (S (length value)) value 0) as [t|] eqn:E; [done|exfalso]. set (n := S (length value)) in *.
  assert (Hbad : ∀ k, (k < n)%nat → tag_free value (quote_tag (Some k)) = false) by (intros k Hk; exact (find_tag_None _ _ _ E k Hk)).
  set (place := λ k, default 0%nat (Index (value ++ quote_tag (Some k)) (quote_tag (Some k)))).
  assert (Hplace : ∀ k, (k < n)%nat → (place k < length value)%nat ∧ leading_digits (drop 3 (drop (place k) value)) = Itoa (Z.of_nat k)).
  { intros k Hk. destruct (early_tag value (Some k) (Hbad k Hk)) as (p & Hp & Hlt & Hd). unfold place. by rewrite Hp. }
  assert (Hnd : NoDup (map place (seq 0 n))).
  { apply NoDup_alt. intros i j x Hi Hj. rewrite list_lookup_fmap_Some in Hi, Hj. destruct Hi as (a & -> & Ha). destruct Hj as (b & Hab & Hb).
    apply lookup_seq in Ha as [-> Ha], Hb as [-> Hb]. cbn in *. destruct (Hplace i Ha) as [_ E1], (Hplace j Hb) as [_ E2]. rewrite <- Hab, E1 in E2. apply FormatInt_inj in E2. lia. }
  assert (Hsub : map place (seq 0 n) ⊆+ seq 0 (length value)).
  { apply NoDup_submseteq; [done|]. intros x (k & -> & Hk)%list_elem_of_fmap. apply elem_of_seq in Hk. apply elem_of_seq. split; [lia|]. apply Hplace. lia. }
  apply submseteq_length in Hsub. rewrite length_fmap, !length_seq in Hsub. unfold n in Hsub. lia.
Qed.

(** A quoted value reads back. [dollarQuote] ends for every value, however
    it is built, and its literal is the value between two copies of a dollar tag
    that the value does not close early: read from the opening tag, the first
    closing one is right behind the value. *)
Theorem dollarQuote_reads_back value : ∃ i, dollarQuote value = Some (quote_tag i ++ value ++ quote_tag i) ∧
  Index (value ++ quote_tag i) (quote_tag i) = Some (length value).
Proof.
  unfold dollarQuote. destruct (tag_free value (quote_tag None)) eqn:E; [exists None; split; [done|by apply bool_decide_eq_true in E]|].
  destruct (some_tag_free value) as [t Ht]. rewrite Ht. apply find_tag_Some in Ht as [Hf [k ->]]. exists (Some k). split; [done|by apply bool_decide_eq_true in Hf].
Qed.

(** ** Parameters *)

Lemma foldr_delete (l : list bytes) (m : gmap bytes bytes) n : foldr (λ n m, delete n m) m l !! n = if bool_decide (n ∈ l) then None else m !! n.
Proof.
  induction l as [|x l IH]; [by rewrite bool_decide_false by apply not_elem_of_nil|]. cbn [foldr]. destruct (decide (x = n)) as [->|Hne].
  - rewrite lookup_delete_eq. by rewrite bool_decide_true by (apply elem_of_cons; by left).
  - rewrite lookup_delete_ne, IH by done. apply if_ext_bool_decide || (destruct (decide (n ∈ l)); [rewrite !bool_decide_true|rewrite !bool_decide_false]; rewrite ?elem_of_cons; naive_solver).
Qed.

Lemma foldl_settings (l : list (bytes * bytes)) n : ∀ m : gmap bytes bytes, NoDup (map fst l) →
  foldl (λ m '(n, v), <[n := v]> m) m l !! n = match List.find (λ '(k, _), bool_decide (k = n)) l with Some (_, v) => Some v | None => m !! n end.
Proof.
  induction l as [|[k v] l IH]; intros m Hnd; cbn [foldl List.find]; [done|]. cbn [map fst] in Hnd. apply NoDup_cons in Hnd as [Hk Hnd]. rewrite IH by done.
  case_bool_decide as E; [subst k|by rewrite lookup_insert_ne].
  destruct (List.find _ l) as [[k' v']|] eqn:Ef; [|by rewrite lookup_insert_eq]. apply find_some in Ef as [Hin Hb%bool_decide_eq_true]. subst k'.
  destruct Hk. apply list_elem_of_In in Hin. by apply (list_elem_of_fmap_2 fst) in Hin.
Qed.

Lemma omap_find (f : bytes → option (bytes * bytes)) l n : (∀ x k v, f x = Some (k, v) → k = x) → n ∈ l →
  List.find (λ '(k, _), bool_decide (k = n)) (omap f l) = f n.
Proof.
  intros Hf Hn. destruct (List.find _ (omap f l)) as [[k v]|] eqn:E.
  - apply find_some in E as [Hi%list_elem_of_In Hk%bool_decide_eq_true]. subst k. apply list_elem_of_omap in Hi as (x & _ & Hx). pose proof (Hf _ _ _ Hx) as Ex. subst x. done.
  - destruct (f n) as [[k v]|] eqn:En; [|done]. pose proof (Hf _ _ _ En) as ->. assert (Hi : (n, v) ∈ omap f l) by (apply list_elem_of_omap; by exists n).
    apply list_elem_of_In in Hi. apply (find_none _ _ E) in Hi. by rewrite bool_decide_true in Hi.
Qed.

Lemma param_sets_find want have n : n ∈ sessionParams →
  List.find (λ '(k, _), bool_decide (k = n)) (param_sets want have) =
  match want !! n with Some v => if bool_decide (have !! n = Some v) then None else Some (n, v) | None => None end.
Proof. intros Hn. unfold param_sets. rewrite omap_find; [done| |done]. intros x k v. destruct (want !! x); [|done]. case_bool_decide; [done|]. by intros [= -> _]. Qed.

Lemma param_sets_NoDup want have : NoDup (map fst (param_sets want have)).
Proof.
  assert (Hn : NoDup sessionParams) by by apply (bool_decide_unpack _); vm_compute. unfold param_sets. revert Hn. generalize sessionParams. intros l.
  induction l as [|k l IH]; intros Hn; [constructor|]. apply NoDup_cons in Hn as [Hk Hn]. cbn [omap list_omap]. destruct (want !! k) as [v|]; [|by apply IH]. case_bool_decide; [by apply IH|].
  cbn [map fst]. apply NoDup_cons. split; [|by apply IH]. intros ([k' v'] & -> & Hin)%list_elem_of_fmap. apply list_elem_of_omap in Hin as (x & Hx & Hf).
  destruct (want !! x); [|done]. case_bool_decide; [done|]. injection Hf as -> _. done.
Qed.

(** A connection carries its client's parameters and no one else's. After
    [syncParams] succeeds, each session parameter of the connection is what this
    client asked for at its start, or is unset if it asked for nothing, whatever
    the client before it had. *)
Theorem syncParams_own want failed normalized conn conn' n : syncParams want failed normalized conn = Some conn' →
  n ∈ sessionParams → cn_params conn' !! n = want !! n.
Proof.
  unfold syncParams. intros Hs Hn. set (resets := param_resets want (cn_params conn)) in *. set (sets := param_sets want (cn_params conn)) in *.
  assert (Hr : n ∈ resets ↔ want !! n = None ∧ is_Some (cn_params conn !! n)).
  { unfold resets, param_resets. rewrite elem_of_lfilter, andb_true_iff, !bool_decide_eq_true. tauto. }
  assert (Hf : List.find (λ '(k, _), bool_decide (k = n)) sets = match want !! n with Some v => if bool_decide (cn_params conn !! n = Some v) then None else Some (n, v) | None => None end)
    by by apply param_sets_find.
  assert (Hgoal : foldl (λ m '(n, v), <[n := v]> m) (foldr (λ n m, delete n m) (cn_params conn) resets) sets !! n = want !! n).
  { rewrite foldl_settings by apply param_sets_NoDup. rewrite Hf, foldr_delete. destruct (want !! n) as [v|] eqn:Ew.
    - rewrite (bool_decide_false (n ∈ resets)) by (rewrite Hr; by intros [? _]). by case_bool_decide.
    - destruct (cn_params conn !! n) eqn:Eh; [rewrite bool_decide_true; [done|apply Hr; split; [first [done|exact Ew]|first [by eexists|rewrite Eh; by eexists]]]|]. by match goal with |- (if ?b then _ else _) = _ => destruct b end. }
  destruct (_ && bool_decide (length sets = _)) eqn:Ee.
  - injection Hs as <-. apply andb_true_iff in Ee as [E1%bool_decide_eq_true E2%bool_decide_eq_true]. apply nil_length_inv in E1, E2. by rewrite E1, E2 in Hgoal.
  - destruct (_ || _); [done|]. injection Hs as <-. exact Hgoal.
Qed.

Definition sample_want : gmap bytes bytes := {[ #"TimeZone" := #"UTC"]}.
Definition sample_conn : connState :=
  {| cn_prepared := ∅; cn_params := {[ #"search_path" := #"secret"]}; cn_actual := ∅; cn_reported := ∅; cn_seen := ∅ |}.
Lemma sample_sync : is_Some (syncParams sample_want false [ #"UTC"] sample_conn).
Proof. apply (bool_decide_unpack _). vm_compute. exact I. Qed.

Lemma syncParams_own_witness : ∃ conn', syncParams sample_want false [ #"UTC"] sample_conn = Some conn' ∧ cn_params conn' !! #"search_path" = None.
Proof.
  destruct sample_sync as [conn' E]. exists conn'. split; [exact E|].
  rewrite (syncParams_own sample_want false [ #"UTC"] sample_conn conn' #"search_path" E); [reflexivity|by apply (bool_decide_unpack _); vm_compute].
Defined.

(** ** Statements and texts *)

Definition total_bytes (m : gmap bytes clientStatement) : Z := map_fold (λ _ st acc, Z.of_nat (length (cs_query st)) + acc) 0 m.

Lemma total_insert_new m n st : m !! n = None → total_bytes (<[n := st]> m) = Z.of_nat (length (cs_query st)) + total_bytes m.
Proof. intros Hn. unfold total_bytes. rewrite map_fold_insert_L; [done| |done]. intros. lia. Qed.
Lemma total_delete m n st : m !! n = Some st → total_bytes m = Z.of_nat (length (cs_query st)) + total_bytes (delete n m).
Proof. intros Hn. rewrite <- (insert_delete_id m n st Hn) at 1. apply total_insert_new, lookup_delete_eq. Qed.

Section Texts.
Context `{UnicodeTables} (hex : bytes → bytes) (ro : bool).

(** A text the session may send. *)
Definition text_ok (sql : bytes) : Prop := sql = [] ∨ (changesRole sql = false ∧ (ro = true → readOnlyAllowed sql = true)).
Definition message_ok (m : frontend) : Prop := text_ok (sql_of m) ∧ (ro = true → m ≠ FunctionCall).

Record table_ok (t : statementTable) : Prop := {
  to_bytes : tb_bytes t = total_bytes (tb_statements t);
  to_size : Z.of_nat (size (tb_statements t)) <= maxSessionStatements;
  to_cap : tb_bytes t <= maxSessionStatementBytes;
  to_texts : ∀ n st, tb_statements t !! n = Some st → text_ok (cs_query st);
}.

(** One turn of the session's loop that sends a message, on whatever connection
    it is bound to meanwhile; or anything that leaves the statements alone. *)
Inductive serve_turn : pooledSession → list sent → pooledSession → Prop :=
| serve_message s msg s1 s2 now s3 out : refuse ro s msg = inr s1 → ss_table s2 = ss_table s1 → forward hex now s2 msg = Some (s3, out) → serve_turn s out s3
| serve_other s s' : ss_table s' = ss_table s → serve_turn s [] s'.

Inductive session_run : pooledSession → list sent → pooledSession → Prop :=
| run_nil s : session_run s [] s
| run_cons s out s1 outs s2 : serve_turn s out s1 → session_run s1 outs s2 → session_run s (out ++ outs) s2.

(** What [refuse] lets through. *)
Record let_through (s : pooledSession) (msg : frontend) : Prop := {
  ad_message : message_ok msg;
  ad_room : ∀ name query types, msg = Parse name query types → name ≠ [] →
    Z.of_nat (size (tb_statements (ss_table s))) - (if bool_decide (is_Some (tb_statements (ss_table s) !! name)) then 1 else 0) < maxSessionStatements ∧
    forget_bytes name (ss_table s) + Z.of_nat (length query) <= maxSessionStatementBytes;
}.

Lemma refuse_admitted s msg s1 : refuse ro s msg = inr s1 → let_through s msg ∧ ss_table s1 = ss_table s.
Proof.
  unfold refuse. intros Hr. destruct (negb (bool_decide (sql_of msg = [])) && changesRole (sql_of msg)) eqn:E1; [done|].
  destruct (if negb (bool_decide (sql_of msg = [])) then _ else _) as [refused started]. destruct refused; [done|].
  destruct (ro && _) eqn:E2; [done|]. destruct (match msg with Parse _ _ _ => _ | _ => false end) eqn:E3; [done|]. injection Hr as <-. split; [|done]. split.
  - unfold message_ok, text_ok. destruct (bool_decide_reflect (sql_of msg = [])) as [E|E]; cbn [negb andb] in *.
    + split; [by left|]. intros -> ->. done.
    + split; [right; split; [done|]|]; intros ->; cbn [andb] in E2; apply orb_false_iff in E2 as [E2 E4]; [by apply negb_false_iff|]. by apply bool_decide_eq_false in E2.
  - intros name query types -> Hn. rewrite (bool_decide_false _ Hn) in E3. cbn [negb andb] in E3. apply orb_false_iff in E3 as [H1%Z.leb_gt H2%Z.ltb_ge]. done.
Qed.

Lemma table_store t name st : table_ok t → text_ok (cs_query st) →
  Z.of_nat (size (tb_statements t)) - (if bool_decide (is_Some (tb_statements t !! name)) then 1 else 0) < maxSessionStatements →
  forget_bytes name t + Z.of_nat (length (cs_query st)) <= maxSessionStatementBytes →
  table_ok {| tb_statements := <[name := st]> (tb_statements t); tb_bytes := forget_bytes name t + Z.of_nat (length (cs_query st)) |}.
Proof.
  intros [B S C T] Ht Hs Hb. split; cbn [tb_statements tb_bytes]; [| |done|].
  - unfold forget_bytes in *. rewrite B. destruct (tb_statements t !! name) as [old|] eqn:E.
    + rewrite (total_delete _ name old E). rewrite <- insert_delete_eq, total_insert_new by apply lookup_delete_eq. lia.
    + rewrite total_insert_new by done. lia.
  - destruct (tb_statements t !! name) as [old|] eqn:E.
    + rewrite map_size_insert_Some by by rewrite E. done.
    + rewrite map_size_insert_None by done. rewrite bool_decide_false in Hs by by intros []. lia.
  - intros n st' [[<- <-]|[_ Hn]]%lookup_insert_Some; [done|by eapply T].
Qed.

Lemma table_forget t name : table_ok t → table_ok {| tb_statements := delete name (tb_statements t); tb_bytes := forget_bytes name t |}.
Proof.
  intros [B S C T]. split; cbn [tb_statements tb_bytes].
  - unfold forget_bytes. destruct (tb_statements t !! name) as [old|] eqn:E; rewrite B; [rewrite (total_delete _ name old E); lia|by rewrite delete_id].
  - assert (size (delete name (tb_statements t)) <= size (tb_statements t))%nat by (apply map_subseteq_size, delete_subseteq). lia.
  - unfold forget_bytes. destruct (tb_statements t !! name); lia.
  - intros n st [_ Hn]%lookup_delete_Some. by eapply T.
Qed.

Lemma quiet_ok m : sql_of m = [] → m ≠ FunctionCall → message_ok m.
Proof. intros E Hm. split; [by left|done]. Qed.

Lemma serverStatement_ok conn name s s' conn' extra server : table_ok (ss_table s) → serverStatement conn name s = (s', conn', extra, server) →
  ss_table s' = ss_table s ∧ Forall (λ m, message_ok (fst m)) extra.
Proof.
  intros T. unfold serverStatement. case_bool_decide; [by intros [= <- <- <- <-]|]. destruct (tb_statements (ss_table s) !! name) as [st|] eqn:E; [|by intros [= <- <- <- <-]].
  case_bool_decide; intros [= <- <- <- <-]; split; try done. apply Forall_cons. split; [by apply quiet_ok|]. apply Forall_singleton.
  split; [exact (to_texts _ T _ _ E)|done].
Qed.

Lemma forward_ok now s msg s' out : table_ok (ss_table s) → let_through s msg → forward hex now s msg = Some (s', out) →
  table_ok (ss_table s') ∧ Forall (λ m, message_ok (fst m)) out.
Proof.
  intros T [Hm Hroom]. unfold forward. destruct (ss_conn s) as [conn|]; [|done].
  assert (Ht : ss_table (match ss_txnStart s with None => with_txn (Some now) (ss_txnFailed s) s | Some _ => s end) = ss_table s) by by destruct (ss_txnStart s).
  set (t := match ss_txnStart s with None => _ | Some _ => _ end) in *. destruct (forward_on hex conn t msg) as [[u c] o] eqn:E. intros [= <- <-]. cbn [with_conn ss_table].
  assert (Hext : ∀ name m b, m ≠ FunctionCall → sql_of m = [] → (let '(s, conn, extra, server) := serverStatement conn name (with_flow (set_batch true b (ss_flow t)) t) in
     (s, conn, extra ++ [(m, false)])) = (u, c, o) → table_ok (ss_table u) ∧ Forall (λ m, message_ok (fst m)) o).
  { intros name m b Hne Hq. destruct (serverStatement conn name _) as [[[s2 c2] extra] server] eqn:Es. intros [= <- <- <-].
    apply serverStatement_ok in Es as [Et He]; [|cbn; by rewrite Ht]. rewrite Et. cbn. rewrite Ht. split; [done|]. apply Forall_app. split; [done|]. apply Forall_singleton. by apply quiet_ok. }
  destruct msg as [sql| | |name query types|name|[] name|[] name| | | |]; cbn [forward_on] in E.
  1, 2, 3, 9, 10, 11, 12: injection E as <- <- <-; cbn; rewrite Ht; split; [done|]; by apply Forall_singleton.
  - destruct (bool_decide_reflect (name = [])) as [En|En]; injection E as <- <- <-; cbn; rewrite Ht; [split; [done|]; by apply Forall_singleton|].
    destruct (Hroom _ _ _ eq_refl En) as [H1 H2]. split; [by apply (table_store (ss_table s) name {| cs_query := query; cs_types := types; cs_server := _ |}); [|apply Hm|..]|].
    apply Forall_cons. split; [by apply quiet_ok|]. apply Forall_singleton. split; [apply Hm|done].
  - destruct (serverStatement conn name _) as [[[s2 c2] extra] server] eqn:Es. injection E as <- <- <-. apply (Hext name (BindMsg server) (fl_executed (ss_flow t))); [done|done|]. by rewrite Es.
  - destruct (serverStatement conn name _) as [[[s2 c2] extra] server] eqn:Es. injection E as <- <- <-. apply (Hext name (DescribeMsg true server) (fl_executed (ss_flow t))); [done|done|]. by rewrite Es.
  - injection E as <- <- <-. cbn. rewrite Ht. split; [done|]. apply Forall_singleton. by apply quiet_ok.
  - destruct (bool_decide (name = [])); injection E as <- <- <-; cbn; rewrite Ht; (split; [|apply Forall_singleton; by apply quiet_ok]); [done|by apply table_forget].
  - injection E as <- <- <-. cbn. rewrite Ht. split; [done|]. apply Forall_singleton. by apply quiet_ok.
Qed.

End Texts.

Lemma new_table_ok `{UnicodeTables} ro : table_ok ro (ss_table new_session).
Proof. split; [done|by vm_compute|by vm_compute|done]. Qed.

Definition open_session : pooledSession :=
  with_conn (Some {| cn_prepared := ∅; cn_params := ∅; cn_actual := ∅; cn_reported := ∅; cn_seen := ∅ |}) new_session.
Definition select_one : frontend := Parse #"a" #"SELECT 1" [].

Lemma select_admitted : ∃ s, @refuse latin1_tables true open_session select_one = inr s ∧ ss_table s = ss_table open_session.
Proof. eexists. split; vm_compute; reflexivity. Qed.
Lemma select_forwarded : ∃ s, forward id 0 open_session select_one = Some (s, [(CloseMsg true #"gatehouse_SELECT 1", true); (Parse #"gatehouse_SELECT 1" #"SELECT 1" [], false)]).
Proof. eexists. vm_compute. reflexivity. Qed.

