(* ===== verification/CleanupStore.v ===== *)
(** * The cleanup journal's tables ([internal/store/database_cleanup.go])

    One definition per transaction, a function of the database clock and the
    tables.  A transaction is atomic: writers are serialized by SQLite, or by the
    row and advisory locks the code takes on PostgreSQL; [now] is the clock when
    it takes effect, in milliseconds.  [LIKE replica/%] is a prefix test, as
    replica names hold neither wildcards nor upper-case letters
    ([brokercore.ValidReplicaName]). *)

From S2P Require Import Prelude GoString.

Record DatabaseCleanup := {
  dc_Binding : bytes;
  dc_LeaseID : bytes;
  dc_ActorID : bytes;
  dc_WorkloadID : bytes;
  dc_owner : bytes;
  dc_quarantined : bool;
  dc_evidence : bytes;  (* reconciliation_evidence *)
}.

Record brokerSession := { bs_owner : bytes; bs_pod : bytes }.

Record tables := {
  tb_replica : gmap bytes Z;  (* database_cleanup_replica: owner, expires_ms *)
  tb_cleanup : gmap bytes DatabaseCleanup;  (* database_cleanup, by accessor *)
  tb_sessions : gmap bytes brokerSession;  (* broker_sessions, by id *)
}.

#[global] Instance DatabaseCleanup_eq : EqDecision DatabaseCleanup.
Proof. solve_decision. Defined.
#[global] Instance brokerSession_eq : EqDecision brokerSession.
Proof. solve_decision. Defined.

Definition with_replica (m : gmap bytes Z) (t : tables) : tables := {| tb_replica := m; tb_cleanup := tb_cleanup t; tb_sessions := tb_sessions t |}.
Definition with_cleanup (m : gmap bytes DatabaseCleanup) (t : tables) : tables := {| tb_replica := tb_replica t; tb_cleanup := m; tb_sessions := tb_sessions t |}.
Definition with_sessions (m : gmap bytes brokerSession) (t : tables) : tables := {| tb_replica := tb_replica t; tb_cleanup := tb_cleanup t; tb_sessions := m |}.
Definition no_tables : tables := {| tb_replica := ∅; tb_cleanup := ∅; tb_sessions := ∅ |}.

(** ** Owners *)

Definition replicaPattern (owner : bytes) : option bytes :=
  match IndexByte owner (byte_of 47) with
  | Some (S i) => Some (take (S i) owner ++ #"/")
  | _ => None
  end.

Definition live (now : Z) (t : tables) (owner : bytes) : bool :=
  match tb_replica t !! owner with Some expires => now <? expires | None => false end.

(** The rows [owner LIKE pattern AND owner <> self AND expires_ms > now]. *)
Definition other_live (now : Z) (t : tables) (pattern self : bytes) : list bytes :=
  List.filter (λ o, HasPrefix o pattern && negb (bool_decide (o = self)) && live now t o) (map fst (map_to_list (tb_replica t))).

Definition noOtherLiveReplicaOwner (now : Z) (owner : bytes) (t : tables) : bool :=
  match replicaPattern owner with
  | None => true
  | Some pattern => bool_decide (other_live now t pattern owner = [])
  end.

Definition replicaNameInUse (now : Z) (owner : bytes) (t : tables) : bool :=
  match replicaPattern owner with
  | None => false
  | Some pattern => 0 <? Z.of_nat (length (other_live now t pattern owner))
  end.

(** The INSERT of [ClaimDatabaseCleanupOwner]; whether it affected a row. *)
Definition insert_owner (now : Z) (owner : bytes) (ttl : Z) (t : tables) : tables * bool :=
  if bool_decide (tb_replica t !! owner = None) && noOtherLiveReplicaOwner now owner t
  then (with_replica (<[owner := now + ttl]> (tb_replica t)) t, true) else (t, false).

(** The UPDATE of [RenewDatabaseCleanupOwner]. *)
Definition renew_owner (now : Z) (owner : bytes) (ttl : Z) (t : tables) : tables * bool :=
  if live now t owner && noOtherLiveReplicaOwner now owner t
  then (with_replica (<[owner := now + ttl]> (tb_replica t)) t, true) else (t, false).

Definition release_owner (owner : bytes) (t : tables) : tables := with_replica (delete owner (tb_replica t)) t.

Definition LiveDatabaseCleanupOwners (now : Z) (t : tables) : Z :=
  Z.of_nat (length (List.filter (live now t) (map fst (map_to_list (tb_replica t))))).

(** ** Records *)

Definition unresolved (r : DatabaseCleanup) : bool := bool_decide (dc_evidence r = []).

Definition with_owner (o : bytes) (r : DatabaseCleanup) : DatabaseCleanup :=
  {| dc_Binding := dc_Binding r; dc_LeaseID := dc_LeaseID r; dc_ActorID := dc_ActorID r; dc_WorkloadID := dc_WorkloadID r; dc_owner := o;
     dc_quarantined := dc_quarantined r; dc_evidence := dc_evidence r |}.
Definition with_lease (l : bytes) (r : DatabaseCleanup) : DatabaseCleanup :=
  {| dc_Binding := dc_Binding r; dc_LeaseID := l; dc_ActorID := dc_ActorID r; dc_WorkloadID := dc_WorkloadID r; dc_owner := dc_owner r;
     dc_quarantined := dc_quarantined r; dc_evidence := dc_evidence r |}.
Definition with_quarantine (r : DatabaseCleanup) : DatabaseCleanup :=
  {| dc_Binding := dc_Binding r; dc_LeaseID := dc_LeaseID r; dc_ActorID := dc_ActorID r; dc_WorkloadID := dc_WorkloadID r; dc_owner := dc_owner r;
     dc_quarantined := true; dc_evidence := dc_evidence r |}.
Definition with_evidence (e : bytes) (r : DatabaseCleanup) : DatabaseCleanup :=
  {| dc_Binding := dc_Binding r; dc_LeaseID := dc_LeaseID r; dc_ActorID := dc_ActorID r; dc_WorkloadID := dc_WorkloadID r; dc_owner := dc_owner r;
     dc_quarantined := dc_quarantined r; dc_evidence := e |}.

Definition orphaned (now : Z) (t : tables) (r : DatabaseCleanup) : bool := unresolved r && negb (live now t (dc_owner r)).

(** [ClaimOrphanedDatabaseCleanup], its three statements in one transaction;
    the number of records claimed. *)
Definition ClaimOrphanedDatabaseCleanup (now : Z) (owner : bytes) (t : tables) : tables * Z :=
  let takes := λ r, orphaned now t r && live now t owner in
  ({| tb_replica := filter (λ kv, now - 60000 < kv.2) (tb_replica t);
      tb_cleanup := (λ r, if takes r then with_owner owner r else r) <$> tb_cleanup t;
      tb_sessions := filter (λ kv, live now t (bs_owner kv.2) = true) (tb_sessions t) |},
   Z.of_nat (size (filter (λ kv, takes kv.2 = true) (tb_cleanup t)))).

(** The INSERT of [AddDatabaseCleanup]; [None]: the accessor is taken. *)
Definition add_record (now : Z) (owner accessor : bytes) (r : DatabaseCleanup) (t : tables) : tables * option bool :=
  if live now t owner then
    match tb_cleanup t !! accessor with
    | Some _ => (t, None)
    | None => (with_cleanup (<[accessor := with_owner owner r]> (tb_cleanup t)) t, Some true)
    end
  else (t, Some false).

Definition new_record (binding actor workload : bytes) : DatabaseCleanup :=
  {| dc_Binding := binding; dc_LeaseID := []; dc_ActorID := actor; dc_WorkloadID := workload; dc_owner := []; dc_quarantined := false; dc_evidence := [] |}.

Definition by_accessor : list (bytes * DatabaseCleanup) → list (bytes * DatabaseCleanup) := sort_by (λ a b, bytes_ltb a.1 b.1).

Definition ListDatabaseCleanup (t : tables) : list (bytes * DatabaseCleanup) :=
  by_accessor (List.filter (λ kv, unresolved kv.2) (map_to_list (tb_cleanup t))).
Definition ListOwnedDatabaseCleanup (owner : bytes) (t : tables) : list (bytes * DatabaseCleanup) :=
  by_accessor (List.filter (λ kv, unresolved kv.2 && bool_decide (dc_owner kv.2 = owner)) (map_to_list (tb_cleanup t))).

(** An UPDATE of one record: the tables and whether a row was affected. *)
Definition update_record (accessor : bytes) (guard : DatabaseCleanup → bool) (f : DatabaseCleanup → DatabaseCleanup) (t : tables) : tables * bool :=
  match tb_cleanup t !! accessor with
  | Some r => if guard r then (with_cleanup (<[accessor := f r]> (tb_cleanup t)) t, true) else (t, false)
  | None => (t, false)
  end.

Definition set_lease (now : Z) (owner accessor leaseID : bytes) (t : tables) : tables * bool :=
  update_record accessor (λ r, bool_decide (dc_owner r = owner) && unresolved r && live now t owner) (with_lease leaseID) t.

Definition QuarantineDatabaseCleanup (owner accessor : bytes) (t : tables) : tables :=
  fst (update_record accessor (λ r, bool_decide (dc_owner r = owner) && bool_decide (dc_LeaseID r = []) && unresolved r) with_quarantine t).

Definition DatabaseBindingQuarantined (binding : bytes) (t : tables) : bool :=
  existsb (λ kv, bool_decide (dc_Binding kv.2 = binding) && dc_quarantined kv.2 && bool_decide (dc_LeaseID kv.2 = []) && unresolved kv.2) (map_to_list (tb_cleanup t)).

Definition confirm_record (now : Z) (owner accessor evidence : bytes) (t : tables) : tables * bool :=
  update_record accessor (λ r, bool_decide (dc_LeaseID r = []) && unresolved r && live now t owner) (with_evidence evidence) t.

Definition DeleteDatabaseCleanup (accessor : bytes) (t : tables) : tables := with_cleanup (delete accessor (tb_cleanup t)) t.

(** ** Sessions *)

Inductive session_outcome := SessionAdded | SessionOwnershipLost | PodSessionLimit | SessionTaken | SessionIncomplete.

Definition CountPodSessions (now : Z) (pod : bytes) (t : tables) : Z :=
  Z.of_nat (length (List.filter (λ kv, bool_decide (bs_pod kv.2 = pod) && live now t (bs_owner kv.2)) (map_to_list (tb_sessions t)))).

Definition AddBrokerSession (now : Z) (owner id pod : bytes) (limit : Z) (t : tables) : tables * session_outcome :=
  if bool_decide (owner = []) || bool_decide (id = []) || bool_decide (pod = []) then (t, SessionIncomplete)
  else if (0 <? limit) && (limit <=? CountPodSessions now pod t) then (t, PodSessionLimit)
  else if negb (live now t owner) then (t, SessionOwnershipLost)
  else match tb_sessions t !! id with
       | Some _ => (t, SessionTaken)
       | None => (with_sessions (<[id := {| bs_owner := owner; bs_pod := pod |}]> (tb_sessions t)) t, SessionAdded)
       end.

Definition RemoveBrokerSession (id : bytes) (t : tables) : tables := with_sessions (delete id (tb_sessions t)) t.
