(* ===== verification/VaultDatabase.v ===== *)
(** * Database credentials from Vault ([internal/hashicorp]: [database.go],
      [database_session.go])

    What the client accepts of a reference, of a lease and of Vault's replies.
    A reply is what the Vault client decodes; [None] stands for an error or a nil
    secret.  The requests themselves are calls of [LeaseMinter]'s programs. *)

From S2P Require Import Prelude GoString GoRegexp.

(** A [time.Time] with both its readings. *)
Record instant := { it_mono : Z; it_wall : Z }.
#[global] Instance instant_eq : EqDecision instant.
Proof. solve_decision. Defined.

Definition Before (a b : instant) : bool := it_mono a <? it_mono b.
Definition Add (a : instant) (d : Z) : instant := {| it_mono := it_mono a + d; it_wall := it_wall a + d |}.
(** [max(a.Sub(b), a.Round(0).Sub(b.Round(0)))] *)
Definition longest_since (a b : instant) : Z := Z.max (time_Sub (it_mono a) (it_mono b)) (time_Sub (it_wall a) (it_wall b)).

Definition segment_start (c : Z) : bool := is_alnum c || bool_decide (c ∈ [95; 45]).
Definition segment_rest (c : Z) : bool := is_alnum c || bool_decide (c ∈ [95; 46; 45]).
(** [^[A-Za-z0-9_-][A-Za-z0-9_.-]*$] *)
Definition databasePathSegment : regex := RSeq (RCls segment_start) (RStar (RCls segment_rest)).

Definition path_segments (s : bytes) : bool := forallb (MatchString databasePathSegment) (Split s (byte_of 47)).

Section References.
Context `{UnicodeTables} (hex_sha256 : bytes → bytes).

Definition clean_mount (mount : bytes) : bytes := Trim (TrimSpace mount) (byte_of 47).

Definition ValidateDatabaseReference (mount role : bytes) : bool :=
  MatchString databasePathSegment (TrimSpace role) && path_segments (clean_mount mount).

Definition creds_path (mount role : bytes) : bytes := clean_mount mount ++ #"/creds/" ++ TrimSpace role.

Definition DatabaseCredentialPolicyName (mount role : bytes) : bytes := #"agent-vault-db-" ++ hex_sha256 (creds_path mount role).
End References.

(** ** Replies *)

Definition max_seconds : Z := max_int64 / Second.

(** What [ReadDatabaseCredential] reads of a secret. *)
Record secret := { sec_LeaseID : bytes; sec_username : bytes; sec_password : bytes; sec_LeaseDuration : Z; sec_Renewable : bool }.

Record DatabaseCredential := { cr_LeaseID : bytes; cr_Username : bytes; cr_Password : bytes; cr_LeaseDuration : Z; cr_Renewable : bool }.

Definition usable (s : secret) : bool :=
  negb (bool_decide (sec_username s = []) || bool_decide (sec_password s = []) || bool_decide (sec_LeaseID s = []) ||
        (sec_LeaseDuration s <=? 0) || (max_seconds <? sec_LeaseDuration s)).

Definition credential_of (s : secret) : DatabaseCredential :=
  {| cr_LeaseID := sec_LeaseID s; cr_Username := sec_username s; cr_Password := sec_password s; cr_LeaseDuration := sec_LeaseDuration s * Second;
     cr_Renewable := sec_Renewable s |}.

Definition ExpiresAt (c : DatabaseCredential) (issuedAt : instant) : instant := Add issuedAt (cr_LeaseDuration c).

(** The increment sent, in seconds rounded up, and the TTL of the reply. *)
Definition renew_increment (increment : Z) : Z := - (- increment / Second).
Definition renewed_ttl (leaseDuration : option Z) : option Z :=
  match leaseDuration with
  | Some d => if (d <=? 0) || (max_seconds <? d) then None else Some (d * Second)
  | None => None
  end.

(** [sys/leases/lookup], as far as it is told apart. *)
Inductive lookup_reply := InvalidLease | LookupFailed | NoConfirmation | LeasePresent.
#[global] Instance lookup_reply_eq : EqDecision lookup_reply.
Proof. solve_decision. Defined.

(** ** The child token of a session *)

Record token_auth := {
  ta_ClientToken : bytes;
  ta_Accessor : bytes;
  ta_LeaseDuration : Z;
  ta_Policies : list bytes;
  ta_IdentityPolicies : list bytes;
  ta_Renewable : bool;
}.

Inductive create_reply := CreateForbidden | CreateFailed | Created (auth : option token_auth).

Record DatabaseSession := { ds_Accessor : bytes; ds_ExpiresAt : instant }.

Inductive session_reply :=
| SessionDenied                       (* 403: the login lacks the policy *)
| SessionFailed
| SessionRefused (accessor : bytes)   (* unexpected rights: the token is revoked *)
| SessionCreated (s : DatabaseSession).

(** [newDatabaseSession] on Vault's reply.  [ceiling] is the hard expiry of the
    parent login, if it has one. *)
Definition newDatabaseSession (policy : bytes) (ttl : Z) (started : instant) (ceiling : option instant) (r : create_reply) : session_reply :=
  match r with
  | CreateForbidden => SessionDenied
  | CreateFailed | Created None => SessionFailed
  | Created (Some a) =>
      if bool_decide (ta_ClientToken a = []) || bool_decide (ta_Accessor a = []) || (ta_LeaseDuration a <=? 0) then SessionFailed
      else if negb (bool_decide (ta_Policies a = [policy])) || negb (bool_decide (ta_IdentityPolicies a = [])) || ta_Renewable a then SessionRefused (ta_Accessor a)
      else
        let granted := if ta_LeaseDuration a <? ttl / Second then ta_LeaseDuration a * Second else ttl in
        let expiry := Add started granted in
        let expiry := match ceiling with Some c => if Before c expiry then c else expiry | None => expiry end in
        SessionCreated {| ds_Accessor := ta_Accessor a; ds_ExpiresAt := expiry |}
  end.

(** ** Facts *)

(** A credential's path is its mount and role and nothing else: a validated
    reference holds no character that could make it another endpoint. *)
Definition path_code (c : Z) : bool := segment_rest c || (c =? 47).

Lemma segment_codes s : MatchString databasePathSegment s = true → Forall (λ c, segment_rest c = true) (runes s) ∧ runes s ≠ [].
Proof.
  unfold MatchString. rewrite full_match_lang. intros (w1 & w2 & Ew & H1 & H2)%lang_seq_inv. apply lang_cls_inv in H1 as (c & -> & Hc).
  apply lang_star_cls in H2. rewrite Ew. split; [|done]. cbn. apply Forall_cons. split; [|done].
  unfold segment_start, segment_rest in *. apply orb_true_iff in Hc as [->|Hc]; [done|]. apply orb_true_iff. right. apply bool_decide_eq_true in Hc. apply bool_decide_eq_true_2. set_solver.
Qed.
