(* ===== verification/LeaseMinter.v ===== *)
(** * The durable lease minter ([internal/pgproxy/durable_leases.go])

    Each method is a program: a tree of calls, each of which is one atomic step
    of the process, the journal or Vault, so that methods of one process and of
    others interleave between them.  [exec] says what a call does; the outside
    decides, through an [outcome], whether a request takes effect and whether its
    answer arrives.  Logging is left out. *)

From S2P Require Import Prelude GoString CleanupStore VaultDatabase.

(** ** Calls *)

Inductive failure :=
| CtxDone | AuthorityUnavailable | BindingRequired | OwnerInvalid | OwnershipLost | ErrReplicaNameInUse | AlreadyRegistered
| StoreFailed | RecordIncomplete | RecordLost | UnknownNotFound | EvidenceRequired | CleanupIncomplete | UnknownIssuance | RevokeFailed
| SessionCreation | IssuanceFailed | PersistFailed | SessionUnavailable | SessionNotActive | InvalidTiming.
#[global] Instance failure_eq : EqDecision failure.
Proof. solve_decision. Defined.

Record durableLease := { dl_accessor : bytes; dl_expires : instant; dl_session : bool }.
#[global] Instance durableLease_eq : EqDecision durableLease.
Proof. solve_decision. Defined.

(** A transaction of the journal, with the type of its answer. *)
Inductive tx : Type → Type :=
| InsertOwner (owner : bytes) (ttl : Z) : tx bool
| RenewOwner (owner : bytes) (ttl : Z) : tx bool
| NameInUse (owner : bytes) : tx bool
| ReleaseOwner (owner : bytes) : tx unit
| CheckOwner (owner : bytes) : tx bool
| LiveOwners : tx Z
| ClaimOrphans (owner : bytes) : tx Z
| AddRecord (owner accessor : bytes) (r : CleanupStore.DatabaseCleanup) : tx (option bool)
| SetLease (owner accessor leaseID : bytes) : tx bool
| Quarantine (owner accessor : bytes) : tx unit
| BindingQuarantined (binding : bytes) : tx bool
| ListAll : tx (list (bytes * CleanupStore.DatabaseCleanup))
| ListOwned (owner : bytes) : tx (list (bytes * CleanupStore.DatabaseCleanup))
| DeleteRecord (accessor : bytes) : tx unit
| ConfirmRecord (owner accessor evidence : bytes) : tx bool.

Definition exec_tx {A} (now : Z) (q : tx A) (t : tables) : tables * A :=
  match q in tx A return tables * A with
  | InsertOwner o ttl => insert_owner now o ttl t
  | RenewOwner o ttl => renew_owner now o ttl t
  | NameInUse o => (t, replicaNameInUse now o t)
  | ReleaseOwner o => (release_owner o t, tt)
  | CheckOwner o => (t, live now t o)
  | LiveOwners => (t, LiveDatabaseCleanupOwners now t)
  | ClaimOrphans o => ClaimOrphanedDatabaseCleanup now o t
  | AddRecord o a r => add_record now o a r t
  | SetLease o a l => set_lease now o a l t
  | Quarantine o a => (QuarantineDatabaseCleanup o a t, tt)
  | BindingQuarantined b => (t, DatabaseBindingQuarantined b t)
  | ListAll => (t, ListDatabaseCleanup t)
  | ListOwned o => (t, ListOwnedDatabaseCleanup o t)
  | DeleteRecord a => (DeleteDatabaseCleanup a t, tt)
  | ConfirmRecord o a e => confirm_record now o a e t
  end.

Inductive call : Type → Type :=
| Clock : call instant
| Sleep (d : Z) : call bool                        (* [false]: the context ended *)
| Cancelled : call bool                            (* [m.ctx.Err() != nil] *)
| Cancel : call unit                               (* [m.cancel()] *)
| SetFenced : call unit
| Started (sent : instant) : call unit             (* the constructor returns the minter *)
| LastRenew : call instant
| SetLastRenew (sent : instant) : call unit
| SetLive (n : Z) : call unit
| Kick : call unit                                 (* [m.kick], without blocking *)
| Lock : call bool                                 (* [m.lock]; [false]: the context ended *)
| TryLock : call bool
| Unlock : call unit
| Active : call (gmap bytes durableLease)
| ActiveGet (id : bytes) : call (option durableLease)
| ActivePut (id : bytes) (l : durableLease) : call unit
| ActiveTake (id : bytes) : call (option durableLease)
| ActiveClear : call unit
| Closed : call (option (option failure))          (* [m.closed] with [m.closeErr] *)
| SetClosed (e : option failure) : call unit
| OnceBegin : call (option bool)                   (* [releaseOnce]: [Some err] when it has run *)
| OnceEnd (failed : bool) : call unit
| Db {A} (q : tx A) : call (option A)              (* [None]: an error *)
| CreateSession (mount role : bytes) (ttl : Z) : call (option DatabaseSession)
| VaultRead (accessor : bytes) : call (option secret)
| VaultRevoke (leaseID : bytes) : call bool        (* the write to [sys/leases/revoke] *)
| VaultLookup (leaseID : bytes) : call lookup_reply
| RevokeSelf (accessor : bytes) : call bool
| VaultRenew (leaseID : bytes) (increment : Z) : call (option Z).

Inductive prog (A : Type) : Type :=
| Ret (a : A)
| Do {B : Type} (c : call B) (k : B → prog A).
Arguments Ret {A} a.
Arguments Do {A B} c k.

Fixpoint prog_bind {A B} (p : prog A) (f : A → prog B) : prog B :=
  match p with
  | Ret a => f a
  | Do c k => Do c (λ b, prog_bind (k b) f)
  end.

Notation "x <- c ;; p" := (Do c (λ x, p)) (at level 60, c at next level, right associativity) : go_scope.
Notation "c ;;; p" := (Do c (λ _, p)) (at level 60, right associativity) : go_scope.
Notation "'let!' x := p 'in' q" := (prog_bind p (λ x, q)) (at level 200, x binder, p at level 200, q at level 200) : go_scope.

(** [if err := p; err != nil { return err }] *)
Definition then_ok {A} (p : prog (option failure)) (q : prog (result failure A)) : prog (result failure A) :=
  let! e := p in match e with Some e => Ret (Err e) | None => q end.

(** ** Options *)

Record DurableLeaseOptions := { op_TokenTTL : Z; op_RetryInterval : Z; op_OwnerTTL : Z; op_FenceAfter : Z; op_Heartbeat : Z }.

Definition default_to (v d : Z) : Z := if v <=? 0 then d else v.

Definition normalize_options (o : DurableLeaseOptions) : DurableLeaseOptions :=
  let token := default_to (op_TokenTTL o) (60 * Minute) in
  let retry := default_to (op_RetryInterval o) Second in
  let owner := default_to (op_OwnerTTL o) (30 * Second) in
  {| op_TokenTTL := token; op_RetryInterval := retry; op_OwnerTTL := owner;
     op_FenceAfter := default_to (op_FenceAfter o) (Z.quot (owner * 2) 3); op_Heartbeat := default_to (op_Heartbeat o) (Z.quot owner 6) |}.

Definition valid_options (o : DurableLeaseOptions) : bool :=
  negb ((op_OwnerTTL o <? 3 * Second) || (op_TokenTTL o <? Second) || (24 * 60 * Minute <? op_TokenTTL o) ||
        (op_FenceAfter o <=? op_Heartbeat o) || (op_OwnerTTL o <=? op_FenceAfter o)).

Definition Milliseconds (d : Z) : Z := Z.quot d Millisecond.

(** ** The journal's methods *)

Section Minter.
Context (opts : DurableLeaseOptions) (owner : bytes).

Definition db_error {A} (q : tx A) : prog (option failure) := r <- Db q;; Ret (match r with Some _ => None | None => Some StoreFailed end).

Definition ClaimDatabaseCleanupOwner (ttl : Z) : prog (option failure) :=
  if bool_decide (owner = []) || (ttl <=? 0) then Ret (Some OwnerInvalid)
  else
    r <- Db (InsertOwner owner (Milliseconds ttl));;
    match r with
    | Some true => Ret None
    | _ =>
        inUse <- Db (NameInUse owner);;
        match inUse with
        | Some true => Ret (Some ErrReplicaNameInUse)
        | _ => Ret (Some (match r with Some _ => AlreadyRegistered | None => StoreFailed end))
        end
    end.

Definition RenewDatabaseCleanupOwner (ttl : Z) : prog (option failure) :=
  r <- Db (RenewOwner owner (Milliseconds ttl));;
  match r with
  | None => Ret (Some StoreFailed)
  | Some true => Ret None
  | Some false =>
      inUse <- Db (NameInUse owner);;
      match inUse with Some true => Ret (Some ErrReplicaNameInUse) | _ => Ret (Some OwnershipLost) end
  end.

Definition CheckDatabaseCleanupOwner : prog (option failure) :=
  r <- Db (CheckOwner owner);; Ret (match r with Some true => None | Some false => Some OwnershipLost | None => Some StoreFailed end).

Definition AddDatabaseCleanup (accessor : bytes) (r : CleanupStore.DatabaseCleanup) : prog (option failure) :=
  if bool_decide (accessor = []) || bool_decide (dc_Binding r = []) then Ret (Some RecordIncomplete)
  else
    a <- Db (AddRecord owner accessor r);;
    Ret (match a with Some (Some true) => None | Some (Some false) => Some OwnershipLost | _ => Some StoreFailed end).

Definition SetDatabaseCleanupLease (accessor leaseID : bytes) : prog (option failure) :=
  if bool_decide (leaseID = []) then Ret (Some RecordIncomplete)
  else r <- Db (SetLease owner accessor leaseID);; Ret (match r with Some true => None | Some false => Some RecordLost | None => Some StoreFailed end).

Definition ConfirmJournal `{UnicodeTables} (accessor evidence : bytes) : prog (option failure) :=
  if bool_decide (TrimSpace accessor = []) || bool_decide (TrimSpace evidence = []) then Ret (Some EvidenceRequired)
  else r <- Db (ConfirmRecord owner accessor evidence);; Ret (match r with Some true => None | Some false => Some UnknownNotFound | None => Some StoreFailed end).

(** ** Vault *)

(** [Client.RevokeLease] and [Client.RevokeDatabaseLeaseConfirmed]. *)
Definition RevokeLease (leaseID : bytes) : prog bool :=
  if bool_decide (leaseID = []) then Ret true
  else if negb (path_segments leaseID) then Ret false
  else ok <- VaultRevoke leaseID;; Ret ok.

Definition RevokeDatabaseLeaseConfirmed (leaseID : bytes) : prog bool :=
  if bool_decide (leaseID = []) || negb (path_segments leaseID) then Ret false
  else
    ok <- VaultRevoke leaseID;;
    if ok then r <- VaultLookup leaseID;; Ret (bool_decide (r = InvalidLease)) else Ret false.

(** [DatabaseSession.ReadCredential] *)
Definition ReadCredential (s : DatabaseSession) : prog (option DatabaseCredential) :=
  now <- Clock;;
  if negb (Before now (ds_ExpiresAt s)) then Ret None
  else
    r <- VaultRead (ds_Accessor s);;
    match r with
    | None => Ret None
    | Some s => if usable s then Ret (Some (credential_of s)) else let! _ := RevokeLease (sec_LeaseID s) in Ret None
    end.

(** ** Starting *)

(** [claimOwner]: the time its last claim was sent. The loop ends by its
    deadline; [fuel] bounds the claims it makes until then. *)
Fixpoint claim_loop (fuel : nat) (deadline : instant) : prog (result failure instant) :=
  match fuel with
  | O => Ret (Err ErrReplicaNameInUse)
  | S fuel =>
      sent <- Clock;;
      let! err := ClaimDatabaseCleanupOwner (op_OwnerTTL opts) in
      match err with
      | Some ErrReplicaNameInUse =>
          now <- Clock;;
          if Before deadline now then Ret (Err ErrReplicaNameInUse)
          else ok <- Sleep (op_Heartbeat opts);; if ok then claim_loop fuel deadline else Ret (Err CtxDone)
      | Some e => Ret (Err e)
      | None => Ret (Ok sent)
      end
  end.

Definition claim_fuel : nat := S (S (S (Z.to_nat (Z.quot (op_OwnerTTL opts) (op_Heartbeat opts))))).

Definition claimOwner : prog (result failure instant) :=
  now <- Clock;; claim_loop claim_fuel (Add now (op_OwnerTTL opts + op_Heartbeat opts)).

Definition count_live : prog unit :=
  n <- Db LiveOwners;; match n with Some n => if 0 <? n then SetLive n;;; Ret tt else Ret tt | None => Ret tt end.
Definition claim_orphans : prog unit :=
  c <- Db (ClaimOrphans owner);; match c with Some c => if 0 <? c then Kick;;; Ret tt else Ret tt | None => Ret tt end.

(** [NewDurableLeaseMinter] with valid options. *)
Definition NewDurableLeaseMinter : prog (option failure) :=
  let! r := claimOwner in
  match r with
  | Err e => Cancel;;; Ret (Some e)
  | Ok sent => Started sent;;; SetLive 1;;; let! _ := count_live in let! _ := claim_orphans in Ret None
  end.

(** ** Fencing *)

Definition until (now last : instant) : Z := op_FenceAfter opts - longest_since now last.
Definition untilFence : prog Z := now <- Clock;; last <- LastRenew;; Ret (until now last).

Definition fence : prog unit := SetFenced;;; Cancel;;; Ret tt.

Definition heartbeat : prog bool :=
  sent <- Clock;;
  last <- LastRenew;;
  if until sent last <=? 0 then Ret false
  else
    let! err := RenewDatabaseCleanupOwner (op_OwnerTTL opts) in
    match err with
    | Some ErrReplicaNameInUse | Some OwnershipLost => Ret false
    | Some _ => let! rest := untilFence in Ret (0 <? rest)
    | None => SetLastRenew sent;;; let! _ := count_live in let! _ := claim_orphans in Ret true
    end.

(** The check [m.ctx.Err() != nil || m.untilFence(time.Now()) <= 0]. *)
Definition authority : prog bool :=
  done <- Cancelled;; if done then Ret false else let! rest := untilFence in Ret (0 <? rest).

Definition Ready : prog bool :=
  done <- Cancelled;; if done then Ret false else let! rest := untilFence in Ret (Z.quot (op_FenceAfter opts) 2 <? rest).

(** ** Reconciliation *)

Definition databaseBinding (vaultID name : bytes) : bytes := vaultID ++ #"/" ++ name.

(** One record that no live session holds: whether its cleanup failed. *)
Definition reconcile_record (accessor : bytes) (r : CleanupStore.DatabaseCleanup) : prog bool :=
  if bool_decide (dc_LeaseID r = []) then Db (Quarantine owner accessor);;; Ret true
  else
    let! ok := RevokeDatabaseLeaseConfirmed (dc_LeaseID r) in
    if ok then d <- Db (DeleteRecord accessor);; Ret (match d with Some _ => false | None => true end) else Ret true.

Fixpoint reconcile_records (binding : bytes) (active : list bytes) (records : list (bytes * CleanupStore.DatabaseCleanup)) (failed : bool)
    : prog (result failure bool) :=
  match records with
  | [] => Ret (Ok failed)
  | (accessor, r) :: rest =>
      if bool_decide (accessor ∈ active) || (negb (bool_decide (binding = [])) && negb (bool_decide (binding = dc_Binding r)))
      then reconcile_records binding active rest failed
      else
        let! err := CheckDatabaseCleanupOwner in
        match err with
        | Some e => Ret (Err e)
        | None => let! f := reconcile_record accessor r in reconcile_records binding active rest (f || failed)
        end
  end.

Definition reconcile (binding : bytes) : prog (option failure) :=
  let! err := CheckDatabaseCleanupOwner in
  match err with
  | Some e => Ret (Some e)
  | None =>
      records <- Db (ListOwned owner);;
      match records with
      | None => Ret (Some StoreFailed)
      | Some records =>
          held <- Active;;
          let! r := reconcile_records binding (map (λ kv, dl_accessor kv.2) (map_to_list held)) records false in
          match r with
          | Err e => Ret (Some e)
          | Ok true => Ret (Some CleanupIncomplete)
          | Ok false =>
              if bool_decide (binding = []) then Ret None
              else q <- Db (BindingQuarantined binding);; Ret (match q with Some false => None | _ => Some CleanupIncomplete end)
          end
      end
  end.

(** The pass [run] starts on each retry tick or kick. *)
Definition retry_pass : prog unit :=
  got <- TryLock;;
  if got then
    let! rest := untilFence in
    let! _ := (if 0 <? rest then Db (ClaimOrphans owner);;; Ret tt else Ret tt) in
    let! _ := reconcile [] in
    Unlock;;; Ret tt
  else Ret tt.

(** The heartbeat and the fence timer of [run]. *)
Definition on_heartbeat : prog unit := let! ok := heartbeat in if ok then Ret tt else fence.
Definition on_fence_timer : prog unit := fence.

(** ** Sessions *)

Record AgentScope := { sc_VaultID : bytes; sc_ActorID : bytes; sc_WorkloadID : bytes }.
Record DatabaseService := { sv_Name : bytes; sv_Mount : bytes; sv_Role : bytes }.
Record Lease := { ls_ID : bytes; ls_Username : bytes; ls_Password : bytes; ls_ExpiresAt : instant; ls_Renewable : bool }.

(** [Mint] once its session exists. *)
Definition mint_session (binding : bytes) (scope : AgentScope) (session : DatabaseSession) : prog (result failure Lease) :=
  let a := ds_Accessor session in
  let! err := AddDatabaseCleanup a (new_record binding (sc_ActorID scope) (sc_WorkloadID scope)) in
  match err with
  | Some _ => RevokeSelf a;;; Ret (Err PersistFailed)
  | None =>
      issued <- Clock;;
      let! credential := ReadCredential session in
      match credential with
      | None => RevokeSelf a;;; let! _ := reconcile binding in Ret (Err IssuanceFailed)
      | Some c =>
          let! err := SetDatabaseCleanupLease a (cr_LeaseID c) in
          match err with
          | Some _ => let! _ := RevokeDatabaseLeaseConfirmed (cr_LeaseID c) in RevokeSelf a;;; Ret (Err PersistFailed)
          | None =>
              let expiry := ExpiresAt c issued in
              let expiry := if Before (ds_ExpiresAt session) expiry then ds_ExpiresAt session else expiry in
              ActivePut (cr_LeaseID c) {| dl_accessor := a; dl_expires := ds_ExpiresAt session; dl_session := true |};;;
              Ret (Ok {| ls_ID := cr_LeaseID c; ls_Username := cr_Username c; ls_Password := cr_Password c; ls_ExpiresAt := expiry; ls_Renewable := cr_Renewable c |})
          end
      end
  end.

Definition mint_locked (scope : AgentScope) (svc : DatabaseService) : prog (result failure Lease) :=
  let! ok := authority in
  if negb ok then Ret (Err AuthorityUnavailable)
  else
    let binding := databaseBinding (sc_VaultID scope) (sv_Name svc) in
    then_ok (reconcile binding)
      (session <- CreateSession (sv_Mount svc) (sv_Role svc) (op_TokenTTL opts);;
       match session with
       | None => Ret (Err SessionCreation)
       | Some session => mint_session binding scope session
       end).

(** [m.lock] around a body, with the deferred unlock. *)
Definition locked {A} (body : prog (result failure A)) : prog (result failure A) :=
  got <- Lock;; if got then let! r := body in Unlock;;; Ret r else Ret (Err CtxDone).

Definition Mint (scope : AgentScope) (svc : option DatabaseService) : prog (result failure Lease) :=
  match svc with
  | None => Ret (Err BindingRequired)
  | Some svc =>
      if bool_decide (sc_VaultID scope = []) || bool_decide (sv_Name svc = []) then Ret (Err BindingRequired)
      else locked (mint_locked scope svc)
  end.

Definition Renew (id : bytes) (increment : Z) : prog (result failure instant) :=
  lease <- ActiveGet id;;
  match lease with
  | None => Ret (Err SessionUnavailable)
  | Some lease =>
      let! ok := authority in
      now <- Clock;;
      if negb ok || negb (Before now (dl_expires lease)) then Ret (Err SessionUnavailable)
      else
        started <- Clock;;
        ttl <- VaultRenew id (renew_increment increment);;
        match renewed_ttl ttl with
        | None => Ret (Err SessionUnavailable)
        | Some ttl => let expiry := Add started ttl in Ret (Ok (if Before (dl_expires lease) expiry then dl_expires lease else expiry))
        end
  end.

Definition Revoke (id : bytes) : prog (result failure unit) :=
  lease <- ActiveTake id;;
  match lease with
  | None => Ret (Err SessionNotActive)
  | Some lease =>
      locked
        (let! ok := RevokeDatabaseLeaseConfirmed id in
         if negb ok then Ret (Err RevokeFailed)
         else
           let! _ := (if dl_session lease then RevokeSelf (dl_accessor lease);;; Ret tt else Ret tt) in
           d <- Db (DeleteRecord (dl_accessor lease));; Ret (match d with Some _ => Ok tt | None => Err StoreFailed end))
  end.

Definition ConfirmDatabaseCleanup `{UnicodeTables} (accessor evidence : bytes) : prog (result failure unit) :=
  locked
    (done <- Cancelled;;
     closed <- Closed;;
     let! rest := untilFence in
     if done || bool_decide (is_Some closed) || (rest <=? 0) then Ret (Err AuthorityUnavailable)
     else
       let! err := CheckDatabaseCleanupOwner in
       match err with
       | Some _ => Ret (Err AuthorityUnavailable)
       | None =>
           records <- Db ListAll;;
           match records with
           | None => Ret (Err StoreFailed)
           | Some records =>
               match List.find (λ kv, bool_decide (kv.1 = accessor)) records with
               | Some (_, r) =>
                   if bool_decide (dc_LeaseID r = []) then
                     let! e := ConfirmJournal accessor evidence in Ret (match e with Some e => Err e | None => Ok tt end)
                   else Ret (Err UnknownNotFound)
               | None => Ret (Err UnknownNotFound)
               end
           end
       end).

(** ** Closing *)

Definition release : prog (option failure) :=
  ran <- OnceBegin;;
  match ran with
  | Some failed => Ret (if failed then Some StoreFailed else None)
  | None => r <- Db (ReleaseOwner owner);; let failed := match r with Some _ => false | None => true end in
            OnceEnd failed;;; Ret (if failed then Some StoreFailed else None)
  end.

(** [Close]; [wait] stands for the wait for [run] to end, [false]: the context
    ended first. *)
Definition Close (wait : bool) : prog (option failure) :=
  Cancel;;;
  let! r :=
    (if negb wait then Ret (Some CtxDone)
     else
       got <- Lock;;
       if negb got then Ret (Some CtxDone)
       else
         closed <- Closed;;
         match closed with
         | Some e => Unlock;;; Ret e
         | None =>
             SetClosed None;;;
             ActiveClear;;;
             let! err := reconcile [] in
             let! rel := release in
             let e := match err with Some e => Some e | None => rel end in
             SetClosed e;;; Unlock;;; Ret e
         end) in
  let! _ := release in Ret r.
End Minter.
