(* ===== verification/LeaseFacts.v ===== *)
(** * What a lease minter's thread knows

    A thread keeps a list of facts about the fleet.  [pre] is what a call needs
    to know, [post] what is known once it answered, and [safe] checks a whole
    program.  The programs of [LeaseMinter] are safe; [LeaseInv] shows that the
    facts of safe threads stay true. *)

From S2P Require Import Prelude GoString CleanupStore VaultDatabase LeaseMinter.

Inductive fact :=
| FStarted
| FBooting                             (* this thread constructs the minter *)
| FLocked                              (* this thread holds [m.mu] *)
| FSent (s : instant)                  (* [s] was read from the clock *)
| FRenewed (s : instant)               (* and the owner row was written after it *)
| FCancelled
| FRight (accessor : bytes) (recorded : bool)  (* this thread's token, not used yet *)
| FMine (accessor : bytes)             (* this thread's token, none of its leases ever active *)
| FPair (accessor leaseID : bytes)     (* the lease was issued to the token *)
| FGone (leaseID : bytes)              (* the lease was issued and is not in force *)
| FHeld (held : gmap bytes durableLease)  (* locked, and nothing else is active *)
| FWas (leaseID : bytes)               (* was active and is not any more *)
| FForeign (accessor : bytes).         (* made by this process or by a dead one *)

Definition needs_lock (f : fact) : bool := match f with FLocked | FHeld _ => true | _ => false end.
Definition right_to (a : bytes) (f : fact) : bool := match f with FRight a' _ => bool_decide (a' = a) | _ => false end.
Definition mine (a : bytes) (f : fact) : bool := match f with FMine a' => bool_decide (a' = a) | FHeld _ => true | _ => false end.
Definition booting (f : fact) : bool := match f with FBooting => true | _ => false end.
Definition without (p : fact → bool) (κ : list fact) : list fact := List.filter (λ f, negb (p f)) κ.
Definition renewed_now (κ : list fact) : list fact := flat_map (λ f, match f with FSent s => [FRenewed s] | _ => [] end) κ.
Definition known_lease (kv : bytes * CleanupStore.DatabaseCleanup) : list fact :=
  if bool_decide (dc_LeaseID kv.2 = []) then [] else [FPair kv.1 (dc_LeaseID kv.2); FForeign kv.1].

Definition post_tx (κ : list fact) {A} (q : tx A) : A → list fact :=
  match q in tx A return A → list fact with
  | InsertOwner _ _ | RenewOwner _ _ => λ b, if b then renewed_now κ ++ κ else κ
  | AddRecord _ a _ => λ b, match b with Some true => FRight a true :: κ | _ => κ end
  | ListOwned _ => λ l, flat_map known_lease l ++ κ
  | _ => λ _, κ
  end.

Definition post (κ : list fact) {B} (c : call B) : B → list fact :=
  match c in call B return B → list fact with
  | Clock => λ s, FSent s :: κ
  | Cancel => λ _, FCancelled :: κ
  | Started _ => λ _, FStarted :: without booting κ
  | Lock | TryLock => λ b, if b then FLocked :: κ else κ
  | Unlock => λ _, without needs_lock κ
  | Active => λ held, FHeld held :: κ
  | ActivePut _ d => λ _, without (mine (dl_accessor d)) κ
  | ActiveTake id => λ d, match d with Some d => FPair (dl_accessor d) id :: FForeign (dl_accessor d) :: FWas id :: κ | None => κ end
  | CreateSession _ _ _ => λ s, match s with Some s => FForeign (ds_Accessor s) :: FRight (ds_Accessor s) false :: κ | None => κ end
  | VaultRead a => λ s,
      match s with
      | Some s => (if bool_decide (sec_LeaseID s = []) then [] else [FPair a (sec_LeaseID s)]) ++ FMine a :: without (right_to a) κ
      | None => FMine a :: without (right_to a) κ
      end
  | VaultLookup l => λ r, if bool_decide (r = InvalidLease) then FGone l :: κ else κ
  | Db q => λ b, match b with Some x => post_tx κ q x | None => κ end
  | _ => λ _, κ
  end.

Lemma elem_of_without f p κ : f ∈ without p κ ↔ f ∈ κ ∧ p f = false.
Proof. unfold without. rewrite elem_of_lfilter. destruct (p f); naive_solver. Qed.

Section Safe.
Context (opts : bytes → DurableLeaseOptions) (r : bytes).

Definition ttl_of (r : bytes) : Z := Milliseconds (op_OwnerTTL (opts r)).

Definition pre_tx (κ : list fact) {A} (q : tx A) : Prop :=
  match q with
  | InsertOwner o ttl => o = r ∧ ttl = ttl_of r ∧ FBooting ∈ κ
  | RenewOwner o ttl => o = r ∧ ttl = ttl_of r
  | ReleaseOwner o => o = r ∧ FCancelled ∈ κ
  | AddRecord o a d => o = r ∧ FStarted ∈ κ ∧ FRight a false ∈ κ ∧ dc_LeaseID d = []
  | SetLease o a l => FPair a l ∈ κ
  | DeleteRecord a => ∃ l, FPair a l ∈ κ ∧ FGone l ∈ κ
  | ListOwned o => o = r
  | _ => True
  end.

(** No lease of the token serves a session of a process that is not dead. *)
Definition may_end (κ : list fact) (a l : bytes) : Prop :=
  FForeign a ∈ κ ∧ (FWas l ∈ κ ∨ FMine a ∈ κ ∨ ∃ held, FHeld held ∈ κ ∧ ∀ l' d, held !! l' = Some d → dl_accessor d ≠ a).

Definition pre (κ : list fact) {B} (c : call B) : Prop :=
  match c with
  | Started s => FBooting ∈ κ ∧ FRenewed s ∈ κ
  | SetLastRenew s => FRenewed s ∈ κ
  | Unlock => FLocked ∈ κ
  | Active => FLocked ∈ κ
  | ActivePut l d => FLocked ∈ κ ∧ FMine (dl_accessor d) ∈ κ ∧ FPair (dl_accessor d) l ∈ κ
  | CreateSession _ _ _ => FStarted ∈ κ
  | VaultRead a => FRight a true ∈ κ
  | VaultRevoke l => ∃ a, FPair a l ∈ κ ∧ may_end κ a l
  | VaultLookup l => ∃ a, FPair a l ∈ κ
  | RevokeSelf a => (∃ b, FRight a b ∈ κ) ∨ FMine a ∈ κ ∨ ∃ l, FPair a l ∈ κ ∧ FForeign a ∈ κ ∧ FWas l ∈ κ
  | Db q => pre_tx κ q
  | _ => True
  end.

Fixpoint safe (κ : list fact) {A} (p : prog A) (Q : list fact → A → Prop) : Prop :=
  match p with
  | Ret a => Q κ a
  | Do c k => pre κ c ∧ ∀ b, safe (post κ c b) (k b) Q
  end.

Lemma safe_bind {A B} (p : prog A) (f : A → prog B) κ Q : safe κ p (λ κ a, safe κ (f a) Q) → safe κ (prog_bind p f) Q.
Proof.
  revert κ. induction p as [a|C c k IH]; intros κ; cbn; [done|]. intros [Hp Hk]. split; [done|]. intros b. apply IH, Hk.
Qed.

Lemma safe_weaken {A} (p : prog A) κ (Q Q' : list fact → A → Prop) : safe κ p Q → (∀ κ a, Q κ a → Q' κ a) → safe κ p Q'.
Proof. revert κ. induction p as [a|C c k IH]; intros κ; cbn; [auto|]. intros [Hp Hk] H. split; [done|]. intros b. by apply IH. Qed.

(** *** The journal and Vault *)

(** Tactics: take the next call; facts by membership. *)
Ltac known := first [assumption | by rewrite ?elem_of_cons, ?elem_of_app; eauto 8 | set_solver].
Tactic Notation "call" "by" tactic3(t) := cbn [safe prog_bind pre post pre_tx post_tx]; split; [t|intros].
Tactic Notation "call" := call by (try done; try known).

Lemma safe_check κ Q : (∀ e, Q κ e) → safe κ (CheckDatabaseCleanupOwner r) Q.
Proof. intros HQ. call. destruct b as [[]|]; cbn; apply HQ. Qed.

Lemma safe_confirmed κ a l Q : FPair a l ∈ κ → may_end κ a l → (∀ ok, Q (if ok : bool then FGone l :: κ else κ) ok) → safe κ (RevokeDatabaseLeaseConfirmed l) Q.
Proof.
  intros Hp Hm HQ. unfold RevokeDatabaseLeaseConfirmed. destruct (_ || _); [apply (HQ false)|]. cbn [safe pre post]. split; [by exists a|].
  intros [|]; [|apply (HQ false)]. cbn [safe pre post]. split; [by exists a|]. intros b. specialize (HQ (bool_decide (b = InvalidLease))). by case_bool_decide.
Qed.

Lemma safe_revoke κ a l Q : (l ≠ [] → FPair a l ∈ κ) → (l ≠ [] → may_end κ a l) → (∀ ok, Q κ ok) → safe κ (RevokeLease l) Q.
Proof.
  intros Hp Hm HQ. unfold RevokeLease. case_bool_decide; [apply HQ|]. destruct (negb _); [apply HQ|]. cbn [safe pre post]. split; [exists a; auto|]. intros b. apply HQ.
Qed.

Lemma may_end_mono κ κ' a l : (∀ f, f ∈ κ → f ∈ κ') → may_end κ a l → may_end κ' a l.
Proof. intros Hs [H1 [H2|[H2|(h & H2 & H3)]]]; split; eauto 6. Qed.

Lemma safe_reconcile_record κ a rec Q : (dc_LeaseID rec ≠ [] → FPair a (dc_LeaseID rec) ∈ κ ∧ may_end κ a (dc_LeaseID rec)) →
  (∀ κ' b, (∀ f, f ∈ κ → f ∈ κ') → Q κ' b) → safe κ (reconcile_record r a rec) Q.
Proof.
  intros Hl HQ. unfold reconcile_record. case_bool_decide as E.
  - call. apply HQ. by destruct b.
  - destruct (Hl E) as [Hp Hm]. apply safe_bind, (safe_confirmed κ a); [done..|]. intros [|]; [|apply HQ; auto].
    call. apply HQ. destruct b; cbn; intros; known.
Qed.

Lemma safe_reconcile_records binding held records κ Q :
  FHeld held ∈ κ → (∀ f, f ∈ flat_map known_lease records → f ∈ κ) → (∀ κ' b, (∀ f, f ∈ κ → f ∈ κ') → Q κ' b) →
  ∀ failed, safe κ (reconcile_records r binding (map (λ kv, dl_accessor kv.2) (map_to_list held)) records failed) Q.
Proof.
  revert κ Q. induction records as [|[a rec] records IH]; intros κ Q Hh Hk HQ failed; cbn [reconcile_records]; [apply HQ; auto|].
  cbn [flat_map] in Hk. setoid_rewrite elem_of_app in Hk. case_bool_decide as Ea; cbn [orb]; [apply IH; auto|]. destruct (_ && _); [apply IH; auto|].
  apply safe_bind, safe_check. intros [e|]; [apply HQ; auto|]. apply safe_bind, safe_reconcile_record.
  - intros El. pose proof (λ f Hf, Hk f (or_introl Hf)) as Hf. unfold known_lease in Hf. cbn [fst snd] in Hf. rewrite (bool_decide_false _ El) in Hf.
    split; [apply Hf; known|]. split; [apply Hf; known|]. right. right. exists held. split; [done|]. intros l' d Hd <-. apply Ea.
    apply list_elem_of_fmap. exists (l', d). split; [done|]. by apply elem_of_map_to_list.
  - intros κ' b Hs. apply IH; auto.
Qed.

Lemma safe_reconcile binding κ Q : FLocked ∈ κ → (∀ κ' e, (∀ f, f ∈ κ → f ∈ κ') → Q κ' e) → safe κ (reconcile r binding) Q.
Proof.
  intros Hl HQ. unfold reconcile. apply safe_bind, safe_check. intros [e|]; [apply HQ; auto|]. call. destruct b as [records|]; [|apply HQ; auto].
  cbn [post]. call. apply safe_bind, safe_reconcile_records; [known|intros; known|]. intros κ' [[|]|e] Hs; [apply HQ; intros; apply Hs; known| |apply HQ; intros; apply Hs; known].
  case_bool_decide; [apply HQ; intros; apply Hs; known|]. call. apply HQ. intros. destruct b0; cbn; apply Hs; known.
Qed.

(** *** Starting and renewing *)

Lemma renewed_known κ s : FSent s ∈ κ → FRenewed s ∈ renewed_now κ.
Proof. intros Hs. unfold renewed_now. apply list_elem_of_In, in_flat_map. exists (FSent s). split; [by apply list_elem_of_In|]. by left. Qed.

Lemma safe_owner {A} κ (e : option bool) (f : option bool → prog A) Q : (∀ e, safe κ (f e) Q) → safe κ (x <- Db (NameInUse r);; f x) Q.
Proof. intros H. call. destruct b; apply H. Qed.

Lemma safe_claim κ Q : FBooting ∈ κ → (∀ e, e ≠ None → Q κ e) → Q (renewed_now κ ++ κ) None → safe κ (ClaimDatabaseCleanupOwner r (op_OwnerTTL (opts r))) Q.
Proof.
  intros Hb He HQ. unfold ClaimDatabaseCleanupOwner. destruct (_ || _); [by apply He|]. call. destruct b as [[|]|]; cbn [post post_tx]; [apply HQ| |];
    (apply safe_owner; [exact None|]); intros [[|]|]; by apply He.
Qed.

Lemma safe_renew κ Q : (∀ e, e ≠ None → Q κ e) → Q (renewed_now κ ++ κ) None → safe κ (RenewDatabaseCleanupOwner r (op_OwnerTTL (opts r))) Q.
Proof.
  intros He HQ. unfold RenewDatabaseCleanupOwner. call. destruct b as [[|]|]; cbn [post post_tx]; [apply HQ| |by apply He].
  apply safe_owner; [exact None|]. intros [[|]|]; by apply He.
Qed.

Lemma safe_count κ Q : Q κ tt → safe κ count_live Q.
Proof. intros HQ. unfold count_live. call. destruct b as [n|]; [destruct (0 <? n)|]; [call|..]; apply HQ. Qed.
Lemma safe_orphans κ Q : Q κ tt → safe κ (claim_orphans r) Q.
Proof. intros HQ. unfold claim_orphans. call. destruct b as [n|]; [destruct (0 <? n)|]; [call|..]; apply HQ. Qed.

Lemma safe_claim_loop fuel deadline κ Q : FBooting ∈ κ →
  (∀ κ' s, FBooting ∈ κ' → match s with Ok s => FRenewed s ∈ κ' | Err _ => True end → Q κ' s) → safe κ (claim_loop (opts r) r fuel deadline) Q.
Proof.
  revert κ. induction fuel as [|fuel IH]; intros κ Hb HQ; cbn [claim_loop]; [by apply HQ|]. call. apply safe_bind, safe_claim; [known| |].
  - intros [e|] He; [|done]. assert (FBooting ∈ FSent b :: κ) by known. destruct e; try (cbn [safe]; by apply HQ). call.
    destruct (Before _ _); [cbn [safe]; apply HQ; [known|done]|]. call. destruct b1; cbn [post]; [apply IH; [known|done]|]. apply HQ; [known|done].
  - apply HQ; [known|]. apply elem_of_app. left. apply renewed_known. known.
Qed.

Lemma safe_new κ Q : FBooting ∈ κ → (∀ κ' e, Q κ' e) → safe κ (NewDurableLeaseMinter (opts r) r) Q.
Proof.
  intros Hb HQ. unfold NewDurableLeaseMinter, claimOwner. apply safe_bind. call. apply safe_claim_loop; [known|]. intros κ' [s|e] Hb' Hs; [|call; apply HQ].
  call. call. apply safe_bind, safe_count, safe_bind, safe_orphans, HQ.
Qed.

Lemma safe_until κ Q : (∀ κ' z, (∀ f, f ∈ κ → f ∈ κ') → Q κ' z) → safe κ (untilFence (opts r)) Q.
Proof. intros HQ. unfold untilFence. call. call. apply HQ. intros. cbn [post]. known. Qed.

Lemma safe_authority κ Q : (∀ κ' z, (∀ f, f ∈ κ → f ∈ κ') → Q κ' z) → safe κ (authority (opts r)) Q.
Proof. intros HQ. unfold authority. call. destruct b; [apply HQ; auto|]. apply safe_bind, safe_until. intros. apply HQ. auto. Qed.

Lemma safe_fence κ Q : (∀ κ', Q κ' tt) → safe κ fence Q.
Proof. intros HQ. unfold fence. call. call. apply HQ. Qed.

Lemma safe_heartbeat κ Q : (∀ κ' b, Q κ' b) → safe κ (heartbeat (opts r) r) Q.
Proof.
  intros HQ. unfold heartbeat. call. call. destruct (_ <=? 0); [apply HQ|]. apply safe_bind, safe_renew.
  - intros [e|] He; [|done]. destruct e; try apply HQ; apply safe_bind, safe_until; intros; apply HQ.
  - call. apply safe_bind, safe_count, safe_bind, safe_orphans, HQ.
Qed.

(** *** Sessions *)

(** What the minter of a token knows before and after it reads a credential. *)
Definition own_token (κ : list fact) (a : bytes) (c : option DatabaseCredential) : Prop :=
  FLocked ∈ κ ∧ match c with
                | None => (∃ b, FRight a b ∈ κ) ∨ FMine a ∈ κ
                | Some c => FMine a ∈ κ ∧ FForeign a ∈ κ ∧ FPair a (cr_LeaseID c) ∈ κ
                end.

Lemma safe_read κ s Q : FLocked ∈ κ → FRight (ds_Accessor s) true ∈ κ → FForeign (ds_Accessor s) ∈ κ →
  (∀ κ' c, own_token κ' (ds_Accessor s) c → Q κ' c) → safe κ (ReadCredential s) Q.
Proof.
  intros Hl Hr Hf HQ. unfold ReadCredential. call. destruct (negb _); [apply HQ; split; [known|]; left; exists true; known|]. call.
  set (a := ds_Accessor s) in *. set (κ1 := without (right_to a) (FSent b :: κ)).
  assert (H1 : FLocked ∈ κ1 ∧ FForeign a ∈ κ1) by (split; apply elem_of_without; (split; [known|done])). destruct H1 as [Hl1 Hf1].
  destruct b0 as [t|]; [|apply HQ; split; [known|]; right; known].
  destruct (usable t) eqn:Eu.
  - apply HQ. assert (sec_LeaseID t ≠ []) as Ht.
    { intros Et. unfold usable in Eu. rewrite Et, (bool_decide_true ([] = [])) in Eu by done. by rewrite !orb_true_r in Eu. }
    rewrite (bool_decide_false _ Ht). cbn [app]. split; [known|]. cbn [cr_LeaseID credential_of]. split_and!; known.
  - apply safe_bind, (safe_revoke _ a).
    + intros Ht. rewrite (bool_decide_false _ Ht). cbn [app]. known.
    + intros Ht. split; [known|]. right. left. known.
    + intros _. apply HQ. split; [known|]. right. known.
Qed.

Lemma safe_add κ a d Q : FStarted ∈ κ → FRight a false ∈ κ → dc_LeaseID d = [] → (∀ e, e ≠ None → Q κ e) → Q (FRight a true :: κ) None →
  safe κ (AddDatabaseCleanup r a d) Q.
Proof.
  intros Hs Hr Hd He HQ. unfold AddDatabaseCleanup. destruct (_ || _); [by apply He|]. call. destruct b as [[[]|]|]; cbn [post post_tx]; [done|by apply He..].
Qed.

Lemma safe_set κ a l Q : FPair a l ∈ κ → (∀ e, Q κ e) → safe κ (SetDatabaseCleanupLease r a l) Q.
Proof. intros Hp HQ. unfold SetDatabaseCleanupLease. case_bool_decide; [apply HQ|]. call. destruct b as [[]|]; apply HQ. Qed.

Lemma safe_mint_session binding scope s κ Q : FLocked ∈ κ → FStarted ∈ κ → FRight (ds_Accessor s) false ∈ κ → FForeign (ds_Accessor s) ∈ κ →
  (∀ κ' x, FLocked ∈ κ' → Q κ' x) → safe κ (mint_session r binding scope s) Q.
Proof.
  intros Hl Hs Hr Hf HQ. unfold mint_session. apply safe_bind, safe_add; [done..| |].
  - intros [e|] He; [|done]. call by (left; by exists false). by apply HQ.
  - call. apply safe_bind, safe_read; [known..|]. intros κ' [c|] [Hl' H].
    + destruct H as (Hm & Hf' & Hp). apply safe_bind, (safe_set _ (ds_Accessor s)); [done|]. intros [e|].
      * apply safe_bind, (safe_confirmed κ' (ds_Accessor s)); [done|split; [done|]; by right; left|]. intros ok. call by (right; left; destruct ok; known).
        apply HQ. destruct ok; cbn [post]; known.
      * call. apply HQ. cbn [post dl_accessor]. by apply elem_of_without.
    + call by (destruct H; [by left|by right; left]). apply safe_bind, safe_reconcile; [done|]. intros κ2 e H2. apply HQ. by apply H2.
Qed.

Lemma safe_locked {A} κ (body : prog (result failure A)) Q :
  (∀ κ', (∀ f, f ∈ κ → f ∈ κ') → FLocked ∈ κ' → safe κ' body (λ κ'' x, FLocked ∈ κ'')) → (∀ κ' x, Q κ' x) → safe κ (locked body) Q.
Proof.
  intros Hb HQ. unfold locked. call. destruct b; [|apply HQ]. cbn [post]. apply safe_bind. eapply safe_weaken; [apply Hb; intros; known|].
  intros κ' x Hl. call. apply HQ.
Qed.

Lemma safe_mint κ scope svc Q : FStarted ∈ κ → (∀ κ' x, Q κ' x) → safe κ (Mint (opts r) r scope svc) Q.
Proof.
  intros Hs HQ. unfold Mint. destruct svc as [svc|]; [|apply HQ]. destruct (_ || _); [apply HQ|]. apply safe_locked; [|done]. intros κ1 H1 Hl.
  unfold mint_locked. apply safe_bind, safe_authority. intros κ2 [|] H2; [|cbn; auto]. unfold then_ok. cbn [negb]. apply safe_bind, safe_reconcile; [auto|].
  intros κ3 [e|] H3; [cbn; auto|]. call by (auto). destruct b as [s|]; [|cbn; auto]. cbn [post]. apply safe_mint_session; try known; auto.
Qed.

Lemma safe_renew_lease κ id increment Q : (∀ κ' x, Q κ' x) → safe κ (Renew (opts r) id increment) Q.
Proof.
  intros HQ. unfold Renew. call. destruct b as [d|]; [|apply HQ]. apply safe_bind, safe_authority. intros κ' ok _. call. destruct (_ || _); [apply HQ|].
  call. call. destruct (renewed_ttl _); apply HQ.
Qed.

Lemma safe_revoke_lease κ id Q : (∀ κ' x, Q κ' x) → safe κ (Revoke id) Q.
Proof.
  intros HQ. unfold Revoke. call. destruct b as [d|]; [|apply HQ]. cbn [post]. apply safe_locked; [|done]. intros κ' H Hl.
  assert (FPair (dl_accessor d) id ∈ κ' ∧ FForeign (dl_accessor d) ∈ κ' ∧ FWas id ∈ κ') as (Hp & Hf & Hw) by (split_and!; apply H; known).
  apply safe_bind, (safe_confirmed κ' (dl_accessor d)); [done|by split; [|left]|]. intros [|]; [|by cbn]. cbn [negb].
  apply safe_bind. destruct (dl_session d).
  - call by (right; right; exists id; split_and!; known). call. cbn [safe post]. destruct b0; cbn [post_tx]; known.
  - call. cbn [safe post]. destruct b; cbn [post_tx]; known.
Qed.

Lemma safe_confirm `{UnicodeTables} κ accessor evidence Q : (∀ κ' x, Q κ' x) → safe κ (ConfirmDatabaseCleanup (opts r) r accessor evidence) Q.
Proof.
  intros HQ. unfold ConfirmDatabaseCleanup. apply safe_locked; [|done]. intros κ1 H1 Hl. call. call. apply safe_bind, safe_until. intros κ2 z H2. cbn [post] in H2.
  assert (FLocked ∈ κ2) by auto. destruct (_ || _); [done|]. apply safe_bind, safe_check. intros [e|]; [done|]. call. destruct b1 as [l|]; [|done].
  destruct (List.find _ _) as [[a d]|]; [|done]. case_bool_decide; [|done]. apply safe_bind. unfold ConfirmJournal. destruct (_ || _); [done|]. call.
  destruct b1 as [[|]|]; done.
Qed.

Lemma safe_retry κ Q : (∀ κ' x, Q κ' x) → safe κ (retry_pass (opts r) r) Q.
Proof.
  intros HQ. unfold retry_pass. call. destruct b; [|apply HQ]. cbn [post]. apply safe_bind, safe_until. intros κ' z H. assert (FLocked ∈ κ') by (apply H; known).
  apply safe_bind. destruct (0 <? z); [call|]; cbn [safe post post_tx]; [destruct b|]; cbn [post_tx];
    (apply safe_bind, safe_reconcile; [done|]; intros κ2 e H2; call; apply HQ).
Qed.

Lemma safe_release κ Q : FCancelled ∈ κ → (∀ κ' e, (∀ f, f ∈ κ → f ∈ κ') → Q κ' e) → safe κ (release r) Q.
Proof. intros Hc HQ. unfold release. call. destruct b as [f|]; [apply HQ; auto|]. call. call. apply HQ. cbn [post]. destruct b; auto. Qed.

Lemma safe_close κ wait Q : (∀ κ' e, Q κ' e) → safe κ (Close r wait) Q.
Proof.
  intros HQ. unfold Close. call. apply safe_bind. cbn [post].
  assert (Hrel : ∀ κ' x, FCancelled ∈ κ' → safe κ' (let! _ := release r in Ret x) Q) by (intros κ' x Hc; apply safe_bind, safe_release; [done|]; intros; apply HQ).
  destruct wait; cbn [negb]; [|cbn [safe]; apply Hrel; known]. call. destruct b0; cbn [negb]; [|cbn [safe post]; apply Hrel; known]. call.
  destruct b0 as [e|]; [call; cbn [safe]; apply Hrel, elem_of_without; split; [known|done]|]. call. call. cbn [post]. apply safe_bind, safe_reconcile; [known|].
  intros κ2 e H2. apply safe_bind, safe_release; [apply H2; known|]. intros κ3 e' H3. call. call by (cbn [post]; apply H3, H2; known). cbn [safe].
  apply Hrel, elem_of_without. split; [|done]. apply H3, H2. known.
Qed.
End Safe.
