(* ===== verification/LeaseFleet.v ===== *)
(** * A fleet of lease minters

    Any number of broker processes share the journal and Vault.  Their methods
    run as threads that interleave call by call; requests may be lost before or
    after they take effect, processes may crash at any call, Vault may end a
    lease at any time.  [exec] gives each call its meaning, [step] the moves of
    the fleet, and [safe] a way to check a program against an invariant of the
    fleet: what a thread knows ([fact]) is kept by every other thread. *)

From S2P Require Import Prelude GoString CleanupStore VaultDatabase LeaseMinter.

(** ** State *)

Record minter := {
  mn_boot : nat;                      (* the thread of its constructor *)
  mn_alive : bool;                    (* the process runs *)
  mn_started : bool;
  mn_lastRenew : instant;
  mn_cancelled : bool;
  mn_fenced : bool;
  mn_live : Z;
  mn_kick : bool;
  mn_locked : option nat;             (* the thread that holds [m.mu] *)
  mn_active : gmap bytes durableLease;
  mn_was : gset bytes;                (* every lease that was ever active *)
  mn_closed : option (option failure);
  mn_once : option (option bool);     (* [releaseOnce]: not run, running, done *)
}.

Definition new_minter (boot : nat) : minter :=
  {| mn_boot := boot; mn_alive := true; mn_started := false; mn_lastRenew := {| it_mono := 0; it_wall := 0 |}; mn_cancelled := false; mn_fenced := false;
     mn_live := 0; mn_kick := false; mn_locked := None; mn_active := ∅; mn_was := ∅; mn_closed := None; mn_once := None |}.

Definition mn_set_alive (v : bool) (m : minter) : minter :=
  {| mn_boot := mn_boot m; mn_alive := v; mn_started := mn_started m; mn_lastRenew := mn_lastRenew m; mn_cancelled := mn_cancelled m; mn_fenced := mn_fenced m;
     mn_live := mn_live m; mn_kick := mn_kick m; mn_locked := mn_locked m; mn_active := mn_active m; mn_was := mn_was m; mn_closed := mn_closed m; mn_once := mn_once m |}.
Definition mn_set_start (v : bool) (s : instant) (m : minter) : minter :=
  {| mn_boot := mn_boot m; mn_alive := mn_alive m; mn_started := v; mn_lastRenew := s; mn_cancelled := mn_cancelled m; mn_fenced := mn_fenced m;
     mn_live := mn_live m; mn_kick := mn_kick m; mn_locked := mn_locked m; mn_active := mn_active m; mn_was := mn_was m; mn_closed := mn_closed m; mn_once := mn_once m |}.
Definition mn_set_end (cancelled fenced : bool) (m : minter) : minter :=
  {| mn_boot := mn_boot m; mn_alive := mn_alive m; mn_started := mn_started m; mn_lastRenew := mn_lastRenew m; mn_cancelled := cancelled; mn_fenced := fenced;
     mn_live := mn_live m; mn_kick := mn_kick m; mn_locked := mn_locked m; mn_active := mn_active m; mn_was := mn_was m; mn_closed := mn_closed m; mn_once := mn_once m |}.
Definition mn_set_live (n : Z) (kick : bool) (m : minter) : minter :=
  {| mn_boot := mn_boot m; mn_alive := mn_alive m; mn_started := mn_started m; mn_lastRenew := mn_lastRenew m; mn_cancelled := mn_cancelled m; mn_fenced := mn_fenced m;
     mn_live := n; mn_kick := kick; mn_locked := mn_locked m; mn_active := mn_active m; mn_was := mn_was m; mn_closed := mn_closed m; mn_once := mn_once m |}.
Definition mn_set_lock (l : option nat) (m : minter) : minter :=
  {| mn_boot := mn_boot m; mn_alive := mn_alive m; mn_started := mn_started m; mn_lastRenew := mn_lastRenew m; mn_cancelled := mn_cancelled m; mn_fenced := mn_fenced m;
     mn_live := mn_live m; mn_kick := mn_kick m; mn_locked := l; mn_active := mn_active m; mn_was := mn_was m; mn_closed := mn_closed m; mn_once := mn_once m |}.
Definition mn_set_active (a : gmap bytes durableLease) (was : gset bytes) (m : minter) : minter :=
  {| mn_boot := mn_boot m; mn_alive := mn_alive m; mn_started := mn_started m; mn_lastRenew := mn_lastRenew m; mn_cancelled := mn_cancelled m; mn_fenced := mn_fenced m;
     mn_live := mn_live m; mn_kick := mn_kick m; mn_locked := mn_locked m; mn_active := a; mn_was := was; mn_closed := mn_closed m; mn_once := mn_once m |}.
Definition mn_set_close (c : option (option failure)) (o : option (option bool)) (m : minter) : minter :=
  {| mn_boot := mn_boot m; mn_alive := mn_alive m; mn_started := mn_started m; mn_lastRenew := mn_lastRenew m; mn_cancelled := mn_cancelled m; mn_fenced := mn_fenced m;
     mn_live := mn_live m; mn_kick := mn_kick m; mn_locked := mn_locked m; mn_active := mn_active m; mn_was := mn_was m; mn_closed := c; mn_once := o |}.

(** What Vault has: the thread each child token was made for, the token each
    lease was issued to, and the leases that are in force. *)
Record vault := { v_tokens : gmap bytes (bytes * nat); v_leases : gmap bytes bytes; v_live : gset bytes }.

Record world := {
  w_time : Z;
  w_tables : tables;
  w_vault : vault;
  w_minters : gmap bytes minter;
  w_threads : gmap nat (bytes * prog unit);
  w_next : nat;
}.

Definition set_tables (t : tables) (w : world) : world :=
  {| w_time := w_time w; w_tables := t; w_vault := w_vault w; w_minters := w_minters w; w_threads := w_threads w; w_next := w_next w |}.
Definition set_vault (v : vault) (w : world) : world :=
  {| w_time := w_time w; w_tables := w_tables w; w_vault := v; w_minters := w_minters w; w_threads := w_threads w; w_next := w_next w |}.
Definition set_minter (r : bytes) (m : minter) (w : world) : world :=
  {| w_time := w_time w; w_tables := w_tables w; w_vault := w_vault w; w_minters := <[r := m]> (w_minters w); w_threads := w_threads w; w_next := w_next w |}.
Definition set_threads (ts : gmap nat (bytes * prog unit)) (n : nat) (w : world) : world :=
  {| w_time := w_time w; w_tables := w_tables w; w_vault := w_vault w; w_minters := w_minters w; w_threads := ts; w_next := n |}.
Definition set_time (t : Z) (w : world) : world :=
  {| w_time := t; w_tables := w_tables w; w_vault := w_vault w; w_minters := w_minters w; w_threads := w_threads w; w_next := w_next w |}.

Definition no_world (t : Z) : world :=
  {| w_time := t; w_tables := no_tables; w_vault := {| v_tokens := ∅; v_leases := ∅; v_live := ∅ |}; w_minters := ∅; w_threads := ∅; w_next := 0 |}.

(** What the outside makes of a request: whether it takes effect, whether its
    answer arrives, and what Vault puts into it. *)
Record outcome := {
  oc_effect : bool;
  oc_reply : bool;
  oc_lease : bytes;                   (* the lease Vault issues *)
  oc_session : DatabaseSession;
  oc_secret : secret;
  oc_lookup : lookup_reply;
  oc_ttl : option Z;
}.

Definition answered {A} (o : outcome) (a : A) : option A := if oc_effect o && oc_reply o then Some a else None.

Definition issue (v : vault) (accessor l : bytes) : vault :=
  {| v_tokens := v_tokens v; v_leases := <[l := accessor]> (v_leases v); v_live := {[l]} ∪ v_live v |}.
Definition end_leases (ls : gset bytes) (v : vault) : vault := {| v_tokens := v_tokens v; v_leases := v_leases v; v_live := v_live v ∖ ls |}.
Definition leases_of (v : vault) (accessor : bytes) : gset bytes := dom (filter (λ kv, kv.2 = accessor) (v_leases v)).

Section Fleet.
(** The database's clock in milliseconds and each process's clock, at each
    instant; and the options each process runs with. *)
Context (db : Z → Z) (clock : bytes → Z → instant) (opts : bytes → DurableLeaseOptions).

(** One call of thread [tid] of process [r]; [None]: it is not (yet) possible. *)
Definition exec (r : bytes) (tid : nat) {B} (c : call B) (o : outcome) (w : world) : option (world * B) :=
  m ← w_minters w !! r;
  let put {A} (m : minter) (a : A) : option (world * A) := Some (set_minter r m w, a) in
  let v := w_vault w in
  match c in call B return option (world * B) with
  | Clock => Some (w, clock r (w_time w))
  | Sleep _ => Some (w, oc_reply o)
  | Cancelled => Some (w, mn_cancelled m)
  | Cancel => put (mn_set_end true (mn_fenced m) m) tt
  | SetFenced => put (mn_set_end (mn_cancelled m) true m) tt
  | Started sent => put (mn_set_start true sent m) tt
  | LastRenew => Some (w, mn_lastRenew m)
  | SetLastRenew sent => put (mn_set_start (mn_started m) sent m) tt
  | SetLive n => put (mn_set_live n (mn_kick m) m) tt
  | Kick => put (mn_set_live (mn_live m) true m) tt
  | Lock => if oc_reply o then match mn_locked m with None => put (mn_set_lock (Some tid) m) true | Some _ => None end else Some (w, false)
  | TryLock => match mn_locked m with None => put (mn_set_lock (Some tid) m) true | Some _ => Some (w, false) end
  | Unlock => put (mn_set_lock None m) tt
  | Active => Some (w, mn_active m)
  | ActiveGet id => Some (w, mn_active m !! id)
  | ActivePut id l => put (mn_set_active (<[id := l]> (mn_active m)) ({[id]} ∪ mn_was m) m) tt
  | ActiveTake id => put (mn_set_active (delete id (mn_active m)) (mn_was m) m) (mn_active m !! id)
  | ActiveClear => put (mn_set_active ∅ (mn_was m) m) tt
  | Closed => Some (w, mn_closed m)
  | SetClosed e => put (mn_set_close (Some e) (mn_once m) m) tt
  | OnceBegin =>
      match mn_once m with
      | None => put (mn_set_close (mn_closed m) (Some None) m) None
      | Some None => None
      | Some (Some failed) => Some (w, Some failed)
      end
  | OnceEnd failed => put (mn_set_close (mn_closed m) (Some (Some failed)) m) tt
  | Db q => let '(t, a) := exec_tx (db (w_time w)) q (w_tables w) in Some (if oc_effect o then set_tables t w else w, answered o a)
  | CreateSession _ _ _ =>
      let a := ds_Accessor (oc_session o) in
      if negb (oc_effect o) then Some (w, None)
      else if bool_decide (v_tokens v !! a = None)
           then Some (set_vault {| v_tokens := <[a := (r, tid)]> (v_tokens v); v_leases := v_leases v; v_live := v_live v |} w, answered o (oc_session o))
           else None
  | VaultRead a =>
      let l := oc_lease o in
      if negb (oc_effect o) then Some (w, None)
      else if bool_decide (v_leases v !! l = None) && negb (bool_decide (l = [])) &&
              (bool_decide (sec_LeaseID (oc_secret o) = l) || bool_decide (sec_LeaseID (oc_secret o) = []))
           then Some (set_vault (issue v a l) w, answered o (oc_secret o))
           else None
  | VaultRevoke l => Some (if oc_effect o then set_vault (end_leases {[l]} v) w else w, oc_reply o)
  | VaultLookup l => if bool_decide (oc_lookup o = InvalidLease) && bool_decide (l ∈ v_live v) then None else Some (w, oc_lookup o)
  | RevokeSelf a => Some (if oc_effect o then set_vault (end_leases (leases_of v a) v) w else w, oc_reply o)
  | VaultRenew _ _ => Some (w, oc_ttl o)
  end.

Definition advance (r : bytes) (tid : nat) (p : prog unit) (o : outcome) (w : world) : option (world * prog unit) :=
  match p with
  | Ret _ => None
  | Do c k => '(w, b) ← exec r tid c o w; Some (w, k b)
  end.

Definition done {A} (p : prog A) : prog unit := let! _ := p in Ret tt.

(** What runs in a started process: its callers' methods and the events of
    [run]. *)
Inductive operation `{UnicodeTables} (r : bytes) : prog unit → Prop :=
| op_mint scope svc : operation r (done (Mint (opts r) r scope svc))
| op_renew id increment : operation r (done (Renew (opts r) id increment))
| op_revoke id : operation r (done (Revoke id))
| op_confirm accessor evidence : operation r (done (ConfirmDatabaseCleanup (opts r) r accessor evidence))
| op_retry : operation r (retry_pass (opts r) r)
| op_heartbeat : operation r (on_heartbeat (opts r) r)
| op_fence : operation r on_fence_timer
| op_ready : operation r (done (Ready (opts r)))
| op_close wait : operation r (done (Close r wait)).

Definition crashed (r : bytes) (ts : gmap nat (bytes * prog unit)) : gmap nat (bytes * prog unit) := filter (λ kv, kv.2.1 ≠ r) ts.

Inductive label := Tick | Boot | Crash | Spawn | Expire | Act (r : bytes).

Inductive step `{UnicodeTables} : label → world → world → Prop :=
| step_tick w t : w_time w <= t → step Tick w (set_time t w)
| step_boot w r : w_minters w !! r = None →
    step Boot w (set_threads (<[w_next w := (r, done (NewDurableLeaseMinter (opts r) r))]> (w_threads w)) (S (w_next w)) (set_minter r (new_minter (w_next w)) w))
| step_crash w r m : w_minters w !! r = Some m → step Crash w (set_threads (crashed r (w_threads w)) (w_next w) (set_minter r (mn_set_alive false m) w))
| step_spawn w r m p : w_minters w !! r = Some m → mn_started m = true → mn_alive m = true → operation r p →
    step Spawn w (set_threads (<[w_next w := (r, p)]> (w_threads w)) (S (w_next w)) w)
| step_expire w l : step Expire w (set_vault (end_leases {[l]} (w_vault w)) w)
| step_act w r tid p o w' p' : w_threads w !! tid = Some (r, p) → advance r tid p o w = Some (w', p') →
    step (Act r) w (set_threads (<[tid := (r, p')]> (w_threads w')) (w_next w') w').

Inductive reachable `{UnicodeTables} : world → Prop :=
| reach_start t : reachable (no_world t)
| reach_step l w w' : reachable w → step l w w' → reachable w'.

(** A process has its authority: it runs, is not cancelled, and its fence
    deadline has not passed by its own clock. *)
Definition authorised (w : world) (r : bytes) : Prop :=
  ∃ m, w_minters w !! r = Some m ∧ mn_alive m = true ∧ mn_started m = true ∧ mn_cancelled m = false ∧
    0 < until (opts r) (clock r (w_time w)) (mn_lastRenew m).
End Fleet.
