(* ===== verification/LeaseInv.v ===== *)
(** * The invariant of a fleet of lease minters

    [core] relates the journal, Vault and the processes; [changes] is what a
    call of one thread may do to the facts of the others. *)

From S2P Require Import Prelude GoString CleanupStore VaultDatabase LeaseMinter LeaseFacts LeaseFleet.

Definition row (w : world) (r : bytes) : option Z := tb_replica (w_tables w) !! r.
Definition rec (w : world) (a : bytes) : option CleanupStore.DatabaseCleanup := tb_cleanup (w_tables w) !! a.
Definition tok (w : world) (a : bytes) : option (bytes * nat) := v_tokens (w_vault w) !! a.
Definition lea (w : world) (l : bytes) : option bytes := v_leases (w_vault w) !! l.
Definition liv (w : world) (l : bytes) : Prop := l ∈ v_live (w_vault w).

(** A call's effect on facts: [XNone] breaks none of any thread's. *)
Inductive effect :=
| XNone
| XStart (r : bytes)
| XUnlock (r : bytes) (tid : nat)
| XRead (a : bytes)
| XPut (r l a : bytes) (tid : nat).

Section Inv.
Context (db : Z → Z) (clock : bytes → Z → instant) (opts : bytes → DurableLeaseOptions).
Context (db_mono : ∀ t t', t <= t' → db t <= db t').
Local Abbreviation ttl := (ttl_of opts).

(** While the row's term since [t0] runs, the row is there. *)
Definition granted (w : world) (r : bytes) (t0 : Z) : Prop :=
  (∃ m, w_minters w !! r = Some m ∧ mn_cancelled m = true) ∨ (db (w_time w) < db t0 + ttl r → ∃ e, row w r = Some e ∧ db t0 + ttl r <= e).

Definition dead (w : world) (r : bytes) : Prop :=
  (∃ m, w_minters w !! r = Some m ∧ mn_started m = true) ∧ ∀ e, row w r = Some e → e <= db (w_time w).

Definition holds (w : world) (r : bytes) (tid : nat) (f : fact) : Prop :=
  match f with
  | FStarted => ∃ m, w_minters w !! r = Some m ∧ mn_started m = true
  | FBooting => ∃ m, w_minters w !! r = Some m ∧ mn_started m = false ∧ mn_boot m = tid
  | FLocked => ∃ m, w_minters w !! r = Some m ∧ mn_locked m = Some tid
  | FSent s => ∃ t0, t0 <= w_time w ∧ s = clock r t0
  | FRenewed s => ∃ t0, t0 <= w_time w ∧ s = clock r t0 ∧ granted w r t0
  | FCancelled => ∃ m, w_minters w !! r = Some m ∧ mn_cancelled m = true
  | FRight a b => tok w a = Some (r, tid) ∧ (∀ l, lea w l ≠ Some a) ∧ (b = true → is_Some (rec w a))
  | FMine a => tok w a = Some (r, tid) ∧ ∀ l m, lea w l = Some a → w_minters w !! r = Some m → l ∉ mn_was m
  | FPair a l => lea w l = Some a
  | FGone l => ¬ liv w l ∧ is_Some (lea w l)
  | FHeld held => ∃ m, w_minters w !! r = Some m ∧ mn_locked m = Some tid ∧ ∀ l d, mn_active m !! l = Some d → held !! l = Some d
  | FWas l => ∃ m, w_minters w !! r = Some m ∧ l ∈ mn_was m ∧ mn_active m !! l = None
  | FForeign a => ∃ c t, tok w a = Some (c, t) ∧ (c = r ∨ dead w c)
  end.

Record core (w : world) : Prop := {
  c_live : ∀ l, liv w l → ∃ a d, lea w l = Some a ∧ rec w a = Some d ∧ (dc_evidence d ≠ [] ∨ dc_LeaseID d = [] ∨ dc_LeaseID d = l);
  c_rec_lease : ∀ a d, rec w a = Some d → dc_LeaseID d ≠ [] → lea w (dc_LeaseID d) = Some a;
  c_one : ∀ l l' a, lea w l = Some a → lea w l' = Some a → l = l';
  c_lea_tok : ∀ l a, lea w l = Some a → is_Some (tok w a);
  c_tok : ∀ a c t, tok w a = Some (c, t) → ∃ m, w_minters w !! c = Some m ∧ mn_started m = true;
  c_active : ∀ r m l d, w_minters w !! r = Some m → mn_active m !! l = Some d → l ∈ mn_was m ∧ lea w l = Some (dl_accessor d);
  c_was : ∀ r m l, w_minters w !! r = Some m → l ∈ mn_was m → ∃ a t, lea w l = Some a ∧ tok w a = Some (r, t);
  c_rec_tok : ∀ a d, rec w a = Some d → ∃ c t, tok w a = Some (c, t) ∧ (dc_owner d = c ∨ dead w c);
  c_sent : ∀ r m, w_minters w !! r = Some m → mn_started m = true → ∃ t0, t0 <= w_time w ∧ mn_lastRenew m = clock r t0 ∧ granted w r t0;
}.

Record changes (x : effect) (w w' : world) : Prop := {
  g_time : w_time w <= w_time w';
  g_tok : ∀ a c, tok w a = Some c → tok w' a = Some c;
  g_lea : ∀ l a, lea w l = Some a → lea w' l = Some a;
  g_new_lea : ∀ l a, lea w' l = Some a → lea w l = Some a ∨ (x = XRead a ∧ lea w l = None);
  g_live : ∀ l, liv w' l → liv w l ∨ lea w l = None;
  g_rec : ∀ a, is_Some (rec w a) → is_Some (rec w' a) ∨ ∃ l, lea w l = Some a;
  g_dead : ∀ r, dead w r → dead w' r;
  g_granted : ∀ r t0, t0 <= w_time w → granted w r t0 → granted w' r t0;
  g_minter : ∀ r m, w_minters w !! r = Some m → ∃ m', w_minters w' !! r = Some m' ∧
    mn_boot m' = mn_boot m ∧ (mn_cancelled m = true → mn_cancelled m' = true) ∧ (mn_started m = true → mn_started m' = true) ∧
    (mn_started m = false → mn_started m' = true → x = XStart r) ∧
    (∀ t, mn_locked m = Some t → mn_locked m' = Some t ∨ x = XUnlock r t) ∧
    (∀ l, l ∈ mn_was m → l ∈ mn_was m') ∧
    (∀ l, l ∈ mn_was m' → l ∈ mn_was m ∨ ∃ a t, x = XPut r l a t ∧ lea w l = Some a) ∧
    (∀ l d, mn_active m' !! l = Some d → mn_active m !! l = Some d ∨ ∃ a t, x = XPut r l a t ∧ l ∉ mn_was m ∧ mn_locked m = Some t);
}.

(** The facts an effect breaks. *)
Definition breaks (x : effect) (r : bytes) (tid : nat) (f : fact) : Prop :=
  match x, f with
  | XStart r', FBooting => r' = r
  | XUnlock r' t, (FLocked | FHeld _) => r' = r ∧ t = tid
  | XRead a, FRight a' _ => a = a'
  | XPut r' l a t, FMine a' => r' = r ∧ a = a'
  | XPut r' l a t, FHeld _ => r' = r ∧ t = tid
  | _, _ => False
  end.

Lemma holds_stable x w w' r tid f : core w → changes x w w' → holds w r tid f → ¬ breaks x r tid f → holds w' r tid f.
Proof.
  intros C G H Hb. destruct f; cbn [holds breaks] in *.
  - destruct H as (m & Hm & Hs). destruct (g_minter _ _ _ G r m Hm) as (m' & Hm' & _ & _ & Hs' & _). eauto.
  - destruct H as (m & Hm & Hs & <-). destruct (g_minter _ _ _ G r m Hm) as (m' & Hm' & Eb & _ & _ & Hs' & _). exists m'. split_and!; [done| |done].
    destruct (mn_started m') eqn:E; [|done]. specialize (Hs' Hs eq_refl). subst x. by destruct Hb.
  - destruct H as (m & Hm & Hl). destruct (g_minter _ _ _ G r m Hm) as (m' & Hm' & _ & _ & _ & _ & Hl' & _). exists m'. split; [done|].
    destruct (Hl' _ Hl) as [?| ->]; [done|]. by destruct Hb.
  - destruct H as (t0 & Ht & ->). exists t0. split; [|done]. pose proof (g_time _ _ _ G). lia.
  - destruct H as (t0 & Ht & -> & Hg). exists t0. pose proof (g_time _ _ _ G). split_and!; [lia|done|]. by apply (g_granted _ _ _ G).
  - destruct H as (m & Hm & Hc). destruct (g_minter _ _ _ G r m Hm) as (m' & Hm' & _ & Hc' & _). eauto.
  - destruct H as (Ht & Hl & Hr). split_and!; [by apply (g_tok _ _ _ G)| |].
    + intros l El. destruct (g_new_lea _ _ _ G l _ El) as [E|[-> _]]; [by apply (Hl l)|]. by apply Hb.
    + intros Er. destruct (g_rec _ _ _ G accessor (Hr Er)) as [?|[l El]]; [done|]. by destruct (Hl l).
  - destruct H as (Ht & Hl). split; [by apply (g_tok _ _ _ G)|]. intros l m' El Hm' Hw.
    destruct (w_minters w !! r) as [m|] eqn:Em.
    + destruct (g_minter _ _ _ G r m Em) as (m2 & Hm2 & _ & _ & _ & _ & _ & _ & Hw' & _). assert (m2 = m') as -> by congruence.
      destruct (Hw' l Hw) as [Hw0|(a & t & -> & Ea)].
      * destruct (c_was _ C r m l Em Hw0) as (a & t & Ea & _). rewrite (g_lea _ _ _ G l a Ea) in El. injection El as ->. by apply (Hl l m).
      * rewrite (g_lea _ _ _ G l a Ea) in El. injection El as ->. by apply Hb.
    + destruct (c_tok _ C _ _ _ Ht) as (m & Hm & _). congruence.
  - by apply (g_lea _ _ _ G).
  - destruct H as (Hl & a & Ha). split; [|exists a; by apply (g_lea _ _ _ G)]. intros Hl'. destruct (g_live _ _ _ G _ Hl') as [?|E]; [done|congruence].
  - destruct H as (m & Hm & Hl & Hh). destruct (g_minter _ _ _ G r m Hm) as (m' & Hm' & _ & _ & _ & _ & Hl' & _ & _ & Ha). exists m'. split_and!; [done| |].
    + destruct (Hl' _ Hl) as [?| ->]; [done|]. by destruct Hb.
    + intros l d Hd. destruct (Ha l d Hd) as [?|(a & t & -> & _ & Ht)]; [auto|]. destruct Hb. split; [done|]. congruence.
  - destruct H as (m & Hm & Hw & Hn). destruct (g_minter _ _ _ G r m Hm) as (m' & Hm' & _ & _ & _ & _ & _ & Hw' & _ & Ha). exists m'. split_and!; [done|auto|].
    destruct (mn_active m' !! leaseID) as [d|] eqn:Ed; [|done]. destruct (Ha _ d Ed) as [?|(a & t & _ & Hnw & _)]; [congruence|done].
  - destruct H as (c & t & Ht & Hd). exists c, t. split; [by apply (g_tok _ _ _ G)|]. destruct Hd as [?|Hd]; [by left|right]. by apply (g_dead _ _ _ G).
Qed.

(** ** What a change of one part preserves *)

Lemma changes_refl w : changes XNone w w.
Proof. split; auto; [lia|]. intros r m Hm. exists m. split_and!; auto. congruence. Qed.

Lemma lookup_set_minter r m w r' : w_minters (set_minter r m w) !! r' = if bool_decide (r' = r) then Some m else w_minters w !! r'.
Proof. cbn. case_bool_decide; [subst; apply lookup_insert_eq|by apply lookup_insert_ne]. Qed.

Definition keeps (x : effect) (w : world) (r : bytes) (m m' : minter) : Prop :=
  mn_boot m' = mn_boot m ∧ (mn_cancelled m = true → mn_cancelled m' = true) ∧ (mn_started m = true → mn_started m' = true) ∧
  (mn_started m = false → mn_started m' = true → x = XStart r) ∧
  (∀ t, mn_locked m = Some t → mn_locked m' = Some t ∨ x = XUnlock r t) ∧
  (∀ l, l ∈ mn_was m → l ∈ mn_was m') ∧
  (∀ l, l ∈ mn_was m' → l ∈ mn_was m ∨ ∃ a t, x = XPut r l a t ∧ lea w l = Some a) ∧
  (∀ l d, mn_active m' !! l = Some d → mn_active m !! l = Some d ∨ ∃ a t, x = XPut r l a t ∧ l ∉ mn_was m ∧ mn_locked m = Some t).

Lemma changes_minter x w r m m' : w_minters w !! r = Some m → keeps x w r m m' → changes x w (set_minter r m' w).
Proof.
  intros Hm K. pose proof K as (Kb & Kc & Ks & _). split; cbn; auto; [lia| | |].
  - intros r0 [(m0 & Hm0 & Hs) Hd]. split; [|done]. rewrite lookup_set_minter. case_bool_decide as Er; [subst r0|by exists m0]. exists m'. split; [done|]. apply Ks. congruence.
  - intros r0 t0 _ [(m0 & Hm0 & Hc)|Hg]; [left|by right]. rewrite lookup_set_minter. case_bool_decide as Er; [subst r0|by exists m0]. exists m'. split; [done|]. apply Kc. congruence.
  - intros r0 m0 Hm0. destruct (decide (r0 = r)) as [->|Hr].
    + exists m'. rewrite lookup_insert_eq. split; [done|]. assert (m0 = m) as -> by congruence. exact K.
    + exists m0. rewrite lookup_insert_ne by done. split_and!; auto. congruence.
Qed.

Lemma core_minter x w r m m' : core w → w_minters w !! r = Some m → keeps x w r m m' →
  (∀ l d, mn_active m' !! l = Some d → l ∈ mn_was m' ∧ lea w l = Some (dl_accessor d)) →
  (∀ l, l ∈ mn_was m' → ∃ a t, lea w l = Some a ∧ tok w a = Some (r, t)) →
  (mn_started m' = true → ∃ t0, t0 <= w_time w ∧ mn_lastRenew m' = clock r t0 ∧ granted w r t0) →
  core (set_minter r m' w).
Proof.
  intros C Hm K Ha Hw Hs. pose proof (changes_minter x w r m m' Hm K) as G. destruct C as [c1 c2 c3 c4 c5 c6 c7 c8 c9].
  assert (Hcase : ∀ r0 m0, w_minters (set_minter r m' w) !! r0 = Some m0 → r0 = r ∧ m0 = m' ∨ r0 ≠ r ∧ w_minters w !! r0 = Some m0).
  { intros r0 m0. rewrite lookup_set_minter. case_bool_decide; intros Hm0; [left|right]; split; congruence. }
  split; auto.
  - intros a c t Ht. destruct (c5 a c t Ht) as (m0 & Hm0 & Hs0). destruct (g_minter _ _ _ G c m0 Hm0) as (m1 & Hm1 & _ & _ & H1 & _). exists m1. auto.
  - intros r0 m0 l d Hm0 Hd. destruct (Hcase _ _ Hm0) as [[-> ->]|[_ Hm1]]; [by apply Ha|by apply (c6 r0 m0)].
  - intros r0 m0 l Hm0 Hl. destruct (Hcase _ _ Hm0) as [[-> ->]|[_ Hm1]]; [by apply Hw|by apply (c7 r0 m0)].
  - intros a d Hd. destruct (c8 a d Hd) as (c & t & Ht & Ho). exists c, t. split; [done|]. destruct Ho as [?|Ho]; [by left|right; by apply (g_dead _ _ _ G)].
  - intros r0 m0 Hm0 Hs0. destruct (Hcase _ _ Hm0) as [[-> ->]|[_ Hm1]].
    + destruct (Hs Hs0) as (t0 & Ht & El & Hg). exists t0. split_and!; [done..|]. by apply (g_granted _ _ _ G).
    + destruct (c9 r0 m0 Hm1 Hs0) as (t0 & Ht & El & Hg). exists t0. split_and!; [done..|]. by apply (g_granted _ _ _ G).
Qed.

(** A minter that changes neither its leases nor its renewals. *)
Lemma core_minter_same x w r m m' : core w → w_minters w !! r = Some m → keeps x w r m m' →
  mn_active m' ⊆ mn_active m → mn_was m' = mn_was m → mn_lastRenew m' = mn_lastRenew m → mn_started m' = mn_started m → core (set_minter r m' w).
Proof.
  intros C Hm K Ha Hw Hl Hs. apply (core_minter x w r m); auto.
  - intros l d Hd. rewrite Hw. apply (c_active _ C r m); [done|]. by eapply lookup_weaken.
  - intros l. rewrite Hw. by apply (c_was _ C r m).
  - rewrite Hl, Hs. by apply (c_sent _ C r m).
Qed.

Lemma changes_tables w t : (∀ a, is_Some (rec w a) → is_Some (tb_cleanup t !! a) ∨ ∃ l, lea w l = Some a) →
  (∀ r, dead w r → dead (set_tables t w) r) → (∀ r t0, t0 <= w_time w → granted w r t0 → granted (set_tables t w) r t0) → changes XNone w (set_tables t w).
Proof. intros H1 H2 H3. split; auto; [cbn; lia|]. intros r m Hm. exists m. split_and!; auto. congruence. Qed.

Lemma core_tables w t : core w → changes XNone w (set_tables t w) →
  (∀ a d, rec w a = Some d → (∃ d', tb_cleanup t !! a = Some d' ∧ (dc_evidence d' = dc_evidence d ∨ dc_evidence d' ≠ []) ∧
                                  (dc_LeaseID d' = dc_LeaseID d ∨ lea w (dc_LeaseID d') = Some a)) ∨ ∃ l, lea w l = Some a ∧ ¬ liv w l) →
  (∀ a d', tb_cleanup t !! a = Some d' → (∃ c tid, tok w a = Some (c, tid) ∧ (dc_owner d' = c ∨ dead (set_tables t w) c)) ∧
                                         (dc_LeaseID d' ≠ [] → lea w (dc_LeaseID d') = Some a)) →
  core (set_tables t w).
Proof.
  intros C G H1 H2. pose proof C as [c1 c2 c3 c4 c5 c6 c7 c8 c9]. split; auto.
  - intros l Hl. destruct (c1 l Hl) as (a & d & Ea & Ed & Hd). exists a. destruct (H1 a d Ed) as [(d' & Ed' & He & Hle)|(l' & El & Hn)].
    + exists d'. split_and!; [done..|]. assert (dc_LeaseID d' ≠ [] → lea w (dc_LeaseID d') = Some a → dc_LeaseID d' = l) as Hlease by (intros _ E; by apply (c3 _ _ a)).
      destruct Hd as [Hd|[Hd|Hd]].
      * left. destruct He as [->|?]; done.
      * destruct Hle as [E|E]; [right; left; by rewrite E|]. right. right. by apply (c3 _ _ a).
      * destruct Hle as [E|E]; [right; right; by rewrite E|]. right. right. by apply (c3 _ _ a).
    + rewrite (c3 l l' a Ea El) in Hl. done.
  - intros a d Hd. by apply (H2 a d).
  - intros a d Hd. by apply (H2 a d).
  - intros r m Hm Hs. destruct (c9 r m Hm Hs) as (t0 & Ht & El & Hg). exists t0. split_and!; [done..|]. by apply (g_granted _ _ _ G).
Qed.

Lemma changes_time w t : w_time w <= t → changes XNone w (set_time t w).
Proof.
  intros Ht. pose proof (db_mono _ _ Ht). split; auto.
  - intros r [Hs Hd]. split; [done|]. cbn. intros e He. specialize (Hd e He). lia.
  - intros r t0 _ [Hc|Hg]; [by left|right]. cbn. intros H'. apply Hg. lia.
  - intros r m Hm. exists m. split_and!; auto. congruence.
Qed.

Lemma core_time w t : w_time w <= t → core w → core (set_time t w).
Proof.
  intros Ht C. pose proof (changes_time w t Ht) as G. destruct C as [c1 c2 c3 c4 c5 c6 c7 c8 c9]. split; auto.
  - intros a d Hd. destruct (c8 a d Hd) as (c & t' & Et & Ho). exists c, t'. split; [done|]. destruct Ho as [?|Ho]; [by left|right; by apply (g_dead _ _ _ G)].
  - intros r m Hm Hs. destruct (c9 r m Hm Hs) as (t0 & Ht0 & El & Hg). exists t0. cbn. split_and!; [lia|done|]. by apply (g_granted _ _ _ G).
Qed.

Lemma changes_end w ls : changes XNone w (set_vault (end_leases ls (w_vault w)) w).
Proof using Type. clear db_mono. split; auto; [cbn; lia|intros l Hl; left; unfold liv in *; cbn in Hl; set_solver|]. intros r m Hm. exists m. split_and!; auto. congruence. Qed.

Lemma core_end w ls : core w → core (set_vault (end_leases ls (w_vault w)) w).
Proof using Type. clear db_mono. intros [c1 c2 c3 c4 c5 c6 c7 c8 c9]. split; auto. intros l Hl. apply c1. unfold liv in *. cbn in Hl. set_solver. Qed.

Lemma core_threads w ts n : core w → core (set_threads ts n w).
Proof. intros [c1 c2 c3 c4 c5 c6 c7 c8 c9]. by split. Qed.
Lemma changes_threads w ts n : changes XNone w (set_threads ts n w).
Proof. split; auto; [cbn; lia|]. intros r m Hm. exists m. split_and!; auto. congruence. Qed.
End Inv.
