(* ===== verification/LeaseSteps.v ===== *)
(** * Every call keeps the fleet's invariant

    One lemma per kind of transaction and of call: it preserves [core], makes
    true what [post] says, and changes no fact of another thread. *)

From S2P Require Import Prelude GoString CleanupStore VaultDatabase LeaseMinter LeaseFacts LeaseFleet LeaseInv.

Lemma elem_of_insert_by {A} (lt : A → A → bool) x l y : y ∈ insert_by lt x l ↔ y = x ∨ y ∈ l.
Proof. induction l as [|z l IH]; cbn; [rewrite list_elem_of_singleton, elem_of_nil; tauto|]. destruct (lt z x); rewrite !elem_of_cons, ?IH; tauto. Qed.
Lemma elem_of_sort_by {A} (lt : A → A → bool) l y : y ∈ sort_by lt l ↔ y ∈ l.
Proof. unfold sort_by. induction l as [|x l IH]; cbn; [done|]. by rewrite elem_of_insert_by, IH, elem_of_cons. Qed.

Lemma elem_of_owned o t a d : (a, d) ∈ ListOwnedDatabaseCleanup o t ↔ tb_cleanup t !! a = Some d ∧ dc_evidence d = [] ∧ dc_owner d = o.
Proof.
  unfold ListOwnedDatabaseCleanup, by_accessor. rewrite elem_of_sort_by, elem_of_lfilter, elem_of_map_to_list. unfold unresolved. cbn.
  rewrite andb_true_iff, !bool_decide_eq_true. tauto.
Qed.

Lemma live_true now t o : live now t o = true ↔ ∃ e, tb_replica t !! o = Some e ∧ now < e.
Proof. unfold live. destruct (tb_replica t !! o) as [e|]; [rewrite Z.ltb_lt; naive_solver|naive_solver]. Qed.
Lemma live_false now t o : live now t o = false ↔ ∀ e, tb_replica t !! o = Some e → e <= now.
Proof. unfold live. destruct (tb_replica t !! o) as [e|]; [rewrite Z.ltb_ge; naive_solver|naive_solver]. Qed.

Section Steps.
Context (db : Z → Z) (clock : bytes → Z → instant) (opts : bytes → DurableLeaseOptions).
Context (db_mono : ∀ t t', t <= t' → db t <= db t').
Local Abbreviation ttl := (ttl_of opts).
Local Abbreviation granted := (LeaseInv.granted db opts).
Local Abbreviation dead := (LeaseInv.dead db).
Local Abbreviation holds := (LeaseInv.holds db clock opts).
Local Abbreviation core := (LeaseInv.core db clock opts).
Local Abbreviation changes := (LeaseInv.changes db opts).

(** What a transaction must give: the invariant, and the facts it answers. *)
Definition tx_ok (r : bytes) (tid : nat) (κ : list fact) {A} (q : tx A) (w : world) : Prop :=
  let '(t, a) := exec_tx (db (w_time w)) q (w_tables w) in
  changes XNone w (set_tables t w) ∧ core (set_tables t w) ∧ ∀ f, f ∈ post_tx κ q a → f ∈ κ ∨ holds (set_tables t w) r tid f.

Lemma set_tables_same w : set_tables (w_tables w) w = w.
Proof. by destruct w. Qed.

Lemma read_ok r tid κ {A} (q : tx A) w : core w → fst (exec_tx (db (w_time w)) q (w_tables w)) = w_tables w →
  (∀ f, f ∈ post_tx κ q (snd (exec_tx (db (w_time w)) q (w_tables w))) → f ∈ κ ∨ holds w r tid f) → tx_ok r tid κ q w.
Proof.
  intros C Et Hf. unfold tx_ok. destruct (exec_tx _ q _) as [t a]. cbn in Et, Hf. subst t. rewrite set_tables_same. split_and!; [apply changes_refl|done|done].
Qed.

(** Changing the owners only. *)
Lemma owners_ok w m : core w → (∀ r, dead w r → dead (set_tables (with_replica m (w_tables w)) w) r) →
  (∀ r t0, t0 <= w_time w → granted w r t0 → granted (set_tables (with_replica m (w_tables w)) w) r t0) →
  changes XNone w (set_tables (with_replica m (w_tables w)) w) ∧ core (set_tables (with_replica m (w_tables w)) w).
Proof.
  intros C Hd Hg. assert (changes XNone w (set_tables (with_replica m (w_tables w)) w)) as G by (apply changes_tables; auto). split; [done|].
  apply core_tables; [done..| |]; cbn.
  - intros a d Ed. left. exists d. auto.
  - intros a d Ed. split; [|by apply (c_rec_lease _ _ _ _ C)]. destruct (c_rec_tok _ _ _ _ C a d Ed) as (c & t & Et & Ho). exists c, t. split; [done|].
    destruct Ho as [?|Ho]; [by left|right; by apply (g_dead _ _ _ _ _ G)].
Qed.

Lemma row_owner w m r : row (set_tables (with_replica m (w_tables w)) w) r = m !! r.
Proof. done. Qed.

(** A new term of the owner's row, from now. *)
Lemma term_ok w r : core w → ¬ dead w r → (∀ t0, t0 <= w_time w → granted w r t0 → granted (set_tables (with_replica (<[r := db (w_time w) + ttl r]> (tb_replica (w_tables w))) (w_tables w)) w) r t0) →
  let w' := set_tables (with_replica (<[r := db (w_time w) + ttl r]> (tb_replica (w_tables w))) (w_tables w)) w in changes XNone w w' ∧ core w'.
Proof.
  intros C Hn Hg w'. apply owners_ok; [done| |].
  - intros r' Hd. assert (r' ≠ r) by (intros ->; done). destruct Hd as [Hs Hd]. split; [done|]. rewrite row_owner, lookup_insert_ne by done. apply Hd.
  - intros r' t0 Ht Hg'. destruct (decide (r' = r)) as [->|Hr]; [by apply Hg|]. destruct Hg' as [Hc|Hg']; [by left|right]. rewrite row_owner, lookup_insert_ne by done. done.
Qed.

Lemma renewed_holds w r tid κ : (∀ f, f ∈ κ → holds w r tid f) →
  let w' := set_tables (with_replica (<[r := db (w_time w) + ttl r]> (tb_replica (w_tables w))) (w_tables w)) w in
  ∀ f, f ∈ renewed_now κ ++ κ → f ∈ κ ∨ holds w' r tid f.
Proof.
  intros Hk w' f [Hf|Hf]%elem_of_app; [|by left]. right. unfold renewed_now in Hf. apply list_elem_of_In, in_flat_map in Hf as (g & Hg & Hf).
  apply list_elem_of_In in Hg. destruct g; cbn in Hf; try done. destruct Hf as [<-|[]]. destruct (Hk _ Hg) as (t0 & Ht & ->). exists t0. split_and!; [done..|].
  right. intros _. exists (db (w_time w) + ttl r). split; [apply lookup_insert_eq|]. specialize (db_mono _ _ Ht). lia.
Qed.

Lemma insert_owner_ok r tid κ w : core w → (∀ f, f ∈ κ → holds w r tid f) → FBooting ∈ κ → tx_ok r tid κ (InsertOwner r (ttl r)) w.
Proof.
  intros C Hk Hb. unfold tx_ok, exec_tx, insert_owner. case_bool_decide as En; cbn [andb]; [destruct (noOtherLiveReplicaOwner _ _ _)|];
    try (rewrite set_tables_same; split_and!; [apply changes_refl|done|by left]).
  destruct (Hk _ Hb) as (m & Hm & Hs & _). destruct (term_ok w r C) as [G C'].
  - intros [(m' & Hm' & Hs') _]. congruence.
  - intros t0 _ [Hc|Hg]; [by left|]. right. intros Hlt. destruct (Hg Hlt) as (e & Ee & _). unfold row in Ee. congruence.
  - split_and!; [done..|]. by apply renewed_holds.
Qed.

Lemma renew_owner_ok r tid κ w : core w → (∀ f, f ∈ κ → holds w r tid f) → tx_ok r tid κ (RenewOwner r (ttl r)) w.
Proof.
  intros C Hk. unfold tx_ok, exec_tx, renew_owner. destruct (live _ _ _) eqn:El; cbn [andb]; [destruct (noOtherLiveReplicaOwner _ _ _)|];
    try (rewrite set_tables_same; split_and!; [apply changes_refl|done|by left]).
  apply live_true in El as (e & Ee & He). destruct (term_ok w r C) as [G C'].
  - intros [_ Hd]. specialize (Hd e Ee). lia.
  - intros t0 Ht [Hc|Hg]; [by left|]. right. intros _. exists (db (w_time w) + ttl r). split; [apply lookup_insert_eq|]. specialize (db_mono _ _ Ht). lia.
  - split_and!; [done..|]. by apply renewed_holds.
Qed.

Lemma release_owner_ok r tid κ w : core w → (∀ f, f ∈ κ → holds w r tid f) → FCancelled ∈ κ → tx_ok r tid κ (ReleaseOwner r) w.
Proof.
  intros C Hk Hc. unfold tx_ok, exec_tx, release_owner. destruct (owners_ok w (delete r (tb_replica (w_tables w))) C) as [G C']; [| |by split_and!; [..|by left]].
  - intros r' [Hs Hd]. split; [done|]. rewrite row_owner. intros e [_ He]%lookup_delete_Some. by apply Hd.
  - intros r' t0 _ [Hc'|Hg]; [by left|]. destruct (decide (r' = r)) as [->|Hr]; [left; apply (Hk _ Hc)|right]. rewrite row_owner, lookup_delete_ne by done. done.
Qed.

Lemma claim_orphans_ok r tid κ o w : core w → tx_ok r tid κ (ClaimOrphans o) w.
Proof.
  intros C. unfold tx_ok, exec_tx, ClaimOrphanedDatabaseCleanup. set (t := {| tb_replica := _ |}).
  assert (Hrow : ∀ r' e, row (set_tables t w) r' = Some e ↔ row w r' = Some e ∧ db (w_time w) - 60000 < e).
  { intros r' e. unfold row. cbn. by rewrite map_lookup_filter_Some. }
  assert (Hdead : ∀ r', dead w r' → dead (set_tables t w) r') by (intros r' [Hs Hd]; split; [done|]; intros e [He _]%Hrow; by apply Hd).
  assert (changes XNone w (set_tables t w)) as G.
  { apply changes_tables; [|done|].
    - intros a [d Ed]. left. cbn. rewrite lookup_fmap. unfold rec in Ed. rewrite Ed. by eexists.
    - intros r' t0 _ [Hc|Hg]; [by left|]. right. intros Hlt. destruct (Hg Hlt) as (e & Ee & He). exists e. split; [|done]. apply Hrow. split; [done|]. cbn in Hlt. lia. }
  split; [done|]. split; [|by left]. apply core_tables; [done..| |]; cbn; intros a d.
  - intros Ed. left. eexists. rewrite lookup_fmap. unfold rec in Ed. rewrite Ed. split; [done|]. destruct (_ && _); auto.
  - rewrite lookup_fmap. intros (d0 & Ed & ->)%fmap_Some. split.
    + destruct (c_rec_tok _ _ _ _ C a d0 Ed) as (c & t' & Et & Ho). exists c, t'. split; [done|]. destruct Ho as [Ho|Ho]; [|right; by apply Hdead].
      destruct (orphaned _ _ _ && _) eqn:Eo; [|by left]. right. apply Hdead. apply andb_true_iff in Eo as [[_ Eo%negb_true_iff]%andb_true_iff _].
      split; [by apply (c_tok _ _ _ _ C a c t')|]. rewrite <- Ho. by apply live_false.
    + intros Hl. assert (dc_LeaseID d0 ≠ []) by (by destruct (_ && _)). replace (dc_LeaseID _) with (dc_LeaseID d0) by (by destruct (_ && _)).
      by apply (c_rec_lease _ _ _ _ C).
Qed.

(** Changing one record. *)
Lemma record_ok w a d : core w → rec w a = Some d → ∀ d', dc_owner d' = dc_owner d → (dc_evidence d' = dc_evidence d ∨ dc_evidence d' ≠ []) →
  (dc_LeaseID d' = dc_LeaseID d ∨ lea w (dc_LeaseID d') = Some a) →
  let w' := set_tables (with_cleanup (<[a := d']> (tb_cleanup (w_tables w))) (w_tables w)) w in changes XNone w w' ∧ core w'.
Proof.
  intros C Ed d' Ho He Hl w'. assert (changes XNone w w') as G.
  { apply changes_tables; [|auto..]. intros a' Ha. left. cbn. apply lookup_insert_is_Some. destruct (decide (a = a')); [by left|by right]. }
  split; [done|]. apply core_tables; [done..| |]; cbn.
  - intros a' d0 Ed0. left. destruct (decide (a = a')) as [->|Hn]; [|exists d0; rewrite lookup_insert_ne by done; auto].
    assert (d0 = d) as -> by congruence. exists d'. rewrite lookup_insert_eq. auto.
  - intros a' d0 [[<- <-]|[Hn Ed0]]%lookup_insert_Some.
    + destruct (c_rec_tok _ _ _ _ C a d Ed) as (c & t & Et & Hc). rewrite Ho. split; [by exists c, t|]. intros Hne. destruct Hl as [E|E]; [|done].
      rewrite E in *. by apply (c_rec_lease _ _ _ _ C).
    + split; [|by apply (c_rec_lease _ _ _ _ C)]. by apply (c_rec_tok _ _ _ _ C a' d0).
Qed.

Lemma update_ok w a guard f : core w → (∀ d, rec w a = Some d → guard d = true → dc_owner (f d) = dc_owner d ∧ (dc_evidence (f d) = dc_evidence d ∨ dc_evidence (f d) ≠ []) ∧
    (dc_LeaseID (f d) = dc_LeaseID d ∨ lea w (dc_LeaseID (f d)) = Some a)) →
  let w' := set_tables (fst (update_record a guard f (w_tables w))) w in changes XNone w w' ∧ core w'.
Proof.
  intros C Hf. unfold update_record. destruct (tb_cleanup (w_tables w) !! a) as [d|] eqn:Ed; [|cbn; rewrite set_tables_same; split; [apply changes_refl|done]].
  destruct (guard d) eqn:Eg; [|cbn; rewrite set_tables_same; split; [apply changes_refl|done]]. destruct (Hf d Ed Eg) as (H1 & H2 & H3). by apply (record_ok w a d).
Qed.

Lemma add_record_ok r tid κ w a d : core w → (∀ f, f ∈ κ → holds w r tid f) → FStarted ∈ κ → FRight a false ∈ κ → dc_LeaseID d = [] →
  tx_ok r tid κ (AddRecord r a d) w.
Proof.
  intros C Hk Hs Hr Hl. unfold tx_ok, exec_tx, add_record. destruct (live _ _ _); [|rewrite set_tables_same; split_and!; [apply changes_refl|done|by left]].
  destruct (tb_cleanup (w_tables w) !! a) as [d0|] eqn:Ed; [rewrite set_tables_same; split_and!; [apply changes_refl|done|by left]|].
  destruct (Hk _ Hr) as (Ht & Hle & _). set (w' := set_tables _ w). assert (changes XNone w w') as G.
  { apply changes_tables; [|auto..]. intros a' Ha. left. cbn. apply lookup_insert_is_Some. destruct (decide (a = a')); [by left|by right]. }
  split; [done|]. split.
  - apply core_tables; [done..| |]; cbn.
    + intros a' d0 Ed0. left. exists d0. rewrite lookup_insert_ne by (intros ->; unfold rec in Ed0; congruence). auto.
    + intros a' d0 [[<- <-]|[Hn Ed0]]%lookup_insert_Some; [split; [exists r, tid; by split; [|left]|by cbn]|].
      split; [|by apply (c_rec_lease _ _ _ _ C)]. by apply (c_rec_tok _ _ _ _ C a' d0).
  - intros f [->|Hf]%elem_of_cons; [right|by left]. cbn. split_and!; [done..|]. intros _. exists (with_owner r d). apply lookup_insert_eq.
Qed.

Lemma delete_record_ok r tid κ w a l : core w → (∀ f, f ∈ κ → holds w r tid f) → FPair a l ∈ κ → FGone l ∈ κ → tx_ok r tid κ (DeleteRecord a) w.
Proof.
  intros C Hk Hp Hg. unfold tx_ok, exec_tx, DeleteDatabaseCleanup. pose proof (Hk _ Hp) as El. destruct (Hk _ Hg) as [Hn _]. cbn in El.
  assert (changes XNone w (set_tables (with_cleanup (delete a (tb_cleanup (w_tables w))) (w_tables w)) w)) as G.
  { apply changes_tables; [|auto..]. intros a' Ha. destruct (decide (a = a')) as [<-|Hne]; [by right; exists l|left]. cbn. by rewrite lookup_delete_ne. }
  split; [done|]. split; [|by left]. apply core_tables; [done..| |]; cbn.
  - intros a' d Ed. destruct (decide (a = a')) as [<-|Hne]; [by right; exists l|left]. exists d. rewrite lookup_delete_ne by done. auto.
  - intros a' d [Hne Ed]%lookup_delete_Some. split; [|by apply (c_rec_lease _ _ _ _ C)]. by apply (c_rec_tok _ _ _ _ C a' d).
Qed.

Lemma list_owned_ok r tid κ w : core w → tx_ok r tid κ (ListOwned r) w.
Proof.
  intros C. apply read_ok; [done..|]. cbn. intros f [Hf|Hf]%elem_of_app; [right|by left]. apply list_elem_of_In, in_flat_map in Hf as ([a d] & Hd & Hf).
  apply list_elem_of_In, elem_of_owned in Hd as (Ed & _ & Ho). unfold known_lease in Hf. cbn [fst snd] in Hf. case_bool_decide as El; [done|].
  destruct Hf as [<-|[<-|[]]]; cbn; [by apply (c_rec_lease _ _ _ _ C)|]. destruct (c_rec_tok _ _ _ _ C a d Ed) as (c & t & Et & Hc). exists c, t.
  split; [done|]. destruct Hc as [Hc|Hc]; [left; congruence|by right].
Qed.

Lemma tx_safe r tid κ {A} (q : tx A) w : core w → (∀ f, f ∈ κ → holds w r tid f) → pre_tx opts r κ q → tx_ok r tid κ q w.
Proof.
  intros C Hk Hp. destruct q; cbn [pre_tx] in Hp; try (apply read_ok; [done|done|by left]).
  - destruct Hp as (-> & -> & Hb). by apply insert_owner_ok.
  - destruct Hp as (-> & ->). by apply renew_owner_ok.
  - destruct Hp as (-> & Hc). by apply release_owner_ok.
  - by apply claim_orphans_ok.
  - destruct Hp as (-> & Hs & Hr & Hl). by apply add_record_ok.
  - unfold tx_ok, exec_tx, set_lease. destruct (update_ok w accessor (λ d, bool_decide (dc_owner d = owner) && unresolved d && live (db (w_time w)) (w_tables w) owner) (with_lease leaseID) C) as [G C'].
    { intros d _ _. cbn. split_and!; [done|by left|]. right. apply (Hk _ Hp). }
    destruct (update_record _ _ _ _) as [t b]. split_and!; [done..|by left].
  - unfold tx_ok, exec_tx, QuarantineDatabaseCleanup. set (guard := λ r0, _). destruct (update_ok w accessor guard with_quarantine C) as [G C']; [by cbn; auto|]. split_and!; [done..|by left].
  - destruct Hp. by apply list_owned_ok.
  - destruct Hp as (l & Hp & Hg). by apply (delete_record_ok r tid κ w accessor l).
  - unfold tx_ok, exec_tx, confirm_record. set (guard := λ r0, _). destruct (update_ok w accessor guard (with_evidence evidence) C) as [G C'].
    { intros d _ Hd. cbn. split_and!; [done| |by left]. destruct (decide (evidence = [])) as [->|]; [left|by right]. unfold guard in Hd. rewrite !andb_true_iff in Hd.
      destruct Hd as [[_ Hd] _]. unfold unresolved in Hd. by apply bool_decide_eq_true in Hd. }
    destruct (update_record _ _ _ _) as [t b]. split_and!; [done..|by left].
Qed.
End Steps.
