(* ===== verification/LeaseTheorems.v ===== *)
(** * What a fleet of lease minters guarantees

    In every reachable state, whatever was lost and whoever crashed: every
    credential in force has its record, only dead processes lose their records,
    and a process that has its authority keeps its credentials. *)

From S2P Require Import Prelude GoString CleanupStore VaultDatabase LeaseMinter LeaseFacts LeaseFleet LeaseInv LeaseSteps.

Section Safety.
Implicit Types κ : list fact.
Implicit Types f : fact.
Context (db : Z → Z) (clock : bytes → Z → instant) (opts : bytes → DurableLeaseOptions).
Context (db_mono : ∀ t t', t <= t' → db t <= db t').
Local Abbreviation holds := (LeaseInv.holds db clock opts).
Local Abbreviation core := (LeaseInv.core db clock opts).
Local Abbreviation changes := (LeaseInv.changes db opts).
Local Abbreviation exec := (LeaseFleet.exec db clock).

(** After a call: the invariant, what its thread knows, and everyone else's facts. *)
Definition kept (r : bytes) (tid : nat) (κ' : list fact) (w w' : world) : Prop :=
  core w' ∧ (∀ f, f ∈ κ' → holds w' r tid f) ∧ (∀ r' tid' f, tid' ≠ tid → holds w r' tid' f → holds w' r' tid' f).

Lemma conclude x r tid κ (κ' : list fact) w w' : core w → (∀ f, f ∈ κ → holds w r tid f) → changes x w w' → core w' →
  (∀ r' tid' f, tid' ≠ tid → holds w r' tid' f → ¬ breaks x r' tid' f) →
  (∀ f, f ∈ κ' → f ∈ κ ∧ ¬ breaks x r tid f ∨ holds w' r tid f) → kept r tid κ' w w'.
Proof.
  intros C Hk G C' Ho Hf. split_and!; [done| |].
  - intros f Hin. destruct (Hf f Hin) as [[Hin' Hb]|?]; [|done]. apply (holds_stable _ _ _ x w w'); auto.
  - intros r' tid' f Hn Hh. apply (holds_stable _ _ _ x w w'); eauto.
Qed.

Lemma conclude_none r tid κ (κ' : list fact) w w' : core w → (∀ f, f ∈ κ → holds w r tid f) → changes XNone w w' → core w' →
  (∀ f, f ∈ κ' → f ∈ κ ∨ holds w' r tid f) → kept r tid κ' w w'.
Proof. intros C Hk G C' Hf. apply (conclude XNone r tid κ); auto. intros f Hin. destruct (Hf f Hin); [left|right]; auto. Qed.

Lemma conclude_same r tid κ (κ' : list fact) w : core w → (∀ f, f ∈ κ → holds w r tid f) → (∀ f, f ∈ κ' → f ∈ κ ∨ holds w r tid f) → kept r tid κ' w w.
Proof. intros C Hk Hf. apply (conclude_none r tid κ); auto. apply changes_refl. Qed.

(** A change of the process that concerns none of its leases. *)
Lemma conclude_minter r tid κ (κ' : list fact) w m m' : core w → (∀ f, f ∈ κ → holds w r tid f) → w_minters w !! r = Some m → keeps XNone w r m m' →
  mn_active m' ⊆ mn_active m → mn_was m' = mn_was m → mn_lastRenew m' = mn_lastRenew m → mn_started m' = mn_started m →
  (∀ f, f ∈ κ' → f ∈ κ ∨ holds (set_minter r m' w) r tid f) → kept r tid κ' w (set_minter r m' w).
Proof.
  intros C Hk Hm K H1 H2 H3 H4 Hf. apply (conclude_none r tid κ); auto; [by apply (changes_minter _ _ _ w r m)|by apply (core_minter_same _ _ _ XNone w r m)].
Qed.

Lemma keeps_same x w r m m' : mn_boot m' = mn_boot m → (mn_cancelled m = true → mn_cancelled m' = true) → mn_started m' = mn_started m →
  (∀ t, mn_locked m = Some t → mn_locked m' = Some t ∨ x = XUnlock r t) → mn_was m' = mn_was m → mn_active m' ⊆ mn_active m → keeps x w r m m'.
Proof.
  intros H1 H2 H3 H4 H5 H6. unfold keeps. rewrite H3, H5. split_and!; auto; [congruence|]. intros l d Hd. left. by eapply lookup_weaken.
Qed.

Lemma elem_of_cons_or f g κ (P : fact → Prop) : P g → f ∈ g :: κ → f ∈ κ ∨ P f.
Proof. intros Hg [->|Hf]%elem_of_cons; auto. Qed.

Lemma set_minter_lookup r m w : w_minters (set_minter r m w) !! r = Some m.
Proof. apply lookup_insert_eq. Qed.

Section Call.
Context (r : bytes) (tid : nat) (κ : list fact) (w : world) (m : minter).
Context (C : core w) (Hk : ∀ f, f ∈ κ → holds w r tid f) (Hm : w_minters w !! r = Some m).

Lemma same_ok (κ' : list fact) : (∀ f, f ∈ κ' → f ∈ κ ∨ holds w r tid f) → kept r tid κ' w w.
Proof. by apply conclude_same. Qed.

(** A field that no fact is about. *)
Lemma field_ok m' (κ' : list fact) : mn_boot m' = mn_boot m → (mn_cancelled m = true → mn_cancelled m' = true) → mn_started m' = mn_started m →
  (∀ t, mn_locked m = Some t → mn_locked m' = Some t) → mn_was m' = mn_was m → mn_active m' ⊆ mn_active m → mn_lastRenew m' = mn_lastRenew m →
  (∀ f, f ∈ κ' → f ∈ κ ∨ holds (set_minter r m' w) r tid f) → kept r tid κ' w (set_minter r m' w).
Proof. intros H1 H2 H3 H4 H5 H6 H7 Hf. apply (conclude_minter r tid κ κ' w m); auto. apply keeps_same; auto. Qed.

Lemma started_ok s : FBooting ∈ κ → FRenewed s ∈ κ → kept r tid (FStarted :: without booting κ) w (set_minter r (mn_set_start true s m) w).
Proof.
  intros Hb Hr. destruct (Hk _ Hb) as (m0 & Hm0 & Hs & Ht). assert (m0 = m) as -> by congruence.
  assert (keeps (XStart r) w r m (mn_set_start true s m)) as K by (unfold keeps; cbn; split_and!; auto).
  apply (conclude (XStart r) r tid κ); auto; [by apply (changes_minter _ _ _ w r m)| | |].
  - apply (core_minter _ _ _ (XStart r) w r m); auto; cbn; [intros ? ?; by apply (c_active _ _ _ _ C r m)|intros ?; by apply (c_was _ _ _ _ C r m)|]. intros _.
    destruct (Hk _ Hr) as (t0 & Ht0 & -> & Hg). by exists t0.
  - intros r' tid' f Hn Hh Hbr. destruct f; cbn in Hbr; try done. subst r'. destruct Hh as (m1 & Hm1 & _ & Ht1). congruence.
  - intros f [->|Hf]%elem_of_cons; [right; exists (mn_set_start true s m); split; [apply set_minter_lookup|done]|]. left.
    apply elem_of_without in Hf as [Hf Hp]. split; [done|]. destruct f; cbn in *; try done; tauto.
Qed.

Lemma set_last_ok s : FRenewed s ∈ κ → kept r tid κ w (set_minter r (mn_set_start (mn_started m) s m) w).
Proof.
  intros Hr. assert (keeps XNone w r m (mn_set_start (mn_started m) s m)) as K by (apply keeps_same; cbn; auto).
  apply (conclude_none r tid κ); auto; [by apply (changes_minter _ _ _ w r m)|].
  apply (core_minter _ _ _ XNone w r m); auto; cbn; [intros ? ?; by apply (c_active _ _ _ _ C r m)|intros ?; by apply (c_was _ _ _ _ C r m)|]. intros _.
  destruct (Hk _ Hr) as (t0 & Ht0 & -> & Hg). by exists t0.
Qed.

Lemma lock_ok (κ' : list fact) : mn_locked m = None → (∀ f, f ∈ κ' → f ∈ FLocked :: κ) → kept r tid κ' w (set_minter r (mn_set_lock (Some tid) m) w).
Proof.
  intros Hl Hf. apply field_ok; auto; cbn; [congruence|]. intros f Hin. apply Hf in Hin as [->|Hin]%elem_of_cons; [right|by left].
  exists (mn_set_lock (Some tid) m). split; [apply set_minter_lookup|done].
Qed.

Lemma unlock_ok : FLocked ∈ κ → kept r tid (without needs_lock κ) w (set_minter r (mn_set_lock None m) w).
Proof.
  intros Hl. destruct (Hk _ Hl) as (m0 & Hm0 & Ht). assert (m0 = m) as -> by congruence.
  assert (keeps (XUnlock r tid) w r m (mn_set_lock None m)) as K by (apply keeps_same; auto; cbn; intros t Et; right; congruence).
  apply (conclude (XUnlock r tid) r tid κ); auto; [by apply (changes_minter _ _ _ w r m)|by apply (core_minter_same _ _ _ (XUnlock r tid) w r m)| |].
  - intros r' tid' f Hn _ Hb. by destruct f; cbn in Hb; try done; destruct Hb.
  - intros f [Hf Hp]%elem_of_without. left. split; [done|]. destruct f; cbn in *; try done; tauto.
Qed.

Lemma put_ok l d : FLocked ∈ κ → FMine (dl_accessor d) ∈ κ → FPair (dl_accessor d) l ∈ κ →
  kept r tid (without (mine (dl_accessor d)) κ) w (set_minter r (mn_set_active (<[l := d]> (mn_active m)) ({[l]} ∪ mn_was m) m) w).
Proof.
  intros Hl Hmi Hp. destruct (Hk _ Hl) as (m0 & Hm0 & Ht). assert (m0 = m) as -> by congruence. destruct (Hk _ Hmi) as [Etok Hnew]. pose proof (Hk _ Hp) as El. cbn in El.
  set (a := dl_accessor d) in *. set (m' := mn_set_active _ _ m). specialize (Hnew l m El Hm).
  assert (keeps (XPut r l a tid) w r m m') as K.
  { unfold keeps. cbn. split_and!; auto; [congruence|set_solver| |].
    - intros l' Hl'. destruct (decide (l' = l)) as [->|]; [right; exists a, tid; done|left; set_solver].
    - intros l' d' [[<- <-]|[_ Hd']]%lookup_insert_Some; [right; exists a, tid; done|by left]. }
  apply (conclude (XPut r l a tid) r tid κ); auto; [by apply (changes_minter _ _ _ w r m)| | |].
  - apply (core_minter _ _ _ (XPut r l a tid) w r m); auto; cbn.
    + intros l' d' [[<- <-]|[_ Hd']]%lookup_insert_Some; [split; [set_solver|done]|]. destruct (c_active _ _ _ _ C r m l' d' Hm Hd') as [H1 H2]. split; [set_solver|done].
    + intros l' Hl'. destruct (decide (l' = l)) as [->|]; [exists a, tid; done|]. apply (c_was _ _ _ _ C r m); [done|set_solver].
    + intros Hs. by apply (c_sent _ _ _ _ C).
  - intros r' tid' f Hn Hh Hb. destruct f; cbn in Hb; try done; destruct Hb; [subst|congruence]. destruct Hh as [Ht' _]. congruence.
  - intros f [Hf Hpf]%elem_of_without. left. split; [done|]. destruct f; cbn in *; try done; try tauto. intros [_ <-]. apply bool_decide_eq_false in Hpf. done.
Qed.

Lemma takeover_ok l (κ' : list fact) : (∀ f, f ∈ κ' → f ∈ match mn_active m !! l with Some d => FPair (dl_accessor d) l :: FForeign (dl_accessor d) :: FWas l :: κ | None => κ end) →
  kept r tid κ' w (set_minter r (mn_set_active (delete l (mn_active m)) (mn_was m) m) w).
Proof.
  intros Hf. apply field_ok; auto; cbn; [apply delete_subseteq|]. intros f Hin. apply Hf in Hin. destruct (mn_active m !! l) as [d|] eqn:Ed; [|by left].
  destruct (c_active _ _ _ _ C r m l d Hm Ed) as [Hw El]. destruct (c_was _ _ _ _ C r m l Hm Hw) as (a & t & Ea & Et).
  rewrite !elem_of_cons in Hin. destruct Hin as [->|[->|[->|Hin]]]; [right; done| |right|by left].
  - right. exists r, t. split; [|by left]. change (tok w (dl_accessor d) = Some (r, t)). congruence.
  - exists (mn_set_active (delete l (mn_active m)) (mn_was m) m). split_and!; [apply set_minter_lookup|done|]. cbn. apply lookup_delete_eq.
Qed.

Lemma create_ok s (κ' : list fact) : FStarted ∈ κ → tok w (ds_Accessor s) = None → (∀ f, f ∈ κ' → f ∈ FForeign (ds_Accessor s) :: FRight (ds_Accessor s) false :: κ) →
  let v := w_vault w in
  kept r tid κ' w (set_vault {| v_tokens := <[ds_Accessor s := (r, tid)]> (v_tokens v); v_leases := v_leases v; v_live := v_live v |} w).
Proof.
  intros Hs Et Hf v. set (a := ds_Accessor s) in *. set (w' := set_vault _ w).
  assert (Htok : ∀ a' c, tok w a' = Some c → tok w' a' = Some c) by (intros a' c E; unfold tok; cbn; rewrite lookup_insert_ne; [done|intros <-; congruence]).
  assert (changes XNone w w') as G by (split; auto; [cbn; lia|]; intros r0 m0 Hm0; exists m0; split_and!; auto; congruence).
  destruct C as [c1 c2 c3 c4 c5 c6 c7 c8 c9]. assert (Hnl : ∀ l, lea w l ≠ Some a) by (intros l El; destruct (c4 l a El); congruence).
  apply (conclude_none r tid κ); auto.
  - split; auto.
    + intros l a' El. destruct (c4 l a' El) as [c Ec]. exists c. by apply Htok.
    + unfold tok. cbn. intros a' c t [[_ [= <- <-]]|[_ E]]%lookup_insert_Some; [by destruct (Hk _ Hs) as (m0 & H0); exists m0|by apply (c5 a' c t)].
    + intros r0 m0 l Hm0 Hl. destruct (c7 r0 m0 l Hm0 Hl) as (a' & t & Ea & Et'). exists a', t. auto.
    + intros a' d Ed. destruct (c8 a' d Ed) as (c & t & Ec & Ho). exists c, t. auto.
  - intros f Hin. apply Hf in Hin. rewrite !elem_of_cons in Hin. assert (tok w' a = Some (r, tid)) by apply lookup_insert_eq.
    destruct Hin as [->|[->|Hin]]; [right|right|by left]; cbn; [by exists r, tid; auto|]. split_and!; [done|done|by intros].
Qed.

Lemma read_vault_ok a l (κ' : list fact) : FRight a true ∈ κ → lea w l = None → 
  (∀ f, f ∈ κ' → f ∈ FPair a l :: FMine a :: without (right_to a) κ) → kept r tid κ' w (set_vault (issue (w_vault w) a l) w).
Proof.
  intros Hr El Hf. set (w' := set_vault _ w). destruct (Hk _ Hr) as (Et & Hnl & Hrec). destruct (Hrec eq_refl) as [d Ed].
  assert (Hlea : ∀ l' a', lea w' l' = Some a' ↔ l' = l ∧ a' = a ∨ lea w l' = Some a').
  { intros l' a'. unfold lea. cbn. rewrite lookup_insert_Some. unfold lea in El. split; [naive_solver|]. intros [[-> ->]|E]; [by left|right]. split; [congruence|done]. }
  assert (changes (XRead a) w w') as G.
  { split; auto; [cbn; lia| | | |].
    - intros l' a' E. apply Hlea. by right.
    - intros l' a' [[-> ->]|E]%Hlea; [right|by left]; auto.
    - intros l' Hl'. unfold liv in Hl'. cbn in Hl'. destruct (decide (l' = l)) as [->|]; [by right|left; unfold liv; set_solver].
    - intros r0 m0 Hm0. exists m0. split_and!; auto. congruence. }
  destruct C as [c1 c2 c3 c4 c5 c6 c7 c8 c9].
  apply (conclude (XRead a) r tid κ); auto.
  - split; auto.
    + intros l' Hl'. unfold liv in Hl'. cbn in Hl'. destruct (decide (l' = l)) as [->|Hne].
      * exists a, d. split_and!; [apply Hlea; by left|done|]. destruct (decide (dc_LeaseID d = [])) as [?|Hne]; [by right; left|]. destruct (Hnl _ (c2 a d Ed Hne)).
      * destruct (c1 l' ltac:(unfold liv; set_solver)) as (a' & d' & E1 & E2 & E3). exists a', d'. split_and!; [apply Hlea; by right|done|done].
    + intros a' d' E Hne. apply Hlea. right. auto.
    + intros l1 l2 a' [[-> ->]|E1]%Hlea [[H1 H2]|E2]%Hlea; [done|by destruct (Hnl l2)|subst; by destruct (Hnl l1)|by apply (c3 l1 l2 a')].
    + intros l' a' [[-> ->]|E]%Hlea; [by eexists|by apply (c4 l')].
    + intros r0 m0 l' d' Hm0 Hd. destruct (c6 r0 m0 l' d' Hm0 Hd) as [H1 H2]. split; [done|]. apply Hlea. by right.
    + intros r0 m0 l' Hm0 Hl. destruct (c7 r0 m0 l' Hm0 Hl) as (a' & t & E1 & E2). exists a', t. split; [|done]. apply Hlea. by right.
  - intros r' tid' f Hn Hh Hb. destruct f; cbn in Hb; try done. subst accessor. destruct Hh as [Ht' _]. congruence.
  - intros f Hin. apply Hf in Hin. rewrite !elem_of_cons in Hin. destruct Hin as [->|[->|[Hin Hp]%elem_of_without]].
    + right. cbn. apply Hlea. by left.
    + right. cbn. split; [done|]. intros l' m' [[-> _]|E]%Hlea Hm' Hw; [|by destruct (Hnl l')]. destruct (c7 r m' l Hm' Hw) as (a' & t & E1 & _). congruence.
    + left. split; [done|]. destruct f; cbn in *; try done; try tauto. intros ->. apply bool_decide_eq_false in Hp. done.
Qed.

Lemma end_ok ls κ' : (∀ f, f ∈ κ' → f ∈ κ) → kept r tid κ' w (set_vault (end_leases ls (w_vault w)) w).
Proof using Type C Hk. intros Hf. apply (conclude_none r tid κ); [done..|apply changes_end|by apply core_end|auto]. Qed.
End Call.

Lemma exec_ok r tid κ {B} (c : call B) o w w' b : core w → (∀ f, f ∈ κ → holds w r tid f) → pre opts r κ c → exec r tid c o w = Some (w', b) →
  kept r tid (post κ c b) w w'.
Proof.
  intros C Hk Hp E. unfold LeaseFleet.exec in E. apply bind_Some in E as (m & Hm & E).
  destruct c; cbn [pre] in Hp; cbn [post] in *;
    try (injection E as <- <-; apply (same_ok r tid κ w); auto; fail); try (injection E as <- <-; apply (field_ok r tid κ w m); cbn; auto; fail).
  - injection E as <- <-. apply (same_ok r tid κ w); [done..|]. intros f. apply elem_of_cons_or. by exists (w_time w).
  - injection E as <- <-. apply (field_ok r tid κ w m); cbn; auto. intros f. apply elem_of_cons_or. eexists. split; [apply set_minter_lookup|done].
  - injection E as <- <-. destruct Hp. by apply (started_ok r tid κ w m).
  - injection E as <- <-. by apply (set_last_ok r tid κ w m).
  - destruct (oc_reply o); [destruct (mn_locked m) eqn:El; [done|]|]; injection E as <- <-; [by apply (lock_ok r tid κ w m)|by apply (same_ok r tid κ w); auto].
  - destruct (mn_locked m) eqn:El; injection E as <- <-; [by apply (same_ok r tid κ w); auto|by apply (lock_ok r tid κ w m)].
  - injection E as <- <-. by apply (unlock_ok r tid κ w m).
  - injection E as <- <-. apply (same_ok r tid κ w); [done..|]. intros f. apply elem_of_cons_or. destruct (Hk _ Hp) as (m0 & Hm0 & Hl). exists m. split_and!; [done|congruence|done].
  - injection E as <- <-. destruct Hp as (H1 & H2 & H3). by apply (put_ok r tid κ w m).
  - injection E as <- <-. apply (takeover_ok r tid κ w m); auto.
  - injection E as <- <-. apply (field_ok r tid κ w m); cbn; auto. apply map_empty_subseteq.
  - destruct (mn_once m) as [[f|]|]; [|done|]; injection E as <- <-; [by apply (same_ok r tid κ w); auto|apply (field_ok r tid κ w m); cbn; auto].
  - pose proof (tx_safe db clock opts db_mono r tid κ q w C Hk Hp) as Htx. unfold tx_ok in Htx. destruct (exec_tx _ q _) as [t a]. destruct Htx as (G & C' & Hf).
    injection E as <- <-. unfold answered. destruct (oc_effect o); cbn [andb]; [|apply (same_ok r tid κ w); auto].
    destruct (oc_reply o); apply (conclude_none r tid κ); auto.
  - destruct (oc_effect o) eqn:Eo; cbn [negb] in E; [|injection E as <- <-; by apply (same_ok r tid κ w); auto]. case_bool_decide as Et; [|done]. injection E as <- <-.
    apply (create_ok r tid κ w); auto. unfold answered. destruct (_ && _); [done|]. intros f Hf. rewrite !elem_of_cons. auto.
  - destruct (oc_effect o) eqn:Eo; cbn [negb] in E; [|injection E as <- <-].
    + destruct (bool_decide _ && _ && _) eqn:Eg; [|done]. injection E as <- <-. rewrite !andb_true_iff, orb_true_iff, negb_true_iff in Eg.
      destruct Eg as [[El%bool_decide_eq_true Hne%bool_decide_eq_false] Hs]. apply (read_vault_ok r tid κ w) with (m := m); auto. unfold answered. intros f.
      destruct (_ && _); [|rewrite !elem_of_cons; auto].
      destruct (decide (sec_LeaseID (oc_secret o) = [])) as [En|En].
      * rewrite (bool_decide_true _ En), !elem_of_cons. cbn [app]. rewrite elem_of_cons. tauto.
      * rewrite (bool_decide_false _ En). cbn [app]. destruct Hs as [Hs|Hs]; apply bool_decide_eq_true in Hs; [by rewrite Hs|done].
    + destruct (Hk _ Hp) as (Et & Hnl & _). apply (conclude (XNone) r tid κ); auto; [apply changes_refl|]. intros f [->|[Hf _]%elem_of_without]%elem_of_cons; [right|left; auto].
      cbn. split; [done|]. intros l m' El. by destruct (Hnl l).
  - injection E as <- <-. destruct (oc_effect o); [apply (end_ok r tid κ w)|apply (same_ok r tid κ w)]; auto.
  - destruct (_ && _) eqn:Eg; [done|]. injection E as <- <-. destruct Hp as [a Ha]. apply (same_ok r tid κ w); [done..|]. destruct (decide (oc_lookup o = InvalidLease)) as [Ei|Ei]; [|rewrite (bool_decide_false _ Ei); auto]. rewrite (bool_decide_true _ Ei) in *.
    intros f. apply elem_of_cons_or. cbn. pose proof (Hk _ Ha) as El. cbn in El. rewrite El. split; [|by eexists]. intros Hl.
    cbn [andb] in Eg. apply bool_decide_eq_false in Eg. done.
  - injection E as <- <-. destruct (oc_effect o); [apply (end_ok r tid κ w)|apply (same_ok r tid κ w)]; auto.
Qed.
End Safety.

(** * Fencing, custody and takeover

    The invariant of [LeaseInv] in every reachable state of a fleet, and what
    follows when the clocks agree: a process that has its authority owns its
    records and keeps its credentials. *)

Section Fleet.
Context `{UnicodeTables} (db : Z → Z) (clock : bytes → Z → instant) (opts : bytes → DurableLeaseOptions).
Context (db_mono : ∀ t t', t <= t' → db t <= db t').
Local Abbreviation holds := (LeaseInv.holds db clock opts).
Local Abbreviation core := (LeaseInv.core db clock opts).
Local Abbreviation changes := (LeaseInv.changes db opts).
Local Abbreviation exec := (LeaseFleet.exec db clock).
Local Abbreviation step := (LeaseFleet.step db clock opts).
Local Abbreviation reachable := (LeaseFleet.reachable db clock opts).

Definition thread_ok (w : world) (tid : nat) (r : bytes) (p : prog unit) : Prop :=
  ∃ κ, (∀ f, f ∈ κ → holds w r tid f) ∧ safe opts r κ p (λ _ _, True).

Definition fleet_ok (w : world) : Prop :=
  core w ∧ ∀ tid r p, w_threads w !! tid = Some (r, p) → (tid < w_next w)%nat ∧ thread_ok w tid r p.

Lemma exec_threads r tid {B} (c : call B) o w w' b : exec r tid c o w = Some (w', b) → w_threads w' = w_threads w ∧ w_next w' = w_next w.
Proof.
  unfold LeaseFleet.exec. intros E. apply bind_Some in E as (m & _ & E). destruct c; cbn in E; repeat case_match; by simplify_eq.
Qed.

Lemma thread_stable w w' tid r p : core w → changes XNone w w' → thread_ok w tid r p → thread_ok w' tid r p.
Proof.
  intros C G (κ & Hk & Hs). exists κ. split; [|done]. intros f Hf. apply (holds_stable db clock opts XNone w w'); auto.
Qed.

Lemma safe_done {A} r κ (p : prog A) : safe opts r κ p (λ _ _, True) → safe opts r κ (done p) (λ _ _, True).
Proof. intros Hp. apply safe_bind. by apply (safe_weaken _ _ _ _ _ _ Hp). Qed.

Lemma safe_operation r p : operation opts r p → safe opts r [FStarted] p (λ _ _, True).
Proof.
  intros []; try (apply safe_done).
  - apply safe_mint; [set_solver|done].
  - by apply safe_renew_lease.
  - by apply safe_revoke_lease.
  - by apply safe_confirm.
  - by apply safe_retry.
  - unfold on_heartbeat. apply safe_bind, safe_heartbeat. intros κ' [|]; [done|]. by apply safe_fence.
  - by apply safe_fence.
  - unfold Ready. cbn. split; [done|]. intros [|]; [done|]. by repeat (split; [done|intros]).
  - by apply safe_close.
Qed.

Lemma boot_ok w r : core w → w_minters w !! r = None → changes XNone w (set_minter r (new_minter (w_next w)) w) ∧ core (set_minter r (new_minter (w_next w)) w).
Proof.
  intros C Hn. set (m := new_minter _). assert (Hold : ∀ r0 m0, w_minters w !! r0 = Some m0 → w_minters (set_minter r m w) !! r0 = Some m0).
  { intros r0 m0 H0. cbn. rewrite lookup_insert_ne; [done|]. intros <-. congruence. }
  assert (changes XNone w (set_minter r m w)) as G.
  { split; auto; [cbn; lia| | |].
    - intros r0 [(m0 & H0 & Hs) Hd]. split; [|done]. exists m0. auto.
    - intros r0 t0 _ [(m0 & H0 & Hs)|Hg]; [left; exists m0; auto|by right].
    - intros r0 m0 H0. exists m0. split_and!; auto. congruence. }
  split; [done|]. destruct C as [c1 c2 c3 c4 c5 c6 c7 c8 c9].
  assert (Hcase : ∀ r0 m0, w_minters (set_minter r m w) !! r0 = Some m0 → m0 = m ∨ w_minters w !! r0 = Some m0).
  { cbn. intros r0 m0 [[_ <-]|[_ H0]]%lookup_insert_Some; auto. }
  split; auto.
  - intros a c t Ht. destruct (c5 a c t Ht) as (m0 & H0 & Hs). exists m0. auto.
  - intros r0 m0 l d H0 Hd. destruct (Hcase _ _ H0) as [->|H1]; [done|by apply (c6 r0 m0)].
  - intros r0 m0 l H0 Hl. destruct (Hcase _ _ H0) as [->|H1]; [cbn in Hl; set_solver|by apply (c7 r0 m0)].
  - intros a d Hd. destruct (c8 a d Hd) as (c & t & Ht & Ho). exists c, t. split; [done|]. destruct Ho as [?|Ho]; [by left|right; by apply (g_dead _ _ _ _ _ G)].
  - intros r0 m0 H0 Hs. destruct (Hcase _ _ H0) as [->|H1]; [done|]. destruct (c9 r0 m0 H1 Hs) as (t0 & Ht & El & Hg). exists t0. split_and!; [done..|].
    by apply (g_granted _ _ _ _ _ G).
Qed.

Lemma threads_ok w w' : core w → changes XNone w w' → w_threads w' = w_threads w → w_next w' = w_next w →
  (∀ tid r p, w_threads w !! tid = Some (r, p) → (tid < w_next w)%nat ∧ thread_ok w tid r p) →
  ∀ tid r p, w_threads w' !! tid = Some (r, p) → (tid < w_next w')%nat ∧ thread_ok w' tid r p.
Proof. intros C G E1 E2 Ht tid r p. rewrite E1, E2. intros Hp. destruct (Ht tid r p Hp). split; [done|]. by apply (thread_stable w). Qed.

Lemma spawn_ok w r p : fleet_ok w → (∃ κ, (∀ f, f ∈ κ → holds w r (w_next w) f) ∧ safe opts r κ p (λ _ _, True)) →
  fleet_ok (set_threads (<[w_next w := (r, p)]> (w_threads w)) (S (w_next w)) w).
Proof.
  intros [C Ht] Hp. split; [by apply core_threads|]. cbn. intros tid r' p' [[<- [= <- <-]]|[_ H']]%lookup_insert_Some; [split; [lia|]|].
  - by apply (thread_stable w); [|apply changes_threads|].
  - destruct (Ht tid r' p' H'). split; [lia|]. by apply (thread_stable w); [|apply changes_threads|].
Qed.

Lemma fleet_step_ok l w w' : fleet_ok w → step l w w' → fleet_ok w'.
Proof.
  intros F Hs. pose proof F as [C Ht]. destruct Hs as [w t Hle|w r Hn|w r m Hm|w r m p Hm Hst Hal Hop|w l|w r tid p o w' p' Hp Ha].
  - split; [by apply core_time|]. apply (threads_ok w); try done. by apply changes_time.
  - destruct (boot_ok w r C Hn) as [G C']. set (w1 := set_minter r _ w) in *. apply (spawn_ok w1).
    + split; [done|]. by apply (threads_ok w).
    + exists [FBooting]. split; [|apply safe_done, safe_new; [set_solver|done]]. intros f ->%list_elem_of_singleton. exists (new_minter (w_next w)).
      split_and!; [apply set_minter_lookup|done..].
  - set (w1 := set_minter r (mn_set_alive false m) w). assert (keeps XNone w r m (mn_set_alive false m)) as K by (apply keeps_same; cbn; auto).
    assert (changes XNone w w1) as G by (by apply (changes_minter _ _ _ w r m)). assert (core w1) as C1 by (by apply (core_minter_same _ _ _ XNone w r m)).
    split; [by apply core_threads|]. cbn. unfold crashed. intros tid r' p' [H' _]%map_lookup_filter_Some. destruct (Ht tid r' p' H') as [Hn Hok]. split; [done|].
    apply (thread_stable w1); [done|apply changes_threads|]. by apply (thread_stable w).
  - apply spawn_ok; [done|]. exists [FStarted]. split; [|by apply safe_operation]. intros f ->%list_elem_of_singleton. by exists m.
  - split; [by apply core_end|]. apply (threads_ok w); try done. apply changes_end.
  - destruct p as [|B c k]; [done|]. cbn [advance] in Ha. destruct (exec r tid c o w) as [[w2 b]|] eqn:E; [|done]. cbn in Ha. injection Ha as -> <-.
    destruct (Ht tid r _ Hp) as (Hn & κ & Hk & Hsafe). destruct Hsafe as [Hpre Hsafe].
    destruct (exec_ok db clock opts db_mono r tid κ c o w w' b C Hk Hpre E) as (C' & Hk' & Ho). apply exec_threads in E as [E1 E2].
    split; [by apply core_threads|]. cbn. rewrite E1, E2. intros tid' r' p' [[<- [= <- <-]]|[Hne H']]%lookup_insert_Some.
    + split; [done|]. apply (thread_stable w'); [done|apply changes_threads|]. exists (post κ c b). split; [done|apply Hsafe].
    + destruct (Ht tid' r' p' H') as (Hn' & κ' & Hk2 & Hs2). split; [done|]. apply (thread_stable w'); [done|apply changes_threads|]. exists κ'. split; [|done].
      intros f Hf. apply Ho; auto.
Qed.

Lemma fleet_reachable_ok w : reachable w → fleet_ok w.
Proof.
  induction 1 as [t|l w w' _ IH Hs]; [|by apply (fleet_step_ok l w)]. split; [|by intros ? ? ? [=]]. split; cbn; try done.
Qed.

(** C3: custody. Whatever requests and answers are lost, whichever processes
    crash and however their methods interleave, every credential in force that
    the brokers had Vault issue has a record in the journal, under the accessor
    it was issued to: with its lease ID, as an unknown issuance, or attested by
    an operator. *)
Theorem credential_recorded w l : reachable w → l ∈ v_live (w_vault w) →
  ∃ a d, v_leases (w_vault w) !! l = Some a ∧ tb_cleanup (w_tables w) !! a = Some d ∧ (dc_evidence d ≠ [] ∨ dc_LeaseID d = [] ∨ dc_LeaseID d = l).
Proof. intros [C _]%fleet_reachable_ok Hl. by apply (c_live _ _ _ _ C). Qed.

(** ** With clocks that agree *)

(** Between two instants the database's clock advances by at most [drift] more
    than a process's clocks, and the gap between the fence and the takeover
    covers it. *)
Context (drift : Z).
Context (Hdrift : ∀ r t0 t, t0 <= t →
  (db t - db t0) * Millisecond <= Z.max (it_mono (clock r t) - it_mono (clock r t0)) (it_wall (clock r t) - it_wall (clock r t0)) + drift).
Context (Hgap : ∀ r, op_FenceAfter (opts r) + drift + Millisecond <= op_OwnerTTL (opts r) ∧ op_FenceAfter (opts r) <= max_int64).
Local Abbreviation authorised := (LeaseFleet.authorised clock opts).

Lemma longest_since_bound now last f : f <= max_int64 → longest_since now last < f →
  Z.max (it_mono now - it_mono last) (it_wall now - it_wall last) < f.
Proof. unfold longest_since, time_Sub, min_int64. lia. Qed.

Lemma authority_live w r : core w → authorised w r → ∃ e, row w r = Some e ∧ db (w_time w) < e.
Proof.
  intros C (m & Hm & _ & Hs & Hc & Hu). destruct (c_sent _ _ _ _ C r m Hm Hs) as (t0 & Ht & El & [(m' & Hm' & Hc')|Hg]); [congruence|].
  destruct (Hgap r) as [Hg1 Hg2]. unfold until in Hu. rewrite El in Hu. apply (proj1 (Z.lt_0_sub _ _)) in Hu. apply longest_since_bound in Hu; [|done].
  specialize (Hdrift r t0 (w_time w) Ht). assert (op_OwnerTTL (opts r) < (ttl_of opts r + 1) * Millisecond) as Hq.
  { unfold ttl_of, Milliseconds, Millisecond. pose proof (Z.quot_rem' (op_OwnerTTL (opts r)) 1000000). pose proof (Z.rem_bound_abs (op_OwnerTTL (opts r)) 1000000). lia. }
  assert (db (w_time w) < db t0 + ttl_of opts r) as Hlt by (unfold Millisecond in *; lia). destruct (Hg Hlt) as (e & Ee & He). exists e. split; [done|lia].
Qed.

Lemma authorised_not_dead w r : core w → authorised w r → ¬ LeaseInv.dead db w r.
Proof. intros C Ha [_ Hd]. destruct (authority_live w r C Ha) as (e & Ee & He). specialize (Hd e Ee). lia. Qed.

(** C8: fencing. A process that has its authority by its own clock still owns
    its records by the database's: no claim by any process, at that moment,
    takes a record of it. *)
Theorem authority_keeps_records w r o a d : reachable w → authorised w r → tb_cleanup (w_tables w) !! a = Some d → dc_owner d = r →
  tb_cleanup (fst (ClaimOrphanedDatabaseCleanup (db (w_time w)) o (w_tables w))) !! a = Some d.
Proof.
  intros [C _]%fleet_reachable_ok Ha Hd <-. destruct (authority_live w _ C Ha) as (e & Ee & He). cbn. rewrite lookup_fmap, Hd. cbn. f_equal.
  unfold orphaned. rewrite (proj2 (live_true _ _ _)) by (by exists e). by rewrite andb_false_r.
Qed.

(** The leases a call can end. *)
Definition ends (w : world) {B} (c : call B) (l : bytes) : Prop :=
  match c with VaultRevoke l' => l = l' | RevokeSelf a => lea w l = Some a | _ => False end.

Lemma exec_ends r tid {B} (c : call B) o w w' b l : exec r tid c o w = Some (w', b) → liv w l → ¬ liv w' l → ends w c l.
Proof.
  unfold LeaseFleet.exec, liv. intros E Hl Hl'. apply bind_Some in E as (m & Hm & E). destruct c; cbn in E; cbn [ends];
    repeat match type of E with
           | Some _ = Some _ => injection E as <- <-
           | None = Some _ => discriminate E
           | context [match ?x with _ => _ end] => destruct x
           end; try (exfalso; exact (Hl' Hl)); destruct (oc_effect o); try (exfalso; exact (Hl' Hl)); cbn in Hl';
    try (exfalso; apply Hl', elem_of_union; by right).
  - cbn in Hl'. rewrite elem_of_difference, elem_of_singleton in Hl'. destruct (decide (l = leaseID)); tauto.
  - cbn in Hl'. rewrite elem_of_difference in Hl'. destruct (decide (l ∈ leases_of (w_vault w) accessor)) as [Hin|]; [|tauto].
    unfold leases_of in Hin. apply elem_of_dom in Hin as [x Hx]. apply map_lookup_filter_Some in Hx as [Hx Ex]. cbn in Ex. by subst x.
Qed.

(** What a call needs to know to end a lease that serves a session. *)
Lemma ended_dead r tid κ {B} (c : call B) o w w' b l r0 m0 d : core w → (∀ f, f ∈ κ → holds w r tid f) → pre opts r κ c →
  exec r tid c o w = Some (w', b) → liv w l → ¬ liv w' l → w_minters w !! r0 = Some m0 → mn_active m0 !! l = Some d → LeaseInv.dead db w r0.
Proof.
  intros C Hk Hp E Hl Hl' Hm0 Hd. destruct (c_active _ _ _ _ C r0 m0 l d Hm0 Hd) as [Hw El]. destruct (c_was _ _ _ _ C r0 m0 l Hm0 Hw) as (a' & t' & El' & Et).
  assert (a' = dl_accessor d) as -> by congruence. set (a := dl_accessor d) in *.
  assert (Hown : FForeign a ∈ κ → (FWas l ∈ κ ∨ FMine a ∈ κ ∨ ∃ held, FHeld held ∈ κ ∧ ∀ l' d, held !! l' = Some d → dl_accessor d ≠ a) → LeaseInv.dead db w r0).
  { intros Hf Hcase. destruct (Hk _ Hf) as (c0 & t0 & Et0 & Hc0). assert (c0 = r0) as -> by congruence. destruct Hc0 as [->|?]; [|done]. exfalso.
    destruct Hcase as [Hc|[Hc|(held & Hc & Hh)]]; specialize (Hk _ Hc); cbn in Hk.
    - destruct Hk as (m & Hm & _ & Hn). congruence.
    - destruct Hk as [_ Hn]. by apply (Hn l m0).
    - destruct Hk as (m & Hm & _ & Hh'). assert (m = m0) as -> by congruence. by apply (Hh l d); [apply Hh'|]. }
  pose proof (exec_ends r tid c o w w' b l E Hl Hl') as He. destruct c; cbn [ends pre] in *; try done.
  - destruct Hp as (a0 & Hpair & Hf & Hcase). subst l. pose proof (Hk _ Hpair) as Ep. cbn in Ep. assert (a0 = a) as -> by congruence. auto.
  - assert (accessor = a) as -> by congruence. destruct Hp as [[rec Hr]|[Hmi|(l1 & Hpair & Hf & Hw1)]].
    + destruct (Hk _ Hr) as (_ & Hnl & _). by destruct (Hnl l).
    + destruct (Hk _ Hmi) as [Etok Hn]. assert (r0 = r) as -> by congruence. by destruct (Hn l m0).
    + pose proof (Hk _ Hpair) as Ep. cbn in Ep. assert (l1 = l) as -> by (by apply (c_one _ _ _ _ C l1 l a)). auto.
Qed.

(** C14: sessions outlive no takeover and no cleanup. As long as a process has
    its authority, no call of any process, itself included, ends a credential
    that one of its sessions uses. *)
Theorem live_credential_kept w w' r m l d r' : reachable w → authorised w r → w_minters w !! r = Some m → mn_active m !! l = Some d →
  l ∈ v_live (w_vault w) → step (Act r') w w' → l ∈ v_live (w_vault w').
Proof.
  intros [C Ht]%fleet_reachable_ok Ha Hm Hd Hl Hs. inversion Hs as [| | | | |w0 r1 tid p o w2 p' Hp Hadv]; subst. destruct p as [|B c k]; [done|].
  cbn [advance] in Hadv. destruct (exec r' tid c o w) as [[w3 b]|] eqn:E; [|done]. cbn in Hadv. injection Hadv as -> <-. cbn.
  destruct (Ht tid r' _ Hp) as (_ & κ & Hk & Hpre & _). destruct (decide (l ∈ v_live (w_vault w2))) as [?|Hn]; [done|]. exfalso.
  apply (authorised_not_dead w r C Ha). by apply (ended_dead r' tid κ c o w w2 b l r m d).
Qed.
End Fleet.

(** ** A run *)

Section Run.
Context `{UnicodeTables} (db : Z → Z) (clock : bytes → Z → instant) (opts : bytes → DurableLeaseOptions).

(** Runs one thread for at most [fuel] calls. *)
Fixpoint run_thread (fuel : nat) (tid : nat) (o : outcome) (w : world) : world :=
  match fuel with
  | O => w
  | S fuel =>
      match w_threads w !! tid with
      | Some (r, p) =>
          match advance db clock r tid p o w with
          | Some (w', p') => run_thread fuel tid o (set_threads (<[tid := (r, p')]> (w_threads w')) (w_next w') w')
          | None => w
          end
      | None => w
      end
  end.

Lemma run_thread_reachable fuel tid o : ∀ w, reachable db clock opts w → reachable db clock opts (run_thread fuel tid o w).
Proof.
  induction fuel as [|fuel IH]; intros w Hw; cbn; [done|]. destruct (w_threads w !! tid) as [[r p]|] eqn:E; [|done].
  destruct (advance _ _ _ _ _ _ _) as [[w' p']|] eqn:Ea; [|done]. apply IH. apply (reach_step _ _ _ (Act r) w); [done|]. by apply (step_act _ _ _ w r tid p o).
Qed.

Definition boot (r : bytes) (w : world) : world :=
  set_threads (<[w_next w := (r, done (NewDurableLeaseMinter (opts r) r))]> (w_threads w)) (S (w_next w)) (set_minter r (new_minter (w_next w)) w).
Definition spawn (r : bytes) (p : prog unit) (w : world) : world := set_threads (<[w_next w := (r, p)]> (w_threads w)) (S (w_next w)) w.
End Run.

#[local] Existing Instance latin1_tables.
Definition sample_owner : bytes := #"broker-0/00ff".
Definition sample_db (t : Z) : Z := t / Millisecond.
Definition sample_clock (r : bytes) (t : Z) : instant := {| it_mono := t; it_wall := t |}.
Definition sample_opts (r : bytes) : DurableLeaseOptions :=
  normalize_options {| op_TokenTTL := 0; op_RetryInterval := 0; op_OwnerTTL := 0; op_FenceAfter := 0; op_Heartbeat := 0 |}.
Definition sample_lease : bytes := #"database/creds/ro/x1".
Definition sample_outcome : outcome :=
  {| oc_effect := true; oc_reply := true; oc_lease := sample_lease;
     oc_session := {| ds_Accessor := #"acc-1"; ds_ExpiresAt := {| it_mono := 3600 * Second; it_wall := 3600 * Second |} |};
     oc_secret := {| sec_LeaseID := sample_lease; sec_username := #"u"; sec_password := #"p"; sec_LeaseDuration := 600; sec_Renewable := true |};
     oc_lookup := InvalidLease; oc_ttl := Some 600 |}.

(** A broker starts, mints a credential, and begins another call. *)
Definition sample_started : world := run_thread sample_db sample_clock 60 0 sample_outcome (boot sample_opts sample_owner (no_world 0)).
Definition sample_scope : AgentScope := {| sc_VaultID := #"v"; sc_ActorID := #"a"; sc_WorkloadID := #"w" |}.
Definition sample_service : DatabaseService := {| sv_Name := #"db"; sv_Mount := #"database"; sv_Role := #"ro" |}.
Definition sample_minted : world :=
  run_thread sample_db sample_clock 60 1 sample_outcome (spawn sample_owner (done (Mint (sample_opts sample_owner) sample_owner sample_scope (Some sample_service))) sample_started).
Definition sample_world : world := spawn sample_owner (retry_pass (sample_opts sample_owner) sample_owner) sample_minted.

Definition started (w : world) : bool := match w_minters w !! sample_owner with Some m => mn_started m && mn_alive m | None => false end.
Lemma started_minter w : started w = true → ∃ m, w_minters w !! sample_owner = Some m ∧ mn_started m = true ∧ mn_alive m = true.
Proof. unfold started. destruct (w_minters w !! sample_owner) as [m|]; [|done]. intros [? ?]%andb_true_iff. by exists m. Qed.

Local Abbreviation sample_reach := (reachable sample_db sample_clock sample_opts).
Lemma boot_reachable w : w_minters w !! sample_owner = None → sample_reach w → sample_reach (boot sample_opts sample_owner w).
Proof. intros Hn Hw. exact (reach_step _ _ _ Boot w _ Hw (step_boot _ _ _ w sample_owner Hn)). Qed.
Lemma spawn_reachable p w : started w = true → operation sample_opts sample_owner p → sample_reach w → sample_reach (spawn sample_owner p w).
Proof.
  intros (m & Hm & H1 & H2)%started_minter Hop Hw. exact (reach_step _ _ _ Spawn w _ Hw (step_spawn _ _ _ w sample_owner m p Hm H1 H2 Hop)).
Qed.

Lemma sample_is_started : started sample_started = true.
Proof. vm_compute. reflexivity. Qed.
Lemma sample_still_started : started sample_minted = true.
Proof. vm_compute. reflexivity. Qed.
Lemma sample_started_reachable : sample_reach sample_started.
Proof. exact (run_thread_reachable _ _ _ 60 0 sample_outcome _ (boot_reachable (no_world 0) eq_refl (reach_start _ _ _ 0))). Qed.
Lemma sample_minted_reachable : sample_reach sample_minted.
Proof.
  exact (run_thread_reachable _ _ _ 60 1 sample_outcome _
           (spawn_reachable _ _ sample_is_started (op_mint _ _ sample_scope (Some sample_service)) sample_started_reachable)).
Qed.
Lemma sample_reachable : sample_reach sample_world.
Proof. exact (spawn_reachable _ _ sample_still_started (op_retry _ _) sample_minted_reachable). Qed.

Lemma sample_db_mono t t' : t <= t' → sample_db t <= sample_db t'.
Proof. intros Ht. apply Z.div_le_mono; [unfold Millisecond; lia|done]. Qed.
Lemma sample_drift (r : bytes) t0 t : t0 <= t →
  (sample_db t - sample_db t0) * Millisecond <= Z.max (it_mono (sample_clock r t) - it_mono (sample_clock r t0)) (it_wall (sample_clock r t) - it_wall (sample_clock r t0)) + Millisecond.
Proof. intros _. cbn. unfold sample_db, Millisecond. Z.to_euclidean_division_equations. lia. Qed.
Lemma sample_gap r : op_FenceAfter (sample_opts r) + Millisecond + Millisecond <= op_OwnerTTL (sample_opts r) ∧ op_FenceAfter (sample_opts r) <= max_int64.
Proof. vm_compute. split; discriminate. Qed.
Definition has_authority (w : world) (r : bytes) : bool :=
  match w_minters w !! r with
  | Some m => mn_alive m && mn_started m && negb (mn_cancelled m) && (0 <? until (sample_opts r) (sample_clock r (w_time w)) (mn_lastRenew m))
  | None => false
  end.
Lemma has_authority_ok w r : has_authority w r = true → LeaseFleet.authorised sample_clock sample_opts w r.
Proof.
  unfold has_authority. destruct (w_minters w !! r) as [m|] eqn:Hm; [|done]. intros [[[? ?]%andb_true_iff ?%negb_true_iff]%andb_true_iff ?%Z.ltb_lt]%andb_true_iff.
  by exists m.
Qed.
Lemma sample_authorised : LeaseFleet.authorised sample_clock sample_opts sample_world sample_owner.
Proof. apply has_authority_ok. vm_compute. reflexivity. Qed.

Lemma sample_in_force : sample_lease ∈ v_live (w_vault sample_world).
Proof. apply (bool_decide_unpack _). vm_compute. reflexivity. Qed.
Definition owned_by (w : world) (a r : bytes) : bool := match tb_cleanup (w_tables w) !! a with Some d => bool_decide (dc_owner d = r) | None => false end.
Lemma sample_recorded : ∃ d, tb_cleanup (w_tables sample_world) !! #"acc-1" = Some d ∧ dc_owner d = sample_owner.
Proof.
  assert (owned_by sample_world #"acc-1" sample_owner = true) as E by (vm_compute; reflexivity). revert E. unfold owned_by.
  destruct (tb_cleanup _ !! _) as [d|]; [|discriminate]. intros Ho%bool_decide_eq_true. exists d. split; [reflexivity|exact Ho].
Qed.
Definition serves (w : world) (r l : bytes) : bool := match w_minters w !! r with Some m => bool_decide (is_Some (mn_active m !! l)) | None => false end.
Lemma sample_served : ∃ m d, w_minters sample_world !! sample_owner = Some m ∧ mn_active m !! sample_lease = Some d.
Proof.
  assert (serves sample_world sample_owner sample_lease = true) as E by (vm_compute; reflexivity). revert E. unfold serves.
  destruct (w_minters _ !! _) as [m|]; [|discriminate]. intros [d Hd]%bool_decide_eq_true. exists m, d. split; [reflexivity|exact Hd].
Qed.

(** Whether the thread's next call is possible. *)
Definition can_act (tid : nat) (w : world) : bool :=
  match w_threads w !! tid with
  | Some (r, p) => bool_decide (r = sample_owner) && match advance sample_db sample_clock r tid p sample_outcome w with Some _ => true | None => false end
  | None => false
  end.
Lemma can_act_step tid w : can_act tid w = true → ∃ w', LeaseFleet.step sample_db sample_clock sample_opts (Act sample_owner) w w'.
Proof.
  unfold can_act. destruct (w_threads w !! tid) as [[r p]|] eqn:Et; [|done]. intros [->%bool_decide_eq_true Ha]%andb_true_iff.
  destruct (advance _ _ _ _ _ _ _) as [[w' p']|] eqn:Ea; [|done]. eexists. by apply (step_act _ _ _ _ _ tid p sample_outcome w' p').
Qed.
Lemma sample_step : ∃ w', LeaseFleet.step sample_db sample_clock sample_opts (Act sample_owner) sample_world w'.
Proof. apply (can_act_step 2). vm_compute. reflexivity. Qed.

Lemma credential_recorded_witness : sample_lease ∈ v_live (w_vault sample_world) ∧
  ∃ a d, v_leases (w_vault sample_world) !! sample_lease = Some a ∧ tb_cleanup (w_tables sample_world) !! a = Some d ∧
    (dc_evidence d ≠ [] ∨ dc_LeaseID d = [] ∨ dc_LeaseID d = sample_lease).
Proof. exact (conj sample_in_force (credential_recorded sample_db sample_clock sample_opts sample_db_mono sample_world sample_lease sample_reachable sample_in_force)). Defined.

Lemma authority_keeps_records_witness : ∃ d, tb_cleanup (fst (ClaimOrphanedDatabaseCleanup (sample_db (w_time sample_world)) #"broker-1/11" (w_tables sample_world))) !! #"acc-1" = Some d.
Proof.
  destruct sample_recorded as (d & Hd & Ho). exists d.
  exact (authority_keeps_records sample_db sample_clock sample_opts sample_db_mono Millisecond sample_drift sample_gap sample_world sample_owner _ _ d
           sample_reachable sample_authorised Hd Ho).
Defined.

Lemma live_credential_kept_witness : ∃ w', LeaseFleet.step sample_db sample_clock sample_opts (Act sample_owner) sample_world w' ∧ sample_lease ∈ v_live (w_vault w').
Proof.
  destruct sample_served as (m & d & Hm & Hd), sample_step as (w' & Hs). exists w'. split; [exact Hs|].
  exact (live_credential_kept sample_db sample_clock sample_opts sample_db_mono Millisecond sample_drift sample_gap sample_world w' sample_owner m sample_lease d sample_owner
              sample_reachable sample_authorised Hm Hd sample_in_force Hs).
Defined.
