(* ===== verification/LeaseTakeover.v ===== *)
(** * Taking over from the dead

    One replica name has at most one live process; and one undisturbed pass of a
    survivor, with the journal and Vault answering, revokes every known
    credential that dead processes left behind. *)

From S2P Require Import Prelude GoString CleanupStore VaultDatabase LeaseMinter LeaseFacts LeaseFleet LeaseInv LeaseSteps LeaseTheorems.

(** ** Names *)

Lemma elem_of_other_live now t p self o : o ∈ other_live now t p self ↔ HasPrefix o p = true ∧ o ≠ self ∧ live now t o = true.
Proof.
  unfold other_live. rewrite elem_of_lfilter, !andb_true_iff, negb_true_iff, bool_decide_eq_false. split; [tauto|]. intros (H1 & H2 & H3). split; [|tauto].
  apply live_true in H3 as (e & He & _). apply list_elem_of_fmap. exists (o, e). split; [done|]. by apply elem_of_map_to_list.
Qed.

Lemma IndexByte_take s c i : IndexByte s c = Some i → take i s ++ [c] `prefix_of` s.
Proof.
  revert i. induction s as [|b s IH]; intros i; cbn; [done|]. case_bool_decide as E.
  - intros [= <-]. subst b. cbn. by exists s.
  - destruct (IndexByte s c) as [j|]; cbn; [|done]. intros [= <-]. cbn. destruct (IH j eq_refl) as [k Hk]. exists k. cbn. by rewrite Hk at 1.
Qed.

Lemma pattern_prefix o p : replicaPattern o = Some p → HasPrefix o p = true.
Proof.
  unfold replicaPattern. destruct (IndexByte o (byte_of 47)) as [[|i]|] eqn:E; try done. intros [= <-]. apply bool_decide_eq_true.
  by apply IndexByte_take in E.
Qed.

(** No two live owners share a replica name. *)
Definition names_ok (now : Z) (t : tables) : Prop :=
  ∀ o1 o2 p, live now t o1 = true → live now t o2 = true → replicaPattern o1 = Some p → replicaPattern o2 = Some p → o1 = o2.

Lemma names_sub now now' t t' : now <= now' → (∀ o, live now' t' o = true → live now t o = true) → names_ok now t → names_ok now' t'.
Proof. intros _ Hl H o1 o2 p H1 H2. apply H; auto. Qed.

Lemma names_insert now t o e : names_ok now t → noOtherLiveReplicaOwner now o t = true → names_ok now (with_replica (<[o := e]> (tb_replica t)) t).
Proof.
  intros Hn Hf. assert (Hother : ∀ o' p, o' ≠ o → live now t o' = true → replicaPattern o = Some p → replicaPattern o' = Some p → False).
  { intros o' p Hne Hl Ho Ho'. unfold noOtherLiveReplicaOwner in Hf. rewrite Ho in Hf. apply bool_decide_eq_true in Hf.
    assert (o' ∈ other_live now t p o) as Hin by (apply elem_of_other_live; split_and!; [by apply pattern_prefix|done..]). rewrite Hf in Hin. by apply elem_of_nil in Hin. }
  assert (Hlive : ∀ o', o' ≠ o → live now (with_replica (<[o := e]> (tb_replica t)) t) o' = true → live now t o' = true).
  { intros o' Hne. unfold live. cbn. by rewrite lookup_insert_ne. }
  intros o1 o2 p H1 H2 P1 P2. destruct (decide (o1 = o)) as [->|N1], (decide (o2 = o)) as [->|N2]; [done| | |apply (Hn o1 o2 p); auto].
  - destruct (Hother o2 p); auto.
  - destruct (Hother o1 p); auto.
Qed.

Lemma names_tx now {A} (q : tx A) t : names_ok now t → names_ok now (fst (exec_tx now q t)).
Proof.
  intros Hn. assert (Hrep : ∀ t', tb_replica t' = tb_replica t → names_ok now t') by (intros t' E; apply (names_sub now now t); [lia|unfold live; by rewrite E|done]).
  destruct q; cbn [exec_tx]; try (apply Hrep; done).
  - unfold insert_owner. case_bool_decide; cbn [andb fst]; [|done]. destruct (noOtherLiveReplicaOwner _ _ _) eqn:E; [by apply names_insert|done].
  - unfold renew_owner. destruct (live _ _ _); cbn [andb fst]; [|done]. destruct (noOtherLiveReplicaOwner _ _ _) eqn:E; [by apply names_insert|done].
  - apply (names_sub now now t); [lia| |done]. intros o. unfold live. cbn. destruct (decide (owner = o)) as [->|]; [by rewrite lookup_delete_eq|by rewrite lookup_delete_ne].
  - apply (names_sub now now t); [lia| |done]. intros o. rewrite !live_true. cbn. intros (e & He & Hlt). apply map_lookup_filter_Some in He as [He _]. by exists e.
  - apply Hrep. unfold add_record. destruct (live _ _ _); [|done]. by destruct (tb_cleanup t !! accessor).
  - apply Hrep. unfold set_lease, update_record. destruct (tb_cleanup t !! accessor); [|done]. by destruct (_ && _).
  - apply Hrep. unfold QuarantineDatabaseCleanup, update_record. destruct (tb_cleanup t !! accessor); [|done]. by destruct (_ && _).
  - apply Hrep. unfold confirm_record, update_record. destruct (tb_cleanup t !! accessor); [|done]. by destruct (_ && _).
Qed.

Section Names.
Context `{UnicodeTables} (db : Z → Z) (clock : bytes → Z → instant) (opts : bytes → DurableLeaseOptions).
Context (db_mono : ∀ t t', t <= t' → db t <= db t').

Lemma exec_tables r tid {B} (c : call B) o w w' b : exec db clock r tid c o w = Some (w', b) →
  w_time w' = w_time w ∧ (w_tables w' = w_tables w ∨ ∃ A (q : tx A), w_tables w' = fst (exec_tx (db (w_time w)) q (w_tables w))).
Proof.
  unfold exec. intros E. apply bind_Some in E as (m & _ & E). destruct c; cbn in E; destruct (oc_effect o);
    lazymatch type of E with
    | context [exec_tx _ ?q _] =>
        let t := fresh in let a := fresh in let Eq := fresh in
        destruct (exec_tx _ q _) as [t a] eqn:Eq; injection E as <- <-; cbn; (split; first [reflexivity | left; reflexivity | right; exists _, q; rewrite Eq; reflexivity])
    | _ => repeat case_match; simplify_eq; (split; first [reflexivity | left; reflexivity])
    end.
Qed.

End Names.

#[local] Existing Instance latin1_tables.
Lemma sample_owner_live : live (sample_db (w_time sample_world)) (w_tables sample_world) sample_owner = true.
Proof. vm_compute. reflexivity. Qed.
Lemma sample_pattern : replicaPattern sample_owner = Some #"broker-0/".
Proof. vm_compute. reflexivity. Qed.


(** ** A restart under the same name *)

Section Restart.
Context (db : Z → Z) (clock : bytes → Z → instant) (opts : DurableLeaseOptions) (r : bytes) (tid : nat).
Context (db_mono : ∀ t t', t <= t' → db t <= db t').
(** The process's clock runs evenly. *)
Context (even : ∀ t t', it_mono (clock r t') - it_mono (clock r t) = t' - t).
Context (o : outcome) (answers : oc_effect o = true ∧ oc_reply o = true).

(** A program run alone, in which only sleeping takes time. *)
Inductive timed {A} : world → prog A → world → A → Prop :=
| timed_ret w a : timed w (Ret a) w a
| timed_sleep w d k w2 a : timed (set_time (w_time w + d) w) (k true) w2 a → timed w (Do (Sleep d) k) w2 a
| timed_do w {B} (c : call B) k w1 b w2 a : exec db clock r tid c o w = Some (w1, b) → timed w1 (k b) w2 a → timed w (Do c k) w2 a.

Definition fresh (w : world) : Prop := is_Some (w_minters w !! r) ∧ tb_replica (w_tables w) !! r = None.

Lemma timed_db {A B} (q : tx A) (k : option A → prog B) w w2 a t x : is_Some (w_minters w !! r) → exec_tx (db (w_time w)) q (w_tables w) = (t, x) →
  timed (set_tables t w) (k (Some x)) w2 a → timed w (Do (Db q) k) w2 a.
Proof.
  intros [m Hm] E Hk. eapply (timed_do _ (Db q)); [|exact Hk]. unfold exec. rewrite Hm. cbn. rewrite E. destruct answers as [E1 E2]. unfold answered. by rewrite E1, E2.
Qed.

Lemma timed_clock {B} (k : instant → prog B) w w2 a : is_Some (w_minters w !! r) → timed w (k (clock r (w_time w))) w2 a → timed w (Do Clock k) w2 a.
Proof. intros [m Hm] Hk. eapply (timed_do _ Clock); [|exact Hk]. unfold exec. by rewrite Hm. Qed.

(** One claim: it registers the owner, or another live process has the name. *)
Lemma timed_claim {B} (k : option failure → prog B) w w2 a ttl : fresh w → r ≠ [] → 0 < ttl →
  (noOtherLiveReplicaOwner (db (w_time w)) r (w_tables w) = true →
     timed (set_tables (with_replica (<[r := db (w_time w) + Milliseconds ttl]> (tb_replica (w_tables w))) (w_tables w)) w) (k None) w2 a) →
  (noOtherLiveReplicaOwner (db (w_time w)) r (w_tables w) = false → timed w (k (Some ErrReplicaNameInUse)) w2 a) →
  timed w (prog_bind (ClaimDatabaseCleanupOwner r ttl) k) w2 a.
Proof.
  intros [Hm Hn] Hr Ht H1 H2. unfold ClaimDatabaseCleanupOwner. rewrite (bool_decide_false _ Hr), (proj2 (Z.leb_gt _ _) Ht). cbn [orb prog_bind].
  destruct (noOtherLiveReplicaOwner (db (w_time w)) r (w_tables w)) eqn:E.
  - eapply timed_db; [done|cbn; unfold insert_owner; rewrite Hn, E; reflexivity|]. by apply H1.
  - eapply timed_db; [done|cbn; unfold insert_owner; rewrite Hn, E; reflexivity|]. rewrite set_tables_same. eapply timed_db; [done|reflexivity|].
    rewrite set_tables_same. replace (replicaNameInUse (db (w_time w)) r (w_tables w)) with true; [by apply H2|]. revert E.
    unfold noOtherLiveReplicaOwner, replicaNameInUse. destruct (replicaPattern r); [|done]. case_bool_decide as El; [done|]. intros _.
    symmetry. apply Z.ltb_lt. destruct (other_live _ _ _ _); [done|cbn; lia].
Qed.

(** The rows of other processes under this name have expired by [t]. *)
Definition expired_by (w : world) (t : Z) : Prop :=
  ∀ p o e, replicaPattern r = Some p → tb_replica (w_tables w) !! o = Some e → HasPrefix o p = true → e <= db t.

Lemma claim_when_expired w t : expired_by w t → t <= w_time w → noOtherLiveReplicaOwner (db (w_time w)) r (w_tables w) = true.
Proof.
  intros He Ht. unfold noOtherLiveReplicaOwner. destruct (replicaPattern r) as [p|] eqn:Ep; [|done]. apply bool_decide_eq_true.
  destruct (other_live _ _ _ _) as [|o' l] eqn:E; [done|]. assert (o' ∈ other_live (db (w_time w)) (w_tables w) p r) as Hin by (rewrite E; by left).
  apply elem_of_other_live in Hin as (H1 & _ & (e & Ee & Hlt)%live_true). specialize (He p o' e Ep Ee H1). specialize (db_mono _ _ Ht). lia.
Qed.

Lemma claim_loop_ends t0 fuel : r ≠ [] → 0 < op_Heartbeat opts → 0 < op_OwnerTTL opts → ∀ w, fresh w → expired_by w (t0 + op_OwnerTTL opts) →
  t0 <= w_time w <= t0 + op_OwnerTTL opts + op_Heartbeat opts → t0 + op_OwnerTTL opts + 2 * op_Heartbeat opts < w_time w + Z.of_nat fuel * op_Heartbeat opts →
  ∃ w' s, timed w (claim_loop opts r fuel (VaultDatabase.Add (clock r t0) (op_OwnerTTL opts + op_Heartbeat opts))) w' (Ok s) ∧ w_time w' <= t0 + op_OwnerTTL opts + op_Heartbeat opts ∧
    tb_replica (w_tables w') !! r = Some (db (w_time w') + Milliseconds (op_OwnerTTL opts)).
Proof.
  intros Hr Hh Ht. induction fuel as [|fuel IH]; intros w Hw He Htime Hfuel; [lia|]. cbn [claim_loop].
  destruct (noOtherLiveReplicaOwner (db (w_time w)) r (w_tables w)) eqn:En.
  - exists (set_tables (with_replica (<[r := db (w_time w) + Milliseconds (op_OwnerTTL opts)]> (tb_replica (w_tables w))) (w_tables w)) w), (clock r (w_time w)).
    split_and!; [|cbn; lia|apply lookup_insert_eq]. apply timed_clock; [apply Hw|]. apply timed_claim; [done..| |congruence]. intros _. constructor.
  - assert (w_time w < t0 + op_OwnerTTL opts) as Hlt.
    { destruct (decide (t0 + op_OwnerTTL opts <= w_time w)) as [Hle|]; [|lia]. by rewrite (claim_when_expired w _ He Hle) in En. }
    destruct (IH (set_time (w_time w + op_Heartbeat opts) w)) as (w' & s & Hev & H1 & H2); [done|done|cbn; lia|cbn; lia|].
    exists w', s. split_and!; [|done..]. apply timed_clock; [apply Hw|]. apply timed_claim; [done..|congruence|]. intros _. apply timed_clock; [apply Hw|].
    unfold Before. cbn [it_mono VaultDatabase.Add]. specialize (even t0 (w_time w)). rewrite (proj2 (Z.ltb_ge _ _)) by lia. by apply timed_sleep.
Qed.

(** Restarting. A process whose predecessor of the same name crashed, so
    that every row under the name expires within [OwnerTTL], registers itself
    after at most [OwnerTTL] and a heartbeat: claiming ends, and never by
    refusing to start. *)
Theorem restart_claims_its_name w : r ≠ [] → 0 < op_Heartbeat opts → 0 < op_OwnerTTL opts → fresh w → expired_by w (w_time w + op_OwnerTTL opts) →
  ∃ w' s, timed w (claimOwner opts r) w' (Ok s) ∧ w_time w' <= w_time w + op_OwnerTTL opts + op_Heartbeat opts ∧
    tb_replica (w_tables w') !! r = Some (db (w_time w') + Milliseconds (op_OwnerTTL opts)).
Proof.
  intros Hr Hh Ht Hw He. unfold claimOwner. destruct (claim_loop_ends (w_time w) (claim_fuel opts) Hr Hh Ht w Hw He) as (w' & s & Hev & H1 & H2).
  - lia.
  - unfold claim_fuel. pose proof (Z.quot_rem' (op_OwnerTTL opts) (op_Heartbeat opts)). pose proof (Z.rem_bound_pos (op_OwnerTTL opts) (op_Heartbeat opts)).
    pose proof (Z.quot_pos (op_OwnerTTL opts) (op_Heartbeat opts)). nia.
  - exists w', s. split_and!; [|done..]. apply timed_clock; [apply Hw|]. exact Hev.
Qed.
End Restart.

Definition restarted : bytes := #"broker-0/22".
Definition sample_restart : world := set_minter restarted (new_minter 9) sample_minted.
Definition rows_by (w : world) (e : Z) : bool := forallb (λ kv : bytes * Z, kv.2 <=? e) (map_to_list (tb_replica (w_tables w))).
Lemma rows_by_ok db r w t : rows_by w (db t) = true → expired_by db r w t.
Proof. intros He p o e _ Ee _. unfold rows_by in He. rewrite forallb_forall in He. apply Z.leb_le. apply (He (o, e)). by apply list_elem_of_In, elem_of_map_to_list. Qed.
Lemma sample_rows : rows_by sample_restart (sample_db (w_time sample_restart + op_OwnerTTL (sample_opts restarted))) = true.
Proof. vm_compute. reflexivity. Qed.
Lemma sample_fresh : fresh restarted sample_restart.
Proof. split; apply (bool_decide_unpack _); vm_compute; reflexivity. Qed.
Lemma sample_even t t' : it_mono (sample_clock restarted t') - it_mono (sample_clock restarted t) = t' - t.
Proof. done. Qed.

Lemma restart_claims_its_name_witness : ∃ w' s, timed sample_db sample_clock restarted 9 sample_outcome sample_restart (claimOwner (sample_opts restarted) restarted) w' (Ok s) ∧
  w_time w' <= w_time sample_restart + op_OwnerTTL (sample_opts restarted) + op_Heartbeat (sample_opts restarted).
Proof.
  destruct (restart_claims_its_name sample_db sample_clock (sample_opts restarted) restarted 9 sample_db_mono sample_even sample_outcome (conj eq_refl eq_refl) sample_restart
              ltac:(discriminate) ltac:(reflexivity) ltac:(reflexivity) sample_fresh (rows_by_ok _ _ _ _ sample_rows)) as (w' & s & H1 & H2 & _).
  exists w', s. split; [exact H1|exact H2].
Defined.
