(* ===== verification/LeaseLiveness.v ===== *)
(** * Cleanup gets done

    One undisturbed pass of a process that holds its row, with the journal and
    Vault answering, revokes and forgets every known credential of its own
    retired sessions and of dead processes. *)

From S2P Require Import Prelude GoString CleanupStore VaultDatabase LeaseMinter LeaseFacts LeaseFleet LeaseInv LeaseSteps LeaseTheorems.

Section Liveness.
Context `{UnicodeTables} (db : Z → Z) (clock : bytes → Z → instant) (opts : bytes → DurableLeaseOptions).
Local Abbreviation exec := (LeaseFleet.exec db clock).
Local Abbreviation step := (LeaseFleet.step db clock opts).

Section Thread.
Context (r : bytes) (tid : nat).

(** A program run to its end without interruption. *)
Inductive eval {A} : world → prog A → world → A → Prop :=
| eval_ret w a : eval w (Ret a) w a
| eval_do w {B} (c : call B) k o w1 b w2 a : exec r tid c o w = Some (w1, b) → eval w1 (k b) w2 a → eval w (Do c k) w2 a.

Lemma eval_bind {A B} (p : prog A) (f : A → prog B) w w1 a w2 b : eval w p w1 a → eval w1 (f a) w2 b → eval w (prog_bind p f) w2 b.
Proof. induction 1 as [w a|w C c k o w0 x w1 a E _ IH]; intros Hf; cbn; [done|]. eapply eval_do; eauto. Qed.

Lemma exec_set_threads {B} (c : call B) o w ts n :
  exec r tid c o (set_threads ts n w) = (λ '(w', b), (set_threads ts n w', b)) <$> exec r tid c o w.
Proof.
  unfold LeaseFleet.exec. cbn [w_minters set_threads]. destruct (w_minters w !! r) as [m|]; [|done]. cbn.
  destruct c; cbn; try done; repeat case_match; try done; simplify_eq; done.
Qed.

Lemma eval_steps w (p : prog unit) w2 a : eval w p w2 a → ∀ ts, ts !! tid = Some (r, p) →
  rtc (step (Act r)) (set_threads ts (w_next w) w) (set_threads (<[tid := (r, Ret a)]> ts) (w_next w2) w2).
Proof.
  induction 1 as [w a|w B c k o w1 b w2 a E _ IH]; intros ts Ht; [by rewrite insert_id|].
  pose proof (exec_threads db clock r tid c o w w1 b E) as [_ En]. eapply rtc_l.
  - apply (step_act _ _ _ _ r tid (Do c k) o (set_threads ts (w_next w) w1) (k b)); [done|]. cbn [advance]. rewrite exec_set_threads, E. done.
  - specialize (IH (<[tid := (r, k b)]> ts)). rewrite lookup_insert_eq, insert_insert_eq in IH. specialize (IH eq_refl). rewrite En in IH. exact IH.
Qed.

Definition quiet : outcome :=
  {| oc_effect := true; oc_reply := true; oc_lease := []; oc_session := {| ds_Accessor := []; ds_ExpiresAt := {| it_mono := 0; it_wall := 0 |} |};
     oc_secret := {| sec_LeaseID := []; sec_username := []; sec_password := []; sec_LeaseDuration := 0; sec_Renewable := false |};
     oc_lookup := InvalidLease; oc_ttl := None |}.

(** What cleaning up may change. *)
Record cleaned (w w' : world) : Prop := {
  cl_time : w_time w' = w_time w;
  cl_rows : tb_replica (w_tables w') = tb_replica (w_tables w);
  cl_minters : w_minters w' = w_minters w;
  cl_rec : ∀ a, rec w a = None → rec w' a = None;
  cl_live : ∀ l, liv w' l → liv w l;
}.

Lemma cleaned_refl w : cleaned w w.
Proof. by split. Qed.
Lemma cleaned_trans w1 w2 w3 : cleaned w1 w2 → cleaned w2 w3 → cleaned w1 w3.
Proof. intros [] []. split; auto; congruence. Qed.

Definition holds_row (w : world) : Prop := is_Some (w_minters w !! r) ∧ live (db (w_time w)) (w_tables w) r = true.
Lemma cleaned_row w w' : cleaned w w' → holds_row w → holds_row w'.
Proof. intros [E1 E2 E3 _ _] [H1 H2]. split; [by rewrite E3|]. unfold live in *. by rewrite E1, E2. Qed.

Lemma eval_db {A B} (q : tx A) (k : option A → prog B) w w2 a t x : is_Some (w_minters w !! r) → exec_tx (db (w_time w)) q (w_tables w) = (t, x) →
  eval (set_tables t w) (k (Some x)) w2 a → eval w (Do (Db q) k) w2 a.
Proof. intros [m Hm] E Hk. eapply (eval_do _ (Db q) k quiet); [|exact Hk]. unfold LeaseFleet.exec. by rewrite Hm; cbn; rewrite E. Qed.

Lemma eval_check w : holds_row w → eval w (CheckDatabaseCleanupOwner r) w None.
Proof. intros [Hm Hl]. eapply eval_db; [done|reflexivity|]. rewrite set_tables_same, Hl. constructor. Qed.

Lemma eval_confirmed w l : is_Some (w_minters w !! r) → l ≠ [] → path_segments l = true →
  eval w (RevokeDatabaseLeaseConfirmed l) (set_vault (end_leases {[l]} (w_vault w)) w) true.
Proof.
  intros [m Hm] Hl Hp. unfold RevokeDatabaseLeaseConfirmed. rewrite (bool_decide_false _ Hl), Hp. cbn [negb orb].
  eapply (eval_do _ _ _ quiet); [unfold LeaseFleet.exec; rewrite Hm; reflexivity|]. cbn [oc_reply quiet oc_effect].
  set (w1 := set_vault _ w). assert (exec r tid (VaultLookup l) quiet w1 = Some (w1, InvalidLease)) as E.
  { assert (l ∉ v_live (w_vault w1)) as Hn by (unfold w1; cbn [w_vault set_vault v_live end_leases]; rewrite elem_of_difference, elem_of_singleton; tauto).
    unfold LeaseFleet.exec. replace (w_minters w1) with (w_minters w) by done. rewrite Hm. cbn [mbind option_bind oc_lookup quiet].
    rewrite (bool_decide_false _ Hn), andb_false_r. done. }
  eapply (eval_do _ _ _ quiet); [exact E|]. rewrite bool_decide_true by done. constructor.
Qed.

Lemma cleaned_quarantine w a : cleaned w (set_tables (QuarantineDatabaseCleanup r a (w_tables w)) w).
Proof.
  unfold QuarantineDatabaseCleanup, update_record. destruct (tb_cleanup (w_tables w) !! a) as [d|] eqn:Ed; [|cbn [fst]; rewrite set_tables_same; apply cleaned_refl].
  destruct (_ && _); cbn [fst]; [|rewrite set_tables_same; apply cleaned_refl]. split; try done. intros a' Ha. unfold rec in *. cbn. rewrite lookup_insert_ne; [done|]. intros <-. congruence.
Qed.

Lemma cleaned_delete w a l : let w' := set_vault (end_leases {[l]} (w_vault w)) w in cleaned w (set_tables (DeleteDatabaseCleanup a (w_tables w')) w').
Proof.
  split; try done; cbn.
  - intros a' Ha. unfold rec in *. cbn. destruct (decide (a = a')) as [->|]; [by rewrite lookup_delete_eq|by rewrite lookup_delete_ne].
  - intros l' Hl'. unfold liv in *. cbn in Hl'. apply elem_of_difference in Hl'. tauto.
Qed.

Definition gone (w : world) (a l : bytes) : Prop := rec w a = None ∧ ¬ liv w l.
Lemma cleaned_gone w w' a l : cleaned w w' → gone w a l → gone w' a l.
Proof. intros C [H1 H2]. split; [by apply (cl_rec _ _ C)|]. intros Hl. by apply H2, (cl_live _ _ C). Qed.

Lemma eval_record w a d : holds_row w → dc_LeaseID d = [] ∨ path_segments (dc_LeaseID d) = true →
  ∃ w' b, eval w (reconcile_record r a d) w' b ∧ cleaned w w' ∧ (dc_LeaseID d ≠ [] → gone w' a (dc_LeaseID d)).
Proof.
  intros [Hm Hl] Hd. unfold reconcile_record. case_bool_decide as E.
  - exists (set_tables (QuarantineDatabaseCleanup r a (w_tables w)) w), true. split_and!; [|apply cleaned_quarantine|done]. eapply eval_db; [done|reflexivity|constructor].
  - destruct Hd as [?|Hp]; [done|]. set (w1 := set_vault (end_leases {[dc_LeaseID d]} (w_vault w)) w).
    exists (set_tables (DeleteDatabaseCleanup a (w_tables w1)) w1), false. split_and!; [|apply cleaned_delete|].
    + eapply eval_bind; [by apply eval_confirmed|]. cbn beta iota. eapply eval_db; [done|reflexivity|constructor].
    + intros _. split; [unfold rec; cbn; apply lookup_delete_eq|]. unfold liv. cbn. rewrite elem_of_difference, elem_of_singleton. tauto.
Qed.

Lemma eval_records active records : ∀ w failed, holds_row w → (∀ a d, (a, d) ∈ records → dc_LeaseID d = [] ∨ path_segments (dc_LeaseID d) = true) →
  ∃ w' b, eval w (reconcile_records r [] active records failed) w' (Ok b) ∧ cleaned w w' ∧
    ∀ a d, (a, d) ∈ records → a ∉ active → dc_LeaseID d ≠ [] → gone w' a (dc_LeaseID d).
Proof.
  induction records as [|[a d] records IH]; intros w failed Hr Hp; cbn [reconcile_records].
  - exists w, failed. split_and!; [constructor|apply cleaned_refl|]. intros a d []%elem_of_nil.
  - setoid_rewrite elem_of_cons in Hp. rewrite (bool_decide_true ([] = [])) by done. cbn [negb andb]. rewrite orb_false_r. case_bool_decide as Ea.
    + destruct (IH w failed Hr) as (w' & b & Hev & Hc & Hg); [eauto|]. exists w', b. split_and!; [done..|]. intros a' d' [[= -> ->]|Hin]%elem_of_cons Ha; [done|eauto].
    + destruct (eval_record w a d Hr) as (w1 & f & Hev1 & Hc1 & Hg1); [eauto|]. destruct (IH w1 (f || failed)) as (w' & b & Hev & Hc & Hg); [by apply (cleaned_row w)|eauto|].
      exists w', b. split_and!; [|by apply (cleaned_trans _ w1)|].
      * eapply eval_bind; [by apply eval_check|]. cbn beta iota. eapply eval_bind; done.
      * intros a' d' [[= -> ->]|Hin]%elem_of_cons Ha Hne; [|eauto]. apply (cleaned_gone w1); auto.
Qed.

Lemma eval_reconcile w m : holds_row w → w_minters w !! r = Some m →
  (∀ a d, rec w a = Some d → dc_LeaseID d = [] ∨ path_segments (dc_LeaseID d) = true) →
  ∃ w' e, eval w (reconcile r []) w' e ∧ cleaned w w' ∧
    ∀ a d, rec w a = Some d → dc_evidence d = [] → dc_owner d = r → (∀ l x, mn_active m !! l = Some x → dl_accessor x ≠ a) → dc_LeaseID d ≠ [] → gone w' a (dc_LeaseID d).
Proof.
  intros Hr Hm Hp. set (records := ListOwnedDatabaseCleanup r (w_tables w)). set (active := map (λ kv, dl_accessor kv.2) (map_to_list (mn_active m))).
  destruct (eval_records active records w false Hr) as (w' & b & Hev & Hc & Hg).
  { intros a d [Hd _]%elem_of_owned. by apply (Hp a). }
  exists w', (if b then Some CleanupIncomplete else None). split_and!; [|done|].
  - unfold reconcile. eapply eval_bind; [by apply eval_check|]. cbn beta iota. eapply eval_db; [by eexists|reflexivity|]. rewrite set_tables_same.
    eapply (eval_do _ _ _ quiet); [unfold LeaseFleet.exec; rewrite Hm; reflexivity|]. eapply eval_bind; [exact Hev|]. destruct b; [constructor|].
    rewrite bool_decide_true by done. constructor.
  - intros a d Hd He Ho Ha Hne. apply (Hg a d); [by apply elem_of_owned| |done]. unfold active. intros ((l & x) & -> & Hx)%list_elem_of_fmap.
    apply elem_of_map_to_list in Hx. by apply (Ha l x).
Qed.

Lemma eval_until w m : w_minters w !! r = Some m → eval w (untilFence (opts r)) w (until (opts r) (clock r (w_time w)) (mn_lastRenew m)).
Proof.
  intros Hm. unfold untilFence. eapply (eval_do _ _ _ quiet); [unfold LeaseFleet.exec; rewrite Hm; reflexivity|].
  eapply (eval_do _ _ _ quiet); [unfold LeaseFleet.exec; rewrite Hm; reflexivity|]. constructor.
Qed.

Lemma claim_rec w a d : rec w a = Some d → let t := fst (ClaimOrphanedDatabaseCleanup (db (w_time w)) r (w_tables w)) in
  live (db (w_time w)) (w_tables w) r = true → dc_evidence d = [] → dc_owner d = r ∨ live (db (w_time w)) (w_tables w) (dc_owner d) = false →
  ∃ d', tb_cleanup t !! a = Some d' ∧ dc_evidence d' = [] ∧ dc_owner d' = r ∧ dc_LeaseID d' = dc_LeaseID d.
Proof.
  intros Hd t Hl He Ho. unfold t. cbn. rewrite lookup_fmap. unfold rec in Hd. rewrite Hd. eexists. split; [done|]. unfold orphaned, unresolved. rewrite Hl, He. cbn [andb].
  rewrite (bool_decide_true ([] = [])) by done. rewrite andb_true_r. cbn [andb]. destruct Ho as [<-|Ho]; [rewrite Hl|rewrite Ho]; done.
Qed.

Lemma claim_live t now : live now t r = true → live now (fst (ClaimOrphanedDatabaseCleanup now r t)) r = true.
Proof. rewrite !live_true. intros (e & He & Hlt). exists e. split; [|done]. cbn. apply map_lookup_filter_Some. split; [done|]. cbn. lia. Qed.

End Thread.
End Liveness.

(** ** A survivor *)

#[local] Existing Instance latin1_tables.
Definition survivor : bytes := #"broker-1/11ee".

(** The first broker crashes while its credential is in force; a minute later
    another one starts and begins a pass. *)
Definition crash_after (r : bytes) (t : Z) (w : world) : world := set_time t (set_threads (crashed r (w_threads w)) (w_next w) w).
Definition sample_survivor : world :=
  run_thread sample_db sample_clock 60 2 sample_outcome (boot sample_opts survivor (crash_after sample_owner (60 * Second) sample_minted)).
Definition sample_pass : world := spawn survivor (retry_pass (sample_opts survivor) survivor) sample_survivor.

Definition path_ok (d : CleanupStore.DatabaseCleanup) : bool := bool_decide (dc_LeaseID d = []) || path_segments (dc_LeaseID d).
Definition ready_to_clean (w : world) (r a l : bytes) : bool :=
  match w_minters w !! r, tb_cleanup (w_tables w) !! a with
  | Some m, Some d =>
      bool_decide (mn_locked m = None) && bool_decide (map_to_list (mn_active m) = []) && (0 <? until (sample_opts r) (sample_clock r (w_time w)) (mn_lastRenew m)) &&
      live (sample_db (w_time w)) (w_tables w) r && forallb (λ kv, path_ok kv.2) (map_to_list (tb_cleanup (w_tables w))) &&
      bool_decide (dc_evidence d = []) && bool_decide (dc_LeaseID d = l) && negb (bool_decide (l = [])) &&
      (bool_decide (dc_owner d = r) || negb (live (sample_db (w_time w)) (w_tables w) (dc_owner d)))
  | _, _ => false
  end.

Lemma ready_to_clean_ok w r a l : ready_to_clean w r a l = true → ∃ m d, w_minters w !! r = Some m ∧ tb_cleanup (w_tables w) !! a = Some d ∧
  mn_locked m = None ∧ (∀ l x, mn_active m !! l = Some x → dl_accessor x ≠ a) ∧ 0 < until (sample_opts r) (sample_clock r (w_time w)) (mn_lastRenew m) ∧
  live (sample_db (w_time w)) (w_tables w) r = true ∧ (∀ a d, tb_cleanup (w_tables w) !! a = Some d → dc_LeaseID d = [] ∨ path_segments (dc_LeaseID d) = true) ∧
  dc_evidence d = [] ∧ dc_LeaseID d = l ∧ l ≠ [] ∧ (dc_owner d = r ∨ live (sample_db (w_time w)) (w_tables w) (dc_owner d) = false).
Proof.
  unfold ready_to_clean. destruct (w_minters w !! r) as [m|] eqn:Hm; [|done]. destruct (tb_cleanup (w_tables w) !! a) as [d|] eqn:Hd; [|done].
  rewrite !andb_true_iff, orb_true_iff, !negb_true_iff, !bool_decide_eq_true, bool_decide_eq_false. intros ((((((((H1 & H2) & H3) & H4) & H5) & H6) & H7) & H8) & H9).
  apply Z.ltb_lt in H3. exists m, d. split_and!; try done.
  - intros l' x Hx. apply elem_of_map_to_list in Hx. rewrite H2 in Hx. by apply elem_of_nil in Hx.
  - intros a' d' Hd'. rewrite forallb_forall in H5. specialize (H5 (a', d')). apply elem_of_map_to_list, list_elem_of_In, H5 in Hd'. unfold path_ok in Hd'.
    by apply orb_true_iff in Hd' as [Hd'%bool_decide_eq_true|Hd']; [left|right].
Qed.

Lemma sample_can_retry : ready_to_clean sample_pass survivor #"acc-1" sample_lease = true.
Proof. vm_compute. reflexivity. Qed.

Lemma sample_credential_in_force : sample_lease ∈ v_live (w_vault sample_pass).
Proof. apply (bool_decide_unpack _). vm_compute. reflexivity. Qed.

