(* ===== verification/VaultLogins.v ===== *)
(** * Logging in to Vault again ([internal/hashicorp/reauth.go],
      [database_session.go])

    A database session dies with the login that created it.  The client replaces
    its login on a schedule, or when Vault refuses a session, and keeps each
    older login until its last session has ended.  Logins are shared by pointer:
    they live in a heap.  Each operation of [loginSet] is one section under its
    lock; [step] interleaves them with Vault's answers. *)

From S2P Require Import Prelude GoString.

Record reauthOptions := { ro_interval : Z; ro_minSessionLifetime : Z; ro_mintGrace : Z }.
Definition defaultReauthOptions : reauthOptions :=
  {| ro_interval := 20 * Minute; ro_minSessionLifetime := 35 * Minute; ro_mintGrace := 2 * Minute |}.
Definition deniedReloginAfter : Z := Minute.

Record heldLogin := {
  hl_token : bytes;
  hl_issued : Z;
  hl_hardExpiry : Z;
  hl_ttl : Z;
  hl_renewedAt : Z;
  hl_pending : Z;
  hl_children : gmap bytes Z;
}.

Definition with_pending (n : Z) (l : heldLogin) : heldLogin :=
  {| hl_token := hl_token l; hl_issued := hl_issued l; hl_hardExpiry := hl_hardExpiry l; hl_ttl := hl_ttl l; hl_renewedAt := hl_renewedAt l; hl_pending := n; hl_children := hl_children l |}.
Definition with_children (c : gmap bytes Z) (l : heldLogin) : heldLogin :=
  {| hl_token := hl_token l; hl_issued := hl_issued l; hl_hardExpiry := hl_hardExpiry l; hl_ttl := hl_ttl l; hl_renewedAt := hl_renewedAt l; hl_pending := hl_pending l; hl_children := c |}.
Definition with_renewal (now ttl : Z) (l : heldLogin) : heldLogin :=
  {| hl_token := hl_token l; hl_issued := hl_issued l; hl_hardExpiry := hl_hardExpiry l; hl_ttl := ttl; hl_renewedAt := now; hl_pending := hl_pending l; hl_children := hl_children l |}.

Definition mintUntil (o : reauthOptions) (l : heldLogin) : Z :=
  let until := hl_issued l + (ro_interval o + ro_mintGrace o) in
  let last := hl_hardExpiry l - ro_minSessionLifetime o in
  let until := if last <? until then last else until in
  let renewal := hl_renewedAt l + Z.quot (hl_ttl l * 3) 4 in
  if renewal <? until then renewal else until.

(** A login just issued: [started] is taken before the request. *)
Definition new_login (token : bytes) (started maxTTL leaseDuration : Z) : heldLogin :=
  {| hl_token := token; hl_issued := started; hl_hardExpiry := started + maxTTL; hl_ttl := leaseDuration * Second; hl_renewedAt := started; hl_pending := 0; hl_children := ∅ |}.

(** ** The set of logins *)

Record loginSet := { ls_heap : gmap nat heldLogin; ls_current : option nat; ls_retired : list nat }.

Definition set_heap (h : gmap nat heldLogin) (s : loginSet) : loginSet := {| ls_heap := h; ls_current := ls_current s; ls_retired := ls_retired s |}.
Definition set_lists (c : option nat) (r : list nat) (s : loginSet) : loginSet := {| ls_heap := ls_heap s; ls_current := c; ls_retired := r |}.

Definition held (s : loginSet) : list nat := match ls_current s with Some c => c :: ls_retired s | None => ls_retired s end.

Definition empty (s : loginSet) (i : nat) : bool :=
  match ls_heap s !! i with Some l => bool_decide (hl_children l = ∅) && (hl_pending l =? 0) | None => false end.

(** [acquire]: the login a mint may use, which it reserves. *)
Definition acquire (o : reauthOptions) (now : Z) (s : loginSet) : option (nat * loginSet) :=
  i ← ls_current s; l ← ls_heap s !! i;
  if negb (now <? mintUntil o l) then None else Some (i, set_heap (<[i := with_pending (hl_pending l + 1) l]> (ls_heap s)) s).

(** The function [acquire] returns, run once. *)
Definition mint_done (i : nat) (accessor : bytes) (expiry : Z) (s : loginSet) : loginSet :=
  match ls_heap s !! i with
  | Some l =>
      let l := with_pending (hl_pending l - 1) l in
      set_heap (<[i := if bool_decide (accessor = []) then l else with_children (<[accessor := expiry]> (hl_children l)) l]> (ls_heap s)) s
  | None => s
  end.

Definition on_held (f : heldLogin → heldLogin) (s : loginSet) : gmap nat heldLogin := map_imap (λ i l, Some (if bool_decide (i ∈ held s) then f l else l)) (ls_heap s).

Definition forget (accessor : bytes) (s : loginSet) : loginSet := set_heap (on_held (λ l, with_children (delete accessor (hl_children l)) l) s) s.

Definition purge (now : Z) (l : heldLogin) : heldLogin := with_children (filter (λ kv, now < kv.2) (hl_children l)) l.
Definition purge_retired (now : Z) (s : loginSet) : loginSet :=
  set_heap (map_imap (λ i l, Some (if bool_decide (i ∈ ls_retired s) then purge now l else l)) (ls_heap s)) s.

Definition lapsed (now : Z) (s : loginSet) (i : nat) : bool := match ls_heap s !! i with Some l => negb (now <? hl_hardExpiry l) | None => true end.

(** [idle]: what remains and the logins to revoke. *)
Definition idle (now : Z) (s : loginSet) : loginSet * list nat :=
  let s := purge_retired now s in
  (set_lists (ls_current s) (List.filter (λ i, negb (lapsed now s i) && negb (empty s i)) (ls_retired s)) s,
   List.filter (λ i, negb (lapsed now s i) && empty s i) (ls_retired s)).

Definition requeue (i : nat) (s : loginSet) : loginSet := set_lists (ls_current s) (ls_retired s ++ [i]) s.

Definition drain (s : loginSet) : loginSet * list nat :=
  let out := List.filter (empty s) (ls_retired s) in
  let kept := List.filter (λ i, negb (empty s i)) (ls_retired s) in
  match ls_current s with
  | Some c => if empty s c then (set_lists None kept s, out ++ [c]) else (set_lists (Some c) kept s, out)
  | None => (set_lists None kept s, out)
  end.

Definition rotationDue (o : reauthOptions) (now : Z) (s : loginSet) : bool :=
  match ls_current s with
  | None => true
  | Some c => match ls_heap s !! c with Some l => negb (now <? hl_issued l + ro_interval o) | None => true end
  end.

(** [next] is new in the heap. *)
Definition rotate (i : nat) (next : heldLogin) (s : loginSet) : loginSet :=
  {| ls_heap := <[i := next]> (ls_heap s); ls_current := Some i; ls_retired := ls_retired s ++ match ls_current s with Some c => [c] | None => [] end |}.

Definition all (s : loginSet) : list nat := ls_retired s ++ match ls_current s with Some c => [c] | None => [] end.

Definition counts (s : loginSet) : Z * Z :=
  (Z.of_nat (length (ls_retired s)),
   foldr Z.add 0 (map (λ i, match ls_heap s !! i with Some l => Z.of_nat (size (hl_children l)) | None => 0 end) (held s))).

(** [renewLogin]: whether it is due, and the login renewed. *)
Definition renewal_due (now : Z) (l : heldLogin) : bool := negb (now <? hl_renewedAt l + Z.quot (hl_ttl l) 2) && (now <? hl_hardExpiry l).
Definition renew_login (i : nat) (now leaseDuration : Z) (s : loginSet) : loginSet :=
  match ls_heap s !! i with Some l => set_heap (<[i := with_renewal now (leaseDuration * Second) l]> (ls_heap s)) s | None => s end.

(** [reloginAfterDenial], up to the login: what it does about the login whose
    token was refused. *)
Inductive denial := AlreadyReplaced | LacksPolicy | LogIn.
#[global] Instance denial_eq : EqDecision denial.
Proof. solve_decision. Defined.

Definition after_denial (now : Z) (denied : nat) (s : loginSet) : denial :=
  match ls_current s with
  | Some c =>
      if bool_decide (c = denied)
      then match ls_heap s !! c with Some l => if now <? hl_issued l + deniedReloginAfter then LacksPolicy else LogIn | None => LogIn end
      else AlreadyReplaced
  | None => AlreadyReplaced
  end.

Inductive loginRevokeResult := loginRevokeFailed | loginRevoked | loginRevokeRefused.

(** [Client.Ready] in JWT mode. *)
Definition Ready (o : reauthOptions) (now : Z) (s : loginSet) : bool :=
  match ls_current s with Some c => match ls_heap s !! c with Some l => now <? mintUntil o l | None => false end | None => false end.

(** ** The client *)

(** What a session's owner is doing. *)
Inductive phase :=
| Calling (again : bool) (policy : bytes) (i : nat)      (* [newDatabaseSession], on the reserved login *)
| Refused (again : bool) (policy : bytes) (i : nat)      (* Vault answered 403 *)
| Relogin (policy : bytes) (started : Z)                 (* logging in, under [loginMu] *)
| Retry (policy : bytes)
| Open (accessor : bytes) (i : nat) (expiry : Z)         (* the session is in use *)
| Closing                                                (* [DatabaseSession.Revoke] has forgotten the session *)
| Ended
| Revoking (retries : bool) (logins : list nat).         (* [revokeIdle], which requeues a login whose revoke failed, or [CloseContext], which does not *)

(** The refresh loop: [reauthTick] from its check of the schedule. *)
Inductive tick := TickIdle | TickDue (now : Z) | TickLogin (started : Z) | TickStopped.

Record client := {
  cl_now : Z;
  cl_set : loginSet;
  cl_missing : gset bytes;            (* missingPolicies *)
  cl_mu : option (option nat);        (* who holds [loginMu]: [None] is the refresh loop *)
  cl_tick : tick;
  cl_phases : gmap nat phase;
  cl_sessions : gset bytes;           (* the accessors Vault has given out *)
  cl_revoked : list nat;              (* the logins Vault was asked to revoke *)
}.

Definition set_now (t : Z) (c : client) : client :=
  {| cl_now := t; cl_set := cl_set c; cl_missing := cl_missing c; cl_mu := cl_mu c; cl_tick := cl_tick c; cl_phases := cl_phases c; cl_sessions := cl_sessions c; cl_revoked := cl_revoked c |}.
Definition set_logins (s : loginSet) (c : client) : client :=
  {| cl_now := cl_now c; cl_set := s; cl_missing := cl_missing c; cl_mu := cl_mu c; cl_tick := cl_tick c; cl_phases := cl_phases c; cl_sessions := cl_sessions c; cl_revoked := cl_revoked c |}.
Definition set_missing (m : gset bytes) (c : client) : client :=
  {| cl_now := cl_now c; cl_set := cl_set c; cl_missing := m; cl_mu := cl_mu c; cl_tick := cl_tick c; cl_phases := cl_phases c; cl_sessions := cl_sessions c; cl_revoked := cl_revoked c |}.
Definition set_tick (mu : option (option nat)) (t : tick) (c : client) : client :=
  {| cl_now := cl_now c; cl_set := cl_set c; cl_missing := cl_missing c; cl_mu := mu; cl_tick := t; cl_phases := cl_phases c; cl_sessions := cl_sessions c; cl_revoked := cl_revoked c |}.
Definition set_phase (n : nat) (p : phase) (c : client) : client :=
  {| cl_now := cl_now c; cl_set := cl_set c; cl_missing := cl_missing c; cl_mu := cl_mu c; cl_tick := cl_tick c; cl_phases := <[n := p]> (cl_phases c); cl_sessions := cl_sessions c; cl_revoked := cl_revoked c |}.
Definition set_vault (sessions : gset bytes) (revoked : list nat) (c : client) : client :=
  {| cl_now := cl_now c; cl_set := cl_set c; cl_missing := cl_missing c; cl_mu := cl_mu c; cl_tick := cl_tick c; cl_phases := cl_phases c; cl_sessions := sessions; cl_revoked := revoked |}.

Definition first_client (now : Z) (l : heldLogin) : client :=
  {| cl_now := now; cl_set := {| ls_heap := {[0%nat := l]}; ls_current := Some 0%nat; ls_retired := [] |}; cl_missing := ∅; cl_mu := None; cl_tick := TickIdle;
     cl_phases := ∅; cl_sessions := ∅; cl_revoked := [] |}.

(** A session's expiry: from before the request, and never past its login's. *)
Definition session_expiry (hardExpiry started ttl : Z) : Z := if hardExpiry <? started + ttl then hardExpiry else started + ttl.

Section Client.
Context (o : reauthOptions) (maxTTL : Z).

(** A login Vault issued at a request made at [started]: its maximum lifetime is
    positive and at most [maxTTL]. *)
Definition granted (l : heldLogin) (started : Z) : Prop :=
  ∃ token ttl lease, l = new_login token started ttl lease ∧ 0 < ttl <= maxTTL ∧ 0 < lease.

Inductive step : client → client → Prop :=
| s_time c t : cl_now c <= t → step c (set_now t c)
(* a session is asked for *)
| s_acquire c n policy i s : cl_phases c !! n = None → acquire o (cl_now c) (cl_set c) = Some (i, s) →
    step c (set_phase n (Calling false policy i) (set_logins s c))
| s_retry c n policy i s : cl_phases c !! n = Some (Retry policy) → acquire o (cl_now c) (cl_set c) = Some (i, s) →
    step c (set_phase n (Calling true policy i) (set_logins s c))
| s_retry_stale c n policy : cl_phases c !! n = Some (Retry policy) → acquire o (cl_now c) (cl_set c) = None → step c (set_phase n Ended c)
(* Vault answers: a session, a refusal, an error *)
| s_created c n again policy i l accessor started ttl : cl_phases c !! n = Some (Calling again policy i) → ls_heap (cl_set c) !! i = Some l →
    accessor ≠ [] → accessor ∉ cl_sessions c → started <= cl_now c → 0 < ttl →
    step c (set_phase n (Open accessor i (session_expiry (hl_hardExpiry l) started ttl)) (set_logins (mint_done i accessor (session_expiry (hl_hardExpiry l) started ttl) (cl_set c)) (set_vault ({[accessor]} ∪ cl_sessions c) (cl_revoked c) c)))
| s_denied c n again policy i : cl_phases c !! n = Some (Calling again policy i) →
    step c (set_phase n (Refused again policy i) (set_logins (mint_done i [] 0 (cl_set c)) c))
| s_failed c n again policy i : cl_phases c !! n = Some (Calling again policy i) →
    step c (set_phase n Ended (set_logins (mint_done i [] 0 (cl_set c)) c))
(* after a refusal *)
| s_missing c n policy i : cl_phases c !! n = Some (Refused false policy i) → policy ∈ cl_missing c → step c (set_phase n Ended c)
| s_mark c n policy i : cl_phases c !! n = Some (Refused true policy i) → step c (set_phase n Ended (set_missing ({[policy]} ∪ cl_missing c) c))
| s_replaced c n policy i : cl_phases c !! n = Some (Refused false policy i) → policy ∉ cl_missing c → cl_mu c = None →
    after_denial (cl_now c) i (cl_set c) = AlreadyReplaced → step c (set_phase n (Retry policy) c)
| s_lacks c n policy i : cl_phases c !! n = Some (Refused false policy i) → policy ∉ cl_missing c → cl_mu c = None →
    after_denial (cl_now c) i (cl_set c) = LacksPolicy → step c (set_phase n Ended c)
| s_relogin c n policy i : cl_phases c !! n = Some (Refused false policy i) → policy ∉ cl_missing c → cl_mu c = None →
    after_denial (cl_now c) i (cl_set c) = LogIn → step c (set_phase n (Relogin policy (cl_now c)) (set_tick (Some (Some n)) (cl_tick c) c))
| s_relogin_failed c n policy started : cl_phases c !! n = Some (Relogin policy started) →
    step c (set_phase n Ended (set_tick None (cl_tick c) c))
| s_relogin_done c n policy started i l : cl_phases c !! n = Some (Relogin policy started) → ls_heap (cl_set c) !! i = None → granted l started →
    step c (set_phase n (Retry policy) (set_tick None (cl_tick c) (set_logins (rotate i l (cl_set c)) c)))
(* a session ends: [DatabaseSession.Revoke] *)
| s_end c n accessor i expiry : cl_phases c !! n = Some (Open accessor i expiry) → step c (set_phase n Closing (set_logins (forget accessor (cl_set c)) c))
| s_end_idle c n s out : cl_phases c !! n = Some Closing → idle (cl_now c) (cl_set c) = (s, out) → step c (set_phase n (Revoking true out) (set_logins s c))
(* [revokeIdle] of the refresh loop *)
| s_idle c n s out : cl_phases c !! n = None → idle (cl_now c) (cl_set c) = (s, out) → step c (set_phase n (Revoking true out) (set_logins s c))
| s_revoke c n retries i out result : cl_phases c !! n = Some (Revoking retries (i :: out)) →
    step c (set_phase n (Revoking retries out) (set_logins (match result with loginRevokeFailed => if retries then requeue i (cl_set c) else cl_set c | _ => cl_set c end)
      (set_vault (cl_sessions c) (i :: cl_revoked c) c)))
(* renewal of a login the refresh loop found held *)
| s_renew c i l now leaseDuration : ls_heap (cl_set c) !! i = Some l → now <= cl_now c → renewal_due now l = true → 0 < leaseDuration →
    step c (set_logins (renew_login i now leaseDuration (cl_set c)) c)
(* the schedule *)
| s_due c now : cl_tick c = TickIdle → now <= cl_now c → rotationDue o now (cl_set c) = true → step c (set_tick (cl_mu c) (TickDue now) c)
| s_tick_login c now : cl_tick c = TickDue now → cl_mu c = None → rotationDue o now (cl_set c) = true →
    step c (set_tick (Some None) (TickLogin (cl_now c)) c)
| s_tick_again c now : cl_tick c = TickDue now → cl_mu c = None → rotationDue o now (cl_set c) = false → step c (set_tick None TickIdle c)
| s_tick_failed c started : cl_tick c = TickLogin started → step c (set_tick None TickIdle c)
| s_tick_done c started i l : cl_tick c = TickLogin started → ls_heap (cl_set c) !! i = None → granted l started →
    step c (set_missing ∅ (set_tick None TickIdle (set_logins (rotate i l (cl_set c)) c)))
(* [CloseContext]: the loop has stopped *)
| s_close c n s out : cl_tick c = TickIdle → cl_phases c !! n = None → drain (cl_set c) = (s, out) →
    step c (set_phase n (Revoking false out) (set_logins s (set_tick (cl_mu c) TickStopped c))).

Inductive reachable : client → Prop :=
| reach_first now l : granted l now → now < mintUntil o l → reachable (first_client now l)
| reach_step c c' : reachable c → step c c' → reachable c'.
End Client.
