(* ===== verification/VaultLoginsFacts.v ===== *)
(** * What holding several Vault logins preserves ([internal/hashicorp/reauth.go])

    The invariant [ok] of the client of [VaultLogins]: the mints and sessions a
    login is reserved for are the ones in flight and open; a login handed out for
    revocation has neither, and never gets one again.  [spaced] is the invariant
    of the schedule: logins are issued one at a time, apart from each other. *)

From S2P Require Import Prelude GoString VaultLogins.

(** ** Counting the mints in flight *)

Definition calling (i : nat) (p : phase) : Prop := match p with Calling _ _ j => i = j | _ => False end.
#[global] Instance calling_dec i p : Decision (calling i p).
Proof. destruct p; cbn; apply _. Defined.

Definition calls (m : gmap nat phase) (i : nat) : Z := Z.of_nat (size (filter (λ kv : nat * phase, calling i kv.2) m)).
Definition one (b : bool) : Z := if b then 1 else 0.
Definition calling_at (m : gmap nat phase) (n i : nat) : bool := match m !! n with Some p => bool_decide (calling i p) | None => false end.

Lemma calls_insert m n p i : calls (<[n := p]> m) i = calls m i - one (calling_at m n i) + one (bool_decide (calling i p)).
Proof.
  unfold calls, calling_at. set (P := λ kv : nat * phase, calling i kv.2).
  assert (Hold : filter P m !! n = match m !! n with Some q => if bool_decide (calling i q) then Some q else None | None => None end).
  { rewrite map_lookup_filter. destruct (m !! n) as [q|]; cbn; [|done]. unfold P; cbn.
    destruct (decide (calling i q)) as [H|H];
      [rewrite (bool_decide_true _ H), option_guard_True by done|rewrite (bool_decide_false _ H), option_guard_False by done]; done. }
  destruct (decide (calling i p)) as [H|H].
  - rewrite (bool_decide_true _ H), map_filter_insert_True by done. rewrite map_size_insert, Hold.
    destruct (m !! n) as [q|]; [destruct (bool_decide (calling i q))|]; cbn; lia.
  - rewrite (bool_decide_false _ H), map_filter_insert_False, map_filter_delete by done.
    rewrite map_size_delete, Hold. destruct (m !! n) as [q|] eqn:E; [|cbn; lia].
    destruct (bool_decide (calling i q)) eqn:Eq; cbn in Hold |- *; [|lia].
    assert (size (filter P m) ≠ 0%nat) by (intros Hz; apply map_size_empty_inv in Hz; rewrite Hz, lookup_empty in Hold; done). lia.
Qed.

Lemma calls_zero m i : calls m i = 0 → ∀ n again policy, m !! n ≠ Some (Calling again policy i).
Proof.
  unfold calls. intros H n again policy E. apply (f_equal Z.to_nat) in H. rewrite Nat2Z.id in H. apply map_size_empty_inv in H.
  apply (map_filter_empty_not_lookup _ _ n (Calling again policy i)) in H; [|done]. done.
Qed.

Lemma calls_none m i : (∀ n again policy, m !! n ≠ Some (Calling again policy i)) → calls m i = 0.
Proof.
  unfold calls. intros H. rewrite map_empty_filter_2; [done|]. intros n q E Hc. destruct q; try done. cbn in Hc. subst. by apply (H _ _ _ E).
Qed.

(** ** Custody of the logins *)

(** No mint on login [i] is in flight, and its sessions have expired. *)
Definition settled (c : client) (i : nat) : Prop :=
  (∀ n again policy, cl_phases c !! n ≠ Some (Calling again policy i)) ∧
  (∀ n a e, cl_phases c !! n = Some (Open a i e) → e <= cl_now c).

Abbreviation heap c := (ls_heap (cl_set c)).
Abbreviation current c := (ls_current (cl_set c)).

(** Login [i] was handed out for revocation. *)
Definition released (c : client) (i : nat) : Prop := settled c i ∧ i ∉ held (cl_set c) ∧ is_Some (heap c !! i).

Definition kept_session (c : client) (a : bytes) (i : nat) (e : Z) : Prop :=
  a ∈ cl_sessions c ∧ ∃ l, heap c !! i = Some l ∧ e <= hl_hardExpiry l ∧ (cl_now c < e → hl_children l !! a = Some e).

(** Login [i] has not lapsed, and is needed. *)
Definition needed (c : client) (i : nat) : Prop :=
  (∃ n again policy, cl_phases c !! n = Some (Calling again policy i)) ∨ (∃ n a e, cl_phases c !! n = Some (Open a i e) ∧ cl_now c < e).
Definition busy (c : client) (i : nat) : Prop := lapsed (cl_now c) (cl_set c) i = false ∧ needed c i.

Record ok (c : client) : Prop := {
  ok_pending : ∀ i l, heap c !! i = Some l → hl_pending l = calls (cl_phases c) i;
  ok_calling : ∀ n again policy i, cl_phases c !! n = Some (Calling again policy i) → is_Some (heap c !! i);
  ok_open : ∀ n a i e, cl_phases c !! n = Some (Open a i e) → kept_session c a i e;
  ok_accessor : ∀ n m a i j e f, cl_phases c !! n = Some (Open a i e) → cl_phases c !! m = Some (Open a j f) → n = m;
  ok_busy : ∀ i, busy c i → i ∈ held (cl_set c);
  ok_held : ∀ i, i ∈ held (cl_set c) → is_Some (heap c !! i);
  ok_nodup : NoDup (held (cl_set c));
  ok_revoking : ∀ n r out i, cl_phases c !! n = Some (Revoking r out) → i ∈ out → released c i;
  ok_once : ∀ n r out, cl_phases c !! n = Some (Revoking r out) → NoDup out;
  ok_apart : ∀ n m r q out out' i, cl_phases c !! n = Some (Revoking r out) → cl_phases c !! m = Some (Revoking q out') → i ∈ out → i ∈ out' → n = m;
  ok_revoked : ∀ i, i ∈ cl_revoked c → settled c i ∧ current c ≠ Some i ∧ is_Some (heap c !! i);
}.

Lemma held_current s k : ls_current s = Some k → k ∈ held s.
Proof. unfold held. intros ->. apply list_elem_of_here. Qed.
Lemma held_retired s k : k ∈ ls_retired s → k ∈ held s.
Proof. unfold held. destruct (ls_current s); [intros; by apply elem_of_cons; right|done]. Qed.
Lemma elem_of_held s k : k ∈ held s ↔ ls_current s = Some k ∨ k ∈ ls_retired s.
Proof. unfold held. destruct (ls_current s) as [j|]; rewrite ?elem_of_cons; naive_solver. Qed.

Definition not_calling (c : client) (n : nat) : Prop := ∀ again policy i, cl_phases c !! n ≠ Some (Calling again policy i).
Definition idle_phase (p : phase) : Prop := match p with Calling _ _ _ | Open _ _ _ => False | _ => True end.

Lemma not_calling_at c n i : not_calling c n → calling_at (cl_phases c) n i = false.
Proof.
  unfold not_calling, calling_at. intros H. destruct (cl_phases c !! n) as [[]|]; try done.
  by destruct (H again policy i0).
Qed.

Lemma phase_insert (m : gmap nat phase) n p k q : <[n := p]> m !! k = Some q → (k = n ∧ q = p) ∨ (k ≠ n ∧ m !! k = Some q).
Proof. destruct (decide (n = k)) as [->|H]; [rewrite lookup_insert_eq|rewrite lookup_insert_ne by done]; naive_solver. Qed.

(** Time passes. *)
Lemma ok_time c t : cl_now c <= t → ok c → ok (set_now t c).
Proof.
  intros Ht []. split; cbn; try done.
  - intros n a i e E. destruct (ok_open0 n a i e E) as (Ha & l & El & He & Hl). split; [done|]. exists l. split; [done|]. split; [done|]. cbn. intros. apply Hl. lia.
  - intros i [Hl Hb]. apply ok_busy0. split.
    + unfold lapsed in *. cbn in Hl. destruct (heap c !! i) as [l|]; [|done]. apply negb_false_iff in Hl. apply Z.ltb_lt in Hl. apply negb_false_iff, Z.ltb_lt. lia.
    + destruct Hb as [Hb|(n & a & e & E & Hlt)]; [by left|right]. cbn in E, Hlt. exists n, a, e. split; [done|lia].
  - intros n r out i E Hi. destruct (ok_revoking0 n r out i E Hi) as ((H1 & H2) & ?). split; [|done]. split; [done|]. cbn. intros ? ? ? Ho. specialize (H2 _ _ _ Ho). lia.
  - intros i Hi. destruct (ok_revoked0 i Hi) as ((H1 & H2) & ?). split; [|done]. split; [done|]. cbn. intros ? ? ? Ho. specialize (H2 _ _ _ Ho). lia.
Qed.

Lemma settled_phase c n p i : idle_phase p → settled c i → settled (set_phase n p c) i.
Proof.
  intros Hp [H1 H2]. split; cbn.
  - intros k again policy E. apply phase_insert in E as [[-> <-]|[? E]]; [done|]. by apply (H1 _ _ _ E).
  - intros k a e E. apply phase_insert in E as [[-> <-]|[? E]]; [done|]. by apply (H2 _ _ _ E).
Qed.

Lemma needed_phase c n p i : idle_phase p → needed (set_phase n p c) i → needed c i.
Proof.
  intros Hp [(k & again & policy & E)|(k & a & e & E & Hlt)]; apply phase_insert in E as [[-> <-]|[? E]]; try done; [left; eauto|right; eauto].
Qed.

(** The owner [n], with no mint in flight, goes on to a phase with none. *)
Lemma ok_phase c n p : not_calling c n → idle_phase p →
  (∀ r out, p = Revoking r out → NoDup out ∧ ∀ i, i ∈ out → released c i ∧ ∀ m q out', m ≠ n → cl_phases c !! m = Some (Revoking q out') → i ∉ out') →
  ok c → ok (set_phase n p c).
Proof.
  intros Hn Hp Hr []. split; cbn; try done.
  - intros i l E. rewrite calls_insert, not_calling_at by done. rewrite bool_decide_false by (by destruct p; cbn in *; intros []). cbn. rewrite (ok_pending0 i l E). lia.
  - intros k again policy i E. apply phase_insert in E as [[-> <-]|[? E]]; [done|]. eauto.
  - intros k a i e E. apply phase_insert in E as [[-> <-]|[? E]]; [done|]. by apply ok_open0 in E.
  - intros k m a i j e f E F. apply phase_insert in E as [[-> <-]|[? E]]; [done|]. apply phase_insert in F as [[-> <-]|[? F]]; [done|]. eauto.
  - intros i [Hl Hb]. apply ok_busy0. split; [done|]. by apply (needed_phase c n p).
  - intros k r out i E Hi. apply phase_insert in E as [[-> E]|[? E]].
    + destruct (Hr r out (eq_sym E)) as [_ Hall]. destruct (Hall i Hi) as [(? & ? & ?) _]. split; [by apply settled_phase|done].
    + destruct (ok_revoking0 k r out i E Hi) as (? & ? & ?). split; [by apply settled_phase|done].
  - intros k r out E. apply phase_insert in E as [[-> E]|[? E]]; [by apply (Hr r out)|]. eauto.
  - intros k m r q out out' i E F Hi Hj. apply phase_insert in E as [[-> E]|[? E]]; apply phase_insert in F as [[-> F]|[? F]]; try done.
    + destruct (Hr r out (eq_sym E)) as [_ Hall]. destruct (Hall i Hi) as [_ H']. exfalso. by apply (H' m q out').
    + destruct (Hr q out' (eq_sym F)) as [_ Hall]. destruct (Hall i Hj) as [_ H']. exfalso. by apply (H' k r out).
    + eauto.
  - intros i Hi. destruct (ok_revoked0 i Hi) as (? & ? & ?). split; [by apply settled_phase|done].
Qed.

(** ** Changes of the set of logins *)

(** [l'] is [l] but for children that have ended. *)
Definition same_login (c : client) (i : nat) (l l' : heldLogin) : Prop :=
  hl_pending l' = hl_pending l ∧ hl_hardExpiry l' = hl_hardExpiry l ∧
  ∀ n a e, cl_phases c !! n = Some (Open a i e) → cl_now c < e → hl_children l !! a = Some e → hl_children l' !! a = Some e.

Lemma same_login_refl c i l : same_login c i l l.
Proof. split; [done|]. split; [done|]. done. Qed.
#[local] Hint Resolve same_login_refl : core.

Record shrinks (c : client) (s : loginSet) : Prop := {
  sh_heap : ∀ i, option_Forall2 (same_login c i) (heap c !! i) (ls_heap s !! i);
  sh_current : ∀ k, ls_current s = Some k → current c = Some k;
  sh_held : ∀ k, k ∈ held s → k ∈ held (cl_set c);
  sh_nodup : NoDup (held s);
  sh_busy : ∀ i, busy c i → i ∈ held (cl_set c) → i ∈ held s;
}.

Lemma sh_some c s i : shrinks c s → is_Some (heap c !! i) → is_Some (ls_heap s !! i).
Proof. intros [H _ _ _ _] [l E]. specialize (H i). rewrite E in H. inversion H; subst. eauto. Qed.

Lemma ok_set c s : shrinks c s → ok c → ok (set_logins s c).
Proof.
  intros Hs []. assert (Hsome := λ i, sh_some c s i Hs). destruct Hs as [Hh Hc Hi Hn Ho].
  split; cbn; try done.
  - intros i l' E. specialize (Hh i). rewrite E in Hh. inversion Hh as [l ? (Hp & _) El|]; subst. rewrite Hp. by apply ok_pending0.
  - intros. apply Hsome. eauto.
  - intros n a i e E. destruct (ok_open0 n a i e E) as (Ha & l & El & He & Hl). split; [done|].
    specialize (Hh i). rewrite El in Hh. inversion Hh as [? l' (Hpend & Hx & Hk) Ell El'|]; subst. exists l'. cbn. split; [done|]. split; [by rewrite Hx|].
    intros Hlt. apply (Hk n); auto.
  - intros i [Hl Hb]. assert (Hb' : busy c i).
    { split; [|done]. cbn in Hl. unfold lapsed in *. specialize (Hh i). inversion Hh as [l l' (_ & Hx & _) El El'|El El']; rewrite <- El' in Hl; [|done]. by rewrite <- Hx. }
    apply Ho; [done|]. by apply ok_busy0.
  - intros i H. apply Hsome, ok_held0. by apply Hi.
  - intros n r out i E H. destruct (ok_revoking0 n r out i E H) as (Hset & Hnh & ?). split; [done|]. cbn. split; [|by apply Hsome].
    intros Hin. apply Hnh. by apply Hi.
  - intros i H. destruct (ok_revoked0 i H) as (Hset & Hnc & ?). split; [done|]. cbn. split; [|by apply Hsome].
    intros Hin. apply Hnc. by apply Hc.
Qed.

Lemma forget_shrinks c accessor : ok c → (∀ n i e, cl_phases c !! n ≠ Some (Open accessor i e)) → shrinks c (forget accessor (cl_set c)).
Proof.
  intros Hok Hno. split; cbn; try done.
  - intros i. unfold on_held. rewrite map_lookup_imap. destruct (heap c !! i) as [l|] eqn:E; cbn; constructor.
    case_bool_decide; [|done]. split; [done|]. split; [done|]. cbn. intros n a e Eo _ Hc.
    rewrite lookup_delete_ne; [done|]. intros ->. by apply (Hno n i e).
  - by apply ok_nodup.
Qed.

Lemma purge_shrinks c : ok c → shrinks c (purge_retired (cl_now c) (cl_set c)).
Proof.
  intros Hok. split; cbn; try done; [|by apply ok_nodup].
  intros i. rewrite map_lookup_imap. destruct (heap c !! i) as [l|] eqn:E; cbn; constructor.
  case_bool_decide; [|done]. split; [done|]. split; [done|]. cbn. intros n a e Eo Hlt Hc.
  by apply map_lookup_filter_Some_2.
Qed.

(** A login that is needed is not empty. *)
Lemma needed_not_empty c i : ok c → needed c i → empty (cl_set c) i = false.
Proof.
  intros Hok [(n & again & policy & E)|(n & a & e & E & Hlt)]; unfold empty.
  - destruct (heap c !! i) as [l|] eqn:El; [|done]. destruct (hl_pending l =? 0) eqn:Hp; [|by rewrite andb_false_r].
    apply Z.eqb_eq in Hp. rewrite (ok_pending c Hok i l El) in Hp. by destruct (calls_zero _ _ Hp n again policy).
  - destruct (ok_open c Hok n a i e E) as (_ & l & El & He & Hl). rewrite El, bool_decide_false; [done|].
    intros Hz. specialize (Hl Hlt). by rewrite Hz, lookup_empty in Hl.
Qed.

Lemma not_needed c i : ¬ needed c i → settled c i.
Proof.
  intros H. split.
  - intros n again policy E. apply H. left. eauto.
  - intros n a e E. destruct (decide (cl_now c < e)) as [Hlt|]; [|lia]. destruct H. right. eauto.
Qed.

Lemma empty_released c i : ok c → empty (cl_set c) i = true → settled c i ∧ is_Some (heap c !! i).
Proof.
  intros Hok H. split.
  - apply not_needed. intros Hn. apply needed_not_empty in Hn; [congruence|done].
  - unfold empty in H. destruct (heap c !! i); [eauto|done].
Qed.

Lemma filter_nodup (f : nat → bool) l : NoDup l → NoDup (List.filter f l).
Proof. intros. apply NoDup_ListNoDup, List.NoDup_filter. by apply NoDup_ListNoDup. Qed.

Lemma retired_nodup s : NoDup (held s) → NoDup (ls_retired s).
Proof. unfold held. destruct (ls_current s); [by inversion 1|done]. Qed.
Lemma current_not_retired s k : NoDup (held s) → ls_current s = Some k → k ∉ ls_retired s.
Proof. unfold held. intros H E. rewrite E in H. by inversion H. Qed.

(** [out] leaves the set for the owner [n] to revoke. *)
Lemma hand_over c n r s out : shrinks c s → NoDup out →
  (∀ i, i ∈ out → settled c i ∧ i ∈ held (cl_set c) ∧ i ∉ held s) → not_calling c n → ok c → ok (set_phase n (Revoking r out) (set_logins s c)).
Proof.
  intros Hs Hnd Hout Hn Hok. apply ok_phase; [done|done| |by apply ok_set].
  intros r' out' [= <- <-]. split; [done|]. intros i Hi. destruct (Hout i Hi) as (Hset & Hin & Hno). split.
  - split; [done|]. split; [done|]. apply (sh_some c s i Hs), (ok_held c Hok i Hin).
  - cbn. intros m q out' _ E Hj. destruct (ok_revoking c Hok m q out' i E Hj) as (_ & Hnh & _). done.
Qed.

Lemma elem_of_split (f : nat → bool) l i : i ∈ List.filter f l ↔ i ∈ l ∧ f i = true.
Proof. rewrite !list_elem_of_In, filter_In. done. Qed.

(** Leaving out retired logins that are settled. *)
Lemma keep_shrinks c (keep : nat → bool) (cur : option nat) : ok c →
  (∀ k, cur = Some k → current c = Some k) →
  (∀ i, busy c i → (current c = Some i → cur = Some i) ∧ keep i = true) →
  shrinks c (set_lists cur (List.filter keep (ls_retired (cl_set c))) (cl_set c)).
Proof.
  intros Hok Hcur Hkeep. split; cbn; try done.
  - intros i. destruct (heap c !! i); constructor; apply same_login_refl.
  - intros k Hk. apply elem_of_held in Hk as [Hk|Hk]; cbn in Hk; [by apply held_current, Hcur|].
    apply held_retired. by apply elem_of_split in Hk as [? _].
  - pose proof (ok_nodup c Hok) as Hnd. unfold held; cbn. destruct cur as [k|]; [|by apply filter_nodup, retired_nodup].
    constructor; [|by apply filter_nodup, retired_nodup]. rewrite elem_of_split. intros [H _].
    by apply (current_not_retired _ k Hnd (Hcur k eq_refl)).
  - intros i Hb Hin. destruct (Hkeep i Hb) as [H1 H2]. apply elem_of_held. cbn.
    apply elem_of_held in Hin as [Hin|Hin]; [left; by apply H1|right; by apply elem_of_split].
Qed.

Lemma idle_ok c n r s out : idle (cl_now c) (cl_set c) = (s, out) → not_calling c n → ok c → ok (set_phase n (Revoking r out) (set_logins s c)).
Proof.
  intros E Hn Hok. unfold idle in E. set (p := purge_retired (cl_now c) (cl_set c)) in E.
  assert (H1 : ok (set_logins p c)) by (apply ok_set; [by apply purge_shrinks|done]).
  injection E as <- <-. pose proof (ok_nodup _ H1) as Hnd.
  change (ok (set_phase n (Revoking r (List.filter (λ i, negb (lapsed (cl_now c) p i) && empty p i) (ls_retired p)))
    (set_logins (set_lists (ls_current p) (List.filter (λ i, negb (lapsed (cl_now c) p i) && negb (empty p i)) (ls_retired p)) p) (set_logins p c)))).
  apply hand_over; [| | |done|done].
  - apply (keep_shrinks (set_logins p c)); [done|done|]. intros i [Hl Hb]. split; [done|].
    apply (needed_not_empty _ _ H1) in Hb. cbn in Hb, Hl. by rewrite Hb, Hl.
  - by apply filter_nodup, retired_nodup.
  - intros i Hi. apply elem_of_split in Hi as [Hin Hf]. apply andb_true_iff in Hf as [_ He].
    destruct (empty_released _ i H1 He) as [Hset _]. split; [done|]. split; [by apply held_retired|].
    rewrite elem_of_held; cbn. rewrite elem_of_split. intros [Hc|[_ Hc]].
    + by apply (current_not_retired _ i Hnd Hc).
    + by rewrite He, andb_false_r in Hc.
Qed.

Lemma drain_ok c n s out : drain (cl_set c) = (s, out) → not_calling c n → ok c → ok (set_phase n (Revoking false out) (set_logins s c)).
Proof.
  intros E Hn Hok. unfold drain in E. pose proof (ok_nodup c Hok) as Hnd.
  assert (Hk : ∀ i, busy c i → empty (cl_set c) i = false) by (intros i [_ Hb]; by apply needed_not_empty).
  destruct (ls_current (cl_set c)) as [k|] eqn:Ek; [destruct (empty (cl_set c) k) eqn:Ee|]; injection E as <- <-; apply hand_over; try done.
  - apply keep_shrinks; [done|done|]. intros i Hb. rewrite Ek, (Hk i Hb). split; [|done]. intros [= ->]. specialize (Hk i Hb). congruence.
  - apply NoDup_app. split; [by apply filter_nodup, retired_nodup|]. split; [|by apply NoDup_singleton].
    intros i Hi Hj. apply list_elem_of_singleton in Hj as ->. apply elem_of_split in Hi as [Hi _]. by apply (current_not_retired _ k Hnd Ek).
  - intros i Hi. rewrite elem_of_app, list_elem_of_singleton, elem_of_split in Hi.
    assert (He : empty (cl_set c) i = true) by (by destruct Hi as [[_ ?]| ->]).
    destruct (empty_released c i Hok He) as [Hset _]. split; [done|]. split; [rewrite elem_of_held; naive_solver|].
    rewrite elem_of_held; cbn. rewrite elem_of_split, He. by intros [|[_ ?]].
  - apply keep_shrinks; [done|intros ? [= <-]; done|]. intros i Hb. rewrite Ek, (Hk i Hb). done.
  - by apply filter_nodup, retired_nodup.
  - intros i Hi. apply elem_of_split in Hi as [Hin He]. destruct (empty_released c i Hok He) as [Hset _]. split; [done|]. split; [by apply held_retired|].
    rewrite elem_of_held; cbn. rewrite elem_of_split, He. intros [[= ->]|[_ ?]]; [|done]. by apply (current_not_retired _ i Hnd Ek).
  - apply keep_shrinks; [done|done|]. intros i Hb. rewrite Ek, (Hk i Hb). done.
  - by apply filter_nodup, retired_nodup.
  - intros i Hi. apply elem_of_split in Hi as [Hin He]. destruct (empty_released c i Hok He) as [Hset _]. split; [done|]. split; [by apply held_retired|].
    rewrite elem_of_held; cbn. rewrite elem_of_split, He. by intros [|[_ ?]].
Qed.

(** ** Mints and sessions *)

(** The owner [n] goes on to phase [p] as login [i] becomes [l']. *)
Definition at_login (n : nat) (p : phase) (i : nat) (l' : heldLogin) (sessions : gset bytes) (c : client) : client :=
  set_phase n p (set_logins (set_heap (<[i := l']> (heap c)) (cl_set c)) (set_vault sessions (cl_revoked c) c)).

Record may_go (c : client) (n : nat) (p : phase) (i : nat) (l l' : heldLogin) (sessions : gset bytes) : Prop := {
  mg_login : heap c !! i = Some l;
  mg_pending : hl_pending l' = hl_pending l - one (calling_at (cl_phases c) n i) + one (bool_decide (calling i p));
  mg_hard : hl_hardExpiry l' = hl_hardExpiry l;
  mg_children : ∀ m a e, cl_phases c !! m = Some (Open a i e) → hl_children l !! a = Some e → hl_children l' !! a = Some e;
  mg_old : ∀ again policy j, cl_phases c !! n = Some (Calling again policy j) → j = i;
  mg_calling : ∀ again policy j, p = Calling again policy j → j = i ∧ current c = Some i;
  mg_open : ∀ a j e, p = Open a j e → j = i ∧ a ∉ cl_sessions c ∧ a ∈ sessions ∧ e <= hl_hardExpiry l ∧ hl_children l' !! a = Some e ∧
    (∃ again policy, cl_phases c !! n = Some (Calling again policy i));
  mg_revoking : ∀ r out, p ≠ Revoking r out;
  mg_sessions : cl_sessions c ⊆ sessions;
}.

Section Go.
Context (c : client) (n : nat) (p : phase) (i : nat) (l l' : heldLogin) (sessions : gset bytes)
  (Hok : ok c) (Hgo : may_go c n p i l l' sessions).

Lemma go_heap j x : (<[i := l']> (heap c)) !! j = Some x → ∃ y, heap c !! j = Some y ∧ hl_hardExpiry x = hl_hardExpiry y.
Proof using Hgo.
  destruct (decide (i = j)) as [<-|H]; [rewrite lookup_insert_eq|rewrite lookup_insert_ne by done]; [|eauto].
  intros [= <-]. exists l. split; [apply Hgo|apply Hgo].
Qed.

Lemma go_some j : is_Some (heap c !! j) → is_Some ((<[i := l']> (heap c)) !! j).
Proof using Type. intros H. apply lookup_insert_is_Some. destruct (decide (i = j)); auto. Qed.

Lemma go_lapsed j : lapsed (cl_now c) (cl_set (at_login n p i l' sessions c)) j = lapsed (cl_now c) (cl_set c) j.
Proof using Hgo.
  unfold lapsed. cbn. destruct (decide (i = j)) as [<-|H]; [rewrite lookup_insert_eq|by rewrite lookup_insert_ne].
  rewrite (mg_login _ _ _ _ _ _ _ Hgo), (mg_hard _ _ _ _ _ _ _ Hgo). done.
Qed.

Lemma go_needed j : needed (at_login n p i l' sessions c) j → needed c j ∨ (j = i ∧ current c = Some i).
Proof using Hgo.
  intros [(m & again & policy & E)|(m & a & e & E & Hlt)]; apply phase_insert in E as [[-> E]|[? E]].
  - right. destruct (mg_calling _ _ _ _ _ _ _ Hgo _ _ _ (eq_sym E)) as [-> ?]. done.
  - left. left. eauto.
  - left. left. destruct (mg_open _ _ _ _ _ _ _ Hgo _ _ _ (eq_sym E)) as (-> & _ & _ & _ & _ & again & policy & Ec). eauto.
  - left. right. eauto.
Qed.

(** A login that is settled and not current stays settled. *)
Lemma go_settled j : settled c j → current c ≠ Some j → settled (at_login n p i l' sessions c) j.
Proof using Hgo.
  intros [H1 H2] Hc. apply not_needed. intros Hn. apply go_needed in Hn as [[(m & again & policy & E)|(m & a & e & E & Hlt)]|[-> ?]].
  - by apply (H1 _ _ _ E).
  - specialize (H2 _ _ _ E). lia.
  - done.
Qed.

Lemma go_open m a j e : <[n := p]> (cl_phases c) !! m = Some (Open a j e) → kept_session (at_login n p i l' sessions c) a j e.
Proof using Hok Hgo.
  intros E. apply phase_insert in E as [[-> E]|[Hm E]].
  - destruct (mg_open _ _ _ _ _ _ _ Hgo _ _ _ (eq_sym E)) as (-> & _ & Ha & He & Hc & _). split; [done|].
    exists l'. cbn. rewrite lookup_insert_eq. split; [done|]. split; [by rewrite (mg_hard _ _ _ _ _ _ _ Hgo)|done].
  - destruct (ok_open c Hok m a j e E) as (Ha & x & Ex & He & Hc). split; [cbn; by apply (mg_sessions _ _ _ _ _ _ _ Hgo)|]. cbn.
    destruct (decide (i = j)) as [->|Hne]; [rewrite lookup_insert_eq|rewrite lookup_insert_ne by done; eauto].
    rewrite (mg_login _ _ _ _ _ _ _ Hgo) in Ex. injection Ex as <-. exists l'. split; [done|]. split; [by rewrite (mg_hard _ _ _ _ _ _ _ Hgo)|].
    intros Hlt. by apply (mg_children _ _ _ _ _ _ _ Hgo m), Hc.
Qed.

Lemma go_accessor m k a j j' e f : <[n := p]> (cl_phases c) !! m = Some (Open a j e) → <[n := p]> (cl_phases c) !! k = Some (Open a j' f) → m = k.
Proof using Hok Hgo.
  assert (Hno : ∀ m' j e, cl_phases c !! m' = Some (Open a j e) → ∀ j' e', p ≠ Open a j' e').
  { intros m' x y E x' y' Ep. destruct (mg_open _ _ _ _ _ _ _ Hgo _ _ _ Ep) as (_ & Hn & _). destruct (ok_open c Hok _ _ _ _ E) as [? _]. done. }
  intros E F. apply phase_insert in E as [[-> E]|[Hm E]]; apply phase_insert in F as [[-> F]|[Hk F]]; [done| | |].
  - by destruct (Hno _ _ _ F j e).
  - by destruct (Hno _ _ _ E j' f).
  - by apply (ok_accessor c Hok m k a j j' e f).
Qed.

Lemma ok_go : ok (at_login n p i l' sessions c).
Proof using Hok Hgo.
  pose proof Hok as []. split; cbn; try done.
  - intros j x E. rewrite calls_insert. destruct (decide (i = j)) as [<-|H]; [rewrite lookup_insert_eq in E|rewrite lookup_insert_ne in E by done].
    + injection E as <-. rewrite (mg_pending _ _ _ _ _ _ _ Hgo), (ok_pending0 _ _ (mg_login _ _ _ _ _ _ _ Hgo)). done.
    + rewrite (ok_pending0 j x E). replace (calling_at (cl_phases c) n j) with false; [rewrite bool_decide_false; [cbn; lia|]|].
      * intros Hc. destruct p; try done. cbn in Hc. subst. destruct (mg_calling _ _ _ _ _ _ _ Hgo _ _ _ eq_refl). done.
      * unfold calling_at. destruct (cl_phases c !! n) as [q|] eqn:Eq; [|done]. symmetry. apply bool_decide_eq_false.
        intros Hc. destruct q; try done. cbn in Hc. subst. by destruct (mg_old _ _ _ _ _ _ _ Hgo _ _ _ Eq).
  - intros m again policy j E. apply go_some. apply phase_insert in E as [[-> E]|[? E]]; [|eauto].
    destruct (mg_calling _ _ _ _ _ _ _ Hgo _ _ _ (eq_sym E)) as [-> _]. exists l. apply Hgo.
  - apply go_open.
  - apply go_accessor.
  - intros j [Hl Hb]. cbn in Hl. change (lapsed (cl_now c) (cl_set (at_login n p i l' sessions c)) j = false) in Hl. rewrite go_lapsed in Hl.
    apply go_needed in Hb as [Hb|[-> Hc]]; [by apply ok_busy0|by apply held_current].
  - intros j Hj. apply go_some. by apply ok_held0.
  - intros m r out j E Hj. apply phase_insert in E as [[-> E]|[? E]]; [by destruct (mg_revoking _ _ _ _ _ _ _ Hgo r out)|].
    destruct (ok_revoking0 m r out j E Hj) as (Hs & Hh & Hsome). split; [|split; [done|by apply go_some]].
    apply go_settled; [done|]. intros Hc. by apply Hh, held_current.
  - intros m r out E. apply phase_insert in E as [[-> E]|[? E]]; [by destruct (mg_revoking _ _ _ _ _ _ _ Hgo r out)|eauto].
  - intros m k r q out out' j E F. apply phase_insert in E as [[-> E]|[? E]]; [by destruct (mg_revoking _ _ _ _ _ _ _ Hgo r out)|].
    apply phase_insert in F as [[-> F]|[? F]]; [by destruct (mg_revoking _ _ _ _ _ _ _ Hgo q out')|eauto].
  - intros j Hj. destruct (ok_revoked0 j Hj) as (Hs & Hc & Hsome). split; [by apply go_settled|]. split; [done|by apply go_some].
Qed.
End Go.

Lemma calling_at_Some c n again policy i : cl_phases c !! n = Some (Calling again policy i) → calling_at (cl_phases c) n i = true.
Proof. intros E. unfold calling_at. rewrite E. by apply bool_decide_eq_true. Qed.

Lemma acquire_ok o c n again policy i s : not_calling c n → acquire o (cl_now c) (cl_set c) = Some (i, s) → ok c →
  ok (set_phase n (Calling again policy i) (set_logins s c)).
Proof.
  intros Hn E Hok. unfold acquire in E. destruct (current c) as [k|] eqn:Ek; [|done]. cbn in E.
  destruct (heap c !! k) as [l|] eqn:El; [|done]. cbn in E. destruct (negb _); [done|]. injection E as <- <-.
  apply (ok_go c n (Calling again policy k) k l (with_pending (hl_pending l + 1) l) (cl_sessions c)); [done|]. split; try done.
  - rewrite not_calling_at by done. rewrite bool_decide_true by done. cbn. lia.
  - intros ? ? j E. by destruct (Hn _ _ _ E).
  - by intros ? ? ? [= _ _ <-].
Qed.

Lemma done_ok c n again policy i p : cl_phases c !! n = Some (Calling again policy i) →
  match p with Calling _ _ _ | Open _ _ _ | Revoking _ _ => False | _ => True end → ok c → ok (set_phase n p (set_logins (mint_done i [] 0 (cl_set c)) c)).
Proof.
  intros E Hp Hok. destruct (ok_calling c Hok _ _ _ _ E) as [l El]. unfold mint_done. rewrite El, bool_decide_true by done.
  apply (ok_go c n p i l (with_pending (hl_pending l - 1) l) (cl_sessions c)); [done|]. split; try done.
  - rewrite (calling_at_Some c n again policy i E). rewrite bool_decide_false by (by destruct p; cbn in *; intros []). cbn. lia.
  - intros ? ? j E'. rewrite E in E'. by injection E'.
  - by intros ? ? ? ->.
  - by intros ? ? ? ->.
  - by intros ? ? ->.
Qed.

Lemma created_ok c n again policy i l accessor e : cl_phases c !! n = Some (Calling again policy i) → heap c !! i = Some l →
  accessor ≠ [] → accessor ∉ cl_sessions c → e <= hl_hardExpiry l → ok c →
  ok (set_phase n (Open accessor i e) (set_logins (mint_done i accessor e (cl_set c)) (set_vault ({[accessor]} ∪ cl_sessions c) (cl_revoked c) c))).
Proof.
  intros E El Ha Hnew He Hok. unfold mint_done. rewrite El, bool_decide_false by done.
  apply (ok_go c n (Open accessor i e) i l (with_children (<[accessor := e]> (hl_children l)) (with_pending (hl_pending l - 1) l)) ({[accessor]} ∪ cl_sessions c)); [done|].
  split; try done.
  - rewrite (calling_at_Some c n again policy i E). cbn. lia.
  - intros m a f Eo Hc. cbn. rewrite lookup_insert_ne; [done|]. intros <-. by destruct (ok_open c Hok m _ i f Eo) as [? _].
  - intros ? ? j E'. rewrite E in E'. by injection E'.
  - intros ? ? ? [= <- <- <-]. split; [done|]. split; [done|]. split; [set_solver|]. split; [done|]. cbn. rewrite lookup_insert_eq. split; [done|eauto].
  - set_solver.
Qed.

Lemma renew_shrinks c i now lease : ok c → shrinks c (renew_login i now lease (cl_set c)).
Proof.
  intros Hok. unfold renew_login. destruct (heap c !! i) as [l|] eqn:E; split; try done; try by apply ok_nodup.
  - intros j. cbn. destruct (decide (i = j)) as [<-|H]; [rewrite lookup_insert_eq, E|rewrite lookup_insert_ne by done]; [by constructor|].
    destruct (heap c !! j); constructor; apply same_login_refl.
  - intros j. destruct (heap c !! j); constructor; apply same_login_refl.
Qed.

Lemma session_expiry_le hard started ttl : session_expiry hard started ttl <= hard.
Proof. unfold session_expiry. destruct (hard <? started + ttl) eqn:E; [lia|apply Z.ltb_ge in E; lia]. Qed.

(** A new login becomes current. *)
Lemma rotate_ok c i l : heap c !! i = None → hl_pending l = 0 → ok c → ok (set_logins (rotate i l (cl_set c)) c).
Proof.
  intros Hi Hp Hok. pose proof Hok as [].
  assert (Hnew : ∀ j, is_Some (heap c !! j) → j ≠ i) by (intros j [x Ex] ->; congruence).
  assert (Hheld : ∀ j, j ∈ held (rotate i l (cl_set c)) ↔ j = i ∨ j ∈ held (cl_set c)).
  { intros j. rewrite !elem_of_held. cbn. rewrite elem_of_app. destruct (current c) as [k|]; rewrite ?list_elem_of_singleton, ?elem_of_nil; naive_solver. }
  split; cbn; try done.
  - intros j x E. destruct (decide (i = j)) as [<-|H]; [rewrite lookup_insert_eq in E|rewrite lookup_insert_ne in E by done; eauto].
    injection E as <-. rewrite Hp, calls_none; [done|]. intros n again policy E. by apply (Hnew i); [eapply ok_calling0|].
  - intros n again policy j E. apply lookup_insert_is_Some'. eauto.
  - intros n a j e E. destruct (ok_open0 n a j e E) as (Ha & x & Ex & He & Hx). split; [done|]. exists x. cbn. rewrite lookup_insert_ne; [done|]. intros <-. congruence.
  - intros j [Hl Hb]. apply Hheld. destruct (decide (i = j)) as [->|H]; [by left|right]. apply ok_busy0. split; [|done].
    cbn in Hl. unfold lapsed in *. cbn in Hl. by rewrite lookup_insert_ne in Hl.
  - intros j Hj. apply lookup_insert_is_Some'. apply Hheld in Hj as [->|Hj]; auto.
  - unfold held. cbn. constructor.
    + intros Hj. apply (Hnew i); [|done]. apply ok_held0. apply elem_of_held. rewrite elem_of_app in Hj.
      destruct (current c); rewrite ?list_elem_of_singleton, ?elem_of_nil in Hj; naive_solver.
    + destruct (current c) as [k|] eqn:Ek; [|rewrite app_nil_r; by apply retired_nodup].
      apply NoDup_app. split; [by apply retired_nodup|]. split; [|by apply NoDup_singleton].
      intros j Hj Hk. apply list_elem_of_singleton in Hk as ->. by apply (current_not_retired (cl_set c) k).
  - intros n r out j E Hj. destruct (ok_revoking0 n r out j E Hj) as (Hs & Hn & Hsome). split; [done|]. split; [|by apply lookup_insert_is_Some'; auto].
    intros Hin. apply Hheld in Hin as [->|?]; [|done]. by apply (Hnew i).
  - intros j Hj. destruct (ok_revoked0 j Hj) as (Hs & Hn & Hsome). split; [done|]. split; [|by apply lookup_insert_is_Some'; auto].
    cbn. intros [= ->]. by apply (Hnew j).
Qed.

(** Vault is asked to revoke a login handed out for it. *)
Lemma asked_ok c n r i out : cl_phases c !! n = Some (Revoking r (i :: out)) → ok c →
  ok (set_phase n (Revoking r out) (set_vault (cl_sessions c) (i :: cl_revoked c) c)).
Proof.
  intros E Hok. destruct (ok_revoking c Hok n r _ i E ltac:(apply list_elem_of_here)) as (Hs & Hn & Hsome).
  assert (H : ok (set_phase n (Revoking r out) c)).
  { apply ok_phase; [intros ? ? ? E'; congruence|done| |done]. intros r' out' [= <- <-].
    pose proof (ok_once c Hok n r _ E) as Hnd. inversion Hnd; subst. split; [done|]. intros j Hj. assert (j ∈ i :: out) by (by apply elem_of_cons; right).
    split; [by apply (ok_revoking c Hok n r _ j E)|]. intros m q out' Hm E' Hj'. apply Hm. by apply (ok_apart c Hok m n q r _ _ j E' E). }
  destruct H. split; cbn in *; try done.
  intros j Hj. apply elem_of_cons in Hj as [->|Hj]; [|by apply ok_revoked0]. split; [by apply settled_phase|]. split; [|done].
  cbn. intros Hc. by apply Hn, held_current.
Qed.

(** A login whose revoke failed is kept again. *)
Lemma requeue_ok c i : released c i → (∀ n r out, cl_phases c !! n = Some (Revoking r out) → i ∉ out) → ok c → ok (set_logins (requeue i (cl_set c)) c).
Proof.
  intros (Hs & Hn & Hsome) Hout Hok. pose proof Hok as [].
  assert (Hheld : ∀ j, j ∈ held (requeue i (cl_set c)) ↔ j = i ∨ j ∈ held (cl_set c)).
  { intros j. rewrite !elem_of_held. cbn. rewrite elem_of_app, list_elem_of_singleton. naive_solver. }
  split; cbn; try done.
  - intros j Hb. apply Hheld. right. by apply ok_busy0.
  - intros j Hj. apply Hheld in Hj as [->|Hj]; auto.
  - assert (Hp : held (requeue i (cl_set c)) = held (cl_set c) ++ [i]) by (unfold held; cbn; by destruct (current c)).
    rewrite Hp. apply NoDup_app. split; [done|]. split; [|by apply NoDup_singleton]. intros j Hj Hk. by apply list_elem_of_singleton in Hk as ->.
  - intros n r out j E Hj. destruct (ok_revoking0 n r out j E Hj) as (Hj1 & Hj2 & Hj3). split; [done|]. split; [|done].
    intros Hin. apply Hheld in Hin as [->|?]; [|done]. by apply (Hout n r out E).
Qed.

Lemma revoke_ok c n r i out (s : loginSet) : cl_phases c !! n = Some (Revoking r (i :: out)) → s = cl_set c ∨ s = requeue i (cl_set c) → ok c →
  ok (set_phase n (Revoking r out) (set_logins s (set_vault (cl_sessions c) (i :: cl_revoked c) c))).
Proof.
  intros E Hs Hok. pose proof (asked_ok c n r i out E Hok) as H. destruct Hs as [-> | ->]; [by destruct H|].
  apply (requeue_ok (set_phase n (Revoking r out) (set_vault (cl_sessions c) (i :: cl_revoked c) c))); [| |done].
  - destruct (ok_revoking c Hok n r _ i E ltac:(apply list_elem_of_here)) as (Hset & ?). split; [by apply settled_phase|done].
  - intros m q out' E' Hi. apply phase_insert in E' as [[-> [= -> ->]]|[Hm E']].
    + pose proof (ok_once c Hok n r _ E) as Hnd. by inversion Hnd.
    + apply Hm. apply (ok_apart c Hok m n q r out' (i :: out) i E' E Hi). apply list_elem_of_here.
Qed.

Lemma ok_set_tick c mu t : ok c → ok (set_tick mu t c).
Proof. by intros []. Qed.
Lemma ok_set_missing c m : ok c → ok (set_missing m c).
Proof. by intros []. Qed.

(** ** Every step keeps custody *)

Lemma at_phase c n p : cl_phases c !! n = Some p → (∀ again policy i, p ≠ Calling again policy i) → not_calling c n.
Proof. intros E H again policy i E'. rewrite E in E'. injection E' as ->. by destruct (H again policy i). Qed.
Lemma at_none c n : cl_phases c !! n = None → not_calling c n.
Proof. intros E again policy i. by rewrite E. Qed.

Lemma ok_go_on c n p q : cl_phases c !! n = Some q → (∀ again policy i, q ≠ Calling again policy i) →
  match p with Calling _ _ _ | Open _ _ _ | Revoking _ _ => False | _ => True end → ok c → ok (set_phase n p c).
Proof.
  intros E Hq Hp Hok. apply ok_phase; [by apply (at_phase c n q)|by destruct p| |done]. by intros ? ? ->.
Qed.

Lemma granted_pending maxTTL l started : granted maxTTL l started → hl_pending l = 0.
Proof. by intros (? & ? & ? & -> & _). Qed.

Lemma forget_ok c n accessor i expiry : cl_phases c !! n = Some (Open accessor i expiry) → ok c → ok (set_phase n Closing (set_logins (forget accessor (cl_set c)) c)).
Proof.
  intros E Hok. assert (H : ok (set_phase n Closing c)) by (by apply (ok_go_on c n Closing _ E)).
  apply (ok_set (set_phase n Closing c) (forget accessor (cl_set c))); [|done].
  apply (forget_shrinks (set_phase n Closing c)); [done|]. intros m j e E'. apply phase_insert in E' as [[-> E']|[Hm E']]; [done|].
  apply Hm. by apply (ok_accessor c Hok m n accessor j i e expiry).
Qed.

Lemma ok_step o maxTTL c c' : step o maxTTL c c' → ok c → ok c'.
Proof.
  intros Hstep Hok. destruct Hstep.
  - by apply ok_time.
  - apply (acquire_ok o); [by apply at_none|done|done].
  - apply (acquire_ok o); [by eapply at_phase|done|done].
  - by eapply ok_go_on.
  - eapply created_ok; eauto using session_expiry_le.
  - by eapply done_ok.
  - by eapply done_ok.
  - by eapply ok_go_on.
  - by apply (ok_go_on (set_missing _ c) n Ended (Refused true policy i)); [done|done|done|apply ok_set_missing].
  - by eapply ok_go_on.
  - by eapply ok_go_on.
  - by apply (ok_go_on (set_tick _ _ c) n (Relogin policy (cl_now c)) (Refused false policy i)); [done|done|done|apply ok_set_tick].
  - by apply (ok_go_on (set_tick _ _ c) n Ended (Relogin policy started)); [done|done|done|apply ok_set_tick].
  - apply (ok_go_on (set_tick None (cl_tick c) (set_logins (rotate i l (cl_set c)) c)) n (Retry policy) (Relogin policy started)); [done|done|done|].
    apply ok_set_tick, rotate_ok; [done|by eapply granted_pending|done].
  - by eapply forget_ok.
  - eapply idle_ok; [done|by eapply at_phase|done].
  - eapply idle_ok; [done|by apply at_none|done].
  - apply (revoke_ok c n retries i out); [done| |done]. destruct result, retries; auto.
  - apply ok_set; [by apply renew_shrinks|done].
  - by apply ok_set_tick.
  - by apply ok_set_tick.
  - by apply ok_set_tick.
  - by apply ok_set_tick.
  - apply ok_set_missing, (ok_set_tick (set_logins (rotate i l (cl_set c)) c)), rotate_ok; [done|by eapply granted_pending|done].
  - apply (drain_ok (set_tick (cl_mu c) TickStopped c)); [done|by apply at_none|by apply ok_set_tick].
Qed.

Lemma first_ok now l : hl_pending l = 0 → ok (first_client now l).
Proof.
  intros Hp. split; cbn; try done.
  - intros i l' E. apply lookup_singleton_Some in E as [<- <-]. by rewrite Hp, calls_none.
  - by intros i [_ [(n & again & policy & E)|(n & a & e & E & _)]].
  - intros i Hi. apply list_elem_of_singleton in Hi as ->. rewrite lookup_singleton_eq. eauto.
  - by apply NoDup_singleton.
  - intros i Hi. by apply elem_of_nil in Hi.
Qed.

Lemma logins_ok o maxTTL c : reachable o maxTTL c → ok c.
Proof.
  induction 1 as [now l Hg Hm|c c' _ IH Hs]; [apply first_ok; by eapply granted_pending|by eapply ok_step].
Qed.

(** ** The schedule *)

(** The least time between two logins. *)
Definition gap (o : reauthOptions) : Z := Z.min (ro_interval o) deniedReloginAfter.

(** Every login so far is at least [gap] older than [t]. *)
Definition older (o : reauthOptions) (c : client) (t : Z) : Prop := ∀ i l, heap c !! i = Some l → hl_issued l + gap o <= t.

(** The login under way, and who holds [loginMu]. *)
Definition logging_in (c : client) (owner : option nat) (started : Z) : Prop :=
  match owner with
  | Some n => ∃ policy, cl_phases c !! n = Some (Relogin policy started)
  | None => cl_tick c = TickLogin started
  end.

Record spaced (o : reauthOptions) (maxTTL : Z) (c : client) : Prop := {
  sp_apart : ∀ i j l x, heap c !! i = Some l → heap c !! j = Some x → i ≠ j → hl_issued l + gap o <= hl_issued x ∨ hl_issued x + gap o <= hl_issued l;
  sp_issued : ∀ i l, heap c !! i = Some l → hl_issued l <= cl_now c ∧ hl_hardExpiry l <= hl_issued l + maxTTL;
  sp_current : ∀ k, current c = Some k → ∃ l, heap c !! k = Some l ∧ ∀ i x, heap c !! i = Some x → hl_issued x <= hl_issued l;
  sp_running : cl_tick c ≠ TickStopped → is_Some (current c);
  sp_login : ∀ owner started, logging_in c owner started → cl_mu c = Some owner ∧ older o c started ∧ started <= cl_now c;
  sp_due : ∀ now, cl_tick c = TickDue now → now <= cl_now c;
}.

(** Changes that leave the times of the logins alone. *)
Definition same_times (h h' : gmap nat heldLogin) : Prop :=
  ∀ i, option_Forall2 (λ l l', hl_issued l' = hl_issued l ∧ hl_hardExpiry l' = hl_hardExpiry l) (h !! i) (h' !! i).

Lemma same_times_refl h : same_times h h.
Proof. intros i. destruct (h !! i); by constructor. Qed.
Lemma same_times_insert h i l l' : h !! i = Some l → hl_issued l' = hl_issued l → hl_hardExpiry l' = hl_hardExpiry l → same_times h (<[i := l']> h).
Proof.
  intros E H1 H2 j. destruct (decide (i = j)) as [<-|H]; [rewrite lookup_insert_eq, E; by constructor|rewrite lookup_insert_ne by done].
  apply same_times_refl.
Qed.
Lemma same_times_imap h (P : nat → bool) (f : heldLogin → heldLogin) : (∀ l, hl_issued (f l) = hl_issued l ∧ hl_hardExpiry (f l) = hl_hardExpiry l) →
  same_times h (map_imap (λ i l, Some (if P i then f l else l)) h).
Proof. intros Hf i. rewrite map_lookup_imap. destruct (h !! i) as [l|]; cbn; constructor. destruct (P i); auto. Qed.
#[local] Hint Resolve same_times_refl : core.

Lemma times_back h h' i l' : same_times h h' → h' !! i = Some l' → ∃ l, h !! i = Some l ∧ hl_issued l' = hl_issued l ∧ hl_hardExpiry l' = hl_hardExpiry l.
Proof. intros H E. specialize (H i). rewrite E in H. inversion H as [l ? [H1 H2] El|]; subst. eauto. Qed.
Lemma times_on h h' i l : same_times h h' → h !! i = Some l → ∃ l', h' !! i = Some l' ∧ hl_issued l' = hl_issued l.
Proof. intros H E. specialize (H i). rewrite E in H. inversion H as [? l' [H1 H2] Ea Eb|]; subst. eauto. Qed.

Lemma same_times_acquire o now s i s' : acquire o now s = Some (i, s') → same_times (ls_heap s) (ls_heap s') ∧ ls_current s' = ls_current s.
Proof.
  unfold acquire. destruct (ls_current s) as [k|] eqn:Ek; [|done]. cbn. destruct (ls_heap s !! k) as [l|] eqn:E; [|done]. cbn. destruct (negb _); [done|].
  intros [= <- <-]. split; [|done]. by apply (same_times_insert _ _ l).
Qed.
Lemma same_times_done i a e s : same_times (ls_heap s) (ls_heap (mint_done i a e s)) ∧ ls_current (mint_done i a e s) = ls_current s.
Proof. unfold mint_done. destruct (ls_heap s !! i) as [l|] eqn:E; [|done]. split; [|done]. apply (same_times_insert _ _ l); [done|by case_bool_decide..]. Qed.
Lemma same_times_forget a s : same_times (ls_heap s) (ls_heap (forget a s)).
Proof. by apply (same_times_imap _ (λ i, bool_decide (i ∈ held s))). Qed.
Lemma same_times_idle now s s' out : idle now s = (s', out) → same_times (ls_heap s) (ls_heap s') ∧ ls_current s' = ls_current s.
Proof. intros [= <- <-]. split; [|done]. by apply (same_times_imap _ (λ i, bool_decide (i ∈ ls_retired s))). Qed.
Lemma same_times_drain s s' out : drain s = (s', out) → ls_heap s' = ls_heap s ∧ ∀ k, ls_current s' = Some k → ls_current s = Some k.
Proof. unfold drain. destruct (ls_current s) as [k|]; [destruct (empty s k)|]; by intros [= <- <-]. Qed.
Lemma same_times_renew i now lease s : same_times (ls_heap s) (ls_heap (renew_login i now lease s)) ∧ ls_current (renew_login i now lease s) = ls_current s.
Proof. unfold renew_login. destruct (ls_heap s !! i) as [l|] eqn:E; [|done]. split; [|done]. by apply (same_times_insert _ _ l). Qed.

Lemma spaced_frame o maxTTL c c' : spaced o maxTTL c → same_times (heap c) (heap c') → cl_now c <= cl_now c' →
  (∀ k, current c' = Some k → current c = Some k) →
  (cl_tick c' ≠ TickStopped → cl_tick c ≠ TickStopped ∧ current c' = current c) →
  (∀ owner started, logging_in c' owner started → cl_mu c' = Some owner ∧ older o c started ∧ started <= cl_now c') →
  (∀ now, cl_tick c' = TickDue now → now <= cl_now c') → spaced o maxTTL c'.
Proof.
  intros [] Hh Hnow Hcur Hrun Hlog Hdue. split; [| | | | |done].
  - intros i j l x Ei Ej Hne. destruct (times_back _ _ _ _ Hh Ei) as (l0 & El & -> & _). destruct (times_back _ _ _ _ Hh Ej) as (x0 & Ex & -> & _). eauto.
  - intros i l E. destruct (times_back _ _ _ _ Hh E) as (l0 & El & -> & ->). destruct (sp_issued0 i l0 El). lia.
  - intros k E. destruct (sp_current0 k (Hcur k E)) as (l & El & Hmax). destruct (times_on _ _ _ _ Hh El) as (l' & El' & Hi). exists l'. split; [done|].
    intros i x Ex. destruct (times_back _ _ _ _ Hh Ex) as (x0 & Ex0 & -> & _). rewrite Hi. eauto.
  - intros H. destruct (Hrun H) as [H1 ->]. auto.
  - intros owner started H. destruct (Hlog owner started H) as (H1 & H2 & H3). split; [done|]. split; [|done].
    intros i l E. destruct (times_back _ _ _ _ Hh E) as (l0 & El & -> & _). by apply (H2 i).
Qed.

(** The login whose request was made at [started] becomes current. *)
Lemma spaced_rotate o maxTTL c i l started : 0 <= gap o → spaced o maxTTL c → heap c !! i = None → granted maxTTL l started →
  older o c started → started <= cl_now c → (∀ owner t, ¬ logging_in c owner t) →
  spaced o maxTTL (set_logins (rotate i l (cl_set c)) c).
Proof.
  intros Hgap [] Hi (token & ttl & lease & -> & Httl & _) Hold Hst Hlog. set (l := new_login token started ttl lease).
  assert (Hnew : ∀ j x, (<[i := l]> (heap c)) !! j = Some x → (j = i ∧ x = l) ∨ (j ≠ i ∧ heap c !! j = Some x ∧ hl_issued x + gap o <= hl_issued l)).
  { intros j x E. destruct (decide (i = j)) as [<-|Hne]; [rewrite lookup_insert_eq in E|rewrite lookup_insert_ne in E by done]; [naive_solver|].
    right. split; [done|]. split; [done|]. by apply (Hold j). }
  split; cbn.
  - intros j k x y Ej Ek Hne. apply Hnew in Ej as [[-> ->]|(? & Ej & ?)]; apply Hnew in Ek as [[-> ->]|(? & Ek & ?)]; [done|by right|by left|eauto].
  - intros j x E. apply Hnew in E as [[-> ->]|(? & E & _)]; [cbn; lia|eauto].
  - intros k [= <-]. exists l. rewrite lookup_insert_eq. split; [done|]. intros j x E. apply Hnew in E as [[-> ->]|(? & E & ?)]; lia.
  - intros _. eauto.
  - intros owner t H. exfalso. by apply (Hlog owner t).
  - done.
Qed.

Definition no_login (p : phase) : Prop := match p with Relogin _ _ => False | _ => True end.

Lemma logging_back c c' n p owner started : cl_tick c' = cl_tick c → cl_phases c' = <[n := p]> (cl_phases c) → no_login p →
  logging_in c' owner started → logging_in c owner started ∧ owner ≠ Some n.
Proof.
  intros Ht Hp Hno. unfold logging_in. destruct owner as [m|]; [|rewrite Ht; done]. intros [policy E]. rewrite Hp in E.
  apply phase_insert in E as [[-> <-]|[Hm E]]; [done|]. split; [eauto|congruence].
Qed.

(** An owner goes on, and no login begins or ends. *)
Lemma spaced_phase o maxTTL c c' n p : spaced o maxTTL c → cl_now c' = cl_now c → cl_tick c' = cl_tick c → cl_mu c' = cl_mu c →
  cl_phases c' = <[n := p]> (cl_phases c) → no_login p → same_times (heap c) (heap c') → current c' = current c → spaced o maxTTL c'.
Proof.
  intros Hsp Hn Ht Hm Hp Hno Hh Hc. apply (spaced_frame o maxTTL c); [done|done|lia|by rewrite Hc|by rewrite Ht, Hc| |].
  - intros owner started H. apply (logging_back c c' n p) in H as [H _]; [|done..]. rewrite Hm, Hn. by apply (sp_login _ _ _ Hsp).
  - intros now. rewrite Ht, Hn. apply (sp_due _ _ _ Hsp).
Qed.

(** The owner of [loginMu] lets go of it. *)
Lemma spaced_unlock o maxTTL c n policy started p : cl_phases c !! n = Some (Relogin policy started) → no_login p →
  spaced o maxTTL c → spaced o maxTTL (set_phase n p (set_tick None (cl_tick c) c)) ∧ (∀ owner t, ¬ logging_in (set_phase n p (set_tick None (cl_tick c) c)) owner t).
Proof.
  intros E Hno Hsp. assert (Hnone : ∀ owner t, ¬ logging_in (set_phase n p (set_tick None (cl_tick c) c)) owner t).
  { intros owner t H. apply (logging_back c _ n p) in H as [H Hne]; [|done..].
    destruct (sp_login _ _ _ Hsp (Some n) started ltac:(by exists policy)) as [H1 _]. destruct (sp_login _ _ _ Hsp owner t H) as [H2 _]. congruence. }
  split; [|done]. apply (spaced_frame o maxTTL c); [done|done|done|done|done| |apply (sp_due _ _ _ Hsp)].
  intros owner t H. by apply Hnone in H.
Qed.

Lemma spaced_unlock_tick o maxTTL c started : cl_tick c = TickLogin started →
  spaced o maxTTL c → spaced o maxTTL (set_tick None TickIdle c) ∧ (∀ owner t, ¬ logging_in (set_tick None TickIdle c) owner t).
Proof.
  intros E Hsp. assert (Hnone : ∀ owner t, ¬ logging_in (set_tick None TickIdle c) owner t).
  { intros [m|] t H; [|done]. destruct (sp_login _ _ _ Hsp None started E) as [H1 _]. destruct (sp_login _ _ _ Hsp (Some m) t H) as [H2 _]. congruence. }
  split; [|done]. apply (spaced_frame o maxTTL c); [done|done|done|done|by rewrite E| |done].
  intros owner t H. by apply Hnone in H.
Qed.

Lemma no_login_unlocked o maxTTL c : spaced o maxTTL c → cl_mu c = None → ∀ owner t, ¬ logging_in c owner t.
Proof. intros Hsp Hm owner t H. destruct (sp_login _ _ _ Hsp owner t H) as [H1 _]. congruence. Qed.

Lemma current_older o maxTTL c k l d t : spaced o maxTTL c → current c = Some k → heap c !! k = Some l → gap o <= d → hl_issued l + d <= t → older o c t.
Proof.
  intros Hsp Ek El Hd Ht i x Ex. destruct (sp_current _ _ _ Hsp k Ek) as (l' & El' & Hmax). rewrite El in El'. injection El' as <-.
  specialize (Hmax i x Ex). lia.
Qed.

(** A denial logs in again only if the current login is old enough. *)
Lemma denial_older o maxTTL c i : spaced o maxTTL c → after_denial (cl_now c) i (cl_set c) = LogIn → older o c (cl_now c).
Proof.
  intros Hsp. unfold after_denial. destruct (current c) as [k|] eqn:Ek; [|done]. destruct (bool_decide (k = i)); [|done].
  destruct (sp_current _ _ _ Hsp k Ek) as (l & El & _). rewrite El. destruct (cl_now c <? hl_issued l + deniedReloginAfter) eqn:E; [done|]. intros _.
  apply Z.ltb_ge in E. eapply current_older; [done..| |done]. unfold gap. lia.
Qed.

(** So does the schedule. *)
Lemma due_older o maxTTL c now : spaced o maxTTL c → cl_tick c = TickDue now → rotationDue o now (cl_set c) = true → older o c (cl_now c).
Proof.
  intros Hsp Et. pose proof (sp_due _ _ _ Hsp now Et) as Hle. destruct (sp_running _ _ _ Hsp ltac:(by rewrite Et)) as [k Ek].
  destruct (sp_current _ _ _ Hsp k Ek) as (l & El & _). unfold rotationDue. rewrite Ek, El. intros H.
  apply negb_true_iff, Z.ltb_ge in H. eapply (current_older _ _ _ _ _ (ro_interval o)); [done..| |lia]. unfold gap. lia.
Qed.

Lemma spaced_step o maxTTL c c' : 0 <= gap o → step o maxTTL c c' → spaced o maxTTL c → spaced o maxTTL c'.
Proof.
  intros Hgap Hstep Hsp. destruct Hstep.
  - apply (spaced_frame o maxTTL c); try done.
    + intros owner started H'. destruct (sp_login _ _ _ Hsp owner started H') as (? & ? & ?). cbn. repeat split; [done..|lia].
    + intros now H'. specialize (sp_due _ _ _ Hsp now H'). cbn. lia.
  - destruct (same_times_acquire _ _ _ _ _ H0). by eapply spaced_phase.
  - destruct (same_times_acquire _ _ _ _ _ H0). by eapply spaced_phase.
  - by eapply spaced_phase.
  - destruct (same_times_done i accessor (session_expiry (hl_hardExpiry l) started ttl) (cl_set c)). by eapply spaced_phase.
  - destruct (same_times_done i [] 0 (cl_set c)). by eapply spaced_phase.
  - destruct (same_times_done i [] 0 (cl_set c)). by eapply spaced_phase.
  - by eapply spaced_phase.
  - by eapply spaced_phase.
  - by eapply spaced_phase.
  - by eapply spaced_phase.
  - apply (spaced_frame o maxTTL c); try done; [|apply (sp_due _ _ _ Hsp)].
    intros owner started Hl. assert (Hno : logging_in c owner started ∨ (owner = Some n ∧ started = cl_now c)).
    { destruct owner as [m|]; [|by left]. destruct Hl as [pol Hl]. apply phase_insert in Hl as [[-> [= _ ->]]|[? Hl]]; [by right|left; by exists pol]. }
    destruct Hno as [Hno|[-> ->]]; [by apply (no_login_unlocked _ _ _ Hsp) in Hno|]. split; [done|]. split; [|done]. by apply (denial_older o maxTTL c i).
  - by apply (spaced_unlock o maxTTL c n policy started).
  - destruct (spaced_unlock o maxTTL c n policy started (Retry policy) H I Hsp) as [Hu1 Hu2].
    destruct (sp_login _ _ _ Hsp (Some n) started ltac:(by exists policy)) as (_ & Hold & Hle).
    by apply (spaced_rotate o maxTTL (set_phase n (Retry policy) (set_tick None (cl_tick c) c)) i l started).
  - eapply spaced_phase; try done. apply same_times_forget.
  - destruct (same_times_idle _ _ _ _ H0). by eapply spaced_phase.
  - destruct (same_times_idle _ _ _ _ H0). by eapply spaced_phase.
  - eapply spaced_phase; try done; destruct result, retries; done.
  - destruct (same_times_renew i now leaseDuration (cl_set c)). apply (spaced_frame o maxTTL c); try done.
    + cbn. by rewrite H4.
    + apply (sp_login _ _ _ Hsp).
    + apply (sp_due _ _ _ Hsp).
  - apply (spaced_frame o maxTTL c); try done.
    + by rewrite H.
    + intros [m|] started Hl; [|done]. by apply (sp_login _ _ _ Hsp (Some m)).
    + by intros ? [= <-].
  - apply (spaced_frame o maxTTL c); try done.
    + by rewrite H.
    + intros [m|] started Hl; [by destruct (no_login_unlocked _ _ _ Hsp H0 (Some m) started)|]. injection Hl as <-. split; [done|]. split; [|done]. by apply (due_older o maxTTL c now).
  - apply (spaced_frame o maxTTL c); try done.
    + by rewrite H.
    + intros [m|] started Hl; [by destruct (no_login_unlocked _ _ _ Hsp H0 (Some m) started)|done].
  - by apply (spaced_unlock_tick o maxTTL c started).
  - destruct (spaced_unlock_tick o maxTTL c started H Hsp) as [H2' H3']. destruct (sp_login _ _ _ Hsp None started H) as (_ & Hold & Hle).
    assert (Hs : spaced o maxTTL (set_logins (rotate i l (cl_set c)) (set_tick None TickIdle c))) by (by apply (spaced_rotate o maxTTL (set_tick None TickIdle c) i l started)).
    by destruct Hs.
  - destruct (same_times_drain _ _ _ H1) as [Hh Hc]. apply (spaced_frame o maxTTL c); try done.
    + cbn. by rewrite Hh.
    + intros owner started Hl. destruct (sp_login _ _ _ Hsp owner started) as (? & ? & ?); [|done].
      destruct owner as [m|]; [|done]. destruct Hl as [pol Hl]. apply phase_insert in Hl as [[-> ?]|[? Hl]]; [done|by exists pol].
Qed.

Lemma reachable_spaced o maxTTL c : 0 <= gap o → reachable o maxTTL c → spaced o maxTTL c.
Proof.
  intros Hgap. induction 1 as [now l (token & ttl & lease & -> & Httl & _) Hm|c c' _ IH Hs]; [|by eapply spaced_step].
  split; cbn.
  - intros i j l x Ei Ej Hne. apply lookup_singleton_Some in Ei as [<- _]. by apply lookup_singleton_Some in Ej as [<- _].
  - intros i l E. apply lookup_singleton_Some in E as [<- <-]. cbn. lia.
  - intros k [= <-]. eexists. rewrite lookup_singleton_eq. split; [done|]. intros i x E. by apply lookup_singleton_Some in E as [<- <-].
  - eauto.
  - intros [m|] t H; [|done]. by destruct H as [? H].
  - done.
Qed.
