(* ===== verification/VaultLoginsTheorems.v ===== *)
(** * Vault logins: no session loses its login, and few logins are held

    The properties of the client of [VaultLogins], from the invariants of
    [VaultLoginsFacts], at traces that log in again on schedule and after
    refused mints. *)

From S2P Require Import Prelude GoString VaultLogins VaultLoginsFacts.

(** ** A schedule *)

Abbreviation Hour := (60 * Minute).
(** The set a successful [acquire] leaves. *)
Definition after_acquire (o : reauthOptions) (now : Z) (s : loginSet) : loginSet := match acquire o now s with Some (_, s') => s' | None => s end.

Definition ask (n i : nat) (p : bytes) (c : client) : client := set_phase n (Calling false p i) (set_logins (after_acquire defaultReauthOptions (cl_now c) (cl_set c)) c).
Definition answer (n i : nat) (a : bytes) (hard started ttl : Z) (c : client) : client :=
  set_phase n (Open a i (session_expiry hard started ttl))
    (set_logins (mint_done i a (session_expiry hard started ttl) (cl_set c)) (set_vault ({[a]} ∪ cl_sessions c) (cl_revoked c) c)).

Definition login_at (b : bytes) (t ttl : Z) : heldLogin := new_login b t ttl 3600.

(** A session, the scheduled login, a second mint; then the session ends and its
    login is revoked. *)
Definition sample_open : client := answer 0 0 (#"s") (2 * Hour) 0 Hour (ask 0 0 (#"p") (first_client 0 (login_at (#"A") 0 (2 * Hour)))).
Definition sample_login : client := set_tick (Some None) (TickLogin (20 * Minute)) (set_tick None (TickDue (20 * Minute)) (set_now (20 * Minute) sample_open)).
Definition sample_rotated : client :=
  set_missing ∅ (set_tick None TickIdle (set_logins (rotate 1 (login_at (#"B") (20 * Minute) (2 * Hour)) (cl_set sample_login)) sample_login)).
Definition sample_asked : client := ask 1 1 (#"p") sample_rotated.
Definition sample_closing : client := set_phase 0 Closing (set_logins (forget (#"s") (cl_set sample_asked)) sample_asked).
Definition sample_swept : client := set_phase 0 (Revoking true [0%nat]) (set_logins (idle (20 * Minute) (cl_set sample_closing)).1 sample_closing).
Definition sample_revoked : client :=
  set_phase 0 (Revoking true []) (set_logins (cl_set sample_swept) (set_vault (cl_sessions sample_swept) (0%nat :: cl_revoked sample_swept) sample_swept)).

Lemma login_granted b t ttl maxTTL : 0 < ttl <= maxTTL → granted maxTTL (login_at b t ttl) t.
Proof. intros H. exists b, ttl, 3600. split; [done|]. split; [done|lia]. Qed.

Lemma sample_open_reachable : reachable defaultReauthOptions (2 * Hour) sample_open.
Proof.
  eapply reach_step; [eapply reach_step; [apply (reach_first _ _ 0 (login_at (#"A") 0 (2 * Hour)))|]|].
  - apply login_granted. done.
  - vm_compute. done.
  - apply (s_acquire _ _ _ 0 (#"p") 0); vm_compute; reflexivity.
  - apply (s_created _ _ (ask 0 0 (#"p") (first_client 0 (login_at (#"A") 0 (2 * Hour)))) 0 false (#"p") 0
      (with_pending 1 (login_at (#"A") 0 (2 * Hour))) (#"s") 0 Hour); vm_compute; done.
Qed.

Lemma sample_rotated_reachable : reachable defaultReauthOptions (2 * Hour) sample_rotated.
Proof.
  eapply reach_step; [eapply reach_step; [eapply reach_step; [eapply reach_step; [exact sample_open_reachable|]|]|]|].
  - apply (s_time _ _ _ (20 * Minute)). vm_compute. done.
  - apply (s_due _ _ _ (20 * Minute)); vm_compute; done.
  - apply (s_tick_login _ _ _ (20 * Minute)); vm_compute; reflexivity.
  - apply (s_tick_done _ _ sample_login (20 * Minute) 1 (login_at (#"B") (20 * Minute) (2 * Hour))); [vm_compute; reflexivity..|].
    apply login_granted. done.
Qed.

Lemma sample_revoked_reachable : reachable defaultReauthOptions (2 * Hour) sample_revoked.
Proof.
  eapply reach_step; [eapply reach_step; [eapply reach_step; [eapply reach_step; [exact sample_rotated_reachable|]|]|]|].
  - apply (s_acquire _ _ _ 1 (#"p") 1); vm_compute; reflexivity.
  - apply (s_end _ _ sample_asked 0 (#"s") 0 Hour); vm_compute; reflexivity.
  - apply (s_end_idle _ _ _ 0); vm_compute; reflexivity.
  - apply (s_revoke _ _ sample_swept 0 true 0 [] loginRevoked); vm_compute; reflexivity.
Qed.

(** ** No session loses its login *)

(** C16: a login that Vault was ever asked to revoke, by the refresh loop, by the
    end of a session or at close, carries no mint in flight and no session
    before its expiry, at that time or later, whatever was refused, renewed,
    replaced and requeued meanwhile; and until its maximum lifetime the login of
    a mint or of a session is still held, so that it is renewed. *)
Theorem sessions_keep_their_login o maxTTL c i : reachable o maxTTL c → needed c i →
  i ∉ cl_revoked c ∧ (lapsed (cl_now c) (cl_set c) i = false → i ∈ held (cl_set c)).
Proof.
  intros Hr Hn. apply logins_ok in Hr as Hok. split.
  - intros Hi. destruct (ok_revoked c Hok i Hi) as ((H1 & H2) & _).
    destruct Hn as [(n & again & policy & E)|(n & a & e & E & Hlt)]; [by apply (H1 _ _ _ E)|]. specialize (H2 _ _ _ E). lia.
  - intros Hl. apply (ok_busy c Hok). done.
Qed.

Lemma sessions_keep_their_login_witness :
  cl_revoked sample_revoked = [0%nat] ∧ 1%nat ∉ cl_revoked sample_revoked ∧
  (lapsed (cl_now sample_revoked) (cl_set sample_revoked) 1 = false → 1%nat ∈ held (cl_set sample_revoked)).
Proof.
  split; [reflexivity|]. apply (sessions_keep_their_login defaultReauthOptions (2 * Hour) sample_revoked 1 sample_revoked_reachable).
  left. exists 1%nat, false, (#"p"). vm_compute. reflexivity.
Defined.

(** ** Few logins are held *)

(** Distinct indices whose values lie in [(a, b]], pairwise at least [g] apart. *)
Lemma spread_bounded (f : nat → Z) (l : list nat) a b g : 0 < g → a <= b → NoDup l →
  (∀ i, i ∈ l → a < f i <= b) → (∀ i j, i ∈ l → j ∈ l → i ≠ j → f i + g <= f j ∨ f j + g <= f i) →
  Z.of_nat (length l) * g < b - a + g.
Proof.
  intros Hg Hab Hnd Hin Hsp. set (h := λ i, (f i - a - 1) / g).
  assert (Hlen : (length (h <$> l) <= length (seqZ 0 ((b - a - 1) / g + 1)))%nat).
  { apply submseteq_length, NoDup_submseteq.
    - apply NoDup_fmap_2_strong; [|done]. intros i j Hi Hj E. destruct (decide (i = j)) as [|Hne]; [done|exfalso].
      unfold h in E. pose proof (Z.div_mod (f i - a - 1) g ltac:(lia)). pose proof (Z.div_mod (f j - a - 1) g ltac:(lia)).
      pose proof (Z.mod_pos_bound (f i - a - 1) g Hg). pose proof (Z.mod_pos_bound (f j - a - 1) g Hg).
      rewrite E in *. destruct (Hsp i j Hi Hj Hne); lia.
    - intros x Hx. apply list_elem_of_fmap in Hx as (i & -> & Hi). destruct (Hin i Hi). apply elem_of_seqZ. unfold h. split; [apply Z.div_pos; lia|].
      rewrite Z.add_0_l. apply Z.lt_succ_r, Z.div_le_mono; lia. }
  rewrite length_fmap, length_seqZ in Hlen. destruct l as [|i l]; [cbn; lia|].
  destruct (Hin i ltac:(apply list_elem_of_here)).
  assert (0 <= (b - a - 1) / g) by (apply Z.div_pos; lia). assert (Z.of_nat (length (i :: l)) <= (b - a - 1) / g + 1) by lia.
  pose proof (Z.mul_div_le (b - a - 1) g Hg). nia.
Qed.

(** The logins still alive at Vault. *)
Definition alive (c : client) : list nat := List.filter (λ i, negb (lapsed (cl_now c) (cl_set c) i)) (held (cl_set c)).

(** C29: at every moment, the logins the client holds that have not reached their
    maximum lifetime are at most that lifetime divided by the least time between
    two logins, rounded up: the refresh interval, or [deniedReloginAfter] where
    refused mints log in sooner, however the refresh loop and any number of
    refused mints interleave. *)
Theorem held_logins_bounded o maxTTL c : 0 < gap o → 0 <= maxTTL → reachable o maxTTL c →
  Z.of_nat (length (alive c)) * gap o < maxTTL + gap o.
Proof.
  intros Hg Ht Hr. apply logins_ok in Hr as Hok. apply (reachable_spaced o maxTTL c ltac:(lia)) in Hr as Hsp.
  set (f := λ i, match ls_heap (cl_set c) !! i with Some l => hl_issued l | None => 0 end).
  assert (Hin : ∀ i, i ∈ alive c → ∃ l, ls_heap (cl_set c) !! i = Some l ∧ f i = hl_issued l ∧ cl_now c < hl_hardExpiry l).
  { intros i Hi. apply elem_of_split in Hi as [_ Hl]. unfold lapsed in Hl. unfold f. destruct (ls_heap (cl_set c) !! i) as [l|]; [|done].
    exists l. split; [done|]. split; [done|]. rewrite negb_involutive in Hl. by apply Z.ltb_lt. }
  pose proof (spread_bounded f (alive c) (cl_now c - maxTTL) (cl_now c) (gap o) Hg ltac:(lia)) as H.
  replace (cl_now c - (cl_now c - maxTTL)) with maxTTL in H by lia. apply H.
  - by apply filter_nodup, ok_nodup.
  - intros i Hi. destruct (Hin i Hi) as (l & El & -> & Hl). destruct (sp_issued _ _ _ Hsp i l El). lia.
  - intros i j Hi Hj Hne. destruct (Hin i Hi) as (l & El & -> & _). destruct (Hin j Hj) as (x & Ex & -> & _).
    by apply (sp_apart _ _ _ Hsp i j l x).
Qed.

Lemma held_logins_bounded_witness : length (alive sample_rotated) = 2%nat ∧ Z.of_nat (length (alive sample_rotated)) * gap defaultReauthOptions < 2 * Hour + gap defaultReauthOptions.
Proof.
  split; [vm_compute; reflexivity|]. apply (held_logins_bounded defaultReauthOptions (2 * Hour) sample_rotated); [vm_compute; reflexivity|vm_compute; discriminate|].
  exact sample_rotated_reachable.
Defined.

(** ** Two readings of the comments *)

(** A login that still holds a session stays current through [CloseContext], and
    goes on minting. *)
Lemma drain_leaves_minting o now s i s' : ls_current s = Some i → empty s i = false → acquire o now s = Some (i, s') → ∃ s'', acquire o now (drain s).1 = Some (i, s'').
Proof.
  intros Ec Ee Ha. unfold drain. rewrite Ec, Ee. cbn. unfold acquire in *. rewrite Ec in Ha. cbn in *.
  destruct (ls_heap s !! i) as [l|]; [|done]. cbn in *. destruct (negb _); [done|eauto].
Qed.

(** One round: a session on the current login [i], then a mint it is refused,
    which logs in again a minute later. *)
Definition hard (i : nat) : Z := Z.of_nat i * Minute + 40 * Minute.
Definition denied_mint (n i : nat) (p : bytes) (c : client) : client := set_phase n (Refused false p i) (set_logins (mint_done i [] 0 (cl_set c)) c).
Definition relogin (n : nat) (p : bytes) (c : client) : client := set_phase n (Relogin p (cl_now c)) (set_tick (Some (Some n)) (cl_tick c) c).
Definition logged (n i : nat) (p : bytes) (l : heldLogin) (c : client) : client := set_phase n (Retry p) (set_tick None (cl_tick c) (set_logins (rotate i l (cl_set c)) c)).

Definition round_login (i : nat) : heldLogin := login_at (#"L") (Z.of_nat i * Minute) (40 * Minute).
Definition round_opened (i : nat) (a : bytes) (c : client) : client := answer (2 * i) i a (hard i) (Z.of_nat i * Minute) Hour (ask (2 * i) i (#"p") c).
Definition round_refused (i : nat) (a : bytes) (c : client) : client :=
  set_now (Z.of_nat (S i) * Minute) (denied_mint (2 * i + 1) i (#"q") (ask (2 * i + 1) i (#"q") (round_opened i a c))).
Definition round (i : nat) (a : bytes) (c : client) : client :=
  logged (2 * i + 1) (S i) (#"q") (round_login (S i)) (relogin (2 * i + 1) (#"q") (round_refused i a c)).

Definition round_first : client := first_client 0 (round_login 0).

Lemma round_opened_reachable i a c l : reachable defaultReauthOptions (40 * Minute) c →
  cl_phases c !! (2 * i)%nat = None → acquire defaultReauthOptions (cl_now c) (cl_set c) = Some (i, after_acquire defaultReauthOptions (cl_now c) (cl_set c)) →
  ls_heap (cl_set (ask (2 * i) i (#"p") c)) !! i = Some l → hl_hardExpiry l = hard i → a ≠ [] → a ∉ cl_sessions c → Z.of_nat i * Minute <= cl_now c →
  reachable defaultReauthOptions (40 * Minute) (round_opened i a c).
Proof.
  intros Hr Hn Ha El Hl Hne Hnew Ht. eapply reach_step; [eapply reach_step; [exact Hr|]|].
  - by apply (s_acquire _ _ c (2 * i) (#"p") i).
  - unfold round_opened, answer. rewrite <- Hl. apply (s_created _ _ _ _ false (#"p")); try done. cbn. by rewrite lookup_insert_eq.
Qed.

Lemma round_reachable i a c : reachable defaultReauthOptions (40 * Minute) (round_opened i a c) →
  let d := round_opened i a c in
  cl_phases d !! (2 * i + 1)%nat = None → acquire defaultReauthOptions (cl_now d) (cl_set d) = Some (i, after_acquire defaultReauthOptions (cl_now d) (cl_set d)) →
  cl_now d <= Z.of_nat (S i) * Minute → (#"q") ∉ cl_missing d → cl_mu d = None →
  after_denial (Z.of_nat (S i) * Minute) i (cl_set (round_refused i a c)) = LogIn → ls_heap (cl_set (round_refused i a c)) !! S i = None →
  reachable defaultReauthOptions (40 * Minute) (round i a c).
Proof.
  intros Hr d Hn Ha Ht Hm Hmu Hd Hh. subst d.
  eapply reach_step; [eapply reach_step; [eapply reach_step; [eapply reach_step; [eapply reach_step; [exact Hr|]|]|]|]|].
  - by apply (s_acquire _ _ _ (2 * i + 1) (#"q") i).
  - apply (s_denied _ _ _ (2 * i + 1) false (#"q") i). cbn. by rewrite lookup_insert_eq.
  - by apply (s_time _ _ _ (Z.of_nat (S i) * Minute)).
  - apply (s_relogin _ _ (round_refused i a c) (2 * i + 1) (#"q") i); try done. cbn. by rewrite lookup_insert_eq.
  - apply (s_relogin_done _ _ _ (2 * i + 1) (#"q") (Z.of_nat (S i) * Minute)); [cbn; by rewrite lookup_insert_eq|done|]. by apply login_granted.
Qed.

Definition three_logins : client := round 1 (#"t") (round 0 (#"s") round_first).

(** Refused mints log in every minute, not every refresh interval: with a
    maximum lifetime of twice the interval, three logins are held, two of them
    for the session on each. *)
Lemma three_logins_held : reachable defaultReauthOptions (40 * Minute) three_logins ∧ 40 * Minute / ro_interval defaultReauthOptions = 2 ∧
  length (alive three_logins) = 3%nat ∧ counts (cl_set three_logins) = (2, 2).
Proof.
  assert (H0 : reachable defaultReauthOptions (40 * Minute) round_first) by (apply reach_first; [by apply login_granted|vm_compute; done]).
  assert (H1 : reachable defaultReauthOptions (40 * Minute) (round 0 (#"s") round_first)).
  { apply round_reachable; [eapply round_opened_reachable; [exact H0|..]|..]; vm_compute; done. }
  split; [|vm_compute; done]. apply round_reachable; [eapply round_opened_reachable; [exact H1|..]|..]; vm_compute; done.
Qed.
