(* ===== verification/MitmScreen.v ===== *)
(** * Screening what comes back ([internal/mitm/header_adapter.go], [strict.go])

    The broker attaches a secret to a request and looks for it, in every form it
    knows, in the response.  [screenedCopy] streams a body whose reads the
    argument [reads] lists; the bytes it hands to the worker's connection are its
    first result, and its outcome, once it ends, the second. *)

From S2P Require Import Prelude GoString GoUrl BrokerAuth Substitute.

(** ** Secrets *)

(** [base64.RawStdEncoding], [base64.URLEncoding], [base64.RawURLEncoding],
    [hex.EncodeToString] *)
Definition no_padding (s : bytes) : bytes := List.filter (λ b, negb (bool_decide (b = x3d))) s.
Definition url_alphabet (s : bytes) : bytes := map (λ b, if bool_decide (b = x2b) then x2d else if bool_decide (b = x2f) then x5f else b) s.
Definition hex (s : bytes) : bytes := flat_map (λ b, [lower_hex (bval b / 16); lower_hex (bval b mod 16)]) s.

Definition representations (s : bytes) : list bytes :=
  let std := EncodeToString s in
  [s; QueryEscape s; PathEscape s; std; no_padding std; url_alphabet std; no_padding (url_alphabet std); hex s; jsonEscapeString s].

(** The values of the map, in any order. *)
Definition secretRepresentations (values : list bytes) : list bytes := flat_map representations values.

Definition containsSecret (data : bytes) (needles : list bytes) : bool := existsb (λ n, negb (bool_decide (n = [])) && Contains data n) needles.

Definition headersContain (h : list (bytes * list bytes)) (needles : list bytes) : bool :=
  existsb (λ '(name, values), containsSecret name needles || existsb (λ v, containsSecret v needles) values) h.

(** ** Bodies *)

(** The greatest [k' <= k], above [longest], such that [data] ends in the first
    [k'] bytes of the needle. *)
Fixpoint longest_tail (data needle : bytes) (longest k : nat) : nat :=
  match k with
  | O => longest
  | S k' => if (k <=? longest)%nat then longest else if HasSuffix data (take k needle) then k else longest_tail data needle longest k'
  end.

Definition partialSuffix (data : bytes) (needles : list bytes) : nat :=
  foldl (λ longest needle, longest_tail data needle longest (min (length needle - 1) (length data))) 0%nat needles.

Inductive read_err := ReadOk | ReadEOF | ReadFailed.

Section Screen.
Context (needles : list bytes) (limit : Z).

(** One [body.Read]: the bytes to write, what is held back, the total; or the
    outcome that ends the copy. *)
Definition screen_read (data pending : bytes) (total : Z) : result bytes (bytes * bytes * Z) :=
  if bool_decide (data = []) then Ok ([], pending, total)
  else
    let total := total + Z.of_nat (length data) in
    if limit <? total then Err #"response_too_large"
    else
      let pending := pending ++ data in
      if containsSecret pending needles then Err #"secret_echo"
      else let release := (length pending - partialSuffix pending needles)%nat in Ok (take release pending, drop release pending, total).

(** [writes] answers [w.Write], as long as it lasts; a write that fails may
    have reached the worker.  With no reads left the copy is still waiting. *)
Fixpoint screenedCopy (reads : list (bytes * read_err)) (writes : list bool) (pending : bytes) (total : Z) : bytes * option bytes :=
  match reads with
  | [] => ([], None)
  | (data, err) :: reads =>
      match screen_read data pending total with
      | Err outcome => ([], Some outcome)
      | Ok (out, pending, total) =>
          let written := if bool_decide (out = []) then (true, writes) else match writes with [] => (true, []) | w :: writes => (w, writes) end in
          if negb (fst written) then (out, Some #"client_gone")
          else match err with
               | ReadEOF => (out ++ pending, Some (match snd written with false :: _ => #"client_gone" | _ => #"completed" end))
               | ReadFailed => (out, Some #"upstream_error")
               | ReadOk => let '(rest, outcome) := screenedCopy reads (snd written) pending total in (out ++ rest, outcome)
               end
      end
  end.
End Screen.

(** ** Paths *)

Definition placeholderMarker : bytes := #"__vault_".
Definition containsPlaceholder (s : bytes) : bool := Contains s placeholderMarker.

Definition unsafePath (path : bytes) : bool :=
  if bool_decide (path = []) || negb (HasPrefix path #"/") || Contains path placeholderMarker || ContainsAny path [x5c; x3b] || Contains path #"//" then true
  else existsb (λ segment, bool_decide (segment = #".") || HasPrefix segment #"..") (Split path x2f).

(** ** What the worker gets *)

(** The bytes the reads bring, up to the one that ends the body. *)
Fixpoint arrived (reads : list (bytes * read_err)) : bytes :=
  match reads with
  | [] => []
  | (data, err) :: reads => data ++ match err with ReadOk => arrived reads | _ => [] end
  end.

Lemma longest_tail_ge data needle longest k : (longest <= longest_tail data needle longest k)%nat.
Proof.
  induction k as [|k IH]; [done|]. cbn [longest_tail]. destruct (S k <=? longest)%nat eqn:E; [done|].
  apply Nat.leb_gt in E. destruct (HasSuffix _ _); [lia|done].
Qed.

Lemma longest_tail_max data needle longest k j : (j <= k)%nat → HasSuffix data (take j needle) = true → (j <= longest_tail data needle longest k)%nat.
Proof.
  induction k as [|k IH]; intros Hj Hs; [lia|]. cbn [longest_tail]. destruct (S k <=? longest)%nat eqn:E; [apply Nat.leb_le in E; lia|].
  destruct (HasSuffix data (take (S k) needle)) eqn:Es; [lia|]. destruct (decide (j = S k)) as [->|]; [congruence|]. apply IH; [lia|done].
Qed.

Lemma partialSuffix_max data needles n j : n ∈ needles → (j <= length n - 1)%nat → (j <= length data)%nat → HasSuffix data (take j n) = true →
  (j <= partialSuffix data needles)%nat.
Proof.
  intros Hn Hj Hd Hs. unfold partialSuffix. set (f := λ longest needle, longest_tail data needle longest (min (length needle - 1) (length data))).
  enough (H : ∀ l0, (j <= foldl f l0 needles)%nat) by apply H. induction needles as [|m needles IH]; intros l0; [by apply elem_of_nil in Hn|].
  cbn. apply elem_of_cons in Hn as [<-|Hn]; [|by apply IH].
  assert (Hmono : ∀ l l1, (l1 <= foldl f l1 l)%nat).
  { clear. intros l. unfold f. induction l as [|x l IH]; intros l1; [done|]. cbn. etrans; [|apply IH]. apply longest_tail_ge. }
  etrans; [|apply Hmono]. apply longest_tail_max; [lia|done].
Qed.

Lemma containsSecret_false data needles n a b : containsSecret data needles = false → n ∈ needles → n ≠ [] → data ≠ a ++ n ++ b.
Proof.
  intros H Hn Hne ->. unfold containsSecret in H. rewrite existsb_false in H. specialize (H n Hn). cbn in H.
  rewrite bool_decide_false in H by done. cbn in H. assert (Contains (a ++ n ++ b) n = true) by (apply Contains_spec; eauto). congruence.
Qed.

(** A secret starts after what is released, whatever comes next. *)
Lemma release_safe needles p n a b t : containsSecret p needles = false → n ∈ needles → n ≠ [] → p ++ t = a ++ n ++ b →
  (length p - partialSuffix p needles <= length a)%nat.
Proof.
  intros Hc Hn Hne E. destruct (decide (length p - partialSuffix p needles <= length a)%nat) as [|Hlt]; [done|exfalso].
  assert (Ep : p = a ++ drop (length a) p).
  { rewrite <- (take_drop (length a) p) at 1. f_equal. apply (f_equal (take (length a))) in E. rewrite take_app_le, take_app_length in E by lia. done. }
  set (q := drop (length a) p) in *. rewrite Ep, <- app_assoc in E. apply app_inv_head in E.
  assert (Hq : length p = (length a + length q)%nat) by (rewrite Ep at 1; apply length_app).
  destruct (decide (length n <= length q)%nat) as [Hle|Hgt].
  - apply (containsSecret_false p needles n a (drop (length n) q) Hc Hn Hne). rewrite Ep at 1. f_equal.
    rewrite <- (take_drop (length n) q) at 1. f_equal. apply (f_equal (take (length n))) in E. by rewrite take_app_le, take_app_length in E by lia.
  - assert (Eq : take (length q) n = q).
    { apply (f_equal (take (length q))) in E. rewrite take_app_length, take_app_le in E by lia. done. }
    assert (length q <= partialSuffix p needles)%nat; [|lia].
    apply (partialSuffix_max p needles n); [done|lia|lia|]. rewrite Eq. apply HasSuffix_spec. by exists a.
Qed.

Section Safety.
Context (needles : list bytes) (limit : Z).

(** [w] was released and [p] is held back: every secret starts in [p] or later. *)
Definition held_back (w p : bytes) : Prop :=
  containsSecret p needles = false ∧ ∀ n a b t, n ∈ needles → n ≠ [] → w ++ p ++ t = a ++ n ++ b → (length w <= length a)%nat.

Lemma screen_read_held w p data total out p' total' : held_back w p → screen_read needles limit data p total = Ok (out, p', total') →
  out ++ p' = p ++ data ∧ held_back (w ++ out) p'.
Proof.
  intros [Hc Hw]. unfold screen_read. destruct (bool_decide (data = [])) eqn:Ed.
  - intros [= <- <- <-]. apply bool_decide_eq_true in Ed as ->. by rewrite !app_nil_r.
  - destruct (limit <? _); [done|]. destruct (containsSecret (p ++ data) needles) eqn:Es; [done|]. intros [= <- <- <-].
    set (r := (length (p ++ data) - partialSuffix (p ++ data) needles)%nat). split; [apply take_drop|]. split.
    + destruct (containsSecret (drop r (p ++ data)) needles) eqn:E; [|done]. unfold containsSecret in E.
      apply existsb_exists in E as (n & Hn & E). apply list_elem_of_In in Hn. apply andb_true_iff in E as [E1 E2]. apply negb_true_iff, bool_decide_eq_false in E1.
      apply Contains_spec in E2 as (a & b & E2). exfalso. apply (containsSecret_false _ _ n (take r (p ++ data) ++ a) b Es Hn E1).
      rewrite <- (take_drop r (p ++ data)) at 1. rewrite E2. by rewrite <- app_assoc.
    + intros n a b t Hn Hne E. rewrite length_app, length_take.
      assert (Ha : (length w <= length a)%nat).
      { apply (Hw n a b (data ++ t) Hn Hne). rewrite <- E, <- app_assoc. f_equal. rewrite !app_assoc. by rewrite take_drop. }
      rewrite <- app_assoc, (app_assoc (take r _)), take_drop in E.
      assert (Ea : a = w ++ drop (length w) a).
      { rewrite <- (take_drop (length w) a) at 1. f_equal. apply (f_equal (take (length w))) in E. rewrite take_app_length, take_app_le in E by done. done. }
      rewrite Ea, <- (app_assoc w (drop (length w) a)) in E. apply app_inv_head in E. pose proof (release_safe needles (p ++ data) n _ b t Es Hn Hne E) as Hr.
      apply (f_equal length) in Ea. rewrite length_app in Ea. unfold r in *. lia.
Qed.

Lemma screened_spec reads : ∀ writes w p total out outcome, held_back w p → screenedCopy needles limit reads writes p total = (out, outcome) →
  out `prefix_of` p ++ arrived reads ∧
  (∀ n a b, n ∈ needles → n ≠ [] → w ++ p ++ arrived reads = a ++ n ++ b → (length (w ++ out) <= length a)%nat) ∧
  (outcome = Some #"completed" → out = p ++ arrived reads).
Proof.
  induction reads as [|[data err] reads IH]; intros writes w p total out outcome Hh; cbn [screenedCopy arrived].
  { intros [= <- <-]. split; [apply prefix_nil|]. split; [|done]. intros n a b Hn Hne E. rewrite app_nil_r. by apply (proj2 Hh n a b []). }
  destruct (screen_read needles limit data p total) as [[[out1 p1] total1]|o] eqn:Er.
  2: { intros [= <- <-]. split; [apply prefix_nil|]. split.
    - intros n a b Hn Hne E. rewrite app_nil_r. by apply (proj2 Hh n a b _ Hn Hne E).
    - unfold screen_read in Er. repeat case_match; simplify_eq; done. }
  destruct (screen_read_held w p data total out1 p1 total1 Hh Er) as [Ep Hh1].
  assert (Hrest : ∀ rest, p ++ data ++ rest = out1 ++ p1 ++ rest) by (intros; by rewrite app_assoc, <- Ep, <- app_assoc).
  assert (Hhere : ∀ rest n a b, n ∈ needles → n ≠ [] → w ++ p ++ data ++ rest = a ++ n ++ b → (length (w ++ out1) <= length a)%nat).
  { intros rest n a b Hn Hne E. apply (proj2 Hh1 n a b rest Hn Hne). by rewrite <- E, Hrest, <- app_assoc. }
  destruct (negb _).
  { intros [= <- <-]. rewrite Hrest. split; [by apply prefix_app_r|]. split; [intros n a b Hn Hne E; rewrite <- Hrest in E; exact (Hhere _ n a b Hn Hne E)|discriminate]. }
  destruct err.
  - destruct (screenedCopy needles limit reads _ p1 total1) as [rest o] eqn:Es. intros [= <- <-].
    destruct (IH _ (w ++ out1) _ _ _ _ Hh1 Es) as (H1 & H2 & H3). rewrite Hrest. split; [by apply prefix_app|]. split; [|intros; by rewrite H3].
    intros n a b Hn Hne E. rewrite app_assoc. apply (H2 n a b Hn Hne). by rewrite <- E, <- app_assoc.
  - intros [= <- <-]. rewrite Hrest, !app_nil_r. split; [done|]. split; [|done].
    intros n a b Hn Hne E. exfalso. pose proof (proj2 Hh1 n a b [] Hn Hne ltac:(by rewrite app_nil_r, <- app_assoc)) as Hl.
    assert (Ea : a = (w ++ out1) ++ drop (length (w ++ out1)) a).
    { rewrite <- (take_drop (length (w ++ out1)) a) at 1. f_equal. rewrite app_assoc in E. apply (f_equal (take (length (w ++ out1)))) in E. rewrite take_app_length, take_app_le in E by done. done. }
    rewrite Ea, <- (app_assoc (w ++ out1) (drop _ a)), (app_assoc w out1) in E. apply app_inv_head in E. by apply (containsSecret_false p1 needles n _ b (proj1 Hh1) Hn Hne E).
  - intros [= <- <-]. rewrite Hrest. split; [by apply prefix_app_r|]. split; [intros n a b Hn Hne E; rewrite <- Hrest in E; exact (Hhere _ n a b Hn Hne E)|discriminate].
Qed.
End Safety.

(** The reads end, with [io.EOF]. *)
Fixpoint ends_well (reads : list (bytes * read_err)) : bool :=
  match reads with (_, ReadOk) :: reads => ends_well reads | (_, ReadEOF) :: _ => true | _ => false end.

Lemma containsSecret_part needles a p b : containsSecret (a ++ p ++ b) needles = false → containsSecret p needles = false.
Proof.
  unfold containsSecret. rewrite !existsb_false. intros H n Hn. specialize (H n Hn). cbn in *. destruct (bool_decide (n = [])); [done|]. cbn in *.
  destruct (Contains p n) eqn:E; [|done]. apply Contains_spec in E as (x & y & ->). rewrite <- H. symmetry. apply Contains_spec. exists (a ++ x), (y ++ b).
  by rewrite <- !app_assoc.
Qed.

Lemma screened_completes needles limit reads : ∀ writes p total, ends_well reads = true → forallb id writes = true →
  total + Z.of_nat (length (arrived reads)) <= limit → containsSecret (p ++ arrived reads) needles = false →
  screenedCopy needles limit reads writes p total = (p ++ arrived reads, Some #"completed").
Proof.
  induction reads as [|[data err] reads IH]; intros writes p total He Hw Ht Hc; [done|]. cbn [screenedCopy arrived] in *.
  rewrite length_app in Ht. set (rest := match err with ReadOk => arrived reads | _ => [] end) in *.
  assert (Er : ∃ out p' total', screen_read needles limit data p total = Ok (out, p', total') ∧ out ++ p' = p ++ data ∧ total' + Z.of_nat (length rest) <= limit).
  { unfold screen_read. destruct (bool_decide (data = [])) eqn:Ed; [apply bool_decide_eq_true in Ed as ->; eexists _, _, _; split; [done|]; by rewrite app_nil_r|].
    rewrite (proj2 (Z.ltb_ge _ _)) by lia. rewrite app_assoc in Hc. apply (containsSecret_part _ []) in Hc. rewrite Hc. eexists _, _, _. split; [done|]. split; [apply take_drop|lia]. }
  destruct Er as (out & p' & total' & -> & Ep & Ht').
  set (written := if bool_decide (out = []) then (true, writes) else match writes with [] => (true, []) | w :: writes => (w, writes) end).
  assert (Hwr : fst written = true ∧ forallb id (snd written) = true).
  { unfold written. destruct (bool_decide _); [done|]. destruct writes as [|w ws]; [done|]. cbn in *. by apply andb_true_iff in Hw. }
  destruct Hwr as [Hw1 Hw2]. rewrite Hw1. cbn [negb]. destruct err; [| |done].
  - assert (Hc' : containsSecret (p' ++ arrived reads) needles = false).
    { apply (containsSecret_part _ out _ []). rewrite app_nil_r, app_assoc, Ep, <- app_assoc. done. }
    rewrite (IH (snd written) p' total' He Hw2 ltac:(done) Hc'). f_equal. rewrite app_assoc, Ep, <- app_assoc. done.
  - subst rest. rewrite Ep, app_nil_r. destruct (snd written) as [|[] ?]; done.
Qed.

Lemma held_back_start needles : held_back needles [] [].
Proof. split; [|intros; cbn; lia]. unfold containsSecret. apply existsb_false. intros n _. by destruct n. Qed.

(** ** The screen *)

(** C19: however a response body is cut into reads and whatever becomes of the
    worker's connection, the bytes written to it are a beginning of the body
    that ends before any secret starts, so no byte of a secret reaches the
    worker, even of one split across reads or still incomplete; and a body
    within its limit that holds no secret arrives whole. *)
Theorem screenedCopy_exact needles limit reads writes :
  let '(out, outcome) := screenedCopy needles limit reads writes [] 0 in
  out `prefix_of` arrived reads ∧
  (∀ n a b, n ∈ needles → n ≠ [] → arrived reads = a ++ n ++ b → (length out <= length a)%nat) ∧
  (outcome = Some #"completed" → out = arrived reads) ∧
  (ends_well reads = true → forallb id writes = true → Z.of_nat (length (arrived reads)) <= limit → containsSecret (arrived reads) needles = false →
     out = arrived reads ∧ outcome = Some #"completed").
Proof.
  destruct (screenedCopy needles limit reads writes [] 0) as [out outcome] eqn:E.
  destruct (screened_spec needles limit reads writes [] [] 0 out outcome (held_back_start needles) E) as (H1 & H2 & H3).
  split; [done|]. split; [done|]. split; [done|]. intros He Hw Hl Hc.
  pose proof (screened_completes needles limit reads writes [] 0 He Hw Hl Hc) as H. rewrite E in H. by injection H as -> ->.
Qed.

(** ** Safe paths *)

(** A path that passes [unsafePath] is absolute, has no [.] or [..]
    segment, no doubled slash and no parameter, so a server that resolves dot
    segments, strips parameters or joins slashes reads the path the catalog was
    asked about. *)
Lemma unsafePath_segments path : unsafePath path = false → ∃ rest, path = #"/" ++ rest ∧
  Forall (λ s, s ≠ #"." ∧ s ≠ #".." ∧ x3b ∉ s ∧ x5c ∉ s) (Split rest x2f) ∧ ¬ (∃ a b, path = a ++ #"//" ++ b).
Proof.
  unfold unsafePath. destruct (_ || _) eqn:E; [done|]. intros Hs. rewrite !orb_false_iff, negb_false_iff in E. destruct E as ((((_ & Hp) & _) & Ha) & Hd).
  apply HasPrefix_spec in Hp as [rest ->]. exists rest. split; [done|]. split.
  - assert (Esp : Split (#"/" ++ rest) x2f = [] :: Split rest x2f) by done. rewrite Esp, existsb_false in Hs.
    apply Forall_forall. intros s Hin. specialize (Hs s ltac:(apply elem_of_cons; by right)). apply orb_false_iff in Hs as [H1 H2]. apply bool_decide_eq_false in H1. split; [done|]. split; [by intros ->|].
    assert (Hsub : ∀ c, c ∈ s → c ∈ #"/" ++ rest).
    { intros c Hc. apply elem_of_app. right. rewrite <- (Join_Split rest x2f). clear -Hin Hc. induction (Split rest x2f) as [|f fs IH]; [by apply elem_of_nil in Hin|].
      apply elem_of_cons in Hin as [->|Hin]; destruct fs; cbn; try done; rewrite ?elem_of_app; [by left|by apply elem_of_nil in Hin|right; right]. by apply IH. }
    apply ContainsAny_free in Ha. rewrite Forall_forall in Ha. split; intros Hc; apply Hsub, Ha in Hc; apply Hc; apply list_elem_of_In; vm_compute; tauto.
  - intros (a & b & E). assert (Contains (#"/" ++ rest) #"//" = true) by (apply Contains_spec; eauto). congruence.
Qed.
