(* ===== verification/RequestAudit.v ===== *)
(** * The audit trail of strict requests ([internal/requestlog/durable.go],
      [internal/store/proxy_audit.go])

    An attempt is written before a request is sent and closed with its outcome
    after.  The table maps request ids to rows; a write is one transaction, whose
    fate the argument [commit] tells.  Names of credentials are stored as JSON
    text, which gives the list back; times are stamps of the writer's clock. *)

From S2P Require Import Prelude GoString GoNet GoStrconv MitmScreen.

Record Attempt := {
  at_VaultID : bytes;
  at_ActorType : bytes;
  at_ActorID : bytes;
  at_WorkloadID : bytes;
  at_Destination : bytes;
  at_Service : bytes;
  at_MappingIDs : list bytes;
  at_Method : bytes;
  at_Decision : bytes;
}.

Record Outcome := { oc_Result : bytes; oc_Status : Z }.

(** A row; its [RequestID] is its key. *)
Record ProxyAudit := {
  pa_Attempt : Attempt;
  pa_Outcome : bytes;
  pa_Status : Z;
  pa_StartedAt : Z;
  pa_FinishedAt : option Z;
}.

Inductive audit_error := ErrAuditUnavailable | ErrInvalidAudit.

(** ** What may be recorded *)

Definition identifier_rune (c : Z) : bool := is_alnum c || bool_decide (c ∈ map bval #"_-.:@/").

Definition identifier (s : bytes) (optional : bool) : bool :=
  if bool_decide (s = []) then optional
  else if 256 <? Z.of_nat (length s) then false
  else forallb identifier_rune (runes s).

Definition label_rune (c : Z) : bool := is_alnum c || (c =? 45).

Definition validLabel (label : bytes) : bool :=
  if bool_decide (label = []) || (63 <? Z.of_nat (length label)) || HasPrefix label #"-" || HasSuffix label #"-" then false
  else forallb label_rune (runes label).

Definition validHost (host : bytes) : bool :=
  if bool_decide (is_Some (ParseIP host)) then true else forallb validLabel (Split host x2e).

(** The characters of a URL that a destination never has. *)
Definition url_characters : bytes := #"/@?#%\ " ++ [x09; x0a; x0d].

Definition validDestination (s : bytes) : bool :=
  if bool_decide (s = []) || (253 <? Z.of_nat (length s)) || ContainsAny s url_characters then false
  else if Contains s #":" then
    if bool_decide (is_Some (ParseIP s)) then true
    else match SplitHostPort s with
         | None => false
         | Some (h, p) =>
             match Atoi p with
             | None => false
             | Some n => if (n <? 1) || (65535 <? n) then false else validHost h
             end
         end
  else validHost s.

Definition audit_methods : list bytes := [ #"GET"; #"HEAD"; #"POST"; #"PUT"; #"PATCH"; #"DELETE"; #"OPTIONS"; #"CONNECT"; #"TRACE"].

Definition validAttempt (a : Attempt) : bool :=
  let optional := bool_decide (at_Decision a = #"deny") in
  if negb (bool_decide (at_Decision a ∈ [ #"allow"; #"deny"])) then false
  else if negb (bool_decide (at_ActorType a ∈ [ #"agent"; #"user"; #"workload"; #"unknown"])) then false
  else if negb (identifier (at_WorkloadID a) true) then false
  else if negb (identifier (at_VaultID a) optional) || negb (identifier (at_ActorID a) optional) || negb (identifier (at_Service a) optional) then false
  else if (negb (bool_decide (at_Destination a = [])) || negb optional) && negb (validDestination (at_Destination a)) then false
  else if negb (bool_decide (at_Method a ∈ audit_methods)) && negb (bool_decide (at_Method a = #"UNKNOWN") && optional) then false
  else if 128 <? Z.of_nat (length (at_MappingIDs a)) then false
  else forallb (λ id, identifier id false) (at_MappingIDs a).

Definition closing_results : list bytes := [ #"completed"; #"denied"; #"upstream_error"].
Definition closes (result : bytes) (status : Z) : bool := bool_decide (result ∈ closing_results) && negb ((status <? 100) || (599 <? status)).

(** ** The table *)

Abbreviation audit_table := (gmap bytes ProxyAudit).

(** How a transaction ends: a commit that fails may have taken effect. *)
Inductive commit := Committed | RolledBack | Unacknowledged.

(** [auditWrite]: the table, and whether the caller sees success. *)
Definition auditWrite (c : commit) (write : audit_table → option audit_table) (t : audit_table) : audit_table * bool :=
  match write t with
  | None => (t, false)
  | Some t' => match c with Committed => (t', true) | RolledBack => (t, false) | Unacknowledged => (t', false) end
  end.

(** Outcome, status and end of a new row are the columns' defaults; the checks
    are the columns' constraints. *)
Definition insert_row (id : bytes) (a : Attempt) (now : Z) (t : audit_table) : option audit_table :=
  match t !! id with
  | Some _ => None
  | None =>
      if bool_decide (at_Decision a ∈ [ #"allow"; #"deny"])
      then Some (<[id := {| pa_Attempt := a; pa_Outcome := #"unknown"; pa_Status := 0; pa_StartedAt := now; pa_FinishedAt := None |}]> t)
      else None
  end.

Definition InsertProxyAudit (c : commit) (id : bytes) (a : Attempt) (now : Z) : audit_table → audit_table * bool := auditWrite c (insert_row id a now).

Definition close_row (id result : bytes) (status now : Z) (t : audit_table) : option audit_table :=
  match t !! id with
  | Some r =>
      if bool_decide (pa_Outcome r = #"unknown")
      then Some (<[id := {| pa_Attempt := pa_Attempt r; pa_Outcome := result; pa_Status := status; pa_StartedAt := pa_StartedAt r; pa_FinishedAt := Some now |}]> t)
      else None
  | None => None
  end.

Definition CompleteProxyAudit (c : commit) (id result : bytes) (status now : Z) (t : audit_table) : audit_table * bool :=
  if negb (closes result status) then (t, false) else auditWrite c (close_row id result status now) t.

Definition GetProxyAudit (id : bytes) (t : audit_table) : option ProxyAudit := t !! id.

(** ** The trail *)

(** [random]: the sixteen bytes [rand.Read] gives, if it does; [supported]: the
    store has the two operations. *)
Definition Begin (supported : bool) (random : option bytes) (c : commit) (now : Z) (a : Attempt) (t : audit_table) : audit_table * result audit_error bytes :=
  if negb (validAttempt a) then (t, Err ErrInvalidAudit)
  else if negb supported then (t, Err ErrAuditUnavailable)
  else match random with
       | None => (t, Err ErrAuditUnavailable)
       | Some b =>
           let '(t, ok) := InsertProxyAudit c (hex b) a now t in
           (t, if ok then Ok (hex b) else Err ErrAuditUnavailable)
       end.

Definition Finish (supported : bool) (c : commit) (now : Z) (id : bytes) (o : Outcome) (t : audit_table) : audit_table * result audit_error unit :=
  if negb (identifier id false) || negb (closes (oc_Result o) (oc_Status o)) then (t, Err ErrInvalidAudit)
  else if negb supported then (t, Err ErrAuditUnavailable)
  else let '(t, ok) := CompleteProxyAudit c id (oc_Result o) (oc_Status o) now t in
       (t, if ok then Ok tt else Err ErrAuditUnavailable).

(** ** Any number of requests *)

(** What the processes that share a store do, each event with its answer. *)
Inductive audit_event :=
| Began (a : Attempt) (answer : result audit_error bytes)
| Finished (id : bytes) (o : Outcome) (answer : result audit_error unit).

Inductive audit_step (t : audit_table) : audit_event → audit_table → Prop :=
| as_begin supported random c now a t' answer : Begin supported random c now a t = (t', answer) → audit_step t (Began a answer) t'
| as_finish supported c now id o t' answer : Finish supported c now id o t = (t', answer) → audit_step t (Finished id o answer) t'.

Inductive audit_run (t : audit_table) : list audit_event → audit_table → Prop :=
| ar_nil : audit_run t [] t
| ar_snoc l t' e t'' : audit_run t l t' → audit_step t' e t'' → audit_run t (l ++ [e]) t''.

(** ** What the trail keeps *)

Definition is_open (r : ProxyAudit) : Prop := pa_Outcome r = #"unknown" ∧ pa_Status r = 0 ∧ pa_FinishedAt r = None.
Definition closed_with (result : bytes) (status : Z) (r : ProxyAudit) : Prop := pa_Outcome r = result ∧ pa_Status r = status ∧ is_Some (pa_FinishedAt r).
Definition row_ok (r : ProxyAudit) : Prop :=
  validAttempt (pa_Attempt r) = true ∧ (is_open r ∨ ∃ result status, closes result status = true ∧ closed_with result status r).

(** A row stays, with its attempt; a closed one stays as it is. *)
Definition kept (t t' : audit_table) : Prop :=
  ∀ id r, t !! id = Some r → ∃ r', t' !! id = Some r' ∧ pa_Attempt r' = pa_Attempt r ∧ pa_StartedAt r' = pa_StartedAt r ∧ (pa_Outcome r = #"unknown" ∨ r' = r).

#[global] Instance kept_preorder : PreOrder kept.
Proof.
  split; [intros t id r H; exists r; auto|]. intros t1 t2 t3 H12 H23 id r H.
  destruct (H12 id r H) as (r2 & H2 & Ea & Es & Ho). destruct (H23 id r2 H2) as (r3 & H3 & Ea' & Es' & Ho').
  exists r3. split; [done|]. split; [congruence|]. split; [congruence|]. destruct Ho as [|<-]; [by left|]. done.
Qed.

Lemma closes_not_unknown result status : closes result status = true → result ≠ #"unknown".
Proof. unfold closes. intros H ->. by apply andb_prop in H as [H _]. Qed.

Lemma auditWrite_cases c write t t' ok : auditWrite c write t = (t', ok) → (t' = t ∧ ok = false) ∨ write t = Some t'.
Proof. unfold auditWrite. destruct (write t); [destruct c|]; intros [= <- <-]; auto. Qed.

Lemma insert_row_Some id a now t t' : insert_row id a now t = Some t' →
  t !! id = None ∧ ∃ r, t' = <[id := r]> t ∧ pa_Attempt r = a ∧ is_open r.
Proof.
  unfold insert_row. destruct (t !! id) eqn:E; [done|]. destruct (bool_decide _); [|done]. intros [= <-]. split; [done|].
  eexists. split; [reflexivity|]. done.
Qed.

Lemma close_row_Some id result status now t t' : close_row id result status now t = Some t' →
  ∃ r r', t !! id = Some r ∧ pa_Outcome r = #"unknown" ∧ t' = <[id := r']> t ∧ pa_Attempt r' = pa_Attempt r ∧ pa_StartedAt r' = pa_StartedAt r ∧ closed_with result status r'.
Proof.
  unfold close_row. destruct (t !! id) as [r|] eqn:E; [|done]. case_bool_decide as Ho; [|done]. intros [= <-]. eexists r, _.
  split; [done|]. split; [done|]. split; [reflexivity|]. split; [done|]. split; [done|]. by repeat split; eexists.
Qed.

(** What an event changes. *)
Lemma audit_step_spec t e t' : audit_step t e t' →
  match e with
  | Began a answer =>
      (t' = t ∧ ∀ id, answer ≠ Ok id) ∨
      validAttempt a = true ∧ ∃ id r, t !! id = None ∧ t' = <[id := r]> t ∧ pa_Attempt r = a ∧ is_open r ∧ ∀ id', answer = Ok id' → id' = id
  | Finished id o answer =>
      (t' = t ∧ answer ≠ Ok tt) ∨
      closes (oc_Result o) (oc_Status o) = true ∧
      ∃ r r', t !! id = Some r ∧ pa_Outcome r = #"unknown" ∧ t' = <[id := r']> t ∧ pa_Attempt r' = pa_Attempt r ∧ pa_StartedAt r' = pa_StartedAt r ∧
        closed_with (oc_Result o) (oc_Status o) r'
  end.
Proof.
  intros [supported random c now a t2 answer H|supported c now id o t2 answer H].
  - unfold Begin in H. destruct (validAttempt a); [|injection H as <- <-; by left]. cbn in H. destruct supported; [|injection H as <- <-; by left].
    cbn in H. destruct random as [b|]; [|injection H as <- <-; by left]. destruct (InsertProxyAudit c (hex b) a now t) as [t3 ok] eqn:E. injection H as <- <-.
    apply auditWrite_cases in E as [[-> ->]|E]; [by left|]. right. split; [done|]. apply insert_row_Some in E as (Hn & r & -> & Ea & Ho).
    exists (hex b), r. do 4 (split; [done|]). destruct ok; intros id' [=]; done.
  - unfold Finish in H. destruct (identifier id false); [|injection H as <- <-; by left]. destruct (closes (oc_Result o) (oc_Status o)) eqn:Ec; [|injection H as <- <-; by left].
    cbn in H. destruct supported; [|injection H as <- <-; by left]. cbn in H. unfold CompleteProxyAudit in H. rewrite Ec in H. cbn in H.
    destruct (auditWrite c _ t) as [t3 ok] eqn:E. injection H as <- <-. apply auditWrite_cases in E as [[-> ->]|E]; [by left|]. right. split; [done|].
    by apply close_row_Some in E.
Qed.

Lemma step_kept t e t' : audit_step t e t' → kept t t'.
Proof.
  intros H. apply audit_step_spec in H. destruct e as [a answer|id o answer].
  - destruct H as [[-> _]|(_ & id & r & Hn & -> & _)]; [reflexivity|]. intros id' r' H. exists r'. rewrite lookup_insert_ne by congruence. auto.
  - destruct H as [[-> _]|(_ & r & r' & Hr & Ho & -> & Ea & Es & _)]; [reflexivity|]. intros id' r2 H. destruct (decide (id' = id)) as [->|Hne].
    + rewrite Hr in H. injection H as <-. exists r'. rewrite lookup_insert_eq. auto.
    + exists r2. rewrite lookup_insert_ne by done. auto.
Qed.

Lemma step_rows t e t' : audit_step t e t' → (∀ id r, t !! id = Some r → row_ok r) → ∀ id r, t' !! id = Some r → row_ok r.
Proof.
  intros H Hok. apply audit_step_spec in H. destruct e as [a answer|id o answer].
  - destruct H as [[-> _]|(Hv & id & r & Hn & -> & Ea & Ho & _)]; [done|]. intros id' r' H. apply lookup_insert_Some in H as [[<- <-]|[_ H]]; [|by apply (Hok id')].
    split; [by rewrite Ea|by left].
  - destruct H as [[-> _]|(Hc & r & r' & Hr & Ho & -> & Ea & Es & Hcl)]; [done|]. intros id' r2 H. apply lookup_insert_Some in H as [[<- <-]|[_ H]]; [|by apply (Hok id')].
    split; [rewrite Ea; by apply (Hok id)|]. right. eauto.
Qed.

(** What the acknowledged events of a run say of its table. *)
Definition acknowledged (l : list audit_event) (t : audit_table) : Prop :=
  (∀ a id, Began a (Ok id) ∈ l → ∃ r, t !! id = Some r ∧ pa_Attempt r = a) ∧
  (∀ id o, Finished id o (Ok tt) ∈ l → ∃ r, t !! id = Some r ∧ closed_with (oc_Result o) (oc_Status o) r ∧ pa_Outcome r ≠ #"unknown").

Lemma acknowledged_snoc l t e t' : acknowledged l t → audit_step t e t' → acknowledged (l ++ [e]) t'.
Proof.
  intros [Hb Hf] Hs. pose proof (step_kept _ _ _ Hs) as Hk. apply audit_step_spec in Hs. split.
  - intros a id Hin. rewrite elem_of_app, list_elem_of_singleton in Hin. destruct Hin as [Hin|<-].
    + destruct (Hb a id Hin) as (r & Hr & <-). destruct (Hk _ _ Hr) as (r' & Hr' & Ea & _). eauto.
    + destruct Hs as [[_ Hn]|(_ & id' & r & _ & -> & Ea & _ & Hid)]; [by destruct (Hn id)|]. rewrite (Hid id eq_refl). exists r. by rewrite lookup_insert_eq.
  - intros id o Hin. rewrite elem_of_app, list_elem_of_singleton in Hin. destruct Hin as [Hin|<-].
    + destruct (Hf id o Hin) as (r & Hr & Hc & Hn). destruct (Hk _ _ Hr) as (r' & Hr' & _ & _ & [?| ->]); [done|]. eauto.
    + destruct Hs as [[_ Hn]|(Hc & r & r' & Hr & Ho & -> & _ & _ & Hcl)]; [done|]. exists r'. rewrite lookup_insert_eq. split; [done|]. split; [done|].
      destruct Hcl as (-> & _). by eapply closes_not_unknown.
Qed.

Lemma run_acknowledged l t : audit_run ∅ l t → acknowledged l t.
Proof. induction 1 as [|l t e t' H IH Hs]; [split; intros ? ? Hin; by apply elem_of_nil in Hin|]. by eapply acknowledged_snoc. Qed.

Lemma run_kept t l t' : audit_run t l t' → kept t t'.
Proof. induction 1 as [|l t' e t'' H IH Hs]; [reflexivity|]. etrans; [exact IH|by eapply step_kept]. Qed.

Lemma run_rows l t : audit_run ∅ l t → ∀ id r, t !! id = Some r → row_ok r.
Proof. induction 1 as [|l t e t' H IH Hs]; [intros ? ?; by rewrite lookup_empty|]. by eapply step_rows. Qed.

Lemma audit_run_app t l1 l2 t'' : audit_run t (l1 ++ l2) t'' → ∃ t', audit_run t l1 t' ∧ audit_run t' l2 t''.
Proof.
  revert t''. induction l2 as [|e l2 IH] using rev_ind; intros t'' H.
  - rewrite app_nil_r in H. exists t''. split; [done|constructor].
  - rewrite app_assoc in H. inversion H as [E|l t' e' t3 H1 H2 E]; [by destruct (l1 ++ l2)|]. apply app_inj_tail in E as [-> ->].
    destruct (IH _ H1) as (t4 & ? & ?). exists t4. split; [done|]. by econstructor.
Qed.

(** Once taken, an identifier is not given again; once closed, a row is not
    closed again. *)
Lemma run_fresh t l t' id r : audit_run t l t' → t !! id = Some r →
  (∀ a, Began a (Ok id) ∉ l) ∧ (pa_Outcome r ≠ #"unknown" → ∀ o, Finished id o (Ok tt) ∉ l).
Proof.
  intros H Hr. induction H as [|l t' e t'' H IH Hs]; [split; intros; apply not_elem_of_nil|]. destruct IH as [IHb IHf].
  destruct (run_kept _ _ _ H _ _ Hr) as (r' & Hr' & _ & _ & Ho). apply audit_step_spec in Hs.
  split; [intros a|intros Hu o]; rewrite elem_of_app, list_elem_of_singleton; (intros [Hin|<-]; [first [exact (IHb _ Hin)|exact (IHf Hu _ Hin)]|]).
  - destruct Hs as [[_ Hn]|(_ & id' & r2 & Hn & _ & _ & _ & Hid)]; [by destruct (Hn id)|]. rewrite (Hid id eq_refl) in Hr'. congruence.
  - destruct Hs as [[_ Hn]|(_ & r2 & _ & Hr2 & Hu2 & _)]; [done|]. rewrite Hr' in Hr2. injection Hr2 as <-. destruct Ho as [|Ho]; [done|]. congruence.
Qed.

(** C21: whatever the processes that share the store do and however their
    transactions end, every row of the audit table is a valid attempt that is
    either open or closed with a result and a status; an acknowledged attempt is
    in the table under an identifier given to no other, with what it was begun
    with; an outcome that was acknowledged stays, and no row is closed twice. *)
Theorem audit_trail l t : audit_run ∅ l t →
  (∀ id r, t !! id = Some r → row_ok r) ∧
  (∀ l1 a id l2, l = l1 ++ Began a (Ok id) :: l2 → (∃ r, t !! id = Some r ∧ pa_Attempt r = a) ∧ ∀ a', Began a' (Ok id) ∉ l2) ∧
  (∀ l1 id o l2, l = l1 ++ Finished id o (Ok tt) :: l2 → (∃ r, t !! id = Some r ∧ closed_with (oc_Result o) (oc_Status o) r) ∧ ∀ o', Finished id o' (Ok tt) ∉ l2).
Proof.
  intros H. split; [exact (run_rows l t H)|]. pose proof (run_acknowledged l t H) as [Hb Hf].
  split; [intros l1 a id l2 ->|intros l1 id o l2 ->];
    (rewrite cons_middle, app_assoc in H; apply audit_run_app in H as (t1 & H1 & H2); pose proof (run_acknowledged _ _ H1) as [Hb1 Hf1]).
  - split; [apply Hb; apply elem_of_app; right; apply list_elem_of_here|].
    destruct (Hb1 a id) as (r & Hr & _); [apply elem_of_app; right; apply list_elem_of_here|]. by apply (run_fresh _ _ _ _ _ H2 Hr).
  - destruct (Hf id o) as (r' & Hr' & Hc' & _); [apply elem_of_app; right; apply list_elem_of_here|]. split; [eauto|].
    destruct (Hf1 id o) as (r & Hr & _ & Hn); [apply elem_of_app; right; apply list_elem_of_here|]. by apply (run_fresh _ _ _ _ _ H2 Hr).
Qed.

(** A destination is a host with at most a port: none of the characters a URL,
    a path or a header line would need. *)
Lemma destination_plain a : validAttempt a = true → (Z.of_nat (length (at_Destination a)) <= 253) ∧ Forall (λ b, b ∉ url_characters) (at_Destination a).
Proof.
  unfold validAttempt. set (opt := bool_decide (at_Decision a = #"deny")). intros H.
  destruct (negb (bool_decide (at_Decision a ∈ _))); [done|]. destruct (negb (bool_decide (at_ActorType a ∈ _))); [done|]. destruct (negb (identifier (at_WorkloadID a) true)); [done|].
  destruct (negb (identifier (at_VaultID a) opt) || _ || _); [done|].
  destruct (bool_decide (at_Destination a = [])) eqn:E; [apply bool_decide_eq_true in E as ->; by split|]. cbn [negb orb andb] in H.
  destruct (validDestination (at_Destination a)) eqn:Ev; [|done]. unfold validDestination in Ev.
  destruct (bool_decide (at_Destination a = []) || _ || _) eqn:Eb; [done|]. apply orb_false_iff in Eb as [Eb Ec]. apply orb_false_iff in Eb as [_ Eb].
  apply Z.ltb_ge in Eb. split; [done|]. unfold ContainsAny in Ec. rewrite existsb_false in Ec. apply Forall_forall. intros b Hb. specialize (Ec b Hb).
  intros Hin. revert Ec. unfold ContainsByte. rewrite existsb_false. intros Ec. specialize (Ec b Hin). by rewrite bool_decide_true in Ec.
Qed.

Module AuditDemo.
Definition attempt : Attempt :=
  {| at_VaultID := #"v1"; at_ActorType := #"agent"; at_ActorID := #"a1"; at_WorkloadID := []; at_Destination := #"api.vendor.com:443"; at_Service := #"vendor";
     at_MappingIDs := [ #"VENDOR_KEY"]; at_Method := #"GET"; at_Decision := #"allow" |}.
Definition done : Outcome := {| oc_Result := #"completed"; oc_Status := 200 |}.
Definition events : list audit_event := [Began attempt (Ok #"00ff"); Finished #"00ff" done (Ok tt); Finished #"00ff" done (Err ErrAuditUnavailable)].
Definition final : audit_table :=
  {[#"00ff" := {| pa_Attempt := attempt; pa_Outcome := #"completed"; pa_Status := 200; pa_StartedAt := 1; pa_FinishedAt := Some 2 |}]}.

Lemma demo_run : audit_run ∅ events final.
Proof.
  apply (ar_snoc _ [_; _] final); [apply (ar_snoc _ [_] (fst (Begin true (Some [x00; xff]) Committed 1 attempt ∅))); [apply (ar_snoc _ [] ∅); [constructor|]|]|].
  - apply (as_begin _ true (Some [x00; xff]) Committed 1). vm_compute. reflexivity.
  - apply (as_finish _ true Committed 2). vm_compute. reflexivity.
  - apply (as_finish _ true Committed 3). vm_compute. reflexivity.
Qed.

Lemma audit_trail_witness : ∃ r, final !! #"00ff" = Some r ∧ closed_with #"completed" 200 r.
Proof. apply (proj2 (proj2 (audit_trail events final demo_run)) [_] #"00ff" done [_] eq_refl). Defined.
End AuditDemo.
