(* ===== verification/MitmGit.v ===== *)
(** * What a push may change ([internal/mitm/git_adapter.go], [github_api.go])

    A git push begins with a list of commands in pkt-line form.  The broker
    reads it, checks every ref against the binding, and passes the bytes on
    unchanged; [git_command] is how git's receive-pack reads a line.  A pull
    request is opened from fields the broker checked; JSON decoding is an
    argument. *)

From S2P Require Import Prelude GoString Substitute ProxySession.

Section Git.
Context {unicode : UnicodeTables}.

(** [strings.Fields]: the parts of the text between spaces. *)
Definition flush (cur : bytes) : list bytes := if bool_decide (cur = []) then [] else [cur].
Fixpoint fields_from (skip : nat) (space : bool) (cur s : bytes) : list bytes :=
  match s with
  | [] => flush cur
  | b :: s' =>
      match skip with
      | S k => fields_from k space (if space then cur else cur ++ [b]) s'
      | O =>
          let '(r, w) := DecodeRune s in
          if IsSpace r then flush cur ++ fields_from (pred w) true [] s' else fields_from (pred w) false (cur ++ [b]) s'
      end
  end.
Definition Fields (s : bytes) : list bytes := fields_from 0 false [] s.

(** [strconv.ParseUint] in base 16, on a pkt-line's length. *)
Definition hex_digit (b : byte) : option Z :=
  let c := bval b in
  if is_digit c then Some (c - 48) else if in_range 97 102 c then Some (c - 87) else if in_range 65 70 c then Some (c - 55) else None.
Definition hex_add (z : option Z) (b : byte) : option Z := v ← z; d ← hex_digit b; Some (v * 16 + d).
Definition parse_length (head : bytes) : option Z := foldl hex_add (Some 0) head.

Definition objectID (s : bytes) : bool :=
  (bool_decide (length s = 40%nat) || bool_decide (length s = 64%nat)) && forallb (λ b, is_digit (bval b) || in_range 97 102 (bval b)) s.

Definition hasAnyPrefix (s : bytes) (prefixes : list bytes) : bool := existsb (HasPrefix s) prefixes.

(** [io.ReadFull] of [n] bytes. *)
Definition read_full (n : nat) (s : bytes) : option (bytes * bytes) := if (length s <? n)%nat then None else Some (take n s, drop n s).

(** The text of a pkt-line, up to the capabilities. *)
Definition push_line (payload : bytes) : bytes :=
  let s := TrimSuffix payload [x0a] in match IndexByte s x00 with Some i => take i s | None => s end.

Inductive push_item := Shallow | Command (ref : bytes) | BadLine.
Definition push_command (payload : bytes) : push_item :=
  let line := push_line payload in
  if HasPrefix line #"shallow " then Shallow
  else if HasPrefix line #"push-cert" then BadLine
  else match Fields line with
       | [old; new; ref] => if objectID old && objectID new && HasPrefix ref #"refs/" then Command ref else BadLine
       | _ => BadLine
       end.

(** The loop of [readReceivePackCommands]; [None] is an error.  Every round
    reads four bytes, so the length of the input is enough fuel. *)
Fixpoint read_commands (fuel : nat) (s consumed : bytes) (refs : list bytes) : option (bytes * list bytes) :=
  match fuel with
  | O => None
  | S fuel =>
      if negb (Z.of_nat (length consumed) <? 1048576) then None
      else
        '(head, s) ← read_full 4 s;
        n ← parse_length head;
        let consumed := consumed ++ head in
        if n =? 0 then if bool_decide (refs = []) then None else Some (consumed, refs)
        else if n <? 5 then None
        else
          '(payload, s) ← read_full (Z.to_nat n - 4) s;
          let consumed := consumed ++ payload in
          match push_command payload with
          | Shallow => read_commands fuel s consumed refs
          | Command ref => read_commands fuel s consumed (refs ++ [ref])
          | BadLine => None
          end
  end.
Definition readReceivePackCommands (body : bytes) : option (bytes * list bytes) := read_commands (S (length body)) body [] [].

(** [limitedBody]: what a reader gets of a body, and whether it was cut off. *)
Definition limitedBody (limit : Z) (body : bytes) : bytes * bool := (take (Z.to_nat limit) body, bool_decide (Z.to_nat limit < length body)%nat).

(** The part of [forwardGit] that checks a push: the body sent on, or the
    outcome of the refusal. *)
Definition checked_push (prefixes : list bytes) (body : bytes) : result bytes bytes :=
  match readReceivePackCommands body with
  | None => Err #"push_shape"
  | Some (consumed, refs) => if forallb (λ ref, hasAnyPrefix ref prefixes) refs then Ok (consumed ++ drop (length consumed) body) else Err #"ref_outside_binding"
  end.

(** ** Pull requests *)

Definition unsafeBranch (name : bytes) : bool := bool_decide (name = []) || Contains name #".." || existsb (λ c, (c <=? 32) || (c =? 127)) (runes name).

Definition under_prefix (ref : bytes) (prefixes : list bytes) : bool := existsb (λ p, HasPrefix ref p && (length p <? length ref)%nat) prefixes.

Inductive json_value := JString (s : bytes) | JBool (b : bool) | JNull | JOther.
#[global] Instance json_value_eq : EqDecision json_value.
Proof using Type. solve_decision. Defined.

Definition pullRequestFields : list bytes := [ #"title"; #"body"; #"head"; #"base"; #"draft"].

(** A field's value as [req] takes it: a string, or a boolean for draft. *)
Definition field_value (key : bytes) (v : json_value) : option json_value :=
  match v with
  | JString _ => if bool_decide (key = #"draft") then None else Some v
  | JBool _ => if bool_decide (key = #"draft") then Some v else None
  | _ => None
  end.

(** The keys of the object in their order, each allowed and new. *)
Fixpoint pull_fields (seen : list bytes) (members : list (bytes * json_value)) : option (list (bytes * json_value)) :=
  match members with
  | [] => Some []
  | (key, v) :: rest =>
      if negb (bool_decide (key ∈ pullRequestFields)) || bool_decide (ToLower key ∈ seen) then None
      else fields ← pull_fields (ToLower key :: seen) rest; Some ((key, v) :: fields)
  end.

Definition pull_head (fields : list (bytes * json_value)) : bytes :=
  match List.find (λ '(k, _), bool_decide (k = #"head")) fields with Some (_, JString s) => s | _ => [] end.

(** [members]: the members of the body if it is one JSON object.  The result is
    the object that is sent. *)
Definition pullRequestFromPoolBranch (members : option (list (bytes * json_value))) (prefixes : list bytes) : option (list (bytes * json_value)) :=
  fields ← members ≫= pull_fields [];
  values ← mapM (λ '(k, v), v' ← field_value k v; Some (k, v')) fields;
  let head := pull_head values in
  if Contains head #":" || unsafeBranch head then None
  else if under_prefix head prefixes then Some values else None.

(** What the pull request a comment targets is: its head's ref and repository. *)
Record PullHead := { ph_Ref : bytes; ph_Repo : option bytes }.
Definition commentsOnPoolPullRequest (repo : bytes) (prefixes : list bytes) (status : Z) (pr : option PullHead) : bool :=
  match pr with
  | None => false
  | Some pr =>
      if negb (status =? 200) then false
      else match ph_Repo pr with
           | None => false
           | Some full => EqualFold full repo && negb (Contains (ph_Ref pr) #":") && negb (unsafeBranch (ph_Ref pr)) && under_prefix (ph_Ref pr) prefixes
           end
  end.

(** ** What git reads *)

(** A pkt-line stream up to its flush. *)
Inductive pkts : bytes → list bytes → bytes → Prop :=
| pkts_flush h rest : length h = 4%nat → parse_length h = Some 0 → pkts (h ++ rest) [] rest
| pkts_line h p ps s rest : length h = 4%nat → parse_length h = Some (4 + Z.of_nat (length p)) → pkts s ps rest → pkts (h ++ p ++ s) (p :: ps) rest.

(** An object ID as git accepts it, in either case. *)
Definition git_oid (s : bytes) : Prop := (length s = 40%nat ∨ length s = 64%nat) ∧ Forall (λ b, is_Some (hex_digit b)) s.

(** [receive-pack]: old, space, new, space, and the rest of the line is the ref. *)
Definition git_command (payload ref : bytes) : Prop := ∃ old new, git_oid old ∧ git_oid new ∧ push_line payload = old ++ [x20] ++ new ++ [x20] ++ ref.

(** ** Fields *)

Definition word_byte (b : byte) : bool := (bval b <? 128) && negb (IsSpace (bval b)).

Lemma fields_flag sp sp' cur s : fields_from 0 sp cur s = fields_from 0 sp' cur s.
Proof using Type. by destruct s. Qed.

Lemma fields_word w : ∀ cur t, Forall (λ b, word_byte b = true) w → fields_from 0 false cur (w ++ t) = fields_from 0 false (cur ++ w) t.
Proof using Type.
  induction w as [|b w IH]; intros cur t Hw; [by rewrite app_nil_r|]. apply Forall_cons in Hw as [Hb Hw].
  apply andb_true_iff in Hb as [Hb Hs]. apply Z.ltb_lt in Hb. apply negb_true_iff in Hs. cbn [app fields_from].
  rewrite DecodeRune_ascii, Hs by done. cbn [pred]. rewrite IH by done. by rewrite <- app_assoc.
Qed.

Lemma fields_space cur t : fields_from 0 false cur (x20 :: t) = flush cur ++ Fields t.
Proof using Type.
  cbn [fields_from]. rewrite DecodeRune_ascii by done. assert (Hs : IsSpace (bval x20) = true) by done. rewrite Hs. f_equal. apply fields_flag.
Qed.

Lemma Fields_word w t : w ≠ [] → Forall (λ b, word_byte b = true) w → Fields (w ++ [x20] ++ t) = w :: Fields t.
Proof using Type. intros Hne Hw. unfold Fields at 1. rewrite fields_word by done. cbn [app]. rewrite fields_space. unfold flush. by rewrite bool_decide_false. Qed.

Lemma fields_first s : ∀ skip cur, cur ≠ [] → ∃ k tail, fields_from skip false cur s = (cur ++ take k s) :: tail.
Proof using Type.
  induction s as [|b s IH]; intros skip cur Hc; cbn [fields_from].
  - exists 0%nat, []. unfold flush. by rewrite bool_decide_false, app_nil_r.
  - assert (Hnext : ∀ k, ∃ j tail, fields_from k false (cur ++ [b]) s = (cur ++ take j (b :: s)) :: tail).
    { intros k. destruct (IH k (cur ++ [b])) as (j & tail & ->); [by destruct cur|]. exists (S j), tail. cbn. by rewrite <- app_assoc. }
    destruct skip; [|apply Hnext]. destruct (DecodeRune (b :: s)) as [r w]. destruct (IsSpace r); [|apply Hnext].
    eexists 0%nat, _. unfold flush. rewrite bool_decide_false by done. rewrite app_nil_r. done.
Qed.

Lemma Fields_head b s : word_byte b = true → ∃ k tail, Fields (b :: s) = take k (b :: s) :: tail.
Proof using Type.
  intros Hb. change (b :: s) with ([b] ++ s) at 1. unfold Fields. rewrite fields_word by (by repeat constructor). change ([] ++ [b]) with [b].
  destruct (fields_first s 0 [b] ltac:(done)) as (k & tail & ->). by exists (S k), tail.
Qed.

Lemma hex_word b : is_Some (hex_digit b) → word_byte b = true.
Proof using Type.
  unfold hex_digit, word_byte, IsSpace. intros [d H].
  assert (Hr : 48 <= bval b <= 102) by (unfold is_digit, in_range in H; repeat case_match; try discriminate; b2p; lia).
  rewrite (proj2 (Z.ltb_lt _ _)) by lia. cbn [andb]. apply negb_true_iff, orb_false_iff. split; [unfold in_range; apply andb_false_iff; right; apply Z.leb_gt; lia|apply Z.eqb_neq; lia].
Qed.

Lemma oid_word s : git_oid s → s ≠ [] ∧ Forall (λ b, word_byte b = true) s.
Proof using Type. intros [Hl H]. split; [destruct s; [cbn in Hl; lia|done]|]. eapply Forall_impl; [exact H|]. apply hex_word. Qed.

(** ** The broker and git read the same refs *)

Lemma command_ref payload ref r : push_command payload = Command ref → git_command payload r → HasPrefix r #"refs/" = true → ref `prefix_of` r.
Proof using Type.
  intros Hc (old & new & Ho & Hn & E) Hr. unfold push_command in Hc. rewrite E in Hc.
  destruct (oid_word _ Ho) as [Ho1 Ho2]. destruct (oid_word _ Hn) as [Hn1 Hn2].
  apply HasPrefix_spec in Hr as [x ->]. rewrite (Fields_word old) in Hc by done. rewrite (Fields_word new) in Hc by done.
  destruct (Fields_head x72 (#"efs/" ++ x) ltac:(done)) as (k & tail & Ek). change (x72 :: #"efs/" ++ x) with (#"refs/" ++ x) in Ek. rewrite Ek in Hc.
  destruct (HasPrefix _ #"shallow "); [done|]. destruct (HasPrefix _ #"push-cert"); [done|]. destruct tail; [|done].
  destruct (_ && _); [|done]. injection Hc as <-. exists (drop k (#"refs/" ++ x)). by rewrite take_drop.
Qed.

Lemma command_not_shallow payload r : git_command payload r → push_command payload ≠ Shallow.
Proof using Type.
  intros (old & new & Ho & Hn & E). unfold push_command. rewrite E.
  assert (H : HasPrefix (old ++ [x20] ++ new ++ [x20] ++ r) #"shallow " = false).
  { destruct Ho as [Hl Ho]. destruct old as [|b old]; [cbn in Hl; lia|]. apply Forall_cons in Ho as [Hb _].
    destruct (HasPrefix ((b :: old) ++ _) #"shallow ") eqn:Ep; [|done]. apply HasPrefix_spec in Ep as [t Ep]. injection Ep as -> _. by destruct Hb. }
  rewrite H. repeat case_match; done.
Qed.

Lemma read_full_app h x : read_full (length h) (h ++ x) = Some (h, x).
Proof using Type. unfold read_full. rewrite length_app, (proj2 (Nat.ltb_ge _ _)) by lia. by rewrite take_app_length, drop_app_length. Qed.

Lemma read_commands_pkts s ps rest : pkts s ps rest → ∀ fuel c refs c' refs', read_commands fuel s c refs = Some (c', refs') →
  (∃ mid, c' = c ++ mid ∧ s = mid ++ rest) ∧ (∀ r, r ∈ refs → r ∈ refs') ∧
  (∀ p, p ∈ ps → push_command p = Shallow ∨ ∃ r, push_command p = Command r ∧ r ∈ refs').
Proof using Type.
  induction 1 as [h rest Hh Hp|h p ps s rest Hh Hp Hs IH]; intros fuel c refs c' refs'; (destruct fuel as [|fuel]; [done|]); cbn [read_commands];
    (destruct (negb _); [done|]); rewrite <- Hh, read_full_app; cbn; rewrite Hp; cbn.
  - destruct (bool_decide (refs = [])); [done|]. intros [= <- <-]. split; [by exists h|]. split; [done|]. by intros p ?%elem_of_nil.
  - rewrite (proj2 (Z.eqb_neq _ _)) by lia. destruct (_ <? 5) eqn:E5; [done|].
    replace (Z.to_nat (4 + Z.of_nat (length p)) - length h)%nat with (length p) by lia. rewrite read_full_app. cbn.
    assert (Hmid : ∀ mid : bytes, (c ++ h) ++ p ++ mid = c ++ (h ++ p ++ mid)) by (intros; by rewrite <- !app_assoc).
    destruct (push_command p) as [|ref|] eqn:Ec; [| |done]; intros H; apply IH in H as ((mid & -> & ->) & Hr & Hps).
    + split; [exists (h ++ p ++ mid); by rewrite <- !app_assoc|]. split; [done|].
      intros q Hq. apply elem_of_cons in Hq as [->|Hq]; [by left|by apply Hps].
    + split; [exists (h ++ p ++ mid); by rewrite <- !app_assoc|]. split; [intros; apply Hr, elem_of_app; by left|].
      intros q Hq. apply elem_of_cons in Hq as [->|Hq]; [|by apply Hps]. right. exists ref. split; [done|]. apply Hr, elem_of_app. right. by apply list_elem_of_singleton.
Qed.

Lemma hasAnyPrefix_trans ref r prefixes : ref `prefix_of` r → hasAnyPrefix ref prefixes = true → hasAnyPrefix r prefixes = true.
Proof using Type.
  unfold hasAnyPrefix. intros Hp H. apply existsb_exists in H as (p & Hin & H). apply existsb_exists. exists p. split; [done|].
  unfold HasPrefix in *. apply bool_decide_eq_true in H. apply bool_decide_eq_true. by etrans.
Qed.

(** C13: a push that the broker passes on is passed on byte for byte, and every
    ref git's receive-pack would read from it, however spaces, capabilities and
    shallow lines are arranged, is under one of the binding's prefixes. *)
Theorem push_within_binding prefixes body out payloads rest p r : checked_push prefixes body = Ok out → pkts body payloads rest →
  p ∈ payloads → git_command p r → HasPrefix r #"refs/" = true → out = body ∧ hasAnyPrefix r prefixes = true.
Proof using Type.
  unfold checked_push, readReceivePackCommands. destruct (read_commands _ _ _ _) as [[consumed refs]|] eqn:E; [|done].
  destruct (forallb _ refs) eqn:Ef; [|done]. intros [= <-] Hs Hp Hg Hr.
  destruct (read_commands_pkts _ _ _ Hs _ _ _ _ _ E) as ((mid & -> & ->) & _ & Hps). cbn [app]. rewrite drop_app_length. split; [done|].
  destruct (Hps p Hp) as [Hsh|(ref & Hc & Hin)]; [by destruct (command_not_shallow p r Hg)|].
  rewrite forallb_forall in Ef. apply (hasAnyPrefix_trans ref); [by eapply command_ref|]. apply Ef. by apply list_elem_of_In.
Qed.

(** ** What git sends is accepted *)

Definition length4 (n : Z) : bytes := [lower_hex (n / 4096 mod 16); lower_hex (n / 256 mod 16); lower_hex (n / 16 mod 16); lower_hex (n mod 16)].
Definition pkt (payload : bytes) : bytes := length4 (4 + Z.of_nat (length payload)) ++ payload.

Record ref_update := { up_old : bytes; up_new : bytes; up_ref : bytes; up_caps : option bytes }.
Definition update_line (u : ref_update) : bytes := up_old u ++ [x20] ++ up_new u ++ [x20] ++ up_ref u.
Definition update_payload (u : ref_update) : bytes := update_line u ++ match up_caps u with Some caps => x00 :: caps | None => [] end.
Definition push_text (updates : list ref_update) : bytes := flat_map (λ u, pkt (update_payload u)) updates ++ length4 0.

(** An update git can send: known object IDs, a ref without spaces. *)
Record sendable (u : ref_update) : Prop := {
  su_old : objectID (up_old u) = true;
  su_new : objectID (up_new u) = true;
  su_ref : HasPrefix (up_ref u) #"refs/" = true;
  su_one : Fields (up_ref u) = [up_ref u];
  su_plain : x00 ∉ up_ref u ∧ x0a ∉ up_ref u;
  su_short : Z.of_nat (length (update_payload u)) < 65532;
}.

Lemma hex_digit_lower z : 0 <= z < 16 → hex_digit (lower_hex z) = Some z.
Proof using Type.
  intros Hz. unfold hex_digit, lower_hex. destruct (z <? 10) eqn:E; rewrite bval_byte_of, Z.mod_small by lia; b2p; unfold is_digit, in_range; repeat case_match; b2p; try lia; f_equal; lia.
Qed.

Lemma parse_length4 n : 0 <= n < 65536 → parse_length (length4 n) = Some n.
Proof using Type.
  intros Hn. unfold parse_length, length4. cbn [foldl]. unfold hex_add at 4. cbn. 
  pose proof (Z.mod_pos_bound (n / 4096) 16). pose proof (Z.mod_pos_bound (n / 256) 16). pose proof (Z.mod_pos_bound (n / 16) 16). pose proof (Z.mod_pos_bound n 16).
  unfold hex_add. rewrite !hex_digit_lower by lia. cbn. f_equal. change 4096 with (16 * (16 * 16)). change 256 with (16 * 16).
  rewrite <- !Zdiv_Zdiv by lia. assert (n / 16 / 16 / 16 < 16) by (repeat apply Z.div_lt_upper_bound; lia). assert (0 <= n / 16 / 16 / 16) by (repeat apply Z.div_pos; lia).
  pose proof (Z.div_mod n 16 ltac:(lia)). pose proof (Z.div_mod (n / 16) 16 ltac:(lia)). pose proof (Z.div_mod (n / 16 / 16) 16 ltac:(lia)).
  rewrite (Z.mod_small (n / 16 / 16 / 16)) by lia. lia.
Qed.

Lemma objectID_oid s : objectID s = true → git_oid s ∧ x00 ∉ s ∧ x0a ∉ s.
Proof using Type.
  unfold objectID. intros H. apply andb_true_iff in H as [Hl Hb]. rewrite forallb_Forall in Hb. split; [split|].
  - apply orb_true_iff in Hl as [Hl|Hl]; apply bool_decide_eq_true in Hl; [by left|by right].
  - eapply Forall_impl; [exact Hb|]. intros b Hd. unfold hex_digit. cbn in Hd. destruct (is_digit (bval b)); [eauto|]. cbn in Hd. rewrite Hd. eauto.
  - rewrite Forall_forall in Hb. split; intros Hin; by specialize (Hb _ Hin).
Qed.

Lemma IndexByte_app a s c : c ∉ a → IndexByte (a ++ c :: s) c = Some (length a).
Proof using Type.
  induction a as [|b a IH]; intros Hn; cbn; [by rewrite bool_decide_true|]. apply not_elem_of_cons in Hn as [H1 H2].
  rewrite bool_decide_false by congruence. by rewrite IH.
Qed.

Lemma update_line_plain u : sendable u → x00 ∉ update_line u ∧ (∃ l b, update_line u = l ++ [b] ∧ b ≠ x0a).
Proof using Type.
  intros []. destruct (objectID_oid _ su_old0) as (_ & Ho & _). destruct (objectID_oid _ su_new0) as (_ & Hn & _). destruct su_plain0 as [H0 Ha]. split.
  - unfold update_line. rewrite !elem_of_app, !list_elem_of_singleton. naive_solver.
  - apply HasPrefix_spec in su_ref0 as [x Ex]. destruct (exists_last (l := up_ref u)) as (l & b & E); [by rewrite Ex|].
    exists (up_old u ++ [x20] ++ up_new u ++ [x20] ++ l), b. split; [unfold update_line; by rewrite E, <- !app_assoc|].
    intros ->. apply Ha. rewrite E. apply elem_of_app. right. by apply list_elem_of_singleton.
Qed.

Lemma TrimSuffix_keep l b : b ≠ x0a → TrimSuffix (l ++ [b]) [x0a] = l ++ [b].
Proof using Type.
  intros Hb. unfold TrimSuffix. destruct (HasSuffix (l ++ [b]) [x0a]) eqn:E; [|by rewrite ?E].
  apply HasSuffix_spec in E as [t E]. apply app_inj_tail in E as [_ ->]. done.
Qed.

Lemma push_line_update u : sendable u → push_line (update_payload u) = update_line u.
Proof using Type.
  intros Hu. destruct (update_line_plain u Hu) as (H0 & l & b & El & Hb). unfold push_line, update_payload. destruct (up_caps u) as [caps|].
  - assert (Ht : ∃ caps', TrimSuffix (update_line u ++ x00 :: caps) [x0a] = update_line u ++ x00 :: caps').
    { destruct (exists_last (l := x00 :: caps)) as (k & z & Ez); [done|]. destruct (decide (z = x0a)) as [->|Hz].
      - destruct k as [|y k]; [done|]. injection Ez as <- ->. exists k. unfold TrimSuffix.
        assert (Hs : HasSuffix (update_line u ++ x00 :: k ++ [x0a]) [x0a] = true) by (apply HasSuffix_spec; exists (update_line u ++ x00 :: k); by rewrite <- app_assoc).
        rewrite ?Hs. change (x00 :: k ++ [x0a]) with ((x00 :: k) ++ [x0a]). rewrite app_assoc, length_app. cbn [length].
        replace (length (update_line u ++ x00 :: k) + 1 - 1)%nat with (length (update_line u ++ x00 :: k)) by lia. by rewrite take_app_length.
      - exists caps. rewrite Ez, app_assoc. by apply TrimSuffix_keep. }
    destruct Ht as [caps' ->]. rewrite IndexByte_app by done. by rewrite take_app_length.
  - rewrite app_nil_r, El, TrimSuffix_keep by done. rewrite <- El. destruct (IndexByte (update_line u) x00) eqn:E; [|done].
    assert (IndexByte (update_line u) x00 = None) by (by apply IndexByte_None). congruence.
Qed.

Lemma push_command_update u : sendable u → push_command (update_payload u) = Command (up_ref u).
Proof using Type.
  intros Hu. unfold push_command. rewrite push_line_update by done. destruct Hu. unfold update_line.
  destruct (objectID_oid _ su_old0) as (Ho & _). destruct (objectID_oid _ su_new0) as (Hn & _). pose proof (oid_word _ Ho) as [? ?]. pose proof (oid_word _ Hn) as [? ?].
  assert (Hp : ∀ b t rest, hex_digit b = None → HasPrefix (up_old u ++ rest) (b :: t) = false).
  { intros b t rest Hb. destruct Ho as [Hl Ho]. destruct (up_old u) as [|c old]; [cbn in Hl; lia|]. apply Forall_cons in Ho as [[d Hd] _].
    destruct (HasPrefix (_ ++ rest) _) eqn:Ep; [|done]. apply HasPrefix_spec in Ep as [y Ey]. injection Ey as -> _. congruence. }
  set (rest := [x20] ++ up_new u ++ [x20] ++ up_ref u).
  assert (Hp1 : HasPrefix (up_old u ++ rest) #"shallow " = false) by (by apply Hp).
  assert (Hp2 : HasPrefix (up_old u ++ rest) #"push-cert" = false) by (by apply Hp).
  rewrite Hp1, Hp2. subst rest. rewrite !Fields_word by done. rewrite su_one0, su_old0, su_new0, su_ref0. done.
Qed.

Lemma length_pkt p : length (pkt p) = (4 + length p)%nat.
Proof using Type. unfold pkt. by rewrite length_app. Qed.

Lemma read_updates us : ∀ fuel c refs pack, Forall sendable us → (length us < fuel)%nat → refs ≠ [] ∨ us ≠ [] →
  Z.of_nat (length (c ++ flat_map (λ u, pkt (update_payload u)) us)) < 1048576 →
  read_commands fuel (flat_map (λ u, pkt (update_payload u)) us ++ length4 0 ++ pack) c refs = Some (c ++ flat_map (λ u, pkt (update_payload u)) us ++ length4 0, refs ++ map up_ref us).
Proof using Type.
  induction us as [|u us IH]; intros fuel c refs pack Hs Hf Hne Hl; (destruct fuel as [|fuel]; [lia|]); cbn [read_commands flat_map map].
  - cbn [flat_map] in Hl. rewrite app_nil_r in Hl. rewrite (proj2 (Z.ltb_lt _ _)) by done. cbn [negb app].
    rewrite (read_full_app (length4 0) pack : read_full 4 _ = _). cbn [mbind option_bind]. rewrite parse_length4 by lia. cbn [mbind option_bind]. change (0 =? 0) with true. cbn iota.
    destruct Hne as [Hne|]; [|done]. rewrite bool_decide_false by done. by rewrite app_nil_r.
  - apply Forall_cons in Hs as [Hu Hs]. pose proof (su_short u Hu) as Hsh. cbn [flat_map] in Hl. rewrite length_app in Hl. rewrite (proj2 (Z.ltb_lt _ _)) by lia. cbn [negb].
    unfold pkt at 1. rewrite <- !app_assoc. rewrite (read_full_app (length4 _) _ : read_full 4 _ = _). cbn [mbind option_bind]. rewrite parse_length4 by lia. cbn [mbind option_bind].
    rewrite (proj2 (Z.eqb_neq _ _)) by lia.
    assert (Hpos : (length (update_payload u) > 0)%nat) by (unfold update_payload, update_line; rewrite !length_app; cbn; lia).
    rewrite (proj2 (Z.ltb_ge _ _)) by lia. replace (Z.to_nat (4 + Z.of_nat (length (update_payload u))) - 4)%nat with (length (update_payload u)) by lia.
    rewrite read_full_app. cbn [mbind option_bind]. rewrite push_command_update by done. rewrite IH; [|done|cbn in Hf; lia|left; by destruct refs|].
    + unfold pkt. by rewrite <- !app_assoc.
    + rewrite !length_app in *. rewrite length_pkt in Hl. cbn [length4 length]. lia.
Qed.

(** A push as git sends it is read back: its bytes, and the refs of its
    updates in order. *)
Lemma push_read_back us pack : Forall sendable us → us ≠ [] → Z.of_nat (length (push_text us)) < 1048576 →
  readReceivePackCommands (push_text us ++ pack) = Some (push_text us, map up_ref us).
Proof using Type.
  intros Hs Hne Hl. unfold readReceivePackCommands, push_text in *. rewrite <- app_assoc, read_updates; [done|done| |by right|].
  2: { rewrite length_app in Hl. cbn [app]. lia. }
  assert (length us <= length (flat_map (λ u, pkt (update_payload u)) us))%nat; [|rewrite !length_app; lia].
  clear. induction us as [|u us IH]; [done|]. cbn [flat_map length]. rewrite length_app, length_pkt. lia.
Qed.
End Git.

(** ** Pull requests from the pool's own branches *)

Lemma pull_fields_spec `{UnicodeTables} seen members fields : pull_fields seen members = Some fields →
  fields = members ∧ Forall (λ k, k ∈ pullRequestFields ∧ ToLower k ∉ seen) members.*1 ∧ NoDup members.*1.
Proof.
  revert seen fields. induction members as [|[k v] members IH]; intros seen fields; cbn; [intros [= <-]; split; [done|]; split; constructor|].
  destruct (negb _ || _) eqn:E; [done|]. apply orb_false_iff in E as [E1 E2]. apply negb_false_iff, bool_decide_eq_true in E1. apply bool_decide_eq_false in E2.
  destruct (pull_fields _ members) as [rest|] eqn:Er; [|done]. intros [= <-]. destruct (IH _ _ Er) as (-> & Hf & Hnd). split; [done|]. split.
  - constructor; [done|]. eapply Forall_impl; [exact Hf|]. intros x [Hx Hs]. split; [done|]. intros Hin. apply Hs, elem_of_cons. by right.
  - constructor; [|done]. intros Hin. rewrite Forall_forall in Hf. destruct (Hf k Hin) as [_ Hs]. apply Hs, list_elem_of_here.
Qed.

(** The pull request the broker opens has allowed fields only, each once and of
    its type, and a head that is a branch under one of the pool's prefixes. *)
Lemma pull_request_own_branch `{UnicodeTables} members prefixes values : pullRequestFromPoolBranch (Some members) prefixes = Some values →
  Forall (λ k, k ∈ pullRequestFields) values.*1 ∧ NoDup values.*1 ∧
  ∃ p rest, p ∈ prefixes ∧ rest ≠ [] ∧ pull_head values = p ++ rest ∧ Contains (pull_head values) #".." = false ∧ Contains (pull_head values) #":" = false.
Proof.
  unfold pullRequestFromPoolBranch. cbn. intros E. destruct (pull_fields [] members) as [fields|] eqn:Ef; [|done]. cbn in E.
  destruct (pull_fields_spec _ _ _ Ef) as (-> & Hf & Hnd). destruct (mapM _ members) as [vs|] eqn:Em; [|done]. cbn in E.
  assert (Hk : vs.*1 = members.*1).
  { apply mapM_Some in Em. clear -Em. induction Em as [|[k v] [k' v'] l l' H' _ IH]; [done|]. cbn. destruct (field_value k v); [|done]. injection H' as <- <-. by rewrite IH. }
  match type of E with (if ?b then _ else _) = _ => destruct b eqn:Ec end; [done|]. apply orb_false_iff in Ec as [Ec Eu]. destruct (under_prefix _ _) eqn:Ep; [|done]. injection E as <-.
  rewrite Hk. split; [|split; [done|]].
  { eapply Forall_impl; [exact Hf|]. by intros ? []. }
  unfold unsafeBranch in Eu. apply orb_false_iff in Eu as [Eu _]. apply orb_false_iff in Eu as [_ Ed].
  apply existsb_exists in Ep as (p & Hp & Eq). apply list_elem_of_In in Hp. apply andb_true_iff in Eq as [Eq El].
  apply HasPrefix_spec in Eq as [rest Eq]. apply Nat.ltb_lt in El. exists p, rest. repeat split; try done.
  intros ->. rewrite Eq, app_nil_r in El. lia.
Qed.

(** ** A push to one branch *)

Module PushDemo.
#[local] Existing Instance latin1_tables.
Definition oid (b : byte) : bytes := replicate 40 b.
Definition update : ref_update := {| up_old := oid x30; up_new := oid x61; up_ref := #"refs/heads/agent/fix"; up_caps := Some #" report-status" |}.
Definition prefixes : list bytes := [ #"refs/heads/agent/"].
Definition body : bytes := push_text [update] ++ #"PACK".

Lemma accepted : checked_push prefixes body = Ok body.
Proof. vm_compute. reflexivity. Qed.

Lemma body_pkts : pkts body [update_payload update] #"PACK".
Proof.
  apply (pkts_line (length4 (4 + Z.of_nat (length (update_payload update)))) (update_payload update) [] (length4 0 ++ #"PACK")); [done|vm_compute; reflexivity|].
  by apply pkts_flush.
Qed.

Lemma updates_branch : git_command (update_payload update) #"refs/heads/agent/fix".
Proof.
  exists (oid x30), (oid x61). split; [|split; [|vm_compute; reflexivity]]; (split; [by left|]); apply Forall_replicate; eexists; reflexivity.
Qed.

Lemma push_within_binding_witness : body = body ∧ hasAnyPrefix #"refs/heads/agent/fix" prefixes = true.
Proof.
  apply (push_within_binding prefixes body body [update_payload update] #"PACK" (update_payload update) #"refs/heads/agent/fix" accepted body_pkts).
  - apply list_elem_of_here.
  - exact updates_branch.
  - reflexivity.
Defined.
End PushDemo.
