(* ===== verification/MitmAdapter.v ===== *)
(** * Requests through the catalog ([internal/mitm/header_adapter.go],
      [git_adapter.go], [github_api.go], [browser_session.go], [gcp.go],
      [authz.go])

    A handler is a function from a request and the [surroundings] (the catalog,
    the audit trail, the limiter, the credentials and the upstream server) to
    the effects it has, in order: rows of the audit trail, answers to the
    worker, requests sent upstream.  [header]s of requests and responses are
    listed in the order of iteration; ones the broker builds are maps. *)

From S2P Require Import Prelude GoString GoUrl GoNet GoStrconv BrokerAuth BrokerCore Harness Catalog CatalogMatch Entitlement RunnerId Authorize AuditRow AuditChain MitmScreen MitmGit.

Abbreviation header_list := (list (bytes * list bytes)).

Record RequestURL := { ul_IsAbs : bool; ul_User : bool; ul_Fragment : bytes; ul_RawPath : bytes; ul_Path : bytes; ul_RawQuery : bytes }.
Record hrequest := {
  hr_Method : bytes;
  hr_Host : bytes;
  hr_URL : RequestURL;
  hr_Header : header_list;
  hr_Trailer : bool;
  hr_Body : bytes;
  hr_BodyFails : bool;
  hr_ContentLength : Z;
}.

Record OutRequest := {
  out_Method : bytes;
  out_Target : bytes;       (* the URL's host: where the request goes *)
  out_Host : bytes;
  out_Path : bytes;
  out_RawPath : bytes;
  out_RawQuery : bytes;
  out_Header : Header;
  out_Body : bytes;
}.

Record Response := { rs_Status : Z; rs_Header : header_list; rs_Reads : list (bytes * read_err) }.

Record CatalogScope := {
  sc_Pool : bytes;
  sc_UserID : bytes;
  sc_AgentID : bytes;
  sc_WorkloadID : bytes;
  sc_ClaimedRun : bytes;
  sc_AttestedRequester : bytes;
  sc_Session : bytes;       (* the session token of the CONNECT request *)
}.

Record Permissions := { pm_Contents : bytes; pm_PullRequests : bytes }.
Definition ContentsRead : Permissions := {| pm_Contents := #"read"; pm_PullRequests := [] |}.
Definition ContentsWrite : Permissions := {| pm_Contents := #"write"; pm_PullRequests := [] |}.
Definition PullRequestsWrite : Permissions := {| pm_Contents := #"read"; pm_PullRequests := #"write" |}.

Inductive effect :=
| Row (ev : Event) (ok : bool)                       (* [Audit.Record] *)
| Answer (status : Z)                                (* [http.Error] *)
| Probe (out : OutRequest)                           (* a read of the broker's own *)
| Send (out : OutRequest)
| Invalidate
| Relay (status : Z) (h : header_list) (body : bytes)
| SeedReply (body : bytes)
| Abort.

Record surroundings := {
  su_Catalog : Catalog;
  su_Admit : bool;
  su_Record : Event → bool;
  su_RequestID : bytes;
  su_Now : Z;
  su_Runner : option SessionVerifier;
  su_Sessions : option Binder;
  su_Entitled : bool → bytes → list bytes → answer;
  su_Recheck : bool;
  su_Allowed : bytes → bytes → bool;                 (* the rate limiter *)
  su_Key : KeyRef → option bytes;
  su_GitToken : option (Z → Z → bytes → Permissions → option bytes);
  su_BrowserToken : option (CatalogEntry → option bytes);
  su_Seed : CatalogEntry → bytes → option bytes;
  su_GCPToken : option (CatalogEntry → option bytes);
  su_NewRequest : bytes → bytes → bool;              (* the method and path make a request *)
  su_RoundTrip : OutRequest → result bool Response;  (* on failure: whether the body was read to its end *)
  su_Writes : list bool;
  su_Duration : Z;
  su_Members : bytes → option (list (bytes * json_value));
  su_Marshal : list (bytes * json_value) → option bytes;
  su_PullHead : Response → option PullHead;
}.

(** ** Helpers *)

Definition header_Get (h : header_list) (k : bytes) : bytes := match header_Values h k with v :: _ => v | [] => [] end.

Definition hostHeaderForScheme (target : bytes) : bytes :=
  match SplitHostPort target with
  | None => target
  | Some (host, port) =>
      if negb (bool_decide (port = #"443")) then target else if ContainsByte host x3a then #"[" ++ host ++ #"]" else host
  end.

Definition proxyLimitActor (s : CatalogScope) : bytes :=
  let actor := if bool_decide (sc_UserID s = []) then sc_AgentID s else sc_UserID s in
  if bool_decide (sc_WorkloadID s = []) then actor else actor ++ #"/" ++ sc_WorkloadID s.

Definition auditMethod (m : bytes) : bytes := if bool_decide (m ∈ [ #"GET"; #"HEAD"; #"POST"; #"PUT"; #"PATCH"; #"DELETE"]) then m else [].

(** [Entry.Credential] *)
Definition Credential (e : CatalogEntry) (v : bytes) : bytes :=
  if en_BasicUser e then #"Basic " ++ EncodeToString (v ++ #":")
  else if bool_decide (en_Scheme e = []) then v else en_Scheme e ++ #" " ++ v.

Definition CatalogPool_named (c : Catalog) (name : bytes) : option CatalogPool := List.find (λ p, bool_decide (cp_Name p = name)) (cat_pools c).

(** ** Audit rows *)

Definition first_event (id method : bytes) (s : option CatalogScope) : Event :=
  let f g := match s with Some s => g s | None => [] end in
  {| ev_Event := []; ev_Pool := f sc_Pool; ev_Agent := f sc_AgentID; ev_PodUID := f sc_WorkloadID; ev_Binding := []; ev_Session := id; ev_Outcome := [];
     ev_Requester := []; ev_RequesterKind := []; ev_RequesterOID := []; ev_TokenSHA256 := []; ev_Tier := []; ev_Decision := []; ev_Groups := []; ev_CacheAgeSec := 0;
     ev_Kid := []; ev_KidSHA256 := []; ev_Peer := []; ev_Serial := []; ev_NotAfter := []; ev_DNSNames := []; ev_Target := []; ev_Method := auditMethod method; ev_Status := 0; ev_Duration := 0 |}.

Definition with_binding (b : bytes) (e : Event) : Event :=
  {| ev_Event := ev_Event e; ev_Pool := ev_Pool e; ev_Agent := ev_Agent e; ev_PodUID := ev_PodUID e; ev_Binding := b; ev_Session := ev_Session e; ev_Outcome := ev_Outcome e;
     ev_Requester := ev_Requester e; ev_RequesterKind := ev_RequesterKind e; ev_RequesterOID := ev_RequesterOID e; ev_TokenSHA256 := ev_TokenSHA256 e; ev_Tier := ev_Tier e; ev_Decision := ev_Decision e; ev_Groups := ev_Groups e; ev_CacheAgeSec := ev_CacheAgeSec e;
     ev_Kid := ev_Kid e; ev_KidSHA256 := ev_KidSHA256 e; ev_Peer := ev_Peer e; ev_Serial := ev_Serial e; ev_NotAfter := ev_NotAfter e; ev_DNSNames := ev_DNSNames e; ev_Target := ev_Target e; ev_Method := ev_Method e; ev_Status := ev_Status e; ev_Duration := ev_Duration e |}.
Definition with_identity (who : Identity) (e : Event) : Event :=
  {| ev_Event := ev_Event e; ev_Pool := ev_Pool e; ev_Agent := ev_Agent e; ev_PodUID := ev_PodUID e; ev_Binding := ev_Binding e; ev_Session := ev_Session e; ev_Outcome := ev_Outcome e;
     ev_Requester := ev_Requester e; ev_RequesterKind := id_Kind who; ev_RequesterOID := ev_RequesterOID e; ev_TokenSHA256 := id_TokenSHA256 who; ev_Tier := ev_Tier e; ev_Decision := ev_Decision e; ev_Groups := ev_Groups e; ev_CacheAgeSec := ev_CacheAgeSec e;
     ev_Kid := ev_Kid e; ev_KidSHA256 := ev_KidSHA256 e; ev_Peer := ev_Peer e; ev_Serial := ev_Serial e; ev_NotAfter := ev_NotAfter e; ev_DNSNames := ev_DNSNames e; ev_Target := ev_Target e; ev_Method := ev_Method e; ev_Status := ev_Status e; ev_Duration := ev_Duration e |}.
Definition with_decision (who : Identity) (d : Decision) (e : Event) : Event :=
  {| ev_Event := ev_Event e; ev_Pool := ev_Pool e; ev_Agent := ev_Agent e; ev_PodUID := ev_PodUID e; ev_Binding := ev_Binding e; ev_Session := ev_Session e; ev_Outcome := ev_Outcome e;
     ev_Requester := if bool_decide (id_Kind who ∈ [ #"person"; #"agent"]) then id_Subject who else ev_Requester e; ev_RequesterKind := ev_RequesterKind e; ev_RequesterOID := d_ObjectID d; ev_TokenSHA256 := ev_TokenSHA256 e; ev_Tier := d_Tier d; ev_Decision := d_Outcome d; ev_Groups := Join (d_Groups d) #","; ev_CacheAgeSec := Z.quot (d_CacheAge d) Second;
     ev_Kid := ev_Kid e; ev_KidSHA256 := ev_KidSHA256 e; ev_Peer := ev_Peer e; ev_Serial := ev_Serial e; ev_NotAfter := ev_NotAfter e; ev_DNSNames := ev_DNSNames e; ev_Target := ev_Target e; ev_Method := ev_Method e; ev_Status := ev_Status e; ev_Duration := ev_Duration e |}.
Definition with_outcome (event outcome : bytes) (status duration : Z) (target : bytes) (e : Event) : Event :=
  {| ev_Event := event; ev_Pool := ev_Pool e; ev_Agent := ev_Agent e; ev_PodUID := ev_PodUID e; ev_Binding := ev_Binding e; ev_Session := ev_Session e; ev_Outcome := outcome;
     ev_Requester := ev_Requester e; ev_RequesterKind := ev_RequesterKind e; ev_RequesterOID := ev_RequesterOID e; ev_TokenSHA256 := ev_TokenSHA256 e; ev_Tier := ev_Tier e; ev_Decision := ev_Decision e; ev_Groups := ev_Groups e; ev_CacheAgeSec := ev_CacheAgeSec e;
     ev_Kid := ev_Kid e; ev_KidSHA256 := ev_KidSHA256 e; ev_Peer := ev_Peer e; ev_Serial := ev_Serial e; ev_NotAfter := ev_NotAfter e; ev_DNSNames := ev_DNSNames e; ev_Target := target; ev_Method := ev_Method e; ev_Status := status; ev_Duration := duration |}.

Section Adapter.
Context {unicode : UnicodeTables} (w : surroundings) (scope : CatalogScope) (target : bytes).

(** ** Refusals *)

Definition row (ev : Event) : list effect := [Row ev (su_Record w ev)].

Definition adapterDeny (ev : Event) (status : Z) (outcome : bytes) : list effect :=
  let ev := with_outcome EventDenied outcome status (ev_Duration ev) (TargetField target) ev in
  row ev ++ [Answer (if su_Record w ev then status else 503)].

(** [Proxy.authorize]: the refusal, [[]] for none, and the event. *)
Definition authorize_entry (entry : CatalogEntry) (ev : Event) : bytes * Event :=
  let pool := default no_pool (CatalogPool_named (su_Catalog w) (sc_Pool scope)) in
  let claims := {| cl_Pod := sc_WorkloadID scope; cl_ClaimedRun := sc_ClaimedRun scope; cl_AttestedRequester := sc_AttestedRequester scope |} in
  let '(who, refusal) := Resolve pool (sc_Session scope) claims (su_Runner w) (su_Sessions w) (su_Now w) in
  let ev := with_identity who ev in
  if negb (bool_decide (refusal = [])) then (refusal, ev)
  else
    let d := fst (authorize_Decide (su_Entitled w) pool (en_Tier entry) (en_Requires entry) who (su_Recheck w)) in
    (if d_Allowed d then [] else d_Outcome d, with_decision who d ev).

(** ** The response *)

(** [finish_row] *)
Definition finish_row (ev : Event) (status : Z) (outcome : bytes) : list effect :=
  row (with_outcome EventHTTPResponse outcome status (su_Duration w) (ev_Target ev) ev).

Definition relayed_header (h : header_list) : header_list :=
  List.filter (λ '(name, _), negb (ShouldStripResponseHeader name || bool_decide (name ∈ [ #"X-Request-Id"; #"Trailer"; #"Content-Length"]))) h.

Definition refused_response (resp : Response) (needles : list bytes) : bool :=
  let encoding := header_Get (rs_Header resp) #"Content-Encoding" in
  negb (bool_decide (header_Get (rs_Header resp) #"Upgrade" = [])) || (negb (bool_decide (encoding = [])) && negb (bool_decide (encoding = #"identity"))) ||
  headersContain (rs_Header resp) needles.

(** [rejected]: what a 401 or 403 makes the broker do; [cut]: the body sent was
    cut off at its limit; [reply]: the writer's own treatment of headers. *)
Definition relayScreened (ev : Event) (out : OutRequest) (needles : list bytes) (limit : Z) (rejected : Response → list effect) (cut : bool)
    (reply : header_list → header_list) : list effect :=
  Send out ::
  match su_RoundTrip w out with
  | Err read_all =>
      if read_all && cut then finish_row ev 413 #"request_too_large" ++ [Answer 413] else finish_row ev 502 #"upstream_error" ++ [Answer 502]
  | Ok resp =>
      (if bool_decide (rs_Status resp ∈ [401; 403]) then rejected resp else []) ++
      if refused_response resp needles then finish_row ev 502 #"response_refused" ++ [Answer 502]
      else
        let '(body, outcome) := screenedCopy needles limit (rs_Reads resp) (su_Writes w) [] 0 in
        Relay (rs_Status resp) (reply (relayed_header (rs_Header resp))) body ::
        match outcome with
        | None => []
        | Some o => finish_row ev (rs_Status resp) o ++ (if bool_decide (o = #"completed") then [] else [Abort])
        end
  end.

(** The row that admits a request; what follows happens only if it is written. *)
Definition on_record (ev : Event) (outcome : bytes) (next : list effect) : list effect :=
  let ev := with_outcome EventHTTPRequest outcome (ev_Status ev) (ev_Duration ev) (ev_Target ev) ev in
  row ev ++ if su_Record w ev then next else [Answer 503].

(** ** The shape of a request *)

Definition header_set (r : hrequest) (name : bytes) : bool := negb (bool_decide (header_Get (hr_Header r) name = [])).

(** The tests of the URL, the host and the body's framing all handlers share. *)
Definition bad_shape (r : hrequest) : bool :=
  ul_IsAbs (hr_URL r) || (negb (bool_decide (hr_Host r = target)) && negb (bool_decide (hr_Host r = hostHeaderForScheme target))) ||
  ul_User (hr_URL r) || negb (bool_decide (ul_Fragment (hr_URL r) = [])) || header_set r #"Upgrade" || hr_Trailer r.
Definition raw_path (r : hrequest) : bool := negb (bool_decide (ul_RawPath (hr_URL r) = [])).
Definition upgrades (r : hrequest) : bool := Contains (ToLower (header_Get (hr_Header r) #"Connection")) #"upgrade".

(** [io.ReadAll(io.LimitReader(r.Body, limit+1))] *)
Definition read_body (limit : Z) (r : hrequest) : option bytes := if hr_BodyFails r then None else Some (take (Z.to_nat (limit + 1)) (hr_Body r)).

Definition keep_headers (names : list bytes) (r : hrequest) : Header :=
  foldl (λ h name, match header_Values (hr_Header r) name with [] => h | v => <[CanonicalHeaderKey name := v]> h end) ∅ names.

Definition identity_encoding (h : Header) : Header := header_Set #"Accept-Encoding" #"identity" h.
Definition get_or_head (r : hrequest) : bool := bool_decide (hr_Method r ∈ [ #"GET"; #"HEAD"]).
Definition too_large (limit : Z) (body : bytes) : bool := limit <? Z.of_nat (length body).

(** The switch on the error of a match, which starts every handler. *)
Definition match_refusal (err : match_error) : Z * bytes :=
  match err with
  | ErrUnlisted => (403, #"unlisted")
  | ErrMethod => (405, #"method")
  | _ => (403, #"pool")
  end.

Definition limited (entry : CatalogEntry) (ev : Event) (next : list effect) : list effect :=
  if su_Allowed w (proxyLimitActor scope) (en_Name entry) then next else adapterDeny ev 429 #"rate_limited".

(** ** Keys: one header *)

(** The loop over the request's headers: what is forwarded, or the refusal. *)
Fixpoint key_headers (entry : CatalogEntry) (h : header_list) (forwarded : Header) : result bytes Header :=
  match h with
  | [] => Ok forwarded
  | (name, values) :: h =>
      if bool_decide (name = en_Header entry) then
        if bool_decide (values = [Credential entry (en_Placeholder entry)]) then key_headers entry h forwarded else Err #"credential_header"
      else if existsb containsPlaceholder values then Err #"placeholder_misplaced"
      else key_headers entry h (if ForwardsHeader entry name then <[name := values]> forwarded else forwarded)
  end.

Definition key_needles (entry : CatalogEntry) (secret : bytes) : list bytes :=
  secretRepresentations ([secret; Credential entry secret] ++ if en_BasicUser entry then [TrimPrefix (Credential entry secret) #"Basic "] else []).

Definition key_request (entry : CatalogEntry) (r : hrequest) (body : bytes) (forwarded : Header) (secret : bytes) : OutRequest :=
  {| out_Method := hr_Method r; out_Target := target; out_Host := hostHeaderForScheme target; out_Path := ul_Path (hr_URL r); out_RawPath := []; out_RawQuery := ul_RawQuery (hr_URL r);
     out_Header := identity_encoding (header_Set (en_Header entry) (Credential entry secret) forwarded); out_Body := body |}.

(** The part of [forwardCatalog] after the match of a header entry. *)
Definition forwardKey (r : hrequest) (ev : Event) (entry : option CatalogEntry) (err : option match_error) : list effect :=
  let deny := adapterDeny ev in
  match err, entry with
  | Some e, _ => let '(status, outcome) := match_refusal e in deny status outcome
  | None, None => []
  | None, Some entry =>
      if bad_shape r || raw_path r || unsafePath (ul_Path (hr_URL r)) || containsPlaceholder (ul_RawQuery (hr_URL r)) || upgrades r || header_set r #"Content-Encoding"
      then deny 400 #"request_shape"
      else match read_body (en_MaxRequestBytes entry) r with
      | None => deny 400 #"request_shape"
      | Some body =>
          if too_large (en_MaxRequestBytes entry) body then deny 413 #"request_too_large"
          else if negb (bool_decide (body = [])) && get_or_head r then deny 400 #"request_shape"
          else if containsPlaceholder body then deny 400 #"placeholder_misplaced"
          else match key_headers entry (hr_Header r) ∅ with
          | Err outcome => deny 400 outcome
          | Ok forwarded =>
              limited entry ev
                match su_Key w (en_Key entry) with
                | None => deny 503 #"key_unavailable"
                | Some secret =>
                    if negb (su_NewRequest w (hr_Method r) (ul_Path (hr_URL r))) then deny 400 #"request_shape"
                    else on_record ev #"admitted"
                      (relayScreened ev (key_request entry r body forwarded secret) (key_needles entry secret) (en_MaxResponseBytes entry) (λ _, [Invalidate]) false id)
                end
          end
      end
  end.

(** ** Git over HTTP *)

Definition basic_token (token : bytes) : bytes := #"x-access-token:" ++ token.
Definition git_credential (token : bytes) : bytes := #"Basic " ++ EncodeToString (basic_token token).

Definition git_request_out (r : hrequest) (body token : bytes) : OutRequest :=
  {| out_Method := hr_Method r; out_Target := target; out_Host := hostHeaderForScheme target; out_Path := ul_Path (hr_URL r); out_RawPath := []; out_RawQuery := ul_RawQuery (hr_URL r);
     out_Header := identity_encoding (header_Set #"Authorization" (git_credential token) (keep_headers [ #"Accept"; #"Content-Type"; #"User-Agent"; #"Git-Protocol"; #"Content-Encoding"] r));
     out_Body := if bool_decide (hr_Method r = #"GET") then [] else body |}.

Definition git_binding (q : GitRequest) : bytes := en_Name (rq_Entry q) ++ #"/" ++ gr_Repo (rq_Repo q).
Definition git_token (permissions : Permissions) (q : GitRequest) : option bytes :=
  match su_GitToken w, en_Git (rq_Entry q) with
  | Some mint, Some g => mint (gb_AppID g) (gb_InstallationID g) (gr_Repo (rq_Repo q)) permissions
  | _, _ => None
  end.

Definition forwardGit (r : hrequest) (ev : Event) (q : option GitRequest) (err : option match_error) : list effect :=
  let ev := match q with Some q => with_binding (git_binding q) ev | None => ev end in
  let deny := adapterDeny ev in
  match err, q with
  | Some ErrReadOnly, _ => deny 403 #"read_only"
  | Some e, _ => let '(status, outcome) := match_refusal e in deny status outcome
  | None, None => []
  | None, Some q =>
      let entry := rq_Entry q in
      let post := bool_decide (hr_Method r = #"POST") in
      let encoding := header_Get (hr_Header r) #"Content-Encoding" in
      if negb (bool_decide (is_Some (su_GitToken w))) then deny 503 #"token_unavailable"
      else if bad_shape r || raw_path r || unsafePath (ul_Path (hr_URL r)) || upgrades r || (bool_decide (hr_Method r = #"GET") && (0 <? hr_ContentLength r)) then deny 400 #"request_shape"
      else if header_set r #"Authorization" || header_set r #"Cookie" then deny 400 #"credential_header"
      else if negb (bool_decide (encoding = [])) && (negb (bool_decide (encoding = #"gzip")) || rq_Write q || negb post) then deny 400 #"request_shape"
      else
        let '(body, cut) := limitedBody (en_MaxRequestBytes entry) (hr_Body r) in
        let checked := if rq_Write q && post && negb (bool_decide (gr_RefPrefixes (rq_Repo q) = [])) then checked_push (gr_RefPrefixes (rq_Repo q)) body else Ok body in
        match checked with
        | Err outcome => deny (if bool_decide (outcome = #"push_shape") then 400 else 403) outcome
        | Ok body =>
            limited entry ev
              match git_token (if rq_Write q then ContentsWrite else ContentsRead) q with
              | None => deny 503 #"token_unavailable"
              | Some token =>
                  if negb (su_NewRequest w (hr_Method r) (ul_Path (hr_URL r))) then deny 400 #"request_shape"
                  else on_record ev #"admitted"
                    (relayScreened ev (git_request_out r body token) (secretRepresentations [token; basic_token token; git_credential token]) (en_MaxResponseBytes entry) (λ _, [Invalidate]) cut id)
              end
        end
  end.

(** ** The GitHub API *)

Definition githubTokenPlaceholder : bytes := #"__vault_GITHUB_TOKEN__".

(** The broker's own read of the pull request a comment targets. *)
Definition probe_request (q : GitRequest) (token : bytes) : OutRequest :=
  {| out_Method := #"GET"; out_Target := target; out_Host := hostHeaderForScheme target; out_Path := #"/repos/" ++ gr_Repo (rq_Repo q) ++ #"/pulls/" ++ FormatInt (rq_CommentsOn q);
     out_RawPath := []; out_RawQuery := [];
     out_Header := identity_encoding (header_Set #"Accept" #"application/vnd.github+json" (header_Set #"Authorization" (#"Bearer " ++ token) ∅)); out_Body := [] |}.

(** [commentsOnPoolPullRequest], for a comment. *)
Definition comment_target (q : GitRequest) (token : bytes) : list effect * bool :=
  if rq_CommentsOn q <=? 0 then ([], true)
  else
    let out := probe_request q token in
    if negb (su_NewRequest w (out_Method out) (out_Path out)) then ([], false)
    else ([Probe out], match su_RoundTrip w out with
                       | Err _ => false
                       | Ok resp => commentsOnPoolPullRequest (gr_Repo (rq_Repo q)) (rq_HeadPrefixes q) (rs_Status resp) (su_PullHead w resp)
                       end).

Definition api_request (r : hrequest) (q : GitRequest) (body token : bytes) : OutRequest :=
  {| out_Method := if rq_Write q then #"POST" else #"GET"; out_Target := target; out_Host := hostHeaderForScheme target; out_Path := ul_Path (hr_URL r); out_RawPath := []; out_RawQuery := [];
     out_Header := identity_encoding (header_Set #"Authorization" (#"Bearer " ++ token) (keep_headers [ #"Accept"; #"Content-Type"; #"User-Agent"; #"X-Github-Api-Version"] r));
     out_Body := if rq_Write q then body else [] |}.

(** The body that is sent: a pull request is rebuilt. *)
Definition api_body (q : GitRequest) (body : bytes) : option bytes :=
  if rq_OpensPullRequest q then pullRequestFromPoolBranch (su_Members w body) (rq_HeadPrefixes q) ≫= su_Marshal w else Some body.

Definition forwardGitHubAPI (r : hrequest) (ev : Event) (q : option GitRequest) (err : option match_error) : list effect :=
  let ev := match q with Some q => with_binding (git_binding q) ev | None => ev end in
  let deny := adapterDeny ev in
  match err, q with
  | Some e, _ => let '(status, outcome) := match_refusal e in deny status outcome
  | None, None => []
  | None, Some q =>
      let entry := rq_Entry q in
      if negb (bool_decide (is_Some (su_GitToken w))) then deny 503 #"token_unavailable"
      else if bad_shape r || raw_path r || unsafePath (ul_Path (hr_URL r)) || header_set r #"Content-Encoding" ||
              (rq_Write q && negb (HasPrefix (header_Get (hr_Header r) #"Content-Type") #"application/json")) then deny 400 #"request_shape"
      else if negb (bool_decide (header_Get (hr_Header r) #"Authorization" ∈ [ []; #"token " ++ githubTokenPlaceholder; #"Bearer " ++ githubTokenPlaceholder])) then deny 400 #"credential_header"
      else match read_body (en_MaxRequestBytes entry) r with
      | None => deny 400 #"request_shape"
      | Some body =>
          if too_large (en_MaxRequestBytes entry) body then deny 413 #"request_too_large"
          else if containsPlaceholder body then deny 400 #"placeholder_misplaced"
          else if negb (rq_Write q) && negb (bool_decide (body = [])) then deny 400 #"request_shape"
          else match api_body q body with
          | None => deny 403 #"head"
          | Some body =>
              limited entry ev
                match git_token PullRequestsWrite q with
                | None => deny 503 #"token_unavailable"
                | Some token =>
                    let '(probe, ok) := comment_target q token in
                    probe ++
                    if negb ok then deny 403 #"comment_target"
                    else if negb (su_NewRequest w (if rq_Write q then #"POST" else #"GET") (ul_Path (hr_URL r))) then deny 400 #"request_shape"
                    else on_record ev #"admitted"
                      (relayScreened ev (api_request r q body token) (secretRepresentations [token; #"Bearer " ++ token]) (en_MaxResponseBytes entry) (λ _, [Invalidate]) false id)
                end
          end
      end
  end.

(** ** Browser sessions *)

Definition BrowserForwardHeaders : list bytes :=
  [ #"Accept"; #"Accept-Language"; #"Access-Control-Request-Headers"; #"Access-Control-Request-Method"; #"Cache-Control"; #"Content-Type"; #"If-Modified-Since";
    #"If-None-Match"; #"Origin"; #"Pragma"; #"Referer"; #"User-Agent"].

Definition unsafeBrowserPath (path : bytes) (seed : bool) : bool := if seed then negb (bool_decide (path = BrowserSeedPath)) else unsafePath path.

(** [strings.Trim]: quotes and spaces off both ends. *)
Fixpoint trim_quotes (s : bytes) : bytes := match s with b :: s' => if bool_decide (b ∈ [x22; x20]) then trim_quotes s' else s | [] => [] end.
Definition names_invalid_token (challenge : bytes) : bool :=
  match Index challenge #"error=" with
  | Some i => HasPrefix (reverse (trim_quotes (reverse (trim_quotes (drop (i + 6) challenge))))) #"invalid_token"
  | None => true
  end.
Definition invalidToken (resp : Response) : bool :=
  (rs_Status resp =? 401) && forallb names_invalid_token (header_Values (rs_Header resp) #"Www-Authenticate").

(** [noCookieWriter] *)
Definition no_cookies (h : header_list) : header_list := List.filter (λ '(name, _), negb (bool_decide (name = #"Set-Cookie"))) h.

Definition browser_request (entry : CatalogEntry) (app : bool) (r : hrequest) (body token : bytes) : OutRequest :=
  let kept := keep_headers (BrowserForwardHeaders ++ en_ForwardHeaders entry) r in
  {| out_Method := hr_Method r; out_Target := target; out_Host := hostHeaderForScheme target; out_Path := ul_Path (hr_URL r); out_RawPath := []; out_RawQuery := ul_RawQuery (hr_URL r);
     out_Header := identity_encoding (if app then kept else header_Set #"Authorization" (#"Bearer " ++ token) kept); out_Body := body |}.

Definition forwardBrowser (r : hrequest) (ev : Event) (b : BrowserRequest) (err : option match_error) : list effect :=
  let entry := br_Entry b in
  let ev := with_binding (en_Name entry ++ if br_App b then #"/app" else []) ev in
  let deny := adapterDeny ev in
  match err with
  | Some ErrDeniedPath => deny 403 #"denied_path"
  | Some ErrReadOnlyPath => deny 403 #"read_only_path"
  | Some e => let '(status, outcome) := match_refusal e in deny status outcome
  | None =>
      match su_BrowserToken w with
      | None => deny 503 #"token_unavailable"
      | Some mint =>
          if bad_shape r || raw_path r || unsafeBrowserPath (ul_Path (hr_URL r)) (br_Seed b) || containsPlaceholder (ul_RawQuery (hr_URL r)) || header_set r #"Content-Encoding"
          then deny 400 #"request_shape"
          else if match header_Values (hr_Header r) #"Authorization" with
                  | [] => false
                  | [got] => br_App b || negb (bool_decide (got = #"Bearer " ++ en_Placeholder entry))
                  | _ => true
                  end then deny 400 #"credential_header"
          else match read_body (en_MaxRequestBytes entry) r with
          | None => deny 400 #"request_shape"
          | Some body =>
              if too_large (en_MaxRequestBytes entry) body then deny 413 #"request_too_large"
              else if negb (bool_decide (body = [])) && (get_or_head r || br_App b) then deny 400 #"request_shape"
              else if containsPlaceholder body then deny 400 #"placeholder_misplaced"
              else limited entry ev
                match mint entry with
                | None => deny 503 #"token_unavailable"
                | Some token =>
                    on_record ev (if br_Seed b then #"seed" else #"admitted")
                      (if br_Seed b then
                         match su_Seed w entry token with
                         | None => finish_row ev 503 #"seed_unavailable" ++ [Answer 503]
                         | Some seed => SeedReply seed :: finish_row ev 200 #"completed"
                         end
                       else if negb (su_NewRequest w (hr_Method r) (ul_Path (hr_URL r))) then finish_row ev 400 #"request_shape" ++ [Answer 400]
                       else relayScreened ev (browser_request entry (br_App b) r body token) (secretRepresentations [token; #"Bearer " ++ token]) (en_MaxResponseBytes entry)
                              (λ resp, if negb (br_App b) && invalidToken resp then [Invalidate] else []) false no_cookies)
                end
          end
      end
  end.

(** ** Google APIs *)

Definition gcp_request (entry : CatalogEntry) (r : hrequest) (body token : bytes) : OutRequest :=
  {| out_Method := hr_Method r; out_Target := target; out_Host := hostHeaderForScheme target; out_Path := ul_Path (hr_URL r); out_RawPath := ul_RawPath (hr_URL r); out_RawQuery := ul_RawQuery (hr_URL r);
     out_Header := identity_encoding (header_Set #"Authorization" (#"Bearer " ++ token)
       (foldl (λ h '(name, values), if GCPForwardsHeader entry name then <[CanonicalHeaderKey name := values]> h else h) ∅ (hr_Header r)));
     out_Body := body |}.

Definition forwardGCP (r : hrequest) (ev : Event) (entry : option CatalogEntry) (err : option match_error) : list effect :=
  let ev := match entry with Some e => with_binding (en_Name e) ev | None => ev end in
  let deny := adapterDeny ev in
  match err, entry with
  | Some e, _ => let '(status, outcome) := match_refusal e in deny status outcome
  | None, None => []
  | None, Some entry =>
      match su_GCPToken w with
      | None => deny 503 #"token_unavailable"
      | Some mint =>
          if bad_shape r || unsafePath (ul_Path (hr_URL r)) || containsPlaceholder (ul_RawQuery (hr_URL r)) || header_set r #"Content-Encoding" then deny 400 #"request_shape"
          else if match header_Values (hr_Header r) #"Authorization" with
                  | [] => false
                  | [got] => negb (bool_decide (got = #"Bearer " ++ en_Placeholder entry))
                  | _ => true
                  end then deny 400 #"credential_header"
          else match read_body (en_MaxRequestBytes entry) r with
          | None => deny 400 #"request_shape"
          | Some body =>
              if too_large (en_MaxRequestBytes entry) body then deny 413 #"request_too_large"
              else if containsPlaceholder body then deny 400 #"placeholder_misplaced"
              else limited entry ev
                match mint entry with
                | None => deny 503 #"token_unavailable"
                | Some token =>
                    if negb (su_NewRequest w (hr_Method r) (ul_Path (hr_URL r))) then deny 400 #"request_shape"
                    else on_record ev #"admitted"
                      (relayScreened ev (gcp_request entry r body token) (secretRepresentations [token; #"Bearer " ++ token]) (en_MaxResponseBytes entry) (λ _, [Invalidate]) false id)
                end
          end
      end
  end.
End Adapter.

(** ** Every request of a tunnel *)

Section Catalog.
Context {unicode : UnicodeTables} (w : surroundings).

(** [refused]: an entry that matched without an error must pass the
    authorization model before any credential is fetched. *)
Definition authorised (scope : CatalogScope) (target : bytes) (entry : option CatalogEntry) (err : option match_error) (ev : Event)
    (next : Event → list effect) : list effect :=
  match err, entry with
  | None, Some e =>
      let '(outcome, ev) := authorize_entry w scope e ev in
      if bool_decide (outcome = []) then next ev else adapterDeny w target (with_binding (en_Name e) ev) 403 outcome
  | _, _ => next ev
  end.

Definition forwardCatalog (target host : bytes) (port : Z) (useTLS : bool) (scope : option CatalogScope) (r : hrequest) : list effect :=
  let ev := first_event (su_RequestID w) (hr_Method r) scope in
  let deny := adapterDeny w target ev in
  match scope with
  | None => deny 403 #"authentication"
  | Some s =>
      if bool_decide (sc_AgentID s = []) || negb (bool_decide (sc_UserID s = [])) then deny 403 #"authentication"
      else if negb (su_Admit w) then deny 503 #"audit_unavailable"
      else if negb useTLS then deny 400 #"plain_http"
      else
        let c := su_Catalog w in
        let path := ul_Path (hr_URL r) in
        let query := ul_RawQuery (hr_URL r) in
        match GitMatch c host port (hr_Method r) path query (sc_Pool s) with
        | Some (q, err) => authorised s target (rq_Entry <$> q) err ev (λ ev, forwardGit w s target r ev q err)
        | None =>
            match GitHubAPIMatch c host port (hr_Method r) path query (sc_Pool s) with
            | Some (q, err) => authorised s target (rq_Entry <$> q) err ev (λ ev, forwardGitHubAPI w s target r ev q err)
            | None =>
                match BrowserMatch c host port (hr_Method r) path (sc_Pool s) with
                | Some (b, err) => authorised s target (Some (br_Entry b)) err ev (λ ev, forwardBrowser w s target r ev b err)
                | None =>
                    match GCPMatch c host port (hr_Method r) path (sc_Pool s) with
                    | Some (e, err) => authorised s target e err ev (λ ev, forwardGCP w s target r ev e err)
                    | None =>
                        let '(e, err) := Match c host port (hr_Method r) path (sc_Pool s) in
                        let ev := match e with Some e => with_binding (en_Name e) ev | None => ev end in
                        authorised s target e err ev (λ ev, forwardKey w s target r ev e err)
                    end
                end
            end
        end
  end.
End Catalog.
