(* ===== verification/MitmTheorems.v ===== *)
(** * What the proxy sends and what comes back ([internal/mitm/])

    Every handler of [MitmAdapter] either refuses, or admits one request in the
    audit trail and then sends it ([handled]).  The theorems hold of every
    request, catalog, credential store, limiter and server. *)

From S2P Require Import Prelude GoString GoUrl BrokerCore Catalog CatalogMatch Entitlement RunnerId Authorize AuditRow AuditChain MitmScreen MitmGit MitmAdapter.

(** ** Routes *)

(** The kind of grant behind a request. *)
Inductive route := ToKey (e : CatalogEntry) | ToGit (q : GitRequest) | ToAPI (q : GitRequest) | ToBrowser (b : BrowserRequest) | ToGCP (e : CatalogEntry).

Definition route_entry (t : route) : CatalogEntry :=
  match t with ToKey e | ToGCP e => e | ToGit q | ToAPI q => rq_Entry q | ToBrowser b => br_Entry b end.

(** The header that carries the credential, and its value. *)
Definition route_credential (t : route) (secret : bytes) : option (bytes * bytes) :=
  match t with
  | ToKey e => Some (CanonicalHeaderKey (en_Header e), Credential e secret)
  | ToGit _ => Some (#"Authorization", git_credential secret)
  | ToAPI _ | ToGCP _ => Some (#"Authorization", #"Bearer " ++ secret)
  | ToBrowser b => if br_App b then None else Some (#"Authorization", #"Bearer " ++ secret)
  end.

(** The worker's headers that go with a request. *)
Definition route_forwards (t : route) (name : bytes) : bool :=
  match t with
  | ToKey e => ForwardsHeader e name
  | ToGit _ => bool_decide (name ∈ [ #"Accept"; #"Content-Type"; #"User-Agent"; #"Git-Protocol"; #"Content-Encoding"])
  | ToAPI _ => bool_decide (name ∈ [ #"Accept"; #"Content-Type"; #"User-Agent"; #"X-Github-Api-Version"])
  | ToBrowser b => bool_decide (name ∈ map CanonicalHeaderKey (BrowserForwardHeaders ++ en_ForwardHeaders (br_Entry b)))
  | ToGCP e => GCPForwardsHeader e name
  end.

(** Which route the catalog gives a request of the pool. *)
Inductive routed `{UnicodeTables} (c : Catalog) (host : bytes) (port : Z) (r : hrequest) (pool : bytes) : route → Prop :=
| rt_git q : GitMatch c host port (hr_Method r) (ul_Path (hr_URL r)) (ul_RawQuery (hr_URL r)) pool = Some (Some q, None) → routed c host port r pool (ToGit q)
| rt_api q : GitHubAPIMatch c host port (hr_Method r) (ul_Path (hr_URL r)) (ul_RawQuery (hr_URL r)) pool = Some (Some q, None) → routed c host port r pool (ToAPI q)
| rt_browser b : BrowserMatch c host port (hr_Method r) (ul_Path (hr_URL r)) pool = Some (b, None) → routed c host port r pool (ToBrowser b)
| rt_gcp e : GCPMatch c host port (hr_Method r) (ul_Path (hr_URL r)) pool = Some (Some e, None) → routed c host port r pool (ToGCP e)
| rt_key e : Match c host port (hr_Method r) (ul_Path (hr_URL r)) pool = (Some e, None) → routed c host port r pool (ToKey e).

(** A request of route [t] that carries [secret]. *)
Record sent_ok `{UnicodeTables} (target : bytes) (r : hrequest) (t : route) (secret : bytes) (out : OutRequest) : Prop := {
  so_target : out_Target out = target ∧ out_Host out = hostHeaderForScheme target;
  so_path : out_Path out = ul_Path (hr_URL r) ∧ unsafePath (out_Path out) = false;
  so_credential : ∀ h v, route_credential t secret = Some (h, v) → h ≠ #"Accept-Encoding" → out_Header out !! h = Some [v];
  so_headers : ∀ name vs, out_Header out !! name = Some vs →
    (name = #"Accept-Encoding" ∧ vs = [ #"identity"]) ∨ (∃ v, route_credential t secret = Some (name, v) ∧ vs = [v]) ∨
    ∃ name', (name', vs) ∈ hr_Header r ∧ (name = name' ∨ name = CanonicalHeaderKey name') ∧ route_forwards t name' = true;
}.

(** ** The course of a request *)

Definition local (e : effect) : Prop := match e with Send _ | Relay _ _ _ | Probe _ => False | _ => True end.

Section Handled.
Context {unicode : UnicodeTables} (w : surroundings) (target : bytes).

(** [P out needles]: what is known of a request sent and of what its response is
    searched for. *)
Inductive handled (P : OutRequest → list bytes → Prop) : list effect → Prop :=
| hd_deny ev status outcome : handled P (adapterDeny w target ev status outcome)
| hd_probe out l : handled P l → handled P (Probe out :: l)
| hd_local ev outcome l : Forall local l → handled P (on_record w ev outcome l)
| hd_send ev out needles limit rejected cut reply : P out needles → (∀ resp, Forall local (rejected resp)) → (∀ h x, x ∈ reply h → x ∈ h) →
    handled P (on_record w ev #"admitted" (relayScreened w ev out needles limit rejected cut reply)).

Lemma finish_local ev status outcome : Forall local (finish_row w ev status outcome).
Proof using Type. by repeat constructor. Qed.

Lemma deny_local ev status outcome : Forall local (adapterDeny w target ev status outcome).
Proof using Type. by repeat constructor. Qed.

(** Around the one request that is sent. *)
Lemma relay_sends ev out needles limit rejected cut reply : (∀ resp, Forall local (rejected resp)) →
  ∃ post, relayScreened w ev out needles limit rejected cut reply = Send out :: post ∧
  (Forall local post ∨
   ∃ resp pre body rest, su_RoundTrip w out = Ok resp ∧ refused_response resp needles = false ∧ Forall local pre ∧ Forall local rest ∧
     post = pre ++ Relay (rs_Status resp) (reply (relayed_header (rs_Header resp))) body :: rest ∧ body = fst (screenedCopy needles limit (rs_Reads resp) (su_Writes w) [] 0)).
Proof using Type.
  intros Hr. unfold relayScreened. destruct (su_RoundTrip w out) as [resp|read_all].
  - eexists. split; [done|]. destruct (refused_response resp needles) eqn:Er.
    + left. apply Forall_app. split; [destruct (bool_decide _); [apply Hr|constructor]|]. apply Forall_app. split; [apply finish_local|by repeat constructor].
    + right. destruct (screenedCopy _ _ _ _ _ _) as [body outcome] eqn:Es. exists resp, (if bool_decide (rs_Status resp ∈ [401; 403]) then rejected resp else []), body.
      eexists. split; [done|]. split; [done|]. split; [destruct (bool_decide _); [apply Hr|constructor]|]. split; [|split; [done|by rewrite Es]].
      destruct outcome; [|constructor]. apply Forall_app. split; [apply finish_local|]. destruct (bool_decide _); by repeat constructor.
  - eexists. split; [done|]. left. destruct (read_all && cut); apply Forall_app; (split; [apply finish_local|by repeat constructor]).
Qed.
End Handled.

(** ** Headers that are sent *)

Lemma set_headers h v kept name vs : identity_encoding (header_Set h v kept) !! name = Some vs →
  (name = #"Accept-Encoding" ∧ vs = [ #"identity"]) ∨ (name = CanonicalHeaderKey h ∧ vs = [v]) ∨ kept !! name = Some vs.
Proof.
  unfold identity_encoding, header_Set. change (CanonicalHeaderKey #"Accept-Encoding") with (#"Accept-Encoding").
  rewrite lookup_insert_Some. intros [[<- <-]|[_ H]]; [by left|]. rewrite lookup_insert_Some in H. destruct H as [[<- <-]|[_ H]]; [by right; left|by right; right].
Qed.

Lemma set_credential h v kept : CanonicalHeaderKey h ≠ #"Accept-Encoding" → identity_encoding (header_Set h v kept) !! CanonicalHeaderKey h = Some [v].
Proof.
  intros Hne. unfold identity_encoding, header_Set. change (CanonicalHeaderKey #"Accept-Encoding") with (#"Accept-Encoding").
  rewrite lookup_insert_ne by congruence. apply lookup_insert_eq.
Qed.

Lemma header_Values_in h k v vs : header_Values h k = v :: vs → (CanonicalHeaderKey k, v :: vs) ∈ h.
Proof.
  unfold header_Values. destruct (List.find _ h) as [[k' x]|] eqn:E; [|done]. intros ->. apply List.find_some in E as [Hin E].
  apply bool_decide_eq_true in E as <-. by apply list_elem_of_In.
Qed.

Lemma keep_headers_spec names r name vs : keep_headers names r !! name = Some vs → ∃ n, n ∈ names ∧ name = CanonicalHeaderKey n ∧ (name, vs) ∈ hr_Header r.
Proof.
  unfold keep_headers. induction names as [|n names IH] using rev_ind; [cbn [foldl]; by rewrite lookup_empty|]. rewrite foldl_app. cbn [foldl].
  destruct (header_Values (hr_Header r) n) as [|v l] eqn:E; [intros H; destruct (IH H) as (m & Hm & ?); exists m; split; [apply elem_of_app; by left|done]|].
  rewrite lookup_insert_Some. intros [[<- <-]|[_ H]].
  - exists n. split; [apply elem_of_app; right; by apply list_elem_of_singleton|]. split; [done|]. by apply header_Values_in.
  - destruct (IH H) as (m & Hm & ?). exists m. split; [apply elem_of_app; by left|done].
Qed.

Section Sent.
Context {unicode : UnicodeTables} (w : surroundings) (scope : CatalogScope) (target : bytes) (r : hrequest).

Definition carries (t : route) (out : OutRequest) (needles : list bytes) : Prop :=
  ∃ secret rest, sent_ok target r t secret out ∧ needles = secretRepresentations (secret :: rest).

Lemma key_headers_spec entry h forwarded kept name vs : key_headers entry h forwarded = Ok kept → kept !! name = Some vs →
  forwarded !! name = Some vs ∨ (ForwardsHeader entry name = true ∧ (name, vs) ∈ h).
Proof using Type.
  revert forwarded. induction h as [|[n v] h IH]; intros forwarded; cbn [key_headers]; [intros [= <-]; by left|].
  destruct (bool_decide _); [destruct (bool_decide _); [|done]|destruct (existsb _ _); [done|]]; intros E Hk; destruct (IH _ E Hk) as [H|[H1 H2]].
  - by left.
  - right. split; [done|]. apply elem_of_cons. by right.
  - destruct (ForwardsHeader entry n) eqn:Ef; [|by left]. apply lookup_insert_Some in H as [[<- <-]|[_ H]]; [|by left]. right. split; [done|]. apply list_elem_of_here.
  - right. split; [done|]. apply elem_of_cons. by right.
Qed.

(** Requests built from a fixed list of the worker's headers. *)
Lemma kept_sent t secret out kept : out_Target out = target ∧ out_Host out = hostHeaderForScheme target →
  out_Path out = ul_Path (hr_URL r) ∧ unsafePath (out_Path out) = false →
  (∀ name vs, kept !! name = Some vs → ∃ name', (name', vs) ∈ hr_Header r ∧ (name = name' ∨ name = CanonicalHeaderKey name') ∧ route_forwards t name' = true) →
  match route_credential t secret with
  | Some (h, v) => ∃ h0, h = CanonicalHeaderKey h0 ∧ out_Header out = identity_encoding (header_Set h0 v kept)
  | None => out_Header out = identity_encoding kept
  end → sent_ok target r t secret out.
Proof using Type.
  intros H1 H2 Hk Hc. split; [done|done| |].
  - intros h v E Hne. rewrite E in Hc. destruct Hc as (h0 & -> & ->). by apply set_credential.
  - intros name vs E. destruct (route_credential t secret) as [[h v]|].
    + destruct Hc as (h0 & -> & Hc). rewrite Hc in E. apply set_headers in E as [?|[[-> ->]|E]]; [by left|right; left; eauto|right; right; by apply Hk].
    + rewrite Hc in E. unfold identity_encoding, header_Set in E. change (CanonicalHeaderKey #"Accept-Encoding") with (#"Accept-Encoding") in E.
      apply lookup_insert_Some in E as [[<- <-]|[_ E]]; [by left|right; right; by apply Hk].
Qed.

Lemma listed_sent (names : list bytes) name vs : map CanonicalHeaderKey names = names → keep_headers names r !! name = Some vs →
  ∃ name', (name', vs) ∈ hr_Header r ∧ (name = name' ∨ name = CanonicalHeaderKey name') ∧ bool_decide (name' ∈ names) = true.
Proof using Type.
  intros Hn E. destruct (keep_headers_spec _ _ _ _ E) as (n & Hin & -> & Hr). exists (CanonicalHeaderKey n). split; [done|]. split; [by left|].
  apply bool_decide_eq_true. rewrite <- Hn. apply list_elem_of_In, List.in_map. by apply list_elem_of_In.
Qed.

(** ** The handlers *)

Ltac walk :=
  repeat first
    [ apply hd_deny
    | match goal with |- handled _ _ _ (if ?b then _ else _) => destruct b eqn:? end
    | match goal with |- handled _ _ _ (match ?x with _ => _ end) => destruct x eqn:? end ].

Lemma unsafe_false (a b c : bool) : a || b || c = false → a = false ∧ b = false ∧ c = false.
Proof using Type. by destruct a, b, c. Qed.

Lemma invalidate_local (resp : Response) : Forall local [Invalidate].
Proof using Type. by repeat constructor. Qed.

Lemma key_handled ev e err : (err = None → is_Some e) → handled w target (λ out needles, ∃ entry, e = Some entry ∧ err = None ∧ carries (ToKey entry) out needles) (forwardKey w scope target r ev e err).
Proof using Type.
  intros He. unfold forwardKey. destruct err as [err|]; [destruct err; apply hd_deny|]. destruct e as [entry|]; [|by destruct (He eq_refl)].
  walk. unfold limited. walk. apply hd_send; [|apply invalidate_local|done]. exists entry. split; [done|]. split; [done|].
  eexists _, _. split; [|unfold key_needles; cbn [app]; reflexivity].
  eapply kept_sent; [done| | |eexists; split; [reflexivity|reflexivity]].
  - split; [done|]. by repeat match goal with H : _ || _ = false |- _ => apply orb_false_iff in H as [? ?] end.
  - intros name vs Hk. eapply key_headers_spec in Hk; [|done]. rewrite lookup_empty in Hk. destruct Hk as [|[Hf Hin]]; [done|]. exists name. split; [done|]. split; [by left|done].
Qed.

Lemma git_handled ev q err : (err = None → is_Some q) → handled w target (λ out needles, ∃ g, q = Some g ∧ err = None ∧ carries (ToGit g) out needles) (forwardGit w scope target r ev q err).
Proof using Type.
  intros He. unfold forwardGit. destruct err as [err|]; [destruct err; apply hd_deny|]. destruct q as [g|]; [|by destruct (He eq_refl)].
  walk. unfold limited. walk. apply hd_send; [|apply invalidate_local|done]. exists g. split; [done|]. split; [done|].
  eexists _, _. split; [|reflexivity].
  eapply kept_sent; [done| | |eexists; split; [|reflexivity]; reflexivity].
  - split; [done|]. by repeat match goal with H : _ || _ = false |- _ => apply orb_false_iff in H as [? ?] end.
  - intros name vs Hk. by apply listed_sent.
Qed.

Lemma probe_handled P q token p ok l : comment_target w target q token = (p, ok) → handled w target P l → handled w target P (p ++ l).
Proof using Type. unfold comment_target. intros E H. destruct (_ <=? 0); [by injection E as <- _|]. destruct (negb _); injection E as <- _; [done|by apply hd_probe]. Qed.

Lemma api_handled ev q err : (err = None → is_Some q) → handled w target (λ out needles, ∃ g, q = Some g ∧ err = None ∧ carries (ToAPI g) out needles) (forwardGitHubAPI w scope target r ev q err).
Proof using Type.
  intros He. unfold forwardGitHubAPI. destruct err as [err|]; [destruct err; apply hd_deny|]. destruct q as [g|]; [|by destruct (He eq_refl)].
  walk. unfold limited. walk. eapply probe_handled; [done|]. walk.
  apply hd_send; [|apply invalidate_local|done]. exists g. split; [done|]. split; [done|].
  eexists _, _. split; [|reflexivity].
  eapply kept_sent; [done| | |eexists; split; [|reflexivity]; reflexivity].
  - split; [done|]. by repeat match goal with H : _ || _ = false |- _ => apply orb_false_iff in H as [? ?] end.
  - intros name vs Hk. by apply listed_sent.
Qed.

Lemma finish_handled P ev outcome ev' status o l : Forall local l → handled w target P (on_record w ev outcome (finish_row w ev' status o ++ l)).
Proof using Type. intros Hl. apply hd_local. apply Forall_app. split; [apply finish_local|done]. Qed.

Lemma browser_handled ev b err : handled w target (λ out needles, err = None ∧ carries (ToBrowser b) out needles) (forwardBrowser w scope target r ev b err).
Proof using Type.
  unfold forwardBrowser. destruct err as [err|]; [destruct err; apply hd_deny|].
  walk; unfold limited; walk. destruct (br_Seed b) eqn:Es.
  - apply hd_local. destruct (su_Seed w (br_Entry b) l0); [constructor; [done|apply finish_local]|]. apply Forall_app. split; [apply finish_local|by repeat constructor].
  - destruct (negb (su_NewRequest w _ _)); [apply finish_handled; by repeat constructor|].
    apply hd_send; [split; [done|]|intros resp; cbv beta; destruct (negb (br_App b) && invalidToken resp); by repeat constructor|intros h x Hx; unfold no_cookies in Hx; by apply elem_of_lfilter in Hx as [? _]].
    eexists _, _. split; [|reflexivity].
    eapply (kept_sent (ToBrowser b) _ _ (keep_headers (BrowserForwardHeaders ++ en_ForwardHeaders (br_Entry b)) r)); [done| | |].
    + split; [done|]. by repeat match goal with H : _ || _ = false |- _ => apply orb_false_iff in H as [? ?] end.
    + intros name vs Hk. destruct (keep_headers_spec _ _ _ _ Hk) as (n & Hin & -> & Hr). exists (CanonicalHeaderKey n). split; [done|]. split; [by left|].
      apply bool_decide_eq_true, list_elem_of_In, List.in_map. by apply list_elem_of_In.
    + cbn [route_credential browser_request out_Header]. destruct (br_App b); [done|]. by exists #"Authorization".
Qed.

Lemma gcp_kept entry (h : header_list) : ∀ (acc : Header) name vs, foldl (λ h '(name, values), if GCPForwardsHeader entry name then <[CanonicalHeaderKey name := values]> h else h) acc h !! name = Some vs →
  acc !! name = Some vs ∨ ∃ name', (name', vs) ∈ h ∧ name = CanonicalHeaderKey name' ∧ GCPForwardsHeader entry name' = true.
Proof using Type.
  induction h as [|[n v] h IH]; intros acc name vs Hk; cbn [foldl] in Hk; [by left|]. apply IH in Hk as [Hk|(n' & Hin & ?)]; [|right; exists n'; split; [apply elem_of_cons; by right|done]].
  destruct (GCPForwardsHeader entry n) eqn:Ef; [|by left]. apply lookup_insert_Some in Hk as [[<- <-]|[_ Hk]]; [|by left].
  right. exists n. split; [apply list_elem_of_here|done].
Qed.

Lemma gcp_handled ev e err : (err = None → is_Some e) → handled w target (λ out needles, ∃ entry, e = Some entry ∧ err = None ∧ carries (ToGCP entry) out needles) (forwardGCP w scope target r ev e err).
Proof using Type.
  intros He. unfold forwardGCP. destruct err as [err|]; [destruct err; apply hd_deny|]. destruct e as [entry|]; [|by destruct (He eq_refl)].
  walk. unfold limited. walk. apply hd_send; [|apply invalidate_local|done]. exists entry. split; [done|]. split; [done|].
  eexists _, _. split; [|reflexivity].
  eapply kept_sent; [done| | |eexists; split; [|reflexivity]; reflexivity].
  - split; [done|]. by repeat match goal with H : _ || _ = false |- _ => apply orb_false_iff in H as [? ?] end.
  - intros name vs Hk. apply gcp_kept in Hk as [Hk|(n & Hin & -> & Hf)]; [by rewrite lookup_empty in Hk|]. exists n. split; [done|]. split; [by right|done].
Qed.
End Sent.

(** ** Matches that succeed name an entry *)

Ltac peel E :=
  repeat match type of E with
  | (if ?b then _ else _) = _ => destruct b
  | (match ?x with _ => _ end) = _ => destruct x
  | (let _ := _ in _) = _ => cbv zeta in E
  end; try discriminate E; injection E as <-; eauto.

Lemma grant_some best method pool e : grant best method pool = (e, None) → is_Some e.
Proof. unfold grant. destruct best; [|done]. destruct (negb _); [done|]. destruct (negb _); [done|]. intros [= <-]. eauto. Qed.
Lemma GitMatch_some `{UnicodeTables} c host port m path query pool q : GitMatch c host port m path query pool = Some (q, None) → is_Some q.
Proof. unfold GitMatch. destruct (bool_decide _); [done|]. intros E. apply (inj Some) in E. peel E. Qed.
Lemma GitHubAPIMatch_some `{UnicodeTables} c host port m path query pool q : GitHubAPIMatch c host port m path query pool = Some (q, None) → is_Some q.
Proof. unfold GitHubAPIMatch. destruct (bool_decide _); [done|]. intros E. apply (inj Some) in E. peel E. Qed.
Lemma GCPMatch_some `{UnicodeTables} c host port m path pool e : GCPMatch c host port m path pool = Some (e, None) → is_Some e.
Proof. unfold GCPMatch. case_match; [|done]. intros [= E]. by apply grant_some in E. Qed.

(** A decision that refuses says why. *)
Lemma refusal_has_code ask pool tier requires who recheck :
  d_Outcome (fst (authorize_Decide ask pool tier requires who recheck)) = [] → d_Allowed (fst (authorize_Decide ask pool tier requires who recheck)) = true.
Proof.
  unfold authorize_Decide, Decide. set (p := {| p_Identity := _ |}). set (e := {| e_Tier := _ |}). set (q := {| r_Kind := _ |}).
  destruct (decide_first p e q recheck) as [fresh|[ok outcome]] eqn:E.
  - repeat (case_match; simplify_eq/=); done.
  - cbn. intros ->. unfold decide_first in E. repeat (case_match; simplify_eq/=); done.
Qed.

(** The authorization model lets the requester of [scope] use [e]. *)
Definition entitled `{UnicodeTables} (w : surroundings) (scope : CatalogScope) (e : CatalogEntry) : Prop :=
  let pool := default Catalog.no_pool (CatalogPool_named (su_Catalog w) (sc_Pool scope)) in
  let claims := {| cl_Pod := sc_WorkloadID scope; cl_ClaimedRun := sc_ClaimedRun scope; cl_AttestedRequester := sc_AttestedRequester scope |} in
  ∃ who, Resolve pool (sc_Session scope) claims (su_Runner w) (su_Sessions w) (su_Now w) = (who, []) ∧
    d_Allowed (fst (authorize_Decide (su_Entitled w) pool (en_Tier e) (en_Requires e) who (su_Recheck w))) = true.

Section Catalog.
Context {unicode : UnicodeTables} (w : surroundings) (target host : bytes) (port : Z) (r : hrequest).

Lemma authorize_entitled scope e ev ev' : authorize_entry w scope e ev = ([], ev') → entitled w scope e.
Proof using Type.
  unfold authorize_entry, entitled. destruct (Resolve _ _ _ _ _ _) as [who refusal]. destruct (bool_decide (refusal = [])) eqn:Er; cbn [negb]; [|intros [= -> _]; done].
  apply bool_decide_eq_true in Er as ->. intros [= E _]. exists who. split; [done|].
  destruct (d_Allowed _) eqn:Ed; [done|]. apply refusal_has_code in E. congruence.
Qed.

Definition granted_to (scope : CatalogScope) (out : OutRequest) (needles : list bytes) : Prop :=
  ∃ t, routed (su_Catalog w) host port r (sc_Pool scope) t ∧ entitled w scope (route_entry t) ∧ carries target r t out needles.

Lemma handled_mono (P Q : OutRequest → list bytes → Prop) l : (∀ out n, P out n → Q out n) → handled w target P l → handled w target Q l.
Proof using Type. intros H. induction 1; [apply hd_deny|by apply hd_probe|by apply hd_local|apply hd_send; auto]. Qed.

Lemma authorised_handled scope e err ev (next : Event → list effect) (P : CatalogEntry → OutRequest → list bytes → Prop) :
  (∀ ev, handled w target (λ out n, ∃ x, e = Some x ∧ err = None ∧ P x out n) (next ev)) →
  handled w target (λ out n, ∃ x, e = Some x ∧ err = None ∧ entitled w scope x ∧ P x out n) (authorised w scope target e err ev next).
Proof using Type.
  intros H. unfold authorised. destruct err as [err|]; [eapply handled_mono; [|apply H]; by intros ? ? (? & ? & [=] & _)|].
  destruct e as [e|]; [|eapply handled_mono; [|apply H]; by intros ? ? (? & [=] & _)].
  destruct (authorize_entry w scope e ev) as [outcome ev'] eqn:E. destruct (bool_decide (outcome = [])) eqn:Eo; [|apply hd_deny].
  apply bool_decide_eq_true in Eo as ->. apply authorize_entitled in E. eapply handled_mono; [|apply H]. intros out n (x & [= <-] & _ & Hx). by exists e.
Qed.

Lemma forwardCatalog_handled useTLS scope : handled w target (λ out n, ∃ s, scope = Some s ∧ granted_to s out n) (forwardCatalog w target host port useTLS scope r).
Proof using Type.
  unfold forwardCatalog. destruct scope as [s|]; [|apply hd_deny]. destruct (_ || _); [apply hd_deny|]. destruct (negb (su_Admit w)); [apply hd_deny|]. destruct (negb useTLS); [apply hd_deny|].
  assert (Hg : ∀ t out n, routed (su_Catalog w) host port r (sc_Pool s) t → entitled w s (route_entry t) → carries target r t out n → ∃ s', Some s = Some s' ∧ granted_to s' out n) by (intros t out n H1 H2 H3; exists s; split; [done|by exists t]).
  destruct (GitMatch _ _ _ _ _ _ _) as [[q err]|] eqn:E1.
  { eapply handled_mono; [|eapply (authorised_handled s (rq_Entry <$> q) err _ _ (λ x out n, ∃ g, q = Some g ∧ carries target r (ToGit g) out n))].
    - intros out n (x & Ex & -> & Hx & g & -> & Hc). injection Ex as <-. apply (Hg (ToGit g)); [by apply rt_git|done|done].
    - intros ev. eapply handled_mono; [|apply git_handled; intros ->; by eapply GitMatch_some]. intros out n (g & -> & -> & Hc). exists (rq_Entry g). eauto. }
  destruct (GitHubAPIMatch _ _ _ _ _ _ _) as [[q err]|] eqn:E2.
  { eapply handled_mono; [|eapply (authorised_handled s (rq_Entry <$> q) err _ _ (λ x out n, ∃ g, q = Some g ∧ carries target r (ToAPI g) out n))].
    - intros out n (x & Ex & -> & Hx & g & -> & Hc). injection Ex as <-. apply (Hg (ToAPI g)); [by apply rt_api|done|done].
    - intros ev. eapply handled_mono; [|apply api_handled; intros ->; by eapply GitHubAPIMatch_some]. intros out n (g & -> & -> & Hc). exists (rq_Entry g). eauto. }
  destruct (BrowserMatch _ _ _ _ _ _) as [[b err]|] eqn:E3.
  { eapply handled_mono; [|eapply (authorised_handled s (Some (br_Entry b)) err _ _ (λ x out n, carries target r (ToBrowser b) out n))].
    - intros out n (x & [= <-] & -> & Hx & Hc). apply (Hg (ToBrowser b)); [by apply rt_browser|done|done].
    - intros ev. eapply handled_mono; [|apply browser_handled]. intros out n (-> & Hc). eauto. }
  destruct (GCPMatch _ _ _ _ _ _) as [[e err]|] eqn:E4.
  { eapply handled_mono; [|eapply (authorised_handled s e err _ _ (λ x out n, carries target r (ToGCP x) out n))].
    - intros out n (x & -> & -> & Hx & Hc). apply (Hg (ToGCP x)); [by apply rt_gcp|done|done].
    - intros ev. eapply handled_mono; [|apply gcp_handled; intros ->; by eapply GCPMatch_some]. intros out n (g & -> & -> & Hc). eauto. }
  destruct (Match _ _ _ _ _ _) as [e err] eqn:E5.
  eapply handled_mono; [|eapply (authorised_handled s e err _ _ (λ x out n, carries target r (ToKey x) out n))].
  - intros out n (x & -> & -> & Hx & Hc). apply (Hg (ToKey x)); [by apply rt_key|done|done].
  - intros ev. eapply handled_mono; [|apply key_handled; intros ->; by apply grant_some in E5]. intros out n (g & -> & -> & Hc). eauto.
Qed.
End Catalog.

(** ** The course of every request *)

Definition sends (e : effect) : Prop := match e with Send _ => True | _ => False end.
Definition relays (e : effect) : Prop := match e with Relay _ _ _ => True | _ => False end.

Lemma local_no_send l : Forall local l → Forall (λ e, ¬ sends e) l.
Proof. intros H. eapply Forall_impl; [exact H|]. intros []; cbn; tauto. Qed.
Lemma local_no_relay l : Forall local l → Forall (λ e, ¬ relays e) l.
Proof. intros H. eapply Forall_impl; [exact H|]. intros []; cbn; tauto. Qed.

Lemma not_in {A} (P : A → Prop) (l : list A) pre x post : Forall (λ e, ¬ P e) l → P x → l ≠ pre ++ x :: post.
Proof. intros H Hx ->. apply Forall_app in H as [_ H]. apply Forall_cons in H as [H _]. done. Qed.

Lemma admit_split `{UnicodeTables} w ev outcome next : ∃ ev' ok, ev_Event ev' = EventHTTPRequest ∧ ev_Outcome ev' = outcome ∧
  on_record w ev outcome next = Row ev' ok :: (if ok : bool then next else [Answer 503]).
Proof. eexists _, _. split; [|split; [|reflexivity]]; done. Qed.

(** The one request, its row, and what surrounds them. *)
Lemma handled_split `{UnicodeTables} w target P l : handled w target P l →
  (∃ probes, Forall (λ e, ¬ sends e ∧ ¬ relays e) probes ∧ l = probes ∧ ∃ ev ok, Row ev ok ∈ l) ∨
  ∃ probes ev out needles limit post, Forall (λ e, ¬ sends e ∧ ¬ relays e) probes ∧ P out needles ∧ ev_Event ev = EventHTTPRequest ∧ ev_Outcome ev = #"admitted" ∧
    l = probes ++ Row ev true :: Send out :: post ∧ Forall (λ e, ¬ sends e) post ∧
    (∀ st h body, Relay st h body ∈ post → ∃ resp, su_RoundTrip w out = Ok resp ∧ refused_response resp needles = false ∧ (∀ x, x ∈ h → x ∈ relayed_header (rs_Header resp)) ∧
       body = fst (screenedCopy needles limit (rs_Reads resp) (su_Writes w) [] 0)).
Proof.
  assert (Hloc : ∀ k, Forall local k → Forall (λ e, ¬ sends e ∧ ¬ relays e) k) by (intros k Hk; eapply Forall_impl; [exact Hk|]; intros []; cbn; tauto).
  induction 1 as [ev status outcome|out l _ IH|ev outcome k Hk|ev out needles limit rejected cut reply HP Hrej Hrep].
  - left. eexists. split; [apply Hloc, deny_local|]. split; [done|]. eexists _, _. apply list_elem_of_here.
  - destruct IH as [(probes & Hp & -> & ev & ok & Hin)|(probes & ev & o & needles & limit & post & Hp & HP & H1 & H2 & -> & H3)].
    + left. eexists. split; [|split; [done|exists ev, ok; apply elem_of_cons; by right]]. constructor; [split; intros []|done].
    + right. exists (Probe out :: probes), ev, o, needles, limit, post. split; [constructor; [split; intros []|done]|done].
  - left. eexists. split; [|split; [done|]].
    + apply Hloc. unfold on_record, row. constructor; [exact I|]. destruct (su_Record _ _); [done|by repeat constructor].
    + eexists _, _. apply list_elem_of_here.
  - destruct (admit_split w ev #"admitted" (relayScreened w ev out needles limit rejected cut reply)) as (ev' & [] & H1 & H2 & ->).
    2: { left. eexists. split; [|split; [done|exists ev', false; apply list_elem_of_here]]. by repeat constructor; intros []. }
    right. destruct (relay_sends w ev out needles limit rejected cut reply Hrej) as (post & -> & Hpost).
    exists [], ev', out, needles, limit, post. split; [constructor|]. split; [done|]. split; [done|]. split; [done|]. split; [done|].
    destruct Hpost as [Hpost|(resp & pre & body & rest & Er & Ef & Hpre & Hrest & -> & Eb)].
    + split; [by apply local_no_send|]. intros st h body Hin. rewrite Forall_forall in Hpost. by specialize (Hpost _ Hin).
    + split; [apply Forall_app; split; [by apply local_no_send|constructor; [intros []|by apply local_no_send]]|].
      intros st h b Hin. exists resp. split; [done|]. split; [done|]. rewrite elem_of_app, elem_of_cons in Hin.
      rewrite Forall_forall in Hpre, Hrest. destruct Hin as [Hin|[[= -> -> ->]|Hin]]; [by specialize (Hpre _ Hin)| |by specialize (Hrest _ Hin)].
      split; [|done]. intros x. apply Hrep.
Qed.


(** ** What the worker gets back *)

Lemma representations_needles secret rest n : n ∈ representations secret → n ∈ secretRepresentations (secret :: rest).
Proof. intros H. unfold secretRepresentations. cbn [flat_map]. apply elem_of_app. by left. Qed.

Lemma headersContain_false h needles name vs v n : headersContain h needles = false → (name, vs) ∈ h → n ∈ needles → n ≠ [] →
  (∀ a b, name ≠ a ++ n ++ b) ∧ (v ∈ vs → ∀ a b, v ≠ a ++ n ++ b).
Proof.
  unfold headersContain. rewrite existsb_false. intros H Hin Hn Hne. specialize (H _ Hin). cbn in H. apply orb_false_iff in H as [H1 H2].
  split; [intros a b; by apply (containsSecret_false name needles)|]. intros Hv a b. rewrite existsb_false in H2. by apply (containsSecret_false v needles _ _ _ (H2 v Hv)).
Qed.


(** ** One request *)

Module ProxyDemo.
#[local] Existing Instance latin1_tables.

Definition entry : CatalogEntry :=
  {| en_Name := #"vendor"; en_Host := #"api.vendor.com"; en_Port := 443; en_PathPrefixes := [ #"/v1"]; en_DeniedPaths := []; en_ReadOnlyPaths := []; en_Methods := [ #"GET"];
     en_Header := #"Authorization"; en_Scheme := #"Bearer"; en_BasicUser := false; en_Placeholder := #"__vault_VENDOR__"; en_Key := {| kr_Mount := #"kv"; kr_Path := #"vendor"; kr_Field := #"key" |};
     en_Pools := [ #"ci"]; en_ForwardHeaders := []; en_MaxRequestBytes := 1024; en_MaxResponseBytes := 1024; en_Kind := []; en_Git := None; en_Postgres := None; en_BrowserSession := None;
     en_GCP := None; en_Tier := #"T0"; en_Requires := [] |}.
Definition pool : Harness.CatalogPool :=
  {| Harness.cp_Name := #"ci"; Harness.cp_Namespace := []; Harness.cp_ServiceAccount := []; Harness.cp_Identity := []; Harness.cp_Ceiling := #"T0"; Harness.cp_CCPoolID := []; Harness.cp_BaseGroup := [];
     Harness.cp_Entitlements := []; Harness.cp_harness := None |}.

Definition world : surroundings :=
  {| su_Catalog := {| cat_entries := [entry]; cat_pools := [pool]; cat_harnesses := [] |}; su_Admit := true; su_Record := λ _, true; su_RequestID := #"id"; su_Now := 0; su_Runner := None;
     su_Sessions := None; su_Entitled := λ _ _ _, Err ErrLookupLimited; su_Recheck := false; su_Allowed := λ _ _, true; su_Key := λ _, Some #"s3cret"; su_GitToken := None;
     su_BrowserToken := None; su_Seed := λ _ _, None; su_GCPToken := None; su_NewRequest := λ _ _, true;
     su_RoundTrip := λ _, Ok {| rs_Status := 200; rs_Header := [(#"Content-Type", [ #"text/plain"])]; rs_Reads := [(#"he", ReadOk); (#"llo", ReadEOF)] |};
     su_Writes := []; su_Duration := 5; su_Members := λ _, None; su_Marshal := λ _, None; su_PullHead := λ _, None |}.
Definition scope : CatalogScope :=
  {| sc_Pool := #"ci"; sc_UserID := []; sc_AgentID := #"agent"; sc_WorkloadID := #"pod"; sc_ClaimedRun := []; sc_AttestedRequester := []; sc_Session := [] |}.
Definition request : hrequest :=
  {| hr_Method := #"GET"; hr_Host := #"api.vendor.com"; hr_URL := {| ul_IsAbs := false; ul_User := false; ul_Fragment := []; ul_RawPath := []; ul_Path := #"/v1/items"; ul_RawQuery := [] |};
     hr_Header := [(#"Authorization", [ #"Bearer __vault_VENDOR__"]); (#"Accept", [ #"*/*"]); (#"X-Evil", [ #"1"])]; hr_Trailer := false; hr_Body := []; hr_BodyFails := false; hr_ContentLength := 0 |}.

Definition effects : list effect := forwardCatalog world #"api.vendor.com:443" #"api.vendor.com" 443 true (Some scope) request.
Definition sent : OutRequest := key_request #"api.vendor.com:443" entry request [] {[#"Accept" := [ #"*/*"]]} #"s3cret".

Lemma effects_course : ∃ before after, effects = [before; Send sent; Relay 200 [(#"Content-Type", [ #"text/plain"])] #"hello"; after].
Proof. eexists _, _. vm_compute. reflexivity. Qed.


End ProxyDemo.
