(* ===== verification/MitmStrict.v ===== *)
(** * Strict requests without a catalog ([internal/mitm/strict.go])

    [forwardStrict] sends a bodiless read whose only secrets stand in
    [Authorization] or [X-Api-Key], where a placeholder of the matched service
    stood; the response is read whole and searched before a byte of it is
    written.  As in [MitmAdapter] a handler gives its effects in order.  The slot
    the limiter grants is held until the handler returns. *)

From S2P Require Import Prelude GoString GoRegexp GoUrl GoNet BrokerAuth BrokerMatch BrokerConfig BrokerInject BrokerCore ProxySession MitmScreen MitmAdapter RequestAudit Substitute MitmTheorems.

Definition strictResponseLimit : Z := Z.shiftl 1 20.

(** [^__vault_[A-Z][A-Z0-9_]*__$] *)
Definition strictPlaceholder : regex :=
  RSeq (RStr #"__vault_") (RSeq (RCls is_upper) (RSeq (RStar (RCls (λ c, is_upper c || is_digit c || (c =? 95)))) (RStr #"__"))).

(** The caller, as the tunnel resolved it. *)
Record StrictScope := { ts_VaultID : bytes; ts_Caller : CatalogScope }.

(** A request has a transfer encoding when its length is not known, -1. *)
Record strict_request := { sq_Request : hrequest; sq_ForceQuery : bool }.

Record strict_response := { tr_Response : Response; tr_Trailer : header_list; tr_Uncompressed : bool }.

Inductive strict_effect :=
| Catalogued (e : effect)
| ReadSecrets                                       (* [p.creds.Inject] *)
| Begun (a : Attempt) (id : option bytes)
| Ended (id : bytes) (o : Outcome) (ok : bool)
| Refusal (status : Z)                              (* [http.Error] *)
| Sent (out : OutRequest)
| Replied (id : bytes) (status : Z) (h : header_list) (body : bytes).

Record strict_surroundings := {
  tw_Adapter : option (bool * surroundings);         (* whether it is valid *)
  tw_DurableAudit : bool;
  tw_Begin : Attempt → option bytes;
  tw_Finish : bytes → Outcome → bool;
  tw_EnforceProxy : bytes → bytes → bool;
  tw_Inject : bytes → bytes → Z → bytes → option InjectResult * bool;  (* whether it failed *)
  tw_NewRequest : bytes → bytes → bytes → bytes → bool;  (* the method, path, raw path and query make a request *)
  tw_RoundTrip : OutRequest → option strict_response;
  tw_maxResponseBytes : Z;
}.

(** ** Audit *)

Definition actorFromScope (s : CatalogScope) : bytes * bytes :=
  if negb (bool_decide (sc_UserID s = [])) then (#"user", sc_UserID s)
  else if negb (bool_decide (sc_AgentID s = [])) then (#"agent", sc_AgentID s)
  else ([], []).

Definition strictAttempt (scope : option StrictScope) (inject : option InjectResult) (method host target decision : bytes) : Attempt :=
  let '(ty, actor) := match scope with Some s => actorFromScope (ts_Caller s) | None => ([], []) end in
  let matched := match inject with
                 | Some i => negb (ir_Passthrough i) && bool_decide (ir_MatchedHost i = host)
                 | None => false
                 end in
  {| at_VaultID := match scope with Some s => ts_VaultID s | None => [] end;
     at_ActorType := if bool_decide (ty = []) then #"unknown" else ty;
     at_ActorID := actor;
     at_WorkloadID := match scope with Some s => sc_WorkloadID (ts_Caller s) | None => [] end;
     at_Destination := if matched then target else [];
     at_Service := match inject with Some i => if matched then ir_MatchedName i else [] | None => [] end;
     at_MappingIDs := match inject with Some i => if matched then ir_CredentialKeys i else [] | None => [] end;
     at_Method := if bool_decide (method ∈ [ #"GET"; #"HEAD"]) then method else #"UNKNOWN";
     at_Decision := decision |}.

Definition with_at_Decision (d : bytes) (a : Attempt) : Attempt :=
  {| at_VaultID := at_VaultID a; at_ActorType := at_ActorType a; at_ActorID := at_ActorID a; at_WorkloadID := at_WorkloadID a; at_Destination := at_Destination a;
     at_Service := at_Service a; at_MappingIDs := at_MappingIDs a; at_Method := at_Method a; at_Decision := d |}.

(** ** Placeholders *)

(** The loop over the substitutions: values by placeholder. *)
Fixpoint strict_values (subs : list ResolvedSubstitution) (values : gmap bytes bytes) : option (gmap bytes bytes) :=
  match subs with
  | [] => Some values
  | sub :: subs =>
      if negb (MatchString strictPlaceholder (rs_Placeholder sub)) || negb (bool_decide (rs_In sub = [ #"header"])) ||
         bool_decide (rs_Value sub = []) || ContainsAny (rs_Value sub) [x0d; x0a] then None
      else match values !! rs_Placeholder sub with
           | Some _ => None
           | None => strict_values subs (<[rs_Placeholder sub := rs_Value sub]> values)
           end
  end.

Definition markers_in (s : bytes) : bool := Contains s #"__" || ContainsAny s #"{}".

(** A header the request may not have. *)
Definition marked_header `{UnicodeTables} (h : bytes * list bytes) : bool :=
  let '(name, vals) := h in
  markers_in name ||
  (negb (EqualFold name #"Proxy-Authorization" || EqualFold name #"Authorization" || EqualFold name #"X-Api-Key") && existsb markers_in vals).

Definition carrier_names : list bytes := [ #"Authorization"; #"X-Api-Key"].

(** One header of the outgoing request: the placeholder it carries, its new
    value, and what else to look for in the response.  The canonical encoding
    is the one [EncodeToString] gives, so which other encodings the decoder
    takes does not matter. *)
Definition carry (values : gmap bytes bytes) (name : bytes) (vals : list bytes) : option (bytes * bytes * list bytes) :=
  match vals with
  | [v] =>
      if bool_decide (name = #"Authorization") && HasPrefix v #"Basic " then
        let encoded := TrimPrefix v #"Basic " in
        match DecodeString encoded with
        | None => None
        | Some decoded =>
            if negb (bool_decide (EncodeToString decoded = encoded)) || negb (HasSuffix decoded #":") then None
            else
              let marker := TrimSuffix decoded #":" in
              match values !! marker with
              | None => None
              | Some secret => if ContainsByte secret x3a then None else Some (marker, #"Basic " ++ EncodeToString (secret ++ #":"), [secret ++ #":"])
              end
        end
      else
        let prefix := if bool_decide (name = #"Authorization") && HasPrefix v #"Bearer " then #"Bearer " else [] in
        let marker := TrimPrefix v prefix in
        match values !! marker with
        | None => None
        | Some secret => Some (marker, prefix ++ secret, [])
        end
  | _ => None
  end.

(** The loop over the outgoing headers. *)
Fixpoint carriers (values : gmap bytes bytes) (names : list bytes) (h : header_list) : option (Header * list bytes * list bytes) :=
  match names with
  | [] => Some (∅, [], [])
  | name :: names =>
      match header_Values h name with
      | [] => carriers values names h
      | vals =>
          match carry values name vals, carriers values names h with
          | Some (marker, v, extra), Some (out, used, extras) => Some (<[name := [v]]> out, marker :: used, extra ++ extras)
          | _, _ => None
          end
      end
  end.

(** Every placeholder of the service is used, and there is one. *)
Definition all_used (values : gmap bytes bytes) (used : list bytes) : bool :=
  negb (bool_decide (used = [])) && bool_decide (size (list_to_set used : gset bytes) = size values).

(** ** The response *)

Inductive read_outcome := Waiting | Unreadable | Read (data : bytes).

(** [io.ReadAll] of the first [limit+1] bytes, which must not be that many. *)
Fixpoint read_response (limit : Z) (data : bytes) (reads : list (bytes * read_err)) : read_outcome :=
  match reads with
  | [] => Waiting
  | (more, err) :: reads =>
      let data := data ++ more in
      if limit <? Z.of_nat (length data) then Unreadable
      else match err with
           | ReadOk => read_response limit data reads
           | ReadEOF => Read data
           | ReadFailed => Unreadable
           end
  end.

Definition refused_reply (resp : strict_response) : bool :=
  let h := rs_Header (tr_Response resp) in
  let status := rs_Status (tr_Response resp) in
  let encoding := header_Get h #"Content-Encoding" in
  (status <? 200) || ((300 <=? status) && (status <? 400)) || negb (bool_decide (header_Get h #"Upgrade" = [])) ||
  (negb (bool_decide (encoding = [])) && negb (bool_decide (encoding = #"identity"))) || tr_Uncompressed resp.

Definition replied_header `{UnicodeTables} (h : header_list) : header_list :=
  List.filter (λ '(name, _), negb (ShouldStripResponseHeader name || EqualFold name #"X-Request-Id" || EqualFold name #"Trailer")) h.

(** ** The handler *)

Section Strict.
Context {unicode : UnicodeTables} (w : strict_surroundings).

Definition response_limit : Z := if (0 <? tw_maxResponseBytes w) && (tw_maxResponseBytes w <? strictResponseLimit) then tw_maxResponseBytes w else strictResponseLimit.

(** [strictDeny], without a catalog. *)
Definition strictDeny (a : Attempt) (status : Z) : list strict_effect :=
  let a := with_at_Decision #"deny" a in
  if negb (tw_DurableAudit w) then [Refusal 503]
  else
    let id := tw_Begin w a in
    Begun a id ::
    match id with
    | None => [Refusal 503]
    | Some id =>
        let o := {| oc_Result := #"denied"; oc_Status := status |} in
        [Ended id o (tw_Finish w id o); Refusal (if tw_Finish w id o then status else 503)]
    end.

Definition finish_failure (id : bytes) (status : Z) : list strict_effect :=
  let o := {| oc_Result := #"upstream_error"; oc_Status := status |} in
  [Ended id o (tw_Finish w id o); Refusal (if tw_Finish w id o then status else 503)].

(** From the request to its reply. *)
Definition strict_exchange (id : bytes) (out : OutRequest) (secrets : list bytes) : list strict_effect :=
  Sent out ::
  match tw_RoundTrip w out with
  | None => finish_failure id 502
  | Some resp =>
      let h := rs_Header (tr_Response resp) in
      if refused_reply resp then finish_failure id 502
      else match read_response response_limit [] (rs_Reads (tr_Response resp)) with
      | Waiting => []
      | Unreadable => finish_failure id 502
      | Read data =>
          let needles := secretRepresentations secrets in
          if containsSecret data needles || headersContain h needles || headersContain (tr_Trailer resp) needles then finish_failure id 502
          else
            let o := {| oc_Result := #"completed"; oc_Status := rs_Status (tr_Response resp) |} in
            Ended id o (tw_Finish w id o) ::
            if tw_Finish w id o then [Replied id (rs_Status (tr_Response resp)) (replied_header h) data] else [Refusal 503]
      end
  end.

Definition strict_shape (useTLS : bool) (r : strict_request) : bool :=
  let q := sq_Request r in
  let u := hr_URL q in
  negb (negb useTLS || negb (get_or_head q) || negb (bool_decide (ul_RawQuery u = [])) || sq_ForceQuery r || ul_User u || negb (bool_decide (ul_Fragment u = [])) ||
        header_set q #"Upgrade" || header_set q #"Content-Encoding" || hr_Trailer q || negb (hr_ContentLength q =? 0)) &&
  negb (upgrades q || ContainsAny (ul_Path u) #"{}%" || Contains (ul_Path u) #"__").

Definition strict_host (target : bytes) (q : hrequest) : bool :=
  negb (ul_IsAbs (hr_URL q)) && (bool_decide (hr_Host q = target) || bool_decide (hr_Host q = hostHeaderForScheme target)).

(** The service that may serve the request. *)
Definition exact_service (host : bytes) (i : InjectResult) : bool :=
  negb (ir_Passthrough i || bool_decide (ir_MatchedName i = []) || negb (bool_decide (ir_MatchedHost i = host)) ||
        negb (bool_decide (default [] (ir_Headers i) = [])) || bool_decide (ir_Substitutions i = []) || bool_decide (ir_CredentialKeys i = [])).

Definition fixed_ok (port : Z) (q : hrequest) (i : InjectResult) : bool :=
  let fixed := {| svc_Name := []; svc_Host := ir_MatchedHost i; svc_Path := ir_MatchedPath i; svc_Port := None; svc_Enabled := None;
                  svc_Auth := {| auth_Type := []; auth_Token := []; auth_Username := []; auth_Password := []; auth_Key := []; auth_Header := []; auth_Prefix := []; auth_Headers := [] |};
                  svc_Substitutions := []; svc_FixedQuery := ir_FixedQuery i |} in
  bool_decide (ValidateFixedQuery fixed = None) &&
  match ir_FixedQuery i with
  | None => true
  | Some _ => bool_decide (hr_Method q = #"GET") && bool_decide (ir_MatchedPath i = ul_Path (hr_URL q)) && bool_decide (ul_RawPath (hr_URL q) = []) &&
              (bool_decide (is_Some (ir_MatchedPort i)) || (port =? 443))
  end.

Definition strict_out (target : bytes) (q : hrequest) (i : InjectResult) (h : Header) : OutRequest :=
  {| out_Method := hr_Method q; out_Target := target; out_Host := hostHeaderForScheme target; out_Path := ul_Path (hr_URL q); out_RawPath := ul_RawPath (hr_URL q);
     out_RawQuery := Encode (default [] (ir_FixedQuery i)); out_Header := header_Set #"Accept-Encoding" #"identity" h; out_Body := [] |}.

(** After the service is known. *)
Definition strict_inject (target host : bytes) (port : Z) (scope : StrictScope) (q : hrequest) (i : InjectResult) : list strict_effect :=
  let attempt := strictAttempt (Some scope) (Some i) (hr_Method q) host target in
  let deny := strictDeny (attempt #"deny") in
  if negb (exact_service host i) || negb (fixed_ok port q i) then deny 403
  else match strict_values (ir_Substitutions i) ∅ with
  | None => deny 400
  | Some values =>
      if negb (tw_NewRequest w (hr_Method q) (ul_Path (hr_URL q)) (ul_RawPath (hr_URL q)) (Encode (default [] (ir_FixedQuery i)))) then deny 400
      else if existsb marked_header (hr_Header q) then deny 400
      else match carriers values carrier_names (hr_Header q) with
      | None => deny 400
      | Some (h, used, extras) =>
          if negb (all_used values used) then deny 400
          else if negb (tw_DurableAudit w) then [Refusal 503]
          else
            let id := tw_Begin w (attempt #"allow") in
            Begun (attempt #"allow") id ::
            match id with
            | None => [Refusal 503]
            | Some id => strict_exchange id (strict_out target q i h) (map snd (map_to_list values) ++ extras)
            end
      end
  end.

Definition forwardStrict (target host : bytes) (port : Z) (useTLS : bool) (scope : option StrictScope) (r : strict_request) : list strict_effect :=
  let q := sq_Request r in
  match tw_Adapter w with
  | Some (false, _) => [Refusal 503]
  | Some (true, catalog) => map Catalogued (forwardCatalog catalog target host port useTLS (ts_Caller <$> scope) q)
  | None =>
      let deny := strictDeny (strictAttempt scope None (hr_Method q) host target #"deny") in
      match scope with
      | None => deny 403
      | Some s =>
          if negb (strict_shape useTLS r) || negb (strict_host target q) || negb (bool_decide (hr_Body q = [])) || hr_BodyFails q then deny 400
          else if negb (tw_EnforceProxy w (proxyLimitActor (ts_Caller s)) (ts_VaultID s)) then deny 429
          else ReadSecrets ::
            match tw_Inject w (ts_VaultID s) host port (ul_Path (hr_URL q)) with
            | (i, true) => strictDeny (strictAttempt scope i (hr_Method q) host target #"deny") 403
            | (None, false) => deny 403
            | (Some i, false) => strict_inject target host port s q i
            end
      end
  end.
End Strict.

(** * What strict requests carry and what comes back ([internal/mitm/strict.go])

    The theorems hold of every request, service, credential store, audit trail
    and server. *)

(** ** Placeholders and secrets *)

(** A header value with the placeholder, and the value sent in its place. *)
Inductive rewrites (name marker secret : bytes) : bytes → bytes → Prop :=
| rw_plain : rewrites name marker secret marker secret
| rw_bearer : name = #"Authorization" → rewrites name marker secret (#"Bearer " ++ marker) (#"Bearer " ++ secret)
| rw_basic : name = #"Authorization" → x3a ∉ secret → rewrites name marker secret (#"Basic " ++ EncodeToString (marker ++ #":")) (#"Basic " ++ EncodeToString (secret ++ #":")).

Lemma TrimPrefix_spec s p : HasPrefix s p = true → s = p ++ TrimPrefix s p.
Proof.
  intros H. unfold TrimPrefix. rewrite H. apply HasPrefix_spec in H as [rest ->]. by rewrite drop_app_length.
Qed.

Lemma TrimSuffix_spec s p : HasSuffix s p = true → s = TrimSuffix s p ++ p.
Proof.
  intros H. unfold TrimSuffix. rewrite H. apply HasSuffix_spec in H as [rest ->]. by rewrite length_app, Nat.add_sub, take_app_length.
Qed.

Lemma carry_spec values name vals marker v' extra : carry values name vals = Some (marker, v', extra) →
  ∃ v secret, vals = [v] ∧ values !! marker = Some secret ∧ rewrites name marker secret v v'.
Proof.
  unfold carry. destruct vals as [|v [|]]; [done| |done]. destruct (bool_decide (name = #"Authorization") && HasPrefix v #"Basic ") eqn:Eb.
  - apply andb_prop in Eb as [En Ep]. apply bool_decide_eq_true in En. destruct (DecodeString _) as [decoded|]; [|done].
    destruct (bool_decide (EncodeToString decoded = _)) eqn:Ee; [|done]. destruct (HasSuffix decoded #":") eqn:Es; [|done]. cbn [negb orb].
    destruct (values !! TrimSuffix decoded #":") as [secret|] eqn:Ev; [|done]. destruct (ContainsByte secret x3a) eqn:Ec; [done|]. intros [= <- <- <-].
    apply bool_decide_eq_true in Ee. exists v, secret. split; [done|]. split; [done|].
    apply ContainsByte_false in Ec. pose proof (rw_basic name (TrimSuffix decoded #":") secret En Ec) as Hr.
    rewrite <- (TrimSuffix_spec decoded _ Es), Ee, <- (TrimPrefix_spec v _ Ep) in Hr. exact Hr.
  - clear Eb. set (prefix := if bool_decide (name = #"Authorization") && HasPrefix v #"Bearer " then #"Bearer " else []).
    destruct (values !! TrimPrefix v prefix) as [secret|] eqn:Ev; [|done]. intros [= <- <- <-]. exists v, secret. split; [done|]. split; [done|].
    revert Ev. unfold prefix. destruct (bool_decide (name = #"Authorization") && HasPrefix v #"Bearer ") eqn:E; intros _.
    + apply andb_prop in E as [En Ep]. apply bool_decide_eq_true in En. pose proof (rw_bearer name (TrimPrefix v #"Bearer ") secret En) as Hr.
      rewrite <- (TrimPrefix_spec v _ Ep) in Hr. exact Hr.
    + assert (Hv : v = TrimPrefix v []) by (apply (TrimPrefix_spec v []), HasPrefix_spec; by exists v). rewrite <- Hv. apply rw_plain.
Qed.

Lemma strict_values_spec subs : ∀ values values', strict_values subs values = Some values' →
  ∀ marker secret, values' !! marker = Some secret ↔ values !! marker = Some secret ∨ ∃ sub, sub ∈ subs ∧ rs_Placeholder sub = marker ∧ rs_Value sub = secret.
Proof.
  induction subs as [|sub subs IH]; intros values values' E marker secret; cbn [strict_values] in E.
  - injection E as <-. split; [by left|]. intros [|(sub & Hin & _)]; [done|]. by apply elem_of_nil in Hin.
  - destruct (_ || _); [done|]. destruct (values !! rs_Placeholder sub) eqn:Ev; [done|]. rewrite (IH _ _ E). rewrite lookup_insert_Some. split.
    + intros [[[<- <-]|[_ H]]|(x & Hin & Hx)]; [right; exists sub; split; [apply list_elem_of_here|done]|by left|right; exists x; split; [by apply elem_of_cons; right|done]].
    + intros [H|(x & Hin & <- & <-)]; [left; right; split; [congruence|done]|]. apply elem_of_cons in Hin as [->|Hin]; [by left; left|right; eauto].
Qed.

Lemma strict_values_In subs : ∀ values values', strict_values subs values = Some values' → Forall (λ sub, rs_In sub = [ #"header"] ∧ rs_Value sub ≠ [] ∧ MatchString strictPlaceholder (rs_Placeholder sub) = true) subs.
Proof.
  induction subs as [|sub subs IH]; intros values values' E; cbn [strict_values] in E; [constructor|].
  destruct (MatchString _ _) eqn:Em; [|done]. destruct (bool_decide (rs_In sub = _)) eqn:Ei; [|done]. destruct (bool_decide (rs_Value sub = [])) eqn:En; [done|].
  destruct (ContainsAny _ _); [done|]. cbn [negb orb] in E. destruct (values !! _); [done|]. apply bool_decide_eq_true in Ei. apply bool_decide_eq_false in En.
  constructor; [done|]. by eapply IH.
Qed.

(** What is known of the headers [carriers] gives. *)
Definition carried (values : gmap bytes bytes) (h : header_list) (name marker : bytes) (vs : list bytes) : Prop :=
  ∃ v secret v', header_Values h name = [v] ∧ vs = [v'] ∧ values !! marker = Some secret ∧ rewrites name marker secret v v'.

Lemma carriers_spec values h names : NoDup names → ∀ out used extras, carriers values names h = Some (out, used, extras) →
  (∀ name vs, out !! name = Some vs → name ∈ names ∧ ∃ marker, carried values h name marker vs) ∧
  (∀ marker, marker ∈ used → ∃ name vs, out !! name = Some vs ∧ carried values h name marker vs).
Proof.
  induction 1 as [|name names Hn Hnd IH]; intros out used extras E; cbn [carriers] in E.
  - injection E as <- <- <-. split; [intros ? ?; by rewrite lookup_empty|]. intros marker Hm. by apply elem_of_nil in Hm.
  - destruct (header_Values h name) as [|v l] eqn:Ev.
    { destruct (IH _ _ _ E) as [H1 H2]. split; [|done]. intros n vs Hl. destruct (H1 n vs Hl). split; [by apply elem_of_cons; right|done]. }
    destruct (carry values name (v :: l)) as [[[marker v'] extra]|] eqn:Ec; [|done]. destruct (carriers values names h) as [[[out' used'] extras']|]; [|done].
    injection E as <- <- <-. destruct (IH _ _ _ eq_refl) as [H1 H2]. apply carry_spec in Ec as (w & secret & El & Hv & Hr).
    assert (Hc : carried values h name marker [v']) by (exists w, secret, v'; by rewrite Ev, El).
    split.
    + intros n vs Hl. apply lookup_insert_Some in Hl as [[<- <-]|[_ Hl]]; [split; [apply list_elem_of_here|eauto]|]. destruct (H1 n vs Hl). split; [by apply elem_of_cons; right|done].
    + intros m Hm. apply elem_of_cons in Hm as [->|Hm]; [exists name, [v']; by rewrite lookup_insert_eq|]. destruct (H2 m Hm) as (n & vs & Hl & Hcd). exists n, vs. split; [|done].
      rewrite lookup_insert_ne; [done|]. intros ->. by destruct (H1 n vs Hl).
Qed.

Lemma all_used_dom values used : (∀ marker, marker ∈ used → marker ∈ dom values) → all_used values used = true → ∀ marker, marker ∈ dom values → marker ∈ used.
Proof.
  unfold all_used. intros Hs Ha marker Hm. apply andb_prop in Ha as [_ Ha]. apply bool_decide_eq_true in Ha. rewrite <- size_dom in Ha.
  assert (Hsub : (list_to_set used : gset bytes) ⊆ dom values) by (intros m; rewrite elem_of_list_to_set; apply Hs).
  assert (Heq : (list_to_set used : gset bytes) ≡ dom values) by (apply set_subseteq_size_equiv; [done|lia]).
  apply (elem_of_list_to_set (C:=gset bytes)). by rewrite Heq.
Qed.

(** ** The course of a request *)

Definition quiet (e : strict_effect) : Prop := match e with Sent _ | Replied _ _ _ _ | Catalogued _ => False | _ => True end.

Lemma quiet_no_sent l out : Forall quiet l → Sent out ∉ l.
Proof. rewrite Forall_forall. intros H Hin. by apply (H _ Hin). Qed.
Lemma quiet_no_reply l id status h body : Forall quiet l → Replied id status h body ∉ l.
Proof. rewrite Forall_forall. intros H Hin. by apply (H _ Hin). Qed.

Section Course.
Context {unicode : UnicodeTables} (w : strict_surroundings).

Lemma deny_quiet a status : Forall quiet (strictDeny w a status).
Proof using Type. unfold strictDeny. destruct (negb _); [by repeat constructor|]. destruct (tw_Begin w _); by repeat constructor. Qed.

Lemma failure_quiet id status : Forall quiet (finish_failure w id status).
Proof using Type. by repeat constructor. Qed.

(** What was sent, and under which attempt, by whom and for which service. *)
Record admitted (target host : bytes) (port : Z) (useTLS : bool) (s : StrictScope) (r : strict_request) (i : InjectResult) (id : bytes) (out : OutRequest) (secrets : list bytes) : Prop := {
  ad_shape : strict_shape useTLS r = true ∧ strict_host target (sq_Request r) = true ∧ hr_Body (sq_Request r) = [];
  ad_limit : tw_EnforceProxy w (proxyLimitActor (ts_Caller s)) (ts_VaultID s) = true;
  ad_inject : tw_Inject w (ts_VaultID s) host port (ul_Path (hr_URL (sq_Request r))) = (Some i, false);
  ad_service : exact_service host i = true ∧ fixed_ok port (sq_Request r) i = true;
  ad_begin : tw_Begin w (strictAttempt (Some s) (Some i) (hr_Method (sq_Request r)) host target #"allow") = Some id;
  ad_headers : ∃ values h used extras, strict_values (ir_Substitutions i) ∅ = Some values ∧ carriers values carrier_names (hr_Header (sq_Request r)) = Some (h, used, extras) ∧
    all_used values used = true ∧ out = strict_out target (sq_Request r) i h ∧ secrets = map snd (map_to_list values) ++ extras;
}.

Lemma forwardStrict_course target host port useTLS scope r : tw_Adapter w = None →
  let eff := forwardStrict w target host port useTLS scope r in
  Forall quiet eff ∨
  ∃ s i id out secrets, scope = Some s ∧ admitted target host port useTLS s r i id out secrets ∧
    eff = ReadSecrets :: Begun (strictAttempt (Some s) (Some i) (hr_Method (sq_Request r)) host target #"allow") (Some id) :: strict_exchange w id out secrets.
Proof using Type.
  intros Ha eff. unfold eff, forwardStrict. rewrite Ha. destruct scope as [s|]; [|left; apply deny_quiet].
  destruct (strict_shape useTLS r) eqn:E1; [|left; apply deny_quiet]. destruct (strict_host target _) eqn:E2; [|left; apply deny_quiet].
  destruct (bool_decide (hr_Body _ = [])) eqn:E3; [|left; apply deny_quiet]. apply bool_decide_eq_true in E3. destruct (hr_BodyFails _); [left; apply deny_quiet|]. cbn [negb orb].
  destruct (tw_EnforceProxy w _ _) eqn:E4; [|left; apply deny_quiet]. cbn [negb].
  destruct (tw_Inject w _ _ _ _) as [[i|] []] eqn:E5; try (left; constructor; [done|]; apply deny_quiet).
  unfold strict_inject. destruct (exact_service host i) eqn:E6; [|left; constructor; [done|]; apply deny_quiet]. destruct (fixed_ok port _ i) eqn:E7; [|left; constructor; [done|]; apply deny_quiet].
  cbn [negb orb]. destruct (strict_values _ _) as [values|] eqn:E8; [|left; constructor; [done|]; apply deny_quiet].
  destruct (negb (tw_NewRequest w _ _ _ _)); [left; constructor; [done|]; apply deny_quiet|]. destruct (existsb marked_header _); [left; constructor; [done|]; apply deny_quiet|].
  destruct (carriers _ _ _) as [[[h used] extras]|] eqn:E9; [|left; constructor; [done|]; apply deny_quiet]. destruct (all_used values used) eqn:E10; [|left; constructor; [done|]; apply deny_quiet].
  cbn [negb]. destruct (negb (tw_DurableAudit w)); [left; by repeat constructor|]. destruct (tw_Begin w _) as [id|] eqn:E11; [|left; by repeat constructor].
  right. exists s, i, id. eexists _, _. split; [done|]. split; [|reflexivity]. split; [done|done|done|done|done|]. by exists values, h, used, extras.
Qed.

(** After the request left. *)
Lemma exchange_course id out secrets : ∃ post, strict_exchange w id out secrets = Sent out :: post ∧
  (Forall quiet post ∨
   ∃ resp data, tw_RoundTrip w out = Some resp ∧ refused_reply resp = false ∧ read_response (response_limit w) [] (rs_Reads (tr_Response resp)) = Read data ∧
     containsSecret data (secretRepresentations secrets) = false ∧ headersContain (rs_Header (tr_Response resp)) (secretRepresentations secrets) = false ∧
     headersContain (tr_Trailer resp) (secretRepresentations secrets) = false ∧
     post = [Ended id {| oc_Result := #"completed"; oc_Status := rs_Status (tr_Response resp) |} true;
             Replied id (rs_Status (tr_Response resp)) (replied_header (rs_Header (tr_Response resp))) data]).
Proof using Type.
  unfold strict_exchange. destruct (tw_RoundTrip w out) as [resp|]; [|eexists; split; [done|left; apply failure_quiet]].
  destruct (refused_reply resp) eqn:E1; [eexists; split; [done|left; apply failure_quiet]|].
  destruct (read_response _ _ _) as [| |data] eqn:E2; [eexists; split; [done|by left]|eexists; split; [done|left; apply failure_quiet]|].
  destruct (containsSecret data _ || _ || _) eqn:E3; [eexists; split; [done|left; apply failure_quiet]|].
  apply orb_false_iff in E3 as [E3 E5]. apply orb_false_iff in E3 as [E3 E4].
  destruct (tw_Finish w id _) eqn:E6; [|eexists; split; [done|left; by repeat constructor]].
  eexists. split; [done|]. right. by exists resp, data.
Qed.
End Course.

(** ** What is sent *)

Lemma header_Set_canonical (k v : bytes) (h : Header) : CanonicalHeaderKey k = k → header_Set k v h = <[k := [v] : list bytes]> h.
Proof. intros E. unfold header_Set. by rewrite E. Qed.

Section Sealed.
Context {unicode : UnicodeTables} (w : strict_surroundings).

Lemma admitted_headers target host port useTLS s r i id out secrets : admitted w target host port useTLS s r i id out secrets →
  (∀ name vs, out_Header out !! name = Some vs →
     (name = #"Accept-Encoding" ∧ vs = [ #"identity"]) ∨
     (name ∈ carrier_names ∧ ∃ sub v v', sub ∈ ir_Substitutions i ∧ header_Values (hr_Header (sq_Request r)) name = [v] ∧ vs = [v'] ∧ rewrites name (rs_Placeholder sub) (rs_Value sub) v v')) ∧
  (∀ sub, sub ∈ ir_Substitutions i → rs_Value sub ∈ secrets ∧
     ∃ name v v', name ∈ carrier_names ∧ header_Values (hr_Header (sq_Request r)) name = [v] ∧ out_Header out !! name = Some [v'] ∧ rewrites name (rs_Placeholder sub) (rs_Value sub) v v').
Proof using Type.
  intros [_ _ _ _ _ (values & h & used & extras & Ev & Ec & Eu & -> & ->)]. cbn [out_Header strict_out].
  rewrite header_Set_canonical by reflexivity. assert (Hnd : NoDup carrier_names) by (apply (bool_decide_unpack _); vm_compute; exact I).
  destruct (carriers_spec _ _ _ Hnd _ _ _ Ec) as [H1 H2]. pose proof (strict_values_spec _ _ _ Ev) as Hv.
  assert (Hsub : ∀ marker secret, values !! marker = Some secret → ∃ sub, sub ∈ ir_Substitutions i ∧ rs_Placeholder sub = marker ∧ rs_Value sub = secret).
  { intros marker secret Hm. apply Hv in Hm as [Hm|Hm]; [by rewrite lookup_empty in Hm|done]. }
  split.
  - intros name vs Hl. apply lookup_insert_Some in Hl as [[<- <-]|[_ Hl]]; [by left|right]. destruct (H1 _ _ Hl) as (Hin & marker & v & secret & v' & ? & -> & Hm & Hr).
    split; [done|]. destruct (Hsub _ _ Hm) as (sub & Hs & <- & <-). by exists sub, v, v'.
  - intros sub Hs. assert (Hm : values !! rs_Placeholder sub = Some (rs_Value sub)) by (apply Hv; right; by exists sub).
    split; [apply elem_of_app; left; apply list_elem_of_fmap; exists (rs_Placeholder sub, rs_Value sub); split; [done|by apply elem_of_map_to_list]|].
    assert (Hd : rs_Placeholder sub ∈ used).
    { apply (all_used_dom values used); [|done|by apply elem_of_dom_2 in Hm]. intros m Hmu. destruct (H2 m Hmu) as (? & ? & _ & ? & ? & ? & _ & _ & Hx & _). by apply elem_of_dom_2 in Hx. }
    destruct (H2 _ Hd) as (name & vs & Hl & v & secret & v' & Hh & -> & Hm' & Hr). rewrite Hm in Hm'. injection Hm' as <-.
    destruct (H1 _ _ Hl) as [Hin _]. exists name, v, v'. split; [done|]. split; [done|]. split; [|done].
    rewrite lookup_insert_ne; [done|]. intros <-. revert Hin. apply (bool_decide_unpack (¬ _)). vm_compute. exact I.
Qed.

(** C10: without a catalog the strict proxy sends at most one request for a
    request, after its attempt is recorded as allowed: a bodiless read over TLS
    to the tunnel's own target, with the worker's path and the query of the
    matched service, whose host is the tunnel's.  Its headers are
    [Accept-Encoding] and at most [Authorization] and [X-Api-Key], in which a
    secret of the service stands exactly where the worker put the placeholder;
    and each placeholder of the service stands in one. *)
Theorem strict_requests_sealed target host port useTLS scope r pre out post : tw_Adapter w = None →
  forwardStrict w target host port useTLS scope r = pre ++ Sent out :: post →
  (∀ out', Sent out' ∉ pre ++ post) ∧
  ∃ s i id, scope = Some s ∧ tw_Inject w (ts_VaultID s) host port (ul_Path (hr_URL (sq_Request r))) = (Some i, false) ∧ ir_MatchedHost i = host ∧
    pre = [ReadSecrets; Begun (strictAttempt (Some s) (Some i) (hr_Method (sq_Request r)) host target #"allow") (Some id)] ∧
    useTLS = true ∧ out_Method out = hr_Method (sq_Request r) ∧ (out_Method out = #"GET" ∨ out_Method out = #"HEAD") ∧ out_Body out = [] ∧
    out_Target out = target ∧ out_Path out = ul_Path (hr_URL (sq_Request r)) ∧ out_RawQuery out = Encode (default [] (ir_FixedQuery i)) ∧
    (∀ name vs, out_Header out !! name = Some vs →
       (name = #"Accept-Encoding" ∧ vs = [ #"identity"]) ∨
       (name ∈ carrier_names ∧ ∃ sub v v', sub ∈ ir_Substitutions i ∧ header_Values (hr_Header (sq_Request r)) name = [v] ∧ vs = [v'] ∧ rewrites name (rs_Placeholder sub) (rs_Value sub) v v')) ∧
    (∀ sub, sub ∈ ir_Substitutions i →
       ∃ name v v', name ∈ carrier_names ∧ header_Values (hr_Header (sq_Request r)) name = [v] ∧ out_Header out !! name = Some [v'] ∧ rewrites name (rs_Placeholder sub) (rs_Value sub) v v').
Proof using Type.
  intros Ha E. destruct (forwardStrict_course w target host port useTLS scope r Ha) as [Hq|(s & i & id & out0 & secrets & -> & Had & E')].
  { exfalso. apply (quiet_no_sent _ out Hq). rewrite E. apply elem_of_app. right. apply list_elem_of_here. }
  destruct (exchange_course w id out0 secrets) as (post0 & Ex & Hpost). rewrite Ex in E'. rewrite E' in E.
  assert (Hn : ∀ o, Sent o ∉ post0).
  { intros o. destruct Hpost as [Hpost|(resp & data & _ & _ & _ & _ & _ & _ & ->)]; [by apply quiet_no_sent|]. rewrite !elem_of_cons. intros [[=]|[[=]|Hin]]. by apply elem_of_nil in Hin. }
  destruct pre as [|e1 [|e2 [|e3 pre]]]; [discriminate E|discriminate E| |exfalso; apply (Hn out); injection E as _ _ _ ->; apply elem_of_app; right; apply list_elem_of_here].
  injection E as <- <- <- <-. split; [intros o; cbn [app]; rewrite !elem_of_cons; intros [[=]|[[=]|Hin]]; by apply (Hn o)|].
  pose proof (admitted_headers _ _ _ _ _ _ _ _ _ _ Had) as [Hh1 Hh2]. destruct Had as [(Hs & _ & _) _ Hi [Hx _] _ (values & h & used & extras & _ & _ & _ & -> & _)].
  exists s, i, id. split; [done|]. split; [done|]. unfold exact_service in Hx. apply negb_true_iff in Hx. repeat (apply orb_false_iff in Hx as [Hx ?]).
  split; [match goal with H : negb (bool_decide (ir_MatchedHost i = host)) = false |- _ => by apply negb_false_iff, bool_decide_eq_true in H end|]. split; [done|].
  unfold strict_shape in Hs. apply andb_prop in Hs as [Hs _]. apply negb_true_iff in Hs. repeat (apply orb_false_iff in Hs as [Hs ?]).
  split; [by destruct useTLS|]. split; [done|]. split; [|split; [done|split; [done|split; [done|split; [done|split; [exact Hh1|]]]]]].
  - match goal with H : negb (get_or_head _) = false |- _ => apply negb_false_iff, bool_decide_eq_true in H; rewrite !elem_of_cons in H; destruct H as [?|[?|H]]; [by left|by right|by apply elem_of_nil in H] end.
  - intros sub Hin. by apply Hh2.
Qed.

(** ** What comes back *)

Lemma read_response_Read limit reads : ∀ data data', read_response limit data reads = Read data' → data' = data ++ arrived reads ∧ Z.of_nat (length data') <= limit.
Proof using Type.
  induction reads as [|[more err] reads IH]; intros data data' E; cbn [read_response arrived] in *; [done|].
  destruct (limit <? _) eqn:El; [done|]. apply Z.ltb_ge in El. destruct err; [|injection E as <-|done].
  - apply IH in E as [-> Hl]. split; [by rewrite <- app_assoc|exact Hl].
  - split; [by rewrite app_nil_r|exact El].
Qed.

(** A reply reaches the worker only after its outcome is acknowledged, with
    the whole body the server sent, of at most a mebibyte; no secret of the
    matched service, in any of the forms the broker knows, occurs in it or in a
    header that is relayed. *)
Theorem strict_reply_clean target host port useTLS scope r id status h body : tw_Adapter w = None →
  Replied id status h body ∈ forwardStrict w target host port useTLS scope r →
  ∃ s i out resp, scope = Some s ∧ tw_Inject w (ts_VaultID s) host port (ul_Path (hr_URL (sq_Request r))) = (Some i, false) ∧
    Sent out ∈ forwardStrict w target host port useTLS scope r ∧ tw_RoundTrip w out = Some resp ∧
    Ended id {| oc_Result := #"completed"; oc_Status := status |} true ∈ forwardStrict w target host port useTLS scope r ∧
    body = arrived (rs_Reads (tr_Response resp)) ∧ Z.of_nat (length body) <= strictResponseLimit ∧
    ∀ sub n, sub ∈ ir_Substitutions i → n ∈ representations (rs_Value sub) → n ≠ [] →
      (∀ a b, body ≠ a ++ n ++ b) ∧ ∀ name vs, (name, vs) ∈ h → (∀ a b, name ≠ a ++ n ++ b) ∧ ∀ v, v ∈ vs → ∀ a b, v ≠ a ++ n ++ b.
Proof using Type.
  intros Ha Hin. destruct (forwardStrict_course w target host port useTLS scope r Ha) as [Hq|(s & i & id0 & out & secrets & -> & Had & E)].
  { exfalso. by apply (quiet_no_reply _ id status h body Hq). }
  destruct (exchange_course w id0 out secrets) as (post & Ex & [Hpost|(resp & data & Hrt & _ & Hr & Hc & Hh & _ & ->)]); rewrite Ex in E; rewrite E in Hin |- *;
    rewrite !elem_of_cons in Hin; (destruct Hin as [[=]|[[=]|[[=]|Hin]]]).
  { exfalso. by apply (quiet_no_reply _ id status h body Hpost). }
  destruct Hin as [[=]|[[= -> -> -> ->]|Hin]]; [|by apply elem_of_nil in Hin].
  exists s, i, out, resp. pose proof (admitted_headers _ _ _ _ _ _ _ _ _ _ Had) as [_ Hsec]. split; [done|]. split; [by destruct Had|].
  split; [by rewrite !elem_of_cons; auto|]. split; [done|]. split; [by rewrite !elem_of_cons; auto|].
  apply read_response_Read in Hr as [Hb Hl]. cbn [app] in Hb. split; [done|]. split.
  { etrans; [exact Hl|]. unfold response_limit. destruct (0 <? tw_maxResponseBytes w); cbn [andb]; [|done]. destruct (tw_maxResponseBytes w <? strictResponseLimit) eqn:El; [apply Z.ltb_lt in El; lia|done]. }
  intros sub n Hs Hn Hne. assert (Hneed : n ∈ secretRepresentations secrets).
  { unfold secretRepresentations. apply list_elem_of_In, in_flat_map. exists (rs_Value sub). split; apply list_elem_of_In; [by apply Hsec|done]. }
  split; [intros a b; by apply (containsSecret_false data (secretRepresentations secrets))|]. intros name vs Hx. apply elem_of_lfilter in Hx as [Hx _].
  split; [by destruct (headersContain_false _ _ name vs [] n Hh Hx Hneed Hne)|]. intros v Hv. destruct (headersContain_false _ _ name vs v n Hh Hx Hneed Hne) as [_ Hv']. by apply Hv'.
Qed.
End Sealed.

(** ** One request *)

Module StrictDemo.
#[local] Existing Instance latin1_tables.

Definition service : InjectResult :=
  {| ir_Headers := None; ir_MatchedName := #"vendor"; ir_MatchedHost := #"api.vendor.com"; ir_MatchedPath := #"/v1/*"; ir_MatchedPort := None; ir_FixedQuery := None;
     ir_CredentialKeys := [ #"VENDOR_KEY"]; ir_Substitutions := [{| rs_Placeholder := #"__vault_VENDOR_KEY__"; rs_Value := #"s3cret"; rs_In := [ #"header"] |}]; ir_Passthrough := false |}.

Definition world : strict_surroundings :=
  {| tw_Adapter := None; tw_DurableAudit := true; tw_Begin := λ _, Some #"00ff"; tw_Finish := λ _ _, true; tw_EnforceProxy := λ _ _, true; tw_Inject := λ _ _ _ _, (Some service, false);
     tw_NewRequest := λ _ _ _ _, true;
     tw_RoundTrip := λ _, Some {| tr_Response := {| rs_Status := 200; rs_Header := [(#"Content-Type", [ #"text/plain"])]; rs_Reads := [(#"he", ReadOk); (#"llo", ReadEOF)] |};
                                  tr_Trailer := []; tr_Uncompressed := false |};
     tw_maxResponseBytes := 0 |}.

Definition scope : StrictScope :=
  {| ts_VaultID := #"v1";
     ts_Caller := {| sc_Pool := []; sc_UserID := []; sc_AgentID := #"agent"; sc_WorkloadID := #"pod"; sc_ClaimedRun := []; sc_AttestedRequester := []; sc_Session := [] |} |}.

Definition request (authorization : bytes) : strict_request :=
  {| sq_Request :=
       {| hr_Method := #"GET"; hr_Host := #"api.vendor.com";
          hr_URL := {| ul_IsAbs := false; ul_User := false; ul_Fragment := []; ul_RawPath := []; ul_Path := #"/v1/items"; ul_RawQuery := [] |};
          hr_Header := [(#"Accept", [ #"*/*"]); (#"Authorization", [authorization])]; hr_Trailer := false; hr_Body := []; hr_BodyFails := false; hr_ContentLength := 0 |};
     sq_ForceQuery := false |}.

Definition effects (authorization : bytes) : list strict_effect := forwardStrict world #"api.vendor.com:443" #"api.vendor.com" 443 true (Some scope) (request authorization).

(** [Basic] credentials with the placeholder as the user. *)
Definition basic : bytes := #"Basic " ++ EncodeToString #"__vault_VENDOR_KEY__:".
Definition sent : OutRequest :=
  strict_out #"api.vendor.com:443" (sq_Request (request basic)) service {[#"Authorization" := [ #"Basic " ++ EncodeToString #"s3cret:"]]}.

Lemma basic_course : ∃ a b, effects basic = [a; b] ++ Sent sent :: [Ended #"00ff" {| oc_Result := #"completed"; oc_Status := 200 |} true; Replied #"00ff" 200 [(#"Content-Type", [ #"text/plain"])] #"hello"].
Proof. eexists _, _. vm_compute. reflexivity. Qed.

(** A secret the worker names nowhere, or spells out, is a refusal. *)
Lemma unknown_refused : ¬ ∃ out, Sent out ∈ effects #"Bearer s3cret".
Proof. intros [out H]. revert H. apply quiet_no_sent. vm_compute. by repeat constructor. Qed.

Lemma strict_requests_sealed_witness : out_Method sent = #"GET" ∧ out_Body sent = [] ∧ ∃ v v', header_Values (hr_Header (sq_Request (request basic))) #"Authorization" = [v] ∧ out_Header sent !! (#"Authorization") = Some [v'].
Proof.
  destruct basic_course as (a & b & E).
  destruct (strict_requests_sealed world #"api.vendor.com:443" #"api.vendor.com" 443 true (Some scope) (request basic) _ sent _ eq_refl E)
    as (_ & s & i & id & Hs & Hi & _ & _ & _ & Hm & _ & Hb & _). split; [exact Hm|]. split; [exact Hb|]. eexists _, _. split; reflexivity.
Defined.

Lemma strict_reply_clean_witness : Replied #"00ff" 200 [(#"Content-Type", [ #"text/plain"])] #"hello" ∈ effects basic ∧
  Ended #"00ff" {| oc_Result := #"completed"; oc_Status := 200 |} true ∈ effects basic.
Proof.
  assert (Hin : Replied #"00ff" 200 [(#"Content-Type", [ #"text/plain"])] #"hello" ∈ effects basic).
  { destruct basic_course as (a & b & ->). rewrite elem_of_app, !elem_of_cons. auto. }
  split; [exact Hin|]. destruct (strict_reply_clean world #"api.vendor.com:443" #"api.vendor.com" 443 true (Some scope) (request basic) _ _ _ _ eq_refl Hin)
    as (s & i & out & resp & _ & _ & _ & _ & H & _). exact H.
Defined.
End StrictDemo.
