(* ===== verification/WebSocket.v ===== *)
(** * Placeholders in WebSocket messages ([internal/mitm/websocket.go])

    After an upgrade the client's frames go through [copyWSFramesWithSubstitution]:
    a whole text frame is unmasked, rewritten and framed again, everything else
    passes.  [src] is what the client sends until its connection ends; the result
    is what is written to the server, as long as writes succeed: one that fails
    ends the copy, and the server got a prefix.  [masks] are the masking keys
    [rand.Read] gives; it fails when they run out. *)

From S2P Require Import Prelude GoString GoUrl GoNet BrokerInject BrokerCore.

(** ** The upgrade *)

Definition isWebSocketUpgrade `{UnicodeTables} (h : list (bytes * list bytes)) : bool :=
  EqualFold (match header_Values h #"Upgrade" with v :: _ => v | [] => [] end) #"websocket" &&
  existsb (λ header, existsb (λ token, EqualFold (TrimSpace token) #"upgrade") (Split header x2c)) (header_Values h #"Connection").

Definition websocketHandshakeHeaderNames : list bytes :=
  [ #"Connection"; #"Origin"; #"Sec-Websocket-Extensions"; #"Sec-Websocket-Key"; #"Sec-Websocket-Protocol"; #"Sec-Websocket-Version"; #"Upgrade"].

Definition copyWebSocketHandshakeHeaders (src : list (bytes * list bytes)) (dst : Header) : Header :=
  foldl (λ dst name, foldl (λ dst v, header_Add name v dst) dst (header_Values src name)) dst websocketHandshakeHeaderNames.

Definition isSafeWebSocketSwitchHeader `{UnicodeTables} (name : bytes) : bool :=
  if bool_decide (CanonicalHeaderKey name ∈ [ #"Connection"; #"Upgrade"; #"Sec-Websocket-Accept"; #"Sec-Websocket-Extensions"; #"Sec-Websocket-Protocol"]) then true
  else negb (ShouldStripResponseHeader name) && negb (HasPrefix (CanonicalHeaderKey name) #"Sec-").

(** The headers [writeWebSocketSwitchingResponse] writes. *)
Definition switching_headers `{UnicodeTables} (resp : list (bytes * list bytes)) : Header :=
  header_Set #"Upgrade" #"websocket" (header_Set #"Connection" #"Upgrade"
    (foldl (λ h '(k, vv), if isSafeWebSocketSwitchHeader k then foldl (λ h v, header_Add k v h) h vv else h) ∅ resp)).

Definition filterWebSocketSubs (subs : list ResolvedSubstitution) : list ResolvedSubstitution := List.filter (λ sub, bool_decide (#"websocket" ∈ rs_In sub)) subs.

(** ** Frames *)

Definition maxWSSubstitutionPayload : Z := Z.shiftl 1 20.
Definition wsOpText : Z := 1.
Definition wsOpClose : Z := 8.

(** [io.ReadFull] *)
Definition ReadFull (n : Z) (s : bytes) : option (bytes * bytes) :=
  if Z.of_nat (length s) <? n then None else Some (take (Z.to_nat n) s, drop (Z.to_nat n) s).

(** The header as read: its two bytes, the extended length, the masking key. *)
Record ws_header := { wh_hdr0 : byte; wh_hdr1 : byte; wh_ext : bytes; wh_maskKey : bytes; wh_payloadLen : Z }.

Definition fin (h : ws_header) : bool := negb (Z.land (bval (wh_hdr0 h)) 128 =? 0).
Definition rsv1 (h : ws_header) : bool := negb (Z.land (bval (wh_hdr0 h)) 64 =? 0).
Definition opcode (h : ws_header) : Z := Z.land (bval (wh_hdr0 h)) 15.
Definition mask_bit (hdr1 : byte) : bool := negb (Z.land (bval hdr1) 128 =? 0).
Definition masked (h : ws_header) : bool := mask_bit (wh_hdr1 h).

Definition read_length (hdr1 : byte) (s : bytes) : option (bytes * Z * bytes) :=
  let payloadLen := Z.land (bval hdr1) 127 in
  if payloadLen =? 126 then '(ext, s) ← ReadFull 2 s; Some (ext, be_val ext, s)
  else if payloadLen =? 127 then '(ext, s) ← ReadFull 8 s; if max_int64 <? be_val ext then None else Some (ext, be_val ext, s)
  else Some ([], payloadLen, s).

Definition read_header (s : bytes) : option (ws_header * bytes) :=
  match s with
  | hdr0 :: hdr1 :: s =>
      '(ext, len, s) ← read_length hdr1 s;
      '(key, s) ← (if mask_bit hdr1 then ReadFull 4 s else Some ([], s));
      Some ({| wh_hdr0 := hdr0; wh_hdr1 := hdr1; wh_ext := ext; wh_maskKey := key; wh_payloadLen := len |}, s)
  | _ => None
  end.

Definition raw_header (h : ws_header) : bytes := wh_hdr0 h :: wh_hdr1 h :: wh_ext h ++ wh_maskKey h.

Definition canSubstitute (h : ws_header) : bool := (opcode h =? wsOpText) && fin h && negb (rsv1 h) && (wh_payloadLen h <=? maxWSSubstitutionPayload).

Definition byte_xor (a b : byte) : byte := byte_of (Z.lxor (bval a) (bval b)).

(** [payload[i] ^= maskKey[i%4]]; without a key nothing changes. *)
Definition xor_key (key payload : bytes) : bytes := imap (λ i b, match key !! (i mod 4)%nat with Some k => byte_xor b k | None => b end) payload.

Definition substitute_frame (subs : list ResolvedSubstitution) (text : bytes) : bytes := foldl (λ text sub, ReplaceAll text (rs_Placeholder sub) (rs_Value sub)) text subs.

(** [binary.BigEndian.AppendUint16] and [AppendUint64] *)
Fixpoint be_bytes (n : nat) (z : Z) : bytes := match n with O => [] | S n => byte_of (Z.shiftr z (8 * Z.of_nat n)) :: be_bytes n z end.

Definition second_byte (has_key : bool) (z : Z) : byte := byte_of (if has_key then Z.lor z 128 else z).

(** The rewritten frame; [key] is empty when the frame is not masked. *)
Definition build_frame (hdr0 : byte) (key text : bytes) : bytes :=
  let has_key := negb (bool_decide (key = [])) in
  let newLen := Z.of_nat (length text) in
  hdr0 :: (if newLen <=? 125 then [second_byte has_key newLen]
           else if newLen <=? 65535 then second_byte has_key 126 :: be_bytes 2 newLen
           else second_byte has_key 127 :: be_bytes 8 newLen) ++
  key ++ xor_key key text.

(** ** The copy *)

Section Copy.
Context (subs : list ResolvedSubstitution).

(** One frame: what is written, and, if the copy goes on, what is left. *)
Definition copy_frame (h : ws_header) (rest : bytes) (masks : list bytes) : bytes * option (bytes * list bytes) :=
  if negb (canSubstitute h) then
    match ReadFull (wh_payloadLen h) rest with
    | None => (raw_header h ++ rest, None)
    | Some (payload, rest) => (raw_header h ++ payload, if opcode h =? wsOpClose then None else Some (rest, masks))
    end
  else
    match ReadFull (wh_payloadLen h) rest with
    | None => ([], None)
    | Some (raw, rest) =>
        let payload := xor_key (wh_maskKey h) raw in
        let text := substitute_frame subs payload in
        if bool_decide (text = payload) then (raw_header h ++ raw, Some (rest, masks))
        else if masked h then
          match masks with
          | [] => ([], None)
          | key :: masks => (build_frame (wh_hdr0 h) key text, Some (rest, masks))
          end
        else (build_frame (wh_hdr0 h) [] text, Some (rest, masks))
    end.

(** A frame takes two bytes at least, so that [length src] rounds do. *)
Fixpoint copy_rounds (fuel : nat) (src : bytes) (masks : list bytes) : bytes :=
  match fuel with
  | O => []
  | S fuel =>
      match read_header src with
      | None => []
      | Some (h, rest) =>
          let '(out, next) := copy_frame h rest masks in
          out ++ match next with Some (rest, masks) => copy_rounds fuel rest masks | None => [] end
      end
  end.

Definition copyWSFramesWithSubstitution (src : bytes) (masks : list bytes) : bytes := copy_rounds (S (length src)) src masks.
End Copy.

(** ** Messages *)

(** What a frame says: its first byte (the end mark, the extension bits and the
    opcode), whether it is masked, the payload in the clear. *)
Record frame := { fr_hdr0 : byte; fr_masked : bool; fr_payload : bytes }.

Definition read_frame (s : bytes) : option (frame * bytes) :=
  '(h, s) ← read_header s; '(raw, s) ← ReadFull (wh_payloadLen h) s;
  Some ({| fr_hdr0 := wh_hdr0 h; fr_masked := masked h; fr_payload := xor_key (wh_maskKey h) raw |}, s).

(** The complete frames up to the first that closes the connection. *)
Fixpoint frames_rounds (fuel : nat) (s : bytes) : list frame :=
  match fuel with
  | O => []
  | S fuel =>
      match read_frame s with
      | None => []
      | Some (f, rest) => f :: if Z.land (bval (fr_hdr0 f)) 15 =? wsOpClose then [] else frames_rounds fuel rest
      end
  end.
Definition frames (s : bytes) : list frame := frames_rounds (S (length s)) s.

(** The reference: whole text frames of at most a mebibyte, not compressed, are
    rewritten. *)
Definition rewritable (f : frame) : bool :=
  let b := bval (fr_hdr0 f) in
  (Z.land b 15 =? wsOpText) && negb (Z.land b 128 =? 0) && (Z.land b 64 =? 0) && (Z.of_nat (length (fr_payload f)) <=? maxWSSubstitutionPayload).
Definition rewrite_frame (subs : list ResolvedSubstitution) (f : frame) : frame :=
  if rewritable f then {| fr_hdr0 := fr_hdr0 f; fr_masked := fr_masked f; fr_payload := substitute_frame subs (fr_payload f) |} else f.

(** ** Bytes *)

Lemma above_byte a n : 0 <= a < 256 → 8 <= n → Z.testbit a n = false.
Proof.
  intros Ha Hn. destruct (decide (a = 0)) as [->|]; [apply Z.testbit_0_l|]. apply Z.bits_above_log2; [lia|].
  apply (Z.lt_le_trans _ 8); [|done]. apply Z.log2_lt_pow2; lia.
Qed.

Lemma lxor_range a b : 0 <= a < 256 → 0 <= b < 256 → 0 <= Z.lxor a b < 256.
Proof.
  intros Ha Hb. assert (H0 : 0 <= Z.lxor a b) by (apply Z.lxor_nonneg; lia). split; [done|].
  assert (Hmod : Z.lxor a b = Z.lxor a b mod 2 ^ 8); [|rewrite Hmod; by apply Z.mod_pos_bound].
  symmetry. rewrite <- Z.land_ones by lia. apply Z.bits_inj'. intros n Hn. rewrite Z.land_spec. destruct (decide (n < 8)) as [Hlt|Hge].
  - by rewrite Z.ones_spec_low, andb_true_r by lia.
  - rewrite Z.ones_spec_high, andb_false_r by lia. rewrite Z.lxor_spec, !above_byte by lia. done.
Qed.

Lemma byte_xor_involutive a k : byte_xor (byte_xor a k) k = a.
Proof.
  unfold byte_xor. apply bval_inj. rewrite !bval_byte_of. pose proof (bval_range a) as Ha. pose proof (bval_range k) as Hk.
  rewrite (Z.mod_small (Z.lxor (bval a) (bval k))) by (by apply lxor_range). rewrite Z.lxor_assoc, Z.lxor_nilpotent, Z.lxor_0_r. by apply Z.mod_small.
Qed.

Lemma xor_key_involutive key p : xor_key key (xor_key key p) = p.
Proof.
  unfold xor_key. apply list_eq. intros i. rewrite !list_lookup_imap. destruct (p !! i) as [b|]; [|done].
  cbn -[Nat.modulo byte_xor]. destruct (key !! (i mod 4)%nat) as [k|]; [|done]. by rewrite byte_xor_involutive.
Qed.

Lemma length_xor_key key p : length (xor_key key p) = length p.
Proof. apply length_imap. Qed.

Lemma xor_key_nil p : xor_key [] p = p.
Proof. apply list_eq. intros i. unfold xor_key. rewrite list_lookup_imap. by destruct (p !! i). Qed.

Lemma length_be_bytes n z : length (be_bytes n z) = n.
Proof. induction n as [|n IH]; [done|]. cbn. by rewrite IH. Qed.

Lemma be_val_be_bytes n z : be_val (be_bytes n z) = z mod 2 ^ (8 * Z.of_nat n).
Proof.
  induction n as [|n IH]; [cbn; by rewrite Z.mod_1_r|]. cbn [be_bytes]. rewrite be_val_cons, IH, length_be_bytes, bval_byte_of, Z.shiftr_div_pow2 by lia.
  replace (256 ^ Z.of_nat n) with (2 ^ (8 * Z.of_nat n)) by (by rewrite Z.pow_mul_r by lia).
  replace (8 * Z.of_nat (S n)) with (8 * Z.of_nat n + 8) by lia. rewrite Z.pow_add_r by lia.
  assert (0 < 2 ^ (8 * Z.of_nat n)) by (apply Z.pow_pos_nonneg; lia).
  rewrite Z.rem_mul_r by lia. change (2 ^ 8) with 256. lia.
Qed.

Lemma second_byte_spec has_key z : 0 <= z < 128 → Z.land (bval (second_byte has_key z)) 127 = z ∧ mask_bit (second_byte has_key z) = has_key.
Proof.
  intros Hz. assert (H : ∀ k, (k < 128)%nat → Z.land (bval (second_byte has_key (Z.of_nat k))) 127 =? Z.of_nat k = true ∧ Bool.eqb (mask_bit (second_byte has_key (Z.of_nat k))) has_key = true).
  { intros k Hk. pose proof (proj1 (forallb_forall (λ k, (Z.land (bval (second_byte has_key (Z.of_nat k))) 127 =? Z.of_nat k) && Bool.eqb (mask_bit (second_byte has_key (Z.of_nat k))) has_key) (seq 0 128))) as Hf.
    apply andb_prop. apply Hf; [destruct has_key; vm_compute; reflexivity|]. apply in_seq. lia. }
  destruct (H (Z.to_nat z)) as [H1 H2]; [lia|]. rewrite Z2Nat.id in * by lia. apply Z.eqb_eq in H1. by apply Bool.eqb_prop in H2.
Qed.

(** ** Reading what was written *)

Lemma ReadFull_app n a s : Z.of_nat (length a) = n → ReadFull n (a ++ s) = Some (a, s).
Proof.
  intros <-. unfold ReadFull. rewrite length_app. replace (_ <? _) with false by (symmetry; apply Z.ltb_ge; lia).
  by rewrite Nat2Z.id, take_app_length, drop_app_length.
Qed.

Lemma ReadFull_Some n s a rest : 0 <= n → ReadFull n s = Some (a, rest) → s = a ++ rest ∧ Z.of_nat (length a) = n.
Proof.
  unfold ReadFull. intros Hn. destruct (_ <? _) eqn:E; [done|]. apply Z.ltb_ge in E. intros [= <- <-]. rewrite take_drop. split; [done|]. rewrite length_take. lia.
Qed.

Lemma read_length_spec hdr1 s ext len rest : read_length hdr1 s = Some (ext, len, rest) →
  s = ext ++ rest ∧ 0 <= len ∧ ∀ t, read_length hdr1 (ext ++ t) = Some (ext, len, t).
Proof.
  unfold read_length. pose proof (Z.land_nonneg (bval hdr1) 127) as Hl. pose proof (bval_range hdr1).
  destruct (_ =? 126); [|destruct (_ =? 127)].
  - destruct (ReadFull 2 s) as [[e r]|] eqn:E; cbn; [|done]. apply ReadFull_Some in E as [-> Hlen]; [|done]. intros [= <- <- <-]. split; [done|].
    split; [apply be_val_range|]. intros t. by rewrite ReadFull_app.
  - destruct (ReadFull 8 s) as [[e r]|] eqn:E; cbn; [|done]. apply ReadFull_Some in E as [-> Hlen]; [|done]. destruct (_ <? _) eqn:Em; [done|]. intros [= <- <- <-]. split; [done|].
    split; [apply be_val_range|]. intros t. rewrite ReadFull_app by done. cbn. by rewrite Em.
  - intros [= <- <- <-]. split; [done|]. split; [apply Hl; lia|done].
Qed.

Lemma read_header_spec s h rest : read_header s = Some (h, rest) →
  s = raw_header h ++ rest ∧ 0 <= wh_payloadLen h ∧ (masked h = false → wh_maskKey h = []) ∧ (masked h = true → length (wh_maskKey h) = 4%nat) ∧
  ∀ t, read_header (raw_header h ++ t) = Some (h, t).
Proof.
  unfold read_header. destruct s as [|hdr0 [|hdr1 s]]; [done|done|]. destruct (read_length hdr1 s) as [[[ext len] s1]|] eqn:E; cbn; [|done].
  apply read_length_spec in E as (-> & Hlen & Hr). destruct (mask_bit hdr1) eqn:Em.
  - destruct (ReadFull 4 s1) as [[key s2]|] eqn:Ek; cbn; [|done]. apply ReadFull_Some in Ek as [-> Hk]; [|done]. intros [= <- <-].
    unfold raw_header, masked. cbn. rewrite <- app_assoc. split; [done|]. split; [done|]. split; [congruence|]. split; [intros _; lia|].
    intros t. rewrite <- app_assoc, Hr. cbn. rewrite Em, ReadFull_app by done. reflexivity.
  - cbn. intros [= <- <-]. unfold raw_header, masked. cbn. rewrite app_nil_r. split; [done|]. split; [done|]. split; [done|]. split; [congruence|].
    intros t. rewrite Hr. cbn. by rewrite Em.
Qed.

(** A frame that was built is read back. *)
Lemma read_build_frame hdr0 key text s : key = [] ∨ length key = 4%nat → Z.of_nat (length text) <= max_int64 →
  read_frame (build_frame hdr0 key text ++ s) = Some ({| fr_hdr0 := hdr0; fr_masked := negb (bool_decide (key = [])); fr_payload := text |}, s).
Proof.
  intros Hkey Hlen. unfold build_frame. set (has_key := negb (bool_decide (key = []))). set (n := Z.of_nat (length text)) in *.
  assert (Hn : 0 <= n) by lia.
  assert (Hread : ∀ hdr1 ext, mask_bit hdr1 = has_key → (∀ t, read_length hdr1 (ext ++ t) = Some (ext, n, t)) →
    read_frame (hdr0 :: (hdr1 :: ext) ++ (key ++ xor_key key text) ++ s) = Some ({| fr_hdr0 := hdr0; fr_masked := has_key; fr_payload := text |}, s)).
  { intros hdr1 ext Hm Hl. unfold read_frame, read_header. cbn [app]. rewrite Hl. cbn [mbind option_bind]. rewrite Hm.
    assert (Hkr : (if has_key then ReadFull 4 ((key ++ xor_key key text) ++ s) else Some ([], (key ++ xor_key key text) ++ s)) = Some (key, xor_key key text ++ s)).
    { unfold has_key. destruct Hkey as [->|Hk]; [reflexivity|]. rewrite bool_decide_false by (by intros ->). cbn [negb]. rewrite <- app_assoc. apply ReadFull_app. lia. }
    rewrite Hkr. cbn [mbind option_bind wh_payloadLen wh_hdr0 wh_maskKey masked wh_hdr1]. rewrite ReadFull_app by (by rewrite length_xor_key).
    unfold masked. cbn. by rewrite Hm, xor_key_involutive. }
  cbn [app]. rewrite <- app_assoc. destruct (n <=? 125) eqn:E1; [|destruct (n <=? 65535) eqn:E2].
  - apply Z.leb_le in E1. apply (Hread _ []); [by apply second_byte_spec; lia|]. intros t. unfold read_length.
    destruct (second_byte_spec has_key n) as [-> _]; [lia|]. replace (n =? 126) with false by (symmetry; apply Z.eqb_neq; lia).
    by replace (n =? 127) with false by (symmetry; apply Z.eqb_neq; lia).
  - apply Z.leb_gt in E1. apply Z.leb_le in E2. apply (Hread _ (be_bytes 2 n)); [by apply second_byte_spec|]. intros t. unfold read_length.
    destruct (second_byte_spec has_key 126) as [-> _]; [lia|]. change (126 =? 126) with true. cbn iota. rewrite ReadFull_app by (by rewrite length_be_bytes). cbn [mbind option_bind].
    rewrite be_val_be_bytes. change (2 ^ (8 * Z.of_nat 2)) with 65536. by rewrite Z.mod_small by lia.
  - apply (Hread _ (be_bytes 8 n)); [by apply second_byte_spec|]. intros t. unfold read_length.
    destruct (second_byte_spec has_key 127) as [-> _]; [lia|]. change (127 =? 126) with false. change (127 =? 127) with true. cbn iota.
    rewrite ReadFull_app by (by rewrite length_be_bytes). cbn [mbind option_bind]. rewrite be_val_be_bytes.
    change (2 ^ (8 * Z.of_nat 8)) with 18446744073709551616. unfold max_int64 in *. rewrite Z.mod_small by lia.
    by replace (_ <? n) with false by (symmetry; apply Z.ltb_ge; lia).
Qed.

(** ** The copy, message by message *)

(** A complete frame at the head of a stream. *)
Lemma frame_head src h rest : read_header src = Some (h, rest) → ∀ raw rest', ReadFull (wh_payloadLen h) rest = Some (raw, rest') →
  src = raw_header h ++ raw ++ rest' ∧ (length rest' < length src)%nat ∧
  let f := {| fr_hdr0 := wh_hdr0 h; fr_masked := masked h; fr_payload := xor_key (wh_maskKey h) raw |} in
  rewritable f = canSubstitute h ∧ ∀ t, read_frame (raw_header h ++ raw ++ t) = Some (f, t).
Proof.
  intros E raw rest' Er. apply read_header_spec in E as (-> & Hlen & _ & _ & Hh). apply ReadFull_Some in Er as [-> Hraw]; [|done].
  split; [done|]. split; [unfold raw_header; rewrite !length_app; cbn; lia|]. split.
  - unfold rewritable, canSubstitute, opcode, fin, rsv1. cbn. rewrite length_xor_key, Hraw. by rewrite negb_involutive.
  - intros t. unfold read_frame. rewrite Hh. cbn [mbind option_bind]. by rewrite ReadFull_app.
Qed.

Lemma read_frame_None src h rest : read_header src = Some (h, rest) → ReadFull (wh_payloadLen h) rest = None → read_frame src = None.
Proof. intros E Er. unfold read_frame. rewrite E. cbn. by rewrite Er. Qed.

Section Messages.
Context (subs : list ResolvedSubstitution).

(** One frame of the copy is the rewritten frame. *)
Lemma copy_frame_spec src h rest masks raw rest' : read_header src = Some (h, rest) → ReadFull (wh_payloadLen h) rest = Some (raw, rest') →
  masks ≠ [] → Forall (λ m, length m = 4%nat) masks →
  let f := {| fr_hdr0 := wh_hdr0 h; fr_masked := masked h; fr_payload := xor_key (wh_maskKey h) raw |} in
  Z.of_nat (length (fr_payload (rewrite_frame subs f))) <= max_int64 →
  ∃ out masks', copy_frame subs h rest masks = (out, if Z.land (bval (wh_hdr0 h)) 15 =? wsOpClose then None else Some (rest', masks')) ∧
    (masks' = masks ∨ ∃ k, masks = k :: masks') ∧ ∀ t, read_frame (out ++ t) = Some (rewrite_frame subs f, t).
Proof using Type.
  intros E Er Hne Hm f Hlen. destruct (frame_head _ _ _ E _ _ Er) as (_ & _ & Hrw & Hf). fold f in Hrw, Hf. unfold copy_frame, rewrite_frame in *. rewrite Hrw in *.
  destruct (canSubstitute h) eqn:Ec; cbn [negb]; rewrite Er.
  - assert (Hop : Z.land (bval (wh_hdr0 h)) 15 =? wsOpClose = false).
    { unfold canSubstitute, opcode in Ec. rewrite !andb_true_iff in Ec. destruct Ec as [[[Ec _] _] _]. apply Z.eqb_eq in Ec. rewrite Ec. done. }
    rewrite Hop. cbn [fr_payload f] in Hlen. case_bool_decide as Et.
    + exists (raw_header h ++ raw), masks. split; [done|]. split; [by left|]. intros t. rewrite <- app_assoc, Hf. unfold f. cbn. by rewrite Et.
    + destruct (masked h) eqn:Em.
      * destruct masks as [|key masks]; [done|]. apply Forall_cons in Hm as [Hk Hm]. eexists _, masks. split; [reflexivity|]. split; [right; by exists key|].
        intros t. rewrite read_build_frame by (auto || done). unfold f. cbn. rewrite bool_decide_false by (by intros ->). done.
      * eexists _, masks. split; [reflexivity|]. split; [by left|]. intros t. rewrite read_build_frame by (auto || done). done.
  - exists (raw_header h ++ raw), masks. split; [done|]. split; [by left|]. intros t. by rewrite <- app_assoc, Hf.
Qed.

Lemma copy_rounds_spec n : ∀ src masks m, (length src < n)%nat → (length (copy_rounds subs n src masks) < m)%nat →
  Forall (λ k, length k = 4%nat) masks → (length (frames_rounds n src) <= length masks)%nat →
  Forall (λ f, Z.of_nat (length (fr_payload (rewrite_frame subs f))) <= max_int64) (frames_rounds n src) →
  frames_rounds m (copy_rounds subs n src masks) = map (rewrite_frame subs) (frames_rounds n src).
Proof using Type.
  induction n as [|n IH]; intros src masks m Hn Hm Hk Hl Hp; [lia|]. destruct m as [|m]; [lia|]. cbn [copy_rounds] in *.
  destruct (read_header src) as [[h rest]|] eqn:E.
  2: { cbn. unfold read_frame. by rewrite E. }
  destruct (ReadFull (wh_payloadLen h) rest) as [[raw rest']|] eqn:Er.
  - destruct (frame_head _ _ _ E _ _ Er) as (Hsrc & Hlt & _ & Hf). set (f := {| fr_hdr0 := wh_hdr0 h; fr_masked := masked h; fr_payload := _ |}) in *.
    assert (Hread : read_frame src = Some (f, rest')) by (rewrite Hsrc; apply Hf). cbn [frames_rounds] in Hl, Hp |- *. rewrite Hread in Hl, Hp |- *.
    apply Forall_cons in Hp as [Hp1 Hp]. cbn [length] in Hl.
    destruct (copy_frame_spec _ _ _ masks _ _ E Er ltac:(intros ->; cbn in Hl; lia) Hk Hp1) as (out & masks' & Hc & Hms & Hout). fold f in Hout.
    rewrite Hc in Hm |- *. rewrite Hout. cbn [map fr_hdr0]. f_equal. assert (Hb : fr_hdr0 (rewrite_frame subs f) = fr_hdr0 f) by (unfold rewrite_frame; by destruct (rewritable f)).
    rewrite Hb. change (fr_hdr0 f) with (wh_hdr0 h). cbn [fr_hdr0 f] in Hp, Hl.
    destruct (Z.land (bval (wh_hdr0 h)) 15 =? wsOpClose); [done|].
    assert (Hpos : out ≠ []). { intros ->. by specialize (Hout []). }
    apply IH; [lia| | | |done].
    + rewrite length_app in Hm. destruct out; [done|]. cbn in Hm. lia.
    + destruct Hms as [->|[k ->]]; [done|]. by apply Forall_cons in Hk as [_ Hk].
    + destruct Hms as [->|[k ->]]; cbn [length] in Hl; lia.
  - assert (Hnone : read_frame src = None) by (by eapply read_frame_None). cbn [frames_rounds]. rewrite Hnone. unfold copy_frame. rewrite Er.
    destruct (canSubstitute h); cbn [negb]; [done|]. rewrite app_nil_r. apply read_header_spec in E as (<- & _). by rewrite Hnone.
Qed.

(** C35: whatever the client sends, the server reads the client's frames one for
    one, up to the one that closes the connection: each whole text frame of at
    most a mebibyte, uncompressed, with the placeholders replaced in the clear
    text, every other frame as it was; masked frames stay masked. *)
Theorem frames_rewritten src masks :
  Forall (λ k, length k = 4%nat) masks → (length (frames src) <= length masks)%nat →
  Forall (λ f, Z.of_nat (length (fr_payload (rewrite_frame subs f))) <= max_int64) (frames src) →
  frames (copyWSFramesWithSubstitution subs src masks) = map (rewrite_frame subs) (frames src).
Proof using Type. intros Hk Hl Hp. unfold frames at 1, copyWSFramesWithSubstitution. apply copy_rounds_spec; (lia || done). Qed.

(** Without a placeholder in sight the bytes pass untouched. *)
Lemma copy_rounds_same n : ∀ src masks, (length src < n)%nat → Forall (λ f, rewrite_frame subs f = f) (frames_rounds n src) →
  copy_rounds subs n src masks `prefix_of` src.
Proof using Type.
  induction n as [|n IH]; intros src masks Hn Hf; [lia|]. cbn [copy_rounds]. destruct (read_header src) as [[h rest]|] eqn:E; [|apply prefix_nil].
  destruct (ReadFull (wh_payloadLen h) rest) as [[raw rest']|] eqn:Er.
  - destruct (frame_head _ _ _ E _ _ Er) as (Hsrc & Hlt & Hrw & Hr). set (f := {| fr_hdr0 := wh_hdr0 h; fr_masked := masked h; fr_payload := _ |}) in *.
    assert (Hread : read_frame src = Some (f, rest')) by (rewrite Hsrc; apply Hr). cbn [frames_rounds] in Hf. rewrite Hread in Hf. apply Forall_cons in Hf as [Hf1 Hf].
    assert (Hc : copy_frame subs h rest masks = (raw_header h ++ raw, if Z.land (bval (wh_hdr0 h)) 15 =? wsOpClose then None else Some (rest', masks))).
    { unfold copy_frame. rewrite Er. destruct (canSubstitute h) eqn:Ec; [|done]. cbn [negb]. unfold rewrite_frame in Hf1. rewrite Hrw in Hf1.
      assert (Hs : substitute_frame subs (xor_key (wh_maskKey h) raw) = xor_key (wh_maskKey h) raw) by (by apply (f_equal fr_payload) in Hf1). rewrite bool_decide_true by done.
      unfold canSubstitute, opcode in Ec. rewrite !andb_true_iff in Ec. destruct Ec as [[[Ec _] _] _]. apply Z.eqb_eq in Ec. by rewrite Ec. }
    rewrite Hc. cbn [fr_hdr0 f] in Hf. rewrite Hsrc. rewrite <- app_assoc. apply prefix_app, prefix_app.
    destruct (Z.land _ 15 =? wsOpClose); [apply prefix_nil|]. apply IH; [lia|done].
  - unfold copy_frame. rewrite Er. destruct (canSubstitute h); cbn [negb]; [apply prefix_nil|]. rewrite app_nil_r. by apply read_header_spec in E as (<- & _).
Qed.

Lemma frames_untouched src masks : Forall (λ f, rewrite_frame subs f = f) (frames src) → copyWSFramesWithSubstitution subs src masks `prefix_of` src.
Proof using Type. intros H. apply copy_rounds_same; [lia|done]. Qed.
End Messages.

(** ** One conversation *)

Module SocketDemo.
Definition token_sub : ResolvedSubstitution := {| rs_Placeholder := #"__t__"; rs_Value := #"s3cret"; rs_In := [ #"websocket"] |}.
Definition key : bytes := [x01; x02; x03; x04].
(** A masked text frame, a ping, a close, and what is never read. *)
Definition client_stream : bytes := build_frame x81 key #"auth __t__" ++ build_frame x89 key [] ++ build_frame x88 key [] ++ #"rest".
Definition mask_keys : list bytes := [[xaa; xbb; xcc; xdd]; key; key].

Lemma frames_rewritten_witness : frames (copyWSFramesWithSubstitution [token_sub] client_stream mask_keys) =
  [{| fr_hdr0 := x81; fr_masked := true; fr_payload := #"auth s3cret" |}; {| fr_hdr0 := x89; fr_masked := true; fr_payload := [] |}; {| fr_hdr0 := x88; fr_masked := true; fr_payload := [] |}].
Proof.
  rewrite (frames_rewritten [token_sub] client_stream mask_keys); [vm_compute; reflexivity|by repeat constructor|vm_compute; lia|].
  assert (E : frames client_stream = [{| fr_hdr0 := x81; fr_masked := true; fr_payload := #"auth __t__" |}; {| fr_hdr0 := x89; fr_masked := true; fr_payload := [] |}; {| fr_hdr0 := x88; fr_masked := true; fr_payload := [] |}])
    by (vm_compute; reflexivity).
  rewrite E. repeat constructor; vm_compute; discriminate.
Defined.
End SocketDemo.
