(* ===== verification/RequestLogs.v ===== *)
(** * Request logs ([internal/requestlog/], [internal/store/sql_store.go],
      [internal/server/handle_logs.go])

    Records of proxied requests go through a bounded channel and a worker that
    inserts them in batches; a ticker trims the table; the log page reads it.
    The worker runs beside the handlers, so [sink_step] is a relation.  Times are
    nanoseconds; a stamp is stored at the dialect's resolution [unit].  Rows are
    listed by id, which a table gives in the order of insertion. *)

From S2P Require Import Prelude GoString GoStrconv.

(** [requestlog.Record]: what is kept of a request. *)
Record LogRecord := {
  lr_VaultID : bytes;
  lr_ActorType : bytes;
  lr_ActorID : bytes;
  lr_Ingress : bytes;
  lr_Method : bytes;
  lr_Host : bytes;
  lr_Path : bytes;
  lr_MatchedService : bytes;
  lr_MatchedHost : bytes;
  lr_MatchedPath : bytes;
  lr_MatchedPort : option Z;
  lr_CredentialKeys : list bytes;
  lr_Status : Z;
  lr_LatencyMs : Z;
  lr_ErrorCode : bytes;
  lr_AuthScheme : bytes;
  lr_AuthHeader : bytes;
}.

(** [store.RequestLog]; no stamp is the zero time. *)
Record RequestLog := {
  rl_ID : Z;
  rl_VaultID : bytes;
  rl_ActorType : bytes;
  rl_ActorID : bytes;
  rl_Ingress : bytes;
  rl_Method : bytes;
  rl_Host : bytes;
  rl_Path : bytes;
  rl_MatchedService : bytes;
  rl_CredentialKeys : list bytes;
  rl_Status : Z;
  rl_LatencyMs : Z;
  rl_ErrorCode : bytes;
  rl_AuthScheme : bytes;
  rl_AuthHeader : bytes;
  rl_CreatedAt : option Z;
}.

(** [brokercore.ProxyEvent], once emitted. *)
Record ProxyEvent := {
  pe_Ingress : bytes;
  pe_Method : bytes;
  pe_Host : bytes;
  pe_Path : bytes;
  pe_MatchedService : bytes;
  pe_MatchedHost : bytes;
  pe_MatchedPath : bytes;
  pe_MatchedPort : option Z;
  pe_CredentialKeys : list bytes;
  pe_Status : Z;
  pe_TotalMs : Z;
  pe_Err : bytes;
  pe_Passthrough : bool;
  pe_AuthScheme : bytes;
  pe_AuthHeader : bytes;
}.

Definition FromEvent (ev : ProxyEvent) (vaultID actorType actorID : bytes) : LogRecord :=
  {| lr_VaultID := vaultID; lr_ActorType := actorType; lr_ActorID := actorID; lr_Ingress := pe_Ingress ev; lr_Method := pe_Method ev; lr_Host := pe_Host ev; lr_Path := pe_Path ev;
     lr_MatchedService := pe_MatchedService ev; lr_MatchedHost := pe_MatchedHost ev; lr_MatchedPath := pe_MatchedPath ev; lr_MatchedPort := pe_MatchedPort ev;
     lr_CredentialKeys := pe_CredentialKeys ev; lr_Status := pe_Status ev; lr_LatencyMs := pe_TotalMs ev; lr_ErrorCode := pe_Err ev; lr_AuthScheme := pe_AuthScheme ev; lr_AuthHeader := pe_AuthHeader ev |}.

Definition toStoreRow (r : LogRecord) : RequestLog :=
  {| rl_ID := 0; rl_VaultID := lr_VaultID r; rl_ActorType := lr_ActorType r; rl_ActorID := lr_ActorID r; rl_Ingress := lr_Ingress r; rl_Method := lr_Method r; rl_Host := lr_Host r;
     rl_Path := lr_Path r; rl_MatchedService := lr_MatchedService r; rl_CredentialKeys := lr_CredentialKeys r; rl_Status := lr_Status r; rl_LatencyMs := lr_LatencyMs r;
     rl_ErrorCode := lr_ErrorCode r; rl_AuthScheme := lr_AuthScheme r; rl_AuthHeader := lr_AuthHeader r; rl_CreatedAt := None |}.

(** ** The table *)

(** [lt_Seq]: the last id given, which is never given again. *)
Record log_table := { lt_Seq : Z; lt_Rows : list RequestLog }.

Section Store.
(** The resolution of a stored stamp, and which vaults exist. *)
Context (unit : Z) (vault_exists : bytes → bool).

Definition FormatTime (t : Z) : Z := t - t mod unit.

Definition stored_row (id now : Z) (r : RequestLog) : RequestLog :=
  {| rl_ID := id; rl_VaultID := rl_VaultID r; rl_ActorType := rl_ActorType r; rl_ActorID := rl_ActorID r; rl_Ingress := rl_Ingress r; rl_Method := rl_Method r; rl_Host := rl_Host r;
     rl_Path := rl_Path r; rl_MatchedService := rl_MatchedService r; rl_CredentialKeys := rl_CredentialKeys r; rl_Status := rl_Status r; rl_LatencyMs := rl_LatencyMs r;
     rl_ErrorCode := rl_ErrorCode r; rl_AuthScheme := rl_AuthScheme r; rl_AuthHeader := rl_AuthHeader r;
     rl_CreatedAt := Some (FormatTime (default now (rl_CreatedAt r))) |}.

(** The rows of one transaction, the first under the id after [seq]. *)
Fixpoint numbered (seq now : Z) (rows : list RequestLog) : list RequestLog :=
  match rows with [] => [] | r :: rows => stored_row (seq + 1) now r :: numbered (seq + 1) now rows end.

(** [ok]: the database takes the transaction.  A vault that is gone fails it. *)
Definition InsertRequestLogs (ok : bool) (now : Z) (rows : list RequestLog) (t : log_table) : log_table * bool :=
  if bool_decide (rows = []) then (t, true)
  else if negb ok || negb (forallb (λ r, vault_exists (rl_VaultID r)) rows) then (t, false)
  else ({| lt_Seq := lt_Seq t + Z.of_nat (length rows); lt_Rows := lt_Rows t ++ numbered (lt_Seq t) now rows |}, true).

Record ListRequestLogsOpts := {
  lo_VaultID : option bytes;
  lo_Ingress : bytes;
  lo_StatusBucket : bytes;
  lo_MatchedService : bytes;
  lo_Before : Z;
  lo_After : Z;
  lo_Limit : Z;
}.

(** The [WHERE] clause. *)
Definition in_bucket (bucket : bytes) (r : RequestLog) : bool :=
  let s := rl_Status r in
  if bool_decide (bucket = #"2xx") then (200 <=? s) && (s <? 300)
  else if bool_decide (bucket = #"3xx") then (300 <=? s) && (s <? 400)
  else if bool_decide (bucket = #"4xx") then (400 <=? s) && (s <? 500)
  else if bool_decide (bucket = #"5xx") then (500 <=? s) && (s <? 600)
  else if bool_decide (bucket = #"err") then negb (bool_decide (rl_ErrorCode r = [])) || (400 <=? s)
  else true.

Definition matches_filter (o : ListRequestLogsOpts) (r : RequestLog) : bool :=
  match lo_VaultID o with Some v => bool_decide (rl_VaultID r = v) | None => true end &&
  (bool_decide (lo_Ingress o = []) || bool_decide (rl_Ingress r = lo_Ingress o)) &&
  (bool_decide (lo_MatchedService o = []) || bool_decide (rl_MatchedService r = lo_MatchedService o)) &&
  in_bucket (lo_StatusBucket o) r.

Definition in_window (o : ListRequestLogsOpts) (r : RequestLog) : bool :=
  (negb (0 <? lo_Before o) || (rl_ID r <? lo_Before o)) && (negb (0 <? lo_After o) || (lo_After o <? rl_ID r)).

Definition page_limit (o : ListRequestLogsOpts) : nat := Z.to_nat (if lo_Limit o <=? 0 then 50 else lo_Limit o).

(** The columns a list has. *)
Definition listed_row (r : RequestLog) : RequestLog :=
  {| rl_ID := rl_ID r; rl_VaultID := rl_VaultID r; rl_ActorType := rl_ActorType r; rl_ActorID := rl_ActorID r; rl_Ingress := rl_Ingress r; rl_Method := rl_Method r; rl_Host := rl_Host r;
     rl_Path := rl_Path r; rl_MatchedService := rl_MatchedService r; rl_CredentialKeys := rl_CredentialKeys r; rl_Status := rl_Status r; rl_LatencyMs := rl_LatencyMs r;
     rl_ErrorCode := rl_ErrorCode r; rl_AuthScheme := []; rl_AuthHeader := []; rl_CreatedAt := rl_CreatedAt r |}.

Definition ListRequestLogs (o : ListRequestLogsOpts) (t : log_table) : list RequestLog :=
  let rows := List.filter (λ r, matches_filter o r && in_window o r) (lt_Rows t) in
  map listed_row (take (page_limit o) (if 0 <? lo_After o then rows else rev rows)).

Definition with_rows (t : log_table) (rows : list RequestLog) : log_table := {| lt_Seq := lt_Seq t; lt_Rows := rows |}.

Definition older (before : Z) (r : RequestLog) : bool := match rl_CreatedAt r with Some c => c <? FormatTime before | None => false end.
Definition DeleteOldRequestLogs (before : Z) (t : log_table) : log_table * Z :=
  let rows := List.filter (λ r, negb (older before r)) (lt_Rows t) in
  (with_rows t rows, Z.of_nat (length (lt_Rows t) - length rows)).

Definition vault_rows (v : bytes) (rows : list RequestLog) : list RequestLog := List.filter (λ r, bool_decide (rl_VaultID r = v)) rows.

(** The subquery gives the newest row beyond the cap. *)
Definition TrimRequestLogsToCap (vaultID : bytes) (cap : Z) (t : log_table) : log_table * Z :=
  if cap <=? 0 then (t, 0)
  else if Z.of_nat (length (vault_rows vaultID (lt_Rows t))) <=? cap then (t, 0)
  else
    let kept := match rev (vault_rows vaultID (lt_Rows t)) !! Z.to_nat cap with
                | None => lt_Rows t
                | Some cutoff => List.filter (λ r, negb (bool_decide (rl_VaultID r = vaultID) && (rl_ID r <=? rl_ID cutoff))) (lt_Rows t)
                end in
    (with_rows t kept, Z.of_nat (length (lt_Rows t) - length kept)).

Definition VaultIDsWithLogs (t : log_table) : list bytes := remove_dups (map rl_VaultID (lt_Rows t)).

(** ** Retention *)

Record RetentionConfig := { rc_MaxAge : Z; rc_MaxRowsPerVault : Z; rc_Tick : Z }.
Definition DefaultRetention : RetentionConfig := {| rc_MaxAge := 7 * 24 * (60 * Minute); rc_MaxRowsPerVault := 10000; rc_Tick := 15 * Minute |}.

(** [hours]: the duration of a text of hours that is not negative; [payload]:
    the two members of the stored setting, as durations and counts. *)
Definition env_rows (raw : bytes) : option Z := match Atoi raw with Some v => if 0 <=? v then Some v else None | None => None end.
Definition ResolveRetention (hours : bytes → option Z) (Getenv : bytes → bytes) (payload : option (option Z * option Z)) : RetentionConfig :=
  let env_of {A} (name : bytes) (f : bytes → option A) := if bool_decide (Getenv name = []) then None else f (Getenv name) in
  let age := env_of #"AGENT_VAULT_LOGS_MAX_AGE_HOURS" hours in
  let rows := env_of #"AGENT_VAULT_LOGS_MAX_ROWS_PER_VAULT" env_rows in
  let cfg := if bool_decide (Getenv #"AGENT_VAULT_LOGS_RETENTION_LOCK" = #"true") then DefaultRetention
             else match payload with
                  | None => DefaultRetention
                  | Some (a, n) => {| rc_MaxAge := default (rc_MaxAge DefaultRetention) a; rc_MaxRowsPerVault := default (rc_MaxRowsPerVault DefaultRetention) n; rc_Tick := rc_Tick DefaultRetention |}
                  end in
  {| rc_MaxAge := default (rc_MaxAge cfg) age; rc_MaxRowsPerVault := default (rc_MaxRowsPerVault cfg) rows; rc_Tick := rc_Tick cfg |}.

(** [trimOnce], at the time [now]; the arguments say which statements succeed. *)
Definition trimOnce (delete_ok list_ok : bool) (trim_ok : bytes → bool) (now : Z) (cfg : RetentionConfig) (t : log_table) : log_table :=
  let t := if (0 <? rc_MaxAge cfg) && delete_ok then fst (DeleteOldRequestLogs (now - rc_MaxAge cfg) t) else t in
  if (0 <? rc_MaxRowsPerVault cfg) && list_ok
  then foldl (λ t v, if trim_ok v then fst (TrimRequestLogsToCap v (rc_MaxRowsPerVault cfg) t) else t) t (VaultIDsWithLogs t)
  else t.
End Store.

(** ** The log page *)

Definition logsDefaultLimit : Z := 50.
Definition logsMaxLimit : Z := 200.

(** A cursor of the query string. *)
Definition cursor_value (raw : bytes) : Z := match Atoi raw with Some v => if 0 <? v then v else 0 | None => 0 end.
Definition limit_value (raw : bytes) : Z := Z.min logsMaxLimit (match Atoi raw with Some v => if 0 <? v then v else logsDefaultLimit | None => logsDefaultLimit end).

Record log_page := { lp_Logs : list RequestLog; lp_NextCursor : option Z; lp_LatestID : Z }.

(** The part of [handleVaultLogsList] after the caller is admitted; [Get] reads
    the query.  [None]: both cursors were given. *)
Definition handleVaultLogsList (vault : bytes) (Get : bytes → bytes) (t : log_table) : option log_page :=
  let before := cursor_value (Get #"before") in
  let after := cursor_value (Get #"after") in
  if (0 <? before) && (0 <? after) then None
  else
    let limit := limit_value (Get #"limit") in
    let rows := ListRequestLogs {| lo_VaultID := Some vault; lo_Ingress := Get #"ingress"; lo_StatusBucket := Get #"status_bucket"; lo_MatchedService := Get #"service";
                                   lo_Before := before; lo_After := after; lo_Limit := limit |} t in
    let rows := if 0 <? after then rev rows else rows in
    let latest := match rows with r :: _ => rl_ID r | [] => 0 end in
    Some {| lp_Logs := rows;
            lp_NextCursor := if (after =? 0) && (Z.of_nat (length rows) =? limit) then rl_ID <$> last rows else None;
            lp_LatestID := if latest =? 0 then after else latest |}.

(** * The batching sink of request logs ([internal/requestlog/batch_sink.go])

    Handlers put records into a bounded channel or drop them; one worker takes
    them out, in batches.  [sink_step] interleaves any number of handlers, the
    worker, its ticker, the database and [Close]. *)

Record BatchSinkConfig := { bc_BufferSize : Z; bc_BatchSize : Z }.

(** [NewBatchSink]'s defaults. *)
Definition sink_config (c : BatchSinkConfig) : BatchSinkConfig :=
  {| bc_BufferSize := if bc_BufferSize c <=? 0 then 1024 else bc_BufferSize c; bc_BatchSize := if bc_BatchSize c <=? 0 then 100 else bc_BatchSize c |}.

(** Where the worker is: taking records, draining after [Close], gone. *)
Inductive worker := Running | Draining | Gone.

#[global] Instance worker_eq : EqDecision worker.
Proof. solve_decision. Defined.

Record BatchSink := {
  sk_in : list LogRecord;
  sk_batch : list LogRecord;
  sk_dropped : Z;
  sk_done : bool;
  sk_worker : worker;
}.
Definition NewBatchSink : BatchSink := {| sk_in := []; sk_batch := []; sk_dropped := 0; sk_done := false; sk_worker := Running |}.

(** What is seen of a step: a record was taken or dropped, a batch was inserted
    or lost. *)
Inductive sink_event := Accepted (r : LogRecord) | Dropped (r : LogRecord) | Committed (batch : list LogRecord) | Lost (batch : list LogRecord).

Section Sink.
Context (cfg : BatchSinkConfig).

(** [Record] *)
Definition sink_Record (r : LogRecord) (s : BatchSink) : BatchSink * sink_event :=
  if Z.of_nat (length (sk_in s)) <? bc_BufferSize cfg
  then ({| sk_in := sk_in s ++ [r]; sk_batch := sk_batch s; sk_dropped := sk_dropped s; sk_done := sk_done s; sk_worker := sk_worker s |}, Accepted r)
  else ({| sk_in := sk_in s; sk_batch := sk_batch s; sk_dropped := (sk_dropped s + 1) mod 2 ^ 64; sk_done := sk_done s; sk_worker := sk_worker s |}, Dropped r).

(** [commit]: whether or not the insert succeeds, the batch is done with. *)
Definition commit_batch (ok : bool) (batch : list LogRecord) : sink_event := if ok then Committed batch else Lost batch.

(** One record out of the channel, and the batch when it is full. *)
Definition worker_take (ok : bool) (s : BatchSink) : option (BatchSink * list sink_event) :=
  match sk_in s with
  | [] => None
  | r :: rest =>
      let batch := sk_batch s ++ [r] in
      let full := bc_BatchSize cfg <=? Z.of_nat (length batch) in
      Some ({| sk_in := rest; sk_batch := if full then [] else batch; sk_dropped := sk_dropped s; sk_done := sk_done s; sk_worker := sk_worker s |},
            if full then [commit_batch ok batch] else [])
  end.

(** [flush] *)
Definition worker_flush (ok : bool) (s : BatchSink) : BatchSink * list sink_event :=
  ({| sk_in := sk_in s; sk_batch := []; sk_dropped := sk_dropped s; sk_done := sk_done s; sk_worker := sk_worker s |},
   if bool_decide (sk_batch s = []) then [] else [commit_batch ok (sk_batch s)]).

Definition with_worker (w : worker) (s : BatchSink) : BatchSink :=
  {| sk_in := sk_in s; sk_batch := sk_batch s; sk_dropped := sk_dropped s; sk_done := sk_done s; sk_worker := w |}.

(** [Close] *)
Definition sink_Close (s : BatchSink) : BatchSink :=
  {| sk_in := sk_in s; sk_batch := sk_batch s; sk_dropped := sk_dropped s; sk_done := true; sk_worker := sk_worker s |}.

(** The steps of the worker itself. *)
Inductive worker_step (s : BatchSink) : list sink_event → BatchSink → Prop :=
| ws_take ok s' ev : sk_worker s ≠ Gone → worker_take ok s = Some (s', ev) → worker_step s ev s'
| ws_done : sk_worker s = Running → sk_done s = true → worker_step s [] (with_worker Draining s)
| ws_stop ok s' ev : sk_worker s = Draining → sk_in s = [] → worker_flush ok s = (s', ev) → worker_step s ev (with_worker Gone s').

Inductive sink_step (s : BatchSink) : list sink_event → BatchSink → Prop :=
| ss_record r s' ev : sink_Record r s = (s', ev) → sink_step s [ev] s'
| ss_tick ok s' ev : sk_worker s = Running → worker_flush ok s = (s', ev) → sink_step s ev s'
| ss_worker ev s' : worker_step s ev s' → sink_step s ev s'
| ss_close : sink_step s [] (sink_Close s).

Inductive sink_run : list sink_event → BatchSink → Prop :=
| sr_new : sink_run [] NewBatchSink
| sr_step l s ev s' : sink_run l s → sink_step s ev s' → sink_run (l ++ ev) s'.

(** ** Every record is accounted for *)

Definition accepted_of (e : sink_event) : list LogRecord := match e with Accepted r => [r] | _ => [] end.
Definition batch_of (e : sink_event) : list LogRecord := match e with Committed b | Lost b => b | _ => [] end.
Definition dropped_of (e : sink_event) : Z := match e with Dropped _ => 1 | _ => 0 end.
Definition accepted (l : list sink_event) : list LogRecord := flat_map accepted_of l.
Definition batched (l : list sink_event) : list LogRecord := flat_map batch_of l.
Definition dropped (l : list sink_event) : Z := foldr (λ e n, dropped_of e + n) 0 l.

Lemma dropped_app l1 l2 : dropped (l1 ++ l2) = dropped l1 + dropped l2.
Proof using Type. unfold dropped. induction l1 as [|e l1 IH]; [done|]. cbn [app foldr]. rewrite IH. lia. Qed.

Record accounted (l : list sink_event) (s : BatchSink) : Prop := {
  ac_order : accepted l = batched l ++ sk_batch s ++ sk_in s;
  ac_dropped : sk_dropped s = dropped l mod 2 ^ 64;
  ac_buffer : Z.of_nat (length (sk_in s)) <= bc_BufferSize cfg;
  ac_batch : Z.of_nat (length (sk_batch s)) < bc_BatchSize cfg;
  ac_batches : ∀ b, Committed b ∈ l ∨ Lost b ∈ l → b ≠ [] ∧ Z.of_nat (length b) <= bc_BatchSize cfg;
  ac_gone : sk_worker s = Gone → sk_batch s = [];
}.

Hypothesis positive : 0 < bc_BufferSize cfg ∧ 0 < bc_BatchSize cfg.

Lemma commit_batch_in ok batch b : Committed b ∈ [commit_batch ok batch] ∨ Lost b ∈ [commit_batch ok batch] → b = batch.
Proof using Type. destruct ok; cbn; rewrite !list_elem_of_singleton; by intros [[=]|[=]]. Qed.

Lemma flush_accounted l s ok s' ev : accounted l s → worker_flush ok s = (s', ev) → accounted (l ++ ev) s' ∧ sk_batch s' = [] ∧ sk_worker s' = sk_worker s.
Proof using positive.
  intros [Ho Hd Hb Hbt Hbs Hg] [= <- <-]. split; [|done]. case_bool_decide as E; cbn [sk_in sk_batch sk_dropped sk_worker].
  - rewrite app_nil_r. split; cbn [sk_in sk_batch sk_dropped sk_worker length]; try done; [by rewrite Ho, E|lia].
  - split; cbn [sk_in sk_batch sk_dropped sk_worker length]; try done; try lia.
    + unfold accepted, batched in *. rewrite !flat_map_app. cbn [flat_map]. rewrite Ho. destruct ok; cbn; by rewrite !app_nil_r, <- app_assoc.
    + rewrite dropped_app. destruct ok; cbn; by rewrite Z.add_0_r.
    + intros b. rewrite !elem_of_app. intros H. assert (Hcase : (Committed b ∈ l ∨ Lost b ∈ l) ∨ b = sk_batch s).
      { destruct H as [[H | H] | [H | H]]; [by left; left|right; apply (commit_batch_in ok); by left|by left; right|right; apply (commit_batch_in ok); by right]. }
      destruct Hcase as [Hcase| ->]; [by apply Hbs|]. split; [done|lia].
Qed.

Lemma take_accounted l s ok s' ev : accounted l s → sk_worker s ≠ Gone → worker_take ok s = Some (s', ev) → accounted (l ++ ev) s'.
Proof using positive.
  intros [Ho Hd Hb Hbt Hbs Hg] Hw. unfold worker_take. destruct (sk_in s) as [|r rest] eqn:Ein; [done|]. intros [= <- <-].
  destruct (bc_BatchSize cfg <=? _) eqn:Ef.
  - split; cbn [sk_in sk_batch sk_dropped sk_worker length]; try done; try lia.
    + unfold accepted, batched in *. rewrite !flat_map_app. cbn [flat_map]. rewrite Ho. destruct ok; cbn; by rewrite !app_nil_r, <- !app_assoc.
    + rewrite dropped_app. destruct ok; cbn; by rewrite Z.add_0_r.
    + cbn [length] in Hb. lia.
    + intros b. rewrite !elem_of_app. intros H. assert (Hcase : (Committed b ∈ l ∨ Lost b ∈ l) ∨ b = sk_batch s ++ [r]).
      { destruct H as [[H | H] | [H | H]]; [by left; left|right; apply (commit_batch_in ok); by left|by left; right|right; apply (commit_batch_in ok); by right]. }
      destruct Hcase as [Hcase| ->]; [by apply Hbs|]. split; [by destruct (sk_batch s)|]. rewrite length_app. cbn. lia.
  - apply Z.leb_gt in Ef. rewrite app_nil_r. split; cbn [sk_in sk_batch sk_dropped sk_worker]; try done.
    + rewrite Ho. by rewrite <- !app_assoc.
    + cbn [length] in Hb. lia.
Qed.

(** Under every interleaving of handlers, worker and ticker, each record a
    handler offers is dropped and counted, or accepted; the batches tried so far,
    the batch being collected and the channel are, in this order, the accepted
    records, none twice and none missing; batches are never empty nor longer than
    configured, the channel holds no more than its size, and a worker that is gone
    has left nothing in its batch. *)
Theorem records_accounted l s : sink_run l s → accounted l s.
Proof using positive.
  induction 1 as [|l s ev s' Hrun IH Hstep]; [split; cbn; try done; try lia; intros b [H|H]; by apply elem_of_nil in H|].
  destruct Hstep as [r s' ev E|ok s' ev Hw E|ev s' Hs|].
  - destruct IH as [Ho Hd Hb Hbt Hbs Hg]. unfold sink_Record in E. destruct (_ <? _) eqn:El; injection E as <- <-.
    + apply Z.ltb_lt in El. split; cbn [sk_in sk_batch sk_dropped sk_worker]; try done.
      * unfold accepted, batched in *. rewrite !flat_map_app, Ho. cbn. by rewrite app_nil_r, <- !app_assoc.
      * rewrite dropped_app. cbn. by rewrite Z.add_0_r.
      * rewrite length_app. cbn. lia.
      * intros b. rewrite !elem_of_app, !list_elem_of_singleton. intros [[H|[=]]|[H|[=]]]; apply Hbs; auto.
    + split; cbn [sk_in sk_batch sk_dropped sk_worker]; try done.
      * unfold accepted, batched in *. rewrite !flat_map_app, Ho. cbn. by rewrite !app_nil_r.
      * rewrite dropped_app, Hd. cbn. by rewrite Zplus_mod_idemp_l.
      * intros b. rewrite !elem_of_app, !list_elem_of_singleton. intros [[H|[=]]|[H|[=]]]; apply Hbs; auto.
  - by destruct (flush_accounted _ _ _ _ _ IH E).
  - destruct Hs as [ok s' ev Hw E|Hw Hd|ok s' ev Hw Hi E].
    + by eapply take_accounted.
    + rewrite app_nil_r. destruct IH as [Ho Hd' Hb Hbt Hbs Hg]. split; try done.
    + destruct (flush_accounted _ _ _ _ _ IH E) as ([Ho Hd Hb Hbt Hbs Hg] & Hnil & _). by split.
  - rewrite app_nil_r. destruct IH as [Ho Hd' Hb Hbt Hbs Hg]. by split.
Qed.

(** ** Closing *)

(** Steps left for a worker that nobody feeds any more. *)
Definition worker_measure (s : BatchSink) : nat := (length (sk_in s) + match sk_worker s with Running => 2 | Draining => 1 | Gone => 0 end)%nat.

Lemma worker_progress s : sk_done s = true → sk_worker s ≠ Gone → ∃ ev s', worker_step s ev s'.
Proof using Type.
  intros Hd Hw. destruct (sk_worker s) eqn:E; [| |done].
  - eexists _, _. by apply ws_done.
  - destruct (sk_in s) as [|r rest] eqn:Ei.
    + eexists _, _. by apply (ws_stop s true).
    + eexists _, _. apply (ws_take s true); [congruence|]. unfold worker_take. rewrite Ei. reflexivity.
Qed.

Lemma worker_measure_drops s ev s' : worker_step s ev s' → (worker_measure s' < worker_measure s)%nat ∧ sk_done s' = sk_done s.
Proof using Type.
  unfold worker_measure. intros [ok s2 ev2 Hw E|Hw Hd|ok s2 ev2 Hw Hi E].
  - unfold worker_take in E. destruct (sk_in s) as [|r rest] eqn:Ei; [done|]. injection E as <- <-. cbn. split; [lia|done].
  - cbn. rewrite Hw. split; [lia|done].
  - injection E as <- <-. cbn. rewrite Hi, Hw. cbn. split; [lia|done].
Qed.

(** Once [Close] was called and nobody offers records, the worker stops after at
    most [worker_measure] steps. *)
Inductive worker_run : nat → BatchSink → BatchSink → Prop :=
| wr_nil s : worker_run 0 s s
| wr_step n s ev s' s'' : worker_step s ev s' → worker_run n s' s'' → worker_run (S n) s s''.

Lemma close_drains s : sk_done s = true →
  (∀ n s', worker_run n s s' → (n <= worker_measure s)%nat) ∧ ∃ n s', worker_run n s s' ∧ sk_worker s' = Gone.
Proof using Type.
  intros Hd. split.
  - intros n s' H. induction H as [|n s ev s' s'' Hs H IH]; [lia|]. apply worker_measure_drops in Hs as [Hm Hd']. specialize (IH ltac:(congruence)). lia.
  - remember (worker_measure s) as m eqn:E. revert s E Hd. induction (lt_wf m) as [m _ IH]. intros s -> Hd.
    destruct (decide (sk_worker s = Gone)) as [|Hw]; [exists 0%nat, s; split; [constructor|done]|].
    destruct (worker_progress s Hd Hw) as (ev & s' & Hs). destruct (worker_measure_drops _ _ _ Hs) as [Hm Hd'].
    destruct (IH _ Hm s' eq_refl ltac:(congruence)) as (n & s'' & Hr & Hg). exists (S n), s''. split; [by econstructor|done].
Qed.
End Sink.

(** ** One run *)

Module SinkDemo.
Definition sample_config : BatchSinkConfig := {| bc_BufferSize := 1; bc_BatchSize := 2 |}.
Definition sample_record (path : bytes) : LogRecord :=
  {| lr_VaultID := #"v"; lr_ActorType := []; lr_ActorID := []; lr_Ingress := #"mitm"; lr_Method := #"GET"; lr_Host := []; lr_Path := path; lr_MatchedService := []; lr_MatchedHost := [];
     lr_MatchedPath := []; lr_MatchedPort := None; lr_CredentialKeys := []; lr_Status := 0; lr_LatencyMs := 0; lr_ErrorCode := []; lr_AuthScheme := []; lr_AuthHeader := [] |}.
Definition sample_sink : BatchSink := {| sk_in := []; sk_batch := [sample_record #"/1"]; sk_dropped := 1; sk_done := false; sk_worker := Running |}.

(** One sample_record is taken, one finds the channel full. *)
Lemma sample_run : sink_run sample_config [Accepted (sample_record #"/1"); Dropped (sample_record #"/2")] sample_sink.
Proof.
  change [Accepted (sample_record #"/1"); Dropped (sample_record #"/2")] with (([] ++ [Accepted (sample_record #"/1")]) ++ [Dropped (sample_record #"/2")]) at 1.
  rewrite <- (app_nil_r (([] ++ _) ++ _)). eapply sr_step; [eapply sr_step; [eapply sr_step; [apply sr_new|]|]|].
  - by apply (ss_record _ _ (sample_record #"/1")).
  - by apply (ss_record _ _ (sample_record #"/2")).
  - apply ss_worker, (ws_take _ _ true); done.
Qed.

Lemma records_accounted_witness : accepted [Accepted (sample_record #"/1"); Dropped (sample_record #"/2")] = [sample_record #"/1"] ∧ sk_dropped sample_sink = 1 mod 2 ^ 64.
Proof.
  destruct (records_accounted sample_config ltac:(done) _ _ sample_run) as [Ho Hd _ _ _ _]. split; [exact Ho|exact Hd].
Defined.
End SinkDemo.
