(* ===== verification/RequestLogTheorems.v ===== *)
(** * Reading and trimming the request log

    The rows of a table have increasing ids.  Trimming keeps the newest rows of a
    vault; a client that follows the cursors of the log page sees every row
    once. *)

From S2P Require Import Prelude GoString GoStrconv RequestLogs.
From Stdlib Require Import Sorted.

Definition id_lt (r s : RequestLog) : Prop := rl_ID r < rl_ID s.

(** Ids are positive, increase, and are not reused. *)
Definition table_ok (t : log_table) : Prop := StronglySorted id_lt (lt_Rows t) ∧ Forall (λ r, 0 < rl_ID r <= lt_Seq t) (lt_Rows t).

Lemma id_sorted_filter f l : StronglySorted id_lt l → StronglySorted id_lt (List.filter f l).
Proof.
  induction 1 as [|r l Hs IH Hr]; [constructor|]. cbn. destruct (f r); [|done]. constructor; [done|].
  rewrite Forall_forall in Hr |- *. intros s [Hs' _]%elem_of_lfilter. by apply Hr.
Qed.

Lemma Forall_lfilter {A} (P : A → Prop) f l : Forall P l → Forall P (List.filter f l).
Proof. rewrite !Forall_forall. intros H x [Hx _]%elem_of_lfilter. by apply H. Qed.

Lemma sorted_app l1 l2 : StronglySorted id_lt (l1 ++ l2) ↔ StronglySorted id_lt l1 ∧ StronglySorted id_lt l2 ∧ ∀ r s, r ∈ l1 → s ∈ l2 → id_lt r s.
Proof.
  induction l1 as [|x l1 IH]; cbn [app].
  - split; [intros H; split; [constructor|]; split; [done|]; intros r s Hr; by apply elem_of_nil in Hr|by intros (_ & H & _)].
  - split.
    + intros H. apply StronglySorted_inv in H as [H Hx]. apply IH in H as (H1 & H2 & H3). rewrite Forall_forall in Hx. split; [|split; [done|]].
      * constructor; [done|]. apply Forall_forall. intros y Hy. apply Hx, elem_of_app. by left.
      * intros r s Hr Hs. apply elem_of_cons in Hr as [->|Hr]; [apply Hx, elem_of_app; by right|by apply H3].
    + intros (H1 & H2 & H3). apply StronglySorted_inv in H1 as [H1 Hx]. constructor.
      * apply IH. split; [done|]. split; [done|]. intros r s Hr Hs. apply H3; [by apply elem_of_cons; right|done].
      * apply Forall_forall. intros y Hy. apply elem_of_app in Hy as [Hy|Hy]; [rewrite Forall_forall in Hx; by apply Hx|]. apply H3; [apply list_elem_of_here|done].
Qed.

Lemma lfilter_all_or {A} (f : A → bool) l : (∀ x, x ∈ l → f x = true) → List.filter f l = l.
Proof. induction l as [|x l IH]; intros H; [done|]. cbn. rewrite H by apply list_elem_of_here. f_equal. apply IH. intros y Hy. apply H. by apply elem_of_cons; right. Qed.
Lemma lfilter_no_member {A} (f : A → bool) l : (∀ x, x ∈ l → f x = false) → List.filter f l = [].
Proof. induction l as [|x l IH]; intros H; [done|]. cbn. rewrite H by apply list_elem_of_here. apply IH. intros y Hy. apply H. by apply elem_of_cons; right. Qed.


Lemma rev_lookup {A} (l : list A) i x : rev l !! i = Some x → l !! (length l - S i)%nat = Some x.
Proof.
  intros H. assert (Hi : (i < length l)%nat) by (apply lookup_lt_Some in H; by rewrite length_rev in H).
  replace (rev l) with (reverse l) in H by (unfold reverse; by rewrite rev_alt). by rewrite reverse_lookup in H.
Qed.

(** ** The table stays in order *)

Section Tables.
Context (unit : Z) (vault_exists : bytes → bool).

Lemma numbered_ids now rows : ∀ seq, StronglySorted id_lt (numbered unit seq now rows) ∧
  Forall (λ r, seq < rl_ID r <= seq + Z.of_nat (length rows)) (numbered unit seq now rows).
Proof using Type.
  induction rows as [|r rows IH]; intros seq; [split; constructor|]. cbn [numbered length]. destruct (IH (seq + 1)) as [H1 H2]. split.
  - constructor; [done|]. eapply Forall_impl; [exact H2|]. intros s Hs. unfold id_lt. change (rl_ID (stored_row unit (seq + 1) now r)) with (seq + 1). cbv beta in Hs. lia.
  - constructor; [change (rl_ID (stored_row unit (seq + 1) now r)) with (seq + 1); lia|]. eapply Forall_impl; [exact H2|]. intros s Hs. cbv beta in Hs. lia.
Qed.

Lemma Insert_ok ok now rows t : 0 <= lt_Seq t → table_ok t → table_ok (fst (InsertRequestLogs unit vault_exists ok now rows t)).
Proof using Type.
  intros H0 [Hs Hb]. unfold InsertRequestLogs. destruct (bool_decide _); [done|]. destruct (_ || _); [done|]. cbn.
  destruct (numbered_ids now rows (lt_Seq t)) as [Hs' Hb']. split; cbn [lt_Rows lt_Seq].
  - apply sorted_app. split; [done|]. split; [done|]. rewrite Forall_forall in Hb, Hb'. intros r s Hr Hs2. specialize (Hb _ Hr). specialize (Hb' _ Hs2). unfold id_lt. lia.
  - apply Forall_app. split; (eapply Forall_impl; [eassumption|]); intros s Hx; cbv beta in Hx; lia.
Qed.

Lemma with_rows_ok f t : table_ok t → table_ok (with_rows t (List.filter f (lt_Rows t))).
Proof using Type. intros [Hs Hb]. split; cbn; [by apply id_sorted_filter|by apply Forall_lfilter]. Qed.

Lemma Delete_ok before t : table_ok t → table_ok (fst (DeleteOldRequestLogs unit before t)).
Proof using Type. apply with_rows_ok. Qed.

Lemma Trim_ok v cap t : table_ok t → table_ok (fst (TrimRequestLogsToCap v cap t)).
Proof using Type.
  intros H. unfold TrimRequestLogsToCap. destruct (_ <=? 0); [done|]. destruct (_ <=? cap); [done|]. cbn.
  destruct (_ !! _); [by apply with_rows_ok|]. by destruct t.
Qed.

(** ** Trimming *)

(** The rows of a sorted list up to the one at [i], and those after it. *)
Lemma filter_above l i c : StronglySorted id_lt l → l !! i = Some c → List.filter (λ r, negb (rl_ID r <=? rl_ID c)) l = drop (S i) l.
Proof using Type.
  intros Hs Hc. rewrite <- (take_drop (S i) l) at 1. rewrite <- (take_drop (S i) l) in Hs. apply sorted_app in Hs as (H1 & H2 & H3).
  rewrite (take_S_r l i c Hc) in H1, H3 |- *. apply sorted_app in H1 as (_ & _ & H1). rewrite List.filter_app.
  rewrite (lfilter_no_member _ (take i l ++ [c])), (lfilter_all_or _ (drop (S i) l)); [done| |].
  - intros x Hx. apply negb_true_iff, Z.leb_gt. apply (H3 c x); [apply elem_of_app; right; apply list_elem_of_here|done].
  - intros x Hx. apply negb_false_iff, Z.leb_le. apply elem_of_app in Hx as [Hx|Hx%list_elem_of_singleton]; [|by subst].
    apply Z.lt_le_incl. apply (H1 x c); [done|apply list_elem_of_here].
Qed.

(** After a trim a vault has its newest [cap] rows, or all if it has no more,
    and every other vault has what it had. *)
Theorem trim_keeps_newest v cap t : table_ok t → 0 < cap →
  vault_rows v (lt_Rows (fst (TrimRequestLogsToCap v cap t))) = drop (length (vault_rows v (lt_Rows t)) - Z.to_nat cap) (vault_rows v (lt_Rows t)) ∧
  ∀ u, u ≠ v → vault_rows u (lt_Rows (fst (TrimRequestLogsToCap v cap t))) = vault_rows u (lt_Rows t).
Proof using Type.
  intros [Hs _] Hcap. unfold TrimRequestLogsToCap. replace (cap <=? 0) with false by (symmetry; apply Z.leb_gt; lia).
  set (L := vault_rows v (lt_Rows t)). destruct (Z.of_nat (length L) <=? cap) eqn:El; cbn [fst].
  - apply Z.leb_le in El. fold L. replace (length L - Z.to_nat cap)%nat with 0%nat by lia. by rewrite drop_0.
  - apply Z.leb_gt in El. destruct (rev L !! Z.to_nat cap) as [c|] eqn:Ec.
    2: { apply lookup_ge_None in Ec. rewrite length_rev in Ec. lia. }
    cbn [with_rows lt_Rows]. split.
    + unfold vault_rows. rewrite lfilter_filter.
      rewrite (List.filter_ext _ (λ r, bool_decide (rl_VaultID r = v) && negb (rl_ID r <=? rl_ID c))).
      2: { intros r. case_bool_decide; cbn; by rewrite ?andb_true_r, ?andb_false_r. }
      rewrite <- lfilter_filter. fold L. fold (vault_rows v (lt_Rows t)). fold L.
      assert (Hc : L !! (length L - S (Z.to_nat cap))%nat = Some c).
      { by apply rev_lookup. }
      rewrite (filter_above L (length L - S (Z.to_nat cap)) c); [f_equal; lia|by apply id_sorted_filter|done].
    + intros u Hu. unfold vault_rows. rewrite lfilter_filter. apply List.filter_ext. intros r. destruct (decide (rl_VaultID r = u)) as [E|E].
      * by rewrite (bool_decide_false (rl_VaultID r = v)) by congruence.
      * by rewrite (bool_decide_false (rl_VaultID r = u)), andb_false_r.
Qed.
End Tables.

(** ** The log page *)

(** A query with one member set. *)
Definition query (base : bytes → bytes) (name v : bytes) : bytes → bytes := λ k, if bool_decide (k = name) then v else base k.

(** The rows a vault's page can show, oldest first. *)
Definition page_options (vault : bytes) (Get : bytes → bytes) : ListRequestLogsOpts :=
  {| lo_VaultID := Some vault; lo_Ingress := Get #"ingress"; lo_StatusBucket := Get #"status_bucket"; lo_MatchedService := Get #"service";
     lo_Before := cursor_value (Get #"before"); lo_After := cursor_value (Get #"after"); lo_Limit := limit_value (Get #"limit") |}.
Definition shown (vault : bytes) (Get : bytes → bytes) (t : log_table) : list RequestLog := List.filter (matches_filter (page_options vault Get)) (lt_Rows t).

(** A client that goes back through history: [None] is its first page. *)
Fixpoint history (fuel : nat) (vault : bytes) (base : bytes → bytes) (cursor : option Z) (t : log_table) : list RequestLog :=
  match fuel with
  | O => []
  | S fuel =>
      match handleVaultLogsList vault (match cursor with Some c => query base #"before" (Itoa c) | None => base end) t with
      | None => []
      | Some p => lp_Logs p ++ match lp_NextCursor p with Some c => history fuel vault base (Some c) t | None => [] end
      end
  end.

Section Pages.
Context (vault : bytes) (base : bytes → bytes) (t : log_table).
Hypothesis plain : base #"before" = [] ∧ base #"after" = [].
Hypothesis sound : table_ok t.
Hypothesis small : lt_Seq t <= max_int64.

Lemma limit_pos raw : 1 <= limit_value raw.
Proof using Type. unfold limit_value, logsMaxLimit, logsDefaultLimit. destruct (Atoi raw) as [v|]; [|done]. destruct (0 <? v) eqn:E; [apply Z.ltb_lt in E; lia|done]. Qed.

Lemma cursor_of c : 0 < c <= max_int64 → cursor_value (Itoa c) = c.
Proof using Type.
  intros Hc. unfold cursor_value. rewrite Atoi_Itoa; [by replace (0 <? c) with true by (symmetry; apply Z.ltb_lt; lia)|].
  unfold in_int64, in_range, min_int64, max_int64 in *. apply andb_true_intro. split; apply Z.leb_le; lia.
Qed.

(** Two filters that differ in the window only. *)
Lemma matches_same o o' r : lo_VaultID o = lo_VaultID o' → lo_Ingress o = lo_Ingress o' → lo_StatusBucket o = lo_StatusBucket o' → lo_MatchedService o = lo_MatchedService o' →
  matches_filter o r = matches_filter o' r.
Proof using Type. unfold matches_filter. by intros -> -> -> ->. Qed.

(** The page below a cursor. *)
Definition below (cursor : option Z) (r : RequestLog) : bool := match cursor with Some c => rl_ID r <? c | None => true end.

Definition page_size : nat := Z.to_nat (limit_value (base #"limit")).

Lemma page_below cursor : (∀ c, cursor = Some c → 0 < c <= max_int64) →
  let rows := map listed_row (take page_size (rev (List.filter (below cursor) (shown vault base t)))) in
  ∃ p, handleVaultLogsList vault (match cursor with Some c => query base #"before" (Itoa c) | None => base end) t = Some p ∧
    lp_Logs p = rows ∧ lp_NextCursor p = if bool_decide (length rows = page_size) then rl_ID <$> last rows else None.
Proof using plain.
  intros Hc rows. destruct plain as [Hb Ha]. set (Get := match cursor with Some c => query base #"before" (Itoa c) | None => base end).
  assert (Hsame : ∀ k, k ≠ #"before" → Get k = base k). { intros k Hk. unfold Get, query. destruct cursor; [by rewrite bool_decide_false|done]. }
  assert (Hbefore : cursor_value (Get #"before") = default 0 cursor).
  { unfold Get, query. destruct cursor as [c|]; [rewrite bool_decide_true by done; by apply cursor_of, Hc|by rewrite Hb]. }
  assert (Hafter : cursor_value (Get #"after") = 0) by (rewrite Hsame by done; by rewrite Ha).
  unfold handleVaultLogsList. rewrite Hafter, andb_false_r. change (0 <? 0) with false. change (0 =? 0) with true. cbn [andb].
  eexists. split; [reflexivity|]. cbn [lp_Logs lp_NextCursor]. rewrite (Hsame #"ingress"), (Hsame #"status_bucket"), (Hsame #"service"), (Hsame #"limit") by done.
  assert (Hrows : ListRequestLogs {| lo_VaultID := Some vault; lo_Ingress := base #"ingress"; lo_StatusBucket := base #"status_bucket"; lo_MatchedService := base #"service";
    lo_Before := cursor_value (Get #"before"); lo_After := 0; lo_Limit := limit_value (base #"limit") |} t = rows).
  { unfold ListRequestLogs, rows, page_size, page_limit. cbn [lo_After lo_Limit]. change (0 <? 0) with false. cbn iota.
    pose proof (limit_pos (base #"limit")) as Hl. replace (limit_value (base #"limit") <=? 0) with false by (symmetry; apply Z.leb_gt; lia).
    do 3 f_equal. unfold shown. rewrite lfilter_filter. apply List.filter_ext. intros r. f_equal. unfold in_window, below. cbn [lo_Before lo_After]. rewrite Hbefore.
    destruct cursor as [c|]; cbn; [|done]. replace (0 <? c) with true by (symmetry; apply Z.ltb_lt; destruct (Hc c eq_refl); lia). by rewrite andb_true_r. }
  rewrite Hrows. split; [done|]. unfold page_size. pose proof (limit_pos (base #"limit")) as Hl.
  destruct (decide (length rows = Z.to_nat (limit_value (base #"limit")))) as [E|E].
  - rewrite bool_decide_true by done. by replace (_ =? _) with true by (symmetry; apply Z.eqb_eq; lia).
  - rewrite bool_decide_false by done. by replace (_ =? _) with false by (symmetry; apply Z.eqb_neq; lia).
Qed.

Lemma filter_below l i c : StronglySorted id_lt l → l !! i = Some c → List.filter (λ r, rl_ID r <? rl_ID c) l = take i l.
Proof using Type.
  intros Hs Hc. rewrite <- (take_drop i l) at 1. rewrite <- (take_drop i l) in Hs. apply sorted_app in Hs as (H1 & H2 & H3).
  rewrite (drop_S l c i Hc) in H2, H3 |- *. apply StronglySorted_inv in H2 as [H2 Hx]. rewrite List.filter_app.
  rewrite (lfilter_no_member _ (c :: drop (S i) l)), (lfilter_all_or _ (take i l)); [by rewrite app_nil_r| |].
  - intros x Hx'. apply Z.ltb_lt. apply (H3 x c); [done|apply list_elem_of_here].
  - intros x Hx'. apply Z.ltb_ge. apply elem_of_cons in Hx' as [->|Hx']; [done|]. rewrite Forall_forall in Hx. specialize (Hx _ Hx'). unfold id_lt in Hx. lia.
Qed.

Lemma history_below fuel : ∀ cursor, (∀ c, cursor = Some c → 0 < c <= max_int64) →
  (length (List.filter (below cursor) (shown vault base t)) < fuel)%nat →
  history fuel vault base cursor t = map listed_row (rev (List.filter (below cursor) (shown vault base t))).
Proof using plain sound small.
  induction fuel as [|fuel IH]; intros cursor Hc Hf; [lia|]. cbn [history]. set (L := List.filter (below cursor) (shown vault base t)) in *.
  destruct (page_below cursor Hc) as (p & -> & -> & ->). fold L. pose proof (limit_pos (base #"limit")) as Hl.
  assert (Hn : (1 <= page_size)%nat) by (unfold page_size; lia). destruct sound as [Hs Hb].
  assert (HsL : StronglySorted id_lt L) by (by do 2 apply id_sorted_filter).
  rewrite length_map, length_take, length_rev. case_bool_decide as E.
  - assert (Hlen : (page_size <= length L)%nat) by lia.
    destruct (lookup_lt_is_Some_2 L (length L - page_size)) as [c Hcl]; [lia|].
    assert (Hlast : last (map listed_row (take page_size (rev L))) = Some (listed_row c)).
    { rewrite last_lookup, length_map, length_take, length_rev. rewrite list_lookup_fmap, lookup_take_lt by lia.
      replace (rev L) with (reverse L) by (unfold reverse; by rewrite rev_alt). rewrite reverse_lookup by lia.
      replace (length L - S (pred (page_size `min` length L)))%nat with (length L - page_size)%nat by lia. by rewrite Hcl. }
    rewrite Hlast. cbn [fmap option_fmap option_map]. change (rl_ID (listed_row c)) with (rl_ID c).
    assert (HcL : c ∈ L) by (by eapply list_elem_of_lookup_2). assert (Hcin : 0 < rl_ID c <= lt_Seq t ∧ below cursor c = true).
    { apply elem_of_lfilter in HcL as [HcL Hbc]. apply elem_of_lfilter in HcL as [HcL _]. rewrite Forall_forall in Hb. split; [by apply Hb|done]. }
    assert (Hnext : List.filter (below (Some (rl_ID c))) (shown vault base t) = take (length L - page_size) L).
    { rewrite <- (filter_below L _ c HsL Hcl). unfold L. rewrite lfilter_filter. apply List.filter_ext. intros r. unfold below at 1.
      destruct (rl_ID r <? rl_ID c) eqn:Er; [|by rewrite andb_false_r]. rewrite andb_true_r. apply Z.ltb_lt in Er. destruct cursor as [b|]; [|done]. cbn in *. symmetry. apply Z.ltb_lt.
      destruct Hcin as [_ Hcin]. apply Z.ltb_lt in Hcin. lia. }
    rewrite IH.
    + rewrite Hnext, <- List.skipn_rev, <- map_app. f_equal. apply take_drop.
    + intros c' [= <-]. destruct Hcin as [[? ?] _]. lia.
    + rewrite Hnext, length_take. lia.
  - rewrite app_nil_r. f_equal. apply take_ge. rewrite length_rev. lia.
Qed.

(** ** Tailing *)

(** What a poll with a cursor returns, whatever its page size. *)
Lemma tail_rows c : 0 < c <= max_int64 →
  ∃ p, handleVaultLogsList vault (query base #"after" (Itoa c)) t = Some p ∧
    let new := List.filter (λ r, c <? rl_ID r) (shown vault base t) in
    lp_Logs p = rev (map listed_row (take page_size new)) ∧ lp_LatestID p = match last (take page_size new) with Some r => rl_ID r | None => c end.
Proof using plain sound.
  intros Hc. destruct plain as [Hb Ha]. set (Get := query base #"after" (Itoa c)).
  assert (Hsame : ∀ k, k ≠ #"after" → Get k = base k) by (intros k Hk; unfold Get, query; by rewrite bool_decide_false).
  assert (Hafter : cursor_value (Get #"after") = c) by (unfold Get, query; rewrite bool_decide_true by done; by apply cursor_of).
  assert (Hbefore : cursor_value (Get #"before") = 0) by (rewrite Hsame by done; by rewrite Hb).
  assert (Hpos : 0 <? c = true) by (apply Z.ltb_lt; lia).
  unfold handleVaultLogsList. rewrite Hafter, Hbefore, Hpos. change (0 <? 0) with false. cbn [andb].
  eexists. split; [reflexivity|]. cbn [lp_Logs lp_LatestID]. rewrite (Hsame #"ingress"), (Hsame #"status_bucket"), (Hsame #"service"), (Hsame #"limit") by done.
  set (new := List.filter (λ r, c <? rl_ID r) (shown vault base t)).
  assert (Hrows : ListRequestLogs {| lo_VaultID := Some vault; lo_Ingress := base #"ingress"; lo_StatusBucket := base #"status_bucket"; lo_MatchedService := base #"service";
    lo_Before := 0; lo_After := c; lo_Limit := limit_value (base #"limit") |} t = map listed_row (take page_size new)).
  { unfold ListRequestLogs, page_size, page_limit. cbn [lo_After lo_Limit]. rewrite Hpos. pose proof (limit_pos (base #"limit")) as Hl.
    replace (limit_value (base #"limit") <=? 0) with false by (symmetry; apply Z.leb_gt; lia). do 2 f_equal. unfold new, shown. rewrite lfilter_filter.
    apply List.filter_ext. intros r. f_equal. unfold in_window. cbn [lo_Before lo_After]. by rewrite Hpos. }
  rewrite Hrows. split; [done|]. destruct (last (take page_size new)) as [r|] eqn:El.
  - apply last_Some in El as [l El]. rewrite El, map_app, List.rev_app_distr. cbn. assert (Hr : r ∈ lt_Rows t).
    { assert (Hr : r ∈ take page_size new) by (rewrite El; apply elem_of_app; right; apply list_elem_of_here). apply (subseteq_take page_size new) in Hr || apply elem_of_take in Hr as (? & Hr & _).
      unfold new, shown in *. apply elem_of_lfilter in Hr as [Hr _]. by apply elem_of_lfilter in Hr as [Hr _]. }
    destruct sound as [_ Hbound]. rewrite Forall_forall in Hbound. specialize (Hbound _ Hr). by replace (rl_ID r =? 0) with false by (symmetry; apply Z.eqb_neq; lia).
  - apply last_None in El. rewrite El. done.
Qed.
End Pages.

(** C34: a client that starts at the newest page and follows each cursor gets
    every row of the vault that fits its filters, newest first, each once,
    whatever its page size; and it is told when there is no more. *)
Theorem history_complete vault base t : base #"before" = [] → base #"after" = [] → table_ok t → lt_Seq t <= max_int64 →
  history (S (length (lt_Rows t))) vault base None t = map listed_row (rev (shown vault base t)).
Proof.
  intros Hb Ha Hok Hs. rewrite (history_below vault base t (conj Hb Ha) Hok Hs); [|done|].
  - by rewrite lfilter_all_or by done.
  - apply Nat.lt_succ_r. unfold shown. rewrite lfilter_filter. apply List.filter_length_le.
Qed.

(** A client that polls with the last id it was given misses no row: what a poll
    returns are the rows after its cursor up to the new one. *)
Lemma tail_misses_nothing vault base t c : base #"before" = [] → base #"after" = [] → table_ok t → 0 < c <= max_int64 →
  ∃ p, handleVaultLogsList vault (query base #"after" (Itoa c)) t = Some p ∧
    ∀ r, r ∈ shown vault base t → (c < rl_ID r <= lp_LatestID p ↔ c < rl_ID r ∧ listed_row r ∈ lp_Logs p).
Proof.
  intros Hb Ha Hok Hc. destruct (tail_rows vault base t (conj Hb Ha) Hok c Hc) as (p & Hp & Hl & Hi). exists p. split; [done|].
  intros r Hr. rewrite Hl, Hi. set (new := List.filter (λ r, c <? rl_ID r) (shown vault base t)). pose proof (limit_pos (base #"limit")) as Hlim.
  assert (Hs : StronglySorted id_lt new) by (do 2 apply id_sorted_filter; apply Hok). assert (Hn : (1 <= page_size base)%nat) by (unfold page_size; lia).
  assert (Hin : c < rl_ID r → r ∈ new) by (intros H; apply elem_of_lfilter; split; [done|by apply Z.ltb_lt]).
  assert (Hids : ∀ x y, x ∈ new → y ∈ new → rl_ID x = rl_ID y → x = y).
  { intros x y Hx Hy E. apply list_elem_of_lookup in Hx as [i Hx], Hy as [j Hy]. destruct (lt_eq_lt_dec i j) as [[Hij| ->]|Hij]; [|congruence|].
    - pose proof (filter_below new j y Hs Hy) as Hf. assert (Hxt : x ∈ take j new) by (apply elem_of_take; eauto). rewrite <- Hf in Hxt. apply elem_of_lfilter in Hxt as [_ Hxt]. apply Z.ltb_lt in Hxt. lia.
    - pose proof (filter_below new i x Hs Hx) as Hf. assert (Hyt : y ∈ take i new) by (apply elem_of_take; eauto). rewrite <- Hf in Hyt. apply elem_of_lfilter in Hyt as [_ Hyt]. apply Z.ltb_lt in Hyt. lia. }
  assert (Hlisted : listed_row r ∈ rev (map listed_row (take (page_size base) new)) ↔ ∃ y, y ∈ take (page_size base) new ∧ listed_row r = listed_row y).
  { rewrite list_elem_of_In, <- in_rev, in_map_iff. split; [intros (y & E & Hy); exists y; by rewrite list_elem_of_In|intros (y & Hy & E); exists y; by rewrite <- list_elem_of_In]. }
  rewrite Hlisted. destruct (last (take (page_size base) new)) as [z|] eqn:Ez.
  - apply last_Some in Ez as [l El]. assert (Hsplit : new = l ++ z :: drop (page_size base) new) by (rewrite <- (take_drop (page_size base) new) at 1; by rewrite El, <- app_assoc).
    split.
    + intros [H1 H2]. split; [done|]. specialize (Hin H1). exists r. split; [|done]. rewrite Hsplit in Hin, Hs. apply sorted_app in Hs as (_ & Hs & _). apply StronglySorted_inv in Hs as [_ Hs].
      rewrite El. apply elem_of_app in Hin as [Hin|Hin]; [apply elem_of_app; by left|]. apply elem_of_cons in Hin as [->|Hin]; [apply elem_of_app; right; apply list_elem_of_here|].
      rewrite Forall_forall in Hs. specialize (Hs _ Hin). unfold id_lt in Hs. lia.
    + intros [H1 (y & Hy & E)]. split; [done|]. apply (f_equal rl_ID) in E. cbn in E. rewrite E. rewrite Hsplit in Hs. apply sorted_app in Hs as (_ & _ & Hs).
      rewrite El in Hy. apply elem_of_app in Hy as [Hy|Hy%list_elem_of_singleton]; [|by subst; lia]. apply Z.lt_le_incl, (Hs y z); [done|apply list_elem_of_here].
  - apply last_None in Ez. split; [lia|]. intros [H1 (y & Hy & _)]. rewrite Ez in Hy. by apply elem_of_nil in Hy.
Qed.

(** ** A table of three rows *)

Module LogDemo.
Definition log_record (vault path : bytes) : LogRecord :=
  {| lr_VaultID := vault; lr_ActorType := #"agent"; lr_ActorID := #"a1"; lr_Ingress := #"mitm"; lr_Method := #"GET"; lr_Host := #"api.vendor.com:443"; lr_Path := path;
     lr_MatchedService := #"vendor"; lr_MatchedHost := []; lr_MatchedPath := []; lr_MatchedPort := None; lr_CredentialKeys := []; lr_Status := 200; lr_LatencyMs := 3; lr_ErrorCode := [];
     lr_AuthScheme := []; lr_AuthHeader := [] |}.
Definition table : log_table :=
  fst (InsertRequestLogs Second (λ _, true) true 5 (map toStoreRow [log_record #"v" #"/1"; log_record #"u" #"/2"; log_record #"v" #"/3"; log_record #"v" #"/4"]) {| lt_Seq := 6; lt_Rows := [] |}).

Lemma demo_table_ok : table_ok table.
Proof. apply Insert_ok; [done|]. by split; constructor. Qed.

Lemma trim_keeps_newest_witness : map rl_ID (vault_rows #"v" (lt_Rows (fst (TrimRequestLogsToCap #"v" 2 table)))) = [9; 10] ∧
  vault_rows #"u" (lt_Rows (fst (TrimRequestLogsToCap #"v" 2 table))) = vault_rows #"u" (lt_Rows table).
Proof.
  destruct (trim_keeps_newest #"v" 2 table demo_table_ok eq_refl) as [H1 H2]. rewrite H1. split; [vm_compute; reflexivity|by apply H2].
Defined.

(** Pages of one row. *)
Definition ask : bytes → bytes := query (λ _, []) #"limit" #"1".
Lemma history_complete_witness : map rl_ID (history 5 #"v" ask None table) = [10; 9; 7].
Proof.
  change 5%nat with (S (length (lt_Rows table))). rewrite (history_complete #"v" ask table eq_refl eq_refl demo_table_ok); [vm_compute; reflexivity|vm_compute; discriminate].
Defined.
End LogDemo.
