(* ===== verification/MitmForward.v ===== *)
(** * Requests of vaults without the strict profile ([internal/mitm/forward.go],
      [websocket.go])

    [forwardRequest] rewrites a request for the service that matches it, sends it
    and copies the response; [forwardWebSocket] does so for an upgrade, whose
    frames [WebSocket] rewrites afterwards.  A handler gives its effects in order;
    one that waits for the upstream server ends its list there. *)

From S2P Require Import Prelude GoString GoUrl GoNet GoStrconv BrokerAuth BrokerMatch BrokerInject BrokerCore Substitute ProxySession MitmScreen MitmAdapter MitmStrict WebSocket RequestLogs.

Definition MaxMaterializeBytes : Z := Z.shiftl 64 20.

(** The response, with its announced length, -1 when there is none. *)
Record fw_response := { fr_Response : Response; fr_ContentLength : Z }.

Inductive forward_effect :=
| FwRefused (status : Z) (code : bytes)              (* an error response *)
| FwSent (out : OutRequest) (body : option bytes) (contentLength : Z)  (* no body: reading the worker's fails *)
| FwRelayed (status : Z) (h : header_list) (body : bytes)
| FwSwitched (h : Header) (subs : list ResolvedSubstitution)  (* the tunnel of an upgrade *)
| FwLogged (r : LogRecord)
| FwAborted.

Record forward_surroundings := {
  fw_EnforceProxy : bytes → bytes → option bytes;     (* the code of a denial *)
  fw_Inject : nat → bytes → bytes → Z → bytes → option InjectResult * option chain;  (* the first and the second time *)
  fw_NewRequest : bytes → target_url → bool;
  fw_ParseMediaType : bytes → bytes;
  fw_RoundTrip : nat → OutRequest → option fw_response;
  fw_Hijacks : bool;
  fw_Switches : bool;                                 (* the answer reaches the client *)
  fw_maxRequestBytes : Z;
  fw_maxResponseBytes : Z;
  fw_LatencyMs : Z;
}.

(** ** The log record *)

Definition knownAPIKeyHeaders : list bytes := [ #"X-Api-Key"; #"Api-Key"].

Definition detectAuthFromHeaders (h : header_list) : bytes * bytes :=
  let auth := header_Get h #"Authorization" in
  if negb (bool_decide (auth = [])) then
    if HasPrefix auth #"Bearer " || HasPrefix auth #"bearer " then (#"bearer", #"Authorization")
    else if HasPrefix auth #"Basic " || HasPrefix auth #"basic " then (#"basic", #"Authorization")
    else (#"api-key", #"Authorization")
  else match List.find (λ name, negb (bool_decide (header_Get h name = []))) knownAPIKeyHeaders with
       | Some name => (#"api-key", CanonicalHeaderKey name)
       | None => ([], [])
       end.

Definition IngressMITM : bytes := #"mitm".

Section Forward.
Context {unicode : UnicodeTables} (w : forward_surroundings) (target host : bytes) (port : Z) (useTLS : bool) (scope : ProxyScope) (limit_actor : bytes) (r : hrequest).

(** [emit]: the event as far as it is known. *)
Definition emit (inject : option InjectResult) (status : Z) (errCode : bytes) : forward_effect :=
  let '(scheme, header) := detectAuthFromHeaders (hr_Header r) in
  let '(ty, actor) := if negb (bool_decide (ps_UserID scope = [])) then (#"user", ps_UserID scope)
                      else if negb (bool_decide (ps_AgentID scope = [])) then (#"agent", ps_AgentID scope) else ([], []) in
  let get {A} (d : A) (f : InjectResult → A) := match inject with Some i => f i | None => d end in
  FwLogged (FromEvent
    {| pe_Ingress := IngressMITM; pe_Method := hr_Method r; pe_Host := target; pe_Path := ul_Path (hr_URL r);
       pe_MatchedService := get [] ir_MatchedName; pe_MatchedHost := get [] ir_MatchedHost; pe_MatchedPath := get [] ir_MatchedPath; pe_MatchedPort := get None ir_MatchedPort;
       pe_CredentialKeys := get [] ir_CredentialKeys; pe_Status := status; pe_TotalMs := fw_LatencyMs w; pe_Err := errCode; pe_Passthrough := get false ir_Passthrough;
       pe_AuthScheme := scheme; pe_AuthHeader := header |} (ps_VaultID scope) ty actor).

(** An error response and its record. *)
Definition fail (inject : option InjectResult) (status : Z) (code : bytes) : list forward_effect := [FwRefused status code; emit inject status code].

(** ** The outgoing request *)

Definition scheme : bytes := if useTLS then #"https" else #"http".

(** [hostHeaderForScheme] for either scheme. *)
Definition host_header : bytes :=
  match SplitHostPort target with
  | None => target
  | Some (h, p) => if negb (bool_decide (p = if useTLS then #"443" else #"80")) then target else if ContainsByte h x3a then #"[" ++ h ++ #"]" else h
  end.

Definition injected_headers (i : InjectResult) : list (bytes * bytes) := default [] (ir_Headers i).

(** The headers before substitution. *)
Definition outgoing_headers (i : InjectResult) : Header :=
  if isWebSocketUpgrade (hr_Header r)
  then ApplyInjection (hr_Header r) (copyWebSocketHandshakeHeaders (hr_Header r) ∅) (injected_headers i) websocketHandshakeHeaderNames
  else ApplyInjection (hr_Header r) ∅ (injected_headers i) [].

(** Reading the body into memory: the bytes and their number, or the refusal. *)
Definition MaterializeRequestBody (limit : Z) : result (Z * bytes) (bytes * Z) :=
  if limit <? Z.of_nat (length (hr_Body r)) then Err (413, #"request_too_large")
  else if hr_BodyFails r then Err (400, #"request_read_error")
  else Ok (hr_Body r, Z.of_nat (length (hr_Body r))).

(** The body to send and its length; a streamed one may still fail. *)
Definition request_body (i : InjectResult) : result (Z * bytes) (option bytes * Z) :=
  if negb (HasBodySubstitutions (ir_Substitutions i)) && (0 <=? hr_ContentLength r)
  then Ok (if hr_BodyFails r || (fw_maxRequestBytes w <? Z.of_nat (length (hr_Body r))) then None else Some (hr_Body r), hr_ContentLength r)
  else match MaterializeRequestBody (Z.min (fw_maxRequestBytes w) MaxMaterializeBytes) with
       | Err e => Err e
       | Ok (data, n) => Ok (Some data, n)
       end.

Definition header_value (h : Header) (k : bytes) : bytes := match h !! CanonicalHeaderKey k with Some (v :: _) => v | _ => [] end.

(** Substitutions in the URL, the headers and the body. *)
Definition substituted (i : InjectResult) (body : option bytes) (contentLength : Z) : option (target_url * Header * option bytes * Z) :=
  let u := {| tu_Path := ul_Path (hr_URL r); tu_RawPath := ul_RawPath (hr_URL r); tu_RawQuery := ul_RawQuery (hr_URL r) |} in
  match ApplySubstitutions (ir_Substitutions i) (Some u) (Some (map_to_list (outgoing_headers i))) with
  | Ok (Some u, Some h) =>
      let h : Header := list_to_map h in
      if negb (bool_decide (header_value h #"Content-Encoding" = [])) then Some (u, h, body, contentLength)
      else match ApplyBodySubstitutions (fw_ParseMediaType w) body contentLength false (header_value h #"Content-Type") (ir_Substitutions i) with
           | None => None
           | Some (body, n, modified) => Some (u, if modified then header_Set #"Content-Length" (Itoa n) h else h, body, n)
           end
  | _ => None
  end.

Definition request_to (method : bytes) (u : target_url) (h : Header) (body : bytes) : OutRequest :=
  {| out_Method := method; out_Target := target; out_Host := host_header; out_Path := tu_Path u; out_RawPath := tu_RawPath u; out_RawQuery := tu_RawQuery u; out_Header := h; out_Body := body |}.

(** ** The response *)

Definition response_headers (h : header_list) : header_list := List.filter (λ '(name, _), negb (ShouldStripResponseHeader name)) h.

(** Whether the reads come to an end. *)
Definition ended (reads : list (bytes * read_err)) : bool := existsb (λ '(_, e), match e with ReadOk => false | _ => true end) reads.

(** Size check, headers, body; [io.Copy] does not tell a body that broke off from
    one that ended. *)
Definition copy_response (i : option InjectResult) (resp : fw_response) : list forward_effect :=
  let max := fw_maxResponseBytes w in
  let status := rs_Status (fr_Response resp) in
  if (0 <? max) && (0 <? fr_ContentLength resp) && (max <? fr_ContentLength resp) then fail i 502 #"response_too_large"
  else
    let data := arrived (rs_Reads (fr_Response resp)) in
    let cut := (0 <? max) && (max <? Z.of_nat (length data)) in
    FwRelayed status (response_headers (rs_Header (fr_Response resp))) (if cut then take (Z.to_nat max) data else data) ::
    if cut then [emit i status #"response_truncated"; FwAborted]
    else if ended (rs_Reads (fr_Response resp)) then [emit i status []] else [].

(** ** Upgrades *)

Definition forwardWebSocket (i : InjectResult) (u : target_url) (h : Header) (body : option bytes) (n : Z) : list forward_effect :=
  let subs := filterWebSocketSubs (ir_Substitutions i) in
  let h := if bool_decide (subs = []) then h else delete (#"Sec-Websocket-Extensions") h in
  let out := request_to (hr_Method r) u h (default [] body) in
  FwSent out body n ::
  match fw_RoundTrip w 0 out with
  | None => fail (Some i) 502 #"upstream_error"
  | Some resp =>
      if negb (rs_Status (fr_Response resp) =? 101) then copy_response (Some i) resp
      else if negb (fw_Hijacks w) then fail (Some i) 500 #"internal"
      else if negb (fw_Switches w) then [emit (Some i) 502 #"upstream_error"]
      else [emit (Some i) 101 []; FwSwitched (switching_headers (rs_Header (fr_Response resp))) subs]
  end.

(** ** Requests *)

(** One more try for a read whose credential was refused; the second answer, if
    there is one, takes the place of the first, whose body is closed by then. *)
Definition retry_request (i : InjectResult) (out : OutRequest) (resp : fw_response) : option OutRequest :=
  if (rs_Status (fr_Response resp) =? 401) && negb (ir_Passthrough i) && get_or_head r then
    match fw_Inject w 1 (ps_VaultID scope) host port (ul_Path (hr_URL r)) with
    | (Some i', None) =>
        match ir_Headers i', ir_FixedQuery i' with
        | Some headers, None =>
            Some {| out_Method := out_Method out; out_Target := out_Target out; out_Host := out_Host out; out_Path := out_Path out; out_RawPath := out_RawPath out;
                    out_RawQuery := out_RawQuery out; out_Header := foldl (λ h '(k, v), header_Set k v h) (out_Header out) headers; out_Body := [] |}
        | _, _ => None
        end
    | _ => None
    end
  else None.

Definition closed_body (resp : fw_response) : fw_response :=
  {| fr_Response := {| rs_Status := rs_Status (fr_Response resp); rs_Header := rs_Header (fr_Response resp); rs_Reads := [([], ReadFailed)] |}; fr_ContentLength := fr_ContentLength resp |}.

Definition exchange (i : InjectResult) (out : OutRequest) (body : option bytes) (n : Z) : list forward_effect :=
  FwSent out body n ::
  match fw_RoundTrip w 0 out with
  | None => fail (Some i) 502 #"upstream_error"
  | Some resp =>
      let wants := (rs_Status (fr_Response resp) =? 401) && negb (ir_Passthrough i) && get_or_head r in
      match retry_request i out resp with
      | None => copy_response (Some i) (if wants then closed_body resp else resp)
      | Some again => FwSent again (Some []) 0 :: copy_response (Some i) (default (closed_body resp) (fw_RoundTrip w 1 again))
      end
  end.

(** [forwardRequest] outside the strict profile.  [Inject] gives a result or an
    error ([Inject_cases]); with neither the handler would fault. *)
Definition forwardRequest : list forward_effect :=
  match fw_EnforceProxy w limit_actor (ps_VaultID scope) with
  | Some code => fail None 429 code
  | None =>
      if (0 <? hr_ContentLength r) && (fw_maxRequestBytes w <? hr_ContentLength r) then fail None 413 #"request_too_large"
      else
        let '(inject, err) := fw_Inject w 0 (ps_VaultID scope) host port (ul_Path (hr_URL r)) in
        match err, inject with
        | Some e, _ =>
            let '(status, code) := WriteInjectError e in
            let '(logged, errCode) := if errors_Is e ErrCredentialMissing then (502, #"credential_not_found") else (403, #"no_match") in
            [FwRefused status code; emit inject logged errCode]
        | None, None => []
        | None, Some i =>
            if bool_decide (is_Some (ir_FixedQuery i)) then fail (Some i) 403 #"strict_profile_required"
            else match request_body i with
            | Err (status, code) => fail (Some i) status code
            | Ok (body, n) =>
                let u := {| tu_Path := ul_Path (hr_URL r); tu_RawPath := ul_RawPath (hr_URL r); tu_RawQuery := ul_RawQuery (hr_URL r) |} in
                if negb (fw_NewRequest w (hr_Method r) u) then fail (Some i) 502 #"internal"
                else match substituted i body n with
                | None => fail (Some i) 502 #"substitution_error"
                | Some (u, h, body, n) =>
                    if isWebSocketUpgrade (hr_Header r) then forwardWebSocket i u h body n
                    else exchange i (request_to (hr_Method r) u h (default [] body)) body n
                end
            end
        end
  end.
End Forward.

(** ** What is sent *)

Definition map_header (f : bytes → bytes) (h : Header) : Header := (map f) <$> h.

Lemma header_rewrite_map (subs : list ResolvedSubstitution) (h : Header) : list_to_map (header_rewrite subs (map_to_list h)) = map_header (value_rewrite subs) h.
Proof.
  unfold header_rewrite, map_header. replace (map _ (map_to_list h)) with (prod_map id (map (value_rewrite subs)) <$> map_to_list h).
  - by rewrite list_to_map_fmap, list_to_map_to_list.
  - apply map_ext. by intros [k vals].
Qed.

Section Sends.
Context {unicode : UnicodeTables} (w : forward_surroundings) (target host : bytes) (port : Z) (useTLS : bool) (scope : ProxyScope) (limit_actor : bytes) (r : hrequest).

Lemma substituted_spec i body n u h body' n' : Forall ready (ir_Substitutions i) → substituted w r i body n = Some (u, h, body', n') →
  wire_path u = path_rewrite (ir_Substitutions i) (EscapedPath (ul_Path (hr_URL r)) (ul_RawPath (hr_URL r))) ∧
  tu_RawQuery u = query_rewrite (ir_Substitutions i) (ul_RawQuery (hr_URL r)) ∧
  ∀ name, name ≠ #"Content-Length" → h !! name = map (value_rewrite (ir_Substitutions i)) <$> outgoing_headers r i !! name.
Proof using Type.
  intros Hr. unfold substituted. destruct (ApplySubstitutions _ _ _) as [[[u1|] [h1|]]|] eqn:E; [|done|done|done|done].
  destruct (ApplySubstitutions_exact _ _ _ _ _ Hr E) as (v & k & [= ->] & [= ->] & Hw & Hq & -> & _). rewrite header_rewrite_map.
  assert (Hh : ∀ name, map_header (value_rewrite (ir_Substitutions i)) (outgoing_headers r i) !! name = map (value_rewrite (ir_Substitutions i)) <$> outgoing_headers r i !! name)
    by (intros name; apply lookup_fmap).
  destruct (negb _); [by intros [= <- <- _ _]|]. destruct (ApplyBodySubstitutions _ _ _ _ _ _) as [[[b m] modified]|]; [|done]. intros [= <- <- _ _].
  split; [done|]. split; [done|]. intros name Hn. destruct modified; [|done]. unfold header_Set. change (CanonicalHeaderKey #"Content-Length") with (#"Content-Length").
  by rewrite lookup_insert_ne.
Qed.

(** The requests of a handler. *)
Definition sends_of (l : list forward_effect) : list OutRequest := flat_map (λ e, match e with FwSent out _ _ => [out] | _ => [] end) l.
Definition logs_of (l : list forward_effect) : list LogRecord := flat_map (λ e, match e with FwLogged x => [x] | _ => [] end) l.

Lemma refused_sends status code l : sends_of (FwRefused status code :: l) = sends_of l.
Proof using Type. done. Qed.
Lemma sent_sends out body n l : sends_of (FwSent out body n :: l) = out :: sends_of l.
Proof using Type. done. Qed.

(** An event is one record, with the status and the error given. *)
Lemma emit_log i status code : ∃ x, emit w target scope r i status code = FwLogged x ∧ lr_Status x = status ∧ lr_ErrorCode x = code.
Proof using Type.
  unfold emit. destruct (detectAuthFromHeaders _) as [ty header]. destruct (negb _); [by eexists|]. destruct (negb _); by eexists.
Qed.
Lemma emit_sends i status code l : sends_of (emit w target scope r i status code :: l) = sends_of l.
Proof using Type. by destruct (emit_log i status code) as (x & -> & _). Qed.
Lemma fail_sends i status code : sends_of (fail w target scope r i status code) = [].
Proof using Type. apply (emit_sends i status code []). Qed.
Lemma copy_sends i resp : sends_of (copy_response w target scope r i resp) = [].
Proof using Type.
  unfold copy_response. destruct (_ && _ && _); [apply fail_sends|]. cbn [sends_of flat_map app].
  destruct (_ && _); [by rewrite (emit_sends i)|]. destruct (ended _); [by rewrite (emit_sends i)|done].
Qed.

(** Where a request came from. *)
Lemma forwardRequest_sends out rest : sends_of (forwardRequest w target host port useTLS scope limit_actor r) = out :: rest →
  ∃ i body n u h body' n', fw_Inject w 0 (ps_VaultID scope) host port (ul_Path (hr_URL r)) = (Some i, None) ∧ ir_FixedQuery i = None ∧
    fw_EnforceProxy w limit_actor (ps_VaultID scope) = None ∧ substituted w r i body n = Some (u, h, body', n') ∧
    let h' := if isWebSocketUpgrade (hr_Header r) && negb (bool_decide (filterWebSocketSubs (ir_Substitutions i) = [])) then delete (#"Sec-Websocket-Extensions") h else h in
    out = request_to target useTLS (hr_Method r) u h' (default [] body') ∧
    (rest = [] ∨ isWebSocketUpgrade (hr_Header r) = false ∧ get_or_head r = true ∧ ∃ resp again, fw_RoundTrip w 0 out = Some resp ∧ rs_Status (fr_Response resp) = 401 ∧
       retry_request w host port scope r i out resp = Some again ∧ rest = [again]).
Proof using Type.
  unfold forwardRequest. destruct (fw_EnforceProxy _ _ _) as [code|] eqn:El; [by rewrite fail_sends|]. destruct (_ && _); [by rewrite fail_sends|].
  destruct (fw_Inject w 0 _ _ _ _) as [inject [e|]] eqn:Ei.
  { destruct (WriteInjectError e), (if errors_Is e ErrCredentialMissing then (502, #"credential_not_found") else (403, #"no_match")). by rewrite refused_sends, emit_sends. }
  destruct inject as [i|]; [|done]. case_bool_decide as Ef; [by rewrite fail_sends|]. destruct (request_body w r i) as [[body n]|[status code]] eqn:Eb; [|by rewrite fail_sends].
  destruct (negb _); [by rewrite fail_sends|]. destruct (substituted w r i body n) as [[[[u h] body'] n']|] eqn:Es; [|by rewrite fail_sends].
  assert (Hfixed : ir_FixedQuery i = None) by (by destruct (ir_FixedQuery i); [destruct Ef|]).
  destruct (isWebSocketUpgrade _) eqn:Ew.
  - unfold forwardWebSocket. rewrite sent_sends. intros [= <- Hrest].
    exists i, body, n, u, h, body', n'. do 4 (split; [done|]). cbn [andb]. split; [by case_bool_decide|left]. rewrite <- Hrest.
    destruct (fw_RoundTrip w 0 _); [|apply fail_sends]. destruct (negb _); [apply copy_sends|]. destruct (negb _); [apply fail_sends|].
    destruct (negb _); by rewrite emit_sends.
  - unfold exchange. rewrite sent_sends. intros [= <- Hrest]. exists i, body, n, u, h, body', n'. do 4 (split; [done|]). split; [done|].
    rewrite <- Hrest. destruct (fw_RoundTrip w 0 _) as [resp|] eqn:Er; [|left; apply fail_sends].
    destruct (retry_request _ _ _ _ _ _ _ _) as [again|] eqn:Ea; [|left; apply copy_sends]. right. split; [done|]. pose proof Ea as Ea'. unfold retry_request in Ea.
    destruct (rs_Status (fr_Response resp) =? 401) eqn:E401; [|done]. apply Z.eqb_eq in E401. destruct (ir_Passthrough i); [done|]. destruct (get_or_head r); [|done].
    split; [done|]. exists resp, again. do 3 (split; [done|]). by rewrite sent_sends, copy_sends.
Qed.
(** The record of a handler's course: it agrees with the answer given. *)
Definition settled (inject : option chain) (l : list forward_effect) : Prop := ∃ x, logs_of l = [x] ∧
  (∀ status h body, FwRelayed status h body ∈ l → lr_Status x = status) ∧
  (∀ status code, FwRefused status code ∈ l → lr_Status x = status ∧ lr_ErrorCode x = code ∨
     ∃ e, inject = Some e ∧ (status, code) = WriteInjectError e ∧
       (lr_Status x, lr_ErrorCode x) = if errors_Is e ErrCredentialMissing then (502, #"credential_not_found") else (403, #"no_match")).

(** The upstream body has not ended. *)
Definition unfinished (l : list forward_effect) : Prop := ∃ resp pre, ended (rs_Reads (fr_Response resp)) = false ∧ logs_of l = [] ∧
  l = pre ++ [FwRelayed (rs_Status (fr_Response resp)) (response_headers (rs_Header (fr_Response resp))) (arrived (rs_Reads (fr_Response resp)))].

Lemma fail_settled e i status code : settled e (fail w target scope r i status code).
Proof using Type.
  unfold fail. destruct (emit_log i status code) as (x & -> & Hs & Hc). exists x. split; [done|]. split.
  - intros ???. rewrite !elem_of_cons, elem_of_nil. by intros [[=]|[[=]|[]]].
  - intros ??. rewrite !elem_of_cons, elem_of_nil. intros [[= -> ->]|[[=]|[]]]. by left.
Qed.
Lemma sent_settled e out body n l : settled e l → settled e (FwSent out body n :: l).
Proof using Type.
  intros (x & Hl & H1 & H2). exists x. split; [done|]. split.
  - intros ???. rewrite elem_of_cons. intros [[=]|H]. by eapply H1.
  - intros ??. rewrite elem_of_cons. intros [[=]|H]. by apply H2.
Qed.
Lemma sent_unfinished out body n l : unfinished l → unfinished (FwSent out body n :: l).
Proof using Type. intros (resp & pre & He & Hl & ->). by exists resp, (FwSent out body n :: pre). Qed.

Lemma copy_settled e i resp : settled e (copy_response w target scope r i resp) ∨ unfinished (copy_response w target scope r i resp).
Proof using Type.
  unfold copy_response. destruct (_ && _ && _); [left; apply fail_settled|]. destruct (_ && _).
  - left. destruct (emit_log i (rs_Status (fr_Response resp)) #"response_truncated") as (x & -> & Hs & _). exists x. split; [done|]. split.
    + intros ???. rewrite !elem_of_cons, elem_of_nil. by intros [[= -> _ _]|[[=]|[[=]|[]]]].
    + intros ??. rewrite !elem_of_cons, elem_of_nil. by intros [[=]|[[=]|[[=]|[]]]].
  - destruct (ended _) eqn:Ee; [left|right; by exists resp, []].
    destruct (emit_log i (rs_Status (fr_Response resp)) []) as (x & -> & Hs & _). exists x. split; [done|]. split.
    + intros ???. rewrite !elem_of_cons, elem_of_nil. by intros [[= -> _ _]|[[=]|[]]].
    + intros ??. rewrite !elem_of_cons, elem_of_nil. by intros [[=]|[[=]|[]]].
Qed.

Lemma settled_cons_refused e inject code : inject = Some e →
  settled inject [FwRefused (fst (WriteInjectError e)) (snd (WriteInjectError e)); emit w target scope r code (fst (if errors_Is e ErrCredentialMissing then (502, #"credential_not_found") else (403, #"no_match"))) (snd (if errors_Is e ErrCredentialMissing then (502, #"credential_not_found") else (403, #"no_match")))].
Proof using Type.
  intros He. set (p := if errors_Is e ErrCredentialMissing then _ else _). destruct (emit_log code (fst p) (snd p)) as (x & -> & Hs & Hc). exists x. split; [done|]. split.
  - intros ???. rewrite !elem_of_cons, elem_of_nil. by intros [[=]|[[=]|[]]].
  - intros ??. rewrite !elem_of_cons, elem_of_nil. intros [[= -> ->]|[[=]|[]]]. right. exists e. split; [done|]. split; [by destruct (WriteInjectError e)|]. rewrite Hs, Hc. by destruct (errors_Is e ErrCredentialMissing).
Qed.

Lemma upgrade_settled e i u h body n : settled e (forwardWebSocket w target useTLS scope r i u h body n) ∨ unfinished (forwardWebSocket w target useTLS scope r i u h body n).
Proof using Type.
  unfold forwardWebSocket. destruct (fw_RoundTrip w 0 _) as [resp|]; [|left; apply sent_settled, fail_settled].
  destruct (negb _); [destruct (copy_settled e (Some i) resp); [left; by apply sent_settled|right; by apply sent_unfinished]|].
  left. apply sent_settled. destruct (negb _); [apply fail_settled|]. destruct (negb _).
  - destruct (emit_log (Some i) 502 #"upstream_error") as (x & -> & _). exists x. split; [done|]. split; intros *; rewrite !elem_of_cons, elem_of_nil; by intros [[=]|[]].
  - destruct (emit_log (Some i) 101 []) as (x & -> & _). exists x. split; [done|]. split; intros *; rewrite !elem_of_cons, elem_of_nil; by intros [[=]|[[=]|[]]].
Qed.

Lemma exchange_settled e i out body n : settled e (exchange w target host port scope r i out body n) ∨ unfinished (exchange w target host port scope r i out body n).
Proof using Type.
  unfold exchange. destruct (fw_RoundTrip w 0 _) as [resp|]; [|left; apply sent_settled, fail_settled]. cbn zeta.
  destruct (retry_request _ _ _ _ _ _ _ _) as [again|].
  - destruct (copy_settled e (Some i) (default (closed_body resp) (fw_RoundTrip w 1 again))); [left; by do 2 apply sent_settled|right; by do 2 apply sent_unfinished].
  - match goal with |- context [copy_response _ _ _ _ _ ?resp'] => destruct (copy_settled e (Some i) resp') end; [left; by apply sent_settled|right; by apply sent_unfinished].
Qed.


(** The header values of a request before substitution: the injected value alone,
    the worker's otherwise, less the names that are not forwarded. *)
Definition header_before (i : InjectResult) (name : bytes) : option (list bytes) :=
  let up := isWebSocketUpgrade (hr_Header r) in
  let start := if up then copyWebSocketHandshakeHeaders (hr_Header r) ∅ !! name else None in
  match injected_value (injected_headers i) name with
  | Some v => Some [v]
  | None =>
      if IsHopByHop name || IsBrokerScopedRequestHeader name || bool_decide (name ∈ strip_set (hr_Header r) (injected_headers i) (if up then websocketHandshakeHeaderNames else []))
      then start else append_values start (client_values (hr_Header r) name)
  end.

Lemma outgoing_headers_spec i name : outgoing_headers r i !! name = header_before i name.
Proof using Type. unfold outgoing_headers, header_before. by destruct (isWebSocketUpgrade _); rewrite ApplyInjection_exact. Qed.

End Sends.

Module ForwardDemo.
#[local] Existing Instance latin1_tables.

Definition service (token : bytes) : InjectResult :=
  {| ir_Headers := Some [(#"Authorization", #"Bearer " ++ token)]; ir_MatchedName := #"vendor"; ir_MatchedHost := #"api.vendor.com"; ir_MatchedPath := []; ir_MatchedPort := None; ir_FixedQuery := None;
     ir_CredentialKeys := [ #"TOKEN"]; ir_Substitutions := [{| rs_Placeholder := #"__org__"; rs_Value := #"acme"; rs_In := [ #"path"; #"query"] |}]; ir_Passthrough := false |}.

(** The first token is refused, the second one answered. *)
Definition world : forward_surroundings :=
  {| fw_EnforceProxy := λ _ _, None; fw_Inject := λ n _ _ _ _, (Some (service (if (n =? 0)%nat then #"old" else #"new")), None); fw_NewRequest := λ _ _, true; fw_ParseMediaType := id;
     fw_RoundTrip := λ n _, Some {| fr_Response := {| rs_Status := if (n =? 0)%nat then 401 else 200; rs_Header := [(#"Set-Cookie", [ #"s=1"]); (#"Content-Type", [ #"text/plain"])]; rs_Reads := [(#"hello", ReadEOF)] |};
                                   fr_ContentLength := 5 |};
     fw_Hijacks := true; fw_Switches := true; fw_maxRequestBytes := 1024; fw_maxResponseBytes := 0; fw_LatencyMs := 3 |}.

Definition scope : ProxyScope := {| ps_VaultID := #"v1"; ps_UserID := []; ps_AgentID := #"agent"; ps_VaultName := #"vault"; ps_VaultRole := #"proxy" |}.

Definition request : hrequest :=
  {| hr_Method := #"GET"; hr_Host := #"api.vendor.com";
     hr_URL := {| ul_IsAbs := false; ul_User := false; ul_Fragment := []; ul_RawPath := []; ul_Path := #"/orgs/__org__/items"; ul_RawQuery := #"q=__org__" |};
     hr_Header := [(#"Accept", [ #"*/*"]); (#"Authorization", [ #"Bearer mine"])]; hr_Trailer := false; hr_Body := []; hr_BodyFails := false; hr_ContentLength := 0 |}.

Definition course : list forward_effect := forwardRequest world #"api.vendor.com:443" #"api.vendor.com" 443 true scope #"agent" request.

(** The requests it sends, first with the old token and then with the new. *)
Definition first_sent : OutRequest := hd (request_to [] true [] {| tu_Path := []; tu_RawPath := []; tu_RawQuery := [] |} ∅ []) (sends_of course).
Definition then_sent : list OutRequest := tail (sends_of course).
Lemma course_sends : sends_of course = first_sent :: then_sent.
Proof. vm_compute. reflexivity. Qed.
Lemma course_relays : ∃ a b c, course = [a; b; FwRelayed 200 [(#"Content-Type", [ #"text/plain"])] #"hello"; c].
Proof. eexists _, _, _. vm_compute. reflexivity. Qed.
Lemma service_ready : Forall ready (ir_Substitutions (service #"old")).
Proof. apply Forall_singleton. split; [by vm_compute|]. apply (bool_decide_unpack _). by vm_compute. Qed.



(** When no other credential is to be had, the client gets the refusal without its
    body, which was closed for the second attempt. *)
Definition world_without : forward_surroundings :=
  {| fw_EnforceProxy := fw_EnforceProxy world; fw_Inject := λ n v h p path, if (n =? 0)%nat then fw_Inject world 0 v h p path else (None, Some [ErrServiceNotFound]);
     fw_NewRequest := fw_NewRequest world; fw_ParseMediaType := id; fw_RoundTrip := fw_RoundTrip world; fw_Hijacks := true; fw_Switches := true; fw_maxRequestBytes := 1024;
     fw_maxResponseBytes := 0; fw_LatencyMs := 3 |}.
Lemma refused_body_lost :
  (∃ a b, forwardRequest world_without #"api.vendor.com:443" #"api.vendor.com" 443 true scope #"agent" request = [a; FwRelayed 401 [(#"Content-Type", [ #"text/plain"])] []; b]) ∧
  ∃ resp, fw_RoundTrip world_without 0 first_sent = Some resp ∧ arrived (rs_Reads (fr_Response resp)) = #"hello".
Proof. split; [eexists _, _; vm_compute; reflexivity|eexists; split; vm_compute; reflexivity]. Qed.
End ForwardDemo.
