(* ===== verification/MitmConnect.v ===== *)
(** * Tunnels ([internal/mitm]: [connect.go], [attestation.go], [proxy.go],
      [forward.go])

    A CONNECT request is refused or becomes a tunnel; a request of a tunnel is
    resolved anew and handed to [forwardStrict] or [forwardRequest]; a plain
    request with an absolute URL is handled at once.  [connect_world] is what the
    proxy finds at one moment.  The proxy itself is a step relation over the
    handlers of CONNECT requests; reading a connection, TLS and hijacking are
    steps that may fail.  The strict profile alone has a catalog. *)

From S2P Require Import Prelude GoString GoUrl GoNet GoStrconv AuditRow AuditChain CatalogMatch BrokerAuth BrokerMatch BrokerInject BrokerCore ProxySession MitmScreen MitmAdapter MitmStrict MitmForward.

Definition SessionHeader : bytes := #"Gatehouse-Session".
Definition AttestationHeader : bytes := #"Gatehouse-Attestation".

(** ** Errors of a resolution *)

Inductive caller_error := SessionErr (e : session_error) | DeniedErr (reason : bytes) (key : option KeyDenial) | OtherErr.

Definition DenialReason (e : caller_error) : bytes := match e with DeniedErr reason _ => reason | _ => [] end.
Definition DenialKey (e : caller_error) : option KeyDenial := match e with DeniedErr _ key => key | _ => None end.

(** [writeAuthError]: the status, and whether it asks for credentials. *)
Definition writeAuthError (e : caller_error) : Z * bool :=
  match e with
  | SessionErr ErrInvalidSession | DeniedErr _ _ => (407, true)
  | SessionErr ErrAgentVaultAmbiguous | SessionErr ErrNoVaultContext => (400, false)
  | SessionErr ErrVaultHintMismatch | SessionErr ErrVaultAccessDenied => (403, false)
  | SessionErr ErrVaultNotFound => (404, false)
  | OtherErr => (500, false)
  end.

(** A resolved scope; [NotAfter] may be zero. *)
Record TunnelScope := {
  un_Scope : ProxyScope;
  un_Pool : bytes;
  un_WorkloadID : bytes;
  un_ClaimedRun : bytes;
  un_AttestedRequester : bytes;
  un_IdentityKind : bytes;
  un_NotAfter : option Z;
}.

Definition catalog_scope (session : bytes) (s : TunnelScope) : CatalogScope :=
  {| sc_Pool := un_Pool s; sc_UserID := ps_UserID (un_Scope s); sc_AgentID := ps_AgentID (un_Scope s); sc_WorkloadID := un_WorkloadID s;
     sc_ClaimedRun := un_ClaimedRun s; sc_AttestedRequester := un_AttestedRequester s; sc_Session := session |}.

(** An [Attestor], by the attestation of the connection, the token and the peer;
    [at_Reattest] is there when it is a [Reattestor] too. *)
Record attestor := {
  at_Attest : bytes → bytes → bytes → result caller_error (option TunnelScope);
  at_Reattest : option (bytes → bytes → bytes → result caller_error (option TunnelScope));
}.

Inductive profile := StrictProfile (w : strict_surroundings) | PlainProfile (w : forward_surroundings).

Record connect_world := {
  cw_Profile : profile;
  cw_Check : option (bytes → bool);                   (* the failure budget, by key; nil is [None] *)
  cw_Attestor : option attestor;
  cw_Resolve : bytes → bytes → result caller_error TunnelScope;   (* [p.sessions.ResolveForProxy] *)
  cw_Now : Z;
  cw_OwnerUID : bytes → option bytes;                 (* an attestation's owner, decoded *)
}.

(** A request on the proxy's own listener; [cr_Peer]: [None] for no valid peer. *)
Record connect_request := {
  cr_Request : strict_request;
  cr_URL : URL;
  cr_RemoteAddr : bytes;
  cr_Peer : option bytes;
  cr_Kinds : list bytes;
}.

Inductive connect_effect :=
| CnAnswer (status : Z) (challenge : bool)
| CnStrict (l : list strict_effect)
| CnForward (l : list forward_effect)
| CnFailure (key : bytes)                             (* an authentication failure counted *)
| CnRefusal (reason : bytes) (key : option KeyDenial). (* [logRefusal] *)

Definition header_of (r : connect_request) (name : bytes) : bytes := header_Get (hr_Header (sq_Request (cr_Request r))) name.
Definition header_Del (name : bytes) (h : header_list) : header_list := List.filter (λ '(k, _), negb (bool_decide (k = CanonicalHeaderKey name))) h.

(** ** Peers *)

Definition remote_host (r : connect_request) : bytes :=
  match SplitHostPort (cr_RemoteAddr r) with Some (h, _) => if bool_decide (h = []) then cr_RemoteAddr r else h | None => cr_RemoteAddr r end.

Definition IsLoopback (ip : bytes) : bool :=
  match To4 ip with Some v4 => bool_decide (head v4 = Some x7f) | None => bool_decide (ip = replicate 15 x00 ++ [x01]) end.
Definition isLoopbackPeer (r : connect_request) : bool := match ParseIP (remote_host r) with Some ip => IsLoopback ip | None => false end.

(** [peerConn.resolve]: the peer of a connection from [remote], whose first bytes
    the reader, if there is one, takes for a PROXY header. *)
Definition peer_resolve (remote : option bytes) (reader : option (bytes → option bytes)) (stream : bytes) : option bytes :=
  remote ← remote;
  match reader with
  | None => Some (default remote (To4 remote))
  | Some read => if IsLoopback (As16 remote) then read stream else None
  end.

(** [strconv.Atoi] with its error dropped. *)
Definition Atoi_value (s : bytes) : Z :=
  match Atoi s with
  | Some n => n
  | None =>
      let '(neg, digits) := match s with x2d :: d => (true, d) | x2b :: d => (false, d) | _ => (false, s) end in
      if bool_decide (digits = []) || negb (forallb (λ b, is_digit (bval b)) digits) then 0
      else if neg : bool then - 2 ^ 63 else 2 ^ 63 - 1
  end.

Section Connect.
Context {unicode : UnicodeTables} (w : connect_world).

Definition mitmIPKey (r : connect_request) : bytes :=
  let key := #"mitm:" ++ remote_host r in
  if bool_decide (cr_Kinds r = [KindProxyAttested]) then
    let sandbox := AttestedSandbox (cw_OwnerUID w) (header_of r AttestationHeader) in
    if bool_decide (sandbox = []) then key else key ++ #"/sandbox:" ++ sandbox
  else key.

Definition recordAuthFailure (r : connect_request) : list connect_effect :=
  match cw_Check w with Some _ => if isLoopbackPeer r then [] else [CnFailure (mitmIPKey r)] | None => [] end.

(** The pre-gate's answer: whether the budget of the peer is used up. *)
Definition over_budget (r : connect_request) : bool :=
  match cw_Check w with Some check => negb (isLoopbackPeer r) && negb (check (mitmIPKey r)) | None => false end.

(** ** Scopes *)

Definition resolveAnyScope (attestation token hint : bytes) (peer : option bytes) (recheck : bool) : list connect_effect * result caller_error TunnelScope :=
  match cw_Attestor w with
  | None => ([], cw_Resolve w token hint)
  | Some a =>
      match peer with
      | None => ([], Err (SessionErr ErrInvalidSession))
      | Some peer =>
          let attest := match at_Reattest a with Some f => if recheck then f else at_Attest a | None => at_Attest a end in
          let refused e := let reason := DenialReason e in
            ([CnRefusal reason (DenialKey e)], Err (if bool_decide (reason = []) then SessionErr ErrInvalidSession else e)) in
          match attest attestation token peer with
          | Err e => refused e
          | Ok None => refused OtherErr
          | Ok (Some scope) =>
              match un_NotAfter scope with
              | Some t => if t <=? cw_Now w then ([CnRefusal #"deadline" None], Err (DeniedErr #"deadline" None)) else ([], Ok scope)
              | None => ([], Ok scope)
              end
          end
      end
  end.

Definition resolveScope (kinds : list bytes) (attestation token hint : bytes) (peer : option bytes) (recheck : bool) : list connect_effect * result caller_error TunnelScope :=
  match resolveAnyScope attestation token hint peer recheck with
  | (logs, Ok scope) =>
      if KindAdmitted kinds (un_IdentityKind scope) then (logs, Ok scope)
      else (logs ++ [CnRefusal #"listener_kind" None], Err (DeniedErr #"listener_kind" None))
  | (logs, Err e) => (logs, Err e)
  end.

(** ** Refusals *)

(** [adapterIdentityDeny] *)
Definition identity_event (method reason : bytes) (key : option KeyDenial) : Event :=
  let ev := first_event [] method None in
  {| ev_Event := ev_Event ev; ev_Pool := []; ev_Agent := []; ev_PodUID := []; ev_Binding := []; ev_Session := []; ev_Outcome := []; ev_Requester := []; ev_RequesterKind := [];
     ev_RequesterOID := []; ev_TokenSHA256 := []; ev_Tier := []; ev_Decision := reason; ev_Groups := []; ev_CacheAgeSec := 0;
     ev_Kid := match key with Some k => kd_Kid k | None => [] end; ev_KidSHA256 := match key with Some k => kd_KidSHA256 k | None => [] end;
     ev_Peer := match key with Some k => kd_Peer k | None => [] end; ev_Serial := []; ev_NotAfter := []; ev_DNSNames := []; ev_Target := []; ev_Method := ev_Method ev; ev_Status := 0; ev_Duration := 0 |}.

Definition strictUnauthenticatedDeny (s : strict_surroundings) (target method : bytes) (status : Z) : list connect_effect :=
  [CnStrict match tw_Adapter s with
            | Some (false, _) => [Refusal 503]
            | Some (true, c) => map Catalogued (adapterDeny c target (identity_event method [] None) status #"refused")
            | None => strictDeny s (strictAttempt None None method [] [] #"deny") status
            end].

Definition strictIdentityDeny (s : strict_surroundings) (target method : bytes) (e : caller_error) : list connect_effect :=
  match tw_Adapter s with
  | Some (true, c) =>
      if bool_decide (DenialReason e = []) then strictUnauthenticatedDeny s target method 403
      else [CnStrict (map Catalogued (adapterDeny c target (identity_event method (#"identity_" ++ DenialReason e) (DenialKey e)) 403 #"refused"))]
  | _ => strictUnauthenticatedDeny s target method 403
  end.

(** A refusal before the identity is known: the status of the strict profile, and
    otherwise. *)
Definition refuse_caller (target method : bytes) (strict plain : Z) (challenge : bool) : list connect_effect :=
  match cw_Profile w with StrictProfile s => strictUnauthenticatedDeny s target method strict | PlainProfile _ => [CnAnswer plain challenge] end.

Definition refuse_identity (target method : bytes) (e : caller_error) : list connect_effect :=
  match cw_Profile w with
  | StrictProfile s => strictIdentityDeny s target method e
  | PlainProfile _ => let '(status, challenge) := writeAuthError e in [CnAnswer status challenge]
  end.

(** ** CONNECT *)

Record tunnel := {
  tn_Target : bytes;
  tn_Host : bytes;
  tn_Port : Z;
  tn_Token : bytes;
  tn_Hint : bytes;
  tn_Peer : option bytes;
  tn_Session : bytes;
  tn_Attestation : bytes;
  tn_Kinds : list bytes;
  tn_Browser : bool;
  tn_NotAfter : option Z;
}.

Definition catalog_of : option surroundings := match cw_Profile w with StrictProfile s => match tw_Adapter s with Some (true, c) => Some c | _ => None end | PlainProfile _ => None end.

(** The event of a host outside the pool's grants. *)
Definition ungranted_event (scope : TunnelScope) : Event := 
  let ev := first_event [] [] (Some (catalog_scope [] scope)) in
  {| ev_Event := []; ev_Pool := ev_Pool ev; ev_Agent := ev_Agent ev; ev_PodUID := ev_PodUID ev; ev_Binding := []; ev_Session := []; ev_Outcome := []; ev_Requester := []; ev_RequesterKind := [];
     ev_RequesterOID := []; ev_TokenSHA256 := []; ev_Tier := []; ev_Decision := []; ev_Groups := []; ev_CacheAgeSec := 0;
     ev_Kid := []; ev_KidSHA256 := []; ev_Peer := []; ev_Serial := []; ev_NotAfter := []; ev_DNSNames := []; ev_Target := []; ev_Method := []; ev_Status := 0; ev_Duration := 0 |}.

(** [handleConnect] from the failure budget to the pool's grants: what it answered
    instead, or the tunnel, and what else it did. *)
Definition connect_checks (r : connect_request) : list connect_effect * option tunnel :=
  let q := sq_Request (cr_Request r) in
  let target := hr_Host q in
  let strict := match cw_Profile w with StrictProfile _ => true | PlainProfile _ => false end in
  let refused status plain challenge := (refuse_caller target (hr_Method q) status plain challenge, None) in
  if over_budget r then refused 429 429 false
  else match SplitHostPort target with
  | None => refused 400 400 false
  | Some (host, portStr) =>
      let port := Atoi_value portStr in
      if strict && (bool_decide (Atoi portStr = None) || (port <? 1) || (65535 <? port)) then refused 400 400 false
      else if negb (IsValidHost host) then refused 400 400 false
      else match ParseProxyAuth (header_of r #"Proxy-Authorization") with
      | None => (recordAuthFailure r ++ refuse_caller target (hr_Method q) 407 407 true, None)
      | Some (token, hint) =>
          let attestation := header_of r AttestationHeader in
          match resolveScope (cr_Kinds r) attestation token hint (cr_Peer r) false with
          | (logs, Err e) => (logs ++ recordAuthFailure r ++ refuse_identity target (hr_Method q) e, None)
          | (logs, Ok scope) =>
              let opened := {| tn_Target := target; tn_Host := host; tn_Port := port; tn_Token := token; tn_Hint := hint; tn_Peer := cr_Peer r;
                 tn_Session := header_of r SessionHeader; tn_Attestation := attestation; tn_Kinds := cr_Kinds r;
                 tn_Browser := match catalog_of with Some c => BrowserHost (su_Catalog c) host port | None => false end; tn_NotAfter := un_NotAfter scope |} in
              match catalog_of with
              | Some c =>
                  if HasHostForPool (su_Catalog c) host port (un_Pool scope) then (logs, Some opened)
                  else (logs ++ [CnStrict (map Catalogued (adapterDeny c target (ungranted_event scope) 403 (if HasHost (su_Catalog c) host port then #"pool" else #"unlisted")))], None)
              | None => (logs, Some opened)
              end
          end
      end
  end.

(** [GetCertificate]: the name of the leaf and whether the browser CA signs it. *)
Definition leaf (t : tunnel) (serverName : bytes) : option (bool * bytes) :=
  let sni := if bool_decide (serverName = []) then tn_Host t else serverName in
  if tn_Browser t then if EqualFold sni (tn_Host t) then Some (true, sni) else None else Some (false, sni).

(** ** Requests *)

(** [forwardRequest]: the strict profile's or the other's. *)
Definition forward_request (target host : bytes) (port : Z) (useTLS : bool) (scope : TunnelScope) (session : bytes) (r : strict_request) : connect_effect :=
  match cw_Profile w with
  | StrictProfile s => CnStrict (forwardStrict s target host port useTLS (Some {| ts_VaultID := ps_VaultID (un_Scope scope); ts_Caller := catalog_scope session scope |}) r)
  | PlainProfile f => CnForward (forwardRequest f target host port useTLS (un_Scope scope) (proxyLimitActor (catalog_scope session scope)) (sq_Request r))
  end.

Definition with_header (h : header_list) (r : strict_request) : strict_request :=
  let q := sq_Request r in
  {| sq_Request := {| hr_Method := hr_Method q; hr_Host := hr_Host q; hr_URL := hr_URL q; hr_Header := h; hr_Trailer := hr_Trailer q; hr_Body := hr_Body q;
                      hr_BodyFails := hr_BodyFails q; hr_ContentLength := hr_ContentLength q |}; sq_ForceQuery := sq_ForceQuery r |}.

(** The handler of the requests inside a tunnel. *)
Definition tunnel_request (t : tunnel) (r : strict_request) : list connect_effect :=
  match resolveScope (tn_Kinds t) (tn_Attestation t) (tn_Token t) (tn_Hint t) (tn_Peer t) true with
  | (logs, Err e) => logs ++ refuse_identity (tn_Target t) (hr_Method (sq_Request r)) e
  | (logs, Ok scope) =>
      let h := header_Del AttestationHeader (header_Del SessionHeader (hr_Header (sq_Request r))) in
      logs ++ [forward_request (tn_Target t) (tn_Host t) (tn_Port t) true scope (tn_Session t) (with_header h r)]
  end.

Definition isAbsoluteForwardProxyRequest (u : URL) : bool :=
  EqualFold (u_Scheme u) #"http" && negb (bool_decide (u_Host u = [])) && bool_decide (u_Fragment u = []).

Definition with_path (path : bytes) (r : strict_request) : strict_request :=
  let q := sq_Request r in let u := hr_URL q in
  {| sq_Request := {| hr_Method := hr_Method q; hr_Host := hr_Host q;
                      hr_URL := {| ul_IsAbs := ul_IsAbs u; ul_User := ul_User u; ul_Fragment := ul_Fragment u; ul_RawPath := ul_RawPath u; ul_Path := path; ul_RawQuery := ul_RawQuery u |};
                      hr_Header := hr_Header q; hr_Trailer := hr_Trailer q; hr_Body := hr_Body q;
                      hr_BodyFails := hr_BodyFails q; hr_ContentLength := hr_ContentLength q |}; sq_ForceQuery := sq_ForceQuery r |}.

(** [handleForward] *)
Definition handleForward (r : connect_request) : list connect_effect :=
  let q := sq_Request (cr_Request r) in
  let refused strict plain challenge := refuse_caller (hr_Host q) (hr_Method q) strict plain challenge in
  if over_budget r then refused 429 429 false
  else
    let host := u_Hostname (cr_URL r) in
    let portStr := if bool_decide (u_Port (cr_URL r) = []) then #"80" else u_Port (cr_URL r) in
    match Atoi portStr with
    | None => refused 400 400 false
    | Some port =>
        if negb (IsValidHost host) then refused 400 400 false
        else
          let path := ul_Path (hr_URL q) in
          match ParseProxyAuth (header_of r #"Proxy-Authorization") with
          | None => recordAuthFailure r ++ refused 407 407 true
          | Some (token, hint) =>
              match resolveScope (cr_Kinds r) [] token hint (cr_Peer r) false with
              | (logs, Err e) => logs ++ recordAuthFailure r ++ refuse_identity (hr_Host q) (hr_Method q) e
              | (logs, Ok scope) =>
                  logs ++ [forward_request (JoinHostPort host portStr) host port false scope [] (with_path (if bool_decide (path = []) then #"/" else path) (cr_Request r))]
              end
          end
    end.

(** [dispatch]: a CONNECT request is left to [handleConnect]. *)
Definition dispatch (r : connect_request) : option (list connect_effect) :=
  let q := sq_Request (cr_Request r) in
  if bool_decide (hr_Method q = #"CONNECT") then None
  else Some (if isAbsoluteForwardProxyRequest (cr_URL r) then handleForward r else refuse_caller (hr_Host q) (hr_Method q) 400 400 false).
End Connect.

(** ** The refusal log *)

Definition refusalLogEvery : Z := 10 * Second.

(** [refusalLog]: a reason without a time has the zero time. *)
Record refusalLog := { rf_last : gmap bytes Z; rf_counts : gmap bytes Z }.

(** [logRefusal] at [now]: the count of the line it writes, if it writes one. *)
Definition logRefusal (reason : bytes) (now : Z) (l : refusalLog) : option (bytes * Z) * refusalLog :=
  let reason := if bool_decide (reason = []) then #"unspecified" else reason in
  let count := default 0 (rf_counts l !! reason) + 1 in
  let counted := {| rf_last := rf_last l; rf_counts := <[reason := count]> (rf_counts l) |} in
  if match rf_last l !! reason with Some t => time_Sub now t <? refusalLogEvery | None => false end then (None, counted)
  else (Some (reason, count), {| rf_last := <[reason := now]> (rf_last l); rf_counts := <[reason := 0]> (rf_counts l) |}).

(** A sequence of refusals with their times: the lines written, and the log. *)
Fixpoint log_refusals (refusals : list (bytes * Z)) (l : refusalLog) : list (bytes * Z) * refusalLog :=
  match refusals with
  | [] => ([], l)
  | (reason, now) :: refusals =>
      let '(line, l) := logRefusal reason now l in
      let '(lines, l) := log_refusals refusals l in
      (match line with Some x => [x] | None => [] end ++ lines, l)
  end.

Definition line_counts (reason : bytes) (lines : list (bytes * Z)) : Z := foldr (λ '(r, n) sum, (if bool_decide (r = reason) then n else 0) + sum) 0 lines.
Definition refused_for (reason : bytes) (refusals : list (bytes * Z)) : Z := Z.of_nat (length (List.filter (λ '(r, _), bool_decide (r = reason)) refusals)).

(** No refusal is lost: the lines of a reason and the count pending add up. *)
Lemma refusals_counted reason refusals : reason ≠ [] → reason ≠ #"unspecified" → ∀ l lines l', log_refusals refusals l = (lines, l') →
  line_counts reason lines + default 0 (rf_counts l' !! reason) = default 0 (rf_counts l !! reason) + refused_for reason refusals.
Proof.
  intros Hne Hun. induction refusals as [|[r now] refusals IH]; intros l lines l'; cbn [log_refusals];
    [intros [= <- <-]; unfold refused_for; cbn [line_counts foldr List.filter length]; lia|].
  destruct (logRefusal r now l) as [line l1] eqn:E1. destruct (log_refusals refusals l1) as [lines1 l2] eqn:E2. intros [= <- <-]. specialize (IH _ _ _ E2).
  assert (Hf : refused_for reason ((r, now) :: refusals) = (if bool_decide (r = reason) then 1 else 0) + refused_for reason refusals).
  { unfold refused_for. cbn [List.filter]. destruct (bool_decide (r = reason)); [cbn [length]; lia|lia]. }
  rewrite Hf. revert E1. unfold logRefusal. set (r' := if bool_decide (r = []) then _ else r).
  assert (Hr' : bool_decide (r' = reason) = bool_decide (r = reason)) by (subst r'; destruct (bool_decide_reflect (r = [])) as [->|]; [by rewrite !bool_decide_false by (intros E; by destruct E)|done]).
  assert (Hstep : ∀ v, default 0 (<[r' := v]> (rf_counts l) !! reason) = if bool_decide (r = reason) then v else default 0 (rf_counts l !! reason)).
  { intros v. rewrite <- Hr'. case_bool_decide as E; [by rewrite E, lookup_insert_eq|by rewrite lookup_insert_ne]. }
  assert (Hold : bool_decide (r = reason) = true → default 0 (rf_counts l !! r') = default 0 (rf_counts l !! reason)) by (rewrite <- Hr'; by intros ->%bool_decide_eq_true).
  destruct (match rf_last l !! r' with Some t => _ | None => false end); intros [= <- <-]; cbn [rf_counts] in IH; rewrite Hstep in IH; cbn [app].
  - destruct (bool_decide (r = reason)); [rewrite Hold in IH by done; lia|lia].
  - cbn [line_counts foldr]. fold (line_counts reason lines1). rewrite Hr'. destruct (bool_decide (r = reason)); [rewrite Hold by done; lia|lia].
Qed.

(** ** The proxy's handlers *)

Inductive handler :=
| HWaiting (r : connect_request)     (* before its checks *)
| HOpening (t : tunnel)              (* reserved; until the TLS handshake is done *)
| HServing (t : tunnel).             (* tracked *)

Record proxy_options := { po_Strict : bool; po_TunnelLimit : Z; po_DrainTunnels : bool }.

Definition DefaultMaxTunnels : Z := 10000.
Definition tunnel_limit (o : proxy_options) : Z := if po_TunnelLimit o <=? 0 then DefaultMaxTunnels else po_TunnelLimit o.

Record proxy_state := { px_handlers : gmap nat handler; px_draining : bool }.
Definition px_start : proxy_state := {| px_handlers := ∅; px_draining := false |}.
Definition with_handler (id : nat) (h : handler) (s : proxy_state) : proxy_state := {| px_handlers := <[id := h]> (px_handlers s); px_draining := px_draining s |}.
Definition without_handler (id : nat) (s : proxy_state) : proxy_state := {| px_handlers := delete id (px_handlers s); px_draining := px_draining s |}.

Definition is_reserved (h : handler) : bool := match h with HWaiting _ => false | _ => true end.
(** The tunnels [tunnelWG] counts. *)
Definition reserved (s : proxy_state) : gmap nat handler := filter (λ kv, is_reserved kv.2 = true) (px_handlers s).
(** The slots taken: every handler holds one from its start to its end. *)
Definition slots (s : proxy_state) : Z := Z.of_nat (size (px_handlers s)).

Inductive proxy_event :=
| PxArrived (id : nat) (r : connect_request)
| PxFull (r : connect_request) (l : list connect_effect)
| PxRefused (id : nat) (w : connect_world) (r : connect_request) (l : list connect_effect)
| PxReserved (id : nat) (w : connect_world) (r : connect_request) (t : tunnel)
| PxServing (id : nat) (serverName : bytes)
| PxRequest (id : nat) (w : connect_world) (r : strict_request) (l : list connect_effect)
| PxEnded (id : nat)
| PxShutdown.

Definition profile_is (o : proxy_options) (w : connect_world) : Prop :=
  match cw_Profile w with StrictProfile _ => po_Strict o = true | PlainProfile _ => po_Strict o = false end.

Section Proxy.
Context {unicode : UnicodeTables} (o : proxy_options).

Definition slot_free (s : proxy_state) : bool := negb (po_Strict o) || (slots s <? tunnel_limit o).

(** The refusal of a CONNECT on a proxy that is shutting down. *)
Definition shutting_down (w : connect_world) (r : connect_request) : list connect_effect :=
  let q := sq_Request (cr_Request r) in refuse_caller w (hr_Host q) (hr_Method q) 503 503 false.

Inductive proxy_step : proxy_state → proxy_event → proxy_state → Prop :=
| step_arrived s id r : px_handlers s !! id = None → slot_free s = true → proxy_step s (PxArrived id r) (with_handler id (HWaiting r) s)
| step_full s w r : profile_is o w → slot_free s = false →
    proxy_step s (PxFull r (refuse_caller w (hr_Host (sq_Request (cr_Request r))) (hr_Method (sq_Request (cr_Request r))) 429 429 false)) s
| step_refused s id w r l : profile_is o w → px_handlers s !! id = Some (HWaiting r) → connect_checks w r = (l, None) → proxy_step s (PxRefused id w r l) (without_handler id s)
| step_draining s id w r l t : profile_is o w → px_handlers s !! id = Some (HWaiting r) → connect_checks w r = (l, Some t) → po_DrainTunnels o = true → px_draining s = true →
    proxy_step s (PxRefused id w r (l ++ shutting_down w r)) (without_handler id s)
| step_reserved s id w r l t : profile_is o w → px_handlers s !! id = Some (HWaiting r) → connect_checks w r = (l, Some t) → po_DrainTunnels o && px_draining s = false →
    proxy_step s (PxReserved id w r t) (with_handler id (HOpening t) s)
| step_serving s id t serverName : px_handlers s !! id = Some (HOpening t) → is_Some (leaf t serverName) →
    proxy_step s (PxServing id serverName) (with_handler id (HServing t) s)
| step_request s id w t r : profile_is o w → px_handlers s !! id = Some (HServing t) → proxy_step s (PxRequest id w r (tunnel_request w t r)) s
| step_ended s id h : px_handlers s !! id = Some h → is_reserved h = true → proxy_step s (PxEnded id) (without_handler id s)
| step_shutdown s : proxy_step s PxShutdown {| px_handlers := px_handlers s; px_draining := po_DrainTunnels o |}.

Inductive proxy_run : proxy_state → list proxy_event → proxy_state → Prop :=
| run_stop s : proxy_run s [] s
| run_step s e s' l s'' : proxy_step s e s' → proxy_run s' l s'' → proxy_run s (e :: l) s''.
End Proxy.

(** ** What stands behind a scope *)

Section Facts.
Context {unicode : UnicodeTables}.

(** A scope the resolver gives, of a kind the listener admits; with an attestor,
    for the connection's peer and before its deadline. *)
Definition vouched (w : connect_world) (kinds : list bytes) (attestation token hint : bytes) (peer : option bytes) (recheck : bool) (scope : TunnelScope) : Prop :=
  un_IdentityKind scope ∈ kinds ∧
  match cw_Attestor w with
  | None => cw_Resolve w token hint = Ok scope
  | Some a => ∃ p, peer = Some p ∧ (∀ t, un_NotAfter scope = Some t → cw_Now w < t) ∧
      match at_Reattest a with Some again => if recheck then again attestation token p else at_Attest a attestation token p | None => at_Attest a attestation token p end = Ok (Some scope)
  end.

Lemma resolveScope_vouched w kinds attestation token hint peer recheck logs scope :
  resolveScope w kinds attestation token hint peer recheck = (logs, Ok scope) → logs = [] ∧ vouched w kinds attestation token hint peer recheck scope.
Proof using Type.
  unfold resolveScope, resolveAnyScope, vouched, KindAdmitted. destruct (cw_Attestor w) as [a|].
  - destruct peer as [p|]; [|done]. cbn zeta.
    destruct (match at_Reattest a with Some _ => _ | None => _ end attestation token p) as [[s|]|e] eqn:E; [|by case_bool_decide|by case_bool_decide].
    destruct (un_NotAfter s) as [t|] eqn:Et.
    + destruct (Z.leb_spec t (cw_Now w)); [done|]. case_bool_decide; [|done]. intros [= <- <-]. split; [done|]. split; [done|]. exists p. split; [done|]. split; [intros t'; rewrite Et; by intros [= <-]|].
      destruct (at_Reattest a); [|done]. by destruct recheck.
    + case_bool_decide; [|done]. intros [= <- <-]. split; [done|]. split; [done|]. exists p. split; [done|]. split; [by rewrite Et|]. destruct (at_Reattest a); [|done]. by destruct recheck.
  - destruct (cw_Resolve w token hint) as [s|e] eqn:E; [|done]. case_bool_decide; [|done]. by intros [= <- <-].
Qed.

(** Effects that forward nothing. *)
Definition strict_denies (e : strict_effect) : bool :=
  match e with Refusal _ | Begun _ _ | Ended _ _ _ | Catalogued (Row _ _) | Catalogued (Answer _) => true | _ => false end.
Definition denies (e : connect_effect) : bool :=
  match e with CnAnswer _ _ | CnFailure _ | CnRefusal _ _ => true | CnStrict l => forallb strict_denies l | CnForward _ => false end.

Lemma adapterDeny_denies w target ev status outcome : forallb strict_denies (map Catalogued (adapterDeny w target ev status outcome)) = true.
Proof using Type. done. Qed.
Lemma unauthenticated_denies s target method status : forallb denies (strictUnauthenticatedDeny s target method status) = true.
Proof using Type.
  unfold strictUnauthenticatedDeny. destruct (tw_Adapter s) as [[[] c]|]; [done|done|]. unfold strictDeny. destruct (negb _); [done|]. cbn. by destruct (tw_Begin s _).
Qed.
Lemma refuse_identity_denies w target method e : forallb denies (refuse_identity w target method e) = true.
Proof using Type.
  unfold refuse_identity, strictIdentityDeny. destruct (cw_Profile w) as [s|f]; [|by destruct (writeAuthError e)].
  destruct (tw_Adapter s) as [[[] c]|]; [|apply unauthenticated_denies..]. case_bool_decide; [apply unauthenticated_denies|done].
Qed.
Lemma resolve_logs_deny w kinds attestation token hint peer recheck : forallb denies (resolveScope w kinds attestation token hint peer recheck).1 = true.
Proof using Type.
  unfold resolveScope, resolveAnyScope. destruct (cw_Attestor w) as [a|].
  - destruct peer as [p|]; [|done]. cbn zeta. destruct (match at_Reattest a with Some _ => _ | None => _ end attestation token p) as [[s|]|e]; [|done|done].
    destruct (un_NotAfter s); [destruct (_ <=? _); [done|]|]; by destruct (KindAdmitted _ _).
  - destruct (cw_Resolve w token hint); [|done]. by destruct (KindAdmitted _ _).
Qed.

Lemma header_Del_Get name name' h : CanonicalHeaderKey name = CanonicalHeaderKey name' → header_Get (header_Del name h) name' = [].
Proof using Type.
  intros E. unfold header_Get, header_Values, header_Del. destruct (List.find _ _) as [[k v]|] eqn:Ef; [|done]. exfalso. apply List.find_some in Ef as [Hin Hk].
  apply List.filter_In in Hin as [_ Hn]. apply bool_decide_eq_true in Hk. apply negb_true_iff, bool_decide_eq_false in Hn. congruence.
Qed.
Lemma header_Del_other name name' h : CanonicalHeaderKey name ≠ CanonicalHeaderKey name' → header_Values (header_Del name h) name' = header_Values h name'.
Proof using Type.
  intros Hne. unfold header_Values, header_Del. induction h as [|[k v] h IH]; [done|]. cbn [List.filter List.find].
  destruct (bool_decide_reflect (k = CanonicalHeaderKey name')) as [->|Hk].
  - rewrite (bool_decide_false (_ = CanonicalHeaderKey name)) by congruence. cbn [negb List.find]. by rewrite bool_decide_true.
  - destruct (negb _); [cbn [List.find]; rewrite (bool_decide_false _ Hk)|]; exact IH.
Qed.

(** A tunnel that was opened. *)
Lemma connect_checks_tunnel w r logs t : connect_checks w r = (logs, Some t) →
  tn_Target t = hr_Host (sq_Request (cr_Request r)) ∧ (∃ portStr, SplitHostPort (tn_Target t) = Some (tn_Host t, portStr) ∧ tn_Port t = Atoi_value portStr) ∧
  ParseProxyAuth (header_of r #"Proxy-Authorization") = Some (tn_Token t, tn_Hint t) ∧ tn_Peer t = cr_Peer r ∧ tn_Kinds t = cr_Kinds r ∧
  tn_Session t = header_of r SessionHeader ∧ tn_Attestation t = header_of r AttestationHeader ∧ over_budget w r = false ∧
  ∃ scope, vouched w (cr_Kinds r) (tn_Attestation t) (tn_Token t) (tn_Hint t) (cr_Peer r) false scope ∧ tn_NotAfter t = un_NotAfter scope ∧
    ∀ c, catalog_of w = Some c → HasHostForPool (su_Catalog c) (tn_Host t) (tn_Port t) (un_Pool scope) = true.
Proof using Type.
  unfold connect_checks. destruct (over_budget w r) eqn:Eb; [done|]. destruct (SplitHostPort _) as [[host portStr]|] eqn:Es; [|done]. destruct (_ && _); [done|]. destruct (negb _); [done|].
  destruct (ParseProxyAuth _) as [[token hint]|] eqn:Ea; [|done]. destruct (resolveScope _ _ _ _ _ _ _) as [l [scope|e]] eqn:Er; [|done].
  apply resolveScope_vouched in Er as [-> Hv].
  assert (Ht : ∀ t', match catalog_of w with Some c => if HasHostForPool (su_Catalog c) host (Atoi_value portStr) (un_Pool scope) then ([], Some t') else
      ([] ++ [CnStrict (map Catalogued (adapterDeny c (hr_Host (sq_Request (cr_Request r))) (ungranted_event scope) 403 (if HasHost (su_Catalog c) host (Atoi_value portStr) then #"pool" else #"unlisted")))], None)
    | None => ([], Some t') end = (logs, Some t) → t' = t ∧ ∀ c, catalog_of w = Some c → HasHostForPool (su_Catalog c) host (Atoi_value portStr) (un_Pool scope) = true).
  { intros t'. destruct (catalog_of w) as [c|]; [|by intros [= _ ->]]. destruct (HasHostForPool _ _ _ _) eqn:Eh; [|done]. intros [= _ ->]. split; [done|]. by intros c' [= <-]. }
  intros [<- Hc]%Ht. cbn [tn_Target tn_Host tn_Port tn_Token tn_Hint tn_Peer tn_Session tn_Attestation tn_Kinds tn_NotAfter]. split; [done|]. split; [by exists portStr|].
  do 6 (split; [done|]). exists scope. done.
Qed.
End Facts.

(** ** Runs *)

Section Runs.
Context {unicode : UnicodeTables} (o : proxy_options).

Definition tunnel_of (h : handler) : option tunnel := match h with HWaiting _ => None | HOpening t | HServing t => Some t end.

(** Every open tunnel was reserved by a CONNECT that passed its checks. *)
Definition tunnels_from (past : list proxy_event) (s : proxy_state) : Prop :=
  ∀ id h t, px_handlers s !! id = Some h → tunnel_of h = Some t → ∃ w r logs, profile_is o w ∧ PxReserved id w r t ∈ past ∧ connect_checks w r = (logs, Some t).

Lemma tunnels_from_more past e s : tunnels_from past s → tunnels_from (past ++ [e]) s.
Proof using Type. intros H id h t Hh Ht. destruct (H id h t Hh Ht) as (w & r & logs & Hp & Hin & Hc). exists w, r, logs. by rewrite elem_of_app; auto. Qed.

Lemma tunnels_from_with past s id h : tunnels_from past s →
  (∀ t, tunnel_of h = Some t → ∃ w r logs, profile_is o w ∧ PxReserved id w r t ∈ past ∧ connect_checks w r = (logs, Some t)) → tunnels_from past (with_handler id h s).
Proof using Type.
  intros H Hh id' h' t. cbn [with_handler px_handlers]. intros [[<- <-]|[_ Hl]]%lookup_insert_Some; [apply Hh|by apply H].
Qed.
Lemma tunnels_from_without past s id : tunnels_from past s → tunnels_from past (without_handler id s).
Proof using Type. intros H id' h t. cbn [without_handler px_handlers]. intros [_ Hl]%lookup_delete_Some. by apply H. Qed.

Lemma step_tunnels past s e s' : tunnels_from past s → proxy_step o s e s' → tunnels_from (past ++ [e]) s'.
Proof using Type.
  intros H Hs. assert (H' : tunnels_from (past ++ [e]) s) by by apply tunnels_from_more. destruct Hs; try done.
  - by apply tunnels_from_with.
  - by apply tunnels_from_without.
  - by apply tunnels_from_without.
  - apply tunnels_from_with; [done|]. intros ? [= <-]. exists w, r, l. split; [done|]. split; [|done]. apply elem_of_app. right. apply list_elem_of_here.
  - apply tunnels_from_with; [done|]. intros ? [= <-]. match goal with Hl : px_handlers s !! id = Some _ |- _ => exact (H' _ _ _ Hl eq_refl) end.
  - by apply tunnels_from_without.
Qed.

(** A request of a run was served by a tunnel the run had opened. *)
Lemma request_tunnel past s l s' id w r eff : tunnels_from past s → proxy_run o s l s' → PxRequest id w r eff ∈ l →
  ∃ t w0 r0 logs, profile_is o w ∧ PxReserved id w0 r0 t ∈ past ++ l ∧ connect_checks w0 r0 = (logs, Some t) ∧ eff = tunnel_request w t r.
Proof using Type.
  intros H Hr. revert past H. induction Hr as [|s e s1 l s2 Hs Hr IH]; intros past H; [by intros ?%elem_of_nil|].
  rewrite elem_of_cons. intros [He|Hin].
  - subst e. inversion Hs as [| | | | | |? ? ? t ? Hp Hl| |]; subst. destruct (H _ _ t Hl eq_refl) as (w0 & r0 & logs & _ & Hin & Hc).
    exists t, w0, r0, logs. split; [done|]. split; [by apply elem_of_app; left|done].
  - destruct (IH (past ++ [e])) as (t & w0 & r0 & logs & Hp & Hi & Hc & He); [by eapply step_tunnels|done|].
    exists t, w0, r0, logs. split; [done|]. split; [|done]. by rewrite <- app_assoc in Hi.
Qed.

(** C9: a request of a tunnel is forwarded only for a caller that is resolved
    again.  Whatever the order of connections, requests, ends and shutdown, it is
    refused, or forwarded once: to the target of the CONNECT the tunnel was opened
    for, whose Proxy-Authorization named the token and whose caller was resolved,
    with the host granted to its pool; for a caller resolved now from the same
    token, hint, peer and attestation, of a kind the listener admits and before its
    deadline; with the session of the CONNECT, whatever the request's own headers
    say. *)
Theorem tunnel_requests_reauthenticated l s id w r eff : proxy_run o px_start l s → PxRequest id w r eff ∈ l →
  forallb denies eff = true ∨
  ∃ t w0 r0 scope0 scope r', PxReserved id w0 r0 t ∈ l ∧ tn_Target t = hr_Host (sq_Request (cr_Request r0)) ∧
    ParseProxyAuth (header_of r0 #"Proxy-Authorization") = Some (tn_Token t, tn_Hint t) ∧
    vouched w0 (cr_Kinds r0) (header_of r0 AttestationHeader) (tn_Token t) (tn_Hint t) (cr_Peer r0) false scope0 ∧
    (∀ c, catalog_of w0 = Some c → HasHostForPool (su_Catalog c) (tn_Host t) (tn_Port t) (un_Pool scope0) = true) ∧
    vouched w (cr_Kinds r0) (header_of r0 AttestationHeader) (tn_Token t) (tn_Hint t) (cr_Peer r0) true scope ∧
    eff = [forward_request w (tn_Target t) (tn_Host t) (tn_Port t) true scope (header_of r0 SessionHeader) r'] ∧
    header_Get (hr_Header (sq_Request r')) SessionHeader = [] ∧ header_Get (hr_Header (sq_Request r')) AttestationHeader = [] ∧
    hr_Method (sq_Request r') = hr_Method (sq_Request r) ∧ hr_URL (sq_Request r') = hr_URL (sq_Request r) ∧
    ∀ name, CanonicalHeaderKey name ≠ SessionHeader → CanonicalHeaderKey name ≠ AttestationHeader →
      header_Values (hr_Header (sq_Request r')) name = header_Values (hr_Header (sq_Request r)) name.
Proof using Type.
  intros Hr Hin. destruct (request_tunnel [] px_start l s id w r eff) as (t & w0 & r0 & logs & _ & Hres & Hc & ->); [intros ??? H; cbn in H; by rewrite lookup_empty in H|done|done|].
  destruct (connect_checks_tunnel _ _ _ _ Hc) as (Ht & _ & Ha & Hpeer & Hk & Hsess & Hatt & _ & scope0 & Hv0 & _ & Hg). unfold tunnel_request.
  pose proof (resolve_logs_deny w (tn_Kinds t) (tn_Attestation t) (tn_Token t) (tn_Hint t) (tn_Peer t) true) as Hl.
  destruct (resolveScope w _ _ _ _ _ _) as [logs' [scope|e]] eqn:Er; [right|left].
  - apply resolveScope_vouched in Er as [-> Hv]. eexists t, w0, r0, scope0, scope, _. split; [exact Hres|]. split; [done|]. split; [done|]. rewrite <- Hatt. split; [done|]. split; [done|].
    split; [by rewrite <- Hk, <- Hpeer|]. split; [by rewrite <- Hsess|]. cbn [with_header sq_Request hr_Header hr_Method hr_URL].
    assert (Hne : CanonicalHeaderKey SessionHeader ≠ CanonicalHeaderKey AttestationHeader) by (apply (bool_decide_unpack (¬ _)); vm_compute; exact I).
    split; [unfold header_Get at 1; rewrite header_Del_other by congruence; fold (header_Get (header_Del SessionHeader (hr_Header (sq_Request r))) SessionHeader); by apply header_Del_Get|].
    split; [by apply header_Del_Get|]. do 2 (split; [done|]). intros name H1 H2. rewrite !header_Del_other; [done| |]; intros E; [apply H1|apply H2]; rewrite <- E; reflexivity.
  - rewrite forallb_app. apply andb_true_intro. split; [exact Hl|apply refuse_identity_denies].
Qed.

Lemma slots_with s id h : slots (with_handler id h s) = slots s + match px_handlers s !! id with Some _ => 0 | None => 1 end.
Proof using Type. unfold slots. cbn [with_handler px_handlers]. rewrite map_size_insert. destruct (px_handlers s !! id); cbn; lia. Qed.
Lemma slots_without s id : slots (without_handler id s) <= slots s.
Proof using Type. unfold slots. cbn [without_handler px_handlers]. rewrite map_size_delete. destruct (px_handlers s !! id); cbn; lia. Qed.

Lemma step_slots s e s' : po_Strict o = true → proxy_step o s e s' → slots s <= tunnel_limit o → slots s' <= tunnel_limit o.
Proof using Type.
  intros Hp Hs Hl. destruct Hs; try done; try (etrans; [apply slots_without|done]); rewrite ?slots_with;
    match goal with H : px_handlers _ !! _ = _ |- _ => rewrite H end; try lia.
  match goal with H : slot_free o s = true |- _ => unfold slot_free in H; rewrite Hp in H; cbn in H; apply Z.ltb_lt in H end. lia.
Qed.
Lemma run_slots s l s' : po_Strict o = true → proxy_run o s l s' → slots s <= tunnel_limit o → slots s' <= tunnel_limit o.
Proof using Type. intros Hp Hr. induction Hr as [|s e s1 l s2 Hs Hr IH]; [done|]. intros Hl. by eapply IH, step_slots. Qed.

Lemma elem_of_reserved s id : id ∈ dom (reserved s) ↔ ∃ h, px_handlers s !! id = Some h ∧ is_reserved h = true.
Proof using Type.
  unfold reserved. rewrite elem_of_dom. split.
  - intros [h [H1 H2]%map_lookup_filter_Some]. by exists h.
  - intros (h & H1 & H2). exists h. by apply map_lookup_filter_Some.
Qed.

Lemma step_draining_reserved s e s' : proxy_step o s e s' → px_draining s = true → po_DrainTunnels o = true → px_draining s' = true ∧ dom (reserved s') ⊆ dom (reserved s).
Proof using Type.
  intros Hs Hd Ho. split; [by destruct Hs|]. intros x. rewrite !elem_of_reserved. intros (h & Hh & Hx). destruct Hs; try (by exists h); try (by rewrite Ho, Hd in *);
    cbn [with_handler without_handler px_handlers] in Hh; try (apply lookup_delete_Some in Hh as [_ Hh]; by exists h);
    apply lookup_insert_Some in Hh as [[<- <-]|[_ Hh]]; try (by exists h); try done.
  by eexists.
Qed.
Lemma run_draining_reserved s l s' : proxy_run o s l s' → px_draining s = true → po_DrainTunnels o = true → dom (reserved s') ⊆ dom (reserved s).
Proof using Type.
  intros Hr. induction Hr as [|s e s1 l s2 Hs Hr IH]; [done|]. intros Hd Ho. destruct (step_draining_reserved _ _ _ Hs Hd Ho) as [Hd' H1]. pose proof (IH Hd' Ho). set_solver.
Qed.
Lemma run_shutdown s l s' : proxy_run o s l s' → po_DrainTunnels o = true → px_draining s = true ∨ PxShutdown ∈ l → px_draining s' = true.
Proof using Type.
  intros Hr Ho. induction Hr as [|s e s1 l s2 Hs Hr IH]; [intros [?|?%elem_of_nil]; done|]. rewrite elem_of_cons. intros [Hd|[<-|Hin]]; apply IH; [| |by right]; left.
  - by destruct Hs.
  - inversion Hs; subst. exact Ho.
Qed.

End Runs.

Module TunnelDemo.
#[local] Existing Instance latin1_tables.

Definition scope : TunnelScope :=
  {| un_Scope := ForwardDemo.scope; un_Pool := []; un_WorkloadID := []; un_ClaimedRun := []; un_AttestedRequester := []; un_IdentityKind := []; un_NotAfter := None |}.
Definition world : connect_world :=
  {| cw_Profile := PlainProfile ForwardDemo.world; cw_Check := Some (λ _, true); cw_Attestor := None;
     cw_Resolve := λ token hint, if bool_decide (token = #"av_agt_1") then Ok scope else Err (SessionErr ErrInvalidSession); cw_Now := 0; cw_OwnerUID := λ _, None |}.

Definition request_with (method host path : bytes) (h : header_list) : strict_request :=
  {| sq_Request := {| hr_Method := method; hr_Host := host; hr_URL := {| ul_IsAbs := false; ul_User := false; ul_Fragment := []; ul_RawPath := []; ul_Path := path; ul_RawQuery := [] |};
                      hr_Header := h; hr_Trailer := false; hr_Body := []; hr_BodyFails := false; hr_ContentLength := 0 |}; sq_ForceQuery := false |}.
Definition connect (token : bytes) : connect_request :=
  {| cr_Request := request_with #"CONNECT" #"api.vendor.com:443" [] [(#"Proxy-Authorization", [ #"Bearer " ++ token]); (SessionHeader, [ #"session"])];
     cr_URL := {| u_Scheme := []; u_Opaque := []; u_User := false; u_Host := []; u_Path := []; u_ForceQuery := false; u_RawQuery := []; u_Fragment := []; u_Hostname := []; u_Port := [] |};
     cr_RemoteAddr := #"10.0.0.7:4711"; cr_Peer := None; cr_Kinds := defaultKinds |}.
Definition opened : tunnel :=
  {| tn_Target := #"api.vendor.com:443"; tn_Host := #"api.vendor.com"; tn_Port := 443; tn_Token := #"av_agt_1"; tn_Hint := []; tn_Peer := None; tn_Session := #"session";
     tn_Attestation := []; tn_Kinds := defaultKinds; tn_Browser := false; tn_NotAfter := None |}.
Definition inner : strict_request := request_with #"GET" #"elsewhere" #"/items" [(SessionHeader, [ #"forged"]); (#"Accept", [ #"*/*"])].

Lemma connect_opens : connect_checks world (connect #"av_agt_1") = ([], Some opened).
Proof. vm_compute. reflexivity. Qed.
(** Another token counts as a failure of its address. *)
Lemma wrong_token_counted : connect_checks world (connect #"other") = ([CnFailure #"mitm:10.0.0.7"; CnAnswer 407 true], None).
Proof. vm_compute. reflexivity. Qed.

Definition options : proxy_options := {| po_Strict := false; po_TunnelLimit := 1; po_DrainTunnels := true |}.
Definition before : list proxy_event := [PxArrived 0 (connect #"av_agt_1"); PxReserved 0 world (connect #"av_agt_1") opened; PxServing 0 []; PxShutdown].
Definition draining_state : proxy_state := {| px_handlers := {[0%nat := HServing opened]}; px_draining := true |}.
Definition after : list proxy_event := [PxRequest 0 world inner (tunnel_request world opened inner); PxEnded 0].

Lemma before_runs : proxy_run options px_start before draining_state.
Proof.
  eapply run_step; [by apply step_arrived|]. eapply run_step; [eapply step_reserved; [done|apply lookup_insert_eq|exact connect_opens|done]|].
  eapply run_step; [eapply step_serving; [apply lookup_insert_eq|by eexists]|]. eapply run_step; [apply step_shutdown|].
  cbn [with_handler px_handlers px_start]. rewrite !insert_insert_eq. apply run_stop.
Qed.
Lemma after_runs : proxy_run options draining_state after {| px_handlers := ∅; px_draining := true |}.
Proof.
  eapply run_step; [eapply step_request; [done|apply lookup_insert_eq]|]. eapply run_step; [eapply step_ended; [apply lookup_insert_eq|done]|].
  unfold without_handler. cbn [px_handlers draining_state px_draining]. rewrite delete_singleton_eq. apply run_stop.
Qed.

Lemma proxy_run_app o s l s' l' s'' : proxy_run o s l s' → proxy_run o s' l' s'' → proxy_run o s (l ++ l') s''.
Proof. intros H H'. induction H; [done|]. cbn [app]. by eapply run_step; [|apply IHproxy_run]. Qed.

Lemma only_reserved : Forall (λ e, match e with PxReserved _ _ r t => r = connect #"av_agt_1" ∧ t = opened | _ => True end) (before ++ after).
Proof. by repeat constructor. Qed.

Lemma tunnel_requests_reauthenticated_witness : ∃ scope r', vouched world defaultKinds [] #"av_agt_1" [] None true scope ∧
  tunnel_request world opened inner = [forward_request world #"api.vendor.com:443" #"api.vendor.com" 443 true scope #"session" r'] ∧ header_Get (hr_Header (sq_Request r')) SessionHeader = [].
Proof.
  destruct (tunnel_requests_reauthenticated options (before ++ after) _ 0%nat world inner (tunnel_request world opened inner) (proxy_run_app _ _ _ _ _ _ before_runs after_runs))
    as [Hd|(t & w0 & r0 & scope0 & scope & r' & Hres & _ & _ & _ & _ & Hv & He & Hs & _)].
  - apply elem_of_app. right. apply list_elem_of_here.
  - exfalso. revert Hd. vm_compute. discriminate.
  - exists scope, r'. pose proof (proj1 (Forall_forall _ _) only_reserved _ Hres) as [-> ->].
    split; [exact Hv|]. split; [exact He|exact Hs].
Defined.

End TunnelDemo.
