(* ===== verification/AccountTheorems.v ===== *)
(** * Accounts in the store ([internal/store/sql_store.go])

    Users, agents, vaults, grants, sessions, invites and codes.  A method is a
    function of the tables, which is what its one statement or transaction does;
    identifiers, tokens and the time are arguments, and so is SHA-256.  A time is
    stored with the precision [unit] of the dialect.  Columns no other
    operation reads (when a row was updated) are left out, and so are the tables a
    deleted vault takes with it and this file does not hold. *)

From S2P Require Import Prelude GoString RequestLogs.

Inductive db_error := NoRows | UniqueViolation | ErrNotFirstUser | OtherFailure.

(** ** Rows *)

Record Password := { pw_Hash : bytes; pw_Salt : bytes; pw_Time : Z; pw_Memory : Z; pw_Threads : Z }.

Record User := { us_Email : bytes; us_Password : Password; us_Role : bytes; us_IsActive : bool; us_CreatedAt : Z }.

Record Agent := { ag_Name : bytes; ag_Role : bytes; ag_Status : bytes; ag_CreatedBy : bytes; ag_CreatedAt : Z; ag_RevokedAt : option Z }.

Record VaultRow := { vt_Name : bytes; vt_CreatedAt : Z }.

Record Grant := { gt_ActorType : bytes; gt_Role : bytes; gt_CreatedAt : Z }.

(** A row of [sessions]; empty strings are NULL. *)
Record SessionRow := {
  ss_UserID : bytes;
  ss_VaultID : bytes;
  ss_AgentID : bytes;
  ss_VaultRole : bytes;
  ss_ExpiresAt : option Z;
  ss_CreatedAt : Z;
  ss_LastUsedAt : option Z;
  ss_IdleSeconds : option Z;
  ss_DeviceLabel : bytes;
  ss_LastIP : bytes;
  ss_LastUserAgent : bytes;
  ss_PublicID : bytes;
  ss_Label : bytes;
  ss_CreatedByActorID : bytes;
  ss_CreatedByActorType : bytes;
}.

(** [iv_Vaults] is [user_invite_vaults], by vault. *)
Record InviteRow := {
  iv_TokenHash : bytes;
  iv_Email : bytes;
  iv_Role : bytes;
  iv_Status : bytes;
  iv_CreatedBy : bytes;
  iv_CreatedAt : Z;
  iv_ExpiresAt : Z;
  iv_AcceptedAt : option Z;
  iv_Vaults : gmap bytes bytes;
}.

(** A row of [email_verifications] or [password_resets]. *)
Record CodeRow := { cd_Email : bytes; cd_CodeHash : bytes; cd_Status : bytes; cd_CreatedAt : Z; cd_ExpiresAt : Z }.

Record accounts := {
  ac_users : gmap bytes User;
  ac_agents : gmap bytes Agent;
  ac_vaults : gmap bytes VaultRow;
  ac_grants : gmap (bytes * bytes) Grant;              (* by actor and vault *)
  ac_sessions : gmap bytes SessionRow;                 (* by token hash *)
  ac_invites : gmap Z InviteRow;
  ac_verifications : gmap Z CodeRow;
  ac_resets : gmap Z CodeRow;
  ac_settings : gmap bytes bytes;
}.
Definition no_accounts : accounts :=
  {| ac_users := ∅; ac_agents := ∅; ac_vaults := ∅; ac_grants := ∅; ac_sessions := ∅; ac_invites := ∅; ac_verifications := ∅; ac_resets := ∅; ac_settings := ∅ |}.

Definition with_users f (d : accounts) : accounts :=
  {| ac_users := f (ac_users d); ac_agents := ac_agents d; ac_vaults := ac_vaults d; ac_grants := ac_grants d; ac_sessions := ac_sessions d; ac_invites := ac_invites d; ac_verifications := ac_verifications d; ac_resets := ac_resets d; ac_settings := ac_settings d |}.
Definition with_agents f (d : accounts) : accounts :=
  {| ac_users := ac_users d; ac_agents := f (ac_agents d); ac_vaults := ac_vaults d; ac_grants := ac_grants d; ac_sessions := ac_sessions d; ac_invites := ac_invites d; ac_verifications := ac_verifications d; ac_resets := ac_resets d; ac_settings := ac_settings d |}.
Definition with_vaults f (d : accounts) : accounts :=
  {| ac_users := ac_users d; ac_agents := ac_agents d; ac_vaults := f (ac_vaults d); ac_grants := ac_grants d; ac_sessions := ac_sessions d; ac_invites := ac_invites d; ac_verifications := ac_verifications d; ac_resets := ac_resets d; ac_settings := ac_settings d |}.
Definition with_grants f (d : accounts) : accounts :=
  {| ac_users := ac_users d; ac_agents := ac_agents d; ac_vaults := ac_vaults d; ac_grants := f (ac_grants d); ac_sessions := ac_sessions d; ac_invites := ac_invites d; ac_verifications := ac_verifications d; ac_resets := ac_resets d; ac_settings := ac_settings d |}.
Definition with_sessions f (d : accounts) : accounts :=
  {| ac_users := ac_users d; ac_agents := ac_agents d; ac_vaults := ac_vaults d; ac_grants := ac_grants d; ac_sessions := f (ac_sessions d); ac_invites := ac_invites d; ac_verifications := ac_verifications d; ac_resets := ac_resets d; ac_settings := ac_settings d |}.
Definition with_invites f (d : accounts) : accounts :=
  {| ac_users := ac_users d; ac_agents := ac_agents d; ac_vaults := ac_vaults d; ac_grants := ac_grants d; ac_sessions := ac_sessions d; ac_invites := f (ac_invites d); ac_verifications := ac_verifications d; ac_resets := ac_resets d; ac_settings := ac_settings d |}.
Definition with_verifications f (d : accounts) : accounts :=
  {| ac_users := ac_users d; ac_agents := ac_agents d; ac_vaults := ac_vaults d; ac_grants := ac_grants d; ac_sessions := ac_sessions d; ac_invites := ac_invites d; ac_verifications := f (ac_verifications d); ac_resets := ac_resets d; ac_settings := ac_settings d |}.
Definition with_resets f (d : accounts) : accounts :=
  {| ac_users := ac_users d; ac_agents := ac_agents d; ac_vaults := ac_vaults d; ac_grants := ac_grants d; ac_sessions := ac_sessions d; ac_invites := ac_invites d; ac_verifications := ac_verifications d; ac_resets := f (ac_resets d); ac_settings := ac_settings d |}.

(** ** Queries *)

Definition instance_roles : list bytes := [ #"owner"; #"member"; #"no-access"].
Definition vault_roles : list bytes := [ #"proxy"; #"member"; #"admin"].

(** The rows of a table that satisfy a condition, and the first of them. *)
Definition rows_where {K A} `{Countable K} (P : K → A → bool) (m : gmap K A) : list (K * A) := List.filter (λ '(k, x), P k x) (map_to_list m).
Definition row_where {K A} `{Countable K} (P : K → A → bool) (m : gmap K A) : option (K * A) := head (rows_where P m).
Definition delete_where {K A} `{Countable K} (P : K → A → bool) (m : gmap K A) : gmap K A := filter (λ kx, P kx.1 kx.2 = false) m.

Definition count_where {K A} `{Countable K} (P : K → A → bool) (m : gmap K A) : Z := Z.of_nat (length (rows_where P m)).

Definition found {A} (o : option A) : result db_error A := match o with Some x => Ok x | None => Err NoRows end.

(** The last of the rows by creation. *)
Definition newest {K A} (created : A → Z) (l : list (K * A)) : option (K * A) :=
  head (sort_by (λ a b, created (snd b) <? created (snd a)) l).

Definition optional (s : bytes) (P : bytes → bool) : bool := bool_decide (s = []) || P s.

Section Accounts.
Context (unit : Z) (hashSessionToken hashToken : bytes → bytes).
Abbreviation fmt := (FormatTime unit).

(** ** Users *)

Definition GetUserByEmail (email : bytes) (d : accounts) : result db_error (bytes * User) := found (row_where (λ _ u, bool_decide (us_Email u = email)) (ac_users d)).
Definition GetUserByID (id : bytes) (d : accounts) : result db_error User := found (ac_users d !! id).
Definition CountUsers (d : accounts) : Z := Z.of_nat (size (ac_users d)).

(** The insertion of a row of [users]: its keys and checks. *)
Definition insert_user (id : bytes) (u : User) (d : accounts) : result db_error accounts :=
  if bool_decide (is_Some (ac_users d !! id)) || bool_decide (is_Some (row_where (λ _ v, bool_decide (us_Email v = us_Email u)) (ac_users d))) then Err UniqueViolation
  else if negb (bool_decide (us_Role u ∈ instance_roles)) then Err OtherFailure
  else Ok (with_users <[id := u]> d).

Definition CreateUser (id email : bytes) (pw : Password) (role : bytes) (now : Z) (d : accounts) : result db_error accounts :=
  insert_user id {| us_Email := email; us_Password := pw; us_Role := role; us_IsActive := false; us_CreatedAt := fmt now |} d.

Definition insert_grant (actor : bytes) (g : Grant) (vault : bytes) (d : accounts) : result db_error accounts :=
  if negb (bool_decide (gt_ActorType g ∈ [ #"user"; #"agent"])) || negb (bool_decide (gt_Role g ∈ vault_roles)) || negb (bool_decide (is_Some (ac_vaults d !! vault))) then Err OtherFailure
  else Ok (with_grants <[(actor, vault) := match ac_grants d !! (actor, vault) with
                                            | Some old => {| gt_ActorType := gt_ActorType old; gt_Role := gt_Role g; gt_CreatedAt := gt_CreatedAt old |}
                                            | None => g
                                            end]> d).

Definition GrantVaultRole (actorID actorType vaultID role : bytes) (now : Z) (d : accounts) : result db_error accounts :=
  insert_grant actorID {| gt_ActorType := actorType; gt_Role := role; gt_CreatedAt := fmt now |} vaultID d.

Definition RegisterFirstUser (id email : bytes) (pw : Password) (defaultVaultID : bytes) (now : Z) (d : accounts) : result db_error accounts :=
  if 0 <? CountUsers d then Err ErrNotFirstUser
  else d ← insert_user id {| us_Email := email; us_Password := pw; us_Role := #"owner"; us_IsActive := true; us_CreatedAt := fmt now |} d;
       if bool_decide (defaultVaultID = []) then Ok d else GrantVaultRole id #"user" defaultVaultID #"admin" now d.

(** An update of one row by its key. *)
Definition update_row {A} (get : accounts → gmap bytes A) (put : (gmap bytes A → gmap bytes A) → accounts → accounts) (id : bytes) (f : A → A) (d : accounts) : result db_error accounts :=
  match get d !! id with Some x => Ok (put <[id := f x]> d) | None => Err NoRows end.

Definition UpdateUserPassword (id : bytes) (pw : Password) : accounts → result db_error accounts :=
  update_row ac_users with_users id (λ u, {| us_Email := us_Email u; us_Password := pw; us_Role := us_Role u; us_IsActive := us_IsActive u; us_CreatedAt := us_CreatedAt u |}).
Definition UpdateUserRole (id role : bytes) (d : accounts) : result db_error accounts :=
  if bool_decide (role ∈ instance_roles)
  then update_row ac_users with_users id (λ u, {| us_Email := us_Email u; us_Password := us_Password u; us_Role := role; us_IsActive := us_IsActive u; us_CreatedAt := us_CreatedAt u |}) d
  else Err (if bool_decide (is_Some (ac_users d !! id)) then OtherFailure else NoRows).
Definition ActivateUser (id : bytes) : accounts → result db_error accounts :=
  update_row ac_users with_users id (λ u, {| us_Email := us_Email u; us_Password := us_Password u; us_Role := us_Role u; us_IsActive := true; us_CreatedAt := us_CreatedAt u |}).

(** Rows that reference a user or an agent go with it. *)
Definition minted_by (actor type : bytes) (s : SessionRow) : bool := bool_decide (ss_CreatedByActorID s = actor) && bool_decide (ss_CreatedByActorType s = type).

Definition DeleteUser (id : bytes) (d : accounts) : result db_error accounts :=
  match ac_users d !! id with
  | None => Err NoRows
  | Some _ =>
      Ok (with_users (delete id) (with_grants (delete_where (λ k _, bool_decide (fst k = id)))
           (with_sessions (delete_where (λ _ s, bool_decide (ss_UserID s = id) || minted_by id #"user" s)) d)))
  end.

Definition DeleteUserSessions (id : bytes) (d : accounts) : accounts := with_sessions (delete_where (λ _ s, bool_decide (ss_UserID s = id))) d.

Definition is_owner_row (u : User) : bool := bool_decide (us_Role u = #"owner") && us_IsActive u.
Definition is_owner_agent (a : Agent) : bool := bool_decide (ag_Role a = #"owner") && bool_decide (ag_Status a = #"active").
Definition CountAllOwners (d : accounts) : Z := count_where (λ _ u, is_owner_row u) (ac_users d) + count_where (λ _ a, is_owner_agent a) (ac_agents d).

(** ** Grants *)

Definition RevokeVaultAccess (actorID vaultID : bytes) (d : accounts) : result db_error accounts :=
  match ac_grants d !! (actorID, vaultID) with Some _ => Ok (with_grants (delete (actorID, vaultID)) d) | None => Err NoRows end.
Definition HasVaultAccess (actorID vaultID : bytes) (d : accounts) : bool := bool_decide (is_Some (ac_grants d !! (actorID, vaultID))).
Definition GetVaultRole (actorID vaultID : bytes) (d : accounts) : result db_error bytes := g ← found (ac_grants d !! (actorID, vaultID)); Ok (gt_Role g).
Definition CountVaultAdmins (vaultID : bytes) (d : accounts) : Z := count_where (λ k g, bool_decide (snd k = vaultID) && bool_decide (gt_Role g = #"admin")) (ac_grants d).

(** The grants of an actor on vaults that exist, oldest first. *)
Definition ListActorGrants (actorID : bytes) (d : accounts) : list (bytes * bytes * Grant) :=
  flat_map (λ '((_, v), g), match ac_vaults d !! v with Some row => [(v, vt_Name row, g)] | None => [] end)
    (sort_by (λ a b, gt_CreatedAt (snd a) <? gt_CreatedAt (snd b)) (rows_where (λ k _, bool_decide (fst k = actorID)) (ac_grants d))).

(** ** Vaults *)

Definition GetVault (name : bytes) (d : accounts) : result db_error (bytes * VaultRow) := found (row_where (λ _ v, bool_decide (vt_Name v = name)) (ac_vaults d)).
Definition GetVaultByID (id : bytes) (d : accounts) : result db_error VaultRow := found (ac_vaults d !! id).

Definition name_taken (name : bytes) (d : accounts) : bool := bool_decide (is_Some (row_where (λ _ v, bool_decide (vt_Name v = name)) (ac_vaults d))).

Definition CreateVault (id name : bytes) (now : Z) (d : accounts) : result db_error accounts :=
  if bool_decide (is_Some (ac_vaults d !! id)) || name_taken name d then Err UniqueViolation
  else Ok (with_vaults <[id := {| vt_Name := name; vt_CreatedAt := fmt now |}]> d).

Definition without_vault (id : bytes) (i : InviteRow) : InviteRow :=
  {| iv_TokenHash := iv_TokenHash i; iv_Email := iv_Email i; iv_Role := iv_Role i; iv_Status := iv_Status i; iv_CreatedBy := iv_CreatedBy i; iv_CreatedAt := iv_CreatedAt i;
     iv_ExpiresAt := iv_ExpiresAt i; iv_AcceptedAt := iv_AcceptedAt i; iv_Vaults := delete id (iv_Vaults i) |}.

Definition DeleteVault (name : bytes) (d : accounts) : result db_error accounts :=
  '(id, _) ← GetVault name d;
  Ok (with_vaults (delete id) (with_grants (delete_where (λ k _, bool_decide (snd k = id)))
       (with_sessions (delete_where (λ _ s, bool_decide (ss_VaultID s = id))) (with_invites (fmap (without_vault id)) d)))).

(** [RenameVault] after its [GetVault]. *)
Definition RenameVault (id newName : bytes) (d : accounts) : result db_error accounts :=
  match ac_vaults d !! id with
  | None => Err NoRows
  | Some v =>
      if bool_decide (is_Some (row_where (λ k w, negb (bool_decide (k = id)) && bool_decide (vt_Name w = newName)) (ac_vaults d))) then Err UniqueViolation
      else Ok (with_vaults <[id := {| vt_Name := newName; vt_CreatedAt := vt_CreatedAt v |}]> d)
  end.

(** ** Sessions *)

Definition insert_session (hash : bytes) (row : SessionRow) (d : accounts) : result db_error accounts :=
  if bool_decide (is_Some (ac_sessions d !! hash)) then Err UniqueViolation
  else if optional (ss_UserID row) (λ u, bool_decide (is_Some (ac_users d !! u))) && optional (ss_VaultID row) (λ v, bool_decide (is_Some (ac_vaults d !! v))) &&
          optional (ss_AgentID row) (λ a, bool_decide (is_Some (ac_agents d !! a))) && optional (ss_VaultRole row) (λ r, bool_decide (r ∈ vault_roles))
       then Ok (with_sessions <[hash := row]> d) else Err OtherFailure.

Record CreateUserSessionParams := { cu_UserID : bytes; cu_ExpiresAt : Z; cu_IdleTTL : Z; cu_DeviceLabel : bytes; cu_LastIP : bytes; cu_LastUserAgent : bytes }.

Definition CreateUserSession (token publicID : bytes) (now : Z) (p : CreateUserSessionParams) (d : accounts) : result db_error accounts :=
  if bool_decide (cu_UserID p = []) then Err OtherFailure
  else insert_session (hashSessionToken token)
    {| ss_UserID := cu_UserID p; ss_VaultID := []; ss_AgentID := []; ss_VaultRole := []; ss_ExpiresAt := Some (fmt (cu_ExpiresAt p)); ss_CreatedAt := fmt now; ss_LastUsedAt := Some (fmt now);
       ss_IdleSeconds := if 0 <? cu_IdleTTL p then Some (cu_IdleTTL p / Second) else None; ss_DeviceLabel := cu_DeviceLabel p; ss_LastIP := cu_LastIP p;
       ss_LastUserAgent := cu_LastUserAgent p; ss_PublicID := publicID; ss_Label := []; ss_CreatedByActorID := []; ss_CreatedByActorType := [] |} d.

Record CreateScopedSessionParams := { cp_VaultID : bytes; cp_VaultRole : bytes; cp_ExpiresAt : option Z; cp_Label : bytes; cp_CreatedByActorID : bytes; cp_CreatedByActorType : bytes }.

Definition CreateScopedSession (token publicID : bytes) (now : Z) (p : CreateScopedSessionParams) (d : accounts) : result db_error accounts :=
  insert_session (hashSessionToken token)
    {| ss_UserID := []; ss_VaultID := cp_VaultID p; ss_AgentID := []; ss_VaultRole := cp_VaultRole p; ss_ExpiresAt := fmt <$> cp_ExpiresAt p; ss_CreatedAt := fmt now; ss_LastUsedAt := None;
       ss_IdleSeconds := None; ss_DeviceLabel := []; ss_LastIP := []; ss_LastUserAgent := []; ss_PublicID := publicID; ss_Label := cp_Label p;
       ss_CreatedByActorID := cp_CreatedByActorID p; ss_CreatedByActorType := cp_CreatedByActorType p |} d.

Definition GetSession (token : bytes) (d : accounts) : result db_error SessionRow := found (ac_sessions d !! hashSessionToken token).

(** [Session.IsExpired] of a stored row. *)
Definition session_expired (now : Z) (s : SessionRow) : bool :=
  match ss_ExpiresAt s with Some t => t <? now | None => false end ||
  match ss_IdleSeconds s, ss_LastUsedAt s with Some n, Some t => (0 <? n * Second) && (n * Second <? time_Sub now t) | _, _ => false end.

Definition unexpired_row (now : Z) (s : SessionRow) : bool := match ss_ExpiresAt s with Some t => fmt now <? t | None => true end.
Definition scoped_row (vaultID : bytes) (s : SessionRow) : bool := bool_decide (ss_VaultID s = vaultID) && bool_decide (ss_UserID s = []) && bool_decide (ss_AgentID s = []).

(** Newest first. *)
Definition ListScopedSessionsByVault (vaultID : bytes) (now : Z) (d : accounts) : result db_error (list SessionRow) :=
  if bool_decide (vaultID = []) then Err OtherFailure
  else Ok (sort_by (λ a b, ss_CreatedAt b <? ss_CreatedAt a)
             (map snd (rows_where (λ _ s, scoped_row vaultID s && negb (bool_decide (ss_PublicID s = [])) && unexpired_row now s) (ac_sessions d)))).

(** A deletion that must find a row. *)
Definition delete_sessions (P : SessionRow → bool) (d : accounts) : result db_error accounts :=
  if bool_decide (rows_where (λ _ s, P s) (ac_sessions d) = []) then Err NoRows else Ok (with_sessions (delete_where (λ _ s, P s)) d).

Definition RevokeScopedSession (vaultID publicID : bytes) (d : accounts) : result db_error accounts :=
  if bool_decide (vaultID = []) || bool_decide (publicID = []) then Err NoRows
  else delete_sessions (λ s, scoped_row vaultID s && bool_decide (ss_PublicID s = publicID)) d.

Definition TouchInterval : Z := 60 * Second.

Definition TouchSession (token ip userAgent : bytes) (now : Z) (d : accounts) : accounts :=
  let hash := hashSessionToken token in
  match ac_sessions d !! hash with
  | Some s =>
      if negb (bool_decide (ss_UserID s = [])) && match ss_LastUsedAt s with Some t => t <? fmt (now - TouchInterval) | None => true end
      then with_sessions <[hash := {| ss_UserID := ss_UserID s; ss_VaultID := ss_VaultID s; ss_AgentID := ss_AgentID s; ss_VaultRole := ss_VaultRole s; ss_ExpiresAt := ss_ExpiresAt s;
             ss_CreatedAt := ss_CreatedAt s; ss_LastUsedAt := Some (fmt now); ss_IdleSeconds := ss_IdleSeconds s; ss_DeviceLabel := ss_DeviceLabel s;
             ss_LastIP := if bool_decide (ip = []) then ss_LastIP s else ip; ss_LastUserAgent := if bool_decide (userAgent = []) then ss_LastUserAgent s else userAgent;
             ss_PublicID := ss_PublicID s; ss_Label := ss_Label s; ss_CreatedByActorID := ss_CreatedByActorID s; ss_CreatedByActorType := ss_CreatedByActorType s |}]> d
      else d
  | None => d
  end.

(** Most recently used first. *)
Definition ListUserSessions (userID : bytes) (now : Z) (d : accounts) : list SessionRow :=
  List.filter (λ s, negb (session_expired now s))
    (sort_by (λ a b, default (ss_CreatedAt b) (ss_LastUsedAt b) <? default (ss_CreatedAt a) (ss_LastUsedAt a))
       (map snd (rows_where (λ _ s, bool_decide (ss_UserID s = userID) && unexpired_row now s) (ac_sessions d)))).

Definition RevokeUserSession (userID publicID : bytes) (d : accounts) : result db_error accounts :=
  if bool_decide (userID = []) || bool_decide (publicID = []) then Err NoRows
  else delete_sessions (λ s, bool_decide (ss_UserID s = userID) && bool_decide (ss_PublicID s = publicID)) d.

Definition DeleteSession (token : bytes) (d : accounts) : result db_error accounts :=
  match ac_sessions d !! hashSessionToken token with Some _ => Ok (with_sessions (delete (hashSessionToken token)) d) | None => Err NoRows end.

(** ** Agents *)

Definition GetAgentByID (id : bytes) (d : accounts) : result db_error Agent := found (ac_agents d !! id).
Definition GetAgentByName (name : bytes) (d : accounts) : result db_error (bytes * Agent) := found (row_where (λ _ a, bool_decide (ag_Name a = name)) (ac_agents d)).

Definition insert_agent (id : bytes) (a : Agent) (d : accounts) : result db_error accounts :=
  if bool_decide (is_Some (ac_agents d !! id)) || bool_decide (is_Some (row_where (λ _ b, bool_decide (ag_Name b = ag_Name a)) (ac_agents d))) then Err UniqueViolation
  else if negb (bool_decide (ag_Role a ∈ instance_roles)) then Err OtherFailure
  else Ok (with_agents <[id := a]> d).

Fixpoint grant_all (actor : bytes) (grants : list (bytes * bytes)) (now : Z) (d : accounts) : result db_error accounts :=
  match grants with
  | [] => Ok d
  | (vault, role) :: grants => d ← GrantVaultRole actor #"agent" vault role now d; grant_all actor grants now d
  end.

Definition agent_session (agent : bytes) (expiresAt : option Z) (now : Z) : SessionRow :=
  {| ss_UserID := []; ss_VaultID := []; ss_AgentID := agent; ss_VaultRole := []; ss_ExpiresAt := fmt <$> expiresAt; ss_CreatedAt := fmt now; ss_LastUsedAt := None; ss_IdleSeconds := None;
     ss_DeviceLabel := []; ss_LastIP := []; ss_LastUserAgent := []; ss_PublicID := []; ss_Label := []; ss_CreatedByActorID := []; ss_CreatedByActorType := [] |}.

Definition CreateAgentWithGrantsAndToken (id token name createdBy role : bytes) (grants : list (bytes * bytes)) (expiresAt : option Z) (now : Z) (d : accounts) : result db_error accounts :=
  d ← insert_agent id {| ag_Name := name; ag_Role := role; ag_Status := #"active"; ag_CreatedBy := createdBy; ag_CreatedAt := fmt now; ag_RevokedAt := None |} d;
  d ← grant_all id grants now d;
  insert_session (hashSessionToken token) (agent_session id expiresAt now) d.

Definition agent_with_status (status : bytes) (revokedAt : option Z) (a : Agent) : Agent :=
  {| ag_Name := ag_Name a; ag_Role := ag_Role a; ag_Status := status; ag_CreatedBy := ag_CreatedBy a; ag_CreatedAt := ag_CreatedAt a; ag_RevokedAt := revokedAt |}.

Definition of_agent (id : bytes) (s : SessionRow) : bool := bool_decide (ss_AgentID s = id).

Definition RevokeAgent (id : bytes) (now : Z) (d : accounts) : result db_error accounts :=
  match ac_agents d !! id with
  | Some a =>
      if bool_decide (ag_Status a = #"active")
      then Ok (with_agents <[id := agent_with_status #"revoked" (Some (fmt now)) a]> (with_sessions (delete_where (λ _ s, of_agent id s || minted_by id #"agent" s)) d))
      else Err NoRows
  | None => Err NoRows
  end.

Definition DeleteAgent (id : bytes) (d : accounts) : result db_error accounts :=
  match ac_agents d !! id with
  | Some _ =>
      Ok (with_agents (delete id) (with_grants (delete_where (λ k g, bool_decide (fst k = id) && bool_decide (gt_ActorType g = #"agent")))
           (with_sessions (delete_where (λ _ s, of_agent id s || minted_by id #"agent" s)) d)))
  | None => Err NoRows
  end.

Definition RenameAgent (id newName : bytes) (d : accounts) : result db_error accounts :=
  match ac_agents d !! id with
  | None => Err NoRows
  | Some a =>
      if bool_decide (is_Some (row_where (λ k b, negb (bool_decide (k = id)) && bool_decide (ag_Name b = newName)) (ac_agents d))) then Err UniqueViolation
      else Ok (with_agents <[id := {| ag_Name := newName; ag_Role := ag_Role a; ag_Status := ag_Status a; ag_CreatedBy := ag_CreatedBy a; ag_CreatedAt := ag_CreatedAt a; ag_RevokedAt := ag_RevokedAt a |}]> d)
  end.

Definition CountAgentTokens (id : bytes) (now : Z) (d : accounts) : Z := count_where (λ _ s, of_agent id s && unexpired_row now s) (ac_sessions d).

(** A revoked agent is active again. *)
Definition RotateAgentToken (id token : bytes) (expiresAt : option Z) (now : Z) (d : accounts) : result db_error accounts :=
  let d := with_sessions (delete_where (λ _ s, of_agent id s)) d in
  let d := match ac_agents d !! id with Some a => with_agents <[id := agent_with_status #"active" None a]> d | None => d end in
  insert_session (hashSessionToken token) (agent_session id expiresAt now) d.

Definition UpdateAgentRole (id role : bytes) (d : accounts) : result db_error accounts :=
  if bool_decide (role ∈ instance_roles)
  then update_row ac_agents with_agents id (λ a, {| ag_Name := ag_Name a; ag_Role := role; ag_Status := ag_Status a; ag_CreatedBy := ag_CreatedBy a; ag_CreatedAt := ag_CreatedAt a; ag_RevokedAt := ag_RevokedAt a |}) d
  else Err (if bool_decide (is_Some (ac_agents d !! id)) then OtherFailure else NoRows).

(** ** Invites *)

Definition invite_by_hash (hash : bytes) (d : accounts) : option (Z * InviteRow) := row_where (λ _ i, bool_decide (iv_TokenHash i = hash)) (ac_invites d).
Definition GetUserInviteByToken (token : bytes) (d : accounts) : result db_error (Z * InviteRow) := found (invite_by_hash (hashToken token) d).

Definition GetPendingUserInviteByEmail (email : bytes) (now : Z) (d : accounts) : result db_error (Z * InviteRow) :=
  found (newest iv_CreatedAt (rows_where (λ _ i, bool_decide (iv_Email i = email) && bool_decide (iv_Status i = #"pending") && (fmt now <? iv_ExpiresAt i)) (ac_invites d))).
Definition CountPendingUserInvites (d : accounts) : Z := count_where (λ _ i, bool_decide (iv_Status i = #"pending")) (ac_invites d).

(** The rows of [user_invite_vaults]. *)
Fixpoint invite_vaults (vaults : list (bytes * bytes)) (d : accounts) (m : gmap bytes bytes) : result db_error (gmap bytes bytes) :=
  match vaults with
  | [] => Ok m
  | (vault, role) :: vaults =>
      if bool_decide (is_Some (m !! vault)) then Err UniqueViolation
      else if negb (bool_decide (role ∈ [ #"admin"; #"member"])) || negb (bool_decide (is_Some (ac_vaults d !! vault))) then Err OtherFailure
      else invite_vaults vaults d (<[vault := role]> m)
  end.

Definition CreateUserInvite (id : Z) (token email createdBy role : bytes) (expiresAt : Z) (vaults : list (bytes * bytes)) (now : Z) (d : accounts) : result db_error accounts :=
  let role := if bool_decide (role = []) then #"member" else role in
  if bool_decide (is_Some (ac_invites d !! id)) || bool_decide (is_Some (invite_by_hash (hashToken token) d)) then Err UniqueViolation
  else if negb (bool_decide (role ∈ instance_roles)) then Err OtherFailure
  else m ← invite_vaults vaults d ∅;
       Ok (with_invites <[id := {| iv_TokenHash := hashToken token; iv_Email := email; iv_Role := role; iv_Status := #"pending"; iv_CreatedBy := createdBy; iv_CreatedAt := fmt now;
             iv_ExpiresAt := fmt expiresAt; iv_AcceptedAt := None; iv_Vaults := m |}]> d).

Definition invite_with_status (status : bytes) (acceptedAt : option Z) (i : InviteRow) : InviteRow :=
  {| iv_TokenHash := iv_TokenHash i; iv_Email := iv_Email i; iv_Role := iv_Role i; iv_Status := status; iv_CreatedBy := iv_CreatedBy i; iv_CreatedAt := iv_CreatedAt i;
     iv_ExpiresAt := iv_ExpiresAt i; iv_AcceptedAt := acceptedAt; iv_Vaults := iv_Vaults i |}.

Definition AcceptUserInvite (token : bytes) (now : Z) (d : accounts) : result db_error accounts :=
  match invite_by_hash (hashToken token) d with
  | Some (id, i) =>
      if bool_decide (iv_Status i = #"pending") && (fmt now <? iv_ExpiresAt i) then Ok (with_invites <[id := invite_with_status #"accepted" (Some (fmt now)) i]> d) else Err NoRows
  | None => Err NoRows
  end.

Definition RevokeUserInvite (token : bytes) (d : accounts) : result db_error accounts :=
  match invite_by_hash (hashToken token) d with
  | Some (id, i) => if bool_decide (iv_Status i = #"pending") then Ok (with_invites <[id := invite_with_status #"revoked" (iv_AcceptedAt i) i]> d) else Err NoRows
  | None => Err NoRows
  end.

(** ** Codes *)

Section Codes.
Context (get : accounts → gmap Z CodeRow) (put : (gmap Z CodeRow → gmap Z CodeRow) → accounts → accounts) (used : bytes).

Definition open_code (email : bytes) (now : Z) (c : CodeRow) : bool := bool_decide (cd_Email c = email) && bool_decide (cd_Status c = #"pending") && (fmt now <? cd_ExpiresAt c).

Definition create_code (id : Z) (email code : bytes) (expiresAt now : Z) (d : accounts) : result db_error accounts :=
  if bool_decide (is_Some (get d !! id)) then Err UniqueViolation
  else Ok (put <[id := {| cd_Email := email; cd_CodeHash := hashToken code; cd_Status := #"pending"; cd_CreatedAt := fmt now; cd_ExpiresAt := fmt expiresAt |}]> d).
Definition pending_code (email code : bytes) (now : Z) (d : accounts) : result db_error (Z * CodeRow) :=
  found (newest cd_CreatedAt (rows_where (λ _ c, open_code email now c && bool_decide (cd_CodeHash c = hashToken code)) (get d))).
Definition code_with_status (status : bytes) (c : CodeRow) : CodeRow :=
  {| cd_Email := cd_Email c; cd_CodeHash := cd_CodeHash c; cd_Status := status; cd_CreatedAt := cd_CreatedAt c; cd_ExpiresAt := cd_ExpiresAt c |}.
Definition mark_code (id : Z) (d : accounts) : result db_error accounts :=
  match get d !! id with
  | Some c => if bool_decide (cd_Status c = #"pending") then Ok (put <[id := code_with_status used c]> d) else Err NoRows
  | None => Err NoRows
  end.
Definition count_codes (email : bytes) (now : Z) (d : accounts) : Z := count_where (λ _ c, open_code email now c) (get d).
End Codes.

Definition CreateEmailVerification := create_code ac_verifications with_verifications.
Definition GetPendingEmailVerification := pending_code ac_verifications.
Definition MarkEmailVerificationUsed := mark_code ac_verifications with_verifications #"verified".
Definition CountPendingEmailVerifications := count_codes ac_verifications.
Definition CreatePasswordReset := create_code ac_resets with_resets.
Definition GetPendingPasswordReset := pending_code ac_resets.
Definition MarkPasswordResetUsed := mark_code ac_resets with_resets #"used".
Definition CountPendingPasswordResets := count_codes ac_resets.
Definition ExpirePendingPasswordResets (before : Z) : accounts → accounts :=
  with_resets (fmap (λ c, if bool_decide (cd_Status c = #"pending") && (cd_ExpiresAt c <? fmt before) then code_with_status #"expired" c else c)).
End Accounts.

(** * What the tables of accounts keep

    [accounts_ok] is the schema and the rules the handlers keep on top of it: keys,
    roles and references hold, a token of an agent belongs to an active one, and a
    session scoped to a vault can only proxy.  Every operation of [AccountStore]
    preserves it. *)

(** ** Queries of a table *)

Section Tables.
Context {K A : Type} `{Countable K}.
Implicit Types (P : K → A → bool) (m : gmap K A).

Lemma elem_of_rows_where P m k x : (k, x) ∈ rows_where P m ↔ m !! k = Some x ∧ P k x = true.
Proof. unfold rows_where. rewrite elem_of_lfilter, elem_of_map_to_list. tauto. Qed.

Lemma row_where_Some P m k x : row_where P m = Some (k, x) → m !! k = Some x ∧ P k x = true.
Proof.
  unfold row_where. intros E. apply elem_of_rows_where. destruct (rows_where P m) as [|p l]; [done|]. injection E as ->. apply list_elem_of_here.
Qed.

Lemma row_where_None P m : row_where P m = None ↔ ∀ k x, m !! k = Some x → P k x = false.
Proof.
  unfold row_where. split.
  - intros E k x Hk. destruct (P k x) eqn:EP; [|done]. assert (Hin : (k, x) ∈ rows_where P m) by (apply elem_of_rows_where; done).
    destruct (rows_where P m); [inversion Hin|done].
  - intros Hall. destruct (rows_where P m) as [|[k x] l] eqn:E; [done|].
    assert (Hin : (k, x) ∈ rows_where P m) by (rewrite E; apply list_elem_of_here).
    apply elem_of_rows_where in Hin as [Hk HP]. by rewrite (Hall _ _ Hk) in HP.
Qed.

Lemma delete_where_Some P m k x : delete_where P m !! k = Some x ↔ m !! k = Some x ∧ P k x = false.
Proof. unfold delete_where. apply map_lookup_filter_Some. Qed.

(** A column is a key. *)
Definition unique_by {B} (f : A → B) m : Prop := ∀ i j x y, m !! i = Some x → m !! j = Some y → f x = f y → i = j.

Lemma unique_empty {B} (f : A → B) : unique_by f ∅.
Proof. intros i j x y Hi. by rewrite lookup_empty in Hi. Qed.

Lemma unique_insert {B} (f : A → B) m k x :
  unique_by f m → (∀ j y, m !! j = Some y → f y = f x → j = k) → unique_by f (<[k := x]> m).
Proof.
  intros Hu Hx i j y z Hi Hj E. apply lookup_insert_Some in Hi as [[-> ->]|[Ni Hi]], Hj as [[-> ->]|[Nj Hj]]; eauto.
  symmetry. eauto.
Qed.

Lemma unique_update {B} (f : A → B) m k x y : unique_by f m → m !! k = Some x → f y = f x → unique_by f (<[k := y]> m).
Proof. intros Hu Hk E. apply unique_insert; [done|]. intros j z Hj Ez. apply (Hu j k z x); congruence. Qed.

Lemma unique_sub {B} (f : A → B) m m' : unique_by f m → (∀ k x, m' !! k = Some x → m !! k = Some x) → unique_by f m'.
Proof. intros Hu Hsub i j x y Hi Hj. by apply Hu; apply Hsub. Qed.

Lemma unique_fmap {B} (f : A → B) (g : A → A) m : (∀ x, f (g x) = f x) → unique_by f m → unique_by f (g <$> m).
Proof.
  intros Hg Hu i j x y Hi Hj E. rewrite lookup_fmap in Hi, Hj.
  destruct (m !! i) as [x0|] eqn:Ei, (m !! j) as [y0|] eqn:Ej; try done. injection Hi as <-. injection Hj as <-. rewrite !Hg in E. eauto.
Qed.
End Tables.

(** ** The invariant *)

Definition users_ok (m : gmap bytes User) : Prop := unique_by us_Email m ∧ map_Forall (λ _ u, us_Role u ∈ instance_roles) m.
Definition agents_ok (m : gmap bytes Agent) : Prop := unique_by ag_Name m ∧ map_Forall (λ _ a, ag_Role a ∈ instance_roles ∧ ag_Status a ∈ [ #"active"; #"revoked"]) m.
Definition vaults_ok (m : gmap bytes VaultRow) : Prop := unique_by vt_Name m.

Definition grants_ok (vaults : gmap bytes VaultRow) (m : gmap (bytes * bytes) Grant) : Prop :=
  map_Forall (λ k g, is_Some (vaults !! k.2) ∧ gt_ActorType g ∈ [ #"user"; #"agent"] ∧ gt_Role g ∈ vault_roles) m.

Definition active_agent (agents : gmap bytes Agent) (id : bytes) : Prop := ∃ a, agents !! id = Some a ∧ ag_Status a = #"active".

Record session_ok (users : gmap bytes User) (agents : gmap bytes Agent) (vaults : gmap bytes VaultRow) (s : SessionRow) : Prop := {
  so_user : ss_UserID s = [] ∨ is_Some (users !! ss_UserID s);
  so_agent : ss_AgentID s = [] ∨ active_agent agents (ss_AgentID s);
  so_vault : ss_VaultID s = [] ∨ (is_Some (vaults !! ss_VaultID s) ∧ ss_VaultRole s = #"proxy" ∧ ss_UserID s = [] ∧ ss_AgentID s = []);
}.

Definition invites_ok (vaults : gmap bytes VaultRow) (m : gmap Z InviteRow) : Prop :=
  unique_by iv_TokenHash m ∧
  map_Forall (λ _ i, iv_Role i ∈ instance_roles ∧ map_Forall (λ v role, is_Some (vaults !! v) ∧ role ∈ [ #"admin"; #"member"]) (iv_Vaults i)) m.

Record accounts_ok (d : accounts) : Prop := {
  ao_users : users_ok (ac_users d);
  ao_agents : agents_ok (ac_agents d);
  ao_vaults : vaults_ok (ac_vaults d);
  ao_grants : grants_ok (ac_vaults d) (ac_grants d);
  ao_sessions : map_Forall (λ _ s, session_ok (ac_users d) (ac_agents d) (ac_vaults d) s) (ac_sessions d);
  ao_invites : invites_ok (ac_vaults d) (ac_invites d);
}.

Lemma no_accounts_ok : accounts_ok no_accounts.
Proof. by split; cbn; [split; [apply unique_empty|]|split; [apply unique_empty|]|apply unique_empty| | |split; [apply unique_empty|]]; intros k x E; rewrite lookup_empty in E. Qed.

(** ** Changing one table *)

Section Changes.
Context (d : accounts) (Hok : accounts_ok d).

Lemma ok_with_users f :
  users_ok (f (ac_users d)) → (∀ id, is_Some (ac_users d !! id) → is_Some (f (ac_users d) !! id)) → accounts_ok (with_users f d).
Proof using Hok.
  intros Hu Hsome. destruct Hok as [? ? ? ? Hs ?]. split; try done. cbn. eapply map_Forall_impl; [exact Hs|].
  intros k s [[?|?] ? ?]; split; auto.
Qed.

Lemma ok_with_agents f :
  agents_ok (f (ac_agents d)) → (∀ id, active_agent (ac_agents d) id → active_agent (f (ac_agents d)) id) → accounts_ok (with_agents f d).
Proof using Hok.
  intros Hu Hsome. destruct Hok as [? ? ? ? Hs ?]. split; try done. cbn. eapply map_Forall_impl; [exact Hs|].
  intros k s [? [?|?] ?]; split; auto.
Qed.

Lemma ok_with_vaults f :
  vaults_ok (f (ac_vaults d)) → (∀ id, is_Some (ac_vaults d !! id) → is_Some (f (ac_vaults d) !! id)) → accounts_ok (with_vaults f d).
Proof using Hok.
  intros Hu Hsome. destruct Hok as [? ? ? Hg Hs [? Hi]]. split; try done; cbn.
  - eapply map_Forall_impl; [exact Hg|]. intros k g (? & ? & ?). auto.
  - eapply map_Forall_impl; [exact Hs|]. intros k s [? ? [?|(? & ? & ? & ?)]]; split; auto.
  - split; [done|]. eapply map_Forall_impl; [exact Hi|]. intros k i (? & Hv). split; [done|].
    eapply map_Forall_impl; [exact Hv|]. intros v role []. auto.
Qed.

Lemma ok_with_grants f : grants_ok (ac_vaults d) (f (ac_grants d)) → accounts_ok (with_grants f d).
Proof using Hok. intros ?. by destruct Hok; split. Qed.

Lemma ok_with_sessions f :
  map_Forall (λ _ s, session_ok (ac_users d) (ac_agents d) (ac_vaults d) s) (f (ac_sessions d)) → accounts_ok (with_sessions f d).
Proof using Hok. intros ?. by destruct Hok; split. Qed.

Lemma ok_with_invites f : invites_ok (ac_vaults d) (f (ac_invites d)) → accounts_ok (with_invites f d).
Proof using Hok. intros ?. by destruct Hok; split. Qed.

Lemma ok_fewer_grants P : accounts_ok (with_grants (delete_where P) d).
Proof using Hok. apply ok_with_grants. intros k g [Hk _]%delete_where_Some. by apply (ao_grants _ Hok). Qed.

Lemma ok_fewer_sessions P : accounts_ok (with_sessions (delete_where P) d).
Proof using Hok. apply ok_with_sessions. intros k s [Hk _]%delete_where_Some. by apply (ao_sessions _ Hok k). Qed.
End Changes.

(** ** References that go *)

Section Removal.
Context (d : accounts) (Hok : accounts_ok d) (id : bytes).

Lemma ok_delete_user : map_Forall (λ _ s, ss_UserID s ≠ id) (ac_sessions d) → accounts_ok (with_users (delete id) d).
Proof using Hok.
  intros Hgone. destruct Hok as [[Hu Hr] ? ? ? Hs ?]. split; try done; cbn.
  - split; [by eapply unique_sub; [exact Hu|]; intros k x [_ ?]%lookup_delete_Some|by apply map_Forall_delete].
  - intros k s Hk. destruct (Hs k s Hk) as [[?|?] ? ?]; split; auto. right. rewrite lookup_delete_ne; [done|]. intros ->. by apply (Hgone k s Hk).
Qed.

Lemma ok_put_agent a b :
  ac_agents d !! id = Some a → ag_Name b = ag_Name a → ag_Role b ∈ instance_roles → ag_Status b ∈ [ #"active"; #"revoked"] →
  (ag_Status b = ag_Status a ∨ ag_Status b = #"active" ∨ map_Forall (λ _ s, ss_AgentID s ≠ id) (ac_sessions d)) →
  accounts_ok (with_agents <[id := b]> d).
Proof using Hok.
  intros Ha Hn Hr Hst Hkeep. destruct Hok as [? [Hu Hrows] ? ? Hs ?]. split; try done; cbn.
  - split; [by eapply unique_update|]. by apply map_Forall_insert_2.
  - intros k s Hk. destruct (Hs k s Hk) as [? [?|(a' & Ha' & Hact)] ?]; split; auto.
    destruct (decide (ss_AgentID s = id)) as [E|Hne]; [|right; exists a'; by rewrite lookup_insert_ne].
    rewrite E in Ha' |- *. right. exists b. rewrite lookup_insert_eq. split; [done|]. destruct Hkeep as [->|[->|Hgone]]; [congruence|done|].
    by destruct (Hgone k s Hk).
Qed.

Lemma ok_delete_agent : map_Forall (λ _ s, ss_AgentID s ≠ id) (ac_sessions d) → accounts_ok (with_agents (delete id) d).
Proof using Hok.
  intros Hgone. destruct Hok as [? [Hu Hr] ? ? Hs ?]. split; try done; cbn.
  - split; [by eapply unique_sub; [exact Hu|]; intros k x [_ ?]%lookup_delete_Some|by apply map_Forall_delete].
  - intros k s Hk. destruct (Hs k s Hk) as [? [?|(a & ? & ?)] ?]; split; auto. right. exists a. rewrite lookup_delete_ne; [done|].
    intros ->. by apply (Hgone k s Hk).
Qed.

Lemma ok_delete_vault :
  map_Forall (λ k _, k.2 ≠ id) (ac_grants d) → map_Forall (λ _ s, ss_VaultID s ≠ id) (ac_sessions d) → map_Forall (λ _ i, iv_Vaults i !! id = None) (ac_invites d) →
  accounts_ok (with_vaults (delete id) d).
Proof using Hok.
  intros Hg' Hs' Hi'. destruct Hok as [? ? Hv Hg Hs [Hu Hi]]. split; try done; cbn.
  - by eapply unique_sub; [exact Hv|]; intros k x [_ ?]%lookup_delete_Some.
  - intros k g Hk. destruct (Hg k g Hk) as (? & ? & ?). rewrite lookup_delete_ne; [done|]. intros E. by apply (Hg' k g Hk).
  - intros k s Hk. destruct (Hs k s Hk) as [? ? [?|(? & ? & ? & ?)]]; split; auto. right. rewrite lookup_delete_ne; [done|]. intros ->. by apply (Hs' k s Hk).
  - split; [done|]. intros k i Hk. destruct (Hi k i Hk) as [? Hvs]. split; [done|]. intros v role Hvr. destruct (Hvs v role Hvr). split; [|done].
    rewrite lookup_delete_ne; [done|]. intros ->. by rewrite (Hi' k i Hk) in Hvr.
Qed.
End Removal.

(** ** Every operation *)

Section Operations.
Context (unit : Z) (hashSessionToken hashToken : bytes → bytes).


Implicit Types d e : accounts.

Lemma insert_user_spec id u d e : insert_user id u d = Ok e →
  ac_users d !! id = None ∧ (∀ j v, ac_users d !! j = Some v → us_Email v ≠ us_Email u) ∧ us_Role u ∈ instance_roles ∧ e = with_users <[id := u]> d.
Proof.
  unfold insert_user. destruct (_ || _) eqn:E; [done|]. apply orb_false_iff in E as [E1%bool_decide_eq_false E2%bool_decide_eq_false].
  destruct (bool_decide (us_Role u ∈ _)) eqn:Er; [|done]. intros [= <-]. apply bool_decide_eq_true in Er. apply eq_None_not_Some in E1, E2.
  split_and!; try done. intros j v Hj Ee. rewrite row_where_None in E2. specialize (E2 _ _ Hj). by apply bool_decide_eq_false in E2.
Qed.

Lemma insert_user_ok id u d e : accounts_ok d → insert_user id u d = Ok e → accounts_ok e.
Proof.
  intros Hok (Hid & He & Hr & ->)%insert_user_spec. destruct (ao_users _ Hok) as [Hu Hrs]. apply ok_with_users; [done| |].
  - split; [apply unique_insert; [done|]; intros j y Hj E; by destruct (He j y Hj)|by apply map_Forall_insert_2].
  - intros i [v Hv]. destruct (decide (i = id)) as [->|]; [rewrite lookup_insert_eq|rewrite lookup_insert_ne]; eauto.
Qed.

Lemma insert_grant_spec actor g vault d e : insert_grant actor g vault d = Ok e →
  ∃ h, e = with_grants <[(actor, vault) := h]> d ∧ gt_Role h = gt_Role g ∧ gt_Role g ∈ vault_roles ∧ is_Some (ac_vaults d !! vault) ∧
       (gt_ActorType h = gt_ActorType g ∧ gt_ActorType g ∈ [ #"user"; #"agent"] ∨ ∃ old, ac_grants d !! (actor, vault) = Some old ∧ gt_ActorType h = gt_ActorType old).
Proof.
  unfold insert_grant. destruct (_ || _) eqn:E; [done|]. intros [= <-].
  apply orb_false_iff in E as [[E1 E2]%orb_false_iff E3]. apply negb_false_iff, bool_decide_eq_true in E1, E2, E3.
  eexists. split; [done|]. destruct (ac_grants d !! (actor, vault)) as [old|]; cbn; eauto 10.
Qed.

Lemma insert_grant_ok actor g vault d e : accounts_ok d → insert_grant actor g vault d = Ok e → accounts_ok e.
Proof.
  intros Hok (h & -> & Hr & Hg & Hv & Ht)%insert_grant_spec. apply ok_with_grants; [done|]. pose proof (ao_grants _ Hok) as Hgs. apply map_Forall_insert_2; [|done].
  cbn. rewrite Hr. split; [done|]. split; [|done]. destruct Ht as [[-> ?]|(old & Hold & ->)]; [done|]. by apply (Hgs _ _ Hold).
Qed.

Lemma GrantVaultRole_ok actor type vault role t d e : accounts_ok d → GrantVaultRole unit actor type vault role t d = Ok e → accounts_ok e.
Proof. apply insert_grant_ok. Qed.

Lemma RegisterFirstUser_ok id email pw vault t d e : accounts_ok d → RegisterFirstUser unit id email pw vault t d = Ok e → accounts_ok e.
Proof.
  intros Hok. unfold RegisterFirstUser. destruct (0 <? _); [done|]. intros (d1 & H1%insert_user_ok & H2)%result_bind_Ok; [|done].
  destruct (bool_decide (vault = [])); [by injection H2 as <-|by eapply GrantVaultRole_ok].
Qed.

Lemma update_user_ok id f d e : accounts_ok d → (∀ u, us_Email (f u) = us_Email u) → (∀ u, us_Role u ∈ instance_roles → us_Role (f u) ∈ instance_roles) →
  update_row ac_users with_users id f d = Ok e → accounts_ok e.
Proof.
  intros Hok He Hr. unfold update_row. destruct (ac_users d !! id) as [u|] eqn:Hu; [|done]. intros [= <-]. destruct (ao_users _ Hok) as [Hun Hrs]. apply ok_with_users; [done| |].
  - split; [by eapply unique_update|]. apply map_Forall_insert_2; [|done]. apply Hr. by apply (Hrs id).
  - intros i [v Hv]. destruct (decide (i = id)) as [->|]; [rewrite lookup_insert_eq|rewrite lookup_insert_ne]; eauto.
Qed.

Lemma UpdateUserPassword_ok id pw d e : accounts_ok d → UpdateUserPassword id pw d = Ok e → accounts_ok e.
Proof. intros Hok. by apply update_user_ok. Qed.
Lemma ActivateUser_ok id d e : accounts_ok d → ActivateUser id d = Ok e → accounts_ok e.
Proof. intros Hok. by apply update_user_ok. Qed.
Lemma UpdateUserRole_ok id role d e : accounts_ok d → UpdateUserRole id role d = Ok e → accounts_ok e.
Proof. intros Hok. unfold UpdateUserRole. destruct (bool_decide (role ∈ _)) eqn:E; [|done]. apply bool_decide_eq_true in E. by apply update_user_ok. Qed.

Lemma DeleteUser_ok id d e : accounts_ok d → DeleteUser id d = Ok e → accounts_ok e.
Proof.
  intros Hok. unfold DeleteUser. destruct (ac_users d !! id); [|done]. intros [= <-]. apply ok_delete_user.
  - by apply ok_fewer_grants, ok_fewer_sessions.
  - intros k s [_ E]%delete_where_Some. apply orb_false_iff in E as [E%bool_decide_eq_false _]. done.
Qed.

Lemma RevokeVaultAccess_ok actor vault d e : accounts_ok d → RevokeVaultAccess actor vault d = Ok e → accounts_ok e.
Proof.
  intros Hok. unfold RevokeVaultAccess. destruct (ac_grants d !! _); [|done]. intros [= <-]. apply ok_with_grants; [done|].
  apply map_Forall_delete, (ao_grants _ Hok).
Qed.

Lemma CreateVault_spec id name t d e : CreateVault unit id name t d = Ok e →
  ac_vaults d !! id = None ∧ (∀ j v, ac_vaults d !! j = Some v → vt_Name v ≠ name) ∧ e = with_vaults <[id := {| vt_Name := name; vt_CreatedAt := FormatTime unit t |}]> d.
Proof.
  unfold CreateVault, name_taken. destruct (_ || _) eqn:E; [done|]. apply orb_false_iff in E as [E1%bool_decide_eq_false E2%bool_decide_eq_false]. intros [= <-].
  apply eq_None_not_Some in E1, E2. split_and!; try done. intros j v Hj Ee. rewrite row_where_None in E2. specialize (E2 _ _ Hj). by apply bool_decide_eq_false in E2.
Qed.

Lemma CreateVault_ok id name t d e : accounts_ok d → CreateVault unit id name t d = Ok e → accounts_ok e.
Proof.
  intros Hok (Hid & Hn & ->)%CreateVault_spec. apply ok_with_vaults; [done| |].
  - apply unique_insert; [apply (ao_vaults _ Hok)|]. intros j y Hj E. by destruct (Hn j y Hj).
  - intros i [v Hv]. destruct (decide (i = id)) as [->|]; [rewrite lookup_insert_eq|rewrite lookup_insert_ne]; eauto.
Qed.

Lemma RenameVault_ok id new d e : accounts_ok d → RenameVault id new d = Ok e → accounts_ok e.
Proof.
  intros Hok. unfold RenameVault. destruct (ac_vaults d !! id) as [v|] eqn:Hv; [|done]. case_bool_decide as E; [done|]. intros [= <-].
  apply eq_None_not_Some in E. rewrite row_where_None in E. apply ok_with_vaults; [done| |].
  - apply unique_insert; [apply (ao_vaults _ Hok)|]. intros j y Hj Ee. specialize (E _ _ Hj). destruct (decide (j = id)); [done|].
    rewrite (bool_decide_eq_false_2 (j = id)) in E by done. cbn in E. by apply bool_decide_eq_false in E.
  - intros i [w Hw]. destruct (decide (i = id)) as [->|]; [rewrite lookup_insert_eq|rewrite lookup_insert_ne]; eauto.
Qed.

Lemma ok_without_vault id d : accounts_ok d → accounts_ok (with_invites (fmap (without_vault id)) d).
Proof.
  intros Hok. apply ok_with_invites; [done|]. destruct (ao_invites _ Hok) as [Hu Hi]. split; [by apply unique_fmap|].
  intros k i Hk. rewrite lookup_fmap in Hk. destruct (ac_invites d !! k) as [i0|] eqn:E; [|done]. injection Hk as <-.
  destruct (Hi k i0 E) as [? Hv]. split; [done|]. by apply map_Forall_delete.
Qed.

Lemma DeleteVault_ok name d e : accounts_ok d → DeleteVault name d = Ok e → accounts_ok e.
Proof.
  intros Hok. unfold DeleteVault. intros ([id row] & _ & [= <-])%result_bind_Ok. apply ok_delete_vault; cbn.
  - apply ok_fewer_grants, ok_fewer_sessions. by apply ok_without_vault.
  - intros k g [_ E]%delete_where_Some. by apply bool_decide_eq_false in E.
  - intros k s [_ E]%delete_where_Some. by apply bool_decide_eq_false in E.
  - intros k i Hk. rewrite lookup_fmap in Hk. destruct (ac_invites d !! k); [|done]. injection Hk as <-. apply lookup_delete_eq.
Qed.

Lemma insert_session_spec hash row d e : insert_session hash row d = Ok e →
  e = with_sessions <[hash := row]> d ∧ ac_sessions d !! hash = None ∧
  (ss_UserID row = [] ∨ is_Some (ac_users d !! ss_UserID row)) ∧ (ss_VaultID row = [] ∨ is_Some (ac_vaults d !! ss_VaultID row)) ∧
  (ss_AgentID row = [] ∨ is_Some (ac_agents d !! ss_AgentID row)).
Proof.
  unfold insert_session. case_bool_decide as E; [done|]. destruct (_ && _) eqn:Hc; [|done]. intros [= <-].
  apply andb_true_iff in Hc as [[[Hu Hv]%andb_true_iff Ha]%andb_true_iff _]. apply eq_None_not_Some in E.
  assert (Hopt : ∀ s P, optional s P = true → s = [] ∨ P s = true) by (intros s P [?%bool_decide_eq_true|?]%orb_true_iff; auto).
  apply Hopt in Hu, Hv, Ha. rewrite !bool_decide_eq_true in Hu, Hv, Ha. auto 10.
Qed.

Lemma insert_session_ok hash row d e : accounts_ok d →
  (ss_AgentID row = [] ∨ active_agent (ac_agents d) (ss_AgentID row)) → (ss_VaultID row = [] ∨ (ss_VaultRole row = #"proxy" ∧ ss_UserID row = [] ∧ ss_AgentID row = [])) →
  insert_session hash row d = Ok e → accounts_ok e.
Proof.
  intros Hok Ha Hs (-> & _ & Hu & Hv & _)%insert_session_spec. apply ok_with_sessions; [done|]. apply map_Forall_insert_2; [|apply (ao_sessions _ Hok)].
  split; [done..|]. destruct Hs as [?|(? & ? & ?)], Hv as [?|?]; auto.
Qed.

Lemma CreateUserSession_ok token publicID t p d e : accounts_ok d → CreateUserSession unit hashSessionToken token publicID t p d = Ok e → accounts_ok e.
Proof. intros Hok. unfold CreateUserSession. case_bool_decide; [done|]. apply insert_session_ok; cbn; auto. Qed.

Lemma CreateScopedSession_ok token publicID t p d e :
  accounts_ok d → cp_VaultRole p = #"proxy" → CreateScopedSession unit hashSessionToken token publicID t p d = Ok e → accounts_ok e.
Proof. intros Hok Hp. apply insert_session_ok; cbn; auto. Qed.

Lemma delete_sessions_ok P d e : accounts_ok d → delete_sessions P d = Ok e → accounts_ok e.
Proof. intros Hok. unfold delete_sessions. case_bool_decide; [done|]. intros [= <-]. by apply ok_fewer_sessions. Qed.

Lemma RevokeScopedSession_ok vault publicID d e : accounts_ok d → RevokeScopedSession vault publicID d = Ok e → accounts_ok e.
Proof. intros Hok. unfold RevokeScopedSession. destruct (_ || _); [done|by apply delete_sessions_ok]. Qed.
Lemma RevokeUserSession_ok user publicID d e : accounts_ok d → RevokeUserSession user publicID d = Ok e → accounts_ok e.
Proof. intros Hok. unfold RevokeUserSession. destruct (_ || _); [done|by apply delete_sessions_ok]. Qed.

Lemma DeleteSession_ok token d e : accounts_ok d → DeleteSession hashSessionToken token d = Ok e → accounts_ok e.
Proof.
  intros Hok. unfold DeleteSession. destruct (ac_sessions d !! _); [|done]. intros [= <-]. apply ok_with_sessions; [done|]. apply map_Forall_delete, (ao_sessions _ Hok).
Qed.

Lemma TouchSession_ok token ip ua t d : accounts_ok d → accounts_ok (TouchSession unit hashSessionToken token ip ua t d).
Proof.
  intros Hok. unfold TouchSession. destruct (ac_sessions d !! _) as [s|] eqn:E; [|done]. destruct (_ && _); [|done].
  apply ok_with_sessions; [done|]. apply map_Forall_insert_2; [|apply (ao_sessions _ Hok)]. destruct (ao_sessions _ Hok _ _ E). by split.
Qed.

(** ** Agents *)

Lemma insert_agent_spec id a d e : insert_agent id a d = Ok e →
  ac_agents d !! id = None ∧ (∀ j b, ac_agents d !! j = Some b → ag_Name b ≠ ag_Name a) ∧ ag_Role a ∈ instance_roles ∧ e = with_agents <[id := a]> d.
Proof.
  unfold insert_agent. destruct (_ || _) eqn:E; [done|]. apply orb_false_iff in E as [E1%bool_decide_eq_false E2%bool_decide_eq_false].
  destruct (bool_decide (ag_Role a ∈ _)) eqn:Er; [|done]. intros [= <-]. apply bool_decide_eq_true in Er. apply eq_None_not_Some in E1, E2.
  split_and!; try done. intros j v Hj Ee. rewrite row_where_None in E2. specialize (E2 _ _ Hj). by apply bool_decide_eq_false in E2.
Qed.

Lemma grant_all_ok actor grants t d e : accounts_ok d → grant_all unit actor grants t d = Ok e → accounts_ok e.
Proof.
  revert d. induction grants as [|[vault role] grants IH]; intros d Hok; [by intros [= <-]|]. cbn.
  intros (d1 & H1%GrantVaultRole_ok & H2)%result_bind_Ok; [|done]. by apply (IH d1).
Qed.

(** Grants leave the other tables alone. *)
Lemma grant_all_tables actor grants t d e : grant_all unit actor grants t d = Ok e → ∃ m, e = with_grants (λ _, m) d.
Proof.
  revert d. induction grants as [|[vault role] grants IH]; intros d; [intros [= <-]; exists (ac_grants d); by destruct d|]. cbn.
  intros (d1 & (h & -> & _)%insert_grant_spec & H2)%result_bind_Ok. apply IH in H2 as [m ->]. by exists m.
Qed.

Lemma CreateAgent_ok id token name by_ role grants expires t d e :
  accounts_ok d → CreateAgentWithGrantsAndToken unit hashSessionToken id token name by_ role grants expires t d = Ok e → accounts_ok e.
Proof.
  intros Hok. unfold CreateAgentWithGrantsAndToken. intros (d1 & (Hid & Hn & Hr & ->)%insert_agent_spec & (d2 & H2 & H3)%result_bind_Ok)%result_bind_Ok.
  assert (Hok1 : accounts_ok (with_agents <[id := {| ag_Name := name; ag_Role := role; ag_Status := #"active"; ag_CreatedBy := by_; ag_CreatedAt := FormatTime unit t; ag_RevokedAt := None |}]> d)).
  { destruct (ao_agents _ Hok) as [Hu Hrs]. apply ok_with_agents; [done| |].
    - split; [apply unique_insert; [done|]; intros j y Hj E; by destruct (Hn j y Hj)|]. apply map_Forall_insert_2; [|done]. split; [done|]. apply list_elem_of_here.
    - intros i (b & Hb & ?). exists b. rewrite lookup_insert_ne; [done|]. congruence. }
  pose proof (grant_all_tables _ _ _ _ _ H2) as [m Em]. apply grant_all_ok in H2; [|done].
  apply insert_session_ok in H3; try done; cbn; auto. right. rewrite Em. eexists. cbn. by rewrite lookup_insert_eq.
Qed.

Lemma agent_row_ok d id a : accounts_ok d → ac_agents d !! id = Some a → ag_Role a ∈ instance_roles ∧ ag_Status a ∈ [ #"active"; #"revoked"].
Proof. intros Hok Ha. by apply (proj2 (ao_agents _ Hok) id). Qed.

Lemma RevokeAgent_ok id t d e : accounts_ok d → RevokeAgent unit id t d = Ok e → accounts_ok e.
Proof.
  intros Hok. unfold RevokeAgent. destruct (ac_agents d !! id) as [a|] eqn:Ha; [|done]. case_bool_decide; [|done]. intros [= <-].
  destruct (agent_row_ok d id a) as [? _]; [done..|].
  apply (ok_put_agent (with_sessions (delete_where (λ _ s, of_agent id s || minted_by id #"agent" s)) d) (ok_fewer_sessions _ Hok _) id a); try done.
  - cbn. apply elem_of_cons. right. apply list_elem_of_here.
  - right. right. intros k s [_ E]%delete_where_Some. apply orb_false_iff in E as [E%bool_decide_eq_false _]. done.
Qed.

Lemma DeleteAgent_ok id d e : accounts_ok d → DeleteAgent id d = Ok e → accounts_ok e.
Proof.
  intros Hok. unfold DeleteAgent. destruct (ac_agents d !! id) as [a|] eqn:Ha; [|done]. intros [= <-]. apply ok_delete_agent.
  - by apply ok_fewer_grants, ok_fewer_sessions.
  - intros k s [_ E]%delete_where_Some. apply orb_false_iff in E as [E%bool_decide_eq_false _]. done.
Qed.

Lemma RenameAgent_ok id new d e : accounts_ok d → RenameAgent id new d = Ok e → accounts_ok e.
Proof.
  intros Hok. unfold RenameAgent. destruct (ac_agents d !! id) as [a|] eqn:Ha; [|done]. case_bool_decide as E; [done|]. intros [= <-].
  apply eq_None_not_Some in E. rewrite row_where_None in E. destruct (ao_agents _ Hok) as [Hu Hr]. apply ok_with_agents; [done| |].
  - split; [|apply map_Forall_insert_2; [exact (Hr id a Ha)|done]].
    apply unique_insert; [done|]. intros j y Hj Ee. specialize (E _ _ Hj). destruct (decide (j = id)); [done|].
    rewrite (bool_decide_eq_false_2 (j = id)) in E by done. cbn in E. by apply bool_decide_eq_false in E.
  - intros i (b & Hb & Hact). destruct (decide (i = id)) as [->|]; [|exists b; by rewrite lookup_insert_ne].
    rewrite Ha in Hb. injection Hb as <-. eexists. rewrite lookup_insert_eq. done.
Qed.

Lemma UpdateAgentRole_ok id role d e : accounts_ok d → UpdateAgentRole id role d = Ok e → accounts_ok e.
Proof.
  intros Hok. unfold UpdateAgentRole. destruct (bool_decide (role ∈ _)) eqn:E; [|done]. apply bool_decide_eq_true in E. unfold update_row.
  destruct (ac_agents d !! id) as [a|] eqn:Ha; [|done]. intros [= <-]. destruct (agent_row_ok d id a) as [? ?]; [done..|].
  apply (ok_put_agent d Hok id a); auto.
Qed.

Lemma RotateAgentToken_ok id token expires t d e : accounts_ok d → RotateAgentToken unit hashSessionToken id token expires t d = Ok e → accounts_ok e.
Proof.
  intros Hok. unfold RotateAgentToken. pose proof (ok_fewer_sessions d Hok (λ _ s, of_agent id s)) as Hok1. cbn [ac_agents with_sessions] in *.
  destruct (ac_agents d !! id) as [a|] eqn:Ha.
  - intros H. destruct (agent_row_ok d id a) as [? _]; [done..|]. eapply insert_session_ok in H; [done| | |]; cbn; auto.
    + apply (ok_put_agent _ Hok1 id a); auto. apply list_elem_of_here.
    + right. eexists. by rewrite lookup_insert_eq.
  - intros H. pose proof H as (_ & _ & _ & _ & [Hid|[b Hb]])%insert_session_spec; [|cbn in Hb; congruence].
    eapply insert_session_ok in H; [done|done| |]; cbn in *; auto.
Qed.

(** ** Invites and codes *)

Lemma invite_by_hash_Some hash d id i : invite_by_hash hash d = Some (id, i) → ac_invites d !! id = Some i ∧ iv_TokenHash i = hash.
Proof. intros [? ?%bool_decide_eq_true]%row_where_Some. done. Qed.

Lemma invite_vaults_ok vaults d m m' :
  map_Forall (λ v role, is_Some (ac_vaults d !! v) ∧ role ∈ [ #"admin"; #"member"]) m → invite_vaults vaults d m = Ok m' →
  map_Forall (λ v role, is_Some (ac_vaults d !! v) ∧ role ∈ [ #"admin"; #"member"]) m'.
Proof.
  revert m. induction vaults as [|[v role] vaults IH]; intros m Hm; [by intros [= <-]|]. cbn. case_bool_decide; [done|].
  destruct (_ || _) eqn:E; [done|]. apply IH. apply orb_false_iff in E as [E1 E2]. apply negb_false_iff, bool_decide_eq_true in E1, E2.
  by apply map_Forall_insert_2.
Qed.

Lemma CreateUserInvite_spec id token email by_ role expires vaults t d e :
  CreateUserInvite unit hashToken id token email by_ role expires vaults t d = Ok e →
  ∃ i, e = with_invites <[id := i]> d ∧ ac_invites d !! id = None ∧ iv_Role i = (if bool_decide (role = []) then #"member" else role) ∧ iv_Role i ∈ instance_roles ∧
       iv_TokenHash i = hashToken token ∧ invite_by_hash (hashToken token) d = None ∧ invite_vaults vaults d ∅ = Ok (iv_Vaults i) ∧ iv_Email i = email ∧ iv_CreatedBy i = by_.
Proof.
  unfold CreateUserInvite. set (r := if bool_decide (role = []) then _ else _). destruct (_ || _) eqn:E; [done|].
  apply orb_false_iff in E as [E1%bool_decide_eq_false E2%bool_decide_eq_false]. destruct (bool_decide (r ∈ _)) eqn:Er; [|done].
  intros (m & Hm & [= <-])%result_bind_Ok. apply bool_decide_eq_true in Er. apply eq_None_not_Some in E1, E2. eexists. split; [done|]. done.
Qed.

Lemma CreateUserInvite_ok id token email by_ role expires vaults t d e :
  accounts_ok d → CreateUserInvite unit hashToken id token email by_ role expires vaults t d = Ok e → accounts_ok e.
Proof.
  intros Hok (i & -> & _ & _ & Hr & Ht & Hn & Hv & _)%CreateUserInvite_spec. destruct (ao_invites _ Hok) as [Hu Hi]. apply ok_with_invites; [done|]. split.
  - apply unique_insert; [done|]. intros j y Hj E. unfold invite_by_hash in Hn. rewrite row_where_None in Hn.
    specialize (Hn j y Hj). apply bool_decide_eq_false in Hn. congruence.
  - apply map_Forall_insert_2; [|done]. split; [done|]. by eapply invite_vaults_ok; [apply map_Forall_empty|].
Qed.

Lemma put_invite_ok id i status at_ d : accounts_ok d → ac_invites d !! id = Some i → accounts_ok (with_invites <[id := invite_with_status status at_ i]> d).
Proof.
  intros Hok Hi. destruct (ao_invites _ Hok) as [Hu Hrows]. apply ok_with_invites; [done|]. split; [by eapply unique_update|].
  apply map_Forall_insert_2; [exact (Hrows id i Hi)|done].
Qed.

Lemma AcceptUserInvite_ok token t d e : accounts_ok d → AcceptUserInvite unit hashToken token t d = Ok e → accounts_ok e.
Proof.
  intros Hok. unfold AcceptUserInvite. destruct (invite_by_hash _ d) as [[id i]|] eqn:E; [|done]. destruct (_ && _); [|done].
  apply invite_by_hash_Some in E as [? _]. intros [= <-]. by apply put_invite_ok.
Qed.
Lemma RevokeUserInvite_ok token d e : accounts_ok d → RevokeUserInvite hashToken token d = Ok e → accounts_ok e.
Proof.
  intros Hok. unfold RevokeUserInvite. destruct (invite_by_hash _ d) as [[id i]|] eqn:E; [|done]. case_bool_decide; [|done].
  apply invite_by_hash_Some in E as [? _]. intros [= <-]. by apply put_invite_ok.
Qed.

(** The tables of codes are outside the invariant. *)
Lemma verifications_ok f d : accounts_ok d → accounts_ok (with_verifications f d).
Proof. intros []; by split. Qed.
Lemma resets_ok f d : accounts_ok d → accounts_ok (with_resets f d).
Proof. intros []; by split. Qed.
End Operations.
