(* ===== verification/ServerAuth.v ===== *)
(** * Requests of the management API and who may make them ([internal/server/server.go])

    A handler is a tree of its calls to the store ([prog]): each call answers
    with the tables as they are when it runs, so a request can be run alone
    ([exec]) or with others in any interleaving ([Requests]), and any call may
    fail.  A reply is its status, its cookie and its fields; the texts of error
    messages are left out. *)

From S2P Require Import Prelude GoString RequestLogs AccountTheorems.

(** ** Handlers *)

(** [Read] gets the clock and the tables, or the failure of the query; [Write] runs
    one statement or transaction; [Clock] is [time.Now]. *)
Inductive prog (A : Type) :=
| Done (a : A)
| Read (k : result db_error (Z * accounts) → prog A)
| Write (op : Z → accounts → result db_error accounts) (k : result db_error () → prog A)
| Clock (k : Z → prog A).
Arguments Done {A} a.
Arguments Read {A} k.
Arguments Write {A} op k.
Arguments Clock {A} k.

Inductive json_field := FText (s : bytes) | FBool (b : bool) | FTime (t : Z) | FInt (n : Z) | FItems (l : list (list (bytes * json_field))).
Inductive reply := Error (status : Z) | Reply (status : Z) (cookie : option bytes) (fields : list (bytes * json_field)).
Definition reply_status (r : reply) : Z := match r with Error s => s | Reply s _ _ => s end.

(** The left side is a reply already written. *)
Definition action (A : Type) : Type := prog (result reply A).

Fixpoint handler_bind {A B} (f : A → action B) (h : action A) : action B :=
  match h with
  | Done (Ok a) => f a
  | Done (Err r) => Done (Err r)
  | Read k => Read (λ o, handler_bind f (k o))
  | Write op k => Write op (λ o, handler_bind f (k o))
  | Clock k => Clock (λ t, handler_bind f (k t))
  end.
#[global] Instance handler_ret : MRet action := λ A a, Done (Ok a).
#[global] Instance handler_mbind : MBind action := λ A B f h, handler_bind f h.

Definition refuse_with {A} (status : Z) : action A := Done (Err (Error status)).
Definition reply_with {A} (r : reply) : action A := Done (Err r).
Definition ok {A} (a : A) : action A := Done (Ok a).
Definition now : action Z := Clock ok.

Definition query {A} (q : Z → accounts → result db_error A) : action (result db_error A) :=
  Read (λ o, ok ('(t, d) ← o; q t d)).
Definition count {A} (q : Z → accounts → A) : action (result db_error A) := query (λ t d, Ok (q t d)).
Definition store (op : Z → accounts → result db_error accounts) : action (result db_error ()) := Write op ok.

Definition orElse {A} (status : Z) (h : action (result db_error A)) : action A :=
  r ← h; match r with Ok a => ok a | Err _ => refuse_with status end.
Definition require (status : Z) (b : bool) : action () := if b then ok () else refuse_with status.
Definition jsonOK {A} (fields : list (bytes * json_field)) : action A := reply_with (Reply 200 None fields).
Definition jsonCreated {A} (fields : list (bytes * json_field)) : action A := reply_with (Reply 201 None fields).

(** A call alone: the environment says when it runs and whether it fails, before or
    after it took effect. *)
Inductive luck := Runs | FailsBefore | FailsAfter.

Definition attempt (l : luck) (op : accounts → result db_error accounts) (d : accounts) : accounts * result db_error () :=
  match l, op d with
  | Runs, Ok d' => (d', Ok ())
  | Runs, Err e => (d, Err e)
  | FailsAfter, Ok d' => (d', Err OtherFailure)
  | _, _ => (d, Err OtherFailure)
  end.

Definition exec_read (l : luck) (t : Z) (d : accounts) : result db_error (Z * accounts) := match l with Runs => Ok (t, d) | _ => Err OtherFailure end.

(** A request alone; [ts] gives each call its time and its luck, and calls beyond
    it run at time [0]. *)
Fixpoint exec {A} (ts : list (Z * luck)) (p : prog A) (d : accounts) : accounts * A :=
  let '(t, l) := hd (0, Runs) ts in
  match p with
  | Done a => (d, a)
  | Read k => exec (tl ts) (k (exec_read l t d)) d
  | Write op k => let '(d', r) := attempt l (op t) d in exec (tl ts) (k r) d'
  | Clock k => exec (tl ts) (k t) d
  end.

Definition answer (h : action reply) (r : result reply reply) : reply := match r with Ok r => r | Err r => r end.

(** ** Actors *)

Inductive principal := AUser (u : User) | AAgent (a : Agent).
Record Actor := { at_ID : bytes; at_Principal : principal }.
Definition at_Type (a : Actor) : bytes := match at_Principal a with AUser _ => #"user" | AAgent _ => #"agent" end.
Definition at_Role (a : Actor) : bytes := match at_Principal a with AUser u => us_Role u | AAgent g => ag_Role g end.
Definition at_User (a : Actor) : option User := match at_Principal a with AUser u => Some u | AAgent _ => None end.
Definition IsOwner (a : Actor) : bool := bool_decide (at_Role a = #"owner").
Definition DisplayLabel (a : Actor) : bytes := match at_Principal a with AUser u => us_Email u | AAgent g => ag_Name g end.

(** A role outside the table ranks as the lowest. *)
Definition rank_of (rank : list (bytes * Z)) (role : bytes) : Z := match find (λ kv, bool_decide (fst kv = role)) rank with Some (_, n) => n | None => 0 end.
Definition satisfiesRank (rank : list (bytes * Z)) (role required : bytes) : bool := rank_of rank required <=? rank_of rank role.
Definition instanceRoleRank : list (bytes * Z) := [(#"no-access", 0); (#"member", 1); (#"owner", 2)].
Definition roleRank : list (bytes * Z) := [(#"proxy", 0); (#"member", 1); (#"admin", 2)].
Definition validInstanceRole (s : bytes) : bool := bool_decide (s ∈ map fst instanceRoleRank).
Definition instanceRoleSatisfies (role required : bytes) : bool := satisfiesRank instanceRoleRank role required.
Definition roleSatisfies (role required : bytes) : bool := satisfiesRank roleRank role required.
Definition validVaultRole (s : bytes) : bool := bool_decide (s ∈ [ #"proxy"; #"member"; #"admin"]).

Definition user_actor (id : bytes) (d : accounts) : result db_error Actor := u ← GetUserByID id d; Ok {| at_ID := id; at_Principal := AUser u |}.
Definition agent_actor (id : bytes) (d : accounts) : result db_error Actor := a ← GetAgentByID id d; Ok {| at_ID := id; at_Principal := AAgent a |}.

Definition actorByID (id type : bytes) : action (result db_error Actor) :=
  if bool_decide (type = #"user") then query (λ _, user_actor id)
  else if bool_decide (type = #"agent") then query (λ _, agent_actor id)
  else ok (Err OtherFailure).

Definition actorFromSession (s : SessionRow) : action (result db_error Actor) :=
  if negb (bool_decide (ss_UserID s = [])) then query (λ _, user_actor (ss_UserID s))
  else if negb (bool_decide (ss_AgentID s = [])) then query (λ _, agent_actor (ss_AgentID s))
  else ok (Err OtherFailure).

Definition requireActor (s : SessionRow) : action Actor := orElse 403 (actorFromSession s).
Definition requireOwnerActor (s : SessionRow) : action Actor := actor ← requireActor s; _ ← require 403 (IsOwner actor); ok actor.
Definition requireInstanceMember (s : SessionRow) : action Actor :=
  actor ← requireActor s; _ ← require 403 (instanceRoleSatisfies (at_Role actor) #"member"); ok actor.

Definition guardLastOwner : action () :=
  n ← orElse 500 (count (λ _, CountAllOwners));
  require 409 (negb (n <=? 1)).

(** [None] is a session scoped to the vault: it has no actor. *)
Definition requireVaultAccess (s : SessionRow) (vault : bytes) : action (option Actor) :=
  if negb (bool_decide (ss_VaultID s = [])) then _ ← require 403 (bool_decide (ss_VaultID s = vault)); ok None
  else actor ← requireActor s;
       has ← orElse 500 (count (λ _, HasVaultAccess (at_ID actor) vault));
       _ ← require 403 has;
       ok (Some actor).

(** The three role checks differ in the role a scoped session needs and in the test
    on the role granted to an actor. *)
Definition requireVaultRole (scoped : bytes) (granted : bytes → bool) (s : SessionRow) (vault : bytes) : action (option Actor) :=
  if negb (bool_decide (ss_VaultID s = [])) then
    _ ← require 403 (bool_decide (ss_VaultID s = vault));
    _ ← require 403 (roleSatisfies (ss_VaultRole s) scoped);
    ok None
  else
    actor ← requireActor s;
    role ← orElse 403 (query (λ _, GetVaultRole (at_ID actor) vault));
    _ ← require 403 (granted role);
    ok (Some actor).

Definition requireVaultAdmin : SessionRow → bytes → action (option Actor) := requireVaultRole #"admin" (λ role, bool_decide (role = #"admin")).
Definition requireVaultMember : SessionRow → bytes → action (option Actor) := requireVaultRole #"member" (λ role, roleSatisfies role #"member").
Definition requireProposalReview (s : SessionRow) (vault : bytes) : action (option Actor) :=
  if negb (bool_decide (ss_VaultID s = []))
  then _ ← require 403 (bool_decide (ss_VaultID s = vault)); _ ← require 403 (roleSatisfies (ss_VaultRole s) #"admin"); ok None
  else requireVaultMember s vault.

(** [initialized] is the server's flag, [recent] whether the store was asked in the last
    two seconds. *)
Definition requireInitialized (initialized recent : bool) (next : action reply) : action reply :=
  if initialized then next
  else if recent then refuse_with 503
  else n ← count (λ _, CountUsers); if match n with Ok n => 0 <? n | Err _ => false end then next else refuse_with 503.

(** ** Authentication *)

Record request := { rq_Authorization : bytes; rq_Cookie : bytes; rq_ClientIP : bytes; rq_UserAgent : bytes }.

Definition bearer (rq : request) : option bytes :=
  if HasPrefix (rq_Authorization rq) #"Bearer " then Some (TrimPrefix (rq_Authorization rq) #"Bearer ") else None.
Definition session_token (rq : request) : option bytes :=
  match bearer rq with
  | Some t => Some t
  | None => if bool_decide (rq_Cookie rq = []) then None else Some (rq_Cookie rq)
  end.

(** The cache of [maybeTouchSession]: when each token was last touched. *)
Definition touch_due (cache : gmap bytes Z) (token : bytes) (t : Z) : bool := match cache !! token with Some last => negb (time_Sub t last <? TouchInterval) | None => true end.
Definition pruneTouchCache (t : Z) (cache : gmap bytes Z) : gmap bytes Z := filter (λ kv, t - 2 * TouchInterval ≤ snd kv) cache.

Section Server.
Context (unit : Z) (hashSessionToken hashToken : bytes → bytes).

Definition maybeTouchSession (cache : gmap bytes Z) (s : SessionRow) (token : bytes) (rq : request) : action () :=
  if bool_decide (ss_UserID s = []) then ok ()
  else t ← now;
       if touch_due cache token t
       then _ ← store (λ t d, Ok (TouchSession unit hashSessionToken token (rq_ClientIP rq) (rq_UserAgent rq) t d)); ok ()
       else ok ().

(** [cache] is the touch cache as the request finds it. *)
Definition requireAuth (cache : gmap bytes Z) (rq : request) (next : SessionRow → action reply) : action reply :=
  match session_token rq with
  | None => refuse_with 401
  | Some token =>
      s ← orElse 401 (query (λ _, GetSession hashSessionToken token));
      t ← now;
      _ ← require 401 (negb (session_expired t s));
      _ ← maybeTouchSession cache s token rq;
      next s
  end.
End Server.
