(* ===== verification/ServerUsers.v ===== *)
(** * Users and their invites ([internal/server/handle_users.go], the domain rules of [handle_settings.go])

    A handler gets what the router and [requireAuth] give it: the session, the path
    values and the decoded body ([None] where decoding fails).  Identifiers and
    tokens drawn at random are arguments; so are the address grammar of [net/mail],
    the JSON of a setting and what became of the mail.  [HashUserPassword] is the
    argument [hashed]. *)

From S2P Require Import Prelude GoString RequestLogs AccountTheorems ServerAuth.

Definition text (k v : bytes) : bytes * json_field := (k, FText v).

(** [r.PathValue] keys rows by name; a query that fails or finds nothing is the same
    to a handler. *)
Definition look_up {A} (q : accounts → result db_error A) : action (option A) :=
  r ← query (λ _, q); ok (match r with Ok a => Some a | Err _ => None end).
Definition find_or {A} (status : Z) (q : accounts → result db_error A) : action A :=
  o ← look_up q; match o with Some a => ok a | None => refuse_with status end.
Definition role_in (actor vault : bytes) : action bytes := o ← look_up (GetVaultRole actor vault); ok (default [] o).
Definition access_in (actor vault : bytes) : action bool := o ← count (λ _, HasVaultAccess actor vault); ok (match o with Ok b => b | Err _ => false end).

(** What became of an email: [None] without a mail server. *)
Definition mailed (mail : option bool) : bool := default false mail.

Definition userInviteTTL : Z := 48 * 3600 * Second.
Definition maxPendingUserInvites : Z := 50.

Section Users.
Context {unicode : UnicodeTables}.
Context (unit : Z) (hashToken : bytes → bytes).
Context (validAddress : bytes → bool) (read_domains : bytes → option (list bytes)) (baseURL : bytes).

(** ** Domain rules *)

Definition GetSetting (key : bytes) (d : accounts) : result db_error bytes := found (ac_settings d !! key).

(** [None] is an error; an empty list is no restriction. *)
Definition getAllowedDomains : action (option (list bytes)) :=
  raw ← query (λ _, GetSetting #"allowed_email_domains");
  ok (match raw with
      | Err NoRows => Some []
      | Err _ => None
      | Ok raw => read_domains raw
      end).

Definition domain_of (email : bytes) : option bytes := i ← IndexByte email "@"; Some (ToLower (drop (S i) email)).

(** Whether the address may sign up. *)
Definition checkEmailDomain (email : bytes) : action bool :=
  domains ← getAllowedDomains;
  ok (match domains with
      | None => false
      | Some [] => true
      | Some domains => match domain_of email with Some domain => bool_decide (domain ∈ domains) | None => false end
      end).

Definition isInviteOnly : action bool :=
  raw ← query (λ _, GetSetting #"invite_only");
  ok (match raw with
      | Err NoRows => false
      | Err _ => true
      | Ok raw => bool_decide (raw = #"true")
      end).

Definition ValidateEmail (email : bytes) : bool := negb (bool_decide (email = [])) && validAddress email.

(** ** Users *)

Definition ListUsers (d : accounts) : list (bytes * User) := sort_by (λ a b, bytes_ltb (us_Email (snd a)) (us_Email (snd b))) (map_to_list (ac_users d)).

Definition user_fields (u : User) : list (bytes * json_field) := [text #"email" (us_Email u); text #"role" (us_Role u); (#"created_at", FTime (us_CreatedAt u))].

Definition vault_fields (l : list (bytes * bytes * Grant)) : json_field :=
  FItems (map (λ '(_, name, g), [text #"vault_name" name; text #"vault_role" (gt_Role g)]) l).

(** One query per user. *)
Fixpoint owner_items (users : list (bytes * User)) : action (list (list (bytes * json_field))) :=
  match users with
  | [] => ok []
  | (id, u) :: users =>
      grants ← count (λ _, ListActorGrants id);
      rest ← owner_items users;
      ok ((user_fields u ++ [(#"vaults", vault_fields (match grants with Ok l => l | Err _ => [] end))]) :: rest)
  end.

Definition handlePublicUserList (s : SessionRow) : action reply :=
  actor ← requireInstanceMember s;
  users ← orElse 500 (count (λ _, ListUsers));
  if IsOwner actor then items ← owner_items users; jsonOK [(#"users", FItems items)]
  else jsonOK [(#"users", FItems (map (λ '(_, u), user_fields u) users))].

Definition handleUserGet (s : SessionRow) (email : bytes) : action reply :=
  actor ← requireActor s;
  email ← (if bool_decide (email = #"me") then match at_User actor with Some u => ok (us_Email u) | None => refuse_with 400 end else ok email);
  let self := match at_User actor with Some u => bool_decide (us_Email u = email) | None => false end in
  _ ← (if self then ok () else _ ← require 403 (instanceRoleSatisfies (at_Role actor) #"member"); require 403 (IsOwner actor));
  '(id, u) ← find_or 404 (GetUserByEmail email);
  grants ← count (λ _, ListActorGrants id);
  jsonOK (user_fields u ++ [(#"vaults", FItems (map (λ '(_, name, _), [text [] name]) (match grants with Ok l => l | Err _ => [] end)))]).

Definition handleUserDelete (s : SessionRow) (email : bytes) : action reply :=
  _ ← requireOwnerActor s;
  '(id, u) ← find_or 404 (GetUserByEmail email);
  _ ← (if bool_decide (us_Role u = #"owner") then guardLastOwner else ok ());
  _ ← store (λ _ d, Ok (DeleteUserSessions id d));
  _ ← orElse 500 (store (λ _, DeleteUser id));
  jsonOK [text #"status" #"removed"; text #"email" email].

Definition handleUserSetRole (s : SessionRow) (email : bytes) (body : option bytes) : action reply :=
  _ ← requireOwnerActor s;
  match body with
  | None => refuse_with 400
  | Some role =>
      _ ← require 400 (validInstanceRole role);
      '(id, u) ← find_or 404 (GetUserByEmail email);
      _ ← (if bool_decide (us_Role u = #"owner") && negb (bool_decide (role = #"owner")) then guardLastOwner else ok ());
      _ ← orElse 500 (store (λ _, UpdateUserRole id role));
      jsonOK [text #"email" email; text #"role" role]
  end.

(** ** Invites *)

Record invite_request := { ir_Email : bytes; ir_Role : bytes; ir_Vaults : list (bytes * bytes) }.

Definition vaultsToJSON (vaults : list (bytes * bytes * bytes)) : json_field :=
  FItems (map (λ '(_, name, role), [text #"vault_name" name; text #"vault_role" role]) vaults).

(** The pre-assigned vaults, as identifier, name and role. *)
Fixpoint resolve_vaults (actor : Actor) (vaults : list (bytes * bytes)) : action (list (bytes * bytes * bytes)) :=
  match vaults with
  | [] => ok []
  | (name, role) :: vaults =>
      let role := if bool_decide (role = []) then #"member" else role in
      _ ← require 400 (bool_decide (role ∈ [ #"admin"; #"member"]));
      '(id, v) ← find_or 404 (GetVault name);
      _ ← (if IsOwner actor then ok () else mine ← role_in (at_ID actor) id; require 403 (bool_decide (mine = #"admin")));
      rest ← resolve_vaults actor vaults;
      ok ((id, vt_Name v, role) :: rest)
  end.

Definition invite_link (token : bytes) : bytes := baseURL ++ #"/invite/" ++ token.

(** [sendUserInviteEmail] and the reply after it. *)
Definition invite_reply (mail : option bool) (email : bytes) (fields : list (bytes * json_field)) (token : bytes) (expires : Z) : action reply :=
  match mail with
  | Some false => jsonCreated [text #"email" email; text #"invite_link" (invite_link token); (#"email_sent", FBool false); (#"expires_at", FTime expires)]
  | _ => jsonCreated ((text #"email" email :: fields) ++ [(#"email_sent", FBool (mailed mail)); (#"expires_at", FTime expires)] ++
                       (if mailed mail then [] else [text #"invite_link" (invite_link token)]))
  end.

Definition handleUserInviteCreate (s : SessionRow) (body : option invite_request) (inviteID : Z) (token : bytes) (mail : option bool) : action reply :=
  actor ← requireInstanceMember s;
  match body with
  | None => refuse_with 400
  | Some req =>
      _ ← require 400 (ValidateEmail (ir_Email req));
      let role := if bool_decide (ir_Role req = []) then #"member" else ir_Role req in
      _ ← require 400 (validInstanceRole role);
      _ ← require 403 (negb (bool_decide (role = #"owner")) || IsOwner actor);
      existing ← look_up (GetUserByEmail (ir_Email req));
      _ ← require 409 (negb (bool_decide (is_Some existing)));
      pending ← query (λ t, GetPendingUserInviteByEmail unit (ir_Email req) t);
      _ ← require 409 (match pending with Ok _ => false | Err _ => true end);
      allowed ← checkEmailDomain (ir_Email req);
      _ ← require 403 allowed;
      n ← orElse 500 (count (λ _, CountPendingUserInvites));
      _ ← require 429 (n <? maxPendingUserInvites);
      vaults ← resolve_vaults actor (ir_Vaults req);
      t ← now;
      let expires := t + userInviteTTL in
      _ ← orElse 500 (store (λ t, CreateUserInvite unit hashToken inviteID token (ir_Email req) (at_ID actor) role expires (map (λ '(id, _, role), (id, role)) vaults) t));
      invite_reply mail (ir_Email req) [text #"role" role; (#"vaults", vaultsToJSON vaults)] token expires
  end.

(** The vaults of an invite with their names. *)
Definition invite_vault_names (d : accounts) (i : InviteRow) : list (bytes * bytes * bytes) :=
  omap (λ '(id, role), v ← ac_vaults d !! id; Some (id, vt_Name v, role)) (map_to_list (iv_Vaults i)).

Definition closed_statuses : list bytes := [ #"accepted"; #"revoked"; #"expired"].

Definition handleUserInviteDetails (token : bytes) : action reply :=
  '(inv, vaults) ← find_or 404 (λ d, '(_, inv) ← GetUserInviteByToken hashToken token d; Ok (inv, invite_vault_names d inv));
  if bool_decide (iv_Status inv ∈ closed_statuses) then jsonOK [(#"error", FBool true)]
  else t ← now;
       if iv_ExpiresAt inv <? t then jsonOK [(#"error", FBool true)]
       else existing ← look_up (GetUserByEmail (iv_Email inv));
            jsonOK [text #"email" (iv_Email inv); text #"role" (iv_Role inv); (#"vaults", vaultsToJSON vaults);
                    (#"needs_account", FBool (negb (bool_decide (is_Some existing))))].

Fixpoint grant_invited (user : bytes) (vaults : list (bytes * bytes)) : action () :=
  match vaults with
  | [] => ok ()
  | (vault, role) :: vaults =>
      _ ← orElse 500 (store (λ t, GrantVaultRole unit user #"user" vault role t));
      grant_invited user vaults
  end.

(** [hashed] is the hash of a password; [None] where hashing fails. *)
Definition handleUserInviteAccept (token password userID : bytes) (hashed : option Password) : action reply :=
  '(_, inv) ← find_or 404 (GetUserInviteByToken hashToken token);
  _ ← require 410 (negb (bool_decide (iv_Status inv ∈ closed_statuses)));
  t ← now;
  _ ← require 410 (negb (iv_ExpiresAt inv <? t));
  existing ← look_up (GetUserByEmail (iv_Email inv));
  _ ← (if bool_decide (is_Some existing) then ok ()
       else allowed ← checkEmailDomain (iv_Email inv);
            _ ← require 403 allowed;
            require 400 (negb (Z.of_nat (length password) <? 8)));
  _ ← orElse 410 (store (λ t, AcceptUserInvite unit hashToken token t));
  user ← match existing with
         | Some (id, _) => ok id
         | None =>
             match hashed with
             | None => refuse_with 500
             | Some pw =>
                 _ ← orElse 500 (store (λ t, CreateUser unit userID (iv_Email inv) pw (iv_Role inv) t));
                 _ ← orElse 500 (store (λ _, ActivateUser userID));
                 ok userID
             end
         end;
  _ ← grant_invited user (map_to_list (iv_Vaults inv));
  jsonOK [text #"email" (iv_Email inv)].

Definition ListUserInvites (status : bytes) (d : accounts) : list (InviteRow * list (bytes * bytes * bytes)) :=
  map (λ '(_, i), (i, invite_vault_names d i))
    (sort_by (λ a b, iv_CreatedAt (snd b) <? iv_CreatedAt (snd a)) (rows_where (λ _ i, optional status (λ s, bool_decide (iv_Status i = s))) (ac_invites d))).

Definition visible_invite (actor : Actor) (admin : list bytes) (i : InviteRow) (vaults : list (bytes * bytes * bytes)) : bool :=
  bool_decide (iv_CreatedBy i = at_ID actor) || existsb (λ '(v, _, _), bool_decide (v ∈ admin)) vaults.

(** The token of a listed invite is empty: the store keeps its hash only. *)
Definition invite_fields (i : InviteRow) (vaults : list (bytes * bytes * bytes)) : list (bytes * json_field) :=
  [text #"email" (iv_Email i); text #"role" (iv_Role i); text #"token" []; text #"status" (iv_Status i); text #"created_by" (iv_CreatedBy i);
   (#"vaults", vaultsToJSON vaults); (#"expires_at", FTime (iv_ExpiresAt i)); (#"created_at", FTime (iv_CreatedAt i))].

Definition handleUserInviteList (s : SessionRow) (status : bytes) : action reply :=
  actor ← requireInstanceMember s;
  invites ← orElse 500 (count (λ _, ListUserInvites status));
  invites ← (if IsOwner actor then ok invites
             else grants ← count (λ _, ListActorGrants (at_ID actor));
                  let admin := match grants with Ok l => map (λ '(v, _, _), v) (List.filter (λ '(_, _, g), bool_decide (gt_Role g = #"admin")) l) | Err _ => [] end in
                  ok (List.filter (λ '(i, vaults), visible_invite actor admin i vaults) invites));
  jsonOK [(#"invites", FItems (map (λ '(i, vaults), invite_fields i vaults) invites))].

(** Whether the actor is an admin of one of the vaults; a query each, until one says so. *)
Fixpoint admin_of_any (actor : bytes) (vaults : list bytes) : action bool :=
  match vaults with
  | [] => ok false
  | v :: vaults => role ← role_in actor v; if bool_decide (role = #"admin") then ok true else admin_of_any actor vaults
  end.

Definition may_manage (actor : Actor) (i : InviteRow) : action bool :=
  if bool_decide (iv_CreatedBy i = at_ID actor) || IsOwner actor then ok true
  else admin_of_any (at_ID actor) (map fst (map_to_list (iv_Vaults i))).

Definition handleUserInviteRevoke (s : SessionRow) (token : bytes) : action reply :=
  actor ← requireInstanceMember s;
  '(_, inv) ← find_or 404 (GetUserInviteByToken hashToken token);
  _ ← require 404 (bool_decide (iv_Status inv = #"pending"));
  allowed ← may_manage actor inv;
  _ ← require 403 allowed;
  _ ← orElse 404 (store (λ _, RevokeUserInvite hashToken token));
  jsonOK [].

(** The new invite has the old one's address, role and vaults. *)
Definition handleUserInviteReinvite (s : SessionRow) (token : bytes) (inviteID : Z) (fresh : bytes) (mail : option bool) : action reply :=
  actor ← requireInstanceMember s;
  '(_, inv) ← find_or 404 (GetUserInviteByToken hashToken token);
  _ ← require 409 (bool_decide (iv_Status inv = #"pending"));
  allowed ← may_manage actor inv;
  _ ← require 403 allowed;
  _ ← orElse 500 (store (λ _, RevokeUserInvite hashToken token));
  t ← now;
  let expires := t + userInviteTTL in
  _ ← orElse 500 (store (λ t, CreateUserInvite unit hashToken inviteID fresh (iv_Email inv) (at_ID actor) (iv_Role inv) expires (map_to_list (iv_Vaults inv)) t));
  invite_reply mail (iv_Email inv) [] fresh expires.
End Users.
