(* ===== verification/ServerVaults.v ===== *)
(** * Agents ([internal/server/handle_agents.go])

    Creating, listing, revoking and renaming agents, their instance role, and
    their membership of vaults.  [sqlite] says which database is in use: the
    handlers recognise a duplicate name by SQLite's words for it. *)

From S2P Require Import Prelude GoString RequestLogs BrokerHost AccountTheorems ServerAuth ServerUsers.

Definition reservedVaultNames : list bytes := [ #"users"].
Definition isReservedVaultName (name : bytes) : bool := bool_decide (name ∈ reservedVaultNames).
Definition good_slug (name : bytes) : bool := match ValidateSlug name with None => true | Some _ => false end.

(** [strings.Contains(err.Error(), "UNIQUE constraint")]. *)
Definition unique_text (sqlite : bool) (e : db_error) : bool := match e with UniqueViolation => sqlite | _ => false end.

Definition status_on_duplicate {A} (sqlite : bool) (h : action (result db_error A)) : action A :=
  r ← h; match r with Ok a => ok a | Err e => if unique_text sqlite e then refuse_with 409 else refuse_with 500 end.

Section Agents.
Context (unit : Z) (hashSessionToken : bytes → bytes) (sqlite : bool).

Record agent_request := { gr_Name : bytes; gr_Role : bytes; gr_Vaults : list (bytes * bytes) }.

(** The vaults of a new agent, as identifier, name and role. *)
Fixpoint resolve_grants (actor : Actor) (vaults : list (bytes * bytes)) : action (list (bytes * bytes * bytes)) :=
  match vaults with
  | [] => ok []
  | (name, role) :: vaults =>
      let role := if bool_decide (role = []) then #"proxy" else role in
      _ ← require 400 (validVaultRole role);
      '(id, _) ← find_or 404 (GetVault name);
      _ ← (if IsOwner actor then ok () else mine ← role_in (at_ID actor) id; require 403 (bool_decide (mine = #"admin")));
      rest ← resolve_grants actor vaults;
      ok ((id, name, role) :: rest)
  end.

Definition handleAgentCreate (s : SessionRow) (body : option agent_request) (agentID token : bytes) : action reply :=
  actor ← requireInstanceMember s;
  match body with
  | None => refuse_with 400
  | Some req =>
      _ ← require 400 (negb (bool_decide (gr_Name req = [])));
      _ ← require 400 (good_slug (gr_Name req));
      grants ← resolve_grants actor (gr_Vaults req);
      let role := if bool_decide (gr_Role req = []) then #"no-access" else gr_Role req in
      _ ← require 400 (validInstanceRole role);
      _ ← require 403 (negb (bool_decide (role = #"owner")) || IsOwner actor);
      _ ← status_on_duplicate sqlite (store (λ t, CreateAgentWithGrantsAndToken unit hashSessionToken agentID token (gr_Name req) (at_ID actor) role (map (λ '(id, _, role), (id, role)) grants) None t));
      jsonCreated [text #"av_agent_token" token; text #"name" (gr_Name req); text #"role" role; (#"vaults", vaultsToJSON grants)]
  end.

(** ** The directory *)

Definition agent_row : Type := bytes * Agent * list (bytes * bytes * Grant).
Definition with_vault_grants (d : accounts) (l : list (bytes * Agent)) : list agent_row := map (λ '(id, a), (id, a, ListActorGrants id d)) l.
Definition ListAllAgents (d : accounts) : list agent_row := with_vault_grants d (sort_by (λ a b, bytes_ltb (ag_Name (snd a)) (ag_Name (snd b))) (map_to_list (ac_agents d))).
Definition ListAgents (vault : bytes) (d : accounts) : list agent_row :=
  List.filter (λ '(id, _, _), match ac_grants d !! (id, vault) with Some g => bool_decide (gt_ActorType g = #"agent") | None => false end) (ListAllAgents d).

Definition GetLatestAgentTokenExpiry (id : bytes) (t : Z) (d : accounts) : option Z :=
  let l := map snd (rows_where (λ _ s, of_agent id s) (ac_sessions d)) in
  if existsb (λ s, bool_decide (ss_ExpiresAt s = None)) l then None
  else foldr (λ e m, match m with Some b => Some (Z.max e b) | None => Some e end) None (List.filter (λ e, FormatTime unit t <? e) (omap ss_ExpiresAt l)).

Definition actorAccessibleVaultIDs (actor : bytes) (d : accounts) : list bytes := map (λ '(v, _, _), v) (ListActorGrants actor d).
Definition agentDirectoryRowVisibleToNonOwner (actor : Actor) (accessible : list bytes) (row : agent_row) : bool :=
  let '(_, a, grants) := row in
  bool_decide (ag_CreatedBy a = at_ID actor) || existsb (λ '(v, _, _), bool_decide (v ∈ accessible)) grants.

Definition time_field (k : bytes) (o : option Z) : list (bytes * json_field) := match o with Some t => [(k, FTime t)] | None => [] end.

Fixpoint agent_items (agents : list agent_row) : action (list (list (bytes * json_field))) :=
  match agents with
  | [] => ok []
  | (id, a, grants) :: agents =>
      expiry ← (if bool_decide (ag_Status a = #"active") then o ← count (GetLatestAgentTokenExpiry id); ok (match o with Ok e => e | Err _ => None end) else ok None);
      rest ← agent_items agents;
      ok (([text #"name" (ag_Name a); text #"role" (ag_Role a); text #"status" (ag_Status a); (#"vaults", vault_fields grants); (#"created_at", FTime (ag_CreatedAt a))] ++
           time_field #"revoked_at" (ag_RevokedAt a) ++ time_field #"token_expires_at" expiry) :: rest)
  end.

Definition handleAgentList (s : SessionRow) : action reply :=
  actor ← requireInstanceMember s;
  agents ← orElse 500 (count (λ _, ListAllAgents));
  agents ← (if IsOwner actor then ok agents
            else accessible ← orElse 500 (count (λ _, actorAccessibleVaultIDs (at_ID actor)));
                 ok (List.filter (agentDirectoryRowVisibleToNonOwner actor accessible) agents));
  items ← agent_items agents;
  jsonOK [(#"agents", FItems items)].

Definition agent_named (name : bytes) (d : accounts) : result db_error agent_row := '(id, a) ← GetAgentByName name d; Ok (id, a, ListActorGrants id d).

Definition handleAgentGet (s : SessionRow) (name : bytes) : action reply :=
  actor ← requireInstanceMember s;
  row ← find_or 404 (agent_named name);
  let '(id, a, grants) := row in
  _ ← (if IsOwner actor then ok ()
       else accessible ← orElse 500 (count (λ _, actorAccessibleVaultIDs (at_ID actor)));
            require 404 (agentDirectoryRowVisibleToNonOwner actor accessible row));
  tokens ← count (λ t, CountAgentTokens unit id t);
  expiry ← count (GetLatestAgentTokenExpiry id);
  jsonOK ([text #"name" (ag_Name a); text #"role" (ag_Role a); text #"status" (ag_Status a); (#"vaults", vault_fields grants);
           text #"created_by" (ag_CreatedBy a); (#"created_at", FTime (ag_CreatedAt a))] ++ (if IsOwner actor then [text #"id" id] else []) ++
          time_field #"revoked_at" (ag_RevokedAt a) ++ [(#"active_tokens", FInt (match tokens with Ok n => n | Err _ => 0 end))] ++
          time_field #"token_expires_at" (match expiry with Ok e => e | Err _ => None end)).

(** ** Management *)

(** The checks the four management handlers begin with. *)
Definition managed_agent (s : SessionRow) (name : bytes) : action (Actor * bytes * Agent) :=
  actor ← requireInstanceMember s;
  '(id, a) ← find_or 404 (GetAgentByName name);
  _ ← require 403 (IsOwner actor || negb (bool_decide (ag_Role a = #"owner")));
  _ ← require 403 (IsOwner actor || bool_decide (ag_CreatedBy a = at_ID actor));
  ok (actor, id, a).

Definition handleAgentRevoke (s : SessionRow) (name : bytes) : action reply :=
  '(_, id, a) ← managed_agent s name;
  _ ← require 409 (bool_decide (ag_Status a = #"active"));
  _ ← (if bool_decide (ag_Role a = #"owner") then guardLastOwner else ok ());
  _ ← orElse 500 (store (λ t, RevokeAgent unit id t));
  jsonOK [].

Definition handleAgentDelete (s : SessionRow) (name : bytes) : action reply :=
  '(_, id, a) ← managed_agent s name;
  _ ← (if bool_decide (ag_Role a = #"owner") then guardLastOwner else ok ());
  _ ← orElse 500 (store (λ _, DeleteAgent id));
  jsonOK [].

Definition handleAgentRotate (s : SessionRow) (name token : bytes) : action reply :=
  '(_, id, a) ← managed_agent s name;
  _ ← orElse 500 (store (λ t, RotateAgentToken unit hashSessionToken id token None t));
  t ← now;
  jsonOK [text #"av_agent_token" token; text #"name" (ag_Name a); (#"rotated_at", FTime t)].

Definition handleAgentRename (s : SessionRow) (name : bytes) (body : option bytes) : action reply :=
  '(_, id, _) ← managed_agent s name;
  let new := default [] body in
  _ ← require 400 (negb (bool_decide (new = [])));
  _ ← require 400 (good_slug new);
  existing ← look_up (GetAgentByName new);
  _ ← require 409 (negb (bool_decide (is_Some existing)));
  _ ← orElse 500 (store (λ _, RenameAgent id new));
  jsonOK [text #"old_name" name; text #"new_name" new].

Definition handleAgentSetRole (s : SessionRow) (name : bytes) (body : option bytes) : action reply :=
  _ ← requireOwnerActor s;
  let role := default [] body in
  _ ← require 400 (negb (bool_decide (role = [])));
  _ ← require 400 (validInstanceRole role);
  '(id, a) ← find_or 404 (GetAgentByName name);
  _ ← require 409 (bool_decide (ag_Status a = #"active"));
  _ ← (if bool_decide (ag_Role a = #"owner") && negb (bool_decide (role = #"owner")) then guardLastOwner else ok ());
  _ ← orElse 500 (store (λ _, UpdateAgentRole id role));
  jsonOK [text #"agent" name; text #"old_role" (ag_Role a); text #"new_role" role].

(** ** Agents of a vault *)

Definition handleVaultAgentList (s : SessionRow) (vault : bytes) : action reply :=
  '(id, _) ← find_or 404 (GetVault vault);
  _ ← requireVaultAccess s id;
  agents ← orElse 500 (count (λ _, ListAgents id));
  jsonOK [(#"agents", FItems (map (λ '(agent, a, grants),
            [text #"name" (ag_Name a); text #"agent_id" agent;
             text #"vault_role" (match find (λ '(v, _, _), bool_decide (v = id)) grants with Some (_, _, g) => gt_Role g | None => [] end); text #"status" (ag_Status a)]) agents))].

(** [body] is the name and the role. *)
Definition handleVaultAgentAdd (s : SessionRow) (vault : bytes) (body : option (bytes * bytes)) : action reply :=
  '(id, _) ← find_or 404 (GetVault vault);
  _ ← requireVaultAdmin s id;
  let '(name, role) := default ([], []) body in
  _ ← require 400 (negb (bool_decide (name = [])));
  let role := if bool_decide (role = []) then #"proxy" else role in
  _ ← require 400 (validVaultRole role);
  '(agent, a) ← find_or 404 (GetAgentByName name);
  _ ← require 409 (bool_decide (ag_Status a = #"active"));
  has ← access_in agent id;
  _ ← require 409 (negb has);
  _ ← orElse 500 (store (λ t, GrantVaultRole unit agent #"agent" id role t));
  jsonCreated [].

Definition handleVaultAgentRemove (s : SessionRow) (vault name : bytes) : action reply :=
  '(id, _) ← find_or 404 (GetVault vault);
  _ ← requireVaultAdmin s id;
  '(agent, _) ← find_or 404 (GetAgentByName name);
  _ ← orElse 500 (store (λ _, RevokeVaultAccess agent id));
  jsonOK [].

Definition handleVaultAgentSetRole (s : SessionRow) (vault name : bytes) (body : option bytes) : action reply :=
  '(id, _) ← find_or 404 (GetVault vault);
  _ ← requireVaultAdmin s id;
  let role := default [] body in
  _ ← require 400 (negb (bool_decide (role = [])));
  _ ← require 400 (validVaultRole role);
  '(agent, _) ← find_or 404 (GetAgentByName name);
  old ← find_or 404 (GetVaultRole agent id);
  _ ← orElse 500 (store (λ t, GrantVaultRole unit agent #"agent" id role t));
  jsonOK [text #"old_role" old; text #"new_role" role].
End Agents.

(** * Vaults, their members and their sessions ([internal/server/handle_vaults.go, handle_sessions.go, handle_user_sessions.go])

    Creating, renaming, deleting, joining and leaving a vault, its users, and
    the sessions scoped to it; the sessions of a user.  The snapshot of an external
    credential store ([prepareInfisicalSnapshot] and its twin) is an argument:
    [Err] is the reply it wrote. *)

Definition DefaultVault : bytes := #"default".

Section Vaults.
Context {unicode : UnicodeTables}.
Context (unit : Z) (hashSessionToken hashToken : bytes → bytes) (sqlite : bool) (validAddress : bytes → bool).

(** ** Vaults *)

Definition resolveVaultForAdminOrOwner (s : SessionRow) (name : bytes) : action (Actor * bytes) :=
  '(id, _) ← find_or 404 (GetVault name);
  actor ← requireActor s;
  role ← role_in (at_ID actor) id;
  _ ← require 403 (bool_decide (role = #"admin") || IsOwner actor);
  ok (actor, id).

(** The vault, its store and its first admin in one transaction. *)
Definition CreateExternalVault (id name actor type : bytes) (t : Z) (d : accounts) : result db_error accounts :=
  if bool_decide (name = []) || bool_decide (actor = []) || bool_decide (type = []) then Err OtherFailure
  else d ← CreateVault unit id name t d; GrantVaultRole unit actor type id #"admin" t d.

Definition createExternalVault (actor : Actor) (name id : bytes) (snapshot : result reply ()) : action reply :=
  match snapshot with
  | Err r => reply_with r
  | Ok _ =>
      _ ← status_on_duplicate sqlite (store (CreateExternalVault id name (at_ID actor) (at_Type actor)));
      jsonCreated [text #"id" id; text #"name" name]
  end.

(** The body: a name and, for an external store, the snapshot taken for it. *)
Definition handleVaultCreate (s : SessionRow) (body : option (bytes * option (result reply ()))) (id : bytes) : action reply :=
  actor ← requireInstanceMember s;
  match body with
  | None => refuse_with 400
  | Some (name, external) =>
      _ ← require 400 (negb (bool_decide (name = [])));
      _ ← require 400 (good_slug name);
      _ ← require 400 (negb (isReservedVaultName name));
      match external with
      | Some snapshot => _ ← require 403 (IsOwner actor); createExternalVault actor name id snapshot
      | None =>
          _ ← status_on_duplicate sqlite (store (CreateVault unit id name));
          _ ← store (GrantVaultRole unit (at_ID actor) (at_Type actor) id #"admin");
          jsonCreated [text #"id" id; text #"name" name]
      end
  end.

Definition handleVaultDelete (s : SessionRow) (name : bytes) : action reply :=
  _ ← require 400 (negb (bool_decide (name = DefaultVault)));
  _ ← resolveVaultForAdminOrOwner s name;
  _ ← orElse 500 (store (λ _, DeleteVault name));
  jsonOK [text #"name" name; (#"deleted", FBool true)].

(** [store.RenameVault]: the vault is looked up by name, then renamed. *)
Definition rename_vault (name new : bytes) : action (result db_error ()) :=
  r ← query (λ _, GetVault name);
  match r with Ok (id, _) => store (λ _, RenameVault id new) | Err e => ok (Err e) end.

Definition handleVaultRename (s : SessionRow) (name : bytes) (body : option bytes) : action reply :=
  _ ← require 400 (negb (bool_decide (name = DefaultVault)));
  _ ← resolveVaultForAdminOrOwner s name;
  let new := default [] body in
  _ ← require 400 (negb (bool_decide (new = [])));
  _ ← require 400 (good_slug new);
  _ ← require 400 (negb (isReservedVaultName new));
  existing ← look_up (GetVault new);
  _ ← require 409 (negb (bool_decide (is_Some existing)));
  _ ← orElse 500 (rename_vault name new);
  jsonOK [text #"old_name" name; text #"new_name" new].

Definition ListVaults (d : accounts) : list (bytes * VaultRow) := sort_by (λ a b, vt_CreatedAt (snd a) <? vt_CreatedAt (snd b)) (map_to_list (ac_vaults d)).

Definition handleAdminVaultList (s : SessionRow) : action reply :=
  _ ← requireOwnerActor s;
  vaults ← orElse 500 (count (λ _, ListVaults));
  jsonOK [(#"vaults", FItems (map (λ '(id, v), [text #"id" id; text #"name" (vt_Name v); (#"is_default", FBool (bool_decide (vt_Name v = DefaultVault)));
                                                  (#"created_at", FTime (vt_CreatedAt v))]) vaults))].

(** ** Members *)

Definition last_admin (vault : bytes) : action () :=
  n ← count (λ _, CountVaultAdmins vault);
  require 409 (negb ((match n with Ok n => n | Err _ => 0 end) <=? 1)).

Definition handleVaultUserAdd (s : SessionRow) (vault : bytes) (body : option (bytes * bytes)) : action reply :=
  '(id, _) ← find_or 404 (GetVault vault);
  _ ← requireVaultAdmin s id;
  match body with
  | None => refuse_with 400
  | Some (email, role) =>
      _ ← require 400 (ValidateEmail validAddress email);
      let role := if bool_decide (role = []) then #"member" else role in
      _ ← require 400 (bool_decide (role ∈ [ #"admin"; #"member"]));
      '(user, _) ← find_or 404 (GetUserByEmail email);
      has ← access_in user id;
      _ ← require 409 (negb has);
      _ ← orElse 500 (store (λ t, GrantVaultRole unit user #"user" id role t));
      jsonCreated [text #"email" email; text #"role" role]
  end.

Definition handleVaultUserRemove (s : SessionRow) (vault email : bytes) : action reply :=
  '(id, _) ← find_or 404 (GetVault vault);
  _ ← requireVaultAdmin s id;
  '(user, _) ← find_or 404 (GetUserByEmail email);
  role ← role_in user id;
  _ ← (if bool_decide (role = #"admin") then last_admin id else ok ());
  _ ← orElse 404 (store (λ _, RevokeVaultAccess user id));
  jsonOK [].

Definition handleVaultUserSetRole (s : SessionRow) (vault email : bytes) (body : option bytes) : action reply :=
  '(id, _) ← find_or 404 (GetVault vault);
  _ ← requireVaultAdmin s id;
  match body with
  | None => refuse_with 400
  | Some role =>
      _ ← require 400 (bool_decide (role ∈ [ #"admin"; #"member"]));
      '(user, _) ← find_or 404 (GetUserByEmail email);
      current ← role_in user id;
      _ ← require 404 (negb (bool_decide (current = [])));
      _ ← (if bool_decide (current = #"admin") && bool_decide (role = #"member") then last_admin id else ok ());
      _ ← orElse 500 (store (λ t, GrantVaultRole unit user #"user" id role t));
      jsonOK [text #"email" email; text #"role" role]
  end.

Definition handleVaultLeave (s : SessionRow) (vault : bytes) : action reply :=
  '(id, _) ← find_or 404 (GetVault vault);
  o ← requireVaultAccess s id;
  match o with
  | None => refuse_with 403
  | Some actor =>
      role ← role_in (at_ID actor) id;
      _ ← require 409 (negb (bool_decide (role = [])));
      _ ← (if bool_decide (role = #"admin") then last_admin id else ok ());
      _ ← orElse 500 (store (λ _, RevokeVaultAccess (at_ID actor) id));
      jsonOK []
  end.

Definition handleVaultJoin (s : SessionRow) (vault : bytes) : action reply :=
  actor ← requireOwnerActor s;
  '(id, _) ← find_or 404 (GetVault vault);
  has ← orElse 500 (count (λ _, HasVaultAccess (at_ID actor) id));
  _ ← require 409 (negb has);
  _ ← orElse 500 (store (λ t, GrantVaultRole unit (at_ID actor) (at_Type actor) id #"admin" t));
  jsonOK [text #"vault" vault; text #"role" #"admin"; (#"joined", FBool true)].

(** ** Scoped sessions *)

Definition scopedSessionMinTTL : Z := 5 * 60 * Second.
Definition scopedSessionMaxTTL : Z := 7 * 24 * 3600 * Second.
Definition scopedSessionDefaultTTL : Z := 24 * 3600 * Second.
Definition maxScopedSessionLabel : Z := 100.

Definition label_char (c : Z) : bool := negb ((c <? 32) || (c =? 127)).
Definition sanitizeScopedSessionLabel (label : bytes) : bytes := concat (map EncodeRune (List.filter label_char (runes (TrimSpace label)))).

Record scoped_request := { sr_Vault : bytes; sr_Role : bytes; sr_TTL : option Z; sr_Label : bytes }.

Definition wrap64 (z : Z) : Z := (z + 2 ^ 63) mod 2 ^ 64 - 2 ^ 63.
(** A time to live in seconds is an [int]; its product with a second wraps. *)
Definition ttl_ok (ttl : option Z) : bool :=
  match ttl with Some n => let d := wrap64 (n * Second) in negb ((d <? scopedSessionMinTTL) || (scopedSessionMaxTTL <? d)) | None => true end.

Definition handleScopedSession (s : SessionRow) (body : option scoped_request) (token publicID baseURL : bytes) : action reply :=
  match body with
  | None => refuse_with 400
  | Some req =>
      _ ← require 400 (negb (bool_decide (sr_Vault req = [])));
      _ ← require 400 (bool_decide (sr_Role req ∈ [[]; #"proxy"]));
      _ ← require 400 (ttl_ok (sr_TTL req));
      let label := sanitizeScopedSessionLabel (sr_Label req) in
      _ ← require 400 (negb (maxScopedSessionLabel <? Z.of_nat (length (runes label))));
      '(vault, _) ← find_or 404 (GetVault (sr_Vault req));
      _ ← requireVaultMember s vault;
      t ← now;
      let expires := t + match sr_TTL req with Some n => wrap64 (n * Second) | None => scopedSessionDefaultTTL end in
      by_ ← actorFromSession s;
      let '(by_id, by_type) := match by_ with Ok a => (at_ID a, at_Type a) | Err _ => ([], []) end in
      _ ← orElse 500 (store (λ t, CreateScopedSession unit hashSessionToken token publicID t
            {| cp_VaultID := vault; cp_VaultRole := #"proxy"; cp_ExpiresAt := Some expires; cp_Label := label; cp_CreatedByActorID := by_id; cp_CreatedByActorType := by_type |}));
      jsonOK [text #"token" token; (#"expires_at", FTime expires); text #"av_addr" baseURL]
  end.

(** Each row with the label of whoever minted it; the labels found are kept. *)
Fixpoint session_views (names : list (bytes * bytes * bytes)) (rows : list SessionRow) : action (list (list (bytes * json_field))) :=
  match rows with
  | [] => ok []
  | r :: rows =>
      let row := [text #"id" (ss_PublicID r); text #"label" (ss_Label r); text #"vault_role" (ss_VaultRole r); (#"created_at", FTime (ss_CreatedAt r))] ++ time_field #"expires_at" (ss_ExpiresAt r) in
      let id := ss_CreatedByActorID r in let type := ss_CreatedByActorType r in
      if bool_decide (id = []) || bool_decide (type = []) then rest ← session_views names rows; ok (row :: rest)
      else
        '(name, names) ← match find (λ '(i, ty, _), bool_decide (i = id) && bool_decide (ty = type)) names with
                          | Some (_, _, name) => ok (name, names)
                          | None => a ← actorByID id type; let name := match a with Ok a => DisplayLabel a | Err _ => id end in ok (name, (id, type, name) :: names)
                          end;
        rest ← session_views names rows;
        ok ((row ++ [(#"created_by", FItems [[text #"id" id; text #"type" type; text #"display_name" name]])]) :: rest)
  end.

Definition handleListScopedSessions (s : SessionRow) (vault : bytes) : action reply :=
  _ ← require 400 (negb (bool_decide (vault = [])));
  '(id, _) ← find_or 404 (GetVault vault);
  _ ← requireVaultMember s id;
  rows ← orElse 500 (query (λ t, ListScopedSessionsByVault unit id t));
  views ← session_views [] rows;
  jsonOK [(#"sessions", FItems views)].

Definition revoked (r : result db_error ()) (reply_ok : reply) : action reply :=
  match r with Ok _ => reply_with reply_ok | Err NoRows => refuse_with 404 | Err _ => refuse_with 500 end.

Definition handleRevokeScopedSession (s : SessionRow) (publicID vault : bytes) : action reply :=
  _ ← require 400 (negb (bool_decide (publicID = [])));
  _ ← require 400 (negb (bool_decide (vault = [])));
  '(id, _) ← find_or 404 (GetVault vault);
  _ ← requireVaultMember s id;
  r ← store (λ _, RevokeScopedSession id publicID);
  revoked r (Reply 200 None [text #"status" #"revoked"]).

(** ** Sessions of a user *)

Definition handleListUserSessions (s : SessionRow) : action reply :=
  _ ← require 403 (negb (bool_decide (ss_UserID s = [])));
  rows ← orElse 500 (count (λ t, ListUserSessions unit (ss_UserID s) t));
  jsonOK [(#"sessions", FItems (map (λ r, [text #"id" (ss_PublicID r); text #"device_label" (ss_DeviceLabel r); text #"last_ip" (ss_LastIP r);
    text #"last_user_agent" (ss_LastUserAgent r); (#"created_at", FTime (ss_CreatedAt r))] ++ time_field #"last_used_at" (ss_LastUsedAt r) ++
    time_field #"expires_at" (ss_ExpiresAt r) ++ [(#"current", FBool (bool_decide (ss_PublicID r = ss_PublicID s)))]) rows))].

(** Revoking the session in use clears its cookie. *)
Definition handleRevokeUserSession (s : SessionRow) (publicID : bytes) : action reply :=
  _ ← require 403 (negb (bool_decide (ss_UserID s = [])));
  _ ← require 400 (negb (bool_decide (publicID = [])));
  r ← store (λ _, RevokeUserSession (ss_UserID s) publicID);
  let self := bool_decide (ss_PublicID s = publicID) in
  revoked r (Reply 200 (if self then Some [] else None) [text #"status" #"revoked"; (#"current", FBool self)]).
End Vaults.
