(* ===== verification/ServerLogin.v ===== *)
(** * Registration, passwords and logins ([internal/server/handle_auth.go])

    Argon2 is the argument [argon2]; the identifiers, tokens, salts and codes drawn
    at random are arguments, and so are the verdicts of the rate limiter and what
    became of an email. *)

From S2P Require Import Prelude GoString GoStrconv RequestLogs AccountTheorems ServerAuth ServerUsers ServerVaults.

Definition emailVerificationTTL : Z := 15 * 60 * Second.
Definition passwordResetTTL : Z := 15 * 60 * Second.
Definition maxPendingVerifications : Z := 3.
Definition maxPendingPasswordResets : Z := 3.
Definition maxDeviceLabelRunes : nat := 64.
Definition userSessionAbsoluteTTL : Z := 365 * 24 * 3600 * Second.
Definition userSessionIdleTTL : Z := 30 * 24 * 3600 * Second.

(** What a login draws at random: a session's token and public identifier. *)
Record session_draw := { dr_Token : bytes; dr_PublicID : bytes }.

Section Login.
Context {unicode : UnicodeTables}.
Context (unit : Z) (hashSessionToken hashToken : bytes → bytes) (validAddress : bytes → bool) (read_domains : bytes → option (list bytes)).
Context (argon2 : bytes → bytes → Z → Z → Z → Z → bytes).

(** [%06d]. *)
Definition six_digits (n : Z) : bytes := let s := Itoa n in repeat x30 (6 - length s) ++ s.

Definition DeriveKey (password salt : bytes) (time memory threads : Z) : bytes := argon2 password salt time memory threads 32.
Definition HashUserPassword (password : bytes) (salt : option bytes) : option Password :=
  salt ← salt;
  Some {| pw_Hash := DeriveKey password salt 3 (64 * 1024) 4; pw_Salt := salt; pw_Time := 3; pw_Memory := 64 * 1024; pw_Threads := 4 |}.
Definition VerifyUserPassword (password : bytes) (pw : Password) : bool :=
  bool_decide (DeriveKey password (pw_Salt pw) (pw_Time pw) (pw_Memory pw) (pw_Threads pw) = pw_Hash pw).

Definition truncateDeviceLabel (label : bytes) : bytes := concat (map EncodeRune (take maxDeviceLabelRunes (List.filter label_char (runes (TrimSpace label))))).

Definition sign_in_session (rq : request) (user label : bytes) (draw : session_draw) : action (result db_error Z) :=
  t ← now;
  let expires := t + userSessionAbsoluteTTL in
  r ← store (λ t, CreateUserSession unit hashSessionToken (dr_Token draw) (dr_PublicID draw) t
        {| cu_UserID := user; cu_ExpiresAt := expires; cu_IdleTTL := userSessionIdleTTL; cu_DeviceLabel := label; cu_LastIP := rq_ClientIP rq; cu_LastUserAgent := rq_UserAgent rq |});
  ok (_ ← r; Ok expires).

Inductive code_error := TooManyPending | CodeFailed.

(** Whether the code was sent. *)
Definition generateAndSendVerificationCode (email : bytes) (codeID code : Z) (mail : option bool) : action (result code_error bool) :=
  n ← count (λ t, CountPendingEmailVerifications unit email t);
  match n with
  | Err _ => ok (Err CodeFailed)
  | Ok n =>
      if maxPendingVerifications <=? n then ok (Err TooManyPending)
      else t ← now;
           r ← store (CreateEmailVerification unit hashToken codeID email (six_digits code) (t + emailVerificationTTL));
           ok (match r with Ok _ => Ok (mailed mail) | Err _ => Err CodeFailed end)
  end.

Definition sent_code (email : bytes) (codeID code : Z) (mail : option bool) : action bool :=
  r ← generateAndSendVerificationCode email codeID code mail;
  match r with Ok b => ok b | Err TooManyPending => refuse_with 429 | Err CodeFailed => refuse_with 500 end.

Definition verification_reply {A} (email : bytes) (sent : bool) : action A :=
  jsonCreated [text #"email" email; (#"requires_verification", FBool true); (#"email_sent", FBool sent)].

Definition signed_in {A} (status : Z) (token : bytes) (expires : Z) (fields : list (bytes * json_field)) : action A :=
  reply_with (Reply status (Some token) (fields ++ [(#"authenticated", FBool true); (#"expires_at", FTime expires)])).

(** ** Registration *)

Record register_request := { rg_Email : bytes; rg_Password : bytes; rg_DeviceLabel : bytes }.
(** What a registration draws at random. *)
Record register_draw := { rd_UserID : bytes; rd_Salt : option bytes; rd_CodeID : Z; rd_Code : Z; rd_Session : session_draw }.

Definition handleRegister (rq : request) (body : option register_request) (draw : register_draw) (mail : option bool) : action reply :=
  match body with
  | None => refuse_with 400
  | Some req =>
      let email := rg_Email req in
      _ ← require 400 (ValidateEmail validAddress email);
      _ ← require 400 (negb (Z.of_nat (length (rg_Password req)) <? 8));
      users ← count (λ _, CountUsers);
      _ ← (if 0 <? match users with Ok n => n | Err _ => 0 end
           then allowed ← checkEmailDomain read_domains email; _ ← require 403 allowed; closed ← isInviteOnly; require 403 (negb closed)
           else ok ());
      existing ← look_up (GetUserByEmail email);
      match existing with
      | Some (_, u) =>
          if us_IsActive u then verification_reply email (bool_decide (is_Some mail))
          else _ ← sent_code email (rd_CodeID draw) (rd_Code draw) mail; verification_reply email (bool_decide (is_Some mail))
      | None =>
          match HashUserPassword (rg_Password req) (rd_Salt draw) with
          | None => refuse_with 500
          | Some pw =>
              vault ← look_up (GetVault DefaultVault);
              let vaultID := match vault with Some (id, _) => id | None => [] end in
              first ← store (RegisterFirstUser unit (rd_UserID draw) email pw vaultID);
              match first with
              | Ok _ =>
                  r ← orElse 500 (sign_in_session rq (rd_UserID draw) (truncateDeviceLabel (rg_DeviceLabel req)) (rd_Session draw));
                  signed_in 201 (dr_Token (rd_Session draw)) r [text #"email" email; text #"role" #"owner"; text #"token" (dr_Token (rd_Session draw))]
              | Err ErrNotFirstUser =>
                  allowed ← checkEmailDomain read_domains email;
                  _ ← require 403 allowed;
                  _ ← orElse 500 (store (CreateUser unit (rd_UserID draw) email pw #"member"));
                  sent ← sent_code email (rd_CodeID draw) (rd_Code draw) mail;
                  verification_reply email sent
              | Err _ => refuse_with 500
              end
          end
      end
  end.

Record verify_request := { vr_Email : bytes; vr_Code : bytes; vr_DeviceLabel : bytes }.

(** [allowed] is the verdict of [FailureCheck] on the address. *)
Definition handleVerify (rq : request) (body : option verify_request) (allowed : bool) (draw : session_draw) : action reply :=
  match body with
  | None => refuse_with 400
  | Some req =>
      _ ← require 400 (negb (bool_decide (vr_Email req = []) || bool_decide (vr_Code req = [])));
      _ ← require 429 allowed;
      '(codeID, _) ← orElse 400 (query (λ t, GetPendingEmailVerification unit hashToken (vr_Email req) (vr_Code req) t));
      '(id, u) ← find_or 404 (GetUserByEmail (vr_Email req));
      _ ← require 409 (negb (us_IsActive u));
      _ ← orElse 500 (store (λ _, MarkEmailVerificationUsed codeID));
      _ ← orElse 500 (store (λ _, ActivateUser id));
      expires ← orElse 500 (sign_in_session rq id (truncateDeviceLabel (vr_DeviceLabel req)) draw);
      signed_in 200 (dr_Token draw) expires [text #"email" (us_Email u); text #"token" (dr_Token draw)]
  end.

Definition uniform {A} (sent : bool) : action A := jsonOK [(#"email_sent", FBool sent)].

Definition handleResendVerification (body : option bytes) (codeID code : Z) (mail : option bool) : action reply :=
  let email := default [] body in
  _ ← require 400 (negb (bool_decide (email = [])));
  user ← look_up (GetUserByEmail email);
  match user with
  | Some (_, u) =>
      if us_IsActive u then uniform false
      else r ← generateAndSendVerificationCode email codeID code mail; uniform (match r with Ok sent => sent | Err _ => false end)
  | None => uniform false
  end.

(** ** Passwords *)

Definition handleForgotPassword (body : option bytes) (codeID code : Z) (mail : option bool) : action reply :=
  let email := default [] body in
  _ ← require 400 (negb (bool_decide (email = [])));
  t ← now;
  _ ← store (λ _ d, Ok (ExpirePendingPasswordResets unit t d));
  user ← look_up (GetUserByEmail email);
  match user with
  | Some (_, u) =>
      if us_IsActive u then
        n ← orElse 500 (count (λ t, CountPendingPasswordResets unit email t));
        if maxPendingPasswordResets <=? n then uniform false
        else t ← now;
             _ ← orElse 500 (store (CreatePasswordReset unit hashToken codeID email (six_digits code) (t + passwordResetTTL)));
             uniform (mailed mail)
      else uniform false
  | None => uniform false
  end.

Record reset_request := { rs_Email : bytes; rs_Code : bytes; rs_NewPassword : bytes; rs_DeviceLabel : bytes }.

Definition handleResetPassword (rq : request) (body : option reset_request) (allowed : bool) (salt : option bytes) (draw : session_draw) : action reply :=
  match body with
  | None => refuse_with 400
  | Some req =>
      _ ← require 400 (negb (bool_decide (rs_Email req = []) || bool_decide (rs_Code req = []) || bool_decide (rs_NewPassword req = [])));
      _ ← require 400 (negb (Z.of_nat (length (rs_NewPassword req)) <? 8));
      _ ← require 429 allowed;
      '(codeID, _) ← orElse 400 (query (λ t, GetPendingPasswordReset unit hashToken (rs_Email req) (rs_Code req) t));
      '(id, u) ← find_or 400 (GetUserByEmail (rs_Email req));
      _ ← require 400 (us_IsActive u);
      match HashUserPassword (rs_NewPassword req) salt with
      | None => refuse_with 500
      | Some pw =>
          _ ← orElse 500 (store (λ _, UpdateUserPassword id pw));
          _ ← orElse 500 (store (λ _, MarkPasswordResetUsed codeID));
          _ ← store (λ _ d, Ok (DeleteUserSessions id d));
          r ← sign_in_session rq id (truncateDeviceLabel (rs_DeviceLabel req)) draw;
          match r with
          | Ok expires => signed_in 200 (dr_Token draw) expires []
          | Err _ => jsonOK [(#"authenticated", FBool false)]
          end
      end
  end.

(** [body] is the current password and the new one. *)
Definition handleChangePassword (rq : request) (s : SessionRow) (body : option (bytes * bytes)) (salt : option bytes) (draw : session_draw) : action reply :=
  match body with
  | None => refuse_with 400
  | Some (current, new) =>
      _ ← require 400 (negb (bool_decide (new = [])));
      _ ← require 400 (negb (Z.of_nat (length new) <? 8));
      _ ← require 403 (negb (bool_decide (ss_UserID s = [])));
      let id := ss_UserID s in
      u ← find_or 500 (GetUserByID id);
      _ ← require 400 (negb (bool_decide (current = [])));
      _ ← require 401 (VerifyUserPassword current (us_Password u));
      match HashUserPassword new salt with
      | None => refuse_with 500
      | Some pw =>
          _ ← orElse 500 (store (λ _, UpdateUserPassword id pw));
          _ ← store (λ _ d, Ok (DeleteUserSessions id d));
          expires ← orElse 500 (sign_in_session rq id (ss_DeviceLabel s) draw);
          reply_with (Reply 200 (Some (dr_Token draw)) [text #"token" (dr_Token draw); (#"expires_at", FTime expires)])
      end
  end.

(** ** Logins *)

Record login_request := { lg_Email : bytes; lg_Password : bytes; lg_DeviceLabel : bytes }.

(** [allowed] joins the verdicts on the client's address and on the account. *)
Definition handleLogin (rq : request) (body : option login_request) (allowed : bool) (draw : session_draw) : action reply :=
  let req := default {| lg_Email := []; lg_Password := []; lg_DeviceLabel := [] |} body in
  _ ← require 400 (negb (bool_decide (lg_Email req = []) || bool_decide (lg_Password req = [])));
  _ ← require 429 allowed;
  '(id, u) ← find_or 401 (GetUserByEmail (lg_Email req));
  _ ← require 401 (VerifyUserPassword (lg_Password req) (us_Password u));
  _ ← require 401 (us_IsActive u);
  expires ← orElse 500 (sign_in_session rq id (truncateDeviceLabel (lg_DeviceLabel req)) draw);
  reply_with (Reply 200 (Some (dr_Token draw)) [text #"token" (dr_Token draw); (#"expires_at", FTime expires)]).

Definition handleDeleteAccount (s : SessionRow) : action reply :=
  _ ← require 403 (negb (bool_decide (ss_UserID s = [])));
  let id := ss_UserID s in
  u ← find_or 500 (GetUserByID id);
  _ ← require 409 (negb (bool_decide (us_Role u = #"owner")));
  _ ← store (λ _ d, Ok (DeleteUserSessions id d));
  _ ← orElse 500 (store (λ _, DeleteUser id));
  reply_with (Reply 200 (Some []) [text #"status" #"deleted"; text #"email" (us_Email u)]).

(** Logging out needs no session: the header's token comes before the cookie's. *)
Definition handleLogout (rq : request) : action reply :=
  let token := match bearer rq with Some [] | None => rq_Cookie rq | Some t => t end in
  _ ← (if bool_decide (token = []) then ok () else _ ← store (λ _, DeleteSession hashSessionToken token); ok ());
  reply_with (Reply 200 (Some []) [text #"status" #"ok"]).

Definition handleAuthMe (s : SessionRow) : action reply :=
  actor ← orElse 401 (actorFromSession s);
  match at_Principal actor with
  | AAgent a => jsonOK [text #"type" #"agent"; text #"agent_name" (ag_Name a); text #"role" (ag_Role a); (#"is_owner", FBool (IsOwner actor))]
  | AUser u => jsonOK [text #"type" #"user"; text #"email" (us_Email u); text #"role" (us_Role u); (#"is_owner", FBool (bool_decide (us_Role u = #"owner")))]
  end.
End Login.
