(* ===== verification/Requests.v ===== *)
(** * Requests of the management API, run together ([internal/server/server.go])

    [serve] is the routes: which handlers stand behind [requireAuth] and the limits.
    A [world] is the tables and the requests in progress; in a step one request
    makes its next call, at any time and with any luck, so two requests
    interleave at every call.  [hp] is the program logic the theorems use. *)

From S2P Require Import Prelude GoString RequestLogs AccountTheorems ServerAuth ServerUsers ServerVaults ServerLogin.

(** ** Routes *)

(** A route with what the request brings to it; random draws are the server's. *)
Inductive endpoint :=
| AuthMe | ChangePassword (body : option (bytes * bytes)) (salt : option bytes) (draw : session_draw) | DeleteAccount
| ListSessions | RevokeSession (publicID : bytes)
| ScopedSession (body : option scoped_request) (token publicID : bytes) | ListScoped (vault : bytes) | RevokeScoped (publicID vault : bytes)
| AgentCreate (body : option agent_request) (agentID token : bytes) | AgentList | AgentGet (name : bytes) | AgentRevoke (name : bytes) | AgentDelete (name : bytes)
| AgentRotate (name token : bytes) | AgentRename (name : bytes) (body : option bytes) | AgentSetRole (name : bytes) (body : option bytes)
| VaultAgentList (vault : bytes) | VaultAgentAdd (vault : bytes) (body : option (bytes * bytes)) | VaultAgentRemove (vault name : bytes)
| VaultAgentSetRole (vault name : bytes) (body : option bytes)
| UserList | UserGet (email : bytes) | UserDelete (email : bytes) | UserSetRole (email : bytes) (body : option bytes)
| VaultCreate (body : option (bytes * option (result reply ()))) (id : bytes) | VaultDelete (name : bytes) | VaultRename (name : bytes) (body : option bytes)
| VaultJoin (name : bytes) | VaultLeave (name : bytes) | AdminVaultList
| InviteCreate (body : option invite_request) (inviteID : Z) (token : bytes) (mail : option bool) | InviteList (status : bytes) | InviteRevoke (token : bytes)
| InviteReinvite (token : bytes) (inviteID : Z) (fresh : bytes) (mail : option bool)
| VaultUserAdd (vault : bytes) (body : option (bytes * bytes)) | VaultUserRemove (vault email : bytes) | VaultUserSetRole (vault email : bytes) (body : option bytes)
(* without a session *)
| Register (body : option register_request) (draw : register_draw) (mail : option bool) | Verify (body : option verify_request) (tries : bool) (draw : session_draw)
| Resend (body : option bytes) (codeID code : Z) (mail : option bool) | Forgot (body : option bytes) (codeID code : Z) (mail : option bool)
| ResetPassword (body : option reset_request) (tries : bool) (salt : option bytes) (draw : session_draw)
| Login (body : option login_request) (tries : bool) (draw : session_draw) | Logout
| InviteDetails (token : bytes) | InviteAccept (token password userID : bytes) (salt : option bytes).

(** [ar_Allowed] is the verdict of the route's rate limit. *)
Record arrival := { ar_Request : request; ar_Touched : gmap bytes Z; ar_Initialized : bool; ar_Recent : bool; ar_Allowed : bool; ar_Endpoint : endpoint }.

(** The invite token in the path. *)
Definition presented (e : endpoint) : option bytes :=
  match e with InviteRevoke t | InviteReinvite t _ _ _ | InviteDetails t | InviteAccept t _ _ _ => Some t | _ => None end.

Section Routes.
Context {unicode : UnicodeTables}.
Context (unit : Z) (hashSessionToken hashToken : bytes → bytes) (sqlite : bool) (validAddress : bytes → bool) (read_domains : bytes → option (list bytes)).
Context (argon2 : bytes → bytes → Z → Z → Z → Z → bytes) (baseURL : bytes).

Definition authed (e : endpoint) (rq : request) (s : SessionRow) : option (action reply) :=
  match e with
  | AuthMe => Some (handleAuthMe s)
  | ChangePassword body salt draw => Some (handleChangePassword unit hashSessionToken argon2 rq s body salt draw)
  | DeleteAccount => Some (handleDeleteAccount s)
  | ListSessions => Some (handleListUserSessions unit s)
  | RevokeSession publicID => Some (handleRevokeUserSession s publicID)
  | ScopedSession body token publicID => Some (handleScopedSession unit hashSessionToken s body token publicID baseURL)
  | ListScoped vault => Some (handleListScopedSessions unit s vault)
  | RevokeScoped publicID vault => Some (handleRevokeScopedSession s publicID vault)
  | AgentCreate body agentID token => Some (handleAgentCreate unit hashSessionToken sqlite s body agentID token)
  | AgentList => Some (handleAgentList unit s)
  | AgentGet name => Some (handleAgentGet unit s name)
  | AgentRevoke name => Some (handleAgentRevoke unit s name)
  | AgentDelete name => Some (handleAgentDelete s name)
  | AgentRotate name token => Some (handleAgentRotate unit hashSessionToken s name token)
  | AgentRename name body => Some (handleAgentRename s name body)
  | AgentSetRole name body => Some (handleAgentSetRole s name body)
  | VaultAgentList vault => Some (handleVaultAgentList s vault)
  | VaultAgentAdd vault body => Some (handleVaultAgentAdd unit s vault body)
  | VaultAgentRemove vault name => Some (handleVaultAgentRemove s vault name)
  | VaultAgentSetRole vault name body => Some (handleVaultAgentSetRole unit s vault name body)
  | UserList => Some (handlePublicUserList s)
  | UserGet email => Some (handleUserGet s email)
  | UserDelete email => Some (handleUserDelete s email)
  | UserSetRole email body => Some (handleUserSetRole s email body)
  | VaultCreate body id => Some (handleVaultCreate unit sqlite s body id)
  | VaultDelete name => Some (handleVaultDelete s name)
  | VaultRename name body => Some (handleVaultRename s name body)
  | VaultJoin name => Some (handleVaultJoin unit s name)
  | VaultLeave name => Some (handleVaultLeave s name)
  | AdminVaultList => Some (handleAdminVaultList s)
  | InviteCreate body id token mail => Some (handleUserInviteCreate unit hashToken validAddress read_domains baseURL s body id token mail)
  | InviteList status => Some (handleUserInviteList s status)
  | InviteRevoke token => Some (handleUserInviteRevoke hashToken s token)
  | InviteReinvite token id fresh mail => Some (handleUserInviteReinvite unit hashToken baseURL s token id fresh mail)
  | VaultUserAdd vault body => Some (handleVaultUserAdd unit validAddress s vault body)
  | VaultUserRemove vault email => Some (handleVaultUserRemove s vault email)
  | VaultUserSetRole vault email body => Some (handleVaultUserSetRole unit s vault email body)
  | _ => None
  end.

Definition open_route (e : endpoint) (rq : request) : action reply :=
  match e with
  | Register body draw mail => handleRegister unit hashSessionToken hashToken validAddress read_domains argon2 rq body draw mail
  | Verify body tries draw => handleVerify unit hashSessionToken hashToken rq body tries draw
  | Resend body id code mail => handleResendVerification unit hashToken body id code mail
  | Forgot body id code mail => handleForgotPassword unit hashToken body id code mail
  | ResetPassword body tries salt draw => handleResetPassword unit hashSessionToken hashToken argon2 rq body tries salt draw
  | Login body tries draw => handleLogin unit hashSessionToken argon2 rq body tries draw
  | Logout => handleLogout hashSessionToken rq
  | InviteDetails token => handleUserInviteDetails hashToken token
  | InviteAccept token password userID salt => handleUserInviteAccept unit hashToken read_domains token password userID (HashUserPassword argon2 password salt)
  | _ => refuse_with 404
  end.

(** The five routes that answer before there is an owner. *)
Definition before_owner (e : endpoint) : bool :=
  match e with Register _ _ _ | Verify _ _ _ | Resend _ _ _ _ | Forgot _ _ _ _ | ResetPassword _ _ _ _ => true | _ => false end.

Definition needs_session (e : endpoint) : bool :=
  match e with
  | Register _ _ _ | Verify _ _ _ | Resend _ _ _ _ | Forgot _ _ _ _ | ResetPassword _ _ _ _ | Login _ _ _ | Logout | InviteDetails _ | InviteAccept _ _ _ _ => false
  | _ => true
  end.

Definition serve (a : arrival) : action reply :=
  let e := ar_Endpoint a in let rq := ar_Request a in
  let limited h := if ar_Allowed a then h else refuse_with 429 in
  let gate h := if before_owner e then h else requireInitialized (ar_Initialized a) (ar_Recent a) h in
  gate (if needs_session e
        then requireAuth unit hashSessionToken (ar_Touched a) rq (λ s, limited (default (refuse_with 404) (authed e rq s)))
        else limited (open_route e rq)).

(** ** Interleaving *)

(** A request in progress: what arrived, the tables it has seen, what is left to do. *)
Definition running : Type := arrival * list accounts * prog (result reply reply).
Record world := { w_db : accounts; w_past : list accounts; w_running : list running }.

Definition call {A} (l : luck) (t : Z) (d : accounts) (h : list accounts) (p : prog A) : option (accounts * list accounts * prog A) :=
  let seen := match l with Runs => d :: h | _ => h end in
  match p with
  | Done _ => None
  | Clock k => Some (d, h, k t)
  | Read k => Some (d, seen, k (exec_read l t d))
  | Write op k => let '(d', r) := attempt l (op t) d in Some (d', seen, k r)
  end.

Inductive wstep : world → world → Prop :=
| step_arrive w a : wstep w {| w_db := w_db w; w_past := w_past w; w_running := w_running w ++ [(a, [], serve a)] |}
| step_call w i a h p l t d' h' p' :
    w_running w !! i = Some (a, h, p) → call l t (w_db w) h p = Some (d', h', p') →
    wstep w {| w_db := d'; w_past := w_db w :: w_past w; w_running := <[i := (a, h', p')]> (w_running w) |}.

Definition fresh (d : accounts) : world := {| w_db := d; w_past := []; w_running := [] |}.
End Routes.
