(* ===== verification/AccessTheorems.v ===== *)
(** * Who may change what

    The program logic of a request ([wp], [hp]), the changes a request is
    [authorised] to make, and the proof that every handler makes no other, however
    the requests interleave and whichever calls fail. *)

From S2P Require Import Prelude GoString RequestLogs AccountTheorems ServerAuth ServerUsers ServerVaults ServerLogin Requests.

(** ** The program logic *)

Section Logic.
(** [I] is the invariant of the tables, [G h d e] what a request that has seen [h] may
    do to the tables [d]. *)
Context (I : accounts → Prop) (G : list accounts → accounts → accounts → Prop).

Fixpoint wp {A} (p : prog A) (Q : list accounts → A → Prop) (h : list accounts) : Prop :=
  match p with
  | Done a => Q h a
  | Read k => wp (k (Err OtherFailure)) Q h ∧ ∀ t d, I d → wp (k (Ok (t, d))) Q (d :: h)
  | Write op k =>
      wp (k (Err OtherFailure)) Q h ∧
      ∀ t d, I d → match op t d with
                   | Ok e => I e ∧ G h d e ∧ wp (k (Ok ())) Q (d :: h)
                   | Err er => wp (k (Err er)) Q (d :: h)
                   end
  | Clock k => ∀ t, wp (k t) Q h
  end.

Lemma wp_mono {A} (p : prog A) (Q R : list accounts → A → Prop) h : (∀ h' a, h ⊆ h' → Q h' a → R h' a) → wp p Q h → wp p R h.
Proof using Type.
  revert h. induction p as [a|k IH|op k IH|k IH]; intros h HQR; cbn.
  - by apply HQR.
  - intros [H1 H2]. split; [by apply IH|]. intros t d Hd. eapply IH; [|by apply H2]. intros h' a Hsub. apply HQR. set_solver.
  - intros [H1 H2]. split; [by apply IH|]. intros t d Hd. specialize (H2 t d Hd). destruct (op t d) as [e|er].
    + destruct H2 as (? & ? & H2). split_and!; [done..|]. eapply IH; [|exact H2]. intros h' a Hsub. apply HQR. set_solver.
    + eapply IH; [|exact H2]. intros h' a Hsub. apply HQR. set_solver.
  - intros H t. by apply IH.
Qed.

Lemma wp_bind {A B} (p : action A) (f : A → action B) Q h :
  wp p (λ h r, match r with Ok a => wp (f a) Q h | Err r => Q h (Err r) end) h → wp (handler_bind f p) Q h.
Proof using Type.
  revert h. induction p as [[a|r]|k IH|op k IH|k IH]; intros h; cbn; try done.
  - intros [H1 H2]. split; [by apply IH|]. intros t d Hd. apply IH. by apply H2.
  - intros [H1 H2]. split; [by apply IH|]. intros t d Hd. specialize (H2 t d Hd). destruct (op t d); [|by apply IH]. destruct H2 as (? & ? & ?). auto.
  - intros H t. by apply IH.
Qed.

(** What holds if the handler goes on. *)
Definition hp {A} (p : action A) (Q : list accounts → A → Prop) (h : list accounts) : Prop :=
  wp p (λ h r, match r with Ok a => Q h a | Err _ => True end) h.

Lemma hp_mono {A} (p : action A) (Q R : list accounts → A → Prop) h : (∀ h' a, h ⊆ h' → Q h' a → R h' a) → hp p Q h → hp p R h.
Proof using Type. intros HQR. apply wp_mono. intros h' [a|r]; [apply HQR|done]. Qed.

Lemma hp_bind {A B} (p : action A) (f : A → action B) Q h : hp p (λ h a, hp (f a) Q h) h → hp (p ≫= f) Q h.
Proof using Type. intros H. apply wp_bind. eapply wp_mono; [|exact H]. by intros h' [a|r] _. Qed.

Lemma hp_ok {A} (a : A) (Q : list accounts → A → Prop) h : Q h a → hp (ok a) Q h.
Proof using Type. done. Qed.
Lemma hp_refuse {A} s (Q : list accounts → A → Prop) h : hp (refuse_with s) Q h.
Proof using Type. done. Qed.
Lemma hp_finish {A} r (Q : list accounts → A → Prop) h : hp (reply_with r) Q h.
Proof using Type. done. Qed.

Lemma hp_now (Q : list accounts → Z → Prop) h : (∀ t, Q h t) → hp now Q h.
Proof using Type. intros H t. apply H. Qed.

Lemma hp_require s b (Q : list accounts → () → Prop) h : (b = true → Q h ()) → hp (require s b) Q h.
Proof using Type. unfold require. destruct b; [intros H; by apply H|done]. Qed.

Lemma hp_query {A} (q : Z → accounts → result db_error A) Q h :
  Q h (Err OtherFailure) → (∀ t d, I d → Q (d :: h) (q t d)) → hp (query q) Q h.
Proof using Type. intros H1 H2. split; [done|]. intros t d Hd. apply H2, Hd. Qed.

Lemma hp_store op (Q : list accounts → result db_error () → Prop) h :
  (∀ t d e, I d → op t d = Ok e → I e ∧ G h d e) → (∀ er, Q h (Err er)) → (∀ d er, Q (d :: h) (Err er)) → (∀ t d e, I d → op t d = Ok e → Q (d :: h) (Ok ())) → hp (store op) Q h.
Proof using Type.
  intros Hop He1 He2 Hok. split; [apply He1|]. intros t d Hd. destruct (op t d) as [e|er] eqn:E; [|apply He2]. destruct (Hop t d e Hd E).
  split_and!; [done..|]. by eapply Hok.
Qed.

(** The last write of a handler. *)
Lemma hp_store_all op (Q : list accounts → result db_error () → Prop) h :
  (∀ t d e, I d → op t d = Ok e → I e ∧ G h d e) → (∀ h' r, h ⊆ h' → Q h' r) → hp (store op) Q h.
Proof using Type. intros Hop HQ. apply hp_store; [done|..]; intros; apply HQ; set_solver. Qed.

Lemma hp_orElse {A} s (p : action (result db_error A)) Q h : hp p (λ h r, match r with Ok a => Q h a | Err _ => True end) h → hp (orElse s p) Q h.
Proof using Type. intros H. apply hp_bind. eapply hp_mono; [|exact H]. by intros h' [a|er] _. Qed.

Lemma hp_count {A} (q : Z → accounts → A) Q h : Q h (Err OtherFailure) → (∀ t d, I d → Q (d :: h) (Ok (q t d))) → hp (count q) Q h.
Proof using Type. apply hp_query. Qed.

Lemma hp_lookup {A} (q : accounts → result db_error A) Q h :
  Q h None → (∀ d, I d → Q (d :: h) (match q d with Ok a => Some a | Err _ => None end)) → hp (look_up q) Q h.
Proof using Type. intros H1 H2. apply hp_bind, hp_query; [done|]. intros t d Hd. by apply H2. Qed.

Lemma hp_find_or {A} s (q : accounts → result db_error A) Q h : (∀ d a, I d → q d = Ok a → Q (d :: h) a) → hp (find_or s q) Q h.
Proof using Type. intros H. apply hp_bind, hp_lookup; [done|]. intros d Hd. destruct (q d) as [a|er] eqn:E; [|done]. by apply H. Qed.

Lemma hp_if {A} (b : bool) (p q : action A) Q h : (b = true → hp p Q h) → (b = false → hp q Q h) → hp (if b then p else q) Q h.
Proof using Type. destruct b; auto. Qed.
End Logic.

(** ** What a request may do *)

Section Access.
Context (hashSessionToken hashToken : bytes → bytes) (a : arrival).

(** The request's token is that of a session of [x] in tables the request has seen. *)
Definition speaks (h : list accounts) (x : bytes) : Prop :=
  ∃ d s token, d ∈ h ∧ session_token (ar_Request a) = Some token ∧ ac_sessions d !! hashSessionToken token = Some s ∧ x ≠ [] ∧
               (x = ss_UserID s ∨ ss_UserID s = [] ∧ x = ss_AgentID s).

Definition has_role (h : list accounts) (x role : bytes) : Prop :=
  ∃ d, d ∈ h ∧ ((∃ u, ac_users d !! x = Some u ∧ us_Role u = role) ∨ (∃ g, ac_agents d !! x = Some g ∧ ag_Role g = role)).
Definition has_vault_role (h : list accounts) (x v role : bytes) : Prop := ∃ d g, d ∈ h ∧ ac_grants d !! (x, v) = Some g ∧ gt_Role g = role.

Definition by_owner (h : list accounts) : Prop := ∃ x, speaks h x ∧ has_role h x #"owner".
Definition by_member (h : list accounts) : Prop := ∃ x, speaks h x ∧ (has_role h x #"owner" ∨ has_role h x #"member").
Definition by_admin (h : list accounts) (v : bytes) : Prop := ∃ x, speaks h x ∧ has_vault_role h x v #"admin".
Definition by_vault_member (h : list accounts) (v : bytes) : Prop := ∃ x, speaks h x ∧ (has_vault_role h x v #"admin" ∨ has_vault_role h x v #"member").

(** The request presents the token of an open invite. *)
Definition invited (h : list accounts) (i : InviteRow) : Prop :=
  ∃ d id token, d ∈ h ∧ presented (ar_Endpoint a) = Some token ∧ ac_invites d !! id = Some i ∧ iv_Status i ∉ closed_statuses ∧ iv_TokenHash i = hashToken token.

(** A grant by an owner, by an admin of the vault, to an invitee, to the creator of the
    vault, or to the first user. *)
Definition may_grant (h : list accounts) (d : accounts) (v role : bytes) : Prop :=
  by_owner h ∨ by_admin h v ∨ (∃ i, invited h i ∧ iv_Vaults i !! v = Some role) ∨ (by_member h ∧ ∃ d0, d0 ∈ d :: h ∧ ac_vaults d0 !! v = None) ∨ ac_users d = ∅.

Record authorised (h : list accounts) (d e : accounts) : Prop := {
  au_grants x v g : ac_grants e !! (x, v) = Some g → (∀ g0, ac_grants d !! (x, v) = Some g0 → gt_Role g0 ≠ gt_Role g) → may_grant h d v (gt_Role g);
  au_users x u : ac_users e !! x = Some u → us_Role u = #"owner" → (∀ u0, ac_users d !! x = Some u0 → us_Role u0 ≠ #"owner") →
                 by_owner h ∨ (∃ i, invited h i ∧ iv_Role i = #"owner") ∨ ac_users d = ∅;
  au_agents x g : ac_agents e !! x = Some g → ag_Role g = #"owner" → (∀ g0, ac_agents d !! x = Some g0 → ag_Role g0 ≠ #"owner") → by_owner h;
  (* a new invite, or one pending again *)
  au_invites id i : ac_invites e !! id = Some i → iv_Status i = #"pending" →
    (∀ i0, ac_invites d !! id = Some i0 → iv_Status i0 ≠ #"pending" ∨ iv_Role i0 ≠ iv_Role i ∨ ¬ iv_Vaults i ⊆ iv_Vaults i0) →
    (iv_Role i = #"owner" → by_owner h ∨ ∃ i0, invited h i0 ∧ iv_Role i0 = #"owner") ∧
    (∀ v role, iv_Vaults i !! v = Some role → by_owner h ∨ by_admin h v ∨ ∃ i0, invited h i0 ∧ iv_Vaults i0 !! v = Some role);
  (* a closed invite stays closed *)
  au_closed id i0 : ac_invites d !! id = Some i0 → iv_Status i0 ≠ #"pending" → ∃ i, ac_invites e !! id = Some i ∧ iv_Status i = iv_Status i0;
  au_sessions k s : ac_sessions e !! k = Some s → ss_VaultID s ≠ [] → (∀ s0, ac_sessions d !! k = Some s0 → ss_VaultID s0 ≠ ss_VaultID s ∨ ss_VaultRole s0 ≠ ss_VaultRole s) →
    ss_VaultRole s = #"proxy" ∧ by_vault_member h (ss_VaultID s);
}.

(** A change that gives nobody anything. *)
Record quiet (d e : accounts) : Prop := {
  qu_grants k g : ac_grants e !! k = Some g → ∃ g0, ac_grants d !! k = Some g0 ∧ gt_Role g0 = gt_Role g;
  qu_users x u : ac_users e !! x = Some u → us_Role u = #"owner" → ∃ u0, ac_users d !! x = Some u0 ∧ us_Role u0 = #"owner";
  qu_agents x g : ac_agents e !! x = Some g → ag_Role g = #"owner" → ∃ g0, ac_agents d !! x = Some g0 ∧ ag_Role g0 = #"owner";
  qu_invites id i : ac_invites e !! id = Some i → iv_Status i = #"pending" →
    ∃ i0, ac_invites d !! id = Some i0 ∧ iv_Status i0 = #"pending" ∧ iv_Role i0 = iv_Role i ∧ iv_Vaults i ⊆ iv_Vaults i0;
  qu_closed id i0 : ac_invites d !! id = Some i0 → iv_Status i0 ≠ #"pending" → ∃ i, ac_invites e !! id = Some i ∧ iv_Status i = iv_Status i0;
  qu_sessions k s : ac_sessions e !! k = Some s → ss_VaultID s ≠ [] → ∃ s0, ac_sessions d !! k = Some s0 ∧ ss_VaultID s0 = ss_VaultID s ∧ ss_VaultRole s0 = ss_VaultRole s;
}.

Lemma quiet_refl d : quiet d d.
Proof using Type. split; eauto. Qed.

Lemma quiet_trans d1 d2 d3 : quiet d1 d2 → quiet d2 d3 → quiet d1 d3.
Proof using Type.
  intros Q1 Q2. split.
  - intros k g (g2 & H2 & E2)%(qu_grants _ _ Q2). apply (qu_grants _ _ Q1) in H2 as (g1 & ? & ?). exists g1. split; congruence.
  - intros x u H Hr. apply (qu_users _ _ Q2) in H as (u2 & H2 & E2); [|done]. by apply (qu_users _ _ Q1) in H2.
  - intros x u H Hr. apply (qu_agents _ _ Q2) in H as (u2 & H2 & E2); [|done]. by apply (qu_agents _ _ Q1) in H2.
  - intros id i H Hp. apply (qu_invites _ _ Q2) in H as (i2 & H2 & P2 & R2 & V2); [|done]. apply (qu_invites _ _ Q1) in H2 as (i1 & ? & ? & ? & ?); [|done].
    exists i1. split_and!; [done..|congruence|]. by etrans.
  - intros id i1 H Hp. apply (qu_closed _ _ Q1) in H as (i2 & H2 & E2); [|done]. apply (qu_closed _ _ Q2) in H2 as (i3 & ? & ?); [|congruence].
    exists i3. split; congruence.
  - intros k s H Hv. apply (qu_sessions _ _ Q2) in H as (s2 & H2 & V2 & R2); [|done]. apply (qu_sessions _ _ Q1) in H2 as (s1 & ? & ? & ?); [|congruence].
    exists s1. split_and!; congruence.
Qed.

Lemma authorised_quiet h d1 d2 d3 : authorised h d1 d2 → quiet d2 d3 → authorised h d1 d3.
Proof using Type.
  intros Au Q. split.
  - intros x v g (g2 & H2 & E2)%(qu_grants _ _ Q) Hnew. rewrite <- E2. apply (au_grants _ _ _ Au x v g2 H2). intros g0 H0. rewrite E2. by apply Hnew.
  - intros x u H Hr Hnew. apply (qu_users _ _ Q) in H as (u2 & H2 & E2); [|done]. by apply (au_users _ _ _ Au x u2).
  - intros x u H Hr Hnew. apply (qu_agents _ _ Q) in H as (u2 & H2 & E2); [|done]. by apply (au_agents _ _ _ Au x u2).
  - intros id i H Hp Hnew. apply (qu_invites _ _ Q) in H as (i2 & H2 & P2 & R2 & V2); [|done].
    destruct (au_invites _ _ _ Au id i2 H2 P2) as [Hr Hv].
    + intros i0 H0. destruct (Hnew i0 H0) as [?|[?|Hn]]; [auto|right; left; congruence|]. right. right. intros Hsub. apply Hn. by etrans.
    + split; [intros Ho; apply Hr; congruence|]. intros v role Hvr. apply Hv. by eapply lookup_weaken.
  - intros id i1 H Hp. apply (au_closed _ _ _ Au) in H as (i2 & H2 & E2); [|done]. apply (qu_closed _ _ Q) in H2 as (i3 & ? & ?); [|congruence].
    exists i3. split; congruence.
  - intros k s H Hv Hnew. apply (qu_sessions _ _ Q) in H as (s2 & H2 & V2 & R2); [|done]. rewrite <- V2, <- R2.
    apply (au_sessions _ _ _ Au k s2 H2); [congruence|]. intros s0 H0. rewrite V2, R2. by apply Hnew.
Qed.

Lemma authorised_refl h d : authorised h d d.
Proof using Type.
  split.
  - intros x v g H Hn. by destruct (Hn g H).
  - intros x u H Hr Hn. by destruct (Hn u H).
  - intros x u H Hr Hn. by destruct (Hn u H).
  - intros id i H Hp Hn. by destruct (Hn i H) as [?|[?|[]]].
  - eauto.
  - intros k s H Hv Hn. by destruct (Hn s H) as [[]|[]].
Qed.

Lemma quiet_authorised h d e : quiet d e → authorised h d e.
Proof using Type. apply authorised_quiet, authorised_refl. Qed.
End Access.

(** ** Operations that give nobody anything *)

Section Quiet.
Implicit Types d e : accounts.

Lemma quiet_users f d : (∀ x u, f (ac_users d) !! x = Some u → us_Role u = #"owner" → ∃ u0, ac_users d !! x = Some u0 ∧ us_Role u0 = #"owner") → quiet d (with_users f d).
Proof. intros ?. by split; eauto. Qed.
Lemma quiet_agents f d : (∀ x g, f (ac_agents d) !! x = Some g → ag_Role g = #"owner" → ∃ g0, ac_agents d !! x = Some g0 ∧ ag_Role g0 = #"owner") → quiet d (with_agents f d).
Proof. intros ?. by split; eauto. Qed.
Lemma quiet_grants f d : (∀ k g, f (ac_grants d) !! k = Some g → ∃ g0, ac_grants d !! k = Some g0 ∧ gt_Role g0 = gt_Role g) → quiet d (with_grants f d).
Proof. intros ?. by split; eauto. Qed.
Lemma quiet_invites f d :
  (∀ id i, f (ac_invites d) !! id = Some i → iv_Status i = #"pending" → ∃ i0, ac_invites d !! id = Some i0 ∧ iv_Status i0 = #"pending" ∧ iv_Role i0 = iv_Role i ∧ iv_Vaults i ⊆ iv_Vaults i0) →
  (∀ id i0, ac_invites d !! id = Some i0 → iv_Status i0 ≠ #"pending" → ∃ i, f (ac_invites d) !! id = Some i ∧ iv_Status i = iv_Status i0) →
  quiet d (with_invites f d).
Proof. intros ? ?. by split; eauto. Qed.
Lemma quiet_sessions f d :
  (∀ k s, f (ac_sessions d) !! k = Some s → ss_VaultID s ≠ [] → ∃ s0, ac_sessions d !! k = Some s0 ∧ ss_VaultID s0 = ss_VaultID s ∧ ss_VaultRole s0 = ss_VaultRole s) → quiet d (with_sessions f d).
Proof. intros ?. by split; eauto. Qed.
Lemma quiet_vaults f d : quiet d (with_vaults f d).
Proof. by split; eauto. Qed.
Lemma quiet_verifications f d : quiet d (with_verifications f d).
Proof. by split; eauto. Qed.
Lemma quiet_resets f d : quiet d (with_resets f d).
Proof. by split; eauto. Qed.

Lemma quiet_fewer_grants P d : quiet d (with_grants (delete_where P) d).
Proof. apply quiet_grants. intros k g [? _]%delete_where_Some. eauto. Qed.
Lemma quiet_fewer_sessions P d : quiet d (with_sessions (delete_where P) d).
Proof. apply quiet_sessions. intros k s [? _]%delete_where_Some. eauto. Qed.

(** A session of a user or an agent is not one of a vault. *)
Lemma quiet_insert_session hash row d e : ss_VaultID row = [] → insert_session hash row d = Ok e → quiet d e.
Proof.
  intros Hv (-> & _)%insert_session_spec. apply quiet_sessions. intros k s [[-> <-]|[? ?]]%lookup_insert_Some Hn; [done|eauto].
Qed.

Lemma quiet_update_user id f d e : (∀ u, us_Role (f u) = us_Role u) → update_row ac_users with_users id f d = Ok e → quiet d e.
Proof.
  intros Hf. unfold update_row. destruct (ac_users d !! id) as [u|] eqn:Hu; [|done]. intros [= <-]. apply quiet_users.
  intros x v [[-> <-]|[? ?]]%lookup_insert_Some Hr; [|eauto]. exists u. by rewrite <- (Hf u).
Qed.

Lemma quiet_put_agent id g b d : ac_agents d !! id = Some g → ag_Role b = ag_Role g → quiet d (with_agents <[id := b]> d).
Proof. intros Hg Hr. apply quiet_agents. intros x c [[-> <-]|[? ?]]%lookup_insert_Some Hc; [|eauto]. exists g. by rewrite <- Hr. Qed.

Context (unit : Z) (hashSessionToken hashToken : bytes → bytes).

Lemma DeleteUser_quiet id d e : DeleteUser id d = Ok e → quiet d e.
Proof.
  unfold DeleteUser. destruct (ac_users d !! id); [|done]. intros [= <-].
  eapply quiet_trans; [apply quiet_fewer_sessions|]. eapply quiet_trans; [apply quiet_fewer_grants|]. apply quiet_users. intros x v [_ ?]%lookup_delete_Some. eauto.
Qed.

Lemma RevokeVaultAccess_quiet x v d e : RevokeVaultAccess x v d = Ok e → quiet d e.
Proof. unfold RevokeVaultAccess. destruct (_ !! _); [|done]. intros [= <-]. apply quiet_grants. intros k g1 [_ ?]%lookup_delete_Some. eauto. Qed.

Lemma CreateUser_quiet id email pw role t d e : role ≠ #"owner" → CreateUser unit id email pw role t d = Ok e → quiet d e.
Proof. intros Hr (_ & _ & _ & ->)%insert_user_spec. apply quiet_users. intros x u [[-> <-]|[? ?]]%lookup_insert_Some Ho; [done|eauto]. Qed.

Lemma CreateVault_quiet id name t d e : CreateVault unit id name t d = Ok e → quiet d e.
Proof. intros (_ & _ & ->)%CreateVault_spec. apply quiet_vaults. Qed.

Lemma RenameVault_quiet id new d e : RenameVault id new d = Ok e → quiet d e.
Proof. unfold RenameVault. destruct (_ !! _); [|done]. case_bool_decide; [done|]. intros [= <-]. apply quiet_vaults. Qed.

Lemma DeleteVault_quiet name d e : DeleteVault name d = Ok e → quiet d e.
Proof.
  unfold DeleteVault. intros ([id row] & _ & [= <-])%result_bind_Ok.
  eapply quiet_trans; [|eapply quiet_trans; [apply quiet_fewer_sessions|eapply quiet_trans; [apply quiet_fewer_grants|apply quiet_vaults]]].
  apply quiet_invites; intros k i Hk Hp; [rewrite lookup_fmap in Hk; destruct (ac_invites d !! k) as [i0|]; [|done]; injection Hk as <-|rewrite lookup_fmap, Hk; by eexists].
  exists i0. split_and!; [done..|]. apply delete_subseteq.
Qed.

Lemma CreateUserSession_quiet token publicID t p d e : CreateUserSession unit hashSessionToken token publicID t p d = Ok e → quiet d e.
Proof. unfold CreateUserSession. case_bool_decide; [done|]. by apply quiet_insert_session. Qed.

Lemma delete_sessions_quiet P d e : delete_sessions P d = Ok e → quiet d e.
Proof. unfold delete_sessions. case_bool_decide; [done|]. intros [= <-]. apply quiet_fewer_sessions. Qed.
Lemma RevokeScopedSession_quiet v publicID d e : RevokeScopedSession v publicID d = Ok e → quiet d e.
Proof. unfold RevokeScopedSession. destruct (_ || _); [done|apply delete_sessions_quiet]. Qed.
Lemma RevokeUserSession_quiet x publicID d e : RevokeUserSession x publicID d = Ok e → quiet d e.
Proof. unfold RevokeUserSession. destruct (_ || _); [done|apply delete_sessions_quiet]. Qed.
Lemma DeleteSession_quiet token d e : DeleteSession hashSessionToken token d = Ok e → quiet d e.
Proof. unfold DeleteSession. destruct (_ !! _); [|done]. intros [= <-]. apply quiet_sessions. intros k s1 [_ ?]%lookup_delete_Some. eauto. Qed.

Lemma TouchSession_quiet token ip ua t d : quiet d (TouchSession unit hashSessionToken token ip ua t d).
Proof.
  unfold TouchSession. destruct (ac_sessions d !! _) as [s|] eqn:E; [|apply quiet_refl]. destruct (_ && _); [|apply quiet_refl].
  apply quiet_sessions. intros k s' [[<- <-]|[? ?]]%lookup_insert_Some Hv; eauto.
Qed.

Lemma RevokeAgent_quiet id t d e : RevokeAgent unit id t d = Ok e → quiet d e.
Proof.
  unfold RevokeAgent. destruct (ac_agents d !! id) as [g|] eqn:Hg; [|done]. case_bool_decide; [|done]. intros [= <-].
  eapply quiet_trans; [apply quiet_fewer_sessions|by eapply quiet_put_agent].
Qed.
Lemma DeleteAgent_quiet id d e : DeleteAgent id d = Ok e → quiet d e.
Proof.
  unfold DeleteAgent. destruct (ac_agents d !! id) as [g|] eqn:Hg; [|done]. intros [= <-].
  eapply quiet_trans; [apply quiet_fewer_sessions|eapply quiet_trans; [apply quiet_fewer_grants|]]. apply quiet_agents. intros x u [_ ?]%lookup_delete_Some. eauto.
Qed.
Lemma RenameAgent_quiet id new d e : RenameAgent id new d = Ok e → quiet d e.
Proof. unfold RenameAgent. destruct (ac_agents d !! id) as [g|] eqn:Hg; [|done]. case_bool_decide; [done|]. intros [= <-]. by eapply quiet_put_agent. Qed.

Lemma RotateAgentToken_quiet id token expires t d e : RotateAgentToken unit hashSessionToken id token expires t d = Ok e → quiet d e.
Proof.
  unfold RotateAgentToken. intros H. apply quiet_insert_session in H; [|done]. eapply quiet_trans; [|exact H]. eapply quiet_trans; [apply quiet_fewer_sessions|].
  cbn. destruct (ac_agents d !! id) as [g|] eqn:Hg; [by eapply quiet_put_agent|apply quiet_refl].
Qed.

Lemma quiet_put_invite id i status at_ d : ac_invites d !! id = Some i → iv_Status i = #"pending" → status ≠ #"pending" → quiet d (with_invites <[id := invite_with_status status at_ i]> d).
Proof.
  intros Hi Hs0 Hs. apply quiet_invites; [intros k j [[-> <-]|[? ?]]%lookup_insert_Some Hp; [done|eauto]|]. intros k i0 Hk Hp. destruct (decide (k = id)) as [->|]; [congruence|].
  exists i0. by rewrite lookup_insert_ne.
Qed.
Lemma AcceptUserInvite_quiet token t d e : AcceptUserInvite unit hashToken token t d = Ok e → quiet d e.
Proof.
  unfold AcceptUserInvite. destruct (invite_by_hash _ d) as [[id i]|] eqn:E; [|done]. destruct (_ && _) eqn:Hc; [|done].
  apply invite_by_hash_Some in E as [? _]. apply andb_true_iff in Hc as [Hc%bool_decide_eq_true _]. intros [= <-]. by apply quiet_put_invite.
Qed.
Lemma RevokeUserInvite_quiet token d e : RevokeUserInvite hashToken token d = Ok e → quiet d e.
Proof.
  unfold RevokeUserInvite. destruct (invite_by_hash _ d) as [[id i]|] eqn:E; [|done]. case_bool_decide; [|done].
  apply invite_by_hash_Some in E as [? _]. intros [= <-]. by apply quiet_put_invite.
Qed.
End Quiet.

(** ** Operations that give something *)

Section Giving.
Context (unit : Z) (hashSessionToken hashToken : bytes → bytes) (a : arrival).
Abbreviation authorised := (authorised hashSessionToken hashToken a).
Abbreviation by_owner := (by_owner hashSessionToken a).
Abbreviation by_admin := (by_admin hashSessionToken a).
Abbreviation by_member := (by_member hashSessionToken a).
Abbreviation invited := (invited hashToken a).
Abbreviation may_grant := (may_grant hashSessionToken hashToken a).
Implicit Types d e : accounts.

(** Only grants change. *)
Lemma authorised_grants h d e :
  (∀ x v g, ac_grants e !! (x, v) = Some g → (∃ g0, ac_grants d !! (x, v) = Some g0 ∧ gt_Role g0 = gt_Role g) ∨ may_grant h d v (gt_Role g)) →
  ac_users e = ac_users d → ac_agents e = ac_agents d → ac_invites e = ac_invites d → ac_sessions e = ac_sessions d → authorised h d e.
Proof.
  intros Hg Eu Ea Ei Es. pose proof (authorised_refl hashSessionToken hashToken a h d) as R. split.
  - intros x v g H Hn. destruct (Hg x v g H) as [(g0 & H0 & ?)|?]; [|done]. by destruct (Hn g0 H0).
  - rewrite Eu. apply R.
  - rewrite Ea. apply R.
  - rewrite Ei. apply R.
  - rewrite Ei. eauto.
  - rewrite Es. apply R.
Qed.

Lemma insert_grant_lookup x g v d e : insert_grant x g v d = Ok e →
  ∀ k g1, ac_grants e !! k = Some g1 → ac_grants d !! k = Some g1 ∨ k = (x, v) ∧ gt_Role g1 = gt_Role g.
Proof. intros (h & -> & Hr & _)%insert_grant_spec k g1. cbn. intros [[<- <-]|[? ?]]%lookup_insert_Some; auto. Qed.

Lemma GrantVaultRole_authorised h x type v role t d e : may_grant h d v role → GrantVaultRole unit x type v role t d = Ok e → authorised h d e.
Proof.
  intros Hm H. pose proof H as (g & -> & _)%insert_grant_spec. apply authorised_grants; [|done..].
  intros y w g1 Hg1. apply (insert_grant_lookup _ _ _ _ _ H) in Hg1 as [?|[[= -> ->] ->]]; eauto.
Qed.

Lemma CreateExternalVault_authorised h id name x type t d e : by_member h → CreateExternalVault unit id name x type t d = Ok e → authorised h d e.
Proof.
  intros Hm. unfold CreateExternalVault. destruct (_ || _); [done|]. intros (d1 & (Hid & _ & ->)%CreateVault_spec & H)%result_bind_Ok.
  pose proof H as (g & -> & _)%insert_grant_spec. apply authorised_grants; [|done..]. intros y w g1 Hg1.
  apply (insert_grant_lookup _ _ _ _ _ H) in Hg1 as [?|[[= -> ->] ->]]; [eauto|]. right. right. right. right. left. split; [done|].
  exists d. split; [apply list_elem_of_here|done].
Qed.

(** Only users change. *)
Lemma authorised_put_user h id u d : (us_Role u = #"owner" → by_owner h ∨ (∃ i, invited h i ∧ iv_Role i = #"owner") ∨ ac_users d = ∅) → authorised h d (with_users <[id := u]> d).
Proof.
  intros Hm. pose proof (authorised_refl hashSessionToken hashToken a h d) as R. split; try apply R.
  intros x v; cbn; intros [[-> <-]|[? Hv]]%lookup_insert_Some Hr Hn; [auto|]. by destruct (Hn v Hv).
Qed.

Lemma RegisterFirstUser_authorised h id email pw v t d e : RegisterFirstUser unit id email pw v t d = Ok e → authorised h d e.
Proof.
  unfold RegisterFirstUser. destruct (0 <? CountUsers d) eqn:E; [done|]. intros (d1 & (_ & _ & _ & ->)%insert_user_spec & H)%result_bind_Ok.
  assert (Hempty : ac_users d = ∅) by (apply map_size_empty_inv; apply Z.ltb_ge in E; unfold CountUsers in E; lia).
  assert (Au : ∀ u, authorised h d (with_users <[id := u]> d)) by (intros u; apply authorised_put_user; auto).
  destruct (bool_decide (v = [])); [injection H as <-; apply Au|]. pose proof H as (g & -> & _)%insert_grant_spec.
  match goal with |- context [with_users <[_ := ?u]> d] => pose proof (Au u) as R end.
  split; cbn [ac_users ac_agents ac_invites ac_sessions ac_grants with_grants with_users]; try apply R.
  intros y w g1 _ _. by right; right; right; right.
Qed.

Lemma CreateUser_authorised h id email pw role t d e :
  (role = #"owner" → by_owner h ∨ (∃ i, invited h i ∧ iv_Role i = #"owner")) → CreateUser unit id email pw role t d = Ok e → authorised h d e.
Proof. intros Hm (_ & _ & _ & ->)%insert_user_spec. apply authorised_put_user. cbn. intros [?|?]%Hm; auto. Qed.

Lemma UpdateUserRole_authorised h id role d e : by_owner h → UpdateUserRole id role d = Ok e → authorised h d e.
Proof.
  intros Hm. unfold UpdateUserRole. case_bool_decide; [|done]. unfold update_row. destruct (ac_users d !! id); [|done]. intros [= <-].
  apply authorised_put_user. auto.
Qed.

Lemma authorised_put_agent h id g d : (ag_Role g = #"owner" → by_owner h) → authorised h d (with_agents <[id := g]> d).
Proof.
  intros Hm. pose proof (authorised_refl hashSessionToken hashToken a h d) as R. split; try apply R.
  intros x v; cbn; intros [[-> <-]|[? Hv]]%lookup_insert_Some Hr Hn; [auto|]. by destruct (Hn v Hv).
Qed.

Lemma UpdateAgentRole_authorised h id role d e : by_owner h → UpdateAgentRole id role d = Ok e → authorised h d e.
Proof.
  intros Hm. unfold UpdateAgentRole. case_bool_decide; [|done]. unfold update_row. destruct (ac_agents d !! id); [|done]. intros [= <-].
  by apply authorised_put_agent.
Qed.

Lemma grant_all_lookup x grants t d e : grant_all unit x grants t d = Ok e →
  ∀ k g, ac_grants e !! k = Some g → ac_grants d !! k = Some g ∨ ∃ v, k = (x, v) ∧ (v, gt_Role g) ∈ grants.
Proof.
  revert d. induction grants as [|[v role] grants IH]; intros d; [intros [= <-]; auto|]. cbn.
  intros (d1 & H1 & H2)%result_bind_Ok k g Hg. destruct (IH d1 H2 k g Hg) as [H3|(w & -> & Hin)]; [|right; exists w; split; [done|by apply elem_of_cons; right]].
  apply (insert_grant_lookup _ _ _ _ _ H1) in H3 as [?|[-> Hr]]; [auto|]. right. exists v. cbn in Hr. rewrite Hr. split; [done|apply list_elem_of_here].
Qed.

Lemma CreateAgent_authorised h id token name by_ role grants expires t d e :
  (role = #"owner" → by_owner h) → Forall (λ vr, by_owner h ∨ by_admin h (fst vr)) grants →
  CreateAgentWithGrantsAndToken unit hashSessionToken id token name by_ role grants expires t d = Ok e → authorised h d e.
Proof.
  intros Hr Hg. unfold CreateAgentWithGrantsAndToken. intros (d1 & (_ & _ & _ & ->)%insert_agent_spec & (d2 & H2 & H3)%result_bind_Ok)%result_bind_Ok.
  apply quiet_insert_session in H3; [|done]. eapply authorised_quiet; [|exact H3]. pose proof (grant_all_tables _ _ _ _ _ _ H2) as [m ->].
  match goal with |- context [with_agents <[_ := ?g]> d] => pose proof (authorised_put_agent h id g d Hr) as R end.
  split; cbn [ac_users ac_agents ac_invites ac_sessions ac_grants with_grants with_agents]; try apply R.
  intros y v g Hgr Hn. apply (grant_all_lookup _ _ _ _ _ H2) in Hgr as [H0|(w & [= -> ->] & Hin)]; [by destruct (Hn g H0)|].
  rewrite Forall_forall in Hg. destruct (Hg _ Hin); [by left|by right; left].
Qed.

Lemma invite_vaults_lookup vaults d m m' : invite_vaults vaults d m = Ok m' → ∀ v role, m' !! v = Some role → m !! v = Some role ∨ (v, role) ∈ vaults.
Proof.
  revert m. induction vaults as [|[w r] vaults IH]; intros m; [intros [= <-]; auto|]. cbn. case_bool_decide; [done|]. destruct (_ || _); [done|].
  intros Hiv v role Hv. destruct (IH _ Hiv v role Hv) as [[[-> ->]|[? ?]]%lookup_insert_Some|?]; [right; apply list_elem_of_here|by left|right; by apply elem_of_cons; right].
Qed.

Lemma CreateUserInvite_authorised h id token email by_ role expires vaults t d e :
  (role = #"owner" → by_owner h ∨ ∃ i, invited h i ∧ iv_Role i = #"owner") →
  Forall (λ vr, by_owner h ∨ by_admin h (fst vr) ∨ ∃ i, invited h i ∧ iv_Vaults i !! (fst vr) = Some (snd vr)) vaults →
  CreateUserInvite unit hashToken id token email by_ role expires vaults t d = Ok e → authorised h d e.
Proof.
  intros Hr Hv (i & -> & Hid & Er & _ & _ & _ & Hvs & _)%CreateUserInvite_spec. pose proof (authorised_refl hashSessionToken hashToken a h d) as R. split; try apply R.
  2: { intros k i0 Hk _. cbn in Hk |- *. exists i0. rewrite lookup_insert_ne; [done|congruence]. }
  intros k j; cbn; intros [[-> <-]|[? Hj]]%lookup_insert_Some Hp Hn; [|by destruct (Hn j Hj) as [?|[?|[]]]]. split.
  - intros Ho. apply Hr. rewrite Er in Ho. by case_bool_decide.
  - intros v r Hvr. apply (invite_vaults_lookup _ _ _ _ Hvs) in Hvr as [E|Hin]; [by rewrite lookup_empty in E|]. rewrite Forall_forall in Hv. apply (Hv _ Hin).
Qed.

Lemma CreateScopedSession_authorised h token publicID t p d e : cp_VaultRole p = #"proxy" → by_vault_member hashSessionToken a h (cp_VaultID p) →
  CreateScopedSession unit hashSessionToken token publicID t p d = Ok e → authorised h d e.
Proof.
  intros Hr Hm (-> & _)%insert_session_spec. pose proof (authorised_refl hashSessionToken hashToken a h d) as R. split; try apply R.
  intros k s; cbn; intros [[<- <-]|[? Hs]]%lookup_insert_Some Hv Hn; [done|]. by destruct (Hn s Hs) as [[]|[]].
Qed.
End Giving.

(** ** What a handler knows of its caller *)

Section Callers.
Context (hashSessionToken hashToken : bytes → bytes) (a : arrival).
Abbreviation hp := (hp accounts_ok (authorised hashSessionToken hashToken a)).
Abbreviation speaks := (speaks hashSessionToken a).

Lemma speaks_mono h h' x : h ⊆ h' → speaks h x → speaks h' x.
Proof using Type. intros Hs (d & s & t & ? & ?). exists d, s, t. auto. Qed.
Lemma has_role_mono h h' x r : h ⊆ h' → has_role h x r → has_role h' x r.
Proof using Type. intros Hs (d & ? & ?). exists d. auto. Qed.
Lemma has_vault_role_mono h h' x v r : h ⊆ h' → has_vault_role h x v r → has_vault_role h' x v r.
Proof using Type. intros Hs (d & g & ? & ?). exists d, g. auto. Qed.
Lemma by_owner_mono h h' : h ⊆ h' → by_owner hashSessionToken a h → by_owner hashSessionToken a h'.
Proof using Type. intros Hs (x & ? & ?). exists x. split; [by eapply speaks_mono|by eapply has_role_mono]. Qed.
Lemma by_member_mono h h' : h ⊆ h' → by_member hashSessionToken a h → by_member hashSessionToken a h'.
Proof using Type. intros Hs (x & ? & [?|?]); exists x; (split; [by eapply speaks_mono|]); [left|right]; by eapply has_role_mono. Qed.
Lemma by_admin_mono h h' v : h ⊆ h' → by_admin hashSessionToken a h v → by_admin hashSessionToken a h' v.
Proof using Type. intros Hs (x & ? & ?). exists x. split; [by eapply speaks_mono|by eapply has_vault_role_mono]. Qed.
Lemma by_vault_member_mono h h' v : h ⊆ h' → by_vault_member hashSessionToken a h v → by_vault_member hashSessionToken a h' v.
Proof using Type. intros Hs (x & ? & [?|?]); exists x; (split; [by eapply speaks_mono|]); [left|right]; by eapply has_vault_role_mono. Qed.
Lemma invited_mono h h' i : h ⊆ h' → invited hashToken a h i → invited hashToken a h' i.
Proof using Type. intros Hs (d & id & t & ? & ?). exists d, id, t. auto. Qed.

(** The session was found, by the request's token, in good tables. *)
Definition carried (s : SessionRow) (h : list accounts) : Prop :=
  ∃ d token, d ∈ h ∧ accounts_ok d ∧ session_token (ar_Request a) = Some token ∧ ac_sessions d !! hashSessionToken token = Some s.
Lemma carried_mono s h h' : h ⊆ h' → carried s h → carried s h'.
Proof using Type. intros Hs (d & t & ? & ?). exists d, t. auto. Qed.

Lemma carried_scoped s h : carried s h → ss_VaultID s ≠ [] → ss_VaultRole s = #"proxy" ∧ ss_UserID s = [] ∧ ss_AgentID s = [].
Proof using Type.
  intros (d & token & _ & Hok & _ & Hs) Hv. destruct (ao_sessions _ Hok _ _ Hs) as [_ _ [?|(? & ? & ? & ?)]]; done.
Qed.

(** What is known of the actor behind a session. *)
Definition known (h : list accounts) (actor : Actor) : Prop := speaks h (at_ID actor) ∧ has_role h (at_ID actor) (at_Role actor).
Lemma known_mono h h' actor : h ⊆ h' → known h actor → known h' actor.
Proof using Type. intros Hs [? ?]. split; [by eapply speaks_mono|by eapply has_role_mono]. Qed.

Lemma known_owner h actor : known h actor → IsOwner actor = true → by_owner hashSessionToken a h.
Proof using Type. intros [Hs Hr] Ho%bool_decide_eq_true. exists (at_ID actor). by rewrite Ho in Hr. Qed.

Lemma speaks_user s h : carried s h → ss_UserID s ≠ [] → speaks h (ss_UserID s).
Proof using Type. intros (d & token & ? & _ & ? & ?) Hne. exists d, s, token. split_and!; auto. Qed.
Lemma speaks_agent s h : carried s h → ss_UserID s = [] → ss_AgentID s ≠ [] → speaks h (ss_AgentID s).
Proof using Type. intros (d & token & ? & _ & ? & ?) Hu Hne. exists d, s, token. split_and!; auto. Qed.

Lemma hp_actor s h : carried s h → hp (actorFromSession s) (λ h' r, match r with Ok actor => known h' actor | Err _ => True end) h.
Proof using Type.
  intros Hc. unfold actorFromSession. case_bool_decide as Hu; cbn [negb].
  - case_bool_decide as Ha; cbn [negb]; [done|]. apply hp_query; [done|]. intros t d _. unfold agent_actor, GetAgentByID. destruct (ac_agents d !! ss_AgentID s) as [g|] eqn:E; [|done]. split.
    + cbn. eapply speaks_mono; [|by apply speaks_agent]. set_solver.
    + exists d. split; [apply list_elem_of_here|]. right. by exists g.
  - apply hp_query; [done|]. intros t d _. unfold user_actor, GetUserByID. destruct (ac_users d !! ss_UserID s) as [u|] eqn:E; [|done]. split.
    + cbn. eapply speaks_mono; [|by apply speaks_user]. set_solver.
    + exists d. split; [apply list_elem_of_here|]. left. by exists u.
Qed.

Lemma hp_requireActor s h : carried s h → hp (requireActor s) known h.
Proof using Type. intros Hc. apply hp_orElse. by apply hp_actor. Qed.

Lemma hp_requireOwnerActor s h : carried s h → hp (requireOwnerActor s) (λ h' actor, known h' actor ∧ by_owner hashSessionToken a h') h.
Proof using Type.
  intros Hc. apply hp_bind. eapply hp_mono; [|by apply hp_requireActor]. cbn beta. intros h1 actor _ Hk. apply hp_bind, hp_require. intros Ho. apply hp_ok.
  split; [done|by eapply known_owner].
Qed.

Lemma instance_member_role actor : at_Role actor ∈ instance_roles → instanceRoleSatisfies (at_Role actor) #"member" = true → at_Role actor = #"owner" ∨ at_Role actor = #"member".
Proof using Type.
  unfold instance_roles. rewrite !elem_of_cons. intros [->|[->|[->|H]]]; [by left|by right|by vm_compute|inversion H].
Qed.

Lemma member_rank role : instanceRoleSatisfies role #"member" = true → role = #"owner" ∨ role = #"member".
Proof using Type.
  unfold instanceRoleSatisfies, satisfiesRank, rank_of, instanceRoleRank. cbn [find fst]. repeat case_bool_decide; subst; auto; cbn; done.
Qed.
Lemma vault_member_rank role : roleSatisfies role #"member" = true → role = #"admin" ∨ role = #"member".
Proof using Type. unfold roleSatisfies, satisfiesRank, rank_of, roleRank. cbn [find fst]. repeat case_bool_decide; subst; auto; cbn; done. Qed.

Lemma hp_requireInstanceMember s h : carried s h → hp (requireInstanceMember s) (λ h' actor, known h' actor ∧ by_member hashSessionToken a h') h.
Proof using Type.
  intros Hc. apply hp_bind. eapply hp_mono; [|by apply hp_requireActor]. cbn beta. intros h1 actor _ Hk. apply hp_bind, hp_require. intros Hr. apply hp_ok.
  split; [done|]. exists (at_ID actor). destruct Hk as [? Hrole]. split; [done|]. destruct (member_rank _ Hr) as [E|E]; rewrite E in Hrole; auto.
Qed.

Lemma hp_granted_role x v (Q : list accounts → bytes → Prop) h :
  (∀ d r, (∃ g, ac_grants d !! (x, v) = Some g ∧ gt_Role g = r) → Q (d :: h) r) → hp (orElse 403 (query (λ _, GetVaultRole x v))) Q h.
Proof using Type.
  intros HQ. apply hp_orElse, hp_query; [done|]. intros t d _. unfold GetVaultRole. destruct (ac_grants d !! (x, v)) as [g|] eqn:E; [|done]. apply HQ. by exists g.
Qed.

(** A session scoped to a vault is no admin and no member of it. *)
Lemma hp_requireVaultRole scoped granted s v h :
  carried s h → roleSatisfies #"proxy" scoped = false →
  hp (requireVaultRole scoped granted s v) (λ h' o, ∃ actor r, o = Some actor ∧ known h' actor ∧ granted r = true ∧ has_vault_role h' (at_ID actor) v r) h.
Proof using Type.
  intros Hc Hp. unfold requireVaultRole. case_bool_decide as Hv; cbn [negb].
  - apply hp_bind. eapply hp_mono; [|by apply hp_requireActor]. cbn beta. intros h1 actor _ Hk. apply hp_bind, hp_granted_role. intros d r (g & Hg & Hr).
    apply hp_bind, hp_require. intros Hgr. apply hp_ok. exists actor, r. split_and!; try done.
    + eapply known_mono; [|exact Hk]. set_solver.
    + exists d, g. split; [apply list_elem_of_here|done].
  - apply hp_bind, hp_require. intros _. apply hp_bind, hp_require. intros Hr. destruct (carried_scoped s h Hc Hv) as [E _]. rewrite E, Hp in Hr. done.
Qed.

Lemma hp_requireVaultAdmin s v h : carried s h → hp (requireVaultAdmin s v) (λ h' o, by_admin hashSessionToken a h' v) h.
Proof using Type.
  intros Hc. eapply hp_mono; [|by apply hp_requireVaultRole]. cbn beta. intros h' o _ (actor & r & -> & [? _] & ->%bool_decide_eq_true & ?). by exists (at_ID actor).
Qed.
Lemma hp_requireVaultMember s v h : carried s h → hp (requireVaultMember s v) (λ h' o, by_vault_member hashSessionToken a h' v) h.
Proof using Type.
  intros Hc. eapply hp_mono; [|by apply hp_requireVaultRole]. cbn beta. intros h' o _ (actor & r & -> & [? _] & Hr%vault_member_rank & ?). exists (at_ID actor).
  split; [done|]. destruct Hr as [->| ->]; auto.
Qed.

(** The role check of one vault before it is assigned. *)
Lemma hp_admin_of actor v h : known h actor → hp (if IsOwner actor then ok () else mine ← role_in (at_ID actor) v; require 403 (bool_decide (mine = #"admin")))
  (λ h' _, by_owner hashSessionToken a h' ∨ by_admin hashSessionToken a h' v) h.
Proof using Type.
  intros Hk. destruct (IsOwner actor) eqn:Ho; [left; by eapply known_owner|]. apply hp_bind, hp_bind, hp_lookup.
  - apply hp_ok, hp_require. done.
  - intros d _. apply hp_ok, hp_require. unfold GetVaultRole. destruct (ac_grants d !! (at_ID actor, v)) as [g|] eqn:E; [|done]. intros Hr%bool_decide_eq_true.
    right. exists (at_ID actor). split; [eapply speaks_mono; [|apply Hk]; set_solver|]. exists d, g. split; [apply list_elem_of_here|done].
Qed.
End Callers.

Lemma DeleteUserSessions_ok id d : accounts_ok d → accounts_ok (DeleteUserSessions id d).
Proof. intros Hok. by apply ok_fewer_sessions. Qed.
Lemma DeleteUserSessions_quiet id d : quiet d (DeleteUserSessions id d).
Proof. apply quiet_fewer_sessions. Qed.

Section Codes.
Context (unit : Z) (hashToken : bytes → bytes) (d e : accounts).
Lemma CreateEmailVerification_quiet id email code x t : CreateEmailVerification unit hashToken id email code x t d = Ok e → quiet d e.
Proof. unfold CreateEmailVerification, create_code. case_bool_decide; [done|]. intros [= <-]. apply quiet_verifications. Qed.
Lemma CreateEmailVerification_ok id email code x t : accounts_ok d → CreateEmailVerification unit hashToken id email code x t d = Ok e → accounts_ok e.
Proof. unfold CreateEmailVerification, create_code. case_bool_decide; [done|]. intros Hok [= <-]. by apply verifications_ok. Qed.
Lemma MarkEmailVerificationUsed_quiet id : MarkEmailVerificationUsed id d = Ok e → quiet d e.
Proof. unfold MarkEmailVerificationUsed, mark_code. destruct (_ !! _); [|done]. case_bool_decide; [|done]. intros [= <-]. apply quiet_verifications. Qed.
Lemma MarkEmailVerificationUsed_ok id : accounts_ok d → MarkEmailVerificationUsed id d = Ok e → accounts_ok e.
Proof. unfold MarkEmailVerificationUsed, mark_code. destruct (_ !! _); [|done]. case_bool_decide; [|done]. intros Hok [= <-]. by apply verifications_ok. Qed.
Lemma CreatePasswordReset_quiet id email code x t : CreatePasswordReset unit hashToken id email code x t d = Ok e → quiet d e.
Proof. unfold CreatePasswordReset, create_code. case_bool_decide; [done|]. intros [= <-]. apply quiet_resets. Qed.
Lemma CreatePasswordReset_ok id email code x t : accounts_ok d → CreatePasswordReset unit hashToken id email code x t d = Ok e → accounts_ok e.
Proof. unfold CreatePasswordReset, create_code. case_bool_decide; [done|]. intros Hok [= <-]. by apply resets_ok. Qed.
Lemma MarkPasswordResetUsed_quiet id : MarkPasswordResetUsed id d = Ok e → quiet d e.
Proof. unfold MarkPasswordResetUsed, mark_code. destruct (_ !! _); [|done]. case_bool_decide; [|done]. intros [= <-]. apply quiet_resets. Qed.
Lemma MarkPasswordResetUsed_ok id : accounts_ok d → MarkPasswordResetUsed id d = Ok e → accounts_ok e.
Proof. unfold MarkPasswordResetUsed, mark_code. destruct (_ !! _); [|done]. case_bool_decide; [|done]. intros Hok [= <-]. by apply resets_ok. Qed.
Lemma ExpirePendingPasswordResets_quiet t : quiet d (ExpirePendingPasswordResets unit t d).
Proof. apply quiet_resets. Qed.
Lemma ExpirePendingPasswordResets_ok t : accounts_ok d → accounts_ok (ExpirePendingPasswordResets unit t d).
Proof. apply resets_ok. Qed.
Lemma UpdateUserPassword_quiet id pw : UpdateUserPassword id pw d = Ok e → quiet d e.
Proof. by apply quiet_update_user. Qed.
Lemma ActivateUser_quiet id : ActivateUser id d = Ok e → quiet d e.
Proof. by apply quiet_update_user. Qed.
End Codes.

Create HintDb accounts.
#[export] Hint Resolve GrantVaultRole_ok RegisterFirstUser_ok insert_user_ok UpdateUserPassword_ok ActivateUser_ok UpdateUserRole_ok DeleteUser_ok RevokeVaultAccess_ok CreateVault_ok
  RenameVault_ok DeleteVault_ok CreateUserSession_ok RevokeScopedSession_ok RevokeUserSession_ok DeleteSession_ok TouchSession_ok CreateAgent_ok RevokeAgent_ok DeleteAgent_ok RenameAgent_ok
  UpdateAgentRole_ok RotateAgentToken_ok CreateUserInvite_ok AcceptUserInvite_ok RevokeUserInvite_ok verifications_ok resets_ok DeleteUserSessions_ok
  CreateEmailVerification_ok MarkEmailVerificationUsed_ok CreatePasswordReset_ok MarkPasswordResetUsed_ok ExpirePendingPasswordResets_ok : accounts.
#[export] Hint Resolve quiet_refl DeleteUser_quiet RevokeVaultAccess_quiet CreateVault_quiet RenameVault_quiet DeleteVault_quiet CreateUserSession_quiet RevokeScopedSession_quiet RevokeUserSession_quiet
  DeleteSession_quiet TouchSession_quiet RevokeAgent_quiet DeleteAgent_quiet RenameAgent_quiet RotateAgentToken_quiet AcceptUserInvite_quiet RevokeUserInvite_quiet quiet_verifications quiet_resets
  DeleteUserSessions_quiet CreateEmailVerification_quiet MarkEmailVerificationUsed_quiet CreatePasswordReset_quiet MarkPasswordResetUsed_quiet ExpirePendingPasswordResets_quiet
  UpdateUserPassword_quiet ActivateUser_quiet : accounts.

(** Walks a handler up to its next call that needs an argument. *)
Ltac hstep :=
  cbn beta iota;
  lazymatch goal with
  | |- True => exact Logic.I
  | |- hp _ _ (mbind _ _) _ _ => apply hp_bind
  | |- hp _ _ (ok _) _ _ => apply hp_ok
  | |- hp _ _ (refuse_with _) _ _ => apply hp_refuse
  | |- hp _ _ (reply_with _) _ _ => apply hp_finish
  | |- hp _ _ (jsonOK _) _ _ => apply hp_finish
  | |- hp _ _ (jsonCreated _) _ _ => apply hp_finish
  | |- hp _ _ (require _ _) _ _ => apply hp_require; intros ?
  | |- hp _ _ now _ _ => apply hp_now; intros ?
  | |- hp _ _ (orElse _ _) _ _ => apply hp_orElse
  | |- hp _ _ (query _) _ _ => apply hp_query; [|intros ? ? ?]
  | |- hp _ _ (count _) _ _ => apply hp_count; [|intros ? ? ?]
  | |- hp _ _ (look_up _) _ _ => apply hp_lookup; [|intros ? ?]
  | |- hp _ _ (find_or _ _) _ _ => apply hp_find_or; intros ? ? ? ?
  | |- hp _ _ (if ?b then _ else _) _ _ => destruct b eqn:?
  | |- hp _ _ (let '(_, _) := ?x in _) _ _ => destruct x
  | |- hp _ _ (match ?x with _ => _ end) _ _ => destruct x eqn:?
  | |- match ?x with _ => _ end => destruct x eqn:?
  | |- let '(_, _) := ?x in _ => destruct x
  end.
Ltac hwalk := repeat hstep.

Section Reading.
Context (I : accounts → Prop) (G : list accounts → accounts → accounts → Prop).
Abbreviation hp := (hp I G).

Lemma hp_true {A} (p : action A) Q h : (∀ h' b, h ⊆ h' → Q h' b) → hp p (λ _ _, True) h → hp p Q h.
Proof using Type. intros HQ. apply hp_mono. auto. Qed.

Lemma hp_query_any {A} (q : Z → accounts → result db_error A) Q h : (∀ h' r, h ⊆ h' → Q h' r) → hp (query q) Q h.
Proof using Type. intros HQ. apply hp_query; [by apply HQ|]. intros. apply HQ. set_solver. Qed.
Lemma hp_count_any {A} (q : Z → accounts → A) Q h : (∀ h' r, h ⊆ h' → Q h' r) → hp (count q) Q h.
Proof using Type. apply hp_query_any. Qed.
Lemma hp_lookup_any {A} (q : accounts → result db_error A) Q h : (∀ h' r, h ⊆ h' → Q h' r) → hp (look_up q) Q h.
Proof using Type. intros HQ. apply hp_lookup; [by apply HQ|]. intros. apply HQ. set_solver. Qed.
Lemma hp_role_in x v Q h : (∀ h' r, h ⊆ h' → Q h' r) → hp (role_in x v) Q h.
Proof using Type. intros HQ. apply hp_true; [done|]. unfold role_in. hwalk. Qed.
Lemma hp_access_in x v Q h : (∀ h' r, h ⊆ h' → Q h' r) → hp (access_in x v) Q h.
Proof using Type. intros HQ. apply hp_true; [done|]. unfold access_in. hwalk. Qed.
Lemma hp_guardLastOwner Q h : (∀ h' r, h ⊆ h' → Q h' r) → hp guardLastOwner Q h.
Proof using Type. intros HQ. apply hp_true; [done|]. unfold guardLastOwner. hwalk. Qed.
Lemma hp_last_admin v Q h : (∀ h' r, h ⊆ h' → Q h' r) → hp (last_admin v) Q h.
Proof using Type. intros HQ. apply hp_true; [done|]. unfold last_admin. hwalk. Qed.
Lemma hp_actorByID id type h : hp (actorByID id type) (λ _ _, True) h.
Proof using Type. unfold actorByID. hwalk. Qed.
Lemma hp_actorFromSession_true s h : hp (actorFromSession s) (λ _ _, True) h.
Proof using Type. unfold actorFromSession. hwalk. Qed.
Lemma hp_requireActor_true s h : hp (requireActor s) (λ _ _, True) h.
Proof using Type. unfold requireActor. hstep. apply hp_true; [|apply hp_actorFromSession_true]. by intros ? []. Qed.
Lemma hp_requireVaultAccess s v h : hp (requireVaultAccess s v) (λ _ _, True) h.
Proof using Type. unfold requireVaultAccess, requireActor, actorFromSession. hwalk. Qed.

Lemma hp_owner_items users h : hp (owner_items users) (λ _ _, True) h.
Proof using Type. revert h. induction users as [|[id u] users IH]; intros h; cbn [owner_items]; [done|]. hwalk; eapply hp_mono; [|apply IH| |apply IH]; intros; by hwalk. Qed.

Context (unit : Z).
Lemma hp_agent_items l h : hp (agent_items unit l) (λ _ _, True) h.
Proof using Type.
  revert h. induction l as [|[[id g] grants] l IH]; intros h; cbn [agent_items]; [done|]. apply hp_bind.
  apply hp_true; [|by hwalk]. intros h' b _. apply hp_bind, hp_true; [|apply IH]. intros. apply hp_ok. done.
Qed.

Lemma hp_session_views names rows h : hp (session_views names rows) (λ _ _, True) h.
Proof using Type.
  revert names h. induction rows as [|r rows IH]; intros names h; cbn [session_views]; [done|]. destruct (_ || _).
  - apply hp_bind, hp_true; [|apply IH]. intros. by apply hp_ok.
  - apply hp_bind, hp_true; [|destruct (find _ _) as [[[? ?] ?]|]; [by apply hp_ok|]; apply hp_bind, hp_true; [|apply hp_actorByID]; intros; by apply hp_ok].
    intros h' [name names'] _. apply hp_bind, hp_true; [|apply IH]. intros. by apply hp_ok.
Qed.

Lemma hp_admin_of_any x vaults h : hp (admin_of_any x vaults) (λ _ _, True) h.
Proof using Type.
  revert h. induction vaults as [|v vaults IH]; intros h; cbn [admin_of_any]; [done|]. apply hp_bind, hp_role_in. intros h' r _. destruct (bool_decide _); [by apply hp_ok|apply IH].
Qed.
Lemma hp_may_manage actor i h : hp (may_manage actor i) (λ _ _, True) h.
Proof using Type. unfold may_manage. hwalk. apply hp_admin_of_any. Qed.

Lemma hp_checkEmailDomain `{UnicodeTables} read_domains email Q h : (∀ h' r, h ⊆ h' → Q h' r) → hp (checkEmailDomain read_domains email) Q h.
Proof using Type. intros HQ. apply hp_true; [done|]. unfold checkEmailDomain, getAllowedDomains. hwalk. Qed.
Lemma hp_isInviteOnly Q h : (∀ h' r, h ⊆ h' → Q h' r) → hp isInviteOnly Q h.
Proof using Type. intros HQ. apply hp_true; [done|]. unfold isInviteOnly. hwalk. Qed.
End Reading.

(** ** Every handler *)

Section Handlers.
Context {unicode : UnicodeTables}.
Context (unit : Z) (hashSessionToken hashToken : bytes → bytes) (sqlite : bool) (validAddress : bytes → bool) (read_domains : bytes → option (list bytes)).
Context (argon2 : bytes → bytes → Z → Z → Z → Z → bytes) (baseURL : bytes) (a : arrival).
Abbreviation hp := (hp accounts_ok (authorised hashSessionToken hashToken a)).
Abbreviation carried := (carried hashSessionToken a).
Abbreviation good p h := (hp p (λ _ _, True) h).

Lemma hp_quiet op (Q : list accounts → result db_error () → Prop) h :
  (∀ t d e, accounts_ok d → op t d = Ok e → accounts_ok e) → (∀ t d e, op t d = Ok e → quiet d e) → (∀ h' r, h ⊆ h' → Q h' r) → hp (store op) Q h.
Proof. intros Ho Hq HQ. apply hp_store_all; [|done]. intros t d e Hd He. split; [by eapply Ho|]. eapply quiet_authorised, Hq, He. Qed.

Local Ltac effect := let He := fresh in first [intros ? ? ? ? He|intros ? ? ? He]; cbn beta in He; first [solve [eauto 3 with accounts]|injection He as <-; solve [eauto 3 with accounts]].
Local Ltac quiet_store := apply hp_quiet; [effect|effect|intros ? ? ?].
Local Ltac walk := repeat first
  [ progress hstep
  | lazymatch goal with
    | |- _ (store _) _ _ => quiet_store
    | |- _ (role_in _ _) _ _ => apply hp_role_in; intros ? ? ?
    | |- _ (access_in _ _) _ _ => apply hp_access_in; intros ? ? ?
    | |- _ guardLastOwner _ _ => apply hp_guardLastOwner; intros ? ? ?
    | |- _ (last_admin _) _ _ => apply hp_last_admin; intros ? ? ?
    | |- _ (checkEmailDomain _ _) _ _ => apply hp_checkEmailDomain; intros ? ? ?
    | |- _ isInviteOnly _ _ => apply hp_isInviteOnly; intros ? ? ?
    end ].

(** [walk] where what the queries answer does not matter. *)
Local Ltac skim := repeat (cbn beta iota; first
  [ lazymatch goal with
    | |- _ (query _) _ _ => apply hp_query_any; intros ? ? ?
    | |- _ (count _) _ _ => apply hp_count_any; intros ? ? ?
    | |- _ (look_up _) _ _ => apply hp_lookup_any; intros ? ? ?
    | |- _ (role_in _ _) _ _ => apply hp_role_in; intros ? ? ?
    | |- _ (access_in _ _) _ _ => apply hp_access_in; intros ? ? ?
    | |- _ guardLastOwner _ _ => apply hp_guardLastOwner; intros ? ? ?
    | |- _ (last_admin _) _ _ => apply hp_last_admin; intros ? ? ?
    | |- _ (checkEmailDomain _ _) _ _ => apply hp_checkEmailDomain; intros ? ? ?
    | |- _ isInviteOnly _ _ => apply hp_isInviteOnly; intros ? ? ?
    | |- _ (store _) _ _ => quiet_store
    end
  | progress hstep ]).

(** Going on from what the caller was checked for. *)
Local Ltac after lem := eapply hp_mono; [|apply lem; try eassumption]; cbn beta.
Local Ltac reading lem := apply hp_true; [intros ? ? ?|apply lem].

(** *** Users *)

Lemma good_handleUserDelete s email h : carried s h → good (handleUserDelete s email) h.
Proof.
  intros Hc. unfold handleUserDelete. hstep. after hp_requireOwnerActor. intros h1 actor _ _. walk.
Qed.

Lemma good_handlePublicUserList s h : carried s h → good (handlePublicUserList s) h.
Proof.
  intros Hc. unfold handlePublicUserList. hstep. after hp_requireInstanceMember. intros h1 actor _ _. walk. reading hp_owner_items. walk.
Qed.

Lemma good_handleUserGet s email h : carried s h → good (handleUserGet s email) h.
Proof. intros Hc. unfold handleUserGet. hstep. after hp_requireActor. intros h1 actor _ _. walk. Qed.

Lemma good_handleUserSetRole s email body h : carried s h → good (handleUserSetRole s email body) h.
Proof.
  intros Hc. unfold handleUserSetRole. hstep. after hp_requireOwnerActor. intros h1 actor _ [_ Ho]. walk.
  all: apply hp_store_all; [|intros ? ? _; walk].
  all: intros t e f He Hf; split; [by eapply UpdateUserRole_ok|]; eapply UpdateUserRole_authorised; [|exact Hf]; eapply by_owner_mono; [|exact Ho]; set_solver.
Qed.

(** *** Invites *)

Abbreviation by_owner := (by_owner hashSessionToken a).
Abbreviation by_admin := (by_admin hashSessionToken a).

Definition assignable (h : list accounts) (l : list (bytes * bytes * bytes)) : Prop := Forall (λ vnr, by_owner h ∨ by_admin h (fst (fst vnr))) l.
Lemma assignable_mono h h' l : h ⊆ h' → assignable h l → assignable h' l.
Proof. intros Hs Hl. eapply Forall_impl; [exact Hl|]. intros [[v n] r] [?|?]; [left; by eapply by_owner_mono|right; by eapply by_admin_mono]. Qed.

Lemma hp_resolve_vaults actor l h : known hashSessionToken a h actor → hp (resolve_vaults actor l) assignable h.
Proof.
  revert h. induction l as [|[name role] l IH]; intros h Hk; cbn [resolve_vaults]; [by apply hp_ok, Forall_nil|]. hstep. hstep. hstep. hstep.
  match goal with x : bytes * VaultRow |- _ => destruct x as [v row] end. hstep. eapply hp_mono; [|apply hp_admin_of; eapply known_mono; [|exact Hk]; set_solver]. cbn beta.
  intros h1 _ Hs1 Hv. apply hp_bind. eapply hp_mono; [|apply IH; eapply known_mono; [|exact Hk]; set_solver]. cbn beta. intros h2 rest Hs2 Hrest. apply hp_ok, Forall_cons.
  split; [|done]. destruct Hv; [left; by eapply by_owner_mono|right; by eapply by_admin_mono].
Qed.

Lemma hp_resolve_grants actor l h : known hashSessionToken a h actor → hp (resolve_grants actor l) assignable h.
Proof.
  revert h. induction l as [|[name role] l IH]; intros h Hk; cbn [resolve_grants]; [by apply hp_ok, Forall_nil|]. hstep. hstep. hstep. hstep.
  match goal with x : bytes * VaultRow |- _ => destruct x as [v row] end. hstep. eapply hp_mono; [|apply hp_admin_of; eapply known_mono; [|exact Hk]; set_solver]. cbn beta.
  intros h1 _ Hs1 Hv. apply hp_bind. eapply hp_mono; [|apply IH; eapply known_mono; [|exact Hk]; set_solver]. cbn beta. intros h2 rest Hs2 Hrest. apply hp_ok, Forall_cons.
  split; [|done]. destruct Hv; [left; by eapply by_owner_mono|right; by eapply by_admin_mono].
Qed.

Lemma good_invite_reply mail email fields token expires h : good (invite_reply baseURL mail email fields token expires) h.
Proof. unfold invite_reply. destruct mail as [[]|]; apply hp_finish. Qed.

Lemma good_handleUserInviteCreate s body id token mail h :
  carried s h → good (handleUserInviteCreate unit hashToken validAddress read_domains baseURL s body id token mail) h.
Proof.
  intros Hc. unfold handleUserInviteCreate. hstep. after hp_requireInstanceMember. intros h1 actor _ [Hk _]. destruct body as [req|]; [|apply hp_refuse].
  skim. assert (Hs : h1 ⊆ h'2) by set_solver. eapply hp_mono; [|apply hp_resolve_vaults; by eapply known_mono]. cbn beta. intros h3 vaults Hs3 Hv. hstep. hstep.
  hstep. hstep. apply hp_store_all; [|intros h4 [?|?] _; [apply good_invite_reply|done]].
  intros t' d e Hd He. split; [by eapply CreateUserInvite_ok|]. eapply CreateUserInvite_authorised; [| |exact He].
  - intros Hr. rewrite Hr in H1. left. eapply by_owner_mono; [|by eapply known_owner]. by etrans.
  - apply Forall_map. eapply Forall_impl; [exact Hv|]. intros [[v n] r3] [?|?]; auto.
Qed.

Abbreviation invited := (invited hashToken a).

Lemma invited_here token d h id i :
  presented (ar_Endpoint a) = Some token → GetUserInviteByToken hashToken token d = Ok (id, i) → iv_Status i ∉ closed_statuses → invited (d :: h) i.
Proof.
  intros Hp. unfold GetUserInviteByToken. destruct (invite_by_hash _ d) as [[id' i']|] eqn:E; [|done]. intros [= -> ->] Hs. apply invite_by_hash_Some in E as [? ?].
  exists d, id, token. split_and!; try done. apply list_elem_of_here.
Qed.

Lemma good_handleUserInviteDetails token h : good (handleUserInviteDetails hashToken token) h.
Proof. unfold handleUserInviteDetails. walk. Qed.

Lemma hp_grant_invited user vaults h i :
  invited h i → Forall (λ vr, iv_Vaults i !! fst vr = Some (snd vr)) vaults → good (grant_invited unit user vaults) h.
Proof.
  intros Hi Hv. revert h Hi. induction Hv as [|[v role] vaults Hvr _ IH]; intros h Hi; cbn [grant_invited]; [by apply hp_ok|]. hstep. hstep.
  apply hp_store_all; [|intros h' [?|?] Hs; [|done]; apply IH; by eapply invited_mono].
  intros t d e Hd He. split; [by eapply GrantVaultRole_ok|]. eapply GrantVaultRole_authorised; [|exact He]. right. right. left. by exists i.
Qed.

Lemma vaults_of_invite i : Forall (λ vr, iv_Vaults i !! fst vr = Some (snd vr)) (map_to_list (iv_Vaults i)).
Proof. apply Forall_forall. intros [v r] ?%elem_of_map_to_list. done. Qed.

Lemma good_handleUserInviteAccept token password userID hashed h :
  presented (ar_Endpoint a) = Some token → good (handleUserInviteAccept unit hashToken read_domains token password userID hashed) h.
Proof.
  intros Hp. unfold handleUserInviteAccept. hstep. hstep. match goal with x : Z * InviteRow |- _ => destruct x as [id inv] end. hstep. hstep. hstep.
  match goal with H : negb _ = true |- _ => apply negb_true_iff, bool_decide_eq_false in H; rename H into Hopen end.
  match goal with H : GetUserInviteByToken _ _ _ = Ok _ |- _ => pose proof (invited_here _ _ h _ _ Hp H Hopen) as Hi end.
  match goal with |- context [?d :: h] => set (h1 := d :: h) in * end. do 4 hstep. apply hp_lookup_any. intros h2 existing Hs2. hstep.
  apply hp_true; [|skim]. intros h3 u3 Hs3. hstep. hstep. quiet_store. cbn beta.
  match goal with |- context [match ?r with _ => _ end] => destruct r; [|done] end. match goal with Hs : h3 ⊆ ?h4 |- _ => assert (Hi4 : invited h4 inv) by (eapply invited_mono; [|exact Hi]; set_solver) end.
  assert (Hgrants : ∀ user h5, invited h5 inv → good (grant_invited unit user (map_to_list (iv_Vaults inv)) ≫= λ _ : (), (jsonOK [text #"email" (iv_Email inv)] : action reply)) h5).
  { intros user h5 Hi5. hstep. apply hp_true; [|eapply hp_grant_invited; [exact Hi5|apply vaults_of_invite]]. intros. apply hp_finish. }
  destruct existing as [[user u]|]; hstep; [apply hp_ok, Hgrants, Hi4|]. destruct hashed as [pw|]; [|apply hp_refuse]. hstep. hstep.
  apply hp_store_all.
  - intros t' d' e Hd He. split; [by eapply insert_user_ok|]. eapply CreateUser_authorised; [|exact He]. intros Hr. right. by exists inv.
  - intros h5 [?|?] Hs5; [|done]. do 2 hstep. quiet_store. cbn beta. match goal with |- context [match ?r with _ => _ end] => destruct r; [|done] end. apply hp_ok, Hgrants.
    eapply invited_mono; [|exact Hi4]. set_solver.
Qed.

Lemma good_handleUserInviteList s status h : carried s h → good (handleUserInviteList s status) h.
Proof. intros Hc. unfold handleUserInviteList. hstep. after hp_requireInstanceMember. intros h1 actor _ _. walk. Qed.

Lemma good_handleUserInviteRevoke s token h : carried s h → good (handleUserInviteRevoke hashToken s token) h.
Proof.
  intros Hc. unfold handleUserInviteRevoke. hstep. after hp_requireInstanceMember. intros h1 actor _ _. do 6 hstep. apply hp_true; [|apply hp_may_manage]. intros. walk.
Qed.

Lemma pending_open : #"pending" ∉ closed_statuses.
Proof. assert (E : bool_decide (#"pending" ∈ closed_statuses) = false) by (vm_compute; reflexivity). by apply bool_decide_eq_false in E. Qed.

Lemma good_handleUserInviteReinvite s token id fresh mail h :
  carried s h → presented (ar_Endpoint a) = Some token → good (handleUserInviteReinvite unit hashToken baseURL s token id fresh mail) h.
Proof.
  intros Hc Hp. unfold handleUserInviteReinvite. hstep. after hp_requireInstanceMember. intros h1 actor _ _. do 2 hstep. match goal with x : Z * InviteRow |- _ => destruct x as [k inv] end. do 3 hstep.
  match goal with H : bool_decide (iv_Status inv = _) = true |- _ => apply bool_decide_eq_true in H; rename H into Hs end.
  match goal with H : GetUserInviteByToken _ _ _ = Ok _ |- _ => pose proof (invited_here _ _ h1 _ _ Hp H) as Hi end.
  apply hp_true; [|apply hp_may_manage]. intros h2 allowed Hs2. do 4 hstep. quiet_store. cbn beta. match goal with |- context [match ?r with _ => _ end] => destruct r; [|done] end.
  do 4 hstep. apply hp_store_all; [|intros h4 [?|?] _; [apply good_invite_reply|done]].
  match goal with Hs4 : h2 ⊆ ?h4 |- _ => assert (Hi4 : invited h4 inv) end.
  { eapply invited_mono; [|apply Hi; rewrite Hs; exact pending_open]; set_solver. }
  intros t' d' e Hd He. split; [by eapply CreateUserInvite_ok|]. eapply CreateUserInvite_authorised; [| |exact He].
  - intros Hr. right. by exists inv.
  - eapply Forall_impl; [apply vaults_of_invite|]. intros vr Hvr. right. right. by exists inv.
Qed.

(** *** Agents *)

Lemma hp_store_duplicate op (Q : list accounts → () → Prop) h : hp (store op) (λ h' r, match r with Ok x => Q h' x | Err _ => True end) h → hp (status_on_duplicate sqlite (store op)) Q h.
Proof. intros H. apply hp_bind. eapply hp_mono; [|exact H]. cbn beta. intros h' [x|er] _ Hx; [by apply hp_ok|]. by destruct (unique_text _ _). Qed.

Lemma good_handleAgentCreate s body id token h : carried s h → good (handleAgentCreate unit hashSessionToken sqlite s body id token) h.
Proof.
  intros Hc. unfold handleAgentCreate. hstep. after hp_requireInstanceMember. intros h1 actor _ [Hk _]. destruct body as [req|]; [|apply hp_refuse].
  do 5 hstep. after hp_resolve_grants. intros h2 grants Hs2 Hg. do 5 hstep. apply hp_store_duplicate, hp_store_all; [|intros h3 [?|?] _; [apply hp_finish|done]].
  intros t d e Hd He. split; [by eapply CreateAgent_ok|]. eapply CreateAgent_authorised; [| |exact He].
  - match goal with H : _ || IsOwner actor = true |- _ => rename H into Hrole end. intros Hr. rewrite Hr in Hrole. eapply by_owner_mono; [exact Hs2|]. by eapply known_owner.
  - apply Forall_map. eapply Forall_impl; [exact Hg|]. intros [[v n] r3] [?|?]; auto.
Qed.

Lemma hp_managed_agent s name h : carried s h → good (managed_agent s name) h.
Proof. intros Hc. unfold managed_agent. hstep. after hp_requireInstanceMember. intros h1 actor _ _. skim. Qed.

Lemma good_managed s name (k : Actor * bytes * Agent → action reply) h : carried s h → (∀ h' x, good (k x) h') → good (managed_agent s name ≫= k) h.
Proof. intros Hc Hk. apply hp_bind, hp_true; [|by apply hp_managed_agent]. intros. apply Hk. Qed.

Lemma good_handleAgentRevoke s name h : carried s h → good (handleAgentRevoke unit s name) h.
Proof. intros Hc. unfold handleAgentRevoke. apply good_managed; [done|]. intros h' x. destruct x as [[x id] g]. skim. Qed.
Lemma good_handleAgentDelete s name h : carried s h → good (handleAgentDelete s name) h.
Proof. intros Hc. unfold handleAgentDelete. apply good_managed; [done|]. intros h' x. destruct x as [[x id] g]. skim. Qed.
Lemma good_handleAgentRotate s name token h : carried s h → good (handleAgentRotate unit hashSessionToken s name token) h.
Proof. intros Hc. unfold handleAgentRotate. apply good_managed; [done|]. intros h' x. destruct x as [[x id] g]. skim. Qed.
Lemma good_handleAgentRename s name body h : carried s h → good (handleAgentRename s name body) h.
Proof. intros Hc. unfold handleAgentRename. apply good_managed; [done|]. intros h' x. destruct x as [[x id] g]. skim. Qed.

Lemma good_handleAgentList s h : carried s h → good (handleAgentList unit s) h.
Proof.
  intros Hc. unfold handleAgentList. hstep. after hp_requireInstanceMember. intros h1 actor _ _. walk; reading hp_agent_items; apply hp_finish.
Qed.
Lemma good_handleAgentGet s name h : carried s h → good (handleAgentGet unit s name) h.
Proof. intros Hc. unfold handleAgentGet. hstep. after hp_requireInstanceMember. intros h1 actor _ _. walk. Qed.

Lemma good_handleAgentSetRole s name body h : carried s h → good (handleAgentSetRole s name body) h.
Proof.
  intros Hc. unfold handleAgentSetRole. hstep. after hp_requireOwnerActor. intros h1 actor _ [_ Ho]. skim.
  all: apply hp_store_all; [|intros ? ? _; walk].
  all: intros t e f He Hf; split; [by eapply UpdateAgentRole_ok|]; eapply UpdateAgentRole_authorised; [|exact Hf]; eapply by_owner_mono; [|exact Ho]; set_solver.
Qed.

(** A grant on a vault of which the caller is an admin. *)
Lemma hp_admin_grants h x type v role : by_admin h v → hp (store (λ t, GrantVaultRole unit x type v role t)) (λ _ _, True) h.
Proof.
  intros Ha. apply hp_store_all; [|done]. intros t d e Hd He. split; [by eapply GrantVaultRole_ok|]. eapply GrantVaultRole_authorised; [|exact He]. by right; left.
Qed.

Lemma good_handleVaultAgentList s vault h : good (handleVaultAgentList s vault) h.
Proof. unfold handleVaultAgentList. do 2 hstep. match goal with x : bytes * VaultRow |- _ => destruct x as [v row] end. hstep. reading hp_requireVaultAccess. walk. Qed.

(** A handler that needs an admin of the vault it names. *)
Lemma good_admin s vault (k : bytes → action reply) h :
  carried s h → (∀ v h', by_admin h' v → good (k v) h') → good ('(v, _) ← find_or 404 (GetVault vault); _ ← requireVaultAdmin s v; k v) h.
Proof.
  intros Hc Hk. do 2 hstep. match goal with x : bytes * VaultRow |- _ => destruct x as [v row] end. hstep. eapply hp_mono; [|apply hp_requireVaultAdmin; eapply carried_mono; [|exact Hc]; set_solver].
  cbn beta. intros h' o _ Ha. by apply Hk.
Qed.

Lemma good_handleVaultAgentAdd s vault body h : carried s h → good (handleVaultAgentAdd unit s vault body) h.
Proof. intros Hc. unfold handleVaultAgentAdd. apply good_admin; [done|]. intros v h1 Ha. destruct (default _ body) as [name role]. skim; apply hp_true; [intros; walk|]; apply hp_admin_grants; (eapply by_admin_mono; [|exact Ha]); set_solver. Qed.
Lemma good_handleVaultAgentRemove s vault name h : carried s h → good (handleVaultAgentRemove s vault name) h.
Proof. intros Hc. unfold handleVaultAgentRemove. apply good_admin; [done|]. intros v h1 Ha. skim. Qed.
Lemma good_handleVaultAgentSetRole s vault name body h : carried s h → good (handleVaultAgentSetRole unit s vault name body) h.
Proof.
  intros Hc. unfold handleVaultAgentSetRole. apply good_admin; [done|]. intros v h1 Ha. skim; apply hp_true; [intros; walk|]; apply hp_admin_grants; (eapply by_admin_mono; [|exact Ha]); set_solver.
Qed.
Lemma good_handleVaultUserAdd s vault body h : carried s h → good (handleVaultUserAdd unit validAddress s vault body) h.
Proof.
  intros Hc. unfold handleVaultUserAdd. apply good_admin; [done|]. intros v h1 Ha. skim; apply hp_true; [intros; walk|]; apply hp_admin_grants; (eapply by_admin_mono; [|exact Ha]); set_solver.
Qed.
Lemma good_handleVaultUserRemove s vault email h : carried s h → good (handleVaultUserRemove s vault email) h.
Proof. intros Hc. unfold handleVaultUserRemove. apply good_admin; [done|]. intros v h1 Ha. skim. Qed.
Lemma good_handleVaultUserSetRole s vault email body h : carried s h → good (handleVaultUserSetRole unit s vault email body) h.
Proof.
  intros Hc. unfold handleVaultUserSetRole. apply good_admin; [done|]. intros v h1 Ha. skim; apply hp_true; try (by intros; walk); apply hp_admin_grants; (eapply by_admin_mono; [|exact Ha]); set_solver.
Qed.

(** *** Vaults *)

Lemma hp_resolveVault s name h : good (resolveVaultForAdminOrOwner s name) h.
Proof.
  unfold resolveVaultForAdminOrOwner. do 2 hstep. match goal with x : bytes * VaultRow |- _ => destruct x as [v row] end. hstep. reading hp_requireActor_true. skim.
Qed.

Lemma good_handleVaultDelete s name h : good (handleVaultDelete s name) h.
Proof. unfold handleVaultDelete. do 3 hstep. apply hp_true; [|apply hp_resolveVault]. intros. walk. Qed.
Lemma good_handleVaultRename s name body h : good (handleVaultRename s name body) h.
Proof. unfold handleVaultRename. do 3 hstep. apply hp_true; [|apply hp_resolveVault]. intros. unfold rename_vault. skim. Qed.
Lemma good_handleAdminVaultList s h : carried s h → good (handleAdminVaultList s) h.
Proof. intros Hc. unfold handleAdminVaultList. hstep. after hp_requireOwnerActor. intros h1 actor _ _. walk. Qed.
Lemma good_handleVaultLeave s vault h : good (handleVaultLeave s vault) h.
Proof. unfold handleVaultLeave. do 2 hstep. match goal with x : bytes * VaultRow |- _ => destruct x as [v row] end. hstep. reading hp_requireVaultAccess. skim. Qed.

Lemma good_handleVaultJoin s vault h : carried s h → good (handleVaultJoin unit s vault) h.
Proof.
  intros Hc. unfold handleVaultJoin. hstep. after hp_requireOwnerActor. intros h1 actor _ [_ Ho]. skim.
  all: apply hp_store_all; [|intros; walk]; intros t e f He Hf; split; [by eapply GrantVaultRole_ok|]; eapply GrantVaultRole_authorised; [|exact Hf]; left; (eapply by_owner_mono; [|exact Ho]); set_solver.
Qed.

Lemma good_handleVaultCreate s body id h : carried s h → good (handleVaultCreate unit sqlite s body id) h.
Proof.
  intros Hc. unfold handleVaultCreate. hstep. after hp_requireInstanceMember. intros h1 actor _ [_ Hm]. destruct body as [[name external]|]; [|apply hp_refuse].
  do 6 hstep. destruct external as [snapshot|].
  - do 2 hstep. unfold createExternalVault. destruct snapshot as [?|?]; [|apply hp_finish]. hstep. apply hp_store_duplicate, hp_store_all; [|intros ? [?|?] _; [apply hp_finish|done]].
    intros t d e Hd He. split; [|by eapply CreateExternalVault_authorised]. unfold CreateExternalVault in He. destruct (_ || _); [done|].
    apply result_bind_Ok in He as (d1 & Hcreate%CreateVault_ok & Hgrant); [|done]. by eapply GrantVaultRole_ok.
  - hstep. apply hp_store_duplicate, hp_store; try done; intros t d e Hd He.
    + split; [by eapply CreateVault_ok|]. by eapply quiet_authorised, CreateVault_quiet.
    + cbn beta iota. hstep. apply hp_store_all; [|intros; walk]. intros t' d' e' Hd' He'. split; [by eapply GrantVaultRole_ok|]. eapply GrantVaultRole_authorised; [|exact He'].
      apply CreateVault_spec in He as (Hid & _). right. right. right. left. split; [eapply by_member_mono; [|exact Hm]; set_solver|].
      exists d. split; [|done]. apply elem_of_cons. right. apply list_elem_of_here.
Qed.

(** *** Sessions *)

Lemma good_handleScopedSession s body token publicID h : carried s h → good (handleScopedSession unit hashSessionToken s body token publicID baseURL) h.
Proof.
  intros Hc. unfold handleScopedSession. destruct body as [req|]; [|apply hp_refuse]. do 8 hstep. do 2 hstep. match goal with x : bytes * VaultRow |- _ => destruct x as [v row] end. hstep.
  eapply hp_mono; [|apply hp_requireVaultMember; eapply carried_mono; [|exact Hc]; set_solver]. cbn beta. intros h1 o _ Hm. do 3 hstep.
  apply hp_true; [|apply hp_actorFromSession_true]. intros h2 by_ Hs2. set (who := match by_ with Ok a0 => (at_ID a0, at_Type a0) | Err _ => ([], []) end). destruct who as [by_id by_type].
  hstep. hstep. apply hp_store_all; [|intros ? [?|?] _; [apply hp_finish|done]].
  intros t' d' e Hd He. split; [eapply CreateScopedSession_ok; [exact Hd| |exact He]; done|]. eapply CreateScopedSession_authorised; [| |exact He]; [done|]. eapply by_vault_member_mono; [exact Hs2|exact Hm].
Qed.

(** A handler that needs a member of the vault it names. *)
Lemma good_member s vault (k : bytes → action reply) h :
  carried s h → (∀ v h', good (k v) h') → good ('(v, _) ← find_or 404 (GetVault vault); _ ← requireVaultMember s v; k v) h.
Proof.
  intros Hc Hk. do 2 hstep. match goal with x : bytes * VaultRow |- _ => destruct x as [v row] end. hstep. eapply hp_mono; [|apply hp_requireVaultMember; eapply carried_mono; [|exact Hc]; set_solver].
  cbn beta. intros. apply Hk.
Qed.

Lemma good_handleListScopedSessions s vault h : carried s h → good (handleListScopedSessions unit s vault) h.
Proof. intros Hc. unfold handleListScopedSessions. do 2 hstep. apply good_member; [done|]. intros v h'. skim. apply hp_true; [|apply hp_session_views]. intros. apply hp_finish. Qed.

Lemma good_revoked (r : result db_error ()) y h : good (revoked r y) h.
Proof. unfold revoked. destruct r as [?|[]]; done. Qed.

Lemma good_handleRevokeScopedSession s publicID vault h : carried s h → good (handleRevokeScopedSession s publicID vault) h.
Proof. intros Hc. unfold handleRevokeScopedSession. do 4 hstep. apply good_member; [done|]. intros v h'. hstep. quiet_store. apply good_revoked. Qed.

Lemma good_handleListUserSessions s h : good (handleListUserSessions unit s) h.
Proof. unfold handleListUserSessions. walk. Qed.
Lemma good_handleRevokeUserSession s publicID h : good (handleRevokeUserSession s publicID) h.
Proof. unfold handleRevokeUserSession. do 5 hstep. quiet_store. apply good_revoked. Qed.

(** *** Logins *)

Lemma hp_new_session rq user label draw (Q : list accounts → result db_error Z → Prop) h : (∀ h' r, h ⊆ h' → Q h' r) → hp (sign_in_session unit hashSessionToken rq user label draw) Q h.
Proof. intros HQ. apply hp_true; [done|]. unfold sign_in_session. walk. Qed.

Lemma hp_code email id code mail (Q : list accounts → result code_error bool → Prop) h : (∀ h' r, h ⊆ h' → Q h' r) → hp (generateAndSendVerificationCode unit hashToken email id code mail) Q h.
Proof. intros HQ. apply hp_true; [done|]. unfold generateAndSendVerificationCode. walk. Qed.
Lemma hp_sent_code email id code mail (Q : list accounts → bool → Prop) h : (∀ h' r, h ⊆ h' → Q h' r) → hp (sent_code unit hashToken email id code mail) Q h.
Proof. intros HQ. apply hp_true; [done|]. unfold sent_code. hstep. apply hp_code. intros h' [?|[]] _; done. Qed.

Local Ltac sign := repeat first [progress skim | progress walk
  | lazymatch goal with
    | |- _ (sign_in_session _ _ _ _ _ _) _ _ => apply hp_new_session; intros ? ? ?
    | |- _ (generateAndSendVerificationCode _ _ _ _ _ _) _ _ => apply hp_code; intros ? ? ?
    | |- _ (sent_code _ _ _ _ _ _) _ _ => apply hp_sent_code; intros ? ? ?
    | |- _ (verification_reply _ _) _ _ => apply hp_finish
    | |- _ (uniform _) _ _ => apply hp_finish
    | |- _ (signed_in _ _ _ _) _ _ => apply hp_finish
    end].

Lemma good_handleRegister rq body draw mail h : good (handleRegister unit hashSessionToken hashToken validAddress read_domains argon2 rq body draw mail) h.
Proof.
  unfold handleRegister. destruct body as [req|]; [|apply hp_refuse]. do 5 hstep. apply hp_count_any. intros h0 users _. hstep. apply hp_true; [|sign]. intros h1 u1 _. hstep. apply hp_lookup_any. intros h2 existing _.
  destruct existing as [[id u]|]; [sign|]. destruct (HashUserPassword _ _ _) as [pw|]; [|apply hp_refuse]. hstep. apply hp_lookup_any. intros h3 vault _. hstep. apply hp_store_all.
  - intros t d e Hd He. split; [by eapply RegisterFirstUser_ok|by eapply RegisterFirstUser_authorised].
  - intros h4 [?|er] _; [sign|]. destruct er; try apply hp_refuse. hstep. apply hp_checkEmailDomain. intros h5 allowed _. do 4 hstep.
    apply hp_quiet; [by intros t d e Hd He; eapply insert_user_ok|by intros t d e He; eapply CreateUser_quiet; [|exact He]|]. intros h6 [?|?] _; sign.
Qed.

Lemma good_handleVerify rq body tries draw h : good (handleVerify unit hashSessionToken hashToken rq body tries draw) h.
Proof. unfold handleVerify. sign. Qed.
Lemma good_handleResendVerification body id code mail h : good (handleResendVerification unit hashToken body id code mail) h.
Proof. unfold handleResendVerification. sign. Qed.
Lemma good_handleForgotPassword body id code mail h : good (handleForgotPassword unit hashToken body id code mail) h.
Proof. unfold handleForgotPassword. sign. Qed.
Lemma good_handleResetPassword rq body tries salt draw h : good (handleResetPassword unit hashSessionToken hashToken argon2 rq body tries salt draw) h.
Proof. unfold handleResetPassword. sign. Qed.
Lemma good_handleChangePassword rq s body salt draw h : good (handleChangePassword unit hashSessionToken argon2 rq s body salt draw) h.
Proof. unfold handleChangePassword. sign. Qed.
Lemma good_handleLogin rq body tries draw h : good (handleLogin unit hashSessionToken argon2 rq body tries draw) h.
Proof. unfold handleLogin. sign. Qed.
Lemma good_handleDeleteAccount s h : good (handleDeleteAccount s) h.
Proof. unfold handleDeleteAccount. sign. Qed.
Lemma good_handleLogout rq h : good (handleLogout hashSessionToken rq) h.
Proof. unfold handleLogout. sign. Qed.
Lemma good_handleAuthMe s h : good (handleAuthMe s) h.
Proof. unfold handleAuthMe. hstep. hstep. apply hp_true; [|apply hp_actorFromSession_true]. intros h' [actor|?] _; [|done]. walk. Qed.

(** *** Routes *)

Lemma good_open_route e rq h : presented (ar_Endpoint a) = presented e →
  good (open_route unit hashSessionToken hashToken validAddress read_domains argon2 e rq) h.
Proof.
  intros Hp. destruct e; cbn [open_route]; try apply hp_refuse.
  - apply good_handleRegister.
  - apply good_handleVerify.
  - apply good_handleResendVerification.
  - apply good_handleForgotPassword.
  - apply good_handleResetPassword.
  - apply good_handleLogin.
  - apply good_handleLogout.
  - apply good_handleUserInviteDetails.
  - by apply good_handleUserInviteAccept.
Qed.

Create HintDb handlers.
#[local] Hint Resolve good_handleAuthMe good_handleChangePassword good_handleDeleteAccount good_handleListUserSessions good_handleRevokeUserSession good_handleScopedSession good_handleListScopedSessions
  good_handleRevokeScopedSession good_handleAgentCreate good_handleAgentList good_handleAgentGet good_handleAgentRevoke good_handleAgentDelete good_handleAgentRotate good_handleAgentRename
  good_handleAgentSetRole good_handleVaultAgentList good_handleVaultAgentAdd good_handleVaultAgentRemove good_handleVaultAgentSetRole good_handlePublicUserList good_handleUserGet good_handleUserDelete
  good_handleUserSetRole good_handleVaultCreate good_handleVaultDelete good_handleVaultRename good_handleVaultJoin good_handleVaultLeave good_handleAdminVaultList good_handleUserInviteCreate
  good_handleUserInviteList good_handleUserInviteRevoke good_handleUserInviteReinvite good_handleVaultUserAdd good_handleVaultUserRemove good_handleVaultUserSetRole : handlers.

Lemma good_authed e rq s p h : presented (ar_Endpoint a) = presented e → carried s h →
  authed unit hashSessionToken hashToken sqlite validAddress read_domains argon2 baseURL e rq s = Some p → good p h.
Proof. intros Hp Hc. destruct e; cbn [authed presented] in *; intros [= <-]; auto with handlers. Qed.

Lemma good_requireAuth cache next h : (∀ s h', carried s h' → good (next s) h') → good (requireAuth unit hashSessionToken cache (ar_Request a) next) h.
Proof.
  intros Hn. unfold requireAuth. destruct (session_token (ar_Request a)) as [token|] eqn:Et; [|apply hp_refuse]. hstep. hstep. apply hp_query; [done|]. intros t d Hd.
  unfold GetSession. destruct (ac_sessions d !! hashSessionToken token) as [s|] eqn:Es; [|done]. cbn [found]. cbn beta iota.
  assert (Hc : carried s (d :: h)) by (exists d, token; split_and!; try done; apply list_elem_of_here).
  do 5 hstep. apply hp_true; [|unfold maybeTouchSession; walk]. intros h' _ Hs. apply Hn. by eapply carried_mono.
Qed.

Lemma good_serve : good (serve unit hashSessionToken hashToken sqlite validAddress read_domains argon2 baseURL a) [].
Proof.
  unfold serve. set (inner := if needs_session _ then _ else _). assert (Hin : ∀ h, good inner h).
  { intros h. subst inner. destruct (needs_session (ar_Endpoint a)).
    - apply good_requireAuth. intros s h' Hc. destruct (ar_Allowed a); [|apply hp_refuse]. destruct (authed _ _ _ _ _ _ _ _ _ _ s) as [p|] eqn:E; [|apply hp_refuse]. by eapply good_authed.
    - destruct (ar_Allowed a); [by apply good_open_route|apply hp_refuse]. }
  destruct (before_owner _); [apply Hin|]. unfold requireInitialized. destruct (ar_Initialized a); [apply Hin|]. destruct (ar_Recent a); [apply hp_refuse|].
  hstep. apply hp_count_any. intros h n _. destruct n as [n|]; [|apply hp_refuse]. destruct (0 <? n); [apply Hin|apply hp_refuse].
Qed.
End Handlers.

(** ** Every interleaving *)

Section Worlds.
Context {unicode : UnicodeTables}.
Context (unit : Z) (hashSessionToken hashToken : bytes → bytes) (sqlite : bool) (validAddress : bytes → bool) (read_domains : bytes → option (list bytes)).
Context (argon2 : bytes → bytes → Z → Z → Z → Z → bytes) (baseURL : bytes).
Abbreviation step := (wstep unit hashSessionToken hashToken sqlite validAddress read_domains argon2 baseURL).
Abbreviation authorised := (authorised hashSessionToken hashToken).

(** A call that is allowed leaves good tables and a request that is still allowed. *)
Lemma call_sound a l t d h (p : prog (result reply reply)) d' h' p' :
  accounts_ok d → wp accounts_ok (authorised a) p (λ _ _, True) h → call l t d h p = Some (d', h', p') →
  accounts_ok d' ∧ wp accounts_ok (authorised a) p' (λ _ _, True) h' ∧ (d' = d ∨ authorised a h d d').
Proof using Type.
  intros Hd. destruct p as [x|k|op k|k]; cbn [wp call]; [done| | |].
  - intros [H1 H2] [= <- <- <-]. split; [done|]. split; [|by left]. destruct l; cbn; auto.
  - intros [H1 H2]. specialize (H2 t d Hd). unfold attempt. destruct (op t d) as [e|er].
    + destruct H2 as (He & Hg & Hk). destruct l; intros [= <- <- <-]; auto.
    + destruct l; intros [= <- <- <-]; auto.
  - intros H [= <- <- <-]. auto.
Qed.

Definition in_order (w : world) : Prop :=
  accounts_ok (w_db w) ∧ Forall (λ '(a, h, p), h ⊆ w_past w ∧ wp accounts_ok (authorised a) p (λ _ _, True) h) (w_running w).

Lemma step_in_order w w' : in_order w → step w w' → in_order w'.
Proof using Type.
  intros Hw Hs. revert Hw. destruct Hs as [w a|w i a h p l t d' h' p' Hi Hc]; intros [Hd Hr]; split; cbn.
  - done.
  - apply Forall_app. split; [done|]. apply Forall_singleton. split; [set_solver|]. eapply wp_mono; [|apply good_serve]. done.
  - rewrite Forall_forall in Hr. destruct (Hr _ (list_elem_of_lookup_2 _ _ _ Hi)) as [_ Hwp]. by eapply call_sound.
  - destruct (Forall_lookup_1 _ _ _ _ Hr Hi) as [Hsub Hwp]. destruct (call_sound _ _ _ _ _ _ _ _ _ Hd Hwp Hc) as (_ & Hwp' & _).
    apply Forall_insert; [|split; [|done]].
    + eapply Forall_impl; [exact Hr|]. intros [[a1 h1] p1] [? ?]. split; [set_solver|done].
    + unfold call in Hc. destruct p as [x|k|op k|k]; [done| | |]; try destruct (attempt _ _ _); injection Hc as <- <- <-; destruct l; set_solver.
Qed.

Lemma run_in_order w w' : in_order w → rtc step w w' → in_order w'.
Proof using Type. intros H. induction 1 as [|x y z Hs _ IH]; [done|]. apply IH. by eapply step_in_order. Qed.

Lemma fresh_in_order d : accounts_ok d → in_order (fresh d).
Proof using Type. intros H. split; [done|apply Forall_nil_2]. Qed.

Lemma step_authorised w w' : in_order w → step w w' →
  w_db w' = w_db w ∨ ∃ a h, h ⊆ w_past w ∧ (∃ p, (a, h, p) ∈ w_running w) ∧ authorised a h (w_db w) (w_db w').
Proof using Type.
  intros Hw Hs. revert Hw. destruct Hs as [w a|w i a h p l t d' h' p' Hi Hc]; intros [Hd Hr]; [by left|]. destruct (Forall_lookup_1 _ _ _ _ Hr Hi) as [Hsub Hwp].
  destruct (call_sound _ _ _ _ _ _ _ _ _ Hd Hwp Hc) as (_ & _ & [->|Ha]); [by left|]. right. exists a, h. split_and!; [done| |done]. exists p. by eapply list_elem_of_lookup_2.
Qed.



End Worlds.
