(* ===== verification/ServerDemo.v ===== *)
(** * The management API at work

    A scheduler for the steps of [Requests], courses of concrete requests, and what
    the model shows of the handlers: two owners who demote each other at once leave
    none, a failed count lets a registration past the invite-only setting, and the
    password of an account is that of whoever registered the address first. *)

From S2P Require Import Prelude GoString RequestLogs AccountTheorems ServerAuth ServerUsers ServerVaults ServerLogin Requests AccessTheorems.

(** ** Schedules *)

Section Schedules.
Context {unicode : UnicodeTables}.
Context (unit : Z) (hashSessionToken hashToken : bytes → bytes) (sqlite : bool) (validAddress : bytes → bool) (read_domains : bytes → option (list bytes)).
Context (argon2 : bytes → bytes → Z → Z → Z → Z → bytes) (baseURL : bytes).
Abbreviation step := (wstep unit hashSessionToken hashToken sqlite validAddress read_domains argon2 baseURL).

(** A request arrives, or the [i]-th makes its next call. *)
Inductive move := Arrive (a : arrival) | Call (i : nat) (l : luck) (t : Z).

Definition play1 (w : world) (m : move) : world :=
  match m with
  | Arrive a => {| w_db := w_db w; w_past := w_past w; w_running := w_running w ++ [(a, [], serve unit hashSessionToken hashToken sqlite validAddress read_domains argon2 baseURL a)] |}
  | Call i l t =>
      match w_running w !! i with
      | Some (a, h, p) =>
          match call l t (w_db w) h p with
          | Some (d', h', p') => {| w_db := d'; w_past := w_db w :: w_past w; w_running := <[i := (a, h', p')]> (w_running w) |}
          | None => w
          end
      | None => w
      end
  end.
Definition play : list move → world → world := flip (foldl play1).

Lemma play_steps ms w : rtc step w (play ms w).
Proof using Type.
  revert w. induction ms as [|m ms IH]; intros w; [apply rtc_refl|]. change (rtc step w (play ms (play1 w m))). etrans; [|apply IH].
  destruct m as [a|i l t]; cbn; [apply rtc_once, step_arrive|]. destruct (w_running w !! i) as [[[a h] p]|] eqn:Hi; [|apply rtc_refl].
  destruct (call l t (w_db w) h p) as [[[d' h'] p']|] eqn:Hc; [|apply rtc_refl]. apply rtc_once. by eapply step_call.
Qed.

Lemma call_step w i l t : w_db (play1 w (Call i l t)) ≠ w_db w → step w (play1 w (Call i l t)).
Proof using Type.
  cbn. destruct (w_running w !! i) as [[[a h] p]|] eqn:Hi; [|done]. destruct (call l t (w_db w) h p) as [[[d' h'] p']|] eqn:Hc; [|done]. intros _. by eapply step_call.
Qed.

(** The reply of the [i]-th request, once it has one. *)
Definition reply_of (w : world) (i : nat) : option Z :=
  match w_running w !! i with Some (_, _, Done (Ok r)) | Some (_, _, Done (Err r)) => Some (reply_status r) | _ => None end.
End Schedules.

(** ** Concrete parameters *)

Module ServerDemo.

#[local] Instance demo_tables : UnicodeTables := latin1_tables.

Definition id_hash (s : bytes) : bytes := s.
Definition any_address (s : bytes) : bool := true.
Definition no_domains (s : bytes) : option (list bytes) := Some [].
(** Argon2 put as the password after its salt. *)
Definition demo_kdf (password salt : bytes) (time memory threads len : Z) : bytes := salt ++ password.

Definition demo_serve : arrival → action reply := serve 1 id_hash id_hash false any_address no_domains demo_kdf #"https://av".
Definition demo_play : list move → world → world := play 1 id_hash id_hash false any_address no_domains demo_kdf #"https://av".

Definition browser (token : bytes) : request := {| rq_Authorization := if bool_decide (token = []) then [] else #"Bearer " ++ token; rq_Cookie := []; rq_ClientIP := #"10.0.0.1"; rq_UserAgent := [] |}.
Definition ask (token : bytes) (e : endpoint) : arrival :=
  {| ar_Request := browser token; ar_Touched := ∅; ar_Initialized := true; ar_Recent := false; ar_Allowed := true; ar_Endpoint := e |}.

Definition minute : Z := 60 * Second.
(** [n] calls of request [i], one a second from [t]. *)
Definition calls (i n : nat) (t : Z) : list move := map (λ k, Call i Runs (t + Z.of_nat k * Second)) (seq 0 n).

Definition register (email password : bytes) (user : bytes) (code : Z) (session : bytes) : arrival :=
  ask [] (Register (Some {| rg_Email := email; rg_Password := password; rg_DeviceLabel := [] |})
            {| rd_UserID := user; rd_Salt := Some #"salt"; rd_CodeID := code; rd_Code := code; rd_Session := {| dr_Token := session; dr_PublicID := #"p-" ++ session |} |} (Some true)).

Definition with_default : accounts := with_vaults <[ #"v0" := {| vt_Name := #"default"; vt_CreatedAt := 0 |}]> no_accounts.
Lemma with_default_ok : accounts_ok with_default.
Proof.
  apply ok_with_vaults; [apply no_accounts_ok| |]; cbn [no_accounts ac_vaults].
  - apply unique_insert; [apply unique_empty|]. intros j y Hj. by rewrite lookup_empty in Hj.
  - intros id [v Hv]. by rewrite lookup_empty in Hv.
Qed.

Definition day : list move := Arrive (register #"ann@x.io" #"correct horse" #"u1" 1 #"s1") :: calls 0 9 minute.
Definition first_day : world := demo_play day (fresh with_default).

(** The first user becomes the owner, an admin of the default vault, and is signed in. *)
Example first_user_owns :
  reply_of first_day 0 = Some 201 ∧ (us_Role <$> ac_users (w_db first_day) !! #"u1") = Some #"owner" ∧
  (gt_Role <$> ac_grants (w_db first_day) !! (#"u1", #"v0")) = Some #"admin" ∧ CountAllOwners (w_db first_day) = 1.
Proof. by vm_compute. Qed.

(** ** Two owners *)

Definition invite_bob : list move :=
  Arrive (ask #"s1" (InviteCreate (Some {| ir_Email := #"bob@x.io"; ir_Role := #"owner"; ir_Vaults := [(#"default", #"admin")] |}) 1 #"i1" (Some true))) :: calls 1 15 (2 * minute).
Definition accept (user : bytes) : arrival := ask [] (InviteAccept #"i1" #"battery staple" user (Some #"salt")).
Definition sign_in (email password session : bytes) : arrival :=
  ask [] (Login (Some {| lg_Email := email; lg_Password := password; lg_DeviceLabel := [] |}) true {| dr_Token := session; dr_PublicID := #"p-" ++ session |}).

Definition bob_joins : list move := Arrive (accept #"u2") :: calls 2 10 (3 * minute) ++ Arrive (sign_in #"bob@x.io" #"battery staple" #"s2") :: calls 3 4 (4 * minute).
Definition invited_world : world := demo_play invite_bob first_day.
Definition two_owners : world := demo_play bob_joins invited_world.

Example bob_owns : reply_of two_owners 2 = Some 200 ∧ reply_of two_owners 3 = Some 200 ∧ CountAllOwners (w_db two_owners) = 2 ∧
  (gt_Role <$> ac_grants (w_db two_owners) !! (#"u2", #"v0")) = Some #"admin" ∧ (iv_Status <$> ac_invites (w_db two_owners) !! 1) = Some #"accepted".
Proof. by vm_compute. Qed.

(** Each demotes the other.  Both count two owners before either writes. *)
Definition duel : list move :=
  [Arrive (ask #"s1" (UserSetRole #"bob@x.io" (Some #"member"))); Arrive (ask #"s2" (UserSetRole #"ann@x.io" (Some #"member")))] ++
  calls 4 7 (5 * minute) ++ calls 5 7 (6 * minute) ++ calls 4 1 (7 * minute) ++ calls 5 1 (7 * minute).

(** [guardLastOwner] counts the owners in a query of its own, so two requests that each
    leave one owner leave none together; nobody can then change a role. *)
Lemma owners_lost : let w := demo_play duel two_owners in
  reply_of w 4 = Some 200 ∧ reply_of w 5 = Some 200 ∧ CountAllOwners (w_db two_owners) = 2 ∧ CountAllOwners (w_db w) = 0.
Proof. by vm_compute. Qed.

(** One after the other, the second is refused. *)
Example duel_in_turn : let w := demo_play [Arrive (ask #"s1" (UserSetRole #"bob@x.io" (Some #"member"))); Arrive (ask #"s2" (UserSetRole #"ann@x.io" (Some #"member")))] two_owners in
  let w := demo_play (calls 4 8 (5 * minute) ++ calls 5 8 (6 * minute)) w in reply_of w 4 = Some 200 ∧ reply_of w 5 = Some 403 ∧ CountAllOwners (w_db w) = 1.
Proof. by vm_compute. Qed.

(** ** Registration *)

Definition closed_instance : world := fresh (match w_db first_day with d => {| ac_users := ac_users d; ac_agents := ac_agents d; ac_vaults := ac_vaults d; ac_grants := ac_grants d;
  ac_sessions := ac_sessions d; ac_invites := ac_invites d; ac_verifications := ac_verifications d; ac_resets := ac_resets d; ac_settings := {[ #"invite_only" := #"true" ]} |} end).

Definition eve : arrival := register #"eve@x.io" #"eavesdropper" #"u9" 9 #"s9".

(** An invite-only instance refuses a registration - unless the query that counts its
    users fails: the check is skipped, and after [ErrNotFirstUser] only the
    address's domain is checked again. *)
Lemma invite_only_passed :
  reply_of (demo_play (Arrive eve :: calls 0 9 minute) closed_instance) 0 = Some 403 ∧
  let w := demo_play (Arrive eve :: Call 0 FailsBefore minute :: calls 0 9 minute) closed_instance in
  reply_of w 0 = Some 201 ∧ (us_Email <$> ac_users (w_db w) !! #"u9") = Some #"eve@x.io".
Proof. by vm_compute. Qed.

(** Eve registers Kim's address; Kim registers and verifies it with the code mailed to
    her; the account has Eve's password. *)
Definition kim : arrival := register #"kim@x.io" #"kims password" #"u7" 7 #"s7".
Definition kim_verifies : arrival := ask [] (Verify (Some {| vr_Email := #"kim@x.io"; vr_Code := #"000007"; vr_DeviceLabel := [] |}) true {| dr_Token := #"s8"; dr_PublicID := #"p8" |}).
Definition prehijack : list move :=
  Arrive (register #"kim@x.io" #"eavesdropper" #"u9" 9 #"s9") :: calls 0 16 minute ++ Arrive kim :: calls 1 16 (2 * minute) ++ Arrive kim_verifies :: calls 2 9 (3 * minute) ++
  Arrive (sign_in #"kim@x.io" #"eavesdropper" #"s10") :: calls 3 4 (4 * minute) ++ Arrive (sign_in #"kim@x.io" #"kims password" #"s11") :: calls 4 4 (5 * minute).

Lemma first_password_stays : let w := demo_play prehijack (fresh (w_db first_day)) in
  reply_of w 0 = Some 201 ∧ reply_of w 1 = Some 201 ∧ reply_of w 2 = Some 200 ∧ reply_of w 3 = Some 200 ∧ reply_of w 4 = Some 401.
Proof. by vm_compute. Qed.

(** ** Witnesses *)


(** Before and after the write that makes the first owner. *)
Definition before_owner_row : world := demo_play (Arrive (register #"ann@x.io" #"correct horse" #"u1" 1 #"s1") :: calls 0 3 minute) (fresh with_default).
Definition owner_write : move := Call 0 Runs (2 * minute).


Definition bob_accepts : list move := Arrive (accept #"u2") :: calls 2 5 (3 * minute).
Definition claimed : world := demo_play bob_accepts invited_world.

End ServerDemo.
